(* ===== verification/_CoqProject ===== *)
-Q . S2P
Prelude.v
Status.v
Endian.v
Crc32c.v
Wire.v
MemoryBudget.v
Refcount.v
Observability.v
BufferPool.v
TimerQueue.v
Parser.v
ReactorTx.v
Deadline.v
WaitQueue.v
CompletionQueue.v
CommandQueue.v
ReactorCall.v
StreamIndex.v
ChannelTypes.v
ChannelSlots.v
StreamFlow.v
ChannelHello.v
Message.v
ZstdWorkspace.v
Zstd.v
MessageTransform.v
RpcRecord.v
RecordStats.v
RecordMetadata.v
RpcMetadata.v
ProbeTable.v
Facade.v
ProducerDomain.v
RecordProducer.v
RecordStream.v
RecordRouter.v
TaskExecutor.v
PipelineRoute.v
PipelineControlWire.v
Pipeline.v
PipelineSpec.v
PipelineRegistry.v
PipelineControl.v
