(* ===== verification/Prelude.v ===== *)
(** A verification library for c-trpc, a C transport and RPC framework.

    * The program

    Bytes of a connection are cut into frames ([transport/protocol]); frames carry streams;
    streams carry the records of RPC calls ([rpc]).  Every connection lives on one reactor
    thread; other threads reach it through bounded queues ([execution]).  Memory is counted
    against budgets, and buffers come from pools.  The components modelled, the file that
    models each, and what it is proved against:

    - Status: [include/tr/status.h].  Endian: [endian.h].  Crc32c: [crc32c.c], the table
      driven and the SSE4.2 update against bitwise polynomial division.
    - Wire: [transport/protocol/wire.c], the 40 byte frame header.  Parser: [parser.c] and
      [frame.c], the incremental frame parser; it is proved against the interface
      [BufferSource], which BufferPool implements.
      ReactorTx: the sending side of a connection, of [execution/reactor.c]: how messages are
      cut into frames, in which order they go, and the loop that hands them to the kernel.
    - MemoryBudget: [memory_budget.h], as sequential operations and as interleaved
      compare-and-exchange loops; it exports the interface [Budget], against which
      BufferPool, Message and RecordStream are proved.  Refcount: [refcount.h], likewise
      interleaved.  Observability: [observability.h].
    - BufferPool: [execution/buffer.c].  TimerQueue: [execution/timer_queue.c], a binary
      heap with a free list.  Deadline: [execution/deadline.c].
    - WaitQueue: what [completion_queue.c] and [command_queue.c] have in common, blocking
      producers over a bounded ring, as an interface with its theorems; CompletionQueue and
      CommandQueue implement it.  TaskExecutor: [execution/task_executor.c] and
      [worker_context.c], a pool of worker threads with a delivering owner.
    - Message: [message/message.c], shared storage and its handles.  ZstdWorkspace and Zstd:
      [message/zstd.c], the bounded memory the library works in, and the loops that drive it
      (the library is the class [Zstd], with its documented laws in [ZstdCalls] and
      [ZstdFrames]).  MessageTransform: [message/transform.c], the operation around them.
    - RpcRecord: [rpc/rpc_record.c], the record codec and the state of a call.
      RecordMetadata: its metadata blocks.  RecordStats: [rpc_record_stats.h].
      RecordStream: [rpc/rpc_record_stream.c], a call bound to a stream.  RecordRouter:
      [rpc_record_router.c], which binds the calls of a service to the streams of a
      connection.
      ProducerDomain and RecordProducer: [rpc/rpc_record_producer.c], the mailbox by which
      application threads reply, and the domain that its memory is counted in.
    - RpcMetadata: the metadata of the public interface, [rpc_v2.c] and [rpc_codec.c].
      Facade: [facade.c], [facade_binding.c], and the sizing functions of [rpc_v2.c].
    - PipelineRoute and PipelineControlWire: [group/pipeline_route.c] and
      [pipeline_control_wire.c], the preface and the control messages of pipelines.
      ProbeTable: the open addressing that [pipeline.c] and [pipeline_registry.c] share.
      ReactorCall: the synchronous calls into a reactor's owner, of [execution/reactor.c].
      Pipeline: [group/pipeline.c]; PipelineSpec proves it against an abstract group.
      PipelineRegistry: [pipeline_registry.c], proved against a directory of groups.
      PipelineControl: [pipeline_control.c], the sessions that compose all of these.
    - StreamIndex: the table of streams by id of [transport/channel/channel.c].  ChannelTypes:
      its structures, and the handles that other components keep.  ChannelSlots: the slots
      of its streams.  StreamFlow: sending, receiving and flow control of a stream, and two
      channels put together; it uses what ReactorTx makes of a message and the frames of Parser.
      ChannelHello: the handshake by which two channels agree on versions, features and limits.

    * Conventions

    An operation keeps the name of the C function and takes a [Some] for every non-NULL
    pointer; what a pointer's target is left as is part of the result.  Where a C function
    has a body after its NULL checks that other definitions use, the body is a definition of
    its own with a short name.  Early returns are the notation [bail] of this file.  Integers
    are [Z]; the unsigned types wrap with [u8] .. [u64], and hypotheses such as [u32_ok]
    say that an argument is a value of its type.  Sizes of structures are those of LP64.

    What is not the program's own code is a parameter: what the allocator, the clock, [poll],
    condition variables, the owner check or a stream answer.  A component that asks more than
    once takes a list of answers.  Callbacks are parameters under the contract their header
    states, or programs of the operations they may call.  A critical section, and an atomic
    access, is one step; interleavings are runs of steps by any number of threads.  Memory
    from [malloc] is modelled as zeros; no theorem depends on its contents.

    * The theorems

    - Codecs (Wire, RpcRecord, RecordMetadata): encoding and decoding are inverse, what
      is accepted is canonical, corruption within 32 bits is detected, validators accept
      exactly a declarative grammar.
    - Incremental readers (Parser, RecordStream, RpcRecord): what comes out depends on
      the bytes and not on how they are cut; nothing is written out of bounds; only invalid
      input is refused; every operation returns.
    - Sending (ReactorTx): what the kernel took is whole frames and a part of one, which a
      parser at the other end hands out again; what goes before a frame that is not yet complete
      is a header-only control frame, what it overtakes is DATA, and at most eight do in a row.
    - Accounting (MemoryBudget, BufferPool, Message, MessageTransform, RecordStream, RecordRouter, RecordStats): what is
      counted is what is held, under all interleavings where the source allows them, and
      destroying gives everything back.
    - Transforms (ZstdWorkspace, Zstd, MessageTransform): the chain of blocks is a finite map
      within its limit; what was compressed is expanded again; a run that succeeds asked
      whether it is cancelled at least once per 64 KiB of input and of output; a run ends, and its outcome is
      that it was cancelled exactly when a request to cancel was accepted; nothing stays charged
      but the output.
    - Concurrency (Refcount, MemoryBudget, WaitQueue and its instances, TaskExecutor):
      exactly one last put; limits hold; no wake-up is lost; what is accepted comes out once
      and in order; generations keep stale parties out; what is stopped drains.
    - Time (TimerQueue, Deadline): the heap refines a set of timers, fires the least due one
      first and each one exactly once; deadlines are exact sums, saturating.
    - Channels (StreamIndex, ChannelSlots): the table of streams, which closes its gaps when an
      entry goes, is a finite map; handles of streams are good until the stream closes, once;
      between two channels (StreamFlow) no frame and no credit update is ever refused, what is
      delivered is what was sent, and a stream fails only when the pool has no buffer for the
      first frame of a message in pieces; it is then reset with the pool's reason.  Credit comes
      back when the receiver may send messages as large as the sender's, and otherwise a stream
      may stop for ever ([flow_stalls]).  Whichever way the two shake hands
      (ChannelHello) they agree, and a ready side sends nothing that the other is not ready for.
    - Calls (RpcRecord, RecordStream, RecordRouter, RecordProducer): the call state accepts
      exactly a grammar of records, the first terminal wins, and it is notified once and
      last; the records of a stream reach the method that its first header names; what
      threads publish reaches the call once, in order, as a legal reply.
    - Pipelines (PipelineSpec, PipelineRegistry, PipelineControl): requests from any thread do
      what finite maps of members, streams and ids do, or are refused for the first reason
      and change nothing; a reservation is good once; an offer's bytes lead a connection to
      the slot that was reserved; teardown is complete and creation is atomic.

    * Bounds and fuel

    Loops whose recursion is not structural take fuel, and a theorem says that the fuel given
    is enough: heap sifting and the run of due timers (the number of timers), free list walks
    (the capacity), the receiving loop and the metadata loops (a byte is consumed per pass),
    [poll] loops (the answers given), the loops that create and join threads (their number),
    probing and selection (the capacity of the table), closing a gap in the table of streams (its
    capacity, as an entry is always empty), flushing a connection (the budget in bytes, and the
    calls that may be interrupted), a transform (a question per byte of its input and output), the
    blocks that the library left (their number).  Where the source itself leaves a width unchecked the
    theorems carry it as a bound: fewer than 2^31 timers, because heap indices are computed in
    32 bits; fewer than 2^32 waiters; admission generations that have not wrapped; at most 2^31
    slots in a table that is probed ([ProbeTable.probe_index_wraps] shows what happens beyond);
    fewer than 2^32 - 1 requests between two uses of a pipeline's capability.

    * Not modelled

    The event loop of the reactor ([execution/reactor.c]; its synchronous calls and the
    sending side of a connection without TLS are modelled) is calls into epoll and eventfd
    around its queues.  Of the multiplexed channel ([transport/channel])
    opening and closing of streams on the wire, RESET, GOAWAY, draining and keepalives are left
    out.  The transport groups ([transport/group]), the runtime ([runtime]),
    the record client and dispatcher, and the client and server facades compose the parts above
    and own no data structure of their own that is not like one of them; they are left out for
    their size.
    Sockets and TLS ([io]) are mostly calls into the kernel and OpenSSL. *)
From Stdlib Require Export ZArith Lia Bool.
From stdpp Require Export base list gmap fin_maps.
From stdpp Require Import options.

#[global] Open Scope Z_scope.

(** * Notation of the development *)

Declare Scope trpc_scope.
Delimit Scope trpc_scope with trpc.
#[global] Open Scope trpc_scope.

(** C's [if (b) return e;] in front of the rest of a function body. *)
Notation "'bail' e 'when' b ';;' k" := (if b then e else k)
  (at level 10, e at level 99, b at level 99, k at level 200,
   only parsing) : trpc_scope.

(** * Machine integers *)

(** The wrap-around of the unsigned types the sources use. *)
Definition u8 (z : Z) : Z := z mod 2 ^ 8.
Definition u16 (z : Z) : Z := z mod 2 ^ 16.
Definition u32 (z : Z) : Z := z mod 2 ^ 32.
Definition u64 (z : Z) : Z := z mod 2 ^ 64.

Definition UINT32_MAX : Z := 2 ^ 32 - 1.
Definition UINT64_MAX : Z := 2 ^ 64 - 1.
Definition INT32_MAX : Z := 2 ^ 31 - 1.
(** [size_t] is 64 bits wide on the platform the repository supports (x86_64). *)
Definition SIZE_MAX : Z := 2 ^ 64 - 1.

(** [uN_ok z]: [z] is a value of the N-bit unsigned type. *)
Definition u8_ok (z : Z) : Prop := 0 ≤ z < 2 ^ 8.
Definition u16_ok (z : Z) : Prop := 0 ≤ z < 2 ^ 16.
Definition u32_ok (z : Z) : Prop := 0 ≤ z < 2 ^ 32.
Definition u64_ok (z : Z) : Prop := 0 ≤ z < 2 ^ 64.

Create HintDb trpc.
Create Rewrite HintDb trpc.

Ltac unfold_words :=
  unfold u8_ok, u16_ok, u32_ok, u64_ok, u8, u16, u32, u64,
    UINT32_MAX, UINT64_MAX, INT32_MAX, SIZE_MAX in *.

(** [word_lia]: linear arithmetic after the powers of two are numerals. *)
Ltac word_lia :=
  unfold_words;
  change (2 ^ 8) with 256 in *; change (2 ^ 16) with 65536 in *;
  change (2 ^ 31) with 2147483648 in *;
  change (2 ^ 32) with 4294967296 in *;
  change (2 ^ 64) with 18446744073709551616 in *; lia.

Lemma u8_small z : u8_ok z → u8 z = z.
Proof. intros; apply Z.mod_small; word_lia. Qed.
Lemma u16_small z : u16_ok z → u16 z = z.
Proof. intros; apply Z.mod_small; word_lia. Qed.
Lemma u32_small z : u32_ok z → u32 z = z.
Proof. intros; apply Z.mod_small; word_lia. Qed.
Lemma u64_small z : u64_ok z → u64 z = z.
Proof. intros; apply Z.mod_small; word_lia. Qed.

Lemma u8_range z : u8_ok (u8 z).
Proof. unfold u8_ok, u8. apply Z.mod_pos_bound. lia. Qed.
Lemma u16_range z : u16_ok (u16 z).
Proof. unfold u16_ok, u16. apply Z.mod_pos_bound. lia. Qed.
Lemma u32_range z : u32_ok (u32 z).
Proof. unfold u32_ok, u32. apply Z.mod_pos_bound. lia. Qed.
Lemma u64_range z : u64_ok (u64 z).
Proof. unfold u64_ok, u64. apply Z.mod_pos_bound. lia. Qed.

#[export] Hint Resolve u8_range u16_range u32_range u64_range : trpc.
#[export] Hint Rewrite u8_small u16_small u32_small u64_small
  using (solve [auto with trpc | word_lia]) : trpc.

(** * Boolean reflection *)

(** The tests under a disjunction. *)
Ltac bool_to_prop_or H :=
  rewrite ?negb_true_iff, ?negb_false_iff, ?andb_true_iff, ?andb_false_iff, ?orb_true_iff,
    ?orb_false_iff, ?Z.gtb_ltb, ?Z.geb_leb, ?Z.eqb_eq, ?Z.eqb_neq, ?Z.ltb_lt, ?Z.ltb_ge,
    ?Z.leb_le, ?Z.leb_gt, ?bool_decide_eq_true, ?bool_decide_eq_false in H.

(** [bool_to_prop]: turn the boolean tests of the hypotheses into propositions. *)
Ltac bool_to_prop :=
  repeat match goal with
  | H : (_ && _) = true |- _ => apply andb_true_iff in H; destruct H
  | H : (_ || _) = false |- _ => apply orb_false_iff in H; destruct H
  | H : (_ && _) = false |- _ => apply andb_false_iff in H; bool_to_prop_or H
  | H : (_ || _) = true |- _ => apply orb_true_iff in H; bool_to_prop_or H
  | H : negb _ = true |- _ => apply negb_true_iff in H
  | H : negb _ = false |- _ => apply negb_false_iff in H
  | H : (_ =? _) = true |- _ => apply Z.eqb_eq in H
  | H : (_ =? _) = false |- _ => apply Z.eqb_neq in H
  | H : (_ <? _) = true |- _ => apply Z.ltb_lt in H
  | H : (_ <? _) = false |- _ => apply Z.ltb_ge in H
  | H : (_ <=? _) = true |- _ => apply Z.leb_le in H
  | H : (_ <=? _) = false |- _ => apply Z.leb_gt in H
  | H : (_ >? _) = true |- _ => rewrite Z.gtb_ltb in H
  | H : (_ >? _) = false |- _ => rewrite Z.gtb_ltb in H
  | H : (_ >=? _) = true |- _ => rewrite Z.geb_leb in H
  | H : (_ >=? _) = false |- _ => rewrite Z.geb_leb in H
  | H : bool_decide _ = true |- _ => apply bool_decide_eq_true in H
  | H : bool_decide _ = false |- _ => apply bool_decide_eq_false in H
  end.

(** [case_ifs]: split every [if] of the goal, remembering the tests. *)
Ltac case_if :=
  match goal with
  | |- context [if ?b then _ else _] =>
      lazymatch type of b with bool => destruct b eqn:?; bool_to_prop end
  end.
Ltac case_ifs := repeat case_if.

(** [case_ifs_in H]: the same for the tests of a hypothesis. *)
Ltac case_if_in H :=
  match type of H with
  | context [if ?b then _ else _] =>
      lazymatch type of b with bool => destruct b eqn:?; bool_to_prop end
  end.
Ltac case_ifs_in H := repeat (case_if_in H; simplify_eq).

(** * Arrays *)

(** A C array is a list; [l.[i]] reads and [l.[i <- x]] writes index [i].  An
    access out of range is undefined behaviour in C; here a read gives the
    default and a write nothing, and the invariants show it never happens. *)
Section Arrays.
Context {A : Type} `{!Inhabited A}.
Implicit Types (l : list A) (i j : Z) (x : A).

Definition aget l i : A := l !!! Z.to_nat i.
Definition aset l i x : list A := <[Z.to_nat i := x]> l.
Definition alen l : Z := Z.of_nat (length l).

Lemma alen_nonneg l : 0 ≤ alen l.
Proof. unfold alen. lia. Qed.

Lemma alen_aset l i x : alen (aset l i x) = alen l.
Proof. unfold alen, aset. by rewrite length_insert. Qed.

Lemma aget_aset_eq l i x : 0 ≤ i < alen l → aget (aset l i x) i = x.
Proof.
  unfold aget, aset, alen. intros. apply list_lookup_total_insert_eq. lia.
Qed.

Lemma aget_aset_ne l i j x : 0 ≤ i → 0 ≤ j → i ≠ j → aget (aset l i x) j = aget l j.
Proof.
  unfold aget, aset. intros. apply list_lookup_total_insert_ne. lia.
Qed.

Lemma aget_aset l i j x : 0 ≤ i < alen l → 0 ≤ j →
  aget (aset l i x) j = if i =? j then x else aget l j.
Proof.
  intros. destruct (Z.eqb_spec i j); subst;
    [by apply aget_aset_eq | by apply aget_aset_ne; lia].
Qed.

Lemma aset_aget l i : 0 ≤ i < alen l → aset l i (aget l i) = l.
Proof.
  unfold aset, aget, alen. intros. apply list_insert_id.
  apply list_lookup_lookup_total_lt. lia.
Qed.

Lemma aget_lookup l i : 0 ≤ i < alen l → l !! Z.to_nat i = Some (aget l i).
Proof. unfold alen, aget. intros. apply list_lookup_lookup_total_lt. lia. Qed.

Lemma alist_eq l1 l2 : alen l1 = alen l2 →
  (∀ i, 0 ≤ i < alen l1 → aget l1 i = aget l2 i) → l1 = l2.
Proof.
  unfold alen, aget. intros Hlen Hget. apply list_eq_same_length with (n := length l1);
    [lia | done |]. intros i x y Hi H1 H2.
  specialize (Hget (Z.of_nat i)). rewrite Nat2Z.id in Hget.
  rewrite (list_lookup_total_correct _ _ _ H1), (list_lookup_total_correct _ _ _ H2) in Hget.
  apply Hget. lia.
Qed.

End Arrays.

Notation "l .[ i ]" := (aget l i) (at level 1, left associativity, format "l .[ i ]") : trpc_scope.
Notation "l .[ i <- x ]" := (aset l i x) (at level 1, left associativity,
  format "l .[ i  <-  x ]") : trpc_scope.

#[export] Hint Rewrite @alen_aset : trpc.

(** * Sums over lists *)

Section Sums.
Context {A : Type}.
Implicit Types (f g : A → Z) (l : list A).

Fixpoint zsum f l : Z :=
  match l with
  | [] => 0
  | x :: l => f x + zsum f l
  end.

Lemma zsum_app f l1 l2 : zsum f (l1 ++ l2) = zsum f l1 + zsum f l2.
Proof. induction l1; simpl; lia. Qed.

Lemma zsum_insert f l i x y : l !! i = Some x → zsum f (<[i := y]> l) = zsum f l - f x + f y.
Proof.
  revert i. induction l as [|z l IH]; intros [|i] H; simplify_eq/=; [lia|].
  rewrite (IH i) by done. lia.
Qed.

Lemma zsum_delete f l i x : l !! i = Some x → zsum f (delete i l) = zsum f l - f x.
Proof.
  revert i. induction l as [|y l IH]; intros [|i] Hi; simplify_eq/=; [lia|]. rewrite (IH i Hi). lia.
Qed.

Lemma zsum_nonneg f l : (∀ x, x ∈ l → 0 ≤ f x) → 0 ≤ zsum f l.
Proof.
  induction l as [|x l IH]; intros H; simpl; [lia|].
  assert (0 ≤ f x) by (apply H; set_solver).
  assert (0 ≤ zsum f l) by (apply IH; set_solver). lia.
Qed.

Lemma zsum_lookup_le f l i x : (∀ y, y ∈ l → 0 ≤ f y) → l !! i = Some x → f x ≤ zsum f l.
Proof.
  revert i. induction l as [|z l IH]; intros [|i] Hpos H; simplify_eq/=.
  - assert (0 ≤ zsum f l) by (apply zsum_nonneg; set_solver). lia.
  - assert (0 ≤ f z) by (apply Hpos; set_solver).
    assert (f x ≤ zsum f l) by (eapply IH; [set_solver|done]). lia.
Qed.

Lemma zsum_zero f l : (∀ x, x ∈ l → f x = 0) → zsum f l = 0.
Proof.
  induction l as [|x l IH]; intros H; simpl; [done|].
  rewrite H, IH by set_solver. done.
Qed.

End Sums.

(** The sum of a map is the sum of the images. *)
Lemma zsum_map {A B} (g : A → B) (f : B → Z) (l : list A) :
  zsum f (map g l) = zsum (fun x => f (g x)) l.
Proof. induction l; simpl; congruence. Qed.

(** * Chained lists *)

(** A list of slots chained by their links from [h]; UINT32_MAX ends it. *)
Fixpoint chain (link : Z → Z) (h : Z) (fl : list Z) : Prop :=
  match fl with
  | [] => h = UINT32_MAX
  | s :: fl => h = s ∧ chain link (link s) fl
  end.

Lemma chain_ext link link' h fl : (∀ s, s ∈ fl → link' s = link s) → chain link h fl → chain link' h fl.
Proof.
  revert h. induction fl as [|s fl IH]; intros h E; simpl; [done|]. intros [-> H].
  split; [done|]. rewrite E by set_solver. apply IH; [set_solver|done].
Qed.

Lemma chain_seq link cap n k :
  (∀ s, 0 ≤ s < cap → link s = if s + 1 <? cap then s + 1 else UINT32_MAX) →
  Z.of_nat n + Z.of_nat k = cap → (0 < k)%nat →
  chain link (Z.of_nat n) (map Z.of_nat (seq n k)).
Proof.
  intros Hl. revert n. induction k as [|k IH]; intros n Hn Hk; [lia|]. simpl. split; [done|].
  rewrite Hl by lia. destruct k as [|k].
  - destruct (Z.ltb_spec (Z.of_nat n + 1) cap); [lia|done].
  - destruct (Z.ltb_spec (Z.of_nat n + 1) cap); [|lia].
    replace (Z.of_nat n + 1) with (Z.of_nat (S n)) by lia. apply IH; lia.
Qed.

(** * Partial maps over lists *)

Lemma omap_insert_perm {X Y} (f : X → option Y) (l : list X) (i : nat) (x y : X) : l !! i = Some x →
  option_list (f x) ++ omap f (<[i := y]> l) ≡ₚ option_list (f y) ++ omap f l.
Proof.
  revert i. induction l as [|z l IH]; intros [|i] Hi; simplify_eq/=.
  - destruct (f x), (f y); simpl; try done. by apply Permutation_swap.
  - specialize (IH i Hi). destruct (f z); [|done].
    rewrite <- !Permutation_middle. by rewrite IH.
Qed.
