(* ===== verification/Status.v ===== *)
(** Status codes: [include/tr/status.h] and [src/status.c].

    The C enumeration [tr_status] is an inductive type with the source's
    constructors; [status_value] is the [int] each enumerator stands for, which
    functions that also return counts or flags mix with other integers. *)
From Stdlib Require Import String.
From stdpp Require Import strings.
From S2P Require Import Prelude.

Inductive tr_status : Set :=
| TR_OK | TR_AGAIN | TR_FRAME_READY | TR_IN_PROGRESS
| TR_ERR_INVALID | TR_ERR_NOMEM | TR_ERR_BAD_MAGIC | TR_ERR_BAD_VERSION
| TR_ERR_BAD_TYPE | TR_ERR_BAD_FLAGS | TR_ERR_BAD_LENGTH | TR_ERR_HEADER_CRC
| TR_ERR_PAYLOAD_CRC | TR_ERR_RESERVED | TR_ERR_STATE | TR_ERR_SYS
| TR_ERR_CLOSED | TR_ERR_STALE | TR_ERR_UNSUPPORTED | TR_ERR_TIMEOUT.

#[export] Instance tr_status_eq_dec : EqDecision tr_status.
Proof. solve_decision. Defined.

#[export] Instance tr_status_inhabited : Inhabited tr_status := populate TR_OK.

Definition status_value (s : tr_status) : Z :=
  match s with
  | TR_OK => 0 | TR_AGAIN => 1 | TR_FRAME_READY => 2 | TR_IN_PROGRESS => 3
  | TR_ERR_INVALID => -1 | TR_ERR_NOMEM => -2 | TR_ERR_BAD_MAGIC => -3
  | TR_ERR_BAD_VERSION => -4 | TR_ERR_BAD_TYPE => -5 | TR_ERR_BAD_FLAGS => -6
  | TR_ERR_BAD_LENGTH => -7 | TR_ERR_HEADER_CRC => -8 | TR_ERR_PAYLOAD_CRC => -9
  | TR_ERR_RESERVED => -10 | TR_ERR_STATE => -11 | TR_ERR_SYS => -12
  | TR_ERR_CLOSED => -13 | TR_ERR_STALE => -14 | TR_ERR_UNSUPPORTED => -15
  | TR_ERR_TIMEOUT => -16
  end.

(** Every enumerator, in the order of the C enumeration. *)
Definition all_statuses : list tr_status :=
  [TR_OK; TR_AGAIN; TR_FRAME_READY; TR_IN_PROGRESS; TR_ERR_INVALID; TR_ERR_NOMEM;
   TR_ERR_BAD_MAGIC; TR_ERR_BAD_VERSION; TR_ERR_BAD_TYPE; TR_ERR_BAD_FLAGS;
   TR_ERR_BAD_LENGTH; TR_ERR_HEADER_CRC; TR_ERR_PAYLOAD_CRC; TR_ERR_RESERVED;
   TR_ERR_STATE; TR_ERR_SYS; TR_ERR_CLOSED; TR_ERR_STALE; TR_ERR_UNSUPPORTED;
   TR_ERR_TIMEOUT].

(** The enumerator an [int] stands for, if any. *)
Definition status_of_value (v : Z) : option tr_status :=
  List.find (fun s => status_value s =? v) all_statuses.

(** [ret == TR_OK] and [ret < 0], the two tests callers make. *)
Definition is_ok (s : tr_status) : bool := bool_decide (s = TR_OK).
Definition is_error (s : tr_status) : bool := status_value s <? 0.

Definition tr_status_str (status : Z) : string :=
  match status_of_value status with
  | Some TR_OK => "ok"
  | Some TR_AGAIN => "again"
  | Some TR_FRAME_READY => "frame-ready"
  | Some TR_IN_PROGRESS => "in-progress"
  | Some TR_ERR_INVALID => "invalid"
  | Some TR_ERR_NOMEM => "no-memory"
  | Some TR_ERR_BAD_MAGIC => "bad-magic"
  | Some TR_ERR_BAD_VERSION => "bad-version"
  | Some TR_ERR_BAD_TYPE => "bad-type"
  | Some TR_ERR_BAD_FLAGS => "bad-flags"
  | Some TR_ERR_BAD_LENGTH => "bad-length"
  | Some TR_ERR_HEADER_CRC => "header-crc"
  | Some TR_ERR_PAYLOAD_CRC => "payload-crc"
  | Some TR_ERR_RESERVED => "reserved"
  | Some TR_ERR_STATE => "bad-state"
  | Some TR_ERR_SYS => "system-error"
  | Some TR_ERR_CLOSED => "closed"
  | Some TR_ERR_STALE => "stale"
  | Some TR_ERR_UNSUPPORTED => "unsupported"
  | Some TR_ERR_TIMEOUT => "timeout"
  | None => "unknown"
  end%string.

Lemma status_of_value_value s : status_of_value (status_value s) = Some s.
Proof. by destruct s. Qed.

Lemma status_value_inj s t : status_value s = status_value t → s = t.
Proof.
  intros H. apply (f_equal status_of_value) in H.
  rewrite !status_of_value_value in H. congruence.
Qed.

Lemma is_ok_true s : is_ok s = true ↔ s = TR_OK.
Proof. unfold is_ok. apply bool_decide_eq_true. Qed.

Lemma is_ok_false s : is_ok s = false ↔ s ≠ TR_OK.
Proof. unfold is_ok. apply bool_decide_eq_false. Qed.

Lemma is_error_value s : is_error s = true ↔ status_value s < 0.
Proof. unfold is_error. apply Z.ltb_lt. Qed.

(** The names the enumerators print as are pairwise different, and different from
    the name of an integer that is no status. *)
Lemma tr_status_str_inj s t :
  tr_status_str (status_value s) = tr_status_str (status_value t) → s = t.
Proof. destruct s, t; vm_compute; congruence. Qed.
