(* ===== verification/Endian.v ===== *)
(** Little-endian accessors: [src/endian.h].

    A buffer is a list of bytes (integers below 256).  A read takes the bytes at
    the pointer, a write returns the bytes it stores; [put_at] is the store at an
    offset of a larger buffer. *)
From S2P Require Import Prelude.

(** * Byte lists *)

Definition bytes_ok (l : list Z) : Prop := Forall u8_ok l.

(** [p + off] as the bytes from offset [off] on. *)
Definition at_off (l : list Z) (off : Z) : list Z := drop (Z.to_nat off) l.

(** Overwrite [length bs] bytes of [l] at offset [off] (memcpy into a buffer). *)
Definition put_at (l : list Z) (off : Z) (bs : list Z) : list Z :=
  take (Z.to_nat off) l ++ bs ++ drop (Z.to_nat off + length bs) l.

(** * The accessors *)

Definition tr_get_le16 (p : list Z) : Z :=
  u16 (Z.lor p.[0] (Z.shiftl p.[1] 8)).

Definition tr_get_le32 (p : list Z) : Z :=
  Z.lor (Z.lor (Z.lor p.[0] (Z.shiftl p.[1] 8)) (Z.shiftl p.[2] 16))
        (u32 (Z.shiftl p.[3] 24)).

Definition tr_get_le64 (p : list Z) : Z :=
  Z.lor (Z.lor (Z.lor (Z.lor (Z.lor (Z.lor (Z.lor p.[0]
    (Z.shiftl p.[1] 8)) (Z.shiftl p.[2] 16)) (Z.shiftl p.[3] 24))
    (Z.shiftl p.[4] 32)) (Z.shiftl p.[5] 40)) (Z.shiftl p.[6] 48))
    (u64 (Z.shiftl p.[7] 56)).

Definition tr_put_le16 (v : Z) : list Z :=
  [u8 v; u8 (Z.shiftr v 8)].

Definition tr_put_le32 (v : Z) : list Z :=
  [u8 v; u8 (Z.shiftr v 8); u8 (Z.shiftr v 16); u8 (Z.shiftr v 24)].

Definition tr_put_le64 (v : Z) : list Z :=
  [u8 v; u8 (Z.shiftr v 8); u8 (Z.shiftr v 16); u8 (Z.shiftr v 24);
   u8 (Z.shiftr v 32); u8 (Z.shiftr v 40); u8 (Z.shiftr v 48); u8 (Z.shiftr v 56)].

(** * The mathematical value *)

(** The number a little-endian byte sequence stands for. *)
Fixpoint le_value (l : list Z) : Z :=
  match l with
  | [] => 0
  | b :: l => b + 256 * le_value l
  end.

Lemma le_value_range l : bytes_ok l → 0 ≤ le_value l < 256 ^ Z.of_nat (length l).
Proof.
  induction 1 as [|b l Hb Hl IH]; [simpl; lia|].
  cbn [le_value length]. rewrite Nat2Z.inj_succ, Z.pow_succ_r by lia.
  unfold u8_ok in Hb. change (2 ^ 8) with 256 in Hb. nia.
Qed.

Lemma le_value_inj l1 l2 : bytes_ok l1 → bytes_ok l2 → length l1 = length l2 →
  le_value l1 = le_value l2 → l1 = l2.
Proof.
  intros H1. revert l2. induction H1 as [|b l Hb Hl IH]; intros l2 H2 Hlen Hv.
  { by destruct l2. }
  destruct l2 as [|c l2]; [done|]. inversion H2; subst. cbn in *.
  unfold u8_ok in *. change (2 ^ 8) with 256 in *.
  assert (b = c) as -> by lia. f_equal. apply IH; [done|lia|lia].
Qed.

Lemma lor_shiftl_add a b n : 0 ≤ n → 0 ≤ a < 2 ^ n → Z.lor a (Z.shiftl b n) = a + 2 ^ n * b.
Proof.
  intros Hn Ha. rewrite Z.shiftl_mul_pow2, Z.mul_comm by lia. symmetry.
  rewrite <- Z.lxor_lor.
  - apply Z.add_nocarry_lxor. apply Z.bits_inj'. intros i Hi.
    rewrite Z.land_spec, Z.bits_0, Z.mul_comm, <- Z.shiftl_mul_pow2, Z.shiftl_spec by lia.
    destruct (Z.lt_ge_cases i n).
    + rewrite (Z.testbit_neg_r b) by lia. apply andb_false_r.
    + rewrite <- (Z.mod_small a (2 ^ n)), Z.mod_pow2_bits_high by lia. done.
  - apply Z.bits_inj'. intros i Hi.
    rewrite Z.land_spec, Z.bits_0, Z.mul_comm, <- Z.shiftl_mul_pow2, Z.shiftl_spec by lia.
    destruct (Z.lt_ge_cases i n).
    + rewrite (Z.testbit_neg_r b) by lia. apply andb_false_r.
    + rewrite <- (Z.mod_small a (2 ^ n)), Z.mod_pow2_bits_high by lia. done.
Qed.

(** * The accessors compute that value *)

Ltac destruct_bytes H :=
  repeat match type of H with
  | Forall _ (_ :: _) => let H' := fresh "Hb" in
      apply Forall_cons in H; destruct H as [H' H]
  end.

(** Evaluate the reads at constant offsets of an explicit list. *)
Ltac eval_aget :=
  repeat match goal with
  | |- context [aget ?l ?i] => let v := eval hnf in (aget l i) in change (aget l i) with v
  end.

(** Turn the disjunctions of shifted bytes into sums, innermost first. *)
Ltac pow2_lia :=
  change (2 ^ 24) with 16777216; change (2 ^ 40) with 1099511627776;
  change (2 ^ 48) with 281474976710656; change (2 ^ 56) with 72057594037927936; word_lia.
Ltac lor_to_add :=
  repeat match goal with
  | |- context [Z.lor ?a (Z.shiftl ?b ?n)] =>
      lazymatch a with context [Z.lor] => fail | _ => idtac end;
      rewrite (lor_shiftl_add a b n) by pow2_lia
  end; pow2_lia.

Lemma tr_get_le16_value p : bytes_ok p → 2 ≤ alen p →
  tr_get_le16 p = le_value (take 2 p).
Proof.
  intros Hp Hl. unfold alen in Hl.
  destruct p as [|b0 [|b1 r]]; simpl in Hl; try lia.
  unfold bytes_ok in Hp. destruct_bytes Hp.
  unfold tr_get_le16. eval_aget. cbn [take le_value]; rewrite ?take_0; cbn [le_value].
  rewrite lor_shiftl_add, u16_small by word_lia. word_lia.
Qed.

Lemma tr_get_le32_value p : bytes_ok p → 4 ≤ alen p →
  tr_get_le32 p = le_value (take 4 p).
Proof.
  intros Hp Hl. unfold alen in Hl.
  destruct p as [|b0 [|b1 [|b2 [|b3 r]]]]; simpl in Hl; try lia.
  unfold bytes_ok in Hp. destruct_bytes Hp.
  unfold tr_get_le32. eval_aget. cbn [take le_value]; rewrite ?take_0; cbn [le_value].
  replace (u32 (Z.shiftl b3 24)) with (Z.shiftl b3 24)
    by (symmetry; apply Z.mod_small; rewrite Z.shiftl_mul_pow2 by lia;
        change (2 ^ 24) with 16777216; word_lia).
  lor_to_add.
Qed.

Lemma tr_get_le64_value p : bytes_ok p → 8 ≤ alen p →
  tr_get_le64 p = le_value (take 8 p).
Proof.
  intros Hp Hl. unfold alen in Hl.
  destruct p as [|b0 [|b1 [|b2 [|b3 [|b4 [|b5 [|b6 [|b7 r]]]]]]]]; simpl in Hl; try lia.
  unfold bytes_ok in Hp. destruct_bytes Hp.
  unfold tr_get_le64. eval_aget. cbn [take le_value]; rewrite ?take_0; cbn [le_value].
  replace (u64 (Z.shiftl b7 56)) with (Z.shiftl b7 56)
    by (symmetry; apply Z.mod_small; rewrite Z.shiftl_mul_pow2 by lia;
        change (2 ^ 56) with 72057594037927936; word_lia).
  lor_to_add.
Qed.

Lemma bytes_ok_app l1 l2 : bytes_ok l1 → bytes_ok l2 → bytes_ok (l1 ++ l2).
Proof. apply Forall_app_2. Qed.
Lemma bytes_ok_take n l : bytes_ok l → bytes_ok (take n l).
Proof. apply Forall_take. Qed.
Lemma bytes_ok_drop n l : bytes_ok l → bytes_ok (drop n l).
Proof. apply Forall_drop. Qed.
Lemma bytes_ok_put_le16 v : bytes_ok (tr_put_le16 v).
Proof. repeat constructor; apply u8_range. Qed.
Lemma bytes_ok_put_le32 v : bytes_ok (tr_put_le32 v).
Proof. repeat constructor; apply u8_range. Qed.
Lemma bytes_ok_put_le64 v : bytes_ok (tr_put_le64 v).
Proof. repeat constructor; apply u8_range. Qed.

#[export] Hint Resolve bytes_ok_app bytes_ok_take bytes_ok_drop bytes_ok_put_le16
  bytes_ok_put_le32 bytes_ok_put_le64 : trpc.

Lemma le_value_shift (v : Z) (l : list Z) :
  le_value l = Z.shiftr v 8 → u8 v + 256 * le_value l = v.
Proof.
  intros ->. rewrite Z.shiftr_div_pow2 by lia. unfold u8.
  pose proof (Z.div_mod v (2 ^ 8)). lia.
Qed.

Lemma le_value_put (n : nat) (v : Z) : 0 ≤ v < 256 ^ Z.of_nat n →
  le_value (map (fun i => u8 (Z.shiftr v (8 * Z.of_nat i))) (seq 0 n)) = v.
Proof.
  revert v. induction n as [|n IH]; intros v Hv; [simpl in *; lia|].
  cbn [seq map le_value]. change (8 * Z.of_nat 0) with 0. rewrite Z.shiftr_0_r.
  apply le_value_shift. rewrite <- seq_shift, map_map.
  rewrite <- (IH (Z.shiftr v 8)).
  - f_equal. apply map_ext. intros i. rewrite Z.shiftr_shiftr by lia.
    f_equal. f_equal. lia.
  - rewrite Z.shiftr_div_pow2 by lia. change (2 ^ 8) with 256.
    rewrite Nat2Z.inj_succ, Z.pow_succ_r in Hv by lia.
    split; [apply Z.div_pos; lia | apply Z.div_lt_upper_bound; lia].
Qed.

Lemma le_value_put_le16 v : u16_ok v → le_value (tr_put_le16 v) = v.
Proof.
  intros Hv. rewrite <- (le_value_put 2 v) at 2; [|word_lia].
  unfold tr_put_le16. simpl. by rewrite Z.shiftr_0_r.
Qed.
Lemma le_value_put_le32 v : u32_ok v → le_value (tr_put_le32 v) = v.
Proof.
  intros Hv. rewrite <- (le_value_put 4 v) at 2; [|word_lia].
  unfold tr_put_le32. simpl. by rewrite Z.shiftr_0_r.
Qed.
Lemma le_value_put_le64 v : u64_ok v → le_value (tr_put_le64 v) = v.
Proof.
  intros Hv. rewrite <- (le_value_put 8 v) at 2; [|word_lia].
  unfold tr_put_le64. simpl. by rewrite Z.shiftr_0_r.
Qed.

(** Reading back what was stored, whatever follows it in the buffer. *)
Lemma get_put_le16 v r : u16_ok v → bytes_ok r → tr_get_le16 (tr_put_le16 v ++ r) = v.
Proof.
  intros Hv Hr. rewrite tr_get_le16_value;
    [by rewrite take_app_length'; auto using le_value_put_le16 | auto with trpc|].
  unfold alen. rewrite length_app. simpl. lia.
Qed.
Lemma get_put_le32 v r : u32_ok v → bytes_ok r → tr_get_le32 (tr_put_le32 v ++ r) = v.
Proof.
  intros Hv Hr. rewrite tr_get_le32_value;
    [by rewrite take_app_length'; auto using le_value_put_le32 | auto with trpc|].
  unfold alen. rewrite length_app. simpl. lia.
Qed.
Lemma get_put_le64 v r : u64_ok v → bytes_ok r → tr_get_le64 (tr_put_le64 v ++ r) = v.
Proof.
  intros Hv Hr. rewrite tr_get_le64_value;
    [by rewrite take_app_length'; auto using le_value_put_le64 | auto with trpc|].
  unfold alen. rewrite length_app. simpl. lia.
Qed.

(** A read is a value of its width. *)
Lemma tr_get_le16_range p : bytes_ok p → 2 ≤ alen p → u16_ok (tr_get_le16 p).
Proof.
  intros Hp Hl. rewrite tr_get_le16_value by done.
  pose proof (le_value_range (take 2 p) (bytes_ok_take 2 p Hp)) as Hr.
  rewrite length_take in Hr. unfold alen in Hl.
  replace (2 `min` length p)%nat with 2%nat in Hr by lia. exact Hr.
Qed.
Lemma tr_get_le32_range p : bytes_ok p → 4 ≤ alen p → u32_ok (tr_get_le32 p).
Proof.
  intros Hp Hl. rewrite tr_get_le32_value by done.
  pose proof (le_value_range (take 4 p) (bytes_ok_take 4 p Hp)) as Hr.
  rewrite length_take in Hr. unfold alen in Hl.
  replace (4 `min` length p)%nat with 4%nat in Hr by lia. exact Hr.
Qed.
Lemma tr_get_le64_range p : bytes_ok p → 8 ≤ alen p → u64_ok (tr_get_le64 p).
Proof.
  intros Hp Hl. rewrite tr_get_le64_value by done.
  pose proof (le_value_range (take 8 p) (bytes_ok_take 8 p Hp)) as Hr.
  rewrite length_take in Hr. unfold alen in Hl.
  replace (8 `min` length p)%nat with 8%nat in Hr by lia. exact Hr.
Qed.

(** Storing back what was read: the encoding of each width is canonical. *)
Lemma put_get_le16 p : bytes_ok p → 2 ≤ alen p → tr_put_le16 (tr_get_le16 p) = take 2 p.
Proof.
  intros Hp Hl. apply le_value_inj; auto with trpc.
  - rewrite length_take. unfold alen in Hl. cbn [length tr_put_le16 tr_put_le32 tr_put_le64]. lia.
  - rewrite le_value_put_le16 by auto using tr_get_le16_range.
    by apply tr_get_le16_value.
Qed.
Lemma put_get_le32 p : bytes_ok p → 4 ≤ alen p → tr_put_le32 (tr_get_le32 p) = take 4 p.
Proof.
  intros Hp Hl. apply le_value_inj; auto with trpc.
  - rewrite length_take. unfold alen in Hl. cbn [length tr_put_le16 tr_put_le32 tr_put_le64]. lia.
  - rewrite le_value_put_le32 by auto using tr_get_le32_range.
    by apply tr_get_le32_value.
Qed.
Lemma put_get_le64 p : bytes_ok p → 8 ≤ alen p → tr_put_le64 (tr_get_le64 p) = take 8 p.
Proof.
  intros Hp Hl. apply le_value_inj; auto with trpc.
  - rewrite length_take. unfold alen in Hl. cbn [length tr_put_le16 tr_put_le32 tr_put_le64]. lia.
  - rewrite le_value_put_le64 by auto using tr_get_le64_range.
    by apply tr_get_le64_value.
Qed.

(** * [put_at] *)

Lemma length_put_at l off bs : 0 ≤ off → off + alen bs ≤ alen l →
  length (put_at l off bs) = length l.
Proof.
  unfold put_at, alen. intros. rewrite !length_app, length_take, length_drop. lia.
Qed.

Lemma take_put_at l off bs : 0 ≤ off → off + alen bs ≤ alen l →
  take (Z.to_nat (off + alen bs)) (put_at l off bs) = take (Z.to_nat off) l ++ bs.
Proof.
  unfold alen, put_at. intros H0 H1. rewrite app_assoc, take_app_le; [apply take_ge|];
    rewrite ?length_app, ?length_take; lia.
Qed.

Lemma bytes_ok_put_at l off bs : bytes_ok l → bytes_ok bs → bytes_ok (put_at l off bs).
Proof. unfold put_at. auto with trpc. Qed.

#[export] Hint Resolve bytes_ok_put_at : trpc.

Lemma at_off_put_at l off bs : 0 ≤ off → off + alen bs ≤ alen l →
  at_off (put_at l off bs) off = bs ++ drop (Z.to_nat off + length bs) l.
Proof.
  unfold at_off, put_at, alen. intros.
  apply drop_app_length'. rewrite length_take. lia.
Qed.

(** Storing the bytes that are already there changes nothing, and only that. *)
Lemma put_at_same l off bs : 0 ≤ off → off + alen bs ≤ alen l →
  put_at l off bs = l ↔ take (length bs) (at_off l off) = bs.
Proof.
  intros Ho Hl. split; intros H.
  - rewrite <- H, at_off_put_at by done. by apply take_app_length'.
  - unfold put_at. rewrite <- H at 1. unfold at_off.
    rewrite <- drop_drop, take_drop, take_drop. done.
Qed.
