(* ===== verification/Crc32c.v ===== *)
(** CRC-32C (Castagnoli): [src/crc32c.c].

    The table-driven update of the portable backend, the word-at-a-time update of
    the SSE4.2 backend, their dispatch, and the one-shot checksum.  The reference
    is the bitwise division the table's comment describes ([crc_bit]); the theorems
    show that the table and both backends compute it, and that the checksum
    detects every error burst of at most 32 bits. *)
From S2P Require Import Prelude Endian.

(** * The program *)

Definition tr_crc32c_table : list Z :=
  [
   0x00000000; 0xf26b8303; 0xe13b70f7; 0x1350f3f4; 0xc79a971f; 0x35f1141c;
   0x26a1e7e8; 0xd4ca64eb; 0x8ad958cf; 0x78b2dbcc; 0x6be22838; 0x9989ab3b;
   0x4d43cfd0; 0xbf284cd3; 0xac78bf27; 0x5e133c24; 0x105ec76f; 0xe235446c;
   0xf165b798; 0x030e349b; 0xd7c45070; 0x25afd373; 0x36ff2087; 0xc494a384;
   0x9a879fa0; 0x68ec1ca3; 0x7bbcef57; 0x89d76c54; 0x5d1d08bf; 0xaf768bbc;
   0xbc267848; 0x4e4dfb4b; 0x20bd8ede; 0xd2d60ddd; 0xc186fe29; 0x33ed7d2a;
   0xe72719c1; 0x154c9ac2; 0x061c6936; 0xf477ea35; 0xaa64d611; 0x580f5512;
   0x4b5fa6e6; 0xb93425e5; 0x6dfe410e; 0x9f95c20d; 0x8cc531f9; 0x7eaeb2fa;
   0x30e349b1; 0xc288cab2; 0xd1d83946; 0x23b3ba45; 0xf779deae; 0x05125dad;
   0x1642ae59; 0xe4292d5a; 0xba3a117e; 0x4851927d; 0x5b016189; 0xa96ae28a;
   0x7da08661; 0x8fcb0562; 0x9c9bf696; 0x6ef07595; 0x417b1dbc; 0xb3109ebf;
   0xa0406d4b; 0x522bee48; 0x86e18aa3; 0x748a09a0; 0x67dafa54; 0x95b17957;
   0xcba24573; 0x39c9c670; 0x2a993584; 0xd8f2b687; 0x0c38d26c; 0xfe53516f;
   0xed03a29b; 0x1f682198; 0x5125dad3; 0xa34e59d0; 0xb01eaa24; 0x42752927;
   0x96bf4dcc; 0x64d4cecf; 0x77843d3b; 0x85efbe38; 0xdbfc821c; 0x2997011f;
   0x3ac7f2eb; 0xc8ac71e8; 0x1c661503; 0xee0d9600; 0xfd5d65f4; 0x0f36e6f7;
   0x61c69362; 0x93ad1061; 0x80fde395; 0x72966096; 0xa65c047d; 0x5437877e;
   0x4767748a; 0xb50cf789; 0xeb1fcbad; 0x197448ae; 0x0a24bb5a; 0xf84f3859;
   0x2c855cb2; 0xdeeedfb1; 0xcdbe2c45; 0x3fd5af46; 0x7198540d; 0x83f3d70e;
   0x90a324fa; 0x62c8a7f9; 0xb602c312; 0x44694011; 0x5739b3e5; 0xa55230e6;
   0xfb410cc2; 0x092a8fc1; 0x1a7a7c35; 0xe811ff36; 0x3cdb9bdd; 0xceb018de;
   0xdde0eb2a; 0x2f8b6829; 0x82f63b78; 0x709db87b; 0x63cd4b8f; 0x91a6c88c;
   0x456cac67; 0xb7072f64; 0xa457dc90; 0x563c5f93; 0x082f63b7; 0xfa44e0b4;
   0xe9141340; 0x1b7f9043; 0xcfb5f4a8; 0x3dde77ab; 0x2e8e845f; 0xdce5075c;
   0x92a8fc17; 0x60c37f14; 0x73938ce0; 0x81f80fe3; 0x55326b08; 0xa759e80b;
   0xb4091bff; 0x466298fc; 0x1871a4d8; 0xea1a27db; 0xf94ad42f; 0x0b21572c;
   0xdfeb33c7; 0x2d80b0c4; 0x3ed04330; 0xccbbc033; 0xa24bb5a6; 0x502036a5;
   0x4370c551; 0xb11b4652; 0x65d122b9; 0x97baa1ba; 0x84ea524e; 0x7681d14d;
   0x2892ed69; 0xdaf96e6a; 0xc9a99d9e; 0x3bc21e9d; 0xef087a76; 0x1d63f975;
   0x0e330a81; 0xfc588982; 0xb21572c9; 0x407ef1ca; 0x532e023e; 0xa145813d;
   0x758fe5d6; 0x87e466d5; 0x94b49521; 0x66df1622; 0x38cc2a06; 0xcaa7a905;
   0xd9f75af1; 0x2b9cd9f2; 0xff56bd19; 0x0d3d3e1a; 0x1e6dcdee; 0xec064eed;
   0xc38d26c4; 0x31e6a5c7; 0x22b65633; 0xd0ddd530; 0x0417b1db; 0xf67c32d8;
   0xe52cc12c; 0x1747422f; 0x49547e0b; 0xbb3ffd08; 0xa86f0efc; 0x5a048dff;
   0x8ecee914; 0x7ca56a17; 0x6ff599e3; 0x9d9e1ae0; 0xd3d3e1ab; 0x21b862a8;
   0x32e8915c; 0xc083125f; 0x144976b4; 0xe622f5b7; 0xf5720643; 0x07198540;
   0x590ab964; 0xab613a67; 0xb831c993; 0x4a5a4a90; 0x9e902e7b; 0x6cfbad78;
   0x7fab5e8c; 0x8dc0dd8f; 0xe330a81a; 0x115b2b19; 0x020bd8ed; 0xf0605bee;
   0x24aa3f05; 0xd6c1bc06; 0xc5914ff2; 0x37faccf1; 0x69e9f0d5; 0x9b8273d6;
   0x88d28022; 0x7ab90321; 0xae7367ca; 0x5c18e4c9; 0x4f48173d; 0xbd23943e;
   0xf36e6f75; 0x0105ec76; 0x12551f82; 0xe03e9c81; 0x34f4f86a; 0xc69f7b69;
   0xd5cf889d; 0x27a40b9e; 0x79b737ba; 0x8bdcb4b9; 0x988c474d; 0x6ae7c44e;
   0xbe2da0a5; 0x4c4623a6; 0x5f16d052; 0xad7d5351].

Fixpoint tr_crc32c_update_portable (state : Z) (data : list Z) : Z :=
  match data with
  | [] => state
  | p :: data =>
      tr_crc32c_update_portable
        (Z.lxor (Z.shiftr state 8) tr_crc32c_table.[Z.land (Z.lxor state p) 0xff]) data
  end.

Definition tr_crc32c_begin : Z := 0xffffffff.

(** The build without SSE4.2 ([TR_CRC32C_X86_SSE42 == 0]). *)
Definition tr_crc32c_update (state : Z) (data : list Z) : Z :=
  bail state when (alen data =? 0) ;;
  tr_crc32c_update_portable state data.

Definition tr_crc32c_finish (state : Z) : Z := Z.lxor state 0xffffffff.

Definition tr_crc32c (data : list Z) : Z :=
  tr_crc32c_finish (tr_crc32c_update tr_crc32c_begin data).

(** The x86 build.  The compiler's intrinsics [_mm_crc32_u8] .. [_mm_crc32_u64] are
    parameters; [memcpy] of a word on this little-endian target is [le_value]. *)
Section SSE42.
Variables mm_crc32_u8 mm_crc32_u16 mm_crc32_u32 mm_crc32_u64 : Z → Z → Z.

(** The [while (len >= 8)] loop: the state and the bytes it leaves. *)
Fixpoint sse42_words (state : Z) (p : list Z) : Z * list Z :=
  match p with
  | b0 :: b1 :: b2 :: b3 :: b4 :: b5 :: b6 :: b7 :: p =>
      sse42_words (u32 (mm_crc32_u64 state (le_value [b0; b1; b2; b3; b4; b5; b6; b7]))) p
  | _ => (state, p)
  end.

Definition tr_crc32c_update_sse42 (state : Z) (data : list Z) : Z :=
  let '(state, p) := sse42_words state data in
  let '(state, p) :=
    if 4 <=? alen p then (mm_crc32_u32 state (le_value (take 4 p)), drop 4 p)
    else (state, p) in
  let '(state, p) :=
    if 2 <=? alen p then (mm_crc32_u16 state (le_value (take 2 p)), drop 2 p)
    else (state, p) in
  if negb (alen p =? 0) then mm_crc32_u8 state p.[0] else state.

(** [tr_crc32c_select_backend] run once, then the call through the pointer;
    [available] is what [tr_crc32c_sse42_available] answers. *)
Definition tr_crc32c_update_x86 (available : bool) (state : Z) (data : list Z) : Z :=
  bail state when (alen data =? 0) ;;
  let tr_crc32c_backend :=
    if available then tr_crc32c_update_sse42 else tr_crc32c_update_portable in
  tr_crc32c_backend state data.

End SSE42.

(** * The reference: division by the reflected polynomial, one bit at a time *)

Definition crc_poly : Z := 0x82f63b78.

Definition crc_bit (c : Z) : Z :=
  Z.lxor (Z.shiftr c 1) (if Z.odd c then crc_poly else 0).

Definition crc_bits (n : nat) (c : Z) : Z := Nat.iter n crc_bit c.

(** The state after a message: every bit of the message, least significant first,
    is divided out of the register. *)
Definition crc_reference (state : Z) (data : list Z) : Z :=
  crc_bits (8 * length data) (Z.lxor state (le_value data)).

(** * Algebra of the bit step *)

Lemma crc_bit_lxor a b : crc_bit (Z.lxor a b) = Z.lxor (crc_bit a) (crc_bit b).
Proof.
  unfold crc_bit. rewrite Z.shiftr_lxor.
  assert (Z.odd (Z.lxor a b) = xorb (Z.odd a) (Z.odd b)) as ->.
  { rewrite <- !Z.bit0_odd. apply Z.lxor_spec. }
  apply Z.bits_inj'. intros i Hi. rewrite !Z.lxor_spec.
  destruct (Z.odd a), (Z.odd b); simpl; rewrite ?Z.bits_0; 
    destruct (Z.testbit (Z.shiftr a 1) i), (Z.testbit (Z.shiftr b 1) i),
      (Z.testbit crc_poly i); done.
Qed.

Lemma crc_bits_lxor n a b :
  crc_bits n (Z.lxor a b) = Z.lxor (crc_bits n a) (crc_bits n b).
Proof.
  unfold crc_bits. induction n as [|n IH]; [done|]. simpl. rewrite IH. apply crc_bit_lxor.
Qed.

Lemma crc_bits_add n m c : crc_bits (n + m) c = crc_bits n (crc_bits m c).
Proof. unfold crc_bits. by rewrite Nat.iter_add. Qed.

(** Bits still to the left of the register's end only move right. *)
Lemma crc_bits_shiftl n h : crc_bits n (Z.shiftl h (Z.of_nat n)) = h.
Proof.
  revert h. induction n as [|n IH]; intros h; [by rewrite Z.shiftl_0_r|].
  replace (S n) with (n + 1)%nat by lia. rewrite crc_bits_add.
  rewrite <- (IH h) at 2. f_equal. unfold crc_bits. simpl. unfold crc_bit.
  replace (Z.of_nat (n + 1)) with (Z.of_nat n + 1) by lia.
  rewrite <- Z.shiftl_shiftl by lia.
  rewrite <- Z.bit0_odd, Z.shiftl_spec_low, Z.lxor_0_r, Z.shiftr_shiftl_l by lia.
  by rewrite Z.sub_diag, Z.shiftl_0_r.
Qed.

Lemma crc_bits_0 n : crc_bits n 0 = 0.
Proof. unfold crc_bits. induction n as [|n IH]; [done|]. simpl. by rewrite IH. Qed.

Lemma lxor_u32 a b : u32_ok a → u32_ok b → u32_ok (Z.lxor a b).
Proof.
  intros Ha Hb. unfold u32_ok in *. split; [apply Z.lxor_nonneg; lia|].
  destruct (Z.eq_dec (Z.lxor a b) 0) as [->|Hne]; [lia|].
  apply Z.log2_lt_pow2.
  { pose proof (proj2 (Z.lxor_nonneg a b)). lia. }
  pose proof (Z.log2_lxor a b ltac:(lia) ltac:(lia)).
  assert (Z.log2 a < 32) by (destruct (Z.eq_dec a 0) as [->|]; [simpl; lia | apply Z.log2_lt_pow2; lia]).
  assert (Z.log2 b < 32) by (destruct (Z.eq_dec b 0) as [->|]; [simpl; lia | apply Z.log2_lt_pow2; lia]).
  lia.
Qed.

Lemma shiftr_u32 a n : 0 ≤ n → u32_ok a → u32_ok (Z.shiftr a n).
Proof.
  intros Hn Ha. rewrite Z.shiftr_div_pow2 by done. unfold u32_ok in *.
  pose proof (Z.pow_pos_nonneg 2 n). split; [apply Z.div_pos; lia|].
  apply Z.div_lt_upper_bound; nia.
Qed.

Lemma crc_bit_u32 c : u32_ok c → u32_ok (crc_bit c).
Proof.
  intros Hc. unfold crc_bit. apply lxor_u32; [by apply shiftr_u32|].
  destruct (Z.odd c); unfold crc_poly; word_lia.
Qed.

Lemma crc_bits_u32 n c : u32_ok c → u32_ok (crc_bits n c).
Proof. intros Hc. unfold crc_bits. induction n; simpl; auto using crc_bit_u32. Qed.

#[export] Hint Resolve lxor_u32 shiftr_u32 crc_bit_u32 crc_bits_u32 : trpc.

(** The polynomial's top bit makes the step injective on the register. *)
Lemma crc_bit_zero c : u32_ok c → crc_bit c = 0 → c = 0.
Proof.
  intros Hc H. unfold crc_bit in H. apply Z.lxor_eq in H.
  rewrite Z.shiftr_div_pow2 in H by lia. change (2 ^ 1) with 2 in H.
  destruct (Z.odd c) eqn:Hodd.
  - assert (c / 2 < 2 ^ 31) by (apply Z.div_lt_upper_bound; word_lia).
    unfold crc_poly in H. word_lia.
  - pose proof (Z.div_mod c 2 ltac:(lia)) as Hd. rewrite Zmod_odd, Hodd in Hd. lia.
Qed.

Lemma crc_bits_zero n c : u32_ok c → crc_bits n c = 0 → c = 0.
Proof.
  unfold crc_bits. intros Hc. induction n as [|n IH]; [done|]. simpl.
  intros H. apply IH. eapply crc_bit_zero; [|done]. by apply (crc_bits_u32 n).
Qed.

(** * The table and the portable backend *)

Lemma crc_table_bitwise i : 0 ≤ i < 256 → tr_crc32c_table.[i] = crc_bits 8 i.
Proof.
  intros Hi.
  assert (forallb (fun i => tr_crc32c_table.[Z.of_nat i] =? crc_bits 8 (Z.of_nat i)) (seq 0 256)
          = true) as H by (vm_compute; reflexivity).
  rewrite forallb_forall in H. specialize (H (Z.to_nat i)).
  rewrite Z2Nat.id in H by lia. apply Z.eqb_eq, H, in_seq. lia.
Qed.

Lemma land_255 c : Z.land c 0xff = c mod 2 ^ 8.
Proof. change 0xff with (Z.ones 8). by rewrite Z.land_ones. Qed.

(** One table lookup is eight bit steps. *)
Lemma crc_table_step c :
  Z.lxor (Z.shiftr c 8) tr_crc32c_table.[Z.land c 0xff] = crc_bits 8 c.
Proof.
  rewrite crc_table_bitwise by (rewrite land_255; apply Z.mod_pos_bound; lia).
  rewrite <- (crc_bits_shiftl 8 (Z.shiftr c 8)), <- crc_bits_lxor. f_equal.
  change (Z.of_nat 8) with 8. rewrite land_255. apply Z.bits_inj'. intros i Hi.
  rewrite Z.lxor_spec, Z.shiftl_spec by lia. destruct (Z.lt_ge_cases i 8).
  - rewrite Z.testbit_neg_r, Z.mod_pow2_bits_low by lia. by destruct (Z.testbit c i).
  - rewrite Z.shiftr_spec, Z.mod_pow2_bits_high by lia. 
    replace (i - 8 + 8) with i by lia. apply xorb_false_r.
Qed.

Lemma le_value_cons_lxor b l : u8_ok b →
  le_value (b :: l) = Z.lxor b (Z.shiftl (le_value l) 8).
Proof.
  intros Hb. cbn [le_value]. change 256 with (2 ^ 8).
  rewrite <- (lor_shiftl_add b (le_value l) 8) by word_lia.
  symmetry. apply Z.bits_inj'. intros i Hi.
  rewrite Z.lxor_spec, Z.lor_spec, Z.shiftl_spec by lia.
  destruct (Z.lt_ge_cases i 8).
  - rewrite (Z.testbit_neg_r (le_value l)) by lia. by destruct (Z.testbit b i).
  - rewrite <- (Z.mod_small b (2 ^ 8)), Z.mod_pow2_bits_high by word_lia. done.
Qed.

Lemma crc_reference_cons state b data : u8_ok b →
  crc_reference state (b :: data) = crc_reference (crc_bits 8 (Z.lxor state b)) data.
Proof.
  intros Hb. unfold crc_reference.
  rewrite le_value_cons_lxor by done. cbn [length].
  replace (8 * S (length data))%nat with (8 * length data + 8)%nat by lia.
  rewrite crc_bits_add. f_equal. rewrite <- (crc_bits_shiftl 8 (le_value data)) at 2.
  rewrite <- crc_bits_lxor. f_equal. by rewrite Z.lxor_assoc.
Qed.

Lemma crc_reference_app state d1 d2 : bytes_ok d1 →
  crc_reference state (d1 ++ d2) = crc_reference (crc_reference state d1) d2.
Proof.
  intros H. revert state. induction H as [|b d1 Hb Hd IH]; intros state.
  - cbn [app]. f_equal. unfold crc_reference. cbn. by rewrite Z.lxor_0_r.
  - cbn [app]. rewrite !crc_reference_cons by done. apply IH.
Qed.

Lemma portable_reference state data : bytes_ok data →
  tr_crc32c_update_portable state data = crc_reference state data.
Proof.
  intros H. revert state. induction H as [|b data Hb Hd IH]; intros state.
  - unfold crc_reference. cbn. by rewrite Z.lxor_0_r.
  - cbn [tr_crc32c_update_portable]. rewrite crc_reference_cons by done.
    rewrite IH. f_equal. rewrite <- crc_table_step. f_equal.
    rewrite Z.shiftr_lxor. 
    replace (Z.shiftr b 8) with 0; [by rewrite Z.lxor_0_r|].
    rewrite Z.shiftr_div_pow2, Z.div_small by word_lia. done.
Qed.

Lemma update_reference state data : bytes_ok data →
  tr_crc32c_update state data = crc_reference state data.
Proof.
  intros H. unfold tr_crc32c_update. case_ifs; [|by apply portable_reference].
  destruct data; [|unfold alen in *; simpl in *; lia].
  unfold crc_reference. cbn. by rewrite Z.lxor_0_r.
Qed.

Lemma update_app state d1 d2 : bytes_ok d1 → bytes_ok d2 →
  tr_crc32c_update state (d1 ++ d2) = tr_crc32c_update (tr_crc32c_update state d1) d2.
Proof.
  intros. rewrite !update_reference by auto with trpc. by apply crc_reference_app.
Qed.

Lemma crc_reference_u32 state data : u32_ok state → bytes_ok data →
  u32_ok (crc_reference state data).
Proof.
  intros Hs Hd. revert state Hs. induction Hd as [|b data Hb Hd IH]; intros state Hs.
  - unfold crc_reference. cbn. by rewrite Z.lxor_0_r.
  - rewrite crc_reference_cons by done. apply IH, crc_bits_u32, lxor_u32; [done|word_lia].
Qed.

Lemma tr_crc32c_u32 data : bytes_ok data → u32_ok (tr_crc32c data).
Proof.
  intros H. unfold tr_crc32c, tr_crc32c_finish. rewrite update_reference by done.
  apply lxor_u32; [apply crc_reference_u32; [unfold tr_crc32c_begin|done]|]; word_lia.
Qed.

#[export] Hint Resolve tr_crc32c_u32 : trpc.

Lemma crc_reference_bits n state data : (8 * length data)%nat = n →
  crc_reference state data = crc_bits n (Z.lxor state (le_value data)).
Proof. by intros <-. Qed.

Lemma crc32c_bitwise data : bytes_ok data →
  tr_crc32c data =
  Z.lxor (crc_bits (8 * length data) (Z.lxor 0xffffffff (le_value data))) 0xffffffff.
Proof. intros. unfold tr_crc32c, tr_crc32c_finish. by rewrite update_reference. Qed.

(** C32: The portable build's checksum is the bitwise one: initial register all ones,
    every message bit divided out, final inversion. *)
Theorem crc32c_is_bitwise_division (data : list Z) (Hdata : bytes_ok data) :
  tr_crc32c data =
  Z.lxor (crc_bits (8 * length data) (Z.lxor 0xffffffff (le_value data))) 0xffffffff.
Proof. by apply crc32c_bitwise. Qed.

Lemma crc32c_is_bitwise_division_witness :
  bytes_ok [49; 50; 51; 52; 53; 54; 55; 56; 57] ∧
  tr_crc32c [49; 50; 51; 52; 53; 54; 55; 56; 57] = 0xe3069283.
Proof.
  assert (bytes_ok [49; 50; 51; 52; 53; 54; 55; 56; 57]) as H
    by (repeat constructor; unfold u8_ok; lia).
  split; [exact H|]. rewrite (crc32c_is_bitwise_division _ H). vm_compute. reflexivity.
Defined.

(** * The SSE4.2 backend *)

Section SSE42_correct.
Variables mm_crc32_u8 mm_crc32_u16 mm_crc32_u32 mm_crc32_u64 : Z → Z → Z.

(** What the processor's manual says of the CRC32 instruction at each width: the
    operand is folded into the register and divided out by the same polynomial. *)
Hypothesis mm_crc32_u8_spec : ∀ s w, u32_ok s → u8_ok w →
  mm_crc32_u8 s w = crc_bits 8 (Z.lxor s w).
Hypothesis mm_crc32_u16_spec : ∀ s w, u32_ok s → u16_ok w →
  mm_crc32_u16 s w = crc_bits 16 (Z.lxor s w).
Hypothesis mm_crc32_u32_spec : ∀ s w, u32_ok s → u32_ok w →
  mm_crc32_u32 s w = crc_bits 32 (Z.lxor s w).
Hypothesis mm_crc32_u64_spec : ∀ s w, u32_ok s → u64_ok w →
  mm_crc32_u64 s w = crc_bits 64 (Z.lxor s w).

Lemma sse42_words_spec state p : u32_ok state → bytes_ok p →
  let '(state', p') := sse42_words mm_crc32_u64 state p in
  ∃ done, p = done ++ p' ∧ state' = crc_reference state done ∧ (length p' < 8)%nat.
Proof.
  remember (length p) as n eqn:Hn. revert state p Hn.
  induction (lt_wf n) as [n _ IH]. intros state p -> Hs Hp.
  destruct p as [|b0 [|b1 [|b2 [|b3 [|b4 [|b5 [|b6 [|b7 p]]]]]]]];
    try (exists []; cbn; unfold crc_reference; cbn; rewrite Z.lxor_0_r; split_and!; [done|done|lia]).
  cbn [sse42_words].
  pose proof (bytes_ok_take 8 _ Hp) as Hw. pose proof (bytes_ok_drop 8 _ Hp) as Hr.
  cbn in Hw, Hr.
  pose proof (le_value_range _ Hw) as Hv. 
  rewrite mm_crc32_u64_spec by (try done; exact Hv).
  rewrite <- (crc_reference_bits 64 state [b0; b1; b2; b3; b4; b5; b6; b7]) by reflexivity.
  rewrite u32_small by auto using crc_reference_u32.
  specialize (IH (length p) ltac:(cbn; lia) (crc_reference state [b0; b1; b2; b3; b4; b5; b6; b7])
    p eq_refl ltac:(auto using crc_reference_u32) Hr).
  destruct (sse42_words _ _ p) as [s' p']. destruct IH as (done & -> & -> & Hlen).
  exists ([b0; b1; b2; b3; b4; b5; b6; b7] ++ done). split_and!; [done| |done].
  by rewrite crc_reference_app.
Qed.

(** A tail of fewer than eight bytes, by at most one word of each smaller width. *)
Lemma sse42_tail_step (mm : Z → Z → Z) (k : nat) state p :
  (∀ s w, u32_ok s → 0 ≤ w < 256 ^ Z.of_nat k → mm s w = crc_bits (8 * k) (Z.lxor s w)) →
  u32_ok state → bytes_ok p → (k ≤ length p)%nat →
  mm state (le_value (take k p)) = crc_reference state (take k p).
Proof.
  intros Hmm Hs Hp Hk. pose proof (le_value_range _ (bytes_ok_take k _ Hp)) as Hv.
  assert (length (take k p) = k) as Hlen by (rewrite length_take; lia).
  rewrite Hlen in Hv. rewrite Hmm by done. unfold crc_reference. by rewrite Hlen.
Qed.

Lemma sse42_reference state data : u32_ok state → bytes_ok data →
  tr_crc32c_update_sse42 mm_crc32_u8 mm_crc32_u16 mm_crc32_u32 mm_crc32_u64 state data =
  crc_reference state data.
Proof.
  intros Hs Hd. unfold tr_crc32c_update_sse42.
  pose proof (sse42_words_spec state data Hs Hd) as Hw.
  destruct (sse42_words _ state data) as [s1 p1]. destruct Hw as (done & -> & -> & Hlen).
  apply Forall_app in Hd as [Hd Hp]. rewrite crc_reference_app by done.
  assert (u32_ok (crc_reference state done)) as Hs1 by auto using crc_reference_u32.
  revert Hs1. generalize (crc_reference state done). clear state Hs. intros s Hs.
  set (r4 := if 4 <=? alen p1 then _ else _).
  assert (∃ s2 p2, r4 = (s2, p2) ∧ crc_reference s p1 = crc_reference s2 p2 ∧ u32_ok s2 ∧
    bytes_ok p2 ∧ (length p2 < 4)%nat) as (s2 & p2 & -> & -> & Hs2 & Hp2 & Hl2).
  { subst r4. unfold alen. case_ifs; [|by exists s, p1; split_and!; [..|lia]].
    rewrite (sse42_tail_step mm_crc32_u32 4) by (auto; lia).
    eexists _, _. split_and!; [done| | | |rewrite length_drop; lia].
    - by rewrite <- crc_reference_app, take_drop by auto with trpc.
    - apply crc_reference_u32; auto with trpc.
    - auto with trpc. }
  clear s p1 Hs Hp Hlen. set (r2 := if 2 <=? alen p2 then _ else _).
  assert (∃ s3 p3, r2 = (s3, p3) ∧ crc_reference s2 p2 = crc_reference s3 p3 ∧ u32_ok s3 ∧
    bytes_ok p3 ∧ (length p3 < 2)%nat) as (s3 & p3 & -> & -> & Hs3 & Hp3 & Hl3).
  { subst r2. unfold alen. case_ifs; [|by exists s2, p2; split_and!; [..|lia]].
    rewrite (sse42_tail_step mm_crc32_u16 2) by (auto; lia).
    eexists _, _. split_and!; [done| | | |rewrite length_drop; lia].
    - by rewrite <- crc_reference_app, take_drop by auto with trpc.
    - apply crc_reference_u32; auto with trpc.
    - auto with trpc. }
  destruct p3 as [|b [|]]; [| |simpl in Hl3; lia].
  - unfold crc_reference. cbn. by rewrite Z.lxor_0_r.
  - inversion_clear Hp3 as [|?? Hb _]. change (alen [b] =? 0) with false.
    change (aget [b] 0) with b. cbn [negb]. rewrite mm_crc32_u8_spec by done.
    rewrite (crc_reference_bits 8 s3 [b]) by reflexivity. cbn [le_value].
    by rewrite Z.mul_0_r, Z.add_0_r.
Qed.

(** Whichever backend the dispatcher selects, the update is the one of the portable
    build. *)
Theorem crc32c_backends_agree (available : bool) (state : Z) (data : list Z)
    (Hstate : u32_ok state) (Hdata : bytes_ok data) :
  tr_crc32c_update_x86 mm_crc32_u8 mm_crc32_u16 mm_crc32_u32 mm_crc32_u64 available state data
  = tr_crc32c_update state data.
Proof.
  unfold tr_crc32c_update_x86, tr_crc32c_update. case_if; [done|].
  destruct available; [|done]. by rewrite sse42_reference, portable_reference.
Qed.

End SSE42_correct.

Lemma crc32c_backends_agree_witness :
  tr_crc32c_update_x86 (fun s w => crc_bits 8 (Z.lxor s w)) (fun s w => crc_bits 16 (Z.lxor s w))
    (fun s w => crc_bits 32 (Z.lxor s w)) (fun s w => crc_bits 64 (Z.lxor s w)) true
    0xffffffff (map Z.of_nat (seq 0 15))
  = tr_crc32c_update 0xffffffff (map Z.of_nat (seq 0 15)).
Proof.
  apply (crc32c_backends_agree _ _ _ _ (fun _ _ _ _ => eq_refl) (fun _ _ _ _ => eq_refl)
    (fun _ _ _ _ => eq_refl) (fun _ _ _ _ => eq_refl)).
  - unfold u32_ok; lia.
  - repeat constructor; unfold u8_ok; lia.
Defined.

(** * Error detection *)

(** Two messages of one length whose bits differ only inside a window of 32 bits
    (an error burst of at most 32 bits, at any bit offset) have different
    checksums. *)
Theorem crc32c_detects_bursts (m m' : list Z) (w : Z) (k : nat)
    (Hm : bytes_ok m) (Hm' : bytes_ok m') (Hlen : length m = length m')
    (Hw : 0 < w < 2 ^ 32) (Hk : (k ≤ 8 * length m)%nat)
    (Hdiff : Z.lxor (le_value m) (le_value m') = Z.shiftl w (Z.of_nat k)) :
  tr_crc32c m ≠ tr_crc32c m'.
Proof.
  rewrite !crc32c_bitwise, <- Hlen by done. intros H.
  apply (f_equal (Z.lxor 0xffffffff)) in H.
  rewrite !(Z.lxor_comm 0xffffffff (Z.lxor _ _)), !Z.lxor_assoc, !Z.lxor_nilpotent, !Z.lxor_0_r in H.
  apply Z.lxor_eq_0_iff in H. rewrite <- crc_bits_lxor in H.
  replace (Z.lxor (Z.lxor _ _) (Z.lxor _ _)) with (Z.shiftl w (Z.of_nat k)) in H.
  - replace (8 * length m)%nat with (8 * length m - k + k)%nat in H by lia.
    rewrite crc_bits_add, crc_bits_shiftl in H.
    apply crc_bits_zero in H; word_lia.
  - rewrite <- Hdiff. rewrite (Z.lxor_comm 0xffffffff (le_value m)), Z.lxor_assoc.
    rewrite <- (Z.lxor_assoc 0xffffffff), Z.lxor_nilpotent, Z.lxor_0_l. done.
Qed.

Lemma crc32c_detects_bursts_witness :
  tr_crc32c [0x54; 0x52; 0x50; 0x31; 0; 0] ≠ tr_crc32c [0x54; 0x52; 0x50; 0x35; 0xff; 0].
Proof.
  apply (crc32c_detects_bursts _ _ (Z.shiftr 0xff04000000 26) 26).
  - repeat constructor; unfold u8_ok; lia.
  - repeat constructor; unfold u8_ok; lia.
  - reflexivity.
  - vm_compute. split; reflexivity.
  - simpl; lia.
  - vm_compute. reflexivity.
Defined.

Lemma crc_bits_inj n a b : u32_ok (Z.lxor a b) → crc_bits n a = crc_bits n b → a = b.
Proof.
  intros Hab H. apply Z.lxor_eq. eapply (crc_bits_zero n); [done|].
  rewrite crc_bits_lxor, H. apply Z.lxor_nilpotent.
Qed.

Lemma crc_reference_inj_state s s' d : u32_ok s → u32_ok s' →
  crc_reference s d = crc_reference s' d → s = s'.
Proof.
  intros Hs Hs' H. apply crc_bits_inj in H.
  - apply (f_equal (fun x => Z.lxor x (le_value d))) in H.
    by rewrite !Z.lxor_assoc, !Z.lxor_nilpotent, !Z.lxor_0_r in H.
  - rewrite Z.lxor_assoc, (Z.lxor_comm (le_value d)), Z.lxor_assoc, Z.lxor_nilpotent, Z.lxor_0_r.
    by apply lxor_u32.
Qed.

(** Changing at most four consecutive bytes changes the checksum. *)
Lemma crc32c_window a w w' b : bytes_ok a → bytes_ok w → bytes_ok w' → bytes_ok b →
  length w = length w' → (length w ≤ 4)%nat →
  tr_crc32c (a ++ w ++ b) = tr_crc32c (a ++ w' ++ b) → w = w'.
Proof.
  intros Ha Hw Hw' Hb Hlen H4 H. unfold tr_crc32c, tr_crc32c_finish in H.
  apply (f_equal (fun x => Z.lxor x 0xffffffff)) in H.
  rewrite !Z.lxor_assoc, !Z.lxor_nilpotent, !Z.lxor_0_r in H.
  rewrite !update_reference in H by auto with trpc.
  rewrite !crc_reference_app in H by auto with trpc.
  set (s := crc_reference tr_crc32c_begin a) in H.
  assert (u32_ok s) as Hs by (apply crc_reference_u32; [unfold tr_crc32c_begin; word_lia|done]).
  apply crc_reference_inj_state in H; [|by apply crc_reference_u32..].
  pose proof (le_value_range _ Hw) as Rw. pose proof (le_value_range _ Hw') as Rw'.
  rewrite <- Hlen in Rw'.
  assert (256 ^ Z.of_nat (length w) ≤ 256 ^ 4) by (apply Z.pow_le_mono_r; lia).
  change (256 ^ 4) with 4294967296 in *.
  apply (le_value_inj w w'); auto. unfold crc_reference in H. rewrite <- Hlen in H.
  apply crc_bits_inj in H.
  - apply (f_equal (Z.lxor s)) in H. by rewrite <- !Z.lxor_assoc, !Z.lxor_nilpotent, !Z.lxor_0_l in H.
  - rewrite (Z.lxor_comm s (le_value w)), Z.lxor_assoc, <- (Z.lxor_assoc s), Z.lxor_nilpotent, Z.lxor_0_l.
    apply lxor_u32; word_lia.
Qed.

Lemma crc32c_put_at l off w : bytes_ok l → bytes_ok w → 0 ≤ off → off + alen w ≤ alen l →
  (length w ≤ 4)%nat → tr_crc32c (put_at l off w) = tr_crc32c l → put_at l off w = l.
Proof.
  intros Hl Hw Ho Hoff H4 H. apply put_at_same; [done..|]. symmetry.
  apply (crc32c_window (take (Z.to_nat off) l) _ _ (drop (Z.to_nat off + length w) l));
    unfold at_off; auto with trpc.
  - rewrite length_take, length_drop. unfold alen in *. lia.
  - etrans; [exact H|]. f_equal. by rewrite <- drop_drop, take_drop, take_drop.
Qed.
