(* ===== verification/Wire.v ===== *)
(** Frame header codec: [src/transport/protocol/wire.{h,c}].

    The 40-byte header of every transport frame: encoding, decoding and the
    validation a receiver runs before it trusts a header.  A C output parameter is
    modelled by the old value behind the pointer ([None] for a NULL pointer) and
    the value the call leaves there. *)
From S2P Require Import Prelude Status Endian Crc32c.

(** * Constants and data *)

Definition TR_WIRE_HEADER_SIZE : Z := 40.
Definition TR_WIRE_ENV_VERSION : Z := 1.
Definition TR_WIRE_DEFAULT_MAX_PAYLOAD : Z := 1024 * 1024.

Definition TR_WIRE_OFF_MAGIC : Z := 0.
Definition TR_WIRE_OFF_VERSION : Z := 4.
Definition TR_WIRE_OFF_TYPE : Z := 6.
Definition TR_WIRE_OFF_FLAGS : Z := 8.
Definition TR_WIRE_OFF_STREAM_ID : Z := 12.
Definition TR_WIRE_OFF_MESSAGE_ID : Z := 16.
Definition TR_WIRE_OFF_PAYLOAD_LEN : Z := 24.
Definition TR_WIRE_OFF_PAYLOAD_CRC : Z := 28.
Definition TR_WIRE_OFF_HEADER_CRC : Z := 32.
Definition TR_WIRE_OFF_RESERVED : Z := 36.

Definition TR_FRAME_F_FIRST : Z := Z.shiftl 1 0.
Definition TR_FRAME_F_LAST : Z := Z.shiftl 1 1.
Definition TR_FRAME_F_LANE_BULK : Z := Z.shiftl 1 2.
Definition TR_FRAME_F_KNOWN_MASK : Z :=
  Z.lor (Z.lor TR_FRAME_F_FIRST TR_FRAME_F_LAST) TR_FRAME_F_LANE_BULK.

Definition TR_FRAME_DATA : Z := 1.
Definition TR_FRAME_STREAM_OPEN : Z := 2.
Definition TR_FRAME_STREAM_CLOSE : Z := 3.
Definition TR_FRAME_WINDOW_UPDATE : Z := 4.
Definition TR_FRAME_PING : Z := 5.
Definition TR_FRAME_PONG : Z := 6.
Definition TR_FRAME_ERROR : Z := 7.
Definition TR_FRAME_HELLO : Z := 8.
Definition TR_FRAME_HELLO_ACK : Z := 9.
Definition TR_FRAME_GOAWAY : Z := 10.
Definition TR_FRAME_BIND : Z := 11.
Definition TR_FRAME_BIND_ACK : Z := 12.
Definition TR_FRAME_PIPELINE_CONTROL : Z := 13.
Definition TR_FRAME_STREAM_RESET : Z := 14.
Definition TR_FRAME_STREAM_REFUSED : Z := 15.

Record tr_frame_header := mk_frame_header {
  fh_version : Z;
  fh_type : Z;
  fh_flags : Z;
  fh_stream_id : Z;
  fh_message_id : Z;
  fh_payload_len : Z;
  fh_payload_crc32c : Z;
  fh_header_crc32c : Z;
  fh_reserved : Z
}.

(** The all-zero header [memset] leaves. *)
Definition zero_frame_header : tr_frame_header := mk_frame_header 0 0 0 0 0 0 0 0 0.

Record tr_wire_limits := { max_payload_len : Z }.

(** ['T', 'R', 'P', '1'] *)
Definition tr_magic : list Z := [0x54; 0x52; 0x50; 0x31].

(** * Operations *)

Definition tr_frame_type_valid (t : Z) : bool :=
  existsb (Z.eqb t)
    [TR_FRAME_DATA; TR_FRAME_STREAM_OPEN; TR_FRAME_STREAM_CLOSE; TR_FRAME_WINDOW_UPDATE;
     TR_FRAME_PING; TR_FRAME_PONG; TR_FRAME_ERROR; TR_FRAME_HELLO; TR_FRAME_HELLO_ACK;
     TR_FRAME_GOAWAY; TR_FRAME_BIND; TR_FRAME_BIND_ACK; TR_FRAME_PIPELINE_CONTROL;
     TR_FRAME_STREAM_RESET; TR_FRAME_STREAM_REFUSED].

Definition tr_wire_stream_reset_status_valid (status : Z) : bool :=
  (status =? status_value TR_ERR_CLOSED) || (status =? status_value TR_ERR_TIMEOUT) ||
  (status =? status_value TR_ERR_NOMEM) || (status =? status_value TR_ERR_STATE) ||
  (status =? status_value TR_ERR_SYS).

Definition tr_header_crc (raw : list Z) : Z :=
  let tmp := raw in
  let tmp := put_at tmp TR_WIRE_OFF_HEADER_CRC [0; 0; 0; 0] in
  tr_crc32c tmp.

Definition tr_wire_header_encode (out : option (list Z)) (header : option tr_frame_header)
    : tr_status * option (list Z) :=
  match out, header with
  | Some _, Some header =>
      let out := replicate (Z.to_nat TR_WIRE_HEADER_SIZE) 0 in
      let out := put_at out TR_WIRE_OFF_MAGIC tr_magic in
      let out := put_at out TR_WIRE_OFF_VERSION (tr_put_le16 (fh_version header)) in
      let out := put_at out TR_WIRE_OFF_TYPE (tr_put_le16 (fh_type header)) in
      let out := put_at out TR_WIRE_OFF_FLAGS (tr_put_le32 (fh_flags header)) in
      let out := put_at out TR_WIRE_OFF_STREAM_ID (tr_put_le32 (fh_stream_id header)) in
      let out := put_at out TR_WIRE_OFF_MESSAGE_ID (tr_put_le64 (fh_message_id header)) in
      let out := put_at out TR_WIRE_OFF_PAYLOAD_LEN (tr_put_le32 (fh_payload_len header)) in
      let out := put_at out TR_WIRE_OFF_PAYLOAD_CRC (tr_put_le32 (fh_payload_crc32c header)) in
      let out := put_at out TR_WIRE_OFF_HEADER_CRC (tr_put_le32 0) in
      let out := put_at out TR_WIRE_OFF_RESERVED (tr_put_le32 (fh_reserved header)) in
      let crc := tr_header_crc out in
      let out := put_at out TR_WIRE_OFF_HEADER_CRC (tr_put_le32 crc) in
      (TR_OK, Some out)
  | _, _ => (TR_ERR_INVALID, out)
  end.

Definition tr_wire_header_decode (inp : option (list Z)) (header : option tr_frame_header)
    : tr_status * option tr_frame_header :=
  match inp, header with
  | Some inp, Some _ =>
      (TR_OK, Some {|
        fh_version := tr_get_le16 (at_off inp TR_WIRE_OFF_VERSION);
        fh_type := tr_get_le16 (at_off inp TR_WIRE_OFF_TYPE);
        fh_flags := tr_get_le32 (at_off inp TR_WIRE_OFF_FLAGS);
        fh_stream_id := tr_get_le32 (at_off inp TR_WIRE_OFF_STREAM_ID);
        fh_message_id := tr_get_le64 (at_off inp TR_WIRE_OFF_MESSAGE_ID);
        fh_payload_len := tr_get_le32 (at_off inp TR_WIRE_OFF_PAYLOAD_LEN);
        fh_payload_crc32c := tr_get_le32 (at_off inp TR_WIRE_OFF_PAYLOAD_CRC);
        fh_header_crc32c := tr_get_le32 (at_off inp TR_WIRE_OFF_HEADER_CRC);
        fh_reserved := tr_get_le32 (at_off inp TR_WIRE_OFF_RESERVED) |})
  | _, _ => (TR_ERR_INVALID, header)
  end.

(** [limits && limits->max_payload_len ? limits->max_payload_len : default] *)
Definition effective_max_payload (limits : option tr_wire_limits) : Z :=
  match limits with
  | Some l => if max_payload_len l =? 0 then TR_WIRE_DEFAULT_MAX_PAYLOAD else max_payload_len l
  | None => TR_WIRE_DEFAULT_MAX_PAYLOAD
  end.

Definition tr_wire_header_validate (raw : option (list Z)) (header : option tr_frame_header)
    (limits : option tr_wire_limits) : tr_status :=
  match raw, header with
  | Some raw, Some header =>
      bail TR_ERR_BAD_MAGIC when
        (negb (bool_decide (take 4 (at_off raw TR_WIRE_OFF_MAGIC) = tr_magic))) ;;
      bail TR_ERR_HEADER_CRC when (negb (tr_header_crc raw =? fh_header_crc32c header)) ;;
      bail TR_ERR_BAD_VERSION when (negb (fh_version header =? TR_WIRE_ENV_VERSION)) ;;
      bail TR_ERR_BAD_TYPE when (negb (tr_frame_type_valid (fh_type header))) ;;
      bail TR_ERR_BAD_FLAGS when
        (negb (Z.land (fh_flags header) (u32 (Z.lnot TR_FRAME_F_KNOWN_MASK)) =? 0)) ;;
      bail TR_ERR_RESERVED when (negb (fh_reserved header =? 0)) ;;
      let max_payload := effective_max_payload limits in
      bail TR_ERR_BAD_LENGTH when (fh_payload_len header >? max_payload) ;;
      if (fh_type header =? TR_FRAME_STREAM_RESET) || (fh_type header =? TR_FRAME_STREAM_REFUSED) then
        bail TR_ERR_BAD_FLAGS when (negb (fh_flags header =? 0)) ;;
        bail TR_ERR_BAD_LENGTH when (negb (fh_payload_len header =? 0)) ;;
        bail TR_ERR_INVALID when
          ((fh_stream_id header =? 0) || (fh_message_id header >? INT32_MAX) ||
           negb (tr_wire_stream_reset_status_valid (- fh_message_id header))) ;;
        bail TR_ERR_INVALID when
          ((fh_type header =? TR_FRAME_STREAM_REFUSED) &&
           negb (fh_message_id header =? - status_value TR_ERR_NOMEM)) ;;
        TR_OK
      else TR_OK
  | _, _ => TR_ERR_INVALID
  end.

(** * Specification *)

(** The fields are values of their C types. *)
Record header_ok (h : tr_frame_header) : Prop := {
  ok_version : u16_ok (fh_version h);
  ok_type : u16_ok (fh_type h);
  ok_flags : u32_ok (fh_flags h);
  ok_stream_id : u32_ok (fh_stream_id h);
  ok_message_id : u64_ok (fh_message_id h);
  ok_payload_len : u32_ok (fh_payload_len h);
  ok_payload_crc : u32_ok (fh_payload_crc32c h);
  ok_header_crc : u32_ok (fh_header_crc32c h);
  ok_reserved : u32_ok (fh_reserved h)
}.

(** A failure reason a RESET may carry: CLOSED, TIMEOUT, NOMEM, STATE or SYS, negated. *)
Definition reset_reason (m : Z) : Prop := m = 13 ∨ m = 16 ∨ m = 2 ∨ m = 11 ∨ m = 12.

(** What a peer may send under a payload limit, stated without the code's tests. *)
Record admissible (limits : option tr_wire_limits) (h : tr_frame_header) : Prop := {
  adm_version : fh_version h = 1;
  adm_type : 1 ≤ fh_type h ≤ 15;
  adm_flags : 0 ≤ fh_flags h < 8;
  adm_reserved : fh_reserved h = 0;
  adm_length : fh_payload_len h ≤ effective_max_payload limits;
  adm_reset : fh_type h = TR_FRAME_STREAM_RESET ∨ fh_type h = TR_FRAME_STREAM_REFUSED →
    fh_flags h = 0 ∧ fh_payload_len h = 0 ∧ fh_stream_id h ≠ 0 ∧ reset_reason (fh_message_id h);
  adm_refused : fh_type h = TR_FRAME_STREAM_REFUSED → fh_message_id h = 2
}.

(** The header with the checksum field set to [crc]. *)
Definition with_header_crc (h : tr_frame_header) (crc : Z) : tr_frame_header :=
  mk_frame_header (fh_version h) (fh_type h) (fh_flags h) (fh_stream_id h) (fh_message_id h)
    (fh_payload_len h) (fh_payload_crc32c h) crc (fh_reserved h).

(** The bytes of a header whose checksum field holds [crc], in wire order. *)
Definition header_layout (h : tr_frame_header) (crc : list Z) : list Z :=
  tr_magic ++ tr_put_le16 (fh_version h) ++ tr_put_le16 (fh_type h) ++
  tr_put_le32 (fh_flags h) ++ tr_put_le32 (fh_stream_id h) ++ tr_put_le64 (fh_message_id h) ++
  tr_put_le32 (fh_payload_len h) ++ tr_put_le32 (fh_payload_crc32c h) ++
  crc ++ tr_put_le32 (fh_reserved h).

Definition header_bytes (h : tr_frame_header) : list Z :=
  header_layout h (tr_put_le32 (tr_crc32c (header_layout h [0; 0; 0; 0]))).

Lemma tr_wire_header_encode_layout o h :
  tr_wire_header_encode (Some o) (Some h) = (TR_OK, Some (header_bytes h)).
Proof. reflexivity. Qed.

Lemma bytes_ok_layout h crc : bytes_ok crc → bytes_ok (header_layout h crc).
Proof.
  intros. unfold header_layout. 
  assert (bytes_ok tr_magic) by (repeat constructor; unfold u8_ok; lia).
  auto 12 with trpc.
Qed.

Lemma bytes_ok_header h : bytes_ok (header_bytes h).
Proof. apply bytes_ok_layout. auto with trpc. Qed.

Lemma length_header h : alen (header_bytes h) = 40.
Proof. reflexivity. Qed.

Lemma bytes_ok_zero4 : bytes_ok [0; 0; 0; 0].
Proof. repeat constructor; unfold u8_ok; lia. Qed.

#[export] Hint Resolve bytes_ok_layout bytes_ok_header bytes_ok_zero4 : trpc.

Lemma header_crc_bytes h : tr_header_crc (header_bytes h) = tr_crc32c (header_layout h [0; 0; 0; 0]).
Proof. reflexivity. Qed.

(** Reading each field of a layout back. *)
Lemma decode_header_bytes h o : header_ok h →
  tr_wire_header_decode (Some (header_bytes h)) (Some o) =
  (TR_OK, Some (with_header_crc h (tr_header_crc (header_bytes h)))).
Proof.
  intros [].
  assert (u32_ok (tr_crc32c (header_layout h [0; 0; 0; 0]))) as Hcrc by auto with trpc.
  rewrite header_crc_bytes. unfold header_bytes.
  revert Hcrc. generalize (tr_crc32c (header_layout h [0; 0; 0; 0])). intros crc Hcrc.
  unfold tr_wire_header_decode, with_header_crc, header_layout.
  f_equal. f_equal. f_equal.
  - apply get_put_le16; auto 12 with trpc.
  - apply get_put_le16; auto 12 with trpc.
  - apply get_put_le32; auto 12 with trpc.
  - apply get_put_le32; auto 12 with trpc.
  - apply get_put_le64; auto 12 with trpc.
  - apply get_put_le32; auto 12 with trpc.
  - apply get_put_le32; auto 12 with trpc.
  - apply get_put_le32; auto 12 with trpc.
  - rewrite <- (app_nil_r (tr_put_le32 (fh_reserved h))).
    apply (get_put_le32 (fh_reserved h) []); auto. constructor.
Qed.

(** * Validation *)

Lemma frame_type_valid_range t : tr_frame_type_valid t = true ↔ 1 ≤ t ≤ 15.
Proof.
  unfold tr_frame_type_valid. rewrite existsb_exists. split.
  - intros (x & Hx & Heq). apply Z.eqb_eq in Heq. subst x. repeat destruct Hx as [<-|Hx]; vm_compute;
      try done; split; discriminate.
  - intros Ht. exists t. split; [|by apply Z.eqb_eq].
    assert (t ∈ map Z.of_nat (seq 1 15)) as Hin.
    { apply list_elem_of_fmap. exists (Z.to_nat t). rewrite elem_of_seq. lia. }
    apply list_elem_of_In in Hin. exact Hin.
Qed.

Lemma flags_mask_zero f : u32_ok f →
  Z.land f (u32 (Z.lnot TR_FRAME_F_KNOWN_MASK)) = 0 ↔ f < 8.
Proof.
  intros Hf. change (u32 (Z.lnot TR_FRAME_F_KNOWN_MASK)) with (Z.shiftl (Z.ones 29) 3).
  split; intros H.
  - assert (Z.shiftr f 3 = 0) as H3.
    { apply Z.bits_inj'. intros i Hi. rewrite Z.bits_0, Z.shiftr_spec by done.
      destruct (Z.lt_ge_cases i 29).
      - apply (f_equal (fun z => Z.testbit z (i + 3))) in H.
        rewrite Z.land_spec, Z.bits_0, Z.shiftl_spec in H by lia.
        replace (i + 3 - 3) with i in H by lia.
        rewrite Z.ones_spec_low in H by lia. by rewrite andb_true_r in H.
      - rewrite <- (Z.mod_small f (2 ^ 32)), Z.mod_pow2_bits_high by word_lia. done. }
    rewrite Z.shiftr_div_pow2 in H3 by lia. change (2 ^ 3) with 8 in H3.
    pose proof (Z.div_mod f 8 ltac:(lia)). pose proof (Z.mod_pos_bound f 8 ltac:(lia)). lia.
  - apply Z.bits_inj'. intros i Hi. rewrite Z.land_spec, Z.bits_0, Z.shiftl_spec by done.
    destruct (Z.lt_ge_cases i 3).
    + rewrite (Z.testbit_neg_r _ (i - 3)) by lia. apply andb_false_r.
    + rewrite <- (Z.mod_small f (2 ^ 3)), Z.mod_pow2_bits_high by (unfold_words; simpl in *; lia). done.
Qed.

Lemma reset_status_valid_reason m : tr_wire_stream_reset_status_valid (- m) = true ↔ reset_reason m.
Proof.
  unfold tr_wire_stream_reset_status_valid, reset_reason. cbn [status_value].
  rewrite !orb_true_iff, !Z.eqb_eq. lia.
Qed.

(** Bool tests of [validate], each under its meaning. *)
Lemma validate_ok_iff raw h limits : header_ok h →
  tr_wire_header_validate (Some raw) (Some h) limits = TR_OK ↔
  take 4 raw = tr_magic ∧ tr_header_crc raw = fh_header_crc32c h ∧ admissible limits h.
Proof.
  intros Hok. destruct Hok. unfold tr_wire_header_validate, at_off.
  change (drop (Z.to_nat TR_WIRE_OFF_MAGIC) raw) with raw.
  pose proof (frame_type_valid_range (fh_type h)) as Ht.
  pose proof (flags_mask_zero (fh_flags h) ok_flags0) as Hf.
  pose proof (reset_status_valid_reason (fh_message_id h)) as Hr.
  unfold TR_WIRE_ENV_VERSION, TR_FRAME_STREAM_RESET, TR_FRAME_STREAM_REFUSED in *.
  split.
  - case_ifs; try discriminate; intros _; (split; [done|split; [done|]]);
      (split; [done|tauto|unfold_words; lia|done|lia|unfold TR_FRAME_STREAM_RESET|]);
      unfold TR_FRAME_STREAM_REFUSED; cbn [status_value] in *; intuition lia.
  - intros (Hm & Hcrc & []).
    unfold TR_FRAME_STREAM_RESET, TR_FRAME_STREAM_REFUSED in *.
    assert (Hok : reset_reason (fh_message_id h) → fh_message_id h ≤ INT32_MAX)
      by (unfold reset_reason; word_lia).
    case_ifs; try done; exfalso; cbn [status_value] in *; try congruence; try lia; intuition (try congruence; try lia).
Qed.

(** A decoded header holds values of the field widths. *)
Lemma decode_ok raw o h : bytes_ok raw → length raw = 40%nat →
  tr_wire_header_decode (Some raw) (Some o) = (TR_OK, Some h) → header_ok h.
Proof.
  intros Hraw Hlen H. injection H as <-.
  assert (∀ off, 0 ≤ off → alen (at_off raw off) = Z.max 0 (40 - off)) as Hoff.
  { intros. unfold alen, at_off. rewrite length_drop. lia. }
  assert (∀ off, bytes_ok (at_off raw off)) as Hb by (intros; by apply bytes_ok_drop).
  split; cbn; first [apply tr_get_le16_range | apply tr_get_le32_range | apply tr_get_le64_range];
    auto; rewrite Hoff; vm_compute; discriminate.
Qed.

(** The bytes of a header that passes the magic and checksum tests are the encoding
    of what was decoded from them. *)
Lemma header_bytes_decode raw o h : bytes_ok raw → length raw = 40%nat →
  take 4 raw = tr_magic → tr_header_crc raw = fh_header_crc32c h →
  tr_wire_header_decode (Some raw) (Some o) = (TR_OK, Some h) → header_bytes h = raw.
Proof.
  intros Hraw Hlen Hmagic Hcrc H.
  do 40 (destruct raw as [|? raw]; [discriminate Hlen|]). destruct raw; [|discriminate Hlen].
  injection Hmagic as -> -> -> ->. injection H as <-.
  set (raw := _ :: _) in *.
  assert (∀ off, bytes_ok (at_off raw off)) as Hd by (intros; by apply bytes_ok_drop).
  cbn [fh_header_crc32c] in Hcrc. unfold header_bytes, header_layout.
  cbn [fh_version fh_type fh_flags fh_stream_id fh_message_id fh_payload_len fh_payload_crc32c
    fh_reserved].
  rewrite !put_get_le16, put_get_le64, !put_get_le32 by (apply Hd || (vm_compute; discriminate)).
  match goal with |- context [tr_crc32c ?l] =>
    replace (tr_crc32c l) with (tr_header_crc raw) by reflexivity end.
  rewrite Hcrc, put_get_le32; [reflexivity|apply Hd|vm_compute; discriminate].
Qed.

(** The checksum field plays no part in admissibility. *)
Lemma admissible_with_crc limits h crc :
  admissible limits (with_header_crc h crc) ↔ admissible limits h.
Proof. split; intros []; split; assumption. Qed.

(** * Theorems *)

(** C36: Encoding any header of well-typed fields gives 40 bytes from which decoding
    recovers every field (the checksum field holding the computed checksum), and the
    receiver's validation accepts them exactly when the header is admissible under
    the receiver's limit. *)
Theorem wire_encode_decode_validate (o : list Z) (o' h : tr_frame_header)
    (limits : option tr_wire_limits) (Hh : header_ok h) :
  ∃ raw h', tr_wire_header_encode (Some o) (Some h) = (TR_OK, Some raw) ∧
    length raw = 40%nat ∧ bytes_ok raw ∧
    tr_wire_header_decode (Some raw) (Some o') = (TR_OK, Some h') ∧
    h' = with_header_crc h (tr_header_crc raw) ∧
    (tr_wire_header_validate (Some raw) (Some h') limits = TR_OK ↔ admissible limits h).
Proof.
  exists (header_bytes h), (with_header_crc h (tr_header_crc (header_bytes h))).
  pose proof (decode_header_bytes h o' Hh) as Hdec.
  split_and!; [by rewrite tr_wire_header_encode_layout|reflexivity|auto with trpc|done|done|].
  rewrite validate_ok_iff by (apply (decode_ok (header_bytes h) o'); auto with trpc). cbn [fh_header_crc32c with_header_crc].
  rewrite admissible_with_crc. split; [by intros (_ & _ & ?)|]. intros H. split; [reflexivity|]. split; [reflexivity|exact H].
Qed.

Definition sample_header : tr_frame_header :=
  mk_frame_header 1 TR_FRAME_DATA 3 7 42 5 0x12345678 0 0.

Lemma wire_encode_decode_validate_witness :
  header_ok sample_header ∧
  tr_wire_header_validate (snd (tr_wire_header_encode (Some []) (Some sample_header)))
    (snd (tr_wire_header_decode (snd (tr_wire_header_encode (Some []) (Some sample_header)))
      (Some zero_frame_header))) None = TR_OK.
Proof.
  assert (header_ok sample_header) as Hok by (split; vm_compute; split; (discriminate || reflexivity)).
  split; [exact Hok|].
  destruct (wire_encode_decode_validate [] zero_frame_header sample_header None Hok)
    as (raw & h' & -> & _ & _ & Hd & _ & Hv). cbn [snd]. rewrite Hd. cbn [snd].
  apply Hv. split; cbn; vm_compute; try (split; discriminate || reflexivity);
    try discriminate; intros; try (by destruct_or!); try done; split; discriminate || reflexivity.
Defined.

(** Every 40-byte header that validation accepts is canonical: encoding what was
    decoded from it gives the same bytes, so no two byte strings carry one header. *)
Theorem wire_validated_canonical (raw : list Z) (o h : tr_frame_header)
    (limits : option tr_wire_limits) (out : list Z) (Hraw : bytes_ok raw) (Hlen : length raw = 40%nat)
    (Hdec : tr_wire_header_decode (Some raw) (Some o) = (TR_OK, Some h))
    (Hval : tr_wire_header_validate (Some raw) (Some h) limits = TR_OK) :
  tr_wire_header_encode (Some out) (Some h) = (TR_OK, Some raw).
Proof.
  apply validate_ok_iff in Hval as (Hm & Hc & _); [|by eapply decode_ok].
  rewrite tr_wire_header_encode_layout. by erewrite header_bytes_decode.
Qed.

Lemma wire_validated_canonical_witness :
  let raw := header_bytes sample_header in
  tr_wire_header_encode (Some []) (Some (with_header_crc sample_header (tr_header_crc raw))) =
  (TR_OK, Some raw).
Proof.
  intros raw. apply (wire_validated_canonical raw zero_frame_header _ None).
  - apply bytes_ok_header.
  - reflexivity.
  - vm_compute. reflexivity.
  - vm_compute. reflexivity.
Defined.

(** Overwriting one aligned word of a header outside the checksum field. *)
Section WordLayout.
Variables (h : tr_frame_header) (c w : list Z) (j : nat).
Hypotheses (Hj : (j < 10)%nat) (Hj8 : j ≠ 8%nat) (Hc : length c = 4%nat) (Hlen : length w = 4%nat).

Ltac each_word :=
  destruct c as [|? [|? [|? [|? [|]]]]]; try discriminate Hc;
  destruct w as [|? [|? [|? [|? [|]]]]]; try discriminate Hlen;
  destruct j as [|[|[|[|[|[|[|[|[|[|]]]]]]]]]];
  first [congruence | lia | reflexivity].

Lemma layout_word_zeroed :
  put_at (put_at (header_layout h c) (4 * Z.of_nat j) w) TR_WIRE_OFF_HEADER_CRC [0; 0; 0; 0] =
  put_at (header_layout h [0; 0; 0; 0]) (4 * Z.of_nat j) w.
Proof. each_word. Qed.

Lemma layout_word_stored :
  at_off (put_at (header_layout h c) (4 * Z.of_nat j) w) TR_WIRE_OFF_HEADER_CRC =
  c ++ at_off (put_at (header_layout h c) (4 * Z.of_nat j) w) TR_WIRE_OFF_RESERVED.
Proof. each_word. Qed.

Lemma layout_word_same :
  take 4 (at_off (header_layout h c) (4 * Z.of_nat j)) =
  take 4 (at_off (header_layout h [0; 0; 0; 0]) (4 * Z.of_nat j)).
Proof. each_word. Qed.

End WordLayout.

(** Overwriting the checksum field. *)
Section CrcLayout.
Variables (h : tr_frame_header) (c w : list Z).
Hypotheses (Hc : length c = 4%nat) (Hlen : length w = 4%nat).

Ltac crc_word :=
  destruct c as [|? [|? [|? [|? [|]]]]]; try discriminate Hc;
  destruct w as [|? [|? [|? [|? [|]]]]]; try discriminate Hlen; reflexivity.

Lemma layout_crc_zeroed :
  put_at (put_at (header_layout h c) (4 * Z.of_nat 8) w) TR_WIRE_OFF_HEADER_CRC [0; 0; 0; 0] =
  header_layout h [0; 0; 0; 0].
Proof. crc_word. Qed.

Lemma layout_crc_stored :
  at_off (put_at (header_layout h c) (4 * Z.of_nat 8) w) TR_WIRE_OFF_HEADER_CRC =
  w ++ tr_put_le32 (fh_reserved h).
Proof. crc_word. Qed.

End CrcLayout.

Lemma layout_crc_same h w : length w = 4%nat →
  put_at (header_layout h w) (4 * Z.of_nat 8) w = header_layout h w.
Proof. by destruct w as [|? [|? [|? [|? [|]]]]]. Qed.

(** Corrupting any aligned 32-bit word of an encoded header, in whatever bits, makes
    the receiver reject it. *)
Theorem wire_corrupted_word_rejected (h o : tr_frame_header) (limits : option tr_wire_limits)
    (j : nat) (w : list Z) (Hj : (j < 10)%nat) (Hw : bytes_ok w) (Hlen : length w = 4%nat)
    (Hne : put_at (header_bytes h) (4 * Z.of_nat j) w ≠ header_bytes h) :
  let raw := put_at (header_bytes h) (4 * Z.of_nat j) w in
  tr_wire_header_validate (Some raw) (snd (tr_wire_header_decode (Some raw) (Some o))) limits ≠ TR_OK.
Proof.
  intros raw Hval.
  assert (bytes_ok raw) as Hraw by (subst raw; auto with trpc).
  assert (length raw = 40%nat) as Hl.
  { subst raw. rewrite length_put_at; unfold alen; rewrite ?Hlen; cbn; lia. }
  apply validate_ok_iff in Hval as (_ & Hc & _); [|by apply (decode_ok raw o)].
  cbn [fh_header_crc32c snd tr_wire_header_decode] in Hc.
  apply Hne. clear Hne. unfold tr_header_crc in Hc. subst raw. revert Hc Hraw.
  unfold header_bytes. set (zeroed := header_layout h [0; 0; 0; 0]).
  assert (bytes_ok zeroed) as Hz by (subst zeroed; auto with trpc).
  assert (∃ c, c = tr_crc32c zeroed ∧ u32_ok c) as (c & Hceq & Hcz) by eauto with trpc.
  rewrite <- Hceq. intros Hc Hraw.
  destruct (decide (j = 8%nat)) as [->|Hj8].
  - rewrite layout_crc_zeroed in Hc by done. fold zeroed in Hc. rewrite <- Hceq in Hc.
    rewrite layout_crc_stored in Hc by done. rewrite Hc, put_get_le32.
    + rewrite take_app_length' by done. by apply layout_crc_same.
    + auto with trpc.
    + unfold alen. rewrite length_app, Hlen. lia.
  - rewrite layout_word_zeroed, layout_word_stored, get_put_le32 in Hc
      by first [assumption | reflexivity | apply bytes_ok_drop; assumption].
    fold zeroed in Hc. rewrite Hceq in Hc.
    apply crc32c_put_at in Hc; [|done|done|lia|unfold alen; rewrite Hlen; cbn; lia|lia].
    apply put_at_same; [lia|unfold alen; rewrite Hlen; cbn; lia|].
    apply put_at_same in Hc; [|lia|unfold alen; rewrite Hlen; cbn; lia].
    rewrite Hlen in Hc |- *. by rewrite (layout_word_same h _ w j).
Qed.

Lemma wire_corrupted_word_rejected_witness :
  put_at (header_bytes sample_header) (4 * Z.of_nat 2) [7; 0; 0; 0] ≠ header_bytes sample_header ∧
  let raw := put_at (header_bytes sample_header) (4 * Z.of_nat 2) [7; 0; 0; 0] in
  tr_wire_header_validate (Some raw)
    (snd (tr_wire_header_decode (Some raw) (Some zero_frame_header))) None ≠ TR_OK.
Proof.
  assert (put_at (header_bytes sample_header) (4 * Z.of_nat 2) [7; 0; 0; 0]
    ≠ header_bytes sample_header) as Hne by (vm_compute; discriminate).
  split; [exact Hne|]. apply (wire_corrupted_word_rejected _ _ _ 2 [7; 0; 0; 0]).
  - lia.
  - repeat constructor; unfold u8_ok; lia.
  - reflexivity.
  - exact Hne.
Defined.
