(* ===== verification/MemoryBudget.v ===== *)
(** Byte budgets: [src/memory_budget.h].

    A budget counts reserved bytes against a limit; a child budget (one per shard)
    also charges its parent (the server's root).  Three layers:

    - the operations run without interference ([tr_memory_budget_reserve_local] ..
      [tr_memory_budget_release]), which is what the single-owner components of the development call;
    - the interface [Budget] those components are proved against, with the budget
      of this file as its instance;
    - the operations as the lock-free loops of the source, one atomic access per
      step ([thread_step]), interleaved arbitrarily between any number of threads,
      with the invariants that hold in every reachable state. *)
From S2P Require Import Prelude Status.

(** * Data *)

Record tr_memory_budget := mk_budget {
  limit_bytes : Z;
  current_bytes : Z;
  peak_bytes : Z;
  rejection_events : Z
}.

#[export] Instance tr_memory_budget_inhabited : Inhabited tr_memory_budget :=
  populate (mk_budget 0 0 0 0).

(** A budget together with what its [parent] pointer designates. *)
Record budget_ref := mk_budget_ref {
  br_self : tr_memory_budget;
  br_parent : option tr_memory_budget
}.

Definition set_current (b : tr_memory_budget) (c : Z) : tr_memory_budget :=
  mk_budget (limit_bytes b) c (peak_bytes b) (rejection_events b).
Definition set_peak (b : tr_memory_budget) (p : Z) : tr_memory_budget :=
  mk_budget (limit_bytes b) (current_bytes b) p (rejection_events b).
Definition count_rejection (b : tr_memory_budget) : tr_memory_budget :=
  mk_budget (limit_bytes b) (current_bytes b) (peak_bytes b) (u64 (rejection_events b + 1)).

(** * The operations without interference *)

Definition tr_memory_budget_init (limit : Z) : tr_memory_budget := mk_budget limit 0 0 0.

(** [same] is [budget == parent]; the parent's own parent is in its reference. *)
Definition tr_memory_budget_init_child (budget : option tr_memory_budget) (limit : Z)
    (parent : option budget_ref) (same : bool) : tr_status * option budget_ref :=
  match budget, parent with
  | Some _, Some p =>
      bail (TR_ERR_INVALID, None) when (same || bool_decide (is_Some (br_parent p))) ;;
      (TR_OK, Some (mk_budget_ref (tr_memory_budget_init limit) (Some (br_self p))))
  | _, _ => (TR_ERR_INVALID, None)
  end.

Definition tr_memory_budget_reserve_local (b : tr_memory_budget) (bytes : Z) : tr_status * tr_memory_budget :=
  bail (TR_OK, b) when (bytes =? 0) ;;
  let current := current_bytes b in
  bail (TR_ERR_STATE, b) when (bytes >? UINT64_MAX - current) ;;
  let next := current + bytes in
  bail (TR_AGAIN, count_rejection b) when
    (negb (limit_bytes b =? 0) && (next >? limit_bytes b)) ;;
  let b := set_current b next in
  (TR_OK, if peak_bytes b <? next then set_peak b next else b).

Definition tr_memory_budget_release_local (b : tr_memory_budget) (bytes : Z) : tr_status * tr_memory_budget :=
  bail (TR_OK, b) when (bytes =? 0) ;;
  let current := current_bytes b in
  bail (TR_ERR_STATE, b) when (current <? bytes) ;;
  (TR_OK, set_current b (current - bytes)).

Definition tr_memory_budget_reserve (budget : option budget_ref) (bytes : Z)
    : tr_status * option budget_ref :=
  match budget with
  | None => (TR_ERR_INVALID, None)
  | Some (mk_budget_ref b None) =>
      let '(ret, b) := tr_memory_budget_reserve_local b bytes in (ret, Some (mk_budget_ref b None))
  | Some (mk_budget_ref b (Some p)) =>
      let '(ret, p) := tr_memory_budget_reserve_local p bytes in
      bail (ret, Some (mk_budget_ref b (Some p))) when (negb (is_ok ret)) ;;
      let '(ret, b) := tr_memory_budget_reserve_local b bytes in
      if negb (is_ok ret) then
        let '(rollback_ret, p) := tr_memory_budget_release_local p bytes in
        bail (rollback_ret, Some (mk_budget_ref b (Some p))) when (negb (is_ok rollback_ret)) ;;
        (ret, Some (mk_budget_ref b (Some p)))
      else (ret, Some (mk_budget_ref b (Some p)))
  end.

Definition tr_memory_budget_release (budget : option budget_ref) (bytes : Z)
    : tr_status * option budget_ref :=
  match budget with
  | None => (TR_ERR_INVALID, None)
  | Some (mk_budget_ref b parent) =>
      let '(ret, b) := tr_memory_budget_release_local b bytes in
      match parent with
      | None => (ret, Some (mk_budget_ref b None))
      | Some p =>
          bail (ret, Some (mk_budget_ref b (Some p))) when (negb (is_ok ret)) ;;
          let '(ret, p) := tr_memory_budget_release_local p bytes in
          (ret, Some (mk_budget_ref b (Some p)))
      end
  end.

Record tr_memory_budget_stats := mk_budget_stats {
  st_limit_bytes : Z; st_current_bytes : Z; st_peak_bytes : Z; st_rejection_events : Z
}.

Definition tr_memory_budget_get_stats (budget : option tr_memory_budget)
    : tr_memory_budget_stats :=
  match budget with
  | None => mk_budget_stats 0 0 0 0
  | Some b => mk_budget_stats (limit_bytes b) (current_bytes b) (peak_bytes b) (rejection_events b)
  end.

(** * The operations as atomic steps *)

(** Program points of the local loops: before the first load; in the loop with the
    value last observed; the peak update; returned. *)
Inductive lpc :=
| L_load
| L_loop (current : Z)
| L_peak (next : Z)
| L_peak_loop (next peak : Z)
| L_done (ret : tr_status).

(** One atomic access of [tr_memory_budget_reserve_local]; [spurious] makes a weak
    compare-and-exchange fail though the value matches. *)
Definition reserve_step (bytes : Z) (spurious : bool) (b : tr_memory_budget) (pc : lpc)
    : tr_memory_budget * lpc :=
  match pc with
  | L_load =>
      if bytes =? 0 then (b, L_done TR_OK) else (b, L_loop (current_bytes b))
  | L_loop current =>
      bail (b, L_done TR_ERR_STATE) when (bytes >? UINT64_MAX - current) ;;
      let next := current + bytes in
      bail (count_rejection b, L_done TR_AGAIN) when
        (negb (limit_bytes b =? 0) && (next >? limit_bytes b)) ;;
      if (current_bytes b =? current) && negb spurious
      then (set_current b next, L_peak next)
      else (b, L_loop (current_bytes b))
  | L_peak next => (b, L_peak_loop next (peak_bytes b))
  | L_peak_loop next peak =>
      bail (b, L_done TR_OK) when (negb (peak <? next)) ;;
      if (peak_bytes b =? peak) && negb spurious
      then (set_peak b next, L_done TR_OK)
      else (b, L_peak_loop next (peak_bytes b))
  | L_done ret => (b, L_done ret)
  end.

Definition release_step (bytes : Z) (spurious : bool) (b : tr_memory_budget) (pc : lpc)
    : tr_memory_budget * lpc :=
  match pc with
  | L_load =>
      if bytes =? 0 then (b, L_done TR_OK) else (b, L_loop (current_bytes b))
  | L_loop current =>
      bail (b, L_done TR_ERR_STATE) when (current <? bytes) ;;
      if (current_bytes b =? current) && negb spurious
      then (set_current b (current - bytes), L_done TR_OK)
      else (b, L_loop (current_bytes b))
  | pc => (b, pc)
  end.

(** Where a thread is inside [tr_memory_budget_reserve] or [tr_memory_budget_release]
    on a child budget. *)
Inductive tpc :=
| T_reserve_parent (l : lpc)
| T_reserve_local (l : lpc)
| T_rollback (ret : tr_status) (l : lpc)
| T_release_local (l : lpc)
| T_release_parent (l : lpc)
| T_done (ret : tr_status).

(** [t_release] tells a release call from a reserve call. *)
Record thread := mk_thread { t_kid : nat; t_bytes : Z; t_release : bool; t_pc : tpc }.

(** A root budget, its children, and the threads operating on the children. *)
Record sys := mk_sys {
  s_root : tr_memory_budget;
  s_kids : list tr_memory_budget;
  s_threads : list thread
}.

(** One step of a thread, on the root and its own child. *)
Definition tpc_step (bytes : Z) (spurious : bool) (root kid : tr_memory_budget) (pc : tpc)
    : tr_memory_budget * tr_memory_budget * tpc :=
  match pc with
  | T_reserve_parent (L_done ret) =>
      if is_ok ret then (root, kid, T_reserve_local L_load) else (root, kid, T_done ret)
  | T_reserve_parent l =>
      let '(root, l) := reserve_step bytes spurious root l in (root, kid, T_reserve_parent l)
  | T_reserve_local (L_done ret) =>
      if is_ok ret then (root, kid, T_done ret) else (root, kid, T_rollback ret L_load)
  | T_reserve_local l =>
      let '(kid, l) := reserve_step bytes spurious kid l in (root, kid, T_reserve_local l)
  | T_rollback ret (L_done rollback_ret) =>
      (root, kid, T_done (if is_ok rollback_ret then ret else rollback_ret))
  | T_rollback ret l =>
      let '(root, l) := release_step bytes spurious root l in (root, kid, T_rollback ret l)
  | T_release_local (L_done ret) =>
      if is_ok ret then (root, kid, T_release_parent L_load) else (root, kid, T_done ret)
  | T_release_local l =>
      let '(kid, l) := release_step bytes spurious kid l in (root, kid, T_release_local l)
  | T_release_parent (L_done ret) => (root, kid, T_done ret)
  | T_release_parent l =>
      let '(root, l) := release_step bytes spurious root l in (root, kid, T_release_parent l)
  | T_done ret => (root, kid, T_done ret)
  end.

(** Thread [i] takes a step. *)
Definition thread_step (i : nat) (spurious : bool) (s : sys) : sys :=
  match s_threads s !! i with
  | None => s
  | Some t =>
      match s_kids s !! t_kid t with
      | None => s
      | Some kid =>
          let '(root', kid', pc') := tpc_step (t_bytes t) spurious (s_root s) kid (t_pc t) in
          mk_sys root' (<[t_kid t := kid']> (s_kids s))
            (<[i := mk_thread (t_kid t) (t_bytes t) (t_release t) pc']> (s_threads s))
      end
  end.

(** A new call enters: the thread starts reserving or releasing. *)
Definition spawn (kid : nat) (bytes : Z) (release : bool) (s : sys) : sys :=
  mk_sys (s_root s) (s_kids s)
    (s_threads s ++ [mk_thread kid bytes release
       (if release then T_release_local L_load else T_reserve_parent L_load)]).

(** The states reachable from fresh budgets under any calls and any interleaving. *)
Inductive reachable (root_limit : Z) (kid_limits : list Z) : sys → Prop :=
| reach_init : reachable root_limit kid_limits
    (mk_sys (tr_memory_budget_init root_limit) (map tr_memory_budget_init kid_limits) [])
| reach_spawn s kid bytes release :
    reachable root_limit kid_limits s → (kid < length (s_kids s))%nat → u64_ok bytes →
    reachable root_limit kid_limits (spawn kid bytes release s)
| reach_step s i spurious :
    reachable root_limit kid_limits s →
    reachable root_limit kid_limits (thread_step i spurious s).

(** * What each thread has charged *)

(** The bytes a call has added to its child's account so far. *)
Definition kid_share (t : thread) : Z :=
  match t_pc t with
  | T_reserve_local (L_peak _ | L_peak_loop _ _ | L_done TR_OK) => t_bytes t
  | T_release_local (L_done TR_OK) | T_release_parent _ => - t_bytes t
  | T_done TR_OK => if t_release t then - t_bytes t else t_bytes t
  | _ => 0
  end.

(** The bytes it has charged to the root that the child does not account for: taken
    ahead of the child's charge, or not yet given back after the child's. *)
Definition inflight (t : thread) : Z :=
  match t_pc t with
  | T_reserve_parent (L_peak _ | L_peak_loop _ _ | L_done TR_OK) => t_bytes t
  | T_reserve_local (L_load | L_loop _) => t_bytes t
  | T_reserve_local (L_done ret) => if is_ok ret then 0 else t_bytes t
  | T_rollback _ (L_done _) => 0
  | T_rollback _ _ => t_bytes t
  | T_release_local (L_done TR_OK) => t_bytes t
  | T_release_parent (L_done _) => 0
  | T_release_parent _ => t_bytes t
  | _ => 0
  end.

(** What a thread knows at its program point. *)
Definition pc_ok (t : thread) : Prop :=
  u64_ok (t_bytes t) ∧
  match t_pc t with
  | T_reserve_parent (L_loop c) | T_reserve_local (L_loop c) => u64_ok c ∧ t_release t = false
  | T_rollback ret l => ret ≠ TR_OK ∧ t_release t = false ∧
      match l with
      | L_loop c => t_bytes t ≤ c
      | L_done r => r = TR_OK
      | L_peak _ | L_peak_loop _ _ => False
      | L_load => True
      end
  | T_release_local l => t_release t = true ∧
      match l with L_peak _ | L_peak_loop _ _ => False | _ => True end
  | T_release_parent l => t_release t = true ∧
      match l with
      | L_loop c => t_bytes t ≤ c
      | L_done r => r = TR_OK
      | L_peak _ | L_peak_loop _ _ => False
      | L_load => True
      end
  | T_reserve_parent _ | T_reserve_local _ => t_release t = false
  | T_done _ => True
  end.

Definition budget_bounded (b : tr_memory_budget) : Prop :=
  u64_ok (current_bytes b) ∧ (limit_bytes b ≠ 0 → current_bytes b ≤ limit_bytes b).

Definition kid_part (k : nat) (t : thread) : Z :=
  if decide (t_kid t = k) then kid_share t else 0.

Record sys_inv (s : sys) : Prop := {
  inv_root : budget_bounded (s_root s);
  inv_kids : Forall budget_bounded (s_kids s);
  inv_pcs : Forall pc_ok (s_threads s);
  inv_root_sum :
    current_bytes (s_root s) = zsum current_bytes (s_kids s) + zsum inflight (s_threads s);
  inv_kid_sum : ∀ k kid, s_kids s !! k = Some kid →
    current_bytes kid = zsum (kid_part k) (s_threads s)
}.

Lemma inflight_nonneg t : pc_ok t → 0 ≤ inflight t.
Proof.
  intros [Hb _]. unfold inflight, u64_ok in *.
  repeat case_match; lia.
Qed.

(** One step of a local loop keeps the limit and moves the account by what the
    thread's program point records. *)
Lemma reserve_step_spec bytes sp b l b' l' :
  budget_bounded b → u64_ok bytes → (∀ c, l = L_loop c → u64_ok c) →
  reserve_step bytes sp b l = (b', l') →
  budget_bounded b' ∧ (∀ c, l' = L_loop c → u64_ok c) ∧
  current_bytes b' - current_bytes b =
    (match l' with L_peak _ | L_peak_loop _ _ | L_done TR_OK => bytes | _ => 0 end) -
    (match l with L_peak _ | L_peak_loop _ _ | L_done TR_OK => bytes | _ => 0 end).
Proof.
  intros [Hc Hl] Hb Hloop H. unfold reserve_step in H.
  destruct l as [|c|n|n p|r]; case_ifs_in H; simplify_eq/=; unfold budget_bounded; simpl;
    split_and!; try done; try lia; try (intros; simplify_eq; done); try word_lia.
  all: try (specialize (Hloop _ eq_refl); word_lia).
  all: try (intros; destruct_or!; word_lia).
Qed.

Lemma release_step_spec bytes sp b l b' l' :
  budget_bounded b → u64_ok bytes →
  match l with L_loop c => True | L_peak _ | L_peak_loop _ _ => False | _ => True end →
  release_step bytes sp b l = (b', l') →
  budget_bounded b' ∧ match l' with L_peak _ | L_peak_loop _ _ => False | _ => True end ∧
  (∀ c, l' = L_loop c → c = current_bytes b) ∧
  current_bytes b' - current_bytes b =
    (match l with L_done TR_OK => bytes | _ => 0 end) -
    (match l' with L_done TR_OK => bytes | _ => 0 end).
Proof.
  intros [Hc Hl] Hb Hpk H. unfold release_step in H.
  destruct l as [|c|n|n p|r]; try done; case_ifs_in H; simplify_eq/=; unfold budget_bounded; simpl;
    split_and!; try done; try lia; try (intros; simplify_eq; done); try word_lia.
Qed.

Definition step_ok (root kid root' kid' : tr_memory_budget) (t t' : thread) : Prop :=
  budget_bounded root' ∧ budget_bounded kid' ∧ pc_ok t' ∧
  current_bytes kid' - current_bytes kid = kid_share t' - kid_share t ∧
  current_bytes root' - current_bytes root =
    (current_bytes kid' - current_bytes kid) + inflight t' - inflight t.

Ltac share_lia :=
  split_and!; simpl in *; try done; try lia; try word_lia; try tauto.

Lemma tpc_step_reserve_parent k bytes l sp root kid root' kid' pc' :
  budget_bounded root → budget_bounded kid →
  pc_ok (mk_thread k bytes false (T_reserve_parent l)) →
  tpc_step bytes sp root kid (T_reserve_parent l) = (root', kid', pc') →
  step_ok root kid root' kid' (mk_thread k bytes false (T_reserve_parent l))
    (mk_thread k bytes false pc').
Proof.
  intros Hr Hk [Hb Hpc] H. unfold step_ok, pc_ok, kid_share, inflight in *; simpl in *.
  destruct l as [|c|n|n p|r].
  5: { destruct r; simpl in H; simplify_eq/=; share_lia. }
  all: destruct (reserve_step _ _ _ _) as [b l'] eqn:E; simplify_eq;
    eapply reserve_step_spec in E as (? & Hl & ?); [|done..|intros; simplify_eq; tauto];
    destruct l' as [|c'| | |[]]; share_lia; by apply Hl.
Qed.

Lemma tpc_step_reserve_local k bytes l sp root kid root' kid' pc' :
  budget_bounded root → budget_bounded kid →
  pc_ok (mk_thread k bytes false (T_reserve_local l)) →
  tpc_step bytes sp root kid (T_reserve_local l) = (root', kid', pc') →
  step_ok root kid root' kid' (mk_thread k bytes false (T_reserve_local l))
    (mk_thread k bytes false pc').
Proof.
  intros Hr Hk [Hb Hpc] H. unfold step_ok, pc_ok, kid_share, inflight in *; simpl in *.
  destruct l as [|c|n|n p|r].
  5: { destruct r; simpl in H; simplify_eq/=; share_lia. }
  all: destruct (reserve_step _ _ _ _) as [b l'] eqn:E; simplify_eq;
    eapply reserve_step_spec in E as (? & Hl & ?); [|done..|intros; simplify_eq; tauto];
    destruct l' as [|c'| | |[]]; share_lia; by apply Hl.
Qed.

Lemma tpc_step_release_side t sp root kid root' kid' pc' :
  match t_pc t with T_reserve_parent _ | T_reserve_local _ => False | _ => True end →
  budget_bounded root → budget_bounded kid → pc_ok t → inflight t ≤ current_bytes root →
  tpc_step (t_bytes t) sp root kid (t_pc t) = (root', kid', pc') →
  step_ok root kid root' kid' t (mk_thread (t_kid t) (t_bytes t) (t_release t) pc').
Proof.
  intros Hside Hr Hk [Hb Hpc] Hin H. destruct t as [k bytes rel pc]; simpl in *.
  unfold step_ok, pc_ok, kid_share, inflight, budget_bounded, release_step in *; simpl in *.
  destruct pc as [l|l|ret l|l|l|ret]; try done; simpl in *; destruct_and?;
    destruct l as [|c|n|n p|r] || idtac; try done; simpl in *; case_ifs_in H; subst; simplify_eq/=;
    try match goal with H : is_ok ?r = _ |- _ => destruct r; try done end;
    try (destruct ret; try done); share_lia.
Qed.

Lemma tpc_step_spec t sp root kid root' kid' pc' :
  budget_bounded root → budget_bounded kid → pc_ok t → inflight t ≤ current_bytes root →
  tpc_step (t_bytes t) sp root kid (t_pc t) = (root', kid', pc') →
  step_ok root kid root' kid' t (mk_thread (t_kid t) (t_bytes t) (t_release t) pc').
Proof.
  intros Hr Hk Hpc Hin H. destruct t as [k bytes rel pc]; simpl in *.
  destruct pc as [l|l|ret l|l|l|ret].
  - assert (rel = false) as -> by (destruct Hpc; by destruct l; simpl in *; destruct_and?).
    by eapply tpc_step_reserve_parent.
  - assert (rel = false) as -> by (destruct Hpc; by destruct l; simpl in *; destruct_and?).
    by eapply tpc_step_reserve_local.
  - by apply (tpc_step_release_side (mk_thread k bytes rel (T_rollback ret l)) sp).
  - by apply (tpc_step_release_side (mk_thread k bytes rel (T_release_local l)) sp).
  - by apply (tpc_step_release_side (mk_thread k bytes rel (T_release_parent l)) sp).
  - by apply (tpc_step_release_side (mk_thread k bytes rel (T_done ret)) sp).
Qed.

Lemma sys_inv_step s i sp : sys_inv s → sys_inv (thread_step i sp s).
Proof.
  intros [Hr Hk Hp Hrs Hks]. unfold thread_step.
  destruct (s_threads s !! i) as [t|] eqn:Ht; [|by split].
  destruct (s_kids s !! t_kid t) as [kid|] eqn:Hkid; [|by split].
  destruct (tpc_step _ _ _ _ _) as [[root' kid'] pc'] eqn:E.
  pose proof (Forall_lookup_1 _ _ _ _ Hp Ht) as Hpt.
  pose proof (Forall_lookup_1 _ _ _ _ Hk Hkid) as Hkt.
  assert (0 ≤ zsum current_bytes (s_kids s)).
  { apply zsum_nonneg. intros x Hx. rewrite Forall_forall in Hk. destruct (Hk x Hx). word_lia. }
  assert (inflight t ≤ zsum inflight (s_threads s)).
  { eapply zsum_lookup_le; [|done]. intros y Hy. rewrite Forall_forall in Hp.
    by apply inflight_nonneg, Hp. }
  eapply tpc_step_spec in E as (Hr' & Hk' & Hp' & Hdk & Hdr); [|done..|lia].
  split; simpl; auto using Forall_insert.
  - rewrite (zsum_insert _ _ _ kid), (zsum_insert _ _ _ t) by done. lia.
  - intros k kid0 Hk0. rewrite (zsum_insert _ _ _ t) by done. unfold kid_part. simpl.
    apply list_lookup_insert_Some in Hk0 as [(<- & -> & _)|[Hne Hk0]].
    + rewrite !decide_True by done. specialize (Hks _ _ Hkid). unfold kid_part in Hks. lia.
    + rewrite !decide_False by done. specialize (Hks _ _ Hk0). unfold kid_part in Hks. lia.
Qed.

Lemma sys_inv_spawn s k bytes release : sys_inv s → u64_ok bytes → sys_inv (spawn k bytes release s).
Proof.
  intros [Hr Hk Hp Hrs Hks] Hb. split; simpl; try done.
  - apply Forall_app_2; [done|]. constructor; [|done]. split; [done|]. by destruct release.
  - rewrite zsum_app. unfold inflight at 2. destruct release; simpl; lia.
  - intros k' kid H. rewrite zsum_app, (Hks _ _ H). unfold kid_part at 3, kid_share. simpl.
    destruct release; case_decide; simpl; lia.
Qed.

Lemma reachable_inv root_limit kid_limits s :
  0 ≤ root_limit → Forall (λ l, 0 ≤ l) kid_limits → reachable root_limit kid_limits s → sys_inv s.
Proof.
  intros H0 Hkl. induction 1 as [|s k bytes rel _ IH Hk Hb|s i sp _ IH];
    [|by apply sys_inv_spawn|by apply sys_inv_step].
  split; simpl.
  - split; simpl; word_lia.
  - apply Forall_map. eapply Forall_impl; [done|]. intros l Hl. simpl in Hl.
    split; simpl; [word_lia|lia].
  - constructor.
  - rewrite zsum_map. symmetry. rewrite Z.add_0_r. by apply zsum_zero.
  - intros k kid H. apply list_lookup_fmap_Some in H as (l & -> & _). done.
Qed.

Lemma reserve_step_limit bytes sp b l : limit_bytes (reserve_step bytes sp b l).1 = limit_bytes b.
Proof. unfold reserve_step. by destruct l; case_ifs. Qed.

Lemma release_step_limit bytes sp b l : limit_bytes (release_step bytes sp b l).1 = limit_bytes b.
Proof. unfold release_step. by destruct l; case_ifs. Qed.

Lemma tpc_step_limit bytes sp root kid pc :
  limit_bytes (tpc_step bytes sp root kid pc).1.1 = limit_bytes root ∧
  limit_bytes (tpc_step bytes sp root kid pc).1.2 = limit_bytes kid.
Proof.
  pose proof (reserve_step_limit bytes sp) as Hs. pose proof (release_step_limit bytes sp) as Hl.
  unfold tpc_step. destruct pc as [l|l|ret l|l|l|ret]; try destruct l; try done; case_ifs; try done;
    match goal with
    | |- context [let '(_, _) := ?e in _] => destruct e as [b l'] eqn:E
    end; apply (f_equal (λ p, limit_bytes p.1)) in E; rewrite ?Hs, ?Hl in E; simpl in *; auto.
Qed.

Lemma reachable_limits root_limit kid_limits s : reachable root_limit kid_limits s →
  limit_bytes (s_root s) = root_limit ∧ map limit_bytes (s_kids s) = kid_limits.
Proof.
  induction 1 as [|s k bytes rel _ IH|s i sp _ [IHr IHk]]; [|done|].
  - split; [done|]. simpl. rewrite map_map. apply map_id.
  - unfold thread_step. destruct (s_threads s !! i) as [t|]; [|done].
    destruct (s_kids s !! t_kid t) as [kid|] eqn:Hk; [|done].
    pose proof (tpc_step_limit (t_bytes t) sp (s_root s) kid (t_pc t)) as [Hr Hl].
    destruct (tpc_step _ _ _ _ _) as [[r' k'] pc']. simpl in *. split; [congruence|].
    rewrite <- IHk. change (map limit_bytes) with (fmap (M := list) limit_bytes).
    rewrite list_fmap_insert, Hl. apply list_insert_id. by rewrite list_lookup_fmap, Hk.
Qed.

(** * Theorems *)

(** C21: Under any interleaving of any reserve and release calls on the children of one
    root: no account ever exceeds its limit or wraps; the root holds exactly the
    children's bytes plus what calls in progress have taken ahead; each child holds
    exactly the bytes of its successful calls; and neither the rollback of a refused
    reserve nor the parent half of a release ever fails. *)
Theorem budget_interleavings_safe (root_limit : Z) (kid_limits : list Z) (s : sys)
    (Hroot : 0 ≤ root_limit) (Hkids : Forall (λ l, 0 ≤ l) kid_limits)
    (Hs : reachable root_limit kid_limits s) :
  (0 ≤ current_bytes (s_root s) < 2 ^ 64 ∧
   (root_limit ≠ 0 → current_bytes (s_root s) ≤ root_limit)) ∧
  (∀ k kid limit, s_kids s !! k = Some kid → kid_limits !! k = Some limit →
     0 ≤ current_bytes kid < 2 ^ 64 ∧ (limit ≠ 0 → current_bytes kid ≤ limit) ∧
     current_bytes kid = zsum (kid_part k) (s_threads s)) ∧
  current_bytes (s_root s) = zsum current_bytes (s_kids s) + zsum inflight (s_threads s) ∧
  (∀ t ret rollback_ret, t ∈ s_threads s →
     t_pc t = T_rollback ret (L_done rollback_ret) ∨ t_pc t = T_release_parent (L_done rollback_ret) →
     rollback_ret = TR_OK).
Proof.
  destruct (reachable_inv _ _ _ Hroot Hkids Hs) as [[Hr Hrl] Hk Hp Hrs Hks].
  destruct (reachable_limits _ _ _ Hs) as [Hlr Hlk]. rewrite Hlr in Hrl.
  split_and!; try done; try apply Hr.
  - intros k kid limit Hk1 Hk2. destruct (Forall_lookup_1 _ _ _ _ Hk Hk1) as [Hc Hl].
    subst kid_limits. change (map limit_bytes) with (fmap (M := list) limit_bytes) in Hk2.
    rewrite list_lookup_fmap, Hk1 in Hk2. simplify_eq/=.
    split_and!; [apply Hc..|done|by apply Hks].
  - intros t ret rb Ht [Hpc|Hpc]; rewrite Forall_forall in Hp; destruct (Hp t Ht) as [_ H];
      rewrite Hpc in H; by destruct_and?.
Qed.

(** Two threads on two children of a root of 100 bytes; the schedule interleaves their
    loops so that the second is refused by the root and the first is charged. *)
Definition budget_demo_sched : list (nat * bool) :=
  [(0%nat, false); (1%nat, false); (0%nat, true); (0%nat, false); (1%nat, false); (1%nat, false);
   (0%nat, false); (0%nat, false); (0%nat, false); (0%nat, false); (0%nat, false); (0%nat, false);
   (0%nat, false); (0%nat, false); (1%nat, false)].

Definition budget_demo : sys :=
  fold_left (λ s ib, thread_step ib.1 ib.2 s) budget_demo_sched
    (spawn 1 50 false (spawn 0 60 false
      (mk_sys (tr_memory_budget_init 100) (map tr_memory_budget_init [80; 0]) []))).

Lemma budget_demo_reachable : reachable 100 [80; 0] budget_demo.
Proof.
  unfold budget_demo. generalize budget_demo_sched. intros sched.
  assert (reachable 100 [80; 0] (spawn 1 50 false (spawn 0 60 false
      (mk_sys (tr_memory_budget_init 100) (map tr_memory_budget_init [80; 0]) [])))) as H.
  { repeat (apply reach_spawn; [|simpl; lia|unfold u64_ok; lia]). apply reach_init. }
  revert H. generalize (spawn 1 50 false (spawn 0 60 false
      (mk_sys (tr_memory_budget_init 100) (map tr_memory_budget_init [80; 0]) []))).
  induction sched as [|[i sp] sched IH]; intros s Hs; simpl; [done|]. apply IH. by apply reach_step.
Qed.

Lemma budget_interleavings_safe_witness :
  current_bytes (s_root budget_demo) = 60 ∧ map t_pc (s_threads budget_demo) = [T_done TR_OK; T_done TR_AGAIN] ∧
  current_bytes (s_root budget_demo) =
    zsum current_bytes (s_kids budget_demo) + zsum inflight (s_threads budget_demo).
Proof.
  split; [vm_compute; reflexivity|]. split; [vm_compute; reflexivity|].
  apply (budget_interleavings_safe 100 [80; 0] budget_demo).
  - lia.
  - repeat constructor; lia.
  - exact budget_demo_reachable.
Defined.

(** * The uncontended call *)

(** A thread stepping alone, no compare-and-exchange failing. *)
Definition solo (bytes : Z) (n : nat) (root kid : tr_memory_budget) (pc : tpc)
    : tr_memory_budget * tr_memory_budget * tpc :=
  Nat.iter n (λ s, tpc_step bytes false s.1.1 s.1.2 s.2) (root, kid, pc).

Lemma solo_add bytes n m root kid pc :
  solo bytes (n + m) root kid pc =
  let '(root, kid, pc) := solo bytes m root kid pc in solo bytes n root kid pc.
Proof.
  unfold solo. rewrite Nat.iter_add. by destruct (Nat.iter m _ _) as [[??]?].
Qed.

Lemma solo_done bytes n root kid ret : solo bytes n root kid (T_done ret) = (root, kid, T_done ret).
Proof. unfold solo. induction n as [|n IH]; simpl; [done|by rewrite IH]. Qed.

(** Five steps take any local reserve from its start to the transition after it. *)
Lemma solo_reserve_parent bytes root kid :
  ∃ m, (m ≤ 5)%nat ∧ solo bytes m root kid (T_reserve_parent L_load) =
  let '(ret, root) := tr_memory_budget_reserve_local root bytes in
  (root, kid, if is_ok ret then T_reserve_local L_load else T_done ret).
Proof.
  unfold solo, tr_memory_budget_reserve_local.
  destruct (bytes =? 0) eqn:E0; [exists 2%nat; simpl; rewrite E0; by split; [lia|]|].
  destruct (bytes >? UINT64_MAX - current_bytes root) eqn:E1;
    [exists 3%nat; simpl; rewrite E0; simpl; rewrite E1; by split; [lia|]|].
  destruct (negb (limit_bytes root =? 0) && (current_bytes root + bytes >? limit_bytes root)) eqn:E2;
    [exists 3%nat; simpl; rewrite E0; simpl; rewrite E1, E2; by split; [lia|]|].
  exists 5%nat. split; [lia|]. simpl. rewrite E0. simpl. rewrite E1, E2, Z.eqb_refl. simpl.
  destruct (peak_bytes root <? current_bytes root + bytes) eqn:E3; simpl; [|done].
  by rewrite Z.eqb_refl.
Qed.

Lemma solo_reserve_local bytes root kid :
  ∃ m, (m ≤ 5)%nat ∧ solo bytes m root kid (T_reserve_local L_load) =
  let '(ret, kid) := tr_memory_budget_reserve_local kid bytes in
  (root, kid, if is_ok ret then T_done ret else T_rollback ret L_load).
Proof.
  unfold solo, tr_memory_budget_reserve_local.
  destruct (bytes =? 0) eqn:E0; [exists 2%nat; simpl; rewrite E0; by split; [lia|]|].
  destruct (bytes >? UINT64_MAX - current_bytes kid) eqn:E1;
    [exists 3%nat; simpl; rewrite E0; simpl; rewrite E1; by split; [lia|]|].
  destruct (negb (limit_bytes kid =? 0) && (current_bytes kid + bytes >? limit_bytes kid)) eqn:E2;
    [exists 3%nat; simpl; rewrite E0; simpl; rewrite E1, E2; by split; [lia|]|].
  exists 5%nat. split; [lia|]. simpl. rewrite E0. simpl. rewrite E1, E2, Z.eqb_refl. simpl.
  destruct (peak_bytes kid <? current_bytes kid + bytes) eqn:E3; simpl; [|done].
  by rewrite Z.eqb_refl.
Qed.

(** The three release loops: rollback, the child's half and the parent's half. *)
Lemma solo_rollback bytes root kid ret0 :
  ∃ m, (m ≤ 3)%nat ∧ solo bytes m root kid (T_rollback ret0 L_load) =
  let '(ret, root) := tr_memory_budget_release_local root bytes in
  (root, kid, T_done (if is_ok ret then ret0 else ret)).
Proof.
  unfold solo, tr_memory_budget_release_local.
  destruct (bytes =? 0) eqn:E0; [exists 2%nat; simpl; rewrite E0; by split; [lia|]|].
  exists 3%nat. split; [lia|]. simpl. rewrite E0. simpl.
  destruct (current_bytes root <? bytes); simpl; [done|]. by rewrite Z.eqb_refl.
Qed.

Lemma solo_release_local bytes root kid :
  ∃ m, (m ≤ 3)%nat ∧ solo bytes m root kid (T_release_local L_load) =
  let '(ret, kid) := tr_memory_budget_release_local kid bytes in
  (root, kid, if is_ok ret then T_release_parent L_load else T_done ret).
Proof.
  unfold solo, tr_memory_budget_release_local.
  destruct (bytes =? 0) eqn:E0; [exists 2%nat; simpl; rewrite E0; by split; [lia|]|].
  exists 3%nat. split; [lia|]. simpl. rewrite E0. simpl.
  destruct (current_bytes kid <? bytes); simpl; [done|]. by rewrite Z.eqb_refl.
Qed.

Lemma solo_release_parent bytes root kid :
  ∃ m, (m ≤ 3)%nat ∧ solo bytes m root kid (T_release_parent L_load) =
  let '(ret, root) := tr_memory_budget_release_local root bytes in (root, kid, T_done ret).
Proof.
  unfold solo, tr_memory_budget_release_local.
  destruct (bytes =? 0) eqn:E0; [exists 2%nat; simpl; rewrite E0; by split; [lia|]|].
  exists 3%nat. split; [lia|]. simpl. rewrite E0. simpl.
  destruct (current_bytes root <? bytes); simpl; [done|]. by rewrite Z.eqb_refl.
Qed.

(** Run on after the last transition: the number of steps is only a bound. *)
Lemma solo_finish bytes n m root kid pc root' kid' ret : (m ≤ n)%nat →
  solo bytes m root kid pc = (root', kid', T_done ret) →
  solo bytes n root kid pc = (root', kid', T_done ret).
Proof.
  intros Hle H. replace n with ((n - m) + m)%nat by lia. rewrite solo_add, H. apply solo_done.
Qed.

(** The lock-free loops terminate when run alone and return what the sequential
    definitions say, so these are the calls as one owner sees them. *)
Theorem budget_calls_refine_loops (root kid : tr_memory_budget) (bytes : Z) :
  (∃ root' kid' ret,
     solo bytes 13 root kid (T_reserve_parent L_load) = (root', kid', T_done ret) ∧
     tr_memory_budget_reserve (Some (mk_budget_ref kid (Some root))) bytes =
       (ret, Some (mk_budget_ref kid' (Some root')))) ∧
  (∃ root' kid' ret,
     solo bytes 13 root kid (T_release_local L_load) = (root', kid', T_done ret) ∧
     tr_memory_budget_release (Some (mk_budget_ref kid (Some root))) bytes =
       (ret, Some (mk_budget_ref kid' (Some root')))).
Proof.
  split.
  - destruct (solo_reserve_parent bytes root kid) as (m1 & Hm1 & H1).
    unfold tr_memory_budget_reserve. destruct (tr_memory_budget_reserve_local root bytes) as [r1 root1].
    destruct (is_ok r1) eqn:E1; cbn [negb];
      [|exists root1, kid, r1; split; [by eapply (solo_finish _ _ m1); [lia|]|done]].
    destruct (solo_reserve_local bytes root1 kid) as (m2 & Hm2 & H2).
    destruct (tr_memory_budget_reserve_local kid bytes) as [r2 kid2].
    destruct (is_ok r2) eqn:E2; cbn [negb].
    { exists root1, kid2, r2. split; [|done].
      eapply (solo_finish _ _ (m2 + m1)); [lia|]. by rewrite solo_add, H1. }
    destruct (solo_rollback bytes root1 kid2 r2) as (m3 & Hm3 & H3).
    destruct (tr_memory_budget_release_local root1 bytes) as [r3 root3].
    exists root3, kid2, (if is_ok r3 then r2 else r3). split; [|by destruct (is_ok r3)].
    eapply (solo_finish _ _ (m3 + (m2 + m1))); [lia|]. by rewrite !solo_add, H1, H2.
  - destruct (solo_release_local bytes root kid) as (m1 & Hm1 & H1).
    unfold tr_memory_budget_release. destruct (tr_memory_budget_release_local kid bytes) as [r1 kid1].
    destruct (is_ok r1) eqn:E1; cbn [negb];
      [|exists root, kid1, r1; split; [by eapply (solo_finish _ _ m1); [lia|]|done]].
    destruct (solo_release_parent bytes root kid1) as (m2 & Hm2 & H2).
    destruct (tr_memory_budget_release_local root bytes) as [r2 root2].
    exists root2, kid1, r2. split; [|done].
    eapply (solo_finish _ _ (m2 + m1)); [lia|]. by rewrite solo_add, H1.
Qed.

(** * The interface single-owner components use *)

(** A budget as its clients see it: reserve and release, the bytes charged, and the
    invariant under which a release of charged bytes succeeds. *)
Class Budget (B : Type) := {
  b_reserve : B → Z → tr_status * B;
  b_release : B → Z → tr_status * B;
  b_used : B → Z;
  b_ok : B → Prop;
  b_used_nonneg b : b_ok b → 0 ≤ b_used b;
  b_reserve_spec b n r b' : b_ok b → u64_ok n → b_reserve b n = (r, b') →
    b_ok b' ∧ (r = TR_OK ∧ b_used b' = b_used b + n ∨
               (r = TR_AGAIN ∨ r = TR_ERR_STATE) ∧ b_used b' = b_used b);
  b_release_spec b n : b_ok b → 0 ≤ n ≤ b_used b →
    ∃ b', b_release b n = (TR_OK, b') ∧ b_ok b' ∧ b_used b' = b_used b - n
}.

Lemma reserve_local_spec b n r b' : budget_bounded b → u64_ok n → tr_memory_budget_reserve_local b n = (r, b') →
  budget_bounded b' ∧ limit_bytes b' = limit_bytes b ∧
  (r = TR_OK ∧ current_bytes b' = current_bytes b + n ∨
   (r = TR_AGAIN ∨ r = TR_ERR_STATE) ∧ current_bytes b' = current_bytes b).
Proof.
  intros [Hc Hl] Hn H. unfold tr_memory_budget_reserve_local in H.
  case_ifs_in H; unfold budget_bounded; case_ifs; simpl;
    (split; [split; [word_lia | intros; destruct_or?; word_lia] | split; [done|]]);
    first [left; split; [done|lia] | right; split; [auto|done]].
Qed.

Lemma release_local_spec b n : budget_bounded b → 0 ≤ n ≤ current_bytes b →
  ∃ b', tr_memory_budget_release_local b n = (TR_OK, b') ∧ budget_bounded b' ∧
    current_bytes b' = current_bytes b - n.
Proof.
  intros [Hc Hl] Hn. unfold tr_memory_budget_release_local, budget_bounded.
  destruct (Z.eqb_spec n 0); [exists b; split_and!; try done; lia|].
  destruct (Z.ltb_spec (current_bytes b) n); [lia|].
  eexists. split; [done|]. simpl. split_and!; try word_lia.
Qed.

(** A live budget, alone or a child: its own account is covered by its parent's. *)
Definition budget_ref_ok (b : budget_ref) : Prop :=
  budget_bounded (br_self b) ∧
  match br_parent b with
  | Some p => budget_bounded p ∧ current_bytes (br_self b) ≤ current_bytes p
  | None => True
  end.

(** The call through a non-NULL pointer. *)
Definition ref_reserve (b : budget_ref) (n : Z) : tr_status * budget_ref :=
  let '(r, o) := tr_memory_budget_reserve (Some b) n in (r, default b o).
Definition ref_release (b : budget_ref) (n : Z) : tr_status * budget_ref :=
  let '(r, o) := tr_memory_budget_release (Some b) n in (r, default b o).

Lemma ref_reserve_spec b n r b' : budget_ref_ok b → u64_ok n → ref_reserve b n = (r, b') →
  budget_ref_ok b' ∧
  (r = TR_OK ∧ current_bytes (br_self b') = current_bytes (br_self b) + n ∨
   (r = TR_AGAIN ∨ r = TR_ERR_STATE) ∧ current_bytes (br_self b') = current_bytes (br_self b)).
Proof.
  intros [Hb Hp] Hn H. destruct b as [b [p|]]; unfold ref_reserve in H; simpl in *.
  - destruct Hp as [Hp Hle]. destruct (tr_memory_budget_reserve_local p n) as [r1 p1] eqn:E1.
    destruct (reserve_local_spec _ _ _ _ Hp Hn E1) as (Hp1 & _ & H1).
    destruct (is_ok r1) eqn:Er1; simpl in H; rewrite ?is_ok_true, ?is_ok_false in Er1.
    2: { simplify_eq. destruct_or!; destruct_and!; [done|].
         split; [split; simpl; [done|split; [done|lia]]|auto]. }
    destruct (tr_memory_budget_reserve_local b n) as [r2 b2] eqn:E2.
    destruct (reserve_local_spec _ _ _ _ Hb Hn E2) as (Hb2 & _ & H2).
    destruct (is_ok r2) eqn:Er2; simpl in H; rewrite ?is_ok_true, ?is_ok_false in Er2.
    { simplify_eq. destruct H1 as [[_ H1]|[[|] ?]]; try done.
      destruct H2 as [[_ H2]|[[|] ?]]; try done.
      split; [split; simpl; [done|split; [done|lia]]|auto]. }
    destruct H1 as [[_ H1]|[[|] ?]]; try congruence. destruct H2 as [[? H2]|[Hr2 H2]]; [done|].
    assert (0 ≤ n ≤ current_bytes p1) as Hn1 by (destruct Hb; word_lia).
    destruct (release_local_spec p1 n Hp1 Hn1) as (p2 & E3 & Hp2 & Hc2).
    rewrite E3 in H. simpl in H. simplify_eq.
    split; [split; simpl; [done|split; [done|lia]]|auto].
  - destruct (tr_memory_budget_reserve_local b n) as [r1 b1] eqn:E1. simplify_eq/=.
    destruct (reserve_local_spec _ _ _ _ Hb Hn E1) as (Hp1 & _ & H1).
    split; [by split|done].
Qed.

Lemma ref_release_spec b n : budget_ref_ok b → 0 ≤ n ≤ current_bytes (br_self b) →
  ∃ b', ref_release b n = (TR_OK, b') ∧ budget_ref_ok b' ∧
    current_bytes (br_self b') = current_bytes (br_self b) - n.
Proof.
  intros [Hb Hp] Hn. destruct b as [b [p|]]; unfold ref_release; simpl in *.
  - destruct Hp as [Hp Hle].
    destruct (release_local_spec b n Hb Hn) as (b1 & -> & Hb1 & Hc1). simpl.
    destruct (release_local_spec p n Hp ltac:(lia)) as (p1 & -> & Hp1 & Hc2). simpl.
    eexists. split_and!; [done|split; simpl; [done|split; [done|lia]]|done].
  - destruct (release_local_spec b n Hb Hn) as (b1 & -> & Hb1 & Hc1). simpl.
    eexists. split_and!; [done|by split|done].
Qed.

#[export] Program Instance budget_ref_budget : Budget budget_ref := {
  b_reserve := ref_reserve;
  b_release := ref_release;
  b_used b := current_bytes (br_self b);
  b_ok := budget_ref_ok
}.
Next Obligation. intros b [[H _] _]. destruct H. lia. Qed.
Next Obligation. intros b n r b' Hb Hn H. by eapply ref_reserve_spec. Qed.
Next Obligation. intros b n Hb Hn. by apply ref_release_spec. Qed.
