(* ===== verification/Refcount.v ===== *)
(** Strong reference counts: [src/refcount.h].

    The operations without interference, and the same operations as their
    compare-and-exchange loops interleaved between any number of threads. *)
From S2P Require Import Prelude Status.

(** * The operations without interference *)

(** [struct tr_refcount]: its atomic value. *)
Definition tr_refcount : Type := Z.

Definition tr_refcount_init (initial : Z) : tr_status * option tr_refcount :=
  bail (TR_ERR_INVALID, None) when ((initial =? 0) || (initial =? UINT32_MAX)) ;;
  (TR_OK, Some initial).

Definition tr_refcount_read (ref : option tr_refcount) : Z :=
  match ref with None => 0 | Some value => value end.

Definition tr_refcount_get (ref : option tr_refcount) : Z * option tr_refcount :=
  match ref with
  | None => (status_value TR_ERR_INVALID, None)
  | Some old =>
      bail (status_value TR_ERR_STATE, Some old) when ((old =? 0) || (old >=? UINT32_MAX - 1)) ;;
      (status_value TR_OK, Some (old + 1))
  end.

Definition tr_refcount_get_unless_zero (ref : option tr_refcount) : Z * option tr_refcount :=
  match ref with
  | None => (status_value TR_ERR_INVALID, None)
  | Some old =>
      bail (0, Some old) when (old =? 0) ;;
      bail (status_value TR_ERR_STATE, Some old) when (old >=? UINT32_MAX - 1) ;;
      (1, Some (old + 1))
  end.

Definition tr_refcount_put (ref : option tr_refcount) : Z * option tr_refcount :=
  match ref with
  | None => (status_value TR_ERR_INVALID, None)
  | Some old =>
      bail (status_value TR_ERR_STATE, Some old) when (old =? 0) ;;
      (if old =? 1 then 1 else 0, Some (old - 1))
  end.

(** * The operations as atomic steps *)

Inductive ref_op := Ref_get | Ref_get_unless_zero | Ref_put.

Inductive ref_pc :=
| R_load
| R_loop (old : Z)
| R_done (ret : Z).

Record ref_thread := mk_ref_thread { r_op : ref_op; r_pc : ref_pc }.

(** What one iteration of the loop decides from the observed value: return, or try to
    install a new value and return if that succeeds. *)
Definition ref_decide (op : ref_op) (old : Z) : Z + Z * Z :=
  match op with
  | Ref_get =>
      if (old =? 0) || (old >=? UINT32_MAX - 1) then inl (status_value TR_ERR_STATE)
      else inr (old + 1, status_value TR_OK)
  | Ref_get_unless_zero =>
      if old =? 0 then inl 0
      else if old >=? UINT32_MAX - 1 then inl (status_value TR_ERR_STATE)
      else inr (old + 1, 1)
  | Ref_put =>
      if old =? 0 then inl (status_value TR_ERR_STATE)
      else inr (old - 1, if old =? 1 then 1 else 0)
  end.

Definition ref_step (spurious : bool) (value : Z) (t : ref_thread) : Z * ref_thread :=
  match r_pc t with
  | R_load => (value, mk_ref_thread (r_op t) (R_loop value))
  | R_loop old =>
      match ref_decide (r_op t) old with
      | inl ret => (value, mk_ref_thread (r_op t) (R_done ret))
      | inr (new, ret) =>
          if (value =? old) && negb spurious
          then (new, mk_ref_thread (r_op t) (R_done ret))
          else (value, mk_ref_thread (r_op t) (R_loop value))
      end
  | R_done _ => (value, t)
  end.

Record ref_sys := mk_ref_sys { rs_value : Z; rs_threads : list ref_thread }.

Inductive ref_reachable (initial : Z) : ref_sys → Prop :=
| ref_reach_init : ref_reachable initial (mk_ref_sys initial [])
| ref_reach_call s op : ref_reachable initial s →
    ref_reachable initial (mk_ref_sys (rs_value s) (rs_threads s ++ [mk_ref_thread op R_load]))
| ref_reach_step s i t spurious : ref_reachable initial s → rs_threads s !! i = Some t →
    ref_reachable initial
      (mk_ref_sys (ref_step spurious (rs_value s) t).1
         (<[i := (ref_step spurious (rs_value s) t).2]> (rs_threads s))).

(** * Accounting *)

(** The references a finished call has added. *)
Definition ref_delta (t : ref_thread) : Z :=
  match r_pc t with
  | R_done ret =>
      match r_op t with
      | Ref_get => if ret =? status_value TR_OK then 1 else 0
      | Ref_get_unless_zero => if ret =? 1 then 1 else 0
      | Ref_put => if 0 <=? ret then -1 else 0
      end
  | _ => 0
  end.

(** A put that was told it dropped the last reference. *)
Definition ref_last (t : ref_thread) : Z :=
  match r_op t, r_pc t with
  | Ref_put, R_done ret => if ret =? 1 then 1 else 0
  | _, _ => 0
  end.

Definition ref_inv (initial : Z) (s : ref_sys) : Prop :=
  0 ≤ rs_value s ≤ UINT32_MAX - 1 ∧
  Forall (λ t, ∀ old, r_pc t = R_loop old → 0 ≤ old ≤ UINT32_MAX - 1) (rs_threads s) ∧
  rs_value s = initial + zsum ref_delta (rs_threads s) ∧
  zsum ref_last (rs_threads s) = (if rs_value s =? 0 then 1 else 0).

(** What one step does to the value, the accounts and the count of last puts. *)
Lemma ref_step_spec sp v t : 0 ≤ v ≤ UINT32_MAX - 1 →
  (∀ old, r_pc t = R_loop old → 0 ≤ old ≤ UINT32_MAX - 1) →
  let '(v', t') := ref_step sp v t in
  0 ≤ v' ≤ UINT32_MAX - 1 ∧ (∀ old, r_pc t' = R_loop old → 0 ≤ old ≤ UINT32_MAX - 1) ∧
  v' - v = ref_delta t' - ref_delta t ∧
  (if v' =? 0 then 1 else 0) - (if v =? 0 then 1 else 0) = ref_last t' - ref_last t.
Proof.
  intros Hv Hold. unfold ref_step, ref_delta, ref_last.
  destruct t as [op [|old|ret]]; simpl in *.
  - split_and!; intros; simplify_eq; try lia; destruct op; lia.
  - specialize (Hold _ eq_refl). unfold ref_decide.
    destruct op; repeat case_if; simpl in *; bool_to_prop; subst;
      split_and!; intros; simplify_eq/=; try done; try lia; repeat case_if; try lia; try word_lia.
  - split_and!; try lia; done.
Qed.

Lemma ref_reachable_inv initial s : 0 < initial ≤ UINT32_MAX - 1 →
  ref_reachable initial s → ref_inv initial s.
Proof.
  intros Hi. induction 1 as [|s op _ (Hv & Hl & Hd & Hlast)|s i t sp _ (Hv & Hl & Hd & Hlast) Ht];
    unfold ref_inv; simpl.
  - split_and!; try lia; [constructor|]. case_if; lia.
  - rewrite !zsum_app. split_and!; try lia.
    + apply Forall_app_2; [done|]. by repeat constructor.
    + unfold ref_delta at 2; simpl; lia.
    + rewrite Hlast. unfold ref_last; destruct op; simpl; lia.
  - pose proof (Forall_lookup_1 _ _ _ _ Hl Ht) as Hold.
    pose proof (ref_step_spec sp _ _ Hv Hold) as Hstep.
    destruct (ref_step sp (rs_value s) t) as [v' t']. destruct Hstep as (Hv' & Hold' & Hd' & Hlast').
    simpl. rewrite !(zsum_insert _ _ _ t) by done.
    split_and!; try lia. by apply Forall_insert.
Qed.

(** * Theorems *)

(** From a count initialised to a legal value, under any interleaving of gets and
    puts: the value is the initial one plus the successful gets minus the puts, never
    wraps, and a put is told that it dropped the last reference exactly when the count
    is zero, which happens once; nothing revives a dead count. *)
Theorem refcount_last_put_unique (initial : Z) (s : ref_sys)
    (Hinit : tr_refcount_init initial = (TR_OK, Some initial)) (Hi : u32_ok initial)
    (Hs : ref_reachable initial s) :
  0 ≤ rs_value s ≤ UINT32_MAX - 1 ∧
  rs_value s = initial + zsum ref_delta (rs_threads s) ∧
  zsum ref_last (rs_threads s) = (if rs_value s =? 0 then 1 else 0) ∧
  (rs_value s = 0 → ∀ i t spurious, rs_threads s !! i = Some t →
     (ref_step spurious (rs_value s) t).1 = 0).
Proof.
  assert (0 < initial ≤ UINT32_MAX - 1) as Hpos.
  { unfold tr_refcount_init in Hinit. case_ifs_in Hinit. word_lia. }
  destruct (ref_reachable_inv _ _ Hpos Hs) as (Hv & Hl & Hd & Hlast).
  split_and!; try lia. intros H0 i t sp Ht.
  pose proof (Forall_lookup_1 _ _ _ _ Hl Ht) as Hold.
  pose proof (ref_step_spec sp _ _ Hv Hold) as Hstep.
  destruct (ref_step sp (rs_value s) t) as [v' t'] eqn:E. simpl. rewrite H0 in *.
  unfold ref_step in E. destruct (r_pc t) as [|old|ret] eqn:Hpc; try (simplify_eq; done).
  destruct (ref_decide (r_op t) old) as [ret|[new ret]] eqn:Hdec; [simplify_eq; done|].
  case_ifs_in E; try done; unfold ref_decide in Hdec; by destruct (r_op t).
Qed.

(** Run a schedule of thread indices. *)
Definition ref_run (sched : list (nat * bool)) (s : ref_sys) : ref_sys :=
  fold_left (λ s ib,
    match rs_threads s !! ib.1 with
    | None => s
    | Some t => mk_ref_sys (ref_step ib.2 (rs_value s) t).1
                  (<[ib.1 := (ref_step ib.2 (rs_value s) t).2]> (rs_threads s))
    end) sched s.

Lemma ref_run_reachable initial sched s : ref_reachable initial s →
  ref_reachable initial (ref_run sched s).
Proof.
  revert s. induction sched as [|[i sp] sched IH]; intros s Hs; simpl; [done|].
  apply IH. destruct (rs_threads s !! i) eqn:E; [|done]. by apply ref_reach_step.
Qed.

(** Two owners and a late reader: after both puts the reader is refused. *)
Definition ref_demo_start : ref_sys :=
  mk_ref_sys 2 [mk_ref_thread Ref_put R_load; mk_ref_thread Ref_put R_load;
                mk_ref_thread Ref_get_unless_zero R_load].
Definition ref_demo : ref_sys :=
  ref_run [(0, false); (1, false); (0, true); (0, false); (1, false); (1, false);
           (2, false); (2, false)]%nat ref_demo_start.

Lemma ref_demo_reachable : ref_reachable 2 ref_demo.
Proof.
  apply ref_run_reachable.
  apply (ref_reach_call 2 (mk_ref_sys 2 [mk_ref_thread Ref_put R_load; mk_ref_thread Ref_put R_load])).
  apply (ref_reach_call 2 (mk_ref_sys 2 [mk_ref_thread Ref_put R_load])).
  apply (ref_reach_call 2 (mk_ref_sys 2 [])). constructor.
Qed.

Lemma refcount_last_put_unique_witness :
  tr_refcount_init 2 = (TR_OK, Some 2) ∧
  map r_pc (rs_threads ref_demo) = [R_done 0; R_done 1; R_done 0] ∧
  zsum ref_last (rs_threads ref_demo) = 1.
Proof.
  split; [reflexivity|]. split; [vm_compute; reflexivity|].
  apply (refcount_last_put_unique 2 ref_demo).
  - reflexivity.
  - unfold u32_ok; lia.
  - exact ref_demo_reachable.
Defined.

(** Without interference a loop returns after its first iteration, with the result
    of the sequential definition. *)
Lemma ref_decide_sequential op old :
  (match op with
   | Ref_get => tr_refcount_get
   | Ref_get_unless_zero => tr_refcount_get_unless_zero
   | Ref_put => tr_refcount_put
   end) (Some old) =
  match ref_decide op old with
  | inl ret => (ret, Some old)
  | inr (new, ret) => (ret, Some new)
  end.
Proof. by destruct op; simpl; case_ifs. Qed.
