(* ===== verification/Observability.v ===== *)
(** Counters and latency histograms: [src/observability_internal.h].

    The high-water mark every queue and pool keeps, and the base-two logarithmic
    latency histogram with its merge. *)
From S2P Require Import Prelude.

(** [tr_observe_high_water_u32] on a non-NULL mark; every caller passes one. *)
Definition tr_observe_high_water_u32 (peak value : Z) : Z :=
  if value >? peak then value else peak.

(** [63 - __builtin_clzll(value)]: the builtin counts the zero bits above the top
    one of a non-zero 64-bit value, so the difference is the top bit's index. *)
Definition clzll (value : Z) : Z := 63 - Z.log2 value.

Definition tr_observe_log2_bucket_u64 (value : Z) : Z :=
  bail 0 when (value <=? 1) ;;
  63 - clzll value.

Definition TR_LATENCY_HISTOGRAM_BUCKETS : Z := 64.

Record tr_latency_histogram := mk_histogram {
  samples : Z;
  total_ns : Z;
  max_ns : Z;
  buckets : list Z
}.

Definition tr_observe_latency_ns (histogram : option tr_latency_histogram) (value : Z)
    : option tr_latency_histogram :=
  match histogram with
  | None => None
  | Some h =>
      let bucket := tr_observe_log2_bucket_u64 value in
      Some (mk_histogram (u64 (samples h + 1)) (u64 (total_ns h + value))
        (if value >? max_ns h then value else max_ns h)
        ((buckets h).[bucket <- u64 ((buckets h).[bucket] + 1)]))
  end.

(** The loop over the buckets: [dst->buckets[i] += src->buckets[i]]. *)
Fixpoint merge_buckets (dst src : list Z) : list Z :=
  match dst, src with
  | d :: dst, s :: src => u64 (d + s) :: merge_buckets dst src
  | _, _ => []
  end.

Definition tr_merge_latency_histogram (dst src : option tr_latency_histogram)
    : option tr_latency_histogram :=
  match dst, src with
  | Some dst, Some src =>
      Some (mk_histogram (u64 (samples dst + samples src)) (u64 (total_ns dst + total_ns src))
        (if max_ns src >? max_ns dst then max_ns src else max_ns dst)
        (merge_buckets (buckets dst) (buckets src)))
  | _, _ => dst
  end.

(** * Properties *)

Lemma high_water_max peak value : tr_observe_high_water_u32 peak value = Z.max peak value.
Proof. unfold tr_observe_high_water_u32. case_if; lia. Qed.

(** The ranges documented in [src/observability.h]: bucket 0 holds 0 and 1, bucket [i]
    the values from [2^i] below [2^(i+1)]. *)
Lemma log2_bucket_range v : u64_ok v →
  0 ≤ tr_observe_log2_bucket_u64 v < TR_LATENCY_HISTOGRAM_BUCKETS ∧
  (1 < v → 2 ^ tr_observe_log2_bucket_u64 v ≤ v < 2 ^ (tr_observe_log2_bucket_u64 v + 1)).
Proof.
  intros Hv. unfold tr_observe_log2_bucket_u64, clzll, TR_LATENCY_HISTOGRAM_BUCKETS.
  case_if; [lia|]. replace (63 - (63 - Z.log2 v)) with (Z.log2 v) by lia.
  pose proof (Z.log2_spec v ltac:(lia)).
  assert (Z.log2 v < 64) by (apply Z.log2_lt_pow2; word_lia).
  split; [split; [apply Z.log2_nonneg|lia]|]. intros _.
  by rewrite Z.add_1_r.
Qed.

(** A well-formed histogram: one counter per bucket and every sample in a bucket. *)
Definition histogram_ok (h : tr_latency_histogram) : Prop :=
  alen (buckets h) = TR_LATENCY_HISTOGRAM_BUCKETS ∧ Forall (λ b, 0 ≤ b) (buckets h) ∧
  samples h = zsum id (buckets h).

Lemma zsum_aset_id (l : list Z) i x : 0 ≤ i < alen l →
  zsum id (l.[i <- x]) = zsum id l - l.[i] + x.
Proof.
  intros Hi. unfold aset. rewrite (zsum_insert id l _ (l.[i])) by by apply aget_lookup. done.
Qed.

Lemma zsum_bucket_le (l : list Z) i : Forall (λ b, 0 ≤ b) l → 0 ≤ i < alen l →
  0 ≤ l.[i] ≤ zsum id l.
Proof.
  intros Hp Hi. rewrite Forall_forall in Hp. split.
  - apply Hp. eapply list_elem_of_lookup_2. by apply aget_lookup.
  - apply (zsum_lookup_le id l (Z.to_nat i)); [exact Hp|]. by apply aget_lookup.
Qed.

Lemma observe_latency_ok h value : histogram_ok h → u64_ok value → samples h < UINT64_MAX →
  ∃ h', tr_observe_latency_ns (Some h) value = Some h' ∧ histogram_ok h' ∧
    samples h' = samples h + 1.
Proof.
  intros (Hlen & Hpos & Hsum) Hv Hmax. eexists. split; [reflexivity|].
  destruct (log2_bucket_range value Hv) as [Hb _]. rewrite <- Hlen in Hb.
  pose proof (zsum_bucket_le _ _ Hpos Hb) as Hle.
  unfold histogram_ok. simpl. rewrite alen_aset, zsum_aset_id by done.
  rewrite !u64_small by word_lia. split_and!; try lia.
  apply Forall_insert; [done|lia].
Qed.
