(* ===== verification/BufferPool.v ===== *)
(** Buffer pools: [src/execution/buffer.{h,c}].

    A pool owns its descriptors; a buffer is named by its index.  The free list is
    the intrusive singly linked list of the source ([next] fields from [free_list]).
    Each call runs under the pool's lock, so the calls are the atomic steps; memory
    the allocator returns or refuses is a parameter of the calls that allocate. *)
From S2P Require Import Prelude Status Observability MemoryBudget.

(** * Data *)

Record tr_buffer := mk_buffer {
  bf_data : list Z;
  bf_capacity : Z;
  bf_len : Z;
  bf_next : option nat;
  bf_checked_out : bool
}.

#[export] Instance tr_buffer_inhabited : Inhabited tr_buffer :=
  populate (mk_buffer [] 0 0 None false).

Record tr_buffer_pool := mk_pool {
  p_buffers : list tr_buffer;
  (** [storage != NULL]: a fixed contiguous pool, not one that grows on demand *)
  p_storage : bool;
  p_free_list : option nat;
  p_buffer_count : Z;
  p_buffer_size : Z;
  p_free_count : Z;
  p_peak_in_use : Z;
  p_exhausted_events : Z;
  p_closed : bool;
  (** [memory_budget != NULL] *)
  p_memory_budget : bool
}.

(** [sizeof(struct tr_buffer)] on LP64. *)
Definition sizeof_tr_buffer : Z := 48.

(** The zeroed pool: before [init] and (but for [closed]) after [destroy]. *)
Definition zero_pool : tr_buffer_pool := mk_pool [] false None 0 0 0 0 0 false false.

(** * Operations *)

Section Ops.
Context {B : Type} `{!Budget B}.

Definition tr_buffer_budget_reserve (budgeted : bool) (bud : B) (bytes : Z) : tr_status * B :=
  if budgeted then b_reserve bud bytes else (TR_OK, bud).

Definition tr_buffer_budget_release (budgeted : bool) (bud : B) (bytes : Z) : B :=
  if budgeted && negb (bytes =? 0) then (b_release bud bytes).2 else bud.

(** The loop that links descriptor [i] in front of the free list. *)
Definition link_buffers (count : nat) (mk : option nat → tr_buffer) : list tr_buffer * option nat :=
  fold_left (λ '(bufs, free_list) i, (bufs ++ [mk free_list], Some i)) (seq 0 count) ([], None).

(** What the allocator and [pthread_mutex_init] answer during construction. *)
Record init_env := { calloc_ok : bool; malloc_ok : bool; mutex_ok : bool }.

Definition tr_buffer_pool_init_budgeted (pool : option tr_buffer_pool)
    (buffer_count buffer_size : Z) (budgeted : bool) (env : init_env) (bud : B)
    : tr_status * option tr_buffer_pool * B :=
  bail (TR_ERR_INVALID, pool, bud) when
    (negb (bool_decide (is_Some pool)) || (buffer_count =? 0) || (buffer_size =? 0)) ;;
  bail (TR_ERR_BAD_LENGTH, pool, bud) when (buffer_count >? SIZE_MAX / buffer_size) ;;
  let descriptor_bytes := u64 (buffer_count * sizeof_tr_buffer) in
  let storage_bytes := u64 (buffer_count * buffer_size) in
  let '(ret, bud) := tr_buffer_budget_reserve budgeted bud descriptor_bytes in
  bail (ret, Some zero_pool, bud) when (negb (is_ok ret)) ;;
  let '(ret, bud) := tr_buffer_budget_reserve budgeted bud storage_bytes in
  bail (ret, Some zero_pool, tr_buffer_budget_release budgeted bud descriptor_bytes) when
    (negb (is_ok ret)) ;;
  let fail_budget ret :=
    (ret, Some zero_pool,
     tr_buffer_budget_release budgeted
       (tr_buffer_budget_release budgeted bud storage_bytes) descriptor_bytes) in
  bail (fail_budget TR_ERR_NOMEM) when (negb (calloc_ok env)) ;;
  bail (fail_budget TR_ERR_NOMEM) when (negb (malloc_ok env)) ;;
  bail (fail_budget TR_ERR_INVALID) when (negb (mutex_ok env)) ;;
  let '(bufs, free_list) :=
    link_buffers (Z.to_nat buffer_count)
      (λ next, mk_buffer (replicate (Z.to_nat buffer_size) 0) buffer_size 0 next false) in
  (TR_OK,
   Some (mk_pool bufs true free_list buffer_count buffer_size buffer_count 0 0 false budgeted),
   bud).

Definition tr_buffer_pool_init_dynamic_budgeted (pool : option tr_buffer_pool)
    (buffer_count max_buffer_size : Z) (budgeted : bool) (env : init_env) (bud : B)
    : tr_status * option tr_buffer_pool * B :=
  bail (TR_ERR_INVALID, pool, bud) when
    (negb (bool_decide (is_Some pool)) || (buffer_count =? 0) || (max_buffer_size =? 0)) ;;
  let descriptor_bytes := u64 (buffer_count * sizeof_tr_buffer) in
  let '(ret, bud) := tr_buffer_budget_reserve budgeted bud descriptor_bytes in
  bail (ret, Some zero_pool, bud) when (negb (is_ok ret)) ;;
  bail (TR_ERR_NOMEM, Some zero_pool, tr_buffer_budget_release budgeted bud descriptor_bytes) when
    (negb (calloc_ok env)) ;;
  bail (TR_ERR_INVALID, Some zero_pool, tr_buffer_budget_release budgeted bud descriptor_bytes) when
    (negb (mutex_ok env)) ;;
  let '(bufs, free_list) :=
    link_buffers (Z.to_nat buffer_count) (λ next, mk_buffer [] 0 0 next false) in
  (TR_OK,
   Some (mk_pool bufs false free_list buffer_count max_buffer_size buffer_count 0 0 false budgeted),
   bud).

Definition tr_buffer_pool_init (pool : option tr_buffer_pool) (buffer_count buffer_size : Z)
    (env : init_env) (bud : B) : tr_status * option tr_buffer_pool * B :=
  tr_buffer_pool_init_budgeted pool buffer_count buffer_size false env bud.

Definition tr_buffer_pool_init_dynamic (pool : option tr_buffer_pool)
    (buffer_count max_buffer_size : Z) (env : init_env) (bud : B)
    : tr_status * option tr_buffer_pool * B :=
  tr_buffer_pool_init_dynamic_budgeted pool buffer_count max_buffer_size false env bud.

(** [tr_buffer_release] on a descriptor of this pool. *)
Definition pool_release (p : tr_buffer_pool) (i : nat) : tr_buffer_pool :=
  let buffer := p_buffers p !!! i in
  bail p when (negb (bf_checked_out buffer)) ;;
  mk_pool
    (<[i := mk_buffer (bf_data buffer) (bf_capacity buffer) 0 (p_free_list p) false]> (p_buffers p))
    (p_storage p) (Some i) (p_buffer_count p) (p_buffer_size p) (u32 (p_free_count p + 1))
    (p_peak_in_use p) (p_exhausted_events p) (p_closed p) (p_memory_budget p).

(** Where a buffer comes from: a descriptor of a pool, or an unpooled buffer with or
    without a one-shot release hook.  [tr_buffer_release] returns the pool and whether
    the hook runs. *)
Inductive buffer_origin := Pooled (i : nat) | Unpooled (release_cb : bool).

Definition tr_buffer_release (p : tr_buffer_pool) (buffer : option buffer_origin)
    : tr_buffer_pool * bool :=
  match buffer with
  | None => (p, false)
  | Some (Unpooled cb) => (p, cb)
  | Some (Pooled i) => (pool_release p i, false)
  end.

(** The pool after descriptor [i], the head of the free list, was unlinked and now
    reads [buf']. *)
Definition pool_taken (p : tr_buffer_pool) (i : nat) (buf' : tr_buffer) : tr_buffer_pool :=
  mk_pool (<[i := buf']> (p_buffers p)) (p_storage p) (bf_next (p_buffers p !!! i))
    (p_buffer_count p) (p_buffer_size p) (u32 (p_free_count p - 1))
    (tr_observe_high_water_u32 (p_peak_in_use p)
       (u32 (p_buffer_count p - u32 (p_free_count p - 1))))
    (p_exhausted_events p) (p_closed p) (p_memory_budget p).

(** Overwrite one descriptor. *)
Definition pool_set_buffer (p : tr_buffer_pool) (i : nat) (b : tr_buffer) : tr_buffer_pool :=
  mk_pool (<[i := b]> (p_buffers p)) (p_storage p) (p_free_list p) (p_buffer_count p)
    (p_buffer_size p) (p_free_count p) (p_peak_in_use p) (p_exhausted_events p) (p_closed p)
    (p_memory_budget p).

(** The unlinking under the lock, then the growth of a dynamic descriptor outside it.
    What [realloc] adds is unspecified memory; zeros stand for it here. *)
Definition pool_acquire (p : tr_buffer_pool) (min_capacity : Z) (realloc_ok : bool) (bud : B)
    : tr_status * tr_buffer_pool * B * option nat :=
  bail (TR_ERR_CLOSED, p, bud, None) when (p_closed p) ;;
  bail (TR_ERR_BAD_LENGTH, p, bud, None) when (min_capacity >? p_buffer_size p) ;;
  match p_free_list p with
  | None =>
      (TR_AGAIN,
       mk_pool (p_buffers p) (p_storage p) None (p_buffer_count p) (p_buffer_size p)
         (p_free_count p) (p_peak_in_use p) (u64 (p_exhausted_events p + 1)) (p_closed p)
         (p_memory_budget p),
       bud, None)
  | Some i =>
      let buf := p_buffers p !!! i in
      let p' := pool_taken p i (mk_buffer (bf_data buf) (bf_capacity buf) 0 None true) in
      let dynamic := negb (p_storage p) in
      if dynamic && (bf_capacity buf <? min_capacity) then
        let growth := min_capacity - bf_capacity buf in
        let '(ret, bud) := tr_buffer_budget_reserve (p_memory_budget p) bud growth in
        bail (ret, pool_release p' i, bud, None) when (negb (is_ok ret)) ;;
        bail (TR_ERR_NOMEM, pool_release p' i,
              tr_buffer_budget_release (p_memory_budget p) bud growth, None) when
          (negb realloc_ok) ;;
        (TR_OK,
         pool_set_buffer p' i
           (mk_buffer (bf_data buf ++ replicate (Z.to_nat growth) 0) min_capacity 0 None true),
         bud, Some i)
      else (TR_OK, p', bud, Some i)
  end.

Definition tr_buffer_acquire (pool : option tr_buffer_pool) (min_capacity : Z) (out : bool)
    (realloc_ok : bool) (bud : B) : tr_status * option tr_buffer_pool * B * option nat :=
  match pool with
  | Some p =>
      bail (TR_ERR_INVALID, Some p, bud, None) when (negb out || (min_capacity =? 0)) ;;
      let '(ret, p, bud, buf) := pool_acquire p min_capacity realloc_ok bud in
      (ret, Some p, bud, buf)
  | None => (TR_ERR_INVALID, None, bud, None)
  end.

(** Give back the capacity each dynamic descriptor still holds. *)
Definition release_capacities (budgeted : bool) (bufs : list tr_buffer) (bud : B) : B :=
  fold_left (λ bud b, tr_buffer_budget_release budgeted bud (bf_capacity b)) bufs bud.

Definition tr_buffer_pool_destroy (pool : option tr_buffer_pool) (bud : B)
    : tr_status * option tr_buffer_pool * B :=
  match pool with
  | None => (TR_OK, None, bud)
  | Some p =>
      bail (TR_OK, Some p, bud) when
        (bool_decide (p_buffers p = []) && (p_buffer_count p =? 0)) ;;
      let closed :=
        mk_pool (p_buffers p) (p_storage p) (p_free_list p) (p_buffer_count p) (p_buffer_size p)
          (p_free_count p) (p_peak_in_use p) (p_exhausted_events p) true (p_memory_budget p) in
      bail (TR_ERR_STATE, Some closed, bud) when (negb (p_free_count p =? p_buffer_count p)) ;;
      bail (TR_ERR_STATE, Some closed, bud) when (existsb bf_checked_out (p_buffers p)) ;;
      let budgeted := p_memory_budget p in
      let descriptor_bytes := u64 (p_buffer_count p * sizeof_tr_buffer) in
      let fixed_storage_bytes :=
        if p_storage p then u64 (p_buffer_count p * p_buffer_size p) else 0 in
      let bud :=
        if negb (p_storage p) then release_capacities budgeted (p_buffers p) bud else bud in
      let bud := tr_buffer_budget_release budgeted bud fixed_storage_bytes in
      let bud := tr_buffer_budget_release budgeted bud descriptor_bytes in
      (TR_OK, Some (mk_pool [] false None 0 0 0 0 0 true false), bud)
  end.

End Ops.

Definition tr_buffer_pool_free_count (pool : option tr_buffer_pool) : Z :=
  match pool with None => 0 | Some p => p_free_count p end.

Record tr_pool_observation := mk_pool_observation {
  po_capacity : Z; po_current : Z; po_peak : Z; po_exhausted_events : Z
}.

Definition tr_buffer_pool_get_stats (pool : option tr_buffer_pool) (out : option tr_pool_observation)
    : tr_status * option tr_pool_observation :=
  match pool, out with
  | Some p, Some _ =>
      (TR_OK, Some (mk_pool_observation (p_buffer_count p) (u32 (p_buffer_count p - p_free_count p))
        (p_peak_in_use p) (p_exhausted_events p)))
  | _, _ => (TR_ERR_INVALID, out)
  end.

(** * Invariant *)

(** The free list, followed from [head] through the [next] fields. *)
Fixpoint chain (bufs : list tr_buffer) (head : option nat) (fl : list nat) : Prop :=
  match fl with
  | [] => head = None
  | i :: fl => head = Some i ∧ (i < length bufs)%nat ∧ chain bufs (bf_next (bufs !!! i)) fl
  end.

Definition is_free (b : tr_buffer) : Z := if bf_checked_out b then 0 else 1.

(** A descriptor of a pool: its memory is as large as it says. *)
Definition buffer_ok (p : tr_buffer_pool) (b : tr_buffer) : Prop :=
  alen (bf_data b) = bf_capacity b ∧ 0 ≤ bf_len b ≤ bf_capacity b ≤ p_buffer_size p ∧
  (p_storage p = true → bf_capacity b = p_buffer_size p).

Record pool_ok (p : tr_buffer_pool) : Prop := {
  po_count : alen (p_buffers p) = p_buffer_count p ∧ 0 < p_buffer_count p < 2 ^ 32;
  po_size : 0 < p_buffer_size p < 2 ^ 32;
  po_bufs : Forall (buffer_ok p) (p_buffers p);
  po_chain : ∃ fl, chain (p_buffers p) (p_free_list p) fl ∧ NoDup fl ∧
    p_free_count p = Z.of_nat (length fl) ∧
    ∀ i b, p_buffers p !! i = Some b → bf_checked_out b = false ↔ i ∈ fl;
  po_free : p_free_count p = zsum is_free (p_buffers p);
  po_peak_ok : p_buffer_count p - p_free_count p ≤ p_peak_in_use p ≤ p_buffer_count p
}.

(** The bytes a pool has charged to its budget. *)
Definition charge (p : tr_buffer_pool) : Z :=
  if p_memory_budget p then
    p_buffer_count p * sizeof_tr_buffer +
    (if p_storage p then p_buffer_count p * p_buffer_size p
     else zsum bf_capacity (p_buffers p))
  else 0.

(** The buffers someone holds. *)
Definition held (p : tr_buffer_pool) (i : nat) : Prop :=
  ∃ b, p_buffers p !! i = Some b ∧ bf_checked_out b = true.

Lemma chain_insert bufs head fl i b : i ∉ fl →
  chain bufs head fl → chain (<[i := b]> bufs) head fl.
Proof.
  revert head. induction fl as [|j fl IH]; intros head Hi; simpl; [done|].
  apply not_elem_of_cons in Hi as [Hne Hi]. intros (-> & Hj & Hc). rewrite length_insert.
  split_and!; [done..|]. rewrite list_lookup_total_insert_ne by done. by apply IH.
Qed.

Lemma is_free_range b : 0 ≤ is_free b ≤ 1.
Proof. unfold is_free. destruct (bf_checked_out b); lia. Qed.

Lemma zsum_is_free_le bufs : 0 ≤ zsum is_free bufs ≤ alen bufs.
Proof.
  unfold alen. induction bufs as [|b bufs IH]; simpl; [lia|].
  pose proof (is_free_range b). lia.
Qed.

(** All descriptors are free exactly when the count says so. *)
Lemma all_free_iff bufs : zsum is_free bufs = alen bufs ↔ existsb bf_checked_out bufs = false.
Proof.
  unfold alen. induction bufs as [|b bufs IH]; simpl; [done|].
  pose proof (zsum_is_free_le bufs) as Hle. unfold alen in Hle.
  unfold is_free at 1. destruct (bf_checked_out b); simpl; [split; [lia|done]|].
  rewrite <- IH. lia.
Qed.

Lemma pool_free_count_range p : pool_ok p → 0 ≤ p_free_count p ≤ p_buffer_count p.
Proof. intros []. pose proof (zsum_is_free_le (p_buffers p)). lia. Qed.

Lemma charge_nonneg p : pool_ok p → 0 ≤ charge p.
Proof.
  intros [[Hlen Hcnt] Hsize Hbufs _ _ _]. unfold charge, sizeof_tr_buffer.
  assert (0 ≤ zsum bf_capacity (p_buffers p)).
  { apply zsum_nonneg. intros b Hb. rewrite Forall_forall in Hbufs.
    destruct (Hbufs b Hb) as (_ & ? & _). lia. }
  destruct (p_memory_budget p), (p_storage p); nia.
Qed.

(** ** Release *)

(** Replace descriptor [i] of the pool. *)
Lemma pool_lookup_total p i b : p_buffers p !! i = Some b → p_buffers p !!! i = b.
Proof. apply list_lookup_total_correct. Qed.

Lemma pool_release_free p i : ¬ held p i → pool_release p i = p ∨ p_buffers p !! i = None.
Proof.
  intros Hh. destruct (p_buffers p !! i) as [b|] eqn:E; [|by right]. left.
  unfold pool_release. rewrite (pool_lookup_total _ _ _ E).
  destruct (bf_checked_out b) eqn:Eb; [|done]. exfalso. apply Hh. by exists b.
Qed.

Lemma pool_release_ok p i : pool_ok p → (i < length (p_buffers p))%nat → pool_ok (pool_release p i).
Proof.
  intros Hok Hi. destruct (lookup_lt_is_Some_2 _ _ Hi) as [b Eb].
  pose proof (pool_free_count_range p Hok) as Hrange.
  unfold pool_release. rewrite (pool_lookup_total _ _ _ Eb).
  destruct (bf_checked_out b) eqn:Hb; simpl; [|done].
  destruct Hok as [[Hlen Hcnt] Hsize Hbufs (fl & Hch & Hnd & Hfl & Hin) Hfree Hpeak].
  assert (i ∉ fl) as Hni by (intros H; apply (Hin _ _ Eb) in H; congruence).
  pose proof (Forall_lookup_1 _ _ _ _ Hbufs Eb) as (Hd & Hl & Hs).
  assert (p_free_count p < p_buffer_count p) as Hlt.
  { rewrite Hfree, <- Hlen. destruct (Z.eq_dec (zsum is_free (p_buffers p)) (alen (p_buffers p)))
      as [Heq|]; [|pose proof (zsum_is_free_le (p_buffers p)); lia].
    apply all_free_iff in Heq. exfalso.
    assert (existsb bf_checked_out (p_buffers p) = true) by
      (apply existsb_exists; exists b; split; [|done]; by eapply list_elem_of_In, list_elem_of_lookup_2).
    congruence. }
  assert (u32 (p_free_count p + 1) = p_free_count p + 1) as Hu by (apply u32_small; word_lia).
  split; simpl; rewrite ?Hu.
  - unfold alen in *. by rewrite length_insert.
  - done.
  - apply Forall_insert; [done|]. split_and!; simpl; [done|lia..|done].
  - exists (i :: fl). split_and!.
    + split_and!; [done|by rewrite length_insert|].
      rewrite list_lookup_total_insert_eq by done. simpl. by apply chain_insert.
    + by constructor.
    + simpl. lia.
    + intros j b' Hj. rewrite elem_of_cons.
      apply list_lookup_insert_Some in Hj as [(<- & <- & _)|[Hne Hj]].
      * simpl. split; auto.
      * rewrite (Hin _ _ Hj). split; [auto|]. intros [->|]; done.
  - rewrite (zsum_insert _ _ _ b) by done. unfold is_free at 2 3. rewrite Hb. simpl. lia.
  - lia.
Qed.

Lemma pool_release_charge p i : (i < length (p_buffers p))%nat → charge (pool_release p i) = charge p.
Proof.
  intros Hi. destruct (lookup_lt_is_Some_2 _ _ Hi) as [b Eb].
  unfold pool_release. rewrite (pool_lookup_total _ _ _ Eb).
  destruct (bf_checked_out b) eqn:Hb; simpl; [|done].
  unfold charge. simpl. rewrite (zsum_insert _ _ _ b) by done. simpl.
  by replace (zsum bf_capacity (p_buffers p) - bf_capacity b + bf_capacity b)
    with (zsum bf_capacity (p_buffers p)) by lia.
Qed.

(** ** Acquire *)

Lemma pool_free_head p i : pool_ok p → p_free_list p = Some i →
  ∃ b, p_buffers p !! i = Some b ∧ bf_checked_out b = false ∧ 0 < p_free_count p.
Proof.
  intros [? ? ? (fl & Hch & Hnd & Hfl & Hin) ? ?] Hf.
  destruct fl as [|j fl]; simpl in Hch; [congruence|].
  destruct Hch as (Hj & Hlt & _). assert (j = i) as -> by congruence.
  destruct (lookup_lt_is_Some_2 _ _ Hlt) as [b Eb]. exists b. split_and!; [done| |simpl in *; lia].
  apply (Hin _ _ Eb), elem_of_cons. by left.
Qed.

Lemma pool_taken_ok p i b buf' : pool_ok p → p_free_list p = Some i → p_buffers p !! i = Some b →
  buffer_ok p buf' → bf_checked_out buf' = true → pool_ok (pool_taken p i buf').
Proof.
  intros Hok Hf Eb Hbuf Hout. pose proof (pool_free_count_range p Hok) as Hrange.
  destruct Hok as [[Hlen Hcnt] Hsize Hbufs (fl & Hch & Hnd & Hfl & Hin) Hfree Hpeak].
  destruct fl as [|j fl]; simpl in Hch; [congruence|].
  destruct Hch as (Hj & Hlt & Hch). assert (j = i) as -> by congruence.
  apply NoDup_cons in Hnd as [Hni Hnd]. simpl in Hfl.
  assert (bf_checked_out b = false) as Hb by (apply (Hin _ _ Eb), elem_of_cons; by left).
  assert (u32 (p_free_count p - 1) = p_free_count p - 1) as Hu by (apply u32_small; word_lia).
  assert (u32 (p_buffer_count p - (p_free_count p - 1)) = p_buffer_count p - (p_free_count p - 1))
    as Hu2 by (apply u32_small; word_lia).
  unfold pool_taken. rewrite Hu, Hu2, high_water_max. split; simpl.
  - unfold alen in *. by rewrite length_insert.
  - done.
  - by apply Forall_insert.
  - exists fl. split_and!; [by apply chain_insert|done|lia|].
    intros k b' Hk. apply list_lookup_insert_Some in Hk as [(<- & <- & _)|[Hne Hk]].
    + rewrite Hout. by split.
    + rewrite (Hin _ _ Hk), elem_of_cons. split; [intros [->|]; done|auto].
  - rewrite (zsum_insert _ _ _ b) by done. unfold is_free at 2 3. rewrite Hb, Hout. lia.
  - lia.
Qed.

Lemma pool_taken_charge p i b buf' : p_buffers p !! i = Some b →
  charge (pool_taken p i buf') =
  charge p + (if p_memory_budget p && negb (p_storage p) then bf_capacity buf' - bf_capacity b else 0).
Proof.
  intros Eb. unfold charge. simpl. destruct (p_memory_budget p), (p_storage p); simpl; try lia.
  rewrite (zsum_insert _ _ _ b) by done. lia.
Qed.

(** Only descriptor [i] differs, and it is now held. *)
Definition took (p p' : tr_buffer_pool) (i : nat) (min_capacity : Z) : Prop :=
  (∃ b, p_buffers p !! i = Some b ∧ bf_checked_out b = false) ∧
  (∃ b', p_buffers p' !! i = Some b' ∧ bf_checked_out b' = true ∧ bf_len b' = 0 ∧
     min_capacity ≤ bf_capacity b') ∧
  ∀ j, j ≠ i → p_buffers p' !! j = p_buffers p !! j.

Lemma pool_taken_took p i b buf' c : p_buffers p !! i = Some b → bf_checked_out b = false →
  bf_checked_out buf' = true → bf_len buf' = 0 → c ≤ bf_capacity buf' →
  took p (pool_taken p i buf') i c.
Proof.
  intros Eb Hb Hout Hlen Hc. split_and!; [by exists b|exists buf'; split_and!; try done|].
  - simpl. apply list_lookup_insert_eq. by eapply lookup_lt_Some.
  - intros j Hj. simpl. by apply list_lookup_insert_ne.
Qed.

(** Unlinking a descriptor and giving it straight back, the failure paths of the growth. *)
Lemma pool_taken_release_checked p i b buf' : p_buffers p !! i = Some b → bf_checked_out b = false →
  bf_checked_out buf' = true → bf_capacity buf' = bf_capacity b →
  let p' := pool_release (pool_taken p i buf') i in
  (∀ j, held p' j ↔ held p j) ∧ charge p' = charge p.
Proof.
  intros Eb Hb Hout Hcap p'. subst p'.
  assert ((i < length (p_buffers (pool_taken p i buf')))%nat) as Hi
    by (simpl; rewrite length_insert; by eapply lookup_lt_Some).
  split; [|rewrite pool_release_charge, (pool_taken_charge _ _ b) by done; case_if; lia].
  assert (p_buffers (pool_taken p i buf') !! i = Some buf') as E
    by (simpl; apply list_lookup_insert_eq; by eapply lookup_lt_Some).
  intros j. unfold pool_release. rewrite (pool_lookup_total _ _ _ E), Hout. simpl.
  rewrite list_insert_insert_eq. unfold held. simpl. split; intros (b' & Hj & Hb').
  - apply list_lookup_insert_Some in Hj as [(<- & <- & _)|[Hne Hj]]; [done|]. by exists b'.
  - exists b'. split; [|done]. rewrite list_lookup_insert_ne; [done|]. intros ->. congruence.
Qed.

Section Acquire.
Context {B : Type} `{!Budget B}.

Lemma budget_reserve_spec budgeted (bud : B) n r bud' : b_ok bud → u64_ok n →
  tr_buffer_budget_reserve budgeted bud n = (r, bud') →
  b_ok bud' ∧ (r = TR_OK ∧ b_used bud' = b_used bud + (if budgeted then n else 0) ∨
               (r = TR_AGAIN ∨ r = TR_ERR_STATE) ∧ b_used bud' = b_used bud).
Proof.
  intros Hok Hn H. unfold tr_buffer_budget_reserve in H. destruct budgeted.
  - by apply b_reserve_spec.
  - simplify_eq. split; [done|]. left. split; [done|lia].
Qed.

Lemma budget_release_spec budgeted (bud : B) n : b_ok bud →
  0 ≤ n → (budgeted = true → n ≤ b_used bud) →
  b_ok (tr_buffer_budget_release budgeted bud n) ∧
  b_used (tr_buffer_budget_release budgeted bud n) = b_used bud - (if budgeted then n else 0).
Proof.
  intros Hok Hn Hle. unfold tr_buffer_budget_release. destruct budgeted; simpl; [|split; [done|lia]].
  destruct (Z.eqb_spec n 0) as [->|]; simpl; [split; [done|lia]|].
  destruct (b_release_spec bud n Hok ltac:(auto)) as (b' & -> & ? & ?). simpl. auto.
Qed.

(** What an acquire does, on every path. *)
Lemma pool_acquire_spec p c realloc_ok (bud : B) base r p' bud' o :
  pool_ok p → b_ok bud → 0 ≤ base → b_used bud = base + charge p → 0 < c →
  pool_acquire p c realloc_ok bud = (r, p', bud', o) →
  pool_ok p' ∧ b_ok bud' ∧ b_used bud' = base + charge p' ∧
  match o with
  | Some i => r = TR_OK ∧ p_closed p = false ∧ took p p' i c
  | None => r ≠ TR_OK ∧ (∀ j, held p' j ↔ held p j) ∧
      (r = TR_ERR_CLOSED → p_closed p = true) ∧
      (p_closed p = true → r = TR_ERR_CLOSED) ∧
      (r = TR_ERR_BAD_LENGTH → p_buffer_size p < c)
  end.
Proof.
  intros Hok Hbok Hbase Hused Hc H. unfold pool_acquire in H.
  case_if_in H; [simplify_eq; split_and!; done|].
  case_if_in H; [simplify_eq; split_and!; try done; lia|].
  destruct (p_free_list p) as [i|] eqn:Hf.
  2: { simplify_eq. split_and!; try done. destruct Hok; split; simpl; try done.
       by rewrite Hf in po_chain0. }
  destruct (pool_free_head p i Hok Hf) as (b & Eb & Hb & Hfc).
  rewrite (pool_lookup_total _ _ _ Eb) in H.
  pose proof (Forall_lookup_1 _ _ _ _ (po_bufs _ Hok) Eb) as (Hd & Hl & Hs).
  set (buf' := mk_buffer (bf_data b) (bf_capacity b) 0 None true) in H.
  assert (buffer_ok p buf') as Hbuf' by (split_and!; simpl; [done|lia..|done]).
  pose proof (pool_taken_ok _ _ _ buf' Hok Hf Eb Hbuf' eq_refl) as Hok'.
  assert (charge (pool_taken p i buf') = charge p) as Hch
    by (rewrite (pool_taken_charge _ _ b) by done; simpl; case_if; lia).
  assert ((i < length (p_buffers (pool_taken p i buf')))%nat) as Hi
    by (simpl; rewrite length_insert; by eapply lookup_lt_Some).
  destruct (negb (p_storage p) && (bf_capacity b <? c)) eqn:Hgrow; bool_to_prop.
  2: { simplify_eq. split_and!; try done; [lia|]. apply (pool_taken_took _ _ b); try done. simpl.
       destruct (p_storage p); [rewrite Hs by done; lia|destruct_or!; [done|lia]]. }
  destruct (pool_taken_release_checked p i b buf' Eb Hb eq_refl eq_refl) as [Hheld Hch'].
  destruct (tr_buffer_budget_reserve _ bud _) as [ret bud1] eqn:Eres.
  assert (p_buffer_size p < 2 ^ 32) by apply (po_size _ Hok).
  apply budget_reserve_spec in Eres as (Hbok1 & Hres); [|done|word_lia].
  destruct Hres as [[-> Hu1]|[Hret Hu1]]; simpl in H.
  - destruct realloc_ok; simpl in H; simplify_eq.
    + assert (pool_set_buffer (pool_taken p i buf') i
        (mk_buffer (bf_data b ++ replicate (Z.to_nat (c - bf_capacity b)) 0) c 0 None true) =
        pool_taken p i (mk_buffer (bf_data b ++ replicate (Z.to_nat (c - bf_capacity b)) 0) c 0 None true))
        as -> by (unfold pool_set_buffer, pool_taken; simpl; by rewrite list_insert_insert_eq).
      split_and!; try done.
      * eapply pool_taken_ok; try done. split_and!; simpl; try lia; [|by intros; congruence].
        unfold alen in *. rewrite length_app, length_replicate. lia.
      * rewrite (pool_taken_charge _ _ b) by done. simpl. rewrite H0. simpl.
        destruct (p_memory_budget p); simpl; lia.
      * apply (pool_taken_took _ _ b); try done; simpl; lia.
    + pose proof (charge_nonneg p Hok) as Hcp.
      destruct (budget_release_spec (p_memory_budget p) bud1 (c - bf_capacity b)) as [? Hu2];
        [done|lia|intros Hm; rewrite Hm in *; lia|].
      split_and!; try done; [by apply pool_release_ok|rewrite Hch'; lia].
  - assert (is_ok ret = false) as E by (apply is_ok_false; destruct Hret; congruence).
    rewrite E in H. simpl in H. simplify_eq.
    split_and!; try (by apply pool_release_ok); try done; try lia;
      intros; destruct Hret; congruence.
Qed.

(** A failing acquire leaves every held descriptor as it is. *)
Lemma pool_acquire_fail p c realloc_ok (bud : B) r p' bud' :
  pool_ok p → b_ok bud → 0 < c → pool_acquire p c realloc_ok bud = (r, p', bud', None) →
  (r = TR_AGAIN ∨ is_error r = true) ∧
  ∀ j b, p_buffers p !! j = Some b → bf_checked_out b = true → p_buffers p' !! j = Some b.
Proof.
  intros Hok Hbok Hc H. unfold pool_acquire in H.
  case_if_in H; [simplify_eq; auto|]. case_if_in H; [simplify_eq; auto|].
  destruct (p_free_list p) as [i|] eqn:Hf; [|simplify_eq; auto].
  destruct (pool_free_head p i Hok Hf) as (b0 & Eb & Hb & Hfc).
  rewrite (pool_lookup_total _ _ _ Eb) in H.
  pose proof (Forall_lookup_1 _ _ _ _ (po_bufs _ Hok) Eb) as (Hd & Hl & Hs).
  assert (∀ buf' j b, bf_checked_out buf' = true → p_buffers p !! j = Some b → bf_checked_out b = true →
    p_buffers (pool_release (pool_taken p i buf') i) !! j = Some b) as Hkeep.
  { intros buf' j b Hout Hj Hbo. assert (i ≠ j) by congruence.
    assert (p_buffers (pool_taken p i buf') !! i = Some buf') as E
      by (simpl; apply list_lookup_insert_eq; by eapply lookup_lt_Some).
    unfold pool_release. rewrite (pool_lookup_total _ _ _ E), Hout. simpl.
    by rewrite !list_lookup_insert_ne by done. }
  case_if_in H; [|by simplify_eq].
  destruct (tr_buffer_budget_reserve _ bud _) as [ret bud1] eqn:Eres.
  assert (p_buffer_size p < 2 ^ 32) by apply (po_size _ Hok).
  apply budget_reserve_spec in Eres as (Hbok1 & Hres); [|done|destruct_and?; bool_to_prop; word_lia].
  case_if_in H.
  - simplify_eq. split; [|intros; by apply Hkeep].
    destruct Hres as [[-> _]|[[->| ->] _]]; auto.
  - case_if_in H; [|by simplify_eq]. simplify_eq. split; [auto|intros; by apply Hkeep].
Qed.

End Acquire.

(** ** The owner's writes *)

(** Rewriting the contents of a descriptor. *)
Lemma pool_set_ok p i b b' : pool_ok p → p_buffers p !! i = Some b → buffer_ok p b' →
  bf_next b' = bf_next b → bf_checked_out b' = bf_checked_out b → bf_capacity b' = bf_capacity b →
  pool_ok (pool_set_buffer p i b') ∧ charge (pool_set_buffer p i b') = charge p.
Proof.
  intros Hok Eb Hb' Hn Ho Hc. split.
  - destruct Hok as [Hcnt Hsz Hbufs (fl & Hch & Hnd & Hlen & Hin) Hfree Hpk].
    split; simpl; try done.
    + unfold alen in *. by rewrite length_insert.
    + by apply Forall_insert.
    + exists fl. split_and!; try done.
      * clear -Eb Hn Hch. revert Hch. generalize (p_free_list p).
        induction fl as [|k fl IH]; intros h; simpl; [done|]. intros (-> & Hk & Hch).
        rewrite length_insert. split_and!; [done|done|].
        destruct (decide (k = i)) as [->|Hne].
        -- rewrite list_lookup_total_insert_eq, Hn by done.
           rewrite (list_lookup_total_correct _ _ _ Eb) in Hch. by apply IH.
        -- rewrite list_lookup_total_insert_ne by done. by apply IH.
      * intros k bk Hk. apply list_lookup_insert_Some in Hk as [(<- & <- & _)|[Hne Hk]].
        -- rewrite Ho. by apply Hin.
        -- by apply Hin.
    + rewrite (zsum_insert _ _ _ b) by done. unfold is_free at 2 3. rewrite Ho. lia.
  - unfold charge. simpl. rewrite (zsum_insert _ _ _ b) by done. rewrite Hc.
    replace (zsum bf_capacity (p_buffers p) - bf_capacity b + bf_capacity b)
      with (zsum bf_capacity (p_buffers p)) by lia. done.
Qed.

(** ** Construction and destruction *)

Lemma chain_app bufs extra head fl : chain bufs head fl → chain (bufs ++ extra) head fl.
Proof.
  revert head. induction fl as [|i fl IH]; intros head; simpl; [done|].
  intros (-> & Hi & Hc). rewrite length_app. split_and!; [done|lia|].
  rewrite lookup_total_app_l by done. by apply IH.
Qed.

Lemma link_buffers_S n mk :
  link_buffers (S n) mk =
  let '(bufs, free_list) := link_buffers n mk in (bufs ++ [mk free_list], Some n).
Proof.
  unfold link_buffers. rewrite seq_S, fold_left_app. simpl.
  by destruct (fold_left _ (seq 0 n) _).
Qed.

(** The construction loop links every descriptor, last one first. *)
Lemma link_buffers_spec n mk : (∀ h, bf_next (mk h) = h) →
  let '(bufs, free_list) := link_buffers n mk in
  length bufs = n ∧ chain bufs free_list (rev (seq 0 n)) ∧ ∀ b, b ∈ bufs → ∃ h, b = mk h.
Proof.
  intros Hmk. induction n as [|n IH].
  { simpl. split_and!; [done..|]. intros b Hb. by apply elem_of_nil in Hb. }
  rewrite link_buffers_S. destruct (link_buffers n mk) as [bufs fl].
  destruct IH as (Hlen & Hch & Hin). rewrite seq_S, rev_app_distr. simpl.
  rewrite length_app. simpl. split_and!; [lia|done|lia| |].
  - rewrite lookup_total_app_r, Hlen, Nat.sub_diag by lia. simpl. rewrite Hmk. by apply chain_app.
  - intros b. rewrite elem_of_app, list_elem_of_singleton. intros [Hb| ->]; eauto.
Qed.

Lemma linked_pool_ok n mk storage count size budgeted bufs fl :
  link_buffers n mk = (bufs, fl) → count = Z.of_nat n →
  0 < count < 2 ^ 32 → 0 < size < 2 ^ 32 →
  (∀ h, bf_next (mk h) = h ∧ bf_checked_out (mk h) = false ∧ bf_len (mk h) = 0 ∧
        alen (bf_data (mk h)) = bf_capacity (mk h) ∧ 0 ≤ bf_capacity (mk h) ≤ size ∧
        (storage = true → bf_capacity (mk h) = size)) →
  pool_ok (mk_pool bufs storage fl count size count 0 0 false budgeted).
Proof.
  intros E -> Hcount Hsize Hmk.
  pose proof (link_buffers_spec n mk (λ h, proj1 (Hmk h))) as Hlink. rewrite E in Hlink.
  destruct Hlink as (Hlen & Hch & Hin).
  assert (Forall (λ b, is_free b = 1) bufs) as Hfree.
  { apply Forall_forall. intros b Hb. destruct (Hin b Hb) as [h ->].
    unfold is_free. by destruct (Hmk h) as (_ & -> & _). }
  assert (zsum is_free bufs = Z.of_nat n) as Hsum.
  { rewrite <- Hlen. clear -Hfree. induction Hfree; simpl; lia. }
  split; simpl; try lia.
  - unfold alen. lia.
  - apply Forall_forall. intros b Hb. destruct (Hin b Hb) as [h ->].
    destruct (Hmk h) as (_ & _ & Hl & Hd & Hc & Hs). split_and!; simpl; try done; lia.
  - exists (rev (seq 0 n)). split_and!; [done| | |].
    + apply NoDup_ListNoDup, NoDup_rev, seq_NoDup.
    + by rewrite length_rev, length_seq.
    + intros i b Hb. pose proof (lookup_lt_Some _ _ _ Hb) as Hi.
      apply list_elem_of_lookup_2 in Hb. destruct (Hin b Hb) as [h ->].
      destruct (Hmk h) as (_ & -> & _). split; [intros _|done].
      apply list_elem_of_In, in_rev. rewrite rev_involutive. apply in_seq. lia.
Qed.

Section Lifecycle.
Context {B : Type} `{!Budget B}.

(** A construction that succeeds. *)
Inductive pool_created (bud : B) : tr_buffer_pool → B → Prop :=
| created_fixed pool count size budgeted env p bud' : u32_ok count → u32_ok size →
    tr_buffer_pool_init_budgeted pool count size budgeted env bud = (TR_OK, Some p, bud') →
    pool_created bud p bud'
| created_dynamic pool count size budgeted env p bud' : u32_ok count → u32_ok size →
    tr_buffer_pool_init_dynamic_budgeted pool count size budgeted env bud = (TR_OK, Some p, bud') →
    pool_created bud p bud'.

Lemma zsum_link_zero n bufs fl : link_buffers n (λ next, mk_buffer [] 0 0 next false) = (bufs, fl) →
  zsum bf_capacity bufs = 0.
Proof.
  intros E. pose proof (link_buffers_spec n (λ next, mk_buffer [] 0 0 next false) (λ _, eq_refl)) as H.
  rewrite E in H. destruct H as (_ & _ & Hin). apply zsum_zero.
  intros b Hb. by destruct (Hin b Hb) as [h ->].
Qed.

Lemma linked_not_held n mk storage fl count size budgeted bufs i :
  (∀ h, bf_next (mk h) = h) → (∀ h, bf_checked_out (mk h) = false) → link_buffers n mk = (bufs, fl) →
  ¬ held (mk_pool bufs storage fl count size count 0 0 false budgeted) i.
Proof.
  intros Hn Hmk E (b & Hb & Hout). simpl in Hb.
  pose proof (link_buffers_spec n mk Hn) as H. rewrite E in H. destruct H as (_ & _ & Hin).
  apply list_elem_of_lookup_2, Hin in Hb as [h ->]. by rewrite Hmk in Hout.
Qed.

Lemma reserve_or_fail budgeted (bud : B) n ret bud' : b_ok bud → u64_ok n →
  tr_buffer_budget_reserve budgeted bud n = (ret, bud') → is_ok ret = true →
  b_ok bud' ∧ b_used bud' = b_used bud + (if budgeted then n else 0).
Proof.
  intros Hok Hn E Hret. apply is_ok_true in Hret as ->.
  apply budget_reserve_spec in E as [? [[_ ?]|[[|] ?]]]; done.
Qed.

Lemma product_u64 a b : u32_ok a → u32_ok b → u64_ok (a * b).
Proof.
  intros Ha Hb. unfold u32_ok, u64_ok in *. split; [nia|].
  replace (2 ^ 64) with (2 ^ 32 * 2 ^ 32) by reflexivity.
  apply Z.mul_lt_mono_nonneg; lia.
Qed.

Lemma pool_created_ok (bud bud' : B) p : b_ok bud → pool_created bud p bud' →
  pool_ok p ∧ b_ok bud' ∧ b_used bud' = b_used bud + charge p ∧ (∀ i, ¬ held p i).
Proof.
  intros Hok [pool count size budgeted env p' bud1 Hc Hs E|pool count size budgeted env p' bud1 Hc Hs E].
  - unfold tr_buffer_pool_init_budgeted in E. case_if_in E; [done|]. case_if_in E; [done|].
    destruct (tr_buffer_budget_reserve _ bud _) as [r1 b1] eqn:E1.
    destruct (is_ok r1) eqn:Hr1; simpl in E; [|apply is_ok_false in Hr1; congruence].
    destruct (tr_buffer_budget_reserve _ b1 _) as [r2 b2] eqn:E2.
    destruct (is_ok r2) eqn:Hr2; simpl in E; [|apply is_ok_false in Hr2; congruence].
    case_if_in E; [done|]. case_if_in E; [done|]. case_if_in E; [done|].
    destruct (link_buffers _ _) as [bufs fl] eqn:El. injection E as <- <-.
    apply reserve_or_fail in E1 as [Hb1 Hu1]; [|done|auto with trpc|done].
    apply reserve_or_fail in E2 as [Hb2 Hu2]; [|done|auto with trpc|done].
    pose proof (product_u64 count size Hc Hs).
    pose proof (product_u64 count sizeof_tr_buffer Hc ltac:(unfold sizeof_tr_buffer; word_lia)).
    rewrite !u64_small in * by done.
    split_and!; [eapply linked_pool_ok; try exact El; try (unfold u32_ok in *; lia)|done| |].
    + intros h. simpl. split_and!; try done; try (unfold u32_ok in *; lia).
      unfold alen. rewrite length_replicate. unfold u32_ok in *; lia.
    + unfold charge. simpl. destruct budgeted; lia.
    + intros i. eapply linked_not_held; [| |exact El]; done.
  - unfold tr_buffer_pool_init_dynamic_budgeted in E. case_if_in E; [done|].
    destruct (tr_buffer_budget_reserve _ bud _) as [r1 b1] eqn:E1.
    destruct (is_ok r1) eqn:Hr1; simpl in E; [|apply is_ok_false in Hr1; congruence].
    case_if_in E; [done|]. case_if_in E; [done|].
    destruct (link_buffers _ _) as [bufs fl] eqn:El. injection E as <- <-.
    apply reserve_or_fail in E1 as [Hb1 Hu1]; [|done|auto with trpc|done].
    pose proof (product_u64 count sizeof_tr_buffer Hc ltac:(unfold sizeof_tr_buffer; word_lia)).
    rewrite !u64_small in * by done.
    split_and!; [eapply linked_pool_ok; try exact El; try (unfold u32_ok in *; lia)|done| |].
    + intros h. simpl. split_and!; try done; unfold u32_ok in *; lia.
    + unfold charge. simpl. rewrite (zsum_link_zero _ _ _ El). destruct budgeted; lia.
    + intros i. eapply linked_not_held; [| |exact El]; done.
Qed.

(** Giving back the capacities of all descriptors. *)
Lemma release_capacities_spec budgeted bufs (bud : B) : b_ok bud →
  Forall (λ b, 0 ≤ bf_capacity b) bufs → (budgeted = true → zsum bf_capacity bufs ≤ b_used bud) →
  b_ok (release_capacities budgeted bufs bud) ∧
  b_used (release_capacities budgeted bufs bud) =
    b_used bud - (if budgeted then zsum bf_capacity bufs else 0).
Proof.
  intros Hok Hpos. revert bud Hok. unfold release_capacities.
  induction Hpos as [|b bufs Hb Hpos IH]; intros bud Hok Hle; simpl in *.
  { split; [done|]. destruct budgeted; lia. }
  assert (0 ≤ zsum bf_capacity bufs).
  { apply zsum_nonneg. intros x Hx. rewrite Forall_forall in Hpos. auto. }
  destruct (budget_release_spec budgeted bud (bf_capacity b)) as [Hok1 Hu1]; [done..| |].
  { intros Hb'. specialize (Hle Hb'). lia. }
  destruct (IH _ Hok1) as [Hok2 Hu2].
  { intros Hb'. specialize (Hle Hb'). rewrite Hu1. rewrite Hb'. lia. }
  split; [done|]. rewrite Hu2, Hu1. destruct budgeted; lia.
Qed.

(** Destruction: refused while a buffer is held, and then only closing the pool;
    otherwise the budget gets back exactly what the pool had charged. *)
Lemma pool_destroy_spec p (bud : B) base : pool_ok p → b_ok bud → 0 ≤ base →
  b_used bud = base + charge p →
  ∃ st p' bud', tr_buffer_pool_destroy (Some p) bud = (st, Some p', bud') ∧ p_closed p' = true ∧
    ((∃ i, held p i) ∧ st = TR_ERR_STATE ∧ bud' = bud ∧ p_buffers p' = p_buffers p ∨
     (∀ i, ¬ held p i) ∧ st = TR_OK ∧ b_ok bud' ∧ b_used bud' = base).
Proof.
  intros Hok Hbok Hbase Hused. pose proof (charge_nonneg p Hok) as Hcn.
  destruct Hok as [[Hlen Hcnt] Hsize Hbufs _ Hfree _].
  assert (existsb bf_checked_out (p_buffers p) = true ↔ ∃ i, held p i) as Hex.
  { rewrite existsb_exists. split.
    - intros (b & Hb & Hout). apply list_elem_of_In, list_elem_of_lookup in Hb as [i Hi].
      exists i, b. done.
    - intros (i & b & Hb & Hout). exists b. split; [|done].
      apply list_elem_of_In. by eapply list_elem_of_lookup_2. }
  unfold tr_buffer_pool_destroy.
  case_if. { rewrite H in Hlen. unfold alen in Hlen. simpl in Hlen. lia. }
  case_if.
  { eexists _, _, _. split; [reflexivity|]. split; [done|]. left. split_and!; try done.
    apply Hex. destruct (existsb bf_checked_out (p_buffers p)) eqn:E; [done|].
    apply all_free_iff in E. lia. }
  case_if. { eexists _, _, _. split; [reflexivity|]. split; [done|]. left. by split; [apply Hex|]. }
  eexists _, _, _. split; [reflexivity|]. split; [done|]. right.
  split; [intros i Hi; assert (false = true) by (apply Hex; eauto); done|].
  split; [done|].
  assert (u32_ok (p_buffer_count p)) as Hc32 by (unfold u32_ok; lia).
  assert (u32_ok (p_buffer_size p)) as Hs32 by (unfold u32_ok; lia).
  pose proof (product_u64 _ _ Hc32 Hs32) as Hp1.
  pose proof (product_u64 (p_buffer_count p) sizeof_tr_buffer Hc32 ltac:(unfold sizeof_tr_buffer; word_lia)) as Hp2.
  rewrite !u64_small by done. unfold u64_ok in Hp1, Hp2.
  assert (0 ≤ zsum bf_capacity (p_buffers p)) as Hz.
  { apply zsum_nonneg. intros b Hb. rewrite Forall_forall in Hbufs.
    destruct (Hbufs b Hb) as (_ & ? & _). lia. }
  unfold charge in Hused. destruct (p_storage p); simpl.
  - destruct (budget_release_spec (p_memory_budget p) bud (p_buffer_count p * p_buffer_size p))
      as [Ho1 Hu1]; [done|lia|intros Hm; rewrite Hm in Hused; lia|].
    destruct (budget_release_spec (p_memory_budget p)
      (tr_buffer_budget_release (p_memory_budget p) bud (p_buffer_count p * p_buffer_size p))
      (p_buffer_count p * sizeof_tr_buffer)) as [Ho2 Hu2];
      [done|lia|intros Hm; rewrite Hm in *; lia|].
    split; [done|]. rewrite Hu2, Hu1. destruct (p_memory_budget p); lia.
  - destruct (release_capacities_spec (p_memory_budget p) (p_buffers p) bud) as [Ho0 Hu0]; [done| | |].
    { eapply Forall_impl; [done|]. intros b (_ & ? & _). simpl. lia. }
    { intros Hm; rewrite Hm in Hused; lia. }
    destruct (budget_release_spec (p_memory_budget p)
      (release_capacities (p_memory_budget p) (p_buffers p) bud) 0) as [Ho1 Hu1]; [done|lia| |].
    { intros Hm. rewrite Hu0, Hm. rewrite Hm in Hused. lia. }
    destruct (budget_release_spec (p_memory_budget p)
      (tr_buffer_budget_release (p_memory_budget p)
        (release_capacities (p_memory_budget p) (p_buffers p) bud) 0)
      (p_buffer_count p * sizeof_tr_buffer)) as [Ho2 Hu2]; [done|lia| |].
    { intros Hm. rewrite Hu1, Hu0, Hm. rewrite Hm in Hused. lia. }
    split; [done|]. rewrite Hu2, Hu1, Hu0. destruct (p_memory_budget p); lia.
Qed.

End Lifecycle.

(** * Theorems *)

Section Theorems.
Context {B : Type} `{!Budget B}.

(** The calls between construction and destruction. *)
Inductive pool_op :=
| Op_acquire (min_capacity : Z) (realloc_ok : bool)
| Op_release (i : nat).

Definition exec_op (s : tr_buffer_pool * B) (op : pool_op) : tr_buffer_pool * B :=
  match op with
  | Op_acquire c realloc_ok =>
      let '(_, p, bud, _) := tr_buffer_acquire (Some s.1) c true realloc_ok s.2 in
      (default s.1 p, bud)
  | Op_release i => ((tr_buffer_release s.1 (Some (Pooled i))).1, s.2)
  end.

(** A released descriptor belongs to the pool. *)
Definition op_in_pool (count : Z) (op : pool_op) : Prop :=
  match op with
  | Op_acquire c _ => 0 ≤ c
  | Op_release i => Z.of_nat i < count
  end.

Lemma pool_release_count p i : p_buffer_count (pool_release p i) = p_buffer_count p.
Proof. unfold pool_release. by case_if. Qed.

Lemma pool_acquire_count p c ok (bud : B) r p' bud' o :
  pool_acquire p c ok bud = (r, p', bud', o) → p_buffer_count p' = p_buffer_count p.
Proof.
  unfold pool_acquire. intros H. case_if_in H; [by simplify_eq|]. case_if_in H; [by simplify_eq|].
  destruct (p_free_list p); [|by simplify_eq]. case_if_in H; [|by simplify_eq].
  destruct (tr_buffer_budget_reserve _ _ _). case_ifs_in H; by rewrite ?pool_release_count.
Qed.

Lemma exec_op_inv (p p' : tr_buffer_pool) (bud bud' : B) base op :
  pool_ok p → b_ok bud → 0 ≤ base → b_used bud = base + charge p →
  op_in_pool (p_buffer_count p) op → exec_op (p, bud) op = (p', bud') →
  pool_ok p' ∧ b_ok bud' ∧ b_used bud' = base + charge p' ∧ p_buffer_count p' = p_buffer_count p.
Proof.
  intros Hok Hb Hbase Hu Hop H. destruct op as [c ok|i]; simpl in *.
  - case_if_in H; [by simplify_eq|].
    destruct (pool_acquire p c ok bud) as [[[r p1] b1] o] eqn:E. simplify_eq/=.
    pose proof (pool_acquire_count _ _ _ _ _ _ _ _ E) as Hc.
    apply (pool_acquire_spec _ _ _ _ base) in E; [|done..|lia].
    destruct E as (? & ? & ? & _). done.
  - simplify_eq. assert ((i < length (p_buffers p))%nat) as Hi.
    { pose proof (po_count _ Hok) as [Hlen _]. unfold alen in Hlen. lia. }
    split_and!; [by apply pool_release_ok|done|by rewrite pool_release_charge|apply pool_release_count].
Qed.

Lemma exec_ops_inv ops (p p' : tr_buffer_pool) (bud bud' : B) base :
  pool_ok p → b_ok bud → 0 ≤ base → b_used bud = base + charge p →
  Forall (op_in_pool (p_buffer_count p)) ops → fold_left exec_op ops (p, bud) = (p', bud') →
  pool_ok p' ∧ b_ok bud' ∧ b_used bud' = base + charge p'.
Proof.
  revert p bud. induction ops as [|op ops IH]; intros p bud Hok Hb Hbase Hu Hops H.
  { simpl in H. by simplify_eq. }
  apply Forall_cons in Hops as [Hop Hops]. cbn [fold_left] in H.
  destruct (exec_op (p, bud) op) as [p1 b1] eqn:E.
  apply (exec_op_inv _ _ _ _ base) in E as (? & ? & ? & Hc); try done.
  eapply IH; eauto. by rewrite Hc.
Qed.

(** C23: A pool from construction to destruction, whatever is acquired and released in
    between (double releases included): the budget holds exactly the pool's charge at
    every moment; destruction is refused exactly while some buffer is held, closing the
    pool and touching nothing else; and when it succeeds the budget is back where it was
    before the pool existed. *)
Theorem pool_lifecycle_accounting (bud0 bud1 bud : B) (p1 p : tr_buffer_pool) (ops : list pool_op)
    (Hbud : b_ok bud0) (Hcreated : pool_created bud0 p1 bud1)
    (Hops : Forall (op_in_pool (p_buffer_count p1)) ops)
    (Hrun : fold_left exec_op ops (p1, bud1) = (p, bud)) :
  pool_ok p ∧ b_used bud = b_used bud0 + charge p ∧
  ∃ st p' bud', tr_buffer_pool_destroy (Some p) bud = (st, Some p', bud') ∧ p_closed p' = true ∧
    ((∃ i, held p i) ∧ st = TR_ERR_STATE ∧ bud' = bud ∧ p_buffers p' = p_buffers p ∨
     (∀ i, ¬ held p i) ∧ st = TR_OK ∧ b_ok bud' ∧ b_used bud' = b_used bud0).
Proof.
  destruct (pool_created_ok _ _ _ Hbud Hcreated) as (Hok1 & Hb1 & Hu1 & _).
  pose proof (b_used_nonneg _ Hbud) as H0.
  destruct (exec_ops_inv ops p1 p bud1 bud (b_used bud0)) as (Hok & Hb & Hu); try done.
  split_and!; [done|done|]. by apply pool_destroy_spec.
Qed.

(** Acquiring from a well-formed pool: success hands out a descriptor nobody held, now
    held, empty and large enough, and changes no other descriptor; failure changes who
    holds what in no way; a closed pool hands out nothing. *)
Theorem pool_acquire_exclusive (p : tr_buffer_pool) (c : Z) (realloc_ok : bool) (bud : B)
    (Hok : pool_ok p) (Hb : b_ok bud) (Hu : charge p ≤ b_used bud) (Hc : 0 < c) :
  ∃ r p' bud' o, tr_buffer_acquire (Some p) c true realloc_ok bud = (r, Some p', bud', o) ∧
    pool_ok p' ∧ b_used bud' - b_used bud = charge p' - charge p ∧
    (r = TR_OK ↔ is_Some o) ∧
    (p_closed p = true → r = TR_ERR_CLOSED ∧ p' = p) ∧
    match o with
    | Some i => took p p' i c
    | None => ∀ j, held p' j ↔ held p j
    end.
Proof.
  unfold tr_buffer_acquire. case_if; [simpl in *; lia|].
  destruct (pool_acquire p c realloc_ok bud) as [[[r p'] bud'] o] eqn:E.
  exists r, p', bud', o. split; [done|].
  assert (p_closed p = true → r = TR_ERR_CLOSED ∧ p' = p) as Hcl.
  { intros Hcl. unfold pool_acquire in E. rewrite Hcl in E. by simplify_eq. }
  apply (pool_acquire_spec _ _ _ _ (b_used bud - charge p)) in E as (Hok' & Hb' & Hu' & Ho); try done; try lia.
  split; [done|]. split; [lia|]. split; [|split; [done|destruct o as [i|]; apply Ho]].
  destruct o as [i|]; [destruct Ho as (-> & _); by split|].
  destruct Ho as (Hr & _). split; [done|by intros []].
Qed.

End Theorems.

Definition demo_budget : budget_ref :=
  mk_budget_ref (tr_memory_budget_init 4096) (Some (tr_memory_budget_init 8192)).

Definition demo_env : init_env := {| calloc_ok := true; malloc_ok := true; mutex_ok := true |}.

Definition demo_pool : tr_buffer_pool * budget_ref :=
  match tr_buffer_pool_init_dynamic_budgeted (Some zero_pool) 2 512 true demo_env demo_budget with
  | (_, Some p, bud) => (p, bud)
  | (_, None, bud) => (zero_pool, bud)
  end.

Lemma demo_budget_ok : b_ok demo_budget.
Proof. repeat split; simpl; unfold u64_ok; lia. Qed.

Definition demo_ops : list pool_op :=
  [Op_acquire 100 true; Op_acquire 50 true; Op_acquire 1 true; Op_release 1; Op_release 1;
   Op_acquire 300 true; Op_release 0; Op_release 1].

Lemma pool_lifecycle_accounting_witness :
  let s := fold_left exec_op demo_ops demo_pool in
  b_used s.2 = 0 + charge s.1 ∧ charge s.1 = 446 ∧
  (tr_buffer_pool_destroy (Some s.1) s.2).1.1 = TR_OK.
Proof.
  intros s. split; [|split; vm_compute; reflexivity].
  destruct (pool_lifecycle_accounting demo_budget demo_pool.2 s.2 demo_pool.1 s.1 demo_ops)
    as (_ & H & _).
  - exact demo_budget_ok.
  - apply (created_dynamic _ (Some zero_pool) 2 512 true demo_env);
      [unfold u32_ok; lia|unfold u32_ok; lia|vm_compute; reflexivity].
  - repeat constructor; simpl; vm_compute; (reflexivity || discriminate).
  - vm_compute. reflexivity.
  - exact H.
Defined.

Lemma pool_acquire_exclusive_witness :
  ∃ r p' bud' o, tr_buffer_acquire (Some demo_pool.1) 7 true true demo_pool.2 = (r, Some p', bud', o) ∧
    took demo_pool.1 p' 1 7.
Proof.
  destruct (pool_created_ok demo_budget demo_pool.2 demo_pool.1 demo_budget_ok) as (Hok & Hb & Hu & _).
  { apply (created_dynamic _ (Some zero_pool) 2 512 true demo_env);
      [unfold u32_ok; lia|unfold u32_ok; lia|vm_compute; reflexivity]. }
  destruct (pool_acquire_exclusive demo_pool.1 7 true demo_pool.2 Hok Hb) as (r & p' & bud' & o & H & _ & _ & _ & _ & Ho).
  - rewrite Hu. vm_compute. discriminate.
  - lia.
  - exists r, p', bud', o. split; [exact H|].
    assert (o = Some 1%nat) as -> by (revert H; vm_compute; congruence). exact Ho.
Defined.
