(* ===== verification/TimerQueue.v ===== *)
(** Timer queue: [src/execution/timer_queue.{h,c}].

    A bounded array of timer slots, a binary min-heap of slot numbers ordered by
    (deadline, slot), and a free list threaded through the unused slots.  A slot's
    [heap_pos]/[next_free] union is the one field [te_link].  A timer callback may
    call back into the queue: it is a program ([timer_prog]) of queue operations
    that ends in the value it returns. *)
From Stdlib Require Import Sorting.Sorted.
From S2P Require Import Prelude Status.

(** * Data *)

Definition TR_TIMER_HEAP_NONE : Z := UINT32_MAX.

Record tr_timer_token := mk_token { tk_slot : Z; tk_generation : Z }.

Record tr_timer_entry := mk_entry {
  te_generation : Z;
  te_link : Z;
  te_deadline_ns : Z;
  te_version : Z;
  (** the callback's address, 0 for NULL *)
  te_callback : Z;
  te_arg : Z;
  te_used : bool;
  te_running : bool
}.

#[export] Instance tr_timer_entry_inhabited : Inhabited tr_timer_entry :=
  populate (mk_entry 0 0 0 0 0 0 false false).

Record tr_timer_queue := mk_tq {
  tq_entries : list tr_timer_entry;
  tq_heap : list Z;
  tq_capacity : Z;
  tq_size : Z;
  tq_free_head : Z
}.

Definition zero_tq : tr_timer_queue := mk_tq [] [] 0 0 0.

(** The entry of a slot and the slot at a heap position. *)
Definition en (q : tr_timer_queue) (s : Z) : tr_timer_entry := (tq_entries q).[s].
Definition hp (q : tr_timer_queue) (i : Z) : Z := (tq_heap q).[i].

Definition set_link (e : tr_timer_entry) (l : Z) : tr_timer_entry :=
  mk_entry (te_generation e) l (te_deadline_ns e) (te_version e) (te_callback e) (te_arg e)
    (te_used e) (te_running e).
Definition set_deadline (e : tr_timer_entry) (d : Z) : tr_timer_entry :=
  mk_entry (te_generation e) (te_link e) d (te_version e) (te_callback e) (te_arg e)
    (te_used e) (te_running e).
Definition set_version (e : tr_timer_entry) (v : Z) : tr_timer_entry :=
  mk_entry (te_generation e) (te_link e) (te_deadline_ns e) v (te_callback e) (te_arg e)
    (te_used e) (te_running e).
Definition set_running (e : tr_timer_entry) (r : bool) : tr_timer_entry :=
  mk_entry (te_generation e) (te_link e) (te_deadline_ns e) (te_version e) (te_callback e) (te_arg e)
    (te_used e) r.

Definition set_entry (q : tr_timer_queue) (s : Z) (e : tr_timer_entry) : tr_timer_queue :=
  mk_tq ((tq_entries q).[s <- e]) (tq_heap q) (tq_capacity q) (tq_size q) (tq_free_head q).
Definition set_heap (q : tr_timer_queue) (i s : Z) : tr_timer_queue :=
  mk_tq (tq_entries q) ((tq_heap q).[i <- s]) (tq_capacity q) (tq_size q) (tq_free_head q).
Definition set_size (q : tr_timer_queue) (n : Z) : tr_timer_queue :=
  mk_tq (tq_entries q) (tq_heap q) (tq_capacity q) n (tq_free_head q).
Definition set_free_head (q : tr_timer_queue) (h : Z) : tr_timer_queue :=
  mk_tq (tq_entries q) (tq_heap q) (tq_capacity q) (tq_size q) h.

(** * The heap *)

Definition tr_timer_token_valid (q : tr_timer_queue) (token : tr_timer_token) : bool :=
  bail false when (tk_slot token >=? tq_capacity q) ;;
  let entry := en q (tk_slot token) in
  bail false when (negb (te_used entry) || negb (te_generation entry =? tk_generation token)) ;;
  true.

Definition tr_timer_before (q : tr_timer_queue) (a_slot b_slot : Z) : bool :=
  let a := en q a_slot in
  let b := en q b_slot in
  bail (te_deadline_ns a <? te_deadline_ns b) when
    (negb (te_deadline_ns a =? te_deadline_ns b)) ;;
  a_slot <? b_slot.

Definition tr_timer_heap_swap (q : tr_timer_queue) (a b : Z) : tr_timer_queue :=
  let tmp := hp q a in
  let q := set_heap q a (hp q b) in
  let q := set_heap q b tmp in
  let q := set_entry q (hp q a) (set_link (en q (hp q a)) a) in
  set_entry q (hp q b) (set_link (en q (hp q b)) b).

(** The loops carry fuel; [fuel] iterations are more than the depth of the heap. *)
Fixpoint heap_up_loop (fuel : nat) (q : tr_timer_queue) (pos : Z) : tr_timer_queue :=
  match fuel with
  | O => q
  | S fuel =>
      bail q when (pos =? 0) ;;
      let parent := (pos - 1) / 2 in
      bail q when (negb (tr_timer_before q (hp q pos) (hp q parent))) ;;
      heap_up_loop fuel (tr_timer_heap_swap q pos parent) parent
  end.

Definition tr_timer_heap_up (q : tr_timer_queue) (pos : Z) : tr_timer_queue :=
  heap_up_loop (S (Z.to_nat pos)) q pos.

(** The child the element at [pos] sinks to, or [pos] itself. *)
Definition heap_best (q : tr_timer_queue) (pos : Z) : Z :=
  let left := u32 (pos * 2 + 1) in
  let right := u32 (left + 1) in
  let best := pos in
  let best :=
    if (left <? tq_size q) && tr_timer_before q (hp q left) (hp q best) then left else best in
  if (right <? tq_size q) && tr_timer_before q (hp q right) (hp q best) then right else best.

Fixpoint heap_down_loop (fuel : nat) (q : tr_timer_queue) (pos : Z) : tr_timer_queue :=
  match fuel with
  | O => q
  | S fuel =>
      let best := heap_best q pos in
      bail q when (best =? pos) ;;
      heap_down_loop fuel (tr_timer_heap_swap q pos best) best
  end.

Definition tr_timer_heap_down (q : tr_timer_queue) (pos : Z) : tr_timer_queue :=
  heap_down_loop (S (Z.to_nat (tq_size q))) q pos.

Definition tr_timer_heap_remove (q : tr_timer_queue) (pos : Z) : tr_timer_queue :=
  bail q when (pos >=? tq_size q) ;;
  let removed_slot := hp q pos in
  let q := set_size q (tq_size q - 1) in
  let q :=
    if negb (pos =? tq_size q) then
      let last_slot := hp q (tq_size q) in
      let q := set_heap q pos last_slot in
      let q := set_entry q last_slot (set_link (en q last_slot) pos) in
      let q := tr_timer_heap_up q pos in
      let pos := te_link (en q last_slot) in
      tr_timer_heap_down q pos
    else q in
  set_entry q removed_slot (set_link (en q removed_slot) TR_TIMER_HEAP_NONE).

(** * The queue *)

Definition tr_timer_queue_init (queue : option tr_timer_queue) (capacity : Z) (alloc_ok : bool)
    : tr_status * option tr_timer_queue :=
  bail (TR_ERR_INVALID, queue) when (negb (bool_decide (is_Some queue)) || (capacity =? 0)) ;;
  bail (TR_ERR_NOMEM, Some zero_tq) when (negb alloc_ok) ;;
  let entries :=
    map (λ i, mk_entry 0 (if i + 1 <? capacity then i + 1 else TR_TIMER_HEAP_NONE) 0 0 0 0 false false)
      (map Z.of_nat (seq 0 (Z.to_nat capacity))) in
  (TR_OK, Some (mk_tq entries (replicate (Z.to_nat capacity) 0) capacity 0 0)).

Definition tr_timer_queue_destroy (queue : option tr_timer_queue) : option tr_timer_queue :=
  match queue with None => None | Some _ => Some zero_tq end.

Definition tq_register (q : tr_timer_queue) (callback arg : Z)
    : tr_status * tr_timer_queue * option tr_timer_token :=
  bail (TR_AGAIN, q, None) when
    ((tq_capacity q =? 0) || (tq_free_head q =? TR_TIMER_HEAP_NONE)) ;;
  let slot := tq_free_head q in
  let entry := en q slot in
  let q := set_free_head q (te_link entry) in
  let generation := u32 (te_generation entry + 1) in
  let generation := if generation =? 0 then 1 else generation in
  let q := set_entry q slot (mk_entry generation TR_TIMER_HEAP_NONE 0 1 callback arg true false) in
  (TR_OK, q, Some (mk_token slot generation)).

Definition tr_timer_queue_register (queue : option tr_timer_queue) (callback arg : Z) (out : bool)
    : tr_status * option tr_timer_queue * option tr_timer_token :=
  match queue with
  | Some q =>
      bail (TR_ERR_INVALID, Some q, None) when ((callback =? 0) || negb out) ;;
      let '(ret, q, token) := tq_register q callback arg in (ret, Some q, token)
  | None => (TR_ERR_INVALID, None, None)
  end.

Definition tq_arm (q : tr_timer_queue) (token : tr_timer_token) (deadline_ns : Z)
    : tr_status * tr_timer_queue :=
  bail (TR_ERR_STALE, q) when (negb (tr_timer_token_valid q token)) ;;
  let slot := tk_slot token in
  let entry := en q slot in
  let old_deadline := te_deadline_ns entry in
  let version := u64 (te_version entry + 1) in
  let version := if version =? 0 then 1 else version in
  let q := set_entry q slot (set_version (set_deadline entry deadline_ns) version) in
  let heap_pos := te_link entry in
  if deadline_ns =? 0 then
    (TR_OK, if negb (heap_pos =? TR_TIMER_HEAP_NONE) then tr_timer_heap_remove q heap_pos else q)
  else if heap_pos =? TR_TIMER_HEAP_NONE then
    bail (TR_AGAIN, q) when (tq_size q =? tq_capacity q) ;;
    let pos := tq_size q in
    let q := set_size q (tq_size q + 1) in
    let q := set_heap q pos slot in
    let q := set_entry q slot (set_link (en q slot) pos) in
    (TR_OK, tr_timer_heap_up q pos)
  else
    let pos := heap_pos in
    (TR_OK,
     if (old_deadline =? 0) || (deadline_ns <? old_deadline) then tr_timer_heap_up q pos
     else if deadline_ns >? old_deadline then tr_timer_heap_down q pos
     else q).

Definition tr_timer_queue_arm (queue : option tr_timer_queue) (token : tr_timer_token)
    (deadline_ns : Z) : tr_status * option tr_timer_queue :=
  match queue with
  | Some q => let '(ret, q) := tq_arm q token deadline_ns in (ret, Some q)
  | None => (TR_ERR_STALE, None)
  end.

Definition tq_unregister (q : tr_timer_queue) (token : tr_timer_token)
    : tr_status * tr_timer_queue :=
  bail (TR_ERR_STALE, q) when (negb (tr_timer_token_valid q token)) ;;
  let slot := tk_slot token in
  let heap_pos := te_link (en q slot) in
  let q := if negb (heap_pos =? TR_TIMER_HEAP_NONE) then tr_timer_heap_remove q heap_pos else q in
  let entry := en q slot in
  let q := set_entry q slot
    (mk_entry (te_generation entry) (tq_free_head q) 0 (u64 (te_version entry + 1)) 0 0 false false) in
  (TR_OK, set_free_head q slot).

Definition tr_timer_queue_unregister (queue : option tr_timer_queue) (token : tr_timer_token)
    : tr_status * option tr_timer_queue :=
  match queue with
  | Some q => let '(ret, q) := tq_unregister q token in (ret, Some q)
  | None => (TR_ERR_STALE, None)
  end.

Definition tq_next_deadline (q : tr_timer_queue) : Z :=
  bail 0 when (tq_size q =? 0) ;;
  te_deadline_ns (en q (hp q 0)).

Definition tr_timer_queue_next_deadline (queue : option tr_timer_queue) : Z :=
  match queue with None => 0 | Some q => tq_next_deadline q end.

(** * Running due timers *)

(** What a callback does: queue operations, each followed by a program that depends on
    its result, and finally the value it returns. *)
Inductive timer_prog :=
| P_return (next_ns : Z)
| P_register (callback arg : Z) (k : tr_status * option tr_timer_token → timer_prog)
| P_arm (token : tr_timer_token) (deadline_ns : Z) (k : tr_status → timer_prog)
| P_unregister (token : tr_timer_token) (k : tr_status → timer_prog)
| P_next_deadline (k : Z → timer_prog).

Fixpoint run_prog (prog : timer_prog) (q : tr_timer_queue) : tr_timer_queue * Z :=
  match prog with
  | P_return next_ns => (q, next_ns)
  | P_register callback arg k =>
      match tr_timer_queue_register (Some q) callback arg true with
      | (ret, q', token) => run_prog (k (ret, token)) (default q q')
      end
  | P_arm token deadline_ns k =>
      match tr_timer_queue_arm (Some q) token deadline_ns with
      | (ret, q') => run_prog (k ret) (default q q')
      end
  | P_unregister token k =>
      match tr_timer_queue_unregister (Some q) token with
      | (ret, q') => run_prog (k ret) (default q q')
      end
  | P_next_deadline k => run_prog (k (tr_timer_queue_next_deadline (Some q))) q
  end.

Section RunDue.
(** The program at a callback's address, given its argument and the current time. *)
Variable callbacks : Z → Z → Z → timer_prog.

(** One iteration of the loop, on the head of the heap: the queue after it and the slot
    and deadline that fired. *)
Definition fire_head (q : tr_timer_queue) (now_ns : Z) : tr_timer_queue * (Z * Z) :=
  let slot := hp q 0 in
  let entry := en q slot in
  let generation := te_generation entry in
  let version := te_version entry in
  let callback := te_callback entry in
  let token := mk_token slot generation in
  let fired := (slot, te_deadline_ns entry) in
  let q := tr_timer_heap_remove q 0 in
  let q := set_entry q slot (set_running (set_deadline (en q slot) 0) true) in
  let '(q, next_ns) :=
    if negb (callback =? 0) then run_prog (callbacks callback (te_arg (en q slot)) now_ns) q
    else (q, 0) in
  let entry := en q slot in
  if te_used entry && (te_generation entry =? generation) then
    let q := set_entry q slot (set_running entry false) in
    if (te_version entry =? version) && negb (next_ns =? 0)
    then ((tq_arm q token next_ns).2, fired) else (q, fired)
  else (q, fired).

(** The loop; [budget] is the number of callbacks still allowed. *)
Fixpoint run_due_loop (budget : nat) (q : tr_timer_queue) (now_ns : Z) (fired : list (Z * Z))
    : tr_timer_queue * list (Z * Z) :=
  match budget with
  | O => (q, fired)
  | S budget =>
      bail (q, fired) when (tq_size q =? 0) ;;
      bail (q, fired) when (te_deadline_ns (en q (hp q 0)) >? now_ns) ;;
      let '(q, f) := fire_head q now_ns in
      run_due_loop budget q now_ns (fired ++ [f])
  end.

(** The queue, the slots fired with the deadlines they fired for, and [has_more_due]. *)
Definition tr_timer_queue_run_due (queue : option tr_timer_queue) (now_ns : Z) (max_callbacks : nat)
    : option tr_timer_queue * list (Z * Z) * bool :=
  match queue with
  | None => (None, [], false)
  | Some q =>
      let '(q, fired) := run_due_loop max_callbacks q now_ns [] in
      let more := negb (tq_size q =? 0) && (te_deadline_ns (en q (hp q 0)) <=? now_ns) in
      (Some q, fired, more)
  end.

End RunDue.

(** * Heap order *)

Definition dl (q : tr_timer_queue) (s : Z) : Z := te_deadline_ns (en q s).

(** The total order the heap keeps: by deadline, then by slot. *)
Definition kle (q : tr_timer_queue) (s t : Z) : Prop := dl q s < dl q t ∨ dl q s = dl q t ∧ s ≤ t.

Lemma before_true q a b : tr_timer_before q a b = true → kle q a b.
Proof. unfold tr_timer_before, kle, dl. case_if; intros; bool_to_prop; lia. Qed.

Lemma before_false q a b : tr_timer_before q a b = false → kle q b a.
Proof. unfold tr_timer_before, kle, dl. case_if; intros; bool_to_prop; lia. Qed.

Lemma kle_trans q a b c : kle q a b → kle q b c → kle q a c.
Proof. unfold kle. lia. Qed.

Lemma kle_refl q a : kle q a a.
Proof. unfold kle. lia. Qed.

Definition par (i : Z) : Z := (i - 1) / 2.

Lemma par_lt i : 0 < i → 0 ≤ par i < i.
Proof. unfold par. intros. split; [apply Z.div_pos; lia|apply Z.div_lt_upper_bound; lia]. Qed.

(** The heap position and the slot of every heap element designate each other. *)
Record heap_shape (q : tr_timer_queue) : Prop := {
  hs_entries : alen (tq_entries q) = tq_capacity q;
  hs_heap : alen (tq_heap q) = tq_capacity q;
  hs_size : 0 ≤ tq_size q ≤ tq_capacity q;
  hs_cap : tq_capacity q < 2 ^ 31;
  hs_slot i : 0 ≤ i < tq_size q → 0 ≤ hp q i < tq_capacity q;
  hs_link i : 0 ≤ i < tq_size q → te_link (en q (hp q i)) = i
}.

Definition in_heap (q : tr_timer_queue) (s : Z) : Prop := ∃ i, 0 ≤ i < tq_size q ∧ hp q i = s.

(** Order everywhere; everywhere but between [pos] and its parent; everywhere but
    between [pos] and its children; everywhere but around [pos]. *)
Definition grand (q : tr_timer_queue) (pos : Z) : Prop :=
  ∀ c, 0 < c < tq_size q → par c = pos → 0 < pos → kle q (hp q (par pos)) (hp q c).
Definition Full (q : tr_timer_queue) : Prop :=
  ∀ i, 0 < i < tq_size q → kle q (hp q (par i)) (hp q i).
Definition Up (q : tr_timer_queue) (pos : Z) : Prop :=
  (∀ i, 0 < i < tq_size q → i ≠ pos → kle q (hp q (par i)) (hp q i)) ∧ grand q pos.
Definition Down (q : tr_timer_queue) (pos : Z) : Prop :=
  (∀ i, 0 < i < tq_size q → par i ≠ pos → kle q (hp q (par i)) (hp q i)) ∧ grand q pos.
Definition Around (q : tr_timer_queue) (pos : Z) : Prop :=
  (∀ i, 0 < i < tq_size q → i ≠ pos → par i ≠ pos → kle q (hp q (par i)) (hp q i)) ∧ grand q pos.

Lemma Up_Around q pos : Up q pos → Around q pos.
Proof. intros [H G]. split; [auto|done]. Qed.

Lemma Full_Down q pos : Full q → 0 ≤ pos < tq_size q → Down q pos.
Proof.
  intros H Hp. split; [auto|]. intros c Hc Hpc H0.
  pose proof (par_lt pos H0). pose proof (par_lt c ltac:(lia)).
  apply (kle_trans _ _ (hp q pos)); [apply H; lia|]. rewrite <- Hpc. by apply H.
Qed.

Lemma Full_Around q pos : Full q → 0 ≤ pos < tq_size q → Around q pos.
Proof. intros HF Hp. destruct (Full_Down q pos HF Hp) as [H1 H2]. split; [auto|done]. Qed.

(** ** Exchanging two elements *)

(** The entries apart from their links. *)
Definition body_eq (e e' : tr_timer_entry) : Prop := set_link e 0 = set_link e' 0.

(** [q'] is [q] with its heap rearranged. *)
Record rearranged (q q' : tr_timer_queue) : Prop := {
  ra_shape : heap_shape q';
  ra_cap : tq_capacity q' = tq_capacity q;
  ra_size : tq_size q' = tq_size q;
  ra_free : tq_free_head q' = tq_free_head q;
  ra_body s : 0 ≤ s → body_eq (en q' s) (en q s);
  ra_heap s : in_heap q' s ↔ in_heap q s;
  ra_out s : 0 ≤ s → ¬ in_heap q s → en q' s = en q s
}.

Lemma rearranged_refl q : heap_shape q → rearranged q q.
Proof. intros. split; done. Qed.

Lemma rearranged_trans q1 q2 q3 : rearranged q1 q2 → rearranged q2 q3 → rearranged q1 q3.
Proof.
  intros [] []. split; try congruence; auto.
  - intros s Hs. unfold body_eq in *. rewrite ra_body1, ra_body0; done.
  - intros s. by rewrite ra_heap1.
  - intros s Hs Hn. rewrite ra_out1, ra_out0; try done. by rewrite ra_heap0.
Qed.

Lemma body_eq_dl q q' s : body_eq (en q' s) (en q s) → dl q' s = dl q s.
Proof. unfold dl. intros H. by injection H. Qed.

Lemma shape_inj q i j : heap_shape q → 0 ≤ i < tq_size q → 0 ≤ j < tq_size q →
  hp q i = hp q j → i = j.
Proof. intros [] Hi Hj H. rewrite <- (hs_link0 i), <- (hs_link0 j), H; done. Qed.

Section Swap.
Variables (q : tr_timer_queue) (a b : Z).
Hypotheses (Hs : heap_shape q) (Ha : 0 ≤ a < tq_size q) (Hb : 0 ≤ b < tq_size q) (Hab : a ≠ b).

Let He := hs_entries _ Hs.
Let Hh := hs_heap _ Hs.
Let Hsz := hs_size _ Hs.
Let Hra := hs_slot _ Hs a Ha.
Let Hrb := hs_slot _ Hs b Hb.
Let Hne : hp q a ≠ hp q b.
Proof. intros H. apply Hab. by eapply shape_inj. Qed.

Lemma hp_swap i : 0 ≤ i → hp (tr_timer_heap_swap q a b) i =
  if i =? a then hp q b else if i =? b then hp q a else hp q i.
Proof.
  intros Hi. unfold tr_timer_heap_swap, hp. simpl.
  rewrite aget_aset by (rewrite ?alen_aset; lia).
  destruct (Z.eqb_spec b i) as [->|Hbi].
  - rewrite Z.eqb_refl. destruct (Z.eqb_spec i a); [lia|done].
  - rewrite aget_aset by lia. rewrite (Z.eqb_sym i a), (Z.eqb_sym i b).
    destruct (Z.eqb_spec a i); [done|]. destruct (Z.eqb_spec b i); [lia|done].
Qed.

Lemma en_swap s : 0 ≤ s → en (tr_timer_heap_swap q a b) s =
  if s =? hp q a then set_link (en q s) b
  else if s =? hp q b then set_link (en q s) a else en q s.
Proof.
  intros Hs0.
  assert (((tq_heap q).[a <- (tq_heap q).[b]].[b <- (tq_heap q).[a]]).[a] = hp q b) as E1
    by (rewrite aget_aset_ne, aget_aset_eq by lia; done).
  assert (((tq_heap q).[a <- (tq_heap q).[b]].[b <- (tq_heap q).[a]]).[b] = hp q a) as E2
    by (rewrite aget_aset_eq; [done|rewrite alen_aset; lia]).
  unfold tr_timer_heap_swap, set_entry, set_heap, en, hp. simpl.
  fold (hp q a). fold (hp q b). fold (hp q a) in E1, E2. fold (hp q b) in E1, E2.
  rewrite E1, E2. rewrite !aget_aset by (rewrite ?alen_aset; lia).
  rewrite (Z.eqb_sym s (hp q a)), (Z.eqb_sym s (hp q b)).
  destruct (Z.eqb_spec (hp q b) (hp q a)); [congruence|].
  destruct (Z.eqb_spec (hp q a) s) as [->|]; [done|].
  by destruct (Z.eqb_spec (hp q b) s) as [->|].
Qed.

Lemma swap_rearranged : rearranged q (tr_timer_heap_swap q a b).
Proof.
  split; try done.
  - pose proof (hs_slot _ Hs) as Hsl. pose proof (hs_link _ Hs) as Hlk. pose proof (hs_cap _ Hs).
    split; simpl; rewrite ?alen_aset; try done.
    + intros i Hi. change (0 ≤ hp (tr_timer_heap_swap q a b) i < tq_capacity q).
      rewrite hp_swap by lia. case_ifs; auto.
    + intros i Hi. rewrite hp_swap by lia.
      destruct (Z.eqb_spec i a) as [->|]; [|destruct (Z.eqb_spec i b) as [->|]].
      * rewrite en_swap by lia. destruct (Z.eqb_spec (hp q b) (hp q a)); [congruence|].
        by rewrite Z.eqb_refl.
      * rewrite en_swap by lia. by rewrite Z.eqb_refl.
      * pose proof (Hsl i Hi). rewrite en_swap by lia.
        destruct (Z.eqb_spec (hp q i) (hp q a)) as [H1|]; [by apply shape_inj in H1|].
        destruct (Z.eqb_spec (hp q i) (hp q b)) as [H1|]; [by apply shape_inj in H1|]. auto.
  - intros s H0. rewrite en_swap by done. unfold body_eq. by case_ifs.
  - intros s. unfold in_heap. simpl. split; intros (i & Hi & H).
    + rewrite hp_swap in H by lia.
      destruct (i =? a); [by exists b|]. destruct (i =? b); [by exists a|]. by exists i.
    + destruct (Z.eq_dec i a) as [->|]; [exists b|destruct (Z.eq_dec i b) as [->|]; [exists a|exists i]];
        (split; [done|]); rewrite hp_swap by lia; case_ifs; try done; lia.
  - intros s H0 Hn. rewrite en_swap by done.
    destruct (Z.eqb_spec s (hp q a)) as [->|]; [exfalso; apply Hn; by exists a|].
    destruct (Z.eqb_spec s (hp q b)) as [->|]; [exfalso; apply Hn; by exists b|]. done.
Qed.

Lemma kle_swap s t : 0 ≤ s → 0 ≤ t → kle (tr_timer_heap_swap q a b) s t ↔ kle q s t.
Proof.
  intros H0 H1. unfold kle.
  by rewrite !(body_eq_dl q (tr_timer_heap_swap q a b)) by (by apply (ra_body _ _ swap_rearranged)).
Qed.

End Swap.

(** Heap order does not depend on the links. *)
Lemma kle_rearranged q q' s t : rearranged q q' → 0 ≤ s → 0 ≤ t → kle q' s t ↔ kle q s t.
Proof.
  intros R H0 H1. unfold kle. by rewrite !(body_eq_dl q q') by (by apply (ra_body _ _ R)).
Qed.

Lemma par_child c pos : 0 < c → par c = pos ↔ c = 2 * pos + 1 ∨ c = 2 * pos + 2.
Proof. intros. unfold par. Z.to_euclidean_division_equations. lia. Qed.

(** ** Moving up *)

Lemma up_step q pos : heap_shape q → 0 < pos < tq_size q → Around q pos →
  kle q (hp q pos) (hp q (par pos)) → Up (tr_timer_heap_swap q pos (par pos)) (par pos).
Proof.
  intros Hs Hp [HA HG] Hk. pose proof (par_lt pos ltac:(lia)) as Hpl.
  pose proof (hs_slot _ Hs) as Hsl.
  assert (∀ i, 0 < i < tq_size q → i ≠ par pos → kle q
    (hp (tr_timer_heap_swap q pos (par pos)) (par i)) (hp (tr_timer_heap_swap q pos (par pos)) i))
    as Hedge.
  { intros i Hi Hne. pose proof (par_lt i ltac:(lia)). rewrite !hp_swap by (done || lia).
    destruct (Z.eqb_spec i pos) as [->|].
    - destruct (Z.eqb_spec (par pos) pos); [lia|]. by rewrite Z.eqb_refl.
    - destruct (Z.eqb_spec i (par pos)); [done|].
      destruct (Z.eqb_spec (par i) pos) as [E|]; [apply HG; lia|].
      destruct (Z.eqb_spec (par i) (par pos)) as [E|]; [|by apply HA].
      apply (kle_trans _ _ _ _ Hk). rewrite <- E. by apply HA. }
  pose proof (swap_rearranged q pos (par pos) Hs ltac:(lia) ltac:(lia) ltac:(lia)) as R.
  assert (∀ i, 0 ≤ i < tq_size q → 0 ≤ hp (tr_timer_heap_swap q pos (par pos)) i) as Hnn.
  { intros i Hi. apply (hs_slot _ (ra_shape _ _ R)). by rewrite (ra_size _ _ R). }
  split.
  - intros i Hi Hne. rewrite (ra_size _ _ R) in Hi. pose proof (par_lt i ltac:(lia)).
    apply (kle_rearranged _ _ _ _ R); [apply Hnn; lia..|]. by apply Hedge.
  - intros c Hc Hpc H0. rewrite (ra_size _ _ R) in Hc. pose proof (par_lt c ltac:(lia)).
    pose proof (par_lt (par pos) H0).
    apply (kle_rearranged _ _ _ _ R); [apply Hnn; lia..|].
    assert (kle q (hp q (par (par pos))) (hp q (par pos))) as Hgp by (apply HA; lia).
    rewrite !hp_swap by (done || lia).
    destruct (Z.eqb_spec (par (par pos)) pos); [lia|].
    destruct (Z.eqb_spec (par (par pos)) (par pos)); [lia|].
    destruct (Z.eqb_spec c pos) as [->|]; [done|].
    destruct (Z.eqb_spec c (par pos)); [lia|].
    apply (kle_trans _ _ _ _ Hgp). rewrite <- Hpc at 1. apply HA; lia.
Qed.

Lemma heap_up_full fuel q pos : heap_shape q → 0 ≤ pos < tq_size q → Up q pos →
  (Z.to_nat pos < fuel)%nat →
  Full (heap_up_loop fuel q pos) ∧ rearranged q (heap_up_loop fuel q pos).
Proof.
  revert q pos. induction fuel as [|fuel IH]; intros q pos Hs Hp HU Hf; [lia|]. simpl.
  fold (par pos). case_if; [|case_if].
  - subst. split; [|by apply rearranged_refl]. intros i Hi. apply HU; lia.
  - split; [|by apply rearranged_refl]. intros i Hi.
    destruct (Z.eq_dec i pos) as [->|]; [by apply before_false|by apply HU].
  - pose proof (par_lt pos ltac:(lia)).
    pose proof (swap_rearranged q pos (par pos) Hs ltac:(lia) ltac:(lia) ltac:(lia)) as R.
    destruct (IH (tr_timer_heap_swap q pos (par pos)) (par pos)) as [H1 H2].
    + apply R.
    + rewrite (ra_size _ _ R). lia.
    + apply up_step; [done|lia|by apply Up_Around|by apply before_true].
    + lia.
    + split; [done|by eapply rearranged_trans].
Qed.

(** From an element out of place on both sides: it rises, or it may still have to sink. *)
Lemma heap_up_around q pos : heap_shape q → 0 ≤ pos < tq_size q → Around q pos →
  let q' := tr_timer_heap_up q pos in
  rearranged q q' ∧ Down q' (te_link (en q' (hp q pos))) ∧
  0 ≤ te_link (en q' (hp q pos)) < tq_size q'.
Proof.
  intros Hs Hp HA. unfold tr_timer_heap_up. simpl. fold (par pos).
  assert (Down q pos → rearranged q q ∧ Down q (te_link (en q (hp q pos))) ∧
    0 ≤ te_link (en q (hp q pos)) < tq_size q) as Hdown.
  { intros HD. rewrite (hs_link _ Hs) by done. split_and!; try lia; [|done].
    by apply rearranged_refl. }
  case_if; [|case_if].
  - subst. apply Hdown. split; [|apply HA]. intros i Hi Hpi. apply HA; lia.
  - apply Hdown. split; [|apply HA]. intros i Hi Hpi.
    destruct (Z.eq_dec i pos) as [->|]; [by apply before_false|by apply HA].
  - pose proof (par_lt pos ltac:(lia)).
    pose proof (swap_rearranged q pos (par pos) Hs ltac:(lia) ltac:(lia) ltac:(lia)) as R.
    destruct (heap_up_full (Z.to_nat pos) (tr_timer_heap_swap q pos (par pos)) (par pos)) as [HF R'].
    + apply R.
    + rewrite (ra_size _ _ R). lia.
    + apply up_step; [done|lia|done|by apply before_true].
    + lia.
    + assert (rearranged q (heap_up_loop (Z.to_nat pos) (tr_timer_heap_swap q pos (par pos)) (par pos)))
        as RR by (by eapply rearranged_trans).
      split; [done|].
      assert (in_heap (heap_up_loop (Z.to_nat pos) (tr_timer_heap_swap q pos (par pos)) (par pos))
        (hp q pos)) as (i & Hi & Hhi) by (apply RR; by exists pos).
      rewrite <- Hhi, (hs_link _ (ra_shape _ _ RR)) by done. split; [by apply Full_Down|done].
Qed.

(** ** Moving down *)

Lemma heap_best_spec q pos : heap_shape q → 0 ≤ pos < tq_size q →
  (heap_best q pos = pos ∨
   pos < heap_best q pos < tq_size q ∧ par (heap_best q pos) = pos ∧
     kle q (hp q (heap_best q pos)) (hp q pos)) ∧
  ∀ c, 0 < c < tq_size q → par c = pos → kle q (hp q (heap_best q pos)) (hp q c).
Proof.
  intros Hs Hp. pose proof (hs_size _ Hs). pose proof (hs_cap _ Hs). unfold heap_best.
  rewrite (u32_small (pos * 2 + 1)) by word_lia.
  rewrite (u32_small (pos * 2 + 1 + 1)) by word_lia.
  pose proof (proj2 (par_child (pos * 2 + 1) pos ltac:(lia)) ltac:(lia)) as Hl.
  pose proof (proj2 (par_child (pos * 2 + 1 + 1) pos ltac:(lia)) ltac:(lia)) as Hr.
  set (l := pos * 2 + 1) in *. set (r := l + 1) in *.
  assert (∀ c, 0 < c → par c = pos → c = l ∨ c = r) as Hlr
    by (intros c Hc0 Hc; apply par_child in Hc; lia).
  destruct ((l <? tq_size q) && tr_timer_before q (hp q l) (hp q pos)) eqn:E1;
  [apply andb_true_iff in E1 as [El Eb]; apply Z.ltb_lt in El; apply before_true in Eb
  |assert (l < tq_size q → kle q (hp q pos) (hp q l)) as Eb by
     (intros Hlt; apply Z.ltb_lt in Hlt; rewrite Hlt in E1; by apply before_false)];
  (match goal with |- context [(r <? tq_size q) && tr_timer_before q (hp q r) (hp q ?b)] =>
    destruct ((r <? tq_size q) && tr_timer_before q (hp q r) (hp q b)) eqn:E2;
    [apply andb_true_iff in E2 as [Er Ebr]; apply Z.ltb_lt in Er; apply before_true in Ebr
    |assert (r < tq_size q → kle q (hp q b) (hp q r)) as Ebr by
       (intros Hlt; apply Z.ltb_lt in Hlt; rewrite Hlt in E2; by apply before_false)] end).
  - split; [right; split_and!; try lia; by eapply kle_trans|].
    intros c Hc Hpc. destruct (Hlr c) as [->| ->]; try done; try lia. apply kle_refl.
  - split; [right; split_and!; try lia; done|].
    intros c Hc Hpc. destruct (Hlr c) as [->| ->]; try lia; auto using kle_refl. apply Ebr. lia.
  - split; [right; split_and!; try lia; done|].
    intros c Hc Hpc. destruct (Hlr c) as [->| ->]; try lia; auto using kle_refl.
    eapply kle_trans; [done|]. apply Eb. lia.
  - split; [by left|]. intros c Hc Hpc. destruct (Hlr c) as [->| ->]; try lia; [apply Eb|apply Ebr]; lia.
Qed.

Lemma down_step q pos c : heap_shape q → 0 ≤ pos < tq_size q → Down q pos →
  pos < c < tq_size q → par c = pos → kle q (hp q c) (hp q pos) →
  (∀ c', 0 < c' < tq_size q → par c' = pos → kle q (hp q c) (hp q c')) →
  Down (tr_timer_heap_swap q pos c) c.
Proof.
  intros Hs Hp [HD HG] Hc Hpc Hk Hmin.
  pose proof (swap_rearranged q pos c Hs ltac:(lia) ltac:(lia) ltac:(lia)) as R.
  assert (∀ i, 0 ≤ i < tq_size q → 0 ≤ hp (tr_timer_heap_swap q pos c) i) as Hnn.
  { intros i Hi. apply (hs_slot _ (ra_shape _ _ R)). by rewrite (ra_size _ _ R). }
  split.
  - intros i Hi Hne. rewrite (ra_size _ _ R) in Hi. pose proof (par_lt i ltac:(lia)).
    apply (kle_rearranged _ _ _ _ R); [apply Hnn; lia..|].
    rewrite !hp_swap by (done || lia).
    destruct (Z.eqb_spec (par i) c); [done|].
    destruct (Z.eqb_spec (par i) pos) as [E|].
    + destruct (Z.eqb_spec i pos); [lia|]. destruct (Z.eqb_spec i c); [done|]. by apply Hmin.
    + destruct (Z.eqb_spec i pos) as [->|]; [apply HG; lia|].
      destruct (Z.eqb_spec i c); [congruence|]. by apply HD.
  - intros d Hd Hpd H0. rewrite (ra_size _ _ R) in Hd. pose proof (par_lt d ltac:(lia)).
    apply (kle_rearranged _ _ _ _ R); [apply Hnn; lia..|].
    rewrite !hp_swap by (done || lia). rewrite Hpc, Z.eqb_refl.
    destruct (Z.eqb_spec d pos); [lia|]. destruct (Z.eqb_spec d c); [lia|].
    rewrite <- Hpd at 1. apply HD; lia.
Qed.

Lemma heap_down_full fuel q pos : heap_shape q → 0 ≤ pos < tq_size q → Down q pos →
  tq_size q - pos < Z.of_nat fuel →
  Full (heap_down_loop fuel q pos) ∧ rearranged q (heap_down_loop fuel q pos).
Proof.
  revert q pos. induction fuel as [|fuel IH]; intros q pos Hs Hp HD Hf; [lia|]. simpl.
  destruct (heap_best_spec q pos Hs Hp) as [Hb Hmin]. case_if.
  - split; [|by apply rearranged_refl]. intros i Hi.
    destruct (Z.eq_dec (par i) pos) as [E|]; [|by apply HD]. rewrite E.
    by rewrite <- Heqb at 1; apply Hmin.
  - destruct Hb as [|(H1 & H2 & H3)]; [done|].
    pose proof (swap_rearranged q pos (heap_best q pos) Hs ltac:(lia) ltac:(lia) ltac:(lia)) as R.
    destruct (IH (tr_timer_heap_swap q pos (heap_best q pos)) (heap_best q pos)) as [HF R'].
    + apply R.
    + rewrite (ra_size _ _ R). lia.
    + by apply down_step.
    + rewrite (ra_size _ _ R). lia.
    + split; [done|by eapply rearranged_trans].
Qed.

Lemma timer_heap_down_full q pos : heap_shape q → 0 ≤ pos < tq_size q → Down q pos →
  Full (tr_timer_heap_down q pos) ∧ rearranged q (tr_timer_heap_down q pos).
Proof. intros Hs Hp HD. apply heap_down_full; try done. pose proof (hs_size _ Hs). lia. Qed.

Lemma timer_heap_up_full q pos : heap_shape q → 0 ≤ pos < tq_size q → Up q pos →
  Full (tr_timer_heap_up q pos) ∧ rearranged q (tr_timer_heap_up q pos).
Proof. intros Hs Hp HU. apply heap_up_full; try done. lia. Qed.

(** ** Rewriting an entry *)

Lemma en_set_entry q s e t : 0 ≤ s < alen (tq_entries q) → 0 ≤ t →
  en (set_entry q s e) t = if s =? t then e else en q t.
Proof. intros. unfold en, set_entry. simpl. by rewrite aget_aset. Qed.

Lemma set_entry_shape q s e : heap_shape q → 0 ≤ s < tq_capacity q →
  (in_heap q s → te_link e = te_link (en q s)) → heap_shape (set_entry q s e).
Proof.
  intros Hs Hr Hl. pose proof (hs_entries _ Hs).
  split; simpl; rewrite ?alen_aset; try apply Hs.
  intros i Hi. change (hp (set_entry q s e) i) with (hp q i).
  pose proof (hs_slot _ Hs i Hi). rewrite en_set_entry by lia.
  destruct (Z.eqb_spec s (hp q i)) as [E|]; [|by apply Hs].
  rewrite Hl by (by exists i). rewrite E. by apply Hs.
Qed.

Lemma dl_set_entry q s e t : 0 ≤ s < alen (tq_entries q) → 0 ≤ t →
  dl (set_entry q s e) t = if s =? t then te_deadline_ns e else dl q t.
Proof. intros. unfold dl. rewrite en_set_entry by done. by destruct (s =? t). Qed.

(** Order does not change where the deadline does not, or away from the slot. *)
Lemma kle_set_entry_out q s e a b : 0 ≤ s < alen (tq_entries q) → 0 ≤ a → 0 ≤ b →
  (a ≠ s ∧ b ≠ s ∨ te_deadline_ns e = dl q s) → kle (set_entry q s e) a b ↔ kle q a b.
Proof.
  intros Hs Ha Hb H. unfold kle. rewrite !dl_set_entry by done.
  destruct (Z.eqb_spec s a), (Z.eqb_spec s b), H as [[]|H]; subst; rewrite ?H; done.
Qed.

Lemma set_entry_Full q s e : heap_shape q → 0 ≤ s < tq_capacity q → Full q →
  (¬ in_heap q s ∨ te_deadline_ns e = dl q s) → Full (set_entry q s e).
Proof.
  intros Hs Hr HF H i Hi. simpl in Hi. pose proof (par_lt i ltac:(lia)).
  pose proof (hs_slot _ Hs i ltac:(lia)). pose proof (hs_slot _ Hs (par i) ltac:(lia)).
  change (hp (set_entry q s e)) with (hp q). pose proof (hs_entries _ Hs).
  apply kle_set_entry_out; try lia; [|by apply HF].
  destruct H as [H|]; [left|by right]. split; intros E; apply H; rewrite <- E.
  - exists (par i). split; [lia|done].
  - exists i. split; [lia|done].
Qed.

(** Changing the key of the element at [pos] puts it out of place on both sides at most. *)
Lemma set_entry_Around q pos e : heap_shape q → 0 ≤ pos < tq_size q → Full q →
  Around (set_entry q (hp q pos) e) pos.
Proof.
  intros Hs Hp HF. pose proof (hs_entries _ Hs). pose proof (hs_slot _ Hs pos Hp).
  change (hp (set_entry q (hp q pos) e)) with (hp q).
  assert (∀ i, 0 ≤ i < tq_size q → i ≠ pos → hp q i ≠ hp q pos) as Hne
    by (intros i Hi Hn E; by apply Hn; eapply shape_inj).
  split.
  - intros i Hi Hn1 Hn2. simpl in Hi. pose proof (par_lt i ltac:(lia)).
    change (hp (set_entry q (hp q pos) e)) with (hp q).
    pose proof (hs_slot _ Hs i ltac:(lia)). pose proof (hs_slot _ Hs (par i) ltac:(lia)).
    apply kle_set_entry_out; try lia; [|by apply HF]. left. split; apply Hne; lia.
  - intros c Hc Hpc H1. simpl in Hc. pose proof (par_lt c ltac:(lia)).
    change (hp (set_entry q (hp q pos) e)) with (hp q). pose proof (par_lt pos H1).
    pose proof (hs_slot _ Hs c ltac:(lia)). pose proof (hs_slot _ Hs (par pos) ltac:(lia)).
    apply kle_set_entry_out; try lia; [left; split; apply Hne; lia|].
    apply (kle_trans _ _ (hp q pos)); [apply HF; lia|]. rewrite <- Hpc. by apply HF.
Qed.

(** ** Removing an element *)

Record removed (q q' : tr_timer_queue) (r : Z) : Prop := {
  rm_shape : heap_shape q';
  rm_full : Full q';
  rm_cap : tq_capacity q' = tq_capacity q;
  rm_free : tq_free_head q' = tq_free_head q;
  rm_body s : 0 ≤ s → body_eq (en q' s) (en q s);
  rm_heap s : in_heap q' s ↔ in_heap q s ∧ s ≠ r;
  rm_link : te_link (en q' r) = TR_TIMER_HEAP_NONE;
  rm_out s : 0 ≤ s → ¬ in_heap q s → en q' s = en q s
}.

Lemma in_heap_slot q s : heap_shape q → in_heap q s → 0 ≤ s < tq_capacity q.
Proof. intros Hs (i & Hi & <-). by apply Hs. Qed.

(** Replacing the element at [pos] by the last one. *)
Definition shrink (q : tr_timer_queue) (pos : Z) : tr_timer_queue :=
  let last := hp q (tq_size q - 1) in
  set_entry (set_heap (set_size q (tq_size q - 1)) pos last) last (set_link (en q last) pos).

Section Shrink.
Variables (q : tr_timer_queue) (pos : Z).
Hypotheses (Hs : heap_shape q) (Hp : 0 ≤ pos < tq_size q - 1).
Let last := hp q (tq_size q - 1).
Let Hsz := hs_size _ Hs.
Let He := hs_entries _ Hs.
Let Hh := hs_heap _ Hs.
Let Hlast : 0 ≤ hp q (tq_size q - 1) < tq_capacity q.
Proof. apply (hs_slot _ Hs). lia. Qed.

Lemma hp_shrink i : 0 ≤ i → hp (shrink q pos) i = if pos =? i then last else hp q i.
Proof. intros. unfold shrink, hp. simpl. by rewrite aget_aset by lia. Qed.

Lemma en_shrink s : 0 ≤ s → en (shrink q pos) s = if last =? s then set_link (en q s) pos else en q s.
Proof.
  intros. unfold shrink. rewrite en_set_entry by (simpl; lia). fold last.
  destruct (Z.eqb_spec last s) as [->|]; done.
Qed.

Lemma shrink_shape : heap_shape (shrink q pos).
Proof.
  pose proof (hs_cap _ Hs). split; simpl; rewrite ?alen_aset; try done; try lia.
  - intros i Hi. change (0 ≤ hp (shrink q pos) i < tq_capacity q). rewrite hp_shrink by lia.
    destruct (pos =? i); [done|]. apply Hs. lia.
  - intros i Hi. rewrite hp_shrink by lia. destruct (Z.eqb_spec pos i) as [<-|].
    + rewrite en_shrink by (unfold last; lia). by rewrite Z.eqb_refl.
    + pose proof (hs_slot _ Hs i ltac:(lia)). rewrite en_shrink by lia.
      destruct (Z.eqb_spec last (hp q i)) as [E|]; [|apply Hs; lia].
      apply shape_inj in E; [lia|done|lia|lia].
Qed.

Lemma dl_shrink s : 0 ≤ s → dl (shrink q pos) s = dl q s.
Proof. intros. unfold dl. rewrite en_shrink by done. by destruct (last =? s). Qed.

Lemma shrink_Around : Around q pos → Around (shrink q pos) pos.
Proof.
  intros [HA HG].
  assert (∀ i, 0 ≤ i < tq_size q → 0 ≤ hp q i) as Hnn by (intros i Hi; by apply Hs).
  split.
  - intros i Hi H1 H2. simpl in Hi. pose proof (par_lt i ltac:(lia)).
    rewrite !hp_shrink by lia.
    destruct (Z.eqb_spec pos i); [lia|]. destruct (Z.eqb_spec pos (par i)); [lia|].
    unfold kle. rewrite !dl_shrink by (apply Hnn; lia). apply HA; lia.
  - intros c Hc Hpc H1. simpl in Hc. pose proof (par_lt c ltac:(lia)). pose proof (par_lt pos H1).
    rewrite !hp_shrink by lia.
    destruct (Z.eqb_spec pos c); [lia|]. destruct (Z.eqb_spec pos (par pos)); [lia|].
    unfold kle. rewrite !dl_shrink by (apply Hnn; lia). apply HG; lia.
Qed.

Lemma in_heap_shrink s : in_heap (shrink q pos) s ↔ in_heap q s ∧ s ≠ hp q pos.
Proof.
  split.
  - intros (i & Hi & E). simpl in Hi. rewrite hp_shrink in E by lia.
    destruct (Z.eqb_spec pos i) as [<-|].
    + split; [exists (tq_size q - 1); split; [lia|done]|]. intros ->.
      apply shape_inj in E; [lia|done|lia|lia].
    + split; [exists i; split; [lia|done]|]. intros ->. apply shape_inj in E; [lia|done|lia|lia].
  - intros [(i & Hi & E) Hne]. destruct (Z.eq_dec i (tq_size q - 1)) as [->|].
    + exists pos. simpl. split; [lia|]. rewrite hp_shrink by lia. by rewrite Z.eqb_refl.
    + exists i. simpl. split; [lia|]. rewrite hp_shrink by lia.
      destruct (Z.eqb_spec pos i) as [<-|]; [congruence|done].
Qed.

End Shrink.

(** The queue once the gap at [pos] is filled, before the removed slot is unlinked. *)
Definition refill (q : tr_timer_queue) (pos : Z) : tr_timer_queue :=
  if negb (pos =? tq_size q - 1)
  then tr_timer_heap_down (tr_timer_heap_up (shrink q pos) pos)
    (te_link (en (tr_timer_heap_up (shrink q pos) pos) (hp q (tq_size q - 1))))
  else set_size q (tq_size q - 1).

Lemma refill_spec q pos : heap_shape q → 0 ≤ pos < tq_size q → Around q pos →
  heap_shape (refill q pos) ∧ Full (refill q pos) ∧ tq_capacity (refill q pos) = tq_capacity q ∧
  tq_free_head (refill q pos) = tq_free_head q ∧
  (∀ s, 0 ≤ s → body_eq (en (refill q pos) s) (en q s)) ∧
  (∀ s, in_heap (refill q pos) s ↔ in_heap q s ∧ s ≠ hp q pos) ∧
  (∀ s, 0 ≤ s → ¬ in_heap q s → en (refill q pos) s = en q s).
Proof.
  intros Hs Hp HA. pose proof (hs_slot _ Hs pos Hp) as Hr. pose proof (hs_size _ Hs) as Hsz.
  unfold refill. destruct (Z.eqb_spec pos (tq_size q - 1)) as [E|Hne]; simpl.
  - split_and!; try done.
    + split; simpl; try apply Hs; try lia; intros i Hi; apply Hs; lia.
    + intros i Hi. simpl in Hi. pose proof (par_lt i ltac:(lia)). apply HA; lia.
    + intros s. unfold in_heap. simpl. change (hp (set_size q (tq_size q - 1))) with (hp q). split.
      * intros (i & Hi & <-). split; [exists i; split; [lia|done]|]. intros E1.
        apply shape_inj in E1; [lia|done|lia|lia].
      * intros [(i & Hi & <-) Hn]. exists i. split; [|done].
        destruct (Z.eq_dec i pos); [congruence|lia].
  - assert (0 ≤ pos < tq_size q - 1) as Hp' by lia.
    destruct (heap_up_around (shrink q pos) pos) as (R & HD & Hl);
      [by apply shrink_shape|done|by apply shrink_Around|].
    rewrite hp_shrink, Z.eqb_refl in HD, Hl by (done || lia).
    destruct (timer_heap_down_full _ _ (ra_shape _ _ R) Hl HD) as [HF R2].
    pose proof (rearranged_trans _ _ _ R R2) as R3.
    split_and!; try done; try apply R3.
    + intros s Hs0. unfold body_eq. rewrite (ra_body _ _ R3 s Hs0), en_shrink by done. by case_if.
    + intros s. rewrite (ra_heap _ _ R3). by apply in_heap_shrink.
    + intros s Hs0 Hn. rewrite (ra_out _ _ R3), en_shrink by
        (done || rewrite in_heap_shrink by done; tauto).
      destruct (Z.eqb_spec (hp q (tq_size q - 1)) s) as [Es|]; [|done].
      exfalso. apply Hn. exists (tq_size q - 1). split; [lia|done].
Qed.

Lemma heap_remove_spec q pos : heap_shape q → 0 ≤ pos < tq_size q → Around q pos →
  removed q (tr_timer_heap_remove q pos) (hp q pos).
Proof.
  intros Hs Hp HA. pose proof (hs_slot _ Hs pos Hp) as Hr.
  destruct (refill_spec q pos Hs Hp HA) as (H2s & H2f & H2c & H2fr & H2b & H2h & H2o).
  unfold tr_timer_heap_remove. destruct (Z.geb_spec pos (tq_size q)); [lia|]. simpl.
  match goal with |- removed _ (set_entry ?x _ _) _ => change x with (refill q pos) end.
  assert (¬ in_heap (refill q pos) (hp q pos)) as Hnr by (rewrite H2h; tauto).
  pose proof (hs_entries _ H2s) as He2.
  split; try done.
  - apply set_entry_shape; [done|lia|done].
  - apply set_entry_Full; [done|lia|done|by left].
  - intros s Hs0. rewrite en_set_entry by lia.
    destruct (Z.eqb_spec (hp q pos) s) as [->|]; [apply (H2b s Hs0)|by apply H2b].
  - rewrite en_set_entry, Z.eqb_refl by lia. done.
  - intros s Hs0 Hn. rewrite en_set_entry by lia.
    destruct (Z.eqb_spec (hp q pos) s) as [<-|]; [|by apply H2o]. exfalso. apply Hn. by exists pos.
Qed.

(** * The invariant *)

Definition used (q : tr_timer_queue) (s : Z) : bool := te_used (en q s).
Definition lnk (q : tr_timer_queue) (s : Z) : Z := te_link (en q s).

Record tq_ok (q : tr_timer_queue) : Prop := {
  ok_shape : heap_shape q;
  ok_full : Full q;
  ok_dl s : 0 ≤ s < tq_capacity q → 0 ≤ dl q s;
  ok_used s : in_heap q s → used q s = true;
  (** a registered timer is in the heap when it is armed, and only then *)
  ok_armed s : 0 ≤ s < tq_capacity q → used q s = true → in_heap q s ↔ dl q s ≠ 0;
  ok_link s : 0 ≤ s < tq_capacity q → used q s = true → ¬ in_heap q s → lnk q s = TR_TIMER_HEAP_NONE;
  ok_free : ∃ fl, chain (lnk q) (tq_free_head q) fl ∧ NoDup fl ∧
    ∀ s, s ∈ fl ↔ 0 ≤ s < tq_capacity q ∧ used q s = false
}.

Lemma body_eq_used e e' : body_eq e e' → te_used e = te_used e'.
Proof. intros H. by injection H. Qed.
Lemma body_eq_deadline e e' : body_eq e e' → te_deadline_ns e = te_deadline_ns e'.
Proof. intros H. by injection H. Qed.
Lemma body_eq_generation e e' : body_eq e e' → te_generation e = te_generation e'.
Proof. intros H. by injection H. Qed.

(** [q'] is [q] with the registered timer of [slot] turned into [e]. *)
Record updated (q q' : tr_timer_queue) (slot : Z) (e : tr_timer_entry) : Prop := {
  up_shape : heap_shape q';
  up_full : Full q';
  up_cap : tq_capacity q' = tq_capacity q;
  up_free : tq_free_head q' = tq_free_head q;
  up_body s : 0 ≤ s → body_eq (en q' s) (if slot =? s then e else en q s);
  up_heap s : s ≠ slot → in_heap q' s ↔ in_heap q s;
  up_out s : 0 ≤ s → s ≠ slot → ¬ in_heap q s → en q' s = en q s;
  up_armed : in_heap q' slot ↔ te_deadline_ns e ≠ 0;
  up_link : ¬ in_heap q' slot → lnk q' slot = TR_TIMER_HEAP_NONE
}.

Lemma updated_ok q q' slot e : tq_ok q → updated q q' slot e → 0 ≤ slot < tq_capacity q →
  used q slot = true → te_used e = true → 0 ≤ te_deadline_ns e → tq_ok q'.
Proof.
  intros Hok U Hr Hu Heu Hed. pose proof (up_body _ _ _ _ U) as Hb.
  assert (∀ s, 0 ≤ s → used q' s = if slot =? s then true else used q s) as Hus.
  { intros s H0. unfold used. rewrite (body_eq_used _ _ (Hb s H0)). by destruct (slot =? s). }
  assert (∀ s, 0 ≤ s → dl q' s = if slot =? s then te_deadline_ns e else dl q s) as Hdl.
  { intros s H0. unfold dl. rewrite (body_eq_deadline _ _ (Hb s H0)). by destruct (slot =? s). }
  split; try apply U; rewrite ?(up_cap _ _ _ _ U).
  - intros s Hs. rewrite Hdl by lia. destruct (slot =? s); [done|by apply Hok].
  - intros s Hi. pose proof (in_heap_slot _ _ (up_shape _ _ _ _ U) Hi). rewrite Hus by lia.
    destruct (Z.eqb_spec slot s); [done|]. apply Hok. by apply (up_heap _ _ _ _ U).
  - intros s Hs. rewrite Hus, Hdl by lia. destruct (Z.eqb_spec slot s) as [<-|]; [intros; apply U|].
    rewrite (up_heap _ _ _ _ U) by done. by apply Hok.
  - intros s Hs. rewrite Hus by lia. destruct (Z.eqb_spec slot s) as [<-|]; [intros; by apply U|].
    rewrite (up_heap _ _ _ _ U) by done. intros H1 H2. unfold lnk.
    rewrite (up_out _ _ _ _ U) by (done || lia). by apply Hok.
  - destruct (ok_free _ Hok) as (fl & Hc & Hnd & Hfl). exists fl. split_and!; [|done|].
    + rewrite (up_free _ _ _ _ U). apply chain_ext with (lnk q); [|done].
      intros s [Hs Hns]%Hfl. unfold lnk. rewrite (up_out _ _ _ _ U); [done|lia|congruence|].
      intros Hi. apply (ok_used _ Hok) in Hi. congruence.
    + intros s. rewrite Hfl. split; intros [H1 H2]; (split; [done|]);
        rewrite Hus in * by lia; destruct (Z.eqb_spec slot s); congruence.
Qed.

(** A registered timer outside the heap leaves room in it. *)
Lemma heap_room q s : heap_shape q → 0 ≤ s < tq_capacity q → ¬ in_heap q s →
  tq_size q < tq_capacity q.
Proof.
  intros Hs Hr Hn. pose proof (hs_size _ Hs).
  set (l := map (hp q) (map Z.of_nat (seq 0 (Z.to_nat (tq_size q))))).
  assert (length (s :: l) ≤ length (map Z.of_nat (seq 0 (Z.to_nat (tq_capacity q)))))%nat as Hle.
  { apply submseteq_length, NoDup_submseteq.
    - constructor.
      + intros (i & -> & (n & -> & Hn'%elem_of_seq)%list_elem_of_fmap)%list_elem_of_fmap.
        apply Hn. exists (Z.of_nat n). split; [lia|done].
      + apply NoDup_fmap_2_strong; [|apply NoDup_fmap_2; [apply _|apply NoDup_seq]].
        intros i j (n & -> & Hn1%elem_of_seq)%list_elem_of_fmap
          (m & -> & Hm%elem_of_seq)%list_elem_of_fmap E.
        apply shape_inj in E; [done|done|lia|lia].
    - assert (∀ x, 0 ≤ x < tq_capacity q → x ∈ map Z.of_nat (seq 0 (Z.to_nat (tq_capacity q)))) as Hin.
      { intros x Hx. apply list_elem_of_fmap. exists (Z.to_nat x). split; [lia|].
        apply elem_of_seq. lia. }
      intros x [->|(i & -> & (n & -> & Hn'%elem_of_seq)%list_elem_of_fmap)%list_elem_of_fmap]
        %elem_of_cons; apply Hin; [done|]. apply Hs. lia. }
  unfold l in Hle. simpl in Hle. rewrite !length_map, !length_seq in Hle. lia.
Qed.

(** ** Rewriting the timer of a slot *)

Lemma link_hp q s : heap_shape q → in_heap q s → 0 ≤ lnk q s < tq_size q ∧ hp q (lnk q s) = s.
Proof. intros Hs (i & Hi & <-). unfold lnk. by rewrite (hs_link _ Hs). Qed.

(** Being linked is being in the heap. *)
Lemma link_in_heap q s : tq_ok q → 0 ≤ s < tq_capacity q → used q s = true →
  lnk q s ≠ TR_TIMER_HEAP_NONE ↔ in_heap q s.
Proof.
  intros Hok Hs Hu. pose proof (ok_shape _ Hok) as Hsh. pose proof (hs_size _ Hsh).
  pose proof (hs_cap _ Hsh). destruct (decide (dl q s = 0)) as [E|E].
  - assert (¬ in_heap q s) as Hn by (rewrite (ok_armed _ Hok) by done; lia).
    rewrite (ok_link _ Hok) by done. done.
  - assert (in_heap q s) as Hi by (by apply (ok_armed _ Hok)). split; [done|]. intros _.
    apply link_hp in Hi as [H2 _]; [|done]. unfold TR_TIMER_HEAP_NONE. word_lia.
Qed.

Section Rewrite.
Variables (q : tr_timer_queue) (s : Z) (e : tr_timer_entry).
Hypotheses (Hok : tq_ok q) (Hr : 0 ≤ s < tq_capacity q) (Hu : used q s = true)
  (Hlink : te_link e = lnk q s).
Let Hsh := ok_shape _ Hok.
Let He := hs_entries _ Hsh.
Let q0 := set_entry q s e.

Lemma rewrite_shape : heap_shape q0.
Proof. by apply set_entry_shape. Qed.

(** Nothing moves: the timer stays out of the heap, or keeps its deadline in it. *)
Lemma rewrite_still : (te_deadline_ns e = dl q s) → updated q q0 s e.
Proof.
  intros Hd. split; try done; try apply rewrite_shape.
  - apply set_entry_Full; try done; [by apply Hok|by right].
  - intros t Ht. unfold q0. by rewrite en_set_entry by lia.
  - intros t Ht Hn _. unfold q0. rewrite en_set_entry by lia. by destruct (Z.eqb_spec s t).
  - rewrite Hd. by apply Hok.
  - intros Hn. unfold lnk, q0. rewrite en_set_entry, Z.eqb_refl by lia. rewrite Hlink. by apply Hok.
Qed.

(** The timer leaves the heap. *)
Lemma rewrite_remove : in_heap q s → te_deadline_ns e = 0 →
  updated q (tr_timer_heap_remove q0 (lnk q s)) s e.
Proof.
  intros Hi Hd. destruct (link_hp _ _ Hsh Hi) as [Hl Hhp].
  pose proof (set_entry_Around q (lnk q s) e Hsh Hl (ok_full _ Hok)) as HA. rewrite Hhp in HA.
  pose proof (heap_remove_spec q0 (lnk q s) rewrite_shape Hl HA) as R.
  change (hp q0) with (hp q) in R. rewrite Hhp in R.
  split; try apply R.
  - intros t Ht. pose proof (rm_body _ _ _ R t Ht) as Hb. unfold q0 in Hb at 2.
    by rewrite en_set_entry in Hb by lia.
  - intros t Ht. rewrite (rm_heap _ _ _ R). change (in_heap q0 t) with (in_heap q t). tauto.
  - intros t Ht Hn Hnh. rewrite (rm_out _ _ _ R) by done. unfold q0. rewrite en_set_entry by lia.
    by destruct (Z.eqb_spec s t).
  - rewrite (rm_heap _ _ _ R). split; [tauto|lia].
  - intros _. apply (rm_link _ _ _ R).
Qed.

Lemma rearranged_updated q' : in_heap q s → te_deadline_ns e ≠ 0 → Full q' → rearranged q0 q' →
  updated q q' s e.
Proof.
  intros Hi Hd HF R. split; [apply R|done|apply R|apply R|..].
  - intros t Ht. pose proof (ra_body _ _ R t Ht) as Hb. unfold q0 in Hb.
    by rewrite en_set_entry in Hb by lia.
  - intros t _. apply (ra_heap _ _ R).
  - intros t Ht Hn Hnh. rewrite (ra_out _ _ R) by done. unfold q0. rewrite en_set_entry by lia.
    by destruct (Z.eqb_spec s t).
  - by rewrite (ra_heap _ _ R).
  - intros Hn. exfalso. apply Hn. by apply (ra_heap _ _ R).
Qed.

(** The timer moves in the heap. *)
Lemma rewrite_earlier : in_heap q s → 0 < te_deadline_ns e < dl q s →
  updated q (tr_timer_heap_up q0 (lnk q s)) s e.
Proof.
  intros Hi Hd. destruct (link_hp _ _ Hsh Hi) as [Hl Hhp].
  destruct (set_entry_Around q (lnk q s) e Hsh Hl (ok_full _ Hok)) as [HA HG]. rewrite Hhp in HA, HG.
  destruct (timer_heap_up_full q0 (lnk q s) rewrite_shape Hl) as [HF R];
    [|apply rearranged_updated; [done|lia|done|done]].
  split; [|done]. intros i Hi' Hne. destruct (Z.eq_dec (par i) (lnk q s)) as [E|]; [|by apply HA].
  simpl in Hi'. pose proof (hs_slot _ Hsh i ltac:(lia)).
  pose proof (ok_full _ Hok i Hi') as HK. change (hp q0) with (hp q). rewrite E, Hhp in *.
  unfold q0, kle in *. rewrite !dl_set_entry, Z.eqb_refl by lia.
  destruct (Z.eqb_spec s (hp q i)); [|lia]. exfalso. apply Hne.
  eapply shape_inj; [done| |done|]; [lia|congruence].
Qed.

Lemma rewrite_later : in_heap q s → dl q s < te_deadline_ns e →
  updated q (tr_timer_heap_down q0 (lnk q s)) s e.
Proof.
  intros Hi Hd. destruct (link_hp _ _ Hsh Hi) as [Hl Hhp]. pose proof (ok_dl _ Hok s Hr).
  destruct (set_entry_Around q (lnk q s) e Hsh Hl (ok_full _ Hok)) as [HA HG]. rewrite Hhp in HA, HG.
  destruct (timer_heap_down_full q0 (lnk q s) rewrite_shape Hl) as [HF R];
    [|apply rearranged_updated; [done|lia|done|done]].
  split; [|done]. intros i Hi' Hne. destruct (Z.eq_dec i (lnk q s)) as [E|]; [|by apply HA].
  simpl in Hi'. pose proof (par_lt i ltac:(lia)). pose proof (hs_slot _ Hsh (par i) ltac:(lia)).
  pose proof (ok_full _ Hok i Hi') as HK. change (hp q0) with (hp q). rewrite E, Hhp in *.
  unfold q0, kle in *. rewrite !dl_set_entry, Z.eqb_refl by lia.
  destruct (Z.eqb_spec s (hp q (par (lnk q s)))) as [E1|]; [|lia]. exfalso. apply Hne.
  rewrite <- Hhp in E1 at 1. apply shape_inj in E1; [congruence|done|lia|lia].
Qed.

(** The timer enters the heap. *)
Definition push (q : tr_timer_queue) (s : Z) : tr_timer_queue :=
  let pos := tq_size q in
  let q := set_heap (set_size q (tq_size q + 1)) pos s in
  set_entry q s (set_link (en q s) pos).

Lemma push_shape : ¬ in_heap q s → heap_shape (push q0 s) ∧ Up (push q0 s) (tq_size q) ∧
  ∀ i, 0 ≤ i → hp (push q0 s) i = if tq_size q =? i then s else hp q i.
Proof.
  intros Hn. pose proof (heap_room _ _ Hsh Hr Hn) as Hroom. pose proof (hs_size _ Hsh) as Hsz.
  pose proof (hs_heap _ Hsh) as Hhl. pose proof (hs_cap _ Hsh).
  assert (∀ i, 0 ≤ i → hp (push q0 s) i = if tq_size q =? i then s else hp q i) as Hhp.
  { intros i Hi. unfold push, q0, hp, set_heap. simpl. by rewrite aget_aset by lia. }
  assert (∀ t, 0 ≤ t → en (push q0 s) t =
    if s =? t then set_link e (tq_size q) else en q t) as Hen.
  { intros t Ht. unfold push. rewrite en_set_entry by (simpl; rewrite ?alen_aset; lia).
    change (en (set_heap _ _ _)) with (en q0). unfold q0. rewrite !en_set_entry by lia.
    rewrite Z.eqb_refl. by destruct (s =? t). }
  assert (∀ i, 0 ≤ i < tq_size q → hp q i ≠ s) as Hne.
  { intros i Hi E. apply Hn. by exists i. }
  split_and!; [..|done].
  - split; simpl; rewrite ?alen_aset; try done; try lia.
    + intros i Hi. change (0 ≤ hp (push q0 s) i < tq_capacity q). rewrite Hhp by lia.
      destruct (Z.eqb_spec (tq_size q) i); [done|]. apply Hsh. lia.
    + intros i Hi. rewrite Hhp by lia. destruct (Z.eqb_spec (tq_size q) i) as [E|].
      * rewrite Hen, Z.eqb_refl by lia. done.
      * pose proof (hs_slot _ Hsh i ltac:(lia)). rewrite Hen by lia.
        destruct (Z.eqb_spec s (hp q i)) as [E|]; [by destruct (Hne i ltac:(lia))|]. apply Hsh. lia.
  - split.
    + intros i Hi Hni. simpl in Hi. pose proof (par_lt i ltac:(lia)). rewrite !Hhp by lia.
      destruct (Z.eqb_spec (tq_size q) i); [lia|]. destruct (Z.eqb_spec (tq_size q) (par i)); [lia|].
      pose proof (hs_slot _ Hsh i ltac:(lia)). pose proof (hs_slot _ Hsh (par i) ltac:(lia)).
      unfold kle, dl. rewrite !Hen by lia. destruct (Z.eqb_spec s (hp q i)) as [E|];
        [by destruct (Hne i ltac:(lia))|]. destruct (Z.eqb_spec s (hp q (par i))) as [E|];
        [by destruct (Hne (par i) ltac:(lia))|]. apply (ok_full _ Hok). lia.
    + intros c Hc Hpc. simpl in Hc. pose proof (par_lt c ltac:(lia)). lia.
Qed.

Lemma rewrite_push : ¬ in_heap q s → te_deadline_ns e ≠ 0 →
  updated q (tr_timer_heap_up (push q0 s) (tq_size q)) s e.
Proof.
  intros Hn Hd. destruct (push_shape Hn) as (Hps & HU & Hhp).
  pose proof (hs_size _ Hsh) as Hsz.
  destruct (timer_heap_up_full (push q0 s) (tq_size q) Hps) as [HF R]; [simpl; lia|done|].
  assert (∀ t, in_heap (push q0 s) t ↔ in_heap q t ∨ t = s) as Hin.
  { intros t. unfold in_heap. simpl. split.
    - intros (i & Hi & <-). rewrite Hhp by lia.
      destruct (Z.eqb_spec (tq_size q) i); [by right|]. left. exists i. split; [lia|done].
    - intros [(i & Hi & <-)| ->].
      + exists i. split; [lia|]. rewrite Hhp by lia. by destruct (Z.eqb_spec (tq_size q) i); [lia|].
      + exists (tq_size q). split; [lia|]. rewrite Hhp by lia. by rewrite Z.eqb_refl. }
  assert (∀ t, 0 ≤ t → t ≠ s → en (push q0 s) t = en q t) as Hen.
  { intros t Ht Hts. unfold push. rewrite en_set_entry by (simpl; rewrite ?alen_aset; lia).
    change (en (set_heap _ _ _)) with (en q0). unfold q0. rewrite !en_set_entry by lia.
    by destruct (Z.eqb_spec s t); [congruence|]. }
  split; [apply R|done|apply R|apply R|..].
  - intros t Ht. unfold body_eq. rewrite (ra_body _ _ R t Ht).
    destruct (Z.eqb_spec s t) as [<-|]; [|by rewrite Hen].
    unfold push. rewrite en_set_entry, Z.eqb_refl by (simpl; rewrite ?alen_aset; lia).
    change (en (set_heap _ _ _)) with (en q0). unfold q0. by rewrite en_set_entry, Z.eqb_refl by lia.
  - intros t Ht. rewrite (ra_heap _ _ R), Hin. tauto.
  - intros t Ht Hts Hnt. rewrite (ra_out _ _ R); [by apply Hen|done|]. rewrite Hin. tauto.
  - rewrite (ra_heap _ _ R), Hin. tauto.
  - intros Hn'. exfalso. apply Hn'. rewrite (ra_heap _ _ R), Hin. by right.
Qed.

End Rewrite.

(** ** Arming *)

Definition bumped (v : Z) : Z := if u64 (v + 1) =? 0 then 1 else u64 (v + 1).
Definition rearmed (e : tr_timer_entry) (d : Z) : tr_timer_entry :=
  set_version (set_deadline e d) (bumped (te_version e)).

Definition token_ok (q : tr_timer_queue) (token : tr_timer_token) : Prop :=
  0 ≤ tk_slot token < tq_capacity q ∧ used q (tk_slot token) = true ∧
  te_generation (en q (tk_slot token)) = tk_generation token.

Lemma token_valid_spec q token : 0 ≤ tk_slot token →
  reflect (token_ok q token) (tr_timer_token_valid q token).
Proof.
  intros H0. unfold tr_timer_token_valid, token_ok, used.
  apply iff_reflect. destruct (Z.geb_spec (tk_slot token) (tq_capacity q)); [split; [lia|done]|].
  destruct (te_used (en q (tk_slot token))); simpl; [|split; [by intros (_ & ? & _)|done]].
  destruct (Z.eqb_spec (te_generation (en q (tk_slot token))) (tk_generation token)); simpl;
    (split; [try done; tauto|]); [intros _; split_and!; auto; lia|done].
Qed.

Lemma arm_updated q token d : tq_ok q → token_ok q token → 0 ≤ d →
  ∃ q', tq_arm q token d = (TR_OK, q') ∧
        updated q q' (tk_slot token) (rearmed (en q (tk_slot token)) d).
Proof.
  intros Hok (Hr & Hu & Hg) Hd. set (s := tk_slot token) in *.
  pose proof (link_in_heap q s Hok Hr Hu) as Hli. pose proof (ok_armed _ Hok s Hr Hu) as Harm.
  unfold tq_arm. fold s. destruct (token_valid_spec q token) as [_|[]]; [lia| |done].
  simpl. fold (bumped (te_version (en q s))). fold (rearmed (en q s) d).
  assert (te_link (rearmed (en q s) d) = lnk q s) as Hl by done.
  change (te_link (en q s)) with (lnk q s). change (te_deadline_ns (en q s)) with (dl q s).
  destruct (Z.eqb_spec d 0) as [->|Hd0]; [|destruct (Z.eqb_spec (lnk q s) TR_TIMER_HEAP_NONE) as [E|E]].
  - eexists. split; [done|]. destruct (Z.eqb_spec (lnk q s) TR_TIMER_HEAP_NONE) as [E|E]; simpl.
    + apply rewrite_still; try done. simpl. destruct (decide (dl q s = 0)); [done|]. tauto.
    + apply rewrite_remove; try done. tauto.
  - assert (¬ in_heap q s) as Hn by tauto.
    pose proof (heap_room q s (ok_shape _ Hok) Hr Hn).
    destruct (Z.eqb_spec (tq_size q) (tq_capacity q)); [lia|].
    eexists. split; [done|]. by apply (rewrite_push q s (rearmed (en q s) d)).
  - assert (in_heap q s) as Hi by tauto. eexists. split; [done|].
    destruct (Z.eqb_spec (dl q s) 0); [tauto|]. simpl.
    destruct (Z.ltb_spec d (dl q s)); [|destruct (Z.gtb_spec d (dl q s))].
    + apply rewrite_earlier; try done. simpl. lia.
    + by apply rewrite_later.
    + apply rewrite_still; try done. simpl. lia.
Qed.

Lemma arm_ok q token d : tq_ok q → 0 ≤ tk_slot token → 0 ≤ d → tq_ok (tq_arm q token d).2.
Proof.
  intros Hok H0 Hd. destruct (token_valid_spec q token H0) as [Ht|Ht].
  - destruct (arm_updated q token d Hok Ht Hd) as (q' & -> & U). destruct Ht as (Hr & Hu & _).
    by eapply updated_ok.
  - unfold tq_arm. by destruct (token_valid_spec q token H0).
Qed.

(** ** Registering and unregistering *)

(** Leaving the heap to [s]'s side: a slot outside the heap is rewritten at will. *)
Lemma in_heap_set q s e h : in_heap (set_free_head (set_entry q s e) h) = in_heap q.
Proof. done. Qed.

Lemma free_slot_out q s : tq_ok q → used q s = false → ¬ in_heap q s.
Proof. intros Hok Hu Hi. apply (ok_used _ Hok) in Hi. congruence. Qed.

Lemma register_ok q callback arg :
  tq_ok q → tq_free_head q ≠ TR_TIMER_HEAP_NONE →
  let s := tq_free_head q in
  let '(ret, q', token) := tq_register q callback arg in
  let g := if u32 (te_generation (en q s) + 1) =? 0 then 1 else u32 (te_generation (en q s) + 1) in
  ret = TR_OK ∧ token = Some (mk_token s g) ∧ 0 ≤ s < tq_capacity q ∧ used q s = false ∧
  tq_capacity q' = tq_capacity q ∧ tq_ok q' ∧
  ∀ t, 0 ≤ t → en q' t =
    if s =? t then mk_entry g TR_TIMER_HEAP_NONE 0 1 callback arg true false else en q t.
Proof.
  intros Hok Hfh. destruct (ok_free _ Hok) as (fl & Hc & Hnd & Hfl).
  destruct fl as [|s fl]; [done|]. destruct Hc as [Hs Hc]. simpl. rewrite Hs.
  apply NoDup_cons in Hnd as [Hnin Hnd].
  destruct (proj1 (Hfl s) (proj2 (elem_of_cons _ _ _) (or_introl eq_refl))) as [Hr Hu].
  pose proof (ok_shape _ Hok) as Hsh. pose proof (hs_entries _ Hsh) as He.
  unfold tq_register. rewrite Hs. destruct (Z.eqb_spec (tq_capacity q) 0); [lia|].
  destruct (Z.eqb_spec s TR_TIMER_HEAP_NONE); [congruence|]. simpl.
  set (g := if u32 (te_generation (en q s) + 1) =? 0 then 1 else u32 (te_generation (en q s) + 1)).
  set (e := mk_entry g TR_TIMER_HEAP_NONE 0 1 callback arg true false).
  pose proof (free_slot_out _ _ Hok Hu) as Hno.
  assert (∀ t, 0 ≤ t → en (set_entry (set_free_head q (te_link (en q s))) s e) t =
    if s =? t then e else en q t) as Hen by (intros t Ht; by rewrite en_set_entry by (simpl; lia)).
  assert (∀ t, t ∈ fl → 0 ≤ t < tq_capacity q ∧ used q t = false) as Hfl'
    by (intros t Ht; apply Hfl, elem_of_cons; by right).
  split_and!; try done; try lia.
  split; try done.
  - apply set_entry_shape; [by destruct Hsh|done|done].
  - apply set_entry_Full; [by destruct Hsh|done|by apply Hok|by left].
  - intros t Ht. simpl in Ht. unfold dl. rewrite Hen by lia. case_if; [done|by apply Hok].
  - intros t Hi. change (in_heap q t) in Hi. pose proof (in_heap_slot _ _ Hsh Hi).
    unfold used. rewrite Hen by lia. case_if; [done|by apply Hok].
  - intros t Ht. change (in_heap (set_entry _ s e) t) with (in_heap q t). unfold used, dl.
    simpl in Ht. rewrite !Hen by lia. case_if; [subst; intros _; simpl; tauto|by apply Hok].
  - intros t Ht. change (in_heap (set_entry _ s e) t) with (in_heap q t). unfold used, lnk.
    simpl in Ht. rewrite !Hen by lia. case_if; [done|by apply Hok].
  - exists fl. split_and!; [|done|].
    + apply chain_ext with (lnk q); [|done]. intros t Ht. unfold lnk.
      assert (0 ≤ t) by (by apply Hfl'). rewrite Hen by done. case_if; [congruence|done].
    + intros t. simpl. unfold used. split.
      * intros Ht. destruct (Hfl' t Ht) as [H1 H2]. split; [done|].
        rewrite Hen by lia. case_if; [congruence|done].
      * intros [H1 H2]. rewrite Hen in H2 by lia. case_if_in H2; [done|].
        assert (t ∈ s :: fl) as [|]%elem_of_cons by (by apply Hfl); congruence.
Qed.

(** The invariant, up to whether the timer of [s] is armed. *)
Record tq_ok_but (q : tr_timer_queue) (s : Z) : Prop := {
  okb_shape : heap_shape q;
  okb_full : Full q;
  okb_dl t : 0 ≤ t < tq_capacity q → 0 ≤ dl q t;
  okb_used t : in_heap q t → used q t = true;
  okb_armed t : t ≠ s → 0 ≤ t < tq_capacity q → used q t = true → in_heap q t ↔ dl q t ≠ 0;
  okb_link t : t ≠ s → 0 ≤ t < tq_capacity q → used q t = true → ¬ in_heap q t →
    lnk q t = TR_TIMER_HEAP_NONE;
  okb_free : ∃ fl, chain (lnk q) (tq_free_head q) fl ∧ NoDup fl ∧
    ∀ t, t ∈ fl ↔ 0 ≤ t < tq_capacity q ∧ used q t = false
}.

Lemma tq_ok_ok_but q s : tq_ok q → tq_ok_but q s.
Proof. intros []. by split; auto. Qed.

Lemma removed_ok_but q q' s : tq_ok q → removed q q' s → used q s = true → tq_ok_but q' s.
Proof.
  intros Hok R Hu. pose proof (rm_body _ _ _ R) as Hb.
  assert (∀ t, 0 ≤ t → used q' t = used q t) as Hus by (intros t Ht; by apply body_eq_used, Hb).
  assert (∀ t, 0 ≤ t → dl q' t = dl q t) as Hdl by (intros t Ht; by apply body_eq_deadline, Hb).
  split; try apply R; rewrite ?(rm_cap _ _ _ R).
  - intros t Ht. rewrite Hdl by lia. by apply Hok.
  - intros t Hi. pose proof (in_heap_slot _ _ (rm_shape _ _ _ R) Hi). rewrite Hus by lia.
    apply Hok. by apply (rm_heap _ _ _ R).
  - intros t Hne Ht. rewrite Hus, Hdl, (rm_heap _ _ _ R) by lia. intros H.
    rewrite (ok_armed _ Hok) by done. tauto.
  - intros t Hne Ht. rewrite Hus, (rm_heap _ _ _ R) by lia. intros H1 H2. unfold lnk.
    assert (¬ in_heap q t) by tauto. rewrite (rm_out _ _ _ R) by (done || lia). by apply Hok.
  - destruct (ok_free _ Hok) as (fl & Hc & Hnd & Hfl). exists fl. split_and!; [|done|].
    + rewrite (rm_free _ _ _ R). apply chain_ext with (lnk q); [|done].
      intros t [Ht Hnt]%Hfl. unfold lnk. rewrite (rm_out _ _ _ R); [done|lia|].
      by apply free_slot_out.
    + intros t. rewrite Hfl. split; intros [H1 H2]; (split; [done|]); rewrite Hus in * by lia; done.
Qed.

(** Putting a slot outside the heap back on the free list. *)
Lemma free_ok q s e : tq_ok_but q s → 0 ≤ s < tq_capacity q → used q s = true → ¬ in_heap q s →
  te_used e = false → te_link e = tq_free_head q → te_deadline_ns e = 0 →
  tq_ok (set_free_head (set_entry q s e) s).
Proof.
  intros Hok Hr Hu Hno Heu Hel Hed. pose proof (okb_shape _ _ Hok) as Hsh.
  pose proof (hs_entries _ Hsh) as He.
  assert (∀ t, 0 ≤ t → en (set_free_head (set_entry q s e) s) t =
    if s =? t then e else en q t) as Hen by (intros t Ht; by rewrite <- en_set_entry by lia).
  split; rewrite ?in_heap_set.
  - pose proof (set_entry_shape q s e Hsh Hr) as H. destruct H; done.
  - pose proof (set_entry_Full q s e Hsh Hr (okb_full _ _ Hok) ltac:(by left)) as H. exact H.
  - intros t Ht. simpl in Ht. unfold dl. rewrite Hen by lia. case_if; [lia|by apply Hok].
  - intros t Hi. pose proof (in_heap_slot _ _ Hsh Hi).
    unfold used. rewrite Hen by lia. case_if; [congruence|by apply Hok].
  - intros t Ht. unfold used, dl.
    simpl in Ht. rewrite !Hen by lia. case_if; [congruence|by apply Hok].
  - intros t Ht. unfold used, lnk.
    simpl in Ht. rewrite !Hen by lia. case_if; [congruence|by apply Hok].
  - destruct (okb_free _ _ Hok) as (fl & Hc & Hnd & Hfl).
    assert (s ∉ fl) as Hsf by (rewrite Hfl; intros []; congruence).
    exists (s :: fl). split_and!.
    + split; [done|]. unfold lnk at 2. rewrite Hen, Z.eqb_refl by lia. rewrite Hel.
      apply chain_ext with (lnk q); [|done]. intros t Ht. unfold lnk.
      assert (0 ≤ t) by (by apply Hfl). rewrite Hen by done. case_if; [congruence|done].
    + by constructor.
    + intros t. rewrite elem_of_cons. simpl. unfold used. split.
      * intros [->|H]; [split; [done|]; by rewrite Hen, Z.eqb_refl by lia|].
        apply Hfl in H as [H1 H2]. split; [done|]. rewrite Hen by lia. case_if; [congruence|done].
      * intros [H1 H2]. rewrite Hen in H2 by lia. case_if_in H2; [by left|]. right. by apply Hfl.
Qed.

Lemma unregister_ok q token : tq_ok q → token_ok q token →
  ∃ q', tq_unregister q token = (TR_OK, q') ∧ tq_ok q' ∧ tq_capacity q' = tq_capacity q ∧
    used q' (tk_slot token) = false ∧
    te_generation (en q' (tk_slot token)) = te_generation (en q (tk_slot token)) ∧
    ∀ t, 0 ≤ t → t ≠ tk_slot token → body_eq (en q' t) (en q t).
Proof.
  intros Hok (Hr & Hu & Hg). set (s := tk_slot token) in *.
  pose proof (link_in_heap q s Hok Hr Hu) as Hli.
  unfold tq_unregister. fold s. destruct (token_valid_spec q token) as [_|[]]; [lia| |done].
  simpl. change (te_link (en q s)) with (lnk q s).
  set (q1 := if negb (lnk q s =? TR_TIMER_HEAP_NONE) then tr_timer_heap_remove q (lnk q s) else q).
  assert (tq_ok_but q1 s ∧ ¬ in_heap q1 s ∧ tq_capacity q1 = tq_capacity q ∧
    ∀ t, 0 ≤ t → body_eq (en q1 t) (en q t)) as (Hb & Hno & Hc & Hbody).
  { unfold q1. destruct (Z.eqb_spec (lnk q s) TR_TIMER_HEAP_NONE) as [E|E]; simpl.
    - split_and!; try done; [by apply tq_ok_ok_but|tauto].
    - assert (in_heap q s) as Hi by tauto.
      destruct (link_hp _ _ (ok_shape _ Hok) Hi) as [Hl Hhp].
      pose proof (heap_remove_spec q (lnk q s) (ok_shape _ Hok) Hl
        (Full_Around q (lnk q s) (ok_full _ Hok) Hl)) as R. rewrite Hhp in R.
      split_and!; try apply R; [by eapply removed_ok_but|]. intros [_ H]%(rm_heap _ _ _ R). done. }
  pose proof (body_eq_used _ _ (Hbody s ltac:(lia))) as Hu1.
  pose proof (hs_entries _ (okb_shape _ _ Hb)) as He.
  eexists. split; [done|]. split_and!.
  - apply free_ok; try done; [lia|]. unfold used. by rewrite Hu1.
  - done.
  - unfold used. change (en (set_free_head ?a s)) with (en a). rewrite en_set_entry by lia.
    by rewrite Z.eqb_refl.
  - change (en (set_free_head ?a s)) with (en a). rewrite en_set_entry, Z.eqb_refl by lia. simpl.
    apply (body_eq_generation _ _ (Hbody s ltac:(lia))).
  - intros t Ht Hne. change (en (set_free_head ?a s)) with (en a). rewrite en_set_entry by lia.
    destruct (Z.eqb_spec s t); [congruence|]. by apply Hbody.
Qed.

(** ** The initial queue *)

Lemma init_ok queue capacity : is_Some queue → 0 < capacity < 2 ^ 31 →
  ∃ q, tr_timer_queue_init queue capacity true = (TR_OK, Some q) ∧ tq_ok q ∧
    tq_capacity q = capacity ∧ ∀ s, 0 ≤ s < capacity → used q s = false ∧ te_generation (en q s) = 0.
Proof.
  intros [q0 ->] Hc. unfold tr_timer_queue_init. simpl.
  destruct (Z.eqb_spec capacity 0); [lia|]. eexists. split; [done|].
  match goal with |- tq_ok ?x ∧ _ => set (q := x) end.
  assert (∀ s, 0 ≤ s < capacity → en q s =
    mk_entry 0 (if s + 1 <? capacity then s + 1 else TR_TIMER_HEAP_NONE) 0 0 0 0 false false) as Hen.
  { intros s Hs. unfold en, q, aget. simpl. apply list_lookup_total_correct.
    rewrite !list_lookup_fmap, lookup_seq_lt by lia. simpl. by rewrite Z2Nat.id by lia. }
  assert (∀ s, ¬ in_heap q s) as Hno by (intros s (i & Hi & _); simpl in Hi; lia).
  split_and!; [|done|by intros s Hs; unfold used; rewrite Hen].
  split.
  - split; unfold alen; simpl; rewrite ?length_map, ?length_seq, ?length_replicate; try lia.
  - intros i Hi. simpl in Hi. lia.
  - intros s Hs. unfold dl. by rewrite Hen.
  - intros s Hi. by destruct (Hno s).
  - intros s Hs. unfold used. by rewrite Hen.
  - intros s Hs. unfold used. by rewrite Hen.
  - exists (map Z.of_nat (seq 0 (Z.to_nat capacity))). split_and!.
    + apply (chain_seq _ capacity 0); [|lia|lia]. intros s Hs. unfold lnk. by rewrite Hen.
    + apply NoDup_fmap_2; [apply _|apply NoDup_seq].
    + intros s. rewrite list_elem_of_fmap. simpl. split.
      * intros (m & -> & Hm%elem_of_seq). unfold used. rewrite Hen by lia. split; [lia|done].
      * intros [Hs _]. exists (Z.to_nat s). split; [lia|]. apply elem_of_seq. lia.
Qed.

(** * What the queue promises *)

(** A slot as the client sees it: the generation it last had and, while it is
    registered, its deadline (0 when disarmed), callback and argument. *)
Record timer := mk_timer { tm_deadline : Z; tm_callback : Z; tm_arg : Z }.
Definition timers := Z → Z * option timer.

Definition view (q : tr_timer_queue) : timers := λ s,
  (te_generation (en q s),
   if used q s then Some (mk_timer (dl q s) (te_callback (en q s)) (te_arg (en q s))) else None).

Definition next_generation (g : Z) : Z := if u32 (g + 1) =? 0 then 1 else u32 (g + 1).

Inductive tq_op :=
| Op_register (callback arg : Z)
| Op_arm (token : tr_timer_token) (deadline_ns : Z)
| Op_unregister (token : tr_timer_token)
| Op_next_deadline.

Inductive tq_result :=
| Res_register (ret : tr_status) (token : option tr_timer_token)
| Res_status (ret : tr_status)
| Res_deadline (deadline_ns : Z).

Definition tq_exec (op : tq_op) (q : tr_timer_queue) : tq_result * tr_timer_queue :=
  match op with
  | Op_register callback arg =>
      let '(ret, q', token) := tr_timer_queue_register (Some q) callback arg true in
      (Res_register ret token, default q q')
  | Op_arm token deadline_ns =>
      let '(ret, q') := tr_timer_queue_arm (Some q) token deadline_ns in (Res_status ret, default q q')
  | Op_unregister token =>
      let '(ret, q') := tr_timer_queue_unregister (Some q) token in (Res_status ret, default q q')
  | Op_next_deadline => (Res_deadline (tr_timer_queue_next_deadline (Some q)), q)
  end.

(** The token designates the timer registered in its slot. *)
Definition designates (T : timers) (cap : Z) (token : tr_timer_token) : Prop :=
  0 ≤ tk_slot token < cap ∧ (T (tk_slot token)).1 = tk_generation token ∧
  is_Some (T (tk_slot token)).2.

Definition armed (T : timers) (cap s d : Z) : Prop :=
  0 ≤ s < cap ∧ d ≠ 0 ∧ ∃ t, (T s).2 = Some t ∧ tm_deadline t = d.

(** The same everywhere but in one slot. *)
Definition replaces (T T' : timers) (s : Z) (x : Z * option timer) : Prop :=
  T' s = x ∧ ∀ t, 0 ≤ t → t ≠ s → T' t = T t.
Definition unchanged (T T' : timers) : Prop := ∀ t, 0 ≤ t → T' t = T t.

(** The abstract timer set: any free slot may be chosen, the rest is determined. *)
Inductive spec_step (cap : Z) (T : timers) : tq_op → tq_result → timers → Prop :=
| S_register callback arg s T' :
    callback ≠ 0 → 0 ≤ s < cap → (T s).2 = None →
    replaces T T' s (next_generation (T s).1, Some (mk_timer 0 callback arg)) →
    spec_step cap T (Op_register callback arg)
      (Res_register TR_OK (Some (mk_token s (next_generation (T s).1)))) T'
| S_register_full callback arg T' :
    callback ≠ 0 → (∀ s, 0 ≤ s < cap → is_Some (T s).2) → unchanged T T' →
    spec_step cap T (Op_register callback arg) (Res_register TR_AGAIN None) T'
| S_register_null arg T' :
    unchanged T T' → spec_step cap T (Op_register 0 arg) (Res_register TR_ERR_INVALID None) T'
| S_arm token d t T' :
    designates T cap token → (T (tk_slot token)).2 = Some t →
    replaces T T' (tk_slot token) (tk_generation token, Some (mk_timer d (tm_callback t) (tm_arg t))) →
    spec_step cap T (Op_arm token d) (Res_status TR_OK) T'
| S_arm_stale token d T' :
    ¬ designates T cap token → unchanged T T' →
    spec_step cap T (Op_arm token d) (Res_status TR_ERR_STALE) T'
| S_unregister token T' :
    designates T cap token → replaces T T' (tk_slot token) (tk_generation token, None) →
    spec_step cap T (Op_unregister token) (Res_status TR_OK) T'
| S_unregister_stale token T' :
    ¬ designates T cap token → unchanged T T' →
    spec_step cap T (Op_unregister token) (Res_status TR_ERR_STALE) T'
| S_next_none T' :
    (∀ s d, ¬ armed T cap s d) → unchanged T T' →
    spec_step cap T Op_next_deadline (Res_deadline 0) T'
| S_next s d T' :
    armed T cap s d → (∀ s' d', armed T cap s' d' → d ≤ d') → unchanged T T' →
    spec_step cap T Op_next_deadline (Res_deadline d) T'.

(** Machine-width arguments. *)
Definition op_ok (op : tq_op) : Prop :=
  match op with
  | Op_arm token d => u32_ok (tk_slot token) ∧ u64_ok d
  | Op_unregister token => u32_ok (tk_slot token)
  | _ => True
  end.

Lemma designates_token q token :
  designates (view q) (tq_capacity q) token ↔ token_ok q token.
Proof.
  unfold designates, token_ok, view. simpl. destruct (used q (tk_slot token)); simpl.
  - split; [tauto|]. intros (? & _ & ?). split_and!; try done; lia.
  - split; [intros (_ & _ & [? ?]); done|intros (_ & ? & _); done].
Qed.

Lemma armed_in_heap q s d : tq_ok q →
  armed (view q) (tq_capacity q) s d ↔ in_heap q s ∧ dl q s = d.
Proof.
  intros Hok. unfold armed, view. simpl. split.
  - intros (Hs & Hd & t & E & Ht). destruct (used q s) eqn:Hu; [|done]. simplify_eq. simpl in *.
    split; [|done]. by apply (ok_armed _ Hok).
  - intros [Hi E]. pose proof (in_heap_slot _ _ (ok_shape _ Hok) Hi) as Hs.
    pose proof (ok_used _ Hok _ Hi) as Hu. rewrite Hu. split_and!; try lia.
    + subst. by apply (ok_armed _ Hok).
    + by eexists.
Qed.

(** The root of an ordered heap is its minimum. *)
Lemma head_min q i : Full q → 0 ≤ i < tq_size q → kle q (hp q 0) (hp q i).
Proof.
  intros HF Hi. assert (0 ≤ i) as H0 by lia. revert Hi. pattern i.
  apply Z_lt_induction; [|done]. clear i H0. intros i IH Hi. destruct (Z.eq_dec i 0) as [->|]; [apply kle_refl|].
  pose proof (par_lt i ltac:(lia)). apply (kle_trans _ _ (hp q (par i))); [apply IH; lia|].
  apply HF. lia.
Qed.

Lemma updated_view q q' s e : updated q q' s e → te_used e = true → 0 ≤ s →
  replaces (view q) (view q') s
    (te_generation e, Some (mk_timer (te_deadline_ns e) (te_callback e) (te_arg e))).
Proof.
  intros U Hu H0. split.
  - pose proof (up_body _ _ _ _ U s H0) as Hb. rewrite Z.eqb_refl in Hb.
    unfold view, used, dl. injection Hb as -> -> _ -> -> -> _. by rewrite Hu.
  - intros t Ht Hne. pose proof (up_body _ _ _ _ U t Ht) as Hb.
    destruct (Z.eqb_spec s t); [congruence|].
    unfold view, used, dl. by injection Hb as -> -> _ -> -> -> _.
Qed.

Lemma body_eq_view q q' t : body_eq (en q' t) (en q t) → view q' t = view q t.
Proof. intros Hb. unfold view, used, dl. by injection Hb as -> -> _ -> -> -> _. Qed.

Lemma exec_refines q op : tq_ok q → op_ok op →
  tq_ok (tq_exec op q).2 ∧ tq_capacity (tq_exec op q).2 = tq_capacity q ∧
  spec_step (tq_capacity q) (view q) op (tq_exec op q).1 (view (tq_exec op q).2).
Proof.
  intros Hok Hop. destruct op as [callback arg|token d|token|]; simpl in *.
  - destruct (Z.eqb_spec callback 0) as [->|Hcb]; simpl; [split_and!; try done; by constructor|].
    destruct (decide (tq_free_head q = TR_TIMER_HEAP_NONE)) as [E|E].
    + unfold tq_register. rewrite E, Z.eqb_refl, orb_true_r. simpl. split_and!; try done.
      constructor; try done. intros s Hs. destruct (ok_free _ Hok) as (fl & Hc & _ & Hfl).
      assert (used q s = true) as Hu; [|unfold view; simpl; by rewrite Hu].
      destruct (used q s) eqn:Hu; [done|]. exfalso.
      assert (s ∈ fl) as Hin by (by apply Hfl). destruct fl as [|s0 fl]; [by apply elem_of_nil in Hin|].
      destruct Hc as [Hc _]. assert (0 ≤ s0 < tq_capacity q) by (apply Hfl, elem_of_cons; auto).
      pose proof (hs_cap _ (ok_shape _ Hok)). rewrite E in Hc. unfold TR_TIMER_HEAP_NONE in Hc. word_lia.
    + pose proof (register_ok q callback arg Hok E) as H. simpl in H.
      destruct (tq_register q callback arg) as [[ret q'] token].
      destruct H as (-> & -> & Hs & Hu & Hc & Hok' & Hen). simpl. split_and!; try done.
      apply S_register; try done.
      * unfold view. simpl. by rewrite Hu.
      * split; [unfold view, used, dl; rewrite Hen, Z.eqb_refl by lia; done|].
        intros t Ht Hne. unfold view, used, dl. rewrite Hen by done.
        by destruct (Z.eqb_spec (tq_free_head q) t); [congruence|].
  - destruct Hop as [Hsl Hd]. destruct (token_valid_spec q token) as [Ht|Ht]; [word_lia|..].
    + destruct (arm_updated q token d Hok Ht ltac:(word_lia)) as (q' & -> & U). simpl.
      pose proof Ht as (Hr & Hu & Hg). split_and!; [|apply U|].
      * eapply updated_ok; try done. simpl. word_lia.
      * eapply S_arm; [by apply designates_token|unfold view; simpl; by rewrite Hu|].
        pose proof (updated_view _ _ _ _ U Hu ltac:(lia)) as HV. simpl in *. by rewrite Hg in HV.
    + unfold tq_arm. destruct (token_valid_spec q token) as [|_]; [word_lia|done|]. simpl.
      split_and!; try done. constructor; [by rewrite designates_token|done].
  - destruct (token_valid_spec q token) as [Ht|Ht]; [word_lia|..].
    + destruct (unregister_ok q token Hok Ht) as (q' & -> & Hok' & Hc & Hu' & Hg' & Hb). simpl.
      split_and!; try done. constructor; [by apply designates_token|].
      split; [unfold view; rewrite Hu', Hg'; by destruct Ht as (_ & _ & ->)|].
      intros t H0 Hne. by apply body_eq_view, Hb.
    + unfold tq_unregister. destruct (token_valid_spec q token) as [|_]; [word_lia|done|]. simpl.
      split_and!; try done. constructor; [by rewrite designates_token|done].
  - split_and!; try done. unfold tq_next_deadline. pose proof (hs_size _ (ok_shape _ Hok)).
    destruct (Z.eqb_spec (tq_size q) 0) as [E|E].
    + constructor; [|done]. intros s d Ha. apply armed_in_heap in Ha as [(i & Hi & _) _]; [lia|done].
    + apply (S_next _ _ (hp q 0)); [| |done].
      * apply armed_in_heap; [done|]. split; [exists 0; split; [lia|done]|done].
      * intros s' d' Ha. apply armed_in_heap in Ha as [(i & Hi & <-) <-]; [|done].
        pose proof (head_min q i (ok_full _ Hok) Hi) as HK. unfold kle, dl in *. lia.
Qed.

(** * Runs *)

Fixpoint tq_trace (ops : list tq_op) (q : tr_timer_queue) : list tq_result * tr_timer_queue :=
  match ops with
  | [] => ([], q)
  | op :: ops =>
      let '(r, q) := tq_exec op q in
      let '(rs, q) := tq_trace ops q in (r :: rs, q)
  end.

Inductive spec_trace (cap : Z) : timers → list tq_op → list tq_result → timers → Prop :=
| T_nil T : spec_trace cap T [] [] T
| T_cons T op r T' ops rs T'' :
    spec_step cap T op r T' → spec_trace cap T' ops rs T'' →
    spec_trace cap T (op :: ops) (r :: rs) T''.

Lemma trace_refines ops q : tq_ok q → Forall op_ok ops →
  spec_trace (tq_capacity q) (view q) ops (tq_trace ops q).1 (view (tq_trace ops q).2).
Proof.
  revert q. induction ops as [|op ops IH]; intros q Hok Hops; simpl; [constructor|].
  apply Forall_cons in Hops as [Hop Hops].
  destruct (exec_refines q op Hok Hop) as (Hok' & Hc & HS).
  destruct (tq_exec op q) as [r q1]. simpl in *. specialize (IH q1 Hok' Hops). rewrite Hc in IH.
  destruct (tq_trace ops q1) as [rs q2]. simpl in *. by econstructor.
Qed.

(** C22: A freshly initialised queue, driven by any sequence of register, arm, unregister
    and next-deadline calls, behaves as the abstract timer set: a slot is handed out
    only when free and under a new generation, a call whose token does not designate
    the registered timer of its slot is refused as stale and changes nothing, arming
    never fails for lack of heap space, and the next deadline is the least one armed. *)
Theorem timer_queue_refines_spec queue capacity ops :
  is_Some queue → 0 < capacity < 2 ^ 31 → Forall op_ok ops →
  ∃ q, tr_timer_queue_init queue capacity true = (TR_OK, Some q) ∧
    (∀ s, 0 ≤ s < capacity → view q s = (0, None)) ∧
    spec_trace capacity (view q) ops (tq_trace ops q).1 (view (tq_trace ops q).2).
Proof.
  intros Hq Hc Hops. destruct (init_ok queue capacity Hq Hc) as (q & E & Hok & Hcap & Hv).
  exists q. split_and!; [done| |rewrite <- Hcap; by apply trace_refines].
  intros s Hs. unfold view. by destruct (Hv s Hs) as [-> ->].
Qed.

Lemma timer_queue_refines_spec_witness :
  ∃ q, tr_timer_queue_init (Some zero_tq) 2 true = (TR_OK, Some q) ∧
    (∀ s, 0 ≤ s < 2 → view q s = (0, None)) ∧
    spec_trace 2 (view q)
      [Op_register 7 0; Op_arm (mk_token 0 1) 50; Op_register 8 0; Op_arm (mk_token 1 1) 20;
       Op_next_deadline; Op_unregister (mk_token 1 1); Op_arm (mk_token 1 1) 5; Op_next_deadline]
      [Res_register TR_OK (Some (mk_token 0 1)); Res_status TR_OK;
       Res_register TR_OK (Some (mk_token 1 1)); Res_status TR_OK; Res_deadline 20;
       Res_status TR_OK; Res_status TR_ERR_STALE; Res_deadline 50]
      (view (tq_trace
        [Op_register 7 0; Op_arm (mk_token 0 1) 50; Op_register 8 0; Op_arm (mk_token 1 1) 20;
         Op_next_deadline; Op_unregister (mk_token 1 1); Op_arm (mk_token 1 1) 5; Op_next_deadline] q).2).
Proof.
  destruct (timer_queue_refines_spec (Some zero_tq) 2
    [Op_register 7 0; Op_arm (mk_token 0 1) 50; Op_register 8 0; Op_arm (mk_token 1 1) 20;
     Op_next_deadline; Op_unregister (mk_token 1 1); Op_arm (mk_token 1 1) 5; Op_next_deadline])
    as (q & E & Hv & HT).
  - by eexists.
  - lia.
  - repeat (apply Forall_cons; split; [simpl; try word_lia; done|]); apply Forall_nil; done.
  - exists q. split; [exact E|]. split; [exact Hv|].
    assert (q = default zero_tq (tr_timer_queue_init (Some zero_tq) 2 true).2) as ->
      by (rewrite E; reflexivity).
    exact HT.
Defined.

(** * Firing *)

(** Programs whose arguments are machine integers. *)
Fixpoint prog_ok (prog : timer_prog) : Prop :=
  match prog with
  | P_return next_ns => u64_ok next_ns
  | P_register _ _ k =>
      ∀ ret token, (∀ t, token = Some t → u32_ok (tk_slot t)) → prog_ok (k (ret, token))
  | P_arm token d k => u32_ok (tk_slot token) ∧ u64_ok d ∧ ∀ ret, prog_ok (k ret)
  | P_unregister token k => u32_ok (tk_slot token) ∧ ∀ ret, prog_ok (k ret)
  | P_next_deadline k => ∀ d, prog_ok (k d)
  end.

Lemma run_prog_ok prog q : prog_ok prog → tq_ok q →
  tq_ok (run_prog prog q).1 ∧ tq_capacity (run_prog prog q).1 = tq_capacity q ∧
  u64_ok (run_prog prog q).2.
Proof.
  revert q. induction prog as [n|callback arg k IH|token d k IH|token k IH|k IH]; intros q Hp Hok;
    simpl in Hp.
  - done.
  - destruct (exec_refines q (Op_register callback arg) Hok I) as (Hok' & Hc & HS). simpl in *.
    destruct ((callback =? 0) || false); simpl in *; [by apply IH, Hok; apply Hp|].
    destruct (tq_register q callback arg) as [[ret q1] token]. simpl in *.
    rewrite <- Hc. apply IH; [|done]. apply Hp. intros t ->. inversion HS; subst.
    pose proof (hs_cap _ (ok_shape _ Hok)). simpl in *; word_lia.
  - destruct Hp as (Ht & Hd & Hk).
    destruct (exec_refines q (Op_arm token d) Hok (conj Ht Hd)) as (Hok' & Hc & _). simpl in *.
    destruct (tq_arm q token d) as [ret q1]. simpl in *. rewrite <- Hc. by apply IH.
  - destruct Hp as (Ht & Hk).
    destruct (exec_refines q (Op_unregister token) Hok Ht) as (Hok' & Hc & _). simpl in *.
    destruct (tq_unregister q token) as [ret q1]. simpl in *. rewrite <- Hc. by apply IH.
  - by apply IH.
Qed.

(** The head of the heap, taken out and marked running. *)
Lemma detach_head q : tq_ok q → tq_size q ≠ 0 →
  let s := hp q 0 in
  updated q (set_entry (tr_timer_heap_remove q 0) s
      (set_running (set_deadline (en (tr_timer_heap_remove q 0) s) 0) true)) s
    (set_running (set_deadline (en q s) 0) true).
Proof.
  intros Hok Hsz s. pose proof (ok_shape _ Hok) as Hsh. pose proof (hs_size _ Hsh) as Hsz'.
  assert (0 ≤ 0 < tq_size q) as H0 by lia. pose proof (hs_slot _ Hsh 0 H0) as Hs. fold s in Hs.
  pose proof (heap_remove_spec q 0 Hsh H0 (Full_Around q 0 (ok_full _ Hok) H0)) as R. fold s in R.
  set (q1 := tr_timer_heap_remove q 0) in *. pose proof (rm_shape _ _ _ R) as Hsh1.
  pose proof (hs_entries _ Hsh1) as He1. pose proof (rm_cap _ _ _ R) as Hc1.
  assert (¬ in_heap q1 s) as Hn by (intros [_ H]%(rm_heap _ _ _ R); done).
  split.
  - by apply set_entry_shape; [|lia|].
  - by apply set_entry_Full; [|lia|apply R|left].
  - done.
  - apply R.
  - intros t Ht. rewrite en_set_entry by lia. pose proof (rm_body _ _ _ R t Ht) as Hb.
    destruct (Z.eqb_spec s t) as [<-|]; [|done].
    unfold body_eq, set_running, set_deadline, set_link in *. simpl. by injection Hb as -> _ -> -> -> -> _.
  - intros t Ht. change (in_heap (set_entry q1 s _) t) with (in_heap q1 t).
    rewrite (rm_heap _ _ _ R). tauto.
  - intros t Ht Hne Hnh. rewrite en_set_entry by lia.
    destruct (Z.eqb_spec s t); [congruence|]. by apply R.
  - simpl. change (in_heap (set_entry q1 s _) s) with (in_heap q1 s). tauto.
  - intros _. unfold lnk. rewrite en_set_entry, Z.eqb_refl by lia. apply R.
Qed.

Lemma bumped_ne v : bumped v ≠ v.
Proof.
  unfold bumped, u64. destruct (Z.eqb_spec ((v + 1) mod 2 ^ 64) 0) as [E|_]; intros H.
  - subst v. done.
  - pose proof (Z.mod_pos_bound (v + 1) (2 ^ 64) ltac:(lia)).
    pose proof (Z.div_mod (v + 1) (2 ^ 64) ltac:(lia)) as HD. rewrite H in HD. lia.
Qed.

(** Clearing the running mark. *)
Lemma stop_running q s : tq_ok q → 0 ≤ s < tq_capacity q → used q s = true →
  updated q (set_entry q s (set_running (en q s) false)) s (set_running (en q s) false).
Proof. intros Hok Hs Hu. by apply rewrite_still. Qed.

Section Firing.
Variable callbacks : Z → Z → Z → timer_prog.
Hypothesis callbacks_ok : ∀ callback arg now_ns, prog_ok (callbacks callback arg now_ns).

Lemma fire_head_ok q now_ns : tq_ok q → tq_size q ≠ 0 →
  tq_ok (fire_head callbacks q now_ns).1 ∧
  tq_capacity (fire_head callbacks q now_ns).1 = tq_capacity q ∧
  (fire_head callbacks q now_ns).2 = (hp q 0, dl q (hp q 0)).
Proof.
  intros Hok Hsz. pose proof (detach_head q Hok Hsz) as U. simpl in U. unfold fire_head.
  set (s := hp q 0) in *. pose proof (hs_size _ (ok_shape _ Hok)).
  pose proof (hs_slot _ (ok_shape _ Hok) 0 ltac:(lia)) as Hs. fold s in Hs.
  assert (used q s = true) as Hu by (apply (ok_used _ Hok); exists 0; split; [lia|done]).
  pose proof (updated_ok _ _ _ _ Hok U Hs Hu Hu ltac:(done)) as Hok2.
  set (q2 := set_entry (tr_timer_heap_remove q 0) s _) in *.
  assert (∃ q3 n, (if negb (te_callback (en q s) =? 0)
      then run_prog (callbacks (te_callback (en q s)) (te_arg (en q2 s)) now_ns) q2 else (q2, 0)) = (q3, n) ∧
    tq_ok q3 ∧ tq_capacity q3 = tq_capacity q ∧ u64_ok n) as (q3 & n & -> & Hok3 & Hc3 & Hn).
  { rewrite <- (up_cap _ _ _ _ U). destruct (negb (te_callback (en q s) =? 0)).
    - destruct (run_prog_ok (callbacks (te_callback (en q s)) (te_arg (en q2 s)) now_ns) q2) as (? & ? & ?);
        [done..|]. eexists _, _. by rewrite <- surjective_pairing.
    - by eexists _, _. }
  destruct (te_used (en q3 s)) eqn:Hu3; simpl; [|done].
  destruct (te_generation (en q3 s) =? te_generation (en q s)); simpl; [|done].
  pose proof (stop_running q3 s Hok3 ltac:(lia) Hu3) as U4.
  assert (tq_ok (set_entry q3 s (set_running (en q3 s) false))) as Hok4.
  { apply (updated_ok _ _ _ _ Hok3 U4); try done; [lia|]. apply (ok_dl _ Hok3 s). lia. }
  destruct ((te_version (en q3 s) =? te_version (en q s)) && negb (n =? 0)); simpl; [|done].
  set (q4 := set_entry q3 s _) in *. set (token := mk_token s _).
  destruct (exec_refines q4 (Op_arm token n) Hok4) as (H1 & H2 & _); [split; [simpl|done]|].
  { pose proof (hs_cap _ (ok_shape _ Hok)). word_lia. }
  simpl in H1, H2. destruct (tq_arm q4 token n). simpl in *. split_and!; [done|lia|done].
Qed.

(** Timers fire one at a time, always the least armed one, and only when it is due. *)
Inductive due_run (now_ns : Z) : tr_timer_queue → list (Z * Z) → tr_timer_queue → Prop :=
| Due_done q : due_run now_ns q [] q
| Due_fire q s d fired q' :
    armed (view q) (tq_capacity q) s d → d ≤ now_ns →
    (∀ s' d', armed (view q) (tq_capacity q) s' d' → d < d' ∨ d = d' ∧ s ≤ s') →
    due_run now_ns (fire_head callbacks q now_ns).1 fired q' →
    due_run now_ns q ((s, d) :: fired) q'.

Definition some_due (q : tr_timer_queue) (now_ns : Z) : Prop :=
  ∃ s d, armed (view q) (tq_capacity q) s d ∧ d ≤ now_ns.

Lemma head_armed q : tq_ok q → tq_size q ≠ 0 →
  armed (view q) (tq_capacity q) (hp q 0) (dl q (hp q 0)) ∧
  ∀ s' d', armed (view q) (tq_capacity q) s' d' →
    dl q (hp q 0) < d' ∨ dl q (hp q 0) = d' ∧ hp q 0 ≤ s'.
Proof.
  intros Hok Hsz. pose proof (hs_size _ (ok_shape _ Hok)). split.
  - apply armed_in_heap; [done|]. split; [exists 0; split; [lia|done]|done].
  - intros s d Ha. apply armed_in_heap in Ha as [(i & Hi & <-) <-]; [|done].
    apply (head_min q i (ok_full _ Hok) Hi).
Qed.

Lemma head_due q now_ns : tq_ok q →
  negb (tq_size q =? 0) && (te_deadline_ns (en q (hp q 0)) <=? now_ns) = true ↔ some_due q now_ns.
Proof.
  intros Hok. destruct (Z.eqb_spec (tq_size q) 0) as [E|E]; simpl.
  - split; [done|]. intros (s & d & Ha & _). apply armed_in_heap in Ha as [(i & Hi & _) _]; [lia|done].
  - destruct (head_armed q Hok E) as [Ha Hmin]. fold (dl q (hp q 0)). rewrite Z.leb_le. split.
    + intros Hle. by exists (hp q 0), (dl q (hp q 0)).
    + intros (s & d & Ha' & Hd). apply Hmin in Ha'. lia.
Qed.

Lemma run_due_loop_spec budget q now_ns fired0 : tq_ok q →
  ∃ fired, run_due_loop callbacks budget q now_ns fired0 =
      ((run_due_loop callbacks budget q now_ns fired0).1, fired0 ++ fired) ∧
    tq_ok (run_due_loop callbacks budget q now_ns fired0).1 ∧
    tq_capacity (run_due_loop callbacks budget q now_ns fired0).1 = tq_capacity q ∧
    due_run now_ns q fired (run_due_loop callbacks budget q now_ns fired0).1 ∧
    (length fired ≤ budget)%nat ∧
    ((length fired < budget)%nat → ¬ some_due (run_due_loop callbacks budget q now_ns fired0).1 now_ns).
Proof.
  revert q fired0. induction budget as [|budget IH]; intros q fired0 Hok; simpl.
  - exists []. rewrite app_nil_r. split_and!; try done; [constructor|simpl; lia].
  - pose proof (head_due q now_ns Hok) as Hdue.
    destruct (Z.eqb_spec (tq_size q) 0) as [E|E]; simpl in *.
    { exists []. rewrite app_nil_r. split_and!; try done; [constructor|simpl; lia|].
      intros _ H. by apply Hdue in H. }
    destruct (head_armed q Hok E) as [Ha Hmin].
    destruct (Z.gtb_spec (te_deadline_ns (en q (hp q 0))) now_ns) as [Hgt|Hle].
    { exists []. rewrite app_nil_r. split_and!; try done; [constructor|simpl; lia|].
      intros _ H. apply Hdue, Z.leb_le in H. lia. }
    destruct (fire_head_ok q now_ns Hok E) as (Hok1 & Hc1 & Hf).
    destruct (fire_head callbacks q now_ns) as [q1 f] eqn:Efire. simpl in *. subst f.
    destruct (IH q1 (fired0 ++ [(hp q 0, dl q (hp q 0))]) Hok1) as (fired & E1 & H1 & H2 & H3 & H4 & H5).
    exists ((hp q 0, dl q (hp q 0)) :: fired). split_and!.
    + rewrite E1 at 1. f_equal. by rewrite <- app_assoc.
    + done.
    + congruence.
    + constructor; try done. by rewrite Efire.
    + simpl. lia.
    + simpl. intros ?. apply H5. lia.
Qed.

End Firing.

(** Running due timers, whatever queue operations the callbacks perform: the invariant is
    kept, every firing is of the least armed timer at that moment and of a due one, at
    most [max_callbacks] fire, the run stops short of that only when nothing is due, and
    [has_more_due] says exactly whether a due timer is left. *)
Theorem timer_run_due_fires_in_order callbacks q now_ns max_callbacks :
  (∀ callback arg now, prog_ok (callbacks callback arg now)) → tq_ok q →
  ∃ q' fired more,
    tr_timer_queue_run_due callbacks (Some q) now_ns max_callbacks = (Some q', fired, more) ∧
    tq_ok q' ∧ due_run callbacks now_ns q fired q' ∧ (length fired ≤ max_callbacks)%nat ∧
    ((length fired < max_callbacks)%nat → more = false) ∧
    (more = true ↔ some_due q' now_ns).
Proof.
  intros Hcb Hok. unfold tr_timer_queue_run_due.
  destruct (run_due_loop_spec callbacks Hcb max_callbacks q now_ns [] Hok)
    as (fired & E & H1 & H2 & H3 & H4 & H5).
  rewrite E. simpl. set (q' := (run_due_loop callbacks max_callbacks q now_ns []).1) in *.
  eexists q', fired, _. split; [done|]. pose proof (head_due q' now_ns H1) as Hd.
  split_and!; try done. intros Hlt. destruct (negb _ && _); [|done].
  exfalso. apply (H5 Hlt). by apply Hd.
Qed.

(** A queue with two armed timers. *)
Definition two_timers : tr_timer_queue :=
  (tq_trace [Op_register 7 0; Op_arm (mk_token 0 1) 50; Op_register 8 0; Op_arm (mk_token 1 1) 20]
     (default zero_tq (tr_timer_queue_init (Some zero_tq) 2 true).2)).2.

(** Callback 8 unregisters the other timer; callback 7 re-arms itself. *)
Definition two_callbacks (callback arg now_ns : Z) : timer_prog :=
  if callback =? 8 then P_unregister (mk_token 0 1) (λ _, P_return 0) else P_return 90.

Lemma trace_ok ops q : tq_ok q → Forall op_ok ops → tq_ok (tq_trace ops q).2.
Proof.
  revert q. induction ops as [|op ops IH]; intros q Hok Hops; simpl; [done|].
  apply Forall_cons in Hops as [Hop Hops]. destruct (exec_refines q op Hok Hop) as (Hok' & _).
  destruct (tq_exec op q) as [r q1]. specialize (IH q1 Hok' Hops). by destruct (tq_trace ops q1).
Qed.

Lemma two_timers_ok : tq_ok two_timers.
Proof.
  apply trace_ok.
  - destruct (init_ok (Some zero_tq) 2) as (q & E & Hok & _); [by eexists|lia|]. by rewrite E.
  - repeat (apply Forall_cons; split; [simpl; try word_lia; done|]); apply Forall_nil; done.
Qed.

Lemma timer_run_due_fires_in_order_witness : ∃ q',
  (tr_timer_queue_run_due two_callbacks (Some two_timers) 60 5) = (Some q', [(1, 20)], false) ∧
  due_run two_callbacks 60 two_timers [(1, 20)] q'.
Proof.
  destruct (timer_run_due_fires_in_order two_callbacks two_timers 60 5)
    as (q' & fired & more & E & _ & Hrun & _).
  - intros callback arg now. unfold two_callbacks. destruct (callback =? 8); simpl; try split; word_lia.
  - exact two_timers_ok.
  - exists q'. assert (fired = [(1, 20)] ∧ more = false) as [-> ->].
    { revert E. vm_compute. intros E. by simplify_eq. }
    exact (conj E Hrun).
Defined.

(** ** What a firing leaves behind *)

Section FireEffect.
Variable callbacks : Z → Z → Z → timer_prog.

Lemma fire_return q now_ns n : tq_ok q → tq_size q ≠ 0 → u64_ok n →
  (if te_callback (en q (hp q 0)) =? 0 then P_return 0
   else callbacks (te_callback (en q (hp q 0))) (te_arg (en q (hp q 0))) now_ns) = P_return n →
  replaces (view q) (view (fire_head callbacks q now_ns).1) (hp q 0)
    (te_generation (en q (hp q 0)),
     Some (mk_timer n (te_callback (en q (hp q 0))) (te_arg (en q (hp q 0))))).
Proof.
  intros Hok Hsz Hn HP. pose proof (detach_head q Hok Hsz) as U. simpl in U. unfold fire_head.
  set (s := hp q 0) in *. pose proof (hs_size _ (ok_shape _ Hok)).
  pose proof (hs_slot _ (ok_shape _ Hok) 0 ltac:(lia)) as Hs. fold s in Hs.
  assert (used q s = true) as Hu by (apply (ok_used _ Hok); exists 0; split; [lia|done]).
  pose proof (updated_ok _ _ _ _ Hok U Hs Hu Hu ltac:(done)) as Hok2.
  set (q2 := set_entry (tr_timer_heap_remove q 0) s _) in *.
  assert (body_eq (en q2 s) (set_running (set_deadline (en q s) 0) true)) as Hb2.
  { pose proof (up_body _ _ _ _ U s ltac:(lia)) as Hb. by rewrite Z.eqb_refl in Hb. }
  assert (te_arg (en q2 s) = te_arg (en q s) ∧ te_used (en q2 s) = true ∧
    te_generation (en q2 s) = te_generation (en q s) ∧ te_version (en q2 s) = te_version (en q s) ∧
    te_callback (en q2 s) = te_callback (en q s) ∧ te_deadline_ns (en q2 s) = 0)
    as (Ea & Eu & Eg & Ev & Ec & Ed) by (injection Hb2 as -> -> -> -> -> -> _; done).
  rewrite Ea. match goal with |- context [match ?x with _ => _ end] =>
    replace x with (q2, n) by (destruct (Z.eqb_spec (te_callback (en q s)) 0); simpl; by rewrite ?HP; simplify_eq) end.
  rewrite Eu, Eg, Ev, !Z.eqb_refl. simpl.
  assert (0 ≤ s < tq_capacity q2) as Hs2 by (rewrite (up_cap _ _ _ _ U); lia).
  pose proof (stop_running q2 s Hok2 Hs2 Eu) as U4.
  pose proof (updated_view _ _ _ _ U Hu ltac:(lia)) as [_ HV2].
  pose proof (updated_view _ _ _ _ U4 Eu ltac:(lia)) as [HV4 HV4'].
  set (q4 := set_entry q2 s _) in *. simpl in HV4. rewrite Ea, Ec, Ed, Eg in HV4.
  destruct (Z.eqb_spec n 0) as [->|Hn0]; simpl.
  - split; [done|]. intros t Ht Hne. rewrite HV4', HV2; done.
  - assert (tq_ok q4) as Hok4.
    { apply (updated_ok _ _ _ _ Hok2 U4); try done. simpl. lia. }
    destruct (exec_refines q4 (Op_arm (mk_token s (te_generation (en q s))) n) Hok4) as (_ & _ & HS).
    { split; [simpl|done]. pose proof (hs_cap _ (ok_shape _ Hok)). word_lia. }
    simpl in HS. destruct (tq_arm q4 _ n) as [ret q5]. simpl in *.
    inversion HS as [| | |? ? t ? Hdes Ht HR|? ? ? Hnd| | | |]; subst; simpl in *.
    + pose proof (f_equal snd HV4) as HV4b. simpl in HV4b. rewrite HV4b in Ht.
      simplify_eq/=. destruct HR as [HR1 HR2]. split; [done|].
      intros t Ht Hne. rewrite HR2, HV4', HV2; done.
    + exfalso. apply Hnd. split; [done|]. change (tk_slot (mk_token s _)) with s.
      rewrite HV4. by split.
Qed.

(** Order of firing. *)
Definition fires_before (a b : Z * Z) : Prop := a.2 < b.2 ∨ a.2 = b.2 ∧ a.1 < b.1.

Hypothesis one_shot : ∀ callback arg now, callbacks callback arg now = P_return 0.

Lemma fire_one_shot q now_ns s d : tq_ok q → tq_size q ≠ 0 →
  armed (view (fire_head callbacks q now_ns).1) (tq_capacity q) s d ↔
  armed (view q) (tq_capacity q) s d ∧ s ≠ hp q 0.
Proof.
  intros Hok Hsz. destruct (fire_return q now_ns 0 Hok Hsz) as [H1 H2];
    [done|by rewrite one_shot; case_if|].
  unfold armed. destruct (decide (s = hp q 0)) as [->|Hne].
  - rewrite H1. simpl. split; [|tauto]. intros (_ & Hd & t & ? & ?). simplify_eq/=.
  - split; [intros (Hs & Hd & Ht)|intros [(Hs & Hd & Ht) _]]; rewrite H2 in * by (done || lia); done.
Qed.

Lemma one_shot_run now_ns q fired q' : due_run callbacks now_ns q fired q' → tq_ok q →
  StronglySorted fires_before fired ∧
  (∀ s d, (s, d) ∈ fired → armed (view q) (tq_capacity q) s d ∧ d ≤ now_ns) ∧
  (∀ s d, armed (view q') (tq_capacity q) s d ↔
    armed (view q) (tq_capacity q) s d ∧ (s, d) ∉ fired).
Proof.
  assert (∀ callback arg now, prog_ok (callbacks callback arg now)) as Hcb
    by (intros; by rewrite one_shot).
  induction 1 as [q|q s d fired q' Ha Hd Hmin Hrun IH]; intros Hok.
  - split_and!; [constructor|intros s d []%not_elem_of_nil|]. intros s d. split; [|tauto].
    intros H. split; [done|apply not_elem_of_nil].
  - assert (tq_size q ≠ 0) as Hsz.
    { intros E. apply armed_in_heap in Ha as [(i & Hi & _) _]; [lia|done]. }
    destruct (fire_head_ok callbacks Hcb q now_ns Hok Hsz) as (Hok1 & Hc1 & _).
    destruct (IH Hok1) as (HS & Hin & Hout). rewrite Hc1 in *. clear IH.
    assert (s = hp q 0) as ->.
    { destruct (head_armed q Hok Hsz) as [Ha' Hmin']. apply Hmin in Ha'. apply Hmin' in Ha.
      lia. }
    assert (∀ s' d', (s', d') ∈ fired → armed (view q) (tq_capacity q) s' d' ∧ s' ≠ hp q 0 ∧ d' ≤ now_ns)
      as Hin' by (intros s' d' [H1%fire_one_shot H2]%Hin; [tauto|done|done]).
    split_and!.
    + constructor; [done|]. apply list.Forall_forall. intros [s' d'] [H1 [H2 H3]]%Hin'.
      apply Hmin in H1. unfold fires_before. simpl. lia.
    + intros s' d' [?|H]%elem_of_cons; [by simplify_eq|]. apply Hin' in H. tauto.
    + intros s' d'. rewrite Hout, fire_one_shot, not_elem_of_cons by done.
      assert (armed (view q) (tq_capacity q) s' d' → s' = hp q 0 → d' = d) as Heq.
      { intros (_ & _ & t & E & <-) ->. destruct Ha as (_ & _ & t' & E' & <-). congruence. }
      split; [intros [[H1 H2] H3]|intros [H1 [H2 H3]]]; split_and!; try done.
      * congruence.
      * intros ->. apply H2. f_equal. by apply Heq.
Qed.

End FireEffect.

(** Timers that do not re-arm fire exactly once, in order of deadline (and of slot among
    equal deadlines); a run fires only due timers, disarms exactly those it fires, and
    fires all of them when it reports that none is left. *)
Theorem timer_one_shot_exactly_once callbacks q now_ns max_callbacks :
  (∀ callback arg now, callbacks callback arg now = P_return 0) → tq_ok q →
  ∃ q' fired more,
    tr_timer_queue_run_due callbacks (Some q) now_ns max_callbacks = (Some q', fired, more) ∧
    StronglySorted fires_before fired ∧
    (∀ s d, (s, d) ∈ fired → armed (view q) (tq_capacity q) s d ∧ d ≤ now_ns) ∧
    (∀ s d, armed (view q') (tq_capacity q) s d ↔
      armed (view q) (tq_capacity q) s d ∧ (s, d) ∉ fired) ∧
    (more = false → ∀ s d, armed (view q) (tq_capacity q) s d → d ≤ now_ns → (s, d) ∈ fired).
Proof.
  intros H1 Hok. assert (∀ callback arg now, prog_ok (callbacks callback arg now)) as Hcb
    by (intros; by rewrite H1).
  unfold tr_timer_queue_run_due.
  destruct (run_due_loop_spec callbacks Hcb max_callbacks q now_ns [] Hok)
    as (fired & E & Hok' & Hc & Hrun & _). rewrite E. simpl.
  set (q' := (run_due_loop callbacks max_callbacks q now_ns []).1) in *.
  destruct (one_shot_run callbacks H1 _ _ _ _ Hrun Hok) as (HS & Hin & Hout).
  eexists q', fired, _. split; [done|]. split_and!; try done.
  intros Hmore s d Ha Hd. pose proof (head_due q' now_ns Hok') as Hdue. rewrite Hmore in Hdue.
  destruct (decide ((s, d) ∈ fired)) as [|Hn]; [done|]. exfalso.
  assert (false = true); [|done]. apply Hdue. exists s, d. split; [|done]. rewrite Hc. by apply Hout.
Qed.

Lemma timer_one_shot_exactly_once_witness : ∃ q',
  tr_timer_queue_run_due (λ _ _ _, P_return 0) (Some two_timers) 60 5 =
    (Some q', [(1, 20); (0, 50)], false) ∧
  ∀ s d, ¬ armed (view q') 2 s d ∨ (s, d) ∉ [(1, 20); (0, 50)].
Proof.
  destruct (timer_one_shot_exactly_once (λ _ _ _, P_return 0) two_timers 60 5)
    as (q' & fired & more & E & _ & _ & Hout & _).
  - intros. reflexivity.
  - exact two_timers_ok.
  - exists q'. assert (fired = [(1, 20); (0, 50)] ∧ more = false) as [-> ->].
    { revert E. vm_compute. intros E. by simplify_eq. }
    split; [exact E|]. intros s d. destruct (decide ((s, d) ∈ [(1, 20); (0, 50)])) as [Hin|]; [left|by right].
    intros Ha. by apply Hout in Ha as [_ []].
Defined.
