(* ===== verification/Parser.v ===== *)
(** Frame parser: [src/transport/protocol/parser.{h,c}] and [frame.{h,c}].

    The parser fills its header buffer, then a payload buffer it takes from a buffer
    source, and hands complete frames to its caller.  The source is the interface
    [BufferSource]; the buffer pool of BufferPool.v implements it at the end of the file.
    [recv_into] is what the caller does between [tr_parser_write_ptr]/[_write_len] and
    [tr_parser_produce]: it writes received bytes at the pointer. *)
From S2P Require Import Prelude Status Endian Crc32c Wire MemoryBudget BufferPool.

(** * What the parser needs of its buffers *)

Class BufferSource (S : Type) := {
  bs_acquire : S → Z → tr_status * S * option nat;
  bs_release : S → nat → S;
  (** the memory of a buffer, a write to it at an offset, and its [len] field *)
  bs_data : S → nat → list Z;
  bs_write : S → nat → Z → list Z → S;
  bs_set_len : S → nat → Z → S;
  bs_len : S → nat → Z;
  bs_held : S → nat → Prop;
  bs_ok : S → Prop;
  (** [bs_same s s' j]: buffer [j] is held with the same contents in both *)
  bs_same : S → S → nat → Prop := λ s s' j,
    (bs_held s' j ↔ bs_held s j) ∧ (bs_held s j → bs_data s' j = bs_data s j ∧ bs_len s' j = bs_len s j);
  bs_acquire_spec s n r s' o : bs_ok s → 0 < n → bs_acquire s n = (r, s', o) →
    bs_ok s' ∧
    match o with
    | Some i => r = TR_OK ∧ ¬ bs_held s i ∧ bs_held s' i ∧ n ≤ alen (bs_data s' i) ∧
        ∀ j, j ≠ i → bs_same s s' j
    | None => (r = TR_AGAIN ∨ is_error r = true) ∧ ∀ j, bs_same s s' j
    end;
  bs_release_spec s i : bs_ok s → bs_held s i →
    bs_ok (bs_release s i) ∧ ¬ bs_held (bs_release s i) i ∧
    ∀ j, j ≠ i → bs_same s (bs_release s i) j;
  bs_write_spec s i off bs : bs_ok s → bs_held s i → 0 ≤ off → off + alen bs ≤ alen (bs_data s i) →
    bs_ok (bs_write s i off bs) ∧ bs_held (bs_write s i off bs) i ∧
    bs_data (bs_write s i off bs) i = put_at (bs_data s i) off bs ∧
    ∀ j, j ≠ i → bs_same s (bs_write s i off bs) j;
  bs_set_len_spec s i n : bs_ok s → bs_held s i → 0 ≤ n ≤ alen (bs_data s i) →
    bs_ok (bs_set_len s i n) ∧ bs_held (bs_set_len s i n) i ∧
    bs_data (bs_set_len s i n) i = bs_data s i ∧ bs_len (bs_set_len s i n) i = n ∧
    ∀ j, j ≠ i → bs_same s (bs_set_len s i n) j
}.

(** * Data *)

Inductive tr_parser_state := TR_PARSER_HEADER | TR_PARSER_WAIT_PAYLOAD_BUFFER | TR_PARSER_PAYLOAD.

Record tr_parser := mk_parser {
  ps_state : tr_parser_state;
  ps_header_buf : list Z;
  ps_header_have : Z;
  ps_header : tr_frame_header;
  ps_payload : option nat;
  ps_payload_have : Z;
  ps_payload_crc_state : Z;
  ps_limits : tr_wire_limits
}.

Record tr_frame := mk_frame { fr_header : tr_frame_header; fr_payload : option nat }.

(** * Operations *)

Definition tr_parser_clear_current (p : tr_parser) : tr_parser :=
  mk_parser TR_PARSER_HEADER (ps_header_buf p) 0 zero_frame_header None 0 tr_crc32c_begin
    (ps_limits p).

Definition tr_parser_init (parser : option tr_parser) (pool : bool) (limits : option tr_wire_limits)
    : tr_status * option tr_parser :=
  bail (TR_ERR_INVALID, parser) when (negb (bool_decide (is_Some parser)) || negb pool) ;;
  let p := mk_parser TR_PARSER_HEADER (replicate (Z.to_nat TR_WIRE_HEADER_SIZE) 0) 0
    zero_frame_header None 0 0 {| max_payload_len := effective_max_payload limits |} in
  (TR_OK, Some (tr_parser_clear_current p)).

Definition tr_frame_init (frame : option tr_frame) : option tr_frame :=
  match frame with None => None | Some _ => Some (mk_frame zero_frame_header None) end.

Section Ops.
Context {S : Type} `{!BufferSource S}.

Definition tr_frame_release (frame : option tr_frame) (s : S) : option tr_frame * S :=
  match frame with
  | None => (None, s)
  | Some f =>
      let s := match fr_payload f with Some i => bs_release s i | None => s end in
      (Some (mk_frame zero_frame_header None), s)
  end.

(** The bodies below are for a non-NULL parser; the entry points follow them. *)
Definition parser_reset (p : tr_parser) (s : S) : tr_parser * S :=
  let s := match ps_payload p with Some i => bs_release s i | None => s end in
  (tr_parser_clear_current p, s).

Definition parser_prepare (p : tr_parser) (s : S) : tr_status * tr_parser * S :=
  match ps_state p with
  | TR_PARSER_WAIT_PAYLOAD_BUFFER =>
      let '(ret, s, payload) := bs_acquire s (fh_payload_len (ps_header p)) in
      bail (ret, p, s) when (negb (is_ok ret)) ;;
      (TR_OK,
       mk_parser TR_PARSER_PAYLOAD (ps_header_buf p) (ps_header_have p) (ps_header p) payload 0
         tr_crc32c_begin (ps_limits p), s)
  | _ => (TR_OK, p, s)
  end.

(** Where the next bytes go: the header buffer or a payload buffer, and the offset. *)
Inductive write_target := W_header (off : Z) | W_payload (i : nat) (off : Z).

Definition parser_write_ptr (p : tr_parser) : option write_target :=
  match ps_state p, ps_payload p with
  | TR_PARSER_HEADER, _ => Some (W_header (ps_header_have p))
  | TR_PARSER_PAYLOAD, Some i => Some (W_payload i (ps_payload_have p))
  | _, _ => None
  end.

Definition parser_write_len (p : tr_parser) : Z :=
  match ps_state p, ps_payload p with
  | TR_PARSER_HEADER, _ => u32 (TR_WIRE_HEADER_SIZE - ps_header_have p)
  | TR_PARSER_PAYLOAD, Some i => u32 (fh_payload_len (ps_header p) - ps_payload_have p)
  | _, _ => 0
  end.

Definition tr_parser_emit_empty (p : tr_parser) : tr_status * tr_parser * option tr_frame :=
  bail (TR_ERR_PAYLOAD_CRC, p, None) when
    (negb (fh_payload_crc32c (ps_header p) =? tr_crc32c [])) ;;
  (TR_FRAME_READY, tr_parser_clear_current p, Some (mk_frame (ps_header p) None)).

(** The [fail:] label. *)
Definition produce_fail (ret : tr_status) (p : tr_parser) (s : S)
    : tr_status * tr_parser * S * option tr_frame :=
  let '(p, s) := parser_reset p s in (ret, p, s, None).

Definition set_header_have (p : tr_parser) (have : Z) : tr_parser :=
  mk_parser (ps_state p) (ps_header_buf p) have (ps_header p) (ps_payload p) (ps_payload_have p)
    (ps_payload_crc_state p) (ps_limits p).
Definition set_header (p : tr_parser) (h : tr_frame_header) : tr_parser :=
  mk_parser (ps_state p) (ps_header_buf p) (ps_header_have p) h (ps_payload p) (ps_payload_have p)
    (ps_payload_crc_state p) (ps_limits p).
Definition set_parser_state (p : tr_parser) (st : tr_parser_state) : tr_parser :=
  mk_parser st (ps_header_buf p) (ps_header_have p) (ps_header p) (ps_payload p) (ps_payload_have p)
    (ps_payload_crc_state p) (ps_limits p).
Definition set_payload_progress (p : tr_parser) (have crc : Z) : tr_parser :=
  mk_parser (ps_state p) (ps_header_buf p) (ps_header_have p) (ps_header p) (ps_payload p) have
    crc (ps_limits p).

(** The part of [tr_parser_produce] for bytes of the header. *)
Definition produce_header (p : tr_parser) (s : S) (produced : Z)
    : tr_status * tr_parser * S * option tr_frame :=
  let p := set_header_have p (u32 (ps_header_have p + u32 produced)) in
  bail (TR_OK, p, s, None) when (negb (ps_header_have p =? TR_WIRE_HEADER_SIZE)) ;;
  match tr_wire_header_decode (Some (ps_header_buf p)) (Some (ps_header p)) with
  | (ret, header) =>
      let p := set_header p (default (ps_header p) header) in
      bail (produce_fail ret p s) when (negb (is_ok ret)) ;;
      let ret := tr_wire_header_validate (Some (ps_header_buf p)) (Some (ps_header p))
        (Some (ps_limits p)) in
      bail (produce_fail ret p s) when (negb (is_ok ret)) ;;
      if fh_payload_len (ps_header p) =? 0 then
        let '(ret, p, frame) := tr_parser_emit_empty p in
        bail (produce_fail ret p s) when (is_error ret) ;;
        (ret, p, s, frame)
      else
        let p := set_parser_state p TR_PARSER_WAIT_PAYLOAD_BUFFER in
        let '(ret, p, s) := parser_prepare p s in
        bail (TR_AGAIN, p, s, None) when (bool_decide (ret = TR_AGAIN)) ;;
        bail (produce_fail ret p s) when (negb (is_ok ret)) ;;
        (TR_OK, p, s, None)
  end.

(** The part for bytes of the payload in buffer [i]. *)
Definition produce_payload (p : tr_parser) (s : S) (i : nat) (produced : Z)
    : tr_status * tr_parser * S * option tr_frame :=
  let new_data := take (Z.to_nat produced) (at_off (bs_data s i) (ps_payload_have p)) in
  let p := set_payload_progress p (u32 (ps_payload_have p + u32 produced))
    (tr_crc32c_update (ps_payload_crc_state p) new_data) in
  let s := bs_set_len s i (ps_payload_have p) in
  bail (TR_OK, p, s, None) when
    (negb (ps_payload_have p =? fh_payload_len (ps_header p))) ;;
  bail (produce_fail TR_ERR_PAYLOAD_CRC p s) when
    (negb (tr_crc32c_finish (ps_payload_crc_state p) =? fh_payload_crc32c (ps_header p))) ;;
  (TR_FRAME_READY, tr_parser_clear_current p, s, Some (mk_frame (ps_header p) (ps_payload p))).

Definition parser_produce (p : tr_parser) (s : S) (produced : Z)
    : tr_status * tr_parser * S * option tr_frame :=
  let writable := parser_write_len p in
  bail (TR_ERR_INVALID, p, s, None) when ((produced =? 0) || (produced >? writable)) ;;
  match ps_state p, ps_payload p with
  | TR_PARSER_HEADER, _ => produce_header p s produced
  | TR_PARSER_PAYLOAD, Some i => produce_payload p s i produced
  | _, _ => (TR_ERR_STATE, p, s, None)
  end.

(** Entry points; a NULL parser is [None], a NULL [out_frame] is [false]. *)
Definition tr_parser_reset (parser : option tr_parser) (s : S) : option tr_parser * S :=
  match parser with
  | None => (None, s)
  | Some p => let '(p, s) := parser_reset p s in (Some p, s)
  end.

Definition tr_parser_prepare (parser : option tr_parser) (s : S)
    : tr_status * option tr_parser * S :=
  match parser with
  | None => (TR_ERR_INVALID, None, s)
  | Some p => let '(ret, p, s) := parser_prepare p s in (ret, Some p, s)
  end.

Definition tr_parser_write_ptr (parser : option tr_parser) : option write_target :=
  match parser with None => None | Some p => parser_write_ptr p end.

Definition tr_parser_write_len (parser : option tr_parser) : Z :=
  match parser with None => 0 | Some p => parser_write_len p end.

Definition tr_parser_produce (parser : option tr_parser) (s : S) (produced : Z) (out_frame : bool)
    : tr_status * option tr_parser * S * option tr_frame :=
  match parser with
  | Some p =>
      bail (TR_ERR_INVALID, Some p, s, None) when (negb out_frame) ;;
      let '(ret, p, s, frame) := parser_produce p s produced in (ret, Some p, s, frame)
  | None => (TR_ERR_INVALID, None, s, None)
  end.

(** * The caller *)

(** [recv] writing [bs] at the write pointer. *)
Definition recv_into (p : tr_parser) (s : S) (bs : list Z) : tr_parser * S :=
  match parser_write_ptr p with
  | Some (W_header off) =>
      (mk_parser (ps_state p) (put_at (ps_header_buf p) off bs) (ps_header_have p) (ps_header p)
         (ps_payload p) (ps_payload_have p) (ps_payload_crc_state p) (ps_limits p), s)
  | Some (W_payload i off) => (p, bs_write s i off bs)
  | None => (p, s)
  end.

(** One receive: at most [write_len] bytes of [bs] are written and reported. *)
Definition recv_produce (p : tr_parser) (s : S) (bs : list Z)
    : tr_status * tr_parser * S * option tr_frame :=
  let '(p, s) := recv_into p s bs in parser_produce p s (alen bs).

End Ops.

(** * Messages *)

Lemma decode_total raw o : ∃ h, tr_wire_header_decode (Some raw) (Some o) = (TR_OK, Some h).
Proof. by eexists. Qed.

Lemma validate_error raw h limits :
  tr_wire_header_validate (Some raw) (Some h) limits = TR_OK ∨
  is_error (tr_wire_header_validate (Some raw) (Some h) limits) = true.
Proof. unfold tr_wire_header_validate. case_ifs; auto. Qed.

Lemma crc_finish d : tr_crc32c_finish (tr_crc32c_update tr_crc32c_begin d) = tr_crc32c d.
Proof. done. Qed.

#[local] Opaque tr_crc32c tr_crc32c_update tr_crc32c_begin tr_crc32c_finish
  tr_wire_header_validate tr_wire_header_decode header_bytes.

Record msg := mk_msg { m_header : tr_frame_header; m_payload : list Z }.

Definition msg_bytes (m : msg) : list Z := header_bytes (m_header m) ++ m_payload m.

(** A header that decodes and validates to itself. *)
Record valid_header (limits : tr_wire_limits) (h : tr_frame_header) : Prop := {
  vh_ok : header_ok h;
  vh_valid : tr_wire_header_validate (Some (header_bytes h)) (Some h) (Some limits) = TR_OK
}.

(** A message a peer may send: its header passes validation and describes its payload. *)
Record msg_ok (limits : tr_wire_limits) (m : msg) : Prop := {
  mo_header : valid_header limits (m_header m);
  mo_bytes : bytes_ok (m_payload m);
  mo_len : fh_payload_len (m_header m) = alen (m_payload m);
  mo_crc : fh_payload_crc32c (m_header m) = tr_crc32c (m_payload m)
}.

Lemma valid_header_decode limits h o : valid_header limits h →
  tr_wire_header_decode (Some (header_bytes h)) (Some o) = (TR_OK, Some h).
Proof.
  intros [Hok Hv]. rewrite decode_header_bytes by exact Hok. do 2 f_equal.
  apply validate_ok_iff in Hv as (_ & Hc & _); [|exact Hok].
  unfold with_header_crc. rewrite Hc. by destruct h.
Qed.

(** Header bytes that decode and validate are those of a valid header. *)
Lemma decoded_valid_header limits raw h o : bytes_ok raw → length raw = 40%nat →
  tr_wire_header_decode (Some raw) (Some o) = (TR_OK, Some h) →
  tr_wire_header_validate (Some raw) (Some h) (Some limits) = TR_OK →
  valid_header limits h ∧ raw = header_bytes h.
Proof.
  intros Hraw Hlen Hd Hv. pose proof (decode_ok _ _ _ Hraw Hlen Hd) as Hok.
  pose proof Hv as Hv'. apply validate_ok_iff in Hv' as (Hm & Hc & _); [|exact Hok].
  pose proof (header_bytes_decode raw o h Hraw Hlen Hm Hc Hd) as E.
  split; [|symmetry; exact E]. split; [exact Hok|]. rewrite E. exact Hv.
Qed.

(** Valid messages are prefix-free. *)
Lemma msg_bytes_inj limits m m' x y : msg_ok limits m → msg_ok limits m' →
  msg_bytes m ++ x = msg_bytes m' ++ y → m = m' ∧ x = y.
Proof.
  intros Hm Hm' E. unfold msg_bytes in E. rewrite <- !app_assoc in E.
  apply app_inj_1 in E as [Eh E]; [|done].
  pose proof (valid_header_decode _ _ zero_frame_header (mo_header _ _ Hm)) as H1.
  rewrite Eh, (valid_header_decode _ _ _ (mo_header _ _ Hm')) in H1. injection H1 as H1.
  pose proof (mo_len _ _ Hm) as L. pose proof (mo_len _ _ Hm') as L'. unfold alen in *.
  apply app_inj_1 in E as [Ep Ey]; [|rewrite H1 in L'; lia].
  split; [|done]. destruct m, m'. simpl in *. congruence.
Qed.

(** * Invariant *)

Section Invariant.
Context {S : Type} `{!BufferSource S}.
Implicit Types (p : tr_parser) (s : S).

(** The header in place is the decoding of the header bytes, and valid. *)
Record header_in p : Prop := {
  hi_valid : valid_header (ps_limits p) (ps_header p);
  hi_bytes : ps_header_buf p = header_bytes (ps_header p);
  hi_len : 0 < fh_payload_len (ps_header p)
}.

Definition parser_ok p s : Prop :=
  bs_ok s ∧ bytes_ok (ps_header_buf p) ∧ length (ps_header_buf p) = 40%nat ∧
  match ps_state p with
  | TR_PARSER_HEADER => 0 ≤ ps_header_have p < 40 ∧ ps_payload p = None
  | TR_PARSER_WAIT_PAYLOAD_BUFFER => header_in p ∧ ps_payload p = None
  | TR_PARSER_PAYLOAD =>
      header_in p ∧
      ∃ i, ps_payload p = Some i ∧ bs_held s i ∧
        0 ≤ ps_payload_have p < fh_payload_len (ps_header p) ∧
        fh_payload_len (ps_header p) ≤ alen (bs_data s i) ∧
        bytes_ok (take (Z.to_nat (ps_payload_have p)) (bs_data s i)) ∧
        ps_payload_crc_state p =
          tr_crc32c_update tr_crc32c_begin (take (Z.to_nat (ps_payload_have p)) (bs_data s i))
  end.

(** The bytes received since the last complete message. *)
Definition pending p s : list Z :=
  match ps_state p with
  | TR_PARSER_HEADER => take (Z.to_nat (ps_header_have p)) (ps_header_buf p)
  | TR_PARSER_WAIT_PAYLOAD_BUFFER => ps_header_buf p
  | TR_PARSER_PAYLOAD =>
      ps_header_buf p ++
      match ps_payload p with
      | Some i => take (Z.to_nat (ps_payload_have p)) (bs_data s i)
      | None => []
      end
  end.

(** What a frame carries: its buffer is held, filled to its length with [payload]. *)
Definition carries s (f : tr_frame) (payload : list Z) : Prop :=
  match fr_payload f with
  | None => payload = []
  | Some i => bs_held s i ∧ bs_len s i = alen payload ∧
      take (Z.to_nat (bs_len s i)) (bs_data s i) = payload
  end.

(** What others hold is left alone. *)
Definition others_same p s s' : Prop :=
  ∀ j, bs_held s j → ps_payload p ≠ Some j → bs_same s s' j.

Lemma bs_same_refl s j : bs_same s s j.
Proof. done. Qed.

Lemma bs_same_trans s1 s2 s3 j : bs_same s1 s2 j → bs_same s2 s3 j → bs_same s1 s3 j.
Proof.
  intros [H1 D1] [H2 D2]. split; [by rewrite H2|]. intros H.
  destruct (D1 H) as [E1 E2], (D2 (proj2 H1 H)) as [E3 E4]. split; congruence.
Qed.

Lemma clear_ok p s : bs_ok s → bytes_ok (ps_header_buf p) → length (ps_header_buf p) = 40%nat →
  parser_ok (tr_parser_clear_current p) s ∧ pending (tr_parser_clear_current p) s = [].
Proof. intros. by split. Qed.

Lemma reset_ok p s : parser_ok p s →
  parser_ok (parser_reset p s).1 (parser_reset p s).2 ∧
  pending (parser_reset p s).1 (parser_reset p s).2 = [] ∧ others_same p s (parser_reset p s).2.
Proof.
  intros (Hs & Hb & Hl & Hst). unfold parser_reset.
  assert (bs_ok (match ps_payload p with Some i => bs_release s i | None => s end) ∧
    others_same p s (match ps_payload p with Some i => bs_release s i | None => s end)) as [H1 H2].
  { destruct (ps_payload p) as [i|] eqn:E; [|split; [done|by intros j]].
    assert (bs_held s i) as Hi.
    { destruct (ps_state p); destruct Hst as [? Hst]; try congruence.
      destruct Hst as (i' & ? & ? & _). simplify_eq. done. }
    destruct (bs_release_spec s i Hs Hi) as (H1 & _ & H2). split; [done|].
    intros j Hj Hne. apply H2. congruence. }
  split_and!; [by apply clear_ok..|done].
Qed.

(** What a step may do: complete a message, take in the bytes, or fail.  A failure is
    the buffer source's, or the bytes are no beginning of a valid message. *)
Definition step_spec p s (bs : list Z) (r : tr_status) p' s' (o : option tr_frame) : Prop :=
  parser_ok p' s' ∧ ps_limits p' = ps_limits p ∧ others_same p s s' ∧
  match o with
  | Some f => r = TR_FRAME_READY ∧ pending p' s' = [] ∧
      ∃ payload, carries s' f payload ∧ msg_ok (ps_limits p) (mk_msg (fr_header f) payload) ∧
        pending p s ++ bs = msg_bytes (mk_msg (fr_header f) payload)
  | None =>
      (r = TR_OK ∨ r = TR_AGAIN) ∧ pending p' s' = pending p s ++ bs ∨
      is_error r = true ∧ pending p' s' = [] ∧
        ((∃ n s1, bs_acquire s n = (r, s1, None)) ∨
         ∀ m rest z, msg_ok (ps_limits p) m → pending p s ++ bs ++ rest ≠ msg_bytes m ++ z)
  end.

Lemma is_error_not r : is_error r = true → r ≠ TR_OK ∧ r ≠ TR_AGAIN ∧ r ≠ TR_FRAME_READY.
Proof. by destruct r. Qed.

Lemma header_prefix raw rest m z : length raw = 40%nat → raw ++ rest = msg_bytes m ++ z →
  raw = header_bytes (m_header m) ∧ rest = m_payload m ++ z.
Proof.
  intros Hl E. unfold msg_bytes in E. rewrite <- app_assoc in E. apply app_inj_1 in E; [done|].
  rewrite Hl. by pose proof (length_header (m_header m)).
Qed.

(** A complete header: the rest of [produce_header] from the validation on. *)
Definition header_done p s : tr_status * tr_parser * S * option tr_frame :=
  let ret := tr_wire_header_validate (Some (ps_header_buf p)) (Some (ps_header p))
    (Some (ps_limits p)) in
  bail (produce_fail ret p s) when (negb (is_ok ret)) ;;
  if fh_payload_len (ps_header p) =? 0 then
    let '(ret, p, frame) := tr_parser_emit_empty p in
    bail (produce_fail ret p s) when (is_error ret) ;;
    (ret, p, s, frame)
  else
    let p := set_parser_state p TR_PARSER_WAIT_PAYLOAD_BUFFER in
    let '(ret, p, s) := parser_prepare p s in
    bail (TR_AGAIN, p, s, None) when (bool_decide (ret = TR_AGAIN)) ;;
    bail (produce_fail ret p s) when (negb (is_ok ret)) ;;
    (TR_OK, p, s, None).

Lemma produce_fail_spec p0 p s bs r s0 : bs_ok s → ps_payload p = None →
  bytes_ok (ps_header_buf p) → length (ps_header_buf p) = 40%nat →
  ps_limits p = ps_limits p0 → others_same p0 s0 s → is_error r = true →
  ((∃ n s1, bs_acquire s0 n = (r, s1, None)) ∨
   ∀ m rest z, msg_ok (ps_limits p0) m → pending p0 s0 ++ bs ++ rest ≠ msg_bytes m ++ z) →
  ∀ r' p' s' o, produce_fail r p s = (r', p', s', o) → step_spec p0 s0 bs r' p' s' o.
Proof.
  intros Hs Hp Hb Hl Hlim Hsame Hr Hwhy r' p' s' o E. unfold produce_fail, parser_reset in E.
  rewrite Hp in E. simplify_eq. destruct (clear_ok p s' Hs Hb Hl) as [H1 H2].
  split; [done|]. split; [done|]. split; [done|]. by right.
Qed.

(** Waiting for a payload buffer. *)
Lemma prepare_spec p s r p' s' : parser_ok p s → parser_prepare p s = (r, p', s') →
  parser_ok p' s' ∧ ps_limits p' = ps_limits p ∧ pending p' s' = pending p s ∧
  others_same p s s' ∧
  (r = TR_OK ∨ p' = p ∧ ps_payload p = None ∧ (r = TR_AGAIN ∨ is_error r = true) ∧
   ∃ n s1, bs_acquire s n = (r, s1, None)).
Proof.
  intros Hok E. unfold parser_prepare in E. pose proof Hok as (Hs & Hb & Hl & Hst).
  destruct (ps_state p) eqn:Est; [simplify_eq; split_and!; auto; by intros j| |simplify_eq; split_and!; auto; by intros j].
  destruct Hst as [Hhi Hpay].
  destruct (bs_acquire s (fh_payload_len (ps_header p))) as [[ra sa] oa] eqn:Ea.
  pose proof (hi_len _ Hhi) as Hlen.
  apply bs_acquire_spec in Ea as Hacq; [|done|done]. destruct Hacq as [Hsa Hacq].
  destruct oa as [i|].
  - destruct Hacq as (-> & Hnh & Hh & Hcap & Hoth). change (negb (is_ok TR_OK)) with false in E.
    cbv iota in E. simplify_eq.
    split; [|split; [done|split; [|split; [intros j Hj _; apply Hoth; congruence|by left]]]].
    + split; [done|]. split; [done|]. split; [done|]. split; [split; apply Hhi|].
      exists i. simpl. split_and!; try done; constructor.
    + unfold pending. rewrite Est. simpl. by rewrite app_nil_r.
  - destruct Hacq as [Hra Hoth].
    assert (ra ≠ TR_OK) as Hnok
      by (destruct Hra as [->|Hra]; [discriminate|apply is_error_not in Hra; tauto]).
    rewrite (proj2 (is_ok_false _) Hnok) in E. cbn [negb] in E. simplify_eq.
    split; [split; [done|by rewrite Est]|]. split; [done|].
    split; [unfold pending; by rewrite Est|]. split; [intros j Hj _; apply Hoth|].
    right. split_and!; try done. by eexists _, _.
Qed.

Lemma header_done_spec p0 p s bs r p' s' o :
  parser_ok p0 s → ps_payload p0 = None → pending p0 s ++ bs = ps_header_buf p →
  ps_limits p = ps_limits p0 → ps_payload p = None → ps_header_have p = 40 →
  bytes_ok (ps_header_buf p) → length (ps_header_buf p) = 40%nat →
  (∃ old, tr_wire_header_decode (Some (ps_header_buf p)) (Some old) = (TR_OK, Some (ps_header p))) →
  header_done p s = (r, p', s', o) → step_spec p0 s bs r p' s' o.
Proof.
  intros Hok0 Hp0 Hpend Hlim Hpay Hhave Hb Hl [old Hdec] E.
  pose proof (proj1 Hok0) as Hs. unfold header_done in E. cbv zeta in E.
  destruct (validate_error (ps_header_buf p) (ps_header p) (Some (ps_limits p))) as [Hv|Hv].
  2: { rewrite (proj2 (is_ok_false _)) in E by (intros H; rewrite H in Hv; discriminate Hv).
    cbn [negb] in E. revert E. apply produce_fail_spec; [done..|exact (fun j _ _ => bs_same_refl s j)|exact Hv|].
    right. intros m rest z Hm Heq. rewrite app_assoc, Hpend in Heq.
    apply header_prefix in Heq as [Heq _]; [|exact Hl]. rewrite Heq in Hdec, Hv.
    rewrite (valid_header_decode _ _ _ (mo_header _ _ Hm)) in Hdec. injection Hdec as Hdec.
    rewrite <- Hdec, Hlim, (vh_valid _ _ (mo_header _ _ Hm)) in Hv. discriminate Hv. }
  destruct (decoded_valid_header _ _ _ _ Hb Hl Hdec Hv) as [Hvh Hbuf].
  rewrite Hv in E. clear Hv Hdec. change (negb (is_ok TR_OK)) with false in E. cbv iota in E.
  pose proof (ok_payload_len _ (vh_ok _ _ Hvh)) as Hlen.
  destruct (Z.eqb_spec (fh_payload_len (ps_header p)) 0) as [E0|E0].
  - unfold tr_parser_emit_empty in E.
    destruct (Z.eqb_spec (fh_payload_crc32c (ps_header p)) (tr_crc32c [])) as [Ec|Ec]; cbn [negb] in E;
      [change (is_error TR_FRAME_READY) with false in E|change (is_error TR_ERR_PAYLOAD_CRC) with true in E];
      cbv iota in E.
    + simplify_eq. destruct (clear_ok p s' Hs Hb Hl) as [H1 H2]. split; [done|]. split; [done|].
      split; [by intros j|]. split; [done|]. split; [done|]. exists []. split; [done|].
      rewrite <- Hlim. split; [split; simpl; [done|constructor|done|done]|].
      unfold msg_bytes. simpl. by rewrite app_nil_r, Hpend.
    + revert E. apply produce_fail_spec; try done. right. intros m rest z Hm Heq.
      rewrite app_assoc, Hpend in Heq. apply header_prefix in Heq as [Heq ->]; [|done].
      apply Ec. rewrite Hbuf in Heq.
      pose proof (valid_header_decode _ _ zero_frame_header Hvh) as Hd.
      rewrite Heq, (valid_header_decode _ _ _ (mo_header _ _ Hm)) in Hd. injection Hd as Hd.
      assert (alen (m_payload m) = 0) as HL by (by rewrite <- (mo_len _ _ Hm), Hd).
      rewrite <- Hd, (mo_crc _ _ Hm). f_equal. unfold alen in HL. by destruct (m_payload m).
  - set (pw := set_parser_state p TR_PARSER_WAIT_PAYLOAD_BUFFER) in *.
    assert (parser_ok pw s) as Hokw
      by (split; [done|split; [done|split; [done|split; [split; simpl; [done..|word_lia]|done]]]]).
    destruct (parser_prepare pw s) as [[ra p1] s1] eqn:Ep.
    apply prepare_spec in Ep as (Hok1 & Hlim1 & Hpend1 & Hoth & Hr); [|done].
    change (ps_limits pw) with (ps_limits p) in Hlim1. change (pending pw s) with (ps_header_buf p) in Hpend1.
    assert (others_same p0 s s1) as Hoth0
      by (intros j Hj _; apply Hoth; [done|]; change (ps_payload pw) with (ps_payload p); congruence).
    destruct Hr as [->|(-> & _ & [->|Hra] & Hacq)].
    + change (bool_decide (TR_OK = TR_AGAIN)) with false in E.
      change (negb (is_ok TR_OK)) with false in E. cbv iota in E. simplify_eq.
      split; [done|]. split; [congruence|]. split; [done|]. left. split; [by left|congruence].
    + change (bool_decide (TR_AGAIN = TR_AGAIN)) with true in E. cbv iota in E. simplify_eq.
      split; [done|]. split; [congruence|]. split; [done|]. left. split; [by right|congruence].
    + apply is_error_not in Hra as Hn. destruct Hn as (Hn1 & Hn2 & _).
      rewrite bool_decide_eq_false_2, (proj2 (is_ok_false _) Hn1) in E by done. cbn [negb] in E.
      revert E. apply produce_fail_spec; try done; [apply Hok1|by left].
Qed.

Lemma write_len_header p : ps_state p = TR_PARSER_HEADER → 0 ≤ ps_header_have p < 40 →
  parser_write_len p = 40 - ps_header_have p.
Proof. intros E H. unfold parser_write_len. rewrite E. apply u32_small. unfold TR_WIRE_HEADER_SIZE. word_lia. Qed.

Lemma header_step p s bs r p' s' o : parser_ok p s → ps_state p = TR_PARSER_HEADER →
  bytes_ok bs → 0 < alen bs ≤ parser_write_len p →
  recv_produce p s bs = (r, p', s', o) → step_spec p s bs r p' s' o.
Proof.
  intros Hok Est Hbs Hn E. pose proof Hok as (Hs & Hb & Hl & Hst). rewrite Est in Hst.
  destruct Hst as [Hhave Hpay]. rewrite write_len_header in Hn by done.
  unfold recv_produce, recv_into, parser_write_ptr in E. rewrite Est in E.
  set (buf := put_at (ps_header_buf p) (ps_header_have p) bs) in *.
  assert (take (Z.to_nat (ps_header_have p + alen bs)) buf = pending p s ++ bs) as Hbuf.
  { unfold buf, pending. rewrite Est. apply take_put_at; [lia|]. unfold alen in *. lia. }
  assert (bytes_ok buf) as Hbb by (by apply bytes_ok_put_at).
  assert (length buf = 40%nat) as Hbl by (unfold buf; rewrite length_put_at; unfold alen in *; lia).
  unfold parser_produce in E. cbn [ps_state ps_payload] in E. rewrite write_len_header in E by done.
  cbn [ps_header_have] in E. destruct (Z.eqb_spec (alen bs) 0); [lia|].
  destruct (Z.gtb_spec (alen bs) (40 - ps_header_have p)); [lia|]. cbn [orb] in E.
  unfold produce_header in E. cbn [ps_header_have set_header_have] in E.
  rewrite (u32_small (alen bs)), u32_small in E by word_lia.
  unfold TR_WIRE_HEADER_SIZE in E.
  destruct (Z.eqb_spec (ps_header_have p + alen bs) 40) as [E40|E40]; cbn [negb] in E.
  - cbn [ps_header_buf ps_header set_header_have] in E.
    destruct (decode_total buf (ps_header p)) as [h Hd]. rewrite Hd in E.
    change (negb (is_ok TR_OK)) with false in E. cbv iota in E. cbn [default] in E.
    eapply header_done_spec; [exact Hok|done| | | | | | | |exact E]; cbn; try done.
    + rewrite <- Hbuf, E40. apply take_ge. lia.
    + by eexists.
  - simplify_eq. split; [|split; [done|split; [by intros j|]]].
    + split; [done|]. split; [done|]. split; [done|]. simpl. rewrite ?Est. split; [lia|done].
    + left. split; [by left|]. unfold pending at 1. simpl. by rewrite ?Est.
Qed.

Lemma write_len_payload p i : ps_state p = TR_PARSER_PAYLOAD → ps_payload p = Some i → header_in p →
  0 ≤ ps_payload_have p < fh_payload_len (ps_header p) →
  parser_write_len p = fh_payload_len (ps_header p) - ps_payload_have p.
Proof.
  intros E Ei Hhi H. pose proof (ok_payload_len _ (vh_ok _ _ (hi_valid _ Hhi))).
  unfold parser_write_len. rewrite E, Ei. apply u32_small. word_lia.
Qed.

(** A message whose header is in place has the payload its header announces. *)
Lemma payload_of_message p got rest m z : header_in p → msg_ok (ps_limits p) m →
  (ps_header_buf p ++ got) ++ rest = msg_bytes m ++ z → alen got = fh_payload_len (ps_header p) →
  fh_payload_crc32c (ps_header p) = tr_crc32c got.
Proof.
  intros Hhi Hm E Hgot. rewrite <- app_assoc, (hi_bytes _ Hhi) in E.
  apply header_prefix in E as [Eh E]; [|done].
  pose proof (valid_header_decode _ _ zero_frame_header (hi_valid _ Hhi)) as Hd.
  rewrite Eh, (valid_header_decode _ _ _ (mo_header _ _ Hm)) in Hd. injection Hd as Hd.
  pose proof (mo_len _ _ Hm) as HL. rewrite <- Hd in Hgot |- *. rewrite (mo_crc _ _ Hm). f_equal.
  apply app_inj_1 in E as [-> _]; [done|]. unfold alen in *. lia.
Qed.

Lemma payload_step p s bs r p' s' o : parser_ok p s → ps_state p = TR_PARSER_PAYLOAD →
  bytes_ok bs → 0 < alen bs ≤ parser_write_len p →
  recv_produce p s bs = (r, p', s', o) → step_spec p s bs r p' s' o.
Proof.
  intros Hok Est Hbs Hn E. pose proof Hok as (Hs & Hb & Hl & Hst). rewrite Est in Hst.
  destruct Hst as (Hhi & i & Hi & Hheld & Hhave & Hcap & Hgot & Hcrc).
  rewrite (write_len_payload p i) in Hn by done.
  unfold recv_produce, recv_into, parser_write_ptr in E. rewrite Est, Hi in E.
  destruct (bs_write_spec s i (ps_payload_have p) bs Hs Hheld) as (Hs1 & Hh1 & Hd1 & Hoth1); [lia..|].
  set (s1 := bs_write s i (ps_payload_have p) bs) in *.
  set (got := take (Z.to_nat (ps_payload_have p)) (bs_data s i)) in *.
  assert (length (bs_data s1 i) = length (bs_data s i)) as Hlen1
    by (rewrite Hd1; apply length_put_at; lia).
  assert (take (Z.to_nat (ps_payload_have p + alen bs)) (bs_data s1 i) = got ++ bs) as Hgot1
    by (rewrite Hd1; apply take_put_at; lia).
  unfold parser_produce in E. rewrite (write_len_payload p i), Est, Hi in E by done.
  destruct (Z.eqb_spec (alen bs) 0); [lia|].
  destruct (Z.gtb_spec (alen bs) (fh_payload_len (ps_header p) - ps_payload_have p)); [lia|].
  cbn [orb] in E. pose proof (ok_payload_len _ (vh_ok _ _ (hi_valid _ Hhi))) as Hlw.
  unfold produce_payload in E. rewrite Hd1, at_off_put_at, (u32_small (alen bs)), u32_small in E by word_lia.
  rewrite (take_app_length' bs) in E by (unfold alen; lia).
  rewrite Hcrc, <- update_app in E by done.
  cbn [ps_payload_have ps_payload_crc_state set_payload_progress ps_header] in E.
  destruct (bs_set_len_spec s1 i (ps_payload_have p + alen bs)) as (Hs2 & Hh2 & Hd2 & Hl2 & Hoth2);
    [done..|unfold alen in *; lia|].
  set (s2 := bs_set_len s1 i (ps_payload_have p + alen bs)) in *.
  assert (∀ j, j ≠ i → bs_same s s2 j) as Hoth
    by (intros j Hj; eapply bs_same_trans; [by apply Hoth1|by apply Hoth2]).
  assert (others_same p s s2) as Hoth' by (intros j _ Hj; apply Hoth; congruence).
  assert (pending p s = ps_header_buf p ++ got) as Hpend by (unfold pending; by rewrite Est, Hi).
  assert (bytes_ok (got ++ bs)) as Hgb by (by apply bytes_ok_app).
  assert (alen (got ++ bs) = ps_payload_have p + alen bs) as Hgl.
  { rewrite <- Hgot1. unfold alen in *. rewrite length_take. lia. }
  destruct (Z.eqb_spec (ps_payload_have p + alen bs) (fh_payload_len (ps_header p))) as [Efull|Efull];
    cbn [negb] in E.
  - rewrite crc_finish in E. destruct (Z.eqb_spec (tr_crc32c (got ++ bs)) (fh_payload_crc32c (ps_header p))) as [Ec|Ec]; cbn [negb] in E.
    + destruct (clear_ok p s2 Hs2 Hb Hl) as [H1 H2]. simplify_eq.
      split; [done|]. split; [done|]. split; [done|]. split; [done|]. split; [done|].
      exists (got ++ bs). split; [unfold carries; cbn; rewrite Hi, Hl2, Hd2; by rewrite Hgot1, Hgl|].
      split; [split; simpl; [apply Hhi|done|lia|done]|].
      unfold msg_bytes. simpl. rewrite Hpend, (hi_bytes _ Hhi). by rewrite app_assoc.
    + unfold produce_fail, parser_reset in E. cbn [ps_payload set_payload_progress] in E. rewrite Hi in E.
      destruct (bs_release_spec s2 i Hs2 Hh2) as (H1 & _ & H3).
      destruct (clear_ok p (bs_release s2 i) H1 Hb Hl) as [H4 H5]. simplify_eq.
      split; [done|]. split; [done|]. split; [|right].
      * intros j _ Hj. eapply bs_same_trans; [apply Hoth|apply H3]; congruence.
      * split_and!; try done. right. intros m rest z Hm Heq. apply Ec. symmetry.
        eapply payload_of_message; [done|done| |lia]. by rewrite <- Heq, Hpend, <- !app_assoc.
  - simplify_eq. split; [|split; [done|split; [done|]]].
    + split; [done|]. split; [done|]. split; [done|]. cbn. rewrite Est. split; [split; apply Hhi|].
      exists i. rewrite Hi, Hd2. split_and!; try done; try lia; [unfold alen in *; lia|by rewrite Hgot1..].
    + left. split; [by left|]. rewrite Hpend. unfold pending. cbn. rewrite Est, Hi, Hd2, Hgot1.
      by rewrite app_assoc.
Qed.

Lemma recv_produce_spec p s bs r p' s' o : parser_ok p s → bytes_ok bs → 0 < alen bs ≤ parser_write_len p →
  recv_produce p s bs = (r, p', s', o) → step_spec p s bs r p' s' o.
Proof.
  intros Hok Hbs Hn E. destruct (ps_state p) eqn:Est.
  - by eapply header_step.
  - unfold parser_write_len in Hn. rewrite Est in Hn. lia.
  - by eapply payload_step.
Qed.

End Invariant.

(** * Sessions *)

Section Session.
Context {S : Type} `{!BufferSource S}.

(** What the caller reads out of the frame it is handed. *)
Definition frame_payload (s : S) (f : tr_frame) : list Z :=
  match fr_payload f with
  | None => []
  | Some i => take (Z.to_nat (bs_len s i)) (bs_data s i)
  end.

Definition frame_msgs (s : S) (o : option tr_frame) : list msg :=
  match o with None => [] | Some f => [mk_msg (fr_header f) (frame_payload s f)] end.

(** A connection: receives of any sizes the parser offers, retries of [prepare], and, at
    any moment, anything the rest of the program does with its own buffers.
    [session p s bytes msgs p' s'] took [bytes] in and handed out [msgs]. *)
Inductive session : tr_parser → S → list Z → list msg → tr_parser → S → Prop :=
| Ses_nil p s : session p s [] [] p s
| Ses_recv p s bs r p1 s1 o bytes msgs p2 s2 :
    bytes_ok bs → 0 < alen bs ≤ parser_write_len p →
    tr_parser_produce (Some (recv_into p s bs).1) (recv_into p s bs).2 (alen bs) true = (r, Some p1, s1, o) →
    is_error r = false →
    session p1 s1 bytes msgs p2 s2 → session p s (bs ++ bytes) (frame_msgs s1 o ++ msgs) p2 s2
| Ses_prepare p s r p1 s1 bytes msgs p2 s2 :
    tr_parser_prepare (Some p) s = (r, Some p1, s1) → is_error r = false →
    session p1 s1 bytes msgs p2 s2 → session p s bytes msgs p2 s2
| Ses_others p s s1 bytes msgs p2 s2 :
    bs_ok s1 → (∀ i, ps_payload p = Some i → bs_same s s1 i) →
    session p s1 bytes msgs p2 s2 → session p s bytes msgs p2 s2.

Lemma produce_recv (p : tr_parser) (s : S) bs r p1 s1 o :
  tr_parser_produce (Some (recv_into p s bs).1) (recv_into p s bs).2 (alen bs) true = (r, Some p1, s1, o) →
  recv_produce p s bs = (r, p1, s1, o).
Proof.
  unfold tr_parser_produce, recv_produce. destruct (recv_into p s bs) as [q t]. simpl.
  destruct (parser_produce q t (alen bs)) as [[[r' p'] s'] o']. intros. by simplify_eq.
Qed.

Lemma prepare_some (p : tr_parser) (s : S) r p1 s1 :
  tr_parser_prepare (Some p) s = (r, Some p1, s1) → parser_prepare p s = (r, p1, s1).
Proof. simpl. destruct (parser_prepare p s) as [[r' p'] s']. intros. by simplify_eq. Qed.

Lemma others_ok p (s s1 : S) : parser_ok p s → bs_ok s1 → (∀ i, ps_payload p = Some i → bs_same s s1 i) →
  parser_ok p s1 ∧ pending p s1 = pending p s.
Proof.
  intros (Hs & Hb & Hl & Hst) Hs1 Hsame. unfold parser_ok, pending.
  destruct (ps_state p); try done. destruct Hst as (Hhi & i & Hi & Hheld & Hst).
  rewrite Hi. destruct (Hsame i Hi) as [Hh Hd]. destruct (Hd Hheld) as [Hd' _].
  split; [|by rewrite Hd']. split; [done|]. split; [done|]. split; [done|]. split; [done|].
  exists i. rewrite Hd'. split; [done|]. split; [by apply Hh|done].
Qed.

Lemma session_inv p s bytes msgs p' s' : session p s bytes msgs p' s' → parser_ok p s →
  parser_ok p' s' ∧ ps_limits p' = ps_limits p ∧ Forall (msg_ok (ps_limits p)) msgs ∧
  pending p s ++ bytes = concat (map msg_bytes msgs) ++ pending p' s'.
Proof.
  induction 1 as [p s|p s bs r p1 s1 o bytes msgs p2 s2 Hbs Hn Hr Herr Hses IH
    |p s r p1 s1 bytes msgs p2 s2 Hr Herr Hses IH|p s s1 bytes msgs p2 s2 Hs1 Hsame Hses IH]; intros Hok.
  - split; [done|]. split; [done|]. split; [constructor|]. by rewrite app_nil_r.
  - apply produce_recv, recv_produce_spec in Hr as (Hok1 & Hlim & _ & Ho); try done.
    destruct (IH Hok1) as (Hok2 & Hlim2 & Hm & E). rewrite Hlim in Hm, Hlim2.
    split; [done|]. split; [done|]. destruct o as [f|].
    + destruct Ho as (-> & Hp1 & payload & Hc & Hmsg & Heq). rewrite Hp1 in E. simpl in E.
      assert (frame_payload s1 f = payload) as Hfp.
      { unfold frame_payload, carries in *. destruct (fr_payload f); [by destruct Hc as (_ & _ & ->)|done]. }
      simpl. rewrite Hfp. split; [by constructor|]. by rewrite app_assoc, Heq, E, app_assoc.
    + destruct Ho as [[_ Hp]|[Hbad _]]; [|congruence]. split; [done|].
      by rewrite app_assoc, <- Hp, E.
  - apply prepare_some, prepare_spec in Hr as (Hok1 & Hlim & Hp & _); [|done].
    destruct (IH Hok1) as (Hok2 & Hlim2 & Hm & E). rewrite Hlim in Hm, Hlim2. rewrite Hp in E. done.
  - destruct (others_ok p s s1 Hok Hs1 Hsame) as [Hok1 Hp]. destruct (IH Hok1) as (? & ? & ? & E).
    by rewrite Hp in E.
Qed.

(** An incomplete message is not a complete one. *)
Lemma pending_incomplete p (s : S) m rest : parser_ok p s → msg_ok (ps_limits p) m →
  pending p s ≠ msg_bytes m ++ rest.
Proof.
  intros (Hs & Hb & Hl & Hst) Hm E. unfold msg_bytes in E. rewrite <- app_assoc in E.
  pose proof (length_header (m_header m)) as HL. unfold alen in HL.
  unfold pending in E. destruct (ps_state p) eqn:Est.
  - apply (f_equal length) in E. rewrite length_take, length_app in E. lia.
  - destruct Hst as [Hhi _].
    rewrite <- (app_nil_r (ps_header_buf p)), (hi_bytes _ Hhi) in E.
    apply app_inj_1 in E as [Eh E]; [|done].
    pose proof (valid_header_decode _ _ zero_frame_header (hi_valid _ Hhi)) as Hd.
    rewrite Eh, (valid_header_decode _ _ _ (mo_header _ _ Hm)) in Hd. injection Hd as Hd.
    pose proof (hi_len _ Hhi) as H0. rewrite <- Hd, (mo_len _ _ Hm) in H0. unfold alen in H0.
    apply (f_equal length) in E. rewrite length_app in E. simpl in E. lia.
  - destruct Hst as (Hhi & i & Hi & Hheld & Hhave & Hcap & _). rewrite Hi, (hi_bytes _ Hhi) in E.
    apply app_inj_1 in E as [Eh E]; [|done].
    pose proof (valid_header_decode _ _ zero_frame_header (hi_valid _ Hhi)) as Hd.
    rewrite Eh, (valid_header_decode _ _ _ (mo_header _ _ Hm)) in Hd. injection Hd as Hd.
    rewrite <- Hd, (mo_len _ _ Hm) in Hhave. unfold alen in Hhave.
    apply (f_equal length) in E. rewrite length_app, length_take in E. lia.
Qed.

(** Whatever the reads, the messages of a byte stream are determined. *)
Lemma stream_unique p (s : S) limits ms msgs rest : parser_ok p s → ps_limits p = limits →
  Forall (msg_ok limits) ms → Forall (msg_ok limits) msgs →
  concat (map msg_bytes ms) ++ rest = concat (map msg_bytes msgs) ++ pending p s →
  ∃ more, msgs = ms ++ more ∧ rest = concat (map msg_bytes more) ++ pending p s.
Proof.
  intros Hok <-. revert msgs. induction ms as [|m ms IH]; intros msgs Hms Hmsgs E; [by exists msgs|].
  apply Forall_cons in Hms as [Hm Hms]. simpl in E. rewrite <- app_assoc in E.
  destruct msgs as [|m' msgs]; simpl in E.
  - by apply symmetry, pending_incomplete in E.
  - apply Forall_cons in Hmsgs as [Hm' Hmsgs]. rewrite <- app_assoc in E.
    apply (msg_bytes_inj (ps_limits p)) in E as [<- E]; [|done|done].
    destruct (IH msgs Hms Hmsgs E) as (more & -> & ->). by exists more.
Qed.

End Session.

Section Theorems.
Context {S : Type} `{!BufferSource S}.

Lemma init_parser_ok old limits (s : S) : bs_ok s →
  ∃ p, tr_parser_init (Some old) true limits = (TR_OK, Some p) ∧ parser_ok p s ∧ pending p s = [] ∧
    ps_limits p = {| max_payload_len := effective_max_payload limits |}.
Proof.
  intros Hs. eexists. split; [done|]. split; [|done].
  split; [done|]. split; [|done]. repeat constructor; by unfold u8_ok.
Qed.

(** C1: However the bytes of a connection are split into reads, and whatever else happens to
    the buffers meanwhile, a fresh parser hands out exactly the valid messages its bytes
    start with, in order and with their payloads, and keeps the incomplete rest. *)
Theorem parser_frames_any_split (old : tr_parser) (limits : option tr_wire_limits) (s s' : S)
    (p p' : tr_parser) (bytes : list Z) (msgs : list msg)
    (Hs : bs_ok s) (Hinit : tr_parser_init (Some old) true limits = (TR_OK, Some p))
    (Hses : session p s bytes msgs p' s') :
  Forall (msg_ok (ps_limits p)) msgs ∧
  bytes = concat (map msg_bytes msgs) ++ pending p' s' ∧
  ∀ ms rest, Forall (msg_ok (ps_limits p)) ms → bytes = concat (map msg_bytes ms) ++ rest →
    ∃ more, msgs = ms ++ more ∧ rest = concat (map msg_bytes more) ++ pending p' s'.
Proof.
  destruct (init_parser_ok old limits s Hs) as (p0 & E0 & Hok & Hp & _). rewrite Hinit in E0. simplify_eq.
  apply session_inv in Hses as (Hok' & Hlim & Hmsgs & E); [|done]. rewrite Hp in E. simpl in E.
  split; [done|]. split; [done|]. intros ms rest Hms Hbytes. rewrite E in Hbytes.
  by apply (stream_unique p' s' (ps_limits p0)).
Qed.

(** The header a parser's bytes begin can be told apart from the parser's refusals. *)
Lemma messages_prefix limits msgs ms x : Forall (msg_ok limits) msgs → Forall (msg_ok limits) ms →
  x ≠ [] → concat (map msg_bytes msgs) ++ x = concat (map msg_bytes ms) →
  ∃ m more, msg_ok limits m ∧ x = msg_bytes m ++ more.
Proof.
  intros Hmsgs. revert ms. induction Hmsgs as [|m msgs Hm Hmsgs IH]; intros ms Hms Hx E; simpl in E.
  - destruct Hms as [|m ms Hm Hms]; [done|]. simpl in E. by exists m, (concat (map msg_bytes ms)).
  - destruct Hms as [|m' ms Hm' Hms]; simpl in E.
    + by apply (f_equal length) in E; rewrite !length_app in E; simpl in E; destruct x; [|simpl in E; lia].
    + rewrite <- app_assoc in E. apply (msg_bytes_inj limits) in E as [_ E]; [|done|done]. by apply (IH ms).
Qed.

(** C38: A fresh parser fails only when the buffer source fails it or when the bytes received
    so far begin no sequence of valid messages; and then it has given its buffer back,
    kept everyone else's as it was, and is ready for a new header. *)
Theorem parser_rejects_only_invalid (old : tr_parser) (limits : option tr_wire_limits) (s s1 s2 : S)
    (p p1 p2 : tr_parser) (bytes bs : list Z) (msgs : list msg) (r : tr_status) (o : option tr_frame)
    (Hs : bs_ok s) (Hinit : tr_parser_init (Some old) true limits = (TR_OK, Some p))
    (Hses : session p s bytes msgs p1 s1)
    (Hbs : bytes_ok bs) (Hn : 0 < alen bs ≤ parser_write_len p1)
    (Hr : tr_parser_produce (Some (recv_into p1 s1 bs).1) (recv_into p1 s1 bs).2 (alen bs) true =
       (r, Some p2, s2, o))
    (Herr : is_error r = true) :
  o = None ∧ parser_ok p2 s2 ∧ pending p2 s2 = [] ∧ others_same p1 s1 s2 ∧
  ((∃ n s', bs_acquire s1 n = (r, s', None)) ∨
   ∀ ms rest, Forall (msg_ok (ps_limits p)) ms → bytes ++ bs ++ rest ≠ concat (map msg_bytes ms)).
Proof.
  destruct (init_parser_ok old limits s Hs) as (p0 & E0 & Hok & Hp & _). rewrite Hinit in E0. simplify_eq.
  apply session_inv in Hses as (Hok1 & Hlim & Hmsgs & E); [|done]. rewrite Hp in E. simpl in E.
  apply produce_recv, recv_produce_spec in Hr as (Hok2 & _ & Hoth & Ho); try done.
  destruct o as [f|]; [destruct Ho as [-> _]; discriminate Herr|].
  destruct Ho as [[Hr _]|(_ & Hp2 & Hwhy)]; [apply is_error_not in Herr; tauto|].
  split_and!; try done; try apply Hok2. destruct Hwhy as [Hwhy|Hwhy]; [by left|right].
  intros ms rest Hms Heq. rewrite E, <- app_assoc in Heq.
  apply (messages_prefix (ps_limits p0)) in Heq as (m & more & Hm & Heq); [|done|done|].
  - rewrite Hlim in Hwhy. by apply (Hwhy m rest more).
  - intros E'. apply (f_equal length) in E'. rewrite !length_app in E'. unfold alen in Hn. simpl in E'. lia.
Qed.

(** C40: Where a receive may write: never beyond the header buffer or the payload buffer, which
    the parser holds; and there is always something to write unless a buffer is awaited. *)
Theorem parser_writes_in_bounds (old : tr_parser) (limits : option tr_wire_limits) (s s' : S)
    (p p' : tr_parser) (bytes : list Z) (msgs : list msg)
    (Hs : bs_ok s) (Hinit : tr_parser_init (Some old) true limits = (TR_OK, Some p))
    (Hses : session p s bytes msgs p' s') :
  match tr_parser_write_ptr (Some p') with
  | Some (W_header off) => 0 ≤ off ∧ 0 < tr_parser_write_len (Some p') ∧
      off + tr_parser_write_len (Some p') = alen (ps_header_buf p')
  | Some (W_payload i off) => bs_held s' i ∧ 0 ≤ off ∧ 0 < tr_parser_write_len (Some p') ∧
      off + tr_parser_write_len (Some p') ≤ alen (bs_data s' i) ∧
      off + tr_parser_write_len (Some p') ≤ effective_max_payload limits
  | None => tr_parser_write_len (Some p') = 0 ∧ ps_state p' = TR_PARSER_WAIT_PAYLOAD_BUFFER
  end.
Proof.
  destruct (init_parser_ok old limits s Hs) as (p0 & E0 & Hok & Hp & Hl0). rewrite Hinit in E0. simplify_eq.
  apply session_inv in Hses as (Hok' & Hlim & _); [|done].
  destruct Hok' as (_ & _ & Hl & Hst). simpl. unfold parser_write_ptr.
  destruct (ps_state p') eqn:Est.
  - destruct Hst as [Hh _]. rewrite write_len_header by done. unfold alen. rewrite Hl. lia.
  - unfold parser_write_len. by rewrite Est.
  - destruct Hst as (Hhi & i & Hi & Hheld & Hhave & Hcap & _). rewrite Hi.
    rewrite (write_len_payload p' i) by done. pose proof (hi_valid _ Hhi) as Hv.
    pose proof (proj1 (validate_ok_iff _ _ _ (vh_ok _ _ Hv)) (vh_valid _ _ Hv)) as (_ & _ & Hadm).
    pose proof (adm_length _ _ Hadm) as Hmax. rewrite Hlim, Hl0 in Hmax.
    assert (effective_max_payload (Some {| max_payload_len := effective_max_payload limits |}) =
      effective_max_payload limits) as Hem.
    { unfold effective_max_payload at 1. simpl. case_if; [|done].
      revert Heqb. unfold effective_max_payload. destruct limits as [l|]; [case_if|]; done. }
    split_and!; try done; lia.
Qed.

End Theorems.

(** * The buffer pool as a source *)

(** The pool, its budget, and what [realloc] will answer. *)
Record pool_source (B : Type) := mk_source {
  src_pool : tr_buffer_pool;
  src_budget : B;
  src_realloc : list bool
}.
Arguments mk_source {B}.
Arguments src_pool {B}.
Arguments src_budget {B}.
Arguments src_realloc {B}.

Section PoolSource.
Context {B : Type} `{!Budget B}.
Implicit Types (s : pool_source B).

Definition source_acquire s (n : Z) : tr_status * pool_source B * option nat :=
  let '(r, p, bud, o) :=
    tr_buffer_acquire (Some (src_pool s)) n true (default true (head (src_realloc s))) (src_budget s) in
  (r, mk_source (default (src_pool s) p) bud (tail (src_realloc s)), o).

Definition source_release s (i : nat) : pool_source B :=
  mk_source (tr_buffer_release (src_pool s) (Some (Pooled i))).1 (src_budget s) (src_realloc s).

Definition source_update s (i : nat) (f : tr_buffer → tr_buffer) : pool_source B :=
  mk_source (pool_set_buffer (src_pool s) i (f (p_buffers (src_pool s) !!! i))) (src_budget s)
    (src_realloc s).

Definition source_write s (i : nat) (off : Z) (bs : list Z) : pool_source B :=
  source_update s i (λ b, mk_buffer (put_at (bf_data b) off bs) (bf_capacity b) (bf_len b) (bf_next b)
    (bf_checked_out b)).

Definition source_set_len s (i : nat) (n : Z) : pool_source B :=
  source_update s i (λ b, mk_buffer (bf_data b) (bf_capacity b) n (bf_next b) (bf_checked_out b)).

Definition source_ok s : Prop :=
  pool_ok (src_pool s) ∧ b_ok (src_budget s) ∧ charge (src_pool s) ≤ b_used (src_budget s).

Definition source_data s i : list Z := bf_data (p_buffers (src_pool s) !!! i).
Definition source_len s i : Z := bf_len (p_buffers (src_pool s) !!! i).
Definition source_held s i : Prop := held (src_pool s) i.
Definition source_same s s' j : Prop :=
  (source_held s' j ↔ source_held s j) ∧
  (source_held s j → source_data s' j = source_data s j ∧ source_len s' j = source_len s j).

Lemma lookup_same s s' j : p_buffers (src_pool s') !! j = p_buffers (src_pool s) !! j →
  source_same s s' j.
Proof.
  intros E. unfold source_same, source_held, held, source_data, source_len.
  rewrite !list_lookup_total_alt, E. done.
Qed.

Lemma source_acquire_spec s n r s' o : source_ok s → 0 < n → source_acquire s n = (r, s', o) →
  source_ok s' ∧
  match o with
  | Some i => r = TR_OK ∧ ¬ source_held s i ∧ source_held s' i ∧ n ≤ alen (source_data s' i) ∧
      ∀ j, j ≠ i → source_same s s' j
  | None => (r = TR_AGAIN ∨ is_error r = true) ∧ ∀ j, source_same s s' j
  end.
Proof.
  intros (Hok & Hb & Hu) Hn E. unfold source_acquire, tr_buffer_acquire in E.
  destruct (Z.eqb_spec n 0); [lia|]. cbn [negb orb] in E.
  destruct (pool_acquire _ n _ _) as [[[r1 p1] b1] o1] eqn:Ea. simpl in E. simplify_eq.
  pose proof Ea as Ea'. apply (pool_acquire_spec _ _ _ _ (b_used (src_budget s) - charge (src_pool s)))
    in Ea' as (Hok1 & Hb1 & Hu1 & Ho); try done; try lia.
  split; [split_and!; simpl; try done; lia|]. destruct o as [i|].
  - destruct Ho as (-> & _ & (b & Eb & Hbo) & (b' & Eb' & Hbo' & _ & Hcap) & Hoth).
    split; [done|]. split; [intros (b2 & E2 & H2); congruence|]. split; [by exists b'|]. split.
    + unfold source_data. simpl. rewrite (pool_lookup_total _ _ _ Eb').
      pose proof (Forall_lookup_1 _ _ _ _ (po_bufs _ Hok1) Eb') as (Hd & _). lia.
    + intros j Hj. apply lookup_same. simpl. by apply Hoth.
  - apply pool_acquire_fail in Ea as (Hr & Hkeep); [|done..]. split; [done|].
    destruct Ho as (_ & Hheld & _). intros j. split; [by apply Hheld|].
    intros (b & Eb & Hbo). unfold source_data, source_len. simpl.
    by rewrite (pool_lookup_total _ _ _ Eb), (pool_lookup_total _ _ _ (Hkeep _ _ Eb Hbo)).
Qed.

Lemma source_release_spec s i : source_ok s → source_held s i →
  source_ok (source_release s i) ∧ ¬ source_held (source_release s i) i ∧
  ∀ j, j ≠ i → source_same s (source_release s i) j.
Proof.
  intros (Hok & Hb & Hu) (b & Eb & Hbo). pose proof (lookup_lt_Some _ _ _ Eb) as Hi.
  split; [split_and!; simpl; [by apply pool_release_ok|done|by rewrite pool_release_charge]|].
  unfold source_release, source_held. simpl. unfold pool_release.
  rewrite (pool_lookup_total _ _ _ Eb), Hbo. simpl. split.
  - intros (b' & E' & H'). simpl in E'. rewrite list_lookup_insert_eq in E' by done. by simplify_eq.
  - intros j Hj. apply lookup_same. simpl. by rewrite list_lookup_insert_ne.
Qed.

(** A descriptor's owner changes its contents. *)
Lemma source_update_spec s i f : source_ok s → source_held s i →
  (∀ b, p_buffers (src_pool s) !! i = Some b → buffer_ok (src_pool s) (f b) ∧
    bf_next (f b) = bf_next b ∧ bf_checked_out (f b) = bf_checked_out b ∧ bf_capacity (f b) = bf_capacity b) →
  source_ok (source_update s i f) ∧ source_held (source_update s i f) i ∧
  (p_buffers (src_pool (source_update s i f)) !!! i = f (p_buffers (src_pool s) !!! i)) ∧
  ∀ j, j ≠ i → source_same s (source_update s i f) j.
Proof.
  intros (Hok & Hb & Hu) (b & Eb & Hbo) Hf. destruct (Hf b Eb) as (H1 & H2 & H3 & H4).
  pose proof (lookup_lt_Some _ _ _ Eb) as Hi. unfold source_update.
  rewrite (pool_lookup_total _ _ _ Eb).
  destruct (pool_set_ok _ _ _ _ Hok Eb H1 H2 H3 H4) as [H5 H6].
  split; [split_and!; simpl; [done|done|by rewrite H6]|]. simpl.
  split; [exists (f b); split; [by apply list_lookup_insert_eq|congruence]|].
  split; [by apply list_lookup_total_insert_eq|].
  intros j Hj. apply lookup_same. simpl. by apply list_lookup_insert_ne.
Qed.

Lemma source_buffer_ok s i b : source_ok s → p_buffers (src_pool s) !! i = Some b →
  buffer_ok (src_pool s) b.
Proof. intros (Hok & _) Eb. by apply (Forall_lookup_1 _ _ _ _ (po_bufs _ Hok) Eb). Qed.

#[export] Program Instance pool_buffer_source : BufferSource (pool_source B) := {
  bs_acquire := source_acquire;
  bs_release := source_release;
  bs_data := source_data;
  bs_write := source_write;
  bs_set_len := source_set_len;
  bs_len := source_len;
  bs_held := source_held;
  bs_ok := source_ok;
  bs_acquire_spec := source_acquire_spec;
  bs_release_spec := source_release_spec
}.
Next Obligation.
  intros s i off bs Hok Hh H0 Hoff. destruct Hh as (b & Eb & Hbo) eqn:Hh'. clear Hh'.
  unfold source_data in *. rewrite (pool_lookup_total _ _ _ Eb) in *.
  destruct (source_buffer_ok _ _ _ Hok Eb) as (Hd & Hl & Hs).
  destruct (source_update_spec s i (λ b, mk_buffer (put_at (bf_data b) off bs) (bf_capacity b) (bf_len b)
    (bf_next b) (bf_checked_out b))) as (H1 & H2 & H3 & H4); [done|by exists b| |].
  - intros b' Eb'. simplify_eq. split; [|done]. split; [|done]. simpl.
    unfold alen in *. by rewrite length_put_at by (unfold alen; lia).
  - split; [done|]. split; [done|]. split; [|done]. unfold source_write. rewrite H3.
    by rewrite (pool_lookup_total _ _ _ Eb).
Qed.
Next Obligation.
  intros s i n Hok Hh Hn. destruct Hh as (b & Eb & Hbo) eqn:Hh'. clear Hh'.
  unfold source_data in *. rewrite (pool_lookup_total _ _ _ Eb) in *.
  destruct (source_buffer_ok _ _ _ Hok Eb) as (Hd & Hl & Hs).
  destruct (source_update_spec s i (λ b, mk_buffer (bf_data b) (bf_capacity b) n
    (bf_next b) (bf_checked_out b))) as (H1 & H2 & H3 & H4); [done|by exists b| |].
  - intros b' Eb'. simplify_eq. split; [|done]. split; [done|]. split; [simpl; lia|done].
  - split; [done|]. split; [done|]. unfold source_set_len, source_len. rewrite H3.
    by rewrite (pool_lookup_total _ _ _ Eb).
Qed.

End PoolSource.

(** * Examples *)

Section Reads.
Context {S : Type} `{!BufferSource S}.

(** A run over given reads, none of which may fail. *)
Fixpoint run_reads (p : tr_parser) (s : S) (reads : list (list Z)) : option (list msg * tr_parser * S) :=
  match reads with
  | [] => Some ([], p, s)
  | bs :: reads =>
      if forallb (λ b, (0 <=? b) && (b <? 2 ^ 8)) bs && (0 <? alen bs) && (alen bs <=? parser_write_len p) then
        match tr_parser_produce (Some (recv_into p s bs).1) (recv_into p s bs).2 (alen bs) true with
        | (r, Some p1, s1, o) =>
            bail None when (is_error r) ;;
            match run_reads p1 s1 reads with
            | Some (msgs, p2, s2) => Some (frame_msgs s1 o ++ msgs, p2, s2)
            | None => None
            end
        | _ => None
        end
      else None
  end.

Lemma forallb_bytes_ok bs : forallb (λ b, (0 <=? b) && (b <? 2 ^ 8)) bs = true → bytes_ok bs.
Proof.
  rewrite forallb_forall. intros H. apply list.Forall_forall. intros b Hb.
  apply list_elem_of_In, H, andb_true_iff in Hb as [H1 H2]. unfold u8_ok. lia.
Qed.

Lemma run_reads_session p s reads msgs p' s' : run_reads p s reads = Some (msgs, p', s') →
  session p s (concat reads) msgs p' s'.
Proof.
  revert p s msgs. induction reads as [|bs reads IH]; intros p s msgs E; simpl in E.
  - simplify_eq. constructor.
  - destruct (forallb _ bs) eqn:Hb; [|done].
    destruct (Z.ltb_spec 0 (alen bs)); [|done]. destruct (Z.leb_spec (alen bs) (parser_write_len p)); [|done].
    simpl in E. destruct (parser_produce (recv_into p s bs).1 (recv_into p s bs).2 (alen bs))
      as [[[r p1] s1] o] eqn:Ep.
    destruct (is_error r) eqn:Er; [done|].
    destruct (run_reads p1 s1 reads) as [[[ms p2] s2]|] eqn:Erest; [|done]. simplify_eq. simpl.
    eapply (Ses_recv p s bs r p1 s1); try done; [by apply forallb_bytes_ok| |by apply IH].
    simpl. by rewrite Ep.
Qed.

End Reads.

Definition demo_source : pool_source budget_ref := mk_source demo_pool.1 demo_pool.2 [].

Definition demo_msg : msg :=
  let payload := [104; 105; 33] in
  let h := mk_frame_header 1 TR_FRAME_DATA 3 7 42 3 (tr_crc32c payload) 0 0 in
  mk_msg (with_header_crc h (tr_crc32c (header_layout h [0; 0; 0; 0]))) payload.

Definition demo_parser : tr_parser :=
  default (mk_parser TR_PARSER_HEADER [] 0 zero_frame_header None 0 0 {| max_payload_len := 0 |})
    (tr_parser_init (Some (mk_parser TR_PARSER_HEADER [] 0 zero_frame_header None 0 0
      {| max_payload_len := 0 |})) true None).2.

(** The message in five reads, and the beginning of a second one. *)
Definition demo_reads : list (list Z) :=
  let b := msg_bytes demo_msg in
  [take 7 b; take 20 (drop 7 b); drop 27 (take 40 b); take 1 (drop 40 b); drop 41 b; take 5 b].

Lemma demo_source_ok : bs_ok demo_source.
Proof.
  destruct (pool_created_ok demo_budget demo_pool.2 demo_pool.1 demo_budget_ok) as (Hok & Hb & Hu & _).
  { apply (created_dynamic _ (Some zero_pool) 2 512 true demo_env);
      [unfold u32_ok; lia|unfold u32_ok; lia|vm_compute; reflexivity]. }
  split; [exact Hok|]. split; [exact Hb|].
  change (charge demo_pool.1 ≤ b_used demo_pool.2). rewrite Hu.
  pose proof (b_used_nonneg _ demo_budget_ok). lia.
Qed.

Lemma demo_init : tr_parser_init (Some demo_parser) true None = (TR_OK, Some demo_parser).
Proof. vm_compute. reflexivity. Qed.

Lemma parser_frames_any_split_witness :
  ∃ p' s', run_reads demo_parser demo_source demo_reads = Some ([demo_msg], p', s') ∧
    concat demo_reads = concat (map msg_bytes [demo_msg]) ++ pending p' s'.
Proof.
  assert (is_Some (run_reads demo_parser demo_source demo_reads)) as [[[msgs p'] s'] E]
    by (vm_compute; eexists; reflexivity).
  exists p', s'. assert (msgs = [demo_msg]) as ->.
  { revert E. vm_compute. intros E. injection E as <- _ _. reflexivity. }
  split; [exact E|].
  apply (parser_frames_any_split demo_parser None demo_source s' demo_parser p' (concat demo_reads)
    [demo_msg] demo_source_ok demo_init). apply run_reads_session. exact E.
Defined.

(** The parser and its source once the first message's header is in. *)
Definition demo_mid : tr_parser * pool_source budget_ref :=
  match run_reads demo_parser demo_source [take 40 (msg_bytes demo_msg)] with
  | Some (_, p, s) => (p, s)
  | None => (demo_parser, demo_source)
  end.

(** Then the last payload byte arrives altered. *)
Definition demo_bad : list Z := [104; 105; 34].

Definition demo_after : tr_parser * pool_source budget_ref :=
  match tr_parser_produce (Some (recv_into demo_mid.1 demo_mid.2 demo_bad).1)
    (recv_into demo_mid.1 demo_mid.2 demo_bad).2 (alen demo_bad) true with
  | (_, Some p, s, _) => (p, s)
  | (_, None, s, _) => (demo_parser, s)
  end.

Lemma parser_rejects_only_invalid_witness :
  tr_parser_produce (Some (recv_into demo_mid.1 demo_mid.2 demo_bad).1)
    (recv_into demo_mid.1 demo_mid.2 demo_bad).2 (alen demo_bad) true =
      (TR_ERR_PAYLOAD_CRC, Some demo_after.1, demo_after.2, None) ∧
  parser_ok demo_after.1 demo_after.2 ∧ pending demo_after.1 demo_after.2 = [].
Proof.
  assert (run_reads demo_parser demo_source [take 40 (msg_bytes demo_msg)] =
    Some ([], demo_mid.1, demo_mid.2)) as E by (vm_compute; reflexivity).
  assert (tr_parser_produce (Some (recv_into demo_mid.1 demo_mid.2 demo_bad).1)
    (recv_into demo_mid.1 demo_mid.2 demo_bad).2 (alen demo_bad) true =
      (TR_ERR_PAYLOAD_CRC, Some demo_after.1, demo_after.2, None)) as Er by (vm_compute; reflexivity).
  assert (bytes_ok demo_bad) as Hb by (apply forallb_bytes_ok; vm_compute; reflexivity).
  assert (0 < alen demo_bad ≤ parser_write_len demo_mid.1) as Hn
    by (split; vm_compute; [reflexivity|discriminate]).
  destruct (parser_rejects_only_invalid demo_parser None demo_source demo_mid.2 demo_after.2
    demo_parser demo_mid.1 demo_after.1 _ demo_bad [] TR_ERR_PAYLOAD_CRC None
    demo_source_ok demo_init (run_reads_session _ _ _ _ _ _ E) Hb Hn Er eq_refl) as (_ & H1 & H2 & _).
  exact (conj Er (conj H1 H2)).
Defined.

Lemma parser_writes_in_bounds_witness :
  tr_parser_write_ptr (Some demo_mid.1) = Some (W_payload 1 0) ∧
  tr_parser_write_len (Some demo_mid.1) = 3 ∧ bs_held demo_mid.2 1 ∧
  0 + tr_parser_write_len (Some demo_mid.1) ≤ alen (bs_data demo_mid.2 1).
Proof.
  assert (run_reads demo_parser demo_source [take 40 (msg_bytes demo_msg)] =
    Some ([], demo_mid.1, demo_mid.2)) as E by (vm_compute; reflexivity).
  assert (tr_parser_write_ptr (Some demo_mid.1) = Some (W_payload 1 0)) as Hp by (vm_compute; reflexivity).
  assert (tr_parser_write_len (Some demo_mid.1) = 3) as Hl by (vm_compute; reflexivity).
  pose proof (parser_writes_in_bounds demo_parser None demo_source demo_mid.2 demo_parser demo_mid.1 _ _
    demo_source_ok demo_init (run_reads_session _ _ _ _ _ _ E)) as H.
  rewrite Hp in H. destruct H as (H1 & _ & _ & H2 & _). exact (conj Hp (conj Hl (conj H1 H2))).
Defined.
