(* ===== verification/ReactorTx.v ===== *)
(** The sending side of a connection: the functions [tr_tx_*] and [tr_connection_flush_tx] of
    [src/execution/reactor.c], for a connection without TLS.

    [tr_reactor_sendv_limited], on the owner thread, makes an item of a message of up to four
    slices of payload and queues it; a send from another thread queues the same item later.
    A DATA message is cut into frames of at most [max_frame_payload_len] bytes; the first is
    prepared when the message is queued, the others when their turn comes.  Items are sent in the
    order of their queue, but for control frames that are a header alone (WINDOW_UPDATE, PING,
    PONG): up to eight of them in a row may go between the frames of DATA.  Items are linked by
    pointers; here they have names, and a linked list is the list of the names.

    [cx_wire], [cx_log] and [cx_given] are not fields of the code: they keep the bytes that the
    kernel took, the frames that are complete and the items that were queued.

    Theorem: whatever the kernel takes at a time, the bytes are those of whole frames and a
    part of the one under way, and a parser at the other end gets these frames; the messages
    are cut without loss; a frame that goes before a message queued earlier is complete is a
    header-only control frame, that message is DATA, and at most eight overtake in a row. *)
From Stdlib Require Import Sorted.
From S2P Require Import Prelude Status Endian Crc32c Wire MemoryBudget BufferPool Parser.

(** * Data *)

Definition TR_REACTOR_MAX_TX_SLICES : Z := 4.
Definition TR_IO_QUANTUM : Z := 64 * 1024.
Definition TR_CONTROL_BURST : Z := 8.

(** [struct tr_tx_item] without its links.  [ti_payloads]: the first [payload_count] slices. *)
Record tr_tx_item := mk_tx_item {
  ti_header : list Z;
  ti_payloads : list (option (list Z));
  ti_type : Z;
  ti_base_flags : Z;
  ti_stream_id : Z;
  ti_message_id : Z;
  ti_message_len : Z;
  ti_message_pos : Z;
  ti_frame_payload_len : Z;
  ti_max_frame_payload_len : Z;
  ti_wire_pos : Z;
  ti_wire_len : Z
}.

(** The fields of [struct tr_connection] that sending uses. *)
Record tx_connection := mk_tx_connection {
  cx_items : gmap nat tr_tx_item;
  cx_fifo : list nat;
  cx_control : list nat;
  cx_active : option nat;
  cx_control_streak : Z;
  cx_queued_items : Z;
  cx_tx_bytes : Z;
  cx_tx_frames : Z;
  cx_open : bool;
  cx_wire : list Z;
  cx_log : list (tr_tx_item * msg);
  cx_given : list tr_tx_item
}.

(** What [sendmsg] answers: the number of bytes it took, EINTR, EAGAIN (and whether epoll could
    be told to wait for room), or an error. *)
Inductive send_answer := Took (n : Z) | Interrupted | Would_block (watched : bool) | Send_failed.

(** * Frames *)

Definition is_data (it : tr_tx_item) : bool := ti_type it =? TR_FRAME_DATA.

(** The loop over the slices: the state of the checksum, and what is left to read. *)
Fixpoint crc_slices (payloads : list (option (list Z))) (state pos remaining : Z) : Z * Z :=
  match payloads with
  | [] => (state, remaining)
  | payload :: payloads =>
      bail (state, remaining) when (remaining =? 0) ;;
      match payload with
      | None => crc_slices payloads state pos remaining
      | Some data =>
          if pos >=? alen data then crc_slices payloads state (pos - alen data) remaining
          else
            let room := alen data - pos in
            let part := if room >? remaining then remaining else room in
            crc_slices payloads (tr_crc32c_update state (take (Z.to_nat part) (drop (Z.to_nat pos) data))) 0 (remaining - part)
      end
  end.

Definition tr_tx_crc_range (it : tr_tx_item) (start len : Z) : Z :=
  let '(state, remaining) := crc_slices (ti_payloads it) tr_crc32c_begin start len in
  if remaining =? 0 then tr_crc32c_finish state else 0.

(** The length and the header of the frame that begins at [pos] of the message. *)
Definition frame_length (it : tr_tx_item) (pos : Z) : Z :=
  let remaining := ti_message_len it - pos in
  if remaining >? ti_max_frame_payload_len it then ti_max_frame_payload_len it else remaining.
Definition frame_flags (it : tr_tx_item) (pos : Z) : Z :=
  bail (ti_base_flags it) when (negb (is_data it)) ;;
  let flags := Z.land (ti_base_flags it) (u32 (Z.lnot (Z.lor TR_FRAME_F_FIRST TR_FRAME_F_LAST))) in
  let flags := if pos =? 0 then Z.lor flags TR_FRAME_F_FIRST else flags in
  if pos + frame_length it pos =? ti_message_len it then Z.lor flags TR_FRAME_F_LAST else flags.
Definition frame_header (it : tr_tx_item) (pos : Z) : tr_frame_header :=
  mk_frame_header TR_WIRE_ENV_VERSION (ti_type it) (frame_flags it pos) (ti_stream_id it) (ti_message_id it)
    (frame_length it pos) (tr_tx_crc_range it pos (frame_length it pos)) 0 0.

Definition set_frame (it : tr_tx_item) (header : list Z) (len wire_pos wire_len : Z) : tr_tx_item :=
  mk_tx_item header (ti_payloads it) (ti_type it) (ti_base_flags it) (ti_stream_id it) (ti_message_id it)
    (ti_message_len it) (ti_message_pos it) len (ti_max_frame_payload_len it) wire_pos wire_len.
Definition set_position (it : tr_tx_item) (pos wire_pos wire_len : Z) : tr_tx_item :=
  mk_tx_item (ti_header it) (ti_payloads it) (ti_type it) (ti_base_flags it) (ti_stream_id it) (ti_message_id it)
    (ti_message_len it) pos (ti_frame_payload_len it) (ti_max_frame_payload_len it) wire_pos wire_len.

Definition tr_tx_prepare_frame (it : tr_tx_item) : tr_status * tr_tx_item :=
  bail (TR_ERR_STATE, it) when (ti_message_pos it >? ti_message_len it) ;;
  bail (TR_ERR_STATE, it) when (negb (is_data it) && negb (ti_message_pos it =? 0)) ;;
  match tr_wire_header_encode (Some (ti_header it)) (Some (frame_header it (ti_message_pos it))) with
  | (TR_OK, Some header) =>
      let len := frame_length it (ti_message_pos it) in
      (TR_OK, set_frame it header len 0 (TR_WIRE_HEADER_SIZE + len))
  | _ => (TR_ERR_INVALID, it)
  end.

(** The slices that have bytes of the frame: the pieces, and what no slice had. *)
Fixpoint iov_slices (payloads : list (option (list Z))) (pos remaining : Z) : list (list Z) * Z :=
  match payloads with
  | [] => ([], remaining)
  | payload :: payloads =>
      bail ([], remaining) when (remaining =? 0) ;;
      match payload with
      | None => iov_slices payloads pos remaining
      | Some data =>
          if pos >=? alen data then iov_slices payloads (pos - alen data) remaining
          else
            let room := alen data - pos in
            let part := if room >? remaining then remaining else room in
            let '(iov, remaining) := iov_slices payloads 0 (remaining - part) in
            (take (Z.to_nat part) (drop (Z.to_nat pos) data) :: iov, remaining)
      end
  end.

(** [None] is the answer -1. *)
Definition tr_tx_build_iov (it : tr_tx_item) : option (list (list Z)) :=
  let pos := ti_wire_pos it in
  let '(head, pos) := if pos <? TR_WIRE_HEADER_SIZE then ([drop (Z.to_nat pos) (ti_header it)], 0)
    else ([], pos - TR_WIRE_HEADER_SIZE) in
  bail None when (pos >? ti_frame_payload_len it) ;;
  let '(iov, remaining) := iov_slices (ti_payloads it) (ti_message_pos it + pos) (ti_frame_payload_len it - pos) in
  bail None when (negb (remaining =? 0)) ;;
  Some (head ++ iov).

(** Frames that are a header alone and may go before DATA. *)
Definition tr_tx_can_bypass_data (it : tr_tx_item) : bool :=
  bail false when (negb (ti_message_len it =? 0) || negb (ti_base_flags it =? 0)) ;;
  if ti_type it =? TR_FRAME_WINDOW_UPDATE then negb (ti_stream_id it =? 0)
  else ((ti_type it =? TR_FRAME_PING) || (ti_type it =? TR_FRAME_PONG)) && (ti_stream_id it =? 0).

(** The frame that an item is at, with the bytes of its payload. *)
Definition item_message (it : tr_tx_item) : list Z := concat (omap id (ti_payloads it)).
Definition frame_at (it : tr_tx_item) (pos : Z) : msg :=
  let h := frame_header it pos in
  mk_msg (with_header_crc h (tr_header_crc (header_bytes h)))
    (take (Z.to_nat (frame_length it pos)) (drop (Z.to_nat pos) (item_message it))).

(** * The queue *)

Definition put_item (c : tx_connection) (i : nat) (it : tr_tx_item) : tx_connection :=
  mk_tx_connection (<[i := it]> (cx_items c)) (cx_fifo c) (cx_control c) (cx_active c) (cx_control_streak c)
    (cx_queued_items c) (cx_tx_bytes c) (cx_tx_frames c) (cx_open c) (cx_wire c) (cx_log c) (cx_given c).
Definition set_active (c : tx_connection) (active : option nat) (streak : Z) : tx_connection :=
  mk_tx_connection (cx_items c) (cx_fifo c) (cx_control c) active streak
    (cx_queued_items c) (cx_tx_bytes c) (cx_tx_frames c) (cx_open c) (cx_wire c) (cx_log c) (cx_given c).
Definition take_bytes (c : tx_connection) (bytes : list Z) : tx_connection :=
  mk_tx_connection (cx_items c) (cx_fifo c) (cx_control c) (cx_active c) (cx_control_streak c)
    (cx_queued_items c) (u64 (cx_tx_bytes c + alen bytes)) (cx_tx_frames c) (cx_open c) (cx_wire c ++ bytes) (cx_log c) (cx_given c).
Definition log_frame (c : tx_connection) (it : tr_tx_item) : tx_connection :=
  mk_tx_connection (cx_items c) (cx_fifo c) (cx_control c) (cx_active c) (cx_control_streak c)
    (cx_queued_items c) (cx_tx_bytes c) (u64 (cx_tx_frames c + 1)) (cx_open c) (cx_wire c)
    (cx_log c ++ [(it, frame_at it (ti_message_pos it))]) (cx_given c).
Definition tx_close (c : tx_connection) : tx_connection :=
  mk_tx_connection (cx_items c) (cx_fifo c) (cx_control c) (cx_active c) (cx_control_streak c)
    (cx_queued_items c) (cx_tx_bytes c) (cx_tx_frames c) false (cx_wire c) (cx_log c) (cx_given c).

Definition tr_enqueue_tx_item_owner (c : tx_connection) (i : nat) (it : tr_tx_item) : tx_connection :=
  mk_tx_connection (<[i := it]> (cx_items c)) (cx_fifo c ++ [i]) (if is_data it then cx_control c else cx_control c ++ [i])
    (cx_active c) (cx_control_streak c) (u32 (cx_queued_items c + 1)) (cx_tx_bytes c) (cx_tx_frames c) (cx_open c)
    (cx_wire c) (cx_log c) (cx_given c ++ [it]).

(** [connection]: whether the handle is that of a live connection. *)
Definition tr_send_item_owner (c : tx_connection) (i : nat) (it : tr_tx_item) : tr_status * tx_connection :=
  bail (TR_ERR_STALE, c) when (negb (cx_open c)) ;;
  (TR_OK, tr_enqueue_tx_item_owner c i it).

(** A buffer: its identity and its bytes. *)
Definition tx_slice : Type := nat * list Z.

(** The loop over the buffers of a message: none is NULL, none occurs twice, the sum fits. *)
Fixpoint check_slices (seen : list nat) (payloads : list (option tx_slice)) (len : Z) : tr_status * Z :=
  match payloads with
  | [] => (TR_OK, len)
  | None :: _ => (TR_ERR_INVALID, len)
  | Some (buffer, data) :: payloads =>
      bail (TR_ERR_INVALID, len) when (bool_decide (buffer ∈ seen)) ;;
      bail (TR_ERR_BAD_LENGTH, len) when (UINT32_MAX - len <? alen data) ;;
      check_slices (seen ++ [buffer]) payloads (len + alen data)
  end.

(** The item as the caller fills it in. *)
Definition new_item (type flags stream_id message_id : Z) (payloads : list (option tx_slice)) (len max : Z) : tr_tx_item :=
  mk_tx_item (replicate 40 0) (map (option_map snd) payloads) type flags stream_id message_id len 0 0 max 0 0.

(** On the owner thread, with no command before it.  [max_payload_len] is the reactor's
    configuration, [accepting] its state, [free] the item that the pool answers with. *)
Definition tr_reactor_sendv_limited (max_payload_len : Z) (accepting : bool) (free : option nat) (c : tx_connection)
    (type flags stream_id message_id : Z) (payloads : option (list (option tx_slice))) (payload_count max : Z) : tr_status * tx_connection :=
  bail (TR_ERR_INVALID, c) when (negb (tr_frame_type_valid type) || negb (Z.land flags (u32 (Z.lnot TR_FRAME_F_KNOWN_MASK)) =? 0) ||
    (payload_count >? TR_REACTOR_MAX_TX_SLICES) || negb (payload_count =? 0) && bool_decide (payloads = None) ||
    (max =? 0) || (max >? max_payload_len)) ;;
  let payloads := take (Z.to_nat payload_count) (default [] payloads) in
  let '(ret, len) := check_slices [] payloads 0 in
  bail (ret, c) when (negb (is_ok ret)) ;;
  bail (TR_ERR_BAD_LENGTH, c) when (negb (type =? TR_FRAME_DATA) && (len >? max)) ;;
  match free with
  | None => (TR_AGAIN, c)
  | Some i =>
      let '(ret, it) := tr_tx_prepare_frame (new_item type flags stream_id message_id payloads len max) in
      bail (ret, c) when (negb (is_ok ret)) ;;
      bail (TR_ERR_CLOSED, c) when (negb accepting) ;;
      tr_send_item_owner c i it
  end.

Definition tr_connection_next_tx (c : tx_connection) : option nat * tx_connection :=
  let started := match cx_active c with
    | Some i => match cx_items c !! i with Some it => negb (ti_wire_pos it =? 0) | None => false end
    | None => false
    end in
  bail (cx_active c, c) when started ;;
  let first := head (cx_fifo c) in
  let control := head (cx_control c) in
  let bypass := match first ≫= (cx_items c !!.), control ≫= (cx_items c !!.) with
    | Some it, Some ct => is_data it && (cx_control_streak c <? TR_CONTROL_BURST) && tr_tx_can_bypass_data ct
    | _, _ => false
    end in
  let item := if bypass then control else first in
  (item, set_active c item (cx_control_streak c)).

(** The item leaves the queue and gives its slices back. *)
Definition tr_connection_complete_tx (c : tx_connection) (i : nat) (it : tr_tx_item) : tx_connection :=
  mk_tx_connection (delete i (cx_items c)) (filter (λ j, j ≠ i) (cx_fifo c))
    (if is_data it then cx_control c else tail (cx_control c))
    (cx_active c) (cx_control_streak c) (u32 (cx_queued_items c - 1)) (cx_tx_bytes c) (cx_tx_frames c) (cx_open c)
    (cx_wire c) (cx_log c) (cx_given c).

(** After the kernel took [bytes] of item [i]. *)
Definition tx_took (c : tx_connection) (i : nat) (it : tr_tx_item) (bytes : list Z) : tx_connection :=
  let it := set_position it (ti_message_pos it) (ti_wire_pos it + alen bytes) (ti_wire_len it) in
  let c := put_item (take_bytes c bytes) i it in
  bail c when (negb (ti_wire_pos it =? ti_wire_len it)) ;;
  let c := set_active (log_frame c it) None (cx_control_streak c) in
  if is_data it then
    let c := set_active c None 0 in
    let it := set_position it (ti_message_pos it + ti_frame_payload_len it) (ti_wire_pos it) (ti_wire_len it) in
    if ti_message_pos it <? ti_message_len it then put_item c i (set_position it (ti_message_pos it) 0 0)
    else tr_connection_complete_tx c i it
  else
    let streak := cx_control_streak c in
    let c := if tr_tx_can_bypass_data it && (streak <? TR_CONTROL_BURST) then set_active c None (u32 (streak + 1)) else c in
    tr_connection_complete_tx c i it.

(** The limit on what one call is given. *)
Fixpoint limit_iov (remaining : Z) (iov : list (list Z)) : list (list Z) :=
  match iov with
  | [] => []
  | v :: iov => if alen v >=? remaining then [take (Z.to_nat remaining) v] else v :: limit_iov (remaining - alen v) iov
  end.

(** [kernel n iov]: the answer to the n-th call. *)
Section Flush.
Context (kernel : nat → list (list Z) → send_answer).

(** The loop of [tr_connection_flush_tx]: the calls made, the budget left; [None] when the fuel
    ends before the loop. *)
Fixpoint flush_loop (fuel calls : nat) (budget : Z) (c : tx_connection) : option (nat * Z * tx_connection) :=
  match fuel with
  | O => None
  | S fuel =>
      bail (Some (calls, budget, c)) when ((budget =? 0) || negb (cx_open c) || bool_decide (cx_fifo c = [])) ;;
      let '(item, c) := tr_connection_next_tx c in
      match item with
      | None => Some (calls, budget, tx_close c)
      | Some i =>
          let it := default (mk_tx_item [] [] 0 0 0 0 0 0 0 0 0 0) (cx_items c !! i) in
          let '(ret, it) := if ti_wire_len it =? 0 then tr_tx_prepare_frame it else (TR_OK, it) in
          bail (Some (calls, budget, tx_close c)) when (negb (is_ok ret)) ;;
          let c := put_item c i it in
          match tr_tx_build_iov it with
          | None | Some [] => Some (calls, budget, tx_close c)
          | Some iov =>
              let iov := limit_iov budget iov in
              match kernel calls iov with
              | Took n =>
                  bail (Some (S calls, budget, tx_close c)) when (n =? 0) ;;
                  flush_loop fuel (S calls) (budget - n) (tx_took c i it (take (Z.to_nat n) (concat iov)))
              | Interrupted => flush_loop fuel (S calls) budget c
              | Would_block watched => Some (S calls, budget, if watched then c else tx_close c)
              | Send_failed => Some (S calls, budget, tx_close c)
              end
          end
      end
  end.

(** [left]: the bytes that the turn has left. *)
Definition tr_connection_flush_tx (fuel calls : nat) (left : Z) (c : tx_connection) : option (nat * Z * tx_connection) :=
  let budget := if left <? TR_IO_QUANTUM then left else TR_IO_QUANTUM in
  '(calls, rest, c) ← flush_loop fuel calls budget c;
  Some (calls, left - (budget - rest), c).

End Flush.

(** * Specification *)

(** The frames of a message from a position on. *)
Fixpoint cut (fuel : nat) (frame : Z → msg) (len : Z → Z) (total pos : Z) (again : bool) : list msg :=
  match fuel with
  | O => []
  | S fuel => frame pos :: (if again && (pos + len pos <? total) then cut fuel frame len total (pos + len pos) again else [])
  end.
Definition frames_from (it : tr_tx_item) (pos : Z) : list msg :=
  cut (S (Z.to_nat (ti_message_len it - pos))) (frame_at it) (frame_length it) (ti_message_len it) pos (is_data it).

(** An item as [tr_reactor_sendv_limited] and the reserved senders fill it in, for a peer that
    takes frames under [limits]. *)
Record item_ok (limits : tr_wire_limits) (it : tr_tx_item) : Prop := {
  io_bytes : bytes_ok (item_message it);
  io_length : ti_message_len it = alen (item_message it) ∧ ti_message_len it < 2 ^ 32;
  io_max : 0 < ti_max_frame_payload_len it < 2 ^ 32 ∧ ti_max_frame_payload_len it ≤ effective_max_payload (Some limits);
  io_type : 1 ≤ ti_type it ≤ 15;
  io_flags : 0 ≤ ti_base_flags it < 8;
  io_ids : u32_ok (ti_stream_id it) ∧ u64_ok (ti_message_id it);
  io_control : is_data it = false → ti_message_len it ≤ ti_max_frame_payload_len it;
  io_reset : ti_type it = TR_FRAME_STREAM_RESET ∨ ti_type it = TR_FRAME_STREAM_REFUSED →
    ti_base_flags it = 0 ∧ ti_message_len it = 0 ∧ ti_stream_id it ≠ 0 ∧ reset_reason (ti_message_id it);
  io_refused : ti_type it = TR_FRAME_STREAM_REFUSED → ti_message_id it = 2
}.

(** The frame under way is prepared, or none is. *)
Definition frame_ok (it : tr_tx_item) : Prop :=
  0 ≤ ti_message_pos it ≤ ti_message_len it ∧ (ti_message_pos it ≠ 0 → is_data it = true ∧ ti_message_pos it < ti_message_len it) ∧
  ((ti_wire_len it = 0 ∧ ti_wire_pos it = 0) ∨
   (ti_wire_len it = TR_WIRE_HEADER_SIZE + ti_frame_payload_len it ∧
    ti_header it = header_bytes (m_header (frame_at it (ti_message_pos it))) ∧
    ti_frame_payload_len it = frame_length it (ti_message_pos it) ∧ 0 ≤ ti_wire_pos it < ti_wire_len it)).

(** * Lemmas: frames *)

Lemma slices_some (data : list Z) payloads : concat (omap id (Some data :: payloads)) = data ++ concat (omap id payloads).
Proof. reflexivity. Qed.
Lemma slices_none (payloads : list (option (list Z))) : concat (omap id (None :: payloads)) = concat (omap id payloads).
Proof. reflexivity. Qed.

Lemma header_bytes_with_crc h crc : header_bytes (with_header_crc h crc) = header_bytes h.
Proof. reflexivity. Qed.

Lemma encoded_header_valid limits h : header_ok h → admissible (Some limits) h →
  valid_header limits (with_header_crc h (tr_header_crc (header_bytes h))).
Proof.
  intros Hh Ha. pose proof (decode_header_bytes h zero_frame_header Hh) as Hdec.
  assert (header_ok (with_header_crc h (tr_header_crc (header_bytes h)))) as Hok by (apply (decode_ok (header_bytes h) zero_frame_header); auto with trpc).
  split; [done|]. apply validate_ok_iff; [done|]. rewrite header_bytes_with_crc.
  cbn [with_header_crc fh_header_crc32c]. split; [reflexivity|]. split; [reflexivity|]. by apply admissible_with_crc.
Qed.

Lemma slices_bytes payloads pos remaining : 0 ≤ pos → 0 ≤ remaining → pos + remaining ≤ alen (concat (omap id payloads)) →
  let bytes := take (Z.to_nat remaining) (drop (Z.to_nat pos) (concat (omap id payloads))) in
  (∃ iov, iov_slices payloads pos remaining = (iov, 0) ∧ concat iov = bytes ∧ (remaining ≠ 0 → iov ≠ [])) ∧
  (bytes_ok (concat (omap id payloads)) → ∀ state, crc_slices payloads state pos remaining = (tr_crc32c_update state bytes, 0)).
Proof.
  revert pos remaining. induction payloads as [|[data|] payloads IH]; intros pos remaining Hp Hr Hlen; rewrite ?slices_some, ?slices_none in *; cbn [iov_slices crc_slices].
  - unfold alen in Hlen. simpl in Hlen. assert (remaining = 0) as -> by lia. split; [exists []; split_and!; [reflexivity|reflexivity|intros []; reflexivity]|reflexivity].
  - assert (alen (data ++ concat (omap id payloads)) = alen data + alen (concat (omap id payloads))) as Ha by (unfold alen; rewrite length_app; lia).
    rewrite Ha in Hlen.
    destruct (Z.eqb_spec remaining 0) as [->|Hne];
      [split; [exists []; split_and!; [reflexivity|reflexivity|intros []; reflexivity]|reflexivity]|].
    rewrite Z.geb_leb. destruct (Z.leb_spec (alen data) pos) as [Hge|Hlt].
    + destruct (IH (pos - alen data) remaining) as [IH1 IH2]; [lia..|].
      rewrite drop_app_ge by (unfold alen in Hge; lia). replace (Z.to_nat pos - length data)%nat with (Z.to_nat (pos - alen data)) by (unfold alen; lia).
      split; [done|]. intros [_ Hb]%Forall_app. by apply IH2.
    + set (part := if alen data - pos >? remaining then remaining else alen data - pos).
      assert (part = Z.min remaining (alen data - pos)) as Hpart.
      { unfold part. rewrite Z.gtb_ltb. clear. destruct (Z.ltb_spec remaining (alen data - pos)); lia. }
      clearbody part. pose proof (alen_nonneg (concat (omap id payloads))).
      destruct (IH 0 (remaining - part)) as [(iov & E & Ec & Hi) IH2]; [lia..|].
      rewrite E. rewrite drop_app_le by (unfold alen in Hlt; lia).
      assert (take (Z.to_nat part) (drop (Z.to_nat pos) data) ++ take (Z.to_nat (remaining - part)) (concat (omap id payloads)) =
        take (Z.to_nat remaining) (drop (Z.to_nat pos) data ++ concat (omap id payloads))) as Etake.
      { unfold alen in Hpart. destruct (Z.le_gt_cases remaining (alen data - pos)) as [Hc|Hc]; unfold alen in Hc.
        - assert (part = remaining) as -> by lia. rewrite Z.sub_diag. rewrite take_0, app_nil_r. rewrite take_app_le by (rewrite length_drop; lia). done.
        - rewrite take_app_ge by (rewrite length_drop; lia). f_equal; [rewrite take_ge by (rewrite length_drop; lia); done|].
          replace (Z.to_nat remaining - length (drop (Z.to_nat pos) data))%nat with (Z.to_nat (remaining - part));
            [done|rewrite length_drop; unfold alen in Hlt; lia]. }
      split; [eexists; split; [reflexivity|]; split; [simpl; rewrite Ec, drop_0; exact Etake|done]|].
      intros [Hb1 Hb2]%Forall_app state. rewrite IH2 by done. rewrite drop_0, <- Etake.
      rewrite update_app; [done|by apply Forall_take, Forall_drop|by apply Forall_take].
  - destruct (Z.eqb_spec remaining 0) as [->|Hne];
      [split; [exists []; split_and!; [reflexivity|reflexivity|intros []; reflexivity]|reflexivity]|]. by apply IH.
Qed.

Lemma frame_length_range it pos : 0 < ti_max_frame_payload_len it → 0 ≤ pos ≤ ti_message_len it →
  0 ≤ frame_length it pos ≤ ti_message_len it - pos ∧ frame_length it pos ≤ ti_max_frame_payload_len it ∧
  (pos < ti_message_len it → 0 < frame_length it pos).
Proof. intros Hm Hp. unfold frame_length. rewrite Z.gtb_ltb. destruct (Z.ltb_spec (ti_max_frame_payload_len it) (ti_message_len it - pos)); lia. Qed.

Lemma frame_payload_length it pos : ti_message_len it = alen (item_message it) → 0 < ti_max_frame_payload_len it →
  0 ≤ pos ≤ ti_message_len it → alen (m_payload (frame_at it pos)) = frame_length it pos.
Proof.
  intros Hl Hm Hp. pose proof (frame_length_range it pos Hm Hp). cbn [frame_at m_payload].
  unfold alen in *. rewrite length_take, length_drop. lia.
Qed.

Lemma frame_crc limits it pos : item_ok limits it → 0 ≤ pos ≤ ti_message_len it →
  tr_tx_crc_range it pos (frame_length it pos) = tr_crc32c (m_payload (frame_at it pos)).
Proof.
  intros Hok Hp. destruct (io_length _ _ Hok) as [Hl _]. destruct (io_max _ _ Hok) as [Hm _].
  pose proof (frame_length_range it pos ltac:(lia) Hp) as (Hr & _). unfold tr_tx_crc_range.
  destruct (slices_bytes (ti_payloads it) pos (frame_length it pos)) as [_ H]; [lia|lia|unfold item_message in Hl; lia|].
  by rewrite H by apply (io_bytes _ _ Hok).
Qed.

Lemma flag_bits f : 0 ≤ f < 8 → let g := Z.land f (u32 (Z.lnot (Z.lor TR_FRAME_F_FIRST TR_FRAME_F_LAST))) in
  0 ≤ g < 8 ∧ 0 ≤ Z.lor g TR_FRAME_F_FIRST < 8 ∧ 0 ≤ Z.lor g TR_FRAME_F_LAST < 8 ∧ 0 ≤ Z.lor (Z.lor g TR_FRAME_F_FIRST) TR_FRAME_F_LAST < 8.
Proof.
  intros Hf g. assert (f = 0 ∨ f = 1 ∨ f = 2 ∨ f = 3 ∨ f = 4 ∨ f = 5 ∨ f = 6 ∨ f = 7) as Hc by lia.
  unfold g. repeat (destruct Hc as [-> | Hc]; [vm_compute; repeat split; discriminate|]). rewrite Hc. vm_compute. repeat split; discriminate.
Qed.

Lemma frame_flags_range it pos : 0 ≤ ti_base_flags it < 8 → 0 ≤ frame_flags it pos < 8.
Proof.
  intros Hf. pose proof (flag_bits _ Hf) as (H1 & H2 & H3 & H4). unfold frame_flags. destruct (negb (is_data it)); [done|].
  destruct (pos =? 0), (pos + _ =? _); done.
Qed.

(** Every frame is one that the peer's parser takes. *)
Lemma frame_at_ok limits it pos : item_ok limits it → 0 ≤ pos ≤ ti_message_len it → msg_ok limits (frame_at it pos).
Proof.
  intros Hok Hp. pose proof (frame_crc limits it pos Hok Hp) as Hcrc. pose proof Hok as [Hb [Hl Hl2] [Hm Hm2] Ht Hf [Hs Hi] Hc Hr Hr2].
  pose proof (frame_length_range it pos ltac:(lia) Hp) as (Hlen & Hlen2 & _).
  pose proof (frame_payload_length it pos Hl ltac:(lia) Hp) as Hpay.
  assert (header_ok (frame_header it pos)) as Hh.
  { split; cbn [frame_header fh_version fh_type fh_flags fh_stream_id fh_message_id fh_payload_len fh_payload_crc32c fh_header_crc32c fh_reserved].
    - unfold u16_ok, TR_WIRE_ENV_VERSION; lia.
    - unfold u16_ok; lia.
    - pose proof (frame_flags_range it pos Hf). unfold u32_ok; lia.
    - done.
    - done.
    - unfold u32_ok; lia.
    - rewrite Hcrc. apply tr_crc32c_u32. cbn [frame_at m_payload]. by apply Forall_take, Forall_drop.
    - unfold u32_ok; lia.
    - unfold u32_ok; lia. }
  split; cbn [frame_at m_header m_payload].
  - apply encoded_header_valid; [done|].
    split; cbn [frame_header fh_version fh_type fh_flags fh_reserved fh_payload_len fh_stream_id fh_message_id]; try done.
    + by apply frame_flags_range.
    + lia.
    + intros H. destruct (Hr H) as (Hr0 & Hr1 & Hr3 & Hr4).
      assert (is_data it = false) as Hd by (unfold is_data; destruct H as [-> | ->]; reflexivity).
      unfold frame_flags. rewrite Hd. split_and!; [done|lia|done|done].
  - by apply Forall_take, Forall_drop.
  - cbn [with_header_crc frame_header fh_payload_len]. symmetry; exact Hpay.
  - cbn [with_header_crc frame_header fh_payload_crc32c]. exact Hcrc.
Qed.

(** The frames of a message, one at a time. *)
Lemma cut_fuel frame len total again f1 : ∀ f2 pos, (∀ p, p < total → 0 < len p) → 0 ≤ len total → pos ≤ total → total - pos < Z.of_nat f1 → total - pos < Z.of_nat f2 →
  (0 < f1)%nat → (0 < f2)%nat → cut f1 frame len total pos again = cut f2 frame len total pos again.
Proof.
  induction f1 as [|f1 IH]; intros f2 pos Hlen Hend Hpos H1 H2 H3 H4; [lia|]. destruct f2 as [|f2]; [lia|]. cbn [cut]. f_equal.
  destruct again; cbn [andb]; [|done]. destruct (Z.ltb_spec (pos + len pos) total) as [Hlt|]; [|done].
  assert (pos < total ∨ pos = total) as [Hp| ->] by lia; [pose proof (Hlen pos Hp)|exfalso; lia].
  apply IH; [done|lia..].
Qed.

Lemma frames_from_eq it pos : 0 < ti_max_frame_payload_len it → 0 ≤ pos ≤ ti_message_len it →
  frames_from it pos = frame_at it pos ::
    (if is_data it && (pos + frame_length it pos <? ti_message_len it) then frames_from it (pos + frame_length it pos) else []).
Proof.
  intros Hm Hp. unfold frames_from at 1. cbn [cut]. f_equal. destruct (is_data it) eqn:Ed; cbn [andb]; [|done].
  destruct (Z.ltb_spec (pos + frame_length it pos) (ti_message_len it)) as [Hlt|]; [|done].
  pose proof (frame_length_range it pos Hm Hp) as (H1 & H2 & H3). unfold frames_from. rewrite Ed. apply cut_fuel; [| |lia..].
  - intros p Hp'. unfold frame_length. rewrite Z.gtb_ltb. destruct (Z.ltb_spec (ti_max_frame_payload_len it) (ti_message_len it - p)); lia.
  - apply (frame_length_range it (ti_message_len it)); lia.
Qed.

(** * The invariant *)

Definition no_item : tr_tx_item := mk_tx_item [] [] 0 0 0 0 0 0 0 0 0 0.
Definition qit (c : tx_connection) (i : nat) : tr_tx_item := default no_item (cx_items c !! i).
Definition rest_frames (it : tr_tx_item) : list msg := frames_from it (ti_message_pos it).
Definition all_frames (it : tr_tx_item) : list msg := frames_from it 0.

(** The bytes of the frame under way that the kernel took. *)
Definition partial (c : tx_connection) : list Z :=
  match cx_active c with
  | Some i => take (Z.to_nat (ti_wire_pos (qit c i))) (msg_bytes (frame_at (qit c i) (ti_message_pos (qit c i))))
  | None => []
  end.

(** What may be sent next: the first item, or the first control item, if it may go before the
    DATA that is first. *)
Definition turn (c : tx_connection) (i : nat) : Prop :=
  ∃ before after, cx_fifo c = before ++ i :: after ∧
    (before = [] ∨ tr_tx_can_bypass_data (qit c i) = true ∧ Forall (λ j, is_data (qit c j) = true) before ∧
       cx_control_streak c < TR_CONTROL_BURST).

(** The frames of the message at position [k] among frames that carry the position of their
    message. *)
Definition frames_of (k : nat) (tagged : list (nat * msg)) : list msg := (filter (λ e, e.1 = k) tagged).*2.

(** Frame [j] is of message [k] and goes before one of message [k'], which was queued earlier. *)
Definition overtakes (given : list tr_tx_item) (tagged : list (nat * msg)) (j k k' : nat) : Prop :=
  fst <$> tagged !! j = Some k ∧ (k' < k)%nat ∧ ∃ it, given !! k' = Some it ∧ frames_of k' (take j tagged) ≠ all_frames it.

(** The [n] frames from [j] on all overtake. *)
Definition overtaking (given : list tr_tx_item) (tagged : list (nat * msg)) (j n : nat) : Prop :=
  ∀ d, (d < n)%nat → ∃ k k', overtakes given tagged (j + d) k k'.

Definition same_kind (it it' : tr_tx_item) : Prop :=
  is_data it' = is_data it ∧ tr_tx_can_bypass_data it' = tr_tx_can_bypass_data it.

(** What was queued, what is left of it, and what was sent: [queue] are the positions of the
    items that are left. *)
Record in_order (given items : list tr_tx_item) (streak : Z) (frames : list msg) (tagged : list (nat * msg)) (queue : list nat) : Prop := {
  or_frames : tagged.*2 = frames;
  or_known : Forall (λ e, (e.1 < length given)%nat) tagged;
  or_sorted : StronglySorted lt queue;
  or_items : Forall2 (λ k it, ∃ g, given !! k = Some g ∧ same_kind g it ∧ frames_of k tagged ++ rest_frames it = all_frames g) queue items;
  or_done : ∀ k g, given !! k = Some g → k ∉ queue → frames_of k tagged = all_frames g;
  or_overtakes : ∀ j k k' g g', overtakes given tagged j k k' → given !! k = Some g → given !! k' = Some g' →
    tr_tx_can_bypass_data g = true ∧ is_data g' = true;
  or_streak : ∀ j n, (j + n = length tagged)%nat → overtaking given tagged j n → Z.of_nat n ≤ streak;
  or_burst : ∀ j n, overtaking given tagged j n → Z.of_nat n ≤ TR_CONTROL_BURST
}.

Definition order_ok (c : tx_connection) : Prop :=
  ∃ tagged queue, in_order (cx_given c) (map (qit c) (cx_fifo c)) (cx_control_streak c) (cx_log c).*2 tagged queue.

Record tx_ok (limits : tr_wire_limits) (c : tx_connection) : Prop := {
  tq_nodup : NoDup (cx_fifo c);
  tq_names : ∀ i, i ∈ cx_fifo c ↔ is_Some (cx_items c !! i);
  tq_items : ∀ i, i ∈ cx_fifo c → item_ok limits (qit c i) ∧ frame_ok (qit c i);
  tq_control : cx_control c = filter (λ i, is_data (qit c i) = false) (cx_fifo c);
  tq_idle : ∀ i, i ∈ cx_fifo c → ti_wire_pos (qit c i) ≠ 0 → cx_active c = Some i;
  tq_active : ∀ i, cx_active c = Some i → i ∈ cx_fifo c ∧ (ti_wire_pos (qit c i) ≠ 0 → turn c i);
  tq_wire : cx_wire c = concat (map msg_bytes (cx_log c).*2) ++ partial c;
  tq_log : Forall (msg_ok limits) (cx_log c).*2;
  tq_order : order_ok c;
  tq_streak : 0 ≤ cx_control_streak c ≤ TR_CONTROL_BURST
}.

Lemma bypass_control it : tr_tx_can_bypass_data it = true → is_data it = false.
Proof.
  unfold tr_tx_can_bypass_data, is_data. destruct (_ || _); [done|].
  destruct (Z.eqb_spec (ti_type it) TR_FRAME_WINDOW_UPDATE) as [->|]; [done|].
  destruct (Z.eqb_spec (ti_type it) TR_FRAME_PING) as [->|]; [done|].
  by destruct (Z.eqb_spec (ti_type it) TR_FRAME_PONG) as [->|].
Qed.

(** ** Items that change where they are *)

Lemma qit_put c i it j : qit (put_item c i it) j = if decide (i = j) then it else qit c j.
Proof.
  unfold qit. cbn [put_item cx_items]. destruct (decide (i = j)) as [->|].
  - by rewrite lookup_insert_eq.
  - by rewrite lookup_insert_ne.
Qed.

(** The part of an item that does not change while it is sent. *)
Definition same_message (it it' : tr_tx_item) : Prop :=
  is_data it' = is_data it ∧ tr_tx_can_bypass_data it' = tr_tx_can_bypass_data it ∧
  frame_at it' = frame_at it ∧ frame_length it' = frame_length it ∧ ti_message_len it' = ti_message_len it ∧
  (∀ limits, item_ok limits it → item_ok limits it').

Lemma same_message_frame it h l p w : same_message it (set_frame it h l p w).
Proof. split_and!; try reflexivity. intros limits []. by split. Qed.
Lemma same_message_position it q p w : same_message it (set_position it q p w).
Proof. split_and!; try reflexivity. intros limits []. by split. Qed.

Lemma same_message_from it it' pos : same_message it it' → frames_from it' pos = frames_from it pos.
Proof. intros (E1 & _ & E2 & E3 & E4 & _). unfold frames_from. by rewrite E1, E2, E3, E4. Qed.

Lemma same_message_kind it it' : same_message it it' → same_kind it it'.
Proof. intros (E1 & E2 & _). by split. Qed.

Lemma map_qit_put c i it before after : NoDup (before ++ i :: after) →
  map (qit (put_item c i it)) (before ++ i :: after) = map (qit c) before ++ it :: map (qit c) after.
Proof.
  intros (Hb & Hn & Ha)%NoDup_app. apply NoDup_cons in Ha as [Hi Ha]. rewrite map_app, map_cons. f_equal; [|f_equal].
  - apply map_ext_in. intros j Hj%list_elem_of_In. rewrite qit_put, decide_False; [done|]. intros ->. by apply (Hn j Hj), elem_of_cons; left.
  - by rewrite qit_put, decide_True.
  - apply map_ext_in. intros j Hj%list_elem_of_In. rewrite qit_put, decide_False; [done|]. by intros ->.
Qed.

(** ** The order of the frames *)

(** Frames that are a header alone. *)
Definition header_only (it : tr_tx_item) : Prop :=
  ti_message_len it = 0 ∧ ti_base_flags it = 0 ∧ ti_type it ∈ [TR_FRAME_WINDOW_UPDATE; TR_FRAME_PING; TR_FRAME_PONG].

Lemma bypass_header_only it : tr_tx_can_bypass_data it = true → header_only it.
Proof.
  unfold tr_tx_can_bypass_data, header_only. destruct (Z.eqb_spec (ti_message_len it) 0), (Z.eqb_spec (ti_base_flags it) 0); cbn [negb orb]; try discriminate.
  intros B. split; [assumption|]. split; [assumption|]. rewrite !elem_of_cons. destruct (Z.eqb_spec (ti_type it) TR_FRAME_WINDOW_UPDATE); [by left|].
  apply andb_true_iff in B as [[B|B]%orb_true_iff _]; apply Z.eqb_eq in B; auto.
Qed.

Lemma frames_of_snoc k tagged k1 f : frames_of k (tagged ++ [(k1, f)]) = frames_of k tagged ++ (if decide (k1 = k) then [f] else []).
Proof.
  unfold frames_of. rewrite filter_app, fmap_app. f_equal. case_decide as E.
  - by rewrite filter_cons_True.
  - by rewrite filter_cons_False.
Qed.

(** Only what was there before counts. *)
Lemma overtakes_snoc given tagged e j k k' : (j < length tagged)%nat →
  overtakes given (tagged ++ [e]) j k k' ↔ overtakes given tagged j k k'.
Proof. intros L. unfold overtakes. by rewrite lookup_app_l, take_app_le by lia. Qed.

Lemma overtakes_bound given tagged j k k' : overtakes given tagged j k k' → (j < length tagged)%nat.
Proof. intros ((e & E & _)%fmap_Some & _). by apply lookup_lt_Some in E. Qed.

(** Messages that are queued later do not matter for frames that are out. *)
Lemma overtakes_given given it tagged j k k' : Forall (λ e, (e.1 < length given)%nat) tagged →
  overtakes (given ++ [it]) tagged j k k' ↔ overtakes given tagged j k k'.
Proof.
  intros Hk. unfold overtakes. split; intros (E & L & g & Hg & N); (split; [exact E|]; split; [exact L|]; exists g; split; [|exact N]).
  - apply fmap_Some in E as (e & E & ->). pose proof (Forall_lookup_1 _ _ _ _ Hk E) as Q. simpl in Q. by rewrite lookup_app_l in Hg by lia.
  - by apply lookup_app_l_Some.
Qed.

Lemma overtaking_impl given tagged given' tagged' j n :
  (∀ j k k', overtakes given tagged j k k' → overtakes given' tagged' j k k') → overtaking given tagged j n → overtaking given' tagged' j n.
Proof. intros Q O d D. destruct (O d D) as (k & k' & X). exists k, k'. by apply Q. Qed.

Lemma order_prefix given items streak frames tagged queue k g : in_order given items streak frames tagged queue →
  given !! k = Some g → frames_of k tagged `prefix_of` all_frames g.
Proof.
  intros Ho Hg. destruct (decide (k ∈ queue)) as [Hq|Hq]; [|by rewrite (or_done _ _ _ _ _ _ Ho k g Hg Hq)].
  apply list_elem_of_lookup_1 in Hq as [i Hi]. destruct (Forall2_lookup_l _ _ _ _ _ (or_items _ _ _ _ _ _ Ho) Hi) as (it & _ & g' & Hg' & _ & Hf).
  rewrite Hg in Hg'. injection Hg' as <-. rewrite <- Hf. by apply prefix_app_r.
Qed.

(** Items change, and have the same frames left. *)
Lemma order_same given items items' streak frames tagged queue : in_order given items streak frames tagged queue →
  Forall2 (λ it it', same_kind it it' ∧ rest_frames it' = rest_frames it) items items' → in_order given items' streak frames tagged queue.
Proof.
  intros [H1 H2 H3 H4 H5 H6 H7 H8] Hs. split; try assumption. clear -H4 Hs. revert items' Hs.
  induction H4 as [|k it queue items (g & Hg & [K1 K2] & Hf) _ IH]; intros items' Hs; inversion Hs as [|? it' ? items1 [[E1 E2] Er] Hs1]; subst; constructor.
  - exists g. rewrite Er. split; [exact Hg|]. split; [split; congruence|exact Hf].
  - by apply IH.
Qed.

(** An item is queued. *)
Lemma order_enqueue given items it streak frames tagged queue : in_order given items streak frames tagged queue →
  rest_frames it = all_frames it → in_order (given ++ [it]) (items ++ [it]) streak frames tagged (queue ++ [length given]).
Proof.
  intros [H1 H2 H3 H4 H5 H6 H7 H8] Hr.
  assert (∀ k, k ∈ queue → (k < length given)%nat) as Hq.
  { intros k Hk. apply list_elem_of_lookup_1 in Hk as [i Hi]. destruct (Forall2_lookup_l _ _ _ _ _ H4 Hi) as (x & _ & g & Hg & _). by apply lookup_lt_Some in Hg. }
  assert (frames_of (length given) tagged = []) as Hnone.
  { clear -H2. induction H2 as [|[k f] tagged Hk _ IH]; [done|]. unfold frames_of in *. simpl in Hk. rewrite filter_cons_False; [exact IH|]. simpl. lia. }
  assert (∀ j n, overtaking (given ++ [it]) tagged j n → overtaking given tagged j n) as Ho.
  { intros j n. apply overtaking_impl. intros j' k k'. by apply (overtakes_given given it tagged). }
  split; [exact H1| | | | | |eauto|eauto].
  - apply (Forall_impl _ _ _ H2). intros e He. rewrite length_app. lia.
  - clear -H3 Hq. induction H3 as [|k queue Hs IH Hk]; cbn [app]; [repeat constructor|]. constructor; [apply IH; intros; apply Hq; by apply elem_of_cons; right|].
    apply Forall_app. split; [exact Hk|]. constructor; [apply Hq; by apply elem_of_cons; left|constructor].
  - apply Forall2_app.
    + apply (Forall2_impl _ _ _ _ H4). intros k x (g & Hg & Hx). exists g. split; [by apply lookup_app_l_Some|exact Hx].
    + constructor; [|constructor]. exists it. split; [rewrite lookup_app_r by lia; by rewrite Nat.sub_diag|]. split; [by split|]. by rewrite Hnone.
  - intros k g Hg Hk. apply not_elem_of_app in Hk as [Hk1 Hk2]. apply lookup_app_Some in Hg as [Hg|[Hg1 Hg2]]; [by apply H5|].
    apply list_lookup_singleton_Some in Hg2 as [Hg3 _]. destruct Hk2. apply list_elem_of_singleton. lia.
  - intros j k k' g g' Hov Hg Hg'. rewrite (overtakes_given given it tagged j k k' H2) in Hov.
    assert (k < length given)%nat as Hk.
    { destruct Hov as ((e & E & ->)%fmap_Some & _). exact (Forall_lookup_1 _ _ _ _ H2 E). }
    assert (k' < k)%nat as Hk' by apply Hov. rewrite lookup_app_l in Hg, Hg' by lia. by apply (H6 j k k').
Qed.

Lemma queue_middle q1 k q2 : StronglySorted lt (q1 ++ k :: q2) →
  (∀ x, x ∈ q1 → (x < k)%nat) ∧ (∀ x, x ∈ q2 → (k < x)%nat) ∧ StronglySorted lt (q1 ++ q2).
Proof.
  induction q1 as [|x q1 IH]; cbn [app]; intros Q; inversion Q as [|? ? Q1 Q2]; subst.
  - split; [intros y Hy; by apply not_elem_of_nil in Hy|]. split; [|exact Q1]. rewrite Forall_forall in Q2. exact Q2.
  - destruct (IH Q1) as (I1 & I2 & I3). apply Forall_app in Q2 as [Q2 Q3]. inversion Q3 as [|? ? Q4 Q5]; subst. split; [|split; [exact I2|]].
    + intros y [->|Hy]%elem_of_cons; [exact Q4|by apply I1].
    + constructor; [exact I3|]. apply Forall_app. by split.
Qed.

(** The frame that is complete goes before those of [before] alone. *)
Lemma overtakes_last given before it after streak frames frame tagged q1 k q2 k1 k' :
  in_order given (before ++ it :: after) streak frames tagged (q1 ++ k :: q2) → length q1 = length before →
  overtakes given (tagged ++ [(k, frame)]) (length tagged) k1 k' →
  k1 = k ∧ k' ∈ q1 ∧ ∃ g x, given !! k' = Some g ∧ x ∈ before ∧ is_data x = is_data g.
Proof.
  intros Ok L (E & Hlt & g & Hg & N). rewrite lookup_app_r in E by lia. rewrite Nat.sub_diag in E. injection E as <-. rewrite take_app_length in N.
  destruct (queue_middle _ _ _ (or_sorted _ _ _ _ _ _ Ok)) as (_ & S2 & _).
  assert (k' ∈ q1) as Hin.
  { destruct (decide (k' ∈ q1 ++ k :: q2)) as [Hq|Hq]; [|by destruct N; apply (or_done _ _ _ _ _ _ Ok)].
    apply elem_of_app in Hq as [Hq|[->|Hq]%elem_of_cons]; [exact Hq|lia|]. apply S2 in Hq. lia. }
  split; [reflexivity|]. split; [exact Hin|]. apply list_elem_of_lookup_1 in Hin as [i Hi].
  pose proof (lookup_lt_Some _ _ _ Hi) as Hl. destruct (lookup_lt_is_Some_2 before i) as [x Hx]; [lia|].
  destruct (Forall2_lookup_lr _ _ _ _ _ _ (or_items _ _ _ _ _ _ Ok) (lookup_app_l_Some _ _ _ _ Hi) (lookup_app_l_Some _ _ _ _ Hx)) as (g' & Hg' & [Ed _] & _).
  exists g, x. split; [exact Hg|]. split; [by apply list_elem_of_lookup_2 in Hx|]. by rewrite Hg in Hg'; injection Hg' as <-.
Qed.

(** A frame of the item that has its turn is complete; [o] is the item after it, or it left. *)
Lemma order_frame given before it after o streak streak' frames frame tagged queue :
  in_order given (before ++ it :: after) streak frames tagged queue →
  rest_frames it = frame :: match o with Some it' => rest_frames it' | None => [] end →
  (∀ it', o = Some it' → same_kind it it') → 0 ≤ streak' →
  before = [] ∨ tr_tx_can_bypass_data it = true ∧ Forall (λ x, is_data x = true) before ∧ streak < TR_CONTROL_BURST ∧ streak' = streak + 1 →
  ∃ tagged' queue', in_order given (before ++ option_list o ++ after) streak' (frames ++ [frame]) tagged' queue'.
Proof.
  intros Ok Hrest Ho Hs Hturn. pose proof (or_items _ _ _ _ _ _ Ok) as H4.
  apply Forall2_app_inv_r in H4 as (q1 & q2' & Hb & Hx & ->). apply Forall2_cons_inv_r in Hx as (k & q2 & (g & Hg & Hk & Hf) & Ha & ->).
  pose proof (Forall2_length _ _ _ Hb) as Hlen. pose proof (overtakes_last given before it after streak frames frame tagged q1 k q2) as Hlast.
  destruct (queue_middle _ _ _ (or_sorted _ _ _ _ _ _ Ok)) as (S1 & S2 & S3).
  assert (Hov : ∀ j k1 k', overtakes given (tagged ++ [(k, frame)]) j k1 k' → overtakes given tagged j k1 k' ∨ j = length tagged).
  { intros j k1 k' X. pose proof (overtakes_bound _ _ _ _ _ X) as L. rewrite length_app in L. cbn [length] in L.
    destruct (decide (j = length tagged)); [by right|left]. apply (overtakes_snoc _ _ (k, frame)); [lia|exact X]. }
  assert (Hburst : ∀ j m, (j + m = length tagged)%nat → overtaking given (tagged ++ [(k, frame)]) j (S m) →
    Z.of_nat m ≤ streak ∧ streak < TR_CONTROL_BURST ∧ streak' = streak + 1).
  { intros j m Hj X. split.
    - apply (or_streak _ _ _ _ _ _ Ok j m Hj). intros d D. destruct (X d ltac:(lia)) as (k1 & k' & Y). exists k1, k'. destruct (Hov _ _ _ Y) as [Z|Z]; [exact Z|lia].
    - destruct (X m ltac:(lia)) as (k1 & k' & Y). rewrite Hj in Y. destruct (Hlast k1 k' Ok Hlen Y) as (_ & _ & g' & x & _ & Hin & _).
      destruct Hturn as [->|(_ & _ & T)]; [by apply not_elem_of_nil in Hin|exact T]. }
  assert (Hsame : ∀ q items, k ∉ q → Forall2 (λ k it, ∃ g, given !! k = Some g ∧ same_kind g it ∧ frames_of k tagged ++ rest_frames it = all_frames g) q items →
    Forall2 (λ k' it, ∃ g, given !! k' = Some g ∧ same_kind g it ∧ frames_of k' (tagged ++ [(k, frame)]) ++ rest_frames it = all_frames g) q items).
  { intros q items Hq F. induction F as [|k' x q items (g' & G1 & G2 & G3) _ IH]; constructor; [|apply IH; intros X; apply Hq; by apply elem_of_cons; right].
    exists g'. rewrite frames_of_snoc, decide_False, app_nil_r by (intros ->; apply Hq; by apply elem_of_cons; left). by split_and!. }
  assert (N1 : k ∉ q1) by (intros X%S1; lia). assert (N2 : k ∉ q2) by (intros X%S2; lia).
  exists (tagged ++ [(k, frame)]), (q1 ++ match o with Some _ => [k] | None => [] end ++ q2). split.
  - rewrite fmap_app, (or_frames _ _ _ _ _ _ Ok). reflexivity.
  - apply Forall_app. split; [apply (or_known _ _ _ _ _ _ Ok)|]. constructor; [|constructor]. cbn [fst]. by apply lookup_lt_Some in Hg.
  - destruct o; [exact (or_sorted _ _ _ _ _ _ Ok)|exact S3].
  - apply Forall2_app; [by apply Hsame|]. apply Forall2_app; [|by apply Hsame]. destruct o as [it'|]; [|constructor].
    constructor; [|constructor]. exists g. split; [exact Hg|]. split; [destruct (Ho it' eq_refl), Hk; split; congruence|].
    rewrite frames_of_snoc, decide_True by reflexivity. rewrite <- app_assoc. by rewrite Hrest in Hf.
  - intros k' g' Hg' Hk'. rewrite frames_of_snoc. case_decide as E.
    + subst k'. destruct o as [it'|]; [by destruct Hk'; apply elem_of_app; right; apply elem_of_cons; left|]. rewrite Hg in Hg'. injection Hg' as <-. by rewrite Hrest in Hf.
    + rewrite app_nil_r. apply (or_done _ _ _ _ _ _ Ok); [exact Hg'|]. intros X. apply Hk'. apply elem_of_app in X as [X|[X|X]%elem_of_cons]; [|congruence|].
      * apply elem_of_app. by left.
      * apply elem_of_app. right. apply elem_of_app. by right.
  - intros j k1 k' g1 g' X G1 G'. destruct (Hov _ _ _ X) as [Y| ->]; [by apply (or_overtakes _ _ _ _ _ _ Ok j k1 k')|].
    destruct (Hlast k1 k' Ok Hlen X) as (-> & _ & g'' & x & G'' & Hin & Ed). rewrite Hg in G1. injection G1 as <-. rewrite G' in G''. injection G'' as <-.
    destruct Hturn as [->|(T1 & T2 & _)]; [by apply not_elem_of_nil in Hin|]. rewrite Forall_forall in T2. destruct Hk as [_ Hk]. split; [congruence|]. rewrite <- Ed. by apply T2.
  - intros j [|m] Hj X; [lia|]. rewrite length_app in Hj. cbn [length] in Hj. destruct (Hburst j m) as (B1 & _ & B3); [lia|exact X|lia].
  - intros j [|m] X; [unfold TR_CONTROL_BURST; lia|]. destruct (X m ltac:(lia)) as (k1 & k' & Y). destruct (Hov _ _ _ Y) as [Z|Z].
    + apply (or_burst _ _ _ _ _ _ Ok j). intros d D. destruct (X d D) as (k2 & k2' & Y2). exists k2, k2'. apply overtakes_bound in Z. destruct (Hov _ _ _ Y2) as [|E]; [assumption|lia].
    + destruct (Hburst j m Z X). lia.
Qed.

(** ** Steps *)

(** An item when it is queued. *)
Definition fresh_item (it : tr_tx_item) : Prop := ti_message_pos it = 0 ∧ ti_wire_pos it = 0 ∧ frame_ok it.

Lemma idle_others limits c i j : tx_ok limits c → cx_active c = Some i → j ∈ cx_fifo c → j ≠ i → ti_wire_pos (qit c j) = 0.
Proof.
  intros Hok Ha Hj Hne. destruct (decide (ti_wire_pos (qit c j) = 0)) as [E|E]; [done|].
  rewrite (tq_idle _ _ Hok j Hj E) in Ha. by injection Ha.
Qed.

Lemma turn_same c c' i : turn c i → cx_fifo c' = cx_fifo c →
  cx_control_streak c' = cx_control_streak c →
  (∀ j, is_data (qit c' j) = is_data (qit c j)) → tr_tx_can_bypass_data (qit c' i) = tr_tx_can_bypass_data (qit c i) → turn c' i.
Proof.
  intros (before & after & Hf & Hb) Ef Es Ed Eb. exists before, after. rewrite Ef, Es, Eb. split; [done|].
  destruct Hb as [-> |(H1 & H2 & H3)]; [by left|]. right. split; [done|]. split; [|exact H3]. apply (Forall_impl _ _ _ H2). intros j Hj. by rewrite Ed.
Qed.

Lemma filter_same (c c' : tx_connection) (l : list nat) : (∀ j, j ∈ l → is_data (qit c' j) = is_data (qit c j)) →
  filter (λ i, is_data (qit c' i) = false) l = filter (λ i, is_data (qit c i) = false) l.
Proof.
  induction l as [|j l IH]; intros H; [done|]. specialize (IH ltac:(intros; apply H; by apply elem_of_cons; right)).
  specialize (H j ltac:(by apply elem_of_cons; left)). destruct (is_data (qit c j)) eqn:E.
  - rewrite !filter_cons_False by congruence. done.
  - rewrite !filter_cons_True by congruence. by rewrite IH.
Qed.

(** The first control item has only DATA before it. *)
Lemma filter_head c l i more : filter (λ j, is_data (qit c j) = false) l = i :: more →
  i ∈ l ∧ ∃ before after, l = before ++ i :: after ∧ Forall (λ j, is_data (qit c j) = true) before.
Proof.
  induction l as [|j l IH]; [done|]. destruct (is_data (qit c j)) eqn:E.
  - rewrite filter_cons_False by congruence. intros H. destruct (IH H) as (Hi & before & after & -> & Hb).
    split; [by apply elem_of_cons; right|]. exists (j :: before), after. split; [done|]. by apply Forall_cons.
  - rewrite filter_cons_True by done. intros [= <- _]. split; [by apply elem_of_cons; left|]. by exists [], l.
Qed.

Lemma enqueue_ok limits c i it : tx_ok limits c → cx_items c !! i = None → item_ok limits it → fresh_item it →
  tx_ok limits (tr_enqueue_tx_item_owner c i it).
Proof.
  intros Hok Hi Hit Hfresh. assert (i ∉ cx_fifo c) as Hn by (rewrite (tq_names _ _ Hok), Hi; by intros []).
  set (c' := tr_enqueue_tx_item_owner c i it).
  assert (∀ j, j ∈ cx_fifo c → qit c' j = qit c j) as Hq.
  { intros j Hj. unfold qit. cbn [c' tr_enqueue_tx_item_owner cx_items]. rewrite lookup_insert_ne; [done|]. by intros ->. }
  assert (qit c' i = it) as Hqi by (unfold qit; cbn [c' tr_enqueue_tx_item_owner cx_items]; by rewrite lookup_insert_eq).
  destruct Hfresh as (E1 & E2 & E3). split; try exact (tq_log _ _ Hok); try exact (tq_streak _ _ Hok).
  - cbn [c' tr_enqueue_tx_item_owner cx_fifo]. apply NoDup_app. split_and!; [apply (tq_nodup _ _ Hok)| |apply NoDup_singleton].
    intros j Hj Hj'%list_elem_of_singleton. by subst j.
  - intros j. cbn [c' tr_enqueue_tx_item_owner cx_fifo cx_items]. rewrite elem_of_app, list_elem_of_singleton, lookup_insert_is_Some, (tq_names _ _ Hok).
    split; [intros [H | ->]; [destruct (decide (i = j)); auto|by left]|intros [-> |[_ H]]; auto].
  - intros j [Hj|Hj%list_elem_of_singleton]%elem_of_app.
    + rewrite Hq by done. by apply (tq_items _ _ Hok).
    + subst j. by rewrite Hqi.
  - cbn [c' tr_enqueue_tx_item_owner cx_fifo cx_control]. rewrite filter_app, (filter_same c c') by (intros; by rewrite Hq).
    destruct (is_data it) eqn:Ed.
    + rewrite filter_cons_False by (rewrite Hqi; congruence). by rewrite filter_nil, app_nil_r, (tq_control _ _ Hok).
    + rewrite filter_cons_True by (rewrite Hqi; congruence). by rewrite filter_nil, (tq_control _ _ Hok).
  - intros j [Hj|Hj%list_elem_of_singleton]%elem_of_app H; cbn [c' tr_enqueue_tx_item_owner cx_active].
    + rewrite Hq in H by done. by apply (tq_idle _ _ Hok).
    + subst j. by rewrite Hqi in H.
  - intros j Hj. destruct (tq_active _ _ Hok j Hj) as [Hin Ht]. cbn [c' tr_enqueue_tx_item_owner cx_fifo]. split; [apply elem_of_app; by left|].
    rewrite Hq by done. intros Hw. destruct (Ht Hw) as (before & after & Hf & Hb). exists before, (after ++ [i]).
    cbn [c' tr_enqueue_tx_item_owner cx_fifo]. rewrite Hf, <- app_assoc. split; [done|]. rewrite Hq by done.
    destruct Hb as [-> |(H1 & H2 & H3)]; [by left|]. right. split; [done|]. split; [|exact H3]. rewrite Forall_forall in *. intros k Hk.
    rewrite Hq; [by apply H2|]. rewrite Hf. apply elem_of_app. by left.
  - cbn [c' tr_enqueue_tx_item_owner cx_wire cx_log]. rewrite (tq_wire _ _ Hok). f_equal. unfold partial.
    cbn [c' tr_enqueue_tx_item_owner cx_active]. destruct (cx_active c) as [j|] eqn:Ea; [|done].
    destruct (tq_active _ _ Hok j Ea) as [Hin _]. by rewrite Hq.
  - destruct (tq_order _ _ Hok) as (tagged & queue & Ho). exists tagged, (queue ++ [length (cx_given c)]).
    cbn [c' tr_enqueue_tx_item_owner cx_given cx_fifo cx_log cx_control_streak]. rewrite map_app. cbn [map]. fold c'.
    rewrite Hqi, (map_ext_in (qit c') (qit c)) by (intros j Hj%list_elem_of_In; by apply Hq).
    apply order_enqueue; [exact Ho|]. unfold rest_frames, all_frames. by rewrite E1.
Qed.

(** ** The choice of the item *)

Lemma set_active_ok limits c i : tx_ok limits c → i ∈ cx_fifo c → (∀ j, j ∈ cx_fifo c → ti_wire_pos (qit c j) = 0) →
  tx_ok limits (set_active c (Some i) (cx_control_streak c)).
Proof.
  intros Hok Hi Hidle. pose proof Hok as []. split; try done.
  - intros j Hj H. by destruct H; apply Hidle.
  - intros j [= <-]. split; [done|]. intros H. by destruct H; apply Hidle.
  - cbn [set_active cx_wire cx_log]. rewrite (tq_wire _ _ Hok). f_equal. unfold partial. cbn [set_active cx_active].
    change (qit (set_active c (Some i) (cx_control_streak c))) with (qit c). rewrite (Hidle i Hi).
    destruct (cx_active c) as [j|] eqn:Ea; [|done]. destruct (tq_active _ _ Hok j Ea) as [Hj _]. by rewrite (Hidle j Hj).
Qed.

Lemma next_tx_ok limits c : tx_ok limits c → cx_fifo c ≠ [] →
  ∃ i, tr_connection_next_tx c = (Some i, set_active c (Some i) (cx_control_streak c)) ∧ turn c i ∧ i ∈ cx_fifo c ∧
    tx_ok limits (set_active c (Some i) (cx_control_streak c)).
Proof.
  intros Hok Hne. unfold tr_connection_next_tx.
  assert (∀ i, i ∈ cx_fifo c → cx_items c !! i = Some (qit c i)) as Hq.
  { intros i Hi%(tq_names _ _ Hok). unfold qit. by destruct Hi as [it ->]. }
  destruct (decide (Exists (λ i, ti_wire_pos (qit c i) ≠ 0) (cx_fifo c))) as [(i & Hi & Hw)%Exists_exists|Hidle0].
  - pose proof (tq_idle _ _ Hok i Hi Hw) as Ha. rewrite Ha, Hq by done.
    replace (negb (ti_wire_pos (qit c i) =? 0)) with true by (symmetry; apply negb_true_iff, Z.eqb_neq; done).
    exists i. replace (set_active c (Some i) (cx_control_streak c)) with c by (destruct c; cbn in *; by subst).
    split_and!; try done. by apply (tq_active _ _ Hok).
  - assert (∀ j, j ∈ cx_fifo c → ti_wire_pos (qit c j) = 0) as Hidle.
    { intros j Hj. destruct (decide (ti_wire_pos (qit c j) = 0)); [done|]. destruct Hidle0. apply Exists_exists. eauto. }
    replace (match cx_active c with Some i => match cx_items c !! i with Some it => negb (ti_wire_pos it =? 0) | None => false end | None => false end) with false.
    2:{ destruct (cx_active c) as [j|] eqn:Ea; [|done]. destruct (tq_active _ _ Hok j Ea) as [Hj _]. by rewrite Hq, Hidle. }
    destruct (cx_fifo c) as [|first rest] eqn:Ef; [done|]. cbn [head]. rewrite <- Ef in Hidle, Hq.
    assert (first ∈ cx_fifo c) as Hfirst by (rewrite Ef; by apply elem_of_cons; left).
    assert (turn c first) as Htf by (exists [], rest; split; [done|by left]).
    change (Some first ≫= (cx_items c !!.)) with (cx_items c !! first). rewrite (Hq first) by done.
    destruct (cx_control c) as [|ct cts] eqn:Ec; cbn [head].
    + exists first. split_and!; [done|done|by rewrite <- Ef|by apply set_active_ok].
    + change (Some ct ≫= (cx_items c !!.)) with (cx_items c !! ct).
      assert (ct ∈ cx_fifo c ∧ ∃ before after, cx_fifo c = before ++ ct :: after ∧ Forall (λ j, is_data (qit c j) = true) before) as [Hct (before & after & Hfe & Hb)].
      { rewrite (tq_control _ _ Hok) in Ec. by apply (filter_head c _ _ cts). }
      rewrite (Hq ct) by done.
      destruct (is_data (qit c first) && (cx_control_streak c <? TR_CONTROL_BURST) && tr_tx_can_bypass_data (qit c ct)) eqn:Eb.
      * exists ct. apply andb_true_iff in Eb as [[_ Es%Z.ltb_lt]%andb_true_iff Eb]. split_and!; [done| |by rewrite <- Ef|by apply set_active_ok].
        exists before, after. split; [done|]. right. by split_and!.
      * exists first. split_and!; [done|done|by rewrite <- Ef|by apply set_active_ok].
Qed.

(** ** The item that has its turn *)

Lemma qit_other c c' i it : cx_items c' = <[i := it]> (cx_items c) → qit c' i = it ∧ ∀ j, j ≠ i → qit c' j = qit c j.
Proof.
  intros E. unfold qit. rewrite E. split; [by rewrite lookup_insert_eq|]. intros j Hj. by rewrite lookup_insert_ne.
Qed.

(** The item changes where it is, and stays in the queue. *)
Lemma replace_ok limits c c' i it' : tx_ok limits c → cx_active c = Some i → turn c i →
  same_message (qit c i) it' → frame_ok it' →
  cx_items c' = <[i := it']> (cx_items c) → cx_fifo c' = cx_fifo c → cx_control c' = cx_control c →
  0 ≤ cx_control_streak c' ≤ TR_CONTROL_BURST →
  cx_active c' = Some i ∨ cx_active c' = None ∧ ti_wire_pos it' = 0 →
  cx_wire c' = concat (map msg_bytes (cx_log c').*2) ++ partial c' → Forall (msg_ok limits) (cx_log c').*2 →
  (cx_active c' = Some i → cx_control_streak c' = cx_control_streak c) → order_ok c' → tx_ok limits c'.
Proof.
  intros Hok Ha Hturn Hsame Hframe Hitems Hfifo Hcontrol Hstreak Hactive Hwire Hlog Hst Ho.
  destruct (tq_active _ _ Hok i Ha) as [Hi _]. destruct (qit_other _ _ _ _ Hitems) as [Hqi Hq].
  pose proof Hsame as (Ed & Eb & _ & _ & _ & Hit).
  assert (∀ j, is_data (qit c' j) = is_data (qit c j)) as Hd.
  { intros j. destruct (decide (j = i)) as [-> |]; [by rewrite Hqi|by rewrite Hq]. }
  split; try done.
  - rewrite Hfifo. apply (tq_nodup _ _ Hok).
  - intros j. rewrite Hfifo, Hitems, lookup_insert_is_Some, (tq_names _ _ Hok).
    split; [intros H; destruct (decide (i = j)); auto|intros [<- |[_ H]]; [by apply (tq_names _ _ Hok)|done]].
  - intros j Hj. rewrite Hfifo in Hj. destruct (tq_items _ _ Hok j Hj) as [H1 H2].
    destruct (decide (j = i)) as [-> |]; [rewrite Hqi; auto|by rewrite Hq].
  - rewrite Hcontrol, Hfifo, (tq_control _ _ Hok). symmetry. by apply filter_same.
  - intros j Hj H. rewrite Hfifo in Hj. destruct (decide (j = i)) as [-> |Hne].
    + rewrite Hqi in H. by destruct Hactive as [|[_ ?]].
    + rewrite Hq in H by done. destruct H. by apply (idle_others limits c i).
  - intros j Hj. destruct Hactive as [E|[E _]]; rewrite E in Hj; [|done]. injection Hj as <-. rewrite Hfifo. split; [done|]. intros _.
    apply (turn_same c); [done|done|by apply Hst|done|by rewrite Hqi].
Qed.

Lemma replace_map c c' i before after it' : NoDup (cx_fifo c) → cx_items c' = <[i := it']> (cx_items c) → cx_fifo c' = cx_fifo c →
  cx_fifo c = before ++ i :: after → map (qit c') (cx_fifo c') = map (qit c) before ++ it' :: map (qit c) after.
Proof.
  intros Hn Hitems Hfifo Hf. rewrite Hfifo, Hf. rewrite Hf in Hn.
  rewrite <- (map_qit_put c i it' before after Hn). apply map_ext. intros j. unfold qit. by rewrite Hitems.
Qed.

(** A change that keeps the position in the message. *)
Lemma move_ok limits c c' i it' n : tx_ok limits c → cx_active c = Some i → turn c i →
  same_message (qit c i) it' → frame_ok it' → ti_message_pos it' = ti_message_pos (qit c i) →
  cx_items c' = <[i := it']> (cx_items c) → cx_fifo c' = cx_fifo c → cx_control c' = cx_control c →
  cx_control_streak c' = cx_control_streak c → cx_active c' = Some i → cx_log c' = cx_log c → cx_given c' = cx_given c →
  0 ≤ n → ti_wire_pos it' = ti_wire_pos (qit c i) + n → 0 ≤ ti_wire_pos (qit c i) →
  cx_wire c' = cx_wire c ++ take (Z.to_nat n) (drop (Z.to_nat (ti_wire_pos (qit c i))) (msg_bytes (frame_at (qit c i) (ti_message_pos (qit c i))))) →
  tx_ok limits c'.
Proof.
  intros Hok Ha Hturn Hsame Hframe Hpos Hitems Hfifo Hcontrol Hstreak Hactive Hlog Hgiven Hn Hwp Hwp0 Hwire.
  destruct (qit_other _ _ _ _ Hitems) as [Hqi Hq]. pose proof Hsame as (_ & _ & Ef & _).
  pose proof Hturn as (before & after & Hf & _).
  assert (rest_frames it' = rest_frames (qit c i)) as Hrest by (unfold rest_frames; rewrite Hpos; by apply same_message_from).
  apply (replace_ok limits c c' i it'); try assumption.
  - rewrite Hstreak. apply (tq_streak _ _ Hok).
  - by left.
  - rewrite Hwire, Hlog, (tq_wire _ _ Hok), <- app_assoc. f_equal. unfold partial. rewrite Ha, Hactive, Hqi, Ef, Hpos, Hwp.
    rewrite Z2Nat.inj_add by lia. by rewrite take_take_drop.
  - rewrite Hlog. apply (tq_log _ _ Hok).
  - intros _. exact Hstreak.
  - destruct (tq_order _ _ Hok) as (tagged & queue & Ho). exists tagged, queue. rewrite Hgiven, Hlog, Hstreak.
    apply (order_same _ _ _ _ _ _ _ Ho). rewrite (replace_map c c' i before after it'); try assumption; [|apply (tq_nodup _ _ Hok)].
    rewrite Hf, map_app, map_cons. assert (∀ its, Forall2 (λ it it', same_kind it it' ∧ rest_frames it' = rest_frames it) its its) as Hrefl.
    { induction its; constructor; [split; [split; reflexivity|reflexivity]|assumption]. }
    apply Forall2_app; [apply Hrefl|]. constructor; [|apply Hrefl]. split; [by apply same_message_kind|exact Hrest].
Qed.

(** ** One turn of the loop *)

(** The frame under way is prepared. *)
Definition prepared (it : tr_tx_item) : Prop := frame_ok it ∧ ti_wire_len it ≠ 0.

Lemma frame_at_header it : ti_header (set_frame it (header_bytes (frame_header it (ti_message_pos it))) 0 0 0) =
  header_bytes (m_header (frame_at it (ti_message_pos it))).
Proof. cbn [set_frame ti_header frame_at m_header]. symmetry. apply header_bytes_with_crc. Qed.

Lemma prepare_ok limits it : item_ok limits it → frame_ok it → ti_wire_len it = 0 →
  ∃ it', tr_tx_prepare_frame it = (TR_OK, it') ∧ same_message it it' ∧ prepared it' ∧
    ti_message_pos it' = ti_message_pos it ∧ ti_wire_pos it' = ti_wire_pos it ∧
    item_message it' = item_message it ∧ ti_type it' = ti_type it ∧ ti_stream_id it' = ti_stream_id it ∧ ti_message_id it' = ti_message_id it.
Proof.
  intros Hok (Hpos & Hdata & Hw) Hlen. destruct Hw as [[_ Hw]|(Hw & _ & Hfl & _)].
  2:{ destruct (io_max _ _ Hok). pose proof (frame_length_range it (ti_message_pos it) ltac:(lia) Hpos). unfold TR_WIRE_HEADER_SIZE in Hw. lia. }
  destruct (io_max _ _ Hok) as [Hm _]. pose proof (frame_length_range it (ti_message_pos it) ltac:(lia) Hpos) as (Hr & _).
  unfold tr_tx_prepare_frame. rewrite Z.gtb_ltb. destruct (Z.ltb_spec (ti_message_len it) (ti_message_pos it)); [lia|].
  replace (negb (is_data it) && negb (ti_message_pos it =? 0)) with false.
  2:{ destruct (Z.eqb_spec (ti_message_pos it) 0); [by rewrite andb_false_r|]. by destruct Hdata as [-> _]. }
  rewrite tr_wire_header_encode_layout. eexists. split; [reflexivity|]. split; [apply same_message_frame|].
  cbn [set_frame ti_message_pos ti_wire_pos]. split; [|split; [reflexivity|split; [by rewrite Hw|by split_and!]]]. split; [|cbn [set_frame ti_wire_len]; unfold TR_WIRE_HEADER_SIZE; lia].
  unfold frame_ok. cbn [set_frame ti_message_pos ti_wire_pos ti_wire_len ti_frame_payload_len ti_message_len].
  split; [done|]. split; [exact Hdata|]. right. split; [reflexivity|].
  split; [exact (frame_at_header it)|]. split; [reflexivity|]. unfold TR_WIRE_HEADER_SIZE; lia.
Qed.

(** The slices given to the kernel are what is left of the frame. *)
Lemma build_iov_ok limits it : item_ok limits it → prepared it →
  ∃ iov, tr_tx_build_iov it = Some iov ∧
    concat iov = drop (Z.to_nat (ti_wire_pos it)) (msg_bytes (frame_at it (ti_message_pos it))) ∧
    alen (msg_bytes (frame_at it (ti_message_pos it))) = ti_wire_len it ∧ 0 ≤ ti_wire_pos it < ti_wire_len it.
Proof.
  intros Hok [(Hpos & _ & Hw) Hne]. destruct Hw as [[Hw _]|(Hw & Hh & Hfl & Hwp)]; [done|].
  destruct (io_length _ _ Hok) as [Hl _]. destruct (io_max _ _ Hok) as [Hm _].
  pose proof (frame_length_range it (ti_message_pos it) ltac:(lia) Hpos) as (Hr & _).
  pose proof (frame_payload_length it (ti_message_pos it) Hl ltac:(lia) Hpos) as Hpay.
  assert (length (ti_header it) = 40%nat) as H40 by (rewrite Hh; apply (inj Z.of_nat), length_header).
  unfold msg_bytes. rewrite <- Hh. set (payload := m_payload (frame_at it (ti_message_pos it))) in *.
  assert (alen (ti_header it ++ payload) = ti_wire_len it) as Htot.
  { unfold alen in *. rewrite length_app, H40. unfold TR_WIRE_HEADER_SIZE in Hw. lia. }
  unfold tr_tx_build_iov. unfold TR_WIRE_HEADER_SIZE in *. destruct (Z.ltb_spec (ti_wire_pos it) 40) as [Hlt|Hge].
  - rewrite Z.gtb_ltb. destruct (Z.ltb_spec (ti_frame_payload_len it) 0); [lia|].
    destruct (slices_bytes (ti_payloads it) (ti_message_pos it + 0) (ti_frame_payload_len it - 0)) as [(iov & E & Ec & _) _]; [lia|lia|unfold item_message in Hl; lia|].
    rewrite E. cbn [negb Z.eqb]. eexists. split; [reflexivity|]. split; [|done].
    rewrite drop_app_le by lia. cbn [app concat]. f_equal. rewrite Ec, Z.add_0_r, Z.sub_0_r, Hfl. reflexivity.
  - set (k := ti_wire_pos it - 40) in *. rewrite Z.gtb_ltb. destruct (Z.ltb_spec (ti_frame_payload_len it) k); [lia|].
    destruct (slices_bytes (ti_payloads it) (ti_message_pos it + k) (ti_frame_payload_len it - k)) as [(iov & E & Ec & _) _]; [lia|lia|unfold item_message in Hl; lia|].
    rewrite E. cbn [negb Z.eqb]. eexists. split; [reflexivity|]. split; [|done].
    rewrite drop_app_ge by lia. cbn [app]. rewrite Ec. fold (item_message it). unfold payload. cbn [frame_at m_payload].
    rewrite H40, <- Hfl. replace (Z.to_nat (ti_wire_pos it) - 40)%nat with (Z.to_nat k) by lia.
    rewrite skipn_firstn_comm, drop_drop. f_equal; [lia|]. f_equal. lia.
Qed.

(** What one call is given is a beginning of it. *)
Lemma limit_iov_bytes iov : ∀ budget, 0 < budget →
  concat (limit_iov budget iov) = take (Z.to_nat budget) (concat iov) ∧ (iov ≠ [] → limit_iov budget iov ≠ []).
Proof.
  induction iov as [|v iov IH]; intros budget Hb; cbn [limit_iov]; [split; [by destruct (Z.to_nat budget)|done]|].
  rewrite Z.geb_leb. destruct (Z.leb_spec budget (alen v)) as [Hle|Hlt]; cbn [concat].
  - unfold alen in Hle. by rewrite app_nil_r, take_app_le by lia.
  - unfold alen in Hlt. rewrite take_app_ge by lia. destruct (IH (budget - alen v)) as [-> _]; [unfold alen; lia|].
    split; [|done]. f_equal. f_equal. unfold alen. lia.
Qed.

#[local] Opaque frame_at.

Lemma logged {A B} (l : list (A * B)) a b : (l ++ [(a, b)]).*2 = l.*2 ++ [b].
Proof. by rewrite fmap_app. Qed.

Lemma took_wire limits c i n : tx_ok limits c → cx_active c = Some i → prepared (qit c i) →
  item_ok limits (qit c i) → n = ti_wire_len (qit c i) - ti_wire_pos (qit c i) →
  let frame := frame_at (qit c i) (ti_message_pos (qit c i)) in
  cx_wire c ++ take (Z.to_nat n) (drop (Z.to_nat (ti_wire_pos (qit c i))) (msg_bytes frame)) =
  concat (map msg_bytes ((cx_log c).*2 ++ [frame])).
Proof.
  intros Hok Ha Hprep Hit -> frame. destruct (build_iov_ok limits _ Hit Hprep) as (_ & _ & _ & Hlen & Hwp). fold frame in Hlen.
  rewrite (tq_wire _ _ Hok), <- app_assoc, map_app, concat_app. f_equal. unfold partial. rewrite Ha. fold frame.
  rewrite take_take_drop. cbn [map concat]. rewrite app_nil_r. apply take_ge. unfold alen in Hlen. lia.
Qed.

(** A frame of item [i] is complete. *)
Lemma order_sent c c' i before after o : order_ok c → cx_fifo c = before ++ i :: after →
  map (qit c') (cx_fifo c') = map (qit c) before ++ option_list o ++ map (qit c) after →
  (∀ it', o = Some it' → same_kind (qit c i) it') →
  rest_frames (qit c i) = frame_at (qit c i) (ti_message_pos (qit c i)) :: match o with Some it' => rest_frames it' | None => [] end →
  0 ≤ cx_control_streak c' → cx_given c' = cx_given c → (cx_log c').*2 = (cx_log c).*2 ++ [frame_at (qit c i) (ti_message_pos (qit c i))] →
  before = [] ∨ tr_tx_can_bypass_data (qit c i) = true ∧ Forall (λ j, is_data (qit c j) = true) before ∧
    cx_control_streak c < TR_CONTROL_BURST ∧ cx_control_streak c' = cx_control_streak c + 1 →
  order_ok c'.
Proof.
  intros (tagged & queue & Ho) Hf Hmap Hk Hrest Hs Hgiven Hlog Hturn. unfold order_ok. rewrite Hmap, Hgiven, Hlog.
  rewrite Hf, map_app, map_cons in Ho. eapply order_frame; [exact Ho|exact Hrest|exact Hk|exact Hs|].
  destruct Hturn as [->|(T1 & T2 & T3)]; [by left|]. right. split; [exact T1|]. split; [|exact T3]. by apply Forall_map.
Qed.

(** The frame is complete, and the message is not. *)
Lemma took_frame_ok limits c c' i it' f : tx_ok limits c → cx_active c = Some i → turn c i → prepared (qit c i) →
  is_data (qit c i) = true → ti_message_pos (qit c i) + ti_frame_payload_len (qit c i) < ti_message_len (qit c i) →
  same_message (qit c i) it' → same_message (qit c i) f → ti_message_pos it' = ti_message_pos (qit c i) + ti_frame_payload_len (qit c i) →
  ti_wire_pos it' = 0 → ti_wire_len it' = 0 →
  cx_items c' = <[i := it']> (cx_items c) → cx_fifo c' = cx_fifo c → cx_control c' = cx_control c →
  cx_control_streak c' = 0 → cx_active c' = None → cx_given c' = cx_given c →
  cx_log c' = cx_log c ++ [(f, frame_at (qit c i) (ti_message_pos (qit c i)))] →
  cx_wire c' = concat (map msg_bytes ((cx_log c).*2 ++ [frame_at (qit c i) (ti_message_pos (qit c i))])) → tx_ok limits c'.
Proof.
  intros Hok Ha Hturn Hprep Hdata Hmore Hsame Hf Hpos Hwp Hwl Hitems Hfifo Hcontrol Hstreak Hactive Hgiven Hlog Hwire.
  destruct (tq_active _ _ Hok i Ha) as [Hi _]. destruct (tq_items _ _ Hok i Hi) as [Hit _].
  destruct Hprep as [(Hp & _ & [[]|(_ & _ & Hfl & _)]) Hne]; [done|]. destruct (io_max _ _ Hit) as [Hm _].
  pose proof (frame_length_range (qit c i) (ti_message_pos (qit c i)) ltac:(lia) Hp) as (Hr & _ & Hr2). pose proof Hturn as (before & after & Hfe & Hb).
  pose proof Hsame as (Ed & _ & _ & _ & El & _).
  assert (rest_frames (qit c i) = frame_at (qit c i) (ti_message_pos (qit c i)) :: rest_frames it') as Hrest.
  { unfold rest_frames. rewrite (frames_from_eq (qit c i)) by lia. rewrite Hdata, <- Hfl. cbn [andb].
    destruct (Z.ltb_spec (ti_message_pos (qit c i) + ti_frame_payload_len (qit c i)) (ti_message_len (qit c i))); [|lia].
    by rewrite (same_message_from (qit c i) it'), Hpos. }
  apply (replace_ok limits c c' i it'); try assumption.
  - unfold frame_ok. rewrite Hpos, Hwp, Hwl, El, Ed. split; [lia|]. split; [intros _; split; [exact Hdata|lia]|left; split; reflexivity].
  - rewrite Hstreak. unfold TR_CONTROL_BURST; lia.
  - right; split; assumption.
  - rewrite Hwire, Hlog. unfold partial. rewrite Hactive, app_nil_r, logged. reflexivity.
  - rewrite Hlog, logged. apply Forall_app. split; [apply (tq_log _ _ Hok)|]. constructor; [|constructor]. apply frame_at_ok; [exact Hit|lia].
  - rewrite Hactive. discriminate.
  - apply (order_sent c c' i before after (Some it')); try assumption; [apply (tq_order _ _ Hok)|exact (replace_map c c' i before after it' (tq_nodup _ _ Hok) Hitems Hfifo Hfe)
      |by intros ? [= <-]; apply same_message_kind|rewrite Hstreak; lia|by rewrite Hlog, logged|].
    destruct Hb as [->|(Hb & _)]; [by left|]. apply bypass_control in Hb. congruence.
Qed.

Lemma filter_out (i : nat) before after : NoDup (before ++ i :: after) →
  filter (λ j, j ≠ i) (before ++ i :: after) = before ++ after.
Proof.
  intros (Hb & Hn & Ha)%NoDup_app. apply NoDup_cons in Ha as [Hi Ha].
  assert (∀ l : list nat, i ∉ l → filter (λ j, j ≠ i) l = l) as Hid.
  { induction l as [|j l IH]; intros Hl; [done|]. apply not_elem_of_cons in Hl as [H1 H2]. rewrite filter_cons_True by congruence. by rewrite IH. }
  rewrite filter_app, filter_cons_False by (intros H; by apply H). rewrite !Hid; [done|done|].
  intros H. apply (Hn i H), elem_of_cons. by left.
Qed.

(** The item leaves the queue. *)
Lemma removed_queue limits c c' i before after : tx_ok limits c → cx_fifo c = before ++ i :: after →
  before = [] ∨ Forall (λ j, is_data (qit c j) = true) before →
  cx_items c' = delete i (cx_items c) → cx_fifo c' = filter (λ j, j ≠ i) (cx_fifo c) →
  cx_control c' = (if is_data (qit c i) then cx_control c else tail (cx_control c)) →
  cx_fifo c' = before ++ after ∧ (∀ j, j ∈ before ++ after → j ∈ cx_fifo c ∧ j ≠ i) ∧ (∀ j, j ≠ i → qit c' j = qit c j) ∧
  cx_control c' = filter (λ j, is_data (qit c' j) = false) (cx_fifo c') ∧ map (qit c') (cx_fifo c') = map (qit c) before ++ map (qit c) after.
Proof.
  intros Hok Hf Hb Hitems Hfifo Hcontrol. pose proof (tq_nodup _ _ Hok) as Hn. rewrite Hf in Hn.
  rewrite Hf, filter_out in Hfifo by done. assert (∀ j, j ∈ before ++ after → j ∈ cx_fifo c ∧ j ≠ i) as Hin.
  { apply NoDup_app in Hn as (_ & Hn1 & Hn2). apply NoDup_cons in Hn2 as [Hn2 _]. rewrite Hf. intros j [Hj|Hj]%elem_of_app.
    - split; [apply elem_of_app; by left|]. intros ->. apply (Hn1 i Hj), elem_of_cons. by left.
    - split; [apply elem_of_app; right; apply elem_of_cons; by right|]. by intros ->. }
  assert (∀ j, j ≠ i → qit c' j = qit c j) as Hq by (intros j Hj; unfold qit; by rewrite Hitems, lookup_delete_ne).
  assert (∀ l, (∀ j, j ∈ l → j ∈ before ++ after) → map (qit c') l = map (qit c) l) as Hmap.
  { intros l Hl. apply map_ext_in. intros j Hj%list_elem_of_In. apply Hq. by apply Hin, Hl. }
  split_and!; [done|done|done| |].
  - rewrite Hfifo, (filter_same c c') by (intros j Hj; rewrite Hq; [done|by apply Hin]).
    rewrite Hcontrol, (tq_control _ _ Hok), Hf, !filter_app. destruct (is_data (qit c i)) eqn:Ed.
    + by rewrite filter_cons_False by congruence.
    + rewrite filter_cons_True by done. replace (filter (λ j, is_data (qit c j) = false) before) with (@nil nat); [done|].
      destruct Hb as [-> |Hb]; [done|]. clear -Hb. induction Hb as [|j l Hj _ IH]; [done|]. by rewrite filter_cons_False by congruence.
  - rewrite Hfifo, map_app. f_equal; apply Hmap; intros j Hj; apply elem_of_app; auto.
Qed.

Lemma removed_ok limits c c' i f : tx_ok limits c → cx_active c = Some i → turn c i → prepared (qit c i) →
  (is_data (qit c i) = true → ti_message_len (qit c i) ≤ ti_message_pos (qit c i) + ti_frame_payload_len (qit c i)) →
  same_message (qit c i) f → cx_items c' = delete i (cx_items c) → cx_fifo c' = filter (λ j, j ≠ i) (cx_fifo c) →
  cx_control c' = (if is_data (qit c i) then cx_control c else tail (cx_control c)) →
  0 ≤ cx_control_streak c' ≤ TR_CONTROL_BURST →
  (tr_tx_can_bypass_data (qit c i) = true → cx_control_streak c < TR_CONTROL_BURST → cx_control_streak c' = cx_control_streak c + 1) →
  cx_active c' = None → cx_given c' = cx_given c →
  cx_log c' = cx_log c ++ [(f, frame_at (qit c i) (ti_message_pos (qit c i)))] →
  cx_wire c' = concat (map msg_bytes ((cx_log c).*2 ++ [frame_at (qit c i) (ti_message_pos (qit c i))])) → tx_ok limits c'.
Proof.
  intros Hok Ha (before & after & Hfe & Hb) [(Hp & _ & Hfr) Hne] Hdone Hf Hitems Hfifo Hcontrol Hstreak Hstep Hactive Hgiven Hlog Hwire.
  destruct Hfr as [[]|(_ & _ & Hfl & _)]; [done|].
  destruct (tq_active _ _ Hok i Ha) as [Hi _]. destruct (tq_items _ _ Hok i Hi) as [Hit _]. destruct (io_max _ _ Hit) as [Hm _].
  assert (before = [] ∨ Forall (λ j, is_data (qit c j) = true) before) as Hb' by (destruct Hb as [->|(_ & Hb & _)]; auto).
  destruct (removed_queue limits c c' i before after Hok Hfe Hb' Hitems Hfifo Hcontrol) as (Hfifo' & Hin & Hq & Hctl & Hmap).
  assert (rest_frames (qit c i) = [frame_at (qit c i) (ti_message_pos (qit c i))]) as Hrest.
  { unfold rest_frames. rewrite frames_from_eq by lia. destruct (is_data (qit c i)); cbn [andb]; [|reflexivity].
    specialize (Hdone eq_refl). rewrite <- Hfl. destruct (Z.ltb_spec (ti_message_pos (qit c i) + ti_frame_payload_len (qit c i)) (ti_message_len (qit c i))); [lia|reflexivity]. }
  split.
  - rewrite Hfifo', <- (filter_out i) by (rewrite <- Hfe; apply (tq_nodup _ _ Hok)). apply NoDup_filter. rewrite <- Hfe. apply (tq_nodup _ _ Hok).
  - intros j. rewrite Hfifo, list_elem_of_filter, Hitems, lookup_delete_is_Some, (tq_names _ _ Hok).
    split; intros [H1 H2]; (split; [congruence|assumption]).
  - intros j Hj. rewrite Hfifo' in Hj. destruct (Hin j Hj) as [H1 H2]. rewrite Hq by exact H2. by apply (tq_items _ _ Hok).
  - exact Hctl.
  - intros j Hj H. rewrite Hfifo' in Hj. destruct (Hin j Hj) as [H1 H2]. rewrite Hq in H by exact H2. destruct H. by apply (idle_others limits c i).
  - intros j Hj. rewrite Hactive in Hj. discriminate.
  - rewrite Hwire, Hlog. unfold partial. rewrite Hactive, app_nil_r, logged. reflexivity.
  - rewrite Hlog, logged. apply Forall_app. split; [apply (tq_log _ _ Hok)|]. constructor; [|constructor]. apply frame_at_ok; [exact Hit|lia].
  - apply (order_sent c c' i before after None); try assumption; [apply (tq_order _ _ Hok)|discriminate|lia|by rewrite Hlog, logged|].
    destruct Hb as [->|(Hb1 & Hb2 & Hb3)]; [by left|right]. split; [exact Hb1|]. split; [exact Hb2|]. split; [exact Hb3|by apply Hstep].
  - exact Hstreak.
Qed.

(** What the kernel took of the frame keeps the invariant. *)
Lemma took_ok limits c i n : tx_ok limits c → cx_active c = Some i → turn c i → prepared (qit c i) →
  0 < n ≤ ti_wire_len (qit c i) - ti_wire_pos (qit c i) → 0 ≤ ti_wire_pos (qit c i) →
  let bytes := take (Z.to_nat n) (drop (Z.to_nat (ti_wire_pos (qit c i))) (msg_bytes (frame_at (qit c i) (ti_message_pos (qit c i))))) in
  tx_ok limits (tx_took c i (qit c i) bytes).
Proof.
  intros Hok Ha Hturn Hprep Hn Hwp0 bytes.
  destruct (tq_active _ _ Hok i Ha) as [Hi _]. destruct (tq_items _ _ Hok i Hi) as [Hit _].
  destruct (build_iov_ok limits _ Hit Hprep) as (_ & _ & _ & Htot & Hwp).
  assert (alen bytes = n) as Hlen by (unfold bytes, alen in *; rewrite length_take, length_drop; lia).
  unfold tx_took. rewrite Hlen. cbn [set_position ti_wire_pos ti_wire_len ti_message_pos ti_message_len ti_frame_payload_len].
  set (f := set_position (qit c i) (ti_message_pos (qit c i)) (ti_wire_pos (qit c i) + n) (ti_wire_len (qit c i))).
  pose proof (same_message_position (qit c i) (ti_message_pos (qit c i)) (ti_wire_pos (qit c i) + n) (ti_wire_len (qit c i))) as Hsf. fold f in Hsf.
  pose proof Hsf as (Ed & Eb & Ef & _). destruct (Z.eqb_spec (ti_wire_pos (qit c i) + n) (ti_wire_len (qit c i))) as [E|Hne]; cbn [negb].
  - assert (n = ti_wire_len (qit c i) - ti_wire_pos (qit c i)) as En by lia.
    pose proof (took_wire limits c i n Hok Ha Hprep Hit En) as Hwire. cbv zeta in Hwire. fold bytes in Hwire.
    rewrite Ed, Eb. change (ti_message_pos f) with (ti_message_pos (qit c i)). destruct (is_data (qit c i)) eqn:Edata.
    + destruct (Z.ltb_spec (ti_message_pos (qit c i) + ti_frame_payload_len (qit c i)) (ti_message_len (qit c i))) as [Hmore|Hlast].
      * apply (took_frame_ok limits c _ i (set_position (qit c i) (ti_message_pos (qit c i) + ti_frame_payload_len (qit c i)) 0 0) f);
          try assumption; try reflexivity; first [apply same_message_position|apply insert_insert_eq].
      * apply (removed_ok limits c _ i f); try assumption; try reflexivity; first [intros _; exact Hlast|apply delete_insert_eq|idtac].
        -- cbn [tr_connection_complete_tx cx_control_streak set_active]. unfold TR_CONTROL_BURST. lia.
        -- intros X%bypass_control. congruence.
    + assert (∀ streak, 0 ≤ streak ≤ TR_CONTROL_BURST →
        (tr_tx_can_bypass_data (qit c i) = true → cx_control_streak c < TR_CONTROL_BURST → streak = cx_control_streak c + 1) → tx_ok limits
        (tr_connection_complete_tx (set_active (log_frame (put_item (take_bytes c bytes) i f) f) None streak) i f)) as H.
      { intros streak Hs Hst. apply (removed_ok limits c _ i f); try assumption; try reflexivity; first [congruence|apply delete_insert_eq]. }
      pose proof (tq_streak _ _ Hok) as Hs. cbn [set_active log_frame put_item take_bytes cx_control_streak].
      destruct (tr_tx_can_bypass_data (qit c i) && _) eqn:Eburst.
      2:{ apply H; [exact Hs|]. intros X Y. rewrite X in Eburst. apply Z.ltb_ge in Eburst. lia. }
      apply andb_true_iff in Eburst as [_ Eburst%Z.ltb_lt]. assert (u32 (cx_control_streak c + 1) = cx_control_streak c + 1) as Eu.
      { unfold TR_CONTROL_BURST in *. apply u32_small. unfold u32_ok; lia. }
      apply (H (u32 (cx_control_streak c + 1))); rewrite Eu; [lia|reflexivity].
  - apply (move_ok limits c _ i f n); try assumption; try reflexivity; [|lia].
    destruct Hprep as [(Hp & Hd & [[]|(Hl & Hh & Hfl & _)]) Hwl]; [done|].
    split; [exact Hp|]. split; [exact Hd|]. right. split; [exact Hl|]. split; [rewrite Ef; exact Hh|]. split; [exact Hfl|].
    cbn [f set_position ti_wire_pos ti_wire_len]. lia.
Qed.

(** ** The loop *)

(** [sendmsg] takes no more than it is given. *)
Definition kernel_ok (kernel : nat → list (list Z) → send_answer) : Prop :=
  ∀ k iov n, kernel k iov = Took n → 0 ≤ n ≤ alen (concat iov).

(** The answers on which the connection is closed. *)
Definition fatal (answer : send_answer) : Prop :=
  answer = Took 0 ∨ answer = Would_block false ∨ answer = Send_failed.

Lemma close_ok limits c : tx_ok limits c → tx_ok limits (tx_close c).
Proof. by intros []. Qed.

(** What the loop does before the call: the item that has its turn is prepared. *)
Lemma prepared_turn limits c i : tx_ok limits c → cx_active c = Some i → turn c i →
  ∃ it, (if ti_wire_len (qit c i) =? 0 then tr_tx_prepare_frame (qit c i) else (TR_OK, qit c i)) = (TR_OK, it) ∧
    let c' := put_item c i it in
    tx_ok limits c' ∧ turn c' i ∧ qit c' i = it ∧ prepared it.
Proof.
  intros Hok Ha Hturn. destruct (tq_active _ _ Hok i Ha) as [Hi _]. destruct (tq_items _ _ Hok i Hi) as [Hit Hfr].
  assert (∀ it, same_message (qit c i) it → prepared it → ti_message_pos it = ti_message_pos (qit c i) → ti_wire_pos it = ti_wire_pos (qit c i) →
    let c' := put_item c i it in tx_ok limits c' ∧ turn c' i ∧ qit c' i = it ∧ prepared it) as H.
  { intros it Hsame Hprep Hpos Hwp c'. assert (qit c' i = it) as Hqi by (unfold c'; by rewrite qit_put, decide_True).
    pose proof Hsame as (Ed & Eb & _). split; [|split; [|split; [exact Hqi|exact Hprep]]].
    - apply (move_ok limits c c' i it 0); try assumption; try reflexivity; [apply Hprep|lia| |].
      + destruct Hfr as (_ & _ & [[_ ->]|(_ & _ & _ & ?)]); lia.
      + cbn [c' put_item cx_wire]. by rewrite take_0, app_nil_r.
    - apply (turn_same c); [done|done|done| |by rewrite Hqi]. intros j. unfold c'. rewrite qit_put. by destruct (decide (i = j)) as [<- |]. }
  destruct (Z.eqb_spec (ti_wire_len (qit c i)) 0) as [E|E].
  - destruct (prepare_ok limits (qit c i) Hit Hfr E) as (it & Hprep & Hsame & Hp & Hpos & Hwp & _). exists it. split; [exact Hprep|]. by apply H.
  - exists (qit c i). split; [reflexivity|]. apply H; [by split_and!|by split|reflexivity|reflexivity].
Qed.

Lemma default_qit c i : default (mk_tx_item [] [] 0 0 0 0 0 0 0 0 0 0) (cx_items c !! i) = qit c i.
Proof. reflexivity. Qed.

(** One turn of the loop, with the answer of the kernel. *)
Lemma flush_turn limits kernel fuel calls budget c : kernel_ok kernel → tx_ok limits c → 0 < budget → cx_open c = true → cx_fifo c ≠ [] →
  ∃ c1 iov, tx_ok limits c1 ∧ cx_given c1 = cx_given c ∧ cx_wire c1 = cx_wire c ∧ cx_open c1 = true ∧ concat iov ≠ [] ∧ alen (concat iov) ≤ budget ∧
  flush_loop kernel (S fuel) calls budget c = match kernel calls iov with
    | Took n => bail (Some (S calls, budget, tx_close c1)) when (n =? 0) ;;
        flush_loop kernel fuel (S calls) (budget - n) (tx_took c1 (default 0%nat (cx_active c1)) (qit c1 (default 0%nat (cx_active c1))) (take (Z.to_nat n) (concat iov)))
    | Interrupted => flush_loop kernel fuel (S calls) budget c1
    | Would_block watched => Some (S calls, budget, if watched then c1 else tx_close c1)
    | Send_failed => Some (S calls, budget, tx_close c1)
    end ∧
  ∀ n, 0 < n ≤ alen (concat iov) → tx_ok limits (tx_took c1 (default 0%nat (cx_active c1)) (qit c1 (default 0%nat (cx_active c1))) (take (Z.to_nat n) (concat iov))).
Proof.
  intros Hk Hok Hb Hopen Hne. destruct (next_tx_ok limits c Hok Hne) as (i & Enext & Hturn & Hi & Hok0).
  set (c0 := set_active c (Some i) (cx_control_streak c)) in *.
  destruct (prepared_turn limits c0 i Hok0 eq_refl) as (it & Eprep & Hok1 & Hturn1 & Hqi & Hprep); [by apply (turn_same c)|].
  set (c1 := put_item c0 i it) in *. destruct (tq_active _ _ Hok1 i eq_refl) as [Hi1 _].
  destruct (tq_items _ _ Hok1 i Hi1) as [Hit1 _]. rewrite Hqi in Hit1.
  destruct (build_iov_ok limits it Hit1 Hprep) as (iov & Eiov & Econcat & Htot & Hwp).
  assert (iov ≠ []) as Hiov. { intros ->. apply (f_equal length) in Econcat. rewrite length_drop in Econcat. unfold alen in Htot. cbn [concat length] in Econcat. lia. }
  destruct (limit_iov_bytes iov budget Hb) as [Elim _].
  exists c1, (limit_iov budget iov). split; [exact Hok1|]. split; [reflexivity|]. split; [reflexivity|]. split; [exact Hopen|].
  split; [|split; [|split]].
  - rewrite Elim, Econcat. intros H. apply (f_equal length) in H. rewrite length_take, length_drop in H. unfold alen in Htot. cbn [length] in H. lia.
  - rewrite Elim. unfold alen. rewrite length_take. lia.
  - cbn [flush_loop]. replace ((budget =? 0) || negb (cx_open c) || bool_decide (cx_fifo c = [])) with false.
    2:{ rewrite Hopen, bool_decide_false by done. destruct (Z.eqb_spec budget 0); [lia|done]. }
    rewrite Enext. fold c0. rewrite default_qit, Eprep. cbn [is_ok negb Z.eqb]. fold c1. rewrite Eiov.
    change (default 0%nat (cx_active c1)) with i. rewrite Hqi. destruct iov as [|v iov]; [done|]. reflexivity.
  - change (default 0%nat (cx_active c1)) with i. intros n Hn. rewrite Elim in *. rewrite take_take, Econcat.
    assert (Z.to_nat n ≤ Z.to_nat budget)%nat as Hnb. { destruct Hn as [_ Hn]. unfold alen in Hn. rewrite length_take in Hn. lia. }
    assert (n ≤ ti_wire_len it - ti_wire_pos it) as Hnl.
    { destruct Hn as [_ Hn]. rewrite Econcat in Hn. unfold alen in *. rewrite length_take, length_drop in Hn. lia. }
    rewrite Nat.min_l by exact Hnb. pose proof (took_ok limits c1 i n Hok1 eq_refl Hturn1) as H. cbv zeta in H. rewrite Hqi in H.
    rewrite Hqi. apply H; [exact Hprep|lia|lia].
Qed.

Lemma took_fields c i it bytes : cx_given (tx_took c i it bytes) = cx_given c ∧ cx_open (tx_took c i it bytes) = cx_open c ∧
  cx_wire (tx_took c i it bytes) = cx_wire c ++ bytes.
Proof. unfold tx_took. cbv zeta. repeat match goal with |- context [if ?b then _ else _] => destruct b end; split_and!; reflexivity. Qed.

(** How the loop ends: the budget is spent, nothing is left, the kernel has no room, or it
    answered an error. *)
Definition flush_end (kernel : nat → list (list Z) → send_answer) (calls calls' : nat) (budget : Z) (c : tx_connection) : Prop :=
  cx_open c = true ∧ (budget = 0 ∨ cx_fifo c = [] ∨ ∃ iov, (calls < calls')%nat ∧ kernel (calls' - 1)%nat iov = Would_block true) ∨
  ∃ k iov, (calls ≤ k < calls')%nat ∧ fatal (kernel k iov).

Lemma flush_end_earlier kernel calls calls' budget c :
  flush_end kernel (S calls) calls' budget c → (S calls ≤ calls')%nat → flush_end kernel calls calls' budget c.
Proof.
  intros H Hle. destruct H as [(H1 & H2)|(k & v & Hk & Hf)]; [left|right; exists k, v; split; [lia|exact Hf]]. split; [exact H1|].
  destruct H2 as [H2|[H2|(v & Hv & H2)]]; [by left|by right; left|right; right]. exists v. split; [lia|exact H2].
Qed.

Lemma flush_loop_ok limits kernel fuel : kernel_ok kernel → ∀ calls budget c calls' budget' c',
  flush_loop kernel fuel calls budget c = Some (calls', budget', c') → tx_ok limits c → 0 ≤ budget → cx_open c = true →
  tx_ok limits c' ∧ cx_given c' = cx_given c ∧ 0 ≤ budget' ≤ budget ∧ (calls ≤ calls')%nat ∧
  (∃ bytes, cx_wire c' = cx_wire c ++ bytes ∧ alen bytes = budget - budget') ∧ flush_end kernel calls calls' budget' c'.
Proof.
  intros Hk. induction fuel as [|fuel IH]; intros calls budget c calls' budget' c' E Hok Hb Hopen; [done|].
  assert (∀ c1, tx_ok limits c1 → cx_given c1 = cx_given c → cx_wire c1 = cx_wire c → flush_end kernel calls (S calls) budget c1 →
    Some (S calls, budget, c1) = Some (calls', budget', c') →
    tx_ok limits c' ∧ cx_given c' = cx_given c ∧ 0 ≤ budget' ≤ budget ∧ (calls ≤ calls')%nat ∧
    (∃ bytes, cx_wire c' = cx_wire c ++ bytes ∧ alen bytes = budget - budget') ∧ flush_end kernel calls calls' budget' c') as Hend.
  { intros c1 H1 H2 H3 H4 [= <- <- <-]. split; [exact H1|]. split; [exact H2|]. split; [lia|]. split; [lia|]. split; [|exact H4].
    exists []. rewrite H3, app_nil_r. split; [reflexivity|]. unfold alen. simpl. lia. }
  destruct (decide (budget = 0 ∨ cx_fifo c = [])) as [Hstop|Hgo].
  - cbn [flush_loop] in E. replace ((budget =? 0) || negb (cx_open c) || bool_decide (cx_fifo c = [])) with true in E.
    2:{ destruct Hstop as [-> |Hf]; [done|]. rewrite (bool_decide_true _ Hf). by rewrite orb_true_r. }
    injection E as <- <- <-. split; [exact Hok|]. split; [reflexivity|]. split; [lia|]. split; [lia|].
    split; [exists []; rewrite app_nil_r; split; [reflexivity|unfold alen; simpl; lia]|]. left. split; [exact Hopen|].
    destruct Hstop as [-> |Hf]; [by left|by right; left].
  - assert (cx_fifo c ≠ []) as Hne by tauto. assert (0 < budget) as Hb1 by lia.
    destruct (flush_turn limits kernel fuel calls budget c Hk Hok Hb1 Hopen Hne) as (c1 & iov & Hok1 & Hg1 & Hw1 & Ho1 & Hiov & Hlim & Eq & Htook).
    rewrite Eq in E. destruct (kernel calls iov) as [n| |watched|] eqn:Ek.
    + pose proof (Hk _ _ _ Ek) as Hn. destruct (Z.eqb_spec n 0) as [-> |Hn0].
      * apply (Hend (tx_close c1)); [by apply close_ok|exact Hg1|exact Hw1| |exact E]. right. exists calls, iov. split; [lia|]. left. exact Ek.
      * specialize (Htook n ltac:(lia)). destruct (took_fields c1 (default 0%nat (cx_active c1)) (qit c1 (default 0%nat (cx_active c1))) (take (Z.to_nat n) (concat iov))) as (Hg & Ho & Hw).
        apply IH in E as (H1 & H2 & H3 & H4 & (more & Hw' & Hl) & H5); [|exact Htook|lia|congruence].
        split; [exact H1|]. split; [congruence|]. split; [lia|]. split; [lia|]. split.
        -- exists (take (Z.to_nat n) (concat iov) ++ more). rewrite Hw', Hw, Hw1, <- app_assoc. split; [reflexivity|].
           unfold alen in *. rewrite length_app, length_take. lia.
        -- by apply flush_end_earlier.
    + apply IH in E as (H1 & H2 & H3 & H4 & (more & Hw' & Hl) & H5); [|exact Hok1|lia|congruence].
      split; [exact H1|]. split; [congruence|]. split; [lia|]. split; [lia|]. split; [exists more; rewrite Hw', Hw1; by split|by apply flush_end_earlier].
    + destruct watched.
      * apply (Hend c1); [exact Hok1|exact Hg1|exact Hw1| |exact E]. left. split; [exact Ho1|]. right. right. exists iov. split; [lia|].
        by replace (S calls - 1)%nat with calls by lia.
      * apply (Hend (tx_close c1)); [by apply close_ok|exact Hg1|exact Hw1| |exact E]. right. exists calls, iov. split; [lia|]. right. left. exact Ek.
    + apply (Hend (tx_close c1)); [by apply close_ok|exact Hg1|exact Hw1| |exact E]. right. exists calls, iov. split; [lia|]. right. right. exact Ek.
Qed.

(** A kernel that is not interrupted from call [quiet] on: the loop ends. *)
Lemma flush_loop_ends limits kernel quiet : kernel_ok kernel → (∀ k iov, (quiet ≤ k)%nat → kernel k iov ≠ Interrupted) →
  ∀ fuel calls budget c, tx_ok limits c → 0 ≤ budget → (Z.to_nat budget + (quiet - calls) < fuel)%nat →
  is_Some (flush_loop kernel fuel calls budget c).
Proof.
  intros Hk Hquiet. induction fuel as [|fuel IH]; intros calls budget c Hok Hb Hfuel; [lia|].
  destruct ((budget =? 0) || negb (cx_open c) || bool_decide (cx_fifo c = [])) eqn:Estop; [cbn [flush_loop]; rewrite Estop; eauto|].
  apply orb_false_iff in Estop as [[Hb0%Z.eqb_neq Hopen%negb_false_iff]%orb_false_iff Hne%bool_decide_eq_false].
  destruct (flush_turn limits kernel fuel calls budget c Hk Hok ltac:(lia) Hopen Hne) as (c1 & iov & Hok1 & _ & _ & Ho1 & _ & Hlim & -> & Htook).
  destruct (kernel calls iov) as [n| |watched|] eqn:Ek; [|destruct (decide (quiet ≤ calls)%nat) as [Hq|Hq]|eauto|eauto].
  - pose proof (Hk _ _ _ Ek). destruct (Z.eqb_spec n 0); [eauto|]. apply IH; [apply Htook; lia|lia|lia].
  - by apply Hquiet in Ek.
  - apply IH; [exact Hok1|lia|lia].
Qed.

(** ** What the frames of a message are *)

Definition has_flag (m : msg) (flag : Z) : bool := negb (Z.land (fh_flags (m_header m)) flag =? 0).

Lemma frame_at_flags it pos : is_data it = true → 0 ≤ ti_base_flags it < 8 →
  has_flag (frame_at it pos) TR_FRAME_F_FIRST = (pos =? 0) ∧
  has_flag (frame_at it pos) TR_FRAME_F_LAST = (pos + frame_length it pos =? ti_message_len it).
Proof.
  intros Hd Hf. unfold has_flag.
  change (fh_flags (m_header (frame_at it pos))) with (frame_flags it pos). unfold frame_flags. rewrite Hd. cbn [negb].
  assert (ti_base_flags it = 0 ∨ ti_base_flags it = 1 ∨ ti_base_flags it = 2 ∨ ti_base_flags it = 3 ∨ ti_base_flags it = 4 ∨
    ti_base_flags it = 5 ∨ ti_base_flags it = 6 ∨ ti_base_flags it = 7) as Hc by lia.
  destruct (pos =? 0), (pos + frame_length it pos =? ti_message_len it);
    repeat (destruct Hc as [-> | Hc]; [by vm_compute|]); rewrite Hc; by vm_compute.
Qed.

Definition frame_of (it : tr_tx_item) (m : msg) : Prop :=
  fh_type (m_header m) = ti_type it ∧ fh_stream_id (m_header m) = ti_stream_id it ∧
  fh_message_id (m_header m) = ti_message_id it ∧ alen (m_payload m) ≤ ti_max_frame_payload_len it.

Lemma frames_from_spec limits it : item_ok limits it → ∀ n pos, ti_message_len it - pos < Z.of_nat n → 0 ≤ pos ≤ ti_message_len it →
  (is_data it = false → pos = 0) →
  concat (map m_payload (frames_from it pos)) = drop (Z.to_nat pos) (item_message it) ∧ Forall (frame_of it) (frames_from it pos) ∧
  (is_data it = true → ∀ k m, frames_from it pos !! k = Some m →
    (has_flag m TR_FRAME_F_FIRST = true ↔ k = 0%nat ∧ pos = 0) ∧ (has_flag m TR_FRAME_F_LAST = true ↔ S k = length (frames_from it pos))).
Proof.
  intros Hok. destruct (io_length _ _ Hok) as [Hl _]. destruct (io_max _ _ Hok) as [Hm _].
  induction n as [|n IH]; intros pos Hn Hpos Hctl; [lia|].
  pose proof (frame_length_range it pos ltac:(lia) Hpos) as (Hr1 & Hr2 & Hr3).
  pose proof (frame_payload_length it pos Hl ltac:(lia) Hpos) as Hpay.
  assert (m_payload (frame_at it pos) = take (Z.to_nat (frame_length it pos)) (drop (Z.to_nat pos) (item_message it))) as Hp by reflexivity.
  assert (frame_of it (frame_at it pos)) as Hof.
  { split; [reflexivity|]. split; [reflexivity|]. split; [reflexivity|]. rewrite Hpay. exact Hr2. }
  rewrite frames_from_eq by lia. destruct (is_data it && (pos + frame_length it pos <? ti_message_len it)) eqn:Emore.
  - apply andb_true_iff in Emore as [Hd Hlt%Z.ltb_lt].
    destruct (IH (pos + frame_length it pos)) as (IH1 & IH2 & IH3); [lia|lia|congruence|]. split; [|split].
    + cbn [map concat]. rewrite IH1, Hp. rewrite Z2Nat.inj_add by lia. rewrite <- drop_drop. apply take_drop.
    + by constructor.
    + intros _ k m Hk. destruct (frame_at_flags it pos Hd (io_flags _ _ Hok)) as [F1 F2]. destruct k as [|k]; cbn in Hk.
      * injection Hk as <-. rewrite F1, F2. split; [rewrite Z.eqb_eq; by intuition|]. rewrite Z.eqb_eq. cbn [length].
        split; [lia|]. intros H. injection H as H. discriminate.
      * destruct (IH3 Hd k m Hk) as [G1 G2]. rewrite G1, G2. cbn [length]. split; [|lia]. split; [intros [_ ?]; lia|intros [? _]; lia].
  - split; [|split].
    + cbn [map concat]. rewrite app_nil_r, Hp. apply take_ge. rewrite length_drop. unfold alen in Hl.
      apply andb_false_iff in Emore as [Hd|Hge%Z.ltb_ge]; [|lia]. rewrite (Hctl Hd) in *. pose proof (io_control _ _ Hok Hd).
      unfold frame_length. rewrite Z.gtb_ltb. destruct (Z.ltb_spec (ti_max_frame_payload_len it) (ti_message_len it - 0)); lia.
    + by constructor; [|constructor].
    + intros Hd k m Hk. destruct (frame_at_flags it pos Hd (io_flags _ _ Hok)) as [F1 F2]. rewrite Hd in Emore. apply Z.ltb_ge in Emore.
      destruct k as [|k]; [|by destruct k]. injection Hk as <-. rewrite F1, F2, !Z.eqb_eq. cbn [length]. split; [by intuition|]. split; [reflexivity|lia].
Qed.

Lemma frames_from_ok limits it pos : item_ok limits it → 0 ≤ pos ≤ ti_message_len it → Forall (msg_ok limits) (frames_from it pos).
Proof.
  intros Hok Hpos. unfold frames_from. set (n := S _). clearbody n. revert pos Hpos. destruct (io_max _ _ Hok) as [Hm _].
  induction n as [|n IH]; intros pos Hpos; cbn [cut]; [constructor|]. constructor; [by apply frame_at_ok|].
  destruct (is_data it); cbn [andb]; [|constructor]. destruct (Z.ltb_spec (pos + frame_length it pos) (ti_message_len it)); [|constructor].
  pose proof (frame_length_range it pos ltac:(lia) Hpos). apply IH. lia.
Qed.

(** ** Sending *)

(** What a caller of [tr_reactor_sendv_limited] sees to: values of their types, a frame size
    that the peer takes, and RESET and REFUSED as the peer expects them. *)
Record sending_ok (limits : tr_wire_limits) (type flags stream_id message_id : Z) (payloads : option (list (option tx_slice)))
    (payload_count max : Z) : Prop := {
  so_bytes : ∀ b data, Some (b, data) ∈ default [] payloads → bytes_ok data;
  so_args : u32_ok flags ∧ u32_ok stream_id ∧ u64_ok message_id ∧ 0 ≤ payload_count ∧ u32_ok max;
  so_max : max ≤ effective_max_payload (Some limits);
  so_reset : type = TR_FRAME_STREAM_RESET ∨ type = TR_FRAME_STREAM_REFUSED →
    flags = 0 ∧ payload_count = 0 ∧ stream_id ≠ 0 ∧ reset_reason message_id;
  so_refused : type = TR_FRAME_STREAM_REFUSED → message_id = 2
}.

Lemma check_slices_spec payloads : ∀ seen len len', check_slices seen payloads len = (TR_OK, len') → 0 ≤ len ≤ UINT32_MAX →
  let bytes := concat (omap id (map (option_map snd) payloads)) in
  len' = len + alen bytes ∧ 0 ≤ len' ≤ UINT32_MAX ∧ ((∀ b data, Some (b, data) ∈ payloads → bytes_ok data) → bytes_ok bytes).
Proof.
  induction payloads as [|[[b data]|] payloads IH]; intros seen len len' E Hlen; cbn [check_slices] in E; [|case_ifs_in E; try done|done].
  - injection E as <-. split; [unfold alen; simpl; lia|]. split; [lia|]. intros _. constructor.
  - bool_to_prop. pose proof (alen_nonneg data). destruct (IH _ _ _ E ltac:(lia)) as (-> & H2 & H3).
    cbn [map option_map snd]. rewrite slices_some. split; [unfold alen; rewrite length_app; lia|]. split; [lia|].
    intros Hb. apply Forall_app. split; [apply (Hb b), elem_of_cons; by left|]. apply H3. intros b' d' Hin. apply (Hb b'), elem_of_cons. by right.
Qed.

Lemma new_item_ok limits type flags stream_id message_id payloads payload_count max len :
  let slices := take (Z.to_nat payload_count) (default [] payloads) in
  sending_ok limits type flags stream_id message_id payloads payload_count max →
  tr_frame_type_valid type = true → Z.land flags (u32 (Z.lnot TR_FRAME_F_KNOWN_MASK)) = 0 → max ≠ 0 →
  check_slices [] slices 0 = (TR_OK, len) → type = TR_FRAME_DATA ∨ len ≤ max →
  item_ok limits (new_item type flags stream_id message_id slices len max) ∧ frame_ok (new_item type flags stream_id message_id slices len max).
Proof.
  intros slices [Hb (Hfl & Hs & Hm & Hn & Hmx) Hmax Hr Hr2] Hty Hkn Hmax0 E Hctl.
  apply check_slices_spec in E as (Hlen & Hrange & Hbytes); [|unfold UINT32_MAX; lia].
  assert (bytes_ok (concat (omap id (map (option_map snd) slices)))) as Hbs.
  { apply Hbytes. intros b data Hin. apply (Hb b). unfold slices in Hin. apply elem_of_take in Hin as (k & Hk & _). by apply list_elem_of_lookup_2 in Hk. }
  apply frame_type_valid_range in Hty. unfold UINT32_MAX in Hrange.
  split; [split; cbn [new_item ti_message_len ti_max_frame_payload_len ti_type ti_base_flags ti_stream_id ti_message_id]|].
  - exact Hbs.
  - split; [|lia]. unfold item_message. cbn [new_item ti_payloads]. rewrite Hlen. lia.
  - split; [unfold u32_ok in Hmx; lia|exact Hmax].
  - exact Hty.
  - apply flags_mask_zero in Hkn; [unfold u32_ok in Hfl; lia|exact Hfl].
  - by split.
  - unfold is_data. cbn [new_item ti_type]. intros Hd%Z.eqb_neq. destruct Hctl; [done|lia].
  - intros H. destruct (Hr H) as (H1 & H2 & H3 & H4). split; [exact H1|]. split; [|by split].
    rewrite Hlen. unfold slices. rewrite H2. reflexivity.
  - exact Hr2.
  - unfold frame_ok. cbn [new_item ti_message_pos ti_message_len ti_wire_len ti_wire_pos]. split; [lia|]. split; [by intros []|by left].
Qed.

(** A message that is refused leaves the queue as it was. *)
Lemma sendv_cases limits max_payload_len accepting free c type flags stream_id message_id payloads payload_count max ret c' :
  sending_ok limits type flags stream_id message_id payloads payload_count max →
  tr_reactor_sendv_limited max_payload_len accepting free c type flags stream_id message_id payloads payload_count max = (ret, c') →
  c' = c ∧ ret ≠ TR_OK ∨
  ret = TR_OK ∧ ∃ i it, free = Some i ∧ item_ok limits it ∧ fresh_item it ∧ c' = tr_enqueue_tx_item_owner c i it ∧
    item_message it = concat (omap id (map (option_map snd) (take (Z.to_nat payload_count) (default [] payloads)))) ∧
    ti_type it = type ∧ ti_stream_id it = stream_id ∧ ti_message_id it = message_id.
Proof.
  intros Hs E. unfold tr_reactor_sendv_limited in E. case_if_in E; [left; by injection E as <- <-|]. bool_to_prop.
  set (slices := take (Z.to_nat payload_count) (default [] payloads)) in *.
  destruct (check_slices [] slices 0) as [r len] eqn:Ec. destruct (is_ok r) eqn:Er; cbn [negb] in E.
  2:{ injection E as <- <-. left. split; [done|]. intros ->. done. }
  apply is_ok_true in Er as ->. case_if_in E; [left; by injection E as <- <-|].
  destruct free as [i|]; [|left; by injection E as <- <-].
  destruct (new_item_ok limits type flags stream_id message_id payloads payload_count max len Hs) as [Hit Hfr]; try assumption.
  fold slices in Hit, Hfr. destruct (prepare_ok limits _ Hit Hfr eq_refl) as (it & Ep & Hsame & Hprep & Hpos & Hwp & Hkeep). rewrite Ep in E. cbn [is_ok negb] in E.
  change (negb (bool_decide (TR_OK = TR_OK))) with false in E. cbv iota in E.
  destruct accepting; cbn [negb] in E; [|left; by injection E as <- <-]. unfold tr_send_item_owner in E.
  destruct (cx_open c); cbn [negb] in E; [|left; by injection E as <- <-]. injection E as <- <-. right. split; [reflexivity|]. exists i, it.
  split; [reflexivity|]. split; [by apply Hsame|]. split; [split; [exact Hpos|split; [exact Hwp|apply Hprep]]|]. split; [reflexivity|].
  exact Hkeep.
Qed.

Lemma sendv_ok limits max_payload_len accepting free c type flags stream_id message_id payloads payload_count max ret c' :
  tr_reactor_sendv_limited max_payload_len accepting free c type flags stream_id message_id payloads payload_count max = (ret, c') →
  sending_ok limits type flags stream_id message_id payloads payload_count max → (∀ i, free = Some i → cx_items c !! i = None) →
  tx_ok limits c → tx_ok limits c'.
Proof.
  intros E Hs Hfree Hok. destruct (sendv_cases limits _ _ _ _ _ _ _ _ _ _ _ _ _ Hs E) as [[-> _]|(_ & i & it & -> & Hit & Hf & -> & _)]; [done|].
  apply enqueue_ok; auto.
Qed.

(** * Properties *)

Definition tx_empty : tx_connection := mk_tx_connection ∅ [] [] None 0 0 0 0 true [] [] [].

Lemma tx_empty_ok limits : tx_ok limits tx_empty.
Proof.
  split; try done.
  - apply NoDup_nil_2.
  - intros i. cbn [tx_empty cx_fifo cx_items]. rewrite lookup_empty. split; [by intros ?%not_elem_of_nil|by intros []].
  - intros i Hi. by apply not_elem_of_nil in Hi.
  - assert (∀ j n, overtaking [] [] j n → n = 0%nat) as Hno.
    { intros j [|n] X; [reflexivity|]. destruct (X 0%nat ltac:(lia)) as (k & k' & Y). apply overtakes_bound in Y. cbn [length] in Y. lia. }
    exists [], []. split; try constructor; cbn [tx_empty cx_given]; try discriminate.
    + intros j n _ X. rewrite (Hno _ _ X). cbn. lia.
    + intros j n X. rewrite (Hno _ _ X). unfold TR_CONTROL_BURST. lia.
Qed.

(** What the owner of a connection does to its queue: it sends, with items that are not in use,
    and flushes. *)
Inductive tx_step (limits : tr_wire_limits) : tx_connection → tx_connection → Prop :=
| step_send c max_payload_len accepting free type flags stream_id message_id payloads payload_count max ret c' :
    (∀ i, free = Some i → cx_items c !! i = None) →
    sending_ok limits type flags stream_id message_id payloads payload_count max →
    tr_reactor_sendv_limited max_payload_len accepting free c type flags stream_id message_id payloads payload_count max = (ret, c') →
    tx_step limits c c'
| step_flush c kernel fuel calls left calls' left' c' : kernel_ok kernel → 0 ≤ left →
    tr_connection_flush_tx kernel fuel calls left c = Some (calls', left', c') → tx_step limits c c'.

Lemma flush_budget left : 0 ≤ left → let budget := if left <? TR_IO_QUANTUM then left else TR_IO_QUANTUM in
  0 ≤ budget ≤ left ∧ budget ≤ TR_IO_QUANTUM.
Proof. intros H. unfold TR_IO_QUANTUM. cbv zeta. destruct (Z.ltb_spec left (64 * 1024)); lia. Qed.

Lemma step_ok limits c c' : tx_step limits c c' → tx_ok limits c → tx_ok limits c'.
Proof.
  intros [c0 mp acc free ty fl si mi ps n mx ret c1 Hfree Hs E|c0 kernel fuel calls left calls' left' c1 Hk Hl E] Hok; [by apply (sendv_ok limits) in E|].
  unfold tr_connection_flush_tx in E. pose proof (flush_budget left Hl) as Hb. cbv zeta in E, Hb.
  set (budget := if left <? TR_IO_QUANTUM then left else TR_IO_QUANTUM) in *.
  destruct (flush_loop kernel fuel calls budget c0) as [[[k rest] c2]|] eqn:El; [|done]. injection E as <- <- <-.
  destruct (cx_open c0) eqn:Ho; [by apply (flush_loop_ok limits _ _ Hk) in El as (H & _); [|done|lia|done]|].
  destruct fuel; [done|]. cbn [flush_loop] in El. rewrite Ho, orb_true_r in El. by injection El as <- <- <-.
Qed.

Lemma steps_ok limits c : rtc (tx_step limits) tx_empty c → tx_ok limits c.
Proof.
  assert (∀ a b, rtc (tx_step limits) a b → tx_ok limits a → tx_ok limits b) as H.
  { induction 1 as [|a b d Hab _ IH]; [done|]. intros Ha. by apply IH, (step_ok limits a). }
  intros Hc. apply (H tx_empty c Hc), tx_empty_ok.
Qed.

Lemma partial_frame limits c : tx_ok limits c →
  partial c = [] ∨ ∃ frame more, msg_ok limits frame ∧ msg_bytes frame = partial c ++ more ∧ more ≠ [].
Proof.
  intros Hok. unfold partial. destruct (cx_active c) as [i|] eqn:Ea; [|by left]. destruct (tq_active _ _ Hok i Ea) as [Hi _].
  destruct (tq_items _ _ Hok i Hi) as [Hit Hfr]. pose proof Hfr as (Hp & _ & [[_ Hw]|(Hl & _ & _ & Hw)]); [left; by rewrite Hw|].
  right. exists (frame_at (qit c i) (ti_message_pos (qit c i))), (drop (Z.to_nat (ti_wire_pos (qit c i))) (msg_bytes (frame_at (qit c i) (ti_message_pos (qit c i))))).
  split; [by apply frame_at_ok|]. split; [symmetry; apply take_drop|]. intros H. apply (f_equal length) in H. rewrite length_drop in H.
  assert (prepared (qit c i)) as Hprep by (split; [done|lia]). destruct (build_iov_ok limits _ Hit Hprep) as (_ & _ & _ & Htot & _).
  unfold alen in Htot. cbn [length] in H. lia.
Qed.

(** C3: Whatever is queued and however much the kernel takes at a time, what it took is a
    sequence of whole frames that a peer accepts and a beginning of the next one.  Each frame is
    of a queued message, and the frames of a message are sent in their order, all of them when the
    queue is empty.  A frame that is sent while an earlier message is not complete is that of a
    WINDOW_UPDATE, PING or PONG that is a header alone, and the earlier message is DATA; and no more
    than [TR_CONTROL_BURST] frames in a row do so. *)
Theorem tx_stream_exact (limits : tr_wire_limits) (c : tx_connection) (Hrun : rtc (tx_step limits) tx_empty c) :
  let frames := (cx_log c).*2 in
  Forall (msg_ok limits) frames ∧
  (∃ rest, cx_wire c = concat (map msg_bytes frames) ++ rest ∧
    (rest = [] ∨ ∃ frame more, msg_ok limits frame ∧ msg_bytes frame = rest ++ more ∧ more ≠ [])) ∧
  ∃ tagged, tagged.*2 = frames ∧ Forall (λ e, (e.1 < length (cx_given c))%nat) tagged ∧
    (∀ k it, cx_given c !! k = Some it → frames_of k tagged `prefix_of` all_frames it ∧ (cx_fifo c = [] → frames_of k tagged = all_frames it)) ∧
    (∀ j k k' it it', overtakes (cx_given c) tagged j k k' → cx_given c !! k = Some it → cx_given c !! k' = Some it' →
       header_only it ∧ is_data it' = true) ∧
    (∀ j n, overtaking (cx_given c) tagged j n → Z.of_nat n ≤ TR_CONTROL_BURST).
Proof.
  pose proof (steps_ok limits c Hrun) as Hok. cbv zeta. split; [exact (tq_log _ _ Hok)|]. split.
  - exists (partial c). split; [exact (tq_wire _ _ Hok)|exact (partial_frame limits c Hok)].
  - destruct (tq_order _ _ Hok) as (tagged & queue & Ho). exists tagged. split; [exact (or_frames _ _ _ _ _ _ Ho)|]. split; [exact (or_known _ _ _ _ _ _ Ho)|].
    split; [|split; [|exact (or_burst _ _ _ _ _ _ Ho)]].
    + intros k it Hk. split; [by apply (order_prefix _ _ _ _ _ _ _ _ Ho)|]. intros Hf. apply (or_done _ _ _ _ _ _ Ho k it Hk).
      pose proof (or_items _ _ _ _ _ _ Ho) as F. rewrite Hf in F. apply Forall2_nil_inv_r in F as ->. apply not_elem_of_nil.
    + intros j k k' it it' Hov Hk Hk'. destruct (or_overtakes _ _ _ _ _ _ Ho j k k' it it' Hov Hk Hk') as [B D]. split; [by apply bypass_header_only|exact D].
Qed.

(** C2: A fresh parser that reads what a connection sent, in any pieces, hands out exactly the
    frames that are complete, and holds the beginning of the one under way. *)
Theorem tx_frames_received {S : Type} `{!BufferSource S} (c : tx_connection) (old p p' : tr_parser) (s s' : S)
    (limits : option tr_wire_limits) (msgs : list msg)
    (Hs : bs_ok s) (Hinit : tr_parser_init (Some old) true limits = (TR_OK, Some p))
    (Hrun : rtc (tx_step (ps_limits p)) tx_empty c) (Hses : session p s (cx_wire c) msgs p' s') :
  msgs = (cx_log c).*2 ∧ pending p' s' = partial c.
Proof.
  pose proof (steps_ok _ c Hrun) as Hok.
  destruct (init_parser_ok old limits s Hs) as (p0 & E0 & Hpok & Hp & _). rewrite Hinit in E0. injection E0 as <-.
  apply session_inv in Hses as (Hok' & Hlim & Hmsgs & E); [|exact Hpok]. rewrite Hp, (tq_wire _ _ Hok) in E. cbn [app] in E.
  destruct (stream_unique p' s' (ps_limits p) (cx_log c).*2 msgs (partial c) Hok' Hlim (tq_log _ _ Hok) Hmsgs E) as (more & -> & Hrest).
  destruct more as [|m more]; [rewrite app_nil_r; by split|]. exfalso. cbn [map concat] in Hrest. rewrite <- app_assoc in Hrest.
  apply Forall_app in Hmsgs as [_ Hmsgs]. apply Forall_cons in Hmsgs as [Hm _].
  destruct (partial_frame _ c Hok) as [Hp0|(frame & rest & Hf & Hbytes & Hrest0)].
  - rewrite Hp0 in Hrest. apply (f_equal length) in Hrest. unfold msg_bytes in Hrest. rewrite !length_app in Hrest.
    pose proof (length_header (m_header m)) as HL. unfold alen in HL. cbn [length] in Hrest. lia.
  - rewrite Hrest, <- app_assoc in Hbytes. rewrite <- (app_nil_r (msg_bytes frame)) in Hbytes.
    apply (msg_bytes_inj (ps_limits p)) in Hbytes as [_ Hbytes]; [|done|done].
    apply (f_equal length) in Hbytes. rewrite !length_app in Hbytes. cbn [length] in Hbytes. destruct rest; [done|cbn [length] in Hbytes; lia].
Qed.

(** A flush ends, as soon as system calls are not interrupted for ever; it sends no more
    than its quantum and what the turn has left, and it stops only when that is spent, the
    queue is empty, the kernel has no room or the connection failed. *)
Theorem tx_flush_ends (limits : tr_wire_limits) (c : tx_connection) (kernel : nat → list (list Z) → send_answer) (calls quiet : nat) (left : Z)
    (Hrun : rtc (tx_step limits) tx_empty c) (Hopen : cx_open c = true) (Hk : kernel_ok kernel) (Hleft : 0 ≤ left)
    (Hquiet : ∀ k iov, (quiet ≤ k)%nat → kernel k iov ≠ Interrupted) :
  let budget := Z.min left TR_IO_QUANTUM in
  ∃ calls' left' c', tr_connection_flush_tx kernel (S (Z.to_nat budget + (quiet - calls))) calls left c = Some (calls', left', c') ∧
    left - budget ≤ left' ≤ left ∧ (∃ bytes, cx_wire c' = cx_wire c ++ bytes ∧ alen bytes = left - left') ∧
    (cx_open c' = true ∧ (left' = left - budget ∨ cx_fifo c' = [] ∨
       ∃ iov, (calls < calls')%nat ∧ kernel (calls' - 1)%nat iov = Would_block true) ∨
     ∃ k iov, (calls ≤ k < calls')%nat ∧ fatal (kernel k iov)).
Proof.
  intros budget. pose proof (steps_ok limits c Hrun) as Hok. unfold tr_connection_flush_tx.
  replace (if left <? TR_IO_QUANTUM then left else TR_IO_QUANTUM) with budget
    by (unfold budget; destruct (Z.ltb_spec left TR_IO_QUANTUM); lia).
  assert (0 ≤ budget) as Hb by (unfold budget, TR_IO_QUANTUM; lia).
  destruct (flush_loop_ends limits kernel quiet Hk Hquiet (S (Z.to_nat budget + (quiet - calls))) calls budget c Hok Hb ltac:(lia)) as [[[calls' rest] c'] E].
  rewrite E. exists calls', (left - (budget - rest)), c'. split; [reflexivity|].
  apply (flush_loop_ok limits kernel _ Hk) in E as (_ & _ & Hrest & _ & (bytes & Hw & Hl) & Hend); [|done|done|done].
  split; [lia|]. split; [exists bytes; split; [exact Hw|lia]|].
  destruct Hend as [(H1 & H2)|H]; [left|by right]. split; [exact H1|]. destruct H2 as [-> |H2]; [left; lia|by right].
Qed.

(** A message of a DATA item is cut without loss: the payloads of its frames, each of which
    fits the peer's limit, are the message; only the first is marked FIRST and only the last
    is marked LAST.  A control message is one frame. *)
Theorem tx_frames_cut (limits : tr_wire_limits) (it : tr_tx_item) (Hok : item_ok limits it) :
  concat (map m_payload (all_frames it)) = item_message it ∧
  Forall (λ m, msg_ok limits m ∧ frame_of it m) (all_frames it) ∧
  (is_data it = false → length (all_frames it) = 1%nat) ∧
  (is_data it = true → ∀ k m, all_frames it !! k = Some m →
    (has_flag m TR_FRAME_F_FIRST = true ↔ k = 0%nat) ∧ (has_flag m TR_FRAME_F_LAST = true ↔ S k = length (all_frames it))).
Proof.
  destruct (io_length _ _ Hok) as [Hl _]. pose proof (alen_nonneg (item_message it)) as Hn.
  destruct (frames_from_spec limits it Hok (S (Z.to_nat (ti_message_len it))) 0) as (H1 & H2 & H3); [lia|lia|done|].
  unfold all_frames. split; [exact H1|]. split; [|split].
  - apply Forall_and. split; [apply (frames_from_ok limits); [exact Hok|lia]|exact H2].
  - intros Hd. destruct (io_max _ _ Hok). rewrite frames_from_eq by lia. by rewrite Hd.
  - intros Hd k m Hk. destruct (H3 Hd k m Hk) as [G1 G2]. split; [rewrite G1; by intuition|exact G2].
Qed.

(** * A connection that sends five bytes and a PING *)

#[local] Transparent frame_at.

Definition demo_data : tr_tx_item :=
  mk_tx_item (replicate 40 0) [Some [104; 105; 33]; None; Some [34; 35]] TR_FRAME_DATA 0 1 7 5 0 0 3 0 0.

(** The kernel is interrupted once, and takes ten bytes at most. *)
Definition demo_kernel (k : nat) (iov : list (list Z)) : send_answer :=
  match k with 1%nat => Interrupted | _ => Took (Z.min 10 (alen (concat iov))) end.
Definition demo_slices : list (option tx_slice) := [Some (1%nat, [104; 105; 33]); Some (2%nat, [34; 35])].
Definition demo_send_data (c : tx_connection) : tr_status * tx_connection :=
  tr_reactor_sendv_limited 1048576 true (Some 0%nat) c TR_FRAME_DATA 0 1 7 (Some demo_slices) 2 3.
Definition demo_send_ping (c : tx_connection) : tr_status * tx_connection :=
  tr_reactor_sendv_limited 1048576 true (Some 1%nat) c TR_FRAME_PING 0 0 9 None 0 3.
Definition demo_queued : tx_connection := (demo_send_ping (demo_send_data tx_empty).2).2.
Definition demo_flush (left : Z) (c : tx_connection) : nat * Z * tx_connection :=
  default (0%nat, 0, c) (tr_connection_flush_tx demo_kernel 200 0 left c).
Definition demo_part : tx_connection := (demo_flush 60 demo_queued).2.
Definition demo_all : tx_connection := (demo_flush 1000 demo_part).2.

Lemma demo_kernel_ok : kernel_ok demo_kernel.
Proof.
  intros k iov n. pose proof (alen_nonneg (concat iov)). unfold demo_kernel. destruct k as [|[|k]]; intros [= <-]; lia.
Qed.

Lemma demo_kernel_quiet k iov : (2 ≤ k)%nat → demo_kernel k iov ≠ Interrupted.
Proof. intros Hk. destruct k as [|[|k]]; [lia|lia|done]. Qed.

Lemma demo_data_ok : item_ok (ps_limits demo_parser) demo_data.
Proof.
  assert (effective_max_payload (Some (ps_limits demo_parser)) = 1048576) as E by (vm_compute; reflexivity).
  split; rewrite ?E; cbn [demo_data ti_message_len ti_max_frame_payload_len ti_type ti_base_flags ti_stream_id ti_message_id];
    first [unfold u32_ok, u64_ok, TR_FRAME_DATA; lia|apply forallb_bytes_ok; vm_compute; reflexivity
          |split; [vm_compute; reflexivity|lia]|intros [H|H]; discriminate|intros H; discriminate].
Qed.

Lemma demo_sending_ok : sending_ok (ps_limits demo_parser) TR_FRAME_DATA 0 1 7 (Some demo_slices) 2 3 ∧
  sending_ok (ps_limits demo_parser) TR_FRAME_PING 0 0 9 None 0 3.
Proof.
  assert (effective_max_payload (Some (ps_limits demo_parser)) = 1048576) as E by (vm_compute; reflexivity).
  split; split; rewrite ?E; try (unfold u32_ok, u64_ok; lia); try (intros [H|H]; discriminate); try (intros H; discriminate).
  - intros b data Hin. apply forallb_bytes_ok. unfold demo_slices in Hin. cbn [default] in Hin.
    repeat (apply elem_of_cons in Hin as [Hin|Hin]; [injection Hin as -> ->; vm_compute; reflexivity|]). by apply not_elem_of_nil in Hin.
  - intros b data Hin. by apply not_elem_of_nil in Hin.
Qed.

Lemma demo_queued_run : rtc (tx_step (ps_limits demo_parser)) tx_empty demo_queued.
Proof.
  destruct demo_sending_ok as [Hd Hp].
  eapply rtc_l; [apply (step_send _ tx_empty 1048576 true (Some 0%nat) TR_FRAME_DATA 0 1 7 (Some demo_slices) 2 3 TR_OK (demo_send_data tx_empty).2);
    [intros i [= <-]; reflexivity|exact Hd|vm_compute; reflexivity]|].
  apply rtc_once. apply (step_send _ _ 1048576 true (Some 1%nat) TR_FRAME_PING 0 0 9 None 0 3 TR_OK demo_queued);
    [intros i [= <-]; vm_compute; reflexivity|exact Hp|vm_compute; reflexivity].
Qed.

Lemma demo_runs : rtc (tx_step (ps_limits demo_parser)) tx_empty demo_part ∧ rtc (tx_step (ps_limits demo_parser)) tx_empty demo_all.
Proof.
  assert (rtc (tx_step (ps_limits demo_parser)) tx_empty demo_part) as H.
  { eapply rtc_r; [exact demo_queued_run|].
    apply (step_flush _ _ demo_kernel 200 0 60 (demo_flush 60 demo_queued).1.1 (demo_flush 60 demo_queued).1.2);
      [exact demo_kernel_ok|lia|vm_compute; reflexivity]. }
  split; [exact H|]. eapply rtc_r; [exact H|].
  apply (step_flush _ _ demo_kernel 200 0 1000 (demo_flush 1000 demo_part).1.1 (demo_flush 1000 demo_part).1.2);
    [exact demo_kernel_ok|lia|vm_compute; reflexivity].
Qed.

(** The PING goes first, then the two frames; the second flush finds the first frame half sent. *)
Lemma tx_stream_exact_witness :
  (map (λ m, (fh_type (m_header m), m_payload m)) (cx_log demo_all).*2 =
    [(TR_FRAME_PING, []); (TR_FRAME_DATA, [104; 105; 33]); (TR_FRAME_DATA, [34; 35])] ∧
   length (cx_log demo_part) = 1%nat ∧ alen (cx_wire demo_part) = 60) ∧
  ∃ tagged, tagged.*2 = (cx_log demo_all).*2 ∧ ∀ k it, cx_given demo_all !! k = Some it → frames_of k tagged = all_frames it.
Proof.
  split; [split; [vm_compute; reflexivity|split; vm_compute; reflexivity]|].
  destruct (tx_stream_exact (ps_limits demo_parser) demo_all (proj2 demo_runs)) as (_ & _ & tagged & E & _ & F & _).
  exists tagged. split; [exact E|]. intros k it Hk. apply (F k it Hk). vm_compute. reflexivity.
Defined.

(** The peer reads what the first flush sent, in three pieces. *)
Definition demo_pieces : list (list Z) :=
  let b := cx_wire demo_part in [take 7 b; drop 7 (take 40 b); drop 40 b].

Lemma tx_frames_received_witness :
  ∃ p' s', run_reads demo_parser demo_source demo_pieces = Some ((cx_log demo_part).*2, p', s') ∧
    pending p' s' = partial demo_part ∧ alen (partial demo_part) = 20.
Proof.
  assert (is_Some (run_reads demo_parser demo_source demo_pieces)) as [[[msgs p'] s'] E] by (vm_compute; eexists; reflexivity).
  assert (session demo_parser demo_source (cx_wire demo_part) msgs p' s') as Hses.
  { apply run_reads_session in E. assert (concat demo_pieces = cx_wire demo_part) as Ew by (vm_compute; reflexivity). by rewrite Ew in E. }
  destruct (tx_frames_received demo_part demo_parser demo_parser p' demo_source s' None msgs demo_source_ok demo_init (proj1 demo_runs) Hses) as [Em Ep].
  exists p', s'. rewrite <- Em. split; [exact E|]. split; [exact Ep|]. vm_compute. reflexivity.
Defined.

Lemma tx_flush_ends_witness : ∃ calls' left' c', tr_connection_flush_tx demo_kernel 63 0 60 demo_queued = Some (calls', left', c') ∧
  left' = 0 ∧ alen (cx_wire c') = 60.
Proof.
  destruct (tx_flush_ends (ps_limits demo_parser) demo_queued demo_kernel 0 2 60 demo_queued_run eq_refl demo_kernel_ok ltac:(lia) demo_kernel_quiet)
    as (calls' & left' & c' & E & _).
  change (S (Z.to_nat (60 `min` TR_IO_QUANTUM) + (2 - 0))) with 63%nat in E. exists calls', left', c'. split; [exact E|].
  revert E. vm_compute. intros [= <- <- <-]. split; reflexivity.
Defined.

Lemma tx_frames_cut_witness : item_ok (ps_limits demo_parser) demo_data ∧ concat (map m_payload (all_frames demo_data)) = [104; 105; 33; 34; 35] ∧
  length (all_frames demo_data) = 2%nat.
Proof.
  split; [exact demo_data_ok|]. split; [|vm_compute; reflexivity].
  exact (proj1 (tx_frames_cut (ps_limits demo_parser) demo_data demo_data_ok)).
Defined.
