(* ===== verification/Deadline.v ===== *)
(** Deadlines: [src/execution/deadline.c] and [deadline_internal.h].

    An absolute CLOCK_MONOTONIC time or "infinite".  What [clock_gettime] and [poll]
    answer is an argument: [None] is a failing [clock_gettime], and the loop of
    [tr_deadline_poll_fd] runs on the list of what each of its iterations observes. *)
From S2P Require Import Prelude Status.

(** * Data *)

Record timespec := mk_timespec { tv_sec : Z; tv_nsec : Z }.
Record tr_deadline := mk_deadline { absolute : timespec; infinite : bool }.

Definition TR_NSEC_PER_SEC : Z := 1000000000.
Definition TR_NSEC_PER_MSEC : Z := 1000000.
Definition INT_MAX : Z := INT32_MAX.
Definition UINTMAX_MAX : Z := UINT64_MAX.

(** [time_t] is a signed 64-bit integer on LP64; [uintmax_t] is 64 bits wide. *)
Definition CHAR_BIT : Z := 8.
Definition sizeof_time_t : Z := 8.
Definition sizeof_uintmax_t : Z := 8.
Definition time_t_signed : bool := true.

Definition tr_deadline_time_t_max : Z :=
  let bits := sizeof_time_t * CHAR_BIT in
  let max_bits := sizeof_uintmax_t * CHAR_BIT in
  bail (if time_t_signed then Z.shiftr UINTMAX_MAX 1 else UINTMAX_MAX) when (bits >=? max_bits) ;;
  if time_t_signed then Z.shiftl 1 (bits - 1) - 1 else Z.shiftl 1 bits - 1.

(** * Operations *)

(** [clock_gettime(CLOCK_MONOTONIC, &now) != 0 || ...]: a reading the code rejects. *)
Definition clock_bad (now : option timespec) : bool :=
  match now with
  | None => true
  | Some now => (tv_sec now <? 0) || (tv_nsec now <? 0) || (tv_nsec now >=? TR_NSEC_PER_SEC)
  end.

Definition clock_value (now : option timespec) : timespec := default (mk_timespec 0 0) now.

Definition tr_deadline_init_ms (deadline : option tr_deadline) (timeout_ms : Z) (now : option timespec)
    : tr_status * option tr_deadline :=
  bail (TR_ERR_INVALID, None) when (negb (bool_decide (is_Some deadline))) ;;
  bail (TR_ERR_SYS, deadline) when (clock_bad now) ;;
  let now := clock_value now in
  let max_seconds := tr_deadline_time_t_max in
  let seconds := u64 (tv_sec now) in
  let nanos := u64 (u64 (tv_nsec now) + u64 (timeout_ms mod 1000 * TR_NSEC_PER_MSEC)) in
  let add_seconds := u64 (timeout_ms / 1000 + nanos / TR_NSEC_PER_SEC) in
  let nanos := nanos mod TR_NSEC_PER_SEC in
  if add_seconds >? u64 (max_seconds - seconds)
  then (TR_OK, Some (mk_deadline (mk_timespec max_seconds 999999999) false))
  else (TR_OK, Some (mk_deadline (mk_timespec (u64 (seconds + add_seconds)) nanos) false)).

Definition tr_deadline_init_infinite (deadline : option tr_deadline) : option tr_deadline :=
  match deadline with
  | None => None
  | Some _ => Some (mk_deadline (mk_timespec 0 0) true)
  end.

Definition tr_deadline_to_ns (d : tr_deadline) : Z :=
  bail 0 when (infinite d) ;;
  let seconds := u64 (tv_sec (absolute d)) in
  bail UINT64_MAX when (seconds >? UINT64_MAX / 1000000000) ;;
  let nanos := u64 (seconds * 1000000000) in
  bail UINT64_MAX when (u64 (tv_nsec (absolute d)) >? UINT64_MAX - nanos) ;;
  u64 (nanos + u64 (tv_nsec (absolute d))).

(** [*wait_ms] and [*expired]; the three pointers are non-NULL at every call. *)
Definition tr_deadline_poll_ms (d : tr_deadline) (now : option timespec) : tr_status * Z * bool :=
  bail (TR_OK, -1, false) when (infinite d) ;;
  bail (TR_ERR_SYS, 0, false) when (clock_bad now) ;;
  let now := clock_value now in
  let abs := absolute d in
  bail (TR_OK, 0, true) when
    ((tv_sec now >? tv_sec abs) ||
     ((tv_sec now =? tv_sec abs) && (tv_nsec now >=? tv_nsec abs))) ;;
  let seconds := u64 (u64 (tv_sec abs) - u64 (tv_sec now)) in
  let nanos := tv_nsec abs - tv_nsec now in
  let '(seconds, nanos) :=
    if nanos <? 0 then (u64 (seconds - 1), nanos + TR_NSEC_PER_SEC) else (seconds, nanos) in
  bail (TR_OK, INT_MAX, false) when (seconds >? INT_MAX / 1000) ;;
  let millis := u64 (u64 (seconds * 1000) + u64 (u64 (u64 nanos + TR_NSEC_PER_MSEC) - 1) / TR_NSEC_PER_MSEC) in
  (TR_OK, (if millis >? INT_MAX then INT_MAX else millis), false).

Definition tr_deadline_expired (d : tr_deadline) (now : option timespec) : tr_status * bool :=
  let '(ret, _, expired) := tr_deadline_poll_ms d now in (ret, expired).

(** One iteration's observations: the clock, what [poll] returns (and whether a negative
    answer is EINTR), and the clock after a positive answer. *)
Record poll_obs := mk_obs {
  ob_now : option timespec;
  ob_poll : Z;
  ob_eintr : bool;
  ob_after : option timespec
}.

Fixpoint poll_fd_loop (d : tr_deadline) (allow_zero_probe first : bool) (obs : list poll_obs)
    : option tr_status :=
  match obs with
  | [] => None
  | o :: obs =>
      let '(ret, _, expired) := tr_deadline_poll_ms d (ob_now o) in
      bail (Some ret) when (negb (is_ok ret)) ;;
      bail (Some TR_ERR_TIMEOUT) when (expired && negb (first && allow_zero_probe)) ;;
      if ob_poll o >? 0 then
        bail (Some TR_OK) when (first && expired && allow_zero_probe) ;;
        let '(ret, expired) := tr_deadline_expired d (ob_after o) in
        bail (Some ret) when (negb (is_ok ret)) ;;
        Some (if expired then TR_ERR_TIMEOUT else TR_OK)
      else if (ob_poll o =? 0) || ((ob_poll o <? 0) && ob_eintr o)
      then poll_fd_loop d allow_zero_probe false obs
      else Some TR_ERR_SYS
  end.

(** [None]: still in the loop after all of [obs]. *)
Definition tr_deadline_poll_fd (fd : Z) (d : option tr_deadline) (allow_zero_probe : bool)
    (obs : list poll_obs) : option tr_status :=
  match d with
  | Some d =>
      bail (Some TR_ERR_INVALID) when (fd <? 0) ;;
      poll_fd_loop d allow_zero_probe true obs
  | None => Some TR_ERR_INVALID
  end.

(** * Specification *)

(** A time in nanoseconds. *)
Definition ns (t : timespec) : Z := tv_sec t * TR_NSEC_PER_SEC + tv_nsec t.

(** The readings [clock_gettime] gives: normalised and non-negative. *)
Definition time_ok (t : timespec) : Prop := 0 ≤ tv_sec t < 2 ^ 63 ∧ 0 ≤ tv_nsec t < TR_NSEC_PER_SEC.

(** The last representable instant. *)
Definition end_of_time : Z := ns (mk_timespec (2 ^ 63 - 1) 999999999).

(** The milliseconds that cover [n] nanoseconds. *)
Definition ceil_ms (n : Z) : Z := (n + TR_NSEC_PER_MSEC - 1) / TR_NSEC_PER_MSEC.

Lemma clock_bad_ok t : time_ok t → clock_bad (Some t) = false.
Proof. intros [H1 H2]. simpl. repeat (apply orb_false_iff; split); bool_to_prop; lia. Qed.

Lemma time_t_max_value : tr_deadline_time_t_max = 2 ^ 63 - 1.
Proof. reflexivity. Qed.

Ltac time_lia :=
  unfold ns, TR_NSEC_PER_SEC, TR_NSEC_PER_MSEC, INT_MAX in *;
  change (2 ^ 63) with 9223372036854775808 in *; word_lia.

Lemma init_ms_spec old t timeout_ms : time_ok t → u32_ok timeout_ms →
  ∃ d, tr_deadline_init_ms (Some old) timeout_ms (Some t) = (TR_OK, Some d) ∧
    infinite d = false ∧ time_ok (absolute d) ∧
    ns (absolute d) = Z.min (ns t + timeout_ms * TR_NSEC_PER_MSEC) end_of_time.
Proof.
  intros Ht Hms. unfold tr_deadline_init_ms. rewrite clock_bad_ok by done. simpl.
  destruct Ht as [Hs Hn]. rewrite time_t_max_value.
  assert (0 ≤ timeout_ms mod 1000 < 1000 ∧ timeout_ms = 1000 * (timeout_ms / 1000) + timeout_ms mod 1000 ∧
    0 ≤ timeout_ms / 1000 ≤ 4294967) as (Hm & Hdm & Hq).
  { pose proof (Z.div_mod timeout_ms 1000 ltac:(lia)). pose proof (Z.mod_pos_bound timeout_ms 1000 ltac:(lia)).
    split_and!; try word_lia. }
  set (q := timeout_ms / 1000) in *. set (m := timeout_ms mod 1000) in *.
  rewrite (u64_small (tv_sec t)), (u64_small (tv_nsec t)), (u64_small (m * _)) by time_lia.
  rewrite (u64_small (tv_nsec t + _)) by time_lia.
  set (n := tv_nsec t + m * TR_NSEC_PER_MSEC).
  pose proof (Z.div_mod n TR_NSEC_PER_SEC ltac:(done)) as Hdn.
  pose proof (Z.mod_pos_bound n TR_NSEC_PER_SEC ltac:(done)) as Hmn.
  assert (0 ≤ n / TR_NSEC_PER_SEC ≤ 1) as Hqn.
  { split; [apply Z.div_pos; time_lia|]. apply Z.lt_succ_r, Z.div_lt_upper_bound; unfold n; time_lia. }
  rewrite (u64_small (q + _)), (u64_small (2 ^ 63 - 1 - _)) by time_lia.
  destruct (Z.gtb_spec (q + n / TR_NSEC_PER_SEC) (2 ^ 63 - 1 - tv_sec t)).
  - eexists. split_and!; try done. unfold end_of_time, ns in *. simpl. time_lia.
  - rewrite u64_small by time_lia. eexists. split_and!; try done; cbn [absolute].
    + split; cbn; time_lia.
    + unfold end_of_time, ns. cbn [tv_sec tv_nsec]. unfold n in *. time_lia.
Qed.

Lemma poll_ms_spec d t : time_ok (absolute d) → infinite d = false → time_ok t →
  tr_deadline_poll_ms d (Some t) =
  (TR_OK, Z.min INT_MAX (ceil_ms (Z.max 0 (ns (absolute d) - ns t))),
   bool_decide (ns (absolute d) ≤ ns t)).
Proof.
  intros [Hs Hn] Hinf Ht. unfold tr_deadline_poll_ms. rewrite Hinf, clock_bad_ok by done. simpl.
  destruct Ht as [Hts Htn]. set (a := absolute d) in *.
  destruct (_ || _) eqn:E; bool_to_prop.
  { assert (ns a ≤ ns t) by (destruct E; [time_lia|destruct_and?; bool_to_prop; time_lia]).
    rewrite bool_decide_eq_true_2 by done. rewrite Z.max_l by lia. done. }
  assert (ns t < ns a) as Hlt by (destruct H0; bool_to_prop; time_lia).
  rewrite bool_decide_eq_false_2, Z.max_r by lia.
  assert (tv_sec t ≤ tv_sec a) as Hle by (bool_to_prop; lia).
  rewrite (u64_small (tv_sec a)), (u64_small (tv_sec t)) by time_lia.
  rewrite (u64_small (tv_sec a - _)) by time_lia.
  assert (∃ s n, (if tv_nsec a - tv_nsec t <? 0
      then (u64 (tv_sec a - tv_sec t - 1), tv_nsec a - tv_nsec t + TR_NSEC_PER_SEC)
      else (tv_sec a - tv_sec t, tv_nsec a - tv_nsec t)) = (s, n) ∧
    0 ≤ s < 2 ^ 63 ∧ 0 ≤ n < TR_NSEC_PER_SEC ∧ s * TR_NSEC_PER_SEC + n = ns a - ns t)
    as (s & n & -> & Hs' & Hn' & Hsn).
  { destruct (Z.ltb_spec (tv_nsec a - tv_nsec t) 0).
    - rewrite u64_small by time_lia. eexists _, _. split; [done|]. time_lia.
    - eexists _, _. split; [done|]. time_lia. }
  assert (ceil_ms (ns a - ns t) = s * 1000 + ceil_ms n) as Hceil.
  { unfold ceil_ms. rewrite <- Hsn.
    replace (s * TR_NSEC_PER_SEC + n + TR_NSEC_PER_MSEC - 1)
      with (n + TR_NSEC_PER_MSEC - 1 + s * 1000 * TR_NSEC_PER_MSEC) by time_lia.
    rewrite Z.div_add by done. lia. }
  assert (0 ≤ ceil_ms n ≤ 1000) as Hcn.
  { unfold ceil_ms. split; [apply Z.div_pos; time_lia|]. apply Z.lt_succ_r, Z.div_lt_upper_bound; time_lia. }
  rewrite Hceil. change (INT_MAX / 1000) with 2147483.
  destruct (Z.gtb_spec s 2147483); [do 2 f_equal; time_lia|].
  rewrite (u64_small n), (u64_small (n + _)), (u64_small (n + _ - 1)), (u64_small (s * 1000)) by time_lia.
  fold (ceil_ms n). rewrite u64_small by time_lia.
  destruct (Z.gtb_spec (s * 1000 + ceil_ms n) INT_MAX); do 2 f_equal; lia.
Qed.

Lemma to_ns_spec d : time_ok (absolute d) → infinite d = false →
  tr_deadline_to_ns d = Z.min (ns (absolute d)) UINT64_MAX.
Proof.
  intros [Hs Hn] Hinf. unfold tr_deadline_to_ns. rewrite Hinf.
  rewrite (u64_small (tv_sec _)), (u64_small (tv_nsec _)) by time_lia.
  change (UINT64_MAX / 1000000000) with 18446744073.
  destruct (Z.gtb_spec (tv_sec (absolute d)) 18446744073); [time_lia|].
  rewrite (u64_small (tv_sec _ * _)) by time_lia.
  destruct (Z.gtb_spec (tv_nsec (absolute d)) (UINT64_MAX - tv_sec (absolute d) * 1000000000)); [time_lia|].
  rewrite u64_small by time_lia. time_lia.
Qed.

(** * Waiting for a descriptor *)

Definition obs_ok (o : poll_obs) : Prop :=
  (∃ t, ob_now o = Some t ∧ time_ok t) ∧ (∃ t, ob_after o = Some t ∧ time_ok t).

(** The reading has reached the deadline. *)
Definition reached (d : tr_deadline) (now : option timespec) : Prop :=
  ∃ t, now = Some t ∧ ns (absolute d) ≤ ns t.

(** Why the loop returned what it did. *)
Definition poll_outcome (d : tr_deadline) (zero_probe : bool) (obs : list poll_obs) (r : option tr_status) : Prop :=
  match r with
  | Some TR_OK => ∃ o, o ∈ obs ∧ 0 < ob_poll o ∧ (zero_probe = true ∨ ¬ reached d (ob_after o))
  | Some TR_ERR_TIMEOUT => ∃ o, o ∈ obs ∧ (reached d (ob_now o) ∨ 0 < ob_poll o ∧ reached d (ob_after o))
  | Some TR_ERR_SYS => ∃ o, o ∈ obs ∧ ob_poll o < 0 ∧ ob_eintr o = false
  | Some _ => False
  | None => ∀ i o, obs !! i = Some o → ob_poll o ≤ 0 ∧ ((0 < i)%nat → ¬ reached d (ob_now o))
  end.

(** The outcome of the iterations after one that found nothing. *)
Lemma poll_outcome_later d zero_probe o obs r : ob_poll o ≤ 0 → poll_outcome d false obs r →
  (r = None → Forall (λ o, ¬ reached d (ob_now o)) obs) → poll_outcome d zero_probe (o :: obs) r.
Proof.
  intros Hp H Hn. destruct r as [r|]; simpl in *.
  - destruct r; try done; destruct H as (o' & Ho' & H'); exists o';
      (split; [by apply elem_of_cons; right|]); intuition congruence.
  - intros i o' Hi. destruct i as [|i]; simpl in Hi; simplify_eq; [split; [lia|lia]|].
    split; [by apply (H i)|]. intros _.
    apply (proj1 (list.Forall_forall _ _) (Hn eq_refl)). by eapply list_elem_of_lookup_2.
Qed.

Lemma poll_outcome_here d zero_probe o obs r : poll_outcome d zero_probe [o] (Some r) →
  poll_outcome d zero_probe (o :: obs) (Some r).
Proof.
  simpl. intros H. destruct r; try done; destruct H as (o' & ->%list_elem_of_singleton & H');
    exists o; (split; [apply elem_of_cons; auto|done]).
Qed.

Lemma poll_sys d zero_probe o : ob_poll o ≤ 0 →
  (ob_poll o =? 0) || (ob_poll o <? 0) && ob_eintr o = false →
  poll_outcome d zero_probe [o] (Some TR_ERR_SYS).
Proof.
  intros Hp Ec. exists o. split; [apply elem_of_cons; auto|]. bool_to_prop.
  assert (ob_poll o < 0) by lia. destruct_or!; [bool_to_prop; lia|done].
Qed.

Lemma poll_fd_loop_spec d zero_probe first obs : time_ok (absolute d) → infinite d = false →
  Forall obs_ok obs →
  poll_outcome d (first && zero_probe) obs (poll_fd_loop d zero_probe first obs) ∧
  (first && zero_probe = false → poll_fd_loop d zero_probe first obs = None →
    Forall (λ o, ¬ reached d (ob_now o)) obs).
Proof.
  intros Hd Hinf Hobs. revert first. induction Hobs as [|o obs [(t & Ht & Htok) (t' & Ht' & Htok')] Hobs IH];
    intros first; [by split; [intros i o|constructor]|].
  cbn [poll_fd_loop]. unfold tr_deadline_expired. rewrite Ht, Ht', !poll_ms_spec by done.
  change (negb (is_ok TR_OK)) with false. cbv iota.
  destruct (IH false) as [IH1 IH2]. simpl in IH1, IH2. specialize (IH2 eq_refl).
  assert (∀ now u, now = Some u → ¬ ns (absolute d) ≤ ns u → ¬ reached d now) as Hnr
    by (intros now u -> Hu (u2 & E2 & H2); by simplify_eq).
  destruct (decide (ns (absolute d) ≤ ns t)) as [Hr|Hr];
    [rewrite (bool_decide_eq_true_2 (ns _ ≤ ns t)) by done|rewrite (bool_decide_eq_false_2 (ns _ ≤ ns t)) by done].
  - destruct (first && zero_probe) eqn:Ez; cbn [negb andb].
    2: { split; [|done]. apply poll_outcome_here. exists o.
         split; [apply elem_of_cons; auto|]. left. by exists t. }
    apply andb_true_iff in Ez as [-> ->]. simpl. split; [|done].
    destruct (Z.gtb_spec (ob_poll o) 0) as [Hp|Hp].
    + apply poll_outcome_here. exists o. split; [apply elem_of_cons; auto|]. split; [lia|by left].
    + destruct (_ || _) eqn:Ec; [by apply poll_outcome_later|by apply poll_outcome_here, poll_sys].
  - cbn [andb]. rewrite andb_false_r. cbn [andb].
    destruct (Z.gtb_spec (ob_poll o) 0) as [Hp|Hp].
    + destruct (decide (ns (absolute d) ≤ ns t')) as [Hr'|Hr'];
        [rewrite bool_decide_eq_true_2 by done|rewrite bool_decide_eq_false_2 by done];
        (split; [|done]); apply poll_outcome_here; exists o; (split; [apply elem_of_cons; auto|]).
      * right. split; [lia|by exists t'].
      * split; [lia|]. right. by apply (Hnr _ t').
    + destruct (_ || _) eqn:Ec; [|split; [by apply poll_outcome_here, poll_sys|done]].
      split; [by apply poll_outcome_later|]. intros _ E. constructor; [by apply (Hnr _ t)|by apply IH2].
Qed.

(** * Theorems *)

(** A deadline taken [timeout_ms] from now is that instant exactly, saturated at the last
    representable one: a later wait is the remaining time in milliseconds, rounded up and
    capped at INT_MAX, it is over exactly from that instant on, and the reactor's
    nanosecond form is the same instant saturated at UINT64_MAX. *)
Theorem deadline_exact (old : tr_deadline) (t0 t : timespec) (timeout_ms : Z)
    (Ht0 : time_ok t0) (Ht : time_ok t) (Hms : u32_ok timeout_ms) :
  let e := Z.min (ns t0 + timeout_ms * TR_NSEC_PER_MSEC) end_of_time in
  ∃ d, tr_deadline_init_ms (Some old) timeout_ms (Some t0) = (TR_OK, Some d) ∧
    tr_deadline_poll_ms d (Some t) =
      (TR_OK, Z.min INT_MAX (ceil_ms (Z.max 0 (e - ns t))), bool_decide (e ≤ ns t)) ∧
    tr_deadline_expired d (Some t) = (TR_OK, bool_decide (e ≤ ns t)) ∧
    tr_deadline_to_ns d = Z.min e UINT64_MAX.
Proof.
  destruct (init_ms_spec old t0 timeout_ms Ht0 Hms) as (d & E & Hinf & Hd & Hns). simpl.
  exists d. rewrite <- Hns. unfold tr_deadline_expired. rewrite poll_ms_spec, to_ns_spec by done. done.
Qed.

Lemma deadline_exact_witness :
  ∃ d, tr_deadline_init_ms (Some (mk_deadline (mk_timespec 0 0) true)) 1500 (Some (mk_timespec 10 900000000)) =
      (TR_OK, Some d) ∧
    tr_deadline_poll_ms d (Some (mk_timespec 12 1)) = (TR_OK, 400, false).
Proof.
  destruct (deadline_exact (mk_deadline (mk_timespec 0 0) true) (mk_timespec 10 900000000)
    (mk_timespec 12 1) 1500) as (d & E & Hp & _).
  - split; vm_compute; split; (reflexivity || discriminate).
  - split; vm_compute; split; (reflexivity || discriminate).
  - vm_compute. split; (reflexivity || discriminate).
  - exists d. split; [exact E|]. rewrite Hp. vm_compute. reflexivity.
Defined.

(** Waiting for a descriptor under a finite deadline, whatever the clock and [poll] do:
    TIMEOUT only when a reading has reached the deadline, OK only when [poll] reported
    readiness and the deadline had not passed by then (or for the one immediate probe),
    SYS only for a real [poll] failure, and the loop goes on only while no reading after
    the first has reached the deadline and [poll] reports nothing. *)
Theorem deadline_poll_fd_sound (d : tr_deadline) (fd : Z) (zero_probe : bool) (obs : list poll_obs)
    (Hd : time_ok (absolute d)) (Hinf : infinite d = false) (Hfd : 0 ≤ fd) (Hobs : Forall obs_ok obs) :
  poll_outcome d zero_probe obs (tr_deadline_poll_fd fd (Some d) zero_probe obs).
Proof.
  unfold tr_deadline_poll_fd. destruct (Z.ltb_spec fd 0); [lia|].
  by destruct (poll_fd_loop_spec d zero_probe true obs Hd Hinf Hobs).
Qed.

Lemma deadline_poll_fd_sound_witness :
  let d := mk_deadline (mk_timespec 10 0) false in
  let o now r := mk_obs (Some (mk_timespec 9 now)) r true (Some (mk_timespec 9 now)) in
  let obs := [o 5 0; o 6 (-1); mk_obs (Some (mk_timespec 10 0)) 1 false (Some (mk_timespec 10 0))] in
  tr_deadline_poll_fd 3 (Some d) true obs = Some TR_ERR_TIMEOUT ∧
  ∃ o, o ∈ obs ∧ (reached d (ob_now o) ∨ 0 < ob_poll o ∧ reached d (ob_after o)).
Proof.
  intros d o obs. assert (tr_deadline_poll_fd 3 (Some d) true obs = Some TR_ERR_TIMEOUT) as E by reflexivity.
  split; [exact E|].
  assert (∀ s n, 0 ≤ s < 2 ^ 63 → 0 ≤ n < TR_NSEC_PER_SEC → time_ok (mk_timespec s n)) as Hok by done.
  assert (Forall obs_ok obs) as Hobs.
  { repeat constructor; (eexists; split; [reflexivity|apply Hok; vm_compute; split; (reflexivity || discriminate)]). }
  pose proof (deadline_poll_fd_sound d 3 true obs) as H. rewrite E in H. apply H.
  - apply Hok; vm_compute; split; (reflexivity || discriminate).
  - reflexivity.
  - lia.
  - exact Hobs.
Defined.
