(* ===== verification/WaitQueue.v ===== *)
(** What the completion queue and the command queue have in common: a ring buffer under a
    lock, producers that sleep on a condition variable while it is full, an admission
    generation, and a pending wake-up for the consumer.

    [Ring] holds the index arithmetic.  [WaitQueue] is the interface both queues implement
    (CompletionQueue.v, CommandQueue.v); on top of it the blocking push is modelled as
    threads that enter, sleep and wake, interleaved with every other operation, each
    critical section being one atomic step.  The theorems here hold of both queues. *)
From S2P Require Import Prelude Status.

(** * Ring buffers *)

Section Ring.
Context {A : Type} `{!Inhabited A}.
Implicit Types (items : list A) (cap head tail count : Z).

Record ring_ok items cap head tail count : Prop := {
  ring_cap : 0 < cap < 2 ^ 32;
  ring_len : alen items = cap;
  ring_head : 0 ≤ head < cap;
  ring_count : 0 ≤ count ≤ cap;
  ring_tail : tail = (head + count) mod cap
}.

Definition ring_contents items cap head count : list A :=
  map (λ i, items.[(head + Z.of_nat i) mod cap]) (seq 0 (Z.to_nat count)).

(** [index = (index + 1U) % capacity] *)
Definition ring_next cap i : Z := u32 (i + 1) mod cap.

Lemma ring_next_spec cap i : 0 < cap < 2 ^ 32 → 0 ≤ i < cap → ring_next cap i = (i + 1) mod cap.
Proof. intros. unfold ring_next. by rewrite u32_small by word_lia. Qed.

Lemma ring_length items cap head count : 0 ≤ count → length (ring_contents items cap head count) = Z.to_nat count.
Proof. intros. unfold ring_contents. by rewrite length_map, length_seq. Qed.

Lemma ring_empty items cap head count : 0 ≤ count → ring_contents items cap head count = [] ↔ count = 0.
Proof.
  intros H. split; [|by intros ->]. intros E. apply (f_equal length) in E.
  rewrite ring_length in E by done. simpl in E. lia.
Qed.

Lemma mod_shift_ne cap a i j : 0 < cap → 0 ≤ i < cap → 0 ≤ j < cap → i ≠ j →
  (a + i) mod cap ≠ (a + j) mod cap.
Proof.
  intros Hc Hi Hj Hne E. pose proof (Z.div_mod (a + i) cap ltac:(lia)) as H1.
  pose proof (Z.div_mod (a + j) cap ltac:(lia)) as H2. rewrite E in H1.
  assert (i - j = cap * ((a + i) / cap - (a + j) / cap)) as H3 by lia.
  destruct (Z.lt_trichotomy ((a + i) / cap - (a + j) / cap) 0) as [|[|]]; nia.
Qed.

Lemma ring_push items cap head tail count x : ring_ok items cap head tail count → count < cap →
  ring_ok items.[tail <- x] cap head (ring_next cap tail) (count + 1) ∧
  ring_contents items.[tail <- x] cap head (count + 1) = ring_contents items cap head count ++ [x].
Proof.
  intros [Hc Hl Hh Hn Ht] Hlt. pose proof (Z.mod_pos_bound (head + count) cap ltac:(lia)) as Hb.
  split.
  - split; rewrite ?alen_aset; try done; try lia.
    rewrite ring_next_spec, Ht by lia. rewrite Zplus_mod_idemp_l. f_equal. lia.
  - unfold ring_contents. replace (Z.to_nat (count + 1)) with (S (Z.to_nat count)) by lia.
    rewrite seq_S, map_app. f_equal.
    + apply map_ext_in. intros i Hi%in_seq. rewrite aget_aset by (try apply Z.mod_pos_bound; lia).
      destruct (Z.eqb_spec tail ((head + Z.of_nat i) mod cap)) as [E|]; [|done].
      rewrite Ht in E. symmetry in E. by apply mod_shift_ne in E; [|lia..].
    + simpl. rewrite Z2Nat.id by lia. rewrite <- Ht. by rewrite aget_aset_eq by lia.
Qed.

Lemma ring_pop items cap head tail count : ring_ok items cap head tail count → 0 < count →
  ring_ok items cap (ring_next cap head) tail (count - 1) ∧
  ring_contents items cap head count =
    items.[head] :: ring_contents items cap (ring_next cap head) (count - 1).
Proof.
  intros [Hc Hl Hh Hn Ht] Hlt. rewrite ring_next_spec by lia.
  pose proof (Z.mod_pos_bound (head + 1) cap ltac:(lia)). split.
  - split; try done; try lia. rewrite Zplus_mod_idemp_l, Ht. f_equal. lia.
  - unfold ring_contents. replace (Z.to_nat count) with (S (Z.to_nat (count - 1))) by lia. simpl. f_equal.
    + rewrite Z.add_0_r, Z.mod_small; [done|lia].
    + rewrite <- seq_shift, map_map. apply map_ext. intros i. rewrite Zplus_mod_idemp_l. do 2 f_equal. lia.
Qed.

Lemma ring_init cap : 0 < cap < 2 ^ 32 →
  ring_ok (replicate (Z.to_nat cap) inhabitant) cap 0 0 0 ∧
  ring_contents (replicate (Z.to_nat cap) inhabitant) cap 0 0 = [].
Proof.
  intros. split; [|done]. split; try done; try lia. unfold alen. rewrite length_replicate. lia.
Qed.

End Ring.

(** * Admission generations *)

(** [generation++; if (generation == 0) generation = 1;] *)
Definition bump_generation (g : Z) : Z := if u64 (g + 1) =? 0 then 1 else u64 (g + 1).

(** Generations cycle through 1 .. 2^64-1. *)
Lemma bump_iter g n : 1 ≤ g < 2 ^ 64 →
  1 ≤ Nat.iter n bump_generation g < 2 ^ 64 ∧
  (Nat.iter n bump_generation g - 1 = (g - 1 + Z.of_nat n) mod (2 ^ 64 - 1)).
Proof.
  intros Hg. induction n as [|n [IH1 IH2]]; simpl.
  - split; [done|]. rewrite Z.mod_small; lia.
  - set (x := Nat.iter n bump_generation g) in *. unfold bump_generation.
    replace (g - 1 + Z.of_nat (S n)) with (g - 1 + Z.of_nat n + 1) by lia.
    rewrite <- Zplus_mod_idemp_l, <- IH2. destruct (decide (x = 2 ^ 64 - 1)) as [->|].
    + split; [by vm_compute|]. by vm_compute.
    + rewrite u64_small by word_lia. destruct (Z.eqb_spec (x + 1) 0); [lia|].
      split; [lia|]. rewrite Z.mod_small; lia.
Qed.

Lemma bump_iter_ne g n : 1 ≤ g < 2 ^ 64 → (0 < n)%nat → Z.of_nat n < 2 ^ 64 - 1 →
  Nat.iter n bump_generation g ≠ g.
Proof.
  intros Hg Hn Hlt E. destruct (bump_iter g n Hg) as [_ H]. rewrite E in H.
  assert (g - 1 = (g - 1 + 0) mod (2 ^ 64 - 1)) as H0 by (rewrite Z.mod_small; lia).
  rewrite H0 in H at 1. by apply (mod_shift_ne (2 ^ 64 - 1) (g - 1) 0 (Z.of_nat n)) in H; [|lia..].
Qed.

(** * The interface *)

(** What one critical section other than a blocking push does. *)
Record op_effect (Q Item : Type) := mk_effect {
  oe_queue : Q;
  (** it broadcasts the condition variable *)
  oe_broadcast : bool;
  (** it tells its caller to wake the consumer *)
  oe_wake : bool;
  oe_pushed : list Item;
  oe_popped : list Item;
  (** it moves to another admission generation *)
  oe_bump : bool
}.
Arguments mk_effect {Q Item}.
Arguments oe_queue {Q Item}.
Arguments oe_broadcast {Q Item}.
Arguments oe_wake {Q Item}.
Arguments oe_pushed {Q Item}.
Arguments oe_popped {Q Item}.
Arguments oe_bump {Q Item}.

Class WaitQueue (Q Item : Type) := {
  wq_op : Type;
  wq_accepting : Q → bool;
  wq_full : Q → bool;
  wq_generation : Q → Z;
  wq_waiters : Q → Z;
  wq_wake_pending : Q → bool;
  wq_contents : Q → list Item;
  wq_valid : Item → bool;
  wq_observe_full : Q → Item → Q;
  wq_set_waiters : Q → Z → Q;
  wq_enqueue : Q → Item → Q * bool;
  (** the item as the queue stores it *)
  wq_stored : Q → Item → Item;
  wq_exec : wq_op → Q → op_effect Q Item;
  wq_ok : Q → Prop;
  (** what the queue remembers of everything it ever accepted *)
  wq_history : Q → list Item → Prop;
  wq_ok_wake q : wq_ok q → wq_contents q ≠ [] → wq_wake_pending q = true;
  wq_ok_generation q : wq_ok q → 0 ≤ wq_generation q < 2 ^ 64 ∧
    (wq_accepting q = true → 1 ≤ wq_generation q);
  wq_observe_spec q x : wq_ok q → wq_ok (wq_observe_full q x) ∧
    wq_accepting (wq_observe_full q x) = wq_accepting q ∧ wq_full (wq_observe_full q x) = wq_full q ∧
    wq_generation (wq_observe_full q x) = wq_generation q ∧
    wq_waiters (wq_observe_full q x) = wq_waiters q ∧
    wq_wake_pending (wq_observe_full q x) = wq_wake_pending q ∧
    wq_contents (wq_observe_full q x) = wq_contents q ∧
    (∀ y, wq_stored (wq_observe_full q x) y = wq_stored q y) ∧
    (∀ l, wq_history q l → wq_history (wq_observe_full q x) l);
  wq_set_waiters_spec q n : wq_ok q → wq_ok (wq_set_waiters q n) ∧
    wq_accepting (wq_set_waiters q n) = wq_accepting q ∧ wq_full (wq_set_waiters q n) = wq_full q ∧
    wq_generation (wq_set_waiters q n) = wq_generation q ∧ wq_waiters (wq_set_waiters q n) = n ∧
    wq_wake_pending (wq_set_waiters q n) = wq_wake_pending q ∧
    wq_contents (wq_set_waiters q n) = wq_contents q ∧
    (∀ y, wq_stored (wq_set_waiters q n) y = wq_stored q y) ∧
    (∀ l, wq_history q l → wq_history (wq_set_waiters q n) l);
  wq_enqueue_spec q x : wq_ok q → wq_full q = false → wq_accepting q = true →
    wq_ok (wq_enqueue q x).1 ∧ wq_contents (wq_enqueue q x).1 = wq_contents q ++ [wq_stored q x] ∧
    wq_accepting (wq_enqueue q x).1 = true ∧ wq_generation (wq_enqueue q x).1 = wq_generation q ∧
    wq_waiters (wq_enqueue q x).1 = wq_waiters q ∧ wq_wake_pending (wq_enqueue q x).1 = true ∧
    (wq_enqueue q x).2 = negb (wq_wake_pending q) ∧
    (∀ l, wq_history q l → wq_history (wq_enqueue q x).1 (l ++ [wq_stored q x]));
  wq_exec_spec op q : wq_ok q →
    wq_ok (oe_queue (wq_exec op q)) ∧
    wq_contents q ++ oe_pushed (wq_exec op q) =
      oe_popped (wq_exec op q) ++ wq_contents (oe_queue (wq_exec op q)) ∧
    wq_waiters (oe_queue (wq_exec op q)) = wq_waiters q ∧
    oe_wake (wq_exec op q) =
      negb (wq_wake_pending q) && wq_wake_pending (oe_queue (wq_exec op q)) ∧
    wq_generation (oe_queue (wq_exec op q)) =
      (if oe_bump (wq_exec op q) then bump_generation (wq_generation q) else wq_generation q) ∧
    (oe_broadcast (wq_exec op q) = false → wq_waiters q ≠ 0 →
      wq_accepting q = true → wq_full q = true →
      wq_accepting (oe_queue (wq_exec op q)) = true ∧ wq_full (oe_queue (wq_exec op q)) = true) ∧
    (∀ l, wq_history q l → wq_history (oe_queue (wq_exec op q)) (l ++ oe_pushed (wq_exec op q)))
}.

(** * The blocking push *)

Section PushWait.
Context {Q Item : Type} `{!WaitQueue Q Item}.

(** The [while] condition of [push_wait]. *)
Definition wq_blocked (q : Q) (expected_generation : Z) : bool :=
  wq_accepting q && (wq_generation q =? expected_generation) && wq_full q.

(** From the [while] test on: to sleep ([None]) or to a result with [need_wake]. *)
Definition push_wait_check (q : Q) (x : Item) (expected_generation : Z) (waited : bool)
    : Q * option (tr_status * bool) :=
  if wq_blocked q expected_generation then
    let q := if waited then q else wq_observe_full q x in
    (wq_set_waiters q (u32 (wq_waiters q + 1)), None)
  else
    bail (q, Some (TR_ERR_CLOSED, false)) when
      (negb (wq_accepting q) || negb (wq_generation q =? expected_generation)) ;;
    let '(q, wake) := wq_enqueue q x in (q, Some (TR_OK, wake)).

(** Taking the lock for the first time. *)
Definition push_wait_enter (q : Q) (x : Item) (expected_generation : Z) : Q * option (tr_status * bool) :=
  bail (q, Some (TR_ERR_INVALID, false)) when (negb (wq_valid x) || (expected_generation =? 0)) ;;
  push_wait_check q x expected_generation false.

(** [pthread_cond_wait] returns, with the lock and [error]. *)
Definition push_wait_resume (q : Q) (x : Item) (expected_generation : Z) (error : bool)
    : Q * option (tr_status * bool) :=
  let q := wq_set_waiters q (u32 (wq_waiters q - 1)) in
  bail (q, Some (TR_ERR_SYS, false)) when error ;;
  push_wait_check q x expected_generation true.

(** The token a producer samples before it starts. *)
Definition admission_generation (q : Q) : Z := if wq_accepting q then wq_generation q else 0.

(** ** Threads *)

Inductive pw_pc :=
| Pw_start
| Pw_asleep (signalled : bool)
(** returned, in a given epoch *)
| Pw_done (ret : tr_status) (epoch : nat).

Record producer := mk_producer { pr_item : Item; pr_gen : Z; pr_born : nat; pr_pc : pw_pc }.

Record wq_sys := mk_wq_sys {
  sy_queue : Q;
  sy_producers : list producer;
  (** everything accepted and everything handed to the consumer, in order *)
  sy_accepted : list Item;
  sy_delivered : list Item;
  (** how often a caller was told to wake the consumer, and how often the pending wake-up
      was withdrawn *)
  sy_wakes : Z;
  sy_drains : Z;
  (** how often the generation moved *)
  sy_epoch : nat
}.

Definition set_pc (t : producer) (pc : pw_pc) : producer :=
  mk_producer (pr_item t) (pr_gen t) (pr_born t) pc.

Definition signal (t : producer) : producer :=
  match pr_pc t with Pw_asleep _ => set_pc t (Pw_asleep true) | _ => t end.

(** The outcome of thread [i]'s critical section, entered with queue [q0]. *)
Definition settle (s : wq_sys) (i : nat) (t : producer) (out : Q * option (tr_status * bool)) : wq_sys :=
  let '(q, res) := out in
  match res with
  | None =>
      mk_wq_sys q (<[i := set_pc t (Pw_asleep false)]> (sy_producers s)) (sy_accepted s)
        (sy_delivered s) (sy_wakes s) (sy_drains s) (sy_epoch s)
  | Some (ret, wake) =>
      mk_wq_sys q (<[i := set_pc t (Pw_done ret (sy_epoch s))]> (sy_producers s))
        (if is_ok ret then sy_accepted s ++ [wq_stored (sy_queue s) (pr_item t)] else sy_accepted s)
        (sy_delivered s) (sy_wakes s + (if wake then 1 else 0)) (sy_drains s) (sy_epoch s)
  end.

Definition producer_step (i : nat) (error : bool) (s : wq_sys) : wq_sys :=
  match sy_producers s !! i with
  | Some t =>
      match pr_pc t with
      | Pw_start => settle s i t (push_wait_enter (sy_queue s) (pr_item t) (pr_gen t))
      | Pw_asleep _ => settle s i t (push_wait_resume (sy_queue s) (pr_item t) (pr_gen t) error)
      | Pw_done _ _ => s
      end
  | None => s
  end.

Definition env_step (op : wq_op) (s : wq_sys) : wq_sys :=
  let e := wq_exec op (sy_queue s) in
  mk_wq_sys (oe_queue e)
    (if oe_broadcast e then map signal (sy_producers s) else sy_producers s)
    (sy_accepted s ++ oe_pushed e) (sy_delivered s ++ oe_popped e)
    (sy_wakes s + (if oe_wake e then 1 else 0))
    (sy_drains s + (if wq_wake_pending (sy_queue s) && negb (wq_wake_pending (oe_queue e)) then 1 else 0))
    (if oe_bump e then S (sy_epoch s) else sy_epoch s).

(** A new producer samples its token now and starts later. *)
Definition spawn_producer (x : Item) (s : wq_sys) : wq_sys :=
  mk_wq_sys (sy_queue s)
    (sy_producers s ++ [mk_producer x (admission_generation (sy_queue s)) (sy_epoch s) Pw_start])
    (sy_accepted s) (sy_delivered s) (sy_wakes s) (sy_drains s) (sy_epoch s).

(** Fewer than 2^32 producers exist, so the uint32 count of waiters cannot wrap. *)
Inductive wq_reachable (q0 : Q) : wq_sys → Prop :=
| Wr_init : wq_reachable q0 (mk_wq_sys q0 [] [] [] 0 0 0)
| Wr_spawn s x : wq_reachable q0 s → alen (sy_producers s) < UINT32_MAX →
    wq_reachable q0 (spawn_producer x s)
| Wr_producer s i error : wq_reachable q0 s → wq_reachable q0 (producer_step i error s)
| Wr_env s op : wq_reachable q0 s → wq_reachable q0 (env_step op s).

(** * Invariant *)

Definition asleep (t : producer) : Z := match pr_pc t with Pw_asleep _ => 1 | _ => 0 end.
Definition b2z (b : bool) : Z := if b then 1 else 0.

(** The generation [k] moves after [g0]. *)
Definition gen_at (g0 : Z) (k : nat) : Z := Nat.iter k bump_generation g0.

Definition producer_ok (g0 : Z) (epoch : nat) (t : producer) : Prop :=
  (pr_born t ≤ epoch)%nat ∧ (pr_gen t = 0 ∨ pr_gen t = gen_at g0 (pr_born t) ∧ 1 ≤ pr_gen t) ∧
  match pr_pc t with
  | Pw_done TR_OK e => (pr_born t ≤ e ≤ epoch)%nat ∧ gen_at g0 e = pr_gen t ∧ 1 ≤ pr_gen t
  | _ => True
  end.

Record wq_inv (q0 : Q) (s : wq_sys) : Prop := {
  wi_ok : wq_ok (sy_queue s);
  wi_count : alen (sy_producers s) ≤ UINT32_MAX;
  wi_gen : wq_generation (sy_queue s) = gen_at (wq_generation q0) (sy_epoch s);
  wi_producers : Forall (producer_ok (wq_generation q0) (sy_epoch s)) (sy_producers s);
  wi_waiters : wq_waiters (sy_queue s) = zsum asleep (sy_producers s);
  wi_asleep : Forall (λ t, pr_pc t = Pw_asleep false →
    wq_accepting (sy_queue s) = true ∧ wq_full (sy_queue s) = true) (sy_producers s);
  wi_fifo : sy_accepted s = sy_delivered s ++ wq_contents (sy_queue s);
  wi_wakes : sy_wakes s = sy_drains s + b2z (wq_wake_pending (sy_queue s));
  wi_history : wq_history (sy_queue s) (sy_accepted s)
}.

Lemma asleep_range l : 0 ≤ zsum asleep l ≤ alen l.
Proof.
  unfold alen. induction l as [|t l IH]; simpl; [lia|].
  assert (0 ≤ asleep t ≤ 1) by (unfold asleep; destruct (pr_pc t); lia). lia.
Qed.

Lemma gen_at_range g0 k : 0 ≤ g0 < 2 ^ 64 → 0 ≤ gen_at g0 k < 2 ^ 64.
Proof.
  intros. unfold gen_at. induction k as [|k IH]; [done|]. simpl. unfold bump_generation.
  pose proof (u64_range (Nat.iter k bump_generation g0 + 1)) as Hr. unfold u64_ok in Hr.
  case_if; [lia|done].
Qed.

(** What a critical section of [push_wait] by thread [t] may do to the queue. *)
Definition pw_effect (q : Q) (t : producer) (out : Q * option (tr_status * bool)) : Prop :=
  wq_ok out.1 ∧ wq_generation out.1 = wq_generation q ∧
  match out.2 with
  | None => wq_waiters out.1 = wq_waiters q - asleep t + 1 ∧ wq_contents out.1 = wq_contents q ∧
      wq_wake_pending out.1 = wq_wake_pending q ∧ wq_accepting q = true ∧ wq_full q = true ∧
      wq_accepting out.1 = true ∧ wq_full out.1 = true ∧ (∀ l, wq_history q l → wq_history out.1 l)
  | Some (ret, wake) =>
      wq_waiters out.1 = wq_waiters q - asleep t ∧
      (if is_ok ret then
         wq_contents out.1 = wq_contents q ++ [wq_stored q (pr_item t)] ∧ wq_wake_pending out.1 = true ∧
         wake = negb (wq_wake_pending q) ∧ wq_generation q = pr_gen t ∧ 1 ≤ pr_gen t ∧ wq_full q = false ∧
         (∀ l, wq_history q l → wq_history out.1 (l ++ [wq_stored q (pr_item t)]))
       else
         wq_contents out.1 = wq_contents q ∧ wq_wake_pending out.1 = wq_wake_pending q ∧ wake = false ∧
         wq_accepting out.1 = wq_accepting q ∧ wq_full out.1 = wq_full q ∧
         (∀ l, wq_history q l → wq_history out.1 l))
  end.

(** The same queue but for bookkeeping of waiters and full events. *)
Definition same_but_waiters (q q1 : Q) : Prop :=
  wq_ok q1 ∧ wq_accepting q1 = wq_accepting q ∧ wq_full q1 = wq_full q ∧
  wq_generation q1 = wq_generation q ∧ wq_wake_pending q1 = wq_wake_pending q ∧
  wq_contents q1 = wq_contents q ∧ (∀ y, wq_stored q1 y = wq_stored q y) ∧
  (∀ l, wq_history q l → wq_history q1 l).

Lemma check_effect q q1 t waited : same_but_waiters q q1 → 0 ≤ wq_waiters q1 < UINT32_MAX →
  wq_waiters q1 = wq_waiters q - asleep t →
  pw_effect q t (push_wait_check q1 (pr_item t) (pr_gen t) waited).
Proof.
  intros (Hok & Ha & Hf & Hg & Hp & Hc & Hst & Hh) Hw Hw1. unfold push_wait_check.
  destruct (wq_blocked q1 (pr_gen t)) eqn:Hb.
  - apply andb_true_iff in Hb as [[Hb1 Hb2]%andb_true_iff Hb3].
    set (q2 := if waited then q1 else wq_observe_full q1 (pr_item t)).
    assert (wq_waiters q2 = wq_waiters q1 ∧ same_but_waiters q q2) as [Hw2 (Hok2 & Ha2 & Hf2 & Hg2 & Hp2 & Hc2 & Hs2 & Hh2)].
    { unfold q2. destruct waited; [done|].
      destruct (wq_observe_spec q1 (pr_item t) Hok) as (H1 & H2 & H3 & H4 & H5 & H6 & H7 & H8 & H9).
      split; [done|]. split_and!; try congruence; auto. }
    destruct (wq_set_waiters_spec q2 (u32 (wq_waiters q2 + 1)) Hok2) as (H1 & H2 & H3 & H4 & H5 & H6 & H7 & H8 & H9).
    split; [done|]. split; [simpl; congruence|]. simpl. split_and!; try congruence; auto.
    rewrite H5, u32_small by word_lia. lia.
  - destruct (negb (wq_accepting q1) || negb (wq_generation q1 =? pr_gen t)) eqn:Hcl.
    + split; [done|]. split; [done|]. simpl. by split_and!.
    + apply orb_false_iff in Hcl as [Ha1%negb_false_iff Hg1%negb_false_iff].
      unfold wq_blocked in Hb. rewrite Ha1, Hg1 in Hb. simpl in Hb.
      destruct (wq_enqueue_spec q1 (pr_item t) Hok Hb Ha1) as (H1 & H2 & H3 & H4 & H5 & H6 & H7 & H8).
      destruct (wq_enqueue q1 (pr_item t)) as [q2 wake]. simpl in *. apply Z.eqb_eq in Hg1.
      split; [done|]. split; [simpl; congruence|]. simpl. split; [lia|].
      pose proof (proj2 (wq_ok_generation q1 Hok) Ha1). change (is_ok TR_OK) with true. cbv iota.
      split_and!; try congruence; try lia. intros l Hl. rewrite <- Hst. auto.
Qed.

Lemma enter_effect q t : wq_ok q → 0 ≤ wq_waiters q < UINT32_MAX → pr_pc t = Pw_start →
  pw_effect q t (push_wait_enter q (pr_item t) (pr_gen t)).
Proof.
  intros Hok Hw Hpc. unfold push_wait_enter. assert (asleep t = 0) as Ha by (unfold asleep; by rewrite Hpc).
  destruct (_ || _).
  - split; [done|]. split; [done|]. simpl. split_and!; try done. lia.
  - apply check_effect; [by split_and!|done|lia].
Qed.

Lemma resume_effect q t error sig : wq_ok q → 0 < wq_waiters q ≤ UINT32_MAX → pr_pc t = Pw_asleep sig →
  pw_effect q t (push_wait_resume q (pr_item t) (pr_gen t) error).
Proof.
  intros Hok Hw Hpc. unfold push_wait_resume. assert (asleep t = 1) as Ha by (unfold asleep; by rewrite Hpc).
  destruct (wq_set_waiters_spec q (u32 (wq_waiters q - 1)) Hok) as (H1 & H2 & H3 & H4 & H5 & H6 & H7 & H8 & H9).
  rewrite u32_small in * by word_lia. destruct error.
  - split; [done|]. split; [done|]. simpl. split_and!; try done. lia.
  - apply check_effect; [by split_and!|lia|lia].
Qed.

Lemma producer_ok_later g0 e e' t : (e ≤ e')%nat → producer_ok g0 e t → producer_ok g0 e' t.
Proof.
  intros He (H1 & H2 & H3). split; [lia|]. split; [done|]. destruct (pr_pc t) as [| |[]]; try done. lia.
Qed.

Lemma settle_inv q0 s i t out : wq_inv q0 s → sy_producers s !! i = Some t → pw_effect (sy_queue s) t out →
  wq_inv q0 (settle s i t out).
Proof.
  intros [] Ei (Hok' & Hg' & He). destruct out as [q' res]. simpl in Hok', Hg', He.
  pose proof (Forall_lookup_1 _ _ _ _ wi_producers0 Ei) as (Hborn & Hgen & _).
  unfold settle. destruct res as [[ret wake]|].
  - destruct He as [Hw He]. split; simpl; try done.
    + unfold alen in *. by rewrite length_insert.
    + congruence.
    + apply Forall_insert; [done|]. split; [done|]. split; [done|]. simpl. destruct ret; try done.
      simpl in He. destruct He as (_ & _ & _ & Hgq & H1 & _). split; [lia|]. split; [|done]. congruence.
    + rewrite (zsum_insert _ _ _ t) by done. unfold asleep at 3. simpl. lia.
    + apply Forall_insert; [|done]. destruct (is_ok ret); [destruct He as (_ & _ & _ & _ & _ & Hf & _)|
        destruct He as (_ & _ & _ & Ha & Hf & _)].
      * eapply Forall_impl; [exact wi_asleep0|]. intros x Hx Hpc. destruct (Hx Hpc). congruence.
      * eapply Forall_impl; [exact wi_asleep0|]. intros x Hx Hpc. destruct (Hx Hpc). split; congruence.
    + destruct (is_ok ret).
      * destruct He as (-> & _). by rewrite wi_fifo0, app_assoc.
      * destruct He as (-> & _). done.
    + destruct (is_ok ret).
      * destruct He as (_ & -> & -> & _). rewrite wi_wakes0. destruct (wq_wake_pending (sy_queue s)); simpl; lia.
      * destruct He as (_ & -> & -> & _). lia.
    + destruct (is_ok ret).
      * destruct He as (_ & _ & _ & _ & _ & _ & Hh). by apply Hh.
      * destruct He as (_ & _ & _ & _ & _ & Hh). by apply Hh.
  - destruct He as (Hw & Hc & Hp & Ha & Hf & Ha' & Hf' & Hh). split; simpl; try done.
    + unfold alen in *. by rewrite length_insert.
    + congruence.
    + apply Forall_insert; [done|]. by split_and!.
    + rewrite (zsum_insert _ _ _ t) by done. unfold asleep at 3. simpl. lia.
    + apply Forall_insert; [|done]. eapply Forall_impl; [exact wi_asleep0|]. done.
    + congruence.
    + congruence.
    + by apply Hh.
Qed.

Lemma zsum_signal l : zsum asleep (map signal l) = zsum asleep l.
Proof.
  rewrite zsum_map. induction l as [|t l IH]; simpl; [done|]. rewrite IH. f_equal.
  unfold signal, asleep. by destruct (pr_pc t) eqn:E; simpl; rewrite ?E.
Qed.

Lemma signal_ok g0 e t : producer_ok g0 e t → producer_ok g0 e (signal t).
Proof. unfold signal, producer_ok. destruct (pr_pc t) eqn:E; simpl; rewrite ?E; tauto. Qed.

Lemma env_inv q0 s op : wq_inv q0 s → wq_inv q0 (env_step op s).
Proof.
  intros []. destruct (wq_exec_spec op (sy_queue s) wi_ok0) as (Hok & Hc & Hw & Hwake & Hg & Hb & Hh).
  unfold env_step. set (e := wq_exec op (sy_queue s)) in *. split; simpl.
  - done.
  - unfold alen in *. destruct (oe_broadcast e); by rewrite ?length_map.
  - rewrite Hg, wi_gen0. by destruct (oe_bump e).
  - assert (Forall (producer_ok (wq_generation q0) (if oe_bump e then S (sy_epoch s) else sy_epoch s))
      (sy_producers s)) as H.
    { eapply Forall_impl; [exact wi_producers0|]. intros t. apply producer_ok_later. destruct (oe_bump e); lia. }
    destruct (oe_broadcast e); [|done]. apply Forall_map. eapply Forall_impl; [exact H|].
    intros t. apply signal_ok.
  - rewrite Hw, wi_waiters0. destruct (oe_broadcast e); [by rewrite zsum_signal|done].
  - destruct (oe_broadcast e) eqn:Eb.
    + apply Forall_map, list.Forall_forall. intros t _ Hpc. unfold signal in Hpc.
      destruct (pr_pc t) eqn:E; simpl in Hpc; congruence.
    + eapply list.Forall_forall. intros t Ht Hpc.
      destruct (proj1 (list.Forall_forall _ _) wi_asleep0 t Ht Hpc) as [Ha Hf].
      apply Hb; try done. rewrite wi_waiters0. apply list_elem_of_lookup in Ht as [k Hk].
      pose proof (zsum_lookup_le asleep _ _ _ (λ y _, ltac:(unfold asleep; destruct (pr_pc y); lia)) Hk).
      unfold asleep in H at 1. rewrite Hpc in H. lia.
  - by rewrite wi_fifo0, <- !app_assoc, Hc.
  - rewrite Hwake, wi_wakes0. destruct (wq_wake_pending (sy_queue s)), (wq_wake_pending (oe_queue e)); simpl; lia.
  - by apply Hh.
Qed.

Lemma wq_reachable_inv q0 s : wq_ok q0 → wq_contents q0 = [] → wq_waiters q0 = 0 →
  wq_wake_pending q0 = false → wq_history q0 [] → wq_reachable q0 s → wq_inv q0 s.
Proof.
  intros H1 H2 H3 H4 H5. induction 1 as [|s x Hr IH Hlt|s i error Hr IH|s op Hr IH].
  - split; simpl; try done; rewrite ?H2, ?H4; done.
  - pose proof IH as []. unfold spawn_producer. split; simpl; try done.
    + unfold alen in *. rewrite length_app. simpl. lia.
    + apply Forall_app. split; [done|]. constructor; [|done]. split; [done|]. split; [|done]. simpl.
      unfold admission_generation. destruct (wq_accepting (sy_queue s)) eqn:Ea; [right|by left].
      split; [done|]. by apply (proj2 (wq_ok_generation _ wi_ok0)).
    + rewrite zsum_app. simpl. unfold asleep at 2. simpl. lia.
    + apply Forall_app. split; [done|]. by constructor.
  - unfold producer_step. destruct (sy_producers s !! i) as [t|] eqn:Ei; [|done].
    pose proof (asleep_range (sy_producers s)) as Hrange.
    pose proof (wi_waiters _ _ IH) as Hw. pose proof (wi_count _ _ IH) as Hcnt.
    assert (∀ y, y ∈ sy_producers s → 0 ≤ asleep y) as Hpos
      by (intros y _; unfold asleep; destruct (pr_pc y); lia).
    pose proof (zsum_lookup_le asleep _ _ _ Hpos Ei) as Hle.
    destruct (pr_pc t) eqn:Epc; [| |done].
    + apply settle_inv; [done|done|]. apply enter_effect; [apply IH| |done].
      split; [lia|]. pose proof (zsum_insert asleep _ _ t (set_pc t (Pw_asleep false)) Ei) as Hins.
      pose proof (asleep_range (<[i:=set_pc t (Pw_asleep false)]> (sy_producers s))) as Hr'.
      unfold alen in *. rewrite length_insert in Hr'.
      assert (asleep t = 0) by (unfold asleep; by rewrite Epc).
      assert (asleep (set_pc t (Pw_asleep false)) = 1) by done. lia.
    + apply settle_inv; [done|done|]. eapply resume_effect; [apply IH| |done].
      assert (asleep t = 1) by (unfold asleep; by rewrite Epc). lia.
  - by apply env_inv.
Qed.

(** A producer that gets in does so in the epoch it sampled its token in, as long as the
    generation has not gone all the way round. *)
Lemma accepted_same_epoch q0 s t e : wq_inv q0 s → 0 ≤ wq_generation q0 < 2 ^ 64 →
  t ∈ sy_producers s → pr_pc t = Pw_done TR_OK e → Z.of_nat (sy_epoch s) < 2 ^ 64 - 1 →
  e = pr_born t.
Proof.
  intros Hinv Hg0 Ht Hpc Hlt.
  destruct (proj1 (list.Forall_forall _ _) (wi_producers _ _ Hinv) t Ht) as (Hb & Hgen & Hd).
  rewrite Hpc in Hd. destruct Hd as (Hbe & Heq & H1). destruct Hgen as [|[Hgen _]]; [lia|].
  pose proof (gen_at_range (wq_generation q0) (pr_born t) Hg0).
  destruct (decide (e = pr_born t)) as [|Hne]; [done|]. exfalso.
  apply (bump_iter_ne (pr_gen t) (e - pr_born t)); [lia|lia|lia|].
  rewrite Hgen. unfold gen_at in *. rewrite <- Nat.iter_add.
  replace (e - pr_born t + pr_born t)%nat with e by lia. congruence.
Qed.

End PushWait.
