(* ===== verification/CompletionQueue.v ===== *)
(** Completion queue: [src/execution/completion_queue.{h,c}].

    A bounded ring of completions with an admission gate.  Every function that takes the
    lock is one operation on the queue; [tr_completion_queue_push_wait] is the blocking
    push of WaitQueue.v over them, and that file's interface is implemented here. *)
From S2P Require Import Prelude Status Observability WaitQueue.

(** * Data *)

(** A callback (its address, 0 for NULL) and its argument. *)
Record tr_completion := mk_completion { cp_fn : Z; cp_arg : Z }.

#[export] Instance tr_completion_inhabited : Inhabited tr_completion := populate (mk_completion 0 0).

Record tr_completion_queue := mk_cq {
  cq_items : list tr_completion;
  cq_capacity : Z;
  cq_head : Z;
  cq_tail : Z;
  cq_count : Z;
  cq_peak_count : Z;
  cq_full_events : Z;
  cq_admission_generation : Z;
  cq_waiters : Z;
  cq_accepting : bool;
  cq_wake_pending : bool
}.

Definition zero_cq : tr_completion_queue := mk_cq [] 0 0 0 0 0 0 0 0 false false.

(** * Operations *)

Definition tr_completion_queue_init (queue : option tr_completion_queue) (capacity : Z)
    (calloc_ok mutex_ok cond_ok : bool) : tr_status * option tr_completion_queue :=
  bail (TR_ERR_INVALID, queue) when (negb (bool_decide (is_Some queue)) || (capacity =? 0)) ;;
  bail (TR_ERR_NOMEM, Some zero_cq) when (negb calloc_ok) ;;
  bail (TR_ERR_INVALID, Some zero_cq) when (negb mutex_ok) ;;
  bail (TR_ERR_INVALID, Some zero_cq) when (negb cond_ok) ;;
  (TR_OK, Some (mk_cq (replicate (Z.to_nat capacity) inhabitant) capacity 0 0 0 0 0 0 0 false false)).

Definition tr_completion_queue_destroy (queue : option tr_completion_queue)
    : option tr_completion_queue :=
  match queue with None => None | Some _ => Some zero_cq end.

Definition set_admission (q : tr_completion_queue) (generation : Z) (accepting : bool)
    : tr_completion_queue :=
  mk_cq (cq_items q) (cq_capacity q) (cq_head q) (cq_tail q) (cq_count q) (cq_peak_count q)
    (cq_full_events q) generation (cq_waiters q) accepting (cq_wake_pending q).

Definition cq_open (q : tr_completion_queue) : tr_completion_queue :=
  set_admission q (bump_generation (cq_admission_generation q)) true.

(** The queue after [close]; its sleepers are woken. *)
Definition cq_close (q : tr_completion_queue) : tr_completion_queue :=
  set_admission q (bump_generation (cq_admission_generation q)) false.

Definition tr_completion_queue_open (queue : option tr_completion_queue)
    : tr_status * option tr_completion_queue :=
  match queue with None => (TR_ERR_INVALID, None) | Some q => (TR_OK, Some (cq_open q)) end.

Definition tr_completion_queue_close (queue : option tr_completion_queue)
    : option tr_completion_queue :=
  match queue with None => None | Some q => Some (cq_close q) end.

Definition tr_completion_queue_admission_generation (queue : option tr_completion_queue) : Z :=
  match queue with
  | None => 0
  | Some q => if cq_accepting q then cq_admission_generation q else 0
  end.

Definition cq_count_full (q : tr_completion_queue) : tr_completion_queue :=
  mk_cq (cq_items q) (cq_capacity q) (cq_head q) (cq_tail q) (cq_count q) (cq_peak_count q)
    (u64 (cq_full_events q + 1)) (cq_admission_generation q) (cq_waiters q) (cq_accepting q)
    (cq_wake_pending q).

Definition cq_set_waiters (q : tr_completion_queue) (n : Z) : tr_completion_queue :=
  mk_cq (cq_items q) (cq_capacity q) (cq_head q) (cq_tail q) (cq_count q) (cq_peak_count q)
    (cq_full_events q) (cq_admission_generation q) n (cq_accepting q) (cq_wake_pending q).

(** The tail of both pushes: store, count, and decide on the wake-up. *)
Definition cq_store (q : tr_completion_queue) (completion : tr_completion)
    : tr_completion_queue * bool :=
  let count := u32 (cq_count q + 1) in
  let wake := negb (cq_wake_pending q) in
  (mk_cq (cq_items q).[cq_tail q <- completion] (cq_capacity q) (cq_head q)
     (ring_next (cq_capacity q) (cq_tail q)) count
     (tr_observe_high_water_u32 (cq_peak_count q) count) (cq_full_events q)
     (cq_admission_generation q) (cq_waiters q) (cq_accepting q) true,
   wake).

Definition cq_push (q : tr_completion_queue) (completion : tr_completion)
    : tr_status * tr_completion_queue * bool :=
  bail (TR_ERR_CLOSED, q, false) when (negb (cq_accepting q)) ;;
  bail (TR_AGAIN, cq_count_full q, false) when (cq_count q =? cq_capacity q) ;;
  let '(q, wake) := cq_store q completion in (TR_OK, q, wake).

Definition tr_completion_queue_push (queue : option tr_completion_queue)
    (completion : option tr_completion) : tr_status * option tr_completion_queue * bool :=
  match queue, completion with
  | Some q, Some c =>
      bail (TR_ERR_INVALID, queue, false) when (cp_fn c =? 0) ;;
      let '(ret, q, wake) := cq_push q c in (ret, Some q, wake)
  | _, _ => (TR_ERR_INVALID, queue, false)
  end.

(** The popping loop; [fuel] is [max_completions]. *)
Fixpoint cq_pop_loop (fuel : nat) (q : tr_completion_queue) : tr_completion_queue * list tr_completion :=
  match fuel with
  | O => (q, [])
  | S fuel =>
      bail (q, []) when (cq_count q =? 0) ;;
      let x := (cq_items q).[cq_head q] in
      let q :=
        mk_cq (cq_items q) (cq_capacity q) (ring_next (cq_capacity q) (cq_head q)) (cq_tail q)
          (u32 (cq_count q - 1)) (cq_peak_count q) (cq_full_events q) (cq_admission_generation q)
          (cq_waiters q) (cq_accepting q) (cq_wake_pending q) in
      let '(q, out) := cq_pop_loop fuel q in (q, x :: out)
  end.

(** The queue, what was popped, [*has_more], and whether the sleepers are woken. *)
Definition cq_pop_batch (q : tr_completion_queue) (max_completions : nat)
    : tr_completion_queue * list tr_completion * bool * bool :=
  let '(q, out) := cq_pop_loop max_completions q in
  let more := negb (cq_count q =? 0) in
  let q :=
    if negb more then
      mk_cq (cq_items q) (cq_capacity q) (cq_head q) (cq_tail q) (cq_count q) (cq_peak_count q)
        (cq_full_events q) (cq_admission_generation q) (cq_waiters q) (cq_accepting q) false
    else q in
  (q, out, more, negb (bool_decide (out = [])) && negb (cq_waiters q =? 0)).

Definition tr_completion_queue_pop_batch (queue : option tr_completion_queue) (out : bool)
    (max_completions : nat) : option tr_completion_queue * list tr_completion * bool * bool :=
  match queue with
  | Some q =>
      bail (queue, [], false, false) when (negb out) ;;
      let '(q, popped, more, broadcast) := cq_pop_batch q max_completions in
      (Some q, popped, more, broadcast)
  | None => (None, [], false, false)
  end.

(** * The invariant *)

Definition cq_contents (q : tr_completion_queue) : list tr_completion :=
  ring_contents (cq_items q) (cq_capacity q) (cq_head q) (cq_count q).

Record cq_ok (q : tr_completion_queue) : Prop := {
  cq_ring : ring_ok (cq_items q) (cq_capacity q) (cq_head q) (cq_tail q) (cq_count q);
  (** no lost wake-up: a non-empty queue has told someone to wake the consumer *)
  cq_wake : cq_count q ≠ 0 → cq_wake_pending q = true;
  cq_gen : 0 ≤ cq_admission_generation q < 2 ^ 64;
  cq_gen_open : cq_accepting q = true → 1 ≤ cq_admission_generation q
}.

Lemma bump_range g : 1 ≤ bump_generation g < 2 ^ 64.
Proof.
  unfold bump_generation. pose proof (u64_range (g + 1)) as H. unfold u64_ok in H. case_if; lia.
Qed.

Lemma cq_store_spec q x : cq_ok q → cq_count q ≠ cq_capacity q →
  cq_ok (cq_store q x).1 ∧ cq_contents (cq_store q x).1 = cq_contents q ++ [x] ∧
  cq_wake_pending (cq_store q x).1 = true.
Proof.
  intros [Hr Hw Hg Hgo] Hne. pose proof Hr as [Hc _ _ Hn _].
  destruct (ring_push _ _ _ _ _ x Hr ltac:(lia)) as [H1 H2].
  unfold cq_store, cq_contents. simpl. rewrite u32_small by word_lia. split; [|done]. by split.
Qed.

Lemma cq_pop_loop_spec fuel q : cq_ok q →
  let '(q', out) := cq_pop_loop fuel q in
  cq_ok (mk_cq (cq_items q') (cq_capacity q') (cq_head q') (cq_tail q') (cq_count q') (cq_peak_count q')
    (cq_full_events q') (cq_admission_generation q') (cq_waiters q') (cq_accepting q') (cq_wake_pending q)) ∧
  cq_contents q = out ++ cq_contents q' ∧ out = take fuel (cq_contents q) ∧
  cq_waiters q' = cq_waiters q ∧ cq_accepting q' = cq_accepting q ∧ cq_capacity q' = cq_capacity q ∧
  cq_admission_generation q' = cq_admission_generation q ∧ cq_wake_pending q' = cq_wake_pending q ∧
  (out = [] → cq_count q' = cq_count q).
Proof.
  revert q. induction fuel as [|fuel IH]; intros q Hok; simpl.
  - split; [by destruct q|]. by split_and!.
  - destruct (Z.eqb_spec (cq_count q) 0) as [E|E].
    + assert (cq_contents q = []) as E' by (by unfold cq_contents; rewrite E).
      split; [by destruct q|]. rewrite E'. by split_and!.
    + destruct Hok as [Hr Hw Hg Hgo]. pose proof Hr as [Hc _ _ Hn _].
      destruct (ring_pop _ _ _ _ _ Hr ltac:(lia)) as [Hr1 Hc1].
      match goal with |- context [cq_pop_loop fuel ?x] => set (q1 := x) end.
      assert (u32 (cq_count q - 1) = cq_count q - 1) as E1 by (apply u32_small; word_lia).
      assert (cq_ok q1) as Hok1 by (split; unfold q1; simpl; rewrite ?E1; [done| |done|done]; intros; by apply Hw).
      specialize (IH q1 Hok1). destruct (cq_pop_loop fuel q1) as [q' out].
      destruct IH as (H1 & H2 & H3 & H4 & H5 & H6 & H7 & H8 & _).
      assert (cq_contents q = (cq_items q).[cq_head q] :: cq_contents q1) as Hcq
        by (unfold cq_contents, q1 at 2; simpl; by rewrite Hc1, E1).
      rewrite Hcq. split; [done|]. split_and!; simpl; try done; congruence.
Qed.

(** One batch: the first [max] completions in order, [has_more] exactly when some are
    left, and a pending wake-up exactly while some are. *)
Lemma cq_pop_batch_spec q n : cq_ok q →
  let '(q', out, more, broadcast) := cq_pop_batch q n in
  cq_ok q' ∧ out = take n (cq_contents q) ∧ cq_contents q = out ++ cq_contents q' ∧
  more = negb (cq_count q' =? 0) ∧ cq_waiters q' = cq_waiters q ∧ cq_accepting q' = cq_accepting q ∧
  cq_capacity q' = cq_capacity q ∧ cq_admission_generation q' = cq_admission_generation q ∧
  cq_wake_pending q' = (if more then cq_wake_pending q else false) ∧
  (broadcast = false → cq_waiters q ≠ 0 → cq_count q' = cq_count q).
Proof.
  intros Hok. unfold cq_pop_batch. pose proof (cq_pop_loop_spec n q Hok) as H.
  destruct (cq_pop_loop n q) as [q1 out]. destruct H as (H1 & H2 & H3 & H4 & H5 & H6 & H7 & H8 & H9).
  assert (negb (bool_decide (out = [])) && negb (cq_waiters q =? 0) = false → cq_waiters q ≠ 0 →
    cq_count q1 = cq_count q) as Hb.
  { intros Hb Hw. apply H9. destruct (bool_decide_reflect (out = [])); [done|].
    destruct (Z.eqb_spec (cq_waiters q) 0); done. }
  destruct (Z.eqb_spec (cq_count q1) 0) as [E|E]; simpl; rewrite ?H4.
  - split; [|split_and!; try done; by rewrite E].
    destruct H1 as [Hr Hw Hg Hgo]. split; simpl in *; try done.
  - assert (cq_ok q1) as Hok1 by (rewrite <- H8 in H1; by destruct q1).
    split; [done|]. split_and!; try done. by destruct (Z.eqb_spec (cq_count q1) 0).
Qed.

(** * The interface *)

Inductive cq_op :=
| Cq_open
| Cq_close
| Cq_push (completion : tr_completion)
| Cq_pop_batch (max_completions : nat).

Definition cq_exec (op : cq_op) (q : tr_completion_queue)
    : op_effect tr_completion_queue tr_completion :=
  match op with
  | Cq_open => mk_effect (default q (tr_completion_queue_open (Some q)).2) false false [] [] true
  | Cq_close => mk_effect (default q (tr_completion_queue_close (Some q))) true false [] [] true
  | Cq_push c =>
      let '(ret, q', wake) := tr_completion_queue_push (Some q) (Some c) in
      mk_effect (default q q') false wake (if is_ok ret then [c] else []) [] false
  | Cq_pop_batch n =>
      let '(q', out, _, broadcast) := tr_completion_queue_pop_batch (Some q) true n in
      mk_effect (default q q') broadcast false [] out false
  end.

Definition cq_full (q : tr_completion_queue) : bool := cq_count q =? cq_capacity q.

Lemma cq_exec_push_spec c q : cq_ok q →
  let e := cq_exec (Cq_push c) q in
  cq_ok (oe_queue e) ∧ cq_contents q ++ oe_pushed e = oe_popped e ++ cq_contents (oe_queue e) ∧
  cq_waiters (oe_queue e) = cq_waiters q ∧
  oe_wake e = negb (cq_wake_pending q) && cq_wake_pending (oe_queue e) ∧
  cq_admission_generation (oe_queue e) = cq_admission_generation q ∧ oe_broadcast e = false ∧
  oe_bump e = false ∧
  (cq_accepting q = true → cq_full q = true → cq_accepting (oe_queue e) = true ∧ cq_full (oe_queue e) = true).
Proof.
  intros Hok. simpl. destruct (Z.eqb_spec (cp_fn c) 0) as [_|_]; simpl.
  { rewrite app_nil_r. split_and!; try done. by destruct (cq_wake_pending q). }
  unfold cq_push. destruct (cq_accepting q) eqn:Ea; simpl.
  2: { rewrite app_nil_r. split_and!; try done; try (by destruct (cq_wake_pending q)); congruence. }
  destruct (Z.eqb_spec (cq_count q) (cq_capacity q)) as [E|E]; simpl.
  { rewrite app_nil_r. split_and!; try done; try (by destruct (cq_wake_pending q)).
    destruct Hok as [H1 H2 H3 H4]. by split. }
  destruct (cq_store_spec q c Hok E) as (H1 & H2 & _). simpl in H1, H2.
  split_and!; try done; try (by rewrite andb_true_r).
  unfold cq_full; intros _ Hf; by apply Z.eqb_eq in Hf.
Qed.

Lemma cq_exec_spec op q : cq_ok q →
  cq_ok (oe_queue (cq_exec op q)) ∧
  cq_contents q ++ oe_pushed (cq_exec op q) =
    oe_popped (cq_exec op q) ++ cq_contents (oe_queue (cq_exec op q)) ∧
  cq_waiters (oe_queue (cq_exec op q)) = cq_waiters q ∧
  oe_wake (cq_exec op q) =
    negb (cq_wake_pending q) && cq_wake_pending (oe_queue (cq_exec op q)) ∧
  cq_admission_generation (oe_queue (cq_exec op q)) =
    (if oe_bump (cq_exec op q) then bump_generation (cq_admission_generation q)
     else cq_admission_generation q) ∧
  (oe_broadcast (cq_exec op q) = false → cq_waiters q ≠ 0 →
    cq_accepting q = true → cq_full q = true →
    cq_accepting (oe_queue (cq_exec op q)) = true ∧ cq_full (oe_queue (cq_exec op q)) = true) ∧
  (list tr_completion → True → True).
Proof.
  intros Hok. pose proof (bump_range (cq_admission_generation q)) as Hb.
  destruct op as [| |c|n].
  - simpl. rewrite app_nil_r. destruct Hok. split_and!; try done; try (by destruct (cq_wake_pending q)).
    split; simpl; try done; lia.
  - simpl. rewrite app_nil_r. destruct Hok. split_and!; try done; try (by destruct (cq_wake_pending q)).
    split; simpl; try done; lia.
  - pose proof (cq_exec_push_spec c q Hok) as (H1 & H2 & H3 & H4 & H5 & H6 & H7 & H8).
    rewrite H7. split_and!; auto.
  - simpl. pose proof (cq_pop_batch_spec q n Hok) as H.
    destruct (cq_pop_batch q n) as [[[q' out] more] broadcast]. simpl.
    destruct H as (H1 & H2 & H3 & H4 & H5 & H6 & H7 & H8 & H9 & H10).
    rewrite app_nil_r. split_and!; try done.
    + rewrite H9. by destruct more, (cq_wake_pending q).
    + unfold cq_full. intros Hb1 Hw Ha Hf. rewrite H6, H7, (H10 Hb1 Hw). done.
Qed.

#[export] Program Instance completion_wait_queue : WaitQueue tr_completion_queue tr_completion := {
  wq_op := cq_op;
  wq_accepting := cq_accepting;
  wq_full := cq_full;
  wq_generation := cq_admission_generation;
  wq_waiters := cq_waiters;
  wq_wake_pending := cq_wake_pending;
  wq_contents := cq_contents;
  wq_valid c := negb (cp_fn c =? 0);
  wq_observe_full q _ := cq_count_full q;
  wq_set_waiters := cq_set_waiters;
  wq_enqueue := cq_store;
  wq_stored _ c := c;
  wq_exec := cq_exec;
  wq_ok := cq_ok;
  wq_history _ _ := True;
  wq_exec_spec := cq_exec_spec
}.
Next Obligation.
  intros q [Hr Hw _ _] Hne. apply Hw. intros E. apply Hne.
  unfold cq_contents. by rewrite E.
Qed.
Next Obligation. intros q []. by split. Qed.
Next Obligation. intros q x []. by split_and!. Qed.
Next Obligation. intros q n []. by split_and!. Qed.
Next Obligation.
  intros q x Hok Hf Ha. unfold cq_full in Hf. apply Z.eqb_neq in Hf.
  destruct (cq_store_spec q x Hok Hf) as (H1 & H2 & H3). by split_and!.
Qed.

(** [tr_completion_queue_push_wait]: the three critical sections of the blocking push. *)
Definition tr_completion_queue_push_wait_enter (q : tr_completion_queue) (completion : tr_completion)
    (expected_generation : Z) : tr_completion_queue * option (tr_status * bool) :=
  push_wait_enter q completion expected_generation.

Definition tr_completion_queue_push_wait_resume (q : tr_completion_queue) (completion : tr_completion)
    (expected_generation : Z) (error : bool) : tr_completion_queue * option (tr_status * bool) :=
  push_wait_resume q completion expected_generation error.

(** * Theorems *)

Lemma cq_init_ok old capacity : is_Some old → 0 < capacity < 2 ^ 32 →
  ∃ q, tr_completion_queue_init old capacity true true true = (TR_OK, Some q) ∧ cq_ok q ∧
    cq_contents q = [] ∧ cq_waiters q = 0 ∧ cq_wake_pending q = false ∧
    cq_admission_generation q = 0 ∧ cq_capacity q = capacity.
Proof.
  intros [q0 ->] Hc. unfold tr_completion_queue_init. simpl.
  destruct (Z.eqb_spec capacity 0); [lia|]. eexists. split; [done|].
  destruct (ring_init (A := tr_completion) capacity Hc) as [H1 H2]. by split_and!.
Qed.

Lemma cq_reachable_inv old capacity q0 s : is_Some old → 0 < capacity < 2 ^ 32 →
  tr_completion_queue_init old capacity true true true = (TR_OK, Some q0) →
  wq_reachable q0 s → wq_inv q0 s ∧ wq_generation q0 = 0.
Proof.
  intros Ho Hc E Hr. destruct (cq_init_ok old capacity Ho Hc) as (q & E' & H1 & H2 & H3 & H4 & H5 & _).
  rewrite E in E'. simplify_eq. split; [|done]. by apply wq_reachable_inv.
Qed.

(** C27: Nothing is lost and nothing sleeps for good, under every interleaving of producers,
    consumer, opening and closing, spurious wake-ups included: completions are delivered
    in the order they were accepted and exactly once, the rest being in the queue; a
    producer that is asleep and not yet signalled waits on a queue that is open and full;
    a non-empty queue has a wake-up pending; and each pending wake-up was handed to
    exactly one caller. *)
Theorem completion_queue_no_lost_wakeup (old : option tr_completion_queue) (capacity : Z)
    (q0 : tr_completion_queue) (s : wq_sys)
    (Hold : is_Some old) (Hcap : 0 < capacity < 2 ^ 32)
    (Hinit : tr_completion_queue_init old capacity true true true = (TR_OK, Some q0))
    (Hr : wq_reachable q0 s) :
  sy_accepted s = sy_delivered s ++ cq_contents (sy_queue s) ∧
  (∀ t, t ∈ sy_producers s → pr_pc t = Pw_asleep false →
     cq_accepting (sy_queue s) = true ∧ cq_count (sy_queue s) = cq_capacity (sy_queue s)) ∧
  (cq_count (sy_queue s) ≠ 0 → cq_wake_pending (sy_queue s) = true) ∧
  sy_wakes s = sy_drains s + (if cq_wake_pending (sy_queue s) then 1 else 0).
Proof.
  destruct (cq_reachable_inv old capacity q0 s Hold Hcap Hinit Hr) as [Hinv _].
  split; [apply (wi_fifo _ _ Hinv)|].
  split; [|split; [apply (wi_ok _ _ Hinv)|apply (wi_wakes _ _ Hinv)]].
  intros t Ht Hpc. destruct (proj1 (list.Forall_forall _ _) (wi_asleep _ _ Hinv) t Ht Hpc) as [Ha Hf].
  split; [done|]. by apply Z.eqb_eq in Hf.
Qed.

(** A producer of an earlier admission epoch never gets in: whoever is accepted is
    accepted in the very epoch its token was sampled in, however often the queue was
    closed and reopened meanwhile (fewer than 2^64-1 times). *)
Theorem completion_queue_stale_producer (old : option tr_completion_queue) (capacity : Z)
    (q0 : tr_completion_queue) (s : wq_sys) (t : producer) (epoch : nat)
    (Hold : is_Some old) (Hcap : 0 < capacity < 2 ^ 32)
    (Hinit : tr_completion_queue_init old capacity true true true = (TR_OK, Some q0))
    (Hr : wq_reachable q0 s) (Ht : t ∈ sy_producers s) (Hpc : pr_pc t = Pw_done TR_OK epoch)
    (Hlt : Z.of_nat (sy_epoch s) < 2 ^ 64 - 1) :
  epoch = pr_born t.
Proof.
  destruct (cq_reachable_inv old capacity q0 s Hold Hcap Hinit Hr) as [Hinv H0].
  eapply accepted_same_epoch; [exact Hinv|rewrite H0; lia|exact Ht|exact Hpc|exact Hlt].
Qed.

(** ** Examples *)

Definition cq_demo0 : tr_completion_queue :=
  default zero_cq (tr_completion_queue_init (Some zero_cq) 1 true true true).2.

(** One fills the queue; another sleeps, is woken by a batch and gets in; a third sampled
    its token before the queue closed and reopened. *)
Definition cq_demo : wq_sys :=
  let s := mk_wq_sys cq_demo0 [] [] [] 0 0 0 in
  let s := env_step (Q := tr_completion_queue) Cq_open s in
  let s := env_step (Q := tr_completion_queue) (Cq_push (mk_completion 9 1)) s in
  let s := spawn_producer (mk_completion 9 2) s in
  let s := producer_step 0 false s in
  let s := env_step (Q := tr_completion_queue) (Cq_pop_batch 4) s in
  let s := producer_step 0 false s in
  let s := spawn_producer (mk_completion 9 3) s in
  let s := env_step (Q := tr_completion_queue) Cq_close s in
  let s := env_step (Q := tr_completion_queue) Cq_open s in
  let s := env_step (Q := tr_completion_queue) (Cq_pop_batch 4) s in
  producer_step 1 false s.

Lemma cq_demo_reachable : wq_reachable cq_demo0 cq_demo.
Proof.
  unfold cq_demo.
  repeat first [apply Wr_producer | apply Wr_env | apply Wr_spawn; [|vm_compute; reflexivity] | apply Wr_init].
Qed.

Lemma completion_queue_no_lost_wakeup_witness :
  sy_accepted cq_demo = sy_delivered cq_demo ++ cq_contents (sy_queue cq_demo) ∧
  sy_accepted cq_demo = [mk_completion 9 1; mk_completion 9 2].
Proof.
  split; [|vm_compute; reflexivity].
  apply (completion_queue_no_lost_wakeup (Some zero_cq) 1 cq_demo0 cq_demo).
  - eexists. reflexivity.
  - lia.
  - vm_compute. reflexivity.
  - exact cq_demo_reachable.
Defined.

Lemma completion_queue_stale_producer_witness :
  map pr_pc (sy_producers cq_demo) = [Pw_done TR_OK 1; Pw_done TR_ERR_CLOSED 3] ∧ 1%nat = 1%nat.
Proof.
  split; [vm_compute; reflexivity|].
  apply (completion_queue_stale_producer (Some zero_cq) 1 cq_demo0 cq_demo
    (mk_producer (mk_completion 9 2) 1 1 (Pw_done TR_OK 1)) 1).
  - eexists. reflexivity.
  - lia.
  - vm_compute. reflexivity.
  - exact cq_demo_reachable.
  - vm_compute. left.
  - reflexivity.
  - vm_compute. reflexivity.
Defined.
