(* ===== verification/CommandQueue.v ===== *)
(** Command queue: [src/execution/command_queue.{h,c}].

    A bounded ring of reactor commands with sequence numbers, admission for waiting
    producers, and one reserved slot for STOP, which closes the round: it is handed out
    after everything accepted before it, and nothing is accepted after it until the queue
    is reopened.  Implements the interface of WaitQueue.v. *)
From S2P Require Import Prelude Status Observability WaitQueue.

(** * Data *)

Definition TR_CMD_ADOPT_FD : Z := 1.
Definition TR_CMD_SEND : Z := 2.
Definition TR_CMD_RESUME_RX : Z := 3.
Definition TR_CMD_CLOSE : Z := 4.
Definition TR_CMD_ABORT : Z := 5.
Definition TR_CMD_SET_HANDLER : Z := 6.
Definition TR_CMD_QUIESCE : Z := 7.
Definition TR_CMD_CALL : Z := 8.
Definition TR_CMD_STOP : Z := 9.

(** The union [u]; pointers are addresses. *)
Inductive tr_command_payload :=
| U_adopt (fd : Z)
| U_send (item : Z)
| U_abort (status : Z)
| U_handler (request : Z)
| U_quiesce (sync : Z)
| U_call (fn arg sync : Z).

Record tr_command := mk_command {
  cm_type : Z;
  cm_reserved : Z;
  cm_slot : Z;
  cm_generation : Z;
  cm_sequence : Z;
  cm_u : tr_command_payload
}.

Definition zero_command : tr_command := mk_command 0 0 0 0 0 (U_adopt 0).
#[export] Instance tr_command_inhabited : Inhabited tr_command := populate zero_command.

(** Counts per command type, of pushes and of refusals. *)
Record command_counts := mk_counts { ct_send : Z; ct_resume_rx : Z; ct_call : Z; ct_other : Z }.
Definition zero_counts : command_counts := mk_counts 0 0 0 0.

Record tr_command_queue := mk_cmdq {
  mq_items : list tr_command;
  mq_capacity : Z;
  mq_head : Z;
  mq_tail : Z;
  mq_count : Z;
  mq_peak_count : Z;
  mq_full_events : Z;
  mq_next_sequence : Z;
  mq_wait_generation : Z;
  mq_waiters : Z;
  mq_wait_accepting : bool;
  (** [pushed_send] .. [pushed_other] and [full_send] .. [full_other] *)
  mq_pushed : command_counts;
  mq_full : command_counts;
  mq_wake_pending : bool;
  mq_stop_command : tr_command;
  mq_stop_pending : bool;
  mq_stop_closed : bool
}.

Definition zero_cmdq : tr_command_queue :=
  mk_cmdq [] 0 0 0 0 0 0 0 0 0 false zero_counts zero_counts false zero_command false false.

(** * Operations *)

Definition tr_command_queue_init (queue : option tr_command_queue) (capacity : Z)
    (calloc_ok mutex_ok cond_ok : bool) : tr_status * option tr_command_queue :=
  bail (TR_ERR_INVALID, queue) when (negb (bool_decide (is_Some queue)) || (capacity =? 0)) ;;
  bail (TR_ERR_NOMEM, Some zero_cmdq) when (negb calloc_ok) ;;
  bail (TR_ERR_INVALID, Some zero_cmdq) when (negb mutex_ok) ;;
  bail (TR_ERR_INVALID, Some zero_cmdq) when (negb cond_ok) ;;
  (TR_OK, Some (mk_cmdq (replicate (Z.to_nat capacity) inhabitant) capacity 0 0 0 0 0 0 0 0 false
    zero_counts zero_counts false zero_command false false)).

Definition tr_command_queue_destroy (queue : option tr_command_queue) : option tr_command_queue :=
  match queue with None => None | Some _ => Some zero_cmdq end.

(** The switch on the command's type in both [observe] functions. *)
Definition count_command (c : command_counts) (type : Z) : command_counts :=
  if type =? TR_CMD_SEND then mk_counts (u64 (ct_send c + 1)) (ct_resume_rx c) (ct_call c) (ct_other c)
  else if type =? TR_CMD_RESUME_RX then
    mk_counts (ct_send c) (u64 (ct_resume_rx c + 1)) (ct_call c) (ct_other c)
  else if type =? TR_CMD_CALL then
    mk_counts (ct_send c) (ct_resume_rx c) (u64 (ct_call c + 1)) (ct_other c)
  else mk_counts (ct_send c) (ct_resume_rx c) (ct_call c) (u64 (ct_other c + 1)).

Definition tr_command_queue_observe_full_locked (q : tr_command_queue) (c : tr_command) : tr_command_queue :=
  mk_cmdq (mq_items q) (mq_capacity q) (mq_head q) (mq_tail q) (mq_count q) (mq_peak_count q)
    (u64 (mq_full_events q + 1)) (mq_next_sequence q) (mq_wait_generation q) (mq_waiters q)
    (mq_wait_accepting q) (mq_pushed q) (count_command (mq_full q) (cm_type c)) (mq_wake_pending q)
    (mq_stop_command q) (mq_stop_pending q) (mq_stop_closed q).

Definition tr_command_queue_observe_push_locked (q : tr_command_queue) (c : tr_command) : tr_command_queue :=
  mk_cmdq (mq_items q) (mq_capacity q) (mq_head q) (mq_tail q) (mq_count q) (mq_peak_count q)
    (mq_full_events q) (mq_next_sequence q) (mq_wait_generation q) (mq_waiters q)
    (mq_wait_accepting q) (count_command (mq_pushed q) (cm_type c)) (mq_full q) (mq_wake_pending q)
    (mq_stop_command q) (mq_stop_pending q) (mq_stop_closed q).

Definition set_sequence (c : tr_command) (n : Z) : tr_command :=
  mk_command (cm_type c) (cm_reserved c) (cm_slot c) (cm_generation c) n (cm_u c).

(** [next_sequence] cycles like the generations: 1, 2, .., 2^64-1, 1, .. *)
Definition cmd_stored (q : tr_command_queue) (c : tr_command) : tr_command :=
  set_sequence c (bump_generation (mq_next_sequence q)).

Definition tr_command_queue_enqueue_locked (q : tr_command_queue) (c : tr_command)
    : tr_command_queue * bool :=
  let q := tr_command_queue_observe_push_locked q c in
  let queued := cmd_stored q c in
  let wake := negb (mq_wake_pending q) in
  let count := u32 (mq_count q + 1) in
  (mk_cmdq (mq_items q).[mq_tail q <- queued] (mq_capacity q) (mq_head q)
     (ring_next (mq_capacity q) (mq_tail q)) count
     (tr_observe_high_water_u32 (mq_peak_count q) count) (mq_full_events q)
     (bump_generation (mq_next_sequence q)) (mq_wait_generation q) (mq_waiters q)
     (mq_wait_accepting q) (mq_pushed q) (mq_full q) true
     (mq_stop_command q) (mq_stop_pending q) (mq_stop_closed q),
   wake).

Definition cmd_push (q : tr_command_queue) (c : tr_command) : tr_status * tr_command_queue * bool :=
  bail (TR_ERR_CLOSED, q, false) when (mq_stop_closed q) ;;
  bail (TR_AGAIN, tr_command_queue_observe_full_locked q c, false) when
    (mq_count q =? mq_capacity q) ;;
  let '(q, wake) := tr_command_queue_enqueue_locked q c in (TR_OK, q, wake).

Definition tr_command_queue_push (queue : option tr_command_queue) (command : option tr_command)
    : tr_status * option tr_command_queue * bool :=
  match queue, command with
  | Some q, Some c => let '(ret, q, wake) := cmd_push q c in (ret, Some q, wake)
  | _, _ => (TR_ERR_INVALID, queue, false)
  end.

Definition set_wait (q : tr_command_queue) (generation : Z) (accepting stop_closed : bool)
    : tr_command_queue :=
  mk_cmdq (mq_items q) (mq_capacity q) (mq_head q) (mq_tail q) (mq_count q) (mq_peak_count q)
    (mq_full_events q) (mq_next_sequence q) generation (mq_waiters q) accepting (mq_pushed q)
    (mq_full q) (mq_wake_pending q) (mq_stop_command q) (mq_stop_pending q) stop_closed.

Definition tr_command_queue_wait_open (queue : option tr_command_queue)
    : tr_status * option tr_command_queue :=
  match queue with
  | None => (TR_ERR_INVALID, None)
  | Some q =>
      bail (TR_ERR_STATE, Some q) when (mq_stop_pending q) ;;
      (TR_OK, Some (set_wait q (bump_generation (mq_wait_generation q)) true false))
  end.

(** Its sleepers are woken. *)
Definition tr_command_queue_wait_close (queue : option tr_command_queue) : option tr_command_queue :=
  match queue with
  | None => None
  | Some q => Some (set_wait q (bump_generation (mq_wait_generation q)) false (mq_stop_closed q))
  end.

Definition tr_command_queue_wait_generation (queue : option tr_command_queue) : Z :=
  match queue with
  | None => 0
  | Some q => if mq_wait_accepting q then mq_wait_generation q else 0
  end.

Definition cmd_set_waiters (q : tr_command_queue) (n : Z) : tr_command_queue :=
  mk_cmdq (mq_items q) (mq_capacity q) (mq_head q) (mq_tail q) (mq_count q) (mq_peak_count q)
    (mq_full_events q) (mq_next_sequence q) (mq_wait_generation q) n (mq_wait_accepting q)
    (mq_pushed q) (mq_full q) (mq_wake_pending q) (mq_stop_command q) (mq_stop_pending q)
    (mq_stop_closed q).

(** STOP into its reserved slot; the sleepers are woken. *)
Definition cmd_push_wait_force (q : tr_command_queue) (c : tr_command)
    : tr_status * tr_command_queue * bool :=
  bail (TR_ERR_STATE, q, false) when (mq_stop_closed q) ;;
  let stop_command := cmd_stored q c in
  let q := tr_command_queue_observe_push_locked q c in
  let wake := negb (mq_wake_pending q) in
  (TR_OK,
   mk_cmdq (mq_items q) (mq_capacity q) (mq_head q) (mq_tail q) (mq_count q) (mq_peak_count q)
     (mq_full_events q) (bump_generation (mq_next_sequence q)) (mq_wait_generation q) (mq_waiters q)
     false (mq_pushed q) (mq_full q) true stop_command true true,
   wake).

Definition tr_command_queue_push_wait_force (queue : option tr_command_queue)
    (command : option tr_command) : tr_status * option tr_command_queue * bool :=
  match queue, command with
  | Some q, Some c =>
      bail (TR_ERR_INVALID, queue, false) when (negb (cm_type c =? TR_CMD_STOP)) ;;
      let '(ret, q, wake) := cmd_push_wait_force q c in (ret, Some q, wake)
  | _, _ => (TR_ERR_INVALID, queue, false)
  end.

Definition tr_command_queue_is_empty (queue : option tr_command_queue) : bool :=
  match queue with
  | None => false
  | Some q => (mq_count q =? 0) && negb (mq_stop_pending q)
  end.

Definition tr_command_queue_last_sequence (queue : option tr_command_queue) : Z :=
  match queue with None => 0 | Some q => mq_next_sequence q end.

Definition tr_command_sequence_after_eq (current target : Z) : bool :=
  bail true when (target =? 0) ;;
  Z.land (u64 (current - target)) (Z.shiftl 1 63) =? 0.

(** The popping loop; [fuel] is what is left of [max_commands]. *)
Fixpoint cmd_pop_loop (fuel : nat) (q : tr_command_queue) : tr_command_queue * list tr_command :=
  match fuel with
  | O => (q, [])
  | S fuel =>
      bail (q, []) when (mq_count q =? 0) ;;
      let x := (mq_items q).[mq_head q] in
      let q :=
        mk_cmdq (mq_items q) (mq_capacity q) (ring_next (mq_capacity q) (mq_head q)) (mq_tail q)
          (u32 (mq_count q - 1)) (mq_peak_count q) (mq_full_events q) (mq_next_sequence q)
          (mq_wait_generation q) (mq_waiters q) (mq_wait_accepting q) (mq_pushed q) (mq_full q)
          (mq_wake_pending q) (mq_stop_command q) (mq_stop_pending q) (mq_stop_closed q) in
      let '(q, out) := cmd_pop_loop fuel q in (q, x :: out)
  end.

Definition set_stop (q : tr_command_queue) (wake_pending : bool) (stop_command : tr_command)
    (stop_pending : bool) : tr_command_queue :=
  mk_cmdq (mq_items q) (mq_capacity q) (mq_head q) (mq_tail q) (mq_count q) (mq_peak_count q)
    (mq_full_events q) (mq_next_sequence q) (mq_wait_generation q) (mq_waiters q)
    (mq_wait_accepting q) (mq_pushed q) (mq_full q) wake_pending stop_command stop_pending
    (mq_stop_closed q).

(** The queue, what was popped, and whether the sleepers are woken. *)
Definition cmd_pop_batch (q : tr_command_queue) (max_commands : nat)
    : tr_command_queue * list tr_command * bool :=
  let '(q, out) := cmd_pop_loop max_commands q in
  let '(q, out) :=
    if (mq_count q =? 0) && mq_stop_pending q && (length out <? max_commands)%nat
    then (set_stop q (mq_wake_pending q) zero_command false, out ++ [mq_stop_command q])
    else (q, out) in
  let q :=
    if (mq_count q =? 0) && negb (mq_stop_pending q)
    then set_stop q false (mq_stop_command q) (mq_stop_pending q) else q in
  (q, out, negb (bool_decide (out = [])) && negb (mq_waiters q =? 0)).

Definition tr_command_queue_pop_batch (queue : option tr_command_queue) (out : bool)
    (max_commands : nat) : option tr_command_queue * list tr_command * bool :=
  match queue with
  | Some q =>
      bail (queue, [], false) when (negb out || (max_commands =? 0)%nat) ;;
      let '(q, popped, broadcast) := cmd_pop_batch q max_commands in (Some q, popped, broadcast)
  | None => (None, [], false)
  end.

(** * The invariant *)

Definition cmd_ring (q : tr_command_queue) : list tr_command :=
  ring_contents (mq_items q) (mq_capacity q) (mq_head q) (mq_count q).

(** Everything accepted and not yet handed out: STOP last. *)
Definition cmd_contents (q : tr_command_queue) : list tr_command :=
  cmd_ring q ++ (if mq_stop_pending q then [mq_stop_command q] else []).

Record cmd_ok (q : tr_command_queue) : Prop := {
  cmd_ring_ok : ring_ok (mq_items q) (mq_capacity q) (mq_head q) (mq_tail q) (mq_count q);
  cmd_wake : mq_count q ≠ 0 ∨ mq_stop_pending q = true → mq_wake_pending q = true;
  cmd_gen : 0 ≤ mq_wait_generation q < 2 ^ 64;
  cmd_gen_open : mq_wait_accepting q = true → 1 ≤ mq_wait_generation q;
  (** a pending STOP has closed the round, for waiting producers too *)
  cmd_stop_closed : mq_stop_pending q = true → mq_stop_closed q = true;
  cmd_closed_wait : mq_stop_closed q = true → mq_wait_accepting q = false
}.

(** The [i]-th accepted command carries the [i]-th sequence number, the queue's counter is
    the last one, and while the round is closed the last accepted command is a STOP. *)
Record cmd_history (q : tr_command_queue) (l : list tr_command) : Prop := {
  ch_next : mq_next_sequence q = gen_at 0 (length l);
  ch_sequence i c : l !! i = Some c → cm_sequence c = gen_at 0 (S i);
  ch_stop : mq_stop_closed q = true → ∃ l' c, l = l' ++ [c] ∧ cm_type c = TR_CMD_STOP
}.

Lemma history_same q q' l : mq_next_sequence q' = mq_next_sequence q →
  mq_stop_closed q' = mq_stop_closed q → cmd_history q l → cmd_history q' l.
Proof. intros E1 E2 []. split; [congruence|done|]. rewrite E2. done. Qed.

Lemma history_push q q' l c : cmd_history q l → cm_sequence c = bump_generation (mq_next_sequence q) →
  mq_next_sequence q' = bump_generation (mq_next_sequence q) →
  (mq_stop_closed q' = true → cm_type c = TR_CMD_STOP) → cmd_history q' (l ++ [c]).
Proof.
  intros [Hn Hs Hst] Hc Hn' Hst'. split.
  - rewrite Hn', Hn, length_app, Nat.add_comm. done.
  - intros i x Hi. apply lookup_app_Some in Hi as [Hi|[Hle Hi]]; [by apply Hs|].
    destruct (i - length l)%nat eqn:E; [|done]. simpl in Hi. simplify_eq.
    replace i with (length l) by lia. by rewrite Hc, Hn.
  - intros H. exists l, c. split; [done|]. by apply Hst'.
Qed.

Lemma cmd_bump_range g : 1 ≤ bump_generation g < 2 ^ 64.
Proof.
  unfold bump_generation. pose proof (u64_range (g + 1)) as H. unfold u64_ok in H. case_if; lia.
Qed.

(** The ring's part of an enqueue; STOP must not be waiting already. *)
Lemma cmd_enqueue_spec q c : cmd_ok q → mq_count q ≠ mq_capacity q → mq_stop_closed q = false →
  cmd_ok (tr_command_queue_enqueue_locked q c).1 ∧
  cmd_contents (tr_command_queue_enqueue_locked q c).1 = cmd_contents q ++ [cmd_stored q c] ∧
  mq_wake_pending (tr_command_queue_enqueue_locked q c).1 = true ∧
  ∀ l, cmd_history q l → cmd_history (tr_command_queue_enqueue_locked q c).1 (l ++ [cmd_stored q c]).
Proof.
  intros [Hr Hw Hg Hgo Hsc Hcw] Hne Hcl. pose proof Hr as [Hc _ _ Hn _].
  assert (mq_stop_pending q = false) as Hsp by (destruct (mq_stop_pending q); [by rewrite Hsc in Hcl|done]).
  destruct (ring_push _ _ _ _ _ (cmd_stored q c) Hr ltac:(lia)) as [H1 H2].
  unfold cmd_contents, cmd_ring. simpl. rewrite u32_small by word_lia. rewrite Hsp, !app_nil_r.
  split_and!; try done.
  intros l Hl. eapply history_push; [exact Hl|done|done|simpl; congruence].
Qed.

(** Popping the ring: only the ring moves. *)
Definition cmd_popped (q q' : tr_command_queue) : Prop :=
  ring_ok (mq_items q') (mq_capacity q') (mq_head q') (mq_tail q') (mq_count q') ∧
  mq_capacity q' = mq_capacity q ∧ mq_next_sequence q' = mq_next_sequence q ∧
  mq_wait_generation q' = mq_wait_generation q ∧ mq_waiters q' = mq_waiters q ∧
  mq_wait_accepting q' = mq_wait_accepting q ∧ mq_wake_pending q' = mq_wake_pending q ∧
  mq_stop_command q' = mq_stop_command q ∧ mq_stop_pending q' = mq_stop_pending q ∧
  mq_stop_closed q' = mq_stop_closed q.

Lemma cmd_pop_loop_spec fuel q :
  ring_ok (mq_items q) (mq_capacity q) (mq_head q) (mq_tail q) (mq_count q) →
  let '(q', out) := cmd_pop_loop fuel q in
  cmd_popped q q' ∧ cmd_ring q = out ++ cmd_ring q' ∧ out = take fuel (cmd_ring q) ∧
  mq_count q = mq_count q' + Z.of_nat (length out) ∧
  (mq_count q' ≠ 0 → length out = fuel).
Proof.
  revert q. induction fuel as [|fuel IH]; intros q Hr; simpl.
  - split; [done|]. split_and!; try done. simpl. lia.
  - destruct (Z.eqb_spec (mq_count q) 0) as [E|E].
    + assert (cmd_ring q = []) as E' by (by unfold cmd_ring; rewrite E).
      split; [done|]. rewrite E'. split_and!; try done. simpl. lia.
    + pose proof Hr as [Hc _ _ Hn _]. destruct (ring_pop _ _ _ _ _ Hr ltac:(lia)) as [Hr1 Hc1].
      match goal with |- context [cmd_pop_loop fuel ?x] => set (q1 := x) end.
      assert (u32 (mq_count q - 1) = mq_count q - 1) as E1 by (apply u32_small; word_lia).
      specialize (IH q1). destruct (cmd_pop_loop fuel q1) as [q' out].
      destruct IH as (H1 & H2 & H3 & H4 & H5); [unfold q1; simpl; by rewrite E1|].
      assert (cmd_ring q = (mq_items q).[mq_head q] :: cmd_ring q1) as Hcq
        by (unfold cmd_ring, q1 at 2; simpl; by rewrite Hc1, E1).
      assert (mq_count q1 = mq_count q - 1) as E2 by done.
      rewrite Hcq. split; [done|]. split_and!; simpl; try congruence; [lia|]. intros ?. by rewrite H5.
Qed.

(** One batch: the first [max] commands in order, STOP after all the others. *)
Lemma cmd_pop_batch_spec q n : cmd_ok q →
  let '(q', out, broadcast) := cmd_pop_batch q n in
  cmd_ok q' ∧ cmd_contents q = out ++ cmd_contents q' ∧ out = take n (cmd_contents q) ∧
  mq_waiters q' = mq_waiters q ∧ mq_wait_accepting q' = mq_wait_accepting q ∧
  mq_capacity q' = mq_capacity q ∧ mq_wait_generation q' = mq_wait_generation q ∧
  mq_next_sequence q' = mq_next_sequence q ∧ mq_stop_closed q' = mq_stop_closed q ∧
  (mq_wake_pending q' = true → mq_wake_pending q = true) ∧
  (broadcast = false → mq_waiters q ≠ 0 → mq_count q' = mq_count q).
Proof.
  intros [Hr Hw Hg Hgo Hsc Hcw]. unfold cmd_pop_batch. pose proof (cmd_pop_loop_spec n q Hr) as H.
  destruct (cmd_pop_loop n q) as [q1 out].
  destruct H as ((Hr1 & E1 & E2 & E3 & E4 & E5 & E6 & E7 & E8 & E9) & H2 & H3 & H4 & H5).
  pose proof (ring_count _ _ _ _ _ Hr1) as Hcnt1.
  assert (length out ≤ n)%nat as Hlen by (rewrite H3, length_take; lia).
  assert (∀ l, negb (bool_decide (out ++ l = [])) && negb (mq_waiters q =? 0) = false →
    mq_waiters q ≠ 0 → mq_count q1 = mq_count q) as Hb.
  { intros l Hb Hwt. destruct (bool_decide_reflect (out ++ l = [])) as [Hn|].
    - apply app_eq_nil in Hn as [-> _]. simpl in H4. lia.
    - destruct (Z.eqb_spec (mq_waiters q) 0); done. }
  assert (mq_count q1 = 0 → cmd_ring q1 = []) as Hempty by (intros E; unfold cmd_ring; by rewrite E).
  unfold cmd_contents at 1 3. rewrite <- E7, <- E8.
  destruct ((mq_count q1 =? 0) && mq_stop_pending q1 && (length out <? n)%nat) eqn:Est; simpl.
  - apply andb_true_iff in Est as [[Hz%Z.eqb_eq Hsp]%andb_true_iff Hlt%Nat.ltb_lt].
    rewrite Hz. simpl. rewrite E4. unfold cmd_contents. rewrite H2, (Hempty Hz), app_nil_r, Hsp. simpl.
    change (cmd_ring (set_stop _ _ _ _)) with (cmd_ring q1). rewrite (Hempty Hz).
    split; [split; simpl; [done|intros [?|?]; [lia|done]|by rewrite E3|by rewrite E5, E3|done|by rewrite E9, E5]|].
    split_and!; try done; [by rewrite app_nil_r|rewrite take_ge; [done|rewrite length_app; simpl; lia]|].
    intros Hb1 Hwt. by rewrite <- (Hb _ Hb1 Hwt).
  - assert (∀ wake, (wake = true → mq_wake_pending q = true) →
      ((mq_count q1 ≠ 0 ∨ mq_stop_pending q1 = true) → wake = true) →
      cmd_ok (set_stop q1 wake (mq_stop_command q1) (mq_stop_pending q1))) as Hok.
    { intros wake Hwk1 Hwk2. split; simpl; try done; rewrite ?E3, ?E5, ?E8, ?E9; done. }
    assert (out = take n (cmd_ring q ++ (if mq_stop_pending q1 then [mq_stop_command q1] else []))) as Htake.
    { destruct (mq_stop_pending q1) eqn:Hsp; [|by rewrite app_nil_r].
      assert (length out = n) as Hn.
      { destruct (Z.eqb_spec (mq_count q1) 0); [|by apply H5]. simpl in Est. apply Nat.ltb_ge in Est. lia. }
      rewrite H2, <- app_assoc. symmetry. apply take_app_length'. lia. }
    assert (∀ x, (cmd_ring q ++ (if mq_stop_pending q1 then [mq_stop_command q1] else [])) =
      out ++ (cmd_contents (set_stop q1 x (mq_stop_command q1) (mq_stop_pending q1)))) as Hcont
      by (intros x; unfold cmd_contents; simpl; rewrite H2; by rewrite <- app_assoc).
    destruct ((mq_count q1 =? 0) && negb (mq_stop_pending q1)) eqn:Ez; simpl; rewrite E4.
    + split; [apply Hok; [done|]|].
      { apply andb_true_iff in Ez as [Hz%Z.eqb_eq Hsp%negb_true_iff]. rewrite Hz, Hsp. by intros [?|?]. }
      split_and!; try done. intros Hb1. apply (Hb []). by rewrite app_nil_r.
    + assert (q1 = set_stop q1 (mq_wake_pending q1) (mq_stop_command q1) (mq_stop_pending q1)) as Eq1
        by (by destruct q1).
      split; [rewrite Eq1; apply Hok; [by rewrite E6|rewrite E6, E8; intros Hx; apply Hw; destruct Hx; [left; lia|by right]]|].
      split_and!; try done; [rewrite Eq1 at 2; apply (Hcont (mq_wake_pending q1))|by rewrite E6|].
      intros Hb1. apply (Hb []). by rewrite app_nil_r.
Qed.

(** * The interface *)

Inductive cmd_op :=
| Cmd_wait_open
| Cmd_wait_close
| Cmd_push (command : tr_command)
| Cmd_push_stop (command : tr_command)
| Cmd_pop_batch (max_commands : nat).

Definition cmd_exec (op : cmd_op) (q : tr_command_queue) : op_effect tr_command_queue tr_command :=
  match op with
  | Cmd_wait_open =>
      let '(ret, q') := tr_command_queue_wait_open (Some q) in
      mk_effect (default q q') false false [] [] (is_ok ret)
  | Cmd_wait_close => mk_effect (default q (tr_command_queue_wait_close (Some q))) true false [] [] true
  | Cmd_push c =>
      let '(ret, q', wake) := tr_command_queue_push (Some q) (Some c) in
      mk_effect (default q q') false wake (if is_ok ret then [cmd_stored q c] else []) [] false
  | Cmd_push_stop c =>
      let '(ret, q', wake) := tr_command_queue_push_wait_force (Some q) (Some c) in
      mk_effect (default q q') (is_ok ret) wake (if is_ok ret then [cmd_stored q c] else []) [] false
  | Cmd_pop_batch n =>
      let '(q', out, broadcast) := tr_command_queue_pop_batch (Some q) true n in
      mk_effect (default q q') broadcast false [] out false
  end.

Definition cmd_full (q : tr_command_queue) : bool := mq_count q =? mq_capacity q.

(** What the interface asks of an operation's effect. *)
Definition cmd_effect_ok (q : tr_command_queue) (e : op_effect tr_command_queue tr_command) : Prop :=
  cmd_ok (oe_queue e) ∧ cmd_contents q ++ oe_pushed e = oe_popped e ++ cmd_contents (oe_queue e) ∧
  mq_waiters (oe_queue e) = mq_waiters q ∧
  oe_wake e = negb (mq_wake_pending q) && mq_wake_pending (oe_queue e) ∧
  mq_wait_generation (oe_queue e) =
    (if oe_bump e then bump_generation (mq_wait_generation q) else mq_wait_generation q) ∧
  (oe_broadcast e = false → mq_waiters q ≠ 0 → mq_wait_accepting q = true → cmd_full q = true →
    mq_wait_accepting (oe_queue e) = true ∧ cmd_full (oe_queue e) = true) ∧
  (∀ l, cmd_history q l → cmd_history (oe_queue e) (l ++ oe_pushed e)).

(** An operation that changes neither the contents nor the wake-up. *)
Lemma effect_unchanged q q' (bump broadcast : bool) : cmd_ok q' → cmd_contents q' = cmd_contents q →
  mq_waiters q' = mq_waiters q → mq_wake_pending q' = mq_wake_pending q →
  mq_wait_generation q' =
    (if bump then bump_generation (mq_wait_generation q) else mq_wait_generation q) →
  (broadcast = false → mq_wait_accepting q = true → cmd_full q = true →
    mq_wait_accepting q' = true ∧ cmd_full q' = true) →
  (∀ l, cmd_history q l → cmd_history q' l) →
  cmd_effect_ok q (mk_effect q' broadcast false [] [] bump).
Proof.
  intros H1 H2 H3 H4 H5 H6 H7. split; [done|]. simpl. split; [by rewrite app_nil_r|]. split; [done|].
  split; [rewrite H4; by destruct (mq_wake_pending q)|]. split; [done|]. split; [auto|].
  intros l. rewrite app_nil_r. auto.
Qed.

Lemma effect_push q c : cmd_ok q → cmd_effect_ok q (cmd_exec (Cmd_push c) q).
Proof.
  intros Hok. simpl. unfold cmd_push. destruct (mq_stop_closed q) eqn:Ecl; [by apply effect_unchanged|].
  destruct (Z.eqb_spec (mq_count q) (mq_capacity q)) as [E|E].
  { apply effect_unchanged; try done; [destruct Hok; by split|].
    intros l. by apply history_same. }
  destruct (cmd_enqueue_spec q c Hok E Ecl) as (H1 & H2 & H3 & H4).
  split; [done|]. split; [done|]. split; [done|]. split; [simpl; by rewrite andb_true_r|].
  split; [done|]. split; [|done]. intros _ _ _ Hf. by apply Z.eqb_eq in Hf.
Qed.

Lemma effect_stop q c : cmd_ok q → cmd_effect_ok q (cmd_exec (Cmd_push_stop c) q).
Proof.
  intros Hok. simpl. destruct (Z.eqb_spec (cm_type c) TR_CMD_STOP) as [Et|Et]; [|by apply effect_unchanged].
  simpl. unfold cmd_push_wait_force. destruct (mq_stop_closed q) eqn:Ecl; [by apply effect_unchanged|].
  destruct Hok as [Hr Hw Hg Hgo Hsc Hcw].
  assert (mq_stop_pending q = false) as Hsp by (destruct (mq_stop_pending q); [by rewrite Hsc in Ecl|done]).
  split; [by split|]. split; [unfold cmd_contents; simpl; by rewrite Hsp, app_nil_r|].
  split; [done|]. split; [simpl; by rewrite andb_true_r|]. split; [done|]. split; [done|].
  intros l Hl. by eapply history_push.
Qed.

Lemma effect_pop q n : cmd_ok q → cmd_effect_ok q (cmd_exec (Cmd_pop_batch n) q).
Proof.
  intros Hok. simpl. destruct (Nat.eqb_spec n 0); [by apply effect_unchanged|]. simpl.
  pose proof (cmd_pop_batch_spec q n Hok) as H. destruct (cmd_pop_batch q n) as [[q' out] broadcast].
  destruct H as (H1 & H2 & H3 & H4 & H5 & H6 & H7 & H8 & H9 & H10 & H11). simpl.
  split; [done|]. split; [simpl; by rewrite app_nil_r|]. split; [done|].
  split; [simpl; destruct (mq_wake_pending q'), (mq_wake_pending q); naive_solver|].
  split; [done|]. split.
  - simpl. intros Hb Hw Ha Hf. unfold cmd_full in *. rewrite H5, H6, (H11 Hb Hw). done.
  - simpl. intros l. rewrite app_nil_r. by apply history_same.
Qed.

Lemma cmd_exec_spec op q : cmd_ok q → cmd_effect_ok q (cmd_exec op q).
Proof.
  intros Hok. destruct op as [| |c|c|n]; auto using effect_push, effect_stop, effect_pop.
  - simpl. destruct (mq_stop_pending q) eqn:Esp; [by apply effect_unchanged|].
    pose proof (cmd_bump_range (mq_wait_generation q)) as Hb. destruct Hok as [Hr Hw Hg Hgo Hsc Hcw].
    apply effect_unchanged; try done.
    + split; simpl; try done; [lia|lia|by rewrite Esp].
    + intros l [Hn Hs _]. split; simpl; done.
  - pose proof (cmd_bump_range (mq_wait_generation q)) as Hb. destruct Hok as [Hr Hw Hg Hgo Hsc Hcw].
    apply effect_unchanged; try done.
    + split; simpl; try done. lia.
    + intros l. by apply history_same.
Qed.

#[export] Program Instance command_wait_queue : WaitQueue tr_command_queue tr_command := {
  wq_op := cmd_op;
  wq_accepting := mq_wait_accepting;
  wq_full := cmd_full;
  wq_generation := mq_wait_generation;
  wq_waiters := mq_waiters;
  wq_wake_pending := mq_wake_pending;
  wq_contents := cmd_contents;
  wq_valid _ := true;
  wq_observe_full := tr_command_queue_observe_full_locked;
  wq_set_waiters := cmd_set_waiters;
  wq_enqueue := tr_command_queue_enqueue_locked;
  wq_stored := cmd_stored;
  wq_exec := cmd_exec;
  wq_ok := cmd_ok;
  wq_history := cmd_history;
  wq_exec_spec := cmd_exec_spec
}.
Next Obligation.
  intros q [Hr Hw _ _] Hne. apply Hw. destruct (mq_stop_pending q) eqn:E; [by right|left].
  intros Ec. apply Hne. unfold cmd_contents, cmd_ring. by rewrite Ec, E.
Qed.
Next Obligation. intros q []. by split. Qed.
Next Obligation. intros q x []. split_and!; try done. intros l. by apply history_same. Qed.
Next Obligation. intros q n []. split_and!; try done. intros l. by apply history_same. Qed.
Next Obligation.
  intros q x Hok Hf Ha. unfold cmd_full in Hf. apply Z.eqb_neq in Hf.
  assert (mq_stop_closed q = false) as Hcl.
  { destruct (mq_stop_closed q) eqn:E; [|done]. rewrite (cmd_closed_wait _ Hok E) in Ha. done. }
  destruct (cmd_enqueue_spec q x Hok Hf Hcl) as (H1 & H2 & H3 & H4). by split_and!.
Qed.

(** [tr_command_queue_push_wait]: the critical sections of the blocking push. *)
Definition tr_command_queue_push_wait_enter (q : tr_command_queue) (command : tr_command)
    (expected_generation : Z) : tr_command_queue * option (tr_status * bool) :=
  push_wait_enter q command expected_generation.

Definition tr_command_queue_push_wait_resume (q : tr_command_queue) (command : tr_command)
    (expected_generation : Z) (error : bool) : tr_command_queue * option (tr_status * bool) :=
  push_wait_resume q command expected_generation error.

(** * Sequence numbers *)

Lemma gen_at_S n : gen_at 0 (S n) = Z.of_nat n mod (2 ^ 64 - 1) + 1.
Proof.
  unfold gen_at. replace (S n) with (n + 1)%nat by lia. rewrite Nat.iter_add.
  change (Nat.iter 1 bump_generation 0) with 1.
  destruct (bump_iter 1 n ltac:(lia)) as [_ H].
  replace (1 - 1 + Z.of_nat n) with (Z.of_nat n) in H by lia. rewrite <- H. lia.
Qed.

Lemma land_bit63 x : 0 ≤ x < 2 ^ 64 → (Z.land x (Z.shiftl 1 63) =? 0) = (x <? 2 ^ 63).
Proof.
  intros Hx. rewrite Z.shiftl_1_l.
  assert (Z.testbit x 63 = negb (x <? 2 ^ 63)) as Hb.
  { destruct (Z.ltb_spec x (2 ^ 63)); cbn [negb].
    - apply Z.testbit_false; [lia|]. by rewrite Z.div_small by lia.
    - apply Z.testbit_true; [lia|]. assert (x / 2 ^ 63 = 1) as ->; [|done].
      symmetry. apply (Z.div_unique x (2 ^ 63) 1 (x - 2 ^ 63)); lia. }
  destruct (Z.ltb_spec x (2 ^ 63)); cbn [negb] in Hb.
  - apply Z.eqb_eq. apply Z.bits_inj'. intros n Hn. rewrite Z.land_spec, Z.pow2_bits_eqb, Z.bits_0 by lia.
    destruct (Z.eqb_spec 63 n) as [<-|]; [by rewrite Hb|by rewrite andb_false_r].
  - apply Z.eqb_neq. intros E. apply (f_equal (λ z, Z.testbit z 63)) in E.
    rewrite Z.land_spec, Hb, Z.bits_0 in E. by rewrite Z.pow2_bits_true in E by lia.
Qed.

(** Comparing the numbers of the [j]-th and [k]-th commands compares [j] and [k], across
    the wrap-around, while they are less than half the range apart. *)
Lemma sequence_after_eq_spec j k : Z.abs (Z.of_nat j - Z.of_nat k) < 2 ^ 63 - 1 →
  tr_command_sequence_after_eq (gen_at 0 j) (gen_at 0 k) = (k <=? j)%nat.
Proof.
  intros Habs. unfold tr_command_sequence_after_eq.
  pose proof (gen_at_range 0 j ltac:(lia)) as Hj. destruct k as [|k]; [done|].
  rewrite (gen_at_S k) in *. pose proof (Z.mod_pos_bound (Z.of_nat k) (2 ^ 64 - 1) ltac:(lia)) as Hk.
  destruct (Z.eqb_spec (Z.of_nat k mod (2 ^ 64 - 1) + 1) 0); [lia|].
  rewrite land_bit63 by apply u64_range.
  pose proof (Z.div_mod (Z.of_nat k) (2 ^ 64 - 1) ltac:(lia)) as Ek.
  set (mk := Z.of_nat k mod (2 ^ 64 - 1)) in *. set (dk := Z.of_nat k / (2 ^ 64 - 1)) in *.
  assert (∃ r, u64 (gen_at 0 j - (mk + 1)) = r ∧
    (if (S k <=? j)%nat then 0 ≤ r < 2 ^ 63 else 2 ^ 63 ≤ r < 2 ^ 64)) as (r & -> & Hr).
  2: { destruct (S k <=? j)%nat; [apply Z.ltb_lt|apply Z.ltb_ge]; lia. }
  eexists. split; [done|]. unfold u64. destruct j as [|j].
  - simpl. assert (dk = 0) by nia. 
    rewrite <- (Z.mod_unique (0 - (mk + 1)) (2 ^ 64) (-1) (2 ^ 64 - (mk + 1))); lia.
  - rewrite (gen_at_S j). pose proof (Z.mod_pos_bound (Z.of_nat j) (2 ^ 64 - 1) ltac:(lia)) as Hmj.
    pose proof (Z.div_mod (Z.of_nat j) (2 ^ 64 - 1) ltac:(lia)) as Ej.
    set (mj := Z.of_nat j mod (2 ^ 64 - 1)) in *. set (dj := Z.of_nat j / (2 ^ 64 - 1)) in *.
    assert (mj + 1 - (mk + 1) = Z.of_nat j - Z.of_nat k - (2 ^ 64 - 1) * (dj - dk)) as Ed by lia.
    assert (dj - dk = 0 ∨ dj - dk = 1 ∨ dj - dk = -1) as Hd by nia.
    destruct (Nat.leb_spec (S k) (S j)).
    + destruct Hd as [Hd|[Hd|Hd]]; rewrite Hd in Ed.
      * rewrite Z.mod_small; lia.
      * rewrite <- (Z.mod_unique (mj + 1 - (mk + 1)) (2 ^ 64) (-1) (Z.of_nat j - Z.of_nat k + 1)); lia.
      * lia.
    + destruct Hd as [Hd|[Hd|Hd]]; rewrite Hd in Ed.
      * rewrite <- (Z.mod_unique (mj + 1 - (mk + 1)) (2 ^ 64) (-1) (2 ^ 64 + (Z.of_nat j - Z.of_nat k))); lia.
      * lia.
      * rewrite Z.mod_small; lia.
Qed.

(** * Theorems *)

Lemma cmd_init_ok old capacity : is_Some old → 0 < capacity < 2 ^ 32 →
  ∃ q, tr_command_queue_init old capacity true true true = (TR_OK, Some q) ∧ cmd_ok q ∧
    cmd_contents q = [] ∧ mq_waiters q = 0 ∧ mq_wake_pending q = false ∧
    mq_wait_generation q = 0 ∧ cmd_history q [].
Proof.
  intros [q0 ->] Hc. unfold tr_command_queue_init. simpl.
  destruct (Z.eqb_spec capacity 0); [lia|]. eexists. split; [done|].
  destruct (ring_init (A := tr_command) capacity Hc) as [H1 H2].
  split; [split; simpl; try done; by intros [?|?]|]. split_and!; try done.
Qed.

Lemma cmd_reachable_inv old capacity q0 s : is_Some old → 0 < capacity < 2 ^ 32 →
  tr_command_queue_init old capacity true true true = (TR_OK, Some q0) →
  wq_reachable q0 s → wq_inv q0 s ∧ wq_generation q0 = 0.
Proof.
  intros Ho Hc E Hr. destruct (cmd_init_ok old capacity Ho Hc) as (q & E' & H1 & H2 & H3 & H4 & H5 & H6).
  rewrite E in E'. simplify_eq. split; [|done]. by apply wq_reachable_inv.
Qed.

(** C26: Under every interleaving of immediate and waiting producers, STOP, opening, closing
    and the consumer: commands are handed out in the order they were accepted, each once,
    the rest being queued; while a round is closed by STOP the last accepted command is a
    STOP, no producer is admitted to wait, and both immediate pushes are refused; a
    sleeping, unsignalled producer waits on an open and full ring; and a queue with
    anything in it, STOP included, has a wake-up pending. *)
Theorem command_queue_order (old : option tr_command_queue) (capacity : Z)
    (q0 : tr_command_queue) (s : wq_sys)
    (Hold : is_Some old) (Hcap : 0 < capacity < 2 ^ 32)
    (Hinit : tr_command_queue_init old capacity true true true = (TR_OK, Some q0))
    (Hr : wq_reachable q0 s) :
  let q := sy_queue s in
  sy_accepted s = sy_delivered s ++ cmd_contents q ∧
  (mq_stop_closed q = true →
     (∃ l c, sy_accepted s = l ++ [c] ∧ cm_type c = TR_CMD_STOP) ∧ mq_wait_accepting q = false ∧
     (∀ c, tr_command_queue_push (Some q) (Some c) = (TR_ERR_CLOSED, Some q, false)) ∧
     (∀ c, cm_type c = TR_CMD_STOP →
       tr_command_queue_push_wait_force (Some q) (Some c) = (TR_ERR_STATE, Some q, false))) ∧
  (∀ t, t ∈ sy_producers s → pr_pc t = Pw_asleep false →
     mq_wait_accepting q = true ∧ mq_count q = mq_capacity q) ∧
  (tr_command_queue_is_empty (Some q) = false → mq_wake_pending q = true) ∧
  sy_wakes s = sy_drains s + (if mq_wake_pending q then 1 else 0).
Proof.
  destruct (cmd_reachable_inv old capacity q0 s Hold Hcap Hinit Hr) as [Hinv _]. simpl.
  pose proof (wi_ok _ _ Hinv) as Hok. pose proof (wi_history _ _ Hinv) as Hh.
  split; [apply (wi_fifo _ _ Hinv)|]. split; [|split; [|split; [|apply (wi_wakes _ _ Hinv)]]].
  - intros Hcl. split; [by apply (ch_stop _ _ Hh)|]. split; [by apply (cmd_closed_wait _ Hok)|].
    split; [intros c; unfold cmd_push; by rewrite Hcl|].
    intros c Hc. unfold cmd_push_wait_force. by rewrite Hc, Hcl.
  - intros t Ht Hpc. destruct (proj1 (list.Forall_forall _ _) (wi_asleep _ _ Hinv) t Ht Hpc) as [Ha Hf].
    split; [done|]. by apply Z.eqb_eq in Hf.
  - intros He. apply (cmd_wake _ Hok). apply andb_false_iff in He as [He|He].
    + left. by apply Z.eqb_neq in He.
    + right. by apply negb_false_iff in He.
Qed.

(** Sequence numbers tell what was accepted before a lifecycle barrier: the snapshot
    taken when [n] commands had been accepted is reached by exactly the commands from the
    [n]-th on (counting from 1), across the wrap-around of the counter, as long as fewer
    than 2^63-1 commands lie between. *)
Theorem command_queue_sequence_barrier (old : option tr_command_queue) (capacity : Z)
    (q0 : tr_command_queue) (s : wq_sys) (i n : nat) (c : tr_command)
    (Hold : is_Some old) (Hcap : 0 < capacity < 2 ^ 32)
    (Hinit : tr_command_queue_init old capacity true true true = (TR_OK, Some q0))
    (Hr : wq_reachable q0 s) (Hi : sy_accepted s !! i = Some c)
    (Hnear : Z.abs (Z.of_nat (S i) - Z.of_nat n) < 2 ^ 63 - 1) :
  tr_command_queue_last_sequence (Some (sy_queue s)) = gen_at 0 (length (sy_accepted s)) ∧
  tr_command_sequence_after_eq (cm_sequence c) (gen_at 0 n) = (n <=? S i)%nat.
Proof.
  destruct (cmd_reachable_inv old capacity q0 s Hold Hcap Hinit Hr) as [Hinv _].
  destruct (wi_history _ _ Hinv) as [Hn Hs _]. split; [exact Hn|].
  rewrite (Hs i c Hi). by apply sequence_after_eq_spec.
Qed.

(** ** Examples *)

Definition cmdq_demo0 : tr_command_queue :=
  default zero_cmdq (tr_command_queue_init (Some zero_cmdq) 1 true true true).2.

Definition demo_send : tr_command := mk_command TR_CMD_SEND 0 3 1 0 (U_send 64).
Definition demo_stop : tr_command := mk_command TR_CMD_STOP 0 0 0 0 (U_adopt 0).

(** A send fills the ring, a waiting producer sleeps, STOP overtakes nothing and sends the
    producer away, the batch hands out both. *)
Definition cmdq_demo : wq_sys :=
  let s := mk_wq_sys cmdq_demo0 [] [] [] 0 0 0 in
  let s := env_step (Q := tr_command_queue) Cmd_wait_open s in
  let s := env_step (Q := tr_command_queue) (Cmd_push demo_send) s in
  let s := spawn_producer demo_send s in
  let s := producer_step 0 false s in
  let s := env_step (Q := tr_command_queue) (Cmd_push_stop demo_stop) s in
  let s := producer_step 0 false s in
  env_step (Q := tr_command_queue) (Cmd_pop_batch 1) s.

Lemma cmdq_demo_reachable : wq_reachable cmdq_demo0 cmdq_demo.
Proof.
  unfold cmdq_demo.
  repeat first [apply Wr_producer | apply Wr_env | apply Wr_spawn; [|vm_compute; reflexivity] | apply Wr_init].
Qed.

Lemma command_queue_order_witness :
  map pr_pc (sy_producers cmdq_demo) = [Pw_done TR_ERR_CLOSED 1] ∧
  map cm_type (cmd_contents (sy_queue cmdq_demo)) = [TR_CMD_STOP] ∧
  tr_command_queue_push (Some (sy_queue cmdq_demo)) (Some demo_send) =
    (TR_ERR_CLOSED, Some (sy_queue cmdq_demo), false).
Proof.
  split; [vm_compute; reflexivity|]. split; [vm_compute; reflexivity|].
  apply (command_queue_order (Some zero_cmdq) 1 cmdq_demo0 cmdq_demo).
  - eexists. reflexivity.
  - lia.
  - vm_compute. reflexivity.
  - exact cmdq_demo_reachable.
  - vm_compute. reflexivity.
Defined.

Lemma command_queue_sequence_barrier_witness :
  tr_command_sequence_after_eq (cm_sequence (cmd_stored cmdq_demo0 demo_send)) 2 = false.
Proof.
  apply (command_queue_sequence_barrier (Some zero_cmdq) 1 cmdq_demo0 cmdq_demo 0 2
    (cmd_stored cmdq_demo0 demo_send)).
  - eexists. reflexivity.
  - lia.
  - vm_compute. reflexivity.
  - exact cmdq_demo_reachable.
  - vm_compute. reflexivity.
  - lia.
Defined.
