(* ===== verification/ReactorCall.v ===== *)
(** Synchronous calls into a reactor's owner thread: [tr_reactor_call] and
    [tr_reactor_call_or_stopped] of [src/execution/reactor.c].

    What the rest of the program relies on is [tr_reactor_call_cases]: a call either runs its
    function once, on the owner, and returns its result, or fails and does nothing. *)
From S2P Require Import Prelude Status.

(** What a call meets: whether the reactor is not NULL and the caller is its owner thread; what
    [tr_reactor_sync_init] answers; [started] and [accepting] under [ctl_lock]; the admission
    generation of the command queue; what [tr_command_queue_push_wait] answers; and whether
    the command was thrown away by an owner whose [epoll_wait] failed. *)
Record owner_call := mk_owner_call {
  oc_reactor : bool;
  oc_owner : bool;
  oc_sync : tr_status;
  oc_started : bool;
  oc_accepting : bool;
  oc_generation : Z;
  oc_push : tr_status;
  oc_dropped : bool
}.

(** Whether the call is made: by the owner itself, or by a command that the owner runs. *)
Definition reaches (e : owner_call) : bool :=
  oc_reactor e && (oc_owner e || is_ok (oc_sync e) && oc_started e && oc_accepting e && negb (oc_generation e =? 0) &&
    is_ok (oc_push e) && negb (oc_dropped e)).

(** [S]: what the function may change, its result's target included. *)
Section Call.
Context {S : Type}.

Definition tr_process_call (fn : option (S → tr_status * S)) (s : S) : tr_status * S :=
  match fn with None => (TR_ERR_INVALID, s) | Some fn => fn s end.

Definition tr_reactor_call (e : owner_call) (fn : option (S → tr_status * S)) (s : S) : tr_status * S :=
  match fn with
  | None => (TR_ERR_INVALID, s)
  | Some f =>
      bail (TR_ERR_INVALID, s) when (negb (oc_reactor e)) ;;
      bail f s when (oc_owner e) ;;
      bail (oc_sync e, s) when (negb (is_ok (oc_sync e))) ;;
      bail (TR_ERR_CLOSED, s) when (negb (oc_started e) || negb (oc_accepting e)) ;;
      let ret := if oc_generation e =? 0 then TR_ERR_CLOSED else oc_push e in
      bail (ret, s) when (negb (is_ok ret)) ;;
      bail (TR_ERR_SYS, s) when (oc_dropped e) ;;
      tr_process_call fn s
  end.

Definition tr_reactor_call_or_stopped (e : owner_call) (fn : option (S → tr_status * S)) (s : S) : tr_status * S :=
  match fn with
  | None => (TR_ERR_INVALID, s)
  | Some f =>
      bail (TR_ERR_INVALID, s) when (negb (oc_reactor e)) ;;
      bail f s when (oc_owner e) ;;
      bail f s when (negb (oc_started e)) ;;
      bail (TR_ERR_CLOSED, s) when (negb (oc_accepting e)) ;;
      tr_reactor_call e fn s
  end.

Lemma tr_reactor_call_reaches e f s :
  if reaches e then tr_reactor_call e (Some f) s = f s else ∃ r, r ≠ TR_OK ∧ tr_reactor_call e (Some f) s = (r, s).
Proof.
  unfold tr_reactor_call, reaches.
  destruct (oc_reactor e); cbn [negb andb]; [|eexists; split; [|reflexivity]; done].
  destruct (oc_owner e); cbn [orb]; [done|].
  destruct (is_ok (oc_sync e)) eqn:E1; cbn [negb andb]; [|eexists; split; [|reflexivity]; by apply is_ok_false].
  destruct (oc_started e); cbn [negb andb orb]; [|eexists; split; [|reflexivity]; done].
  destruct (oc_accepting e); cbn [negb andb]; [|eexists; split; [|reflexivity]; done]. cbn zeta.
  destruct (oc_generation e =? 0); cbn [negb andb]; [eexists; split; [|reflexivity]; done|].
  destruct (is_ok (oc_push e)) eqn:E2; cbn [negb andb]; [|eexists; split; [|reflexivity]; by apply is_ok_false].
  destruct (oc_dropped e); cbn [negb]; [eexists; split; [|reflexivity]; done|done].
Qed.

Lemma tr_reactor_call_cases e f s :
  tr_reactor_call e (Some f) s = f s ∨ ∃ r, r ≠ TR_OK ∧ tr_reactor_call e (Some f) s = (r, s).
Proof. pose proof (tr_reactor_call_reaches e f s). destruct (reaches e); [by left|by right]. Qed.

Lemma tr_reactor_call_or_stopped_cases e f s :
  tr_reactor_call_or_stopped e (Some f) s = f s ∨ ∃ r, r ≠ TR_OK ∧ tr_reactor_call_or_stopped e (Some f) s = (r, s).
Proof.
  unfold tr_reactor_call_or_stopped.
  destruct (negb (oc_reactor e)); [right; eexists; split; [|reflexivity]; done|].
  destruct (oc_owner e); [by left|]. destruct (negb (oc_started e)); [by left|].
  destruct (negb (oc_accepting e)); [right; eexists; split; [|reflexivity]; done|]. apply tr_reactor_call_cases.
Qed.

(** The owner calls itself directly. *)
Lemma tr_reactor_call_owner e f s : oc_reactor e = true → oc_owner e = true → tr_reactor_call e (Some f) s = f s.
Proof. unfold tr_reactor_call. by intros -> ->. Qed.

(** A property that the function keeps and errors do not touch holds after a call. *)
Lemma tr_reactor_call_keeps (P : S → Prop) e f s : P s → P (f s).2 → P (tr_reactor_call e (Some f) s).2.
Proof. intros Hs Hf. by destruct (tr_reactor_call_cases e f s) as [-> | (r & _ & ->)]. Qed.
End Call.

(** The caller is the owner. *)
Definition from_owner : owner_call := mk_owner_call true true TR_OK true true 1 TR_OK false.
