(* ===== verification/StreamIndex.v ===== *)
(** The index of a channel's streams by their wire id: the [tr_stream_index_*] functions of
    [src/transport/channel/channel.c].

    A table of a power of two entries, at least twice as many as there are streams, probed
    linearly from the hash of the id.  There are no tombstones: removing an entry moves back
    the entries behind it whose probes would have met the hole.

    Theorem: the operations are those of a finite map from ids to slots, and the loop that
    moves entries back ends. *)
From S2P Require Import Prelude Status.

(** * Data *)

(** [struct tr_stream_index_entry]; id 0 is an empty entry. *)
Record tr_stream_index_entry := mk_index_entry { ie_stream_id : Z; ie_slot : Z }.
Definition empty_entry : tr_stream_index_entry := mk_index_entry 0 0.
#[global] Instance index_entry_inhabited : Inhabited tr_stream_index_entry := populate empty_entry.

(** * Operations *)

Definition tr_channel_stream_id_hash (stream_id : Z) : Z :=
  let value := stream_id in
  let value := Z.lxor value (Z.shiftr value 16) in
  let value := u32 (value * 0x7feb352d) in
  let value := Z.lxor value (Z.shiftr value 15) in
  let value := u32 (value * 0x846ca68b) in
  Z.lxor value (Z.shiftr value 16).

(** [while (capacity < target)]: the capacity doubles, 64 times at most. *)
Fixpoint capacity_loop (fuel : nat) (capacity target : Z) : Z :=
  match fuel with
  | O => 0
  | S fuel =>
      if capacity <? target then
        if capacity >? SIZE_MAX / 2 then 0 else capacity_loop fuel (u64 (Z.shiftl capacity 1)) target
      else capacity
  end.

Definition tr_stream_index_capacity_for (max_streams : Z) : Z :=
  if max_streams =? 0 then 0 else capacity_loop 65 1 (max_streams * 2).

Section Index.
Context (capacity max_streams : Z).
Implicit Types (index : list tr_stream_index_entry) (stream_id slot pos hole scan : Z).

Definition tr_stream_index_home stream_id : Z := Z.land (tr_channel_stream_id_hash stream_id) (capacity - 1).

(** [(pos + 1U) & mask] *)
Definition index_next pos : Z := Z.land (u64 (pos + 1)) (capacity - 1).

(** [(to - from) & mask] *)
Definition index_distance (from to : Z) : Z := Z.land (u64 (to - from)) (capacity - 1).

Fixpoint insert_loop (probes : nat) index pos stream_id slot : tr_status * list tr_stream_index_entry :=
  match probes with
  | O => (TR_AGAIN, index)
  | S probes =>
      let entry := index.[pos] in
      if ie_stream_id entry =? 0 then (TR_OK, index.[pos <- mk_index_entry stream_id slot])
      else if ie_stream_id entry =? stream_id then (TR_ERR_STATE, index)
      else insert_loop probes index (index_next pos) stream_id slot
  end.

Definition tr_stream_index_insert_locked index stream_id slot : tr_status * list tr_stream_index_entry :=
  bail (TR_ERR_INVALID, index) when ((stream_id =? 0) || (slot >=? max_streams) || (capacity =? 0)) ;;
  insert_loop (Z.to_nat capacity) index (tr_stream_index_home stream_id) stream_id slot.

(** The probes for the entry of an id; [None] when it is not there. *)
Fixpoint position_loop (probes : nat) index pos stream_id : option Z :=
  match probes with
  | O => None
  | S probes =>
      if ie_stream_id index.[pos] =? 0 then None
      else if ie_stream_id index.[pos] =? stream_id then Some pos
      else position_loop probes index (index_next pos) stream_id
  end.

(** [while (stream_index[scan].stream_id != 0)]: [None] when the fuel ends before the loop. *)
Fixpoint shift_loop (fuel : nat) index hole scan : option (list tr_stream_index_entry * Z) :=
  if ie_stream_id index.[scan] =? 0 then Some (index, hole) else
  match fuel with
  | O => None
  | S fuel =>
      let home := tr_stream_index_home (ie_stream_id index.[scan]) in
      if index_distance home hole <? index_distance home scan
      then shift_loop fuel (index.[hole <- index.[scan]]) scan (index_next scan)
      else shift_loop fuel index hole (index_next scan)
  end.

Definition tr_stream_index_remove_locked index stream_id : option (tr_status * list tr_stream_index_entry) :=
  bail (Some (TR_ERR_INVALID, index)) when ((stream_id =? 0) || (capacity =? 0)) ;;
  match position_loop (Z.to_nat capacity) index (tr_stream_index_home stream_id) stream_id with
  | None => Some (TR_ERR_STALE, index)
  | Some hole =>
      '(index, hole) ← shift_loop (Z.to_nat capacity) index hole (index_next hole);
      Some (TR_OK, index.[hole <- empty_entry])
  end.

(** The slot that [tr_stream_lookup_id] goes to, before it looks at the slot. *)
Definition index_find index stream_id : option Z :=
  bail None when ((stream_id =? 0) || (capacity =? 0)) ;;
  match position_loop (Z.to_nat capacity) index (tr_stream_index_home stream_id) stream_id with
  | None => None
  | Some pos => bail None when (ie_slot index.[pos] >=? max_streams) ;; Some (ie_slot index.[pos])
  end.

(** * The finite map *)

Definition entry_pair (e : tr_stream_index_entry) : option (Z * Z) :=
  if ie_stream_id e =? 0 then None else Some (ie_stream_id e, ie_slot e).
Definition index_map index : gmap Z Z := list_to_map (omap entry_pair index).

(** * Lemmas: positions on the circle *)

Definition pow2 : Prop := ∃ k, 0 ≤ k ≤ 63 ∧ capacity = 2 ^ k.
Context (Hpow : pow2).

Lemma capacity_pos : 0 < capacity ≤ 2 ^ 63.
Proof. destruct Hpow as (k & Hk & ->). split; [apply Z.pow_pos_nonneg; lia|apply Z.pow_le_mono_r; lia]. Qed.

Lemma land_mask x : Z.land x (capacity - 1) = x mod capacity.
Proof. destruct Hpow as (k & Hk & ->). rewrite <- Z.land_ones by lia. by rewrite Z.ones_equiv, <- Z.sub_1_r. Qed.

Lemma u64_mod x : u64 x mod capacity = x mod capacity.
Proof.
  destruct Hpow as (k & Hk & ->). unfold u64. apply Z.mod_mod_divide.
  exists (2 ^ (64 - k)). rewrite <- Z.pow_add_r by lia. f_equal. lia.
Qed.

Definition on_table pos : Prop := 0 ≤ pos < capacity.

(** How far behind [from] a position is. *)
Definition dist (from to : Z) : Z := if from <=? to then to - from else to - from + capacity.
Definition next pos : Z := if pos + 1 =? capacity then 0 else pos + 1.

Lemma home_range stream_id : on_table (tr_stream_index_home stream_id).
Proof. unfold tr_stream_index_home, on_table. rewrite land_mask. apply Z.mod_pos_bound, capacity_pos. Qed.

Lemma index_next_eq pos : on_table pos → index_next pos = next pos.
Proof.
  intros Hp. pose proof capacity_pos. unfold index_next, next, on_table in *. rewrite land_mask, u64_mod.
  destruct (Z.eqb_spec (pos + 1) capacity) as [->|]; [by rewrite Z.mod_same by lia|apply Z.mod_small; lia].
Qed.

Lemma index_distance_eq from to : on_table from → on_table to → index_distance from to = dist from to.
Proof.
  intros Hf Ht. pose proof capacity_pos. unfold index_distance, dist, on_table in *. rewrite land_mask, u64_mod.
  destruct (Z.leb_spec from to); [apply Z.mod_small; lia|].
  symmetry. apply Z.mod_unique with (-1); lia.
Qed.

(** Positions as distances, for linear arithmetic. *)
Ltac dist_lia :=
  pose proof capacity_pos; unfold dist, next, on_table in *;
  repeat match goal with
  | |- context [Z.leb ?a ?b] => destruct (Z.leb_spec a b)
  | H : context [Z.leb ?a ?b] |- _ => destruct (Z.leb_spec a b)
  | |- context [Z.eqb ?a ?b] => destruct (Z.eqb_spec a b)
  | H : context [Z.eqb ?a ?b] |- _ => destruct (Z.eqb_spec a b)
  end; try lia.

Lemma dist_range from to : on_table from → on_table to → 0 ≤ dist from to < capacity.
Proof. intros. dist_lia. Qed.
Lemma dist_zero from to : on_table from → on_table to → dist from to = 0 → from = to.
Proof. intros. dist_lia. Qed.
Lemma dist_inj from a b : on_table from → on_table a → on_table b → dist from a = dist from b → a = b.
Proof. intros. dist_lia. Qed.
Lemma next_range pos : on_table pos → on_table (next pos).
Proof. intros. dist_lia. Qed.
Lemma dist_next from pos : on_table from → on_table pos → dist from pos < capacity - 1 → dist from (next pos) = dist from pos + 1.
Proof. intros. dist_lia. Qed.
(** Going on from [b], which is on the way from [a] to [c]. *)
Lemma dist_split a b c : on_table a → on_table b → on_table c → dist a b ≤ dist a c → dist a b + dist b c = dist a c.
Proof. intros. dist_lia. Qed.
Lemma dist_pass a b c : on_table a → on_table b → on_table c → dist a c < dist a b → dist b c = dist b a + dist a c.
Proof. intros. dist_lia. Qed.

(** * Lemmas: probing *)

#[local] Abbreviation home := tr_stream_index_home.
#[local] Abbreviation id_at index pos := (ie_stream_id index.[pos]).

(** The first position from one on that is empty or has the id. *)
Fixpoint probe_walk (probes : nat) index pos stream_id : option Z :=
  match probes with
  | O => None
  | S probes =>
      if (id_at index pos =? 0) || (id_at index pos =? stream_id) then Some pos
      else probe_walk probes index (index_next pos) stream_id
  end.

Lemma position_walk probes index pos stream_id : stream_id ≠ 0 → position_loop probes index pos stream_id =
  match probe_walk probes index pos stream_id with
  | Some p => if id_at index p =? 0 then None else Some p
  | None => None
  end.
Proof.
  intros Hid. revert pos. induction probes as [|n IH]; intros pos; simpl; [done|].
  destruct (Z.eqb_spec (id_at index pos) 0) as [E|E]; simpl; [by rewrite E|].
  destruct (Z.eqb_spec (id_at index pos) stream_id); [|apply IH]. by destruct (Z.eqb_spec (id_at index pos) 0).
Qed.

Lemma insert_walk probes index pos stream_id slot : stream_id ≠ 0 → insert_loop probes index pos stream_id slot =
  match probe_walk probes index pos stream_id with
  | Some p => if id_at index p =? 0 then (TR_OK, index.[p <- mk_index_entry stream_id slot]) else (TR_ERR_STATE, index)
  | None => (TR_AGAIN, index)
  end.
Proof.
  intros Hid. revert pos. induction probes as [|n IH]; intros pos; simpl; [done|].
  destruct (Z.eqb_spec (id_at index pos) 0) as [E|E]; simpl; [by rewrite E|].
  destruct (Z.eqb_spec (id_at index pos) stream_id); [|apply IH]. by destruct (Z.eqb_spec (id_at index pos) 0).
Qed.

Lemma walk_spec from index stream_id probes : on_table from → ∀ pos, on_table pos →
  Z.of_nat probes = capacity - dist from pos →
  (∀ q, on_table q → dist from q < dist from pos → id_at index q ≠ 0 ∧ id_at index q ≠ stream_id) →
  match probe_walk probes index pos stream_id with
  | Some p => on_table p ∧ (id_at index p = 0 ∨ id_at index p = stream_id) ∧
      ∀ q, on_table q → dist from q < dist from p → id_at index q ≠ 0 ∧ id_at index q ≠ stream_id
  | None => ∀ q, on_table q → id_at index q ≠ 0 ∧ id_at index q ≠ stream_id
  end.
Proof.
  intros Hfrom. induction probes as [|n IH]; intros pos Hpos Hn Hbefore; cbn [probe_walk].
  { pose proof (dist_range from pos Hfrom Hpos). lia. }
  destruct (Z.eqb_spec (id_at index pos) 0) as [E|E]; [simpl; auto|].
  destruct (Z.eqb_spec (id_at index pos) stream_id) as [E'|E']; [simpl; auto|]. cbn [orb].
  assert (∀ q, on_table q → dist from q < dist from pos + 1 → id_at index q ≠ 0 ∧ id_at index q ≠ stream_id) as Hnext.
  { intros q Hq Hd. destruct (decide (q = pos)) as [->|Hne]; [done|]. apply Hbefore; [done|].
    assert (dist from q ≠ dist from pos); [|lia]. intros Eq. by apply Hne, (dist_inj from). }
  destruct n as [|n].
  { cbn [probe_walk]. intros q Hq. apply Hnext; [done|]. pose proof (dist_range from q Hfrom Hq). lia. }
  rewrite index_next_eq by done. apply IH; [by apply next_range|rewrite dist_next by (done || lia); lia|].
  intros q Hq. rewrite dist_next by (done || lia). by apply Hnext.
Qed.

(** * Lemmas: tables *)

(** Ids are there once, and probing for one meets no empty entry before it. *)
Record index_ok index : Prop := {
  ix_length : alen index = capacity;
  ix_once : ∀ p q, on_table p → on_table q → id_at index p ≠ 0 → id_at index p = id_at index q → p = q;
  ix_reach : ∀ p q, on_table p → on_table q → id_at index p ≠ 0 →
    dist (home (id_at index p)) q < dist (home (id_at index p)) p → id_at index q ≠ 0
}.

(** An entry is somewhere. *)
Definition holds index stream_id slot : Prop :=
  stream_id ≠ 0 ∧ ∃ p, on_table p ∧ index.[p] = mk_index_entry stream_id slot.

Lemma entry_eta e : e = mk_index_entry (ie_stream_id e) (ie_slot e).
Proof. by destruct e. Qed.

(** Probing for an id finds it, or shows that it is nowhere. *)
Lemma walk_home index stream_id : index_ok index → stream_id ≠ 0 →
  match probe_walk (Z.to_nat capacity) index (home stream_id) stream_id with
  | Some p => on_table p ∧ (id_at index p = stream_id ∨ id_at index p = 0 ∧ (∀ slot, ¬ holds index stream_id slot)) ∧
      ∀ q, on_table q → dist (home stream_id) q < dist (home stream_id) p → id_at index q ≠ 0
  | None => (∀ q, on_table q → id_at index q ≠ 0) ∧ ∀ slot, ¬ holds index stream_id slot
  end.
Proof.
  intros Hok Hid. pose proof (home_range stream_id) as Hh. pose proof capacity_pos as Hc.
  assert (dist (home stream_id) (home stream_id) = 0) as E0 by (unfold dist; rewrite Z.leb_refl; lia).
  pose proof (walk_spec (home stream_id) index stream_id (Z.to_nat capacity) Hh (home stream_id) Hh ltac:(lia)) as Hw.
  destruct (probe_walk _ _ _ _) as [p|].
  - destruct Hw as (Hp & Hstop & Hbefore). { intros q Hq. pose proof (dist_range _ _ Hh Hq). lia. }
    split; [done|]. split; [|intros q Hq Hd; by apply Hbefore]. destruct Hstop as [E|E]; [right|by left].
    split; [done|]. intros slot [_ (q & Hq & Eq)]. assert (id_at index q = stream_id) as Eid by by rewrite Eq.
    destruct (decide (dist (home stream_id) q < dist (home stream_id) p)) as [Hd|Hd]; [by apply (Hbefore q Hq)|].
    assert (dist (home stream_id) p < dist (home stream_id) q) as Hlt.
    { assert (dist (home stream_id) p ≠ dist (home stream_id) q); [|lia]. intros E'.
      apply (dist_inj (home stream_id)) in E' as ->; [congruence|done..]. }
    apply (ix_reach _ Hok q p Hq Hp); rewrite ?Eid; done.
  - split; [intros q Hq; apply Hw; [|done]|].
    + intros q' Hq'. pose proof (dist_range _ _ Hh Hq'). lia.
    + intros slot [_ (q & Hq & Eq)]. destruct (Hw) with q as [_ H]; [|done|by rewrite Eq in H].
      intros q' Hq'. pose proof (dist_range _ _ Hh Hq'). lia.
Qed.

Lemma holds_pos index p : on_table p → id_at index p ≠ 0 → holds index (id_at index p) (ie_slot index.[p]).
Proof. intros Hp Hne. split; [done|]. exists p. split; [done|]. apply entry_eta. Qed.

Lemma holds_once index p stream_id slot : index_ok index → on_table p → id_at index p = stream_id →
  holds index stream_id slot → index.[p] = mk_index_entry stream_id slot.
Proof.
  intros Hok Hp E [Hne (q & Hq & Eq)]. assert (p = q) as ->; [|done].
  apply (ix_once _ Hok); [done|done|congruence|]. by rewrite E, Eq.
Qed.

(** A new entry where probing stopped. *)
Lemma index_ok_insert index p stream_id slot : index_ok index → stream_id ≠ 0 → on_table p → id_at index p = 0 →
  (∀ q, on_table q → dist (home stream_id) q < dist (home stream_id) p → id_at index q ≠ 0) →
  (∀ s, ¬ holds index stream_id s) → index_ok (index.[p <- mk_index_entry stream_id slot]).
Proof.
  intros [Hl Honce Hreach] Hid Hp Hz Hbefore Hno.
  assert (∀ q, on_table q → index.[p <- mk_index_entry stream_id slot].[q] = if p =? q then mk_index_entry stream_id slot else index.[q]) as Hget.
  { intros q Hq. apply aget_aset; [by rewrite Hl|apply Hq]. }
  assert (∀ q, on_table q → id_at index q ≠ stream_id) as Hfree.
  { intros q Hq E. apply (Hno (ie_slot index.[q])). rewrite <- E at 1. apply holds_pos; [done|congruence]. }
  split; [by rewrite alen_aset|..].
  - intros a b Ha Hb. rewrite !Hget by done. destruct (Z.eqb_spec p a) as [<-|], (Z.eqb_spec p b) as [<-|]; simpl; intros Hne E; [done| | |by apply Honce].
    + by destruct (Hfree b).
    + by destruct (Hfree a).
  - intros a b Ha Hb. rewrite !Hget by done. destruct (Z.eqb_spec p a) as [<-|], (Z.eqb_spec p b) as [<-|]; simpl; intros Hne Hd; try done.
    + by apply Hbefore.
    + by apply (Hreach a b).
Qed.

Lemma holds_insert index p stream_id slot k v : alen index = capacity → stream_id ≠ 0 → on_table p → id_at index p = 0 →
  holds (index.[p <- mk_index_entry stream_id slot]) k v ↔ (k = stream_id ∧ v = slot) ∨ holds index k v.
Proof.
  intros Hl Hid Hp Hz. unfold holds. split.
  - intros (Hk & q & Hq & E). rewrite aget_aset in E by (rewrite ?Hl; apply Hp || apply Hq).
    destruct (Z.eqb_spec p q); [left; by injection E as -> ->|right; eauto].
  - intros [[-> ->]|(Hk & q & Hq & E)]; (split; [done|]).
    + exists p. split; [done|]. apply aget_aset_eq. rewrite Hl. apply Hp.
    + exists q. split; [done|]. rewrite aget_aset_ne; [done|apply Hp|apply Hq|]. intros <-. by rewrite E in Hz.
Qed.

(** * Lemmas: closing the gap *)

(** The table while entries move back: the hole counts as empty, [z] is an empty entry ahead,
    and only entries that have not been looked at may be probed for across the hole. *)
Record shifting index hole scan z (entries : Z → Z → Prop) : Prop := {
  sh_length : alen index = capacity;
  sh_range : on_table hole ∧ on_table scan ∧ on_table z;
  sh_end : z ≠ hole ∧ id_at index z = 0;
  sh_ahead : 1 ≤ dist hole scan ∧ dist hole scan + dist scan z = dist hole z;
  sh_once : ∀ p q, on_table p → on_table q → p ≠ hole → q ≠ hole → id_at index p ≠ 0 → id_at index p = id_at index q → p = q;
  sh_reach : ∀ p q, on_table p → on_table q → p ≠ hole → id_at index p ≠ 0 →
    dist (home (id_at index p)) q < dist (home (id_at index p)) p →
    if decide (q = hole) then dist hole scan ≤ dist hole p else id_at index q ≠ 0;
  sh_entries : ∀ k v, (k ≠ 0 ∧ ∃ p, on_table p ∧ p ≠ hole ∧ index.[p] = mk_index_entry k v) ↔ entries k v
}.

(** The scan leaves an entry, whose probes do not cross the hole. *)
Lemma shift_stay index hole scan z entries : shifting index hole scan z entries → id_at index scan ≠ 0 →
  dist (home (id_at index scan)) scan ≤ dist (home (id_at index scan)) hole →
  shifting index hole (next scan) z entries.
Proof.
  intros [Hl (Hh & Hs & Hz) [Hzh Hz0] [Ha1 Ha2] Honce Hreach Hmap] Hne Hd.
  assert (scan ≠ z) as Hsz by congruence.
  pose proof (dist_range hole z Hh Hz). pose proof (dist_range scan z Hs Hz).
  assert (0 < dist scan z) by (assert (dist scan z ≠ 0); [intros E; by apply Hsz, dist_zero|lia]).
  assert (dist hole (next scan) = dist hole scan + 1) as E1 by (apply dist_next; [done|done|lia]).
  pose proof (next_range _ Hs) as Hn.
  split; try done.
  - split; [lia|]. rewrite E1. pose proof (dist_split hole (next scan) z Hh Hn Hz ltac:(lia)). lia.
  - intros p q Hp Hq Hph Hpne Hlt. pose proof (Hreach p q Hp Hq Hph Hpne Hlt) as H'.
    destruct (decide (q = hole)) as [->|]; [|done]. rewrite E1.
    assert (dist hole scan ≠ dist hole p); [|lia]. intros E. apply (dist_inj hole) in E as ->; [lia|done..].
Qed.

(** The entry moves into the hole, and leaves one behind. *)
Lemma shift_move index hole scan z entries : shifting index hole scan z entries → id_at index scan ≠ 0 →
  dist (home (id_at index scan)) hole < dist (home (id_at index scan)) scan →
  shifting (index.[hole <- index.[scan]]) scan (next scan) z entries.
Proof.
  intros [Hl (Hh & Hs & Hz) [Hzh Hz0] [Ha1 Ha2] Honce Hreach Hmap] Hne Hd.
  assert (scan ≠ z) as Hsz by congruence.
  assert (hole ≠ scan) as Hhs by (intros ->; unfold dist in Ha1; rewrite Z.leb_refl in Ha1; lia).
  pose proof (dist_range scan z Hs Hz). pose proof (next_range _ Hs) as Hn. pose proof capacity_pos.
  assert (0 < dist scan z) by (assert (dist scan z ≠ 0); [intros E; by apply Hsz, dist_zero|lia]).
  assert (dist scan scan = 0) as E0 by (unfold dist; rewrite Z.leb_refl; lia).
  assert (dist scan (next scan) = 1) as E1 by (rewrite dist_next, E0 by (done || lia); done).
  assert (∀ q, on_table q → index.[hole <- index.[scan]].[q] = if hole =? q then index.[scan] else index.[q]) as Hget.
  { intros q Hq. apply aget_aset; [by rewrite Hl|apply Hq]. }
  split; try done.
  - by rewrite alen_aset.
  - split; [done|]. rewrite Hget by done. destruct (Z.eqb_spec hole z); [by subst|done].
  - split; [lia|]. rewrite E1. pose proof (dist_split scan (next scan) z Hs Hn Hz ltac:(lia)). lia.
  - intros p q Hp Hq Hps Hqs. rewrite !Hget by done. destruct (Z.eqb_spec hole p) as [<-|], (Z.eqb_spec hole q) as [<-|]; intros Hpne E; [done| | |].
    + exfalso. by apply Hqs, eq_sym, (Honce scan q).
    + exfalso. by apply Hps, (Honce p scan).
    + by apply (Honce p q).
  - intros p q Hp Hq Hps. rewrite !Hget by done. destruct (Z.eqb_spec hole p) as [<-|Hph].
    + intros _ Hlt. rewrite decide_False by (intros ->; lia).
      destruct (Z.eqb_spec hole q) as [|Hqh]; [done|].
      pose proof (Hreach scan q Hs Hq (not_eq_sym Hhs) Hne ltac:(lia)) as Hr. by rewrite decide_False in Hr by congruence.
    + intros Hpne Hlt. destruct (decide (q = scan)) as [->|Hqs].
      * rewrite E1. assert (dist scan p ≠ 0); [intros E; by apply Hps, eq_sym, dist_zero|]. pose proof (dist_range scan p Hs Hp). lia.
      * destruct (Z.eqb_spec hole q) as [|Hqh]; [done|].
        pose proof (Hreach p q Hp Hq (not_eq_sym Hph) Hpne Hlt) as Hr. by rewrite decide_False in Hr by congruence.
  - intros k v. rewrite <- Hmap. apply and_iff_compat_l. split.
    + intros (p & Hp & Hps & E). rewrite Hget in E by done. destruct (Z.eqb_spec hole p) as [<-|Hph]; [by exists scan; eauto|by exists p; eauto].
    + intros (p & Hp & Hph & E). destruct (decide (p = scan)) as [->|Hps].
      * exists hole. rewrite Hget by done. by rewrite Z.eqb_refl.
      * exists p. rewrite Hget by done. by destruct (Z.eqb_spec hole p).
Qed.

(** The scan meets an empty entry, and the hole becomes one. *)
Lemma shift_end index hole scan z entries : shifting index hole scan z entries → id_at index scan = 0 →
  index_ok (index.[hole <- empty_entry]) ∧ ∀ k v, holds (index.[hole <- empty_entry]) k v ↔ entries k v.
Proof.
  intros [Hl (Hh & Hs & Hz) [Hzh Hz0] [Ha1 Ha2] Honce Hreach Hmap] He.
  assert (hole ≠ scan) as Hhs by (intros ->; unfold dist in Ha1; rewrite Z.leb_refl in Ha1; lia).
  assert (∀ q, on_table q → index.[hole <- empty_entry].[q] = if hole =? q then empty_entry else index.[q]) as Hget.
  { intros q Hq. apply aget_aset; [by rewrite Hl|apply Hq]. }
  split; [split|].
  - by rewrite alen_aset.
  - intros p q Hp Hq. rewrite !Hget by done. destruct (Z.eqb_spec hole p), (Z.eqb_spec hole q); simpl; intros Hne E; try done.
    apply Honce; congruence.
  - intros p q Hp Hq. rewrite !Hget by done. destruct (Z.eqb_spec hole p) as [|Hph]; [done|]. intros Hne Hlt.
    pose proof (Hreach p q Hp Hq (not_eq_sym Hph) Hne Hlt) as Hr.
    destruct (Z.eqb_spec hole q) as [<-|Hqh]; [exfalso|by rewrite decide_False in Hr by congruence].
    rewrite decide_True in Hr by done. set (h := home (id_at index p)) in *.
    assert (on_table h) as Hhh by apply home_range.
    assert (p ≠ scan) by congruence.
    assert (dist hole scan ≠ dist hole p) by (intros E; by apply (dist_inj hole) in E).
    pose proof (dist_split h hole p Hhh Hh Hp ltac:(lia)).
    assert (dist h scan = dist h hole + dist hole scan) as E1.
    { pose proof (dist_range h p Hhh Hp). clear -Hpow Hhh Hh Hs Hp H1 Hr H2. dist_lia. }
    pose proof (Hreach p scan Hp Hs (not_eq_sym Hph) Hne ltac:(fold h; lia)) as Hr2.
    by rewrite decide_False in Hr2 by congruence.
  - intros k v. rewrite <- Hmap. unfold holds. split.
    + intros (Hk & p & Hp & E). split; [done|]. rewrite Hget in E by done. destruct (Z.eqb_spec hole p) as [|Hph]; [by injection E|].
      exists p. by split_and!.
    + intros (Hk & p & Hp & Hph & E). split; [done|]. exists p. split; [done|]. rewrite Hget by done. by destruct (Z.eqb_spec hole p).
Qed.

Lemma shift_loop_spec entries z fuel : ∀ index hole scan, shifting index hole scan z entries → dist scan z ≤ Z.of_nat fuel →
  ∃ index' hole', shift_loop fuel index hole scan = Some (index', hole') ∧
    index_ok (index'.[hole' <- empty_entry]) ∧ ∀ k v, holds (index'.[hole' <- empty_entry]) k v ↔ entries k v.
Proof.
  induction fuel as [|fuel IH]; intros index hole scan Hsh Hf; cbn [shift_loop].
  all: pose proof (sh_range _ _ _ _ _ Hsh) as (Hh & Hs & Hz).
  all: destruct (Z.eqb_spec (id_at index scan) 0) as [E|E]; [exists index, hole; split; [done|]; by eapply shift_end|].
  { exfalso. assert (scan = z) as ->; [|by apply E, (sh_end _ _ _ _ _ Hsh)]. apply dist_zero; try done.
    pose proof (dist_range scan z Hs Hz). lia. }
  rewrite !index_distance_eq by (done || apply home_range). rewrite index_next_eq by done.
  assert (dist (next scan) z ≤ Z.of_nat fuel) as Hf'.
  { assert (scan ≠ z) by (intros ->; by apply E, (sh_end _ _ _ _ _ Hsh)).
    assert (dist scan z ≠ 0) by (intros E'; by apply dist_zero in E').
    assert (dist scan scan = 0) by (unfold dist; rewrite Z.leb_refl; lia).
    pose proof (dist_range scan z Hs Hz). pose proof (dist_next scan scan Hs Hs ltac:(lia)).
    pose proof (dist_split scan (next scan) z Hs (next_range _ Hs) Hz ltac:(lia)). lia. }
  destruct (Z.ltb_spec (dist (home (id_at index scan)) hole) (dist (home (id_at index scan)) scan)) as [Hd|Hd].
  - apply IH; [by apply shift_move|done].
  - apply IH; [by apply shift_stay|done].
Qed.

(** * Lemmas: the table as a map *)

Lemma get_lookup index p e : alen index = capacity → on_table p → index.[p] = e ↔ index !! Z.to_nat p = Some e.
Proof.
  intros Hl Hp. unfold on_table in Hp. rewrite (aget_lookup index p) by lia. split; [by intros ->|by intros [= ->]].
Qed.

Lemma stored_pair_in index k v : index_ok index → (k, v) ∈ omap entry_pair index ↔ holds index k v.
Proof.
  intros Hok. pose proof (ix_length _ Hok) as Hl. rewrite list_elem_of_omap. unfold entry_pair. split.
  - intros (e & (i & Hi)%list_elem_of_lookup & E). destruct (Z.eqb_spec (ie_stream_id e) 0); [done|]. injection E as <- <-.
    split; [done|]. apply lookup_lt_Some in Hi as Hlt. unfold alen in Hl.
    assert (on_table (Z.of_nat i)) by (unfold on_table; lia).
    exists (Z.of_nat i). split; [done|]. apply get_lookup; [done|done|]. rewrite Nat2Z.id, Hi. by rewrite <- entry_eta.
  - intros (Hk & p & Hp & E). exists (mk_index_entry k v). split.
    + apply list_elem_of_lookup. exists (Z.to_nat p). by apply get_lookup.
    + simpl. by destruct (Z.eqb_spec k 0).
Qed.

Lemma pairs_nodup (l : list tr_stream_index_entry) :
  (∀ i j a b, l !! i = Some a → l !! j = Some b → ie_stream_id a ≠ 0 → ie_stream_id a = ie_stream_id b → i = j) →
  NoDup (omap entry_pair l).*1.
Proof.
  induction l as [|e l IH]; intros H; [constructor|]. simpl.
  assert (NoDup (omap entry_pair l).*1) as Hl.
  { apply IH. intros i j a b Ha Hb H1 H2. by injection (H (S i) (S j) a b Ha Hb H1 H2). }
  unfold entry_pair at 1. destruct (Z.eqb_spec (ie_stream_id e) 0) as [|Hne]; [done|]. simpl. constructor; [|done].
  intros ((k & v) & E & Hin)%list_elem_of_fmap. simpl in E. subst k.
  apply list_elem_of_omap in Hin as (a & (j & Hj)%list_elem_of_lookup & Ea). unfold entry_pair in Ea.
  destruct (Z.eqb_spec (ie_stream_id a) 0); [done|]. injection Ea as Ea _.
  discriminate (H 0%nat (S j) e a eq_refl Hj Hne (eq_sym Ea)).
Qed.

Lemma index_nodup index : index_ok index → NoDup (omap entry_pair index).*1.
Proof.
  intros Hok. pose proof (ix_length _ Hok) as Hl. apply pairs_nodup. intros i j a b Ha Hb Hne E.
  apply lookup_lt_Some in Ha as Hi. apply lookup_lt_Some in Hb as Hj. unfold alen in Hl.
  assert (on_table (Z.of_nat i) ∧ on_table (Z.of_nat j)) as [Hti Htj] by (unfold on_table; lia).
  assert (index.[Z.of_nat i] = a) as Ea by (apply get_lookup; [done|done|by rewrite Nat2Z.id]).
  assert (index.[Z.of_nat j] = b) as Eb by (apply get_lookup; [done|done|by rewrite Nat2Z.id]).
  apply Nat2Z.inj. apply (ix_once _ Hok); [done|done|by rewrite Ea|by rewrite Ea, Eb].
Qed.

Lemma index_map_some index k v : index_ok index → index_map index !! k = Some v ↔ holds index k v.
Proof. intros Hok. unfold index_map. rewrite <- elem_of_list_to_map by (by apply index_nodup). by apply stored_pair_in. Qed.

Lemma index_map_none index k : index_ok index → index_map index !! k = None ↔ ∀ v, ¬ holds index k v.
Proof.
  intros Hok. rewrite eq_None_not_Some. split.
  - intros H v Hv. apply H. exists v. by apply index_map_some.
  - intros H [v Hv]. apply (H v). by apply index_map_some.
Qed.

(** With fewer entries than there is room for, one is empty. *)
Lemma index_room index : index_ok index → Z.of_nat (size (index_map index)) < capacity → ∃ z, on_table z ∧ id_at index z = 0.
Proof.
  intros Hok Hsz. pose proof (ix_length _ Hok) as Hl.
  destruct (decide (Exists (λ e, ie_stream_id e = 0) index)) as [(e & (i & Hi)%list_elem_of_lookup & E)%Exists_exists|Hno].
  - apply lookup_lt_Some in Hi as Hlt. unfold alen in Hl. assert (on_table (Z.of_nat i)) by (unfold on_table; lia).
    exists (Z.of_nat i). split; [done|]. assert (index.[Z.of_nat i] = e) as -> by (apply get_lookup; [done|done|by rewrite Nat2Z.id]). done.
  - exfalso. assert (length (omap entry_pair index) = length index) as E.
    { clear -Hno. induction index as [|e l IH]; [done|]. simpl. rewrite Exists_cons in Hno. unfold entry_pair at 1.
      destruct (Z.eqb_spec (ie_stream_id e) 0); [tauto|]. simpl. f_equal. tauto. }
    unfold index_map in Hsz. rewrite map_size_list_to_map, E in Hsz by (by apply index_nodup). unfold alen in Hl. lia.
Qed.

(** * Theorems *)

Lemma index_find_spec index stream_id : index_ok index → (∀ k v, index_map index !! k = Some v → v < max_streams) →
  index_find index stream_id = if stream_id =? 0 then None else index_map index !! stream_id.
Proof.
  intros Hok Hslots. pose proof capacity_pos. unfold index_find. destruct (Z.eqb_spec stream_id 0) as [|Hid]; [done|].
  destruct (Z.eqb_spec capacity 0); [lia|]. cbn [orb]. rewrite position_walk by done.
  pose proof (walk_home index stream_id Hok Hid) as Hw. destruct (probe_walk _ _ _ _) as [p|].
  - destruct Hw as (Hp & [E|[E Hno]] & _).
    + destruct (Z.eqb_spec (id_at index p) 0); [congruence|].
      assert (index_map index !! stream_id = Some (ie_slot index.[p])) as Em.
      { apply index_map_some; [done|]. rewrite <- E at 1. apply holds_pos; [done|congruence]. }
      rewrite Em. pose proof (Hslots _ _ Em). destruct (_ >=? _) eqn:Eg; [|done]. apply Z.geb_le in Eg. lia.
    + rewrite E. simpl. symmetry. by apply index_map_none.
  - symmetry. by apply index_map_none, Hw.
Qed.

Lemma index_insert_spec index stream_id slot : index_ok index → stream_id ≠ 0 → slot < max_streams →
  Z.of_nat (size (index_map index)) < capacity →
  let '(ret, index') := tr_stream_index_insert_locked index stream_id slot in
  match index_map index !! stream_id with
  | Some _ => ret = TR_ERR_STATE ∧ index' = index
  | None => ret = TR_OK ∧ index_ok index' ∧ index_map index' = <[stream_id := slot]> (index_map index)
  end.
Proof.
  intros Hok Hid Hslot Hroom. pose proof capacity_pos. unfold tr_stream_index_insert_locked.
  destruct (Z.eqb_spec stream_id 0); [done|]. destruct (slot >=? max_streams) eqn:Eg; [apply Z.geb_le in Eg; lia|].
  destruct (Z.eqb_spec capacity 0); [lia|]. cbn [orb]. rewrite insert_walk by done.
  pose proof (walk_home index stream_id Hok Hid) as Hw. destruct (probe_walk _ _ _ _) as [p|].
  - destruct Hw as (Hp & [E|[E Hno]] & Hbefore).
    + destruct (Z.eqb_spec (id_at index p) 0); [congruence|].
      assert (index_map index !! stream_id = Some (ie_slot index.[p])) as ->; [|done].
      apply index_map_some; [done|]. rewrite <- E at 1. apply holds_pos; [done|congruence].
    + rewrite E. simpl. rewrite (proj2 (index_map_none _ _ Hok)) by done.
      pose proof (index_ok_insert _ _ _ slot Hok Hid Hp E Hbefore Hno) as Hok'. split_and!; [done|done|].
      apply map_eq. intros k. apply option_eq. intros v. rewrite index_map_some by done.
      rewrite holds_insert by (done || apply Hok). rewrite lookup_insert_Some, index_map_some by done. split.
      * intros [[-> ->]|Hh]; [by left|]. destruct (decide (stream_id = k)) as [<-|]; [by destruct (Hno v)|by right].
      * intros [[<- <-]|[_ Hh]]; [by left|by right].
  - destruct Hw as [Hfull _]. destruct (index_room index Hok Hroom) as (z & Hz & Ez). by destruct (Hfull z).
Qed.

Lemma index_remove_spec index stream_id : index_ok index → stream_id ≠ 0 → Z.of_nat (size (index_map index)) < capacity →
  ∃ ret index', tr_stream_index_remove_locked index stream_id = Some (ret, index') ∧
  match index_map index !! stream_id with
  | None => ret = TR_ERR_STALE ∧ index' = index
  | Some _ => ret = TR_OK ∧ index_ok index' ∧ index_map index' = delete stream_id (index_map index)
  end.
Proof.
  intros Hok Hid Hroom. pose proof capacity_pos. unfold tr_stream_index_remove_locked.
  destruct (Z.eqb_spec stream_id 0); [done|]. destruct (Z.eqb_spec capacity 0); [lia|]. cbn [orb]. rewrite position_walk by done.
  pose proof (walk_home index stream_id Hok Hid) as Hw. destruct (probe_walk _ _ _ _) as [p|].
  2: { eexists _, _. split; [done|]. by rewrite (proj2 (index_map_none _ _ Hok)) by apply Hw. }
  destruct Hw as (Hp & [E|[E Hno]] & _).
  2: { rewrite E. simpl. eexists _, _. split; [done|]. by rewrite (proj2 (index_map_none _ _ Hok)) by done. }
  destruct (Z.eqb_spec (id_at index p) 0) as [|Hne]; [congruence|].
  destruct (index_room index Hok Hroom) as (z & Hz & Ez).
  assert (z ≠ p) as Hzp by congruence. rewrite index_next_eq by done. pose proof (next_range p Hp) as Hn.
  assert (dist p p = 0) as E0 by (unfold dist; rewrite Z.leb_refl; lia).
  assert (0 < dist p z) as Hpz.
  { pose proof (dist_range p z Hp Hz). assert (dist p z ≠ 0); [|lia]. intros E'. by apply Hzp, eq_sym, dist_zero. }
  pose proof (dist_range p z Hp Hz). assert (dist p (next p) = 1) as E1 by (rewrite dist_next by (done || lia); lia).
  destruct (shift_loop_spec (λ k v, holds index k v ∧ k ≠ stream_id) z (Z.to_nat capacity) index p (next p))
    as (index' & hole & -> & Hok' & Hmap).
  { split; try done.
    - apply Hok.
    - rewrite E1. split; [done|]. pose proof (dist_split p (next p) z Hp Hn Hz ltac:(lia)). lia.
    - intros a b Ha Hb _ _. by apply (ix_once _ Hok).
    - intros a q Ha Hq Hap Hane Hlt. case_decide as Hqp; [|by apply (ix_reach _ Hok a q)]. rewrite E1.
      assert (dist p a ≠ 0); [intros E'; by apply Hap, eq_sym, dist_zero|]. pose proof (dist_range p a Hp Ha). lia.
    - intros k v. unfold holds. split.
      + intros (Hk & a & Ha & Hap & Ea). split; [eauto|]. intros ->. apply Hap. apply (ix_once _ Hok); rewrite ?Ea; try done.
      + intros [(Hk & a & Ha & Ea) Hks]. split; [done|]. exists a. split_and!; [done| |done]. intros ->. by rewrite Ea in E. }
  { pose proof (dist_range (next p) z Hn Hz). lia. }
  eexists _, _. split; [done|].
  assert (index_map index !! stream_id = Some (ie_slot index.[p])) as ->.
  { apply index_map_some; [done|]. rewrite <- E at 1. by apply holds_pos. }
  split_and!; [done|done|]. apply map_eq. intros k. apply option_eq. intros v.
  rewrite index_map_some, Hmap, lookup_delete_Some, index_map_some by done. split; [by intros [? ?]|by intros [? ?]].
Qed.

End Index.

(** The capacity of a channel's index: a power of two, with room to spare. *)
Lemma capacity_loop_spec fuel : ∀ k target, 0 ≤ k → 0 < target ≤ 2 ^ 33 → 2 ^ k < 2 * target → 34 - k ≤ Z.of_nat fuel →
  ∃ j, capacity_loop fuel (2 ^ k) target = 2 ^ j ∧ 0 ≤ j ≤ 63 ∧ target ≤ 2 ^ j < 2 * target.
Proof.
  induction fuel as [|fuel IH]; intros k target Hk Ht Hlt Hf; cbn [capacity_loop].
  - exfalso. assert (2 ^ 34 ≤ 2 ^ k) by (apply Z.pow_le_mono_r; lia). lia.
  - assert (k < 34) as Hk34. { destruct (Z.lt_ge_cases k 34); [done|]. assert (2 ^ 34 ≤ 2 ^ k) by (apply Z.pow_le_mono_r; lia). lia. }
    destruct (Z.ltb_spec (2 ^ k) target) as [Hlt'|Hge].
    + assert (2 ^ k ≤ 2 ^ 33) as Hle by lia.
      destruct (2 ^ k >? SIZE_MAX / 2) eqn:Eg.
      { rewrite Z.gtb_ltb in Eg. apply Z.ltb_lt in Eg. change (SIZE_MAX / 2) with (2 ^ 63 - 1) in Eg. lia. }
      assert (u64 (Z.shiftl (2 ^ k) 1) = 2 ^ (k + 1)) as ->.
      { rewrite Z.shiftl_mul_pow2 by lia. rewrite <- Z.pow_add_r by lia. apply u64_small. rewrite Z.pow_add_r by lia. word_lia. }
      apply IH; [lia|done| |lia]. rewrite Z.pow_add_r by lia. lia.
    + exists k. split_and!; lia.
Qed.

Lemma capacity_for_spec max_streams : u32_ok max_streams → max_streams ≠ 0 →
  pow2 (tr_stream_index_capacity_for max_streams) ∧ max_streams < tr_stream_index_capacity_for max_streams.
Proof.
  intros Hm Hne. unfold tr_stream_index_capacity_for. destruct (Z.eqb_spec max_streams 0); [done|].
  destruct (capacity_loop_spec 65 0 (max_streams * 2)) as (j & E & Hj & Hb); [lia|word_lia|word_lia|lia|].
  change (2 ^ 0) with 1 in E. rewrite E. split; [by exists j|word_lia].
Qed.

(** * Sequences of operations *)

Inductive index_op := Ix_insert (stream_id slot : Z) | Ix_remove (stream_id : Z) | Ix_find (stream_id : Z).
Inductive index_answer := Ans_status (ret : tr_status) | Ans_slot (slot : option Z).

Definition index_step (capacity max_streams : Z) (op : index_op) (index : list tr_stream_index_entry)
    : option (index_answer * list tr_stream_index_entry) :=
  match op with
  | Ix_insert stream_id slot =>
      let '(ret, index) := tr_stream_index_insert_locked capacity max_streams index stream_id slot in
      Some (Ans_status ret, index)
  | Ix_remove stream_id =>
      '(ret, index) ← tr_stream_index_remove_locked capacity index stream_id; Some (Ans_status ret, index)
  | Ix_find stream_id => Some (Ans_slot (index_find capacity max_streams index stream_id), index)
  end.
Fixpoint index_run (capacity max_streams : Z) (ops : list index_op) (index : list tr_stream_index_entry)
    : option (list index_answer * list tr_stream_index_entry) :=
  match ops with
  | [] => Some ([], index)
  | op :: ops =>
      '(a, index) ← index_step capacity max_streams op index;
      '(answers, index) ← index_run capacity max_streams ops index;
      Some (a :: answers, index)
  end.

(** The specification: a map of at most [max_streams] ids; an insertion beyond that is not a
    legal use ([None]). *)
Definition map_step (max_streams : Z) (op : index_op) (m : gmap Z Z) : option (index_answer * gmap Z Z) :=
  match op with
  | Ix_insert stream_id slot =>
      if (stream_id =? 0) || (slot >=? max_streams) then Some (Ans_status TR_ERR_INVALID, m)
      else if bool_decide (is_Some (m !! stream_id)) then Some (Ans_status TR_ERR_STATE, m)
      else if Z.of_nat (size m) <? max_streams then Some (Ans_status TR_OK, <[stream_id := slot]> m)
      else None
  | Ix_remove stream_id =>
      if stream_id =? 0 then Some (Ans_status TR_ERR_INVALID, m)
      else if bool_decide (is_Some (m !! stream_id)) then Some (Ans_status TR_OK, delete stream_id m)
      else Some (Ans_status TR_ERR_STALE, m)
  | Ix_find stream_id => Some (Ans_slot (m !! stream_id), m)
  end.
Fixpoint map_run (max_streams : Z) (ops : list index_op) (m : gmap Z Z) : option (list index_answer * gmap Z Z) :=
  match ops with
  | [] => Some ([], m)
  | op :: ops =>
      '(a, m) ← map_step max_streams op m;
      '(answers, m) ← map_run max_streams ops m;
      Some (a :: answers, m)
  end.

(** A table that stands for a legal map. *)
Record index_stands (capacity max_streams : Z) (index : list tr_stream_index_entry) (m : gmap Z Z) : Prop := {
  is_table : index_ok capacity index;
  is_map : index_map index = m;
  is_size : Z.of_nat (size m) ≤ max_streams;
  is_slots : ∀ k v, m !! k = Some v → k ≠ 0 ∧ v < max_streams
}.

(** The table that [tr_channel_create] allocates. *)
Lemma empty_stands capacity max_streams : pow2 capacity → 0 ≤ max_streams →
  index_stands capacity max_streams (replicate (Z.to_nat capacity) empty_entry) ∅.
Proof.
  intros Hpow Hm. pose proof (capacity_pos capacity Hpow) as Hc.
  assert (∀ p, on_table capacity p → (replicate (Z.to_nat capacity) empty_entry).[p] = empty_entry) as Hget.
  { intros p Hp. unfold on_table in Hp. unfold aget. apply list_lookup_total_correct, lookup_replicate_2. lia. }
  assert (omap entry_pair (replicate (Z.to_nat capacity) empty_entry) = []) as Hnone.
  { clear. induction (Z.to_nat capacity) as [|n IH]; [done|]. exact IH. }
  split.
  - split; [unfold alen; rewrite length_replicate; lia|..]; intros p q Hp Hq; rewrite !Hget by done; simpl; done.
  - unfold index_map. by rewrite Hnone.
  - by rewrite map_size_empty.
  - intros k v. by rewrite lookup_empty.
Qed.

(** What one operation answers and leaves. *)
Lemma index_step_stands capacity max_streams op index m a m' : pow2 capacity → max_streams < capacity →
  index_stands capacity max_streams index m → map_step max_streams op m = Some (a, m') →
  ∃ index', index_step capacity max_streams op index = Some (a, index') ∧ index_stands capacity max_streams index' m'.
Proof.
  intros Hpow Hcap [Hok Hm Hsize Hslots] Hstep. subst m. pose proof (capacity_pos capacity Hpow) as Hc.
  assert (Z.of_nat (size (index_map index)) < capacity) as Hroom by lia.
  destruct op as [id slot|id|id]; unfold map_step in Hstep; unfold index_step.
  - destruct ((id =? 0) || (slot >=? max_streams)) eqn:Eg.
    + injection Hstep as <- <-. unfold tr_stream_index_insert_locked. rewrite Eg. cbn [orb]. by eexists.
    + apply orb_false_iff in Eg as [Hid%Z.eqb_neq Hslot]. rewrite Z.geb_leb in Hslot. apply Z.leb_gt in Hslot.
      pose proof (index_insert_spec capacity max_streams Hpow index id slot Hok Hid Hslot Hroom) as Hi.
      destruct (tr_stream_index_insert_locked _ _ _ _ _) as [ret index']. case_bool_decide as Hin.
      * destruct Hin as [v Hv]. rewrite Hv in Hi. destruct Hi as [-> ->]. injection Hstep as <- <-. by eexists.
      * apply eq_None_not_Some in Hin. rewrite Hin in Hi. destruct Hi as (-> & Hok' & Hm').
        destruct (Z.ltb_spec (Z.of_nat (size (index_map index))) max_streams); [|done]. injection Hstep as <- <-.
        eexists. split; [done|]. split; [done|done|rewrite map_size_insert_None by done; lia|].
        intros k v [[<- <-]|[_ Hk]]%lookup_insert_Some; [done|by apply Hslots].
  - destruct (Z.eqb_spec id 0) as [->|Hid]; [injection Hstep as <- <-; by eexists|].
    destruct (index_remove_spec capacity Hpow index id Hok Hid Hroom) as (ret & index' & -> & Hr). case_bool_decide as Hin.
    + destruct Hin as [v Hv]. rewrite Hv in Hr. destruct Hr as (-> & Hok' & Hm'). injection Hstep as <- <-.
      eexists. split; [done|]. split; [done|done|rewrite map_size_delete, Hv; simpl; lia|].
      intros k w [_ Hk]%lookup_delete_Some. by apply Hslots.
    + apply eq_None_not_Some in Hin. rewrite Hin in Hr. destruct Hr as [-> ->]. injection Hstep as <- <-. by eexists.
  - injection Hstep as <- <-. eexists. split; [|done].
    rewrite (index_find_spec capacity max_streams Hpow) by (done || (intros k v Hk; apply (Hslots k v Hk))).
    destruct (Z.eqb_spec id 0) as [->|]; [|done].
    destruct (index_map index !! 0) as [v|] eqn:E; [by destruct (Hslots _ _ E)|done].
Qed.

(** C31: The index of a channel of [max_streams] streams is a finite map from ids to slots: any
    sequence of insertions, removals and searches that keeps at most [max_streams] ids ends,
    answers as the map does and leaves a table that stands for it. *)
Theorem stream_index_refines_map max_streams ops answers m :
  u32_ok max_streams → max_streams ≠ 0 → map_run max_streams ops ∅ = Some (answers, m) →
  let capacity := tr_stream_index_capacity_for max_streams in
  ∃ index, index_run capacity max_streams ops (replicate (Z.to_nat capacity) empty_entry) = Some (answers, index) ∧
    index_map index = m.
Proof.
  intros Hm Hne Hrun capacity. destruct (capacity_for_spec max_streams Hm Hne) as [Hpow Hcap].
  assert (index_stands capacity max_streams (replicate (Z.to_nat capacity) empty_entry) ∅) as Hst
    by (apply empty_stands; [done|apply Hm]).
  revert Hst Hrun. fold capacity in Hpow, Hcap. generalize (replicate (Z.to_nat capacity) empty_entry) (∅ : gmap Z Z).
  revert answers. induction ops as [|op ops IH]; intros answers index m0 Hst; cbn [map_run index_run].
  - intros [= <- <-]. exists index. split; [done|apply Hst].
  - destruct (map_step max_streams op m0) as [[a m1]|] eqn:Estep; [|done]. simpl.
    destruct (index_step_stands _ _ _ _ _ _ _ Hpow Hcap Hst Estep) as (index1 & -> & Hst1). simpl.
    destruct (map_run max_streams ops m1) as [[answers' m2]|] eqn:Erun; [|done]. intros [= <- <-].
    destruct (IH answers' index1 m1 Hst1 Erun) as (index2 & -> & Hm2). by exists index2.
Qed.

(** * Witnesses *)

(** Four streams in eight entries; the probes of ids 3, 5, 7 and 9 collide. *)
Definition index_demo : list index_op :=
  [Ix_insert 1 0; Ix_insert 3 1; Ix_insert 5 2; Ix_insert 7 3; Ix_insert 5 2; Ix_remove 3; Ix_find 5; Ix_find 7;
   Ix_insert 9 1; Ix_remove 1; Ix_find 9; Ix_find 3; Ix_remove 11; Ix_insert 0 0].
Definition index_demo_answers : list index_answer :=
  [Ans_status TR_OK; Ans_status TR_OK; Ans_status TR_OK; Ans_status TR_OK; Ans_status TR_ERR_STATE; Ans_status TR_OK;
   Ans_slot (Some 2); Ans_slot (Some 3); Ans_status TR_OK; Ans_status TR_OK; Ans_slot (Some 1); Ans_slot None;
   Ans_status TR_ERR_STALE; Ans_status TR_ERR_INVALID].
Definition index_demo_map : gmap Z Z := list_to_map [(5, 2); (7, 3); (9, 1)].

Lemma index_demo_run : map_run 4 index_demo ∅ = Some (index_demo_answers, index_demo_map).
Proof. vm_compute. reflexivity. Qed.

Lemma stream_index_refines_map_witness :
  ∃ index, index_run 8 4 index_demo (replicate 8 empty_entry) = Some (index_demo_answers, index) ∧ index_map index = index_demo_map.
Proof.
  exact (stream_index_refines_map 4 index_demo index_demo_answers index_demo_map
    ltac:(unfold u32_ok; lia) ltac:(lia) index_demo_run).
Defined.
