(* ===== verification/ChannelTypes.v ===== *)
(** The data of channels: [src/transport/channel/channel.h] and the structures of
    [src/transport/channel/channel.c], with the handles of connections and streams that other
    components keep.

    [tr_channel] has the fields that the operations modelled use.  [tc_sent] and [tc_told] are
    not fields of the code: they keep the frames that the reactor accepted and what the
    application was told. *)
From S2P Require Import Prelude Status StreamIndex.

(** * Handles *)

(** [reactor] is its identity, NULL when [None]. *)
Record tr_conn_handle := mk_conn { ch_reactor : option nat; ch_slot : Z; ch_generation : Z }.

#[export] Instance tr_conn_handle_eq_dec : EqDecision tr_conn_handle.
Proof. solve_decision. Defined.

(** All bytes zero. *)
Definition zero_conn : tr_conn_handle := mk_conn None 0 0.

Definition tr_conn_equal (a b : tr_conn_handle) : bool :=
  bool_decide (ch_reactor a = ch_reactor b) && (ch_slot a =? ch_slot b) && (ch_generation a =? ch_generation b).

(** A stream handle; the channel is its identity, 0 for NULL. *)
Record tr_stream_handle := mk_handle { sh_channel : Z; sh_slot : Z; sh_generation : Z }.

#[export] Instance stream_handle_eq_dec : EqDecision tr_stream_handle.
Proof. solve_decision. Defined.

(** * Enumerations *)

(** [enum tr_stream_event] *)
Definition TR_STREAM_EVENT_OPENED : Z := 1.
Definition TR_STREAM_EVENT_REMOTE_CLOSED : Z := 2.
Definition TR_STREAM_EVENT_CLOSED : Z := 3.
Definition TR_STREAM_EVENT_ERROR : Z := 4.
Definition TR_STREAM_EVENT_WRITABLE : Z := 5.
Definition TR_STREAM_EVENT_RESET : Z := 6.
Definition TR_STREAM_EVENT_REFUSED : Z := 7.

(** [enum tr_channel_event] *)
Definition TR_CHANNEL_EVENT_CONTROL_UP : Z := 3.
Definition TR_CHANNEL_EVENT_BULK_UP : Z := 4.

Inductive tr_lane := TR_LANE_CONTROL | TR_LANE_BULK.
Inductive tr_channel_role := TR_CHANNEL_CLIENT | TR_CHANNEL_SERVER.
Inductive tr_channel_mode := TR_CHANNEL_SHARED_CONNECTION | TR_CHANNEL_SPLIT_CONNECTIONS.

Inductive tr_stream_slot_state :=
  TR_STREAM_SLOT_FREE | TR_STREAM_SLOT_OPENING | TR_STREAM_SLOT_ACCEPTING | TR_STREAM_SLOT_OPEN | TR_STREAM_SLOT_RESETTING.

#[export] Instance tr_lane_eq_dec : EqDecision tr_lane.
Proof. solve_decision. Defined.
#[export] Instance tr_channel_role_eq_dec : EqDecision tr_channel_role.
Proof. solve_decision. Defined.
#[export] Instance tr_channel_mode_eq_dec : EqDecision tr_channel_mode.
Proof. solve_decision. Defined.
#[export] Instance tr_stream_slot_state_eq_dec : EqDecision tr_stream_slot_state.
Proof. solve_decision. Defined.

Definition TR_STREAM_FREE_NONE : Z := UINT32_MAX.
Definition TR_CHANNEL_FEATURE_STREAM_RESET : Z := 1.
Definition TR_CHANNEL_LANE_MASK_CONTROL : Z := 1.
Definition TR_CHANNEL_LANE_MASK_BULK : Z := 2.

(** * Structures *)

Record tr_channel_capabilities := mk_caps {
  ca_protocol_version : Z;
  ca_lane_mask : Z;
  ca_max_frame_payload_bytes : Z;
  ca_max_message_bytes : Z;
  ca_feature_bits : Z
}.
Definition zero_caps : tr_channel_capabilities := mk_caps 0 0 0 0 0.

(** [reassembly_pool]: whether it is not NULL. *)
Record tr_channel_config := mk_channel_config {
  cg_role : tr_channel_role;
  cg_mode : tr_channel_mode;
  cg_max_streams : Z;
  cg_initial_window_bytes : Z;
  cg_window_update_threshold_bytes : Z;
  cg_max_message_bytes : Z;
  cg_reassembly_pool : bool;
  cg_min_protocol_version : Z;
  cg_max_protocol_version : Z;
  cg_feature_bits : Z;
  cg_required_feature_bits : Z
}.

(** The buffer a message is put together in: the [len] bytes it has, and its capacity. *)
Record tr_rx_buffer := mk_rx_buffer { xb_data : list Z; xb_capacity : Z }.

Record tr_stream_slot := mk_slot {
  ss_generation : Z;
  ss_free_next : Z;
  ss_state : tr_stream_slot_state;
  ss_lane : tr_lane;
  ss_stream_id : Z;
  ss_local_open : bool;
  ss_remote_open : bool;
  ss_opened_notified : bool;
  ss_next_tx_message_id : Z;
  ss_next_rx_message_id : Z;
  ss_tx_sent_bytes : Z;
  ss_tx_send_limit : Z;
  ss_tx_window_bytes : Z;
  ss_rx_received_bytes : Z;
  ss_rx_consumed_bytes : Z;
  ss_rx_advertised_limit : Z;
  ss_pending_advertised_limit : Z;
  ss_rx_credit_stopped : bool;
  ss_rx_reassembly : option tr_rx_buffer;
  ss_rx_reassembly_message_id : Z;
  ss_reset_status : tr_status;
  ss_reset_peer_status : tr_status;
  ss_reset_sent : bool;
  ss_reset_received : bool;
  ss_reset_notified : bool;
  ss_reset_fragmented : bool;
  ss_reset_discard_unordered : bool;
  ss_reset_message_bytes : Z
}.

(** [memset(stream, 0, ..)], then its generation and its link. *)
Definition cleared_slot (generation free_next : Z) : tr_stream_slot :=
  mk_slot generation free_next TR_STREAM_SLOT_FREE TR_LANE_CONTROL 0 false false false 0 0 0 0 0 0 0 0 0 false None 0
    TR_OK TR_OK false false false false false 0.
#[export] Instance stream_slot_inhabited : Inhabited tr_stream_slot := populate (cleared_slot 0 0).

Record tr_channel_drain := mk_drain {
  dn_active_streams : Z;
  dn_last_peer_admitted : Z;
  dn_last_local_accepted : Z;
  dn_local_cutoff : Z;
  dn_peer_cutoff : Z;
  dn_local_started : bool;
  dn_peer_started : bool;
  dn_goaway_accepted : bool;
  dn_tx_wait_requested : bool;
  dn_tx_drained : bool
}.
Definition zero_drain : tr_channel_drain := mk_drain 0 0 0 0 0 false false false false false.
#[export] Instance channel_drain_inhabited : Inhabited tr_channel_drain := populate zero_drain.

(** The two physical connections and what was negotiated on them. *)
Record channel_links := mk_links {
  lk_control_connection : tr_conn_handle;
  lk_bulk_connection : tr_conn_handle;
  lk_control_alive : bool;
  lk_bulk_alive : bool;
  lk_control_ready : bool;
  lk_bulk_ready : bool;
  lk_control_caps : tr_channel_capabilities;
  lk_bulk_caps : tr_channel_capabilities
}.

(** The fields [stat_..]. *)
Record channel_counts := mk_counts {
  ct_streams_opened : Z;
  ct_streams_closed : Z;
  ct_stream_errors : Z;
  ct_messages_tx : Z;
  ct_messages_rx : Z;
  ct_bytes_tx : Z;
  ct_bytes_rx : Z;
  ct_window_updates_tx : Z;
  ct_window_updates_rx : Z
}.

(** A message that the reactor accepted: the arguments of [tr_reactor_send] and of
    [tr_reactor_sendv_limited]; the payload is the concatenation of the slices. *)
Record tr_sent := mk_sent {
  sn_connection : tr_conn_handle;
  sn_type : Z;
  sn_flags : Z;
  sn_stream_id : Z;
  sn_message_id : Z;
  sn_payload : list Z;
  sn_max_frame_payload_len : Z
}.

(** What the callbacks of a channel are called with. *)
Inductive channel_notice :=
| Told_event (handle : tr_stream_handle) (event : Z) (status : tr_status)
| Told_data (handle : tr_stream_handle) (message_id : Z) (payload : list Z)
| Told_channel (event : Z) (status : tr_status).

(** The slots, their free list, and the index by stream id. *)
Record stream_table := mk_table {
  tb_free_stream_head : Z;
  tb_active_streams : Z;
  tb_streams : list tr_stream_slot;
  tb_stream_index : list tr_stream_index_entry;
  tb_stream_index_capacity : Z;
  tb_drain : list tr_channel_drain;
  tb_pending_open : list (option tr_stream_handle)
}.

Record tr_channel := mk_channel {
  tc_self : Z;
  tc_config : tr_channel_config;
  tc_links : channel_links;
  tc_table : stream_table;
  tc_local_draining : bool;
  tc_control_peer_draining : bool;
  tc_bulk_peer_draining : bool;
  tc_next_local_stream_id : Z;
  tc_window_retry_pending : bool;
  tc_reset_retry_pending : bool;
  tc_counts : channel_counts;
  tc_sent : list tr_sent;
  tc_told : list channel_notice
}.

(** * Fields *)

Definition set_table (c : tr_channel) (t : stream_table) : tr_channel :=
  mk_channel (tc_self c) (tc_config c) (tc_links c) t (tc_local_draining c) (tc_control_peer_draining c)
    (tc_bulk_peer_draining c) (tc_next_local_stream_id c) (tc_window_retry_pending c) (tc_reset_retry_pending c)
    (tc_counts c) (tc_sent c) (tc_told c).
Definition set_next_local (c : tr_channel) (id : Z) : tr_channel :=
  mk_channel (tc_self c) (tc_config c) (tc_links c) (tc_table c) (tc_local_draining c) (tc_control_peer_draining c)
    (tc_bulk_peer_draining c) id (tc_window_retry_pending c) (tc_reset_retry_pending c)
    (tc_counts c) (tc_sent c) (tc_told c).
Definition set_retries (c : tr_channel) (window reset : bool) : tr_channel :=
  mk_channel (tc_self c) (tc_config c) (tc_links c) (tc_table c) (tc_local_draining c) (tc_control_peer_draining c)
    (tc_bulk_peer_draining c) (tc_next_local_stream_id c) window reset
    (tc_counts c) (tc_sent c) (tc_told c).
Definition set_counts (c : tr_channel) (counts : channel_counts) : tr_channel :=
  mk_channel (tc_self c) (tc_config c) (tc_links c) (tc_table c) (tc_local_draining c) (tc_control_peer_draining c)
    (tc_bulk_peer_draining c) (tc_next_local_stream_id c) (tc_window_retry_pending c) (tc_reset_retry_pending c)
    counts (tc_sent c) (tc_told c).
Definition add_sent (c : tr_channel) (m : tr_sent) : tr_channel :=
  mk_channel (tc_self c) (tc_config c) (tc_links c) (tc_table c) (tc_local_draining c) (tc_control_peer_draining c)
    (tc_bulk_peer_draining c) (tc_next_local_stream_id c) (tc_window_retry_pending c) (tc_reset_retry_pending c)
    (tc_counts c) (tc_sent c ++ [m]) (tc_told c).
Definition add_told (c : tr_channel) (n : channel_notice) : tr_channel :=
  mk_channel (tc_self c) (tc_config c) (tc_links c) (tc_table c) (tc_local_draining c) (tc_control_peer_draining c)
    (tc_bulk_peer_draining c) (tc_next_local_stream_id c) (tc_window_retry_pending c) (tc_reset_retry_pending c)
    (tc_counts c) (tc_sent c) (tc_told c ++ [n]).

Definition put_stream (c : tr_channel) (slot : Z) (s : tr_stream_slot) : tr_channel :=
  let t := tc_table c in
  set_table c (mk_table (tb_free_stream_head t) (tb_active_streams t) (tb_streams t).[slot <- s] (tb_stream_index t)
    (tb_stream_index_capacity t) (tb_drain t) (tb_pending_open t)).
Definition tc_stream (c : tr_channel) (slot : Z) : tr_stream_slot := (tb_streams (tc_table c)).[slot].

(** * Queries *)

Definition tr_lane_index (lane : tr_lane) : Z := match lane with TR_LANE_BULK => 1 | TR_LANE_CONTROL => 0 end.

Definition tr_channel_connection (c : tr_channel) (lane : tr_lane) : tr_conn_handle :=
  match lane with
  | TR_LANE_BULK => lk_bulk_connection (tc_links c)
  | TR_LANE_CONTROL => lk_control_connection (tc_links c)
  end.

Definition lane_physical (c : tr_channel) (lane : tr_lane) : bool :=
  match lane with
  | TR_LANE_BULK => lk_bulk_alive (tc_links c)
  | TR_LANE_CONTROL => lk_control_alive (tc_links c)
  end.

Definition tr_channel_lane_alive (c : tr_channel) (lane : tr_lane) : bool :=
  match lane with
  | TR_LANE_BULK => lk_bulk_alive (tc_links c) && lk_bulk_ready (tc_links c)
  | TR_LANE_CONTROL => lk_control_alive (tc_links c) && lk_control_ready (tc_links c)
  end.

Definition lane_caps (c : tr_channel) (lane : tr_lane) : tr_channel_capabilities :=
  match lane with
  | TR_LANE_BULK => lk_bulk_caps (tc_links c)
  | TR_LANE_CONTROL => lk_control_caps (tc_links c)
  end.
Definition tr_channel_lane_max_frame_locked (c : tr_channel) (lane : tr_lane) : Z :=
  ca_max_frame_payload_bytes (lane_caps c lane).
Definition tr_channel_lane_max_message_locked (c : tr_channel) (lane : tr_lane) : Z :=
  ca_max_message_bytes (lane_caps c lane).

Definition tr_stream_reset_supported_locked (c : tr_channel) (lane : tr_lane) : bool :=
  negb (Z.land (ca_feature_bits (lane_caps c lane)) TR_CHANNEL_FEATURE_STREAM_RESET =? 0).

(** The index of the connection's keepalive and drain state, -1 when it is not the channel's. *)
Definition tr_channel_keepalive_index_for_connection (c : tr_channel) (connection : tr_conn_handle) : Z :=
  if tr_conn_equal (lk_control_connection (tc_links c)) connection then 0
  else if tr_conn_equal (lk_bulk_connection (tc_links c)) connection then 1
  else -1.

Definition tr_stream_connection_matches (c : tr_channel) (s : tr_stream_slot) (connection : tr_conn_handle) : bool :=
  tr_conn_equal (tr_channel_connection c (ss_lane s)) connection.

Definition tr_stream_id_is_local (c : tr_channel) (stream_id : Z) : bool :=
  if stream_id =? 0 then false
  else match cg_role (tc_config c) with
       | TR_CHANNEL_CLIENT => negb (Z.land stream_id 1 =? 0)
       | TR_CHANNEL_SERVER => Z.land stream_id 1 =? 0
       end.

Definition tr_add_sat_u64 (a b : Z) : Z := if UINT64_MAX - a <? b then UINT64_MAX else a + b.
