(* ===== verification/ChannelSlots.v ===== *)
(** The slots of a channel's streams: [tr_stream_allocate_locked], [tr_stream_free_locked] and
    the lookups of [src/transport/channel/channel.c].

    A slot is taken from a free list, gets the next generation of the slot and is entered into
    the index by stream id (StreamIndex).  A slot whose generation has reached 2^32 - 1 does
    not go back to the free list.

    Theorem: whatever streams come and go, handles are never reused; a handle leads to its
    stream as long as that is there and to nothing afterwards; an id leads to the stream that
    has it; and the counts of streams, whole and per connection, are exact. *)
From S2P Require Import Prelude Status StreamIndex ChannelTypes.

(** * Operations *)

(** The slot; NULL when [None]. *)
Definition tr_stream_lookup_id (c : tr_channel) (stream_id : Z) : option Z :=
  let t := tc_table c in
  match index_find (tb_stream_index_capacity t) (cg_max_streams (tc_config c)) (tb_stream_index t) stream_id with
  | None => None
  | Some slot =>
      let stream := (tb_streams t).[slot] in
      if bool_decide (ss_state stream = TR_STREAM_SLOT_FREE) || negb (ss_stream_id stream =? stream_id) then None
      else Some slot
  end.

(** [c]: the channel that the handle points to. *)
Definition tr_stream_lookup_handle (c : tr_channel) (handle : tr_stream_handle) : option Z :=
  bail None when (sh_slot handle >=? cg_max_streams (tc_config c)) ;;
  let stream := tc_stream c (sh_slot handle) in
  if bool_decide (ss_state stream = TR_STREAM_SLOT_FREE) || negb (ss_generation stream =? sh_generation handle) then None
  else Some (sh_slot handle).

Definition tr_stream_make_handle (c : tr_channel) (slot : Z) (stream : tr_stream_slot) : tr_stream_handle :=
  mk_handle (tc_self c) slot (ss_generation stream).

(** The connection that a lane's streams are counted on. *)
Definition lane_counter (c : tr_channel) (lane : tr_lane) : Z :=
  match cg_mode (tc_config c) with
  | TR_CHANNEL_SHARED_CONNECTION => 0
  | TR_CHANNEL_SPLIT_CONNECTIONS => tr_lane_index lane
  end.

Definition drain_count (d : tr_channel_drain) (n : Z) : tr_channel_drain :=
  mk_drain (u32 (dn_active_streams d + n)) (dn_last_peer_admitted d) (dn_last_local_accepted d) (dn_local_cutoff d)
    (dn_peer_cutoff d) (dn_local_started d) (dn_peer_started d) (dn_goaway_accepted d) (dn_tx_wait_requested d)
    (dn_tx_drained d).

(** What the fields of a stream start as. *)
Definition opened_slot (generation : Z) (state : tr_stream_slot_state) (lane : tr_lane) (stream_id window : Z) : tr_stream_slot :=
  mk_slot generation TR_STREAM_FREE_NONE state lane stream_id true true false 1 1 0 0 0 0 0 window 0 false None 0
    TR_OK TR_OK false false false false false 0.

(** A slot goes back to the free list, unless its generations are used up. *)
Definition retire_slot (t : stream_table) (slot generation : Z) : stream_table :=
  let again := negb (generation =? UINT32_MAX) in
  mk_table (if again then slot else tb_free_stream_head t) (tb_active_streams t)
    (tb_streams t).[slot <- cleared_slot generation (if again then tb_free_stream_head t else TR_STREAM_FREE_NONE)]
    (tb_stream_index t) (tb_stream_index_capacity t) (tb_drain t) (tb_pending_open t).

Definition tr_stream_allocate_locked (c : tr_channel) (stream_id : Z) (lane : tr_lane) (state : tr_stream_slot_state)
    : tr_status * tr_channel * option tr_stream_handle :=
  let t := tc_table c in
  let slot := tb_free_stream_head t in
  bail (TR_AGAIN, c, None) when (slot =? TR_STREAM_FREE_NONE) ;;
  let head := ss_free_next (tb_streams t).[slot] in
  let generation := u32 (ss_generation (tb_streams t).[slot] + 1) in
  let stream := opened_slot generation state lane stream_id (cg_initial_window_bytes (tc_config c)) in
  let streams := (tb_streams t).[slot <- stream] in
  let '(ret, index) := tr_stream_index_insert_locked (tb_stream_index_capacity t) (cg_max_streams (tc_config c))
    (tb_stream_index t) stream_id slot in
  let t := mk_table head (tb_active_streams t) streams index (tb_stream_index_capacity t) (tb_drain t) (tb_pending_open t) in
  bail (ret, set_table c (retire_slot t slot generation), None) when (negb (is_ok ret)) ;;
  let idx := lane_counter c lane in
  let t := mk_table (tb_free_stream_head t) (u32 (tb_active_streams t + 1)) (tb_streams t) (tb_stream_index t)
    (tb_stream_index_capacity t) (tb_drain t).[idx <- drain_count (tb_drain t).[idx] 1] (tb_pending_open t) in
  let n := tc_counts c in
  let n := mk_counts (u64 (ct_streams_opened n + 1)) (ct_streams_closed n) (ct_stream_errors n) (ct_messages_tx n)
    (ct_messages_rx n) (ct_bytes_tx n) (ct_bytes_rx n) (ct_window_updates_tx n) (ct_window_updates_rx n) in
  (TR_OK, set_counts (set_table c t) n, Some (tr_stream_make_handle c slot stream)).

(** The OPEN that waits for its answer is this stream's. *)
Definition pending_is (p : option tr_stream_handle) (slot generation : Z) : bool :=
  match p with Some h => (sh_slot h =? slot) && (sh_generation h =? generation) | None => false end.

(** [None]: the loop of [tr_stream_index_remove_locked] does not end. *)
Definition tr_stream_free_locked (c : tr_channel) (slot : Z) : option tr_channel :=
  let t := tc_table c in
  bail (Some c) when (slot >=? cg_max_streams (tc_config c)) ;;
  let stream := (tb_streams t).[slot] in
  bail (Some c) when (bool_decide (ss_state stream = TR_STREAM_SLOT_FREE)) ;;
  let idx := lane_counter c (ss_lane stream) in
  let drain := (tb_drain t).[idx <- drain_count (tb_drain t).[idx] (-1)] in
  let pending := if pending_is (tb_pending_open t).[idx] slot (ss_generation stream)
    then (tb_pending_open t).[idx <- None] else tb_pending_open t in
  '(_, index) ← tr_stream_index_remove_locked (tb_stream_index_capacity t) (tb_stream_index t) (ss_stream_id stream);
  let active := if tb_active_streams t =? 0 then 0 else tb_active_streams t - 1 in
  let t := mk_table (tb_free_stream_head t) active (tb_streams t) index (tb_stream_index_capacity t) drain pending in
  Some (set_table c (retire_slot t slot (ss_generation stream))).

(** The slots, the free list and the index that [tr_channel_create] sets up. *)
Definition first_slots (max_streams : Z) : list tr_stream_slot :=
  map (λ i, cleared_slot 0 (if Z.of_nat i + 1 <? max_streams then Z.of_nat i + 1 else TR_STREAM_FREE_NONE))
    (seq 0 (Z.to_nat max_streams)).
Definition first_table (max_streams : Z) : stream_table :=
  let capacity := tr_stream_index_capacity_for max_streams in
  mk_table 0 0 (first_slots max_streams) (replicate (Z.to_nat capacity) empty_entry) capacity [zero_drain; zero_drain] [None; None].

(** * Sequences of operations *)

(** What other operations may do to a slot: not change who it is. *)
Definition same_stream (s s' : tr_stream_slot) : bool :=
  bool_decide (ss_state s ≠ TR_STREAM_SLOT_FREE) && bool_decide (ss_state s' ≠ TR_STREAM_SLOT_FREE) &&
  (ss_generation s' =? ss_generation s) && (ss_stream_id s' =? ss_stream_id s) && bool_decide (ss_lane s' = ss_lane s) &&
  (ss_free_next s' =? ss_free_next s).

Inductive slot_op :=
| Op_open (stream_id : Z) (lane : tr_lane) (state : tr_stream_slot_state)
| Op_close (handle : tr_stream_handle)
| Op_touch (slot : Z) (stream : tr_stream_slot).

Inductive slot_answer :=
| Ans_open (ret : tr_status) (handle : option tr_stream_handle)
| Ans_close (slot : option Z)
| Ans_touch.

(** A stream is opened in a state other than free. *)
Definition slot_op_legal (op : slot_op) : Prop :=
  match op with
  | Op_open stream_id _ state => u32_ok stream_id ∧ state ≠ TR_STREAM_SLOT_FREE
  | Op_close handle => u32_ok (sh_slot handle)
  | Op_touch slot _ => u32_ok slot
  end.

Definition slot_step (op : slot_op) (c : tr_channel) : option (slot_answer * tr_channel) :=
  match op with
  | Op_open stream_id lane state =>
      let '(ret, c, handle) := tr_stream_allocate_locked c stream_id lane state in Some (Ans_open ret handle, c)
  | Op_close handle =>
      match tr_stream_lookup_handle c handle with
      | None => Some (Ans_close None, c)
      | Some slot => c ← tr_stream_free_locked c slot; Some (Ans_close (Some slot), c)
      end
  | Op_touch slot stream =>
      Some (Ans_touch, if (slot <? cg_max_streams (tc_config c)) && same_stream (tc_stream c slot) stream
        then put_stream c slot stream else c)
  end.
Fixpoint slots_run (ops : list slot_op) (c : tr_channel) : option (list slot_answer * tr_channel) :=
  match ops with
  | [] => Some ([], c)
  | op :: ops => '(a, c) ← slot_step op c; '(answers, c) ← slots_run ops c; Some (a :: answers, c)
  end.

(** * The specification *)

(** The streams that are there, by id, with the lane and the handle of each; and the handles
    that were given out, in order. *)
Record stream_book := mk_book { sk_live : gmap Z (tr_lane * tr_stream_handle); sk_given : list tr_stream_handle }.

Definition book_has (m : stream_book) (handle : tr_stream_handle) : Prop :=
  ∃ id lane, sk_live m !! id = Some (lane, handle).

(** [self] is the channel of the handles. *)
Inductive book_step (self max_streams : Z) : slot_op → slot_answer → stream_book → stream_book → Prop :=
| Book_open id lane state h m :
    id ≠ 0 → sk_live m !! id = None → h ∉ sk_given m → sh_channel h = self → 0 ≤ sh_slot h < max_streams →
    (∀ id' lane' h', sk_live m !! id' = Some (lane', h') → sh_slot h' ≠ sh_slot h) →
    book_step self max_streams (Op_open id lane state) (Ans_open TR_OK (Some h)) m
      (mk_book (<[id := (lane, h)]> (sk_live m)) (sk_given m ++ [h]))
| Book_full id lane state m :
    book_step self max_streams (Op_open id lane state) (Ans_open TR_AGAIN None) m m
| Book_taken id lane state m :
    is_Some (sk_live m !! id) →
    book_step self max_streams (Op_open id lane state) (Ans_open TR_ERR_STATE None) m m
| Book_no_id lane state m :
    book_step self max_streams (Op_open 0 lane state) (Ans_open TR_ERR_INVALID None) m m
| Book_close id lane h m :
    sk_live m !! id = Some (lane, mk_handle self (sh_slot h) (sh_generation h)) →
    book_step self max_streams (Op_close h) (Ans_close (Some (sh_slot h))) m (mk_book (delete id (sk_live m)) (sk_given m))
| Book_stale h m :
    ¬ book_has m (mk_handle self (sh_slot h) (sh_generation h)) →
    book_step self max_streams (Op_close h) (Ans_close None) m m
| Book_touch slot stream m :
    book_step self max_streams (Op_touch slot stream) Ans_touch m m.

Inductive book_run (self max_streams : Z) : list slot_op → list slot_answer → stream_book → stream_book → Prop :=
| Book_nil m : book_run self max_streams [] [] m m
| Book_cons op ops a answers m m' m'' :
    book_step self max_streams op a m m' → book_run self max_streams ops answers m' m'' →
    book_run self max_streams (op :: ops) (a :: answers) m m''.

(** * The invariant *)

Definition is_live (s : tr_stream_slot) : bool := negb (bool_decide (ss_state s = TR_STREAM_SLOT_FREE)).
Definition count_on (c : tr_channel) (idx : Z) (s : tr_stream_slot) : Z :=
  if is_live s && (lane_counter c (ss_lane s) =? idx) then 1 else 0.
Definition count_live (s : tr_stream_slot) : Z := if is_live s then 1 else 0.

(** The free list has every free slot with generations left. *)
Record free_ok (streams : list tr_stream_slot) (head : Z) (fl : list Z) : Prop := {
  fr_chain : chain (λ i, ss_free_next streams.[i]) head fl;
  fr_nodup : NoDup fl;
  fr_slots : ∀ i, i ∈ fl ↔ 0 ≤ i < alen streams ∧ is_live streams.[i] = false ∧ ss_generation streams.[i] ≠ UINT32_MAX
}.

(** The index has exactly the ids of the slots in use. *)
Record core_ok (capacity max_streams : Z) (streams : list tr_stream_slot) (index : list tr_stream_index_entry) : Prop := {
  co_length : alen streams = max_streams;
  co_index : index_ok capacity index;
  co_map : ∀ id slot, index_map index !! id = Some slot ↔
    0 ≤ slot < max_streams ∧ is_live streams.[slot] = true ∧ ss_stream_id streams.[slot] = id;
  co_ids : ∀ slot, 0 ≤ slot < max_streams → is_live streams.[slot] = true → ss_stream_id streams.[slot] ≠ 0;
  co_size : Z.of_nat (size (index_map index)) = zsum count_live streams;
  co_generations : ∀ slot, 0 ≤ slot < max_streams → u32_ok (ss_generation streams.[slot])
}.

Record table_ok (c : tr_channel) (fl : list Z) : Prop := {
  tk_capacity : pow2 (tb_stream_index_capacity (tc_table c)) ∧
    cg_max_streams (tc_config c) < tb_stream_index_capacity (tc_table c);
  tk_max : 0 < cg_max_streams (tc_config c) < 2 ^ 32;
  tk_core : core_ok (tb_stream_index_capacity (tc_table c)) (cg_max_streams (tc_config c)) (tb_streams (tc_table c))
    (tb_stream_index (tc_table c));
  tk_active : tb_active_streams (tc_table c) = zsum count_live (tb_streams (tc_table c));
  tk_drain : alen (tb_drain (tc_table c)) = 2 ∧
    ∀ idx, idx = 0 ∨ idx = 1 → dn_active_streams (tb_drain (tc_table c)).[idx] = zsum (count_on c idx) (tb_streams (tc_table c));
  tk_free : free_ok (tb_streams (tc_table c)) (tb_free_stream_head (tc_table c)) fl
}.

(** The book says what the slots hold. *)
Record book_ok (c : tr_channel) (m : stream_book) : Prop := {
  bk_live : ∀ id lane h, sk_live m !! id = Some (lane, h) ↔
    id ≠ 0 ∧ sh_channel h = tc_self c ∧ 0 ≤ sh_slot h < cg_max_streams (tc_config c) ∧
    is_live (tc_stream c (sh_slot h)) = true ∧ ss_stream_id (tc_stream c (sh_slot h)) = id ∧
    ss_lane (tc_stream c (sh_slot h)) = lane ∧ ss_generation (tc_stream c (sh_slot h)) = sh_generation h;
  bk_given : ∀ h, h ∈ sk_given m → 0 ≤ sh_slot h < cg_max_streams (tc_config c) →
    sh_generation h ≤ ss_generation (tc_stream c (sh_slot h));
  bk_nodup : NoDup (sk_given m);
  bk_known : ∀ h, book_has m h → h ∈ sk_given m
}.

(** * Lemmas: counting *)

Lemma zsum_aset {A} `{!Inhabited A} (f : A → Z) (l : list A) i x : 0 ≤ i < alen l → zsum f l.[i <- x] = zsum f l - f l.[i] + f x.
Proof. intros Hi. unfold aset. apply zsum_insert. by apply aget_lookup. Qed.

Lemma count_live_bound s : 0 ≤ count_live s ≤ 1.
Proof. unfold count_live. destruct (is_live s); lia. Qed.

Lemma count_on_bound c idx s : 0 ≤ count_on c idx s ≤ count_live s.
Proof. unfold count_on, count_live. destruct (is_live s), (lane_counter c (ss_lane s) =? idx); simpl; lia. Qed.

Lemma count_live_max l : 0 ≤ zsum count_live l ≤ alen l.
Proof.
  unfold alen. induction l as [|s l IH]; simpl; [lia|]. pose proof (count_live_bound s). lia.
Qed.

Lemma count_on_max c idx l : 0 ≤ zsum (count_on c idx) l ≤ zsum count_live l.
Proof. induction l as [|s l IH]; simpl; [lia|]. pose proof (count_on_bound c idx s). lia. Qed.

Lemma lane_counter_range c lane : lane_counter c lane = 0 ∨ lane_counter c lane = 1.
Proof. unfold lane_counter, tr_lane_index. destruct (cg_mode _), lane; auto. Qed.

Lemma live_state s : is_live s = true ↔ ss_state s ≠ TR_STREAM_SLOT_FREE.
Proof. unfold is_live. case_bool_decide; naive_solver. Qed.

(** * Lemmas: slots and index together *)

Lemma and_iff_compat_l_dep (A B C : Prop) : (A → (B ↔ C)) → A ∧ B ↔ A ∧ C.
Proof. tauto. Qed.

Section Core.
Context (capacity max_streams : Z).
Implicit Types (streams : list tr_stream_slot) (index : list tr_stream_index_entry).

Lemma core_live streams index slot : core_ok capacity max_streams streams index → 0 ≤ slot < max_streams →
  is_live streams.[slot] = true → index_map index !! ss_stream_id streams.[slot] = Some slot.
Proof. intros Hok Hs Hl. by apply (co_map _ _ _ _ Hok). Qed.

Lemma core_unique streams index a b : core_ok capacity max_streams streams index →
  0 ≤ a < max_streams → 0 ≤ b < max_streams → is_live streams.[a] = true → is_live streams.[b] = true →
  ss_stream_id streams.[a] = ss_stream_id streams.[b] → a = b.
Proof.
  intros Hok Ha Hb Hla Hlb E. pose proof (core_live _ _ a Hok Ha Hla) as E1. pose proof (core_live _ _ b Hok Hb Hlb) as E2.
  rewrite E in E1. congruence.
Qed.

(** A slot that is not in use may change as long as it stays so. *)
Lemma core_idle streams index slot s : core_ok capacity max_streams streams index → 0 ≤ slot < max_streams →
  is_live streams.[slot] = false → is_live s = false → u32_ok (ss_generation s) →
  core_ok capacity max_streams streams.[slot <- s] index.
Proof.
  intros [Hl Hi Hm Hids Hsz Hg] Hs Hold Hnew Hgen.
  assert (∀ i, 0 ≤ i < max_streams → streams.[slot <- s].[i] = if slot =? i then s else streams.[i]) as Hget
    by (intros i Hi'; apply aget_aset; lia).
  split; [by rewrite alen_aset|done|..].
  - intros id i. rewrite Hm. apply and_iff_compat_l_dep. intros Hi'. rewrite Hget by done.
    destruct (Z.eqb_spec slot i) as [<-|]; [|done]. rewrite Hold, Hnew. by split; intros [? _].
  - intros i Hi'. rewrite Hget by done. destruct (Z.eqb_spec slot i); [by rewrite Hnew|by apply Hids].
  - rewrite zsum_aset by lia. rewrite Hsz. unfold count_live at 3 4. rewrite Hold, Hnew. lia.
  - intros i Hi'. rewrite Hget by done. destruct (Z.eqb_spec slot i); [done|by apply Hg].
Qed.

(** A stream in use may change as long as it keeps its id. *)
Lemma core_touch streams index slot s : core_ok capacity max_streams streams index → 0 ≤ slot < max_streams →
  is_live streams.[slot] = true → is_live s = true → ss_stream_id s = ss_stream_id streams.[slot] → u32_ok (ss_generation s) →
  core_ok capacity max_streams streams.[slot <- s] index.
Proof.
  intros [Hl Hi Hm Hids Hsz Hg] Hs Hold Hnew Hid Hgen.
  assert (∀ i, 0 ≤ i < max_streams → streams.[slot <- s].[i] = if slot =? i then s else streams.[i]) as Hget
    by (intros i Hi'; apply aget_aset; lia).
  split; [by rewrite alen_aset|done|..].
  - intros id i. rewrite Hm. apply and_iff_compat_l_dep. intros Hi'. rewrite Hget by done.
    destruct (Z.eqb_spec slot i) as [<-|]; [|done]. by rewrite Hold, Hnew, Hid.
  - intros i Hi'. rewrite Hget by done. destruct (Z.eqb_spec slot i) as [<-|]; [rewrite Hid; auto|by apply Hids].
  - rewrite zsum_aset by lia. rewrite Hsz. unfold count_live at 3 4. rewrite Hold, Hnew. lia.
  - intros i Hi'. rewrite Hget by done. destruct (Z.eqb_spec slot i); [done|by apply Hg].
Qed.

Lemma core_open streams index index' slot s : core_ok capacity max_streams streams index → 0 ≤ slot < max_streams →
  is_live streams.[slot] = false → is_live s = true → ss_stream_id s ≠ 0 → index_map index !! ss_stream_id s = None →
  u32_ok (ss_generation s) → index_ok capacity index' → index_map index' = <[ss_stream_id s := slot]> (index_map index) →
  core_ok capacity max_streams streams.[slot <- s] index'.
Proof.
  intros [Hl Hi Hm Hids Hsz Hg] Hs Hold Hnew Hid Hnone Hgen Hi' Hmap.
  assert (∀ i, 0 ≤ i < max_streams → streams.[slot <- s].[i] = if slot =? i then s else streams.[i]) as Hget
    by (intros i Hii; apply aget_aset; lia).
  split; [by rewrite alen_aset|done|..].
  - intros id i. rewrite Hmap, lookup_insert_Some, Hm. split.
    + intros [[<- <-]|(Hne & Hii & H)]; [split; [done|]; rewrite Hget by done; by rewrite Z.eqb_refl|].
      split; [done|]. rewrite Hget by done. destruct (Z.eqb_spec slot i) as [<-|]; [|done]. rewrite Hold in H. by destruct H.
    + intros (Hii & H). rewrite Hget in H by done. destruct (Z.eqb_spec slot i) as [<-|]; [left; tauto|right].
      split; [|done]. intros <-. rewrite (proj2 (Hm _ i) (conj Hii H)) in Hnone. done.
  - intros i Hii. rewrite Hget by done. destruct (Z.eqb_spec slot i); [done|by apply Hids].
  - rewrite Hmap, map_size_insert_None by done. rewrite zsum_aset by lia. unfold count_live at 2 3. rewrite Hold, Hnew. lia.
  - intros i Hii. rewrite Hget by done. destruct (Z.eqb_spec slot i); [done|by apply Hg].
Qed.

Lemma core_close streams index index' slot s : core_ok capacity max_streams streams index → 0 ≤ slot < max_streams →
  is_live streams.[slot] = true → is_live s = false → u32_ok (ss_generation s) →
  index_ok capacity index' → index_map index' = delete (ss_stream_id streams.[slot]) (index_map index) →
  core_ok capacity max_streams streams.[slot <- s] index'.
Proof.
  intros Hok Hs Hold Hnew Hgen Hi' Hmap. pose proof (core_live _ _ slot Hok Hs Hold) as Hin.
  pose proof (core_unique streams index) as Huniq. destruct Hok as [Hl Hi Hm Hids Hsz Hg].
  assert (∀ i, 0 ≤ i < max_streams → streams.[slot <- s].[i] = if slot =? i then s else streams.[i]) as Hget
    by (intros i Hii; apply aget_aset; lia).
  split; [by rewrite alen_aset|done|..].
  - intros id i. rewrite Hmap, lookup_delete_Some, Hm. split.
    + intros (Hne & Hii & H). split; [done|]. rewrite Hget by done. destruct (Z.eqb_spec slot i) as [<-|]; [|done]. by destruct H.
    + intros (Hii & H). rewrite Hget in H by done. destruct (Z.eqb_spec slot i) as [<-|Hne]; [by rewrite Hnew in H; destruct H|].
      split; [|done]. intros <-. destruct H as [Hli Ei]. apply Hne. symmetry in Ei. by apply (Huniq slot i).
  - intros i Hii. rewrite Hget by done. destruct (Z.eqb_spec slot i); [by rewrite Hnew|by apply Hids].
  - pose proof (map_size_delete (M:=gmap Z) (ss_stream_id streams.[slot]) (index_map index)) as Hd. rewrite Hin in Hd.
    rewrite Hmap, zsum_aset by lia. unfold count_live at 2 3. rewrite Hold, Hnew.
    assert (size (index_map index) ≠ 0%nat) by (intros E; apply map_size_empty_inv in E; by rewrite E in Hin). lia.
  - intros i Hii. rewrite Hget by done. destruct (Z.eqb_spec slot i); [done|by apply Hg].
Qed.

End Core.

(** * Lemmas: the free list *)

Lemma aset_aset {A} (l : list A) i x y : l.[i <- x].[i <- y] = l.[i <- y].
Proof. unfold aset. apply list_insert_insert_eq. Qed.

Lemma free_pop streams i head fl s : free_ok streams head (i :: fl) → is_live s = true →
  head = i ∧ 0 ≤ i < alen streams ∧ is_live streams.[i] = false ∧ ss_generation streams.[i] ≠ UINT32_MAX ∧
  free_ok streams.[i <- s] (ss_free_next streams.[i]) fl.
Proof.
  intros [[-> Hc] [Hni Hn]%NoDup_cons Hs] Hlive. assert (i ∈ i :: fl) as (Hi & El & Eg)%Hs by by left.
  assert (∀ j, 0 ≤ j < alen streams → streams.[i <- s].[j] = if i =? j then s else streams.[j]) as Hget
    by (intros j Hj; apply aget_aset; lia).
  split_and!; try done; try lia. split; [|done|].
  - eapply chain_ext; [|exact Hc]. intros j Hj. assert (j ∈ i :: fl) as (Hj' & _)%Hs by by right.
    rewrite Hget by done. destruct (Z.eqb_spec i j) as [<-|]; done.
  - intros j. rewrite alen_aset. split.
    + intros Hj. assert (j ∈ i :: fl) as (Hj' & E)%Hs by by right. split; [done|]. rewrite Hget by done.
      destruct (Z.eqb_spec i j) as [<-|]; done.
    + intros (Hj' & E). rewrite Hget in E by done. destruct (Z.eqb_spec i j) as [<-|Hne]; [by rewrite Hlive in E; destruct E|].
      assert (j ∈ i :: fl) as [->|]%elem_of_cons by (by apply Hs); done.
Qed.

Lemma free_push streams i head fl g : free_ok streams head fl → 0 ≤ i < alen streams → is_live streams.[i] = true →
  free_ok streams.[i <- cleared_slot g (if g =? UINT32_MAX then TR_STREAM_FREE_NONE else head)]
    (if g =? UINT32_MAX then head else i) (if g =? UINT32_MAX then fl else i :: fl).
Proof.
  intros [Hc Hn Hs] Hi Hlive. assert (i ∉ fl) as Hni by (intros (_ & E & _)%Hs; congruence).
  assert (∀ s j, 0 ≤ j < alen streams → streams.[i <- s].[j] = if i =? j then s else streams.[j]) as Hget
    by (intros s j Hj; apply aget_aset; lia).
  assert (∀ s, chain (λ j, ss_free_next streams.[i <- s].[j]) head fl) as Hc'.
  { intros s. eapply chain_ext; [|exact Hc]. intros j Hj. pose proof (proj1 (Hs j) Hj) as (Hj' & _).
    rewrite Hget by done. destruct (Z.eqb_spec i j) as [<-|]; done. }
  destruct (Z.eqb_spec g UINT32_MAX) as [->|Hg]; split; try done.
  - intros j. rewrite alen_aset, Hs. apply and_iff_compat_l_dep. intros Hj. rewrite Hget by done.
    destruct (Z.eqb_spec i j) as [<-|]; [|done]. rewrite Hlive. by split; intros [? ?].
  - split; [done|]. rewrite Hget by done. rewrite Z.eqb_refl. apply Hc'.
  - by constructor.
  - intros j. rewrite elem_of_cons, alen_aset, Hs. split.
    + intros [->|(Hj & E)]; [split; [done|]; rewrite Hget by done; by rewrite Z.eqb_refl|].
      split; [done|]. rewrite Hget by done. destruct (Z.eqb_spec i j) as [<-|]; [|done]. by rewrite Hlive in E; destruct E.
    + intros (Hj & E). rewrite Hget in E by done. destruct (Z.eqb_spec i j) as [<-|]; [by left|by right].
Qed.

Lemma free_touch streams i head fl s : free_ok streams head fl → 0 ≤ i < alen streams →
  is_live streams.[i] = true → is_live s = true → free_ok streams.[i <- s] head fl.
Proof.
  intros [Hc Hn Hs] Hi Hold Hnew. assert (i ∉ fl) as Hni by (intros (_ & E & _)%Hs; congruence).
  assert (∀ j, 0 ≤ j < alen streams → streams.[i <- s].[j] = if i =? j then s else streams.[j]) as Hget
    by (intros j Hj; apply aget_aset; lia).
  split; [|done|].
  - eapply chain_ext; [|exact Hc]. intros j Hj. pose proof (proj1 (Hs j) Hj) as (Hj' & _).
    rewrite Hget by done. destruct (Z.eqb_spec i j) as [<-|]; done.
  - intros j. rewrite alen_aset, Hs. apply and_iff_compat_l_dep. intros Hj. rewrite Hget by done.
    destruct (Z.eqb_spec i j) as [<-|]; [|done]. rewrite Hold, Hnew. by split; intros [? ?].
Qed.

Section Invariant.
Context (c : tr_channel) (fl : list Z) (Hok : table_ok c fl).
#[local] Abbreviation t := (tc_table c).
#[local] Abbreviation maxs := (cg_max_streams (tc_config c)).

Lemma table_room : Z.of_nat (size (index_map (tb_stream_index t))) < tb_stream_index_capacity t.
Proof.
  destruct (tk_capacity _ _ Hok). rewrite (co_size _ _ _ _ (tk_core _ _ Hok)). pose proof (count_live_max (tb_streams t)).
  pose proof (co_length _ _ _ _ (tk_core _ _ Hok)). lia.
Qed.

Lemma index_slots k v : index_map (tb_stream_index t) !! k = Some v → v < maxs.
Proof. intros H. apply (co_map _ _ _ _ (tk_core _ _ Hok)) in H as (? & _). lia. Qed.

Lemma lookup_id_spec stream_id slot : tr_stream_lookup_id c stream_id = Some slot ↔
  stream_id ≠ 0 ∧ 0 ≤ slot < maxs ∧ is_live (tc_stream c slot) = true ∧ ss_stream_id (tc_stream c slot) = stream_id.
Proof.
  unfold tr_stream_lookup_id.
  rewrite (index_find_spec _ _ (proj1 (tk_capacity _ _ Hok))) by (apply (tk_core _ _ Hok) || apply index_slots).
  destruct (Z.eqb_spec stream_id 0) as [->|Hid]; [by split; [|intros [? _]]|].
  destruct (index_map (tb_stream_index t) !! stream_id) as [v|] eqn:E.
  - apply (co_map _ _ _ _ (tk_core _ _ Hok)) in E as (Hv & Hl & Ei). fold (tc_stream c v) in Hl, Ei |- *.
    apply live_state in Hl as Hst. rewrite bool_decide_eq_false_2 by done. rewrite Ei, Z.eqb_refl. cbn [orb negb]. split.
    + intros [= <-]. split_and!; (done || apply Hv).
    + intros H. assert (index_map (tb_stream_index t) !! stream_id = Some slot) as E1 by (by apply (co_map _ _ _ _ (tk_core _ _ Hok)), (proj2 H)).
      assert (index_map (tb_stream_index t) !! stream_id = Some v) as E2 by (apply (co_map _ _ _ _ (tk_core _ _ Hok)); split_and!; (done || apply Hv)). congruence.
  - split; [done|]. intros H. by rewrite (proj2 (co_map _ _ _ _ (tk_core _ _ Hok) stream_id slot) (proj2 H)) in E.
Qed.

Lemma lookup_handle_spec h slot : 0 ≤ sh_slot h → tr_stream_lookup_handle c h = Some slot ↔
  slot = sh_slot h ∧ sh_slot h < maxs ∧ is_live (tc_stream c slot) = true ∧ ss_generation (tc_stream c slot) = sh_generation h.
Proof.
  intros Hs. unfold tr_stream_lookup_handle. rewrite Z.geb_leb. destruct (Z.leb_spec maxs (sh_slot h)); [split; [done|]; intros (-> & ? & _); lia|].
  unfold is_live. case_bool_decide; cbn [orb]; [split; [done|]; intros (-> & _ & E & _); by rewrite bool_decide_eq_true_2 in E|].
  destruct (Z.eqb_spec (ss_generation (tc_stream c (sh_slot h))) (sh_generation h)); cbn [negb]; split.
  - intros [= <-]. split_and!; try done. by rewrite bool_decide_eq_false_2.
  - by intros (-> & _).
  - done.
  - by intros (-> & _ & _ & E).
Qed.

(** The free list is used up when every slot is taken or at its last generation. *)
Lemma free_list_empty : tb_free_stream_head t = TR_STREAM_FREE_NONE ↔
  ∀ slot, 0 ≤ slot < maxs → is_live (tc_stream c slot) = true ∨ ss_generation (tc_stream c slot) = UINT32_MAX.
Proof.
  destruct (tk_free _ _ Hok) as [Hc Hn Hs]. pose proof (co_length _ _ _ _ (tk_core _ _ Hok)). pose proof (tk_max _ _ Hok).
  destruct fl as [|i fl']; simpl in Hc.
  - split; [intros _ slot Hslot|done]. destruct (is_live (tc_stream c slot)) eqn:E; [by left|right].
    destruct (Z.eq_dec (ss_generation (tc_stream c slot)) UINT32_MAX) as [|Hg]; [done|]. exfalso.
    assert (slot ∈ @nil Z) as Hin by (apply Hs; split_and!; try done; lia). by apply elem_of_nil in Hin.
  - destruct Hc as [-> _]. assert (i ∈ i :: fl') as (Hi & El & Eg)%Hs by by left. split.
    + intros E. unfold TR_STREAM_FREE_NONE in E. word_lia.
    + intros H'. destruct (H' i) as [E|E]; [lia|by unfold tc_stream in E; rewrite El in E|done].
Qed.

End Invariant.

(** * Lemmas: operations *)

(** Each connection counts its streams. *)
Lemma drain_change c slot s d (n : Z) : alen (tb_drain (tc_table c)) = 2 →
  (∀ idx, idx = 0 ∨ idx = 1 → dn_active_streams (tb_drain (tc_table c)).[idx] = zsum (count_on c idx) (tb_streams (tc_table c))) →
  0 ≤ slot < alen (tb_streams (tc_table c)) → alen (tb_streams (tc_table c)) < 2 ^ 32 →
  (d = 0 ∨ d = 1) →
  (∀ idx, count_on c idx s - count_on c idx (tb_streams (tc_table c)).[slot] = if d =? idx then n else 0) →
  alen (tb_drain (tc_table c)).[d <- drain_count (tb_drain (tc_table c)).[d] n] = 2 ∧
  ∀ idx, idx = 0 ∨ idx = 1 →
    dn_active_streams (tb_drain (tc_table c)).[d <- drain_count (tb_drain (tc_table c)).[d] n].[idx] =
      zsum (count_on c idx) (tb_streams (tc_table c)).[slot <- s].
Proof.
  intros Hl Hd Hs Hmax Hdr Hdiff. split; [by rewrite alen_aset|]. intros idx Hidx.
  pose proof (zsum_aset (count_on c idx) _ _ s Hs) as E. pose proof (Hdiff idx) as Hn. pose proof (Hd idx Hidx) as Ed.
  rewrite aget_aset by lia. destruct (Z.eqb_spec d idx) as [->|]; [|lia].
  unfold drain_count; cbn [dn_active_streams]. rewrite Ed, E.
  pose proof (count_on_max c idx (tb_streams (tc_table c)).[slot <- s]) as Hb.
  pose proof (count_live_max (tb_streams (tc_table c)).[slot <- s]) as Hb'. rewrite alen_aset in Hb'.
  rewrite u32_small; unfold u32_ok; lia.
Qed.

(** What an operation leaves of the slots that it is not about. *)
Record slots_kept (c c' : tr_channel) (slot : Z) : Prop := {
  sl_self : tc_self c' = tc_self c;
  sl_config : tc_config c' = tc_config c;
  sl_others : ∀ i, 0 ≤ i < cg_max_streams (tc_config c) → i ≠ slot → tc_stream c' i = tc_stream c i
}.

Section Allocate.
Context (c : tr_channel) (fl : list Z) (Hok : table_ok c fl).
Context (stream_id : Z) (lane : tr_lane) (state : tr_stream_slot_state).
Context (Hid : u32_ok stream_id) (Hstate : state ≠ TR_STREAM_SLOT_FREE).
#[local] Abbreviation t := (tc_table c).
#[local] Abbreviation maxs := (cg_max_streams (tc_config c)).

Inductive allocated : tr_status → tr_channel → option tr_stream_handle → list Z → Prop :=
| Alloc_full : tb_free_stream_head t = TR_STREAM_FREE_NONE → allocated TR_AGAIN c None fl
| Alloc_refused ret c' slot fl' :
    (ret = TR_ERR_INVALID ∧ stream_id = 0) ∨
      (ret = TR_ERR_STATE ∧ is_Some (index_map (tb_stream_index t) !! stream_id)) →
    slots_kept c c' slot → 0 ≤ slot < maxs → is_live (tc_stream c slot) = false → is_live (tc_stream c' slot) = false →
    ss_generation (tc_stream c slot) ≤ ss_generation (tc_stream c' slot) →
    allocated ret c' None fl'
| Alloc_ok c' slot g fl' :
    stream_id ≠ 0 → index_map (tb_stream_index t) !! stream_id = None →
    slots_kept c c' slot → 0 ≤ slot < maxs → is_live (tc_stream c slot) = false → ss_generation (tc_stream c slot) < g →
    tc_stream c' slot = opened_slot g state lane stream_id (cg_initial_window_bytes (tc_config c)) →
    tc_links c' = tc_links c →
    allocated TR_OK c' (Some (mk_handle (tc_self c) slot g)) fl'.

(** The slot at the head of the free list. *)
Lemma head_facts : tb_free_stream_head t ≠ TR_STREAM_FREE_NONE →
  let slot := tb_free_stream_head t in
  let g := u32 (ss_generation (tb_streams t).[slot] + 1) in
  ∃ fl0, 0 ≤ slot < maxs ∧ slot < alen (tb_streams t) ∧ alen (tb_streams t) < 2 ^ 32 ∧
  is_live (tb_streams t).[slot] = false ∧ u32_ok g ∧ ss_generation (tb_streams t).[slot] < g ∧
  ∀ s, is_live s = true → free_ok (tb_streams t).[slot <- s] (ss_free_next (tb_streams t).[slot]) fl0.
Proof.
  intros E slot g. pose proof (tk_free _ _ Hok) as Hfree. pose proof (tk_max _ _ Hok) as Hmax.
  pose proof (co_length _ _ _ _ (tk_core _ _ Hok)) as Hlen.
  destruct fl as [|i fl0]; [destruct Hfree as [Hc _ _]; by simpl in Hc|]. exists fl0.
  destruct (free_pop _ _ _ _ (opened_slot 0 TR_STREAM_SLOT_OPEN TR_LANE_BULK 0 0) Hfree eq_refl) as (Ei & Hi & Hold & Hg & _).
  fold slot in Ei. subst i. rewrite Hlen in Hi. pose proof (co_generations _ _ _ _ (tk_core _ _ Hok) _ Hi) as Hgen.
  assert (g = ss_generation (tb_streams t).[slot] + 1) as Eg by (unfold g; apply u32_small; word_lia).
  split_and!; try lia; [done|apply u32_range|].
  intros s Hs. by apply (free_pop _ _ _ _ s Hfree Hs).
Qed.

Lemma open_refuse_spec ret : tb_free_stream_head t ≠ TR_STREAM_FREE_NONE →
  (ret = TR_ERR_INVALID ∧ stream_id = 0) ∨ (ret = TR_ERR_STATE ∧ is_Some (index_map (tb_stream_index t) !! stream_id)) →
  let slot := tb_free_stream_head t in
  let g := u32 (ss_generation (tb_streams t).[slot] + 1) in
  let c' := set_table c (retire_slot (mk_table (ss_free_next (tb_streams t).[slot]) (tb_active_streams t)
    (tb_streams t).[slot <- opened_slot g state lane stream_id (cg_initial_window_bytes (tc_config c))]
    (tb_stream_index t) (tb_stream_index_capacity t) (tb_drain t) (tb_pending_open t)) slot g) in
  ∃ fl', table_ok c' fl' ∧ allocated ret c' None fl'.
Proof.
  intros E Hret slot g c'. destruct (head_facts E) as (fl0 & Hs & Hsl & Hmax & Hold & Hg & Hgen & Hpop). fold slot g in Hs, Hsl, Hold, Hg, Hgen, Hpop.
  set (s := opened_slot g state lane stream_id (cg_initial_window_bytes (tc_config c))) in *.
  assert (is_live s = true) as Hlive by (apply live_state; exact Hstate).
  pose proof (Hpop s Hlive) as Hfree.
  pose proof (free_push _ slot _ _ g Hfree ltac:(rewrite alen_aset; lia) ltac:(rewrite aget_aset_eq; [done|lia])) as Hfree'.
  rewrite aset_aset in Hfree'. set (next := if g =? UINT32_MAX then TR_STREAM_FREE_NONE else ss_free_next (tb_streams t).[slot]) in *.
  assert (tc_table c' = mk_table (if g =? UINT32_MAX then ss_free_next (tb_streams t).[slot] else slot) (tb_active_streams t)
    (tb_streams t).[slot <- cleared_slot g next] (tb_stream_index t) (tb_stream_index_capacity t) (tb_drain t) (tb_pending_open t)) as Et.
  { unfold c', retire_slot, next. cbn [set_table tc_table tb_streams tb_free_stream_head tb_active_streams tb_stream_index
      tb_stream_index_capacity tb_drain tb_pending_open]. rewrite aset_aset. by destruct (g =? UINT32_MAX). }
  assert (∀ f, (∀ x, is_live x = false → f x = 0) → zsum f (tb_streams t).[slot <- cleared_slot g next] = zsum f (tb_streams t)) as Hsum.
  { intros f Hf. rewrite zsum_aset by lia. rewrite !Hf by done. lia. }
  eexists. split.
  - split; change (tc_config c') with (tc_config c); rewrite ?Et; cbn [tb_streams tb_free_stream_head tb_active_streams tb_stream_index tb_stream_index_capacity tb_drain].
    + apply (tk_capacity _ _ Hok).
    + apply (tk_max _ _ Hok).
    + by apply core_idle; [apply (tk_core _ _ Hok)|..].
    + rewrite Hsum by (intros x Hx; unfold count_live; by rewrite Hx). apply (tk_active _ _ Hok).
    + split; [apply (tk_drain _ _ Hok)|]. intros idx Hidx. rewrite (Hsum (count_on c' idx)) by (intros x Hx; unfold count_on; by rewrite Hx).
      by apply (tk_drain _ _ Hok).
    + exact Hfree'.
  - assert (∀ i, 0 ≤ i < maxs → tc_stream c' i = if slot =? i then cleared_slot g next else tc_stream c i) as Hget.
    { intros i Hi. unfold tc_stream. rewrite Et. apply aget_aset; lia. }
    apply (Alloc_refused _ c' slot); try done.
    + split; [done|done|]. intros i Hi Hne. rewrite Hget by done. by destruct (Z.eqb_spec slot i); [subst|].
    + rewrite Hget by done. by rewrite Z.eqb_refl.
    + rewrite Hget by done. rewrite Z.eqb_refl. cbn [cleared_slot ss_generation]. unfold tc_stream. lia.
Qed.

Lemma open_accept_spec index n : tb_free_stream_head t ≠ TR_STREAM_FREE_NONE →
  stream_id ≠ 0 → index_map (tb_stream_index t) !! stream_id = None →
  let slot := tb_free_stream_head t in
  let g := u32 (ss_generation (tb_streams t).[slot] + 1) in
  let idx := lane_counter c lane in
  index_ok (tb_stream_index_capacity t) index → index_map index = <[stream_id := slot]> (index_map (tb_stream_index t)) →
  let c' := set_counts (set_table c (mk_table (ss_free_next (tb_streams t).[slot]) (u32 (tb_active_streams t + 1))
    (tb_streams t).[slot <- opened_slot g state lane stream_id (cg_initial_window_bytes (tc_config c))]
    index (tb_stream_index_capacity t) (tb_drain t).[idx <- drain_count (tb_drain t).[idx] 1] (tb_pending_open t))) n in
  ∃ fl', table_ok c' fl' ∧ allocated TR_OK c' (Some (mk_handle (tc_self c) slot g)) fl'.
Proof.
  intros E Hnz Hnone slot g idx Hix Hmap c'. destruct (head_facts E) as (fl0 & Hs & Hsl & Hmax & Hold & Hg & Hgen & Hpop).
  fold slot g in Hs, Hsl, Hold, Hg, Hgen, Hpop.
  set (s := opened_slot g state lane stream_id (cg_initial_window_bytes (tc_config c))) in *.
  assert (is_live s = true) as Hlive by (apply live_state; exact Hstate).
  pose proof (co_length _ _ _ _ (tk_core _ _ Hok)) as Hlen.
  assert (zsum count_live (tb_streams t).[slot <- s] = zsum count_live (tb_streams t) + 1) as Hsum.
  { rewrite zsum_aset by lia. unfold count_live at 2 3. rewrite Hold, Hlive. lia. }
  exists fl0. split.
  - split; change (tc_config c') with (tc_config c); cbn [c' set_counts set_table tc_table tb_streams tb_free_stream_head tb_active_streams tb_stream_index tb_stream_index_capacity tb_drain].
    + apply (tk_capacity _ _ Hok).
    + apply (tk_max _ _ Hok).
    + by eapply core_open; [apply (tk_core _ _ Hok)|..].
    + rewrite Hsum, (tk_active _ _ Hok). apply u32_small. pose proof (count_live_max (tb_streams t).[slot <- s]) as Hb.
      rewrite alen_aset in Hb. pose proof (count_live_max (tb_streams t)). unfold u32_ok. lia.
    + destruct (tk_drain _ _ Hok) as [Hd1 Hd2].
      apply (drain_change c slot s idx 1 Hd1 Hd2); [lia|lia|apply lane_counter_range|].
      intros j. unfold count_on. rewrite Hold, Hlive. cbn [andb]. change (lane_counter c (ss_lane s)) with idx. destruct (idx =? j); lia.
    + by apply Hpop.
  - assert (∀ i, 0 ≤ i < maxs → tc_stream c' i = if slot =? i then s else tc_stream c i) as Hget.
    { intros i Hi. unfold tc_stream. cbn [c' set_counts set_table tc_table tb_streams]. apply aget_aset; lia. }
    apply Alloc_ok; try done.
    + split; [done|done|]. intros i Hi Hne. rewrite Hget by done. by destruct (Z.eqb_spec slot i); [subst|].
    + rewrite Hget by done. by rewrite Z.eqb_refl.
Qed.

Lemma allocate_spec : let '(ret, c', o) := tr_stream_allocate_locked c stream_id lane state in
  ∃ fl', table_ok c' fl' ∧ allocated ret c' o fl'.
Proof.
  unfold tr_stream_allocate_locked. destruct (Z.eqb_spec (tb_free_stream_head t) TR_STREAM_FREE_NONE) as [E|E].
  { exists fl. split; [done|by constructor]. }
  destruct (head_facts E) as (fl0 & Hs & _). pose proof (tk_core _ _ Hok) as Hcore. destruct (tk_capacity _ _ Hok) as [Hpow _].
  pose proof (index_insert_spec _ maxs Hpow (tb_stream_index t) stream_id (tb_free_stream_head t) (co_index _ _ _ _ Hcore)) as Hins.
  destruct (decide (stream_id = 0)) as [Hz|Hnz].
  - pose proof (open_refuse_spec TR_ERR_INVALID E (or_introl (conj eq_refl Hz))) as H.
    unfold tr_stream_index_insert_locked. rewrite Hz in *. exact H.
  - specialize (Hins Hnz ltac:(lia) (table_room c fl Hok)). destruct (tr_stream_index_insert_locked _ _ _ _ _) as [ret index].
    destruct (index_map (tb_stream_index t) !! stream_id) as [v|] eqn:Em.
    + destruct Hins as [-> ->]. apply (open_refuse_spec TR_ERR_STATE E). right. split; [done|by exists v].
    + destruct Hins as (-> & Hix & Hmap). by apply open_accept_spec.
Qed.

End Allocate.

Section Free.
Context (c : tr_channel) (fl : list Z) (Hok : table_ok c fl).
#[local] Abbreviation t := (tc_table c).
#[local] Abbreviation maxs := (cg_max_streams (tc_config c)).

(** A stream that is there goes; the loop in the index ends. *)
Lemma free_spec slot : 0 ≤ slot < maxs → is_live (tc_stream c slot) = true →
  ∃ c' fl', tr_stream_free_locked c slot = Some c' ∧ table_ok c' fl' ∧ slots_kept c c' slot ∧
    is_live (tc_stream c' slot) = false ∧ ss_generation (tc_stream c' slot) = ss_generation (tc_stream c slot) ∧
    tc_links c' = tc_links c.
Proof.
  intros Hs Hlive. unfold tr_stream_free_locked. rewrite Z.geb_leb. destruct (Z.leb_spec maxs slot); [lia|].
  apply live_state in Hlive as Hst. unfold tc_stream in Hst, Hlive. rewrite bool_decide_eq_false_2 by done.
  pose proof (tk_core _ _ Hok) as Hcore. pose proof (co_length _ _ _ _ Hcore) as Hlen. destruct (tk_capacity _ _ Hok) as [Hpow _].
  pose proof (tk_max _ _ Hok) as Hmax.
  set (s := (tb_streams t).[slot]) in *. set (g := ss_generation s). set (idx := lane_counter c (ss_lane s)).
  destruct (index_remove_spec _ Hpow (tb_stream_index t) (ss_stream_id s) (co_index _ _ _ _ Hcore)
    (co_ids _ _ _ _ Hcore slot Hs Hlive) (table_room c fl Hok)) as (ret & index & -> & Hr).
  unfold s in Hr. rewrite (core_live _ _ _ _ slot Hcore Hs Hlive) in Hr. fold s in Hr. destruct Hr as (-> & Hix & Hmap). cbn [mbind option_bind].
  pose proof (co_generations _ _ _ _ Hcore slot Hs) as Hg. fold s g in Hg.
  pose proof (free_push _ slot _ _ g (tk_free _ _ Hok) ltac:(lia) Hlive) as Hfree.
  set (next := if g =? UINT32_MAX then TR_STREAM_FREE_NONE else tb_free_stream_head t) in *.
  eexists _, _. split; [reflexivity|]. set (c' := set_table c _).
  assert (tb_streams (tc_table c') = (tb_streams t).[slot <- cleared_slot g next]) as Es
    by (unfold c', next; cbn [set_table tc_table retire_slot tb_streams tb_free_stream_head]; by destruct (g =? UINT32_MAX)).
  assert (zsum count_live (tb_streams t).[slot <- cleared_slot g next] = zsum count_live (tb_streams t) - 1) as Hsum.
  { rewrite zsum_aset by lia. fold s. unfold count_live at 2 3. rewrite Hlive. simpl. lia. }
  split; [split; change (tc_config c') with (tc_config c); rewrite ?Es|].
  - apply (tk_capacity _ _ Hok).
  - done.
  - apply (core_close _ _ _ _ _ _ _ Hcore); try done.
  - unfold c'; cbn [set_table tc_table retire_slot tb_active_streams]. rewrite Hsum, (tk_active _ _ Hok).
    pose proof (count_live_max (tb_streams t).[slot <- cleared_slot g next]). destruct (Z.eqb_spec (zsum count_live (tb_streams t)) 0); lia.
  - destruct (tk_drain _ _ Hok) as [Hd1 Hd2]. apply (drain_change c slot _ idx (-1) Hd1 Hd2); [lia|lia|apply lane_counter_range|].
    intros j. unfold count_on at 1 2. fold s. rewrite Hlive. cbn [andb cleared_slot is_live ss_state]. fold idx. simpl. destruct (idx =? j); lia.
  - unfold c'; cbn [set_table tc_table retire_slot tb_free_stream_head].
    instantiate (1 := if g =? UINT32_MAX then fl else slot :: fl). clear -Hfree. by destruct (g =? UINT32_MAX).
  - assert (∀ i, 0 ≤ i < maxs → tc_stream c' i = if slot =? i then cleared_slot g next else tc_stream c i) as Hget.
    { intros i Hi. unfold tc_stream. rewrite Es. apply aget_aset; lia. }
    rewrite Hget, Z.eqb_refl by done. split_and!; try done. split; [done|done|].
    intros i Hi Hne. rewrite Hget by done. by destruct (Z.eqb_spec slot i); [subst|].
Qed.

(** A stream that is there changes, and stays the same stream. *)
Lemma touch_spec slot s : 0 ≤ slot < maxs → same_stream (tc_stream c slot) s = true →
  table_ok (put_stream c slot s) fl ∧ slots_kept c (put_stream c slot s) slot ∧ tc_stream (put_stream c slot s) slot = s ∧
  is_live (tc_stream c slot) = true ∧ is_live s = true ∧ ss_generation s = ss_generation (tc_stream c slot) ∧
  ss_stream_id s = ss_stream_id (tc_stream c slot) ∧ ss_lane s = ss_lane (tc_stream c slot).
Proof.
  intros Hs Hsame. unfold same_stream in Hsame. rewrite !andb_true_iff in Hsame.
  destruct Hsame as [[[[[H1 H2] H3%Z.eqb_eq] H4%Z.eqb_eq] H5] H6%Z.eqb_eq].
  apply bool_decide_eq_true in H1, H2, H5. apply live_state in H1, H2.
  pose proof (tk_core _ _ Hok) as Hcore. pose proof (co_length _ _ _ _ Hcore) as Hlen.
  assert (∀ f : tr_stream_slot → Z, f s = f (tc_stream c slot) → zsum f (tb_streams t).[slot <- s] = zsum f (tb_streams t)) as Hsum.
  { intros f Hf. rewrite zsum_aset by lia. unfold tc_stream in Hf. lia. }
  split; [split; change (tc_config (put_stream c slot s)) with (tc_config c);
    cbn [put_stream set_table tc_table tb_streams tb_free_stream_head tb_active_streams tb_stream_index tb_stream_index_capacity tb_drain]|].
  - apply (tk_capacity _ _ Hok).
  - apply (tk_max _ _ Hok).
  - apply core_touch; try done. rewrite H3. by apply (co_generations _ _ _ _ Hcore).
  - rewrite Hsum; [apply (tk_active _ _ Hok)|]. unfold count_live. by rewrite H1, H2.
  - split; [apply (tk_drain _ _ Hok)|]. intros idx Hidx. rewrite (Hsum (count_on (put_stream c slot s) idx)).
    + by apply (tk_drain _ _ Hok).
    + unfold count_on. by rewrite H1, H2, H5.
  - apply free_touch; try done; [apply (tk_free _ _ Hok)|lia].
  - split_and!; try done.
    + split; [done|done|]. intros i Hi Hne. unfold tc_stream. cbn [put_stream set_table tc_table tb_streams]. apply aget_aset_ne; lia.
    + unfold tc_stream. cbn [put_stream set_table tc_table tb_streams]. apply aget_aset_eq. lia.
Qed.

End Free.

(** * Lemmas: the book *)

Section Book.
Context (c c' : tr_channel) (fl : list Z) (Hok : table_ok c fl) (slot : Z).
Context (Hkept : slots_kept c c' slot) (Hslot : 0 ≤ slot < cg_max_streams (tc_config c)).

Lemma kept_self : tc_self c' = tc_self c. Proof. apply Hkept. Qed.
Lemma kept_max : cg_max_streams (tc_config c') = cg_max_streams (tc_config c).
Proof. by rewrite (sl_config _ _ _ Hkept). Qed.
Lemma kept_other i : 0 ≤ i < cg_max_streams (tc_config c) → i ≠ slot → tc_stream c' i = tc_stream c i.
Proof. apply Hkept. Qed.

(** Only the generation of a slot that is not in use changed. *)
Lemma book_idle m : book_ok c m → is_live (tc_stream c slot) = false → is_live (tc_stream c' slot) = false →
  ss_generation (tc_stream c slot) ≤ ss_generation (tc_stream c' slot) → book_ok c' m.
Proof.
  intros [Hlive Hgiven Hn Hknown] Hold Hnew Hg. split; [|..|done|done].
  - intros id lane h. rewrite Hlive, kept_self, kept_max. do 2 apply and_iff_compat_l. apply and_iff_compat_l_dep. intros Hs.
    destruct (decide (sh_slot h = slot)) as [->|Hne]; [rewrite Hold, Hnew; by split; intros [? _]|by rewrite kept_other].
  - intros h Hh. rewrite kept_max. intros Hs. pose proof (Hgiven h Hh Hs). destruct (decide (sh_slot h = slot)) as [E|Hne].
    + rewrite E in *. lia.
    + by rewrite kept_other.
Qed.

Lemma book_opened m id lane g s : book_ok c m → is_live (tc_stream c slot) = false → ss_generation (tc_stream c slot) < g →
  id ≠ 0 → (∀ i, 0 ≤ i < cg_max_streams (tc_config c) → is_live (tc_stream c i) = true → ss_stream_id (tc_stream c i) ≠ id) →
  tc_stream c' slot = s → is_live s = true → ss_stream_id s = id → ss_lane s = lane → ss_generation s = g →
  let h := mk_handle (tc_self c) slot g in
  sk_live m !! id = None ∧ (h ∉ sk_given m) ∧ (∀ id' lane' h', sk_live m !! id' = Some (lane', h') → sh_slot h' ≠ slot) ∧
  book_ok c' (mk_book (<[id := (lane, h)]> (sk_live m)) (sk_given m ++ [h])).
Proof.
  intros [Hlive Hgiven Hn Hknown] Hold Hg Hid Hfree Es Hl Ei El Eg h.
  assert (sk_live m !! id = None) as Hnone.
  { apply eq_None_not_Some. intros [[lane' h'] E]. apply Hlive in E as (_ & _ & Hs & Hl' & Ei' & _). by apply (Hfree _ Hs Hl'). }
  assert (h ∉ sk_given m) as Hnew by (intros Hin; pose proof (Hgiven _ Hin Hslot) as H'; simpl in H'; lia).
  assert (∀ id' lane' h', sk_live m !! id' = Some (lane', h') → sh_slot h' ≠ slot) as Hother.
  { intros id' lane' h' (_ & _ & _ & Hl' & _)%Hlive E. rewrite E in Hl'. congruence. }
  split_and!; try done. split.
  - intros id' lane' h'. cbn [sk_live]. rewrite lookup_insert_Some, kept_self, kept_max. split.
    + intros [[<- [= <- <-]]|[Hne E]].
      * unfold h. cbn [sh_slot sh_channel sh_generation]. rewrite Es. split_and!; try done; apply Hslot.
      * pose proof (Hother _ _ _ E). apply Hlive in E. rewrite kept_other; [exact E|apply E|done].
    + intros (Hid' & Hself & Hs & H'). destruct (decide (sh_slot h' = slot)) as [E|Hne].
      * rewrite E, Es in H'. destruct H' as (_ & <- & <- & H'). left. split; [done|]. destruct h'; simpl in *. unfold h. congruence.
      * rewrite kept_other in H' by done. right. split; [intros <-; destruct H' as (Hl' & Ei' & _); by apply (Hfree _ Hs Hl')|by apply Hlive].
  - cbn [sk_given]. intros h' [Hin|Hin]%elem_of_app; rewrite kept_max; intros Hs.
    + pose proof (Hgiven _ Hin Hs). destruct (decide (sh_slot h' = slot)) as [E|Hne]; [rewrite E in *; rewrite Es; lia|by rewrite kept_other].
    + apply list_elem_of_singleton in Hin as ->. cbn [sh_slot sh_generation h]. rewrite Es. lia.
  - cbn [sk_given]. apply NoDup_app. split_and!; [done| |apply NoDup_singleton]. intros x Hx ->%list_elem_of_singleton. done.
  - intros h' (id' & lane' & E). cbn [sk_live sk_given] in *. apply elem_of_app.
    apply lookup_insert_Some in E as [[_ [= _ <-]]|[_ E]]; [right; by apply list_elem_of_singleton|left; apply Hknown; by eexists _, _].
Qed.

Lemma book_closed m : book_ok c m → is_live (tc_stream c slot) = true → is_live (tc_stream c' slot) = false →
  ss_generation (tc_stream c' slot) = ss_generation (tc_stream c slot) →
  book_ok c' (mk_book (delete (ss_stream_id (tc_stream c slot)) (sk_live m)) (sk_given m)).
Proof.
  intros [Hlive Hgiven Hn Hknown] Hold Hnew Hg. split; [|..|done|].
  - intros id lane h. cbn [sk_live]. rewrite lookup_delete_Some, Hlive, kept_self, kept_max. split.
    + intros (Hne & ? & ? & Hs & Hl & Ei & Hr). assert (sh_slot h ≠ slot) by (intros E; rewrite E in Ei; congruence).
      rewrite kept_other by done. split_and!; first [done|apply Hs|apply Hr].
    + intros (? & ? & Hs & Hl & Ei & Hr). destruct (decide (sh_slot h = slot)) as [E|Hne]; [rewrite E in Hl; congruence|].
      rewrite kept_other in Hl, Ei, Hr by done. split; [|split_and!; first [done|apply Hs|apply Hr]].
      intros E. apply Hne. symmetry. rewrite <- Ei in E. by apply (core_unique _ _ _ _ slot _ (tk_core _ _ Hok)).
  - intros h Hh. rewrite kept_max. intros Hs. pose proof (Hgiven h Hh Hs). destruct (decide (sh_slot h = slot)) as [E|Hne].
    + rewrite E in *. lia.
    + by rewrite kept_other.
  - intros h (id & lane & E). cbn [sk_live] in E. apply lookup_delete_Some in E as [_ E]. apply Hknown. by eexists _, _.
Qed.

Lemma book_touched m : book_ok c m → is_live (tc_stream c slot) = true → is_live (tc_stream c' slot) = true →
  ss_generation (tc_stream c' slot) = ss_generation (tc_stream c slot) →
  ss_stream_id (tc_stream c' slot) = ss_stream_id (tc_stream c slot) → ss_lane (tc_stream c' slot) = ss_lane (tc_stream c slot) →
  book_ok c' m.
Proof.
  intros [Hlive Hgiven Hn Hknown] Hold Hnew Hg Hi Hla. split; [|..|done|done].
  - intros id lane h. rewrite Hlive, kept_self, kept_max. do 2 apply and_iff_compat_l. apply and_iff_compat_l_dep. intros Hs.
    destruct (decide (sh_slot h = slot)) as [->|Hne]; [by rewrite Hold, Hnew, Hg, Hi, Hla|by rewrite kept_other].
  - intros h Hh. rewrite kept_max. intros Hs. pose proof (Hgiven h Hh Hs). destruct (decide (sh_slot h = slot)) as [E|Hne].
    + rewrite E in *. lia.
    + by rewrite kept_other.
Qed.

End Book.

(** One operation does what the book allows, and ends. *)
Lemma slot_step_spec c fl m op : table_ok c fl → book_ok c m → slot_op_legal op →
  ∃ a c' fl' m', slot_step op c = Some (a, c') ∧ table_ok c' fl' ∧ book_ok c' m' ∧
    tc_self c' = tc_self c ∧ tc_config c' = tc_config c ∧
    book_step (tc_self c) (cg_max_streams (tc_config c)) op a m m'.
Proof.
  intros Hok Hbook Hop. destruct op as [id lane state|h|slot s]; cbn [slot_op_legal slot_step] in *.
  - destruct Hop as [Hid Hstate]. pose proof (allocate_spec c fl Hok id lane state Hid Hstate) as Ha.
    destruct (tr_stream_allocate_locked c id lane state) as [[ret c'] o]. destruct Ha as (fl' & Hok' & Ha).
    destruct Ha as [_|ret c' slot fl' Hret Hk Hs Hold Hnew Hg|c' slot g fl' Hnz Hnone Hk Hs Hold Hg Es _].
    + exists (Ans_open TR_AGAIN None), c, fl, m. split_and!; try done. constructor.
    + exists (Ans_open ret None), c', fl', m. split_and!; try done; try apply Hk; [by eapply book_idle|].
      destruct Hret as [[-> ->]|[-> [v Hv]]]; constructor.
      apply (co_map _ _ _ _ (tk_core _ _ Hok)) in Hv as (Hv & Hl & Ei).
      assert (id ≠ 0) as Hnz by (intros ->; by apply (co_ids _ _ _ _ (tk_core _ _ Hok) v Hv Hl)).
      exists (ss_lane (tc_stream c v), mk_handle (tc_self c) v (ss_generation (tc_stream c v))). apply (bk_live _ _ Hbook).
      split_and!; first [done|apply Hv].
    + assert (∀ i, 0 ≤ i < cg_max_streams (tc_config c) → is_live (tc_stream c i) = true → ss_stream_id (tc_stream c i) ≠ id) as Hfree.
      { intros i Hi Hl E. assert (index_map (tb_stream_index (tc_table c)) !! id = Some i); [|congruence].
        apply (co_map _ _ _ _ (tk_core _ _ Hok)). split_and!; first [done|apply Hi]. }
      assert (is_live (tc_stream c' slot) = true) as Hl by (rewrite Es; apply live_state; exact Hstate).
      destruct (book_opened c c' slot Hk Hs m id lane g _ Hbook Hold Hg Hnz Hfree Es) as (Hn & Hnew & Hother & Hbook');
        [by rewrite <- Es|done|done|done|].
      eexists _, c', fl', _. split; [reflexivity|]. split_and!; [done|exact Hbook'|apply Hk|apply Hk|].
      by apply (Book_open _ _ id lane state (mk_handle (tc_self c) slot g)).
  - destruct (tr_stream_lookup_handle c h) as [slot|] eqn:El.
    + apply (lookup_handle_spec c) in El as (-> & Hs & Hl & Hg); [|apply Hop]. assert (0 ≤ sh_slot h < cg_max_streams (tc_config c)) as Hs' by (unfold u32_ok in Hop; lia).
      destruct (free_spec c fl Hok _ Hs' Hl) as (c' & fl' & -> & Hok' & Hk & Hnew & Hgen & _).
      eexists _, c', fl', _. split; [reflexivity|]. split_and!; [done|by apply book_closed with (fl := fl)|apply Hk|apply Hk|].
      eapply (Book_close _ _ _ (ss_lane (tc_stream c (sh_slot h)))). apply (bk_live _ _ Hbook). cbn [sh_slot sh_channel sh_generation].
      split_and!; first [done|apply Hs'|by apply (co_ids _ _ _ _ (tk_core _ _ Hok))].
    + exists (Ans_close None), c, fl, m. split_and!; try done. constructor. intros (id & lane & E). apply (bk_live _ _ Hbook) in E.
      cbn [sh_slot sh_channel sh_generation] in E. destruct E as (_ & _ & Hs & Hl & _ & _ & Hg).
      rewrite (proj2 (lookup_handle_spec c h (sh_slot h) (proj1 Hop))) in El; [done|]. split_and!; first [done|apply Hs].
  - destruct (Z.ltb_spec slot (cg_max_streams (tc_config c))) as [Hs|]; cbn [andb].
    2: { exists Ans_touch, c, fl, m. split_and!; try done. constructor. }
    destruct (same_stream (tc_stream c slot) s) eqn:E.
    2: { exists Ans_touch, c, fl, m. split_and!; try done. constructor. }
    assert (0 ≤ slot < cg_max_streams (tc_config c)) as Hs' by (unfold u32_ok in Hop; lia).
    destruct (touch_spec c fl Hok slot s Hs' E) as (Hok' & Hk & Es & Hl & Hl' & Hg & Hi & Hla).
    exists Ans_touch, (put_stream c slot s), fl, m. split_and!; try done; [|constructor].
    apply (book_touched c _ slot Hk); try done; by rewrite Es.
Qed.

(** The table that [tr_channel_create] sets up has every slot free. *)
Lemma first_table_ok c max_streams : 0 < max_streams < 2 ^ 32 → cg_max_streams (tc_config c) = max_streams →
  tc_table c = first_table max_streams → table_ok c (map Z.of_nat (seq 0 (Z.to_nat max_streams))) ∧ book_ok c (mk_book ∅ []).
Proof.
  intros Hm Hc Ht. destruct (capacity_for_spec max_streams) as [Hpow Hcap]; [unfold u32_ok; lia|lia|].
  assert (∀ i, 0 ≤ i < max_streams → (first_slots max_streams).[i] =
    cleared_slot 0 (if i + 1 <? max_streams then i + 1 else TR_STREAM_FREE_NONE)) as Hget.
  { intros i Hi. unfold aget. apply list_lookup_total_correct. unfold first_slots.
    rewrite list_lookup_fmap, lookup_seq_lt by lia. simpl. by rewrite Z2Nat.id by lia. }
  assert (alen (first_slots max_streams) = max_streams) as Hlen by (unfold alen, first_slots; rewrite length_map, length_seq; lia).
  assert (∀ f, (∀ n, f (cleared_slot 0 n) = 0) → zsum f (first_slots max_streams) = 0) as Hsum.
  { intros f Hf. apply zsum_zero. intros x Hx. unfold first_slots in Hx. apply list_elem_of_fmap in Hx as (? & -> & _). apply Hf. }
  pose proof (empty_stands _ max_streams Hpow ltac:(lia)) as [Hix Hmap Hsz Hsl].
  assert (∀ i, 0 ≤ i < max_streams → is_live (tc_stream c i) = false) as Hdead.
  { intros i Hi. unfold tc_stream. rewrite Ht. cbn [first_table tb_streams]. by rewrite Hget. }
  split; [split; rewrite ?Hc; rewrite ?Ht; cbn [first_table tb_streams tb_stream_index tb_stream_index_capacity tb_active_streams tb_drain tb_free_stream_head]|].
  - done.
  - done.
  - split; try done.
    + intros id i. rewrite Hmap, lookup_empty. split; [done|]. intros (Hi & Hl & _). by rewrite Hget in Hl.
    + intros i Hi. by rewrite Hget.
    + rewrite Hmap, map_size_empty. by rewrite Hsum.
    + intros i Hi. rewrite Hget by done. simpl. unfold u32_ok. lia.
  - by rewrite Hsum.
  - split; [done|]. intros idx Hidx. rewrite Hsum by done. by destruct Hidx as [-> | ->].
  - split.
    + apply (chain_seq _ max_streams 0); [|lia|lia]. intros s Hs. rewrite Hget by lia. done.
    + apply NoDup_fmap; [apply _|apply NoDup_seq].
    + intros i. rewrite Hlen. rewrite list_elem_of_fmap. split.
      * intros (n & -> & Hn%elem_of_seq). assert (0 ≤ Z.of_nat n < max_streams) by lia. rewrite Hget by done. by split_and!; try lia.
      * intros (Hi & _). exists (Z.to_nat i). split; [lia|]. apply elem_of_seq. lia.
  - split; cbn [sk_live sk_given].
    + intros id lane h. rewrite lookup_empty, Hc. split; [done|]. intros (_ & _ & Hi & Hl & _). by rewrite Hdead in Hl.
    + intros h Hh. by apply elem_of_nil in Hh.
    + constructor.
    + intros h (id & lane & E). cbn [sk_live] in E; by rewrite lookup_empty in E.
Qed.

(** The book and the index have the same ids. *)
Lemma book_index c m fl : table_ok c fl → book_ok c m →
  (λ e : tr_lane * tr_stream_handle, sh_slot e.2) <$> sk_live m = index_map (tb_stream_index (tc_table c)).
Proof.
  intros Hok Hbook. apply map_eq. intros id. apply option_eq. intros slot.
  rewrite lookup_fmap_Some, (co_map _ _ _ _ (tk_core _ _ Hok)). split.
  - intros ([lane h] & <- & E). apply (bk_live _ _ Hbook) in E. cbn [snd]. unfold tc_stream in E. tauto.
  - intros (Hs & Hl & Ei). exists (ss_lane (tc_stream c slot), mk_handle (tc_self c) slot (ss_generation (tc_stream c slot))).
    split; [done|]. apply (bk_live _ _ Hbook). cbn [sh_slot sh_channel sh_generation].
    split_and!; try (done || apply Hs). rewrite <- Ei. by apply (co_ids _ _ _ _ (tk_core _ _ Hok)).
Qed.

(** * Theorem *)

(** C30: The slots of a new channel, under any sequence of streams that open, close by handle and
    change otherwise: every operation ends and answers as the book of streams says, by which a
    handle is given out once and leads to its stream until that is closed and to nothing
    afterwards; an id leads to the one stream that has it; the counts are those of the book,
    whole and per connection; and a channel is full only when every slot is in use or has had
    2^32 - 1 generations. *)
Theorem stream_slots_exact c ops : 0 < cg_max_streams (tc_config c) < 2 ^ 32 →
  tc_table c = first_table (cg_max_streams (tc_config c)) → Forall slot_op_legal ops →
  ∃ answers c' m, slots_run ops c = Some (answers, c') ∧
    book_run (tc_self c) (cg_max_streams (tc_config c)) ops answers (mk_book ∅ []) m ∧ NoDup (sk_given m) ∧
    (∀ h slot, u32_ok (sh_slot h) → tr_stream_lookup_handle c' h = Some slot ↔
      slot = sh_slot h ∧ book_has m (mk_handle (tc_self c) (sh_slot h) (sh_generation h))) ∧
    (∀ id slot, tr_stream_lookup_id c' id = Some slot ↔ ∃ lane h, sk_live m !! id = Some (lane, h) ∧ sh_slot h = slot) ∧
    tb_active_streams (tc_table c') = Z.of_nat (size (sk_live m)) ∧
    (∀ idx, idx = 0 ∨ idx = 1 →
      dn_active_streams (tb_drain (tc_table c')).[idx] = zsum (count_on c' idx) (tb_streams (tc_table c'))) ∧
    (tb_free_stream_head (tc_table c') = TR_STREAM_FREE_NONE ↔
      ∀ slot, 0 ≤ slot < cg_max_streams (tc_config c) →
        is_live (tc_stream c' slot) = true ∨ ss_generation (tc_stream c' slot) = UINT32_MAX).
Proof.
  intros Hm Ht Hops. destruct (first_table_ok c _ Hm eq_refl Ht) as [Hok Hbook]. clear Ht.
  revert Hok Hbook. generalize (mk_book ∅ []) (map Z.of_nat (seq 0 (Z.to_nat (cg_max_streams (tc_config c))))).
  revert c Hm. induction Hops as [|op ops Hop Hops IH]; intros c Hm m fl Hok Hbook.
  - exists [], c, m. split; [done|]. split; [constructor|]. split; [apply Hbook|]. split_and!.
    + intros h slot Hh. rewrite (lookup_handle_spec c) by apply Hh. apply and_iff_compat_l_dep. intros ->. unfold book_has. split.
      * intros (Hs & Hl & Hg). exists (ss_stream_id (tc_stream c (sh_slot h))), (ss_lane (tc_stream c (sh_slot h))).
        assert (0 ≤ sh_slot h < cg_max_streams (tc_config c)) as Hs' by (unfold u32_ok in Hh; lia).
        apply (bk_live _ _ Hbook). cbn [sh_slot sh_channel sh_generation].
        split_and!; first [done|apply Hs'|by apply (co_ids _ _ _ _ (tk_core _ _ Hok))].
      * intros (id & lane & E). apply (bk_live _ _ Hbook) in E. cbn [sh_slot sh_channel sh_generation] in E. tauto.
    + intros id slot. rewrite (lookup_id_spec c fl Hok). split.
      * intros (Hid & Hs & Hl & Ei). exists (ss_lane (tc_stream c slot)), (mk_handle (tc_self c) slot (ss_generation (tc_stream c slot))).
        split; [|done]. apply (bk_live _ _ Hbook). split_and!; first [done|apply Hs].
      * intros (lane & h & E & <-). apply (bk_live _ _ Hbook) in E. tauto.
    + by rewrite (tk_active _ _ Hok), <- (co_size _ _ _ _ (tk_core _ _ Hok)), <- (book_index c m fl Hok Hbook), map_size_fmap.
    + apply (tk_drain _ _ Hok).
    + by apply free_list_empty with (fl := fl).
  - destruct (slot_step_spec c fl m op Hok Hbook Hop) as (a & c1 & fl1 & m1 & Estep & Hok1 & Hbook1 & Eself & Ecfg & Hstep).
    rewrite <- Ecfg in Hm. destruct (IH c1 Hm m1 fl1 Hok1 Hbook1) as (answers & c' & m' & Erun & Hrun & Hrest). rewrite Eself, Ecfg in Hrun, Hrest.
    exists (a :: answers), c', m'. cbn [slots_run]. rewrite Estep. simpl. rewrite Erun. simpl. split; [done|]. split; [by econstructor|exact Hrest].
Qed.

(** * Witness *)

Definition demo_conn : tr_conn_handle := mk_conn (Some 1%nat) 4 1.
Definition demo_channel_config : tr_channel_config :=
  mk_channel_config TR_CHANNEL_CLIENT TR_CHANNEL_SHARED_CONNECTION 2 16 4 64 true 3 3 1 0.
Definition demo_links : channel_links := mk_links demo_conn demo_conn true true true true (mk_caps 3 3 8 64 1) (mk_caps 3 3 8 64 1).
Definition zero_counts : channel_counts := mk_counts 0 0 0 0 0 0 0 0 0.
Definition slots_demo_channel : tr_channel :=
  mk_channel 7 demo_channel_config demo_links (first_table 2) false false false 1 false false zero_counts [] [].

(** Two slots: the third stream does not fit, and the slot of the first one is used again. *)
Definition slots_demo : list slot_op :=
  [Op_open 1 TR_LANE_CONTROL TR_STREAM_SLOT_OPENING; Op_open 3 TR_LANE_BULK TR_STREAM_SLOT_OPENING;
   Op_open 5 TR_LANE_BULK TR_STREAM_SLOT_OPENING; Op_close (mk_handle 7 0 1); Op_close (mk_handle 7 0 1);
   Op_open 3 TR_LANE_BULK TR_STREAM_SLOT_OPENING; Op_open 7 TR_LANE_BULK TR_STREAM_SLOT_OPENING].

Lemma slots_demo_answers : fst <$> slots_run slots_demo slots_demo_channel =
  Some [Ans_open TR_OK (Some (mk_handle 7 0 1)); Ans_open TR_OK (Some (mk_handle 7 1 1)); Ans_open TR_AGAIN None;
    Ans_close (Some 0); Ans_close None; Ans_open TR_ERR_STATE None; Ans_open TR_OK (Some (mk_handle 7 0 3))].
Proof. vm_compute. reflexivity. Qed.

Lemma slots_demo_legal : Forall slot_op_legal slots_demo.
Proof. repeat constructor; unfold u32_ok; simpl; done || lia. Qed.

Lemma stream_slots_exact_witness : ∃ answers c' m, slots_run slots_demo slots_demo_channel = Some (answers, c') ∧
  book_run 7 2 slots_demo answers (mk_book ∅ []) m ∧ NoDup (sk_given m).
Proof.
  destruct (stream_slots_exact slots_demo_channel slots_demo ltac:(simpl; lia) eq_refl slots_demo_legal)
    as (answers & c' & m & Hrun & Hbook & Hnodup & _).
  exists answers, c', m. exact (conj Hrun (conj Hbook Hnodup)).
Defined.
