(* ===== verification/StreamFlow.v ===== *)
(** Sending, receiving and flow control of a stream: [tr_stream_sendv],
    [tr_channel_handle_data], [tr_channel_handle_window_update],
    [tr_send_window_update_locked] and the functions that lead to it, of
    [src/transport/channel/channel.c].

    A receiver tells its peer, as an absolute number of bytes, how far it may send; consuming
    what it delivered moves that limit.  An update that is too small is put off, and one that
    the reactor has no room for is pending until it is tried again.  Each function under the
    channel's lock is one step; the answers of the reactor, of the pool and of timers are
    parameters.

    The second half puts two channels together: the frames of one direction of a stream, and
    the updates that come back.  Theorem: no frame and no update is ever refused, what is
    delivered is what was sent, and what is delivered and not consumed fits the window.  The
    reassembly pool may have no buffer for the first frame of a message in pieces: the frame is
    taken all the same, and the stream is reset with the pool's reason ([fl_failed]; the run ends).
    Once everything is consumed and no update is under way, every legal message may be sent,
    if the receiver's own peer limit is not below that of the sender; [flow_stalls] shows that
    otherwise a stream stops for ever when the debt is below the threshold and the next message
    is larger than the rest, since the receiver takes the wrong limit into account. *)
From S2P Require Import Prelude Status Wire MemoryBudget BufferPool Parser ReactorTx StreamIndex ChannelTypes ChannelSlots.

(** * Fields of a stream *)

Definition slot_send (s : tr_stream_slot) (next_id sent limit window : Z) : tr_stream_slot :=
  mk_slot (ss_generation s) (ss_free_next s) (ss_state s) (ss_lane s) (ss_stream_id s) (ss_local_open s) (ss_remote_open s)
    (ss_opened_notified s) next_id (ss_next_rx_message_id s) sent limit window (ss_rx_received_bytes s) (ss_rx_consumed_bytes s)
    (ss_rx_advertised_limit s) (ss_pending_advertised_limit s) (ss_rx_credit_stopped s) (ss_rx_reassembly s)
    (ss_rx_reassembly_message_id s) (ss_reset_status s) (ss_reset_peer_status s) (ss_reset_sent s) (ss_reset_received s)
    (ss_reset_notified s) (ss_reset_fragmented s) (ss_reset_discard_unordered s) (ss_reset_message_bytes s).
Definition slot_receive (s : tr_stream_slot) (next_id received consumed : Z) : tr_stream_slot :=
  mk_slot (ss_generation s) (ss_free_next s) (ss_state s) (ss_lane s) (ss_stream_id s) (ss_local_open s) (ss_remote_open s)
    (ss_opened_notified s) (ss_next_tx_message_id s) next_id (ss_tx_sent_bytes s) (ss_tx_send_limit s) (ss_tx_window_bytes s)
    received consumed (ss_rx_advertised_limit s) (ss_pending_advertised_limit s) (ss_rx_credit_stopped s) (ss_rx_reassembly s)
    (ss_rx_reassembly_message_id s) (ss_reset_status s) (ss_reset_peer_status s) (ss_reset_sent s) (ss_reset_received s)
    (ss_reset_notified s) (ss_reset_fragmented s) (ss_reset_discard_unordered s) (ss_reset_message_bytes s).
Definition slot_credit (s : tr_stream_slot) (advertised pending : Z) (stopped : bool) : tr_stream_slot :=
  mk_slot (ss_generation s) (ss_free_next s) (ss_state s) (ss_lane s) (ss_stream_id s) (ss_local_open s) (ss_remote_open s)
    (ss_opened_notified s) (ss_next_tx_message_id s) (ss_next_rx_message_id s) (ss_tx_sent_bytes s) (ss_tx_send_limit s)
    (ss_tx_window_bytes s) (ss_rx_received_bytes s) (ss_rx_consumed_bytes s) advertised pending stopped (ss_rx_reassembly s)
    (ss_rx_reassembly_message_id s) (ss_reset_status s) (ss_reset_peer_status s) (ss_reset_sent s) (ss_reset_received s)
    (ss_reset_notified s) (ss_reset_fragmented s) (ss_reset_discard_unordered s) (ss_reset_message_bytes s).
Definition slot_assembly (s : tr_stream_slot) (buffer : option tr_rx_buffer) (message_id : Z) : tr_stream_slot :=
  mk_slot (ss_generation s) (ss_free_next s) (ss_state s) (ss_lane s) (ss_stream_id s) (ss_local_open s) (ss_remote_open s)
    (ss_opened_notified s) (ss_next_tx_message_id s) (ss_next_rx_message_id s) (ss_tx_sent_bytes s) (ss_tx_send_limit s)
    (ss_tx_window_bytes s) (ss_rx_received_bytes s) (ss_rx_consumed_bytes s) (ss_rx_advertised_limit s)
    (ss_pending_advertised_limit s) (ss_rx_credit_stopped s) buffer message_id
    (ss_reset_status s) (ss_reset_peer_status s) (ss_reset_sent s) (ss_reset_received s)
    (ss_reset_notified s) (ss_reset_fragmented s) (ss_reset_discard_unordered s) (ss_reset_message_bytes s).
Definition slot_state (s : tr_stream_slot) (state : tr_stream_slot_state) (local_open notified : bool) : tr_stream_slot :=
  mk_slot (ss_generation s) (ss_free_next s) state (ss_lane s) (ss_stream_id s) local_open (ss_remote_open s)
    notified (ss_next_tx_message_id s) (ss_next_rx_message_id s) (ss_tx_sent_bytes s) (ss_tx_send_limit s)
    (ss_tx_window_bytes s) (ss_rx_received_bytes s) (ss_rx_consumed_bytes s) (ss_rx_advertised_limit s)
    (ss_pending_advertised_limit s) (ss_rx_credit_stopped s) (ss_rx_reassembly s) (ss_rx_reassembly_message_id s)
    (ss_reset_status s) (ss_reset_peer_status s) (ss_reset_sent s) (ss_reset_received s)
    (ss_reset_notified s) (ss_reset_fragmented s) (ss_reset_discard_unordered s) (ss_reset_message_bytes s).
Definition slot_reset (s : tr_stream_slot) (status : tr_status) (notified fragmented unordered : bool) (message_bytes : Z) : tr_stream_slot :=
  mk_slot (ss_generation s) (ss_free_next s) (ss_state s) (ss_lane s) (ss_stream_id s) (ss_local_open s) (ss_remote_open s)
    (ss_opened_notified s) (ss_next_tx_message_id s) (ss_next_rx_message_id s) (ss_tx_sent_bytes s) (ss_tx_send_limit s)
    (ss_tx_window_bytes s) (ss_rx_received_bytes s) (ss_rx_consumed_bytes s) (ss_rx_advertised_limit s)
    (ss_pending_advertised_limit s) (ss_rx_credit_stopped s) (ss_rx_reassembly s) (ss_rx_reassembly_message_id s)
    status (ss_reset_peer_status s) (ss_reset_sent s) (ss_reset_received s) notified fragmented unordered message_bytes.

Definition count_messages (n : channel_counts) (tx rx bytes_tx bytes_rx updates_tx updates_rx : Z) : channel_counts :=
  mk_counts (ct_streams_opened n) (ct_streams_closed n) (ct_stream_errors n) (u64 (ct_messages_tx n + tx)) (u64 (ct_messages_rx n + rx))
    (u64 (ct_bytes_tx n + bytes_tx)) (u64 (ct_bytes_rx n + bytes_rx)) (u64 (ct_window_updates_tx n + updates_tx))
    (u64 (ct_window_updates_rx n + updates_rx)).
Definition add_counts (c : tr_channel) (tx rx bytes_tx bytes_rx updates_tx updates_rx : Z) : tr_channel :=
  set_counts c (count_messages (tc_counts c) tx rx bytes_tx bytes_rx updates_tx updates_rx).

(** * Credit *)

(** How much may be consumed before the peer must be told. *)
Definition update_threshold (c : tr_channel) (lane : tr_lane) : Z :=
  let window := cg_initial_window_bytes (tc_config c) in
  let maximum := tr_channel_lane_max_message_locked c lane in
  let maximum := if maximum >? window then window else maximum in
  let max_debt := window - maximum in
  let threshold := cg_window_update_threshold_bytes (tc_config c) in
  if u64 (threshold - 1) >? max_debt then max_debt + 1 else threshold.

(** [send_ret]: the answer of [tr_reactor_send]. *)
Definition tr_send_window_update_locked (c : tr_channel) (slot : Z) (send_ret : tr_status) : tr_status * tr_channel :=
  let s := tc_stream c slot in
  let advertised := ss_rx_advertised_limit s in
  bail (TR_OK, put_stream c slot (slot_credit s advertised 0 true)) when (ss_rx_credit_stopped s) ;;
  let target := tr_add_sat_u64 (ss_rx_consumed_bytes s) (cg_initial_window_bytes (tc_config c)) in
  bail (TR_OK, put_stream c slot (slot_credit s advertised 0 false)) when (target <=? advertised) ;;
  let pending := ss_pending_advertised_limit s in
  bail (TR_OK, c) when ((target - advertised <? update_threshold c (ss_lane s)) && (pending =? 0)) ;;
  let pending := if target >? pending then target else pending in
  let c := put_stream c slot (slot_credit s advertised pending false) in
  bail (TR_ERR_CLOSED, c) when (negb (tr_channel_lane_alive c (ss_lane s))) ;;
  bail (send_ret, c) when (negb (is_ok send_ret)) ;;
  let c := add_sent c (mk_sent (tr_channel_connection c (ss_lane s)) TR_FRAME_WINDOW_UPDATE 0 (ss_stream_id s) pending [] 0) in
  (TR_OK, add_counts (put_stream c slot (slot_credit s pending 0 false)) 0 0 0 0 1 0).

(** Whether the update is to be tried again. *)
Definition tr_stream_consume_locked (c : tr_channel) (slot bytes : Z) (send_ret : tr_status) : bool * tr_channel :=
  let s := tc_stream c slot in
  let available := u64 (ss_rx_received_bytes s - ss_rx_consumed_bytes s) in
  let bytes := if bytes >? available then available else bytes in
  let c := put_stream c slot (slot_receive s (ss_next_rx_message_id s) (ss_rx_received_bytes s) (u64 (ss_rx_consumed_bytes s + bytes))) in
  let '(ret, c) := tr_send_window_update_locked c slot send_ret in
  if bool_decide (ret = TR_AGAIN) then (true, set_retries c true (tc_reset_retry_pending c)) else (false, c).

(** [retry_ret]: the answer of [tr_channel_schedule_window_retry]. *)
Definition tr_stream_release_payload (c : tr_channel) (handle : tr_stream_handle) (payload : option (list Z))
    (send_ret retry_ret : tr_status) : tr_status * tr_channel :=
  match payload with
  | None => (TR_ERR_INVALID, c)
  | Some data =>
      bail (TR_ERR_STALE, c) when (sh_channel handle =? 0) ;;
      match tr_stream_lookup_handle c handle with
      | None => (TR_ERR_STALE, c)
      | Some slot =>
          let before := ss_rx_advertised_limit (tc_stream c slot) in
          let '(kick_retry, c) := tr_stream_consume_locked c slot (alen data) send_ret in
          let s := tc_stream c slot in
          let ret := if negb (ss_pending_advertised_limit s =? 0) && (ss_rx_advertised_limit s =? before) then TR_AGAIN else TR_OK in
          (if kick_retry && negb (is_ok retry_ret) && is_ok ret then retry_ret else ret, c)
      end
  end.

(** The streams that have an update pending; [send] gives the reactor's answer for a slot. *)
Fixpoint flush_slots (send : Z → tr_status) (slots : list Z) (c : tr_channel) (result : tr_status) (kick_retry : bool)
    : tr_status * bool * tr_channel :=
  match slots with
  | [] => (result, kick_retry, c)
  | slot :: slots =>
      let s := tc_stream c slot in
      if bool_decide (ss_state s = TR_STREAM_SLOT_FREE) || (ss_pending_advertised_limit s =? 0) then flush_slots send slots c result kick_retry
      else
        let '(ret, c) := tr_send_window_update_locked c slot (send slot) in
        let again := bool_decide (ret = TR_AGAIN) in
        let c := if again then set_retries c true (tc_reset_retry_pending c) else c in
        flush_slots send slots c (if negb (is_ok ret) && is_ok result then ret else result) (again || kick_retry)
  end.

Definition all_slots (c : tr_channel) : list Z := map Z.of_nat (seq 0 (Z.to_nat (cg_max_streams (tc_config c)))).

(** [goaway]: [tr_channel_send_pending_goaway_on_owner]. *)
Definition tr_channel_flush (c : tr_channel) (send : Z → tr_status) (retry_ret : tr_status)
    (goaway : tr_channel → tr_status * tr_channel) : tr_status * tr_channel :=
  let '(result, kick_retry, c) := flush_slots send (all_slots c) c TR_OK false in
  let result := if kick_retry && negb (is_ok retry_ret) && is_ok result then retry_ret else result in
  let '(ret, c) := goaway c in
  (if negb (is_ok ret) && is_ok result then ret else result, c).

(** What the maintenance timer does for updates. *)
Fixpoint retry_slots (send : Z → tr_status) (slots : list Z) (c : tr_channel) : tr_channel :=
  match slots with
  | [] => c
  | slot :: slots =>
      let s := tc_stream c slot in
      if bool_decide (ss_state s = TR_STREAM_SLOT_FREE) || (ss_pending_advertised_limit s =? 0) then retry_slots send slots c
      else
        let '(ret, c) := tr_send_window_update_locked c slot (send slot) in
        let done := is_ok ret || bool_decide (ret = TR_ERR_CLOSED) || bool_decide (ret = TR_ERR_STALE) in
        retry_slots send slots (if done then c else set_retries c true (tc_reset_retry_pending c))
  end.
Definition timer_window_retry (c : tr_channel) (send : Z → tr_status) : tr_channel :=
  bail c when (negb (tc_window_retry_pending c)) ;;
  retry_slots send (all_slots c) (set_retries c false (tc_reset_retry_pending c)).

Definition tr_stream_stop_credit_on_owner (c : tr_channel) (handle : tr_stream_handle) (owner : bool) : tr_status * tr_channel :=
  bail (TR_ERR_INVALID, c) when (sh_channel handle =? 0) ;;
  bail (TR_ERR_STATE, c) when (negb owner) ;;
  match tr_stream_lookup_handle c handle with
  | None => (TR_ERR_STALE, c)
  | Some slot =>
      let s := tc_stream c slot in
      (TR_OK, put_stream c slot (slot_credit s (ss_rx_advertised_limit s) 0 true))
  end.

(** * Sending *)

(** The loop over the payloads. *)
Fixpoint payloads_length (payloads : list (option (list Z))) (len : Z) : tr_status * Z :=
  match payloads with
  | [] => (TR_OK, len)
  | payload :: payloads =>
      let data := default [] payload in
      bail (TR_ERR_INVALID, len) when (bool_decide (payload = None) || (alen data =? 0)) ;;
      bail (TR_ERR_BAD_LENGTH, len) when (UINT64_MAX - len <? alen data) ;;
      payloads_length payloads (len + alen data)
  end.

Definition message_flags : Z := Z.lor TR_FRAME_F_FIRST TR_FRAME_F_LAST.

(** [payloads] has [payload_count] elements; [send_ret]: the answer of [tr_reactor_sendv_limited]. *)
Definition tr_stream_sendv (c : tr_channel) (handle : tr_stream_handle) (payloads : option (list (option (list Z))))
    (send_ret : tr_status) : tr_status * tr_channel :=
  let payload_count := alen (default [] payloads) in
  bail (TR_ERR_INVALID, c) when ((sh_channel handle =? 0) || bool_decide (payloads = None) || (payload_count =? 0) ||
    (payload_count >? TR_REACTOR_MAX_TX_SLICES)) ;;
  let payloads := default [] payloads in
  let '(ret, payload_len) := payloads_length payloads 0 in
  bail (ret, c) when (negb (is_ok ret)) ;;
  match tr_stream_lookup_handle c handle with
  | None => (TR_ERR_STALE, c)
  | Some slot =>
      let s := tc_stream c slot in
      bail (TR_ERR_CLOSED, c) when (bool_decide (ss_state s = TR_STREAM_SLOT_RESETTING)) ;;
      bail (TR_AGAIN, c) when (negb (bool_decide (ss_state s = TR_STREAM_SLOT_OPEN)) || negb (ss_local_open s)) ;;
      bail (if lane_physical c (ss_lane s) then TR_AGAIN else TR_ERR_CLOSED, c) when (negb (tr_channel_lane_alive c (ss_lane s))) ;;
      bail (TR_ERR_BAD_LENGTH, c) when ((payload_len >? ss_tx_window_bytes s) || (payload_len >? tr_channel_lane_max_message_locked c (ss_lane s))) ;;
      bail (TR_ERR_BAD_LENGTH, c) when (UINT64_MAX - ss_tx_sent_bytes s <? payload_len) ;;
      let end_ := ss_tx_sent_bytes s + payload_len in
      bail (TR_AGAIN, c) when (end_ >? ss_tx_send_limit s) ;;
      let message_id := ss_next_tx_message_id s in
      bail (send_ret, c) when (negb (is_ok send_ret)) ;;
      let c := add_sent c (mk_sent (tr_channel_connection c (ss_lane s)) TR_FRAME_DATA message_flags (ss_stream_id s) message_id
        (concat (omap id payloads)) (tr_channel_lane_max_frame_locked c (ss_lane s))) in
      let c := put_stream c slot (slot_send s (u64 (message_id + 1)) end_ (ss_tx_send_limit s) (ss_tx_window_bytes s)) in
      (TR_OK, add_counts c 1 0 payload_len 0 0 0)
  end.

(** The payload pointer is the identity of the buffer, which the callers of the slice check. *)
Definition tr_stream_send (c : tr_channel) (handle : tr_stream_handle) (payload : option (list Z)) (send_ret : tr_status)
    : tr_status * tr_channel :=
  match payload with
  | None => (TR_ERR_INVALID, c)
  | Some _ => tr_stream_sendv c handle (Some [payload]) send_ret
  end.

(** * Frames that arrive *)

(** What a handler answers: a status, or the status it aborted the connection with
    ([tr_channel_protocol_error]). *)
Inductive handled := Handled (ret : tr_status) | Protocol_error (status : tr_status).
#[export] Instance handled_eq_dec : EqDecision handled.
Proof. solve_decision. Defined.

Definition f_flags (f : msg) : Z := fh_flags (m_header f).
Definition f_len (f : msg) : Z := alen (m_payload f).
Definition flag_set (f : msg) (flag : Z) : bool := negb (Z.land (f_flags f) flag =? 0).
Definition other_flags (f : msg) : bool := negb (Z.land (f_flags f) (u32 (Z.lnot message_flags)) =? 0).

Definition accept_local (c : tr_channel) (connection : tr_conn_handle) (stream_id : Z) : tr_channel :=
  bail c when (negb (tr_stream_id_is_local c stream_id)) ;;
  let idx := tr_channel_keepalive_index_for_connection c connection in
  let t := tc_table c in
  let d := (tb_drain t).[idx] in
  if stream_id >? dn_last_local_accepted d then
    let d := mk_drain (dn_active_streams d) (dn_last_peer_admitted d) stream_id (dn_local_cutoff d) (dn_peer_cutoff d)
      (dn_local_started d) (dn_peer_started d) (dn_goaway_accepted d) (dn_tx_wait_requested d) (dn_tx_drained d) in
    set_table c (mk_table (tb_free_stream_head t) (tb_active_streams t) (tb_streams t) (tb_stream_index t)
      (tb_stream_index_capacity t) (tb_drain t).[idx <- d] (tb_pending_open t))
  else c.

Definition tr_channel_handle_window_update (c : tr_channel) (connection : tr_conn_handle) (f : msg) : handled * tr_channel :=
  let limit := fh_message_id (m_header f) in
  bail (Protocol_error TR_ERR_BAD_FLAGS, c) when (negb (f_len f =? 0) || negb (fh_payload_len (m_header f) =? 0) || negb (f_flags f =? 0)) ;;
  match tr_stream_lookup_id c (fh_stream_id (m_header f)) with
  | None => (Protocol_error TR_ERR_STATE, c)
  | Some slot =>
      let s := tc_stream c slot in
      bail (Protocol_error TR_ERR_STATE, c) when (negb (tr_stream_connection_matches c s connection) || (limit <? ss_tx_send_limit s) || (limit <? ss_tx_sent_bytes s)) ;;
      let old_limit := ss_tx_send_limit s in
      let s := slot_send s (ss_next_tx_message_id s) (ss_tx_sent_bytes s) limit (ss_tx_window_bytes s) in
      let c := accept_local (put_stream c slot s) connection (ss_stream_id s) in
      let c := add_counts c 0 0 0 0 0 1 in
      let handle := tr_stream_make_handle c slot s in
      match ss_state s with
      | TR_STREAM_SLOT_RESETTING => (if ss_reset_received s then Protocol_error TR_ERR_STATE else Handled TR_OK, c)
      | TR_STREAM_SLOT_OPENING =>
          let s' := slot_state (slot_send s (ss_next_tx_message_id s) (ss_tx_sent_bytes s) limit limit) TR_STREAM_SLOT_OPEN (ss_local_open s) true in
          let c := put_stream c slot s' in
          (Handled TR_OK, if ss_opened_notified s then c else add_told c (Told_event handle TR_STREAM_EVENT_OPENED TR_OK))
      | _ => (Handled TR_OK, if limit >? old_limit then add_told c (Told_event handle TR_STREAM_EVENT_WRITABLE TR_OK) else c)
      end
  end.

(** ** Streams that are being reset *)


Definition tr_stream_reset_discard_locked (c : tr_channel) (slot : Z) (f : msg) : tr_status * tr_channel :=
  let s := tc_stream c slot in
  let payload_len := f_len f in
  let first := flag_set f TR_FRAME_F_FIRST in
  let last := flag_set f TR_FRAME_F_LAST in
  let message_id := fh_message_id (m_header f) in
  let maximum := cg_max_message_bytes (tc_config c) in
  bail (TR_ERR_STATE, c) when (ss_reset_received s || negb (ss_remote_open s)) ;;
  bail (TR_ERR_BAD_LENGTH, c) when ((UINT64_MAX - ss_rx_received_bytes s <? payload_len) ||
    (ss_rx_received_bytes s + payload_len >? ss_rx_advertised_limit s)) ;;
  let total := if first then payload_len else u64 (ss_reset_message_bytes s + payload_len) in
  let ordered := negb (ss_reset_discard_unordered s) in
  bail (TR_ERR_STATE, c) when (ordered && ((message_id =? 0) || negb (message_id =? ss_next_rx_message_id s) ||
    (first && ss_reset_fragmented s) || (negb first && negb (ss_reset_fragmented s)))) ;;
  bail (TR_ERR_BAD_LENGTH, c) when (ordered && (negb (maximum =? 0) && (total >? maximum) ||
    negb (first && last) && (negb (cg_reassembly_pool (tc_config c)) || (maximum =? 0)))) ;;
  let s := if ordered then slot_reset s (ss_reset_status s) (ss_reset_notified s) (negb last) false (if last then 0 else total) else s in
  let next_id := if ordered && last then u64 (ss_next_rx_message_id s + 1) else ss_next_rx_message_id s in
  (TR_OK, put_stream c slot (slot_receive s next_id (ss_rx_received_bytes s + payload_len) (u64 (ss_rx_consumed_bytes s + payload_len)))).


(** ** DATA *)

(** How the first critical section of [tr_channel_handle_data] ends. *)
Inductive data_outcome :=
| Data_error (status : tr_status)
| Data_fail (handle : tr_stream_handle) (status : tr_status) (unordered : bool)
| Data_absorbed
| Data_more
| Data_message (handle : tr_stream_handle) (payload : list Z).

(** The frame's bytes go where they belong.  [acquire]: the answer of the pool, and the
    capacity of the buffer it gives.  The stream with its new bytes, and the message if it is
    complete; or the status that the stream fails with. *)
Definition place_data (c : tr_channel) (s : tr_stream_slot) (f : msg) (acquire : tr_status * Z)
    : (tr_status * bool) + (tr_stream_slot * option (list Z)) :=
  let len := f_len f in
  let first := flag_set f TR_FRAME_F_FIRST in
  let last := flag_set f TR_FRAME_F_LAST in
  let id := fh_message_id (m_header f) in
  let maximum := cg_max_message_bytes (tc_config c) in
  let new_received := ss_rx_received_bytes s + len in
  let received := slot_receive s (ss_next_rx_message_id s) new_received (ss_rx_consumed_bytes s) in
  let complete := slot_receive s (u64 (ss_next_rx_message_id s + 1)) new_received (ss_rx_consumed_bytes s) in
  if first && last then
    bail (inl (TR_ERR_STATE, true)) when (bool_decide (is_Some (ss_rx_reassembly s)) || negb (maximum =? 0) && (len >? maximum)) ;;
    inr (complete, Some (m_payload f))
  else if first then
    bail (inl (TR_ERR_STATE, true)) when (bool_decide (is_Some (ss_rx_reassembly s)) || negb (cg_reassembly_pool (tc_config c)) ||
      (maximum =? 0) || (len >? maximum)) ;;
    let ret := acquire.1 in
    bail (inl (if bool_decide (ret = TR_AGAIN) || bool_decide (ret = TR_ERR_NOMEM) then TR_ERR_NOMEM else TR_ERR_SYS, false)) when (negb (is_ok ret)) ;;
    inr (slot_assembly received (Some (mk_rx_buffer (m_payload f) acquire.2)) id, None)
  else
    match ss_rx_reassembly s with
    | None => inl (TR_ERR_STATE, true)
    | Some b =>
        bail (inl (TR_ERR_STATE, true)) when (negb (ss_rx_reassembly_message_id s =? id)) ;;
        let combined := alen (xb_data b) + len in
        bail (inl (TR_ERR_STATE, true)) when ((combined >? maximum) || (combined >? xb_capacity b)) ;;
        let data := xb_data b ++ m_payload f in
        if last then inr (slot_assembly complete None 0, Some data)
        else inr (slot_assembly received (Some (mk_rx_buffer data (xb_capacity b))) (ss_rx_reassembly_message_id s), None)
    end.

Definition receive_data (c : tr_channel) (connection : tr_conn_handle) (f : msg) (acquire : tr_status * Z) : data_outcome * tr_channel :=
  let len := f_len f in
  let id := fh_message_id (m_header f) in
  bail (Data_error TR_ERR_BAD_LENGTH, c) when (negb (len =? fh_payload_len (m_header f))) ;;
  match tr_stream_lookup_id c (fh_stream_id (m_header f)) with
  | None => (Data_error TR_ERR_STATE, c)
  | Some slot =>
      let s := tc_stream c slot in
      if bool_decide (ss_state s = TR_STREAM_SLOT_RESETTING) && tr_stream_connection_matches c s connection then
        bail (Data_error TR_ERR_BAD_FLAGS, c) when (other_flags f) ;;
        let '(ret, c) := tr_stream_reset_discard_locked c slot f in
        (if is_ok ret then Data_absorbed else Data_error ret, c)
      else
        bail (Data_error TR_ERR_STATE, c) when (negb (bool_decide (ss_state s = TR_STREAM_SLOT_OPEN)) || negb (ss_remote_open s) ||
          negb (tr_stream_connection_matches c s connection)) ;;
        bail (Data_error TR_ERR_BAD_LENGTH, c) when (UINT64_MAX - ss_rx_received_bytes s <? len) ;;
        bail (Data_error TR_ERR_STATE, c) when (ss_rx_received_bytes s + len >? ss_rx_advertised_limit s) ;;
        let handle := tr_stream_make_handle c slot s in
        bail (Data_fail handle TR_ERR_STATE true, c) when (other_flags f || (id =? 0) || negb (id =? ss_next_rx_message_id s)) ;;
        match place_data c s f acquire with
        | inl (status, unordered) => (Data_fail handle status unordered, c)
        | inr (s, None) => (Data_more, put_stream c slot s)
        | inr (s, Some data) => (Data_message handle data, add_counts (put_stream c slot s) 0 1 0 (alen data) 0 0)
        end
  end.

(** After the callback, when it leaves the payload: the stream may be gone by then. *)
Definition consume_data (c : tr_channel) (handle : tr_stream_handle) (len : Z) (send_ret : tr_status) : tr_channel :=
  match tr_stream_lookup_handle c handle with
  | None => c
  | Some slot => (tr_stream_consume_locked c slot len send_ret).2
  end.


(** * One direction of a stream between two channels *)

(** What is left of a message, as frames, when [started] says whether some came and [done]
    are the bytes that came. *)
Inductive message_rest (stream_id message_id : Z) : bool → list Z → list Z → list msg → Prop :=
| rest_last (started : bool) (done : list Z) (f : msg) :
    fh_stream_id (m_header f) = stream_id → fh_message_id (m_header f) = message_id → fh_payload_len (m_header f) = f_len f →
    f_flags f = Z.lor (if started then 0 else TR_FRAME_F_FIRST) TR_FRAME_F_LAST →
    message_rest stream_id message_id started done (done ++ m_payload f) [f]
| rest_more (started : bool) (done payload : list Z) (f : msg) (fs : list msg) :
    fh_stream_id (m_header f) = stream_id → fh_message_id (m_header f) = message_id → fh_payload_len (m_header f) = f_len f →
    f_flags f = (if started then 0 else TR_FRAME_F_FIRST) →
    message_rest stream_id message_id true (done ++ m_payload f) payload fs →
    message_rest stream_id message_id started done payload (f :: fs).
Definition message_frames (stream_id message_id : Z) (payload : list Z) (fs : list msg) : Prop :=
  message_rest stream_id message_id false [] payload fs.

(** A WINDOW_UPDATE frame as the peer's parser hands it out. *)
Record update_frame (stream_id limit : Z) (f : msg) : Prop := {
  uf_stream : fh_stream_id (m_header f) = stream_id;
  uf_limit : fh_message_id (m_header f) = limit;
  uf_flags : f_flags f = 0;
  uf_len : fh_payload_len (m_header f) = 0;
  uf_payload : m_payload f = []
}.

(** The stream [id] is in slot [slot] of the channel, reached through [connection]. *)
Record placed (c : tr_channel) (connection : tr_conn_handle) (handle : tr_stream_handle) (slot id : Z) : Prop := {
  pd_slot : 0 ≤ slot < alen (tb_streams (tc_table c));
  pd_id : tr_stream_lookup_id c id = Some slot;
  pd_handle : tr_stream_lookup_handle c handle = Some slot;
  pd_channel : sh_channel handle ≠ 0;
  pd_stream_id : ss_stream_id (tc_stream c slot) = id;
  pd_connection : tr_conn_equal (tr_channel_connection c (ss_lane (tc_stream c slot))) connection = true
}.

(** What a stream fails with when the pool has no buffer for a message in pieces. *)
Definition pool_failure (ret : tr_status) : tr_status :=
  if bool_decide (ret = TR_AGAIN) || bool_decide (ret = TR_ERR_NOMEM) then TR_ERR_NOMEM else TR_ERR_SYS.

(** [fl_refused]: a frame or an update was a protocol error; [fl_failed]: the pool had no buffer,
    with what it answered and what the stream fails with; the frame is then still the first. *)
Record flow_state := mk_flow_state {
  fl_tx : tr_channel;
  fl_rx : tr_channel;
  fl_frames : list msg;
  fl_updates : list Z;
  fl_sent : list (list Z * list msg);
  fl_delivered : list (list Z);
  fl_held : list Z;
  fl_refused : bool;
  fl_failed : option (tr_status * tr_status)
}.

(** A stream that has not failed. *)
Abbreviation mk_flow tx rx frames updates sent delivered held refused :=
  (mk_flow_state tx rx frames updates sent delivered held refused None).

Section Flow.
Context (sid : Z) (tx_connection rx_connection : tr_conn_handle) (tx_handle rx_handle : tr_stream_handle) (tx_slot rx_slot : Z).

(** The updates that the reactor took between two states of a channel. *)
Definition updates_sent (c c' : tr_channel) : list Z := map sn_message_id (drop (length (tc_sent c)) (tc_sent c')).

(** What another operation of a channel leaves as it is. *)
Definition elsewhere (slot : Z) (connection : tr_conn_handle) (handle : tr_stream_handle) (c c' : tr_channel) : Prop :=
  tc_stream c' slot = tc_stream c slot ∧ placed c' connection handle slot sid ∧ tc_config c' = tc_config c ∧
  lane_caps c' (ss_lane (tc_stream c slot)) = lane_caps c (ss_lane (tc_stream c slot)).

(** The receiver consumes: it releases a payload, or its callback left it. *)
Definition consumes (rx : tr_channel) (len : Z) (rx' : tr_channel) : Prop :=
  (∃ data send_ret retry_ret, alen data = len ∧ (tr_stream_release_payload rx rx_handle (Some data) send_ret retry_ret).2 = rx') ∨
  (∃ send_ret, consume_data rx rx_handle len send_ret = rx').

(** [acquire]: the pool's answer, a buffer of the size that is asked for or none.  When it has none
    for the first frame of a message the stream fails, and the run ends. *)
Inductive flow_step : flow_state → flow_state → Prop :=
| flow_send tx rx fs us sent dl held r payloads send_ret ret tx' new :
    tr_stream_sendv tx tx_handle payloads send_ret = (ret, tx') →
    (if is_ok ret then ∃ p ms, new = [(p, ms)] ∧ p = concat (omap id (default [] payloads)) ∧
       message_frames sid (ss_next_tx_message_id (tc_stream tx tx_slot)) p ms
     else new = []) →
    flow_step (mk_flow tx rx fs us sent dl held r) (mk_flow tx' rx (fs ++ concat (map snd new)) us (sent ++ new) dl held r)
| flow_receive tx rx f fs us sent dl held r (acquire : tr_status * Z) outcome rx' :
    (acquire.1 = TR_OK → cg_max_message_bytes (tc_config rx) ≤ acquire.2) →
    receive_data rx rx_connection f acquire = (outcome, rx') →
    flow_step (mk_flow tx rx (f :: fs) us sent dl held r)
      match outcome with
      | Data_message _ payload => mk_flow tx rx' fs us sent (dl ++ [payload]) (held ++ [alen payload]) r
      | Data_more => mk_flow tx rx' fs us sent dl held r
      | Data_fail _ status _ => mk_flow_state tx rx' (f :: fs) us sent dl held r (Some (acquire.1, status))
      | _ => mk_flow tx rx' fs us sent dl held true
      end
| flow_consume tx rx fs us sent dl before len after r rx' :
    consumes rx len rx' →
    flow_step (mk_flow tx rx fs us sent dl (before ++ len :: after) r)
      (mk_flow tx rx' fs (us ++ updates_sent rx rx') sent dl (before ++ after) r)
| flow_retry tx rx fs us sent dl held r send_ret :
    let rx' := (tr_send_window_update_locked rx rx_slot send_ret).2 in
    flow_step (mk_flow tx rx fs us sent dl held r) (mk_flow tx rx' fs (us ++ updates_sent rx rx') sent dl held r)
| flow_stop tx rx fs us sent dl held r owner :
    flow_step (mk_flow tx rx fs us sent dl held r)
      (mk_flow tx (tr_stream_stop_credit_on_owner rx rx_handle owner).2 fs us sent dl held r)
| flow_update tx rx fs u us sent dl held r f answer tx' :
    update_frame sid u f → tr_channel_handle_window_update tx tx_connection f = (answer, tx') →
    flow_step (mk_flow tx rx fs (u :: us) sent dl held r)
      (mk_flow tx' rx fs us sent dl held (r || negb (bool_decide (answer = Handled TR_OK))))
| flow_tx_else tx rx fs us sent dl held r tx' : elsewhere tx_slot tx_connection tx_handle tx tx' →
    flow_step (mk_flow tx rx fs us sent dl held r) (mk_flow tx' rx fs us sent dl held r)
| flow_rx_else tx rx fs us sent dl held r rx' : elsewhere rx_slot rx_connection rx_handle rx rx' →
    flow_step (mk_flow tx rx fs us sent dl held r) (mk_flow tx rx' fs us sent dl held r).

(** A stream that both sides just opened: the sender has the receiver's initial window. *)
Record flow_start (st : flow_state) : Prop := {
  fs_tx : placed (fl_tx st) tx_connection tx_handle tx_slot sid;
  fs_rx : placed (fl_rx st) rx_connection rx_handle rx_slot sid;
  fs_tx_stream : let s := tc_stream (fl_tx st) tx_slot in
    ss_state s = TR_STREAM_SLOT_OPEN ∧ ss_next_tx_message_id s = 1 ∧ ss_tx_sent_bytes s = 0 ∧
    ss_tx_send_limit s = cg_initial_window_bytes (tc_config (fl_rx st)) ∧ ss_tx_window_bytes s = cg_initial_window_bytes (tc_config (fl_rx st));
  fs_rx_stream : let s := tc_stream (fl_rx st) rx_slot in
    ss_state s = TR_STREAM_SLOT_OPEN ∧ ss_remote_open s = true ∧ ss_next_rx_message_id s = 1 ∧ ss_rx_received_bytes s = 0 ∧
    ss_rx_consumed_bytes s = 0 ∧ ss_rx_advertised_limit s = cg_initial_window_bytes (tc_config (fl_rx st)) ∧
    ss_pending_advertised_limit s = 0 ∧ ss_rx_reassembly s = None;
  fs_window : 0 < cg_initial_window_bytes (tc_config (fl_rx st)) ≤ UINT64_MAX ∧ u64_ok (cg_window_update_threshold_bytes (tc_config (fl_rx st)));
  fs_assembles : cg_reassembly_pool (tc_config (fl_rx st)) = true;
  fs_maximum : tr_channel_lane_max_message_locked (fl_tx st) (ss_lane (tc_stream (fl_tx st) tx_slot)) ≤ cg_max_message_bytes (tc_config (fl_rx st)) ∧
    0 < cg_max_message_bytes (tc_config (fl_rx st));
  fs_nothing : fl_frames st = [] ∧ fl_updates st = [] ∧ fl_sent st = [] ∧ fl_delivered st = [] ∧ fl_held st = [] ∧ fl_refused st = false ∧ fl_failed st = None
}.

End Flow.

(** * Lemmas: where a stream is *)

Definition same_identity (s s' : tr_stream_slot) : Prop :=
  ss_state s' ≠ TR_STREAM_SLOT_FREE ∧ ss_generation s' = ss_generation s ∧ ss_stream_id s' = ss_stream_id s ∧ ss_lane s' = ss_lane s.

Lemma stream_put c slot s : 0 ≤ slot < alen (tb_streams (tc_table c)) → tc_stream (put_stream c slot s) slot = s.
Proof. intros H. unfold tc_stream. cbn [put_stream set_table tc_table tb_streams]. by apply aget_aset_eq. Qed.

Lemma lookup_handle_slot c handle slot : tr_stream_lookup_handle c handle = Some slot → sh_slot handle = slot.
Proof. unfold tr_stream_lookup_handle. intros H. case_ifs_in H; congruence. Qed.

Lemma placed_put c connection handle slot sid s : placed c connection handle slot sid → same_identity (tc_stream c slot) s →
  placed (put_stream c slot s) connection handle slot sid.
Proof.
  intros [Hs Hid Hh Hch Hsid Hcn] (H1 & H2 & H3 & H4). pose proof (stream_put c slot s Hs) as Hput.
  split; [| | |exact Hch|by rewrite Hput, H3|by rewrite Hput, H4].
  - cbn [put_stream set_table tc_table tb_streams]. by rewrite alen_aset.
  - unfold tr_stream_lookup_id in *. cbn [put_stream set_table tc_table tc_config tb_stream_index tb_stream_index_capacity].
    destruct (index_find _ _ _ _) as [slot'|]; [|done].
    destruct (bool_decide (ss_state (tb_streams (tc_table c)).[slot'] = TR_STREAM_SLOT_FREE) || _); [done|]. injection Hid as ->.
    change ((tb_streams (mk_table _ _ (tb_streams (tc_table c)).[slot <- s] _ _ _ _)).[slot]) with (tc_stream (put_stream c slot s) slot).
    rewrite Hput, H3, Hsid, bool_decide_false by done. by rewrite Z.eqb_refl.
  - pose proof (lookup_handle_slot _ _ _ Hh) as Es. unfold tr_stream_lookup_handle in *. rewrite Es in *.
    change (tc_config (put_stream c slot s)) with (tc_config c). destruct (slot >=? _); [done|]. rewrite Hput, H2, bool_decide_false by done.
    destruct (bool_decide (ss_state (tc_stream c slot) = TR_STREAM_SLOT_FREE)), (negb (ss_generation (tc_stream c slot) =? sh_generation handle)); done.
Qed.

(** Nothing of these depends on the counts, the history or the retries. *)
Lemma placed_same c c' connection handle slot sid : tc_table c' = tc_table c → tc_config c' = tc_config c → tc_links c' = tc_links c →
  placed c connection handle slot sid → placed c' connection handle slot sid.
Proof.
  intros E1 E2 E3 [H1 H2 H3 H4 H5 H6]. unfold tr_stream_lookup_id, tr_stream_lookup_handle, tc_stream, tr_channel_connection in *.
  split; unfold tr_stream_lookup_id, tr_stream_lookup_handle, tc_stream, tr_channel_connection; rewrite ?E1, ?E2, ?E3; done.
Qed.

(** ** Frames of messages *)

Lemma rest_nonempty sid mid started done payload fs : message_rest sid mid started done payload fs → fs ≠ [].
Proof. by intros []. Qed.

(** The next frame of a message. *)
Lemma rest_next sid mid started done payload f fs : message_rest sid mid started done payload (f :: fs) →
  fh_stream_id (m_header f) = sid ∧ fh_message_id (m_header f) = mid ∧ fh_payload_len (m_header f) = f_len f ∧
  other_flags f = false ∧ flag_set f TR_FRAME_F_FIRST = negb started ∧ alen done + f_len f ≤ alen payload ∧
  (flag_set f TR_FRAME_F_LAST = true ∧ fs = [] ∧ payload = done ++ m_payload f ∨
   flag_set f TR_FRAME_F_LAST = false ∧ message_rest sid mid true (done ++ m_payload f) payload fs).
Proof.
  assert (∀ started done payload fs, message_rest sid mid started done payload fs → alen done ≤ alen payload) as Hle.
  { induction 1 as [st dn g|st dn p g gs _ _ _ _ _ IH]; unfold alen in *; rewrite length_app in *; lia. }
  inversion 1 as [st dn g H1 H2 H3 H4|st dn p g gs H1 H2 H3 H4 H5]; subst; unfold other_flags, flag_set; rewrite H4; (split; [done|]; split; [done|]; split; [done|]).
  - split; [by destruct started|]. split; [by destruct started|]. split; [unfold alen, f_len; rewrite length_app; unfold alen; lia|].
    left. split; [by destruct started|]. by split.
  - split; [by destruct started|]. split; [by destruct started|].
    split; [apply Hle in H5; unfold f_len, alen in *; rewrite length_app in H5; lia|]. right. split; [by destruct started|done].
Qed.

(** ** Credit *)

Lemma add_sat_bounds a b : 0 ≤ a ≤ UINT64_MAX → 0 ≤ b ≤ UINT64_MAX →
  0 ≤ tr_add_sat_u64 a b ≤ UINT64_MAX ∧ tr_add_sat_u64 a b ≤ a + b ∧ (a + b ≤ UINT64_MAX → tr_add_sat_u64 a b = a + b).
Proof. intros Ha Hb. unfold tr_add_sat_u64. destruct (Z.ltb_spec (UINT64_MAX - a) b); lia. Qed.

Lemma add_sat_mono a a' b : a ≤ a' → a' ≤ UINT64_MAX → tr_add_sat_u64 a b ≤ tr_add_sat_u64 a' b.
Proof. intros Ha Ha'. unfold tr_add_sat_u64. destruct (Z.ltb_spec (UINT64_MAX - a) b), (Z.ltb_spec (UINT64_MAX - a') b); lia. Qed.

(** The largest message that the receiver leaves room for. *)
Definition room (c : tr_channel) (lane : tr_lane) : Z :=
  Z.min (cg_initial_window_bytes (tc_config c)) (tr_channel_lane_max_message_locked c lane).

Lemma threshold_debt c lane d : 0 ≤ cg_initial_window_bytes (tc_config c) → u64_ok (cg_window_update_threshold_bytes (tc_config c)) →
  d < update_threshold c lane → d ≤ cg_initial_window_bytes (tc_config c) - room c lane.
Proof.
  unfold update_threshold, room. intros Hw Ht. rewrite !Z.gtb_ltb.
  set (w := cg_initial_window_bytes (tc_config c)) in *. set (t := cg_window_update_threshold_bytes (tc_config c)) in *.
  set (m := tr_channel_lane_max_message_locked c lane).
  replace (if w <? m then w else m) with (Z.min w m) by (destruct (Z.ltb_spec w m); lia).
  destruct (Z.ltb_spec (w - Z.min w m) (u64 (t - 1))) as [H|H]; [lia|]. intros Hd.
  destruct (Z.eq_dec t 0) as [E|E]; [lia|]. rewrite u64_small in H by (unfold u64_ok in *; lia). lia.
Qed.

(** Where an update is, after the receiver looked at it. *)
Record credit_ok (c : tr_channel) (slot : Z) : Prop := {
  co_consumed : 0 ≤ ss_rx_consumed_bytes (tc_stream c slot) ≤ UINT64_MAX;
  co_advertised : 0 ≤ ss_rx_advertised_limit (tc_stream c slot) ≤
    tr_add_sat_u64 (ss_rx_consumed_bytes (tc_stream c slot)) (cg_initial_window_bytes (tc_config c));
  co_pending : ss_pending_advertised_limit (tc_stream c slot) = 0 ∨
    ss_rx_advertised_limit (tc_stream c slot) < ss_pending_advertised_limit (tc_stream c slot) ≤
    tr_add_sat_u64 (ss_rx_consumed_bytes (tc_stream c slot)) (cg_initial_window_bytes (tc_config c))
}.
Definition settled (c : tr_channel) (slot : Z) : Prop :=
  let s := tc_stream c slot in
  ss_rx_credit_stopped s = true ∨ ss_pending_advertised_limit s ≠ 0 ∨
  tr_add_sat_u64 (ss_rx_consumed_bytes s) (cg_initial_window_bytes (tc_config c)) - ss_rx_advertised_limit s ≤
    cg_initial_window_bytes (tc_config c) - room c (ss_lane s).

Record window_sent (c c' : tr_channel) (slot : Z) : Prop := {
  ws_config : tc_config c' = tc_config c;
  ws_links : tc_links c' = tc_links c;
  ws_placed : ∀ connection handle sid, placed c connection handle slot sid → placed c' connection handle slot sid;
  ws_stream : tc_stream c' slot = slot_credit (tc_stream c slot) (ss_rx_advertised_limit (tc_stream c' slot))
    (ss_pending_advertised_limit (tc_stream c' slot)) (ss_rx_credit_stopped (tc_stream c' slot));
  ws_credit : credit_ok c' slot;
  ws_settled : settled c' slot;
  ws_updates : updates_sent c c' = [] ∧ ss_rx_advertised_limit (tc_stream c' slot) = ss_rx_advertised_limit (tc_stream c slot) ∨
    updates_sent c c' = [ss_rx_advertised_limit (tc_stream c' slot)] ∧
    ss_rx_advertised_limit (tc_stream c slot) ≤ ss_rx_advertised_limit (tc_stream c' slot)
}.

Lemma updates_none c c' : tc_sent c' = tc_sent c → updates_sent c c' = [].
Proof. intros E. unfold updates_sent. by rewrite E, drop_ge. Qed.

(** A change of the stream's credit alone, without a frame. *)
Lemma window_put c slot advertised pending stopped : 0 ≤ slot < alen (tb_streams (tc_table c)) → ss_state (tc_stream c slot) ≠ TR_STREAM_SLOT_FREE →
  credit_ok c slot → advertised = ss_rx_advertised_limit (tc_stream c slot) →
  (pending = 0 ∨ advertised < pending ≤ tr_add_sat_u64 (ss_rx_consumed_bytes (tc_stream c slot)) (cg_initial_window_bytes (tc_config c))) →
  settled (put_stream c slot (slot_credit (tc_stream c slot) advertised pending stopped)) slot →
  window_sent c (put_stream c slot (slot_credit (tc_stream c slot) advertised pending stopped)) slot.
Proof.
  intros Hs Hst [Hc Ha Hp] -> Hp' Hset. pose proof (stream_put c slot (slot_credit (tc_stream c slot) (ss_rx_advertised_limit (tc_stream c slot)) pending stopped) Hs) as E.
  split; try done.
  - intros connection handle sid Hpl. apply placed_put; [exact Hpl|by split_and!].
  - by rewrite E.
  - split; rewrite E; done.
  - left. split; [by apply updates_none|by rewrite E].
Qed.

Lemma window_update_ok c slot send_ret r c' : tr_send_window_update_locked c slot send_ret = (r, c') →
  0 ≤ slot < alen (tb_streams (tc_table c)) → ss_state (tc_stream c slot) ≠ TR_STREAM_SLOT_FREE → credit_ok c slot →
  0 ≤ cg_initial_window_bytes (tc_config c) ≤ UINT64_MAX → u64_ok (cg_window_update_threshold_bytes (tc_config c)) →
  window_sent c c' slot.
Proof.
  intros E Hs Hst Hcr Hw Ht. pose proof Hcr as [Hc Ha Hp]. unfold tr_send_window_update_locked in E.
  set (s := tc_stream c slot) in *. set (target := tr_add_sat_u64 (ss_rx_consumed_bytes s) (cg_initial_window_bytes (tc_config c))) in *.
  assert (room c (ss_lane s) ≤ cg_initial_window_bytes (tc_config c)) as Hroom by (unfold room; lia).
  destruct (ss_rx_credit_stopped s) eqn:Estop.
  { injection E as <- <-. apply window_put; try done; [by left|]. left. by rewrite stream_put. }
  destruct (Z.leb_spec target (ss_rx_advertised_limit s)) as [Hle|Hgt].
  { injection E as <- <-. apply window_put; try done; [by left|]. right. right. rewrite stream_put by done.
    change (tr_add_sat_u64 _ _) with target. change (room (put_stream c slot _)) with (room c). cbn [slot_credit ss_rx_advertised_limit ss_lane put_stream set_table tc_config]. fold s. lia. }
  destruct ((target - ss_rx_advertised_limit s <? update_threshold c (ss_lane s)) && (ss_pending_advertised_limit s =? 0)) eqn:Elow.
  { injection E as <- <-. apply andb_true_iff in Elow as [Hlow%Z.ltb_lt Hp0%Z.eqb_eq]. split; try done.
    - destruct (tc_stream c slot); simpl in *; by subst.
    - right. right. apply threshold_debt; [lia|exact Ht|exact Hlow].
    - left. split; [by apply updates_none|done]. }
  set (pending := if target >? ss_pending_advertised_limit s then target else ss_pending_advertised_limit s) in *.
  assert (pending = target) as Epend.
  { unfold pending. rewrite Z.gtb_ltb. destruct (Z.ltb_spec (ss_pending_advertised_limit s) target); lia. }
  assert (window_sent c (put_stream c slot (slot_credit s (ss_rx_advertised_limit s) pending false)) slot) as Hpend.
  { apply window_put; try done; [right; fold s; fold target; lia|]. right. left. rewrite stream_put by done. cbn [slot_credit ss_pending_advertised_limit]. lia. }
  destruct (negb (tr_channel_lane_alive _ _)); [injection E as <- <-; exact Hpend|].
  destruct (negb (is_ok send_ret)); [injection E as <- <-; exact Hpend|]. injection E as <- <-.
  match goal with |- window_sent _ (add_counts (put_stream ?c1 _ _) _ _ _ _ _ _) _ => set (c1' := c1) end.
  assert (0 ≤ slot < alen (tb_streams (tc_table c1'))) as Hs1.
  { cbn [c1' add_sent tc_table put_stream set_table tb_streams]. by rewrite alen_aset. }
  assert (tc_stream (add_counts (put_stream c1' slot (slot_credit s pending 0 false)) 0 0 0 0 1 0) slot = slot_credit s pending 0 false) as E1.
  { apply (stream_put c1' slot (slot_credit s pending 0 false) Hs1). }
  split; try done.
  - intros connection handle sid Hpl. apply (placed_same (put_stream c1' slot (slot_credit s pending 0 false))); try done.
    apply placed_put.
    + apply (placed_same (put_stream c slot (slot_credit s (ss_rx_advertised_limit s) pending false))); try done.
      apply placed_put; [exact Hpl|by split_and!].
    + change (tc_stream c1' slot) with (tc_stream (put_stream c slot (slot_credit s (ss_rx_advertised_limit s) pending false)) slot).
      rewrite stream_put by done. by split_and!.
  - by rewrite E1.
  - split; rewrite E1; cbn [slot_credit ss_rx_consumed_bytes ss_rx_advertised_limit ss_pending_advertised_limit]; [exact Hc| |by left].
    change (0 ≤ pending ≤ target). lia.
  - right. right. rewrite E1. cbn [slot_credit ss_rx_consumed_bytes ss_rx_advertised_limit ss_lane]. change (target - pending ≤ cg_initial_window_bytes (tc_config c) - room c (ss_lane s)). lia.
  - right. rewrite E1. cbn [slot_credit ss_rx_advertised_limit]. split; [|fold s; lia].
    unfold updates_sent. cbn [add_counts set_counts put_stream set_table tc_sent c1' add_sent]. by rewrite drop_app_length.
Qed.

Lemma window_sent_retries c c' slot w r : window_sent c c' slot → window_sent c (set_retries c' w r) slot.
Proof.
  intros [H1 H2 H3 H4 H5 H6 H7]. split; try done.
  - intros connection handle sid H. apply (placed_same c'); try done. by apply H3.
  - destruct H5 as [H51 H52 H53]. by split.
Qed.

(** The stream with [len] more bytes consumed. *)
Definition consumed_slot (s : tr_stream_slot) (len : Z) : tr_stream_slot :=
  slot_receive s (ss_next_rx_message_id s) (ss_rx_received_bytes s) (ss_rx_consumed_bytes s + len).

Lemma credit_consumed c slot len : 0 ≤ slot < alen (tb_streams (tc_table c)) → credit_ok c slot → 0 ≤ len →
  ss_rx_consumed_bytes (tc_stream c slot) + len ≤ UINT64_MAX → credit_ok (put_stream c slot (consumed_slot (tc_stream c slot) len)) slot.
Proof.
  intros Hs [Hc Ha Hp] Hl Hmax. pose proof (add_sat_mono (ss_rx_consumed_bytes (tc_stream c slot)) (ss_rx_consumed_bytes (tc_stream c slot) + len) (cg_initial_window_bytes (tc_config c)) ltac:(lia) Hmax).
  split; rewrite stream_put by done; cbn [consumed_slot slot_receive ss_rx_consumed_bytes ss_rx_advertised_limit ss_pending_advertised_limit put_stream set_table tc_config]; lia.
Qed.

Lemma consume_ok c slot len send_ret k c' : tr_stream_consume_locked c slot len send_ret = (k, c') →
  0 ≤ slot < alen (tb_streams (tc_table c)) → ss_state (tc_stream c slot) ≠ TR_STREAM_SLOT_FREE → credit_ok c slot →
  0 ≤ cg_initial_window_bytes (tc_config c) ≤ UINT64_MAX → u64_ok (cg_window_update_threshold_bytes (tc_config c)) →
  0 ≤ len ≤ ss_rx_received_bytes (tc_stream c slot) - ss_rx_consumed_bytes (tc_stream c slot) → ss_rx_received_bytes (tc_stream c slot) ≤ UINT64_MAX →
  window_sent (put_stream c slot (consumed_slot (tc_stream c slot) len)) c' slot.
Proof.
  intros E Hs Hst Hcr Hw Ht Hlen Hmax. pose proof Hcr as [Hc _ _]. unfold tr_stream_consume_locked in E.
  rewrite (u64_small (_ - _)) in E by (unfold u64_ok, UINT64_MAX in *; lia). rewrite Z.gtb_ltb in E.
  destruct (Z.ltb_spec (ss_rx_received_bytes (tc_stream c slot) - ss_rx_consumed_bytes (tc_stream c slot)) len); [lia|].
  rewrite u64_small in E by (unfold u64_ok, UINT64_MAX in *; lia). fold (consumed_slot (tc_stream c slot) len) in E.
  set (c1 := put_stream c slot (consumed_slot (tc_stream c slot) len)) in *.
  destruct (tr_send_window_update_locked c1 slot send_ret) as [r c2] eqn:Eu.
  assert (window_sent c1 c2 slot) as H2.
  { apply (window_update_ok _ _ _ _ _ Eu); try done.
    - cbn [c1 put_stream set_table tc_table tb_streams]. by rewrite alen_aset.
    - unfold c1. by rewrite stream_put.
    - apply credit_consumed; [exact Hs|exact Hcr|lia|lia]. }
  destruct (bool_decide (r = TR_AGAIN)); injection E as <- <-; [by apply window_sent_retries|exact H2].
Qed.

(** Both ways to consume. *)
Lemma consumes_ok rx_handle c slot len c' connection sid : consumes rx_handle c len c' → placed c connection rx_handle slot sid →
  ss_state (tc_stream c slot) ≠ TR_STREAM_SLOT_FREE → credit_ok c slot →
  0 ≤ cg_initial_window_bytes (tc_config c) ≤ UINT64_MAX → u64_ok (cg_window_update_threshold_bytes (tc_config c)) →
  0 ≤ len ≤ ss_rx_received_bytes (tc_stream c slot) - ss_rx_consumed_bytes (tc_stream c slot) → ss_rx_received_bytes (tc_stream c slot) ≤ UINT64_MAX →
  window_sent (put_stream c slot (consumed_slot (tc_stream c slot) len)) c' slot.
Proof.
  intros Hcon Hpl Hst Hcr Hw Ht Hlen Hmax. pose proof Hpl as [Hs _ Hh Hch _ _].
  destruct Hcon as [(data & send_ret & retry_ret & <- & <-)|(send_ret & <-)].
  - unfold tr_stream_release_payload. destruct (Z.eqb_spec (sh_channel rx_handle) 0); [done|]. rewrite Hh.
    destruct (tr_stream_consume_locked c slot (alen data) send_ret) as [k c1] eqn:E. cbn [snd]. by apply (consume_ok _ _ _ _ _ _ E).
  - unfold consume_data. rewrite Hh. destruct (tr_stream_consume_locked c slot len send_ret) as [k c1] eqn:E. cbn [snd]. by apply (consume_ok _ _ _ _ _ _ E).
Qed.

(** ** Sending *)

Lemma payloads_length_spec payloads : ∀ len len', payloads_length payloads len = (TR_OK, len') → 0 ≤ len →
  len' = len + alen (concat (omap id payloads)) ∧ (payloads ≠ [] → concat (omap id payloads) ≠ []).
Proof.
  induction payloads as [|[data|] payloads IH]; intros len len' E Hlen; cbn [payloads_length default] in E.
  - injection E as <-. split; [unfold alen; simpl; lia|done].
  - change (id data) with data in E. rewrite bool_decide_false in E by done. cbn [orb] in E. case_ifs_in E; try done. bool_to_prop. pose proof (alen_nonneg data).
    apply IH in E as (-> & _); [|lia]. rewrite slices_some. split; [unfold alen; rewrite length_app; lia|].
    intros _ Hnil. destruct data; [done|discriminate].
  - rewrite bool_decide_true in E by done. discriminate.
Qed.

(** What is sent, and on what condition. *)
Lemma sendv_stream_cases c handle payloads send_ret r c' connection slot sid :
  tr_stream_sendv c handle payloads send_ret = (r, c') → placed c connection handle slot sid → 0 ≤ ss_tx_sent_bytes (tc_stream c slot) →
  let s := tc_stream c slot in let p := concat (omap id (default [] payloads)) in
  r ≠ TR_OK ∧ c' = c ∨
  r = TR_OK ∧ p ≠ [] ∧ alen p ≤ ss_tx_window_bytes s ∧ alen p ≤ tr_channel_lane_max_message_locked c (ss_lane s) ∧
  ss_tx_sent_bytes s + alen p ≤ UINT64_MAX ∧ ss_tx_sent_bytes s + alen p ≤ ss_tx_send_limit s ∧
  tc_stream c' slot = slot_send s (u64 (ss_next_tx_message_id s + 1)) (ss_tx_sent_bytes s + alen p) (ss_tx_send_limit s) (ss_tx_window_bytes s) ∧
  placed c' connection handle slot sid ∧ tc_config c' = tc_config c ∧ tc_links c' = tc_links c.
Proof.
  intros E Hpl Hsent s p. pose proof Hpl as [Hs _ Hh Hch _ _]. unfold tr_stream_sendv in E.
  case_if_in E; [left; by injection E as <- <-|]. destruct (payloads_length _ 0) as [r1 len] eqn:El.
  destruct (is_ok r1) eqn:Er; cbn [negb] in E; [|left; injection E as <- <-; split; [by apply is_ok_false|done]].
  apply is_ok_true in Er as ->. apply payloads_length_spec in El as (-> & Hne); [|lia]. fold p in Hne, E. rewrite Z.add_0_l in E.
  rewrite Hh in E. fold s in E. case_if_in E; [left; by injection E as <- <-|]. case_if_in E; [left; by injection E as <- <-|].
  case_if_in E; [left; injection E as <- <-; by destruct (lane_physical _ _)|]. case_if_in E; [left; by injection E as <- <-|].
  case_if_in E; [left; by injection E as <- <-|]. case_if_in E; [left; by injection E as <- <-|].
  destruct (is_ok send_ret) eqn:Es; cbn [negb] in E; [|left; injection E as <- <-; split; [by apply is_ok_false|done]].
  right. injection E as <- <-. bool_to_prop.
  match goal with |- context [tc_stream (add_counts (put_stream ?c1 ?sl ?s1) _ _ _ _ _ _) _] => pose proof (stream_put c1 sl s1 Hs) as Eput end.
  split; [done|]. split; [|split; [lia|split; [lia|split; [lia|split; [lia|]]]]].
  - apply Hne. intros Hnil. by rewrite Hnil in *.
  - split; [exact Eput|]. split; [|split; reflexivity].
    match goal with |- placed (add_counts (put_stream ?c1 ?sl ?s1) _ _ _ _ _ _) _ _ _ _ => apply (placed_same (put_stream c1 sl s1)); try done; apply placed_put end.
    + by apply (placed_same c).
    + split_and!; try done. cbn [slot_send ss_state]. congruence.
Qed.

(** ** Updates that arrive *)

Lemma placed_accept c connection handle slot sid connection' stream_id : placed c connection handle slot sid →
  placed (accept_local c connection' stream_id) connection handle slot sid.
Proof.
  intros [H1 H2 H3 H4 H5 H6]. unfold accept_local. destruct (negb _); [by split|]. destruct (_ >? _); by split.
Qed.

Lemma accept_fields c connection stream_id : (∀ slot, tc_stream (accept_local c connection stream_id) slot = tc_stream c slot) ∧
  tc_config (accept_local c connection stream_id) = tc_config c ∧ tc_links (accept_local c connection stream_id) = tc_links c.
Proof. unfold accept_local. destruct (negb _); [done|]. by destruct (_ >? _). Qed.

Lemma update_received c connection handle slot sid f limit answer c' : placed c connection handle slot sid → update_frame sid limit f →
  ss_state (tc_stream c slot) = TR_STREAM_SLOT_OPEN → ss_tx_send_limit (tc_stream c slot) ≤ limit → ss_tx_sent_bytes (tc_stream c slot) ≤ limit →
  tr_channel_handle_window_update c connection f = (answer, c') →
  answer = Handled TR_OK ∧ placed c' connection handle slot sid ∧ tc_config c' = tc_config c ∧ tc_links c' = tc_links c ∧
  let s := tc_stream c slot in
  tc_stream c' slot = slot_send s (ss_next_tx_message_id s) (ss_tx_sent_bytes s) limit (ss_tx_window_bytes s).
Proof.
  intros Hpl [Hf1 Hf2 Hf3 Hf4 Hf5] Hst Hl1 Hl2 E. pose proof Hpl as [Hs Hid _ _ _ Hcn]. unfold tr_channel_handle_window_update in E.
  replace (f_len f) with 0 in E by (unfold f_len; rewrite Hf5; reflexivity). rewrite Hf1, Hf2, Hf3, Hf4, Hid in E. cbn [Z.eqb negb orb] in E.
  set (s := tc_stream c slot) in *. unfold tr_stream_connection_matches in E. rewrite Hcn in E. cbn [negb orb] in E.
  destruct (Z.ltb_spec limit (ss_tx_send_limit s)); [lia|]. destruct (Z.ltb_spec limit (ss_tx_sent_bytes s)); [lia|]. cbn [orb] in E.
  set (s1 := slot_send s (ss_next_tx_message_id s) (ss_tx_sent_bytes s) limit (ss_tx_window_bytes s)) in *.
  change (ss_state s1) with (ss_state s) in E. rewrite Hst in E.
  set (c1 := put_stream c slot s1) in *. set (c2 := add_counts (accept_local c1 connection (ss_stream_id s1)) 0 0 0 0 0 1) in *.
  assert (placed c1 connection handle slot sid) as Hp1 by (apply placed_put; [exact Hpl|split_and!; try done; cbn [s1 slot_send ss_state]; congruence]).
  assert (placed c2 connection handle slot sid) as Hp2.
  { apply (placed_same (accept_local c1 connection (ss_stream_id s1))); try done. by apply placed_accept. }
  destruct (accept_fields c1 connection (ss_stream_id s1)) as (Hq1 & Hq2 & Hq3).
  assert (tc_stream c2 slot = s1) as Hq.
  { change (tc_stream c2 slot) with (tc_stream (accept_local c1 connection (ss_stream_id s1)) slot). rewrite Hq1. by apply stream_put. }
  destruct (limit >? ss_tx_send_limit s); injection E as <- <-; (split; [done|]).
  - split; [by apply (placed_same c2)|]. split; [exact Hq2|]. split; [exact Hq3|exact Hq].
  - split; [exact Hp2|]. split; [exact Hq2|]. split; [exact Hq3|exact Hq].
Qed.

(** ** DATA that arrives *)

(** A frame that fits the stream's credit and is the next of its message. *)
Lemma receive_in_order c connection handle slot sid f acquire : placed c connection handle slot sid →
  let s := tc_stream c slot in
  ss_state s = TR_STREAM_SLOT_OPEN → ss_remote_open s = true → fh_stream_id (m_header f) = sid →
  fh_payload_len (m_header f) = f_len f → other_flags f = false → fh_message_id (m_header f) = ss_next_rx_message_id s →
  ss_next_rx_message_id s ≠ 0 → ss_rx_received_bytes s + f_len f ≤ ss_rx_advertised_limit s ≤ UINT64_MAX →
  receive_data c connection f acquire = match place_data c s f acquire with
    | inl (status, unordered) => (Data_fail (tr_stream_make_handle c slot s) status unordered, c)
    | inr (s, None) => (Data_more, put_stream c slot s)
    | inr (s', Some data) => (Data_message (tr_stream_make_handle c slot s) data, add_counts (put_stream c slot s') 0 1 0 (alen data) 0 0)
    end.
Proof.
  intros Hpl s Hst Hro Hsid Hlen Hfl Hid Hne Hcr. pose proof Hpl as [Hs Hlk _ _ _ Hcn]. unfold receive_data.
  rewrite Hlen, Z.eqb_refl, Hsid, Hlk. cbn [negb]. fold s. rewrite Hst. unfold tr_stream_connection_matches. fold s in Hcn. rewrite Hcn, Hro.
  change (bool_decide (TR_STREAM_SLOT_OPEN = TR_STREAM_SLOT_RESETTING)) with false. cbn [andb].
  change (bool_decide (TR_STREAM_SLOT_OPEN = TR_STREAM_SLOT_OPEN)) with true. cbn [negb orb].
  destruct (Z.ltb_spec (UINT64_MAX - ss_rx_received_bytes s) (f_len f)); [lia|]. rewrite Z.gtb_ltb.
  destruct (Z.ltb_spec (ss_rx_advertised_limit s) (ss_rx_received_bytes s + f_len f)); [lia|].
  rewrite Hfl, Hid, Z.eqb_refl. destruct (Z.eqb_spec (ss_next_rx_message_id s) 0); [done|]. reflexivity.
Qed.

(** * The invariant *)

Fixpoint bytes_total (ps : list (list Z)) : Z := match ps with [] => 0 | p :: ps => alen p + bytes_total ps end.
Fixpoint held_total (held : list Z) : Z := match held with [] => 0 | n :: held => n + held_total held end.

Lemma bytes_total_app a b : bytes_total (a ++ b) = bytes_total a + bytes_total b.
Proof. induction a as [|p a IH]; cbn [app bytes_total]; lia. Qed.
Lemma bytes_total_nonneg ps : 0 ≤ bytes_total ps.
Proof. induction ps as [|p ps IH]; cbn [bytes_total]; [lia|]. pose proof (alen_nonneg p). lia. Qed.
Lemma held_total_app a b : held_total (a ++ b) = held_total a + held_total b.
Proof. induction a as [|p a IH]; cbn [app held_total]; lia. Qed.

(** The updates under way lead from the sender's limit to what the receiver told. *)
Fixpoint update_chain (low : Z) (us : list Z) (high : Z) : Prop :=
  match us with [] => low = high | u :: us => low ≤ u ∧ update_chain u us high end.

Lemma update_chain_le us : ∀ low high, update_chain low us high → low ≤ high.
Proof. induction us as [|u us IH]; intros low high H; cbn [update_chain] in H; [lia|]. destruct H as [H1 H2%IH]. lia. Qed.

Lemma update_chain_snoc us : ∀ low high high', update_chain low us high → high ≤ high' → update_chain low (us ++ [high']) high'.
Proof.
  induction us as [|u us IH]; intros low high high' H Hle; cbn [update_chain app] in *; [lia|]. destruct H as [H1 H2]. split; [done|]. by apply (IH u high).
Qed.

Definition assembled (s : tr_stream_slot) : Z := match ss_rx_reassembly s with Some b => alen (xb_data b) | None => 0 end.

(** The frames under way are the rest of the message that is being put together, and the
    messages after it. *)
Definition frames_ok (sid maximum : Z) (s : tr_stream_slot) (fs : list msg) (sent : list (list Z * list msg)) (n : nat) : Prop :=
  match ss_rx_reassembly s with
  | None => fs = concat (map snd (drop n sent))
  | Some b => ∃ p ms rest, sent !! n = Some (p, ms) ∧ message_rest sid (Z.of_nat n + 1) true (xb_data b) p rest ∧
      fs = rest ++ concat (map snd (drop (S n) sent)) ∧ ss_rx_reassembly_message_id s = Z.of_nat n + 1 ∧ maximum ≤ xb_capacity b
  end.

Section Invariant.
Context (sid : Z) (tx_connection rx_connection : tr_conn_handle) (tx_handle rx_handle : tr_stream_handle) (tx_slot rx_slot : Z).

Let tx_stream (st : flow_state) : tr_stream_slot := tc_stream (fl_tx st) tx_slot.
Let rx_stream (st : flow_state) : tr_stream_slot := tc_stream (fl_rx st) rx_slot.

(** What does not change: the window, the largest message, and the room that the receiver leaves. *)
Record flow_setting := mk_setting { st_window : Z; st_maximum : Z; st_room : Z; st_limit : Z }.

Record flow_ok (g : flow_setting) (st : flow_state) : Prop := {
  fo_tx : placed (fl_tx st) tx_connection tx_handle tx_slot sid;
  fo_rx : placed (fl_rx st) rx_connection rx_handle rx_slot sid;
  fo_tx_state : ss_state (tx_stream st) = TR_STREAM_SLOT_OPEN ∧ ss_tx_window_bytes (tx_stream st) = st_window g ∧
    tr_channel_lane_max_message_locked (fl_tx st) (ss_lane (tx_stream st)) = st_limit g;
  fo_rx_state : ss_state (rx_stream st) = TR_STREAM_SLOT_OPEN ∧ ss_remote_open (rx_stream st) = true ∧
    room (fl_rx st) (ss_lane (rx_stream st)) = st_room g;
  fo_config : cg_initial_window_bytes (tc_config (fl_rx st)) = st_window g ∧ 0 ≤ st_window g ≤ UINT64_MAX ∧
    u64_ok (cg_window_update_threshold_bytes (tc_config (fl_rx st))) ∧
    cg_max_message_bytes (tc_config (fl_rx st)) = st_maximum g ∧ 0 < st_maximum g ∧ st_limit g ≤ st_maximum g ∧
    cg_reassembly_pool (tc_config (fl_rx st)) = true;
  fo_ids : ss_next_tx_message_id (tx_stream st) = u64 (Z.of_nat (length (fl_sent st)) + 1) ∧
    ss_next_rx_message_id (rx_stream st) = u64 (Z.of_nat (length (fl_delivered st)) + 1);
  fo_messages : ∀ k p ms, fl_sent st !! k = Some (p, ms) → message_frames sid (Z.of_nat k + 1) p ms ∧ p ≠ [] ∧ alen p ≤ st_limit g;
  fo_tx_bytes : ss_tx_sent_bytes (tx_stream st) = bytes_total (map fst (fl_sent st));
  fo_delivered : fl_delivered st = map fst (take (length (fl_delivered st)) (fl_sent st));
  fo_frames : frames_ok sid (st_maximum g) (rx_stream st) (fl_frames st) (fl_sent st) (length (fl_delivered st));
  fo_received : ss_rx_received_bytes (rx_stream st) = bytes_total (fl_delivered st) + assembled (rx_stream st);
  fo_held : ss_rx_consumed_bytes (rx_stream st) + held_total (fl_held st) = bytes_total (fl_delivered st) ∧ Forall (λ n, 0 ≤ n) (fl_held st);
  fo_credit : credit_ok (fl_rx st) rx_slot;
  fo_settled : settled (fl_rx st) rx_slot;
  fo_chain : update_chain (ss_tx_send_limit (tx_stream st)) (fl_updates st) (ss_rx_advertised_limit (rx_stream st));
  fo_limit : ss_tx_sent_bytes (tx_stream st) ≤ ss_tx_send_limit (tx_stream st);
  fo_refused : fl_refused st = false;
  fo_failed : ∀ pool status, fl_failed st = Some (pool, status) → pool ≠ TR_OK ∧ status = pool_failure pool ∧
    ∃ f fs, fl_frames st = f :: fs ∧ flag_set f TR_FRAME_F_FIRST = true ∧ flag_set f TR_FRAME_F_LAST = false
}.

Lemma start_ok st : flow_start sid tx_connection rx_connection tx_handle rx_handle tx_slot rx_slot st →
  flow_ok (mk_setting (cg_initial_window_bytes (tc_config (fl_rx st))) (cg_max_message_bytes (tc_config (fl_rx st)))
    (room (fl_rx st) (ss_lane (tc_stream (fl_rx st) rx_slot)))
    (tr_channel_lane_max_message_locked (fl_tx st) (ss_lane (tc_stream (fl_tx st) tx_slot)))) st.
Proof.
  intros [Htx Hrx (T1 & T2 & T3 & T4 & T5) (R1 & R2 & R3 & R4 & R5 & R6 & R7 & R8) [Hw Ht] Has [Hm1 Hm2] (N1 & N2 & N3 & N4 & N5 & N6 & N7)].
  pose proof (add_sat_bounds 0 (cg_initial_window_bytes (tc_config (fl_rx st))) ltac:(unfold UINT64_MAX; lia) ltac:(lia)) as (_ & _ & Hsat).
  split; cbn [st_window st_maximum st_room st_limit]; unfold tx_stream, rx_stream; rewrite ?N1, ?N2, ?N3, ?N4, ?N5, ?N7; try done.
  - split_and!; try done; lia.
  - unfold frames_ok. rewrite R8. done.
  - unfold assembled. rewrite R4, R8. done.
  - rewrite R5. split; [done|constructor].
  - split; rewrite ?R5, ?R6, ?R7, ?Hsat; unfold UINT64_MAX in *; try lia. 
  - right. right. rewrite R5, R6, Hsat by lia. unfold room. lia.
  - cbn [update_chain]. by rewrite T4, R6.
  - rewrite T3, T4. lia.
Qed.

(** ** A message is sent *)

Lemma delivered_length st g : flow_ok g st → (length (fl_delivered st) ≤ length (fl_sent st))%nat.
Proof. intros Hok. pose proof (f_equal length (fo_delivered _ _ Hok)) as H. rewrite length_map, length_take in H. lia. Qed.

(** There are no more messages than bytes. *)
Lemma messages_bound g st : flow_ok g st → Z.of_nat (length (fl_sent st)) ≤ bytes_total (map fst (fl_sent st)).
Proof.
  intros Hok. pose proof (fo_messages _ _ Hok) as Hm.
  assert (∀ e, e ∈ fl_sent st → 1 ≤ alen e.1) as Hne.
  { intros [p ms] He. apply list_elem_of_lookup_1 in He as [k Hk]. destruct (Hm k p ms Hk) as (_ & Hp & _). cbn [fst]. unfold alen. destruct p; [done|cbn [length]; lia]. }
  clear Hm. induction (fl_sent st) as [|e l IH]; [done|]. cbn [length map bytes_total]. specialize (Hne e ltac:(by apply elem_of_cons; left)) as H1.
  specialize (IH ltac:(intros; apply Hne; by apply elem_of_cons; right)). lia.
Qed.

Lemma frames_ok_send sid' m s fs sent n new : (n ≤ length sent)%nat → frames_ok sid' m s fs sent n →
  frames_ok sid' m s (fs ++ concat (map snd new)) (sent ++ new) n.
Proof.
  intros Hn. unfold frames_ok. destruct (ss_rx_reassembly s) as [b|].
  - intros (p & ms & rest & H1 & H2 & -> & H4). exists p, ms, rest. split; [by apply lookup_app_l_Some|]. split; [exact H2|]. split; [|exact H4].
    apply lookup_lt_Some in H1. rewrite drop_app_le by lia. by rewrite map_app, concat_app, app_assoc.
  - intros ->. rewrite drop_app_le by lia. by rewrite map_app, concat_app.
Qed.

Lemma step_send_ok g tx rx fs us sent dl held r payloads send_ret ret tx' new : flow_ok g (mk_flow tx rx fs us sent dl held r) →
  tr_stream_sendv tx tx_handle payloads send_ret = (ret, tx') →
  (if is_ok ret then ∃ p ms, new = [(p, ms)] ∧ p = concat (omap id (default [] payloads)) ∧
     message_frames sid (ss_next_tx_message_id (tc_stream tx tx_slot)) p ms else new = []) →
  flow_ok g (mk_flow tx' rx (fs ++ concat (map snd new)) us (sent ++ new) dl held r).
Proof.
  intros Hok E Hnew. pose proof Hok as [Htx Hrx (Ts & Tw & Tl) Rs Hcfg (Id1 & Id2) Hmsg Hbytes Hdel Hfr Hrec Hheld Hcr Hset Hch Hlim Href].
  unfold tx_stream, rx_stream in *. cbn [fl_tx fl_rx fl_frames fl_updates fl_sent fl_delivered fl_held fl_refused] in *.
  pose proof (bytes_total_nonneg (map fst sent)) as H0.
  destruct (sendv_stream_cases _ _ _ _ _ _ _ _ _ E Htx ltac:(lia)) as [(Hr & ->)|(-> & Hp & Hp1 & Hp2 & Hp3 & Hp4 & Es & Hpl & Ec & El)].
  { apply is_ok_false in Hr. rewrite Hr in Hnew. subst new. cbn [map concat]. rewrite !app_nil_r. exact Hok. }
  cbn [is_ok] in Hnew. change (bool_decide (TR_OK = TR_OK)) with true in Hnew. destruct Hnew as (p & ms & -> & Ep & Hms). rewrite <- Ep in *.
  pose proof (delivered_length _ _ Hok) as Hdl. pose proof (messages_bound _ _ Hok) as Hmb. cbn [fl_sent fl_delivered] in Hdl, Hmb.
  assert (1 ≤ alen p) as Hp0 by (unfold alen; destruct p; [done|cbn [length]; lia]).
  split; unfold tx_stream, rx_stream; cbn [fl_tx fl_rx fl_frames fl_updates fl_sent fl_delivered fl_held fl_refused]; try done.
  - rewrite Es. cbn [slot_send ss_state ss_tx_window_bytes ss_lane]. split; [exact Ts|]. split; [exact Tw|].
    unfold tr_channel_lane_max_message_locked, lane_caps in *. by rewrite El.
  - rewrite Es. cbn [slot_send ss_next_tx_message_id]. split; [|exact Id2]. rewrite Id1, length_app. cbn [length].
    rewrite (u64_small (Z.of_nat (length sent) + 1)) by (unfold u64_ok, UINT64_MAX in *; lia). f_equal. lia.
  - intros k q qs [Hk|[Hk1 Hk2]]%lookup_app_Some; [by apply Hmsg|]. apply list_lookup_singleton_Some in Hk2 as [Hk3 [= <- <-]].
    assert (k = length sent) as -> by lia. rewrite Id1, u64_small in Hms by (unfold u64_ok, UINT64_MAX in *; lia). split; [exact Hms|]. split; [exact Hp|lia].
  - rewrite Es. cbn [slot_send ss_tx_sent_bytes]. rewrite map_app, bytes_total_app, Hbytes. cbn [map bytes_total fst]. lia.
  - rewrite take_app_le by exact Hdl. exact Hdel.
  - by apply frames_ok_send.
  - rewrite Es. exact Hch.
  - rewrite Es. cbn [slot_send ss_tx_sent_bytes ss_tx_send_limit]. lia.
Qed.

(** ** A frame arrives *)

(** The message that the next frame belongs to. *)
Lemma next_frame g tx rx f fs us sent dl held r : flow_ok g (mk_flow tx rx (f :: fs) us sent dl held r) →
  let s := tc_stream rx rx_slot in let n := length dl in
  ∃ p ms done rest, sent !! n = Some (p, ms) ∧ message_rest sid (Z.of_nat n + 1) (bool_decide (is_Some (ss_rx_reassembly s))) done p (f :: rest) ∧
    fs = rest ++ concat (map snd (drop (S n) sent)) ∧ assembled s = alen done ∧
    match ss_rx_reassembly s with
    | None => done = []
    | Some b => done = xb_data b ∧ ss_rx_reassembly_message_id s = Z.of_nat n + 1 ∧ st_maximum g ≤ xb_capacity b
    end.
Proof.
  intros Hok s n. pose proof (fo_frames _ _ Hok) as Hfr. pose proof (fo_messages _ _ Hok) as Hmsg.
  unfold rx_stream, frames_ok in Hfr. cbn [fl_rx fl_frames fl_sent fl_delivered] in Hfr, Hmsg. fold s n in Hfr. unfold assembled.
  destruct (ss_rx_reassembly s) as [b|] eqn:Eb.
  - destruct Hfr as (p & ms & rest & H1 & H2 & H3 & H4 & H5). destruct rest as [|f' rest]; [by apply rest_nonempty in H2|].
    injection H3 as <- ->. exists p, ms, (xb_data b), rest. rewrite bool_decide_true by eauto. by split_and!.
  - destruct (drop n sent) as [|[p ms] more] eqn:Ed; [done|]. cbn [map concat snd] in Hfr.
    assert (sent !! n = Some (p, ms)) as Hn by (rewrite <- (Nat.add_0_r n), <- lookup_drop, Ed; done).
    destruct (Hmsg n p ms Hn) as (Hms & _). destruct ms as [|f' ms]; [by apply rest_nonempty in Hms|]. injection Hfr as <- ->.
    assert (drop (S n) sent = more) as ->.
    { replace (S n) with (n + 1)%nat by lia. rewrite <- drop_drop, Ed. done. }
    exists p, (f :: ms), [], ms. rewrite bool_decide_false by (by intros []). by split_and!.
Qed.

(** What was sent before a message, and the message, is not more than everything. *)
Lemma total_before (sent : list (list Z * list msg)) n p ms : sent !! n = Some (p, ms) →
  bytes_total (map fst (take n sent)) + alen p ≤ bytes_total (map fst sent).
Proof.
  intros H. rewrite <- (take_drop_middle sent n (p, ms) H) at 2. rewrite map_app, bytes_total_app, map_cons. cbn [bytes_total fst].
  pose proof (bytes_total_nonneg (map fst (drop (S n) sent))). lia.
Qed.

(** The stream's new state, and what of it matters. *)
Definition received_slot (s s' : tr_stream_slot) (next_id received : Z) : Prop :=
  same_identity s s' ∧ ss_state s' = ss_state s ∧ ss_remote_open s' = ss_remote_open s ∧ ss_next_rx_message_id s' = next_id ∧
  ss_rx_received_bytes s' = received ∧ ss_rx_consumed_bytes s' = ss_rx_consumed_bytes s ∧
  ss_rx_advertised_limit s' = ss_rx_advertised_limit s ∧ ss_pending_advertised_limit s' = ss_pending_advertised_limit s ∧
  ss_rx_credit_stopped s' = ss_rx_credit_stopped s.

Lemma receive_keeps g tx rx rx' f fs us sent dl held r s' next_id received fs' dl' held' :
  flow_ok g (mk_flow tx rx (f :: fs) us sent dl held r) →
  received_slot (tc_stream rx rx_slot) s' next_id received → rx' = put_stream rx rx_slot s' ∨ (∃ len, rx' = add_counts (put_stream rx rx_slot s') 0 1 0 len 0 0) →
  next_id = u64 (Z.of_nat (length dl') + 1) → dl' = map fst (take (length dl') sent) →
  frames_ok sid (st_maximum g) s' fs' sent (length dl') → received = bytes_total dl' + assembled s' →
  ss_rx_consumed_bytes (tc_stream rx rx_slot) + held_total held' = bytes_total dl' ∧ Forall (λ n, 0 ≤ n) held' →
  flow_ok g (mk_flow tx rx' fs' us sent dl' held' r).
Proof.
  intros Hok (Hsame & Q1 & Q2 & Q3 & Q4 & Q5 & Q6 & Q7 & Q8) Hrx' Hid Hdl' Hfr' Hrec' Hheld'.
  pose proof Hok as [Htx Hrx Ts (R1 & R2 & R3) Hcfg (Id1 & Id2) Hmsg Hbytes Hdel Hfr Hrec Hheld [Hc1 Hc2 Hc3] Hset Hch Hlim Href].
  unfold tx_stream, rx_stream, settled in *. cbn [fl_tx fl_rx fl_frames fl_updates fl_sent fl_delivered fl_held fl_refused] in *.
  pose proof (stream_put rx rx_slot s' (pd_slot _ _ _ _ _ Hrx)) as Hput.
  assert (placed rx' rx_connection rx_handle rx_slot sid ∧ tc_stream rx' rx_slot = s' ∧ tc_config rx' = tc_config rx ∧ tc_links rx' = tc_links rx) as (P1 & P2 & P3 & P4).
  { destruct Hrx' as [-> |[len ->]]; (split; [|by split_and!]).
    - by apply placed_put.
    - apply (placed_same (put_stream rx rx_slot s')); try done. by apply placed_put. }
  assert (∀ lane, room rx' lane = room rx lane) as Hroom.
  { intros lane. unfold room, tr_channel_lane_max_message_locked, lane_caps. by rewrite P3, P4. }
  destruct Hsame as (S1 & S2 & S3 & S4).
  split; unfold tx_stream, rx_stream; cbn [fl_tx fl_rx fl_frames fl_updates fl_sent fl_delivered fl_held fl_refused]; rewrite ?P2, ?P3; try done.
  - rewrite Hroom, S4, Q1, Q2. by split_and!.
  - split; [exact Id1|]. by rewrite Q3.
  - by rewrite Q4.
  - by rewrite Q5.
  - split; rewrite ?P2, ?P3, ?Q5, ?Q6, ?Q7; done.
  - unfold settled. rewrite P2, P3, Hroom, Q5, Q6, Q7, Q8, S4. exact Hset.
  - by rewrite Q6.
Qed.
(** What is known of the next frame. *)
Record frame_next (g : flow_setting) (s : tr_stream_slot) (f : msg) (sent : list (list Z * list msg)) (n : nat) (p done : list Z) (rest : list msg) : Prop := {
  fn_message : ∃ ms, sent !! n = Some (p, ms);
  fn_header : fh_stream_id (m_header f) = sid ∧ fh_message_id (m_header f) = Z.of_nat n + 1 ∧ fh_payload_len (m_header f) = f_len f ∧
    other_flags f = false ∧ flag_set f TR_FRAME_F_FIRST = negb (bool_decide (is_Some (ss_rx_reassembly s)));
  fn_last : flag_set f TR_FRAME_F_LAST = true ∧ rest = [] ∧ p = done ++ m_payload f ∨
    flag_set f TR_FRAME_F_LAST = false ∧ message_rest sid (Z.of_nat n + 1) true (done ++ m_payload f) p rest;
  fn_length : alen done + f_len f ≤ alen p ≤ st_maximum g;
  fn_assembled : match ss_rx_reassembly s with
    | None => done = []
    | Some b => done = xb_data b ∧ ss_rx_reassembly_message_id s = Z.of_nat n + 1 ∧ st_maximum g ≤ xb_capacity b
    end;
  fn_id : ss_next_rx_message_id s = Z.of_nat n + 1 ∧ 0 ≤ Z.of_nat n + 1 ≤ UINT64_MAX;
  fn_credit : ss_rx_received_bytes s + f_len f ≤ ss_rx_advertised_limit s ≤ UINT64_MAX
}.

Lemma frame_facts g tx rx f fs us sent dl held r : flow_ok g (mk_flow tx rx (f :: fs) us sent dl held r) →
  ∃ p done rest, frame_next g (tc_stream rx rx_slot) f sent (length dl) p done rest ∧
    fs = rest ++ concat (map snd (drop (S (length dl)) sent)) ∧ ss_rx_received_bytes (tc_stream rx rx_slot) = bytes_total dl + alen done.
Proof.
  intros Hok. destruct (next_frame _ _ _ _ _ _ _ _ _ _ Hok) as (p & ms & done & rest & Hn & Hrest & -> & Has & Hb).
  pose proof Hok as [Htx Hrx Ts _ (G1 & G2 & _ & _ & _ & G6 & _) (_ & Id2) Hmsg Hbytes Hdel _ Hrec _ Hcr _ Hch Hlim _].
  unfold tx_stream, rx_stream in *. cbn [fl_tx fl_rx fl_frames fl_updates fl_sent fl_delivered fl_held fl_refused] in *.
  set (s := tc_stream rx rx_slot) in *. set (n := length dl) in *.
  destruct (rest_next _ _ _ _ _ _ _ Hrest) as (F1 & F2 & F3 & F4 & F5 & F6 & F7). destruct (Hmsg n p ms Hn) as (_ & Hp & Hpl).
  pose proof (total_before sent n p ms Hn) as Htot. rewrite <- Hdel, <- Hbytes in Htot. pose proof (update_chain_le _ _ _ Hch) as Hle.
  pose proof (co_advertised _ _ Hcr) as Hadv. pose proof (co_consumed _ _ Hcr) as Hcons. fold s in Hadv, Hcons. rewrite G1 in Hadv.
  pose proof (add_sat_bounds (ss_rx_consumed_bytes s) (st_window g) Hcons G2) as (Hsat & _).
  pose proof (messages_bound _ _ Hok) as Hmb. cbn [fl_sent] in Hmb. rewrite <- Hbytes in Hmb. pose proof (lookup_lt_Some _ _ _ Hn) as Hlt.
  rewrite Has in Hrec. rewrite (u64_small (Z.of_nat n + 1)) in Id2 by (unfold u64_ok, UINT64_MAX in *; lia).
  exists p, done, rest. split; [|split; [done|exact Hrec]]. split; try done; [by exists ms|lia|lia|lia].
Qed.

(** The message is complete. *)
Lemma message_done g tx rx f us sent dl held r s' p done rest :
  flow_ok g (mk_flow tx rx (f :: rest ++ concat (map snd (drop (S (length dl)) sent))) us sent dl held r) →
  frame_next g (tc_stream rx rx_slot) f sent (length dl) p done rest →
  ss_rx_received_bytes (tc_stream rx rx_slot) = bytes_total dl + alen done → rest = [] → p = done ++ m_payload f →
  received_slot (tc_stream rx rx_slot) s' (u64 (ss_next_rx_message_id (tc_stream rx rx_slot) + 1)) (ss_rx_received_bytes (tc_stream rx rx_slot) + f_len f) →
  ss_rx_reassembly s' = None →
  flow_ok g (mk_flow tx (add_counts (put_stream rx rx_slot s') 0 1 0 (alen p) 0 0) (rest ++ concat (map snd (drop (S (length dl)) sent))) us sent (dl ++ [p]) (held ++ [alen p]) r).
Proof.
  intros Hok [(ms & Hn) _ _ _ _ (Hid & _) _] Hrec Hrest0 Ep Hs' Has'. rewrite Hid in Hs'.
  pose proof (fo_delivered _ _ Hok) as Hdel. pose proof (fo_held _ _ Hok) as [Hheld Hheld2]. unfold rx_stream in Hheld.
  cbn [fl_rx fl_sent fl_delivered fl_held] in *.
  assert (length (dl ++ [p]) = S (length dl)) as Hl by (rewrite length_app; cbn [length]; lia).
  refine (receive_keeps _ _ _ _ _ _ _ _ _ _ _ s' _ _ _ _ _ Hok Hs' _ _ _ _ _ _).
  - right. by eexists.
  - rewrite Hl. f_equal. lia.
  - rewrite Hl. by rewrite (take_S_r _ _ _ Hn), map_app, <- Hdel.
  - unfold frames_ok. by rewrite Has', Hrest0, Hl.
  - unfold assembled. rewrite Has', bytes_total_app. cbn [bytes_total]. rewrite Ep. unfold f_len, alen in *. rewrite length_app. lia.
  - rewrite held_total_app, bytes_total_app. cbn [held_total bytes_total]. split; [lia|]. apply Forall_app. split; [exact Hheld2|].
    constructor; [apply alen_nonneg|constructor].
Qed.

(** There is more of the message. *)
Lemma message_more g tx rx f us sent dl held r s' b p done rest :
  flow_ok g (mk_flow tx rx (f :: rest ++ concat (map snd (drop (S (length dl)) sent))) us sent dl held r) →
  frame_next g (tc_stream rx rx_slot) f sent (length dl) p done rest →
  ss_rx_received_bytes (tc_stream rx rx_slot) = bytes_total dl + alen done →
  received_slot (tc_stream rx rx_slot) s' (ss_next_rx_message_id (tc_stream rx rx_slot)) (ss_rx_received_bytes (tc_stream rx rx_slot) + f_len f) →
  ss_rx_reassembly s' = Some b → xb_data b = done ++ m_payload f → ss_rx_reassembly_message_id s' = Z.of_nat (length dl) + 1 →
  st_maximum g ≤ xb_capacity b → message_rest sid (Z.of_nat (length dl) + 1) true (done ++ m_payload f) p rest →
  flow_ok g (mk_flow tx (put_stream rx rx_slot s') (rest ++ concat (map snd (drop (S (length dl)) sent))) us sent dl held r).
Proof.
  intros Hok [(ms & Hn) _ _ _ _ (Hid & Hmax) _] Hrec Hs' Has' Hd Hmid Hbc Hrest'.
  pose proof (fo_delivered _ _ Hok) as Hdel. pose proof (fo_held _ _ Hok) as Hheld. unfold rx_stream in Hheld.
  cbn [fl_rx fl_sent fl_delivered fl_held] in *.
  refine (receive_keeps _ _ _ _ _ _ _ _ _ _ _ s' _ _ _ _ _ Hok Hs' _ _ Hdel _ _ Hheld).
  - by left.
  - rewrite Hid, u64_small; [done|unfold u64_ok, UINT64_MAX in *; lia].
  - unfold frames_ok. rewrite Has'. exists p, ms, rest. rewrite Hd. by split_and!.
  - unfold assembled. rewrite Has', Hd. unfold f_len, alen in *. rewrite length_app. lia.
Qed.


(** The pool has no buffer. *)
Lemma flow_fails g tx rx f fs us sent dl held r pool status : flow_ok g (mk_flow tx rx (f :: fs) us sent dl held r) →
  pool ≠ TR_OK → status = pool_failure pool → flag_set f TR_FRAME_F_FIRST = true → flag_set f TR_FRAME_F_LAST = false →
  flow_ok g (mk_flow_state tx rx (f :: fs) us sent dl held r (Some (pool, status))).
Proof. intros [] N E F L. split; try assumption. intros ? ? [= <- <-]. split; [exact N|]. split; [exact E|]. by exists f, fs. Qed.

Lemma step_receive_ok g tx rx f fs us sent dl held r (acquire : tr_status * Z) outcome rx' :
  flow_ok g (mk_flow tx rx (f :: fs) us sent dl held r) →
  (acquire.1 = TR_OK → cg_max_message_bytes (tc_config rx) ≤ acquire.2) → receive_data rx rx_connection f acquire = (outcome, rx') →
  flow_ok g match outcome with
    | Data_message _ payload => mk_flow tx rx' fs us sent (dl ++ [payload]) (held ++ [alen payload]) r
    | Data_more => mk_flow tx rx' fs us sent dl held r
    | Data_fail _ status _ => mk_flow_state tx rx' (f :: fs) us sent dl held r (Some (acquire.1, status))
    | _ => mk_flow tx rx' fs us sent dl held true
    end.
Proof.
  intros Hok Hcap E. destruct (frame_facts _ _ _ _ _ _ _ _ _ _ Hok) as (p & done & rest & Hnext & -> & Hrec).
  pose proof Hnext as [(ms & Hn) (F1 & F2 & F3 & F4 & F5) F7 F8 Hb (Hid & Hid2) Hcr].
  pose proof (fo_rx _ _ Hok) as Hrx. destruct (fo_rx_state _ _ Hok) as (R1 & R2 & _). destruct (fo_config _ _ Hok) as (_ & _ & _ & G4 & G5 & _ & G7).
  unfold rx_stream in *. cbn [fl_rx] in *. set (s := tc_stream rx rx_slot) in *. pose proof (alen_nonneg (m_payload f)) as Hf0. fold (f_len f) in Hf0.
  rewrite (receive_in_order rx rx_connection rx_handle rx_slot sid f acquire Hrx) in E; [|done|done|done|done|done|fold s; lia|fold s; lia|exact Hcr].
  assert (∀ s' next, ss_state s' = TR_STREAM_SLOT_OPEN → ss_state s' = ss_state s → ss_generation s' = ss_generation s → ss_stream_id s' = ss_stream_id s →
    ss_lane s' = ss_lane s → ss_remote_open s' = ss_remote_open s → ss_next_rx_message_id s' = next → ss_rx_received_bytes s' = ss_rx_received_bytes s + f_len f →
    ss_rx_consumed_bytes s' = ss_rx_consumed_bytes s → ss_rx_advertised_limit s' = ss_rx_advertised_limit s →
    ss_pending_advertised_limit s' = ss_pending_advertised_limit s → ss_rx_credit_stopped s' = ss_rx_credit_stopped s →
    received_slot s s' next (ss_rx_received_bytes s + f_len f)) as Hslot.
  { intros s' next A1 A2 A3 A4 A5 A6 A7 A8 A9 A10 A11 A12. split; [split_and!; try done; rewrite A1; done|]. by split_and!. }
  fold s in E. unfold place_data in E. rewrite F5, F2, G4, G7 in E.
  destruct (ss_rx_reassembly s) as [b|] eqn:Eb.
  - rewrite (bool_decide_true (is_Some (Some b))) in E by eauto. cbn [negb andb] in E. destruct Hb as (-> & Hmid & Hbc).
    rewrite Hmid, Z.eqb_refl in E. cbn [negb] in E. rewrite !Z.gtb_ltb in E.
    destruct (Z.ltb_spec (st_maximum g) (alen (xb_data b) + f_len f)); [lia|]. destruct (Z.ltb_spec (xb_capacity b) (alen (xb_data b) + f_len f)); [lia|].
    cbn [orb] in E. destruct F7 as [(EL & Hrest0 & Ep)|(EL & Hrest')]; rewrite EL in E; injection E as <- <-.
    + rewrite <- Ep. apply (message_done g tx rx f us sent dl held r _ p (xb_data b) rest Hok Hnext Hrec Hrest0 Ep); [|reflexivity]. by apply Hslot.
    + apply (message_more g tx rx f us sent dl held r _ (mk_rx_buffer (xb_data b ++ m_payload f) (xb_capacity b)) p (xb_data b) rest Hok Hnext Hrec); [|reflexivity|reflexivity|reflexivity|exact Hbc|exact Hrest']. by apply Hslot.
  - rewrite (bool_decide_false (is_Some None)) in E by (by intros []). cbn [negb andb orb] in E. subst done. cbn [app] in *.
    change (alen []) with 0 in *. rewrite !Z.gtb_ltb in E. destruct (Z.ltb_spec (st_maximum g) (f_len f)); [lia|].
    destruct (Z.eqb_spec (st_maximum g) 0); [lia|]. cbn [negb andb orb] in E.
    destruct F7 as [(EL & Hrest0 & Ep)|(EL & Hrest')]; rewrite EL in E.
    + injection E as <- <-. rewrite <- Ep. apply (message_done g tx rx f us sent dl held r _ p [] rest Hok Hnext Hrec Hrest0 Ep); [|exact Eb]. by apply Hslot.
    + destruct (is_ok acquire.1) eqn:Ea; cbn [negb] in E; injection E as <- <-.
      2:{ apply (flow_fails g); [exact Hok|by apply is_ok_false|reflexivity|exact F5|exact EL]. }
      apply is_ok_true in Ea. specialize (Hcap Ea). rewrite G4 in Hcap.
      apply (message_more g tx rx f us sent dl held r _ (mk_rx_buffer (m_payload f) acquire.2) p [] rest Hok Hnext Hrec); [|reflexivity|reflexivity|reflexivity| |exact Hrest'].
      * by apply Hslot.
      * cbn [xb_capacity]. lia.
Qed.
(** ** The whole handler *)





(** What was received was sent. *)
Lemma received_le_sent g st : flow_ok g st → ss_rx_received_bytes (rx_stream st) ≤ ss_tx_sent_bytes (tx_stream st).
Proof.
  intros Hok. rewrite (fo_received _ _ Hok), (fo_tx_bytes _ _ Hok). pose proof (fo_frames _ _ Hok) as Hfr. unfold frames_ok, assembled in *.
  rewrite (fo_delivered _ _ Hok) at 1. destruct (ss_rx_reassembly (rx_stream st)) as [b|].
  - destruct Hfr as (p & ms & rest & Hn & Hrest & _). apply total_before in Hn.
    assert (alen (xb_data b) ≤ alen p) as Hle by (destruct rest as [|f rest]; [by apply rest_nonempty in Hrest|apply rest_next in Hrest; pose proof (alen_nonneg (m_payload f)); unfold f_len in *; lia]). lia.
  - rewrite <- (take_drop (length (fl_delivered st)) (fl_sent st)) at 2. rewrite map_app, bytes_total_app.
    pose proof (bytes_total_nonneg (map fst (drop (length (fl_delivered st)) (fl_sent st)))). lia.
Qed.

(** ** The receiver consumes, tries again or stops *)

Lemma consumed_zero s : consumed_slot s 0 = s.
Proof. destruct s. unfold consumed_slot, slot_receive. cbn. by rewrite Z.add_0_r. Qed.

Lemma update_chain_app low us high new high' : update_chain low us high → new = [] ∧ high' = high ∨ new = [high'] ∧ high ≤ high' →
  update_chain low (us ++ new) high'.
Proof. intros H [[-> ->]|[-> Hle]]; [by rewrite app_nil_r|by apply (update_chain_snoc us low high)]. Qed.

(** [c1]: the receiver with [len] more bytes consumed. *)
Lemma window_keeps g tx rx c1 rx' fs us sent dl held held' len r : flow_ok g (mk_flow tx rx fs us sent dl held r) →
  tc_stream c1 rx_slot = consumed_slot (tc_stream rx rx_slot) len → tc_config c1 = tc_config rx → tc_links c1 = tc_links rx →
  tc_sent c1 = tc_sent rx → placed c1 rx_connection rx_handle rx_slot sid → window_sent c1 rx' rx_slot →
  held_total held = held_total held' + len → Forall (λ n, 0 ≤ n) held' →
  flow_ok g (mk_flow tx rx' fs (us ++ updates_sent rx rx') sent dl held' r).
Proof.
  intros Hok E1 E2 E3 E4 E5 [W1 W2 W3 W4 W5 W6 W7] Hh Hh2.
  pose proof Hok as [Htx Hrx Ts (R1 & R2 & R3) Hcfg (Id1 & Id2) Hmsg Hbytes Hdel Hfr Hrec [Hheld _] Hcr Hset Hch Hlim Href].
  unfold tx_stream, rx_stream in *. cbn [fl_tx fl_rx fl_frames fl_updates fl_sent fl_delivered fl_held fl_refused] in *.
  set (s' := tc_stream rx' rx_slot) in *. rewrite E1 in W4, W7.
  assert (ss_state s' = ss_state (tc_stream rx rx_slot) ∧ ss_remote_open s' = ss_remote_open (tc_stream rx rx_slot) ∧ ss_lane s' = ss_lane (tc_stream rx rx_slot) ∧
    ss_next_rx_message_id s' = ss_next_rx_message_id (tc_stream rx rx_slot) ∧ ss_rx_received_bytes s' = ss_rx_received_bytes (tc_stream rx rx_slot) ∧
    ss_rx_consumed_bytes s' = ss_rx_consumed_bytes (tc_stream rx rx_slot) + len ∧ ss_rx_reassembly s' = ss_rx_reassembly (tc_stream rx rx_slot) ∧
    ss_rx_reassembly_message_id s' = ss_rx_reassembly_message_id (tc_stream rx rx_slot)) as (A1 & A2 & A3 & A4 & A5 & A6 & A7 & A8) by (rewrite W4; by split_and!).
  split; unfold tx_stream, rx_stream; cbn [fl_tx fl_rx fl_frames fl_updates fl_sent fl_delivered fl_held fl_refused]; fold s'; rewrite ?W1, ?E2; try done.
  - by apply W3.
  - rewrite A1, A2, A3. split; [done|]. split; [done|]. rewrite <- R3. unfold room, tr_channel_lane_max_message_locked, lane_caps. by rewrite W1, W2, E2, E3.
  - split; [exact Id1|]. by rewrite A4.
  - unfold frames_ok in *. by rewrite A7, A8.
  - unfold assembled in *. by rewrite A5, A7.
  - rewrite A6. split; [lia|exact Hh2].
  - apply (update_chain_app _ _ _ _ _ Hch). unfold updates_sent in W7. rewrite E4 in W7. exact W7.
Qed.

Lemma step_window_facts g st : flow_ok g st → let rx := fl_rx st in
  0 ≤ rx_slot < alen (tb_streams (tc_table rx)) ∧ ss_state (tc_stream rx rx_slot) ≠ TR_STREAM_SLOT_FREE ∧ credit_ok rx rx_slot ∧
  0 ≤ cg_initial_window_bytes (tc_config rx) ≤ UINT64_MAX ∧ u64_ok (cg_window_update_threshold_bytes (tc_config rx)).
Proof.
  intros Hok. destruct (fo_config _ _ Hok) as (G1 & G2 & G3 & _). destruct (fo_rx_state _ _ Hok) as (R1 & _). unfold rx_stream in R1.
  split; [apply (fo_rx _ _ Hok)|]. split; [by rewrite R1|]. split; [apply (fo_credit _ _ Hok)|]. split; [by rewrite G1|exact G3].
Qed.

Lemma step_consume_ok g tx rx fs us sent dl before len after r rx' : flow_ok g (mk_flow tx rx fs us sent dl (before ++ len :: after) r) →
  consumes rx_handle rx len rx' → flow_ok g (mk_flow tx rx' fs (us ++ updates_sent rx rx') sent dl (before ++ after) r).
Proof.
  intros Hok Hcon. destruct (step_window_facts _ _ Hok) as (F1 & F2 & F3 & F4 & F5). destruct (fo_held _ _ Hok) as [Hheld Hpos].
  pose proof (fo_received _ _ Hok) as Hrec. pose proof (fo_rx _ _ Hok) as Hrx. unfold rx_stream in *. cbn [fl_rx fl_held fl_delivered] in *.
  rewrite held_total_app in Hheld. cbn [held_total] in Hheld. apply Forall_app in Hpos as [Hb Ha]. apply Forall_cons in Ha as [Hlen Ha].
  assert (∀ l, Forall (λ n, 0 ≤ n) l → 0 ≤ held_total l) as Hnn by (induction 1; cbn [held_total]; lia).
  pose proof (Hnn _ Hb). pose proof (Hnn _ Ha). assert (0 ≤ assembled (tc_stream rx rx_slot)) as Has by (unfold assembled; destruct (ss_rx_reassembly _); [apply alen_nonneg|lia]).
  pose proof (fo_chain _ _ Hok) as Hch%update_chain_le. pose proof (fo_limit _ _ Hok) as Hlim. destruct F3 as [C1 C2 C3].
  pose proof (add_sat_bounds _ _ C1 F4) as (S1 & _). assert (ss_rx_received_bytes (tc_stream rx rx_slot) ≤ UINT64_MAX) as Hmax.
  { pose proof (received_le_sent g _ Hok) as Hle. unfold rx_stream, tx_stream in *. cbn [fl_tx fl_rx] in *. lia. }
  pose proof (consumes_ok rx_handle rx rx_slot len rx' rx_connection sid Hcon Hrx F2 (Build_credit_ok _ _ C1 C2 C3) F4 F5 ltac:(lia) Hmax) as Hws.
  refine (window_keeps g tx rx _ rx' fs us sent dl (before ++ len :: after) (before ++ after) len r Hok _ _ _ _ _ Hws _ _); try reflexivity.
  - by apply stream_put.
  - apply placed_put; [exact Hrx|by split_and!].
  - rewrite !held_total_app. cbn [held_total]. lia.
  - by apply Forall_app.
Qed.

Lemma step_retry_ok g tx rx fs us sent dl held r send_ret : flow_ok g (mk_flow tx rx fs us sent dl held r) →
  let rx' := (tr_send_window_update_locked rx rx_slot send_ret).2 in
  flow_ok g (mk_flow tx rx' fs (us ++ updates_sent rx rx') sent dl held r).
Proof.
  intros Hok. destruct (step_window_facts _ _ Hok) as (F1 & F2 & F3 & F4 & F5). cbn [fl_rx] in *.
  destruct (tr_send_window_update_locked rx rx_slot send_ret) as [ret rx'] eqn:E. cbn [snd].
  apply (window_keeps g tx rx rx rx' fs us sent dl held held 0 r Hok); try done; [by rewrite consumed_zero|apply (fo_rx _ _ Hok)| |lia|apply (fo_held _ _ Hok)].
  by apply (window_update_ok _ _ _ _ _ E).
Qed.

Lemma step_stop_ok g tx rx fs us sent dl held r owner : flow_ok g (mk_flow tx rx fs us sent dl held r) →
  flow_ok g (mk_flow tx (tr_stream_stop_credit_on_owner rx rx_handle owner).2 fs us sent dl held r).
Proof.
  intros Hok. destruct (step_window_facts _ _ Hok) as (F1 & F2 & F3 & F4 & F5). pose proof (fo_rx _ _ Hok) as Hrx. cbn [fl_rx] in *.
  unfold tr_stream_stop_credit_on_owner. case_if; [exact Hok|]. destruct owner; cbn [negb]; [|exact Hok].
  rewrite (pd_handle _ _ _ _ _ Hrx). cbn [snd]. rewrite <- (app_nil_r us).
  set (rx' := put_stream _ _ _). change (@nil Z) with (map sn_message_id []). rewrite <- (drop_all (tc_sent rx')).
  change (map sn_message_id (drop (length (tc_sent rx')) (tc_sent rx'))) with (updates_sent rx rx').
  apply (window_keeps g tx rx rx rx' fs us sent dl held held 0 r Hok); try done; [by rewrite consumed_zero| |lia|apply (fo_held _ _ Hok)].
  apply window_put; try done; [by left|]. left. by rewrite stream_put.
Qed.
(** ** The sender gets an update *)

(** The sender's stream keeps what the invariant needs of it. *)
Lemma sender_keeps g tx tx' rx fs us us' sent dl held r : flow_ok g (mk_flow tx rx fs us sent dl held r) →
  placed tx' tx_connection tx_handle tx_slot sid →
  (let s := tc_stream tx tx_slot in let s' := tc_stream tx' tx_slot in
   ss_state s' = ss_state s ∧ ss_tx_window_bytes s' = ss_tx_window_bytes s ∧ ss_lane s' = ss_lane s ∧
   ss_next_tx_message_id s' = ss_next_tx_message_id s ∧ ss_tx_sent_bytes s' = ss_tx_sent_bytes s ∧ ss_tx_send_limit s ≤ ss_tx_send_limit s' ∧
   update_chain (ss_tx_send_limit s') us' (ss_rx_advertised_limit (tc_stream rx rx_slot)) ∧
   tr_channel_lane_max_message_locked tx' (ss_lane s) = tr_channel_lane_max_message_locked tx (ss_lane s)) →
  flow_ok g (mk_flow tx' rx fs us' sent dl held r).
Proof.
  intros Hok Hpl (A1 & A2 & A3 & A4 & A5 & A6 & A7 & A8).
  pose proof Hok as [Htx Hrx (T1 & T2 & T3) Rs Hcfg (Id1 & Id2) Hmsg Hbytes Hdel Hfr Hrec Hheld Hcr Hset Hch Hlim Href].
  unfold tx_stream, rx_stream in *. cbn [fl_tx fl_rx fl_frames fl_updates fl_sent fl_delivered fl_held fl_refused] in *.
  split; unfold tx_stream, rx_stream; cbn [fl_tx fl_rx fl_frames fl_updates fl_sent fl_delivered fl_held fl_refused]; try done.
  - rewrite A1, A2, A3. split; [exact T1|]. split; [exact T2|]. by rewrite A8.
  - split; [by rewrite A4|exact Id2].
  - by rewrite A5.
  - rewrite A5. lia.
Qed.

Lemma step_update_ok g tx rx fs u us sent dl held r f answer tx' : flow_ok g (mk_flow tx rx fs (u :: us) sent dl held r) →
  update_frame sid u f → tr_channel_handle_window_update tx tx_connection f = (answer, tx') →
  flow_ok g (mk_flow tx' rx fs us sent dl held (r || negb (bool_decide (answer = Handled TR_OK)))).
Proof.
  intros Hok Hf E. destruct (fo_tx_state _ _ Hok) as (T1 & _). destruct (fo_chain _ _ Hok) as [Hle Hch]. pose proof (fo_limit _ _ Hok) as Hlim.
  unfold tx_stream, rx_stream in *. cbn [fl_tx fl_rx] in *.
  assert (ss_tx_sent_bytes (tc_stream tx tx_slot) ≤ u) as Hu by lia.
  destruct (update_received _ _ _ _ _ _ _ _ _ (fo_tx _ _ Hok) Hf T1 Hle Hu E) as (-> & Hpl & _ & El & Es).
  rewrite bool_decide_true by done. cbn [negb]. rewrite orb_false_r.
  apply (sender_keeps g tx tx' rx fs (u :: us) us sent dl held r Hok Hpl). cbv zeta. rewrite Es.
  cbn [slot_send ss_state ss_tx_window_bytes ss_lane ss_next_tx_message_id ss_tx_sent_bytes ss_tx_send_limit].
  split_and!; try done. unfold tr_channel_lane_max_message_locked, lane_caps. by rewrite El.
Qed.

(** ** Other operations *)

Lemma step_tx_else_ok g tx rx fs us sent dl held r tx' : flow_ok g (mk_flow tx rx fs us sent dl held r) →
  elsewhere sid tx_slot tx_connection tx_handle tx tx' → flow_ok g (mk_flow tx' rx fs us sent dl held r).
Proof.
  intros Hok (E1 & E2 & _ & E4). pose proof (fo_chain _ _ Hok) as Hch. unfold tx_stream, rx_stream in Hch. cbn [fl_tx fl_rx fl_updates] in Hch.
  apply (sender_keeps g tx tx' rx fs us us sent dl held r Hok E2). cbv zeta. rewrite E1. split_and!; try done.
  unfold tr_channel_lane_max_message_locked. by rewrite E4.
Qed.

Lemma step_rx_else_ok g tx rx fs us sent dl held r rx' : flow_ok g (mk_flow tx rx fs us sent dl held r) →
  elsewhere sid rx_slot rx_connection rx_handle rx rx' → flow_ok g (mk_flow tx rx' fs us sent dl held r).
Proof.
  intros Hok (E1 & E2 & E3 & E4).
  pose proof Hok as [Htx Hrx Ts (R1 & R2 & R3) Hcfg Id Hmsg Hbytes Hdel Hfr Hrec Hheld [C1 C2 C3] Hset Hch Hlim Href].
  unfold tx_stream, rx_stream, settled in *. cbn [fl_tx fl_rx fl_frames fl_updates fl_sent fl_delivered fl_held fl_refused] in *.
  assert (room rx' (ss_lane (tc_stream rx rx_slot)) = room rx (ss_lane (tc_stream rx rx_slot))) as Hroom.
  { unfold room, tr_channel_lane_max_message_locked. by rewrite E3, E4. }
  split; unfold tx_stream, rx_stream; cbn [fl_tx fl_rx fl_frames fl_updates fl_sent fl_delivered fl_held fl_refused]; rewrite ?E1, ?E3; try done.
  - rewrite Hroom. by split_and!.
  - split; rewrite ?E1, ?E3; done.
  - unfold settled. rewrite E1, E3, Hroom. exact Hset.
Qed.

Lemma flow_step_ok g st st' : flow_step sid tx_connection rx_connection tx_handle rx_handle tx_slot rx_slot st st' → flow_ok g st → flow_ok g st'.
Proof.
  intros Hstep Hok. destruct Hstep.
  - by eapply step_send_ok.
  - by eapply step_receive_ok.
  - by eapply step_consume_ok.
  - by apply step_retry_ok.
  - by apply step_stop_ok.
  - by eapply step_update_ok.
  - by eapply step_tx_else_ok.
  - by eapply step_rx_else_ok.
Qed.

Lemma flow_steps_ok g st st' : rtc (flow_step sid tx_connection rx_connection tx_handle rx_handle tx_slot rx_slot) st st' → flow_ok g st → flow_ok g st'.
Proof. induction 1 as [|a b d Hab _ IH]; [done|]. intros Ha. by apply IH, (flow_step_ok g a). Qed.

End Invariant.

(** * Properties *)

Section Properties.
Context (sid : Z) (tx_connection rx_connection : tr_conn_handle) (tx_handle rx_handle : tr_stream_handle) (tx_slot rx_slot : Z).

Abbreviation start := (flow_start sid tx_connection rx_connection tx_handle rx_handle tx_slot rx_slot).
Abbreviation run := (rtc (flow_step sid tx_connection rx_connection tx_handle rx_handle tx_slot rx_slot)).
Abbreviation ok := (flow_ok sid tx_connection rx_connection tx_handle rx_handle tx_slot rx_slot).

Lemma run_ok st0 st : start st0 → run st0 st → ∃ g, ok g st ∧ st_window g = cg_initial_window_bytes (tc_config (fl_rx st)) ∧
  st_room g = room (fl_rx st) (ss_lane (tc_stream (fl_rx st) rx_slot)) ∧
  st_limit g = tr_channel_lane_max_message_locked (fl_tx st) (ss_lane (tc_stream (fl_tx st) tx_slot)).
Proof.
  intros Hs Hr. pose proof (start_ok _ _ _ _ _ _ _ _ Hs) as Hok. apply (flow_steps_ok _ _ _ _ _ _ _ _ _ _ Hr) in Hok as Hok'.
  eexists. split; [exact Hok'|]. destruct (fo_config _ _ _ _ _ _ _ _ _ Hok') as (G1 & _). destruct (fo_rx_state _ _ _ _ _ _ _ _ _ Hok') as (_ & _ & G2).
  destruct (fo_tx_state _ _ _ _ _ _ _ _ _ Hok') as (_ & _ & G3). by rewrite <- G1, <- G2, <- G3.
Qed.

(** When no frame is under way, everything was delivered. *)
Lemma no_frames_delivered g st : ok g st → fl_frames st = [] → fl_delivered st = map fst (fl_sent st) ∧ ss_rx_reassembly (tc_stream (fl_rx st) rx_slot) = None.
Proof.
  intros Hok Hf. pose proof (fo_frames _ _ _ _ _ _ _ _ _ Hok) as Hfr. unfold frames_ok in Hfr. rewrite Hf in Hfr.
  destruct (ss_rx_reassembly (tc_stream (fl_rx st) rx_slot)) as [b|].
  - destruct Hfr as (p & ms & rest & _ & Hrest & H & _). symmetry in H. apply app_eq_nil in H as [-> _]. by apply rest_nonempty in Hrest.
  - split; [|done]. rewrite (fo_delivered _ _ _ _ _ _ _ _ _ Hok). f_equal. apply take_ge.
    destruct (drop (length (fl_delivered st)) (fl_sent st)) as [|[p ms] more] eqn:Ed.
    + apply (f_equal length) in Ed. rewrite length_drop in Ed. cbn [length] in Ed. lia.
    + cbn [map concat snd] in Hfr. symmetry in Hfr. apply app_eq_nil in Hfr as [Hms _].
      assert (fl_sent st !! length (fl_delivered st) = Some (p, ms)) as Hn by (rewrite <- (Nat.add_0_r (length (fl_delivered st))), <- lookup_drop, Ed; done).
      destruct (fo_messages _ _ _ _ _ _ _ _ _ Hok _ _ _ Hn) as (Hm & _). by apply rest_nonempty in Hm.
Qed.


Lemma payloads_length_sum payloads : ∀ len, Forall (λ d, d ≠ []) payloads → len + alen (concat payloads) ≤ UINT64_MAX →
  payloads_length (map Some payloads) len = (TR_OK, len + alen (concat payloads)).
Proof.
  induction payloads as [|d payloads IH]; intros len Hne Hmax; cbn [map payloads_length concat]; [f_equal; unfold alen; simpl; lia|].
  apply Forall_cons in Hne as [Hd Hne]. change (default [] (Some d)) with d. rewrite bool_decide_false by done.
  assert (alen (d ++ concat payloads) = alen d + alen (concat payloads)) as Ha by (unfold alen; rewrite length_app; lia). cbn [concat] in Hmax. rewrite Ha in *.
  pose proof (alen_nonneg (concat payloads)). assert (0 < alen d) as Hd0 by (unfold alen; destruct d; [done|cbn [length]; lia]).
  destruct (Z.eqb_spec (alen d) 0); [lia|]. destruct (Z.ltb_spec (UINT64_MAX - len) (alen d)); [lia|]. cbn [orb].
  rewrite IH by (done || lia). f_equal. lia.
Qed.

Lemma gtb_false a b : a ≤ b → (a >? b) = false.
Proof. rewrite Z.gtb_ltb. apply Z.ltb_ge. Qed.

(** A legal message within the credit is sent. *)
Lemma sendv_accepted c connection handle slot sid' payloads : placed c connection handle slot sid' →
  let s := tc_stream c slot in let total := alen (concat payloads) in
  ss_state s = TR_STREAM_SLOT_OPEN → ss_local_open s = true → tr_channel_lane_alive c (ss_lane s) = true →
  0 < alen payloads ≤ TR_REACTOR_MAX_TX_SLICES → Forall (λ d, d ≠ []) payloads →
  total ≤ ss_tx_window_bytes s → total ≤ tr_channel_lane_max_message_locked c (ss_lane s) →
  0 ≤ ss_tx_sent_bytes s ∧ ss_tx_sent_bytes s + total ≤ UINT64_MAX ∧ ss_tx_sent_bytes s + total ≤ ss_tx_send_limit s →
  ∃ c', tr_stream_sendv c handle (Some (map Some payloads)) TR_OK = (TR_OK, c').
Proof.
  intros Hpl s total T1 Hopen Halive Hcount Hne Hwin Hlmax (H0 & H1 & H2). unfold tr_stream_sendv. pose proof (alen_nonneg (concat payloads)).
  change (default [] (Some (map Some payloads))) with (map Some payloads). replace (alen (map Some payloads)) with (alen payloads) by (unfold alen; by rewrite length_map).
  rewrite bool_decide_false by done. rewrite (payloads_length_sum payloads 0 Hne) by lia. rewrite Z.add_0_l. fold total.
  destruct (Z.eqb_spec (sh_channel handle) 0); [by destruct (pd_channel _ _ _ _ _ Hpl)|]. destruct (Z.eqb_spec (alen payloads) 0); [lia|].
  rewrite (gtb_false (alen payloads)) by lia. change (is_ok TR_OK) with true. cbn [orb negb].
  rewrite (pd_handle _ _ _ _ _ Hpl). fold s. rewrite T1, Hopen, Halive.
  change (bool_decide (TR_STREAM_SLOT_OPEN = TR_STREAM_SLOT_RESETTING)) with false. change (bool_decide (TR_STREAM_SLOT_OPEN = TR_STREAM_SLOT_OPEN)) with true. cbn [orb negb].
  rewrite (gtb_false total) by exact Hwin. rewrite (gtb_false total) by exact Hlmax. cbn [orb].
  destruct (Z.ltb_spec (UINT64_MAX - ss_tx_sent_bytes s) total); [lia|]. rewrite gtb_false by lia.
  eexists. reflexivity.
Qed.

(** C5: Once everything is consumed and no update is under way or pending, the sender may send
    any legal message, if the receiver may itself send messages as large as the sender may. *)
Theorem stream_flow_live (st0 st : flow_state) (payloads : list (list Z)) (Hstart : start st0) (Hrun : run st0 st) :
  let tx := tc_stream (fl_tx st) tx_slot in let rx := tc_stream (fl_rx st) rx_slot in
  let total := alen (concat payloads) in
  fl_frames st = [] → fl_updates st = [] → fl_held st = [] → ss_pending_advertised_limit rx = 0 → ss_rx_credit_stopped rx = false →
  tr_channel_lane_max_message_locked (fl_tx st) (ss_lane tx) ≤ tr_channel_lane_max_message_locked (fl_rx st) (ss_lane rx) →
  ss_tx_sent_bytes tx + cg_initial_window_bytes (tc_config (fl_rx st)) ≤ UINT64_MAX →
  ss_local_open tx = true → tr_channel_lane_alive (fl_tx st) (ss_lane tx) = true →
  0 < alen payloads ≤ TR_REACTOR_MAX_TX_SLICES → Forall (λ d, d ≠ []) payloads →
  total ≤ ss_tx_window_bytes tx → total ≤ tr_channel_lane_max_message_locked (fl_tx st) (ss_lane tx) →
  ∃ c, tr_stream_sendv (fl_tx st) tx_handle (Some (map Some payloads)) TR_OK = (TR_OK, c).
Proof.
  intros tx rx total Hfr Hus Hheld Hpend Hstop Hmax Hroom64 Hopen Halive Hcount Hne Hwin Hlmax.
  destruct (run_ok st0 st Hstart Hrun) as (g & Hok & Hw & Hroom & Hlimit). destruct (fo_config _ _ _ _ _ _ _ _ _ Hok) as (G1 & G2 & _).
  destruct (no_frames_delivered g st Hok Hfr) as [Hdel Has]. pose proof (fo_received _ _ _ _ _ _ _ _ _ Hok) as Hrec. unfold assembled in Hrec. rewrite Has, Hdel in Hrec.
  destruct (fo_held _ _ _ _ _ _ _ _ _ Hok) as [Hcons _]. rewrite Hheld, Hdel in Hcons. cbn [held_total] in Hcons.
  pose proof (fo_tx_bytes _ _ _ _ _ _ _ _ _ Hok) as Hbytes. pose proof (fo_chain _ _ _ _ _ _ _ _ _ Hok) as Hch. rewrite Hus in Hch. cbn [update_chain] in Hch.
  destruct (fo_tx_state _ _ _ _ _ _ _ _ _ Hok) as (T1 & T2 & _). pose proof (fo_tx _ _ _ _ _ _ _ _ _ Hok) as Hpl.
  cbv beta in T1, T2, Hcons, Hbytes, Hch, Hrec. fold tx rx in T1, T2, Hcons, Hbytes, Hch, Hrec. pose proof (bytes_total_nonneg (map fst (fl_sent st))) as H0.
  pose proof (fo_settled _ _ _ _ _ _ _ _ _ Hok) as Hset. destruct (fo_credit _ _ _ _ _ _ _ _ _ Hok) as [C1 _ _]. fold rx in C1.
  rewrite Hw in G2. destruct (add_sat_bounds _ _ C1 G2) as (_ & _ & Hsat).
  unfold settled in Hset. fold rx in Hset. rewrite Hsat in Hset by lia. rewrite Hstop, Hpend in Hset. unfold room in Hset.
  destruct Hset as [Hset|[Hset|Hset]]; [done|done|].
  apply (sendv_accepted (fl_tx st) tx_connection tx_handle tx_slot sid payloads Hpl); fold tx; try done. fold total. lia.
Qed.

(** ** A stream that stops *)

(** A debt below the threshold is put off, and nothing of the credit changes. *)
Lemma update_put_off c slot send_ret : 0 ≤ slot < alen (tb_streams (tc_table c)) →
  let s := tc_stream c slot in
  ss_pending_advertised_limit s = 0 →
  tr_add_sat_u64 (ss_rx_consumed_bytes s) (cg_initial_window_bytes (tc_config c)) - ss_rx_advertised_limit s < update_threshold c (ss_lane s) →
  ∃ stopped, (tr_send_window_update_locked c slot send_ret).2 = put_stream c slot (slot_credit s (ss_rx_advertised_limit s) 0 stopped) ∨
    (tr_send_window_update_locked c slot send_ret).2 = c.
Proof.
  intros Hs s Hp Hd. exists (ss_rx_credit_stopped s).
  unfold tr_send_window_update_locked. fold s. destruct (ss_rx_credit_stopped s); [by left|]. destruct (_ <=? _); [by left|].
  rewrite Hp. destruct (Z.ltb_spec (tr_add_sat_u64 (ss_rx_consumed_bytes s) (cg_initial_window_bytes (tc_config c)) - ss_rx_advertised_limit s)
    (update_threshold c (ss_lane s))); [by right|lia].
Qed.

(** The receiver [c'] stands where [c] stood: the same debt, the same threshold, nothing pending. *)
Record same_debt (c c' : tr_channel) : Prop := {
  sd_config : tc_config c' = tc_config c;
  sd_lane : ss_lane (tc_stream c' rx_slot) = ss_lane (tc_stream c rx_slot);
  sd_caps : lane_caps c' (ss_lane (tc_stream c rx_slot)) = lane_caps c (ss_lane (tc_stream c rx_slot));
  sd_consumed : ss_rx_consumed_bytes (tc_stream c' rx_slot) = ss_rx_consumed_bytes (tc_stream c rx_slot);
  sd_advertised : ss_rx_advertised_limit (tc_stream c' rx_slot) = ss_rx_advertised_limit (tc_stream c rx_slot);
  sd_pending : ss_pending_advertised_limit (tc_stream c' rx_slot) = 0
}.

Definition debt (c : tr_channel) : Z :=
  let s := tc_stream c rx_slot in
  tr_add_sat_u64 (ss_rx_consumed_bytes s) (cg_initial_window_bytes (tc_config c)) - ss_rx_advertised_limit s.

Lemma same_debt_below c c' : same_debt c c' → debt c < update_threshold c (ss_lane (tc_stream c rx_slot)) →
  debt c' < update_threshold c' (ss_lane (tc_stream c' rx_slot)).
Proof.
  intros [E1 E2 E3 E4 E5 _]. unfold debt, update_threshold, tr_channel_lane_max_message_locked. by rewrite E4, E5, E2, E1, E3.
Qed.

Lemma same_debt_put c c' stopped : 0 ≤ rx_slot < alen (tb_streams (tc_table c')) → same_debt c c' →
  same_debt c (put_stream c' rx_slot (slot_credit (tc_stream c' rx_slot) (ss_rx_advertised_limit (tc_stream c' rx_slot)) 0 stopped)).
Proof. intros Hs [E1 E2 E3 E4 E5 E6]. split; rewrite ?stream_put by done; done. Qed.

(** Nothing is under way and the receiver stands where it stood. *)
Definition stalled (c : tr_channel) (st : flow_state) : Prop :=
  fl_frames st = [] ∧ fl_updates st = [] ∧ fl_held st = [] ∧ same_debt c (fl_rx st).

(** A step that sends nothing leaves the stream stalled. *)
Lemma stalled_step g c st st' : ok g st → debt c < update_threshold c (ss_lane (tc_stream c rx_slot)) →
  flow_step sid tx_connection rx_connection tx_handle rx_handle tx_slot rx_slot st st' → stalled c st →
  ∃ new, fl_sent st' = fl_sent st ++ new ∧ (new = [] → stalled c st').
Proof.
  intros Hok Hd Hstep (S1 & S2 & S3 & S4). pose proof (fo_rx _ _ _ _ _ _ _ _ _ Hok) as Hpl. pose proof (same_debt_below _ _ S4 Hd) as Hlow.
  assert (∀ tx rx fs us sent dl held r, st' = mk_flow tx rx fs us sent dl held r → sent = fl_sent st → fs = [] → us = [] → held = [] →
    same_debt c rx → ∃ new, fl_sent st' = fl_sent st ++ new ∧ (new = [] → stalled c st')) as Hquiet.
  { intros tx rx fs us sent dl held r -> -> -> -> -> Hsd. exists []. rewrite app_nil_r. split; [reflexivity|]. intros _. by split_and!. }
  destruct Hstep as [tx rx fs us sent dl held r payloads send_ret ret tx' new _ _| | |tx rx fs us sent dl held r send_ret|tx rx fs us sent dl held r owner
    | |tx rx fs us sent dl held r tx' _|tx rx fs us sent dl held r rx' (E1 & E2 & E3 & E4)];
    cbn [fl_tx fl_rx fl_frames fl_updates fl_held fl_sent] in *; try discriminate.
  - exists new. split; [reflexivity|]. intros ->. rewrite S1. by split_and!.
  - by destruct before.
  - eapply Hquiet; try reflexivity; try assumption.
    + rewrite S2. destruct (update_put_off rx rx_slot send_ret (pd_slot _ _ _ _ _ Hpl) (sd_pending _ _ S4) Hlow) as (x & [E|E]);
        apply updates_none; unfold rx'; by rewrite E.
    + destruct (update_put_off rx rx_slot send_ret (pd_slot _ _ _ _ _ Hpl) (sd_pending _ _ S4) Hlow) as (x & [E|E]); unfold rx'; rewrite E; [|exact S4].
      by apply same_debt_put; [apply Hpl|].
  - eapply Hquiet; try reflexivity; try assumption. unfold tr_stream_stop_credit_on_owner. case_if; [exact S4|].
    destruct owner; cbn [negb]; [|exact S4]. rewrite (pd_handle _ _ _ _ _ Hpl). cbn [snd]. by apply same_debt_put; [apply Hpl|].
  - eapply Hquiet; try reflexivity; assumption.
  - eapply Hquiet; try reflexivity; try assumption. destruct S4 as [D1 D2 D3 D4 D5 D6]. rewrite D2 in E4. split; rewrite ?E1, ?E3, ?E4; assumption.
Qed.

Lemma stalled_run g c st st' : ok g st → debt c < update_threshold c (ss_lane (tc_stream c rx_slot)) → stalled c st → run st st' →
  ∃ new, fl_sent st' = fl_sent st ++ new ∧ (new = [] → stalled c st').
Proof.
  intros Hok Hd Hst Hrun. revert st' Hrun. apply rtc_ind_r; [exists []; by rewrite app_nil_r|]. intros a b Hrun Hstep (more & Ea & Hmore).
  pose proof (flow_steps_ok _ _ _ _ _ _ _ _ _ _ Hrun Hok) as Hoka. destruct more as [|e more].
  - destruct (stalled_step g c a b Hoka Hd Hstep (Hmore eq_refl)) as (new & Eb & Hnew). exists new. by rewrite Eb, Ea, app_nil_r.
  - assert (∃ new, fl_sent b = fl_sent a ++ new) as [new Eb].
    { clear - Hstep. destruct Hstep; try (exists []; cbn [fl_sent]; by rewrite ?app_nil_r); [by eexists|].
      exists []. rewrite app_nil_r. by destruct outcome. }
    exists ((e :: more) ++ new). split; [by rewrite Eb, Ea, <- app_assoc|discriminate].
Qed.

(** A message beyond the credit is refused and nothing changes. *)
Lemma sendv_refused c connection handle slot sid' payloads send_ret : placed c connection handle slot sid' →
  let s := tc_stream c slot in let total := alen (concat payloads) in
  ss_state s = TR_STREAM_SLOT_OPEN → 0 ≤ ss_tx_sent_bytes s →
  0 < alen payloads ≤ TR_REACTOR_MAX_TX_SLICES → Forall (λ d, d ≠ []) payloads →
  total ≤ ss_tx_window_bytes s → total ≤ tr_channel_lane_max_message_locked c (ss_lane s) →
  ss_tx_sent_bytes s + total ≤ UINT64_MAX → ss_tx_send_limit s < ss_tx_sent_bytes s + total →
  ∃ ret, tr_stream_sendv c handle (Some (map Some payloads)) send_ret = (ret, c) ∧ ret ≠ TR_OK ∧
    (ss_local_open s = true → tr_channel_lane_alive c (ss_lane s) = true → ret = TR_AGAIN).
Proof.
  intros Hpl s total T1 H0 Hcount Hne Hwin Hlmax Hmax Hlim. unfold tr_stream_sendv. pose proof (alen_nonneg (concat payloads)).
  change (default [] (Some (map Some payloads))) with (map Some payloads). replace (alen (map Some payloads)) with (alen payloads) by (unfold alen; by rewrite length_map).
  rewrite bool_decide_false by done. rewrite (payloads_length_sum payloads 0 Hne) by lia. rewrite Z.add_0_l. fold total.
  destruct (Z.eqb_spec (sh_channel handle) 0); [by destruct (pd_channel _ _ _ _ _ Hpl)|]. destruct (Z.eqb_spec (alen payloads) 0); [lia|].
  rewrite (gtb_false (alen payloads)) by lia. change (is_ok TR_OK) with true. cbn [orb negb].
  rewrite (pd_handle _ _ _ _ _ Hpl). fold s. rewrite T1.
  change (bool_decide (TR_STREAM_SLOT_OPEN = TR_STREAM_SLOT_RESETTING)) with false. change (bool_decide (TR_STREAM_SLOT_OPEN = TR_STREAM_SLOT_OPEN)) with true. cbn [orb negb].
  destruct (ss_local_open s); [|by exists TR_AGAIN]. destruct (tr_channel_lane_alive c (ss_lane s)); cbn [negb].
  2: { destruct (lane_physical c (ss_lane s)); eexists; (split; [reflexivity|]; split; done). }
  rewrite (gtb_false total) by exact Hwin. rewrite (gtb_false total) by exact Hlmax. cbn [orb].
  destruct (Z.ltb_spec (UINT64_MAX - ss_tx_sent_bytes s) total); [lia|].
  rewrite Z.gtb_ltb. destruct (Z.ltb_spec (ss_tx_send_limit s) (ss_tx_sent_bytes s + total)); [|lia]. by exists TR_AGAIN.
Qed.

(** C39: A stream stops for ever.  Nothing is under way, held or pending, what the receiver owes the
    sender is below its threshold, and the sender has a message that the window and its limit
    allow but that is larger than what the window leaves beside the debt.  Then whatever both sides
    do, other than to send another message, the receiver has no update to tell, and the message is
    refused and changes nothing, with TR_AGAIN as long as the stream is open and its lane alive.
    It happens because the threshold leaves room for what the receiver may send itself, and the
    sender's messages may be larger. *)
Theorem flow_stalls (st0 st st' : flow_state) (payloads : list (list Z)) (Hstart : start st0) (Hrun : run st0 st) (Hmore : run st st') :
  let tx := tc_stream (fl_tx st) tx_slot in let tx' := tc_stream (fl_tx st') tx_slot in
  let rx := tc_stream (fl_rx st) rx_slot in let total := alen (concat payloads) in
  let owed := tr_add_sat_u64 (ss_rx_consumed_bytes rx) (cg_initial_window_bytes (tc_config (fl_rx st))) - ss_rx_advertised_limit rx in
  fl_frames st = [] → fl_updates st = [] → fl_held st = [] → ss_pending_advertised_limit rx = 0 →
  owed < update_threshold (fl_rx st) (ss_lane rx) →
  0 < alen payloads ≤ TR_REACTOR_MAX_TX_SLICES → Forall (λ d, d ≠ []) payloads →
  total ≤ ss_tx_window_bytes tx → total ≤ tr_channel_lane_max_message_locked (fl_tx st) (ss_lane tx) →
  ss_tx_sent_bytes tx + cg_initial_window_bytes (tc_config (fl_rx st)) ≤ UINT64_MAX →
  cg_initial_window_bytes (tc_config (fl_rx st)) - owed < total →
  fl_sent st' = fl_sent st →
  fl_updates st' = [] ∧
  (∀ send_ret, updates_sent (fl_rx st') (tr_send_window_update_locked (fl_rx st') rx_slot send_ret).2 = []) ∧
  ∀ send_ret, ∃ ret, tr_stream_sendv (fl_tx st') tx_handle (Some (map Some payloads)) send_ret = (ret, fl_tx st') ∧ ret ≠ TR_OK ∧
    (ss_local_open tx' = true → tr_channel_lane_alive (fl_tx st') (ss_lane tx') = true → ret = TR_AGAIN).
Proof.
  intros tx tx' rx total owed Hfr Hus Hheld Hpend Hd Hcount Hne Hwin Hlmax Hmax Hlarge Hsame.
  destruct (run_ok st0 st Hstart Hrun) as (g & Hok & Hw & _ & Hlimit). pose proof (flow_steps_ok _ _ _ _ _ _ _ _ _ _ Hmore Hok) as Hok'.
  destruct (stalled_run g (fl_rx st) st st' Hok Hd) as (new & Enew & Hst); [by split_and!|exact Hmore|].
  rewrite Hsame in Enew. rewrite <- (app_nil_r (fl_sent st)) in Enew at 1. apply app_inv_head in Enew as <-. destruct (Hst eq_refl) as (S1 & S2 & S3 & S4).
  split; [exact S2|]. pose proof (same_debt_below _ _ S4 Hd) as Hlow.
  split.
  { intros send_ret. destruct (update_put_off (fl_rx st') rx_slot send_ret (pd_slot _ _ _ _ _ (fo_rx _ _ _ _ _ _ _ _ _ Hok')) (sd_pending _ _ S4) Hlow)
      as (x & [E|E]); apply updates_none; by rewrite E. }
  intros send_ret. destruct (no_frames_delivered g st Hok Hfr) as [Hdel _]. destruct (fo_held _ _ _ _ _ _ _ _ _ Hok) as [Hcons _].
  rewrite Hheld, Hdel in Hcons. cbn [held_total] in Hcons. pose proof (fo_tx_bytes _ _ _ _ _ _ _ _ _ Hok) as Hbytes. pose proof (fo_tx_bytes _ _ _ _ _ _ _ _ _ Hok') as Hbytes'.
  pose proof (fo_chain _ _ _ _ _ _ _ _ _ Hok') as Hch. rewrite S2 in Hch. cbn [update_chain] in Hch.
  destruct (fo_config _ _ _ _ _ _ _ _ _ Hok) as (_ & G2 & _). destruct (fo_credit _ _ _ _ _ _ _ _ _ Hok) as [C1 _ _].
  rewrite Hw in G2. destruct (add_sat_bounds _ _ C1 G2) as (_ & _ & Hsat).
  destruct (fo_tx_state _ _ _ _ _ _ _ _ _ Hok) as (_ & T2 & T3). destruct (fo_tx_state _ _ _ _ _ _ _ _ _ Hok') as (T1' & T2' & T3').
  cbv beta in Hcons, Hbytes, Hbytes', Hch, T1', T2, T2', T3, T3'. fold tx rx tx' in Hcons, Hbytes, Hbytes', Hch, T1', T2, T2', T3, T3', C1, Hsat.
  rewrite Hsame in Hbytes'. pose proof (sd_advertised _ _ S4) as Hadv. fold rx in Hadv.
  pose proof (bytes_total_nonneg (map fst (fl_sent st))).
  assert (owed = ss_rx_consumed_bytes rx + cg_initial_window_bytes (tc_config (fl_rx st)) - ss_rx_advertised_limit rx) as Howed by (unfold owed; rewrite Hsat; lia).
  apply (sendv_refused (fl_tx st') tx_connection tx_handle tx_slot sid); [apply (fo_tx _ _ _ _ _ _ _ _ _ Hok')|..]; fold tx' total; try assumption; try lia.
Qed.

End Properties.

(** * What the reactor makes of a message *)

Lemma frames_from_message limits it n : item_ok limits it → is_data it = true → ti_base_flags it = message_flags →
  ∀ pos, ti_message_len it - pos < Z.of_nat n → 0 ≤ pos ≤ ti_message_len it → (pos = ti_message_len it → pos = 0) →
  message_rest (ti_stream_id it) (ti_message_id it) (negb (pos =? 0)) (take (Z.to_nat pos) (item_message it)) (item_message it) (frames_from it pos).
Proof.
  intros Hok Hd Hbf. destruct (io_length _ _ Hok) as [Hl _]. destruct (io_max _ _ Hok) as [Hm _].
  induction n as [|n IH]; intros pos Hn Hpos Hend; [lia|]. rewrite (frames_from_eq it pos) by lia. rewrite Hd. cbn [andb].
  destruct (frame_length_range it pos ltac:(lia) Hpos) as (Hr1 & Hr2 & Hr3).
  assert (f_len (frame_at it pos) = frame_length it pos) as Hfl by (by apply frame_payload_length; [| lia|]).
  assert (fh_payload_len (m_header (frame_at it pos)) = f_len (frame_at it pos)) as Hpl by (rewrite Hfl; reflexivity).
  assert (take (Z.to_nat pos) (item_message it) ++ m_payload (frame_at it pos) = take (Z.to_nat (pos + frame_length it pos)) (item_message it)) as Happ.
  { rewrite Z2Nat.inj_add by lia. apply take_take_drop. }
  assert (f_flags (frame_at it pos) = Z.lor (if negb (pos =? 0) then 0 else TR_FRAME_F_FIRST) (if pos + frame_length it pos =? ti_message_len it then TR_FRAME_F_LAST else 0)) as Hflags.
  { change (f_flags (frame_at it pos)) with (frame_flags it pos). unfold frame_flags. rewrite Hd, Hbf. cbn [negb].
    destruct (pos =? 0), (pos + frame_length it pos =? ti_message_len it); reflexivity. }
  destruct (Z.eqb_spec (pos + frame_length it pos) (ti_message_len it)) as [E|E].
  - destruct (Z.ltb_spec (pos + frame_length it pos) (ti_message_len it)); [lia|].
    replace (item_message it) with (take (Z.to_nat pos) (item_message it) ++ m_payload (frame_at it pos)) at 2
      by (rewrite Happ, E; apply take_ge; unfold alen in Hl; lia).
    by apply rest_last.
  - destruct (Z.ltb_spec (pos + frame_length it pos) (ti_message_len it)); [|lia].
    apply rest_more; [reflexivity|reflexivity|exact Hpl|rewrite Hflags; by destruct (negb _)|]. rewrite Happ.
    assert (pos < ti_message_len it) as Hlt by lia. specialize (Hr3 Hlt).
    replace true with (negb (pos + frame_length it pos =? 0)) by (destruct (Z.eqb_spec (pos + frame_length it pos) 0); [lia|done]).
    apply IH; lia.
Qed.

(** The frames that the reactor sends for a message of [tr_stream_sendv] are [message_frames]. *)
Lemma all_frames_message limits it : item_ok limits it → is_data it = true → ti_base_flags it = message_flags →
  message_frames (ti_stream_id it) (ti_message_id it) (item_message it) (all_frames it).
Proof.
  intros Hok Hd Hbf. destruct (io_length _ _ Hok) as [Hl _]. pose proof (alen_nonneg (item_message it)).
  apply (frames_from_message limits it (S (Z.to_nat (ti_message_len it))) Hok Hd Hbf 0); lia.
Qed.

(** * Two channels *)

(** A stream that the client opened and the server accepted.  Both have a window of 16 bytes and
    take messages of 64 bytes; [peer] is how large the messages are that the client takes. *)
Definition flow_channel (self : Z) (role : tr_channel_role) (peer : Z) : tr_channel :=
  let config := mk_channel_config role TR_CHANNEL_SHARED_CONNECTION 2 16 8 64 true 3 3 1 0 in
  let caps := mk_caps 3 3 8 peer 1 in
  let c := mk_channel self config (mk_links demo_conn demo_conn true true true true caps caps) (first_table 2)
    false false false 1 false false zero_counts [] [] in
  let c := (tr_stream_allocate_locked c 1 TR_LANE_BULK TR_STREAM_SLOT_OPEN).1.2 in
  put_stream c 0 (slot_send (tc_stream c 0) 1 0 16 16).
Definition client_handle : tr_stream_handle := mk_handle 7 0 1.
Definition server_handle : tr_stream_handle := mk_handle 9 0 1.
Definition flow_begin (peer : Z) : flow_state :=
  mk_flow (flow_channel 7 TR_CHANNEL_CLIENT 64) (flow_channel 9 TR_CHANNEL_SERVER peer) [] [] [] [] [] false.

Abbreviation demo_step := (flow_step 1 demo_conn demo_conn client_handle server_handle 0 0).

Lemma flow_begin_ok peer : flow_start 1 demo_conn demo_conn client_handle server_handle 0 0 (flow_begin peer).
Proof.
  split; try (split; vm_compute; first [reflexivity|split; congruence|congruence]); try by split_and!.
Qed.

(** Steps as functions. *)
Definition demo_frame (flags mid : Z) (p : list Z) : msg := mk_msg (mk_frame_header 1 TR_FRAME_DATA flags 1 mid (alen p) 0 0 0) p.
Definition demo_frames (mid : Z) (p : list Z) : list msg :=
  if alen p <=? 8 then [demo_frame 3 mid p] else [demo_frame 1 mid (take 8 p); demo_frame 2 mid (drop 8 p)].
Definition send_next (st : flow_state) (p : list Z) : flow_state :=
  let '(ret, tx) := tr_stream_sendv (fl_tx st) client_handle (Some [Some p]) TR_OK in
  let new := if is_ok ret then [(p, demo_frames (ss_next_tx_message_id (tc_stream (fl_tx st) 0)) p)] else [] in
  mk_flow tx (fl_rx st) (fl_frames st ++ concat (map snd new)) (fl_updates st) (fl_sent st ++ new) (fl_delivered st) (fl_held st) (fl_refused st).
Definition receive_with (acquire : tr_status * Z) (st : flow_state) : flow_state :=
  match fl_frames st with
  | [] => st
  | f :: fs =>
      let '(outcome, rx) := receive_data (fl_rx st) demo_conn f acquire in
      match outcome with
      | Data_message _ payload => mk_flow (fl_tx st) rx fs (fl_updates st) (fl_sent st) (fl_delivered st ++ [payload]) (fl_held st ++ [alen payload]) (fl_refused st)
      | Data_more => mk_flow (fl_tx st) rx fs (fl_updates st) (fl_sent st) (fl_delivered st) (fl_held st) (fl_refused st)
      | Data_fail _ status _ => mk_flow_state (fl_tx st) rx (f :: fs) (fl_updates st) (fl_sent st) (fl_delivered st) (fl_held st) (fl_refused st) (Some (acquire.1, status))
      | _ => mk_flow (fl_tx st) rx fs (fl_updates st) (fl_sent st) (fl_delivered st) (fl_held st) true
      end
  end.
Definition receive_next : flow_state → flow_state := receive_with (TR_OK, 64).
Definition consume_next (st : flow_state) : flow_state :=
  match fl_held st with
  | [] => st
  | len :: held =>
      let rx := consume_data (fl_rx st) server_handle len TR_OK in
      mk_flow (fl_tx st) rx (fl_frames st) (fl_updates st ++ updates_sent (fl_rx st) rx) (fl_sent st) (fl_delivered st) held (fl_refused st)
  end.
Definition demo_update (limit : Z) : msg := mk_msg (mk_frame_header 1 TR_FRAME_WINDOW_UPDATE 0 1 limit 0 0 0 0) [].
Definition update_next (st : flow_state) : flow_state :=
  match fl_updates st with
  | [] => st
  | u :: us =>
      let '(answer, tx) := tr_channel_handle_window_update (fl_tx st) demo_conn (demo_update u) in
      mk_flow tx (fl_rx st) (fl_frames st) us (fl_sent st) (fl_delivered st) (fl_held st) (fl_refused st || negb (bool_decide (answer = Handled TR_OK)))
  end.

Lemma demo_frames_ok mid p : message_frames 1 mid p (demo_frames mid p).
Proof.
  unfold demo_frames, message_frames. destruct (alen p <=? 8).
  - change p with ([] ++ p) at 1. by apply (rest_last 1 mid false [] (demo_frame 3 mid p)).
  - apply rest_more; try done. cbn [app m_payload demo_frame]. rewrite <- (take_drop 8 p) at 2.
    by apply (rest_last 1 mid true (take 8 p) (demo_frame 2 mid (drop 8 p))).
Qed.

Lemma send_next_step st p : fl_failed st = None → demo_step st (send_next st p).
Proof.
  destruct st as [tx rx fs us sent dl held r x]. cbn [fl_failed]. intros ->. unfold send_next. cbn [fl_tx fl_rx fl_frames fl_updates fl_sent fl_delivered fl_held fl_refused].
  destruct (tr_stream_sendv tx client_handle (Some [Some p]) TR_OK) as [ret tx'] eqn:E.
  eapply flow_send; [exact E|]. destruct (is_ok ret); [|done]. eexists _, _. split; [reflexivity|]. split; [|apply demo_frames_ok].
  change (concat (omap id (default [] (Some [Some p])))) with (p ++ []). by rewrite app_nil_r.
Qed.

Lemma receive_with_step acquire st : fl_failed st = None → (acquire.1 = TR_OK → cg_max_message_bytes (tc_config (fl_rx st)) ≤ acquire.2) →
  rtc demo_step st (receive_with acquire st).
Proof.
  destruct st as [tx rx fs us sent dl held r x]. cbn [fl_failed]. intros ->. unfold receive_with. cbn [fl_tx fl_rx fl_frames fl_updates fl_sent fl_delivered fl_held fl_refused]. intros Hcap.
  destruct fs as [|f fs]; [apply rtc_refl|]. destruct (receive_data rx demo_conn f acquire) as [outcome rx'] eqn:E.
  apply rtc_once. by apply (flow_receive _ _ _ _ _ _ _ tx rx f fs us sent dl held r acquire outcome rx').
Qed.

Lemma receive_next_step st : fl_failed st = None → cg_max_message_bytes (tc_config (fl_rx st)) ≤ 64 → rtc demo_step st (receive_next st).
Proof. intros Hf Hcap. by apply receive_with_step. Qed.

Lemma consume_next_step st : fl_failed st = None → rtc demo_step st (consume_next st).
Proof.
  destruct st as [tx rx fs us sent dl held r x]. cbn [fl_failed]. intros ->. unfold consume_next. cbn [fl_tx fl_rx fl_frames fl_updates fl_sent fl_delivered fl_held fl_refused].
  destruct held as [|len held]; [apply rtc_refl|]. apply rtc_once. apply (flow_consume _ _ _ _ _ _ _ tx rx fs us sent dl [] len held r).
  right. by exists TR_OK.
Qed.

Lemma update_next_step st : fl_failed st = None → rtc demo_step st (update_next st).
Proof.
  destruct st as [tx rx fs us sent dl held r x]. cbn [fl_failed]. intros ->. unfold update_next. cbn [fl_tx fl_rx fl_frames fl_updates fl_sent fl_delivered fl_held fl_refused].
  destruct us as [|u us]; [apply rtc_refl|]. destruct (tr_channel_handle_window_update tx demo_conn (demo_update u)) as [answer tx'] eqn:E.
  apply rtc_once. by eapply flow_update; [|exact E].
Qed.

(** A message of ten bytes in two frames, consumed; its update comes back. *)
Definition flow_demo : flow_state :=
  update_next (consume_next (receive_next (receive_next (send_next (flow_begin 64) [1; 2; 3; 4; 5; 6; 7; 8; 9; 10])))).

Lemma flow_demo_run : rtc demo_step (flow_begin 64) flow_demo.
Proof.
  unfold flow_demo. eapply rtc_l; [by apply (send_next_step _ [1; 2; 3; 4; 5; 6; 7; 8; 9; 10])|].
  etransitivity; [apply receive_next_step; vm_compute; congruence|]. etransitivity; [apply receive_next_step; vm_compute; congruence|].
  etransitivity; [apply consume_next_step; vm_compute; reflexivity|]. apply update_next_step. vm_compute. reflexivity.
Qed.




(** Then a message that fills the window may be sent. *)
Lemma stream_flow_live_witness : ∃ c, tr_stream_sendv (fl_tx flow_demo) client_handle (Some [Some (replicate 16 7)]) TR_OK = (TR_OK, c).
Proof.
  apply (stream_flow_live 1 demo_conn demo_conn client_handle server_handle 0 0 (flow_begin 64) flow_demo [replicate 16 7] (flow_begin_ok 64) flow_demo_run);
    try (vm_compute; first [reflexivity|congruence|split; congruence]).
  constructor; [done|constructor].
Defined.

(** ** A stream that stops for ever *)

(** The client takes messages of four bytes and sends larger ones. *)
Definition flow_stalled : flow_state := consume_next (receive_next (send_next (flow_begin 4) [1; 2; 3; 4; 5; 6])).

Lemma flow_stalled_run : rtc demo_step (flow_begin 4) flow_stalled.
Proof.
  unfold flow_stalled. eapply rtc_l; [by apply (send_next_step _ [1; 2; 3; 4; 5; 6])|].
  etransitivity; [apply receive_next_step; vm_compute; congruence|]. apply consume_next_step. vm_compute. reflexivity.
Qed.

(** The server leaves room for the four bytes that the client takes and not for the 16 that the
    client may send: after six bytes, consumed, a message of 16 bytes, which is within the window
    and the server's limit, is refused for ever. *)
Lemma flow_stalls_witness : tr_channel_lane_max_message_locked (fl_tx flow_stalled) TR_LANE_BULK = 64 ∧
  ∀ st', rtc demo_step flow_stalled st' → fl_sent st' = fl_sent flow_stalled → fl_updates st' = [] ∧
    ∀ send_ret, (tr_stream_sendv (fl_tx st') client_handle (Some [Some (replicate 16 7)]) send_ret).1 ≠ TR_OK.
Proof.
  split; [vm_compute; reflexivity|]. intros st' Hmore Hsame.
  destruct (flow_stalls 1 demo_conn demo_conn client_handle server_handle 0 0 (flow_begin 4) flow_stalled st' [replicate 16 7] (flow_begin_ok 4) flow_stalled_run Hmore
    ltac:(vm_compute; reflexivity) ltac:(vm_compute; reflexivity) ltac:(vm_compute; reflexivity) ltac:(vm_compute; reflexivity) ltac:(vm_compute; reflexivity)
    ltac:(vm_compute; split; congruence) ltac:(by constructor) ltac:(vm_compute; congruence) ltac:(vm_compute; congruence) ltac:(vm_compute; congruence)
    ltac:(vm_compute; reflexivity) Hsame) as (H1 & _ & H2).
  split; [exact H1|]. intros send_ret. destruct (H2 send_ret) as (ret & E & Hret & _). cbn [map] in E. by rewrite E.
Defined.
