(* ===== verification/ChannelHello.v ===== *)
(** The handshake of a channel: HELLO and HELLO_ACK of [src/transport/channel/channel.c].

    Each side sends a HELLO with its versions, limits and features, and answers the peer's with
    an ACK.  A side is ready when it has the peer's HELLO or the peer's ACK, whichever comes
    first; a HELLO that arrives before [tr_channel_start] is kept and handled then.  Any other
    frame that arrives before the side is ready aborts the connection.  The handlers take what
    the reactor answers as arguments; the two sides are one connection of two channels, neither
    of which drains or loses it.

    Theorem: whichever way two compatible channels shake hands, nothing is refused, both are
    ready when everything has arrived, and both have agreed: the same version and features,
    and each sends what the other receives. *)
From S2P Require Import Prelude Status Endian Wire MemoryBudget BufferPool Parser StreamIndex ChannelTypes StreamFlow.

(** * The wire format *)

Definition TR_CHANNEL_HELLO_WIRE_SIZE : Z := 32.

(** What a HELLO says. *)
Record channel_hello := mk_hello {
  he_min_version : Z;
  he_max_version : Z;
  he_lane_mask : Z;
  he_max_frame : Z;
  he_max_message : Z;
  he_features : Z
}.

Definition tr_channel_encode_hello (h : channel_hello) : list Z :=
  tr_put_le16 (he_min_version h) ++ tr_put_le16 (he_max_version h) ++ tr_put_le32 (he_lane_mask h) ++
  tr_put_le32 (he_max_frame h) ++ tr_put_le32 (he_max_message h) ++ tr_put_le64 (he_features h) ++ replicate 8 0.

Definition tr_channel_encode_hello_ack (caps : tr_channel_capabilities) : list Z :=
  tr_put_le16 (ca_protocol_version caps) ++ replicate 2 0 ++ tr_put_le32 (ca_lane_mask caps) ++
  tr_put_le32 (ca_max_frame_payload_bytes caps) ++ tr_put_le32 (ca_max_message_bytes caps) ++
  tr_put_le64 (ca_feature_bits caps) ++ replicate 8 0.

Definition tr_channel_decode_hello (data : option (list Z)) : tr_status * option channel_hello :=
  match data with
  | None => (TR_ERR_BAD_LENGTH, None)
  | Some data =>
      bail (TR_ERR_BAD_LENGTH, None) when (negb (alen data =? TR_CHANNEL_HELLO_WIRE_SIZE)) ;;
      let h := mk_hello (tr_get_le16 data) (tr_get_le16 (at_off data 2)) (tr_get_le32 (at_off data 4)) (tr_get_le32 (at_off data 8))
        (tr_get_le32 (at_off data 12)) (tr_get_le64 (at_off data 16)) in
      bail (TR_ERR_RESERVED, Some h) when (negb (tr_get_le64 (at_off data 24) =? 0)) ;;
      (TR_OK, Some h)
  end.

Definition tr_channel_decode_hello_ack (data : option (list Z)) : tr_status * option tr_channel_capabilities :=
  match data with
  | None => (TR_ERR_BAD_LENGTH, None)
  | Some data =>
      bail (TR_ERR_BAD_LENGTH, None) when (negb (alen data =? TR_CHANNEL_HELLO_WIRE_SIZE)) ;;
      bail (TR_ERR_RESERVED, None) when (negb (tr_get_le16 (at_off data 2) =? 0) || negb (tr_get_le64 (at_off data 24) =? 0)) ;;
      (TR_OK, Some (mk_caps (tr_get_le16 data) (tr_get_le32 (at_off data 4)) (tr_get_le32 (at_off data 8)) (tr_get_le32 (at_off data 12))
        (tr_get_le64 (at_off data 16))))
  end.

(** * One side *)

Definition tr_channel_connection_lane_mask_locked (c : tr_channel) (connection : tr_conn_handle) : Z :=
  let mask := if tr_conn_equal (lk_control_connection (tc_links c)) connection then Z.lor 0 TR_CHANNEL_LANE_MASK_CONTROL else 0 in
  if tr_conn_equal (lk_bulk_connection (tc_links c)) connection then Z.lor mask TR_CHANNEL_LANE_MASK_BULK else mask.

Definition tr_channel_connection_ready_locked (c : tr_channel) (connection : tr_conn_handle) : bool :=
  let mask := tr_channel_connection_lane_mask_locked c connection in
  bail false when (mask =? 0) ;;
  bail false when (negb (Z.land mask TR_CHANNEL_LANE_MASK_CONTROL =? 0) && negb (lk_control_ready (tc_links c))) ;;
  bail false when (negb (Z.land mask TR_CHANNEL_LANE_MASK_BULK =? 0) && negb (lk_bulk_ready (tc_links c))) ;;
  true.

Definition tr_channel_local_max_message (c : tr_channel) (max_frame_payload : Z) : Z :=
  if cg_max_message_bytes (tc_config c) =? 0 then max_frame_payload else cg_max_message_bytes (tc_config c).

(** [limits]: the answer of [tr_reactor_get_limits], and [max_payload_len]. *)
Definition tr_channel_local_capabilities (c : tr_channel) (connection : tr_conn_handle) (limits : tr_status * Z)
    : tr_status * tr_channel_capabilities :=
  bail (limits.1, zero_caps) when (negb (is_ok limits.1)) ;;
  let caps := mk_caps (cg_max_protocol_version (tc_config c)) (tr_channel_connection_lane_mask_locked c connection) limits.2
    (tr_channel_local_max_message c limits.2) (cg_feature_bits (tc_config c)) in
  (if (ca_lane_mask caps =? 0) || (ca_max_frame_payload_bytes caps =? 0) || (ca_max_message_bytes caps =? 0) then TR_ERR_STATE else TR_OK, caps).

(** A message to the peer.  [acquire]: the answer of [tr_channel_protocol_buffer_acquire];
    [send_ret]: that of [tr_reactor_send]. *)
Definition send_protocol (c : tr_channel) (connection : tr_conn_handle) (type : Z) (payload : list Z) (acquire send_ret : tr_status) : tr_status * tr_channel :=
  bail (acquire, c) when (negb (is_ok acquire)) ;;
  (send_ret, if is_ok send_ret then add_sent c (mk_sent connection type 0 0 0 payload 0) else c).

Definition local_hello (c : tr_channel) (local : tr_channel_capabilities) : channel_hello :=
  mk_hello (cg_min_protocol_version (tc_config c)) (cg_max_protocol_version (tc_config c)) (ca_lane_mask local)
    (ca_max_frame_payload_bytes local) (ca_max_message_bytes local) (ca_feature_bits local).

Definition tr_channel_send_hello (c : tr_channel) (connection : tr_conn_handle) (limits : tr_status * Z) (acquire send_ret : tr_status) : tr_status * tr_channel :=
  let '(ret, local) := tr_channel_local_capabilities c connection limits in
  bail (ret, c) when (negb (is_ok ret)) ;;
  send_protocol c connection TR_FRAME_HELLO (tr_channel_encode_hello (local_hello c local)) acquire send_ret.

Definition tr_channel_send_hello_ack (c : tr_channel) (connection : tr_conn_handle) (caps : tr_channel_capabilities) (acquire send_ret : tr_status) : tr_status * tr_channel :=
  send_protocol c connection TR_FRAME_HELLO_ACK (tr_channel_encode_hello_ack caps) acquire send_ret.

(** The lanes of [lane_mask] that were not ready are, and are told. *)
Definition tr_channel_set_caps_locked (c : tr_channel) (lane_mask : Z) (caps : tr_channel_capabilities) : tr_channel * bool * bool :=
  let l := tc_links c in
  let control_up := negb (Z.land lane_mask TR_CHANNEL_LANE_MASK_CONTROL =? 0) && negb (lk_control_ready l) in
  let bulk_up := negb (Z.land lane_mask TR_CHANNEL_LANE_MASK_BULK =? 0) && negb (lk_bulk_ready l) in
  let l := mk_links (lk_control_connection l) (lk_bulk_connection l) (lk_control_alive l) (lk_bulk_alive l)
    (lk_control_ready l || control_up) (lk_bulk_ready l || bulk_up)
    (if control_up then caps else lk_control_caps l) (if bulk_up then caps else lk_bulk_caps l) in
  (mk_channel (tc_self c) (tc_config c) l (tc_table c) (tc_local_draining c) (tc_control_peer_draining c)
    (tc_bulk_peer_draining c) (tc_next_local_stream_id c) (tc_window_retry_pending c) (tc_reset_retry_pending c)
    (tc_counts c) (tc_sent c) (tc_told c), control_up, bulk_up).

Definition tell_up (r : tr_channel * bool * bool) : tr_channel :=
  let '(c, control_up, bulk_up) := r in
  let c := if control_up then add_told c (Told_channel TR_CHANNEL_EVENT_CONTROL_UP TR_OK) else c in
  if bulk_up then add_told c (Told_channel TR_CHANNEL_EVENT_BULK_UP TR_OK) else c.

Definition frame_empty (f : msg) : bool := f_len f =? 0.
Definition not_handshake (f : msg) : bool :=
  frame_empty f || negb (fh_stream_id (m_header f) =? 0) || negb (fh_message_id (m_header f) =? 0) || negb (f_flags f =? 0).

(** [goaway]: [tr_channel_send_pending_goaway_on_owner]. *)
Section Handlers.
Context (limits : tr_status * Z) (acquire send_ret : tr_status) (goaway : tr_channel → tr_channel).

Definition tr_channel_handle_hello (c : tr_channel) (connection : tr_conn_handle) (f : msg) : handled * tr_channel :=
  bail (Protocol_error TR_ERR_STATE, c) when (not_handshake f) ;;
  match tr_channel_decode_hello (Some (m_payload f)) with
  | (TR_OK, Some peer) =>
      let '(ret, local) := tr_channel_local_capabilities c connection limits in
      bail (Protocol_error ret, c) when (negb (is_ok ret)) ;;
      let config := tc_config c in
      let expected_lane_mask := ca_lane_mask local in
      bail (Protocol_error TR_ERR_UNSUPPORTED, c) when ((he_min_version peer =? 0) || (he_max_version peer =? 0) ||
        (he_min_version peer >? he_max_version peer) || negb (he_lane_mask peer =? expected_lane_mask) ||
        (he_max_frame peer =? 0) || (he_max_message peer =? 0)) ;;
      let low := if he_min_version peer >? cg_min_protocol_version config then he_min_version peer else cg_min_protocol_version config in
      let high := if he_max_version peer <? cg_max_protocol_version config then he_max_version peer else cg_max_protocol_version config in
      bail (Protocol_error TR_ERR_BAD_VERSION, c) when (low >? high) ;;
      let negotiated := mk_caps high expected_lane_mask
        (if he_max_frame peer <? ca_max_frame_payload_bytes local then he_max_frame peer else ca_max_frame_payload_bytes local)
        (he_max_message peer) (Z.land (he_features peer) (ca_feature_bits local)) in
      bail (Protocol_error TR_ERR_UNSUPPORTED, c) when ((ca_max_frame_payload_bytes negotiated =? 0) || (ca_max_message_bytes negotiated =? 0) ||
        negb (Z.land (ca_feature_bits negotiated) (cg_required_feature_bits config) =? cg_required_feature_bits config)) ;;
      let idx := tr_channel_keepalive_index_for_connection c connection in
      bail (Protocol_error TR_ERR_STATE, c) when ((idx >=? 0) && dn_goaway_accepted (tb_drain (tc_table c)).[idx]) ;;
      let ack_caps := mk_caps high (ca_lane_mask local) (ca_max_frame_payload_bytes local) (ca_max_message_bytes local) (ca_feature_bits negotiated) in
      let '(ret, c) := tr_channel_send_hello_ack c connection ack_caps acquire send_ret in
      bail (Protocol_error ret, c) when (negb (is_ok ret)) ;;
      (Handled TR_OK, goaway (tell_up (tr_channel_set_caps_locked c expected_lane_mask negotiated)))
  | (ret, _) => (Protocol_error ret, c)
  end.

Definition tr_channel_handle_hello_ack (c : tr_channel) (connection : tr_conn_handle) (f : msg) : handled * tr_channel :=
  bail (Protocol_error TR_ERR_STATE, c) when (not_handshake f) ;;
  match tr_channel_decode_hello_ack (Some (m_payload f)) with
  | (TR_OK, Some caps) =>
      let '(ret, local) := tr_channel_local_capabilities c connection limits in
      bail (Protocol_error ret, c) when (negb (is_ok ret)) ;;
      let config := tc_config c in
      bail (Protocol_error TR_ERR_UNSUPPORTED, c) when ((ca_protocol_version caps <? cg_min_protocol_version config) ||
        (ca_protocol_version caps >? cg_max_protocol_version config) || negb (ca_lane_mask caps =? ca_lane_mask local) ||
        (ca_max_frame_payload_bytes caps =? 0) || (ca_max_message_bytes caps =? 0) ||
        negb (Z.land (ca_feature_bits caps) (u64 (Z.lnot (ca_feature_bits local))) =? 0) ||
        negb (Z.land (ca_feature_bits caps) (cg_required_feature_bits config) =? cg_required_feature_bits config)) ;;
      let caps := mk_caps (ca_protocol_version caps) (ca_lane_mask caps)
        (if ca_max_frame_payload_bytes caps >? ca_max_frame_payload_bytes local then ca_max_frame_payload_bytes local else ca_max_frame_payload_bytes caps)
        (ca_max_message_bytes caps) (ca_feature_bits caps) in
      (Handled TR_OK, goaway (tell_up (tr_channel_set_caps_locked c (ca_lane_mask local) caps)))
  | (ret, _) => (Protocol_error ret, c)
  end.

End Handlers.

(** * Two sides of a connection *)

(** The frame that the peer gets of a message without slices to cut. *)
Definition wire_frame (m : tr_sent) : msg :=
  mk_msg (mk_frame_header TR_WIRE_ENV_VERSION (sn_type m) (sn_flags m) (sn_stream_id m) (sn_message_id m) (alen (sn_payload m)) 0 0 0) (sn_payload m).
Definition frames_sent (c c' : tr_channel) : list msg := map wire_frame (drop (length (tc_sent c)) (tc_sent c')).

(** Where [tr_channel_start] is for the connection: [handshake_started] is false, and a HELLO
    that came early is in [pending_hello]; a HELLO that was taken from there is to be replayed;
    the own HELLO is to be sent; it has been sent. *)
Inductive start_phase := Not_started (pending : option (list Z)) | Replaying (payload : list Z) | Sending | Started.

(** [hs_out]: the frames on their way to the peer; [hs_aborted]: whether the connection was
    aborted. *)
Record hello_side := mk_side {
  hs_channel : tr_channel;
  hs_phase : start_phase;
  hs_out : list msg;
  hs_aborted : bool
}.

Definition is_handshake (f : msg) : bool :=
  (fh_type (m_header f) =? TR_FRAME_HELLO) || (fh_type (m_header f) =? TR_FRAME_HELLO_ACK).

Definition handled_ok (h : handled) : bool := bool_decide (h = Handled TR_OK).

(** [mine]: the connection; [max_payload]: the reactor's limit. *)
Section Side.
Context (mine : tr_conn_handle) (max_payload : Z).

Definition side_handle (s : hello_side) (r : handled * tr_channel) : hello_side :=
  mk_side r.2 (hs_phase s) (hs_out s ++ frames_sent (hs_channel s) r.2) (hs_aborted s || negb (handled_ok r.1)).

(** What the reactor answers is [TR_OK], and no GOAWAY waits to be sent. *)
Definition on_hello (c : tr_channel) (f : msg) : handled * tr_channel :=
  tr_channel_handle_hello (TR_OK, max_payload) TR_OK TR_OK (λ c, c) c mine f.
Definition on_hello_ack (c : tr_channel) (f : msg) : handled * tr_channel :=
  tr_channel_handle_hello_ack (TR_OK, max_payload) (λ c, c) c mine f.

(** A HELLO before the start is kept; [None] when the frame is to be handled. *)
Definition tr_channel_defer_hello_before_start (s : hello_side) (f : msg) : option hello_side :=
  match hs_phase s with
  | Not_started _ =>
      let bad := (tr_channel_keepalive_index_for_connection (hs_channel s) mine <? 0) || not_handshake f ||
        negb (f_len f =? TR_CHANNEL_HELLO_WIRE_SIZE) in
      Some (if bad then mk_side (hs_channel s) (hs_phase s) (hs_out s) true
            else mk_side (hs_channel s) (Not_started (Some (m_payload f))) (hs_out s) (hs_aborted s))
  | _ => None
  end.

(** The handshake's part of [tr_channel_on_frame]; other frames of a connection that is ready
    go on to their handlers. *)
Definition tr_channel_on_frame (s : hello_side) (f : msg) : hello_side :=
  let c := hs_channel s in
  match (if fh_type (m_header f) =? TR_FRAME_HELLO then tr_channel_defer_hello_before_start s f else None) with
  | Some s => s
  | None =>
      if fh_type (m_header f) =? TR_FRAME_HELLO then side_handle s (on_hello c f)
      else if fh_type (m_header f) =? TR_FRAME_HELLO_ACK then side_handle s (on_hello_ack c f)
      else if tr_channel_connection_ready_locked c mine then s
      else side_handle s (Protocol_error TR_ERR_STATE, c)
  end.

Definition tr_channel_connection_alive_locked (c : tr_channel) : bool :=
  (tr_conn_equal (lk_control_connection (tc_links c)) mine && lk_control_alive (tc_links c)) ||
  (tr_conn_equal (lk_bulk_connection (tc_links c)) mine && lk_bulk_alive (tc_links c)).

(** The frame is made again of its payload. *)
Definition replayed_frame (payload : list Z) : msg :=
  mk_msg (mk_frame_header TR_WIRE_ENV_VERSION TR_FRAME_HELLO 0 0 0 TR_CHANNEL_HELLO_WIRE_SIZE 0 0 0) payload.

Definition tr_channel_process_pending_hello_on_owner (s : hello_side) (payload : list Z) : hello_side :=
  bail s when (negb (tr_channel_connection_alive_locked (hs_channel s))) ;;
  side_handle s (on_hello (hs_channel s) (replayed_frame payload)).

Definition set_phase (s : hello_side) (phase : start_phase) : hello_side :=
  mk_side (hs_channel s) phase (hs_out s) (hs_aborted s).

(** [tr_channel_start], for the connection, in the steps that other threads can come between. *)
Definition start_begin (s : hello_side) : hello_side :=
  match hs_phase s with
  | Not_started None => set_phase s Sending
  | Not_started (Some payload) => set_phase s (Replaying payload)
  | _ => s
  end.
Definition start_replay (s : hello_side) : hello_side :=
  match hs_phase s with
  | Replaying payload => set_phase (tr_channel_process_pending_hello_on_owner s payload) Sending
  | _ => s
  end.
Definition start_send (s : hello_side) : hello_side :=
  match hs_phase s with
  | Sending =>
      let '(ret, c) := tr_channel_send_hello (hs_channel s) mine (TR_OK, max_payload) TR_OK TR_OK in
      set_phase (side_handle s (Handled ret, c)) Started
  | _ => s
  end.

End Side.

(** Messages that a side sends once it is ready. *)
Definition send_other (s : hello_side) (f : msg) : hello_side :=
  mk_side (hs_channel s) (hs_phase s) (hs_out s ++ [f]) (hs_aborted s).
Definition take_out (s : hello_side) (fs : list msg) : hello_side :=
  mk_side (hs_channel s) (hs_phase s) fs (hs_aborted s).

Definition side_ready (mine : tr_conn_handle) (s : hello_side) : bool :=
  tr_channel_connection_ready_locked (hs_channel s) mine.

(** One side moves: it goes on with its start, sends a frame that is not of the handshake, or
    gets the next frame of the other. *)
Inductive side_step (mine : tr_conn_handle) (max_payload : Z) : hello_side → hello_side → hello_side → hello_side → Prop :=
| step_begin s peer : side_step mine max_payload s peer (start_begin s) peer
| step_replay s peer : side_step mine max_payload s peer (start_replay mine max_payload s) peer
| step_send s peer : side_step mine max_payload s peer (start_send mine max_payload s) peer
| step_other s peer f : side_ready mine s = true → is_handshake f = false →
    side_step mine max_payload s peer (send_other s f) peer
| step_frame s peer f fs : hs_out peer = f :: fs → side_step mine max_payload s peer (tr_channel_on_frame mine max_payload s f) (take_out peer fs).

Inductive hello_step (mine yours : tr_conn_handle) (la lb : Z) : hello_side * hello_side → hello_side * hello_side → Prop :=
| hello_left a b a' b' : side_step mine la a b a' b' → hello_step mine yours la lb (a, b) (a', b')
| hello_right a b a' b' : side_step yours lb b a b' a' → hello_step mine yours la lb (a, b) (a', b').

(** ** What the two agree on *)

(** A channel as [tr_channel_create_deferred] leaves it, whose reactor takes frames of [max_payload] bytes. *)
Record hello_channel_ok (c : tr_channel) (mine : tr_conn_handle) (max_payload : Z) : Prop := {
  hc_versions : 0 < cg_min_protocol_version (tc_config c) ≤ cg_max_protocol_version (tc_config c) ∧ u16_ok (cg_max_protocol_version (tc_config c));
  hc_limits : 0 < max_payload < 2 ^ 32 ∧ 0 ≤ cg_max_message_bytes (tc_config c) < 2 ^ 32;
  hc_features : u64_ok (cg_feature_bits (tc_config c));
  hc_mask : tr_channel_connection_lane_mask_locked c mine ≠ 0;
  hc_alive : tr_channel_connection_alive_locked mine c = true;
  hc_goaway : ∀ idx, dn_goaway_accepted (tb_drain (tc_table c)).[idx] = false;
  hc_links : lk_control_ready (tc_links c) = false ∧ lk_bulk_ready (tc_links c) = false
}.

Definition common_features (a b : tr_channel) : Z := Z.land (cg_feature_bits (tc_config a)) (cg_feature_bits (tc_config b)).
Definition has_required (c : tr_channel) (features : Z) : Prop :=
  Z.land features (cg_required_feature_bits (tc_config c)) = cg_required_feature_bits (tc_config c).

Definition compatible (a b : tr_channel) (mine yours : tr_conn_handle) : Prop :=
  tr_channel_connection_lane_mask_locked a mine = tr_channel_connection_lane_mask_locked b yours ∧
  cg_min_protocol_version (tc_config a) ≤ cg_max_protocol_version (tc_config b) ∧
  cg_min_protocol_version (tc_config b) ≤ cg_max_protocol_version (tc_config a) ∧
  has_required a (common_features a b) ∧ has_required b (common_features a b).

(** What [a] knows of [b] after the handshake. *)
Definition agreed (a b : tr_channel) (mine : tr_conn_handle) (la lb : Z) : tr_channel_capabilities :=
  mk_caps (Z.min (cg_max_protocol_version (tc_config a)) (cg_max_protocol_version (tc_config b)))
    (tr_channel_connection_lane_mask_locked a mine) (Z.min la lb) (tr_channel_local_max_message b lb) (common_features a b).

(** * Lemmas: the codec *)

Record hello_values (h : channel_hello) : Prop := {
  hv_versions : u16_ok (he_min_version h) ∧ u16_ok (he_max_version h);
  hv_words : u32_ok (he_lane_mask h) ∧ u32_ok (he_max_frame h) ∧ u32_ok (he_max_message h);
  hv_features : u64_ok (he_features h)
}.

Lemma zeros_ok n : bytes_ok (replicate n 0).
Proof. apply Forall_replicate. unfold u8_ok. lia. Qed.

(** A HELLO is decoded to what was encoded. *)
Lemma decode_encode_hello h : hello_values h →
  tr_channel_decode_hello (Some (tr_channel_encode_hello h)) = (TR_OK, Some h) ∧ alen (tr_channel_encode_hello h) = TR_CHANNEL_HELLO_WIRE_SIZE.
Proof.
  intros [[V1 V2] (W1 & W2 & W3) F]. split; [|reflexivity]. unfold tr_channel_decode_hello.
  change (alen (tr_channel_encode_hello h) =? TR_CHANNEL_HELLO_WIRE_SIZE) with true. cbn [negb].
  change (at_off (tr_channel_encode_hello h) 2) with (tr_put_le16 (he_max_version h) ++ tr_put_le32 (he_lane_mask h) ++
    tr_put_le32 (he_max_frame h) ++ tr_put_le32 (he_max_message h) ++ tr_put_le64 (he_features h) ++ replicate 8 0).
  change (at_off (tr_channel_encode_hello h) 4) with (tr_put_le32 (he_lane_mask h) ++
    tr_put_le32 (he_max_frame h) ++ tr_put_le32 (he_max_message h) ++ tr_put_le64 (he_features h) ++ replicate 8 0).
  change (at_off (tr_channel_encode_hello h) 8) with (tr_put_le32 (he_max_frame h) ++ tr_put_le32 (he_max_message h) ++ tr_put_le64 (he_features h) ++ replicate 8 0).
  change (at_off (tr_channel_encode_hello h) 12) with (tr_put_le32 (he_max_message h) ++ tr_put_le64 (he_features h) ++ replicate 8 0).
  change (at_off (tr_channel_encode_hello h) 16) with (tr_put_le64 (he_features h) ++ replicate 8 0).
  change (tr_get_le64 (at_off (tr_channel_encode_hello h) 24) =? 0) with true. cbn [negb]. unfold tr_channel_encode_hello.
  rewrite !get_put_le16, !get_put_le32, get_put_le64 by (first [assumption|repeat (apply bytes_ok_app; [first [apply bytes_ok_put_le16|apply bytes_ok_put_le32|apply bytes_ok_put_le64]|]); apply zeros_ok]).
  by destruct h.
Qed.

Record caps_values (h : tr_channel_capabilities) : Prop := {
  cv_version : u16_ok (ca_protocol_version h);
  cv_words : u32_ok (ca_lane_mask h) ∧ u32_ok (ca_max_frame_payload_bytes h) ∧ u32_ok (ca_max_message_bytes h);
  cv_features : u64_ok (ca_feature_bits h)
}.

Lemma decode_encode_hello_ack h : caps_values h →
  tr_channel_decode_hello_ack (Some (tr_channel_encode_hello_ack h)) = (TR_OK, Some h) ∧ alen (tr_channel_encode_hello_ack h) = TR_CHANNEL_HELLO_WIRE_SIZE.
Proof.
  intros [V (W1 & W2 & W3) F]. split; [|reflexivity]. unfold tr_channel_decode_hello_ack.
  change (alen (tr_channel_encode_hello_ack h) =? TR_CHANNEL_HELLO_WIRE_SIZE) with true. cbn [negb].
  change (tr_get_le16 (at_off (tr_channel_encode_hello_ack h) 2) =? 0) with true.
  change (tr_get_le64 (at_off (tr_channel_encode_hello_ack h) 24) =? 0) with true. cbn [negb orb].
  change (at_off (tr_channel_encode_hello_ack h) 4) with (tr_put_le32 (ca_lane_mask h) ++
    tr_put_le32 (ca_max_frame_payload_bytes h) ++ tr_put_le32 (ca_max_message_bytes h) ++ tr_put_le64 (ca_feature_bits h) ++ replicate 8 0).
  change (at_off (tr_channel_encode_hello_ack h) 8) with (tr_put_le32 (ca_max_frame_payload_bytes h) ++ tr_put_le32 (ca_max_message_bytes h) ++ tr_put_le64 (ca_feature_bits h) ++ replicate 8 0).
  change (at_off (tr_channel_encode_hello_ack h) 12) with (tr_put_le32 (ca_max_message_bytes h) ++ tr_put_le64 (ca_feature_bits h) ++ replicate 8 0).
  change (at_off (tr_channel_encode_hello_ack h) 16) with (tr_put_le64 (ca_feature_bits h) ++ replicate 8 0). unfold tr_channel_encode_hello_ack.
  rewrite !get_put_le16, !get_put_le32, get_put_le64 by (first [assumption|repeat (apply bytes_ok_app; [first [apply zeros_ok|apply bytes_ok_put_le16|apply bytes_ok_put_le32|apply bytes_ok_put_le64]|]); apply zeros_ok]).
  by destruct h.
Qed.

(** * Lemmas: what the handshake leaves of a channel *)

(** What it does not change. *)
Record same_channel (c0 c : tr_channel) : Prop := {
  sc_config : tc_config c = tc_config c0;
  sc_table : tc_table c = tc_table c0;
  sc_connections : lk_control_connection (tc_links c) = lk_control_connection (tc_links c0) ∧
    lk_bulk_connection (tc_links c) = lk_bulk_connection (tc_links c0);
  sc_alive : lk_control_alive (tc_links c) = lk_control_alive (tc_links c0) ∧ lk_bulk_alive (tc_links c) = lk_bulk_alive (tc_links c0)
}.

(** The lanes of [mask] are all ready, and with [caps], or none is. *)
Record lanes_are (c : tr_channel) (mask : Z) (ready : bool) (caps : tr_channel_capabilities) : Prop := {
  la_control : Z.land mask TR_CHANNEL_LANE_MASK_CONTROL ≠ 0 →
    lk_control_ready (tc_links c) = ready ∧ (ready = true → lk_control_caps (tc_links c) = caps);
  la_bulk : Z.land mask TR_CHANNEL_LANE_MASK_BULK ≠ 0 →
    lk_bulk_ready (tc_links c) = ready ∧ (ready = true → lk_bulk_caps (tc_links c) = caps)
}.

Lemma same_channel_refl c : same_channel c c.
Proof. split; auto. Qed.

Lemma same_channel_trans a b c : same_channel a b → same_channel b c → same_channel a c.
Proof. intros [A1 A2 [A3 A4] [A5 A6]] [B1 B2 [B3 B4] [B5 B6]]. split; [congruence|congruence|split; congruence|split; congruence]. Qed.

Section Same.
Context (c0 c : tr_channel) (S : same_channel c0 c).

Lemma same_mask mine : tr_channel_connection_lane_mask_locked c mine = tr_channel_connection_lane_mask_locked c0 mine.
Proof. unfold tr_channel_connection_lane_mask_locked. by rewrite (proj1 (sc_connections _ _ S)), (proj2 (sc_connections _ _ S)). Qed.

Lemma same_local mine l : tr_channel_local_capabilities c mine l = tr_channel_local_capabilities c0 mine l.
Proof. unfold tr_channel_local_capabilities, tr_channel_local_max_message. by rewrite same_mask, (sc_config _ _ S). Qed.

Lemma same_index mine : tr_channel_keepalive_index_for_connection c mine = tr_channel_keepalive_index_for_connection c0 mine.
Proof. unfold tr_channel_keepalive_index_for_connection. by rewrite (proj1 (sc_connections _ _ S)), (proj2 (sc_connections _ _ S)). Qed.

Lemma same_alive mine : tr_channel_connection_alive_locked mine c = tr_channel_connection_alive_locked mine c0.
Proof.
  unfold tr_channel_connection_alive_locked.
  by rewrite (proj1 (sc_connections _ _ S)), (proj2 (sc_connections _ _ S)), (proj1 (sc_alive _ _ S)), (proj2 (sc_alive _ _ S)).
Qed.

End Same.

Lemma mask_cases c mine : tr_channel_connection_lane_mask_locked c mine = 0 ∨ tr_channel_connection_lane_mask_locked c mine = 1 ∨
  tr_channel_connection_lane_mask_locked c mine = 2 ∨ tr_channel_connection_lane_mask_locked c mine = 3.
Proof. unfold tr_channel_connection_lane_mask_locked. repeat case_match; cbn; auto. Qed.

Lemma mask_has_lane c mine : tr_channel_connection_lane_mask_locked c mine ≠ 0 →
  Z.land (tr_channel_connection_lane_mask_locked c mine) TR_CHANNEL_LANE_MASK_CONTROL ≠ 0 ∨
  Z.land (tr_channel_connection_lane_mask_locked c mine) TR_CHANNEL_LANE_MASK_BULK ≠ 0.
Proof. intros H. destruct (mask_cases c mine) as [E|[E|[E|E]]]; rewrite E in H |- *; [by destruct H|left|right|left]; discriminate. Qed.

Lemma eqb_not_zero z : z ≠ 0 → (z =? 0) = false.
Proof. lia. Qed.

(** A connection is ready when its lanes are. *)
Lemma lanes_ready c mine ready caps : tr_channel_connection_lane_mask_locked c mine ≠ 0 →
  lanes_are c (tr_channel_connection_lane_mask_locked c mine) ready caps → tr_channel_connection_ready_locked c mine = ready.
Proof.
  intros M [C B]. unfold tr_channel_connection_ready_locked. rewrite (eqb_not_zero _ M).
  destruct (mask_has_lane _ _ M) as [L|L].
  - rewrite (eqb_not_zero _ L), (proj1 (C L)). destruct ready; [|reflexivity]. cbn [negb andb].
    destruct (Z.land _ TR_CHANNEL_LANE_MASK_BULK =? 0) eqn:E; [reflexivity|]. apply Z.eqb_neq in E. by rewrite (proj1 (B E)).
  - rewrite (eqb_not_zero _ L), (proj1 (B L)). destruct ready; cbn [negb andb].
    + destruct (Z.land _ TR_CHANNEL_LANE_MASK_CONTROL =? 0) eqn:E; [reflexivity|]. apply Z.eqb_neq in E. by rewrite (proj1 (C E)).
    + by destruct (negb _ && _).
Qed.

Lemma told_same c n : same_channel c (add_told c n) ∧ tc_links (add_told c n) = tc_links c ∧ tc_sent (add_told c n) = tc_sent c.
Proof. repeat split. Qed.

Lemma tell_up_same c x y : same_channel c (tell_up (c, x, y)) ∧ tc_links (tell_up (c, x, y)) = tc_links c ∧ tc_sent (tell_up (c, x, y)) = tc_sent c.
Proof. destruct x, y; repeat split. Qed.

(** The lanes of [mask] have [caps] if they were not ready before, and what they had otherwise. *)
Lemma set_caps_spec c mask caps ready : lanes_are c mask ready caps →
  let c' := tell_up (tr_channel_set_caps_locked c mask caps) in
  same_channel c c' ∧ lanes_are c' mask true caps ∧ tc_sent c' = tc_sent c.
Proof.
  intros [C B]. unfold tr_channel_set_caps_locked. cbv zeta.
  destruct (tell_up_same (tr_channel_set_caps_locked c mask caps).1.1 (tr_channel_set_caps_locked c mask caps).1.2
    (tr_channel_set_caps_locked c mask caps).2) as (S & L & T).
  split; [|split]; [|split|].
  - eapply same_channel_trans; [|exact S]. repeat split.
  - intros H. specialize (C H). unfold tr_channel_set_caps_locked in L. cbn [fst snd] in L. rewrite L. cbn.
    rewrite (eqb_not_zero _ H). cbn. destruct ready; destruct C as [C1 C2]; rewrite C1; cbn; auto.
  - intros H. specialize (B H). unfold tr_channel_set_caps_locked in L. cbn [fst snd] in L. rewrite L. cbn.
    rewrite (eqb_not_zero _ H). cbn. destruct ready; destruct B as [B1 B2]; rewrite B1; cbn; auto.
  - exact T.
Qed.

(** * Lemmas: the frames of the handshake *)

Definition local_of (c : tr_channel) (mine : tr_conn_handle) (max_payload : Z) : tr_channel_capabilities :=
  mk_caps (cg_max_protocol_version (tc_config c)) (tr_channel_connection_lane_mask_locked c mine) max_payload
    (tr_channel_local_max_message c max_payload) (cg_feature_bits (tc_config c)).
Definition hello_of (c : tr_channel) (mine : tr_conn_handle) (max_payload : Z) : channel_hello := local_hello c (local_of c mine max_payload).
Definition ack_of (c peer : tr_channel) (mine : tr_conn_handle) (max_payload : Z) : tr_channel_capabilities :=
  mk_caps (Z.min (cg_max_protocol_version (tc_config c)) (cg_max_protocol_version (tc_config peer)))
    (tr_channel_connection_lane_mask_locked c mine) max_payload (tr_channel_local_max_message c max_payload) (common_features c peer).

Definition hello_frame (c : tr_channel) (mine : tr_conn_handle) (max_payload : Z) : msg :=
  replayed_frame (tr_channel_encode_hello (hello_of c mine max_payload)).
Definition ack_frame (c peer : tr_channel) (mine : tr_conn_handle) (max_payload : Z) : msg :=
  wire_frame (mk_sent mine TR_FRAME_HELLO_ACK 0 0 0 (tr_channel_encode_hello_ack (ack_of c peer mine max_payload)) 0).

Lemma mask_values c mine : 0 ≤ tr_channel_connection_lane_mask_locked c mine < 4.
Proof. destruct (mask_cases c mine) as [E|[E|[E|E]]]; rewrite E; lia. Qed.

Lemma max_message_values c mine l : hello_channel_ok c mine l → 0 < tr_channel_local_max_message c l < 2 ^ 32.
Proof. intros H. destruct (hc_limits _ _ _ H). unfold tr_channel_local_max_message. destruct (_ =? 0) eqn:E; lia. Qed.

Lemma land_u64 a b : u64_ok a → u64_ok b → u64_ok (Z.land a b).
Proof.
  unfold u64_ok. intros A B. split; [apply Z.land_nonneg; lia|].
  replace (Z.land a b) with (Z.land a b mod 2 ^ 64); [apply Z.mod_pos_bound; lia|].
  apply Z.bits_inj'. intros n Hn. rewrite !Z.testbit_mod_pow2, Z.land_spec by lia.
  destruct (Z.ltb_spec n 64) as [|G]; [reflexivity|]. cbn [andb].
  rewrite <- (Z.mod_small b (2 ^ 64)) by lia. rewrite Z.testbit_mod_pow2 by lia. apply Z.ltb_ge in G. by rewrite G, andb_false_r.
Qed.

(** Features taken from both are among those of either. *)
Lemma land_lnot a b : u64_ok b → Z.land (Z.land a b) (u64 (Z.lnot b)) = 0.
Proof.
  intros B. apply Z.bits_inj'. intros n Hn. unfold u64. rewrite !Z.land_spec, Z.testbit_mod_pow2, Z.lnot_spec, Z.bits_0 by lia.
  destruct (Z.testbit a n), (Z.testbit b n), (n <? 64); reflexivity.
Qed.

Section Own.
Context (c : tr_channel) (mine : tr_conn_handle) (l : Z) (H : hello_channel_ok c mine l).

Lemma local_capabilities_ok : tr_channel_local_capabilities c mine (TR_OK, l) = (TR_OK, local_of c mine l).
Proof.
  unfold tr_channel_local_capabilities. cbn [fst snd is_ok negb]. fold (local_of c mine l). cbn [ca_lane_mask ca_max_frame_payload_bytes ca_max_message_bytes local_of].
  pose proof (max_message_values _ _ _ H). destruct (hc_limits _ _ _ H).
  rewrite (eqb_not_zero _ (hc_mask _ _ _ H)), !eqb_not_zero by lia. reflexivity.
Qed.

Lemma hello_of_values : hello_values (hello_of c mine l).
Proof.
  pose proof (max_message_values _ _ _ H). pose proof (mask_values c mine). destruct H as [[V W] [L1 L2] F _ _ _ _].
  unfold u16_ok in *. split; cbn; unfold u16_ok, u32_ok; [lia|lia|exact F].
Qed.

Lemma ack_of_values peer yours lb : hello_channel_ok peer yours lb → caps_values (ack_of c peer mine l).
Proof.
  intros P. pose proof (max_message_values _ _ _ H). pose proof (mask_values c mine).
  pose proof (land_u64 _ _ (hc_features _ _ _ H) (hc_features _ _ _ P)) as F. destruct H as [[V W] [L1 L2] _ _ _ _ _], (hc_versions _ _ _ P) as [V' W'].
  unfold u16_ok in *. split; cbn; unfold u16_ok, u32_ok; [lia|lia|exact F].
Qed.

End Own.

Lemma not_gt a b : a ≤ b → (a >? b) = false.
Proof. lia. Qed.
Lemma not_lt a b : b ≤ a → (a <? b) = false.
Proof. lia. Qed.

(** The highest version of both. *)
Lemma version_high a b : (if a <? b then a else b) = Z.min a b.
Proof. destruct (Z.ltb_spec a b); lia. Qed.
Lemma version_high_gt a b : (if a >? b then b else a) = Z.min a b.
Proof. rewrite Z.gtb_ltb. destruct (Z.ltb_spec b a); lia. Qed.

Section Handle.
Context (own peer : tr_channel) (mine yours : tr_conn_handle) (lo lp : Z).
Context (Ho : hello_channel_ok own mine lo) (Hp : hello_channel_ok peer yours lp) (Hc : compatible own peer mine yours).
Context (c : tr_channel) (Hs : same_channel own c).

Abbreviation mask := (tr_channel_connection_lane_mask_locked own mine).

Lemma goaway_not_accepted idx : dn_goaway_accepted (tb_drain (tc_table c)).[idx] = false.
Proof. rewrite (sc_table _ _ Hs). apply (hc_goaway _ _ _ Ho). Qed.

(** The peer's HELLO is answered, and the lanes of the connection are ready. *)
Lemma on_hello_ok ready : lanes_are c mask ready (agreed own peer mine lo lp) →
  let r := on_hello mine lo c (hello_frame peer yours lp) in
  r.1 = Handled TR_OK ∧ frames_sent c r.2 = [ack_frame own peer mine lo] ∧ same_channel own r.2 ∧
  lanes_are r.2 mask true (agreed own peer mine lo lp).
Proof.
  intros L. unfold on_hello, tr_channel_handle_hello, hello_frame, replayed_frame.
  destruct (decode_encode_hello _ (hello_of_values _ _ _ Hp)) as [D A].
  change (not_handshake _) with false. cbn [m_payload]. rewrite D, (same_local _ _ Hs), (local_capabilities_ok _ _ _ Ho).
  cbn [is_ok negb]. change (negb (is_ok TR_OK)) with false. cbn iota beta.
  destruct Hc as (M & V1 & V2 & R1 & R2), (hc_versions _ _ _ Ho), (hc_versions _ _ _ Hp), (hc_limits _ _ _ Hp), (hc_limits _ _ _ Ho).
  pose proof (max_message_values _ _ _ Hp). pose proof (mask_values own mine).
  cbn [he_min_version he_max_version he_lane_mask he_max_frame he_max_message he_features hello_of local_hello local_of
    ca_protocol_version ca_lane_mask ca_max_frame_payload_bytes ca_max_message_bytes ca_feature_bits].
  rewrite <- M, Z.eqb_refl, (sc_config _ _ Hs), goaway_not_accepted, !version_high.
  rewrite !(eqb_not_zero (cg_min_protocol_version _)), !(eqb_not_zero (cg_max_protocol_version _)), !(eqb_not_zero lp),
    !(eqb_not_zero (tr_channel_local_max_message _ _)), (eqb_not_zero (Z.min lp lo)), (not_gt (cg_min_protocol_version (tc_config peer))) by lia.
  rewrite not_gt by (destruct (_ >? _); lia). cbn [negb orb].
  rewrite (Z.land_comm (cg_feature_bits (tc_config peer))). fold (common_features own peer).
  unfold has_required in R1. rewrite R1, Z.eqb_refl, andb_false_r. cbn [negb].
  unfold tr_channel_send_hello_ack, send_protocol. change (is_ok TR_OK) with true. cbn [negb fst snd]. change (is_ok TR_OK) with true. cbn [negb fst snd].
  rewrite (Z.min_comm (cg_max_protocol_version (tc_config peer))), (Z.min_comm lp).
  set (c1 := add_sent c _).
  change (mk_caps _ mask (Z.min lo lp) _ _) with (agreed own peer mine lo lp).
  destruct (set_caps_spec c1 mask (agreed own peer mine lo lp) ready) as (S & L' & T); [destruct L; split; assumption|].
  split; [reflexivity|]. split; [|split; [|exact L']].
  - unfold frames_sent. rewrite T. cbn [tc_sent c1 add_sent]. rewrite drop_app_length. reflexivity.
  - eapply same_channel_trans; [exact Hs|]. eapply same_channel_trans; [|exact S]. repeat split.
Qed.

(** So are they by the peer's ACK. *)
Lemma on_hello_ack_ok ready : lanes_are c mask ready (agreed own peer mine lo lp) →
  let r := on_hello_ack mine lo c (ack_frame peer own yours lp) in
  r.1 = Handled TR_OK ∧ frames_sent c r.2 = [] ∧ same_channel own r.2 ∧ lanes_are r.2 mask true (agreed own peer mine lo lp).
Proof.
  intros L. unfold on_hello_ack, tr_channel_handle_hello_ack, ack_frame, wire_frame.
  destruct (decode_encode_hello_ack _ (ack_of_values _ _ _ Hp own mine lo Ho)) as [D A].
  change (not_handshake _) with false. cbn [m_payload sn_payload]. rewrite D, (same_local _ _ Hs), (local_capabilities_ok _ _ _ Ho).
  change (negb (is_ok TR_OK)) with false. cbn iota beta.
  destruct Hc as (M & V1 & V2 & R1 & R2), (hc_versions _ _ _ Ho), (hc_versions _ _ _ Hp), (hc_limits _ _ _ Hp), (hc_limits _ _ _ Ho).
  pose proof (max_message_values _ _ _ Hp). pose proof (mask_values own mine).
  cbn [ack_of local_of ca_protocol_version ca_lane_mask ca_max_frame_payload_bytes ca_max_message_bytes ca_feature_bits].
  rewrite <- M, Z.eqb_refl, (sc_config _ _ Hs), version_high_gt.
  rewrite !(eqb_not_zero lp), !(eqb_not_zero (tr_channel_local_max_message _ _)) by lia.
  rewrite not_lt, not_gt by lia. unfold common_features. rewrite (land_lnot _ _ (hc_features _ _ _ Ho)).
  rewrite (Z.land_comm (cg_feature_bits (tc_config peer))). fold (common_features own peer).
  unfold has_required in R1. rewrite R1, !Z.eqb_refl. cbn [negb orb fst snd].
  rewrite (Z.min_comm (cg_max_protocol_version (tc_config peer))), (Z.min_comm lp).
  change (mk_caps _ mask (Z.min lo lp) _ _) with (agreed own peer mine lo lp).
  destruct (set_caps_spec c mask (agreed own peer mine lo lp) ready L) as (S & L' & T).
  split; [reflexivity|]. split; [|split; [|exact L']].
  - unfold frames_sent. rewrite T, drop_all. reflexivity.
  - eapply same_channel_trans; [exact Hs|exact S].
Qed.

(** The own HELLO is sent. *)
Lemma send_hello_ok : tr_channel_send_hello c mine (TR_OK, lo) TR_OK TR_OK =
  (TR_OK, add_sent c (mk_sent mine TR_FRAME_HELLO 0 0 0 (tr_channel_encode_hello (hello_of own mine lo)) 0)).
Proof.
  unfold tr_channel_send_hello. rewrite (same_local _ _ Hs), (local_capabilities_ok _ _ _ Ho). change (negb (is_ok TR_OK)) with false. cbn iota beta.
  unfold send_protocol, hello_of, local_hello. rewrite (sc_config _ _ Hs). reflexivity.
Qed.

Lemma hello_sent_frames m : frames_sent c (add_sent c m) = [wire_frame m].
Proof. unfold frames_sent. cbn. by rewrite drop_app_length. Qed.

End Handle.

(** * The two sides together *)

(** The HELLO that waits for the start. *)
Definition held (phase : start_phase) : option (list Z) :=
  match phase with Not_started pending => pending | Replaying payload => Some payload | _ => None end.
(** The side has neither sent nor answered anything. *)
Definition early (phase : start_phase) : bool :=
  match phase with Not_started _ | Replaying _ => true | _ => false end.

(** One direction: what a side with phase [px], of which [rx] is whether it is ready, has sent
    and the other has not got, [out]; [h] and [k] are its HELLO and its ACK. *)
Record sent_inv (h k : msg) (px : start_phase) (rx : bool) (out : list msg) (py : start_phase) (ry : bool) : Prop := {
  si_frames : Forall (λ f, f = h ∨ f = k ∨ is_handshake f = false) out;
  si_unready : rx = false → out = [] ∨ out = [h];
  si_unsent : px ≠ Started → rx = false → out = [] ∧ ry = false ∧ held py = None;
  si_early : early px = true → rx = false ∧ ry = false;
  si_head : rx = true → ry = false → ∃ f fs, out = f :: fs ∧ (f = h ∨ f = k);
  si_held payload : held py = Some payload → payload = m_payload h ∧ out = [];
  si_reach : px = Started → h ∈ out ∨ is_Some (held py) ∨ ry = true
}.

Lemma held_early phase payload : held phase = Some payload → early phase = true.
Proof. by destruct phase. Qed.

Section SentInv.
Context (h k : msg) (Hh : is_handshake h = true).

(** The invariant only gets weaker when a side is no longer early. *)
Lemma sent_phase px px' rx out py py' ry : sent_inv h k px rx out py ry → held py' = held py → (px' = Started ↔ px = Started) →
  (early px' = true → early px = true) → sent_inv h k px' rx out py' ry.
Proof.
  intros [F U N E HD HL R] G1 G2 G3. split; try assumption.
  - intros X Y. destruct N as (? & ? & ?); [by rewrite <- G2|exact Y|]. rewrite G1. auto.
  - auto.
  - intros p. rewrite G1. apply HL.
  - rewrite G2, G1. exact R.
Qed.

(** A ready side appends a frame. *)
Lemma sent_append px out py ry f : sent_inv h k px true out py ry → f = h ∨ f = k ∨ is_handshake f = false →
  held py = None → sent_inv h k px true (out ++ [f]) py ry.
Proof.
  intros [F U N E HD HL R] G1 G2. split; try (intros; congruence).
  - apply Forall_app. split; [exact F|]. apply Forall_singleton. exact G1.
  - intros X. destruct (E X); discriminate.
  - intros _ X. destruct (HD eq_refl X) as (g & gs & -> & G). exists g, (gs ++ [f]). split; [reflexivity|exact G].
  - intros X. destruct (R X) as [G|G]; [left; apply elem_of_app; left; exact G|right; exact G].
Qed.

(** A side that gets ready with its ACK. *)
Lemma sent_ready px rx out py ry : sent_inv h k px rx out py ry → held py = None → early px = false →
  sent_inv h k px true (out ++ [k]) py ry.
Proof.
  intros S G1 G2. destruct rx; [apply sent_append; auto|]. destruct S as [F U N E HD HL R].
  split; try (intros; congruence).
  - apply Forall_app. split; [exact F|]. apply Forall_singleton. auto.
  - intros _ _. destruct (U eq_refl) as [->| ->]; [exists k, []|exists h, [k]]; auto.
  - intros X. destruct (R X) as [G|G]; [left; apply elem_of_app; left; exact G|right; exact G].
Qed.

(** The other is ready: nothing is left to be said of the first frames. *)
Lemma sent_taken px rx f out py ry : sent_inv h k px rx (f :: out) py ry → held py = None → sent_inv h k px rx out py true.
Proof.
  intros [F U N E HD HL R] G1. inversion F as [|? ? F1 F2]; subst. split; try (intros; congruence).
  - intros X. destruct (U X) as [Y|Y]; [discriminate|]. injection Y as -> ->. by left.
  - intros X Y. destruct (N X Y) as (Z & _). discriminate.
  - intros X. destruct (E X) as [Y1 Y2]. destruct (N ltac:(by destruct px) Y1) as (Z & _). discriminate.
  - auto.
Qed.

(** The other gets ready. *)
Lemma sent_peer_ready px rx out py py' ry : sent_inv h k px rx out py ry → px = Started ∨ rx = true → early px = false →
  held py' = None → sent_inv h k px rx out py' true.
Proof.
  intros [F U N E HD HL R] G1 G2 G3. split; try (intros; congruence); auto.
  intros X Y. destruct G1; [by destruct X|congruence].
Qed.

(** Both are. *)
Lemma sent_gets_ready px rx out py : sent_inv h k px rx out py true → early px = false → sent_inv h k px true out py true.
Proof. intros [F U N E HD HL R] G. split; try (intros; congruence); auto. Qed.

(** A side that is not early has either started or is ready, and a frame on its way says so. *)
Lemma sent_out px rx f out py ry : sent_inv h k px rx (f :: out) py ry → (px = Started ∨ rx = true) ∧ early px = false ∧ held py = None.
Proof.
  intros [F U N E HD HL R]. assert (G : px = Started ∨ rx = true).
  { destruct rx; [by right|left]. destruct px; auto; destruct N as (X & _); done. }
  split; [exact G|]. split.
  - destruct (early px) eqn:X; [|reflexivity]. destruct (E eq_refl) as [Y _]. destruct G as [->|G]; [discriminate|congruence].
  - destruct (held py) as [p|] eqn:X; [|reflexivity]. destruct (HL p eq_refl) as [_ Y]. discriminate.
Qed.

End SentInv.

(** A side of [c0]; [ready]: whether its lanes are, with [caps]. *)
Record side_inv (c0 : tr_channel) (mine : tr_conn_handle) (caps : tr_channel_capabilities) (ready : bool) (s : hello_side) : Prop := {
  sd_same : same_channel c0 (hs_channel s);
  sd_lanes : lanes_are (hs_channel s) (tr_channel_connection_lane_mask_locked c0 mine) ready caps;
  sd_fine : hs_aborted s = false
}.

Lemma side_inv_ready c0 mine l caps ready s : hello_channel_ok c0 mine l → side_inv c0 mine caps ready s → side_ready mine s = ready.
Proof.
  intros H [S L _]. unfold side_ready. apply (lanes_ready _ _ _ caps); rewrite (same_mask _ _ S); [apply (hc_mask _ _ _ H)|exact L].
Qed.

Section Pair.
Context (own peer : tr_channel) (mine yours : tr_conn_handle) (lo lp : Z).
Context (Ho : hello_channel_ok own mine lo) (Hp : hello_channel_ok peer yours lp) (Hc : compatible own peer mine yours).

Abbreviation h_own := (hello_frame own mine lo).
Abbreviation k_own := (ack_frame own peer mine lo).
Abbreviation h_peer := (hello_frame peer yours lp).
Abbreviation k_peer := (ack_frame peer own yours lp).

Record pair_inv (s p : hello_side) (rs rp : bool) : Prop := {
  pi_own : side_inv own mine (agreed own peer mine lo lp) rs s;
  pi_peer : side_inv peer yours (agreed peer own yours lp lo) rp p;
  pi_to : sent_inv h_own k_own (hs_phase s) rs (hs_out s) (hs_phase p) rp;
  pi_from : sent_inv h_peer k_peer (hs_phase p) rp (hs_out p) (hs_phase s) rs
}.

Lemma side_hello s r : side_inv own mine (agreed own peer mine lo lp) r s →
  let s' := side_handle s (on_hello mine lo (hs_channel s) h_peer) in
  side_inv own mine (agreed own peer mine lo lp) true s' ∧ hs_phase s' = hs_phase s ∧ hs_out s' = hs_out s ++ [k_own].
Proof.
  intros [S L A]. destruct (on_hello_ok own peer mine yours lo lp Ho Hp Hc _ S r L) as (R1 & R2 & R3 & R4).
  unfold side_handle. cbv zeta. rewrite R1, R2. split; [|split; reflexivity]. split; [exact R3|exact R4|]. cbn. rewrite A. reflexivity.
Qed.

Lemma side_ack s r : side_inv own mine (agreed own peer mine lo lp) r s →
  let s' := side_handle s (on_hello_ack mine lo (hs_channel s) k_peer) in
  side_inv own mine (agreed own peer mine lo lp) true s' ∧ hs_phase s' = hs_phase s ∧ hs_out s' = hs_out s.
Proof.
  intros [S L A]. destruct (on_hello_ack_ok own peer mine yours lo lp Ho Hp Hc _ S r L) as (R1 & R2 & R3 & R4).
  unfold side_handle. cbv zeta. rewrite R1, R2, app_nil_r. split; [|split; reflexivity]. split; [exact R3|exact R4|]. cbn. rewrite A. reflexivity.
Qed.

Lemma pair_begin s p rs rp : pair_inv s p rs rp → pair_inv (start_begin s) p rs rp.
Proof.
  intros I. unfold start_begin. destruct (hs_phase s) as [[pl|]| | |] eqn:Ph; try exact I; destruct I as [[S L A] P T F]; rewrite Ph in T, F.
  - split; [by split|exact P|..]; cbn; eapply sent_phase; try eassumption; done.
  - split; [by split|exact P|..]; cbn; eapply sent_phase; try eassumption; done.
Qed.

(** The peer of a side that has not sent anything is at the end of its start, or has not sent either. *)
Lemma from_started p ps : sent_inv h_peer k_peer (hs_phase p) false (hs_out p) ps false → is_Some (held ps) →
  hs_phase p = Started.
Proof.
  intros F [x X]. destruct (hs_phase p) eqn:Pp; try reflexivity;
    destruct (si_unsent _ _ _ _ _ _ _ F ltac:(discriminate) eq_refl) as (_ & _ & Y); congruence.
Qed.

Lemma pair_replay s p rs rp : pair_inv s p rs rp → ∃ rs', pair_inv (start_replay mine lo s) p rs' rp.
Proof.
  intros I. unfold start_replay. destruct (hs_phase s) as [[pl|]|pl| |] eqn:Ph; try (exists rs; exact I). exists true.
  destruct I as [D P T F]. rewrite Ph in T, F. unfold tr_channel_process_pending_hello_on_owner.
  rewrite (same_alive _ _ (sd_same _ _ _ _ _ D)), (hc_alive _ _ _ Ho). cbn [negb].
  destruct (si_held _ _ _ _ _ _ _ F pl eq_refl) as [-> O].
  destruct (side_hello s rs D) as ([S L A] & _ & X). change (replayed_frame (m_payload h_peer)) with h_peer.
  destruct (si_early _ _ _ _ _ _ _ T eq_refl) as [-> ->].
  destruct (si_unsent _ _ _ _ _ _ _ T ltac:(discriminate) eq_refl) as (_ & _ & G).
  pose proof (from_started _ _ F ltac:(by eexists)) as Pp.
  split; cbn [set_phase hs_phase hs_out].
  - split; assumption.
  - exact P.
  - rewrite X. apply (sent_ready _ _ _ false); [|exact G|reflexivity]. eapply sent_phase; try eassumption; done.
  - apply (sent_peer_ready _ _ _ _ _ _ _ _ F); [by left|by rewrite Pp|reflexivity].
Qed.

(** Before it sends its HELLO, a side that is not early knows that the peer has none of it. *)
Lemma nothing_held s p rs rp : pair_inv s p rs rp → hs_phase s = Sending → held (hs_phase p) = None.
Proof.
  intros [_ _ T F] Ph. rewrite Ph in T, F. destruct rs.
  - destruct (held (hs_phase p)) eqn:X; [|reflexivity]. apply held_early in X. destruct (si_early _ _ _ _ _ _ _ F X). discriminate.
  - apply (si_unsent _ _ _ _ _ _ _ T); [discriminate|reflexivity].
Qed.

Lemma pair_send s p rs rp : pair_inv s p rs rp → pair_inv (start_send mine lo s) p rs rp.
Proof.
  intros I. unfold start_send. destruct (hs_phase s) as [[pl|]|pl| |] eqn:Ph; try exact I. pose proof (nothing_held _ _ _ _ I Ph) as G.
  destruct I as [[S L A] P T F]. rewrite Ph in T, F. rewrite (send_hello_ok _ _ _ Ho _ S). set (m := mk_sent _ _ _ _ _ _ _).
  assert (O : hs_out (side_handle s (Handled TR_OK, add_sent (hs_channel s) m)) = hs_out s ++ [h_own]).
  { unfold side_handle. cbn [snd hs_out]. rewrite hello_sent_frames. reflexivity. }
  split; cbn [set_phase hs_phase]; [|exact P| |].
  - split; [eapply same_channel_trans; [exact S|repeat split]|destruct L; split; assumption|]. cbn. rewrite A. reflexivity.
  - cbn [hs_out set_phase]. rewrite O. destruct T as [F' U N E HD HL R]. split; try (intros; congruence).
    + apply Forall_app. split; [exact F'|]. apply Forall_singleton. auto.
    + intros X. destruct N as (-> & _); [discriminate|exact X|]. by right.
    + discriminate.
    + intros X Y. destruct (HD X Y) as (f & fs & -> & Z). exists f, (fs ++ [h_own]). split; [reflexivity|exact Z].
    + intros _. left. apply elem_of_app. right. apply list_elem_of_singleton. reflexivity.
  - eapply sent_phase; [exact F|reflexivity|reflexivity|auto].
Qed.

Lemma pair_other s p rs rp f : pair_inv s p rs rp → side_ready mine s = true → is_handshake f = false →
  pair_inv (send_other s f) p rs rp.
Proof.
  intros [[S L A] P T F] R X. rewrite (side_inv_ready _ _ lo (agreed own peer mine lo lp) rs s Ho) in R by (split; assumption). subst rs.
  split; [split; assumption|exact P| |exact F]. cbn. apply sent_append; [exact T|auto|].
  destruct (held (hs_phase p)) eqn:Y; [|reflexivity]. apply held_early in Y. destruct (si_early _ _ _ _ _ _ _ F Y). discriminate.
Qed.

Lemma pair_hello s p rs rp fs : pair_inv s p rs rp → hs_out p = h_peer :: fs →
  ∃ rs', pair_inv (tr_channel_on_frame mine lo s h_peer) (take_out p fs) rs' rp.
Proof.
  intros I O. destruct I as [D P T F]. rewrite O in F. destruct (sent_out _ _ _ _ _ _ _ _ F) as (G1 & G2 & G3).
  unfold tr_channel_on_frame. change (fh_type (m_header h_peer) =? TR_FRAME_HELLO) with true. cbn iota.
  unfold tr_channel_defer_hello_before_start. destruct (early (hs_phase s)) eqn:Es.
  - destruct (hs_phase s) as [pl|pl| |] eqn:Ph; try discriminate. exists rs.
    destruct (si_early _ _ _ _ _ _ _ T eq_refl) as [-> ->].
    assert (X : (tr_channel_keepalive_index_for_connection (hs_channel s) mine <? 0) = false).
    { rewrite (same_index _ _ (sd_same _ _ _ _ _ D)). pose proof (hc_mask _ _ _ Ho) as M. unfold tr_channel_connection_lane_mask_locked in M.
      unfold tr_channel_keepalive_index_for_connection.
      destruct (tr_conn_equal (lk_control_connection _) _), (tr_conn_equal (lk_bulk_connection _) _); try reflexivity. by destruct M. }
    rewrite X. change (not_handshake h_peer) with false. change (f_len h_peer =? TR_CHANNEL_HELLO_WIRE_SIZE) with true. cbn [negb orb].
    destruct (si_unready _ _ _ _ _ _ _ F eq_refl) as [Y|Y]; [discriminate|]. injection Y as ->.
    split; cbn [hs_phase hs_out take_out]; [destruct D; split; assumption|destruct P; split; assumption| |].
    + eapply sent_phase; [exact T|reflexivity|..]; done.
    + destruct F as [F' U N E HD HL R]. destruct G1 as [G1|G1]; [|discriminate]. split; try (intros; congruence).
      * constructor.
      * auto.
      * intros pl'. cbn. intros [= <-]. auto.
      * intros _. right. left. eexists. reflexivity.
  - assert (N : ∀ pl, hs_phase s ≠ Not_started pl) by (intros pl X; rewrite X in Es; discriminate).
    replace (match hs_phase s with Not_started _ => _ | _ => None end) with (@None hello_side) by (destruct (hs_phase s); [by destruct (N pending)|reflexivity..]).
    exists true. destruct (side_hello s rs D) as ([S L A] & X & Y).
    split; cbn [hs_phase hs_out take_out]; [split; assumption|destruct P; split; assumption|..]; rewrite X.
    + rewrite Y. apply (sent_ready _ _ _ rs); [exact T|destruct (hs_phase p) as [[]|?| |]; done|exact Es].
    + eapply sent_taken; [exact F|exact G3].
Qed.

Lemma pair_ack s p rs rp fs : pair_inv s p rs rp → hs_out p = k_peer :: fs →
  ∃ rs', pair_inv (tr_channel_on_frame mine lo s k_peer) (take_out p fs) rs' rp.
Proof.
  intros I O. destruct I as [D P T F]. rewrite O in F. destruct (sent_out _ _ _ _ _ _ _ _ F) as (G1 & G2 & G3). exists true.
  unfold tr_channel_on_frame. change (fh_type (m_header k_peer) =? TR_FRAME_HELLO) with false.
  change (fh_type (m_header k_peer) =? TR_FRAME_HELLO_ACK) with true. cbn iota.
  assert (R : rp = true).
  { destruct rp; [reflexivity|]. destruct (si_unready _ _ _ _ _ _ _ F eq_refl) as [Y|Y]; [discriminate|]. discriminate Y. }
  subst rp. assert (Es : early (hs_phase s) = false).
  { destruct (early (hs_phase s)) eqn:Es; [|reflexivity]. destruct (si_early _ _ _ _ _ _ _ T Es). discriminate. }
  destruct (side_ack s rs D) as ([S L A] & X & Y).
  split; cbn [hs_phase hs_out take_out]; [split; assumption|destruct P; split; assumption|..]; rewrite X.
  - rewrite Y. apply (sent_gets_ready _ _ _ rs); [exact T|exact Es].
  - eapply sent_taken; [exact F|exact G3].
Qed.

Lemma pair_noise s p rs rp f fs : pair_inv s p rs rp → hs_out p = f :: fs → is_handshake f = false →
  pair_inv (tr_channel_on_frame mine lo s f) (take_out p fs) rs rp.
Proof.
  intros I O N. pose proof (side_inv_ready _ _ lo _ _ _ Ho (pi_own _ _ _ _ I)) as Rs. destruct I as [D P T F]. rewrite O in F.
  destruct (sent_out _ _ _ _ _ _ _ _ F) as (G1 & G2 & G3).
  assert (R : rs = true).
  { destruct rs; [reflexivity|]. destruct rp.
    - destruct (si_head _ _ _ _ _ _ _ F eq_refl eq_refl) as (g & gs & [= -> ->] & [-> | ->]); discriminate.
    - destruct (si_unready _ _ _ _ _ _ _ F eq_refl) as [Y|Y]; [discriminate|]. injection Y as -> ->. discriminate. }
  rewrite R in Rs. unfold is_handshake in N. apply orb_false_iff in N as [N1 N2].
  unfold tr_channel_on_frame. rewrite N1, N2. unfold side_ready in Rs. rewrite Rs.
  split; [exact D|destruct P; split; assumption|exact T|]. cbn [hs_phase hs_out take_out]. rewrite R in F |- *. eapply sent_taken; [exact F|exact G3].
Qed.

(** A step of a side keeps the invariant. *)
Lemma pair_side_step s p s' p' rs rp : pair_inv s p rs rp → side_step mine lo s p s' p' → ∃ rs', pair_inv s' p' rs' rp.
Proof.
  intros I St. inversion St as [| | |? ? f R N|? ? f fs O]; subst.
  - exists rs. apply pair_begin, I.
  - apply (pair_replay _ _ rs), I.
  - exists rs. apply pair_send, I.
  - exists rs. apply pair_other; assumption.
  - pose proof (si_frames _ _ _ _ _ _ _ (pi_from _ _ _ _ I)) as F. rewrite O in F. inversion F as [|? ? F1 F2]; subst.
    destruct F1 as [->|[->|N]].
    + apply (pair_hello _ _ rs); assumption.
    + apply (pair_ack _ _ rs); assumption.
    + exists rs. apply pair_noise; assumption.
Qed.

End Pair.

Lemma compatible_sym a b mine yours : compatible a b mine yours → compatible b a yours mine.
Proof. intros (M & V1 & V2 & R1 & R2). unfold common_features in *. rewrite Z.land_comm in R1, R2. repeat split; auto. Qed.

Lemma pair_sym a b mine yours la lb s p rs rp : pair_inv a b mine yours la lb s p rs rp → pair_inv b a yours mine lb la p s rp rs.
Proof. by intros [D P T F]. Qed.

(** A side as it is created. *)
Definition fresh_side (c : tr_channel) : hello_side := mk_side c (Not_started None) [] false.

Lemma fresh_side_inv c mine l caps : hello_channel_ok c mine l → side_inv c mine caps false (fresh_side c).
Proof. intros H. destruct (hc_links _ _ _ H). split; [apply same_channel_refl| |reflexivity]. split; intros _; (split; [assumption|discriminate]). Qed.

Lemma fresh_sent h k : sent_inv h k (Not_started None) false [] (Not_started None) false.
Proof. split; try (intros; congruence); cbn; auto. discriminate. Qed.

Section Agreement.
Context (a b : tr_channel) (mine yours : tr_conn_handle) (la lb : Z).
Context (Ha : hello_channel_ok a mine la) (Hb : hello_channel_ok b yours lb) (Hc : compatible a b mine yours).

Lemma pair_reached s p : rtc (hello_step mine yours la lb) (fresh_side a, fresh_side b) (s, p) →
  ∃ rs rp, pair_inv a b mine yours la lb s p rs rp.
Proof.
  intros R. apply (rtc_ind_r (λ x, ∃ rs rp, pair_inv a b mine yours la lb x.1 x.2 rs rp) (fresh_side a, fresh_side b)) in R; [exact R|..].
  - exists false, false. split; cbn [fst snd].
    + apply (fresh_side_inv _ _ la), Ha.
    + apply (fresh_side_inv _ _ lb), Hb.
    + apply fresh_sent.
    + apply fresh_sent.
  - intros y z _ St (rs & rp & I). inversion St as [? ? ? ? X|? ? ? ? X]; subst; cbn [fst snd] in *.
    + destruct (pair_side_step a b mine yours la lb Ha Hb Hc _ _ _ _ rs rp I X) as [rs' I']. by exists rs', rp.
    + apply pair_sym in I. destruct (pair_side_step b a yours mine lb la Hb Ha (compatible_sym _ _ _ _ Hc) _ _ _ _ rp rs I X) as [rp' I'].
      exists rs, rp'. by apply pair_sym.
Qed.

End Agreement.

Definition lane_bit (lane : tr_lane) : Z :=
  match lane with TR_LANE_CONTROL => TR_CHANNEL_LANE_MASK_CONTROL | TR_LANE_BULK => TR_CHANNEL_LANE_MASK_BULK end.
(** Whether the connection carries the lane. *)
Definition carries (c : tr_channel) (connection : tr_conn_handle) (lane : tr_lane) : Prop :=
  Z.land (tr_channel_connection_lane_mask_locked c connection) (lane_bit lane) ≠ 0.

Lemma agreed_caps a mine caps s : side_inv a mine caps true s → ∀ lane, carries a mine lane → lane_caps (hs_channel s) lane = caps.
Proof. intros [_ [C B] _] [|] X; [apply C|apply B]; auto. Qed.

(** ** A run *)

Definition deliver (mine : tr_conn_handle) (l : Z) (s p : hello_side) : hello_side * hello_side :=
  match hs_out p with [] => (s, p) | f :: fs => (tr_channel_on_frame mine l s f, take_out p fs) end.

(** * The property *)

(** C33: Two compatible channels, created but not started, shake hands on a connection: each is
    started when its application wants, sends frames once it is ready, and gets the peer's in
    order.  Nothing aborts the connection.  A side that is ready has, on every lane that the
    connection carries, the common version and features, the smaller of both frame limits, and
    the message limit of the peer; and both are ready when both have been started and
    everything sent has arrived. *)
Theorem hello_agreement a b mine yours la lb s p :
  hello_channel_ok a mine la → hello_channel_ok b yours lb → compatible a b mine yours →
  rtc (hello_step mine yours la lb) (fresh_side a, fresh_side b) (s, p) →
  hs_aborted s = false ∧ hs_aborted p = false ∧
  (side_ready mine s = true → ∀ lane, carries a mine lane → lane_caps (hs_channel s) lane = agreed a b mine la lb) ∧
  (side_ready yours p = true → ∀ lane, carries b yours lane → lane_caps (hs_channel p) lane = agreed b a yours lb la) ∧
  (hs_phase s = Started → hs_phase p = Started → hs_out s = [] → hs_out p = [] → side_ready mine s = true ∧ side_ready yours p = true).
Proof.
  intros Ha Hb Hc R. destruct (pair_reached a b mine yours la lb Ha Hb Hc s p R) as (rs & rp & [D P T F]).
  rewrite (side_inv_ready _ _ la _ _ _ Ha D), (side_inv_ready _ _ lb _ _ _ Hb P).
  split; [apply D|]. split; [apply P|]. split; [|split].
  - intros ->. apply (agreed_caps _ _ _ _ D).
  - intros ->. apply (agreed_caps _ _ _ _ P).
  - intros Ps Pp Os Op. split.
    + destruct (si_reach _ _ _ _ _ _ _ F Pp) as [X|[[x X]|X]]; [rewrite Op in X; by apply elem_of_nil in X|by rewrite Ps in X|exact X].
    + destruct (si_reach _ _ _ _ _ _ _ T Ps) as [X|[[x X]|X]]; [rewrite Os in X; by apply elem_of_nil in X|by rewrite Pp in X|exact X].
Qed.

(** ** Its witness *)

Definition demo_connection (reactor : nat) : tr_conn_handle := mk_conn (Some reactor) 3 9.
(** A channel with one connection for both lanes. *)
Definition demo_hello_channel (role : tr_channel_role) (reactor : nat) (min_version max_version features required : Z) : tr_channel :=
  mk_channel 1 (mk_channel_config role TR_CHANNEL_SHARED_CONNECTION 4 1024 512 8192 false min_version max_version features required)
    (mk_links (demo_connection reactor) (demo_connection reactor) true true false false zero_caps zero_caps)
    (mk_table TR_STREAM_FREE_NONE 0 [] [] 0 [zero_drain; zero_drain] [None; None]) false false false 1 false false
    (mk_counts 0 0 0 0 0 0 0 0 0) [] [].
(** Versions 1 to 3 with features 1 and 2 required 1; versions 2 to 5 with features 1 and 4. *)
Definition demo_client : tr_channel := demo_hello_channel TR_CHANNEL_CLIENT 1 1 3 3 1.
Definition demo_server : tr_channel := demo_hello_channel TR_CHANNEL_SERVER 2 2 5 5 0.

(** The client's HELLO comes before the server is started; the server's ACK lets the client
    send another frame before the server's HELLO arrives. *)
Definition demo_open : msg := mk_msg (mk_frame_header TR_WIRE_ENV_VERSION TR_FRAME_STREAM_OPEN 0 5 1 2 0 0 0) [7; 8].
Definition demo_sides : hello_side * hello_side :=
  let s := start_send (demo_connection 1) 4096 (start_begin (fresh_side demo_client)) in
  let '(p, s) := deliver (demo_connection 2) 2048 (fresh_side demo_server) s in
  let p := start_send (demo_connection 2) 2048 (start_replay (demo_connection 2) 2048 (start_begin p)) in
  let '(s, p) := deliver (demo_connection 1) 4096 s p in
  let s := send_other s demo_open in
  let '(s, p) := deliver (demo_connection 1) 4096 s p in
  let '(p, s) := deliver (demo_connection 2) 2048 p s in
  deliver (demo_connection 2) 2048 p s.

Lemma demo_hello_ok role reactor v w f r l : 0 < v ≤ w → w < 2 ^ 16 → 0 ≤ f < 2 ^ 64 → 0 < l < 2 ^ 32 →
  hello_channel_ok (demo_hello_channel role reactor v w f r) (demo_connection reactor) l.
Proof.
  intros V W F L. assert (E : tr_conn_equal (demo_connection reactor) (demo_connection reactor) = true).
  { unfold tr_conn_equal. by rewrite bool_decide_eq_true_2. }
  split; cbn; [split; [lia|unfold u16_ok; lia]|lia|exact F|..].
  - unfold tr_channel_connection_lane_mask_locked. cbn. by rewrite E.
  - unfold tr_channel_connection_alive_locked. cbn. by rewrite E.
  - intros idx. unfold aget. cbn [tb_drain tc_table demo_hello_channel]. destruct (Z.to_nat idx) as [|[|]]; reflexivity.
  - split; reflexivity.
Qed.

Lemma deliver_left mine yours la lb s p s' p' : hs_out p ≠ [] → deliver mine la s p = (s', p') → hello_step mine yours la lb (s, p) (s', p').
Proof. unfold deliver. destruct (hs_out p) as [|f fs] eqn:O; [done|]. intros _ [= <- <-]. apply hello_left, step_frame, O. Qed.
Lemma deliver_right mine yours la lb s p s' p' : hs_out s ≠ [] → deliver yours lb p s = (p', s') → hello_step mine yours la lb (s, p) (s', p').
Proof. unfold deliver. destruct (hs_out s) as [|f fs] eqn:O; [done|]. intros _ [= <- <-]. apply hello_right, step_frame, O. Qed.

Lemma demo_run : rtc (hello_step (demo_connection 1) (demo_connection 2) 4096 2048) (fresh_side demo_client, fresh_side demo_server) (demo_sides.2, demo_sides.1).
Proof.
  eapply rtc_l; [apply hello_left, step_begin|]. eapply rtc_l; [apply hello_left, step_send|].
  eapply rtc_l; [eapply deliver_right; [discriminate|vm_compute; reflexivity]|].
  eapply rtc_l; [apply hello_right, step_begin|]. eapply rtc_l; [apply hello_right, step_replay|]. eapply rtc_l; [apply hello_right, step_send|].
  eapply rtc_l; [eapply deliver_left; [vm_compute; discriminate|vm_compute; reflexivity]|].
  eapply rtc_l; [apply hello_left, (step_other _ _ _ _ demo_open); vm_compute; reflexivity|].
  eapply rtc_l; [eapply deliver_left; [vm_compute; discriminate|vm_compute; reflexivity]|].
  eapply rtc_l; [eapply deliver_right; [vm_compute; discriminate|vm_compute; reflexivity]|].
  eapply rtc_l; [eapply deliver_right; [vm_compute; discriminate|vm_compute; reflexivity]|].
  match goal with |- rtc _ ?x ?y => replace y with x by (vm_compute; reflexivity) end. apply rtc_refl.
Qed.

Lemma hello_agreement_witness :
  side_ready (demo_connection 1) demo_sides.2 = true ∧ side_ready (demo_connection 2) demo_sides.1 = true ∧
  lane_caps (hs_channel demo_sides.2) TR_LANE_BULK = mk_caps 3 3 2048 8192 1.
Proof.
  assert (O : hello_channel_ok demo_client (demo_connection 1) 4096) by (apply demo_hello_ok; lia).
  assert (P : hello_channel_ok demo_server (demo_connection 2) 2048) by (apply demo_hello_ok; lia).
  assert (C : compatible demo_client demo_server (demo_connection 1) (demo_connection 2)).
  { split; [vm_compute; reflexivity|]. cbn. split; [lia|]. split; [lia|]. split; vm_compute; reflexivity. }
  destruct (hello_agreement _ _ _ _ _ _ _ _ O P C demo_run) as (_ & _ & A & _ & L).
  destruct L as [L1 L2]; [vm_compute; reflexivity|vm_compute; reflexivity|vm_compute; reflexivity|vm_compute; reflexivity|].
  split; [exact L1|]. split; [exact L2|]. rewrite (A L1 TR_LANE_BULK); [vm_compute; reflexivity|]. vm_compute. discriminate.
Defined.
