(* ===== verification/Message.v ===== *)
(** Owned messages over accounted storage: [src/message/message.c], [message.h], [storage.h].

    A storage is a control block its provider embeds; handles are the structures consumers
    hold.  Pointers are indices: a world keeps the control blocks, the handles, the budgets
    and the release callbacks called so far.  What a callback does is a parameter, under the
    contract of [storage.h]: it may free and recycle retired control blocks, nothing else.

    Theorems: from reservation to the last release a storage is charged to its budget once;
    its callback runs exactly once, when its last handle goes; every handle views bytes of
    what was published; calls that fail change nothing. *)
From S2P Require Import Prelude Status MemoryBudget Refcount.

(** * Data *)

Inductive tr_message_storage_state :=
| TR_MESSAGE_STORAGE_EMPTY
| TR_MESSAGE_STORAGE_RESERVED
| TR_MESSAGE_STORAGE_LIVE
| TR_MESSAGE_STORAGE_RETIRED.

#[export] Instance tr_message_storage_state_eq_dec : EqDecision tr_message_storage_state.
Proof. solve_decision. Defined.

Record tr_message_storage := mk_storage {
  sg_refs : tr_refcount;
  sg_budget : option nat;
  sg_capacity : Z;
  sg_release : option Z;
  sg_release_arg : Z;
  sg_state : tr_message_storage_state
}.

(** [{0}]. *)
Definition zero_storage : tr_message_storage := mk_storage 0 None 0 None 0 TR_MESSAGE_STORAGE_EMPTY.
#[export] Instance tr_message_storage_inhabited : Inhabited tr_message_storage := populate zero_storage.

(** Addresses are integers, NULL is [None]. *)
Record tr_message_view := mk_view { vw_data : option Z; vw_len : Z }.

Record tr_message := mk_message {
  mg_data : option Z;
  mg_len : Z;
  mg_storage : option nat
}.

Definition zero_message : tr_message := mk_message None 0 None.
#[export] Instance tr_message_inhabited : Inhabited tr_message := populate zero_message.

Record tr_message_limits := mk_msg_limits { max_decoded_bytes : Z; max_encoded_bytes : Z }.

Record world (B : Type) := mk_world {
  w_stores : list tr_message_storage;
  w_handles : list tr_message;
  w_budgets : list B;
  w_calls : list (Z * Z)
}.
Arguments mk_world {B} _ _ _ _.
Arguments w_stores {B} _.
Arguments w_handles {B} _.
Arguments w_budgets {B} _.
Arguments w_calls {B} _.

(** A status returned as [int]. *)
Definition as_status (ret : Z) : tr_status := default TR_ERR_STATE (status_of_value ret).

Section Message.
Context {B : Type} `{!Budget B} `{!Inhabited B}.
(** What the release callback [release(arg)] does. *)
Context (callback : Z → Z → world B → world B).
Implicit Types (w : world B) (s h : nat) (st : tr_message_storage).

Definition set_store w s st : world B :=
  mk_world (<[s := st]> (w_stores w)) (w_handles w) (w_budgets w) (w_calls w).
Definition set_handle w h (m : tr_message) : world B :=
  mk_world (w_stores w) (<[h := m]> (w_handles w)) (w_budgets w) (w_calls w).
Definition set_budget w b (x : B) : world B :=
  mk_world (w_stores w) (w_handles w) (<[b := x]> (w_budgets w)) (w_calls w).

(** * Operations *)

Definition tr_message_storage_reserve (storage budget : option nat) (capacity : Z) w
    : tr_status * world B :=
  match storage, budget with
  | Some s, Some b =>
      let st := w_stores w !!! s in
      bail (TR_ERR_STATE, w) when (bool_decide (sg_state st ≠ TR_MESSAGE_STORAGE_EMPTY)) ;;
      let '(ret, x) := b_reserve (w_budgets w !!! b) capacity in
      let w := set_budget w b x in
      bail (ret, w) when (negb (is_ok ret)) ;;
      (TR_OK, set_store w s (mk_storage (sg_refs st) (Some b) capacity (sg_release st)
         (sg_release_arg st) TR_MESSAGE_STORAGE_RESERVED))
  | _, _ => (TR_ERR_INVALID, w)
  end.

(** [tr_memory_budget_release] of a budget that may be NULL. *)
Definition release_budget (budget : option nat) (n : Z) w : tr_status * world B :=
  match budget with
  | None => (TR_ERR_INVALID, w)
  | Some b => let '(ret, x) := b_release (w_budgets w !!! b) n in (ret, set_budget w b x)
  end.

Definition tr_message_storage_cancel (storage : option nat) w : tr_status * world B :=
  match storage with
  | None => (TR_ERR_INVALID, w)
  | Some s =>
      let st := w_stores w !!! s in
      bail (TR_ERR_STATE, w) when (bool_decide (sg_state st ≠ TR_MESSAGE_STORAGE_RESERVED)) ;;
      let '(ret, w) := release_budget (sg_budget st) (sg_capacity st) w in
      bail (ret, w) when (negb (is_ok ret)) ;;
      (TR_OK, set_store w s (mk_storage (sg_refs st) None 0 (sg_release st) (sg_release_arg st)
         TR_MESSAGE_STORAGE_EMPTY))
  end.

Definition tr_message_storage_publish (storage : option nat) (data : option Z) (len : Z)
    (release : option Z) (arg : Z) (out : option nat) w : tr_status * world B :=
  match storage, release, out with
  | Some s, Some release, Some h =>
      let st := w_stores w !!! s in
      bail (TR_ERR_STATE, w) when (bool_decide (sg_state st ≠ TR_MESSAGE_STORAGE_RESERVED) ||
        bool_decide (is_Some (mg_storage (w_handles w !!! h)))) ;;
      bail (TR_ERR_BAD_LENGTH, w) when (len >? sg_capacity st) ;;
      bail (TR_ERR_INVALID, w) when
        (negb (bool_decide (is_Some data)) && negb (sg_capacity st =? 0)) ;;
      let '(ret, refs) := tr_refcount_init 1 in
      bail (ret, w) when (negb (is_ok ret)) ;;
      let w := set_store w s (mk_storage (default (sg_refs st) refs) (sg_budget st)
        (sg_capacity st) (Some release) arg TR_MESSAGE_STORAGE_LIVE) in
      (TR_OK, set_handle w h (mk_message data len (Some s)))
  | _, _, _ => (TR_ERR_INVALID, w)
  end.

(** The view is the value [*out] gets. *)
Definition tr_message_view_of (message : option nat) (out : bool) w
    : tr_status * option tr_message_view :=
  match message with
  | Some h =>
      bail (TR_ERR_INVALID, None) when (negb out) ;;
      let m := w_handles w !!! h in
      bail (TR_ERR_STATE, None) when (negb (bool_decide (is_Some (mg_storage m)))) ;;
      (TR_OK, Some (mk_view (mg_data m) (mg_len m)))
  | None => (TR_ERR_INVALID, None)
  end.

Definition tr_message_slice (message : option nat) (offset len : Z) (out : option nat) w
    : tr_status * world B :=
  match message, out with
  | Some h, Some o =>
      bail (TR_ERR_INVALID, w) when (h =? o)%nat ;;
      let m := w_handles w !!! h in
      match mg_storage m with
      | None => (TR_ERR_STATE, w)
      | Some s =>
          bail (TR_ERR_STATE, w) when (bool_decide (is_Some (mg_storage (w_handles w !!! o)))) ;;
          bail (TR_ERR_BAD_LENGTH, w) when ((offset >? mg_len m) || (len >? mg_len m - offset)) ;;
          let data := if negb (offset =? 0) then (λ d, d + offset) <$> mg_data m else mg_data m in
          let st := w_stores w !!! s in
          let '(ret, refs) := tr_refcount_get (Some (sg_refs st)) in
          bail (as_status ret, w) when (negb (ret =? status_value TR_OK)) ;;
          let w := set_store w s (mk_storage (default (sg_refs st) refs) (sg_budget st)
            (sg_capacity st) (sg_release st) (sg_release_arg st) (sg_state st)) in
          (TR_OK, set_handle w o (mk_message data len (Some s)))
      end
  | _, _ => (TR_ERR_INVALID, w)
  end.

Definition tr_message_clone (message out : option nat) w : tr_status * world B :=
  match message with
  | None => (TR_ERR_INVALID, w)
  | Some h => tr_message_slice message 0 (mg_len (w_handles w !!! h)) out w
  end.

Definition tr_message_none_move (input : option nat) (limits : option tr_message_limits)
    (out : option nat) w : tr_status * world B :=
  match input, limits, out with
  | Some h, Some limits, Some o =>
      bail (TR_ERR_INVALID, w) when (h =? o)%nat ;;
      let m := w_handles w !!! h in
      bail (TR_ERR_STATE, w) when (negb (bool_decide (is_Some (mg_storage m))) ||
        bool_decide (is_Some (mg_storage (w_handles w !!! o)))) ;;
      bail (TR_ERR_BAD_LENGTH, w) when
        ((mg_len m >? max_decoded_bytes limits) || (mg_len m >? max_encoded_bytes limits)) ;;
      (TR_OK, set_handle (set_handle w o m) h zero_message)
  | _, _, _ => (TR_ERR_INVALID, w)
  end.

(** [release(arg)]: the call is recorded, then the callback acts. *)
Definition call_release (release : option Z) (arg : Z) w : world B :=
  match release with
  | None => w
  | Some f => callback f arg
      (mk_world (w_stores w) (w_handles w) (w_budgets w) (w_calls w ++ [(f, arg)]))
  end.

Definition tr_message_release (message : option nat) w : tr_status * world B :=
  match message with
  | None => (TR_ERR_INVALID, w)
  | Some h =>
      match mg_storage (w_handles w !!! h) with
      | None => (TR_ERR_STATE, w)
      | Some s =>
          let w := set_handle w h zero_message in
          let st := w_stores w !!! s in
          let '(last, refs) := tr_refcount_put (Some (sg_refs st)) in
          let st := mk_storage (default (sg_refs st) refs) (sg_budget st) (sg_capacity st)
            (sg_release st) (sg_release_arg st) (sg_state st) in
          let w := set_store w s st in
          bail (as_status last, w) when (last <? 0) ;;
          bail (TR_OK, w) when (last =? 0) ;;
          let w := set_store w s (mk_storage (sg_refs st) (sg_budget st) (sg_capacity st)
            (sg_release st) (sg_release_arg st) TR_MESSAGE_STORAGE_RETIRED) in
          let w := call_release (sg_release st) (sg_release_arg st) w in
          release_budget (sg_budget st) (sg_capacity st) w
      end
  end.

End Message.

(** * Histories *)

Inductive msg_op :=
| Op_reserve (s b : nat) (capacity : Z)
| Op_cancel (s : nat)
| Op_publish (s : nat) (data : option Z) (len : Z) (release arg : Z) (h : nat)
| Op_slice (h : nat) (offset len : Z) (o : nat)
| Op_clone (h o : nat)
| Op_none_move (h : nat) (limits : tr_message_limits) (o : nat)
| Op_release (h : nat).

Section History.
Context {B : Type} `{!Budget B} `{!Inhabited B}.
Context (callback : Z → Z → world B → world B).
Implicit Types (w : world B) (s h : nat) (st : tr_message_storage) (m : tr_message)
  (reg : gmap nat (option Z * Z)) (pub : list (Z * Z)).

Definition msg_exec (op : msg_op) w : tr_status * world B :=
  match op with
  | Op_reserve s b capacity => tr_message_storage_reserve (Some s) (Some b) capacity w
  | Op_cancel s => tr_message_storage_cancel (Some s) w
  | Op_publish s data len release arg h =>
      tr_message_storage_publish (Some s) data len (Some release) arg (Some h) w
  | Op_slice h offset len o => tr_message_slice (Some h) offset len (Some o) w
  | Op_clone h o => tr_message_clone (Some h) (Some o) w
  | Op_none_move h limits o => tr_message_none_move (Some h) (Some limits) (Some o) w
  | Op_release h => tr_message_release callback (Some h) w
  end.

(** The pointers point to objects, the sizes are [size_t]. *)
Definition msg_valid (op : msg_op) w : Prop :=
  let store s := (s < length (w_stores w))%nat in
  let handle h := (h < length (w_handles w))%nat in
  match op with
  | Op_reserve s b capacity => store s ∧ (b < length (w_budgets w))%nat ∧ u64_ok capacity
  | Op_cancel s => store s
  | Op_publish s _ len _ _ h => store s ∧ handle h ∧ u64_ok len
  | Op_slice h offset len o => handle h ∧ handle o ∧ u64_ok offset ∧ u64_ok len
  | Op_clone h o => handle h ∧ handle o
  | Op_none_move h _ o => handle h ∧ handle o
  | Op_release h => handle h
  end.

(** What a successful publication promises: a call of [release(arg)], and bytes. *)
Definition msg_published (op : msg_op) (ret : tr_status) : list (Z * Z) :=
  match op, ret with Op_publish _ _ _ release arg _, TR_OK => [(release, arg)] | _, _ => [] end.
Definition msg_region (op : msg_op) (ret : tr_status) reg : gmap nat (option Z * Z) :=
  match op, ret with Op_publish s data len _ _ _, TR_OK => <[s := (data, len)]> reg | _, _ => reg end.

(** The worlds reached from empty control blocks and handles over the budgets [bs], with
    the publications so far and the bytes each control block last published. *)
Inductive msg_reach (n k : nat) (bs : list B) : world B → list (Z * Z) → gmap nat (option Z * Z) → Prop :=
| msg_reach_init :
    msg_reach n k bs (mk_world (replicate n zero_storage) (replicate k zero_message) bs []) [] ∅
| msg_reach_step op w pub reg : msg_reach n k bs w pub reg → msg_valid op w →
    msg_reach n k bs (msg_exec op w).2 (pub ++ msg_published op (msg_exec op w).1)
      (msg_region op (msg_exec op w).1 reg).

Definition recycled (l l' : list tr_message_storage) : Prop :=
  Forall2 (λ st st', st' = st ∨ sg_state st = TR_MESSAGE_STORAGE_RETIRED ∧ st' = zero_storage) l l'.

(** The contract of the callbacks: recycle retired control blocks, nothing else. *)
Definition callback_ok : Prop := ∀ release arg w,
  let w' := callback release arg w in
  w_handles w' = w_handles w ∧ w_budgets w' = w_budgets w ∧ w_calls w' = w_calls w ∧
  recycled (w_stores w) (w_stores w').

(** * The invariant *)

(** What a control block charges to budget [b]. *)
Definition charged (b : nat) st : Z :=
  match sg_state st with
  | TR_MESSAGE_STORAGE_RESERVED | TR_MESSAGE_STORAGE_LIVE =>
      if decide (sg_budget st = Some b) then sg_capacity st else 0
  | _ => 0
  end.

(** The handles on control block [s]. *)
Definition refers s m : Z := if decide (mg_storage m = Some s) then 1 else 0.
Definition holders s (hs : list tr_message) : Z := zsum (refers s) hs.

(** The callback a live control block still owes. *)
Definition owed st : option (Z * Z) :=
  match sg_state st with
  | TR_MESSAGE_STORAGE_LIVE => (λ f, (f, sg_release_arg st)) <$> sg_release st
  | _ => None
  end.

Record store_ok (nb : nat) (hs : list tr_message) s st : Prop := {
  so_holders : holders s hs =
    match sg_state st with TR_MESSAGE_STORAGE_LIVE => sg_refs st | _ => 0 end;
  so_live : sg_state st = TR_MESSAGE_STORAGE_LIVE →
    1 ≤ sg_refs st ≤ UINT32_MAX - 1 ∧ is_Some (sg_release st);
  so_charge : sg_state st = TR_MESSAGE_STORAGE_RESERVED ∨ sg_state st = TR_MESSAGE_STORAGE_LIVE →
    ∃ b, sg_budget st = Some b ∧ (b < nb)%nat ∧ u64_ok (sg_capacity st)
}.

(** The bytes of a handle are bytes of the region [(d, l)]. *)
Definition within (m : tr_message) (region : option Z * Z) : Prop :=
  ∃ off, 0 ≤ off ∧ 0 ≤ mg_len m ∧ off + mg_len m ≤ region.2 ∧
    mg_data m = (λ d, d + off) <$> region.1.

Definition handle_ok (n : nat) reg m : Prop :=
  match mg_storage m with
  | None => m = zero_message
  | Some s => (s < n)%nat ∧ ∃ region, reg !! s = Some region ∧ within m region
  end.

Record msg_inv (bs : list B) w pub reg : Prop := {
  mi_length : length (w_budgets w) = length bs;
  mi_budgets : Forall b_ok (w_budgets w);
  mi_used b x0 x : bs !! b = Some x0 → w_budgets w !! b = Some x →
    b_used x = b_used x0 + zsum (charged b) (w_stores w);
  mi_stores s st : w_stores w !! s = Some st → store_ok (length bs) (w_handles w) s st;
  mi_handles : Forall (handle_ok (length (w_stores w)) reg) (w_handles w);
  mi_calls : pub ≡ₚ w_calls w ++ omap owed (w_stores w)
}.

(** * Lemmas *)

Lemma charged_nonneg b st nb hs s : store_ok nb hs s st → 0 ≤ charged b st.
Proof.
  intros H. unfold charged. destruct (sg_state st) eqn:E; try done;
    case_decide; try done; destruct (so_charge _ _ _ _ H) as (? & _ & _ & Hc); auto;
    unfold u64_ok in Hc; lia.
Qed.

Lemma holders_nonneg s hs : 0 ≤ holders s hs.
Proof. apply zsum_nonneg. intros m _. unfold refers. case_decide; lia. Qed.

Lemma holders_insert s hs h m m' : hs !! h = Some m →
  holders s (<[h := m']> hs) = holders s hs - refers s m + refers s m'.
Proof. unfold holders. intros. by rewrite (zsum_insert _ _ _ m). Qed.

Lemma holders_pos s hs h m : hs !! h = Some m → mg_storage m = Some s → 1 ≤ holders s hs.
Proof.
  intros Hh Hm. assert (refers s m ≤ holders s hs) as H.
  { apply zsum_lookup_le with h; [|done]. intros y _. unfold refers. case_decide; lia. }
  unfold refers in H. rewrite decide_True in H by done. done.
Qed.

Lemma lookup_some_lt {X} `{!Inhabited X} (l : list X) (i : nat) : (i < length l)%nat →
  l !! i = Some (l !!! i).
Proof. apply list_lookup_lookup_total_lt. Qed.

(** One control block changes, with the handles, budgets and calls as given. *)
Lemma msg_inv_update bs w pub reg s st st' hs xs calls pub' reg' :
  msg_inv bs w pub reg → w_stores w !! s = Some st →
  length xs = length bs → Forall b_ok xs →
  (∀ b x0 x, bs !! b = Some x0 → xs !! b = Some x →
    b_used x = b_used x0 + zsum (charged b) (w_stores w) - charged b st + charged b st') →
  store_ok (length bs) hs s st' →
  (∀ s', s' ≠ s → holders s' hs = holders s' (w_handles w)) →
  Forall (handle_ok (length (w_stores w)) reg') hs →
  option_list (owed st) ++ pub' ≡ₚ calls ++ option_list (owed st') ++ omap owed (w_stores w) →
  msg_inv bs (mk_world (<[s := st']> (w_stores w)) hs xs calls) pub' reg'.
Proof.
  intros Hinv Hs Hlen Hxs Hused Hst Hothers Hhs Hcalls. constructor; simpl; try done.
  - intros b x0 x H0 Hx. rewrite (zsum_insert _ _ _ st) by done. rewrite (Hused b x0 x) by done. lia.
  - intros s' st1 Hs1. destruct (decide (s' = s)) as [->|Hne].
    { rewrite list_lookup_insert_eq in Hs1 by (by apply lookup_lt_Some in Hs). by simplify_eq. }
    rewrite list_lookup_insert_ne in Hs1 by done.
    destruct (mi_stores _ _ _ _ Hinv _ _ Hs1) as [Hh Hl Hc]. constructor; try done.
    by rewrite Hothers.
  - by rewrite length_insert.
  - apply (Permutation_app_inv_l (option_list (owed st))). rewrite Hcalls.
    rewrite <- (omap_insert_perm owed _ _ _ st' Hs).
    rewrite !app_assoc. by rewrite (Permutation_app_comm calls).
Qed.

(** A budget call that changes what is used by [delta] when the charge does. *)
Lemma used_update bs w pub reg b x x' st st' :
  msg_inv bs w pub reg → w_budgets w !! b = Some x →
  b_used x' = b_used x - charged b st + charged b st' →
  (∀ b', b' ≠ b → charged b' st' = charged b' st) →
  ∀ b' y0 y, bs !! b' = Some y0 → <[b := x']> (w_budgets w) !! b' = Some y →
    b_used y = b_used y0 + zsum (charged b') (w_stores w) - charged b' st + charged b' st'.
Proof.
  intros Hinv Hx Hd Hne b' y0 y Hy0 Hy. destruct (decide (b' = b)) as [->|Hb].
  - rewrite list_lookup_insert_eq in Hy by (by apply lookup_lt_Some in Hx). simplify_eq.
    rewrite Hd, (mi_used _ _ _ _ Hinv b y0 x) by done. lia.
  - rewrite list_lookup_insert_ne in Hy by done. rewrite (Hne b') by done.
    rewrite (mi_used _ _ _ _ Hinv b' y0 y) by done. lia.
Qed.

(** The same charge over the same budgets. *)
Lemma used_same bs w pub reg st st' :
  msg_inv bs w pub reg → (∀ b, charged b st' = charged b st) →
  ∀ b y0 y, bs !! b = Some y0 → w_budgets w !! b = Some y →
    b_used y = b_used y0 + zsum (charged b) (w_stores w) - charged b st + charged b st'.
Proof. intros Hinv Hsame b y0 y Hy0 Hy. rewrite Hsame, (mi_used _ _ _ _ Hinv b y0 y) by done. lia. Qed.

(** A charged control block's budget covers it. *)
Lemma charge_covered bs w pub reg s st b x : Forall b_ok bs → msg_inv bs w pub reg →
  w_stores w !! s = Some st → w_budgets w !! b = Some x → 0 ≤ charged b st ≤ b_used x.
Proof.
  intros Hbs Hinv Hs Hx.
  assert (b < length bs)%nat as Hb.
  { rewrite <- (mi_length _ _ _ _ Hinv). by apply lookup_lt_Some in Hx. }
  destruct (lookup_lt_is_Some_2 bs b Hb) as [x0 Hx0].
  pose proof (b_used_nonneg _ (Forall_lookup_1 _ _ _ _ Hbs Hx0)).
  rewrite (mi_used _ _ _ _ Hinv b x0 x) by done.
  assert (∀ y, y ∈ w_stores w → 0 ≤ charged b y) as Hpos.
  { intros y [i Hy]%list_elem_of_lookup. eapply charged_nonneg. by apply (mi_stores _ _ _ _ Hinv i). }
  pose proof (zsum_lookup_le _ _ _ _ Hpos Hs). split; [|lia].
  apply Hpos. by apply (list_elem_of_lookup_2 _ s).
Qed.


(** What a call that fails leaves: everything, up to a budget's statistics. *)
Definition unchanged w w' : Prop :=
  w_stores w' = w_stores w ∧ w_handles w' = w_handles w ∧ w_calls w' = w_calls w ∧
  Forall2 (λ x x', b_used x' = b_used x) (w_budgets w) (w_budgets w').

Lemma unchanged_refl w : unchanged w w.
Proof.
  split_and!; try done. apply Forall2_same_length_lookup_2; [done|]. intros i x y Hx Hy. by simplify_eq.
Qed.

(** A failed call, or the invariant after a successful one. *)
Definition msg_step_ok bs pub reg w (op : msg_op) (out : tr_status * world B) : Prop :=
  msg_inv bs out.2 (pub ++ msg_published op out.1) (msg_region op out.1 reg) ∧
  (out.1 = TR_OK ∨ unchanged w out.2).

Lemma step_refused bs pub reg w op ret : msg_inv bs w pub reg → ret ≠ TR_OK →
  msg_step_ok bs pub reg w op (ret, w).
Proof.
  intros Hinv Hret. split; [|right; apply unchanged_refl]. simpl.
  replace (msg_published op ret) with ([] : list (Z * Z)) by (by destruct op, ret).
  replace (msg_region op ret reg) with reg by (by destruct op, ret). by rewrite app_nil_r.
Qed.

Lemma refers_zero_handle s : refers s zero_message = 0.
Proof. done. Qed.

Lemma reserve_inv bs pub reg w s b capacity :
  msg_inv bs w pub reg → msg_valid (Op_reserve s b capacity) w →
  msg_step_ok bs pub reg w (Op_reserve s b capacity) (msg_exec (Op_reserve s b capacity) w).
Proof.
  intros Hinv (Hs & Hb & Hc). unfold msg_exec, tr_message_storage_reserve.
  apply lookup_some_lt in Hs, Hb. set (st := w_stores w !!! s) in *. set (x := w_budgets w !!! b) in *.
  case_bool_decide as Hst; [by apply step_refused|].
  destruct (b_reserve x capacity) as [ret x'] eqn:Hres.
  pose proof (Forall_lookup_1 _ _ _ _ (mi_budgets _ _ _ _ Hinv) Hb) as Hx.
  apply b_reserve_spec in Hres as [Hx' Hcases]; [|done|done].
  pose proof (mi_stores _ _ _ _ Hinv _ _ Hs) as Hok.
  assert (charged b st = 0) as H0 by (unfold charged; by rewrite Hst).
  assert (length (<[b := x']> (w_budgets w)) = length bs) as Hlen.
  { rewrite length_insert. apply Hinv. }
  assert (Forall b_ok (<[b := x']> (w_budgets w))) as Hall.
  { apply Forall_insert; [apply Hinv|done]. }
  destruct Hcases as [[-> Hu]|[Hret Hu]].
  - simpl. split; [simpl|by left]. rewrite app_nil_r. unfold set_store, set_budget. simpl.
    eapply msg_inv_update; try done.
    + eapply used_update; try done.
      * unfold charged at 2; simpl. rewrite decide_True by done. lia.
      * intros b' Hb'. unfold charged; rewrite Hst; simpl. by rewrite decide_False by congruence.
    + destruct Hok as [Hh _ _]. rewrite Hst in Hh. constructor; simpl; [done|done|].
      intros _. exists b. split_and!; try done. rewrite <- (mi_length _ _ _ _ Hinv).
      by apply lookup_lt_Some in Hb.
    + apply Hinv.
    + unfold owed. rewrite Hst. simpl. apply Hinv.
  - assert (ret ≠ TR_OK) as Hne by (destruct Hret as [-> | ->]; done).
    destruct (is_ok ret) eqn:Eok; [by apply is_ok_true in Eok|]. simpl.
    split; simpl.
    + replace (match ret with TR_OK => [] | _ => [] end) with ([] : list (Z * Z)) by (by destruct ret).
      replace (match ret with TR_OK => reg | _ => reg end) with reg by (by destruct ret).
      rewrite app_nil_r. unfold set_budget.
      replace (w_stores w) with (<[s := st]> (w_stores w)) by (by apply list_insert_id).
      eapply msg_inv_update; try done; [eapply used_update; [exact Hinv|exact Hb|lia|done]|apply Hinv|].
      rewrite (Permutation_app_swap_app (w_calls w)). by rewrite <- (mi_calls _ _ _ _ Hinv).
    + right. split_and!; try done. simpl. apply Forall2_same_length_lookup_2; [by rewrite length_insert|].
      intros i y y' Hy Hy'. destruct (decide (i = b)) as [->|Hi].
      * rewrite list_lookup_insert_eq in Hy' by (by apply lookup_lt_Some in Hb). by simplify_eq.
      * rewrite list_lookup_insert_ne in Hy' by done. by simplify_eq.
Qed.

Lemma release_budget_spec bs w pub reg s st b : Forall b_ok bs → msg_inv bs w pub reg →
  w_stores w !! s = Some st → sg_budget st = Some b → (b < length (w_budgets w))%nat →
  charged b st = sg_capacity st →
  ∃ x', b_release (w_budgets w !!! b) (sg_capacity st) = (TR_OK, x') ∧ b_ok x' ∧
    b_used x' = b_used (w_budgets w !!! b) - charged b st.
Proof.
  intros Hbs Hinv Hs Hb Hlt Hc. apply lookup_some_lt in Hlt.
  pose proof (charge_covered _ _ _ _ _ _ _ _ Hbs Hinv Hs Hlt) as Hcov. rewrite Hc in *.
  apply b_release_spec; [|done]. eapply Forall_lookup_1; [apply Hinv|done].
Qed.


Lemma cancel_inv bs pub reg w s : Forall b_ok bs →
  msg_inv bs w pub reg → msg_valid (Op_cancel s) w →
  msg_step_ok bs pub reg w (Op_cancel s) (msg_exec (Op_cancel s) w).
Proof.
  intros Hbs Hinv Hs. unfold msg_exec, tr_message_storage_cancel.
  apply lookup_some_lt in Hs. set (st := w_stores w !!! s) in *.
  case_bool_decide as Hst; [by apply step_refused|].
  pose proof (mi_stores _ _ _ _ Hinv _ _ Hs) as Hok.
  destruct (so_charge _ _ _ _ Hok) as (b & Hb & Hlt & _); [by left|].
  rewrite <- (mi_length _ _ _ _ Hinv) in Hlt.
  assert (charged b st = sg_capacity st) as Hc by (unfold charged; by rewrite Hst, decide_True).
  destruct (release_budget_spec _ _ _ _ _ _ _ Hbs Hinv Hs Hb Hlt Hc) as (x' & Hrel & Hx' & Hu).
  unfold release_budget. rewrite Hb, Hrel. simpl. split; [simpl|by left].
  rewrite app_nil_r. unfold set_store, set_budget. simpl. apply lookup_some_lt in Hlt.
  eapply msg_inv_update; try done.
  - rewrite length_insert. apply Hinv.
  - apply Forall_insert; [apply Hinv|done].
  - eapply used_update; [exact Hinv|exact Hlt| |].
    + rewrite Hu. unfold charged at 3; simpl. lia.
    + intros b' Hb'. unfold charged; rewrite Hst; simpl. by rewrite decide_False by congruence.
  - destruct Hok as [Hh _ _]. rewrite Hst in Hh. constructor; simpl; [done|done|]. by intros [|].
  - apply Hinv.
  - unfold owed. rewrite Hst. simpl. apply Hinv.
Qed.

(** An empty handle set on control block [s]. *)
Lemma holders_set s s' hs h m : hs !! h = Some zero_message → mg_storage m = Some s →
  holders s' (<[h := m]> hs) = holders s' hs + (if decide (s' = s) then 1 else 0).
Proof.
  intros Hh Hm. rewrite (holders_insert _ _ _ zero_message) by done. rewrite refers_zero_handle.
  unfold refers. rewrite Hm. repeat case_decide; simplify_eq; lia.
Qed.

(** A handle that holds nothing is the empty one. *)
Lemma empty_handle bs w pub reg h : msg_inv bs w pub reg → (h < length (w_handles w))%nat →
  mg_storage (w_handles w !!! h) = None → w_handles w !! h = Some zero_message.
Proof.
  intros Hinv Hh Hm. apply lookup_some_lt in Hh.
  pose proof (Forall_lookup_1 _ _ _ _ (mi_handles _ _ _ _ Hinv) Hh) as Hok.
  unfold handle_ok in Hok. rewrite Hm in Hok. by rewrite <- Hok.
Qed.

(** Republishing a control block nobody refers to. *)
Lemma handles_region n reg s region hs : holders s hs = 0 → Forall (handle_ok n reg) hs →
  Forall (handle_ok n (<[s := region]> reg)) hs.
Proof.
  intros Hh Hhs. apply list.Forall_forall. intros m Hm.
  pose proof (proj1 (list.Forall_forall _ _) Hhs m Hm) as Hok. unfold handle_ok in *.
  destruct (mg_storage m) as [s'|] eqn:E; [|done]. destruct (decide (s' = s)) as [->|Hne].
  - apply list_elem_of_lookup in Hm as [i Hi]. pose proof (holders_pos s hs i m Hi E). lia.
  - by rewrite lookup_insert_ne.
Qed.

Lemma publish_inv bs pub reg w s data len release arg h :
  msg_inv bs w pub reg → msg_valid (Op_publish s data len release arg h) w →
  msg_step_ok bs pub reg w (Op_publish s data len release arg h)
    (msg_exec (Op_publish s data len release arg h) w).
Proof.
  intros Hinv (Hs & Hh & Hlen). unfold msg_exec, tr_message_storage_publish.
  apply lookup_some_lt in Hs. set (st := w_stores w !!! s) in *.
  case_if; [by apply step_refused|].
  case_if; [by apply step_refused|]. case_if; [by apply step_refused|].
  assert (sg_state st = TR_MESSAGE_STORAGE_RESERVED) as Hst by (by apply dec_stable).
  apply eq_None_not_Some, (empty_handle _ _ _ _ _ Hinv Hh) in H0.
  pose proof (mi_stores _ _ _ _ Hinv _ _ Hs) as Hok. pose proof (so_holders _ _ _ _ Hok) as H1.
  rewrite Hst in H1. simpl. split; [simpl|by left]. unfold set_handle, set_store. simpl.
  eapply msg_inv_update; try done; try apply Hinv.
  - eapply used_same; [done|]. intros b. unfold charged. by rewrite Hst.
  - constructor; simpl.
    + rewrite (holders_set s) by done. rewrite decide_True by done. lia.
    + intros _. split; [word_lia|done].
    + intros _. apply (so_charge _ _ _ _ Hok). by left.
  - intros s' Hs'. rewrite (holders_set s) by done. rewrite decide_False by done. lia.
  - apply Forall_insert; [apply handles_region; [done|apply Hinv]|].
    split; [by apply lookup_lt_Some in Hs|]. exists (data, len). rewrite lookup_insert_eq.
    split; [done|]. exists 0. simpl. unfold u64_ok in Hlen. split_and!; try lia.
    destruct data; simpl; [by rewrite Z.add_0_r|done].
  - unfold owed at 1. rewrite Hst. simpl. rewrite (mi_calls _ _ _ _ Hinv).
    rewrite <- app_assoc. apply Permutation_app_head. by rewrite Permutation_app_comm.
Qed.

Lemma slice_inv bs pub reg w h offset len o :
  msg_inv bs w pub reg →
  (h < length (w_handles w))%nat → (o < length (w_handles w))%nat → 0 ≤ offset → 0 ≤ len →
  msg_step_ok bs pub reg w (Op_slice h offset len o) (msg_exec (Op_slice h offset len o) w).
Proof.
  intros Hinv Hh Ho Hoff Hlen. unfold msg_exec, tr_message_slice.
  destruct (Nat.eqb_spec h o) as [|Hne]; [by apply step_refused|].
  destruct (mg_storage (w_handles w !!! h)) as [s|] eqn:Em; [|by apply step_refused].
  case_bool_decide as Hout; [by apply step_refused|]. case_if; [by apply step_refused|].
  apply eq_None_not_Some, (empty_handle _ _ _ _ _ Hinv Ho) in Hout.
  apply lookup_some_lt in Hh. set (m := w_handles w !!! h) in *.
  pose proof (Forall_lookup_1 _ _ _ _ (mi_handles _ _ _ _ Hinv) Hh) as Hm.
  unfold handle_ok in Hm. rewrite Em in Hm. destruct Hm as (Hs & [d l] & Hreg & off & Hin).
  apply lookup_some_lt in Hs. set (st := w_stores w !!! s) in *.
  pose proof (mi_stores _ _ _ _ Hinv _ _ Hs) as Hok. pose proof (so_holders _ _ _ _ Hok) as H1.
  pose proof (holders_pos _ _ _ _ Hh Em) as Hpos.
  assert (sg_state st = TR_MESSAGE_STORAGE_LIVE) as Hst by (destruct (sg_state st); done || lia).
  destruct (so_live _ _ _ _ Hok Hst) as [Hrefs Hrel]. rewrite Hst in H1.
  unfold tr_refcount_get. case_if; [by apply step_refused|].
  simpl. split; [simpl|by left]. rewrite app_nil_r. unfold set_handle, set_store. simpl.
  eapply msg_inv_update; try done; try apply Hinv.
  - eapply used_same; [done|]. intros b. by unfold charged.
  - constructor; simpl.
    + rewrite (holders_set s) by done. rewrite decide_True, Hst by done. lia.
    + intros _. split; [word_lia|done].
    + apply (so_charge _ _ _ _ Hok).
  - intros s' Hs'. rewrite (holders_set s) by done. rewrite decide_False by done. lia.
  - apply Forall_insert; [apply Hinv|]. split; [by apply lookup_lt_Some in Hs|].
    exists (d, l). split; [done|]. exists (off + offset). simpl in *.
    destruct Hin as (? & ? & ? & Hd). split_and!; try lia. rewrite Hd.
    destruct (Z.eqb_spec offset 0) as [->|]; destruct d; simpl; try done; f_equal; lia.
  - unfold owed at 1 2; simpl. rewrite Permutation_app_swap_app. apply Permutation_app_head, Hinv.
Qed.

Lemma none_move_inv bs pub reg w h limits o :
  msg_inv bs w pub reg → msg_valid (Op_none_move h limits o) w →
  msg_step_ok bs pub reg w (Op_none_move h limits o) (msg_exec (Op_none_move h limits o) w).
Proof.
  intros Hinv (Hh & Ho). unfold msg_exec, tr_message_none_move.
  destruct (Nat.eqb_spec h o) as [|Hne]; [by apply step_refused|].
  case_if; [by apply step_refused|]. case_if; [by apply step_refused|].
  apply eq_None_not_Some, (empty_handle _ _ _ _ _ Hinv Ho) in H0.
  apply lookup_some_lt in Hh. set (m := w_handles w !!! h) in *.
  split; [simpl|by left]. rewrite app_nil_r.
  pose proof (Forall_lookup_1 _ _ _ _ (mi_handles _ _ _ _ Hinv) Hh) as Hm.
  assert (∀ s, holders s (<[h := zero_message]> (<[o := m]> (w_handles w))) = holders s (w_handles w)) as Hsame.
  { intros s. rewrite (holders_insert _ _ _ m) by (by rewrite list_lookup_insert_ne).
    rewrite (holders_insert _ _ _ zero_message) by done. rewrite refers_zero_handle. lia. }
  constructor; simpl; try apply Hinv.
  - intros s st Hs. destruct (mi_stores _ _ _ _ Hinv _ _ Hs) as [Hh1 Hh2 Hh3].
    constructor; try done. by rewrite Hsame.
  - apply Forall_insert; [|done]. apply Forall_insert; [apply Hinv|done].
Qed.

Lemma recycled_charged b l l' : recycled l l' → zsum (charged b) l' = zsum (charged b) l.
Proof.
  induction 1 as [|st st' l l' Hst _ IH]; [done|]. simpl. rewrite IH. f_equal.
  destruct Hst as [->|[Hst ->]]; [done|]. unfold charged. by rewrite Hst.
Qed.

Lemma recycled_owed l l' : recycled l l' → omap owed l' = omap owed l.
Proof.
  induction 1 as [|st st' l l' Hst _ IH]; [done|]. csimpl. rewrite IH.
  destruct Hst as [->|[Hst ->]]; [done|]. assert (owed st = None) as -> by (unfold owed; by rewrite Hst). done.
Qed.

(** Recycling retired control blocks keeps the invariant. *)
Lemma recycled_inv bs w pub reg stores : msg_inv bs w pub reg → recycled (w_stores w) stores →
  msg_inv bs (mk_world stores (w_handles w) (w_budgets w) (w_calls w)) pub reg.
Proof.
  intros Hinv Hrec. constructor; simpl; try apply Hinv.
  - intros b x0 x. rewrite (recycled_charged b _ _ Hrec). by apply Hinv.
  - intros s st' Hs. destruct (Forall2_lookup_r _ _ _ _ _ Hrec Hs) as (st & Hs0 & Hst).
    pose proof (mi_stores _ _ _ _ Hinv _ _ Hs0) as Hok.
    destruct Hst as [->|[Hst ->]]; [done|]. destruct Hok as [Hh _ _]. rewrite Hst in Hh.
    constructor; simpl; [done|done|]. by intros [|].
  - rewrite <- (Forall2_length _ _ _ Hrec). apply Hinv.
  - rewrite (recycled_owed _ _ Hrec). apply Hinv.
Qed.

(** The holders after a handle on [s] is emptied. *)
Lemma holders_clear s s' hs h m : hs !! h = Some m → mg_storage m = Some s →
  holders s' (<[h := zero_message]> hs) = holders s' hs - (if decide (s' = s) then 1 else 0).
Proof.
  intros Hh Hm. rewrite (holders_insert _ _ _ m) by done. rewrite refers_zero_handle.
  unfold refers. rewrite Hm. repeat case_decide; simplify_eq; lia.
Qed.

(** What releasing a handle does: one handle fewer, and with the last one the callback is
    called and the budget gets its bytes back. *)
Definition released w w' h : Prop :=
  ∃ s, mg_storage (w_handles w !!! h) = Some s ∧
  let st := w_stores w !!! s in
  w_handles w' = <[h := zero_message]> (w_handles w) ∧
  if sg_refs st =? 1 then
    ∃ f b, sg_release st = Some f ∧ sg_budget st = Some b ∧
      w_calls w' = w_calls w ++ [(f, sg_release_arg st)] ∧
      b_used (w_budgets w' !!! b) = b_used (w_budgets w !!! b) - sg_capacity st
  else w_calls w' = w_calls w ∧ w_budgets w' = w_budgets w.

Lemma release_inv bs pub reg w h : callback_ok → Forall b_ok bs →
  msg_inv bs w pub reg → msg_valid (Op_release h) w →
  msg_step_ok bs pub reg w (Op_release h) (msg_exec (Op_release h) w) ∧
  (is_Some (mg_storage (w_handles w !!! h)) →
   (msg_exec (Op_release h) w).1 = TR_OK ∧ released w (msg_exec (Op_release h) w).2 h).
Proof.
  intros Hcb Hbs Hinv Hh. unfold msg_exec, tr_message_release.
  apply lookup_some_lt in Hh. set (m := w_handles w !!! h) in *.
  destruct (mg_storage m) as [s|] eqn:Em; [|split; [by apply step_refused|by intros [? [=]]]].
  pose proof (Forall_lookup_1 _ _ _ _ (mi_handles _ _ _ _ Hinv) Hh) as Hm.
  unfold handle_ok in Hm. rewrite Em in Hm. destruct Hm as (Hs & _).
  apply lookup_some_lt in Hs. simpl. set (st := w_stores w !!! s) in *.
  pose proof (mi_stores _ _ _ _ Hinv _ _ Hs) as Hok. pose proof (so_holders _ _ _ _ Hok) as Hcount.
  pose proof (holders_pos _ _ _ _ Hh Em) as Hpos.
  assert (sg_state st = TR_MESSAGE_STORAGE_LIVE) as Hst by (destruct (sg_state st); done || lia).
  destruct (so_live _ _ _ _ Hok Hst) as [Hrefs [f Hf]]. rewrite Hst in Hcount.
  destruct (so_charge _ _ _ _ Hok (or_intror Hst)) as (b & Hb & Hlt & Hcap).
  assert (Forall (handle_ok (length (w_stores w)) reg) (<[h := zero_message]> (w_handles w))) as Hhs.
  { apply Forall_insert; [apply Hinv|done]. }
  assert (owed st = Some (f, sg_release_arg st)) as Howed by (unfold owed; by rewrite Hst, Hf).
  destruct (Z.eqb_spec (sg_refs st) 0) as [|H0]; [lia|].
  destruct (Z.eqb_spec (sg_refs st) 1) as [H1|H1]; simpl; rewrite Hb, ?Hf.
  - rewrite <- (mi_length _ _ _ _ Hinv) in Hlt.
    assert (charged b st = sg_capacity st) as Hc by (unfold charged; by rewrite Hst, decide_True).
    destruct (release_budget_spec _ _ _ _ _ _ _ Hbs Hinv Hs Hb Hlt Hc) as (x' & Hrel & Hx' & Hu).
    apply lookup_some_lt in Hlt. unfold call_release, set_store; simpl. rewrite list_insert_insert_eq.
    set (w1 := mk_world _ _ _ _). pose proof (Hcb f (sg_release_arg st) w1) as (Eh & Eb & Ec & Hrec).
    unfold release_budget. rewrite Eb. simpl. rewrite Hrel. simpl.
    split; [split; [|by left]|].
    + simpl. rewrite app_nil_r.
      unfold set_budget. rewrite Eh, Eb, Ec. simpl.
      apply (recycled_inv _ (mk_world (w_stores w1) (w_handles w1) (<[b := x']> (w_budgets w)) (w_calls w1)));
        [|done].
      unfold w1; simpl. eapply msg_inv_update; try done.
      * etransitivity; [apply length_insert|apply Hinv].
      * apply Forall_insert; [apply Hinv|done].
      * eapply used_update; [exact Hinv|exact Hlt| |].
        -- rewrite Hu. unfold charged at 3; simpl. lia.
        -- intros b' Hb'. unfold charged; rewrite Hst; simpl. by rewrite decide_False by congruence.
      * constructor; simpl; [|done|by intros [|]]. rewrite (holders_clear s _ _ _ m) by done.
        rewrite decide_True by done. lia.
      * intros s' Hs'. rewrite (holders_clear s _ _ _ m) by done. rewrite decide_False by done. lia.
      * rewrite Howed. simpl. rewrite <- app_assoc. simpl. rewrite <- Permutation_middle.
        apply perm_skip, Hinv.
    + intros _. split; [done|]. exists s. split; [done|]. cbv zeta; fold st. rewrite H1. simpl.
      split; [done|]. exists f, b. split_and!; try done. unfold set_budget; simpl. rewrite Eb. simpl.
      rewrite list_lookup_total_insert_eq by (by apply lookup_lt_Some in Hlt). lia.
  - split; [split; [|by left]|].
    + simpl. rewrite app_nil_r. unfold set_store; simpl. eapply msg_inv_update; try done; try apply Hinv.
      * eapply used_same; [done|]. intros b'. by unfold charged; simpl; rewrite Hb.
      * constructor; simpl.
        -- rewrite (holders_clear s _ _ _ m) by done. rewrite decide_True, Hst by done. lia.
        -- intros _. split; [lia|done].
        -- intros _. eauto.
      * intros s' Hs'. rewrite (holders_clear s _ _ _ m) by done. rewrite decide_False by done. lia.
      * unfold owed at 2; simpl. rewrite Hst, Howed. simpl. rewrite <- Permutation_middle.
        apply perm_skip, Hinv.
    + intros _. split; [done|]. exists s. split; [done|]. cbv zeta; fold st.
      destruct (Z.eqb_spec (sg_refs st) 1); [done|]. done.
Qed.

Lemma msg_exec_inv bs pub reg w op : callback_ok → Forall b_ok bs →
  msg_inv bs w pub reg → msg_valid op w → msg_step_ok bs pub reg w op (msg_exec op w).
Proof.
  intros Hcb Hbs Hinv Hv. destruct op.
  - by apply reserve_inv.
  - by apply cancel_inv.
  - by apply publish_inv.
  - destruct Hv as (Hh & Ho & [Hoff _] & [Hlen _]). by apply slice_inv.
  - destruct Hv as [Hh Ho]. assert (0 ≤ mg_len (w_handles w !!! h)) as Hlen.
    { pose proof (Forall_lookup_1 _ _ _ _ (mi_handles _ _ _ _ Hinv) (lookup_some_lt _ _ Hh)) as Hm.
      unfold handle_ok in Hm. destruct (mg_storage (w_handles w !!! h)).
      - destruct Hm as (_ & region & _ & off & _ & ? & _). done.
      - by rewrite Hm. }
    by apply (slice_inv _ _ _ _ h 0 (mg_len (w_handles w !!! h)) o).
  - by apply none_move_inv.
  - by apply release_inv.
Qed.

Lemma msg_reach_inv n k bs w pub reg : callback_ok → Forall b_ok bs →
  msg_reach n k bs w pub reg → msg_inv bs w pub reg.
Proof.
  intros Hcb Hbs. induction 1 as [|op w pub reg _ IH Hv]; [|by apply msg_exec_inv].
  assert (∀ b, zsum (charged b) (replicate n zero_storage) = 0) as H0.
  { intros b. apply zsum_zero. intros x [-> _]%elem_of_replicate. done. }
  constructor; simpl; try done.
  - intros b x0 x Hx0 Hx. rewrite H0. simplify_eq. lia.
  - intros s st [-> _]%lookup_replicate. constructor; simpl; [|done|by intros [|]].
    apply zsum_zero. intros x [-> _]%elem_of_replicate. done.
  - by apply Forall_replicate.
  - induction n; simpl; [done|]. apply IHn.
    intros b. apply zsum_zero. intros x [-> _]%elem_of_replicate. done.
Qed.

End History.

(** * Theorems *)

Section Theorems.
Context {B : Type} `{!Budget B} `{!Inhabited B}.
Context (callback : Z → Z → world B → world B).
Implicit Types (w : world B) (s h : nat).

(** C24: In every history of messages: each budget holds what it held before plus the capacity
    of every control block reserved or live, once; a control block is live exactly while
    handles refer to it and counts them; and the callbacks called are those of the
    publications that are no longer live, each once. *)
Theorem message_storage_accounting (n k : nat) (bs : list B) w (pub : list (Z * Z))
    (reg : gmap nat (option Z * Z))
    (Hcb : callback_ok callback) (Hbs : Forall b_ok bs) (Hw : msg_reach callback n k bs w pub reg) :
  (∀ b x0 x, bs !! b = Some x0 → w_budgets w !! b = Some x →
     b_used x = b_used x0 + zsum (charged b) (w_stores w)) ∧
  (∀ s st, w_stores w !! s = Some st →
     (sg_state st = TR_MESSAGE_STORAGE_LIVE ↔ 0 < holders s (w_handles w)) ∧
     (sg_state st = TR_MESSAGE_STORAGE_LIVE → sg_refs st = holders s (w_handles w))) ∧
  pub ≡ₚ w_calls w ++ omap owed (w_stores w) ∧
  (Forall (λ m, mg_storage m = None) (w_handles w) → pub ≡ₚ w_calls w).
Proof.
  pose proof (msg_reach_inv _ _ _ _ _ _ _ Hcb Hbs Hw) as Hinv.
  assert (∀ s st, w_stores w !! s = Some st →
     (sg_state st = TR_MESSAGE_STORAGE_LIVE ↔ 0 < holders s (w_handles w)) ∧
     (sg_state st = TR_MESSAGE_STORAGE_LIVE → sg_refs st = holders s (w_handles w))) as Hlive.
  { intros s st Hs. destruct (mi_stores _ _ _ _ Hinv _ _ Hs) as [Hh Hl _]. split.
    - split; [intros Hst; destruct (Hl Hst); rewrite Hst in Hh; lia|].
      intros Hpos. destruct (sg_state st); done || lia.
    - intros Hst. by rewrite Hh, Hst. }
  split_and!; [apply Hinv|done|apply Hinv|]. intros Hempty.
  rewrite (mi_calls _ _ _ _ Hinv). replace (omap owed (w_stores w)) with ([] : list (Z * Z));
    [by rewrite app_nil_r|]. symmetry. apply list.elem_of_nil_inv. intros x Hx.
  apply list_elem_of_omap in Hx as (st & Hst & Ho). apply list_elem_of_lookup in Hst as [s Hs].
  destruct (Hlive s st Hs) as [[Hpos _] _].
  assert (sg_state st = TR_MESSAGE_STORAGE_LIVE) as E by (unfold owed in Ho; by destruct (sg_state st)).
  assert (holders s (w_handles w) = 0) as E0; [|specialize (Hpos E); lia].
  apply zsum_zero. intros m Hm. unfold refers.
  rewrite (proj1 (list.Forall_forall _ _) Hempty m Hm). done.
Qed.

(** A handle that holds a message views bytes of what its control block last published,
    and that block is live; a slice views the bytes it was asked for. *)
Theorem message_views_published (n k : nat) (bs : list B) w (pub : list (Z * Z))
    (reg : gmap nat (option Z * Z)) h (v : tr_message_view)
    (Hcb : callback_ok callback) (Hbs : Forall b_ok bs) (Hw : msg_reach callback n k bs w pub reg)
    (Hh : (h < length (w_handles w))%nat)
    (Hv : tr_message_view_of (Some h) true w = (TR_OK, Some v)) :
  (∃ s d l off, mg_storage (w_handles w !!! h) = Some s ∧
     sg_state (w_stores w !!! s) = TR_MESSAGE_STORAGE_LIVE ∧ reg !! s = Some (d, l) ∧
     0 ≤ off ∧ 0 ≤ vw_len v ∧ off + vw_len v ≤ l ∧ vw_data v = (λ a, a + off) <$> d) ∧
  (∀ offset len o w', u64_ok offset → u64_ok len → (o < length (w_handles w))%nat →
     tr_message_slice (Some h) offset len (Some o) w = (TR_OK, w') →
     offset + len ≤ vw_len v ∧ tr_message_view_of (Some h) true w' = (TR_OK, Some v) ∧
     tr_message_view_of (Some o) true w' =
       (TR_OK, Some (mk_view ((λ a, a + offset) <$> vw_data v) len))).
Proof.
  pose proof (msg_reach_inv _ _ _ _ _ _ _ Hcb Hbs Hw) as Hinv.
  apply lookup_some_lt in Hh. unfold tr_message_view_of in Hv. simpl in Hv.
  case_bool_decide as Hs; [|done]. simplify_eq/=. destruct Hs as [s Em].
  pose proof (Forall_lookup_1 _ _ _ _ (mi_handles _ _ _ _ Hinv) Hh) as Hm.
  unfold handle_ok in Hm. rewrite Em in Hm. destruct Hm as (Hs & [d l] & Hreg & off & Hin).
  apply lookup_some_lt in Hs. split.
  - exists s, d, l, off. split_and!; try apply Hin; try done.
    destruct (mi_stores _ _ _ _ Hinv _ _ Hs) as [Hc _ _]. pose proof (holders_pos _ _ _ _ Hh Em).
    destruct (sg_state _); done || lia.
  - intros offset len o w' Hoff Hlen Ho. unfold tr_message_slice.
    destruct (Nat.eqb_spec h o) as [|Hne]; [done|]. rewrite Em.
    case_bool_decide as Ho'; [done|]. case_if; [done|]. unfold tr_refcount_get.
    case_if; [done|]. intros [= <-]. unfold tr_message_view_of; simpl.
    rewrite list_lookup_total_insert_ne by done.
    rewrite list_lookup_total_insert_eq by done. rewrite Em. simpl. split_and!; [lia|done|].
    do 3 f_equal. destruct (Z.eqb_spec offset 0) as [->|]; destruct (mg_data _); simpl; try done.
    f_equal. lia.
Qed.

(** A call that fails changes nothing but a budget's statistics; cancelling a reservation
    always succeeds, and so does releasing a handle: its handle is emptied, and with the
    last one the callback is called and the bytes are given back. *)
Theorem message_calls_total (n k : nat) (bs : list B) w (pub : list (Z * Z))
    (reg : gmap nat (option Z * Z))
    (Hcb : callback_ok callback) (Hbs : Forall b_ok bs) (Hw : msg_reach callback n k bs w pub reg) :
  (∀ op, msg_valid op w → (msg_exec callback op w).1 ≠ TR_OK → unchanged w (msg_exec callback op w).2) ∧
  (∀ s, (s < length (w_stores w))%nat → sg_state (w_stores w !!! s) = TR_MESSAGE_STORAGE_RESERVED →
     (tr_message_storage_cancel (Some s) w).1 = TR_OK) ∧
  (∀ h, (h < length (w_handles w))%nat → is_Some (mg_storage (w_handles w !!! h)) →
     (tr_message_release callback (Some h) w).1 = TR_OK ∧
     released w (tr_message_release callback (Some h) w).2 h).
Proof.
  pose proof (msg_reach_inv _ _ _ _ _ _ _ Hcb Hbs Hw) as Hinv. split_and!.
  - intros op Hv Hne. by destruct (msg_exec_inv _ _ _ _ _ op Hcb Hbs Hinv Hv) as [_ [?|?]].
  - intros s Hs Hst. pose proof (msg_exec_inv _ _ _ _ _ (Op_cancel s) Hcb Hbs Hinv Hs) as [Hinv' [|Hun]]; [done|].
    apply lookup_some_lt in Hs. destruct (mi_stores _ _ _ _ Hinv _ _ Hs) as [_ _ Hc].
    destruct Hc as (b & Hb & Hlt & _); [by left|]. rewrite <- (mi_length _ _ _ _ Hinv) in Hlt.
    destruct (release_budget_spec bs w pub reg s _ b Hbs Hinv Hs Hb Hlt) as (x & Hrel & _).
    { unfold charged. by rewrite Hst, decide_True. }
    unfold tr_message_storage_cancel. rewrite Hst. simpl. unfold release_budget. by rewrite Hb, Hrel.
  - intros h Hh Hheld. by apply (release_inv _ _ _ _ _ h Hcb Hbs Hinv Hh).
Qed.

End Theorems.

(** * A concrete history *)

(** Callbacks that recycle every retired control block. *)
Definition recycle (release arg : Z) (w : world budget_ref) : world budget_ref :=
  mk_world (map (λ st, if decide (sg_state st = TR_MESSAGE_STORAGE_RETIRED) then zero_storage else st)
    (w_stores w)) (w_handles w) (w_budgets w) (w_calls w).

Lemma recycle_ok : callback_ok recycle.
Proof.
  intros release arg w. split_and!; try done. unfold recycled, recycle; simpl.
  induction (w_stores w) as [|st l IH]; simpl; constructor; [|done]. case_decide; auto.
Qed.

#[export] Instance budget_ref_inhabited : Inhabited budget_ref := populate (mk_budget_ref inhabitant None).

Fixpoint msg_run (ops : list msg_op) (w : world budget_ref) (pub : list (Z * Z))
    (reg : gmap nat (option Z * Z)) : world budget_ref * list (Z * Z) * gmap nat (option Z * Z) :=
  match ops with
  | [] => (w, pub, reg)
  | op :: ops =>
      let out := msg_exec recycle op w in
      msg_run ops out.2 (pub ++ msg_published op out.1) (msg_region op out.1 reg)
  end.

Fixpoint msg_run_valid (ops : list msg_op) (w : world budget_ref) : Prop :=
  match ops with
  | [] => True
  | op :: ops => msg_valid op w ∧ msg_run_valid ops (msg_exec recycle op w).2
  end.

Lemma msg_run_reach n k bs ops w pub reg :
  msg_reach recycle n k bs w pub reg → msg_run_valid ops w →
  msg_reach recycle n k bs (msg_run ops w pub reg).1.1 (msg_run ops w pub reg).1.2 (msg_run ops w pub reg).2.
Proof.
  revert w pub reg. induction ops as [|op ops IH]; intros w pub reg Hw Hv; simpl in *; [done|].
  destruct Hv as [Hv Hvs]. apply IH; [|done]. by constructor.
Qed.

(** Two control blocks over a budget of 100 bytes: one is published, sliced and moved; the
    other's reservation does not fit until the first is gone. *)
Definition msg_bs : list budget_ref := [mk_budget_ref (tr_memory_budget_init 100) None].
Definition msg_w0 : world budget_ref :=
  mk_world (replicate 2 zero_storage) (replicate 3 zero_message) msg_bs [].
Definition msg_ops : list msg_op :=
  [Op_reserve 0 0 64; Op_reserve 1 0 64; Op_publish 0 (Some 4096) 10 7 1 0; Op_slice 0 2 5 1;
   Op_none_move 0 (mk_msg_limits 16 16) 2].
Definition msg_demo := msg_run msg_ops msg_w0 [] ∅.
Definition msg_demo_end := msg_run [Op_release 1; Op_release 2; Op_reserve 1 0 64] msg_demo.1.1 msg_demo.1.2 msg_demo.2.

Lemma msg_demo_reach : msg_reach recycle 2 3 msg_bs msg_demo.1.1 msg_demo.1.2 msg_demo.2.
Proof.
  apply msg_run_reach; [constructor|]. vm_compute. repeat split; try congruence; lia.
Qed.

Lemma msg_demo_end_reach :
  msg_reach recycle 2 3 msg_bs msg_demo_end.1.1 msg_demo_end.1.2 msg_demo_end.2.
Proof.
  apply msg_run_reach; [apply msg_demo_reach|]. vm_compute. repeat split; try congruence; lia.
Qed.

Lemma msg_bs_ok : Forall b_ok msg_bs.
Proof. repeat constructor; simpl; try word_lia. Qed.

Lemma message_storage_accounting_witness :
  w_calls msg_demo_end.1.1 = [(7, 1)] ∧
  msg_demo_end.1.2 ≡ₚ w_calls msg_demo_end.1.1 ++ omap owed (w_stores msg_demo_end.1.1).
Proof.
  split; [vm_compute; reflexivity|].
  exact (proj1 (proj2 (proj2 (message_storage_accounting recycle 2 3 msg_bs msg_demo_end.1.1
    msg_demo_end.1.2 msg_demo_end.2 recycle_ok msg_bs_ok msg_demo_end_reach)))).
Defined.

Lemma message_views_published_witness :
  tr_message_view_of (Some 1%nat) true msg_demo.1.1 = (TR_OK, Some (mk_view (Some 4098) 5)) ∧
  ∃ s d l off, mg_storage (w_handles msg_demo.1.1 !!! 1%nat) = Some s ∧
     sg_state (w_stores msg_demo.1.1 !!! s) = TR_MESSAGE_STORAGE_LIVE ∧
     msg_demo.2 !! s = Some (d, l) ∧ 0 ≤ off ∧ 0 ≤ 5 ∧ off + 5 ≤ l ∧
     Some 4098 = (λ a, a + off) <$> d.
Proof.
  split; [vm_compute; reflexivity|].
  apply (message_views_published recycle 2 3 msg_bs msg_demo.1.1 msg_demo.1.2 msg_demo.2 1
    (mk_view (Some 4098) 5)).
  - exact recycle_ok.
  - exact msg_bs_ok.
  - exact msg_demo_reach.
  - vm_compute; lia.
  - vm_compute; reflexivity.
Defined.

Lemma message_calls_total_witness :
  (tr_message_release recycle (Some 2%nat) msg_demo.1.1).1 = TR_OK ∧
  released msg_demo.1.1 (tr_message_release recycle (Some 2%nat) msg_demo.1.1).2 2.
Proof.
  apply (message_calls_total recycle 2 3 msg_bs msg_demo.1.1 msg_demo.1.2 msg_demo.2
    recycle_ok msg_bs_ok msg_demo_reach).
  - vm_compute; lia.
  - vm_compute; eexists; reflexivity.
Defined.
