(* ===== verification/ZstdWorkspace.v ===== *)
(** The accounted allocator of the Zstandard backend: the first part of [src/message/zstd.c],
    and the outcomes of [src/message/transform.h].

    Every block that the library asks for carries a header that links it into a chain and says
    what it was charged.  The blocks are a map from addresses to these headers; what [malloc]
    answers is an argument.

    Theorem: whatever a library allocates and frees, the workspace is a map from the blocks in
    use to their sizes: a request is refused exactly when it does not fit, what is charged is
    what is in use and never more than the limit, and the chain reaches every block, so that
    what a library leaks is freed in the end. *)
From S2P Require Import Prelude.

(** * Data *)

Inductive tr_message_transform_outcome :=
| TR_MESSAGE_TRANSFORM_OK
| TR_MESSAGE_TRANSFORM_CANCELLED
| TR_MESSAGE_TRANSFORM_LIMIT
| TR_MESSAGE_TRANSFORM_NOMEM
| TR_MESSAGE_TRANSFORM_BAD_DATA
| TR_MESSAGE_TRANSFORM_INTERNAL.

#[export] Instance tr_message_transform_outcome_eq_dec : EqDecision tr_message_transform_outcome.
Proof. solve_decision. Defined.

(** [union tr_zstd_allocation], the header of a block. *)
Record tr_zstd_allocation := mk_alloc {
  al_previous : option nat;
  al_next : option nat;
  al_bytes : Z
}.
Definition sizeof_zstd_allocation : Z := 32.

(** [zw_blocks]: the blocks that are allocated. *)
Record tr_zstd_workspace := mk_workspace {
  zw_limit : Z;
  zw_current : Z;
  zw_head : option nat;
  zw_failure : tr_message_transform_outcome;
  zw_blocks : gmap nat tr_zstd_allocation
}.

(** * Operations *)

Definition ws_fail (ws : tr_zstd_workspace) (failure : tr_message_transform_outcome) : tr_zstd_workspace :=
  mk_workspace (zw_limit ws) (zw_current ws) (zw_head ws) failure (zw_blocks ws).

(** [q->entry.next = x] and [q->entry.previous = x], when [q] is not NULL. *)
Definition link_next (q x : option nat) (blocks : gmap nat tr_zstd_allocation) : gmap nat tr_zstd_allocation :=
  match q with None => blocks | Some q => alter (λ a, mk_alloc (al_previous a) x (al_bytes a)) q blocks end.
Definition link_previous (q x : option nat) (blocks : gmap nat tr_zstd_allocation) : gmap nat tr_zstd_allocation :=
  match q with None => blocks | Some q => alter (λ a, mk_alloc x (al_next a) (al_bytes a)) q blocks end.

(** [malloc]: the address that [malloc] answers. *)
Definition tr_zstd_allocate (size : Z) (malloc : option nat) (ws : tr_zstd_workspace) : option nat * tr_zstd_workspace :=
  bail (None, ws_fail ws TR_MESSAGE_TRANSFORM_LIMIT) when (size >? SIZE_MAX - sizeof_zstd_allocation) ;;
  let bytes := sizeof_zstd_allocation + size in
  bail (None, ws_fail ws TR_MESSAGE_TRANSFORM_LIMIT) when (bytes >? u64 (zw_limit ws - zw_current ws)) ;;
  match malloc with
  | None => (None, ws_fail ws TR_MESSAGE_TRANSFORM_NOMEM)
  | Some allocation =>
      let blocks := <[allocation := mk_alloc None (zw_head ws) bytes]> (zw_blocks ws) in
      (Some allocation, mk_workspace (zw_limit ws) (u64 (zw_current ws + bytes)) (Some allocation) (zw_failure ws)
         (link_previous (zw_head ws) (Some allocation) blocks))
  end.

(** A pointer that was not allocated is none that the library frees. *)
Definition tr_zstd_deallocate (pointer : option nat) (ws : tr_zstd_workspace) : tr_zstd_workspace :=
  match pointer with
  | None => ws
  | Some allocation =>
      match zw_blocks ws !! allocation with
      | None => ws
      | Some a =>
          let head := match al_previous a with Some _ => zw_head ws | None => al_next a end in
          let blocks := link_next (al_previous a) (al_next a) (zw_blocks ws) in
          let blocks := link_previous (al_next a) (al_previous a) blocks in
          mk_workspace (zw_limit ws) (u64 (zw_current ws - al_bytes a)) head (zw_failure ws) (delete allocation blocks)
      end
  end.

(** The blocks that are left are freed along the chain; [None]: the fuel was not enough. *)
Fixpoint free_chain (fuel : nat) (head : option nat) (blocks : gmap nat tr_zstd_allocation) : option (gmap nat tr_zstd_allocation) :=
  match fuel, head with
  | _, None => Some blocks
  | O, Some _ => None
  | S fuel, Some allocation =>
      let next := match blocks !! allocation with Some a => al_next a | None => None end in
      free_chain fuel next (delete allocation blocks)
  end.

(** * What the library does with it *)

Inductive ws_request :=
| Ask (size : Z) (malloc : option nat)
| Free (pointer : option nat).

Definition ws_exec (r : ws_request) (ws : tr_zstd_workspace) : option nat * tr_zstd_workspace :=
  match r with
  | Ask size malloc => tr_zstd_allocate size malloc ws
  | Free pointer => (None, tr_zstd_deallocate pointer ws)
  end.

(** [malloc] answers with memory that is not in use; what is freed was allocated. *)
Definition ws_request_ok (r : ws_request) (ws : tr_zstd_workspace) : Prop :=
  match r with
  | Ask size malloc => u64_ok size ∧ ∀ p, malloc = Some p → zw_blocks ws !! p = None
  | Free pointer => ∀ p, pointer = Some p → is_Some (zw_blocks ws !! p)
  end.

Inductive ws_uses : tr_zstd_workspace → tr_zstd_workspace → Prop :=
| uses_nothing ws : ws_uses ws ws
| uses_more ws r ws' : ws_request_ok r ws → ws_uses (ws_exec r ws).2 ws' → ws_uses ws ws'.

(** ** The specification: a map from the blocks in use to their sizes *)

Definition in_use (m : gmap nat Z) : Z := zsum snd (map_to_list m).

Definition spec_exec (limit : Z) (r : ws_request) (m : gmap nat Z) : option nat * gmap nat Z :=
  match r with
  | Ask size malloc =>
      match malloc with
      | Some p => if in_use m + sizeof_zstd_allocation + size <=? limit then (Some p, <[p := sizeof_zstd_allocation + size]> m) else (None, m)
      | None => (None, m)
      end
  | Free None => (None, m)
  | Free (Some p) => (None, delete p m)
  end.

(** * Lemmas *)

(** The chain [l] of blocks from [head], after [previous]. *)
Fixpoint linked (blocks : gmap nat tr_zstd_allocation) (previous head : option nat) (l : list (nat * Z)) : Prop :=
  match l with
  | [] => head = None
  | (p, n) :: l => head = Some p ∧ ∃ next, blocks !! p = Some (mk_alloc previous next n) ∧ linked blocks (Some p) next l
  end.

Lemma linked_frame blocks blocks' previous head l : (∀ p, p ∈ l.*1 → blocks' !! p = blocks !! p) →
  linked blocks previous head l → linked blocks' previous head l.
Proof.
  revert previous head. induction l as [|[p n] l IH]; intros previous head F; [auto|]. cbn. intros (-> & next & B & L).
  split; [reflexivity|]. exists next. split; [rewrite F; [exact B|by left]|]. apply IH; [|exact L]. intros q Q. apply F. by right.
Qed.

(** The first block, and the one before the end. *)
Definition first_of (l : list (nat * Z)) : option nat := match l with [] => None | (p, _) :: _ => Some p end.
Fixpoint ends (previous : option nat) (l : list (nat * Z)) : option nat :=
  match l with [] => previous | (p, _) :: l => ends (Some p) l end.

Lemma linked_first blocks previous head l : linked blocks previous head l → head = first_of l.
Proof. destruct l as [|[p n] l]; [auto|]. by intros [-> _]. Qed.

Lemma linked_at blocks previous head l1 p n l2 : linked blocks previous head (l1 ++ (p, n) :: l2) →
  blocks !! p = Some (mk_alloc (ends previous l1) (first_of l2) n).
Proof.
  revert previous head. induction l1 as [|[q m] l1 IH]; intros previous head; cbn.
  - intros (_ & next & B & L). by rewrite <- (linked_first _ _ _ _ L).
  - intros (_ & next & _ & L). apply (IH _ _ L).
Qed.

Lemma ends_in previous l : ends previous l = previous ∨ ∃ q, ends previous l = Some q ∧ q ∈ l.*1.
Proof.
  revert previous. induction l as [|[q m] l IH]; intros previous; cbn; [by left|]. right.
  destruct (IH (Some q)) as [->|(r & -> & R)]; [exists q; split; [reflexivity|by left]|exists r; split; [reflexivity|by right]].
Qed.

Definition unlinked (p : nat) (a : tr_zstd_allocation) (blocks : gmap nat tr_zstd_allocation) : gmap nat tr_zstd_allocation :=
  delete p (link_previous (al_next a) (al_previous a) (link_next (al_previous a) (al_next a) blocks)).

Lemma link_next_ne q x blocks r : q ≠ Some r → link_next q x blocks !! r = blocks !! r.
Proof. destruct q as [q|]; cbn; [|done]. intros N. apply lookup_alter_ne. congruence. Qed.
Lemma link_previous_ne q x blocks r : q ≠ Some r → link_previous q x blocks !! r = blocks !! r.
Proof. destruct q as [q|]; cbn; [|done]. intros N. apply lookup_alter_ne. congruence. Qed.

Lemma link_next_none q x blocks r : blocks !! r = None → link_next q x blocks !! r = None.
Proof. intros E. destruct q as [q|]; cbn; [|exact E]. rewrite lookup_alter. case_decide; subst; [rewrite E|]; done. Qed.
Lemma link_previous_none q x blocks r : blocks !! r = None → link_previous q x blocks !! r = None.
Proof. intros E. destruct q as [q|]; cbn; [|exact E]. rewrite lookup_alter. case_decide; subst; [rewrite E|]; done. Qed.

Lemma unlinked_ne p a blocks r : r ≠ p → al_previous a ≠ Some r → al_next a ≠ Some r → unlinked p a blocks !! r = blocks !! r.
Proof. intros N P X. unfold unlinked. rewrite lookup_delete_ne, link_previous_ne, link_next_ne by congruence. reflexivity. Qed.

(** A block is taken out of the chain. *)
Lemma linked_remove blocks previous head l1 p n l2 : NoDup (l1 ++ (p, n) :: l2).*1 →
  (∀ q, previous = Some q → q ∉ (l1 ++ (p, n) :: l2).*1) → linked blocks previous head (l1 ++ (p, n) :: l2) →
  linked (unlinked p (mk_alloc (ends previous l1) (first_of l2) n) blocks) previous (first_of (l1 ++ l2)) (l1 ++ l2).
Proof.
  revert previous head. induction l1 as [|[q m] l1 IH]; intros previous head D O L.
  - cbn in *. destruct L as (_ & next & B & L). apply NoDup_cons in D as [D1 D2]. destruct l2 as [|[q m] l2]; [done|]. cbn in *.
    destruct L as (-> & nx & B' & L). split; [reflexivity|]. exists nx. apply NoDup_cons in D2 as [D2 D3].
    assert (N : q ≠ p) by set_solver. split.
    + unfold unlinked. cbn. rewrite lookup_delete_ne by congruence. rewrite lookup_alter_eq, link_next_ne, B'; [reflexivity|].
      intros ->. apply (O q eq_refl). set_solver.
    + eapply linked_frame; [|exact L]. intros r R. apply unlinked_ne; cbn; [set_solver| |set_solver].
      intros ->. apply (O r eq_refl). set_solver.
  - cbn in D, O, L |- *. destruct L as (_ & next & B & L). apply NoDup_cons in D as [D1 D2].
    assert (Dq : q ∉ l1.*1 ∧ q ≠ p ∧ q ∉ l2.*1) by (rewrite fmap_app in D1; set_solver). destruct Dq as (Q1 & Q2 & Q3).
    split; [reflexivity|]. exists (first_of (l1 ++ l2)). split.
    + unfold unlinked. cbn. rewrite lookup_delete_ne by congruence.
      rewrite link_previous_ne by (destruct l2 as [|[]]; cbn in *; [done|]; set_solver).
      destruct l1 as [|[r k] l1]; cbn in *.
      * rewrite lookup_alter_eq, B. reflexivity.
      * rewrite link_next_ne; [destruct L as [-> _]; exact B|]. destruct (ends_in (Some r) l1) as [->|(t & -> & T)]; set_solver.
    + apply (IH _ next); [exact D2| |exact L]. intros t [= <-]. exact D1.
Qed.

(** ** The invariant *)

Record ws_inv (ws : tr_zstd_workspace) (l : list (nat * Z)) : Prop := {
  wi_linked : linked (zw_blocks ws) None (zw_head ws) l;
  wi_once : NoDup l.*1;
  wi_all p : is_Some (zw_blocks ws !! p) → p ∈ l.*1;
  wi_current : zw_current ws = zsum snd l;
  wi_limit : zw_current ws ≤ zw_limit ws ∧ u64_ok (zw_limit ws);
  wi_sizes : Forall (λ x, 0 < x.2) l
}.

Definition zw_sizes (ws : tr_zstd_workspace) : gmap nat Z := al_bytes <$> zw_blocks ws.

Definition fresh_workspace (limit : Z) : tr_zstd_workspace := mk_workspace limit 0 None TR_MESSAGE_TRANSFORM_OK ∅.

Lemma fresh_inv limit : u64_ok limit → ws_inv (fresh_workspace limit) [].
Proof. intros L. split; try done; cbn; [by constructor|intros p; rewrite lookup_empty; by intros []|unfold u64_ok in *; lia]. Qed.

Lemma sizes_nonneg (l : list (nat * Z)) : Forall (λ x, 0 < x.2) l → 0 ≤ zsum snd l.
Proof. intros F. apply zsum_nonneg. intros x X. rewrite list.Forall_forall in F. specialize (F x X). cbn in F. lia. Qed.

(** The sizes of the blocks are those of the chain. *)
Lemma inv_sizes ws l : ws_inv ws l → zw_sizes ws = list_to_map l.
Proof.
  intros [L N A _ _ _]. apply map_eq. intros p. unfold zw_sizes. rewrite lookup_fmap.
  destruct (zw_blocks ws !! p) as [a|] eqn:E; cbn.
  - destruct (list_elem_of_fmap_1 _ _ _ (A p (mk_is_Some _ _ E))) as ([q n] & -> & X). apply list_elem_of_split in X as (l1 & l2 & ->).
    pose proof (linked_at _ _ _ _ _ _ _ L) as B. cbn in E. rewrite B in E. injection E as <-. cbn. symmetry.
    apply elem_of_list_to_map_1; [exact N|]. apply elem_of_app. right. by left.
  - symmetry. apply not_elem_of_list_to_map_1. intros X. apply list_elem_of_fmap_1 in X as ([q n] & -> & X). apply list_elem_of_split in X as (l1 & l2 & ->).
    pose proof (linked_at _ _ _ _ _ _ _ L) as B. cbn in E. congruence.
Qed.

Lemma zsum_perm {A} (f : A → Z) l l' : l ≡ₚ l' → zsum f l = zsum f l'.
Proof. induction 1; cbn; lia. Qed.

Lemma inv_in_use ws l : ws_inv ws l → in_use (zw_sizes ws) = zw_current ws.
Proof.
  intros I. rewrite (inv_sizes _ _ I), (wi_current _ _ I). apply zsum_perm. apply map_to_list_to_map, (wi_once _ _ I).
Qed.

(** A block is put in front. *)
Lemma allocate_inv ws l p bytes : ws_inv ws l → zw_blocks ws !! p = None → 0 < bytes ≤ zw_limit ws - zw_current ws →
  ws_inv (mk_workspace (zw_limit ws) (u64 (zw_current ws + bytes)) (Some p) (zw_failure ws)
    (link_previous (zw_head ws) (Some p) (<[p := mk_alloc None (zw_head ws) bytes]> (zw_blocks ws)))) ((p, bytes) :: l).
Proof.
  intros I F B. destruct I as [L N A C [M U] S]. pose proof (sizes_nonneg _ S) as P.
  assert (O : p ∉ l.*1).
  { intros X. apply list_elem_of_fmap_1 in X as ([q n] & -> & X). apply list_elem_of_split in X as (l1 & l2 & ->).
    pose proof (linked_at _ _ _ _ _ _ _ L). cbn in F. congruence. }
  split; cbn [zw_blocks zw_head zw_current zw_limit].
  - cbn. split; [reflexivity|]. exists (zw_head ws). pose proof (linked_first _ _ _ _ L) as E. split.
    + rewrite link_previous_ne; [apply lookup_insert_eq|]. rewrite E. destruct l as [|[q n] l]; cbn in *; [done|]. set_solver.
    + destruct l as [|[q n] l]; [exact L|]. cbn in *. destruct L as (-> & next & B' & L). split; [reflexivity|]. exists next. cbn [link_previous].
      apply NoDup_cons in N as [N1 N2]. assert (q ≠ p ∧ p ∉ l.*1) as [Q1 Q2] by set_solver. split.
      * rewrite lookup_alter_eq, lookup_insert_ne, B' by congruence. reflexivity.
      * eapply linked_frame; [|exact L]. intros r R. rewrite lookup_alter_ne, lookup_insert_ne by set_solver. reflexivity.
  - cbn. by constructor.
  - intros r R. cbn. destruct (decide (r = p)) as [->|X]; [by left|]. right. apply A. destruct (decide (zw_head ws = Some r)) as [E|E].
    + rewrite E in R. cbn in R. rewrite lookup_alter_eq, lookup_insert_ne in R by congruence. by apply fmap_is_Some in R.
    + by rewrite link_previous_ne, lookup_insert_ne in R by congruence.
  - cbn. unfold u64. rewrite Z.mod_small by (unfold u64_ok in U; lia). lia.
  - unfold u64. rewrite Z.mod_small by (unfold u64_ok in U; lia). split; [lia|exact U].
  - constructor; [cbn; lia|exact S].
Qed.

(** A block is taken out. *)
Lemma deallocate_inv ws l1 p n l2 : ws_inv ws (l1 ++ (p, n) :: l2) → ws_inv (tr_zstd_deallocate (Some p) ws) (l1 ++ l2).
Proof.
  intros [L N A C [M U] S]. pose proof (linked_at _ _ _ _ _ _ _ L) as B. unfold tr_zstd_deallocate. rewrite B. cbn [al_previous al_next al_bytes].
  assert (S' : Forall (λ x, 0 < x.2) (l1 ++ l2)).
  { apply Forall_app in S as [S1 S2]. apply Forall_cons in S2 as [S2 S3]. by apply Forall_app. }
  assert (Z : zsum snd (l1 ++ (p, n) :: l2) = n + zsum snd (l1 ++ l2)) by (rewrite !zsum_app; cbn; lia).
  assert (Sn : 0 < n) by (apply Forall_app in S as [_ S2]; by apply Forall_cons in S2 as [S2 _]).
  pose proof (sizes_nonneg _ S') as P. split; cbn [zw_blocks zw_head zw_current zw_limit].
  - assert (O : ∀ q, None = Some q → q ∉ (l1 ++ (p, n) :: l2).*1) by discriminate. pose proof (linked_remove _ _ _ _ _ _ _ N O L) as R. unfold unlinked in R. cbn [al_previous al_next] in R.
    pose proof (linked_first _ _ _ _ L) as E. replace (match ends None l1 with Some _ => zw_head ws | None => first_of l2 end) with (first_of (l1 ++ l2)); [exact R|].
    rewrite E. destruct l1 as [|[q m] l1]; [reflexivity|]. cbn. destruct (ends_in (Some q) l1) as [->|(t & -> & _)]; reflexivity.
  - rewrite fmap_app in *. cbn in N. apply NoDup_app in N as (N1 & N2 & N3). apply NoDup_cons in N3 as [_ N3]. apply NoDup_app. split; [exact N1|].
    split; [|exact N3]. intros x X1 X2. apply (N2 x X1). by right.
  - intros r R. destruct (decide (r = p)) as [->|X]; [by rewrite lookup_delete_eq in R; destruct R|]. rewrite lookup_delete_ne in R by congruence.
    assert (is_Some (zw_blocks ws !! r)) as R'.
    { destruct (zw_blocks ws !! r) as [a|] eqn:E; [by eexists|exfalso]. destruct R as [a R].
      rewrite link_previous_none in R; [discriminate|]. apply link_next_none, E. }
    apply A in R'. rewrite fmap_app in *. cbn in R'. set_solver.
  - unfold u64. rewrite Z.mod_small by (unfold u64_ok in U; lia). lia.
  - unfold u64. rewrite Z.mod_small by (unfold u64_ok in U; lia). split; [lia|exact U].
  - exact S'.
Qed.

(** The chain is freed to the last block. *)
Lemma free_chain_all blocks previous head l : linked blocks previous head l → NoDup l.*1 →
  ∃ blocks', free_chain (length l) head blocks = Some blocks' ∧ ∀ p, blocks' !! p = if decide (p ∈ l.*1) then None else blocks !! p.
Proof.
  revert blocks previous head. induction l as [|[p n] l IH]; intros blocks previous head L N.
  - cbn in *. rewrite L. exists blocks. split; [reflexivity|]. intros p. by rewrite decide_False by apply not_elem_of_nil.
  - cbn in *. destruct L as (-> & next & B & L). rewrite B. cbn. apply NoDup_cons in N as [N1 N2].
    destruct (IH (delete p blocks) (Some p) next) as (b' & E & G); [|exact N2|].
    + eapply linked_frame; [|exact L]. intros r R. apply lookup_delete_ne. set_solver.
    + exists b'. split; [exact E|]. intros q. rewrite G. destruct (decide (q = p)) as [->|X].
      * rewrite (decide_True (P := p ∈ p :: l.*1)) by (by left). case_decide; [done|apply lookup_delete_eq].
      * rewrite lookup_delete_ne by congruence. destruct (decide (q ∈ l.*1)) as [Y|Y].
        -- rewrite decide_True; [reflexivity|by right].
        -- rewrite decide_False; [reflexivity|]. set_solver.
Qed.

Lemma inv_block ws l p : ws_inv ws l → is_Some (zw_blocks ws !! p) → ∃ l1 n l2, l = l1 ++ (p, n) :: l2.
Proof.
  intros I X. apply (wi_all _ _ I), list_elem_of_fmap_1 in X as ([q n] & -> & X). apply list_elem_of_split in X as (l1 & l2 & ->). by exists l1, n, l2.
Qed.

(** What a request gets is what the specification says. *)
Lemma ws_exec_spec ws l r : ws_inv ws l → ws_request_ok r ws →
  ∃ l', ws_inv (ws_exec r ws).2 l' ∧ zw_limit (ws_exec r ws).2 = zw_limit ws ∧
    ((ws_exec r ws).1, zw_sizes (ws_exec r ws).2) = spec_exec (zw_limit ws) r (zw_sizes ws).
Proof.
  intros I V. pose proof (inv_in_use _ _ I) as U. destruct r as [size malloc|[p|]]; cbn [ws_request_ok ws_exec spec_exec fst snd] in V |- *.
  - destruct V as [V F]. assert (K : ∀ f, ws_inv (ws_fail ws f) l) by (intros f; destruct I; split; assumption).
    pose proof (wi_limit _ _ I) as [M L]. pose proof (sizes_nonneg _ (wi_sizes _ _ I)) as P. rewrite <- (wi_current _ _ I) in P.
    unfold tr_zstd_allocate. rewrite u64_small by (unfold u64_ok in *; lia). rewrite U. unfold sizeof_zstd_allocation, SIZE_MAX in *.
    unfold u64_ok in *. destruct (size >? 2 ^ 64 - 1 - 32) eqn:E1; [|destruct (32 + size >? zw_limit ws - zw_current ws) eqn:E2].
    + exists l. split; [apply K|]. split; [reflexivity|]. destruct malloc as [p|]; [|reflexivity]. replace (_ <=? _) with false by lia. reflexivity.
    + exists l. split; [apply K|]. split; [reflexivity|]. destruct malloc as [p|]; [|reflexivity]. replace (_ <=? _) with false by lia. reflexivity.
    + destruct malloc as [p|]; [|exists l; split; [apply K|split; reflexivity]].
      replace (_ <=? _) with true by lia. pose proof (allocate_inv ws l p (32 + size) I (F p eq_refl) ltac:(lia)) as I'.
      eexists. split; [exact I'|]. split; [reflexivity|]. cbn [fst snd]. f_equal. rewrite (inv_sizes _ _ I'), (inv_sizes _ _ I). reflexivity.
  - destruct (inv_block _ _ p I (V p eq_refl)) as (l1 & n & l2 & ->). pose proof (deallocate_inv _ _ _ _ _ I) as I'.
    exists (l1 ++ l2). split; [exact I'|]. split.
    + unfold tr_zstd_deallocate. destruct (zw_blocks ws !! p); reflexivity.
    + f_equal. rewrite (inv_sizes _ _ I'), (inv_sizes _ _ I). symmetry. pose proof (wi_once _ _ I) as N.
      apply map_eq. intros q. rewrite !list_to_map_app. cbn. rewrite fmap_app in N. cbn in N. apply NoDup_app in N as (N1 & N2 & N3).
      apply NoDup_cons in N3 as [N3 N4]. destruct (decide (q = p)) as [->|X].
      * rewrite lookup_delete_eq. symmetry. apply lookup_union_None. split; apply not_elem_of_list_to_map_1; [|exact N3].
        intros Y. apply (N2 p Y). by left.
      * rewrite lookup_delete_ne, !lookup_union, lookup_insert_ne by congruence. reflexivity.
  - exists l. split; [exact I|]. split; reflexivity.
Qed.

Lemma ws_uses_inv ws ws' l : ws_uses ws ws' → ws_inv ws l → ∃ l', ws_inv ws' l' ∧ zw_limit ws' = zw_limit ws.
Proof.
  intros R. revert l. induction R as [|ws r ws' V R IH]; intros l I; [by exists l|].
  destruct (ws_exec_spec _ _ _ I V) as (l1 & I1 & L1 & _). destruct (IH _ I1) as (l' & I' & L'). exists l'. split; [exact I'|]. congruence.
Qed.

Lemma ws_uses_trans a b c : ws_uses a b → ws_uses b c → ws_uses a c.
Proof. induction 1; [auto|]. intros. econstructor; eauto. Qed.

(** With as much fuel as there are blocks, none is left. *)
Lemma inv_freed ws l : ws_inv ws l → free_chain (size (zw_blocks ws)) (zw_head ws) (zw_blocks ws) = Some ∅.
Proof.
  intros I. destruct (free_chain_all _ _ _ _ (wi_linked _ _ I) (wi_once _ _ I)) as (b & E & G).
  replace (size (zw_blocks ws)) with (length l).
  - rewrite E. f_equal. apply map_eq. intros p. rewrite G, lookup_empty. case_decide as X; [reflexivity|].
    destruct (zw_blocks ws !! p) as [a|] eqn:Y; [|reflexivity]. destruct X. apply (wi_all _ _ I). by eexists.
  - rewrite <- (length_fmap fst l), <- (size_list_to_set (C := gset nat) l.*1) by apply (wi_once _ _ I). rewrite <- size_dom. f_equal.
    apply set_eq. intros p. rewrite elem_of_dom, elem_of_list_to_set. split; [|apply (wi_all _ _ I)].
    intros X. apply list_elem_of_fmap_1 in X as ([q n] & -> & X). apply list_elem_of_split in X as (l1 & l2 & ->).
    eexists. apply (linked_at _ _ _ _ _ _ _ (wi_linked _ _ I)).
Qed.

(** * The property *)

(** Whatever a library allocates and frees in a workspace of [limit] bytes: what is charged is
    the sum of the blocks in use with their headers, and within the limit; the next request is
    answered as the map of the blocks in use says, and leaves it as it says; a refusal is kept as
    [TR_MESSAGE_TRANSFORM_LIMIT] when the request does not fit and as
    [TR_MESSAGE_TRANSFORM_NOMEM] when [malloc] fails; and walking the chain frees every block. *)
Theorem zstd_workspace_exact limit ws : u64_ok limit → ws_uses (fresh_workspace limit) ws →
  zw_current ws = in_use (zw_sizes ws) ∧ in_use (zw_sizes ws) ≤ limit ∧
  (∀ r, ws_request_ok r ws → ((ws_exec r ws).1, zw_sizes (ws_exec r ws).2) = spec_exec limit r (zw_sizes ws)) ∧
  (∀ size malloc, ws_request_ok (Ask size malloc) ws → (ws_exec (Ask size malloc) ws).1 = None →
     zw_failure (ws_exec (Ask size malloc) ws).2 =
       if in_use (zw_sizes ws) + sizeof_zstd_allocation + size <=? limit then TR_MESSAGE_TRANSFORM_NOMEM else TR_MESSAGE_TRANSFORM_LIMIT) ∧
  free_chain (size (zw_blocks ws)) (zw_head ws) (zw_blocks ws) = Some ∅.
Proof.
  intros L R. destruct (ws_uses_inv _ _ _ R (fresh_inv _ L)) as (l & I & E). cbn in E. rewrite (inv_in_use _ _ I).
  split; [reflexivity|]. split; [rewrite <- E; apply (wi_limit _ _ I)|]. split; [|split; [|apply (inv_freed _ _ I)]].
  - intros r V. destruct (ws_exec_spec _ _ _ I V) as (l' & _ & _ & G). by rewrite E in G.
  - intros size malloc [V F]. cbn. unfold tr_zstd_allocate. rewrite E. pose proof (wi_limit _ _ I) as [M _]. rewrite E in M.
    pose proof (sizes_nonneg _ (wi_sizes _ _ I)) as P. rewrite <- (wi_current _ _ I) in P.
    rewrite u64_small by (unfold u64_ok in *; lia). unfold sizeof_zstd_allocation, SIZE_MAX, u64_ok in *.
    destruct (size >? 2 ^ 64 - 1 - 32) eqn:E1; [|destruct (32 + size >? limit - zw_current ws) eqn:E2].
    + intros _. replace (_ <=? _) with false by lia. reflexivity.
    + intros _. replace (_ <=? _) with false by lia. reflexivity.
    + destruct malloc; [discriminate|]. intros _. replace (_ <=? _) with true by lia. reflexivity.
Qed.

(** Three blocks, of which the middle one is freed; a fourth does not fit. *)
Definition demo_requests : list ws_request := [Ask 10 (Some 1%nat); Ask 20 (Some 2%nat); Ask 30 (Some 3%nat); Free (Some 2%nat); Ask 200 (Some 4%nat)].
Definition demo_workspace : tr_zstd_workspace := fold_left (λ ws r, (ws_exec r ws).2) demo_requests (fresh_workspace 256).

Lemma demo_workspace_used : ws_uses (fresh_workspace 256) demo_workspace.
Proof.
  unfold demo_workspace, demo_requests. cbn [fold_left].
  repeat (eapply uses_more; [|first [apply uses_nothing|idtac]]);
    cbn [ws_request_ok]; try (split; [unfold u64_ok; lia|]); intros p [= <-]; vm_compute; first [reflexivity|eexists; reflexivity].
Qed.

Lemma zstd_workspace_exact_witness :
  zw_failure demo_workspace = TR_MESSAGE_TRANSFORM_LIMIT ∧ zw_current demo_workspace = 104 ∧ zw_current demo_workspace = in_use (zw_sizes demo_workspace).
Proof.
  assert (L : u64_ok 256) by (unfold u64_ok; lia).
  split; [vm_compute; reflexivity|]. split; [vm_compute; reflexivity|]. apply (zstd_workspace_exact 256 _ L demo_workspace_used).
Defined.
