(* ===== verification/Zstd.v ===== *)
(** Compression of messages: [src/message/zstd.c], and its configuration of
    [src/message/transform.h].

    Zstandard is a third-party library: it is a record of its functions, [Zstd], and what its
    documentation says of them are the classes [ZstdCalls] (windows are respected, memory comes
    from the allocator that is given) and [ZstdFrames] (what is decompressed is what was
    compressed).  A call gets the window of the input and the room in the output that the code
    gives it and says how much it took and what it wrote.

    The code asks whether it is cancelled before every step: [cancelled] is the list of the
    answers, and a result is [None] when there are not enough of them.

    Theorems: the loops end, after at most one step per byte; a run that succeeds asked at
    least once for every 64 KiB of its input and of its output; nothing is read or written out of
    bounds; a decoded message has exactly the size that was declared and used all of its input;
    all memory is given back; and decoding gives back what was encoded. *)
From S2P Require Import Prelude Status Message ZstdWorkspace.

(** * Data *)

Definition TR_MESSAGE_ZSTD_ENCODE : Z := 1.
Definition TR_MESSAGE_ZSTD_DECODE : Z := 2.

Record tr_message_transform_config := mk_transform_config {
  tf_kind : Z;
  tf_limits : tr_message_limits;
  tf_decoded_size : Z;
  tf_max_workspace_bytes : Z;
  tf_max_window_log : Z;
  tf_compression_level : Z
}.

Definition TR_ZSTD_STEP_BYTES : Z := 64 * 1024.
Definition ZSTD_VERSION_NUMBER : Z := 10507.

(** * The library *)

Record zstd_bounds := mk_bounds { zb_error : Z; zb_lower : Z; zb_upper : Z }.

(** [enum ZSTD_ErrorCode], as far as the code looks. *)
Inductive zstd_error_code :=
| ZSTD_error_dstSize_tooSmall
| ZSTD_error_frameParameter_windowTooLarge
| ZSTD_error_memory_allocation
| ZSTD_error_other.

(** [zh_content_size] is [None] for [ZSTD_CONTENTSIZE_UNKNOWN]; [zh_plain]: the type is
    [ZSTD_frame]. *)
Record zstd_frame_header := mk_zstd_header {
  zh_plain : bool;
  zh_dict_id : Z;
  zh_window_size : Z;
  zh_content_size : option Z
}.

Inductive zstd_cparam := ZSTD_c_compressionLevel | ZSTD_c_windowLog | ZSTD_c_nbWorkers | ZSTD_c_checksumFlag.

(** What a call returns, and the context and the allocator it leaves. *)
Record zstd_call (C : Type) := mk_call { zc_ret : Z; zc_ctx : C; zc_ws : tr_zstd_workspace }.
Arguments mk_call {C} _ _ _.
Arguments zc_ret {C} _.
Arguments zc_ctx {C} _.
Arguments zc_ws {C} _.

(** Of a streaming call, also how many bytes it took and those it wrote. *)
Record zstd_stream (C : Type) := mk_stream { zs_ret : Z; zs_taken : Z; zs_out : list Z; zs_ctx : C; zs_ws : tr_zstd_workspace }.
Arguments mk_stream {C} _ _ _ _ _.
Arguments zs_ret {C} _.
Arguments zs_taken {C} _.
Arguments zs_out {C} _.
Arguments zs_ctx {C} _.
Arguments zs_ws {C} _.

(** The last argument of [ZSTD_compressStream2] is whether the directive is [ZSTD_e_end]. *)
Class Zstd := {
  zstd_cctx : Type;
  zstd_dctx : Type;
  ZSTD_versionNumber : Z;
  ZSTD_maxCLevel : Z;
  ZSTD_cParam_windowLog_bounds : zstd_bounds;
  ZSTD_dParam_windowLogMax_bounds : zstd_bounds;
  ZSTD_compressBound : Z → Z;
  ZSTD_isError : Z → bool;
  ZSTD_getErrorCode : Z → zstd_error_code;
  ZSTD_getFrameHeader : list Z → Z * zstd_frame_header;
  ZSTD_createCCtx : tr_zstd_workspace → option zstd_cctx * tr_zstd_workspace;
  ZSTD_CCtx_setParameter : zstd_cctx → zstd_cparam → Z → tr_zstd_workspace → zstd_call zstd_cctx;
  ZSTD_CCtx_setPledgedSrcSize : zstd_cctx → Z → tr_zstd_workspace → zstd_call zstd_cctx;
  ZSTD_compressStream2 : zstd_cctx → list Z → Z → bool → tr_zstd_workspace → zstd_stream zstd_cctx;
  ZSTD_freeCCtx : zstd_cctx → tr_zstd_workspace → tr_zstd_workspace;
  ZSTD_createDCtx : tr_zstd_workspace → option zstd_dctx * tr_zstd_workspace;
  ZSTD_DCtx_setWindowLogMax : zstd_dctx → Z → tr_zstd_workspace → zstd_call zstd_dctx;
  ZSTD_decompressStream : zstd_dctx → list Z → Z → tr_zstd_workspace → zstd_stream zstd_dctx;
  ZSTD_freeDCtx : zstd_dctx → tr_zstd_workspace → tr_zstd_workspace
}.

(** * Operations *)

Definition tr_zstd_step_end (position total : Z) : Z :=
  let remaining := total - position in
  position + (if remaining <? TR_ZSTD_STEP_BYTES then remaining else TR_ZSTD_STEP_BYTES).

(** The bytes from [position] to [size]. *)
Definition window (input : list Z) (position size : Z) : list Z := take (Z.to_nat (size - position)) (drop (Z.to_nat position) input).

(** What the loops end with: the bytes of the output when [*output_size] is set, the answers
    that were not asked for, and the allocator. *)
Record zstd_end := mk_end {
  ze_outcome : tr_message_transform_outcome;
  ze_output : option (list Z);
  ze_rest : list bool;
  ze_ws : tr_zstd_workspace
}.

Section Zstd.
Context `{!Zstd}.

Definition tr_message_zstd_plan (config : option tr_message_transform_config) (input_size : Z) : tr_status * option Z :=
  match config with
  | None => (TR_ERR_INVALID, None)
  | Some config =>
      bail (TR_ERR_INVALID, None) when (tf_max_workspace_bytes config =? 0) ;;
      bail (TR_ERR_UNSUPPORTED, None) when (negb (ZSTD_versionNumber =? ZSTD_VERSION_NUMBER)) ;;
      let bounds_ok (bounds : zstd_bounds) (capacity : Z) : tr_status * option Z :=
        bail (TR_ERR_INVALID, None) when (ZSTD_isError (zb_error bounds) || (tf_max_window_log config <? u32 (zb_lower bounds)) ||
          (tf_max_window_log config >? u32 (zb_upper bounds)) || (tf_max_window_log config >=? 64)) ;;
        (TR_OK, Some capacity) in
      if tf_kind config =? TR_MESSAGE_ZSTD_ENCODE then
        bail (TR_ERR_INVALID, None) when ((tf_compression_level config <? 1) || (tf_compression_level config >? ZSTD_maxCLevel)) ;;
        bail (TR_ERR_BAD_LENGTH, None) when (input_size >? max_decoded_bytes (tf_limits config)) ;;
        let capacity := ZSTD_compressBound input_size in
        bail (TR_ERR_BAD_LENGTH, None) when (ZSTD_isError capacity) ;;
        bounds_ok ZSTD_cParam_windowLog_bounds
          (if capacity >? max_encoded_bytes (tf_limits config) then max_encoded_bytes (tf_limits config) else capacity)
      else if tf_kind config =? TR_MESSAGE_ZSTD_DECODE then
        bail (TR_ERR_BAD_LENGTH, None) when ((input_size >? max_encoded_bytes (tf_limits config)) ||
          (tf_decoded_size config >? max_decoded_bytes (tf_limits config))) ;;
        bounds_ok ZSTD_dParam_windowLogMax_bounds (tf_decoded_size config)
      else (TR_ERR_UNSUPPORTED, None)
  end.

Definition tr_zstd_error (ws : tr_zstd_workspace) (error : Z) (decode : bool) : tr_message_transform_outcome :=
  match zw_failure ws with
  | TR_MESSAGE_TRANSFORM_OK =>
      match ZSTD_getErrorCode error with
      | ZSTD_error_dstSize_tooSmall | ZSTD_error_frameParameter_windowTooLarge => TR_MESSAGE_TRANSFORM_LIMIT
      | ZSTD_error_memory_allocation => TR_MESSAGE_TRANSFORM_NOMEM
      | ZSTD_error_other => if decode then TR_MESSAGE_TRANSFORM_BAD_DATA else TR_MESSAGE_TRANSFORM_INTERNAL
      end
  | failure => failure
  end.

(** A context could not be created. *)
Definition no_context (ws : tr_zstd_workspace) : tr_message_transform_outcome :=
  match zw_failure ws with TR_MESSAGE_TRANSFORM_OK => TR_MESSAGE_TRANSFORM_NOMEM | failure => failure end.

(** The loop of [tr_zstd_encode]; [source_pos] and [output]: the positions, and what is written. *)
Fixpoint zstd_encode_loop (input : list Z) (capacity : Z) (cancelled : list bool) (context : zstd_cctx) (source_pos : Z) (output : list Z)
    (ws : tr_zstd_workspace) : option zstd_end :=
  match cancelled with
  | [] => None
  | true :: rest => Some (mk_end TR_MESSAGE_TRANSFORM_CANCELLED None rest (ZSTD_freeCCtx context ws))
  | false :: rest =>
      let source_size := tr_zstd_step_end source_pos (alen input) in
      let destination_size := tr_zstd_step_end (alen output) capacity in
      let end_ := source_size =? alen input in
      let r := ZSTD_compressStream2 context (window input source_pos source_size) (destination_size - alen output) end_ ws in
      let finish outcome out := Some (mk_end outcome out rest (ZSTD_freeCCtx (zs_ctx r) (zs_ws r))) in
      bail finish (tr_zstd_error (zs_ws r) (zs_ret r) false) None when (ZSTD_isError (zs_ret r)) ;;
      let source_pos' := source_pos + zs_taken r in
      let output' := output ++ zs_out r in
      if end_ && (zs_ret r =? 0) then
        if source_pos' =? alen input then finish TR_MESSAGE_TRANSFORM_OK (Some output') else finish TR_MESSAGE_TRANSFORM_INTERNAL None
      else
        bail finish TR_MESSAGE_TRANSFORM_LIMIT None when (alen output' =? capacity) ;;
        bail finish TR_MESSAGE_TRANSFORM_INTERNAL None when ((source_pos' =? source_pos) && (alen output' =? alen output)) ;;
        zstd_encode_loop input capacity rest (zs_ctx r) source_pos' output' (zs_ws r)
  end.

Definition tr_zstd_encode (config : tr_message_transform_config) (input : list Z) (capacity : Z) (cancelled : list bool)
    (ws : tr_zstd_workspace) : option zstd_end :=
  match ZSTD_createCCtx ws with
  | (None, ws) => Some (mk_end (no_context ws) None cancelled ws)
  | (Some context, ws) =>
      let error (r : zstd_call zstd_cctx) := Some (mk_end (tr_zstd_error (zc_ws r) (zc_ret r) false) None cancelled (ZSTD_freeCCtx (zc_ctx r) (zc_ws r))) in
      let r := ZSTD_CCtx_setParameter context ZSTD_c_compressionLevel (tf_compression_level config) ws in
      bail error r when (ZSTD_isError (zc_ret r)) ;;
      let r := ZSTD_CCtx_setParameter (zc_ctx r) ZSTD_c_windowLog (tf_max_window_log config) (zc_ws r) in
      bail error r when (ZSTD_isError (zc_ret r)) ;;
      let r := ZSTD_CCtx_setParameter (zc_ctx r) ZSTD_c_nbWorkers 0 (zc_ws r) in
      bail error r when (ZSTD_isError (zc_ret r)) ;;
      let r := ZSTD_CCtx_setParameter (zc_ctx r) ZSTD_c_checksumFlag 1 (zc_ws r) in
      bail error r when (ZSTD_isError (zc_ret r)) ;;
      let r := ZSTD_CCtx_setPledgedSrcSize (zc_ctx r) (alen input) (zc_ws r) in
      bail error r when (ZSTD_isError (zc_ret r)) ;;
      zstd_encode_loop input capacity cancelled (zc_ctx r) 0 [] (zc_ws r)
  end.

(** The loop of [tr_zstd_decode]; what it has written has the length [produced]. *)
Fixpoint zstd_decode_loop (input : list Z) (capacity : Z) (cancelled : list bool) (context : zstd_dctx) (source_pos : Z) (output : list Z)
    (ws : tr_zstd_workspace) : option zstd_end :=
  match cancelled with
  | [] => None
  | true :: rest => Some (mk_end TR_MESSAGE_TRANSFORM_CANCELLED None rest (ZSTD_freeDCtx context ws))
  | false :: rest =>
      let produced := alen output in
      let probe := produced =? capacity in
      let room := if probe then 1 else tr_zstd_step_end produced capacity - produced in
      let source_size := tr_zstd_step_end source_pos (alen input) in
      let r := ZSTD_decompressStream context (window input source_pos source_size) room ws in
      let finish outcome out := Some (mk_end outcome out rest (ZSTD_freeDCtx (zs_ctx r) (zs_ws r))) in
      bail finish (tr_zstd_error (zs_ws r) (zs_ret r) true) None when (ZSTD_isError (zs_ret r)) ;;
      bail finish TR_MESSAGE_TRANSFORM_LIMIT None when (probe && negb (alen (zs_out r) =? 0)) ;;
      let source_pos' := source_pos + zs_taken r in
      let output' := if probe then output else output ++ zs_out r in
      if zs_ret r =? 0 then
        if (source_pos' =? alen input) && (alen output' =? capacity) then finish TR_MESSAGE_TRANSFORM_OK (Some output')
        else finish TR_MESSAGE_TRANSFORM_BAD_DATA None
      else
        bail finish TR_MESSAGE_TRANSFORM_BAD_DATA None when ((source_pos' =? source_pos) && (alen (zs_out r) =? 0)) ;;
        zstd_decode_loop input capacity rest (zs_ctx r) source_pos' output' (zs_ws r)
  end.

Definition tr_zstd_decode (config : tr_message_transform_config) (input : list Z) (capacity : Z) (cancelled : list bool)
    (ws : tr_zstd_workspace) : option zstd_end :=
  let '(ret, header) := ZSTD_getFrameHeader input in
  bail Some (mk_end TR_MESSAGE_TRANSFORM_BAD_DATA None cancelled ws) when
    (ZSTD_isError ret || negb (ret =? 0) || negb (zh_plain header) || negb (zh_dict_id header =? 0)) ;;
  bail Some (mk_end TR_MESSAGE_TRANSFORM_LIMIT None cancelled ws) when (zh_window_size header >? Z.shiftl 1 (tf_max_window_log config)) ;;
  bail Some (mk_end TR_MESSAGE_TRANSFORM_BAD_DATA None cancelled ws) when
    (match zh_content_size header with None => false | Some n => negb (n =? tf_decoded_size config) end) ;;
  match ZSTD_createDCtx ws with
  | (None, ws) => Some (mk_end (no_context ws) None cancelled ws)
  | (Some context, ws) =>
      let r := ZSTD_DCtx_setWindowLogMax context (tf_max_window_log config) ws in
      bail Some (mk_end (tr_zstd_error (zc_ws r) (zc_ret r) true) None cancelled (ZSTD_freeDCtx (zc_ctx r) (zc_ws r)))
        when (ZSTD_isError (zc_ret r)) ;;
      zstd_decode_loop input capacity cancelled (zc_ctx r) 0 [] (zc_ws r)
  end.

(** What the library did not free is freed, and is an error. *)
Definition clean_up (e : zstd_end) : option zstd_end :=
  let ws := ze_ws e in
  if bool_decide (is_Some (zw_head ws)) || negb (zw_current ws =? 0) then
    blocks ← free_chain (size (zw_blocks ws)) (zw_head ws) (zw_blocks ws);
    Some (mk_end TR_MESSAGE_TRANSFORM_INTERNAL (ze_output e) (ze_rest e)
      (mk_workspace (zw_limit ws) (zw_current ws) None (zw_failure ws) blocks))
  else Some e.

Definition tr_message_zstd_run (config : tr_message_transform_config) (input : list Z) (capacity : Z) (cancelled : list bool) : option zstd_end :=
  let ws := fresh_workspace (tf_max_workspace_bytes config) in
  match cancelled with
  | [] => None
  | true :: rest => Some (mk_end TR_MESSAGE_TRANSFORM_CANCELLED None rest ws)
  | false :: rest =>
      e ← (if tf_kind config =? TR_MESSAGE_ZSTD_ENCODE then tr_zstd_encode config input capacity rest ws
           else tr_zstd_decode config input capacity rest ws);
      clean_up e
  end.

End Zstd.

(** * What the library is documented to do *)

(** A call takes no more than the window, writes no more than the room, and uses the allocator
    that it was given. *)
Class ZstdCalls `{!Zstd} := {
  zl_bound n : u64_ok n → u64_ok (ZSTD_compressBound n);
  zl_create_c ws : ws_uses ws (ZSTD_createCCtx ws).2;
  zl_set_c c p v ws : ws_uses ws (zc_ws (ZSTD_CCtx_setParameter c p v ws));
  zl_pledge c n ws : ws_uses ws (zc_ws (ZSTD_CCtx_setPledgedSrcSize c n ws));
  zl_free_c c ws : ws_uses ws (ZSTD_freeCCtx c ws);
  zl_create_d ws : ws_uses ws (ZSTD_createDCtx ws).2;
  zl_set_d d v ws : ws_uses ws (zc_ws (ZSTD_DCtx_setWindowLogMax d v ws));
  zl_free_d d ws : ws_uses ws (ZSTD_freeDCtx d ws);
  zl_compress c src room e ws : 0 ≤ room → let r := ZSTD_compressStream2 c src room e ws in
    0 ≤ zs_taken r ≤ alen src ∧ alen (zs_out r) ≤ room ∧ ws_uses ws (zs_ws r);
  zl_decompress d src room ws : 0 ≤ room → let r := ZSTD_decompressStream d src room ws in
    0 ≤ zs_taken r ≤ alen src ∧ alen (zs_out r) ≤ room ∧ ws_uses ws (zs_ws r)
}.

(** [zf_frame w z x]: the bytes [z] are one frame with the content [x], for a window of [2 ^ w]
    bytes.  [zf_encoder c w fed out] and [zf_decoder d w fed out]: a context that was given
    [fed] and has written [out], with this window.  [zf_owns d ws]: all the memory in use is of
    the context. *)
Class ZstdFrames `{!Zstd} := {
  zf_frame : Z → list Z → list Z → Prop;
  zf_encoder : zstd_cctx → Z → list Z → list Z → Prop;
  zf_decoder : zstd_dctx → Z → list Z → list Z → Prop;
  zf_zero_ok : ZSTD_isError 0 = false;
  zf_create_c ws c : (ZSTD_createCCtx ws).1 = Some c → ∃ w, zf_encoder c w [] [];
  zf_set_c c w p v ws : zf_encoder c w [] [] → let r := ZSTD_CCtx_setParameter c p v ws in ZSTD_isError (zc_ret r) = false →
    zf_encoder (zc_ctx r) (match p with ZSTD_c_windowLog => v | _ => w end) [] [];
  zf_pledge c w n ws : zf_encoder c w [] [] → let r := ZSTD_CCtx_setPledgedSrcSize c n ws in ZSTD_isError (zc_ret r) = false →
    zf_encoder (zc_ctx r) w [] [];
  zf_compress c w fed out src room e ws : zf_encoder c w fed out → 0 ≤ room →
    let r := ZSTD_compressStream2 c src room e ws in ZSTD_isError (zs_ret r) = false →
    if e && (zs_ret r =? 0) then zs_taken r = alen src → zf_frame w (out ++ zs_out r) (fed ++ src)
    else zf_encoder (zs_ctx r) w (fed ++ take (Z.to_nat (zs_taken r)) src) (out ++ zs_out r);
  zf_header w z x : zf_frame w z x → ∃ h, ZSTD_getFrameHeader z = (0, h) ∧ zh_plain h = true ∧ zh_dict_id h = 0 ∧
    zh_window_size h ≤ 2 ^ w ∧ (∀ n, zh_content_size h = Some n → n = alen x);
  zf_not_empty w z x : zf_frame w z x → z ≠ [];
  zf_owns : zstd_dctx → tr_zstd_workspace → Prop;
  zf_create_d ws : zw_blocks ws = ∅ → match ZSTD_createDCtx ws with
    | (Some d, ws') => zf_owns d ws' ∧ zf_decoder d 0 [] []
    | (None, ws') => zw_failure ws' ≠ TR_MESSAGE_TRANSFORM_OK ∧ zw_blocks ws' = ∅ end;
  zf_set_d d v ws : zf_owns d ws → zf_decoder d 0 [] [] →
    u32 (zb_lower ZSTD_dParam_windowLogMax_bounds) ≤ v ≤ u32 (zb_upper ZSTD_dParam_windowLogMax_bounds) →
    let r := ZSTD_DCtx_setWindowLogMax d v ws in zf_owns (zc_ctx r) (zc_ws r) ∧
    if ZSTD_isError (zc_ret r) then zw_failure (zc_ws r) ≠ TR_MESSAGE_TRANSFORM_OK else zf_decoder (zc_ctx r) v [] [];
  zf_decompress d w v fed out z x src room ws : zf_owns d ws → zf_frame w z x → w ≤ v → zf_decoder d v fed out →
    fed ++ src `prefix_of` z → out `prefix_of` x → 0 < room →
    let r := ZSTD_decompressStream d src room ws in zf_owns (zs_ctx r) (zs_ws r) ∧
    if ZSTD_isError (zs_ret r) then zw_failure (zs_ws r) ≠ TR_MESSAGE_TRANSFORM_OK
    else let fed' := fed ++ take (Z.to_nat (zs_taken r)) src in let out' := out ++ zs_out r in
      out' `prefix_of` x ∧ (zs_ret r = 0 → fed' = z ∧ out' = x) ∧
      (zs_ret r ≠ 0 → zf_decoder (zs_ctx r) v fed' out' ∧ ¬ (fed' = z ∧ out' = x) ∧
         (fed = z ∨ src ≠ [] → 0 < zs_taken r ∨ zs_out r ≠ []));
  zf_freed d ws : zf_owns d ws → zw_blocks (ZSTD_freeDCtx d ws) = ∅
}.

(** * Lemmas: windows *)

Lemma step_end_bounds position total : position ≤ total → position ≤ tr_zstd_step_end position total ≤ total.
Proof. unfold tr_zstd_step_end, TR_ZSTD_STEP_BYTES. intros H. destruct (_ <? _) eqn:E; lia. Qed.

Lemma step_end_advances position total : position < total → position < tr_zstd_step_end position total.
Proof. unfold tr_zstd_step_end, TR_ZSTD_STEP_BYTES. intros H. destruct (_ <? _) eqn:E; lia. Qed.

Lemma step_end_paced position total : tr_zstd_step_end position total - position ≤ TR_ZSTD_STEP_BYTES.
Proof. unfold tr_zstd_step_end. destruct (Z.ltb_spec (total - position) TR_ZSTD_STEP_BYTES); lia. Qed.

Lemma window_length input position size : 0 ≤ position ≤ size → size ≤ alen input → alen (window input position size) = size - position.
Proof. unfold window, alen. intros H L. rewrite length_take, length_drop. lia. Qed.

Lemma window_prefix input position size : 0 ≤ position →
  take (Z.to_nat position) input ++ window input position size `prefix_of` input.
Proof.
  intros P. unfold window. rewrite <- (take_drop (Z.to_nat position) input) at 3. apply prefix_app. apply prefix_take.
Qed.

(** What was taken of a window is the next part of the input. *)
Lemma window_taken input position size taken : 0 ≤ position → 0 ≤ taken ≤ alen (window input position size) →
  take (Z.to_nat position) input ++ take (Z.to_nat taken) (window input position size) = take (Z.to_nat (position + taken)) input.
Proof.
  intros P T. unfold window, alen in *. rewrite length_take in T. rewrite take_take, Nat.min_l by lia.
  rewrite Z2Nat.inj_add by lia. apply take_take_drop.
Qed.

(** * Lemmas: the loops end *)

Lemma alen_more {A} (x : A) l : alen (x :: l) = alen l + 1.
Proof. unfold alen. cbn [length]. lia. Qed.
Lemma alen_append {A} (l1 l2 : list A) : alen (l1 ++ l2) = alen l1 + alen l2.
Proof. unfold alen. rewrite length_app. lia. Qed.

(** What the allocator reports. *)
Definition refusal (o : tr_message_transform_outcome) : Prop :=
  o = TR_MESSAGE_TRANSFORM_OK ∨ o = TR_MESSAGE_TRANSFORM_LIMIT ∨ o = TR_MESSAGE_TRANSFORM_NOMEM.

Lemma uses_refusal ws ws' : ws_uses ws ws' → refusal (zw_failure ws) → refusal (zw_failure ws').
Proof.
  induction 1 as [|ws r ws' V R IH]; [auto|]. intros H. apply IH. destruct r as [size malloc|[p|]]; cbn; [| |exact H].
  - unfold tr_zstd_allocate. repeat case_match; cbn; unfold refusal in *; auto.
  - destruct (zw_blocks ws !! p); exact H.
Qed.

(** How a run of the loop ends: what was asked, what is written, and what happened to the
    memory. *)
Record loop_ok (capacity : Z) (exact : bool) (ws : tr_zstd_workspace) (steps : Z) (cancelled : list bool) (e : zstd_end) : Prop := {
  lo_asked : ∃ k, Z.of_nat k ≤ steps ∧
    (cancelled = replicate k false ++ ze_rest e ∧ ze_outcome e ≠ TR_MESSAGE_TRANSFORM_CANCELLED ∨
     cancelled = replicate k false ++ true :: ze_rest e ∧ ze_outcome e = TR_MESSAGE_TRANSFORM_CANCELLED);
  lo_output : ze_outcome e = TR_MESSAGE_TRANSFORM_OK → ∃ out, ze_output e = Some out ∧ alen out ≤ capacity ∧ (exact = true → alen out = capacity);
  lo_ws : ws_uses ws (ze_ws e)
}.

Lemma loop_more capacity exact ws ws' steps cancelled e : ws_uses ws ws' → loop_ok capacity exact ws' steps cancelled e →
  loop_ok capacity exact ws (steps + 1) (false :: cancelled) e.
Proof.
  intros U [(k & K & A) O W]. split; [|exact O|eapply ws_uses_trans; eassumption].
  exists (S k). split; [lia|]. cbn. destruct A as [[-> A]|[-> A]]; auto.
Qed.

Lemma loop_stop capacity exact ws steps rest outcome output ws' : 0 ≤ steps → outcome ≠ TR_MESSAGE_TRANSFORM_CANCELLED → ws_uses ws ws' →
  (outcome = TR_MESSAGE_TRANSFORM_OK → ∃ out, output = Some out ∧ alen out ≤ capacity ∧ (exact = true → alen out = capacity)) →
  loop_ok capacity exact ws (steps + 1) (false :: rest) (mk_end outcome output rest ws').
Proof. intros S C U O. split; [|exact O|exact U]. exists 1%nat. split; [lia|]. by left. Qed.

Lemma loop_cancel capacity exact ws steps rest ws' : 0 ≤ steps → ws_uses ws ws' →
  loop_ok capacity exact ws steps (true :: rest) (mk_end TR_MESSAGE_TRANSFORM_CANCELLED None rest ws').
Proof. intros S U. split; [|discriminate|exact U]. exists 0%nat. split; [lia|]. by right. Qed.

Section Safe.
Context `{!Zstd} `{!ZstdCalls}.

Lemma error_outcome ws error decode : refusal (zw_failure ws) →
  tr_zstd_error ws error decode ≠ TR_MESSAGE_TRANSFORM_CANCELLED ∧ tr_zstd_error ws error decode ≠ TR_MESSAGE_TRANSFORM_OK.
Proof. unfold tr_zstd_error. intros [->|[->| ->]]; [|done|done]. destruct (ZSTD_getErrorCode error), decode; done. Qed.

Lemma error_not_ok ws error decode : tr_zstd_error ws error decode ≠ TR_MESSAGE_TRANSFORM_OK.
Proof. unfold tr_zstd_error. destruct (zw_failure ws), (ZSTD_getErrorCode error), decode; done. Qed.

Lemma no_context_outcome ws : refusal (zw_failure ws) →
  no_context ws ≠ TR_MESSAGE_TRANSFORM_CANCELLED ∧ no_context ws ≠ TR_MESSAGE_TRANSFORM_OK.
Proof. unfold no_context. intros [->|[->| ->]]; done. Qed.

Lemma encode_loop_ends input capacity cancelled : ∀ context source_pos output ws,
  0 ≤ source_pos ≤ alen input → alen output ≤ capacity → refusal (zw_failure ws) →
  (alen input - source_pos) + (capacity - alen output) < alen cancelled →
  ∃ e, zstd_encode_loop input capacity cancelled context source_pos output ws = Some e ∧
    loop_ok capacity false ws ((alen input - source_pos) + (capacity - alen output) + 1) cancelled e.
Proof.
  induction cancelled as [|[] rest IH]; intros context source_pos output ws P O F L; [change (alen []) with 0 in L; lia| |].
  { eexists. split; [reflexivity|]. apply loop_cancel; [lia|apply zl_free_c]. }
  cbn [zstd_encode_loop]. pose proof (step_end_bounds source_pos (alen input) ltac:(lia)) as B1.
  pose proof (step_end_bounds (alen output) capacity O) as B2. set (src := window _ _ _). set (room := _ - alen output). set (e := tr_zstd_step_end source_pos (alen input) =? alen input).
  assert (W : alen src = tr_zstd_step_end source_pos (alen input) - source_pos) by (apply window_length; lia).
  destruct (zl_compress context src room e ws ltac:(subst room; lia)) as (T & R & U).
  set (r := ZSTD_compressStream2 _ _ _ _ _) in *. assert (T' : 0 ≤ source_pos + zs_taken r ≤ alen input) by lia.
  assert (R' : alen output + alen (zs_out r) ≤ capacity) by (unfold room in R; lia). pose proof (uses_refusal _ _ U F) as F'.
  pose proof (ws_uses_trans _ _ _ U (zl_free_c (zs_ctx r) (zs_ws r))) as U'.
  pose proof (alen_append output (zs_out r)) as A.
  assert (A0 : 0 ≤ alen (zs_out r)) by (unfold alen; lia).
  assert (Stop : ∀ outcome, outcome ≠ TR_MESSAGE_TRANSFORM_CANCELLED → outcome ≠ TR_MESSAGE_TRANSFORM_OK →
    ∃ e', Some (mk_end outcome None rest (ZSTD_freeCCtx (zs_ctx r) (zs_ws r))) = Some e' ∧
      loop_ok capacity false ws (alen input - source_pos + (capacity - alen output) + 1) (false :: rest) e').
  { intros outcome C1 C2. eexists. split; [reflexivity|]. apply loop_stop; [lia|exact C1|exact U'|]. intros C. by destruct C2. }
  destruct (ZSTD_isError (zs_ret r)); [apply Stop; by apply error_outcome|].
  destruct (e && (zs_ret r =? 0)).
  { destruct (source_pos + zs_taken r =? alen input); [|by apply Stop]. eexists. split; [reflexivity|]. apply loop_stop; [lia|done|exact U'|].
    intros _. eexists. split; [reflexivity|]. split; [lia|done]. }
  destruct (alen (output ++ zs_out r) =? capacity) eqn:Full; [by apply Stop|].
  destruct ((source_pos + zs_taken r =? source_pos) && (alen (output ++ zs_out r) =? alen output)) eqn:Stuck; [by apply Stop|].
  pose proof (alen_more false rest) as Lr.
  destruct (IH (zs_ctx r) (source_pos + zs_taken r) (output ++ zs_out r) (zs_ws r)) as (e' & E & Ok); [exact T'|lia|exact F'| |].
  { rewrite A. apply andb_false_iff in Stuck. rewrite A in Stuck. lia. }
  exists e'. split; [exact E|]. eapply loop_more in Ok; [|exact U]. destruct Ok as [(k & K & Q) O' W']. split; [|exact O'|exact W'].
  exists k. split; [|exact Q]. rewrite A in K. apply andb_false_iff in Stuck. rewrite A in Stuck. lia.
Qed.

Lemma decode_loop_ends input capacity cancelled : ∀ context source_pos output ws,
  0 ≤ source_pos ≤ alen input → alen output ≤ capacity → refusal (zw_failure ws) →
  (alen input - source_pos) + (capacity - alen output) < alen cancelled →
  ∃ e, zstd_decode_loop input capacity cancelled context source_pos output ws = Some e ∧
    loop_ok capacity true ws ((alen input - source_pos) + (capacity - alen output) + 1) cancelled e.
Proof.
  induction cancelled as [|[] rest IH]; intros context source_pos output ws P O F L; [change (alen []) with 0 in L; lia| |].
  { eexists. split; [reflexivity|]. apply loop_cancel; [lia|apply zl_free_d]. }
  cbn [zstd_decode_loop]. pose proof (step_end_bounds source_pos (alen input) ltac:(lia)) as B1.
  pose proof (step_end_bounds (alen output) capacity O) as B2. set (src := window _ _ _). set (probe := alen output =? capacity).
  set (room := if probe then 1 else _).
  assert (W : alen src = tr_zstd_step_end source_pos (alen input) - source_pos) by (apply window_length; lia).
  destruct (zl_decompress context src room ws ltac:(subst room; destruct probe; lia)) as (T & R & U).
  set (r := ZSTD_decompressStream _ _ _ _) in *. assert (T' : 0 ≤ source_pos + zs_taken r ≤ alen input) by lia.
  pose proof (uses_refusal _ _ U F) as F'. pose proof (ws_uses_trans _ _ _ U (zl_free_d (zs_ctx r) (zs_ws r))) as U'.
  set (output' := if probe then output else output ++ zs_out r).
  assert (A0 : 0 ≤ alen (zs_out r)) by (unfold alen; lia).
  assert (A : alen output' = alen output + (if probe then 0 else alen (zs_out r)) ∧ alen output' ≤ capacity).
  { subst output'. destruct probe; [lia|]. unfold room in R. rewrite alen_append. lia. }
  destruct A as [A R'].
  assert (Stop : ∀ outcome, outcome ≠ TR_MESSAGE_TRANSFORM_CANCELLED → outcome ≠ TR_MESSAGE_TRANSFORM_OK →
    ∃ e', Some (mk_end outcome None rest (ZSTD_freeDCtx (zs_ctx r) (zs_ws r))) = Some e' ∧
      loop_ok capacity true ws (alen input - source_pos + (capacity - alen output) + 1) (false :: rest) e').
  { intros outcome C1 C2. eexists. split; [reflexivity|]. apply loop_stop; [lia|exact C1|exact U'|]. intros C. by destruct C2. }
  destruct (ZSTD_isError (zs_ret r)); [apply Stop; by apply error_outcome|].
  destruct (probe && negb (alen (zs_out r) =? 0)) eqn:Probed; [by apply Stop|].
  destruct (zs_ret r =? 0).
  { destruct ((source_pos + zs_taken r =? alen input) && (alen output' =? capacity)) eqn:Full; [|by apply Stop].
    eexists. split; [reflexivity|]. apply loop_stop; [lia|done|exact U'|]. intros _. eexists. split; [reflexivity|]. lia. }
  destruct ((source_pos + zs_taken r =? source_pos) && (alen (zs_out r) =? 0)) eqn:Stuck; [by apply Stop|].
  assert (Pr : 1 ≤ zs_taken r + (if probe then 0 else alen (zs_out r))).
  { apply andb_false_iff in Stuck. apply andb_false_iff in Probed. destruct probe; lia. }
  pose proof (alen_more false rest) as Lr.
  destruct (IH (zs_ctx r) (source_pos + zs_taken r) output' (zs_ws r)) as (e' & E & Ok); [exact T'|exact R'|exact F'|lia|].
  exists e'. split; [exact E|]. eapply loop_more in Ok; [|exact U]. destruct Ok as [(k & K & Q) O' W']. split; [|exact O'|exact W'].
  exists k. split; [|exact Q]. lia.
Qed.

(** ** How much is done between two questions *)

(** The questions that were asked of [cancelled]. *)
Definition asked (cancelled : list bool) (e : zstd_end) : Z := alen cancelled - alen (ze_rest e).

(** When it succeeds: [input] bytes were read and [output] bytes written within [questions] steps. *)
Definition paced (e : zstd_end) (input output questions : Z) : Prop :=
  ze_outcome e = TR_MESSAGE_TRANSFORM_OK → ∃ out, ze_output e = Some out ∧
    input ≤ TR_ZSTD_STEP_BYTES * questions ∧ alen out - output ≤ TR_ZSTD_STEP_BYTES * questions.

Lemma paced_more e input output questions input' output' :
  paced e input' output' questions → input ≤ input' + TR_ZSTD_STEP_BYTES → output' ≤ output + TR_ZSTD_STEP_BYTES →
  paced e input output (questions + 1).
Proof. intros Q I O Ok. destruct (Q Ok) as (out & E & Q1 & Q2). exists out. split; [exact E|]. lia. Qed.

Lemma encode_loop_paced input capacity cancelled : ∀ context source_pos output ws e,
  0 ≤ source_pos ≤ alen input → alen output ≤ capacity →
  zstd_encode_loop input capacity cancelled context source_pos output ws = Some e →
  paced e (alen input - source_pos) (alen output) (asked cancelled e).
Proof.
  induction cancelled as [|[] rest IH]; intros context source_pos output ws e P O E; [discriminate|injection E as <-; intros [=]|].
  cbn [zstd_encode_loop] in E. pose proof (step_end_bounds source_pos (alen input) ltac:(lia)) as B1.
  pose proof (step_end_bounds (alen output) capacity O) as B2. pose proof (step_end_paced source_pos (alen input)) as P1.
  pose proof (step_end_paced (alen output) capacity) as P2.
  set (src := window _ _ _) in E. set (room := _ - alen output) in E. set (last := _ =? alen input) in E.
  assert (W : alen src = tr_zstd_step_end source_pos (alen input) - source_pos) by (apply window_length; lia).
  destruct (zl_compress context src room last ws ltac:(subst room; lia)) as (T & R & _).
  set (r := ZSTD_compressStream2 _ _ _ _ _) in *. pose proof (alen_append output (zs_out r)) as A.
  assert (Ask : ∀ e', asked (false :: rest) e' = asked rest e' + 1) by (intros e'; unfold asked; rewrite alen_more; lia).
  assert (A0 : 0 ≤ alen (zs_out r)) by apply alen_nonneg.
  destruct (ZSTD_isError (zs_ret r)); [injection E as <-; intros X; cbn [ze_outcome] in X; by apply error_not_ok in X|].
  destruct (last && (zs_ret r =? 0)).
  { destruct (Z.eqb_spec (source_pos + zs_taken r) (alen input)); injection E as <-; intros X; [|discriminate].
    exists (output ++ zs_out r). split; [reflexivity|]. rewrite Ask. unfold asked. cbn [ze_rest]. lia. }
  destruct (alen (output ++ zs_out r) =? capacity); [injection E as <-; intros [=]|].
  destruct (_ && _); [injection E as <-; intros [=]|].
  apply IH in E; [|lia|subst room; lia]. rewrite Ask. eapply paced_more; [exact E|lia|subst room; lia].
Qed.

Lemma decode_loop_paced input capacity cancelled : ∀ context source_pos output ws e,
  0 ≤ source_pos ≤ alen input → alen output ≤ capacity →
  zstd_decode_loop input capacity cancelled context source_pos output ws = Some e →
  paced e (alen input - source_pos) (alen output) (asked cancelled e).
Proof.
  induction cancelled as [|[] rest IH]; intros context source_pos output ws e P O E; [discriminate|injection E as <-; intros [=]|].
  cbn [zstd_decode_loop] in E. pose proof (step_end_bounds source_pos (alen input) ltac:(lia)) as B1.
  pose proof (step_end_bounds (alen output) capacity O) as B2. pose proof (step_end_paced source_pos (alen input)) as P1.
  pose proof (step_end_paced (alen output) capacity) as P2.
  set (src := window _ _ _) in E. set (probe := alen output =? capacity) in E. set (room := if probe then 1 else _) in E.
  assert (W : alen src = tr_zstd_step_end source_pos (alen input) - source_pos) by (apply window_length; lia).
  destruct (zl_decompress context src room ws ltac:(subst room; destruct probe; lia)) as (T & R & _).
  set (r := ZSTD_decompressStream _ _ _ _) in *. set (output' := if probe then output else output ++ zs_out r) in E.
  assert (A : alen output ≤ alen output' ≤ alen output + TR_ZSTD_STEP_BYTES ∧ alen output' ≤ capacity).
  { subst output' room. pose proof (alen_nonneg (zs_out r)). destruct probe; [unfold TR_ZSTD_STEP_BYTES; lia|rewrite alen_append; lia]. }
  assert (Ask : ∀ e', asked (false :: rest) e' = asked rest e' + 1) by (intros e'; unfold asked; rewrite alen_more; lia).
  destruct (ZSTD_isError (zs_ret r)); [injection E as <-; intros X; cbn [ze_outcome] in X; by apply error_not_ok in X|].
  destruct (probe && negb _); [injection E as <-; intros [=]|]. destruct (zs_ret r =? 0).
  { destruct (Z.eqb_spec (source_pos + zs_taken r) (alen input)); cbn [andb] in E; [|injection E as <-; intros [=]].
    destruct (alen output' =? capacity); injection E as <-; intros X; [|discriminate].
    exists output'. split; [reflexivity|]. rewrite Ask. unfold asked. cbn [ze_rest]. lia. }
  destruct (_ && _); [injection E as <-; intros [=]|].
  apply IH in E; [|lia|lia]. rewrite Ask. eapply paced_more; [exact E|lia|lia].
Qed.

Lemma no_context_not_ok ws : no_context ws ≠ TR_MESSAGE_TRANSFORM_OK.
Proof. unfold no_context. by destruct (zw_failure ws). Qed.

Ltac not_ok := match goal with E : Some (mk_end _ _ _ _) = Some _ |- _ =>
  injection E as <-; let X := fresh in intros X; cbn [ze_outcome] in X; first [discriminate|by apply error_not_ok in X|by apply no_context_not_ok in X] end.

Lemma encode_paced config input capacity cancelled ws e : 0 ≤ capacity →
  tr_zstd_encode config input capacity cancelled ws = Some e → paced e (alen input) 0 (asked cancelled e).
Proof.
  intros Cp E. unfold tr_zstd_encode in E. destruct (ZSTD_createCCtx ws) as [[c|] ws1]; [|not_ok].
  repeat (destruct (ZSTD_isError _); [not_ok|]). pose proof (alen_nonneg input).
  apply encode_loop_paced in E; [|lia|exact Cp]. rewrite Z.sub_0_r in E. exact E.
Qed.

Lemma decode_paced config input capacity cancelled ws e : 0 ≤ capacity →
  tr_zstd_decode config input capacity cancelled ws = Some e → paced e (alen input) 0 (asked cancelled e).
Proof.
  intros Cp E. unfold tr_zstd_decode in E. destruct (ZSTD_getFrameHeader input) as [ret header].
  destruct (ZSTD_isError ret || _ || _ || _); [not_ok|]. destruct (_ >? _); [not_ok|].
  destruct (match zh_content_size header with None => false | Some n => _ end); [not_ok|].
  destruct (ZSTD_createDCtx ws) as [[c|] ws1]; [|not_ok]. destruct (ZSTD_isError _); [not_ok|]. pose proof (alen_nonneg input).
  apply decode_loop_paced in E; [|lia|exact Cp]. rewrite Z.sub_0_r in E. exact E.
Qed.

Lemma run_paced config input capacity cancelled e : 0 ≤ capacity →
  tr_message_zstd_run config input capacity cancelled = Some e → paced e (alen input) 0 (asked cancelled e - 1).
Proof.
  intros Cp E. unfold tr_message_zstd_run in E. destruct cancelled as [|[] rest]; [discriminate|not_ok|].
  destruct (if _ =? _ then _ else _) as [e1|] eqn:E1; [|discriminate]. cbn [mbind option_bind] in E.
  assert (Q : paced e1 (alen input) 0 (asked rest e1)) by (destruct (_ =? _); [by eapply encode_paced|by eapply decode_paced]).
  replace (asked (false :: rest) e - 1) with (asked rest e) by (unfold asked; rewrite alen_more; lia).
  unfold clean_up in E. destruct (_ || _); [|injection E as <-; exact Q].
  destruct (free_chain _ _ _); [|discriminate]. cbn [mbind option_bind] in E. not_ok.
Qed.

(** An end before the loop. *)
Lemma loop_none capacity exact ws steps cancelled outcome ws' : 0 ≤ steps → outcome ≠ TR_MESSAGE_TRANSFORM_CANCELLED ∧ outcome ≠ TR_MESSAGE_TRANSFORM_OK →
  ws_uses ws ws' → loop_ok capacity exact ws steps cancelled (mk_end outcome None cancelled ws').
Proof. intros S [C1 C2] U. split; [|intros C; by destruct C2|exact U]. exists 0%nat. split; [lia|]. by left. Qed.

Lemma loop_before capacity exact ws ws' steps cancelled e : ws_uses ws ws' → loop_ok capacity exact ws' steps cancelled e → loop_ok capacity exact ws steps cancelled e.
Proof. intros U [A O W]. split; [exact A|exact O|eapply ws_uses_trans; eassumption]. Qed.

Lemma loop_after capacity exact ws ws' steps cancelled k : ws_uses ws ws' →
  (∃ e, k = Some e ∧ loop_ok capacity exact ws' steps cancelled e) → ∃ e, k = Some e ∧ loop_ok capacity exact ws steps cancelled e.
Proof. intros U (e & E & Ok). exists e. split; [exact E|]. eapply loop_before; eassumption. Qed.

(** A call that sets up a context. *)
Lemma set_up {C} capacity exact ws0 steps cancelled (r : zstd_call C) (free : C → tr_zstd_workspace → tr_zstd_workspace) decode k :
  0 ≤ steps → refusal (zw_failure ws0) → (∀ c ws, ws_uses ws (free c ws)) → ws_uses ws0 (zc_ws r) →
  (refusal (zw_failure (zc_ws r)) → ∃ e, k = Some e ∧ loop_ok capacity exact (zc_ws r) steps cancelled e) →
  ∃ e, (if ZSTD_isError (zc_ret r) then Some (mk_end (tr_zstd_error (zc_ws r) (zc_ret r) decode) None cancelled (free (zc_ctx r) (zc_ws r))) else k) = Some e ∧
    loop_ok capacity exact ws0 steps cancelled e.
Proof.
  intros S F Fr U K. pose proof (uses_refusal _ _ U F) as F'. destruct (ZSTD_isError (zc_ret r)).
  - eexists. split; [reflexivity|]. apply loop_none; [exact S|by apply error_outcome|]. eapply ws_uses_trans; [exact U|apply Fr].
  - destruct (K F') as (e & -> & Ok). exists e. split; [reflexivity|]. eapply loop_before; eassumption.
Qed.

Lemma encode_ends config input capacity cancelled ws : 0 ≤ capacity → refusal (zw_failure ws) → alen input + capacity < alen cancelled →
  ∃ e, tr_zstd_encode config input capacity cancelled ws = Some e ∧ loop_ok capacity false ws (alen input + capacity + 1) cancelled e.
Proof.
  intros Cp F L. assert (St : 0 ≤ alen input + capacity + 1) by (pose proof (alen_nonneg input); lia).
  unfold tr_zstd_encode. pose proof (zl_create_c ws) as U. destruct (ZSTD_createCCtx ws) as [[c|] ws1]; cbn [snd] in U.
  - pose proof (uses_refusal _ _ U F) as F1. apply (loop_after _ _ _ _ _ _ _ U).
    cbv zeta. apply set_up; [exact St|exact F1|apply zl_free_c|apply zl_set_c|intros F2].
    apply set_up; [exact St|exact F2|apply zl_free_c|apply zl_set_c|intros F3].
    apply set_up; [exact St|exact F3|apply zl_free_c|apply zl_set_c|intros F4].
    apply set_up; [exact St|exact F4|apply zl_free_c|apply zl_set_c|intros F5].
    apply set_up; [exact St|exact F5|apply zl_free_c|apply zl_pledge|intros F6].
    pose proof (alen_nonneg input) as N. match goal with |- ∃ e, zstd_encode_loop _ _ _ ?c _ _ ?w = _ ∧ _ =>
      destruct (encode_loop_ends input capacity cancelled c 0 [] w) as (e & E & Ok) end;
      [lia|exact Cp|exact F6|change (alen []) with 0; lia|].
    exists e. split; [exact E|]. change (alen []) with 0 in Ok. rewrite !Z.sub_0_r in Ok. exact Ok.
  - eexists. split; [reflexivity|]. apply loop_none; [exact St|apply no_context_outcome, (uses_refusal _ _ U F)|exact U].
Qed.

Lemma decode_ends config input capacity cancelled ws : 0 ≤ capacity → refusal (zw_failure ws) → alen input + capacity < alen cancelled →
  ∃ e, tr_zstd_decode config input capacity cancelled ws = Some e ∧ loop_ok capacity true ws (alen input + capacity + 1) cancelled e.
Proof.
  intros Cp F L. assert (St : 0 ≤ alen input + capacity + 1) by (pose proof (alen_nonneg input); lia).
  assert (Bad : ∀ outcome, outcome ≠ TR_MESSAGE_TRANSFORM_CANCELLED ∧ outcome ≠ TR_MESSAGE_TRANSFORM_OK →
    ∃ e, Some (mk_end outcome None cancelled ws) = Some e ∧ loop_ok capacity true ws (alen input + capacity + 1) cancelled e).
  { intros o O. eexists. split; [reflexivity|]. apply loop_none; [exact St|exact O|apply uses_nothing]. }
  unfold tr_zstd_decode. destruct (ZSTD_getFrameHeader input) as [ret header].
  destruct (ZSTD_isError ret || negb (ret =? 0) || negb (zh_plain header) || negb (zh_dict_id header =? 0)); [by apply Bad|].
  destruct (zh_window_size header >? _); [by apply Bad|]. destruct (match zh_content_size header with None => false | Some n => _ end); [by apply Bad|].
  clear Bad. pose proof (zl_create_d ws) as U. destruct (ZSTD_createDCtx ws) as [[c|] ws1]; cbn [snd] in U.
  - pose proof (uses_refusal _ _ U F) as F1. apply (loop_after _ _ _ _ _ _ _ U).
    cbv zeta. apply set_up; [exact St|exact F1|apply zl_free_d|apply zl_set_d|intros F2].
    pose proof (alen_nonneg input) as N. match goal with |- ∃ e, zstd_decode_loop _ _ _ ?c _ _ ?w = _ ∧ _ =>
      destruct (decode_loop_ends input capacity cancelled c 0 [] w) as (e & E & Ok) end;
      [lia|exact Cp|exact F2|change (alen []) with 0; lia|].
    exists e. split; [exact E|]. change (alen []) with 0 in Ok. rewrite !Z.sub_0_r in Ok. exact Ok.
  - eexists. split; [reflexivity|]. apply loop_none; [exact St|apply no_context_outcome, (uses_refusal _ _ U F)|exact U].
Qed.

End Safe.

(** * Lemmas: the memory is given back *)

Lemma inv_head_none ws l : ws_inv ws l → zw_head ws = None → zw_blocks ws = ∅.
Proof.
  intros I E. assert (l = []) as ->.
  { pose proof (linked_first _ _ _ _ (wi_linked _ _ I)) as X. rewrite E in X. by destruct l as [|[]]. }
  apply map_eq. intros p. rewrite lookup_empty. destruct (zw_blocks ws !! p) as [a|] eqn:X; [|reflexivity].
  pose proof (wi_all _ _ I p (mk_is_Some _ _ X)) as Y. by apply not_elem_of_nil in Y.
Qed.

Lemma inv_none_head ws l : ws_inv ws l → zw_blocks ws = ∅ → zw_head ws = None ∧ zw_current ws = 0.
Proof.
  intros I E. assert (l = []) as ->.
  { destruct l as [|[p n] l]; [reflexivity|]. pose proof (wi_linked _ _ I) as (_ & next & B & _). rewrite E in B. discriminate. }
  split; [apply (linked_first _ _ _ _ (wi_linked _ _ I))|apply (wi_current _ _ I)].
Qed.

Lemma clean_up_spec limit e : u64_ok limit → ws_uses (fresh_workspace limit) (ze_ws e) →
  ∃ e', clean_up e = Some e' ∧ zw_blocks (ze_ws e') = ∅ ∧ ze_rest e' = ze_rest e ∧ ze_output e' = ze_output e ∧
    zw_failure (ze_ws e') = zw_failure (ze_ws e) ∧
    (ze_outcome e' = ze_outcome e ∧ e' = e ∨ ze_outcome e' = TR_MESSAGE_TRANSFORM_INTERNAL) ∧
    (zw_blocks (ze_ws e) = ∅ → e' = e).
Proof.
  intros L U. destruct (ws_uses_inv _ _ _ U (fresh_inv _ L)) as (l & I & _). unfold clean_up. rewrite (inv_freed _ _ I). cbn [mbind option_bind].
  destruct (bool_decide (is_Some (zw_head (ze_ws e))) || negb (zw_current (ze_ws e) =? 0)) eqn:Leak.
  - eexists. split; [reflexivity|]. cbn. split; [reflexivity|]. repeat (split; [reflexivity|]). split; [by right|].
    intros B. destruct (inv_none_head _ _ I B) as [X Y]. rewrite X, Y in Leak. discriminate.
  - exists e. split; [reflexivity|]. apply orb_false_iff in Leak as [Leak _]. apply bool_decide_eq_false in Leak.
    split; [apply (inv_head_none _ _ I); by apply eq_None_not_Some|]. repeat (split; [reflexivity|]). split; [by left|reflexivity].
Qed.

(** * Lemmas: what is decoded is what was encoded *)

Lemma take_all {A} (l : list A) (n : Z) : n = alen l → take (Z.to_nat n) l = l.
Proof. intros ->. apply take_ge. unfold alen. lia. Qed.

(** Once something was refused, that is not forgotten. *)
Lemma uses_refused ws ws' : ws_uses ws ws' → zw_failure ws ≠ TR_MESSAGE_TRANSFORM_OK → zw_failure ws' ≠ TR_MESSAGE_TRANSFORM_OK.
Proof.
  induction 1 as [|ws r ws' V R IH]; [auto|]. intros H. apply IH. destruct r as [size malloc|[p|]]; cbn; [| |exact H].
  - unfold tr_zstd_allocate. repeat case_match; cbn; done.
  - destruct (zw_blocks ws !! p); exact H.
Qed.

Section Frames.
Context `{!Zstd} `{!ZstdCalls} `{!ZstdFrames}.

Lemma encode_loop_frame input capacity w cancelled : ∀ context source_pos output ws e,
  0 ≤ source_pos ≤ alen input → alen output ≤ capacity → zf_encoder context w (take (Z.to_nat source_pos) input) output →
  zstd_encode_loop input capacity cancelled context source_pos output ws = Some e → ze_outcome e = TR_MESSAGE_TRANSFORM_OK →
  ∃ z, ze_output e = Some z ∧ zf_frame w z input.
Proof.
  induction cancelled as [|[] rest IH]; intros context source_pos output ws e P O S; [discriminate|intros [= <-]; discriminate|].
  cbn [zstd_encode_loop]. pose proof (step_end_bounds source_pos (alen input) ltac:(lia)) as B1.
  pose proof (step_end_bounds (alen output) capacity O) as B2. set (src := window _ _ _). set (room := _ - alen output).
  set (last := tr_zstd_step_end source_pos (alen input) =? alen input).
  assert (W : alen src = tr_zstd_step_end source_pos (alen input) - source_pos) by (apply window_length; lia).
  destruct (zl_compress context src room last ws ltac:(subst room; lia)) as (T & R & _).
  pose proof (zf_compress context w _ _ src room last ws S ltac:(subst room; lia)) as G.
  set (r := ZSTD_compressStream2 _ _ _ _ _) in *. assert (T' : 0 ≤ source_pos + zs_taken r ≤ alen input) by lia.
  assert (R' : alen output + alen (zs_out r) ≤ capacity) by (unfold room in R; lia). pose proof (alen_append output (zs_out r)) as A.
  destruct (ZSTD_isError (zs_ret r)) eqn:Err; [intros [= <-] X; by apply error_not_ok in X|]. specialize (G Err).
  destruct (last && (zs_ret r =? 0)) eqn:Done.
  - destruct (source_pos + zs_taken r =? alen input) eqn:Full; intros [= <-]; [intros _|discriminate].
    eexists. split; [reflexivity|]. cbn [ze_output]. apply andb_true_iff in Done as [Done _]. unfold last in Done.
    assert (Eq : take (Z.to_nat source_pos) input ++ src = input).
    { rewrite <- (take_all src (zs_taken r)) by lia. unfold src. rewrite window_taken by (fold src; lia). apply take_all. lia. }
    rewrite Eq in G. apply G. lia.
  - destruct (alen (output ++ zs_out r) =? capacity); [intros [= <-]; discriminate|].
    destruct ((source_pos + zs_taken r =? source_pos) && (alen (output ++ zs_out r) =? alen output)); [intros [= <-]; discriminate|].
    apply IH; [exact T'|lia|]. unfold src in G. rewrite window_taken in G by (fold src; lia). exact G.
Qed.

Lemma encode_frame config input capacity cancelled ws e : 0 ≤ capacity → tr_zstd_encode config input capacity cancelled ws = Some e →
  ze_outcome e = TR_MESSAGE_TRANSFORM_OK → ∃ z, ze_output e = Some z ∧ zf_frame (tf_max_window_log config) z input.
Proof.
  intros Cp E X. unfold tr_zstd_encode in E. destruct (ZSTD_createCCtx ws) as [[c|] ws1] eqn:Cr.
  2:{ injection E as <-. cbn in X. unfold no_context in X. by destruct (zw_failure ws1). }
  destruct (zf_create_c ws c) as [w S]; [by rewrite Cr|].
  repeat match type of E with
  | (if ZSTD_isError (zc_ret (ZSTD_CCtx_setParameter ?c ?p ?v ?ws)) then _ else _) = _ =>
      let Err := fresh in destruct (ZSTD_isError (zc_ret (ZSTD_CCtx_setParameter c p v ws))) eqn:Err;
      [injection E as <-; by apply error_not_ok in X|apply (zf_set_c c _ p v ws S) in Err; clear S; rename Err into S; cbn beta iota in S]
  end.
  destruct (ZSTD_isError (zc_ret (ZSTD_CCtx_setPledgedSrcSize _ _ _))) eqn:Err; [injection E as <-; by apply error_not_ok in X|].
  apply (zf_pledge _ _ _ _ S) in Err. apply (encode_loop_frame _ _ (tf_max_window_log config)) in E; [exact E|..|exact X].
  - pose proof (alen_nonneg input). lia.
  - exact Cp.
  - exact Err.
Qed.

(** How decoding a frame of [x] may end. *)
Definition decoded (x : list Z) (e : zstd_end) : Prop :=
  ze_outcome e = TR_MESSAGE_TRANSFORM_OK ∧ ze_output e = Some x ∨
  ze_outcome e = TR_MESSAGE_TRANSFORM_CANCELLED ∨
  (ze_outcome e = TR_MESSAGE_TRANSFORM_LIMIT ∨ ze_outcome e = TR_MESSAGE_TRANSFORM_NOMEM) ∧ zw_failure (ze_ws e) ≠ TR_MESSAGE_TRANSFORM_OK.

Lemma decoded_refused x ws error decode rest ws' : refusal (zw_failure ws) → zw_failure ws ≠ TR_MESSAGE_TRANSFORM_OK → ws_uses ws ws' →
  decoded x (mk_end (tr_zstd_error ws error decode) None rest ws').
Proof.
  intros F N U. right. right. split; [|by apply (uses_refused ws)]. cbn. unfold tr_zstd_error. destruct F as [F|[->| ->]]; [congruence|by left|by right].
Qed.

Lemma decode_loop_frame input x w v cancelled : zf_frame w input x → w ≤ v → ∀ context source_pos output ws e,
  0 ≤ source_pos ≤ alen input → output `prefix_of` x → refusal (zw_failure ws) → zf_owns context ws →
  zf_decoder context v (take (Z.to_nat source_pos) input) output →
  zstd_decode_loop input (alen x) cancelled context source_pos output ws = Some e → decoded x e ∧ zw_blocks (ze_ws e) = ∅.
Proof.
  intros Fr V. induction cancelled as [|[] rest IH]; intros context source_pos output ws e P O F Ow S; [discriminate| |].
  { intros [= <-]. split; [right; by left|apply zf_freed, Ow]. }
  cbn [zstd_decode_loop]. pose proof (step_end_bounds source_pos (alen input) ltac:(lia)) as B1.
  assert (O' : alen output ≤ alen x) by (apply prefix_length in O; unfold alen; lia).
  pose proof (step_end_advances (alen output) (alen x)) as B2. set (src := window _ _ _). set (probe := alen output =? alen x).
  set (room := if probe then 1 else _).
  assert (W : alen src = tr_zstd_step_end source_pos (alen input) - source_pos) by (apply window_length; lia).
  assert (Ro : 0 < room) by (subst room; destruct probe eqn:Pr; [lia|]; apply Z.eqb_neq in Pr; lia).
  destruct (zl_decompress context src room ws ltac:(lia)) as (T & _ & U).
  destruct (zf_decompress context w v (take (Z.to_nat source_pos) input) output input x src room ws Ow Fr V S) as [Ow' G]; [apply window_prefix; lia|exact O|exact Ro|].
  set (r := ZSTD_decompressStream _ _ _ _) in *. pose proof (uses_refusal _ _ U F) as F'. assert (T' : 0 ≤ source_pos + zs_taken r ≤ alen input) by lia.
  destruct (ZSTD_isError (zs_ret r)).
  { intros [= <-]. split; [apply decoded_refused; [exact F'|exact G|apply zl_free_d]|apply zf_freed, Ow']. }
  cbv zeta in G. unfold src in G. rewrite window_taken in G by (fold src; lia). fold src in G. destruct G as (G1 & G2 & G3).
  assert (Out : (if probe then output else output ++ zs_out r) = output ++ zs_out r ∧ (probe && negb (alen (zs_out r) =? 0)) = false).
  { destruct probe eqn:Pr; [|done]. apply Z.eqb_eq in Pr. apply prefix_length in G1. rewrite length_app in G1. unfold alen in Pr.
    assert (zs_out r = []) as -> by (apply nil_length_inv; lia). rewrite app_nil_r. done. }
  destruct Out as [-> ->]. destruct (zs_ret r =? 0) eqn:Z0.
  - apply Z.eqb_eq in Z0. destruct (G2 Z0) as [X1 X2]. rewrite X2, Z.eqb_refl, andb_true_r. replace (source_pos + zs_taken r =? alen input) with true.
    + intros [= <-]. split; [by left|apply zf_freed, Ow'].
    + symmetry. apply Z.eqb_eq. apply (f_equal length) in X1. rewrite length_take in X1. unfold alen in *. lia.
  - apply Z.eqb_neq in Z0. destruct (G3 Z0) as (D & _ & Pg). destruct ((source_pos + zs_taken r =? source_pos) && (alen (zs_out r) =? 0)) eqn:Stuck.
    + exfalso. apply andb_true_iff in Stuck as [K1 K2]. assert (zs_out r = []) as K3 by (apply nil_length_inv; unfold alen in K2; lia).
      destruct Pg as [Pg|Pg]; [|lia|done]. destruct (decide (source_pos = alen input)) as [K|K]; [left; by apply take_all|right].
      intros K4. rewrite K4 in W. change (alen []) with 0 in W. pose proof (step_end_advances source_pos (alen input)). lia.
    + apply IH; assumption.
Qed.

End Frames.

(** * Lemmas: a run *)

(** How a run ends. *)
Record run_ok (config : tr_message_transform_config) (input : list Z) (capacity : Z) (cancelled : list bool) (e : zstd_end) : Prop := {
  rk_memory : zw_blocks (ze_ws e) = ∅;
  rk_asked : ∃ k, Z.of_nat k ≤ alen input + capacity + 2 ∧
    (cancelled = replicate k false ++ ze_rest e ∧ ze_outcome e ≠ TR_MESSAGE_TRANSFORM_CANCELLED ∨
     cancelled = replicate k false ++ true :: ze_rest e ∧
       (ze_outcome e = TR_MESSAGE_TRANSFORM_CANCELLED ∨ ze_outcome e = TR_MESSAGE_TRANSFORM_INTERNAL));
  rk_output : ze_outcome e = TR_MESSAGE_TRANSFORM_OK → ∃ out, ze_output e = Some out ∧ alen out ≤ capacity ∧
    (tf_kind config ≠ TR_MESSAGE_ZSTD_ENCODE → alen out = capacity)
}.

Lemma zstd_run_ends `{!Zstd} `{!ZstdCalls} config input capacity cancelled :
  u64_ok (tf_max_workspace_bytes config) → 0 ≤ capacity → alen input + capacity + 1 < alen cancelled →
  ∃ e, tr_message_zstd_run config input capacity cancelled = Some e ∧ run_ok config input capacity cancelled e.
Proof.
  intros W Cp L. destruct cancelled as [|[] rest]; [change (alen []) with 0 in L; pose proof (alen_nonneg input); lia| |].
  { eexists. split; [reflexivity|]. split; [reflexivity| |discriminate]. exists 0%nat. pose proof (alen_nonneg input). split; [lia|]. right. by split; [|left]. }
  rewrite alen_more in L. unfold tr_message_zstd_run. set (ws := fresh_workspace _). assert (F : refusal (zw_failure ws)) by (by left).
  assert (E : ∃ e, (if tf_kind config =? TR_MESSAGE_ZSTD_ENCODE then tr_zstd_encode config input capacity rest ws
    else tr_zstd_decode config input capacity rest ws) = Some e ∧ loop_ok capacity (negb (tf_kind config =? TR_MESSAGE_ZSTD_ENCODE)) ws (alen input + capacity + 1) rest e).
  { destruct (tf_kind config =? TR_MESSAGE_ZSTD_ENCODE); [apply encode_ends|apply decode_ends]; assumption || lia. }
  destruct E as (e & -> & [(k & K & A) O U]). cbn [mbind option_bind].
  destruct (clean_up_spec _ e W U) as (e' & -> & B & R & Ou & _ & C & _). exists e'. split; [reflexivity|]. split; [exact B| |]; rewrite ?R.
  - exists (S k). split; [lia|]. cbn. destruct A as [[-> A]|[-> A]].
    + left. split; [reflexivity|]. destruct C as [[-> _]| ->]; [exact A|discriminate].
    + right. split; [reflexivity|]. destruct C as [[-> _]| ->]; [left; exact A|by right].
  - intros X. destruct C as [[C _]|C]; [|congruence]. rewrite C in X. destruct (O X) as (out & Eo & O1 & O2). exists out. rewrite Ou, Eo.
    split; [reflexivity|]. split; [exact O1|]. intros N. apply O2. by apply Z.eqb_neq in N as ->.
Qed.

(** More answers than are asked for change nothing else. *)
Definition more_rest (e : zstd_end) (more : list bool) : zstd_end := mk_end (ze_outcome e) (ze_output e) (ze_rest e ++ more) (ze_ws e).

Section More.
Context `{!Zstd}.

Lemma encode_loop_more input capacity more cancelled : ∀ context source_pos output ws e,
  zstd_encode_loop input capacity cancelled context source_pos output ws = Some e →
  zstd_encode_loop input capacity (cancelled ++ more) context source_pos output ws = Some (more_rest e more).
Proof.
  induction cancelled as [|[] rest IH]; intros context source_pos output ws e; [discriminate|intros [= <-]; reflexivity|].
  cbn [app zstd_encode_loop]. repeat case_match; first [intros [= <-]; reflexivity|apply IH].
Qed.

Lemma decode_loop_more input capacity more cancelled : ∀ context source_pos output ws e,
  zstd_decode_loop input capacity cancelled context source_pos output ws = Some e →
  zstd_decode_loop input capacity (cancelled ++ more) context source_pos output ws = Some (more_rest e more).
Proof.
  induction cancelled as [|[] rest IH]; intros context source_pos output ws e; [discriminate|intros [= <-]; reflexivity|].
  cbn [app zstd_decode_loop]. repeat case_match; first [intros [= <-]; reflexivity|apply IH].
Qed.

Lemma zstd_run_more config input capacity cancelled more e : tr_message_zstd_run config input capacity cancelled = Some e →
  tr_message_zstd_run config input capacity (cancelled ++ more) = Some (more_rest e more).
Proof.
  unfold tr_message_zstd_run. destruct cancelled as [|[] rest]; [discriminate|intros [= <-]; reflexivity|]. cbn [app].
  set (ws := fresh_workspace _). intros E.
  assert (G : ∀ k k', (∀ e0, k = Some e0 → k' = Some (more_rest e0 more)) → (k ≫= clean_up = Some e) → k' ≫= clean_up = Some (more_rest e more)).
  { intros k k' K X. destruct k as [e0|]; [|discriminate]. rewrite (K e0 eq_refl). cbn [mbind option_bind] in X |- *. unfold clean_up in *. cbn [ze_ws more_rest].
    destruct (_ || _); [|injection X as <-; reflexivity]. destruct (free_chain _ _ _); [|discriminate]. injection X as <-. reflexivity. }
  revert E. apply G. clear G. intros e0. destruct (tf_kind config =? TR_MESSAGE_ZSTD_ENCODE).
  - unfold tr_zstd_encode. repeat case_match; first [intros [= <-]; reflexivity|apply encode_loop_more].
  - unfold tr_zstd_decode. repeat case_match; first [intros [= <-]; reflexivity|apply decode_loop_more].
Qed.

(** Only the answers that were asked for matter. *)
Definition asked_only (e : zstd_end) : zstd_end := mk_end (ze_outcome e) (ze_output e) [] (ze_ws e).

Lemma encode_loop_less input capacity cancelled : ∀ context source_pos output ws e,
  zstd_encode_loop input capacity cancelled context source_pos output ws = Some e →
  ∃ asked, cancelled = asked ++ ze_rest e ∧ zstd_encode_loop input capacity asked context source_pos output ws = Some (asked_only e).
Proof.
  induction cancelled as [|[] rest IH]; intros context source_pos output ws e; [discriminate|intros [= <-]; by exists [true]|].
  cbn [zstd_encode_loop]. cbv zeta.
  destruct (ZSTD_isError _) eqn:X1; [intros [= <-]; exists [false]; cbn [app zstd_encode_loop]; cbv zeta; rewrite X1; auto|].
  destruct ((tr_zstd_step_end source_pos (alen input) =? alen input) && _) eqn:X2.
  - destruct (source_pos + _ =? alen input) eqn:X3; intros [= <-]; exists [false]; cbn [app zstd_encode_loop]; cbv zeta; rewrite X1, X2, X3; auto.
  - destruct (_ =? capacity) eqn:X3; [intros [= <-]; exists [false]; cbn [app zstd_encode_loop]; cbv zeta; rewrite X1, X2, X3; auto|].
    destruct ((_ =? source_pos) && _) eqn:X4; [intros [= <-]; exists [false]; cbn [app zstd_encode_loop]; cbv zeta; rewrite X1, X2, X3, X4; auto|].
    intros E. apply IH in E as (asked & -> & E). exists (false :: asked). cbn [app zstd_encode_loop]. cbv zeta. rewrite X1, X2, X3, X4. auto.
Qed.

Lemma decode_loop_less input capacity cancelled : ∀ context source_pos output ws e,
  zstd_decode_loop input capacity cancelled context source_pos output ws = Some e →
  ∃ asked, cancelled = asked ++ ze_rest e ∧ zstd_decode_loop input capacity asked context source_pos output ws = Some (asked_only e).
Proof.
  induction cancelled as [|[] rest IH]; intros context source_pos output ws e; [discriminate|intros [= <-]; by exists [true]|].
  cbn [zstd_decode_loop]. cbv zeta. set (probe := alen output =? capacity).
  destruct (ZSTD_isError _) eqn:X1; [intros [= <-]; exists [false]; cbn [app zstd_decode_loop]; cbv zeta; fold probe; rewrite X1; auto|].
  destruct (probe && negb _) eqn:X2; [intros [= <-]; exists [false]; cbn [app zstd_decode_loop]; cbv zeta; fold probe; rewrite X1, X2; auto|].
  destruct (zs_ret _ =? 0) eqn:X3.
  - destruct ((source_pos + _ =? alen input) && _) eqn:X4; intros [= <-]; exists [false]; cbn [app zstd_decode_loop]; cbv zeta; fold probe; rewrite X1, X2, X3, X4; auto.
  - destruct ((source_pos + _ =? source_pos) && _) eqn:X4; [intros [= <-]; exists [false]; cbn [app zstd_decode_loop]; cbv zeta; fold probe; rewrite X1, X2, X3, X4; auto|].
    intros E. apply IH in E as (asked & -> & E). exists (false :: asked). cbn [app zstd_decode_loop]. cbv zeta. fold probe. rewrite X1, X2, X3, X4. auto.
Qed.

Lemma zstd_run_less config input capacity cancelled e : tr_message_zstd_run config input capacity cancelled = Some e →
  ∃ asked e', cancelled = asked ++ ze_rest e ∧ tr_message_zstd_run config input capacity asked = Some e'.
Proof.
  unfold tr_message_zstd_run. destruct cancelled as [|[] rest]; [discriminate|intros [= <-]; exists [true]; by eexists|].
  set (ws := fresh_workspace _). intros E.
  assert (C : ∀ e0, clean_up e0 = Some e → ze_rest e = ze_rest e0 ∧ is_Some (clean_up (asked_only e0))).
  { intros e0 X. unfold clean_up in *. cbn [ze_ws asked_only]. destruct (_ || _); [|injection X as <-; by split].
    destruct (free_chain _ _ _); [|discriminate]. injection X as <-. by split. }
  assert (G : ∀ k, (∀ e0, k rest = Some e0 → ∃ asked, rest = asked ++ ze_rest e0 ∧ k asked = Some (asked_only e0)) → k rest ≫= clean_up = Some e →
    ∃ asked e', false :: rest = asked ++ ze_rest e ∧ match asked with false :: l => k l ≫= clean_up = Some e' | _ => False end).
  { intros k K X. destruct (k rest) as [e0|] eqn:E0; [|discriminate]. destruct (K e0 eq_refl) as (asked & R & A). destruct (C e0 X) as [Re [e' Ce]].
    exists (false :: asked), e'. rewrite Re. split; [cbn; by rewrite <- R|]. rewrite A. exact Ce. }
  destruct (tf_kind config =? TR_MESSAGE_ZSTD_ENCODE).
  - destruct (G (λ l, tr_zstd_encode config input capacity l ws)) as (asked & e' & R & A); [|exact E|].
    + intros e0 E0. unfold tr_zstd_encode in *. repeat case_match; first [injection E0 as <-; by exists []|by apply encode_loop_less in E0].
    + exists asked, e'. split; [exact R|]. destruct asked as [|[] l]; [done|done|exact A].
  - destruct (G (λ l, tr_zstd_decode config input capacity l ws)) as (asked & e' & R & A); [|exact E|].
    + intros e0 E0. unfold tr_zstd_decode in *. repeat case_match; first [injection E0 as <-; by exists []|by apply decode_loop_less in E0].
    + exists asked, e'. split; [exact R|]. destruct asked as [|[] l]; [done|done|exact A].
Qed.

End More.

(** A run that has not ended was not asked often enough. *)
Lemma zstd_run_unfinished `{!Zstd} `{!ZstdCalls} config input capacity cancelled : u64_ok (tf_max_workspace_bytes config) → 0 ≤ capacity →
  tr_message_zstd_run config input capacity cancelled = None → alen cancelled ≤ alen input + capacity + 1.
Proof.
  intros W Cp E. destruct (Z.le_gt_cases (alen cancelled) (alen input + capacity + 1)) as [L|L]; [exact L|].
  destruct (zstd_run_ends config input capacity cancelled W Cp L) as (e & E' & _). congruence.
Qed.

(** A run is cancelled only when it is told so. *)
Lemma zstd_run_cancelled `{!Zstd} `{!ZstdCalls} config input capacity cancelled e : u64_ok (tf_max_workspace_bytes config) → 0 ≤ capacity →
  tr_message_zstd_run config input capacity cancelled = Some e → ze_outcome e = TR_MESSAGE_TRANSFORM_CANCELLED → true ∈ cancelled.
Proof.
  intros W Cp E X. set (more := replicate (Z.to_nat (alen input + capacity + 2)) false). apply (zstd_run_more _ _ _ _ more) in E.
  destruct (zstd_run_ends config input capacity (cancelled ++ more) W Cp) as (e' & E' & [_ (k & _ & A) _]).
  { pose proof (alen_nonneg input). pose proof (alen_nonneg cancelled). rewrite alen_append. unfold more at 1. unfold alen at 3. rewrite length_replicate. lia. }
  rewrite E in E'. injection E' as <-. destruct A as [[_ A]|[A _]]; [by destruct A|]. cbn [ze_rest more_rest] in A.
  change (true :: ze_rest e ++ more) with ((true :: ze_rest e) ++ more) in A. rewrite app_assoc in A. apply app_inv_tail in A as ->.
  apply elem_of_app. right. by left.
Qed.

(** What a run writes fits. *)
Lemma zstd_run_fits `{!Zstd} `{!ZstdCalls} config input capacity cancelled e : u64_ok (tf_max_workspace_bytes config) → 0 ≤ capacity →
  tr_message_zstd_run config input capacity cancelled = Some e → ze_outcome e = TR_MESSAGE_TRANSFORM_OK →
  ∃ out, ze_output e = Some out ∧ alen out ≤ capacity.
Proof.
  intros W Cp E X. set (more := replicate (Z.to_nat (alen input + capacity + 2)) false). apply (zstd_run_more _ _ _ _ more) in E.
  destruct (zstd_run_ends config input capacity (cancelled ++ more) W Cp) as (e' & E' & [_ _ O]).
  { pose proof (alen_nonneg input). pose proof (alen_nonneg cancelled). rewrite alen_append. unfold more at 1. unfold alen at 3. rewrite length_replicate. lia. }
  rewrite E in E'. injection E' as <-. destruct (O X) as (out & E0 & F & _). by exists out.
Qed.

(** * The properties *)

(** C34: For every input and every library that respects its windows, a transformation ends.  It asks
    whether it is cancelled no more than once per byte of the input and of the output and twice
    more, and, when it succeeds, at least once for every 64 KiB of the input and of the output.  It is
    cancelled at the first question that is answered with yes, and only then, unless the
    library leaks.  All memory is given back.  An encoded message fits the capacity, and a
    decoded one has exactly the capacity, which is its declared size. *)
Theorem zstd_run_safe `{!Zstd} `{!ZstdCalls} config input capacity cancelled :
  u64_ok (tf_max_workspace_bytes config) → 0 ≤ capacity → alen input + capacity + 1 < alen cancelled →
  ∃ e, tr_message_zstd_run config input capacity cancelled = Some e ∧ zw_blocks (ze_ws e) = ∅ ∧
    (∃ k, Z.of_nat k ≤ alen input + capacity + 2 ∧
       (cancelled = replicate k false ++ ze_rest e ∧ ze_outcome e ≠ TR_MESSAGE_TRANSFORM_CANCELLED ∨
        cancelled = replicate k false ++ true :: ze_rest e ∧
          (ze_outcome e = TR_MESSAGE_TRANSFORM_CANCELLED ∨ ze_outcome e = TR_MESSAGE_TRANSFORM_INTERNAL))) ∧
    (ze_outcome e = TR_MESSAGE_TRANSFORM_OK → ∃ out, ze_output e = Some out ∧ alen out ≤ capacity ∧
       (tf_kind config ≠ TR_MESSAGE_ZSTD_ENCODE → alen out = capacity) ∧
       Z.max (alen input) (alen out) ≤ 64 * 1024 * (asked cancelled e - 1)).
Proof.
  intros W Cp L. destruct (zstd_run_ends config input capacity cancelled W Cp L) as (e & E & [M A O]). exists e.
  split; [exact E|]. split; [exact M|]. split; [exact A|]. intros Ok. destruct (O Ok) as (out & Eo & O1 & O2).
  destruct (run_paced _ _ _ _ _ Cp E Ok) as (out' & Eo' & P1 & P2). rewrite Eo in Eo'. injection Eo' as <-.
  exists out. split; [exact Eo|]. split; [exact O1|]. split; [exact O2|]. unfold TR_ZSTD_STEP_BYTES in *. lia.
Qed.

Section Decode.
Context `{!Zstd} `{!ZstdCalls} `{!ZstdFrames}.

Lemma plan_window config n capacity : tf_kind config = TR_MESSAGE_ZSTD_DECODE → tr_message_zstd_plan (Some config) n = (TR_OK, Some capacity) →
  capacity = tf_decoded_size config ∧
  u32 (zb_lower ZSTD_dParam_windowLogMax_bounds) ≤ tf_max_window_log config ≤ u32 (zb_upper ZSTD_dParam_windowLogMax_bounds).
Proof.
  unfold tr_message_zstd_plan. intros K. rewrite K. destruct (tf_max_workspace_bytes config =? 0); [discriminate|].
  destruct (negb _); [discriminate|]. change (TR_MESSAGE_ZSTD_DECODE =? TR_MESSAGE_ZSTD_ENCODE) with false.
  change (TR_MESSAGE_ZSTD_DECODE =? TR_MESSAGE_ZSTD_DECODE) with true. cbn iota. destruct (_ || _); [discriminate|].
  destruct (ZSTD_isError _ || _ || _ || _) eqn:B; [discriminate|]. intros [= <-]. split; [reflexivity|].
  apply orb_false_iff in B as [B _]. apply orb_false_iff in B as [B B3]. apply orb_false_iff in B as [_ B2]. lia.
Qed.

Lemma decode_frame config x w z cancelled ws e : zf_frame w z x → w ≤ tf_max_window_log config → tf_decoded_size config = alen x →
  u32 (zb_lower ZSTD_dParam_windowLogMax_bounds) ≤ tf_max_window_log config ≤ u32 (zb_upper ZSTD_dParam_windowLogMax_bounds) →
  refusal (zw_failure ws) → zw_blocks ws = ∅ →
  tr_zstd_decode config z (alen x) cancelled ws = Some e → decoded x e ∧ zw_blocks (ze_ws e) = ∅.
Proof.
  intros Fr V D B F E. unfold tr_zstd_decode. destruct (zf_header _ _ _ Fr) as (h & -> & -> & -> & Hw & Hc).
  rewrite zf_zero_ok. change (0 =? 0) with true. cbn [negb orb].
  assert (0 ≤ tf_max_window_log config) by (pose proof (Z.mod_pos_bound (zb_lower ZSTD_dParam_windowLogMax_bounds) (2 ^ 32)); unfold u32 in B; lia).
  replace (_ >? _) with false by (rewrite Z.shiftl_1_l; pose proof (Z.pow_le_mono_r 2 w (tf_max_window_log config)); lia).
  replace (match zh_content_size h with None => false | Some n => _ end) with false.
  2:{ destruct (zh_content_size h) as [n|]; [|reflexivity]. rewrite (Hc n eq_refl), D, Z.eqb_refl. reflexivity. }
  pose proof (zf_create_d ws E) as Cr. pose proof (zl_create_d ws) as U. destruct (ZSTD_createDCtx ws) as [[c|] ws1]; cbn [snd] in U.
  2:{ intros [= <-]. destruct Cr as [N Bl]. split; [|exact Bl]. right. right. split; [|exact N]. cbn. unfold no_context.
      destruct (uses_refusal _ _ U F) as [R|[R|R]]; rewrite R in *; auto. }
  destruct Cr as [Ow S]. destruct (zf_set_d c (tf_max_window_log config) ws1 Ow S B) as [Ow' G]. pose proof (zl_set_d c (tf_max_window_log config) ws1) as U2.
  pose proof (uses_refusal _ _ U2 (uses_refusal _ _ U F)) as F'. destruct (ZSTD_isError _).
  { intros [= <-]. split; [apply decoded_refused; [exact F'|exact G|apply zl_free_d]|apply zf_freed, Ow']. }
  apply (decode_loop_frame z x w (tf_max_window_log config)); try assumption; [pose proof (alen_nonneg z); lia|apply prefix_nil].
Qed.

(** C15: What was encoded is decoded again: given the size of the content, a window that is at least
    as large, and enough answers, decoding an encoded message ends, and gives the message; or
    it was cancelled, or the allocator refused memory, and then it says so.  It is never found to
    be damaged. *)
Theorem zstd_roundtrip encode decode x capacity answers e z cancelled :
  0 ≤ capacity → tf_kind encode = TR_MESSAGE_ZSTD_ENCODE → tr_message_zstd_run encode x capacity answers = Some e →
  ze_outcome e = TR_MESSAGE_TRANSFORM_OK → ze_output e = Some z →
  tf_kind decode = TR_MESSAGE_ZSTD_DECODE → tf_max_window_log encode ≤ tf_max_window_log decode →
  tr_message_zstd_plan (Some decode) (alen z) = (TR_OK, Some (alen x)) → u64_ok (tf_max_workspace_bytes decode) →
  alen z + alen x + 1 < alen cancelled →
  ∃ d, tr_message_zstd_run decode z (alen x) cancelled = Some d ∧ zw_blocks (ze_ws d) = ∅ ∧
    (ze_outcome d = TR_MESSAGE_TRANSFORM_OK ∧ ze_output d = Some x ∨
     ze_outcome d = TR_MESSAGE_TRANSFORM_CANCELLED ∧ true ∈ cancelled ∨
     (ze_outcome d = TR_MESSAGE_TRANSFORM_LIMIT ∨ ze_outcome d = TR_MESSAGE_TRANSFORM_NOMEM) ∧ zw_failure (ze_ws d) ≠ TR_MESSAGE_TRANSFORM_OK).
Proof.
  intros Cp Ke E Ok Oz Kd V P W L. destruct (plan_window _ _ _ Kd P) as [D B].
  assert (Fr : zf_frame (tf_max_window_log encode) z x).
  { unfold tr_message_zstd_run in E. destruct answers as [|[] rest]; [discriminate|injection E as <-; discriminate|]. rewrite Ke in E.
    change (TR_MESSAGE_ZSTD_ENCODE =? TR_MESSAGE_ZSTD_ENCODE) with true in E. cbn iota in E.
    destruct (tr_zstd_encode encode x capacity rest _) as [e0|] eqn:E0; [|discriminate]. cbn [mbind option_bind] in E.
    assert (e = e0) as ->.
    { unfold clean_up in E. destruct (_ || _); [|by injection E]. destruct (free_chain _ _ _); [|discriminate]. injection E as <-. discriminate. }
    destruct (encode_frame _ _ _ _ _ _ Cp E0 Ok) as (z' & Ez & Fr). congruence. }
  pose proof (alen_nonneg x). pose proof (alen_nonneg z).
  unfold tr_message_zstd_run. destruct cancelled as [|[] rest]; [change (alen []) with 0 in L; lia| |].
  { eexists. split; [reflexivity|]. split; [reflexivity|]. right. left. split; [reflexivity|by left]. }
  rewrite Kd. change (TR_MESSAGE_ZSTD_DECODE =? TR_MESSAGE_ZSTD_ENCODE) with false. cbn iota. rewrite alen_more in L.
  destruct (decode_ends decode z (alen x) rest (fresh_workspace (tf_max_workspace_bytes decode))) as (d & Ed & [(k & _ & A) _ U]); [lia|by left|lia|].
  assert (F : refusal (zw_failure (fresh_workspace (tf_max_workspace_bytes decode)))) by (by left).
  destruct (decode_frame _ _ _ _ _ _ _ Fr V (eq_sym D) B F eq_refl Ed) as [G Bl].
  rewrite Ed. cbn [mbind option_bind]. destruct (clean_up_spec _ d W U) as (d' & -> & _ & _ & _ & _ & _ & Same). rewrite (Same Bl).
  exists d. split; [reflexivity|]. split; [exact Bl|]. destruct G as [G|[G|G]]; [by left| |by right; right].
  right. left. split; [exact G|]. destruct A as [[_ A]|[-> _]]; [congruence|]. right. apply elem_of_app. right. by left.
Qed.

End Decode.

(** * A library *)

(** A frame is every byte of the content after a 1, and then a 0.  A context is one block of
    memory; the one that decompresses also remembers whether it has read a 1. *)
Definition toy_pairs (x : list Z) : list Z := concat (map (λ b, [1; b]) x).
Definition toy_frame (x : list Z) : list Z := toy_pairs x ++ [0].

Definition toy_create (ws : tr_zstd_workspace) : option nat * tr_zstd_workspace :=
  tr_zstd_allocate 64 (Some (fresh (dom (zw_blocks ws)))) ws.

Definition toy_compress (c : nat) (src : list Z) (room : Z) (e : bool) (ws : tr_zstd_workspace) : zstd_stream nat :=
  match src with
  | b :: _ => if 2 <=? room then mk_stream 1 1 [1; b] c ws else mk_stream 1 0 [] c ws
  | [] => if e && (1 <=? room) then mk_stream 0 0 [0] c ws else mk_stream 1 0 [] c ws
  end.

Definition toy_decompress (d : nat * bool) (src : list Z) (room : Z) (ws : tr_zstd_workspace) : zstd_stream (nat * bool) :=
  match src with
  | [] => mk_stream 1 0 [] d ws
  | b :: _ =>
      if d.2 then if 1 <=? room then mk_stream 1 1 [b] (d.1, false) ws else mk_stream 1 0 [] d ws
      else if b =? 1 then mk_stream 1 1 [] (d.1, true) ws
      else if b =? 0 then mk_stream 0 1 [] (d.1, false) ws else mk_stream 101 0 [] d ws
  end.

#[export] Instance toy_zstd : Zstd := {
  zstd_cctx := nat;
  zstd_dctx := nat * bool;
  ZSTD_versionNumber := 10507;
  ZSTD_maxCLevel := 22;
  ZSTD_cParam_windowLog_bounds := mk_bounds 0 10 31;
  ZSTD_dParam_windowLogMax_bounds := mk_bounds 0 10 31;
  ZSTD_compressBound := λ n, Z.min (2 * n + 1) SIZE_MAX;
  ZSTD_isError := λ r, r >? 100;
  ZSTD_getErrorCode := λ _, ZSTD_error_other;
  ZSTD_getFrameHeader := λ _, (0, mk_zstd_header true 0 0 None);
  ZSTD_createCCtx := toy_create;
  ZSTD_CCtx_setParameter := λ c _ _ ws, mk_call 0 c ws;
  ZSTD_CCtx_setPledgedSrcSize := λ c _ ws, mk_call 0 c ws;
  ZSTD_compressStream2 := toy_compress;
  ZSTD_freeCCtx := λ c ws, tr_zstd_deallocate (Some c) ws;
  ZSTD_createDCtx := λ ws, let '(p, ws) := toy_create ws in ((λ p, (p, false)) <$> p, ws);
  ZSTD_DCtx_setWindowLogMax := λ d _ ws, mk_call 0 d ws;
  ZSTD_decompressStream := toy_decompress;
  ZSTD_freeDCtx := λ d ws, tr_zstd_deallocate (Some d.1) ws
}.

Lemma toy_create_uses ws : ws_uses ws (toy_create ws).2.
Proof.
  apply (uses_more _ (Ask 64 (Some (fresh (dom (zw_blocks ws)))))); [|apply uses_nothing].
  split; [unfold u64_ok; lia|]. intros p [= <-]. apply not_elem_of_dom. apply is_fresh.
Qed.

Lemma toy_free_uses p ws : ws_uses ws (tr_zstd_deallocate (Some p) ws).
Proof.
  destruct (zw_blocks ws !! p) as [a|] eqn:E.
  - apply (uses_more _ (Free (Some p))); [|apply uses_nothing]. intros q [= <-]. by eexists.
  - unfold tr_zstd_deallocate. rewrite E. apply uses_nothing.
Qed.

#[export] Instance toy_calls : ZstdCalls.
Proof.
  split; cbn; intros; try apply uses_nothing; try apply toy_create_uses; try apply toy_free_uses.
  - unfold u64_ok, SIZE_MAX in *. lia.
  - pose proof (toy_create_uses ws). by destruct (toy_create ws).
  - unfold toy_compress. assert (0 ≤ alen src) by apply alen_nonneg. destruct src as [|b src]; [|rewrite alen_more in *; pose proof (alen_nonneg src)].
    + destruct (e && (1 <=? room)) eqn:E; cbn [zs_taken zs_out zs_ws]; (split; [lia|]; split; [unfold alen; cbn; lia|apply uses_nothing]).
    + destruct (2 <=? room) eqn:E; cbn [zs_taken zs_out zs_ws]; (split; [lia|]; split; [unfold alen; cbn; lia|apply uses_nothing]).
  - unfold toy_decompress. destruct src as [|b src]; [|rewrite alen_more; pose proof (alen_nonneg src)].
    + cbn. split; [unfold alen; cbn; lia|]. split; [unfold alen; cbn; lia|apply uses_nothing].
    + repeat case_match; cbn [zs_taken zs_out zs_ws]; (split; [lia|]; split; [unfold alen; cbn; lia|apply uses_nothing]).
Qed.

Definition toy_owns (d : nat * bool) (ws : tr_zstd_workspace) : Prop := ∀ p, is_Some (zw_blocks ws !! p) ↔ p = d.1.
Definition toy_read (d : nat * bool) (fed out : list Z) : Prop := fed = toy_pairs out ++ (if d.2 then [1] else []).

Lemma toy_pairs_app x y : toy_pairs (x ++ y) = toy_pairs x ++ toy_pairs y.
Proof. unfold toy_pairs. rewrite map_app. apply concat_app. Qed.

(** What comes after what was read. *)
Lemma toy_next (tag : bool) (src out x : list Z) : (toy_pairs out ++ (if tag then [1] else [])) ++ src `prefix_of` toy_frame x → out `prefix_of` x →
  ∃ r, x = out ++ r ∧ (if tag then [1] else []) ++ src `prefix_of` toy_frame r.
Proof.
  intros P [r ->]. exists r. split; [reflexivity|]. unfold toy_frame in P. rewrite toy_pairs_app, <- !app_assoc in P. by apply prefix_app_inv in P.
Qed.

Lemma toy_decompress_law d fed out x src room ws : toy_read d fed out → fed ++ src `prefix_of` toy_frame x → out `prefix_of` x → 0 < room →
  let r := toy_decompress d src room ws in zs_ws r = ws ∧ (zs_ctx r).1 = d.1 ∧ (zs_ret r = 0 ∨ zs_ret r = 1) ∧
  let fed' := fed ++ take (Z.to_nat (zs_taken r)) src in let out' := out ++ zs_out r in
  out' `prefix_of` x ∧ (zs_ret r = 0 → fed' = toy_frame x ∧ out' = x) ∧
  (zs_ret r ≠ 0 → toy_read (zs_ctx r) fed' out' ∧ ¬ (fed' = toy_frame x ∧ out' = x) ∧ (fed = toy_frame x ∨ src ≠ [] → 0 < zs_taken r ∨ zs_out r ≠ [])).
Proof.
  intros -> P O R. destruct d as [p tag]. unfold toy_read. cbn [fst snd] in *. destruct (toy_next _ _ _ _ P O) as (r & -> & N). clear P.
  unfold toy_frame at 1 2 3. rewrite toy_pairs_app. destruct src as [|b src]; cbn [toy_decompress zs_ret zs_taken zs_out zs_ctx zs_ws fst snd].
  - change (Z.to_nat 0) with 0%nat. cbn [take]. rewrite !app_nil_r, <- !app_assoc. split; [reflexivity|]. split; [reflexivity|]. split; [by right|].
    split; [by eexists|]. split; [discriminate|]. intros _.
    assert (K : toy_pairs out ++ (if tag then [1] else []) ≠ toy_pairs out ++ toy_pairs r ++ [0] ∨ out ≠ out ++ r).
    { destruct r as [|c r]; [left|right].
      - intros K. apply app_inv_head in K. by destruct tag.
      - intros K. apply (f_equal length) in K. rewrite length_app in K. cbn in K. lia. }
    split; [reflexivity|]. split; [tauto|]. intros [K'|K']; [|done]. exfalso. apply app_inv_head in K'. destruct r as [|c r], tag; cbn in K'; try discriminate.
  - change (Z.to_nat 1) with 1%nat. destruct tag.
    + replace (1 <=? room) with true by lia. cbn [zs_ret zs_taken zs_out zs_ctx zs_ws fst snd]. change (Z.to_nat 1) with 1%nat. cbn [take].
      destruct r as [|c r]; [by apply prefix_cons_inv_1 in N|]. unfold toy_frame in N. cbn in N.
      apply prefix_cons_inv_2, prefix_cons_inv_1 in N as ->.
      split; [reflexivity|]. split; [reflexivity|]. split; [by right|]. split; [apply prefix_app; by exists r|]. split; [discriminate|]. intros _.
      split; [rewrite toy_pairs_app, app_nil_r, <- !app_assoc; reflexivity|]. split; [|intros _; left; lia].
      intros [K1 K2]. apply app_inv_head in K2. injection K2 as <-. cbn in K1. rewrite <- !app_assoc in K1. apply app_inv_head in K1. discriminate.
    + cbn [app] in N. destruct r as [|c r]; unfold toy_frame in N; cbn in N; apply prefix_cons_inv_1 in N as ->.
      * change (0 =? 1) with false. change (0 =? 0) with true. cbn [zs_ret zs_taken zs_out zs_ctx zs_ws fst snd]. change (Z.to_nat 1) with 1%nat. cbn [take].
        rewrite !app_nil_r. split; [reflexivity|]. split; [reflexivity|]. split; [by left|]. split; [reflexivity|]. split; [intros _; split; reflexivity|done].
      * change (1 =? 1) with true. cbn [zs_ret zs_taken zs_out zs_ctx zs_ws fst snd]. change (Z.to_nat 1) with 1%nat. cbn [take].
        rewrite !app_nil_r. split; [reflexivity|]. split; [reflexivity|]. split; [by right|]. split; [by eexists|]. split; [discriminate|]. intros _.
        split; [reflexivity|]. split; [|intros _; left; lia]. intros [_ K]. apply (f_equal length) in K. rewrite length_app in K. cbn in K. lia.
Qed.

Lemma toy_frees d ws : toy_owns d ws → zw_blocks (tr_zstd_deallocate (Some d.1) ws) = ∅.
Proof.
  intros O. unfold tr_zstd_deallocate. destruct (proj2 (O d.1) eq_refl) as [a E]. rewrite E. apply map_eq. intros q. rewrite lookup_empty.
  cbn [zw_blocks]. destruct (decide (q = d.1)) as [->|N]; [apply lookup_delete_eq|]. rewrite lookup_delete_ne by congruence.
  apply link_previous_none, link_next_none. destruct (zw_blocks ws !! q) as [b|] eqn:X; [|reflexivity]. destruct N. apply O. by eexists.
Qed.

#[export] Instance toy_frames : ZstdFrames.
Proof.
  refine (Build_ZstdFrames _ (λ _ z x, z = toy_frame x) (λ _ _ fed out, out = toy_pairs fed) (λ d _ fed out, toy_read d fed out) _ _ _ _ _ _ _ toy_owns _ _ _ _);
    cbn [ZSTD_isError ZSTD_createCCtx ZSTD_CCtx_setParameter ZSTD_CCtx_setPledgedSrcSize ZSTD_compressStream2 ZSTD_getFrameHeader ZSTD_createDCtx
      ZSTD_DCtx_setWindowLogMax ZSTD_decompressStream ZSTD_freeDCtx ZSTD_dParam_windowLogMax_bounds toy_zstd zstd_cctx zstd_dctx].
  - reflexivity.
  - intros ws c _. by exists 0.
  - intros c w p v ws E _. exact E.
  - intros c w n ws E _. exact E.
  - intros c w fed out src room e ws -> R. unfold toy_compress. destruct src as [|b src].
    + destruct e, (1 <=? room); cbn [andb zs_ret zs_taken zs_out zs_ctx]; intros _; cbn; rewrite ?app_nil_r; reflexivity.
    + destruct (2 <=? room); cbn [zs_ret zs_taken zs_out zs_ctx]; intros _; rewrite andb_false_r.
      * change (Z.to_nat 1) with 1%nat. cbn [take]. rewrite toy_pairs_app. reflexivity.
      * change (Z.to_nat 0) with 0%nat. cbn [take]. by rewrite !app_nil_r.
  - intros w z x _. eexists. split; [reflexivity|]. cbn. split; [reflexivity|]. split; [reflexivity|]. split; [apply Z.pow_nonneg; lia|discriminate].
  - intros w z x ->. unfold toy_frame. intros E. apply app_eq_nil in E as [_ E]. discriminate.
  - intros ws E. unfold toy_create, tr_zstd_allocate. destruct (64 >? _); [cbn; split; [done|exact E]|]. destruct (_ >? _); [cbn; split; [done|exact E]|].
    cbn [fmap option_fmap option_map]. split; [|reflexivity]. intros p. cbn [zw_blocks fst]. rewrite E. split.
    + intros [a X]. destruct (decide (p = fresh (dom (∅ : gmap nat tr_zstd_allocation)))) as [|N]; [assumption|].
      rewrite link_previous_none in X; [discriminate|]. rewrite lookup_insert_ne by congruence. apply lookup_empty.
    + intros ->. destruct (zw_head ws) as [q|]; cbn [link_previous]; [|eexists; apply lookup_insert_eq].
      rewrite lookup_alter. case_decide as X; [subst q|]; rewrite lookup_insert_eq; by eexists.
  - intros d v ws O S _. split; [exact O|exact S].
  - intros d w v fed out z x src room ws O -> _ S P Q R. destruct (toy_decompress_law _ _ _ x src room ws S P Q R) as (W & D & T & L).
    rewrite W. split; [intros p; rewrite D; apply O|]. replace (_ >? 100) with false by lia. exact L.
  - intros d ws. apply toy_frees.
Qed.

(** Three bytes are encoded into seven, and decoded again. *)
Definition demo_encode : tr_message_transform_config := mk_transform_config TR_MESSAGE_ZSTD_ENCODE (mk_msg_limits 100 100) 0 1000 20 3.
Definition demo_decode : tr_message_transform_config := mk_transform_config TR_MESSAGE_ZSTD_DECODE (mk_msg_limits 100 100) 3 1000 20 0.

Lemma zstd_run_safe_witness :
  ze_output <$> tr_message_zstd_run demo_decode [1; 5; 1; 6; 1; 7; 0] 3 (replicate 20 false) = Some (Some [5; 6; 7]) ∧
  ∃ e, tr_message_zstd_run demo_decode [1; 5; 1; 6; 1; 7; 0] 3 (replicate 20 false) = Some e ∧ zw_blocks (ze_ws e) = ∅.
Proof.
  split; [vm_compute; reflexivity|].
  destruct (zstd_run_safe demo_decode [1; 5; 1; 6; 1; 7; 0] 3 (replicate 20 false)) as (e & E & B & _).
  - unfold u64_ok. cbn. lia.
  - lia.
  - unfold alen. cbn. lia.
  - exists e. split; [exact E|exact B].
Defined.

Lemma zstd_roundtrip_witness : ∃ d, tr_message_zstd_run demo_decode [1; 5; 1; 6; 1; 7; 0] 3 (replicate 20 false) = Some d ∧ ze_outcome d = TR_MESSAGE_TRANSFORM_OK.
Proof.
  destruct (tr_message_zstd_run demo_encode [5; 6; 7] 50 (replicate 20 false)) as [e|] eqn:E; [|vm_compute in E; discriminate E].
  destruct (zstd_roundtrip demo_encode demo_decode [5; 6; 7] 50 (replicate 20 false) e [1; 5; 1; 6; 1; 7; 0] (replicate 20 false)) as (d & D & _ & [[O _]|[[_ C]|[_ F]]]).
  - lia.
  - reflexivity.
  - exact E.
  - vm_compute in E. injection E as <-. reflexivity.
  - vm_compute in E. injection E as <-. reflexivity.
  - reflexivity.
  - cbn. lia.
  - vm_compute. reflexivity.
  - unfold u64_ok. cbn. lia.
  - unfold alen. cbn. lia.
  - exists d. split; [exact D|exact O].
  - exfalso. apply elem_of_replicate in C as [C _]. discriminate C.
  - exfalso. apply F. vm_compute in D. injection D as <-. reflexivity.
Defined.
