(* ===== verification/MessageTransform.v ===== *)
(** Transformations of messages: [src/message/transform.c].

    An operation takes a message and reserves everything that its transformation may need; one
    thread runs it, while any number of threads may cancel it; then its owner takes the outcome.
    What decides between success and cancellation is one atomic word.  The operation embeds two
    message handles, and its output a storage: they are places in the world of Message.
    Compression is Zstd's; the memory that messages view is an argument.

    Theorems, for one runner among any number of cancellers: a request to cancel that is accepted
    makes the outcome [TR_MESSAGE_TRANSFORM_CANCELLED], one that is refused came too late, and
    without any the outcome is that of the compression; the runner always ends; and what is
    charged to the budget is exactly what is held. *)
From S2P Require Import Prelude Status MemoryBudget Refcount Message ZstdWorkspace Zstd.

(** * Data *)

Definition TR_TRANSFORM_READY : Z := 1.
Definition TR_TRANSFORM_RUNNING : Z := 2.
Definition TR_TRANSFORM_DONE : Z := 4.
Definition TR_TRANSFORM_CANCEL : Z := 8.

(** [tm_input] and [tm_output]: the handles of the operation; [tm_reserved]: the storage of
    [reserved_output]. *)
Record tr_message_transform := mk_transform {
  tm_state : Z;
  tm_config : tr_message_transform_config;
  tm_budget : nat;
  tm_input : nat;
  tm_output : nat;
  tm_reserved : option nat;
  tm_capacity : Z;
  tm_outcome : tr_message_transform_outcome
}.

Definition sizeof_transform : Z := 136.
Definition sizeof_transform_output : Z := 64.

Definition tr_transform_move_limits : tr_message_limits := mk_msg_limits SIZE_MAX SIZE_MAX.

(** Where [calloc] puts the operation and its output: their handles and their storage, zeroed. *)
Record transform_place := mk_place { pl_input : nat; pl_output : nat; pl_storage : nat }.

Definition set_tm_state (op : tr_message_transform) (state : Z) : tr_message_transform :=
  mk_transform state (tm_config op) (tm_budget op) (tm_input op) (tm_output op) (tm_reserved op) (tm_capacity op) (tm_outcome op).
Definition set_tm_outcome (op : tr_message_transform) (outcome : tr_message_transform_outcome) : tr_message_transform :=
  mk_transform (tm_state op) (tm_config op) (tm_budget op) (tm_input op) (tm_output op) (tm_reserved op) (tm_capacity op) outcome.
Definition clear_reserved_output (op : tr_message_transform) : tr_message_transform :=
  mk_transform (tm_state op) (tm_config op) (tm_budget op) (tm_input op) (tm_output op) None (tm_capacity op) (tm_outcome op).

(** * Operations *)

Section Transform.
Context {B : Type} `{!Budget B} `{!Inhabited B} `{!Zstd}.
(** [limit_bytes] of a budget; the release callbacks of other providers; the bytes that a view
    of an address and a length reads. *)
Context (b_limit : B → Z) (provider : Z → Z → world B → world B) (memory : option Z → Z → list Z).
Implicit Types (w : world B) (op : tr_message_transform).

(** The address of [tr_transform_output_release]. *)
Definition output_release_fn : Z := 0.

(** [arg] is the output, whose storage it is; its budget is the one of the storage. *)
Definition tr_transform_output_release (arg : Z) w : world B :=
  let s := Z.to_nat arg in
  let budget := sg_budget (w_stores w !!! s) in
  (release_budget budget sizeof_transform_output (set_store w s zero_storage)).2.

Definition release_callback (f arg : Z) w : world B :=
  if f =? output_release_fn then tr_transform_output_release arg w else provider f arg w.

Definition tr_transform_output_discard op w : tr_status * tr_message_transform * world B :=
  match tm_reserved op with
  | None => (TR_OK, op, w)
  | Some s =>
      let '(ret, w) := tr_message_storage_cancel (Some s) w in
      let '(metadata_ret, w) := release_budget (Some (tm_budget op)) sizeof_transform_output w in
      (if is_ok ret then metadata_ret else ret, clear_reserved_output op, w)
  end.

(** [out]: whether the pointer that [out] leads to is set; [calloc]: whether both calls of it
    succeed.  The operation is what [*out] gets. *)
Definition tr_message_transform_prepare (input : option nat) (config : option tr_message_transform_config) (budget : option nat)
    (out : option bool) (calloc : bool) (place : transform_place) w : tr_status * option tr_message_transform * world B :=
  match input, config, budget, out with
  | Some input, Some config, Some budget, Some out =>
      bail (TR_ERR_INVALID, None, w) when (b_limit (w_budgets w !!! budget) =? 0) ;;
      bail (TR_ERR_STATE, None, w) when out ;;
      match tr_message_view_of (Some input) true w with
      | (TR_OK, Some view) =>
          match tr_message_zstd_plan (Some config) (vw_len view) with
          | (TR_OK, Some capacity) =>
              bail (TR_ERR_BAD_LENGTH, None, w) when (tf_max_workspace_bytes config >? SIZE_MAX - sizeof_transform - sizeof_transform_output) ;;
              let reservation := sizeof_transform + sizeof_transform_output + tf_max_workspace_bytes config in
              let '(ret, x) := b_reserve (w_budgets w !!! budget) reservation in
              let w := set_budget w budget x in
              bail (ret, None, w) when (negb (is_ok ret)) ;;
              let fail ret w := (ret, None, (release_budget (Some budget) reservation w).2) in
              bail fail TR_ERR_NOMEM w when (negb calloc) ;;
              let s := pl_storage place in
              let '(ret, w) := tr_message_storage_reserve (Some s) (Some budget) (if capacity =? 0 then 1 else capacity) w in
              bail fail ret w when (negb (is_ok ret)) ;;
              let '(ret, w) := tr_message_none_move (Some input) (Some tr_transform_move_limits) (Some (pl_input place)) w in
              bail fail ret (tr_message_storage_cancel (Some s) w).2 when (negb (is_ok ret)) ;;
              (TR_OK, Some (mk_transform TR_TRANSFORM_READY config budget (pl_input place) (pl_output place) (Some s) capacity TR_MESSAGE_TRANSFORM_OK), w)
          | (ret, _) => (ret, None, w)
          end
      | (ret, _) => (ret, None, w)
      end
  | _, _, _, _ => (TR_ERR_INVALID, None, w)
  end.

(** [cancelled]: what [tr_transform_cancelled] answers; [malloc]: the address of the output.
    The result has the answers that are left, and is [None] when there are not enough. *)
Definition tr_transform_execute op w (malloc : option Z) (cancelled : list bool)
    : option (tr_message_transform_outcome * tr_message_transform * world B * list bool) :=
  match cancelled with
  | [] => None
  | true :: rest => Some (TR_MESSAGE_TRANSFORM_CANCELLED, op, w, rest)
  | false :: rest =>
      match tr_message_view_of (Some (tm_input op)) true w with
      | (TR_OK, Some view) =>
          match malloc with
          | None => Some (TR_MESSAGE_TRANSFORM_NOMEM, op, w, rest)
          | Some data =>
              e ← tr_message_zstd_run (tm_config op) (memory (vw_data view) (vw_len view)) (tm_capacity op) rest;
              match ze_outcome e with
              | TR_MESSAGE_TRANSFORM_OK =>
                  let length := match ze_output e with Some out => alen out | None => 0 end in
                  let '(ret, w) := tr_message_storage_publish (tm_reserved op) (Some data) length (Some output_release_fn)
                    (match tm_reserved op with Some s => Z.of_nat s | None => 0 end) (Some (tm_output op)) w in
                  bail Some (TR_MESSAGE_TRANSFORM_INTERNAL, op, w, ze_rest e) when (negb (is_ok ret)) ;;
                  Some (TR_MESSAGE_TRANSFORM_OK, clear_reserved_output op, w, ze_rest e)
              | outcome => Some (outcome, op, w, ze_rest e)
              end
          end
      | _ => Some (TR_MESSAGE_TRANSFORM_INTERNAL, op, w, rest)
      end
  end.

(** What [tr_message_transform_run_checked] does between the two: nothing that the operation
    reserved for its run, and no input, is left. *)
Definition run_settle op w (outcome : tr_message_transform_outcome) : tr_message_transform_outcome * tr_message_transform * world B :=
  let '(ret, op, w) := tr_transform_output_discard op w in
  let outcome := if is_ok ret then outcome else TR_MESSAGE_TRANSFORM_INTERNAL in
  let '(ret, w) := release_budget (Some (tm_budget op)) (tf_max_workspace_bytes (tm_config op)) w in
  let outcome := if is_ok ret then outcome else TR_MESSAGE_TRANSFORM_INTERNAL in
  let '(ret, w) := tr_message_release release_callback (Some (tm_input op)) w in
  (if is_ok ret then outcome else TR_MESSAGE_TRANSFORM_INTERNAL, op, w).

Definition held_output op w : bool := is_ok (tr_message_view_of (Some (tm_output op)) true w).1.

(** The commit failed. *)
Definition run_abandon op w : tr_message_transform * world B :=
  let w := if held_output op w then (tr_message_release release_callback (Some (tm_output op)) w).2 else w in
  (set_tm_state (set_tm_outcome op TR_MESSAGE_TRANSFORM_CANCELLED) TR_TRANSFORM_DONE, w).

(** One access of [tr_message_transform_cancel] that succeeds: the answer and the state. *)
Definition tr_message_transform_cancel (operation : option tr_message_transform) : tr_status * option tr_message_transform :=
  match operation with
  | None => (TR_ERR_INVALID, None)
  | Some op =>
      bail (TR_ERR_STATE, Some op) when (tm_state op =? TR_TRANSFORM_DONE) ;;
      bail (TR_OK, Some op) when (negb (Z.land (tm_state op) TR_TRANSFORM_CANCEL =? 0)) ;;
      (TR_OK, Some (set_tm_state op (Z.lor (tm_state op) TR_TRANSFORM_CANCEL)))
  end.

(** The claim of the run: the state that the exchange leaves. *)
Definition run_claim (state : Z) : option Z :=
  bail None when (negb (Z.land state (u32 (Z.lnot TR_TRANSFORM_CANCEL)) =? TR_TRANSFORM_READY)) ;;
  Some (Z.lor TR_TRANSFORM_RUNNING (Z.land state TR_TRANSFORM_CANCEL)).

(** The operation that is left at the pointer is NULL when it is [None]. *)
Definition tr_message_transform_finish (operation : option tr_message_transform) (outcome : bool) (out : option nat) w
    : tr_status * option tr_message_transform * option tr_message_transform_outcome * world B :=
  match operation, out with
  | Some op, Some out =>
      bail (TR_ERR_INVALID, Some op, None, w) when (negb outcome) ;;
      bail (TR_ERR_STATE, Some op, None, w) when (negb (bool_decide ((tr_message_view_of (Some out) true w).1 = TR_ERR_STATE))) ;;
      bail (TR_AGAIN, Some op, None, w) when (negb (tm_state op =? TR_TRANSFORM_DONE)) ;;
      let '(ret, w) := if bool_decide (tm_outcome op = TR_MESSAGE_TRANSFORM_OK) then
          tr_message_none_move (Some (tm_output op)) (Some tr_transform_move_limits) (Some out) w
        else (TR_OK, if held_output op w then (tr_message_release release_callback (Some (tm_output op)) w).2 else w) in
      bail (ret, Some op, None, w) when (negb (is_ok ret)) ;;
      let '(ret, w) := release_budget (Some (tm_budget op)) sizeof_transform w in
      (ret, None, Some (tm_outcome op), w)
  | operation, _ => (TR_ERR_INVALID, operation, None, w)
  end.

End Transform.

(** * A run among cancellers *)

(** Where the runner is: it has not begun; it executes, with the answers it got so far; it has
    executed, given back, looked for a last time; its commit failed; it has ended. *)
Inductive run_pc :=
| Idle
| Executing (cancelled : list bool)
| Executed (outcome : tr_message_transform_outcome)
| Settled (outcome : tr_message_transform_outcome)
| Checked (outcome : tr_message_transform_outcome)
| Lost
| Finished.

(** [rs_cancels]: what the requests to cancel were answered. *)
Record run_state (B : Type) := mk_run {
  rs_op : tr_message_transform;
  rs_world : world B;
  rs_pc : run_pc;
  rs_cancels : list tr_status
}.
Arguments mk_run {B} _ _ _ _.
Arguments rs_op {B} _.
Arguments rs_world {B} _.
Arguments rs_pc {B} _.
Arguments rs_cancels {B} _.

Definition cancel_bit (op : tr_message_transform) : bool := negb (Z.land (tm_state op) TR_TRANSFORM_CANCEL =? 0).

(** A request to cancel: the operation and the answers after it. *)
Definition cancel_once (op : tr_message_transform) (cancels : list tr_status) : tr_message_transform * list tr_status :=
  let '(ret, op') := tr_message_transform_cancel (Some op) in (default op op', cancels ++ [ret]).

(** [tr_transform_cancelled]; [asked]: what the check of the caller answers. *)
Definition tr_transform_cancelled (asked : bool) (op : tr_message_transform) (cancels : list tr_status)
    : bool * tr_message_transform * list tr_status :=
  let '(op, cancels) := if asked then cancel_once op cancels else (op, cancels) in (cancel_bit op, op, cancels).

Section Steps.
Context {B : Type} `{!Budget B} `{!Inhabited B} `{!Zstd}.
Context (provider : Z → Z → world B → world B) (memory : option Z → Z → list Z) (malloc : option Z).

(** The steps of [tr_message_transform_run_checked]. *)
Inductive runner_step : run_state B → run_state B → Prop :=
| run_claims op w cancels state : run_claim (tm_state op) = Some state →
    runner_step (mk_run op w Idle cancels) (mk_run (set_tm_state op state) w (Executing []) cancels)
| run_asks op w cancelled cancels asked : tr_transform_execute memory op w malloc cancelled = None →
    runner_step (mk_run op w (Executing cancelled) cancels)
      (mk_run (tr_transform_cancelled asked op cancels).1.2 w (Executing (cancelled ++ [(tr_transform_cancelled asked op cancels).1.1]))
         (tr_transform_cancelled asked op cancels).2)
| run_executes op w cancelled cancels outcome op' w' : tr_transform_execute memory op w malloc cancelled = Some (outcome, op', w', []) →
    runner_step (mk_run op w (Executing cancelled) cancels) (mk_run op' w' (Executed outcome) cancels)
| run_settles op w outcome cancels :
    runner_step (mk_run op w (Executed outcome) cancels)
      (mk_run (run_settle provider op w outcome).1.2 (run_settle provider op w outcome).2 (Settled (run_settle provider op w outcome).1.1) cancels)
| run_looks op w outcome cancels asked :
    runner_step (mk_run op w (Settled outcome) cancels)
      (mk_run (tr_transform_cancelled asked op cancels).1.2 w (Checked outcome) (tr_transform_cancelled asked op cancels).2)
| run_commits op w outcome cancels :
    runner_step (mk_run op w (Checked outcome) cancels)
      (if tm_state op =? TR_TRANSFORM_RUNNING then mk_run (set_tm_state (set_tm_outcome op outcome) TR_TRANSFORM_DONE) w Finished cancels
       else mk_run (set_tm_outcome op outcome) w Lost cancels)
| run_abandons op w cancels :
    runner_step (mk_run op w Lost cancels) (mk_run (run_abandon provider op w).1 (run_abandon provider op w).2 Finished cancels).

(** A step of the runner, or of one of the threads that cancel. *)
Inductive transform_step : run_state B → run_state B → Prop :=
| step_runner s s' : runner_step s s' → transform_step s s'
| step_cancel op w pc cancels :
    transform_step (mk_run op w pc cancels) (mk_run (cancel_once op cancels).1 w pc (cancel_once op cancels).2).

End Steps.

(** * Lemmas: worlds *)

Section Worlds.
Context {B : Type} `{!Budget B} `{!Inhabited B}.
Context (provider : Z → Z → world B → world B).
Implicit Types (w : world B).

Definition used w (b : nat) : Z := b_used (w_budgets w !!! b).
Definition budgets_ok w : Prop := Forall b_ok (w_budgets w).

Lemma budget_ok w b : budgets_ok w → (b < length (w_budgets w))%nat → b_ok (w_budgets w !!! b).
Proof. intros O L. apply (Forall_lookup_1 _ _ _ _ O (list_lookup_lookup_total_lt _ _ L)). Qed.

(** [w'] is [w] but for budgets, whose use changed by [delta]. *)
Record charged_by w w' (delta : nat → Z) : Prop := {
  cb_ok : budgets_ok w';
  cb_length : length (w_budgets w') = length (w_budgets w);
  cb_used b : (b < length (w_budgets w))%nat → used w' b = used w b + delta b
}.

Definition at_budget (b : nat) (n : Z) (b' : nat) : Z := if decide (b' = b) then n else 0.

Lemma charged_set w b x n : budgets_ok w → (b < length (w_budgets w))%nat → b_ok x → b_used x = used w b + n →
  charged_by w (set_budget w b x) (at_budget b n).
Proof.
  intros O L X U. split; unfold set_budget, used; cbn [w_budgets].
  - apply Forall_insert; assumption.
  - apply length_insert.
  - intros b' L'. unfold at_budget. case_decide as E; [subst b'; rewrite list_lookup_total_insert_eq by exact L; exact U|].
    rewrite list_lookup_total_insert_ne by congruence. lia.
Qed.

Lemma charged_trans w1 w2 w3 d e : charged_by w1 w2 d → charged_by w2 w3 e → charged_by w1 w3 (λ b, d b + e b).
Proof. intros [A1 A2 A3] [B1 B2 B3]. split; [exact B1|congruence|]. intros b L. rewrite B3, A3 by lia. lia. Qed.

Lemma release_budget_exact w b n : budgets_ok w → (b < length (w_budgets w))%nat → 0 ≤ n ≤ used w b →
  ∃ x, release_budget (Some b) n w = (TR_OK, set_budget w b x) ∧ charged_by w (set_budget w b x) (at_budget b (- n)).
Proof.
  intros O L N. destruct (b_release_spec (w_budgets w !!! b) n (budget_ok _ _ O L) N) as (x & E & X & U). exists x. unfold release_budget. rewrite E.
  split; [reflexivity|]. apply charged_set; [assumption..|]. unfold used. lia.
Qed.

(** What a storage's callback gives back of its own. *)
Definition private (release : Z) : Z := if release =? output_release_fn then sizeof_transform_output else 0.

(** The handle [h] holds the live storage [s], all of whose bytes are counted. *)
Record releasable w (h s : nat) : Prop := {
  rl_handle : (h < length (w_handles w))%nat ∧ mg_storage (w_handles w !!! h) = Some s;
  rl_store : (s < length (w_stores w))%nat ∧ sg_state (w_stores w !!! s) = TR_MESSAGE_STORAGE_LIVE;
  rl_refs : 1 ≤ sg_refs (w_stores w !!! s) ≤ UINT32_MAX - 1;
  rl_counted : ∃ b f, sg_budget (w_stores w !!! s) = Some b ∧ sg_release (w_stores w !!! s) = Some f ∧
    (b < length (w_budgets w))%nat ∧ (f = output_release_fn → sg_release_arg (w_stores w !!! s) = Z.of_nat s) ∧
    0 ≤ sg_capacity (w_stores w !!! s) ∧ sg_capacity (w_stores w !!! s) + private f ≤ used w b
}.

(** What the last handle gives back. *)
Definition gives (st : tr_message_storage) (b : nat) : Z :=
  if sg_refs st =? 1 then
    match sg_budget st, sg_release st with
    | Some b', Some f => at_budget b' (sg_capacity st + private f) b
    | _, _ => 0
    end
  else 0.

(** What a release leaves. *)
Record released_to w w' (h s : nat) : Prop := {
  rt_handles : w_handles w' = <[h := zero_message]> (w_handles w);
  rt_budgets : charged_by w w' (λ b, - gives (w_stores w !!! s) b);
  rt_stores : length (w_stores w') = length (w_stores w);
  rt_others s' : s' ≠ s → sg_state (w_stores w !!! s') ≠ TR_MESSAGE_STORAGE_RETIRED → w_stores w' !!! s' = w_stores w !!! s';
  rt_last : sg_refs (w_stores w !!! s) = 1 → sg_state (w_stores w' !!! s) = TR_MESSAGE_STORAGE_EMPTY ∨ sg_state (w_stores w' !!! s) = TR_MESSAGE_STORAGE_RETIRED
}.

Lemma recycled_lookup l l' s : recycled l l' → sg_state (l !!! s) ≠ TR_MESSAGE_STORAGE_RETIRED → l' !!! s = l !!! s.
Proof.
  intros R N. destruct (decide (s < length l)%nat) as [L|L].
  - destruct (Forall2_lookup_l _ _ _ _ _ R (list_lookup_lookup_total_lt _ _ L)) as (st & E & [->|[X _]]); [|done].
    by apply list_lookup_total_correct.
  - apply Forall2_length in R. rewrite !list_lookup_total_alt, !(proj2 (lookup_ge_None _ _)) by lia. reflexivity.
Qed.

Lemma recycled_state l l' s : recycled l l' → sg_state (l !!! s) = TR_MESSAGE_STORAGE_RETIRED → (s < length l)%nat →
  sg_state (l' !!! s) = TR_MESSAGE_STORAGE_EMPTY ∨ sg_state (l' !!! s) = TR_MESSAGE_STORAGE_RETIRED.
Proof.
  intros R N L. destruct (Forall2_lookup_l _ _ _ _ _ R (list_lookup_lookup_total_lt _ _ L)) as (st & E & [->|[X ->]]); rewrite (list_lookup_total_correct _ _ _ E); [by right|by left].
Qed.

Lemma recycled_refl l : recycled l l.
Proof. induction l; constructor; auto. Qed.

Lemma recycled_zero l s : sg_state (l !!! s) = TR_MESSAGE_STORAGE_RETIRED → recycled l (<[s := zero_storage]> l).
Proof.
  revert s. induction l as [|st l IH]; intros [|s] E; cbn in *; constructor; auto; [apply recycled_refl|apply IH; exact E].
Qed.

(** The callback of a storage that has just been retired. *)
Lemma callback_effect w s b f arg : callback_ok provider → budgets_ok w → sg_state (w_stores w !!! s) = TR_MESSAGE_STORAGE_RETIRED →
  sg_budget (w_stores w !!! s) = Some b → (b < length (w_budgets w))%nat → (f = output_release_fn → arg = Z.of_nat s) → private f ≤ used w b →
  let w' := call_release (release_callback provider) (Some f) arg w in
  w_handles w' = w_handles w ∧ charged_by w w' (at_budget b (- private f)) ∧ recycled (w_stores w) (w_stores w').
Proof.
  intros Pr O R E L A P. cbn [call_release]. unfold release_callback, private in *. destruct (Z.eqb_spec f output_release_fn) as [F|F].
  - rewrite (A F). unfold tr_transform_output_release. rewrite Nat2Z.id. cbn [w_stores]. rewrite E. unfold sizeof_transform_output in *.
    set (w1 := set_store _ _ _). destruct (release_budget_exact w1 b 64 O L ltac:(change (used w1 b) with (used w b); lia)) as (x & -> & C).
    split; [reflexivity|]. split; [destruct C; split; assumption|]. cbn. by apply recycled_zero.
  - set (w1 := mk_world _ _ _ _). destruct (Pr f arg w1) as (H & Bu & _ & S). split; [exact H|]. split; [|exact S].
    split; unfold budgets_ok, used; rewrite Bu; [exact O|reflexivity|]. intros b' _. unfold at_budget. case_decide; cbn; lia.
Qed.

Lemma charged_same w w' : w_budgets w' = w_budgets w → budgets_ok w → charged_by w w' (λ _, 0).
Proof. intros E O. split; unfold budgets_ok, used; rewrite E; [exact O|reflexivity|]. intros. lia. Qed.

Lemma charged_ext w w' d e : (∀ b, d b = e b) → charged_by w w' d → charged_by w w' e.
Proof. intros X [A1 A2 A3]. split; [exact A1|exact A2|]. intros b L. rewrite <- X. by apply A3. Qed.

Lemma release_spec w h s : callback_ok provider → budgets_ok w → releasable w h s →
  ∃ w', tr_message_release (release_callback provider) (Some h) w = (TR_OK, w') ∧ released_to w w' h s.
Proof.
  intros Pr O [[Lh Hh] [Ls Lv] Rf (b & f & Eb & Ef & Lb & Ea & Cp & Cv)]. unfold tr_message_release. rewrite Hh.
  cbn [w_stores set_handle]. set (st := w_stores w !!! s) in *. unfold tr_refcount_put.
  destruct (Z.eqb_spec (sg_refs st) 0) as [|N0]; [lia|]. destruct (Z.eqb_spec (sg_refs st) 1) as [E1|N1]; cbn [default fst snd sg_release sg_release_arg sg_budget sg_capacity].
  - change (1 <? 0) with false. change (1 =? 0) with false. cbn iota. rewrite Ef, Eb. set (w1 := set_store _ _ _).
    assert (S1 : w_stores w1 = <[s := mk_storage (sg_refs st - 1) (Some b) (sg_capacity st) (Some f) (sg_release_arg st) TR_MESSAGE_STORAGE_RETIRED]> (w_stores w)).
    { unfold w1, set_store. cbn [w_stores]. rewrite list_insert_insert_eq. reflexivity. }
    assert (S2 : w_stores w1 !!! s = mk_storage (sg_refs st - 1) (Some b) (sg_capacity st) (Some f) (sg_release_arg st) TR_MESSAGE_STORAGE_RETIRED).
    { rewrite S1. apply list_lookup_total_insert_eq. exact Ls. }
    change (used w b) with (used w1 b) in Cv. assert (Pn : 0 ≤ private f) by (unfold private, sizeof_transform_output; case_match; lia).
    destruct (callback_effect w1 s b f (sg_release_arg st) Pr O) as (H2 & C2 & R2); [by rewrite S2|by rewrite S2|exact Lb|exact Ea|lia|].
    set (w2 := call_release _ _ _ _) in *. destruct (release_budget_exact w2 b (sg_capacity st) (cb_ok _ _ _ C2)) as (x & -> & C3).
    { rewrite (cb_length _ _ _ C2). exact Lb. }
    { rewrite (cb_used _ _ _ C2 b Lb). unfold at_budget. rewrite decide_True by reflexivity. lia. }
    eexists. split; [reflexivity|]. split.
    + cbn [set_budget w_handles]. rewrite H2. reflexivity.
    + apply (charged_ext _ _ (λ b', at_budget b (- private f) b' + at_budget b (- sg_capacity st) b')).
      { intros b'. unfold gives. fold st. rewrite E1, Eb, Ef. unfold at_budget. cbn. case_decide; lia. }
      apply (charged_trans w w2); [destruct C2; split; assumption|exact C3].
    + cbn [set_budget w_stores]. rewrite <- (Forall2_length _ _ _ R2), S1. apply length_insert.
    + intros s' N X. cbn [set_budget w_stores]. rewrite (recycled_lookup _ _ _ R2); rewrite S1, list_lookup_total_insert_ne by congruence; [reflexivity|exact X].
    + intros _. cbn [set_budget w_stores]. apply (recycled_state _ _ _ R2); [by rewrite S2|]. rewrite S1, length_insert. exact Ls.
  - change (0 <? 0) with false. change (0 =? 0) with true. cbn iota. eexists. split; [reflexivity|]. split.
    + reflexivity.
    + apply (charged_ext _ _ (λ _, 0)); [|apply charged_same; [reflexivity|exact O]]. intros b'. unfold gives. fold st. apply Z.eqb_neq in N1 as ->. reflexivity.
    + cbn. apply length_insert.
    + intros s' N X. cbn. by rewrite list_lookup_total_insert_ne by congruence.
    + intros X. by destruct N1.
Qed.

End Worlds.

(** * Lemmas: the parts of a run *)

Definition reserved_bytes (op : tr_message_transform) : Z := if tm_capacity op =? 0 then 1 else tm_capacity op.
Definition workspace_bytes (op : tr_message_transform) : Z := tf_max_workspace_bytes (tm_config op).

Section Run.
Context {B : Type} `{!Budget B} `{!Inhabited B} `{!Zstd} `{!ZstdCalls}.
Context (b_limit : B → Z) (provider : Z → Z → world B → world B) (memory : option Z → Z → list Z).
Implicit Types (w : world B) (op : tr_message_transform).

(** An operation that is prepared: its input is in the storage [si], its output will be in [s]. *)
Record prepared op w (si s : nat) : Prop := {
  pr_budgets : budgets_ok w;
  pr_input : releasable w (tm_input op) si;
  pr_reserved : tm_reserved op = Some s ∧ s ≠ si ∧ (s < length (w_stores w))%nat;
  pr_store : sg_state (w_stores w !!! s) = TR_MESSAGE_STORAGE_RESERVED ∧ sg_budget (w_stores w !!! s) = Some (tm_budget op) ∧
    sg_capacity (w_stores w !!! s) = reserved_bytes op;
  pr_output : tm_output op ≠ tm_input op ∧ (tm_output op < length (w_handles w))%nat ∧ w_handles w !!! tm_output op = zero_message;
  pr_sizes : 0 ≤ tm_capacity op ∧ u64_ok (workspace_bytes op);
  pr_capacity : tm_capacity op ≤ SIZE_MAX;
  pr_budget : (tm_budget op < length (w_budgets w))%nat;
  pr_covered b f b' : (b' < length (w_budgets w))%nat → sg_budget (w_stores w !!! si) = Some b → sg_release (w_stores w !!! si) = Some f →
    at_budget b (sg_capacity (w_stores w !!! si) + private f) b' +
    at_budget (tm_budget op) (sizeof_transform + sizeof_transform_output + workspace_bytes op + reserved_bytes op) b' ≤ used w b'
}.

(** The storage of the output once it is published, and its handle. *)
Definition output_store op s : tr_message_storage :=
  mk_storage 1 (Some (tm_budget op)) (reserved_bytes op) (Some output_release_fn) (Z.of_nat s) TR_MESSAGE_STORAGE_LIVE.
Definition output_message (data length : Z) (s : nat) : tr_message := mk_message (Some data) length (Some s).

Lemma reserved_positive op : 0 ≤ tm_capacity op → tm_capacity op ≤ reserved_bytes op ∧ 1 ≤ reserved_bytes op.
Proof. unfold reserved_bytes. destruct (Z.eqb_spec (tm_capacity op) 0); lia. Qed.

(** Compression publishes its output, or changes nothing. *)
Lemma execute_spec op w si s malloc cancelled outcome op' w' rest : prepared op w si s →
  tr_transform_execute memory op w malloc cancelled = Some (outcome, op', w', rest) →
  (outcome = TR_MESSAGE_TRANSFORM_OK ∧ op' = clear_reserved_output op ∧ ∃ data view e out, malloc = Some data ∧
     tr_message_zstd_run (tm_config op) (memory (vw_data view) (vw_len view)) (tm_capacity op) (tail cancelled) = Some e ∧
     mg_data (w_handles w !!! tm_input op) = vw_data view ∧ mg_len (w_handles w !!! tm_input op) = vw_len view ∧
     ze_outcome e = TR_MESSAGE_TRANSFORM_OK ∧ ze_output e = Some out ∧ alen out ≤ tm_capacity op ∧
     w' = set_handle (set_store w s (output_store op s)) (tm_output op) (output_message data (alen out) s)) ∨
  (outcome ≠ TR_MESSAGE_TRANSFORM_OK ∧ op' = op ∧ w' = w ∧ (outcome = TR_MESSAGE_TRANSFORM_CANCELLED → true ∈ cancelled)).
Proof.
  intros [O [[Lh Hh] _ _ _] (Rs & _ & _) (S1 & S2 & S3) (_ & _ & H3) [Z1 Z2] _ _ _] E. unfold tr_transform_execute in E.
  destruct cancelled as [|[] rest0]; [discriminate|injection E as <- <- <- <-; right; split; [discriminate|]; repeat split; by left|].
  unfold tr_message_view_of in E. cbn [negb] in E. rewrite Hh in E. rewrite bool_decide_eq_true_2 in E by (by eexists). cbn [negb] in E.
  destruct malloc as [data|]; [|injection E as <- <- <- <-; right; repeat split; discriminate]. cbn [vw_data vw_len] in E.
  destruct (tr_message_zstd_run _ _ _ rest0) as [e|] eqn:Z0; [|discriminate]. cbn [mbind option_bind] in E.
  destruct (ze_outcome e) eqn:Oc.
  1:{ left. destruct (zstd_run_fits _ _ _ _ _ Z2 Z1 Z0 Oc) as (out & Eo & Fit). rewrite Eo, Rs in E. unfold tr_message_storage_publish in E.
      rewrite S1, H3, S2, S3 in E. cbn in E. pose proof (reserved_positive op Z1). replace (_ >? _) with false in E by lia. cbn in E.
      injection E as <- <- <- <-. split; [reflexivity|]. split; [reflexivity|].
      exists data, (mk_view (mg_data (w_handles w !!! tm_input op)) (mg_len (w_handles w !!! tm_input op))), e, out. repeat (split; [done|]). reflexivity. }
  all: injection E as <- <- <- <-; right; split; [discriminate|]; split; [reflexivity|]; split; [reflexivity|]; try discriminate.
  intros _. right. apply (zstd_run_cancelled _ _ _ _ _ Z2 Z1 Z0 Oc).
Qed.

(** What is left of [w] when the run is settled: the output is held, or nothing. *)
Record settled op w w' (si s : nat) (pub : option tr_message) : Prop := {
  se_handles h : w_handles w' !!! h = if decide (h = tm_input op) then zero_message else if decide (h = tm_output op) then default zero_message pub
    else w_handles w !!! h;
  se_lengths : length (w_handles w') = length (w_handles w) ∧ length (w_stores w') = length (w_stores w);
  se_store : match pub with
    | Some m => w_stores w' !!! s = output_store op s ∧ mg_storage m = Some s ∧ 0 ≤ mg_len m ≤ reserved_bytes op
    | None => sg_state (w_stores w' !!! s) = TR_MESSAGE_STORAGE_EMPTY ∨ sg_state (w_stores w' !!! s) = TR_MESSAGE_STORAGE_RETIRED end;
  se_budgets : charged_by w w' (λ b, - gives (w_stores w !!! si) b -
    at_budget (tm_budget op) (workspace_bytes op + match pub with Some _ => 0 | None => sizeof_transform_output + reserved_bytes op end) b)
}.

Lemma at_same b n : at_budget b n b = n.
Proof. unfold at_budget. by rewrite decide_True. Qed.

Lemma private_nonneg f : 0 ≤ private f.
Proof. unfold private, sizeof_transform_output. case_match; lia. Qed.

(** The workspace and the input are given back. *)
Lemma settle_tail op w w1 si s n : callback_ok provider → prepared op w si s → charged_by w w1 (at_budget (tm_budget op) (- n)) →
  0 ≤ n ≤ sizeof_transform_output + reserved_bytes op → w_handles w1 !!! tm_input op = w_handles w !!! tm_input op →
  length (w_handles w1) = length (w_handles w) → w_stores w1 !!! si = w_stores w !!! si → length (w_stores w1) = length (w_stores w) →
  ∃ w2 w3, release_budget (Some (tm_budget op)) (workspace_bytes op) w1 = (TR_OK, w2) ∧
    w_handles w2 = w_handles w1 ∧ w_stores w2 = w_stores w1 ∧
    tr_message_release (release_callback provider) (Some (tm_input op)) w2 = (TR_OK, w3) ∧ released_to w2 w3 (tm_input op) si ∧
    charged_by w w3 (λ b, - gives (w_stores w !!! si) b - at_budget (tm_budget op) (workspace_bytes op + n) b).
Proof.
  intros Pr I C N Hi Lh Si Ls. destruct I as [O [[Ih Is] [Sh Sl] Rf (b & f & Eb & Ef & Lb & Ea & Cp & _)] _ _ _ [_ Wk] _ Bl Cov].
  specialize (Cov b f). assert (Pos : 0 ≤ workspace_bytes op) by (unfold u64_ok in Wk; lia). pose proof (private_nonneg f) as Pn.
  assert (Cb : ∀ b', workspace_bytes op + n ≤ used w b' - at_budget b (sg_capacity (w_stores w !!! si) + private f) b' ∨ b' ≠ tm_budget op).
  { intros b'. destruct (decide (b' = tm_budget op)) as [->|X]; [left|by right]. pose proof (Cov (tm_budget op) Bl Eb Ef) as Q. rewrite at_same in Q. unfold sizeof_transform in Q. lia. }
  destruct (release_budget_exact w1 (tm_budget op) (workspace_bytes op) (cb_ok _ _ _ C)) as (x & E2 & C2); [rewrite (cb_length _ _ _ C); exact Bl| |].
  { rewrite (cb_used _ _ _ C _ Bl), at_same. destruct (Cb (tm_budget op)) as [Q|Q]; [|done]. unfold at_budget in Q. case_decide; lia. }
  set (w2 := set_budget _ _ _) in *. pose proof (charged_trans _ _ _ _ _ C C2) as C3.
  assert (Rl : releasable w2 (tm_input op) si).
  { split; cbn [w2 set_budget w_handles w_stores].
    - split; [lia|congruence].
    - split; [lia|congruence].
    - rewrite Si. exact Rf.
    - rewrite Si. exists b, f. split; [exact Eb|]. split; [exact Ef|]. rewrite (cb_length _ _ _ C3). split; [exact Lb|]. split; [exact Ea|]. split; [exact Cp|].
      rewrite (cb_used _ _ _ C3 _ Lb). destruct (Cb b) as [Q|Q].
      + rewrite at_same in Q. unfold at_budget. case_decide; lia.
      + unfold at_budget. rewrite !decide_False by congruence. pose proof (Cov b Lb Eb Ef) as Q2. rewrite at_same in Q2. unfold at_budget in Q2. rewrite decide_False in Q2 by congruence. lia. }
  destruct (release_spec provider w2 (tm_input op) si Pr (cb_ok _ _ _ C3) Rl) as (w3 & E3 & R3). exists w2, w3.
  split; [exact E2|]. split; [reflexivity|]. split; [reflexivity|]. split; [exact E3|]. split; [exact R3|].
  eapply charged_ext; [|exact (charged_trans _ _ _ _ _ C3 (rt_budgets _ _ _ _ R3))]. intros b'. cbn [w2 set_budget w_stores]. rewrite Si.
  unfold at_budget. case_decide; lia.
Qed.

Lemma settle_published op w si s data length w' : callback_ok provider → prepared op w si s → 0 ≤ length ≤ tm_capacity op →
  w' = set_handle (set_store w s (output_store op s)) (tm_output op) (output_message data length s) →
  ∃ w3, run_settle provider (clear_reserved_output op) w' TR_MESSAGE_TRANSFORM_OK = (TR_MESSAGE_TRANSFORM_OK, clear_reserved_output op, w3) ∧
    settled op w w3 si s (Some (output_message data length s)).
Proof.
  intros Pr I Fit ->. set (w1 := set_handle _ _ _). pose proof (pr_output _ _ _ _ I) as (N1 & N2 & N3). pose proof (pr_reserved _ _ _ _ I) as (R1 & R2 & R3).
  assert (Pd := reserved_positive op (proj1 (pr_sizes _ _ _ _ I))).
  destruct (settle_tail op w w1 si s 0 Pr I) as (w2 & w3 & E2 & H2 & S2 & E3 & R & C).
  - apply (charged_ext _ _ (λ _, 0)); [intros b; unfold at_budget; by case_decide|]. apply charged_same; [reflexivity|apply (pr_budgets _ _ _ _ I)].
  - unfold sizeof_transform_output. lia.
  - cbn. by rewrite list_lookup_total_insert_ne.
  - cbn. apply length_insert.
  - cbn. by rewrite list_lookup_total_insert_ne.
  - cbn. apply length_insert.
  - exists w3. unfold run_settle. cbn [tr_transform_output_discard tm_reserved clear_reserved_output tm_budget tm_config tm_input]. change (is_ok TR_OK) with true. cbn iota beta.
    fold (workspace_bytes op). rewrite E2. change (is_ok TR_OK) with true. cbn iota beta. rewrite E3. change (is_ok TR_OK) with true. split; [reflexivity|]. split.
    + intros h. rewrite (rt_handles _ _ _ _ R), H2. cbn. pose proof (proj1 (rl_handle _ _ _ (pr_input _ _ _ _ I))) as Li. case_decide as X1; [subst h|].
      * apply list_lookup_total_insert_eq. rewrite length_insert. exact Li.
      * rewrite list_lookup_total_insert_ne by congruence. case_decide as X2; [subst h; by apply list_lookup_total_insert_eq|]. by rewrite list_lookup_total_insert_ne by congruence.
    + rewrite (rt_handles _ _ _ _ R), (rt_stores _ _ _ _ R), length_insert, H2, S2. cbn. by rewrite !length_insert.
    + split; [|cbn; split; [reflexivity|lia]]. rewrite (rt_others _ _ _ _ R s R2); rewrite S2; cbn; rewrite list_lookup_total_insert_eq by exact R3; done.
    + eapply charged_ext; [|exact C]. intros b. cbn. lia.
Qed.

Lemma settle_nothing op w si s outcome : callback_ok provider → prepared op w si s →
  ∃ w3, run_settle provider op w outcome = (outcome, clear_reserved_output op, w3) ∧ settled op w w3 si s None.
Proof.
  intros Pr I. pose proof (pr_output _ _ _ _ I) as (N1 & N2 & N3). pose proof (pr_reserved _ _ _ _ I) as (R1 & R2 & R3).
  pose proof (pr_store _ _ _ _ I) as (S1 & S2 & S3). assert (Pd := reserved_positive op (proj1 (pr_sizes _ _ _ _ I))).
  pose proof (pr_budget _ _ _ _ I) as Bl.
  assert (Cov : sizeof_transform + sizeof_transform_output + workspace_bytes op + reserved_bytes op ≤ used w (tm_budget op)).
  { destruct (rl_counted _ _ _ (pr_input _ _ _ _ I)) as (b & f & Eb & Ef & _ & _ & Cp & _). pose proof (pr_covered _ _ _ _ I b f (tm_budget op) Bl Eb Ef) as Q.
    rewrite at_same in Q. pose proof (private_nonneg f). unfold at_budget in Q. case_decide; lia. }
  assert (Wk : 0 ≤ workspace_bytes op) by (pose proof (proj2 (pr_sizes _ _ _ _ I)) as X; unfold u64_ok in X; lia).
  unfold sizeof_transform, sizeof_transform_output in Cov.
  destruct (release_budget_exact w (tm_budget op) (reserved_bytes op) (pr_budgets _ _ _ _ I) Bl) as (x & E1 & C1); [lia|].
  set (w1 := set_budget w (tm_budget op) x) in *.
  set (w1' := set_store w1 s (mk_storage (sg_refs (w_stores w !!! s)) None 0 (sg_release (w_stores w !!! s)) (sg_release_arg (w_stores w !!! s)) TR_MESSAGE_STORAGE_EMPTY)).
  assert (C1' : charged_by w w1' (at_budget (tm_budget op) (- reserved_bytes op))) by (destruct C1; split; assumption).
  destruct (release_budget_exact w1' (tm_budget op) sizeof_transform_output (cb_ok _ _ _ C1')) as (y & E2 & C2); [rewrite (cb_length _ _ _ C1'); exact Bl| |].
  { rewrite (cb_used _ _ _ C1' _ Bl), at_same. unfold sizeof_transform_output. lia. }
  set (w2 := set_budget w1' (tm_budget op) y) in *.
  destruct (settle_tail op w w2 si s (sizeof_transform_output + reserved_bytes op) Pr I) as (w3 & w4 & E3 & H3 & T3 & E4 & R & C).
  - eapply charged_ext; [|exact (charged_trans _ _ _ _ _ C1' C2)]. intros b. unfold at_budget. case_decide; lia.
  - unfold sizeof_transform_output. lia.
  - reflexivity.
  - reflexivity.
  - cbn. by rewrite list_lookup_total_insert_ne.
  - cbn. apply length_insert.
  - exists w4. unfold run_settle, tr_transform_output_discard. rewrite R1. unfold tr_message_storage_cancel. rewrite S1. cbn [negb bool_decide]. 
    rewrite bool_decide_eq_false_2 by (intros X; by destruct X). rewrite S2, S3, E1. change (is_ok TR_OK) with true. cbn [negb]. fold w1 w1'. rewrite E2. fold w2.
    change (is_ok TR_OK) with true. cbn iota beta. cbn [clear_reserved_output tm_budget tm_config tm_input]. fold (workspace_bytes op). rewrite E3. change (is_ok TR_OK) with true. cbn iota beta. rewrite E4.
    change (is_ok TR_OK) with true. split; [reflexivity|]. split.
    + intros h. rewrite (rt_handles _ _ _ _ R), H3. cbn. pose proof (proj1 (rl_handle _ _ _ (pr_input _ _ _ _ I))) as Li. case_decide as X1; [subst h; by apply list_lookup_total_insert_eq|].
      rewrite list_lookup_total_insert_ne by congruence. case_decide as X2; [subst h; exact N3|reflexivity].
    + rewrite (rt_handles _ _ _ _ R), (rt_stores _ _ _ _ R), length_insert, H3, T3. cbn. by rewrite !length_insert.
    + left. rewrite (rt_others _ _ _ _ R s R2); rewrite T3; cbn; rewrite list_lookup_total_insert_eq by exact R3; done.
    + exact C.
Qed.

(** The output that is held is released. *)
Lemma settled_release op w w' si s m : callback_ok provider → prepared op w si s → settled op w w' si s (Some m) →
  ∃ w3, tr_message_release (release_callback provider) (Some (tm_output op)) w' = (TR_OK, w3) ∧ settled op w w3 si s None.
Proof.
  intros Pr I [Hh [L1 L2] (S & M & Fit) C]. pose proof (pr_output _ _ _ _ I) as (N1 & N2 & N3). pose proof (pr_reserved _ _ _ _ I) as (R1 & R2 & R3).
  assert (Pd := reserved_positive op (proj1 (pr_sizes _ _ _ _ I))). pose proof (pr_budget _ _ _ _ I) as Bl.
  assert (Rl : releasable w' (tm_output op) s).
  { split.
    - split; [lia|]. rewrite Hh, decide_False, decide_True by congruence. exact M.
    - split; [lia|]. by rewrite S.
    - rewrite S. cbn. unfold UINT32_MAX. lia.
    - rewrite S. exists (tm_budget op), output_release_fn. split; [reflexivity|]. split; [reflexivity|]. rewrite (cb_length _ _ _ C). split; [exact Bl|].
      split; [reflexivity|]. cbn [output_store sg_capacity]. split; [lia|]. rewrite (cb_used _ _ _ C _ Bl), at_same.
      destruct (rl_counted _ _ _ (pr_input _ _ _ _ I)) as (b & f & Eb & Ef & _ & _ & Cp & _). pose proof (pr_covered _ _ _ _ I b f (tm_budget op) Bl Eb Ef) as Q.
      rewrite at_same in Q. pose proof (private_nonneg f). unfold gives. rewrite Eb, Ef. unfold sizeof_transform, sizeof_transform_output in Q.
      change (private output_release_fn) with 64. unfold at_budget in *. destruct (_ =? 1); case_decide; lia. }
  destruct (release_spec provider w' (tm_output op) s Pr (cb_ok _ _ _ C) Rl) as (w3 & E & R). exists w3. split; [exact E|]. split.
  - intros h. rewrite (rt_handles _ _ _ _ R). destruct (decide (h = tm_output op)) as [->|X].
    + rewrite list_lookup_total_insert_eq by lia. by rewrite decide_False.
    + rewrite list_lookup_total_insert_ne, Hh by congruence. case_decide; [reflexivity|]. by rewrite decide_False.
  - rewrite (rt_handles _ _ _ _ R), (rt_stores _ _ _ _ R), length_insert. split; assumption.
  - apply (rt_last _ _ _ _ R). by rewrite S.
  - eapply charged_ext; [|exact (charged_trans _ _ _ _ _ C (rt_budgets _ _ _ _ R))]. intros b. rewrite S. unfold gives. cbn.
    unfold output_store, private, sizeof_transform_output, at_budget. cbn. case_decide; lia.
Qed.

Lemma held_output_spec op w w' si s pub : prepared op w si s → settled op w w' si s pub →
  held_output op w' = bool_decide (is_Some pub).
Proof.
  intros I [Hh _ S _]. pose proof (pr_output _ _ _ _ I) as (N1 & _ & _). unfold held_output, tr_message_view_of. cbn [negb].
  rewrite Hh, decide_False, decide_True by congruence. destruct pub as [m|]; cbn.
  - destruct S as (_ & -> & _). reflexivity.
  - reflexivity.
Qed.

End Run.

(** * The invariant of a run *)

(** The word says whether a request to cancel was accepted. *)
Definition bits (base state : Z) (cancels : list tr_status) : Prop :=
  state = base ∧ TR_OK ∉ cancels ∨ state = base + TR_TRANSFORM_CANCEL ∧ TR_OK ∈ cancels.

Lemma cancel_once_spec op base cancels : base = TR_TRANSFORM_READY ∨ base = TR_TRANSFORM_RUNNING → bits base (tm_state op) cancels →
  ∃ state, cancel_once op cancels = (set_tm_state op state, cancels ++ [TR_OK]) ∧ bits base state (cancels ++ [TR_OK]).
Proof.
  intros Bs Bt. assert (In : TR_OK ∈ cancels ++ [TR_OK]) by (apply elem_of_app; right; by left).
  exists (base + TR_TRANSFORM_CANCEL). split; [|by right]. unfold cancel_once, tr_message_transform_cancel.
  destruct Bt as [[E _]|[E _]], Bs as [->| ->]; rewrite E; cbn; try reflexivity; destruct op; cbn in *; subst; reflexivity.
Qed.

Lemma cancelled_spec op base cancels asked : base = TR_TRANSFORM_READY ∨ base = TR_TRANSFORM_RUNNING → bits base (tm_state op) cancels →
  ∃ answer state cancels', tr_transform_cancelled asked op cancels = (answer, set_tm_state op state, cancels') ∧ bits base state cancels' ∧
    (answer = true → TR_OK ∈ cancels') ∧ (TR_OK ∈ cancels → TR_OK ∈ cancels').
Proof.
  intros Bs Bt. assert (A : ∀ state cs, bits base state cs → cancel_bit (set_tm_state op state) = true → TR_OK ∈ cs).
  { intros state cs [[-> N]|[-> I]] X; [|exact I]. unfold cancel_bit in X. destruct Bs as [->| ->]; discriminate. }
  unfold tr_transform_cancelled. destruct asked.
  - destruct (cancel_once_spec op base cancels Bs Bt) as (state & -> & Bt'). exists (cancel_bit (set_tm_state op state)), state, (cancels ++ [TR_OK]).
    split; [reflexivity|]. split; [exact Bt'|]. split; [apply A, Bt'|]. intros I. apply elem_of_app. by left.
  - exists (cancel_bit op), (tm_state op), cancels. split; [by destruct op|]. split; [exact Bt|]. split; [|auto].
    intros X. apply (A (tm_state op)); [exact Bt|by destruct op].
Qed.

Section Inv.
Context {B : Type} `{!Budget B} `{!Inhabited B} `{!Zstd} `{!ZstdCalls}.
Context (provider : Z → Z → world B → world B) (memory : option Z → Z → list Z) (malloc : option Z).
Implicit Types (w : world B) (op : tr_message_transform).

Lemma execute_state op w cancelled state : tr_transform_execute memory (set_tm_state op state) w malloc cancelled =
  (λ x, (x.1.1.1, set_tm_state x.1.1.2 state, x.1.2, x.2)) <$> tr_transform_execute memory op w malloc cancelled.
Proof.
  unfold tr_transform_execute. cbn [tm_input tm_config tm_capacity tm_reserved tm_output set_tm_state].
  destruct cancelled as [|[] rest]; [reflexivity..|]. destruct (tr_message_view_of _ _ _) as [[] [view|]]; try reflexivity.
  destruct malloc as [data|]; [|reflexivity]. destruct (tr_message_zstd_run _ _ _ _) as [e|]; [|reflexivity]. cbn [mbind option_bind].
  destruct (ze_outcome e); try reflexivity. destruct (tr_message_storage_publish _ _ _ _ _ _ _) as [ret w']. by destruct (negb (is_ok ret)).
Qed.

Lemma execute_none op w l : tr_transform_execute memory op w malloc l = None →
  l = [] ∨ ∃ l0 data view, l = false :: l0 ∧ malloc = Some data ∧ tr_message_view_of (Some (tm_input op)) true w = (TR_OK, Some view) ∧
    tr_message_zstd_run (tm_config op) (memory (vw_data view) (vw_len view)) (tm_capacity op) l0 = None.
Proof.
  unfold tr_transform_execute. destruct l as [|[] l0]; [by left|discriminate|]. intros E. right. exists l0.
  destruct (tr_message_view_of _ _ _) as [[] [view|]]; try discriminate. destruct malloc as [data|]; [|discriminate]. exists data, view.
  split; [reflexivity|]. split; [reflexivity|]. split; [reflexivity|]. destruct (tr_message_zstd_run _ _ _ _) as [e|]; [|reflexivity]. exfalso.
  cbn [mbind option_bind] in E. destruct (ze_outcome e); try discriminate. destruct (tr_message_storage_publish _ _ _ _ _ _ _) as [ret w'].
  by destruct (negb (is_ok ret)).
Qed.

(** What answers an answer is used up. *)
Lemma execute_last op w l a x : tr_transform_execute memory op w malloc l = None → tr_transform_execute memory op w malloc (l ++ [a]) = Some x → x.2 = [].
Proof.
  intros N E. destruct (execute_none _ _ _ N) as [->|(l0 & data & view & -> & M & V & Z0)].
  - cbn [app] in E. unfold tr_transform_execute in E. destruct a; [by injection E as <-|]. destruct (tr_message_view_of _ _ _) as [[] [view|]]; try by injection E as <-.
    destruct malloc as [data|]; [discriminate|by injection E as <-].
  - cbn [app] in E. unfold tr_transform_execute in E. rewrite V, M in E. destruct (tr_message_zstd_run _ _ _ (l0 ++ [a])) as [e|] eqn:E1; [|discriminate].
    cbn [mbind option_bind] in E. assert (R : x.2 = ze_rest e).
    { destruct (ze_outcome e); try by injection E as <-. destruct (tr_message_storage_publish _ _ _ _ _ _ _) as [ret w']. destruct (negb (is_ok ret)); by injection E as <-. }
    rewrite R. destruct (zstd_run_less _ _ _ _ _ E1) as (asked & e' & L & A). destruct (ze_rest e) as [|b rest] using rev_ind; [reflexivity|]. exfalso.
    rewrite app_assoc in L. apply app_inj_tail in L as [-> _]. apply (zstd_run_more _ _ _ _ rest) in A. congruence.
Qed.

(** What the compression of an operation comes to with these answers, and what is published. *)
Definition result_of op w (s : nat) (cancelled : list bool) (outcome : tr_message_transform_outcome) (pub : option tr_message) : Prop :=
  (λ x, x.1.1.1) <$> tr_transform_execute memory op w malloc cancelled = Some outcome ∧
  match pub with
  | None => outcome ≠ TR_MESSAGE_TRANSFORM_OK
  | Some m => outcome = TR_MESSAGE_TRANSFORM_OK ∧ ∃ data view e out, malloc = Some data ∧
      mg_data (w_handles w !!! tm_input op) = vw_data view ∧ mg_len (w_handles w !!! tm_input op) = vw_len view ∧
      tr_message_zstd_run (tm_config op) (memory (vw_data view) (vw_len view)) (tm_capacity op) (tail cancelled) = Some e ∧
      ze_output e = Some out ∧ alen out ≤ tm_capacity op ∧ m = output_message data (alen out) s
  end.

(** An operation [op] was prepared in [w]. *)
Inductive run_inv op w (si s : nat) : run_state B → Prop :=
| inv_idle state cancels : bits TR_TRANSFORM_READY state cancels → run_inv op w si s (mk_run (set_tm_state op state) w Idle cancels)
| inv_executing state cancelled cancels : bits TR_TRANSFORM_RUNNING state cancels → (true ∈ cancelled → TR_OK ∈ cancels) →
    (∀ l a, cancelled = l ++ [a] → tr_transform_execute memory op w malloc l = None) →
    run_inv op w si s (mk_run (set_tm_state op state) w (Executing cancelled) cancels)
| inv_published state cancelled cancels m : bits TR_TRANSFORM_RUNNING state cancels → (true ∈ cancelled → TR_OK ∈ cancels) →
    result_of op w s cancelled TR_MESSAGE_TRANSFORM_OK (Some m) →
    run_inv op w si s (mk_run (set_tm_state (clear_reserved_output op) state) (set_handle (set_store w s (output_store op s)) (tm_output op) m)
      (Executed TR_MESSAGE_TRANSFORM_OK) cancels)
| inv_failed state cancelled cancels outcome : bits TR_TRANSFORM_RUNNING state cancels → (true ∈ cancelled → TR_OK ∈ cancels) →
    (outcome = TR_MESSAGE_TRANSFORM_CANCELLED → TR_OK ∈ cancels) → result_of op w s cancelled outcome None →
    run_inv op w si s (mk_run (set_tm_state op state) w (Executed outcome) cancels)
| inv_settled state w' cancelled cancels outcome pub pc : pc = Settled outcome ∨ pc = Checked outcome → bits TR_TRANSFORM_RUNNING state cancels →
    (true ∈ cancelled → TR_OK ∈ cancels) → (outcome = TR_MESSAGE_TRANSFORM_CANCELLED → TR_OK ∈ cancels) →
    result_of op w s cancelled outcome pub → settled op w w' si s pub →
    run_inv op w si s (mk_run (set_tm_state (clear_reserved_output op) state) w' pc cancels)
| inv_lost state w' cancels outcome pub : TR_OK ∈ cancels → bits TR_TRANSFORM_RUNNING state cancels → settled op w w' si s pub →
    run_inv op w si s (mk_run (set_tm_outcome (set_tm_state (clear_reserved_output op) state) outcome) w' Lost cancels)
| inv_cancelled w' cancels : TR_OK ∈ cancels → settled op w w' si s None →
    run_inv op w si s (mk_run (set_tm_outcome (set_tm_state (clear_reserved_output op) TR_TRANSFORM_DONE) TR_MESSAGE_TRANSFORM_CANCELLED) w' Finished cancels)
| inv_finished w' cancelled cancels outcome pub : TR_OK ∉ cancels → true ∉ cancelled → outcome ≠ TR_MESSAGE_TRANSFORM_CANCELLED →
    result_of op w s cancelled outcome pub → settled op w w' si s pub →
    run_inv op w si s (mk_run (set_tm_outcome (set_tm_state (clear_reserved_output op) TR_TRANSFORM_DONE) outcome) w' Finished cancels).

Lemma prepared_state op w si s state : prepared op w si s → prepared (set_tm_state op state) w si s.
Proof. intros []. split; assumption. Qed.

Lemma inv_execute op w si s state cancelled cancels outcome op' w' : prepared op w si s → bits TR_TRANSFORM_RUNNING state cancels →
  (true ∈ cancelled → TR_OK ∈ cancels) → tr_transform_execute memory (set_tm_state op state) w malloc cancelled = Some (outcome, op', w', []) →
  run_inv op w si s (mk_run op' w' (Executed outcome) cancels).
Proof.
  intros P Bt T E. rewrite execute_state in E. destruct (tr_transform_execute memory op w malloc cancelled) as [[[[o op1] w1] rest]|] eqn:E1; [|discriminate].
  injection E as <- <- <- ->. assert (Ro : (λ x, x.1.1.1) <$> tr_transform_execute memory op w malloc cancelled = Some o) by (by rewrite E1).
  destruct (execute_spec memory op w si s malloc cancelled o op1 w1 [] P E1) as [(-> & -> & data & view & e & out & M & Z0 & V1 & V2 & Oe & Eo & Fit & ->)|(N & -> & -> & C)].
  - apply (inv_published _ _ _ _ _ cancelled); [exact Bt|exact T|]. split; [exact Ro|]. split; [reflexivity|]. exists data, view, e, out. split_and!; first [assumption|reflexivity].
  - apply (inv_failed _ _ _ _ _ cancelled); [exact Bt|exact T|auto|]. split; [exact Ro|exact N].
Qed.

Lemma inv_settle op w si s r : callback_ok provider → prepared op w si s → run_inv op w si s r → ∀ outcome, rs_pc r = Executed outcome →
  let x := run_settle provider (rs_op r) (rs_world r) outcome in run_inv op w si s (mk_run x.1.2 x.2 (Settled x.1.1) (rs_cancels r)).
Proof.
  intros Pr P I outcome E. inversion I; subst; cbn [rs_pc rs_op rs_world rs_cancels] in *; try discriminate.
  - injection E as <-. match goal with R : result_of _ _ _ _ _ (Some m) |- _ => destruct R as [Ro (_ & data & view & e & out & M & V1 & V2 & Z0 & Eo & Fit & ->)] end.
    destruct (settle_published provider (set_tm_state op state) w si s data (alen out) _ Pr (prepared_state _ _ _ _ _ P) ltac:(cbn; unfold alen in *; lia) eq_refl) as (w3 & E3 & S3).
    change (clear_reserved_output (set_tm_state op state)) with (set_tm_state (clear_reserved_output op) state) in E3.
    change (set_handle (set_store w s (output_store op s)) (tm_output op) (output_message data (alen out) s)) with
      (set_handle (set_store w s (output_store (set_tm_state op state) s)) (tm_output (set_tm_state op state)) (output_message data (alen out) s)).
    cbv zeta. rewrite E3. cbn [fst snd]. eapply (inv_settled _ _ _ _ _ _ cancelled _ _ (Some (output_message data (alen out) s))); [by left|eassumption|eassumption|discriminate| |].
    + split; [exact Ro|]. split; [reflexivity|]. exists data, view, e, out. split_and!; first [assumption|reflexivity].
    + destruct S3; split; assumption.
  - injection E as <-. destruct (settle_nothing provider (set_tm_state op state) w si s outcome0 Pr (prepared_state _ _ _ _ _ P)) as (w3 & E3 & S3).
    change (clear_reserved_output (set_tm_state op state)) with (set_tm_state (clear_reserved_output op) state) in E3. cbv zeta. rewrite E3. cbn [fst snd].
    eapply (inv_settled _ _ _ _ _ _ cancelled _ _ None); [by left|eassumption..|]. destruct S3; split; assumption.
  - destruct_or!; subst; discriminate.
Qed.

Lemma in_more (cancels : list tr_status) x : TR_OK ∈ cancels → TR_OK ∈ cancels ++ [x].
Proof. intros X. apply elem_of_app. by left. Qed.

Lemma not_in_more (cancels : list tr_status) x : TR_OK ∉ cancels → x ≠ TR_OK → TR_OK ∉ cancels ++ [x].
Proof. intros X N Y. apply elem_of_app in Y as [Y|Y]; [done|]. apply list_elem_of_singleton in Y. congruence. Qed.

(** A request to cancel changes nothing else. *)
Lemma inv_cancel op w si s r : run_inv op w si s r →
  let x := cancel_once (rs_op r) (rs_cancels r) in run_inv op w si s (mk_run x.1 (rs_world r) (rs_pc r) x.2).
Proof.
  intros I. inversion I as [st cs Bt|st cd cs Bt T Ex|st cd cs m Bt T R|st cd cs o Bt T C R|st w' cd cs o pub pc Hpc Bt T C R S|st w' cs o pub In Bt S|w' cs In S|w' cd cs o pub In T N R S];
    subst; cbn [rs_op rs_world rs_pc rs_cancels].
  - destruct (cancel_once_spec (set_tm_state op st) TR_TRANSFORM_READY cs (or_introl eq_refl) Bt) as (st' & -> & Bt'). by apply (inv_idle op w si s st').
  - destruct (cancel_once_spec (set_tm_state op st) TR_TRANSFORM_RUNNING cs (or_intror eq_refl) Bt) as (st' & -> & Bt').
    apply (inv_executing op w si s st'); [exact Bt'| |exact Ex]. intros X. apply in_more, T, X.
  - destruct (cancel_once_spec (set_tm_state (clear_reserved_output op) st) TR_TRANSFORM_RUNNING cs (or_intror eq_refl) Bt) as (st' & -> & Bt').
    apply (inv_published op w si s st' cd); [exact Bt'|intros X; apply in_more, T, X|exact R].
  - destruct (cancel_once_spec (set_tm_state op st) TR_TRANSFORM_RUNNING cs (or_intror eq_refl) Bt) as (st' & -> & Bt').
    apply (inv_failed op w si s st' cd); [exact Bt'|intros X; apply in_more, T, X|intros X; apply in_more, C, X|exact R].
  - destruct (cancel_once_spec (set_tm_state (clear_reserved_output op) st) TR_TRANSFORM_RUNNING cs (or_intror eq_refl) Bt) as (st' & -> & Bt').
    apply (inv_settled op w si s st' w' cd _ o pub); [exact Hpc|exact Bt'|intros X; apply in_more, T, X|intros X; apply in_more, C, X|exact R|exact S].
  - destruct (cancel_once_spec (set_tm_outcome (set_tm_state (clear_reserved_output op) st) o) TR_TRANSFORM_RUNNING cs (or_intror eq_refl) Bt) as (st' & -> & Bt').
    apply (inv_lost op w si s st' w' _ o pub); [apply in_more, In|exact Bt'|exact S].
  - apply (inv_cancelled op w si s); [apply in_more, In|exact S].
  - apply (inv_finished op w si s w' cd _ o pub); [by apply not_in_more|exact T|exact N|exact R|exact S].
Qed.

Lemma inv_abandon op w si s st w' cs o pub : callback_ok provider → prepared op w si s → TR_OK ∈ cs → settled op w w' si s pub →
  let x := run_abandon provider (set_tm_outcome (set_tm_state (clear_reserved_output op) st) o) w' in run_inv op w si s (mk_run x.1 x.2 Finished cs).
Proof.
  intros Pr P In S. cbv zeta. unfold run_abandon. cbn [tm_output set_tm_outcome set_tm_state clear_reserved_output].
  change (held_output (set_tm_outcome (set_tm_state (clear_reserved_output op) st) o) w') with (held_output op w'). rewrite (held_output_spec op w w' si s pub P S). cbn [fst snd].
  change (set_tm_state (set_tm_outcome (set_tm_outcome (set_tm_state (clear_reserved_output op) st) o) TR_MESSAGE_TRANSFORM_CANCELLED) TR_TRANSFORM_DONE) with
    (set_tm_outcome (set_tm_state (clear_reserved_output op) TR_TRANSFORM_DONE) TR_MESSAGE_TRANSFORM_CANCELLED).
  destruct pub as [m|].
  - rewrite bool_decide_eq_true_2 by (by eexists). destruct (settled_release provider op w w' si s m Pr P S) as (w3 & E & S3).
    rewrite E. by apply inv_cancelled.
  - rewrite bool_decide_eq_false_2 by (by intros []). by apply inv_cancelled.
Qed.

Lemma inv_step op w si s r r' : callback_ok provider → prepared op w si s → run_inv op w si s r → transform_step provider memory malloc r r' →
  run_inv op w si s r'.
Proof.
  intros Pr P I St. destruct St as [r r' St|op1 w1 pc cs]; [|apply (inv_cancel _ _ _ _ _ I)].
  destruct St as [op1 w1 cs st' Cl|op1 w1 cd cs asked E|op1 w1 cd cs o op2 w2 E|op1 w1 o cs|op1 w1 o cs asked|op1 w1 o cs|op1 w1 cs].
  - inversion I as [st cs0 Bt| | | |? ? ? ? ? ? ? Hpc| | |]; subst; [|by destruct Hpc]. apply (inv_executing op _ si s st' [] cs); [|intros X; by apply elem_of_nil in X|intros [|? ?] ? ?; discriminate].
    destruct Bt as [[-> N]|[-> N]]; vm_compute in Cl; injection Cl as <-; [by left|by right].
  - inversion I as [|st cd0 cs0 Bt T Ex| | |? ? ? ? ? ? ? Hpc| | |]; subst; [|by destruct Hpc].
    destruct (cancelled_spec (set_tm_state op st) TR_TRANSFORM_RUNNING cs asked (or_intror eq_refl) Bt) as (a & st' & cs' & -> & Bt' & A & K). cbn [fst snd].
    apply (inv_executing op _ si s st' _ cs' Bt').
    + intros X. apply elem_of_app in X as [X|X]; [auto|]. apply list_elem_of_singleton in X. auto.
    + intros l b X. apply app_inj_tail in X as [<- _]. rewrite execute_state in E. by apply fmap_None in E.
  - inversion I as [|st cd0 cs0 Bt T Ex| | |? ? ? ? ? ? ? Hpc| | |]; subst; [|by destruct Hpc]. by apply (inv_execute op _ si s st cd).
  - apply (inv_settle op _ si s _ Pr P I o eq_refl).
  - inversion I as [| | | |st w' cd cs0 o0 pub pc Hpc Bt T C R S| | |]; subst. destruct Hpc as [[= <-]|]; [|discriminate].
    destruct (cancelled_spec (set_tm_state (clear_reserved_output op) st) TR_TRANSFORM_RUNNING cs asked (or_intror eq_refl) Bt) as (a & st' & cs' & -> & Bt' & A & K). cbn [fst snd].
    apply (inv_settled op w si s st' w1 cd cs' o pub); auto.
  - inversion I as [| | | |st w' cd cs0 o0 pub pc Hpc Bt T C R S| | |]; subst. destruct Hpc as [|[= <-]]; [discriminate|]. cbn [tm_state set_tm_state].
    destruct Bt as [[-> N]|[-> N]].
    + change (TR_TRANSFORM_RUNNING =? TR_TRANSFORM_RUNNING) with true. cbn iota.
      apply (inv_finished op w si s w1 cd cs o pub); auto.
    + change (TR_TRANSFORM_RUNNING + TR_TRANSFORM_CANCEL =? TR_TRANSFORM_RUNNING) with false. cbn iota.
      apply (inv_lost op w si s (TR_TRANSFORM_RUNNING + TR_TRANSFORM_CANCEL) w1 cs o pub); [exact N|by right|exact S].
  - inversion I as [| | | |? ? ? ? ? ? ? Hpc|st w' cs0 o pub In Bt S| |]; subst; [by destruct Hpc|]. by apply (inv_abandon op w si s st w1 cs o pub).
Qed.

Lemma inv_reached op w si s r : callback_ok provider → prepared op w si s → tm_state op = TR_TRANSFORM_READY →
  rtc (transform_step provider memory malloc) (mk_run op w Idle []) r → run_inv op w si s r.
Proof.
  intros Pr P E R. apply (rtc_ind_r (λ r, run_inv op w si s r) (mk_run op w Idle [])) in R; [exact R|..].
  - replace (mk_run op w Idle []) with (mk_run (set_tm_state op TR_TRANSFORM_READY) w Idle []) by (rewrite <- E; by destruct op).
    apply inv_idle. left. split; [reflexivity|]. intros X. by apply elem_of_nil in X.
  - intros y z _ St I. apply (inv_step op w si s y z Pr P I St).
Qed.

End Inv.

(** * Lemmas: preparing and finishing *)

Section Ends.
Context {B : Type} `{!Budget B} `{!Inhabited B} `{!Zstd} `{!ZstdCalls}.
Context (b_limit : B → Z) (provider : Z → Z → world B → world B).
Implicit Types (w : world B) (op : tr_message_transform).

Definition config_ok (config : tr_message_transform_config) : Prop :=
  u64_ok (tf_max_workspace_bytes config) ∧ u64_ok (tf_decoded_size config) ∧
  u64_ok (max_decoded_bytes (tf_limits config)) ∧ u64_ok (max_encoded_bytes (tf_limits config)).

(** The world before: the input holds a message of the storage [si], and what [calloc] gives is
    zeroed and is nothing else. *)
Record world_ready w (input si b : nat) (place : transform_place) : Prop := {
  wr_budgets : budgets_ok w ∧ (b < length (w_budgets w))%nat;
  wr_input : releasable w input si ∧ u64_ok (mg_len (w_handles w !!! input));
  wr_distinct : pl_input place ≠ input ∧ pl_output place ≠ input ∧ pl_output place ≠ pl_input place;
  wr_handles : (pl_input place < length (w_handles w))%nat ∧ (pl_output place < length (w_handles w))%nat ∧
    w_handles w !!! pl_input place = zero_message ∧ w_handles w !!! pl_output place = zero_message;
  wr_store : (pl_storage place < length (w_stores w))%nat ∧ w_stores w !!! pl_storage place = zero_storage
}.

Lemma plan_capacity config n capacity : config_ok config → u64_ok n → tr_message_zstd_plan (Some config) n = (TR_OK, Some capacity) → u64_ok capacity.
Proof.
  intros (_ & D & _ & E) N. unfold tr_message_zstd_plan. pose proof (zl_bound n N) as Bd.
  destruct (tf_max_workspace_bytes config =? 0); [discriminate|]. destruct (negb _); [discriminate|]. destruct (tf_kind config =? TR_MESSAGE_ZSTD_ENCODE).
  - repeat (destruct (_ || _); [discriminate|]). destruct (n >? _); [discriminate|]. destruct (ZSTD_isError (ZSTD_compressBound n)); [discriminate|].
    destruct (ZSTD_isError (zb_error _) || _ || _ || _); [discriminate|]. intros [= <-]. by destruct (_ >? _).
  - destruct (tf_kind config =? TR_MESSAGE_ZSTD_DECODE); [|discriminate]. destruct ((_ >? _) || _); [discriminate|].
    destruct (ZSTD_isError (zb_error _) || _ || _ || _); [discriminate|]. by intros [= <-].
Qed.

(** What an accepted preparation leaves. *)
Record accepted w w' (input si b : nat) (place : transform_place) op : Prop := {
  ac_prepared : prepared op w' si (pl_storage place);
  ac_op : tm_state op = TR_TRANSFORM_READY ∧ tm_budget op = b ∧ tm_input op = pl_input place ∧ tm_output op = pl_output place;
  ac_budgets : charged_by w w' (at_budget b (sizeof_transform + sizeof_transform_output + workspace_bytes op + reserved_bytes op));
  ac_handles h : w_handles w' !!! h = if decide (h = input) then zero_message else if decide (h = pl_input place) then w_handles w !!! input else w_handles w !!! h;
  ac_lengths : length (w_handles w') = length (w_handles w) ∧ length (w_stores w') = length (w_stores w);
  ac_input_store : w_stores w' !!! si = w_stores w !!! si
}.

Lemma reserve_exact w b n x : budgets_ok w → (b < length (w_budgets w))%nat → u64_ok n → b_reserve (w_budgets w !!! b) n = (TR_OK, x) →
  charged_by w (set_budget w b x) (at_budget b n).
Proof.
  intros O L N E. destruct (b_reserve_spec _ _ _ _ (budget_ok _ _ O L) N E) as [X [[_ U]|[[?|?] _]]]; [|discriminate..]. by apply charged_set.
Qed.

(** The parts of the world that [prepare] builds. *)
Lemma accepted_built w input si b place config capacity w2 :
  world_ready w input si b place → u64_ok capacity → u64_ok (tf_max_workspace_bytes config) →
  w_handles w2 = w_handles w → w_stores w2 = w_stores w →
  charged_by w w2 (at_budget b (sizeof_transform + sizeof_transform_output + tf_max_workspace_bytes config + (if capacity =? 0 then 1 else capacity))) →
  accepted w (set_handle (set_handle (set_store w2 (pl_storage place) (mk_storage 0 (Some b) (if capacity =? 0 then 1 else capacity) None 0 TR_MESSAGE_STORAGE_RESERVED))
    (pl_input place) (w_handles w !!! input)) input zero_message) input si b place
    (mk_transform TR_TRANSFORM_READY config b (pl_input place) (pl_output place) (Some (pl_storage place)) capacity TR_MESSAGE_TRANSFORM_OK).
Proof.
  intros [[O Lb] [Rl Ul] (D1 & D2 & D3) (L1 & L2 & Z1 & Z2) [Ls Zs]] Uc Uw Eh Es C. set (w' := set_handle _ _ _).
  destruct Rl as [[Li Hi] [Lsi Lv] Rf (bi & f & Eb & Ef & Lbi & Ea & Cp & Cv)].
  assert (Ns : pl_storage place ≠ si) by (intros X; rewrite <- X, Zs in Lv; discriminate).
  assert (Hs : w_stores w' !!! si = w_stores w !!! si) by (cbn; rewrite Es, list_lookup_total_insert_ne by congruence; reflexivity).
  assert (Ho : w_stores w' !!! pl_storage place = mk_storage 0 (Some b) (if capacity =? 0 then 1 else capacity) None 0 TR_MESSAGE_STORAGE_RESERVED).
  { cbn. rewrite Es. apply list_lookup_total_insert_eq. exact Ls. }
  assert (Hh : ∀ h, w_handles w' !!! h = if decide (h = input) then zero_message else if decide (h = pl_input place) then w_handles w !!! input else w_handles w !!! h).
  { intros h. cbn. rewrite Eh. case_decide as X1; [subst h; apply list_lookup_total_insert_eq; by rewrite length_insert|].
    rewrite list_lookup_total_insert_ne by congruence. case_decide as X2; [subst h; by apply list_lookup_total_insert_eq|]. by rewrite list_lookup_total_insert_ne by congruence. }
  assert (Ll : length (w_handles w') = length (w_handles w) ∧ length (w_stores w') = length (w_stores w)) by (cbn; rewrite !length_insert, Eh, Es; split; reflexivity).
  assert (C' : charged_by w w' (at_budget b (sizeof_transform + sizeof_transform_output + tf_max_workspace_bytes config + (if capacity =? 0 then 1 else capacity))))
    by (destruct C; split; assumption).
  assert (Cu : ∀ b', (b' < length (w_budgets w))%nat → used w b' + at_budget b (sizeof_transform + sizeof_transform_output + tf_max_workspace_bytes config + (if capacity =? 0 then 1 else capacity)) b' ≤ used w' b').
  { intros b' L'. rewrite (cb_used _ _ _ C' _ L'). lia. }
  split; [|repeat split|exact C'|exact Hh|exact Ll|exact Hs]. split; cbn [tm_input tm_output tm_reserved tm_budget tm_capacity]; unfold workspace_bytes, reserved_bytes; cbn [tm_config tm_capacity].
  - apply (cb_ok _ _ _ C').
  - split.
    + split; [lia|]. rewrite Hh, decide_False, decide_True by congruence. exact Hi.
    + split; [lia|]. by rewrite Hs.
    + by rewrite Hs.
    + rewrite Hs. exists bi, f. split; [exact Eb|]. split; [exact Ef|]. split; [rewrite (cb_length _ _ _ C'); exact Lbi|]. split; [exact Ea|]. split; [exact Cp|].
      pose proof (Cu bi Lbi). unfold at_budget, sizeof_transform, sizeof_transform_output, u64_ok in *. destruct (capacity =? 0); case_decide; lia.
  - split; [reflexivity|]. split; [exact Ns|lia].
  - rewrite Ho. repeat split.
  - split; [exact D3|]. split; [lia|]. rewrite Hh, !decide_False by congruence. exact Z2.
  - unfold u64_ok in *. lia.
  - unfold u64_ok, SIZE_MAX in *. lia.
  - rewrite (cb_length _ _ _ C'). exact Lb.
  - rewrite Hs. intros b2 f2 b' L' E2 F2. rewrite E2 in Eb. rewrite F2 in Ef. injection Eb as ->. injection Ef as ->.
    rewrite (cb_length _ _ _ C') in L'. pose proof (Cu b' L'). assert (at_budget bi (sg_capacity (w_stores w !!! si) + private f) b' ≤ used w b'); [|lia].
    unfold at_budget. case_decide; [by subst|]. apply b_used_nonneg, (budget_ok _ _ O L').
Qed.

Lemma transform_prepared_spec w input si b place config op w' : world_ready w input si b place → config_ok config →
  tr_message_transform_prepare b_limit (Some input) (Some config) (Some b) (Some false) true place w = (TR_OK, Some op, w') →
  accepted w w' input si b place op ∧ tm_config op = config.
Proof.
  intros [[O Lb] [Rl Ul] (D1 & D2 & D3) (L1 & L2 & Z1 & Z2) [Ls Zs]] Cfg E. unfold tr_message_transform_prepare in E.
  destruct (b_limit _ =? 0); [discriminate|]. unfold tr_message_view_of in E. cbn [negb] in E. rewrite (proj2 (rl_handle _ _ _ Rl)) in E.
  rewrite bool_decide_eq_true_2 in E by (by eexists). cbn [negb vw_len] in E.
  destruct (tr_message_zstd_plan _ _) as [[] [capacity|]] eqn:Pl; try discriminate. pose proof (plan_capacity _ _ _ Cfg Ul Pl) as Uc.
  destruct Cfg as [Uw _]. destruct (_ >? SIZE_MAX - _ - _) eqn:Sz; [discriminate|]. set (reservation := _ + _ + _) in E.
  unfold sizeof_transform, sizeof_transform_output, SIZE_MAX in Sz. unfold u64_ok in Uw.
  destruct (b_reserve _ reservation) as [r x] eqn:Rs. destruct r; cbn [is_ok] in E; try discriminate. 
  change (negb (is_ok TR_OK)) with false in E. cbn iota in E.
  assert (C1 := reserve_exact w b reservation x O Lb ltac:(unfold u64_ok, reservation, sizeof_transform, sizeof_transform_output; lia) Rs).
  set (w1 := set_budget w b x) in *. unfold tr_message_storage_reserve in E. change (w_stores w1) with (w_stores w) in E. rewrite Zs in E.
  cbn [sg_state zero_storage] in E. rewrite bool_decide_eq_false_2 in E by (intros X; by destruct X).
  set (cap := if capacity =? 0 then 1 else capacity) in E. assert (Ucap : u64_ok cap) by (subst cap; unfold u64_ok in *; destruct (_ =? 0); lia).
  destruct (b_reserve (w_budgets w1 !!! b) cap) as [r2 y] eqn:Rs2. destruct r2; cbn [is_ok] in E; try discriminate.
  change (negb (is_ok TR_OK)) with false in E. cbn iota in E.
  assert (C2 := reserve_exact w1 b cap y (cb_ok _ _ _ C1) ltac:(rewrite (cb_length _ _ _ C1); exact Lb) Ucap Rs2).
  set (w2 := set_budget w1 b y) in *. set (w3 := set_store w2 _ _) in E. unfold tr_message_none_move in E.
  change (w_handles w3) with (w_handles w) in E. rewrite (proj2 (Nat.eqb_neq _ _)) in E by congruence. rewrite (proj2 (rl_handle _ _ _ Rl)), Z1 in E.
  rewrite bool_decide_eq_true_2 in E by (by eexists). rewrite bool_decide_eq_false_2 in E by (by intros []).
  cbn [negb orb max_decoded_bytes max_encoded_bytes tr_transform_move_limits] in E.
  replace (mg_len (w_handles w !!! input) >? SIZE_MAX) with false in E by (unfold u64_ok, SIZE_MAX in *; lia). cbn [orb negb] in E.
  change (negb (is_ok TR_OK)) with false in E. cbn iota in E. injection E as <- <-. split; [|reflexivity].
  pose proof (charged_trans _ _ _ _ _ C1 C2) as C. apply (accepted_built w input si b place config capacity w2); try assumption.
  - split; [split; assumption|split; assumption|repeat split; assumption|repeat split; assumption|split; assumption].
  - reflexivity.
  - reflexivity.
  - eapply charged_ext; [|exact C]. intros b'. unfold at_budget, reservation. case_decide; subst cap; lia.
Qed.

Lemma finish_spec op w w' si s pub outcome o : callback_ok provider → prepared op w si s → settled op w w' si s pub →
  (is_Some pub ↔ outcome = TR_MESSAGE_TRANSFORM_OK) → o ≠ tm_input op → o ≠ tm_output op → (o < length (w_handles w))%nat → w_handles w !!! o = zero_message →
  ∃ w2, tr_message_transform_finish provider (Some (set_tm_outcome (set_tm_state (clear_reserved_output op) TR_TRANSFORM_DONE) outcome)) true (Some o) w' = (TR_OK, None, Some outcome, w2) ∧
    charged_by w w2 (λ b, - gives (w_stores w !!! si) b -
      at_budget (tm_budget op) (sizeof_transform + workspace_bytes op + match pub with Some _ => 0 | None => sizeof_transform_output + reserved_bytes op end) b) ∧
    w_handles w2 !!! o = default zero_message pub ∧ w_handles w2 !!! tm_input op = zero_message ∧ w_handles w2 !!! tm_output op = zero_message.
Proof.
  intros Pr P S Ok N1 N2 Lo Zo. destruct S as [Hh [L1 L2] St C] eqn:S0. clear S0.
  pose proof (pr_output _ _ _ _ P) as (M1 & M2 & M3). pose proof (pr_budget _ _ _ _ P) as Bl. assert (Pd := reserved_positive op (proj1 (pr_sizes _ _ _ _ P))).
  assert (Ho : w_handles w' !!! o = zero_message) by (rewrite Hh, !decide_False by congruence; exact Zo).
  assert (Hp : w_handles w' !!! tm_output op = default zero_message pub) by (rewrite Hh, decide_False, decide_True by congruence; reflexivity).
  assert (Hi : w_handles w' !!! tm_input op = zero_message) by (by rewrite Hh, decide_True).
  assert (Cov : sizeof_transform ≤ used w' (tm_budget op)).
  { rewrite (cb_used _ _ _ C _ Bl), at_same. destruct (rl_counted _ _ _ (pr_input _ _ _ _ P)) as (b & f & Eb & Ef & _ & _ & Cp & _).
    pose proof (pr_covered _ _ _ _ P b f (tm_budget op) Bl Eb Ef) as Q. rewrite at_same in Q. pose proof (private_nonneg f). unfold gives. rewrite Eb, Ef.
    unfold sizeof_transform, sizeof_transform_output in *. unfold at_budget in *. destruct (_ =? 1), pub; case_decide; lia. }
  unfold tr_message_transform_finish. cbn [negb tm_state tm_outcome tm_output tm_budget set_tm_outcome set_tm_state clear_reserved_output].
  assert (V : (tr_message_view_of (Some o) true w').1 = TR_ERR_STATE).
  { unfold tr_message_view_of. cbn [negb]. rewrite bool_decide_eq_false_2; [reflexivity|]. rewrite Ho. by intros []. }
  rewrite (bool_decide_eq_true_2 _ V). cbn [negb]. change (TR_TRANSFORM_DONE =? TR_TRANSFORM_DONE) with true. cbn [negb].
  change (held_output (set_tm_outcome (set_tm_state (clear_reserved_output op) TR_TRANSFORM_DONE) outcome) w') with (held_output op w').
  destruct pub as [m|].
  - rewrite (proj1 Ok) by (by eexists). rewrite bool_decide_eq_true_2 by reflexivity. destruct St as (St & Ms & Fit). change (default zero_message (Some m)) with m in Hp |- *. unfold tr_message_none_move.
    rewrite (proj2 (Nat.eqb_neq _ _)) by congruence.
    rewrite (bool_decide_eq_true_2 (is_Some (mg_storage (w_handles w' !!! tm_output op)))) by (rewrite Hp, Ms; by eexists).
    rewrite (bool_decide_eq_false_2 (is_Some (mg_storage (w_handles w' !!! o)))) by (rewrite Ho; by intros []). rewrite Hp.
    cbn [negb orb max_decoded_bytes max_encoded_bytes tr_transform_move_limits].
    assert (mg_len m ≤ SIZE_MAX) by (pose proof (pr_capacity _ _ _ _ P); unfold reserved_bytes, SIZE_MAX in *; destruct (_ =? 0); lia).
    replace (mg_len m >? SIZE_MAX) with false by lia. cbn [orb]. change (is_ok TR_OK) with true. cbn [negb]. set (w2 := set_handle (set_handle w' o _) _ zero_message).
    assert (C2 : charged_by w w2 (λ b, - gives (w_stores w !!! si) b - at_budget (tm_budget op) (workspace_bytes op + 0) b)) by (destruct C; split; assumption).
    destruct (release_budget_exact w2 (tm_budget op) sizeof_transform (cb_ok _ _ _ C2)) as (x & -> & C3); [rewrite (cb_length _ _ _ C2); exact Bl|unfold sizeof_transform in *; split; [lia|exact Cov]|].
    eexists. split; [reflexivity|]. split; [eapply charged_ext; [|exact (charged_trans _ _ _ _ _ C2 C3)]; intros b; unfold at_budget; case_decide; lia|].
    cbn. rewrite list_lookup_total_insert_ne, list_lookup_total_insert_eq by (congruence || lia). split; [reflexivity|]. split.
    + rewrite list_lookup_total_insert_ne, list_lookup_total_insert_ne by congruence. exact Hi.
    + apply list_lookup_total_insert_eq. rewrite length_insert. lia.
  - rewrite bool_decide_eq_false_2 by (intros X; apply Ok in X as [? X]; discriminate). assert (E : held_output op w' = false).
    { unfold held_output, tr_message_view_of. cbn [negb]. rewrite Hp. reflexivity. }
    rewrite E. change (is_ok TR_OK) with true. cbn [negb].
    destruct (release_budget_exact w' (tm_budget op) sizeof_transform (cb_ok _ _ _ C)) as (x & -> & C3); [rewrite (cb_length _ _ _ C); exact Bl|unfold sizeof_transform in *; split; [lia|exact Cov]|].
    eexists. split; [reflexivity|]. split; [eapply charged_ext; [|exact (charged_trans _ _ _ _ _ C C3)]; intros b; unfold at_budget; case_decide; lia|].
    cbn. rewrite Ho, Hi, Hp. repeat split.
Qed.

End Ends.

(** * The properties *)

Section Properties.
Context {B : Type} `{!Budget B} `{!Inhabited B} `{!Zstd} `{!ZstdCalls}.
Context (b_limit : B → Z) (provider : Z → Z → world B → world B) (memory : option Z → Z → list Z) (malloc : option Z).
Context (Pr : callback_ok provider).
Implicit Types (w : world B) (op : tr_message_transform).

(** A run of an operation that [prepare] accepted in [w0], among cancellers. *)
Record a_run w0 (input si b : nat) (place : transform_place) (config : tr_message_transform_config) op w1 (r : run_state B) : Prop := {
  ar_ready : world_ready w0 input si b place;
  ar_config : config_ok config;
  ar_accepted : tr_message_transform_prepare b_limit (Some input) (Some config) (Some b) (Some false) true place w0 = (TR_OK, Some op, w1);
  ar_steps : rtc (transform_step provider memory malloc) (mk_run op w1 Idle []) r
}.

Lemma a_run_inv w0 input si b place config op w1 r : a_run w0 input si b place config op w1 r →
  accepted w0 w1 input si b place op ∧ tm_config op = config ∧ run_inv memory malloc op w1 si (pl_storage place) r.
Proof.
  intros [R C A S]. destruct (transform_prepared_spec _ _ _ _ _ _ _ _ _ R C A) as [Ac E]. split; [exact Ac|]. split; [exact E|].
  apply (inv_reached provider); [exact Pr|apply (ac_prepared _ _ _ _ _ _ _ Ac)|apply (ac_op _ _ _ _ _ _ _ Ac)|exact S].
Qed.

(** C14: Whatever the cancellers do, when the run has ended: the outcome is
    [TR_MESSAGE_TRANSFORM_CANCELLED] exactly when a request to cancel was accepted; otherwise it
    is what the compression comes to that is never told to stop; there is an output exactly when
    the outcome is [TR_MESSAGE_TRANSFORM_OK]; and from then on requests to cancel are refused. *)
Theorem transform_cancel_decides w0 input si b place config op w1 r : a_run w0 input si b place config op w1 r → rs_pc r = Finished →
  (tm_outcome (rs_op r) = TR_MESSAGE_TRANSFORM_CANCELLED ↔ TR_OK ∈ rs_cancels r) ∧
  (TR_OK ∉ rs_cancels r → ∃ cancelled, true ∉ cancelled ∧
     (λ x, x.1.1.1) <$> tr_transform_execute memory op w1 malloc cancelled = Some (tm_outcome (rs_op r))) ∧
  (held_output (rs_op r) (rs_world r) = true ↔ tm_outcome (rs_op r) = TR_MESSAGE_TRANSFORM_OK) ∧
  tr_message_transform_cancel (Some (rs_op r)) = (TR_ERR_STATE, Some (rs_op r)).
Proof.
  intros R F. destruct (a_run_inv _ _ _ _ _ _ _ _ _ R) as (Ac & _ & I). pose proof (ac_prepared _ _ _ _ _ _ _ Ac) as P.
  inversion I as [| | | |? ? ? ? ? ? ? Hpc| |w' cs In S|w' cd cs o pub In T N Rs S]; subst; cbn [rs_pc] in F; try discriminate; [by destruct Hpc; subst| |];
    cbn [rs_op rs_world rs_cancels tm_outcome set_tm_outcome]; (split; [split; [auto|]|split; [|split; [|reflexivity]]]).
  - auto.
  - intros X. by destruct X.
  - change (held_output (set_tm_outcome _ _) w') with (held_output op w'). rewrite (held_output_spec op w1 w' si _ None P S). split; [|discriminate].
    rewrite bool_decide_eq_false_2 by (by intros []). discriminate.
  - intros X. by destruct (N X).
  - intros X. by destruct (In X).
  - intros _. exists cd. split; [exact T|apply Rs].
  - change (held_output (set_tm_outcome _ _) w') with (held_output op w'). rewrite (held_output_spec op w1 w' si _ pub P S). destruct Rs as [_ Rs].
    destruct pub as [m|]; [rewrite bool_decide_eq_true_2 by (by eexists); tauto|]. rewrite bool_decide_eq_false_2 by (by intros []). split; [discriminate|intros X; by destruct Rs].
Qed.

(** C16: After the run, [finish] takes the outcome and leaves no operation.  Together with [prepare]
    and the run it has given back everything but what the input's release gave back of its own,
    and, when it succeeded, the capacity and the control block of the output, whose message it
    has moved to the caller.  The operation's handles are empty. *)
Theorem transform_accounting w0 input si b place config op w1 r out :
  a_run w0 input si b place config op w1 r → rs_pc r = Finished → out ≠ input → out ≠ pl_input place → out ≠ pl_output place →
  (out < length (w_handles w0))%nat → w_handles w0 !!! out = zero_message →
  ∃ w2, tr_message_transform_finish provider (Some (rs_op r)) true (Some out) (rs_world r) = (TR_OK, None, Some (tm_outcome (rs_op r)), w2) ∧
    (∀ b', (b' < length (w_budgets w0))%nat → used w2 b' = used w0 b' - gives (w_stores w0 !!! si) b' +
       (if bool_decide (tm_outcome (rs_op r) = TR_MESSAGE_TRANSFORM_OK) then at_budget b (sizeof_transform_output + reserved_bytes op) b' else 0)) ∧
    (if bool_decide (tm_outcome (rs_op r) = TR_MESSAGE_TRANSFORM_OK)
     then ∃ data length, malloc = Some data ∧ 0 ≤ length ≤ tm_capacity op ∧ w_handles w2 !!! out = mk_message (Some data) length (Some (pl_storage place))
     else w_handles w2 !!! out = zero_message) ∧
    w_handles w2 !!! pl_input place = zero_message ∧ w_handles w2 !!! pl_output place = zero_message.
Proof.
  intros R F N1 N2 N3 Lo Zo. destruct (a_run_inv _ _ _ _ _ _ _ _ _ R) as (Ac & _ & I). destruct Ac as [P (_ & Eb & Ei & Eo) C Hh [L1 _] Es].
  assert (Ho : w_handles w1 !!! out = zero_message) by (rewrite Hh, !decide_False by congruence; exact Zo).
  assert (Fin : ∃ o pub w', r = mk_run (set_tm_outcome (set_tm_state (clear_reserved_output op) TR_TRANSFORM_DONE) o) w' Finished (rs_cancels r) ∧
    settled op w1 w' si (pl_storage place) pub ∧ (is_Some pub ↔ o = TR_MESSAGE_TRANSFORM_OK) ∧
    (∀ m, pub = Some m → ∃ data length, malloc = Some data ∧ 0 ≤ length ≤ tm_capacity op ∧ m = mk_message (Some data) length (Some (pl_storage place)))).
  { inversion I as [| | | |? ? ? ? ? ? ? Hpc| |w' cs In S|w' cd cs o pub In T N Rs S]; subst; cbn [rs_pc] in F; try discriminate; [by destruct Hpc; subst| |].
    - exists TR_MESSAGE_TRANSFORM_CANCELLED, None, w'. split; [reflexivity|]. split; [exact S|]. split; [split; [by intros []|discriminate]|discriminate].
    - exists o, pub, w'. split; [reflexivity|]. split; [exact S|]. destruct Rs as [_ Rs]. destruct pub as [m|].
      + destruct Rs as (-> & data & view & e & z & M & _ & _ & _ & _ & Fit & ->). split; [split; [auto|by eexists]|].
        intros m [= <-]. exists data, (alen z). split; [exact M|]. split; [pose proof (alen_nonneg z); lia|reflexivity].
      + split; [split; [by intros []|intros X; by destruct Rs]|discriminate]. }
  destruct Fin as (o & pub & w' & -> & S & Ok & M). cbn [rs_op rs_world tm_outcome set_tm_outcome].
  destruct (finish_spec provider op w1 w' si _ pub o out Pr P S Ok) as (w2 & E & C2 & H1 & H2 & H3); [congruence|congruence|lia|exact Ho|].
  exists w2. split; [exact E|]. split.
  - intros b' Lb. rewrite (cb_used _ _ _ C2), (cb_used _ _ _ C _ Lb), Es, Eb by (rewrite (cb_length _ _ _ C); exact Lb).
    unfold at_budget. destruct pub as [m|].
    + rewrite bool_decide_eq_true_2 by (apply Ok; by eexists). case_decide; lia.
    + rewrite bool_decide_eq_false_2 by (intros X; apply Ok in X as [? X]; discriminate). case_decide; lia.
  - rewrite <- Ei, <- Eo. split; [|split; assumption]. destruct pub as [m|].
    + rewrite bool_decide_eq_true_2 by (apply Ok; by eexists). destruct (M m eq_refl) as (data & len & Md & Fit & ->). exists data, len. split; [exact Md|]. split; [exact Fit|exact H1].
    + rewrite bool_decide_eq_false_2 by (intros X; apply Ok in X as [? X]; discriminate). exact H1.
Qed.

(** How many steps the runner has left. *)
Definition steps_left (questions : Z) (pc : run_pc) : Z :=
  match pc with
  | Idle => questions + 7
  | Executing cancelled => questions - alen cancelled + 6
  | Executed _ => 4
  | Settled _ => 3
  | Checked _ => 2
  | Lost => 1
  | Finished => 0
  end.

(** The bytes that the input views. *)
Definition input_bytes w (input : nat) : list Z := memory (mg_data (w_handles w !!! input)) (mg_len (w_handles w !!! input)).

Lemma unfinished_questions op w si s l : prepared op w si s → tr_transform_execute memory op w malloc l = None →
  alen l ≤ alen (input_bytes w (tm_input op)) + tm_capacity op + 2.
Proof.
  intros P E. pose proof (pr_sizes _ _ _ _ P) as [Z1 Z2]. pose proof (alen_nonneg (input_bytes w (tm_input op))).
  destruct (execute_none memory malloc op w l E) as [->|(l0 & data & view & -> & M & V & R)]; [change (alen []) with 0; lia|].
  rewrite alen_more. apply zstd_run_unfinished in R; [|exact Z2|exact Z1]. unfold tr_message_view_of in V. cbn [negb] in V.
  destruct (negb _); [discriminate|]. injection V as <-. cbn [vw_data vw_len] in R. unfold input_bytes. lia.
Qed.

Lemma run_can_step op w si s r : prepared op w si s → run_inv memory malloc op w si s r → rs_pc r ≠ Finished →
  ∃ r', runner_step provider memory malloc r r'.
Proof.
  intros P I N. inversion I as [st cs Bt|st cd cs Bt T Ex|st cd cs m Bt T R|st cd cs o Bt T C R|st w' cd cs o pub pc Hpc Bt T C R S|st w' cs o pub In Bt S|w' cs In S|w' cd cs o pub In T M R S];
    subst; cbn [rs_pc] in N.
  - destruct Bt as [[-> _]|[-> _]]; (eexists; apply run_claims; vm_compute; reflexivity).
  - destruct (tr_transform_execute memory (set_tm_state op st) w malloc cd) as [x|] eqn:E; [|eexists; by apply (run_asks _ _ _ _ _ _ _ false)].
    assert (x.2 = []) as X.
    { rewrite execute_state in E. destruct (tr_transform_execute memory op w malloc cd) as [y|] eqn:Y; [|discriminate]. injection E as <-. cbn.
      destruct cd as [|a l _] using rev_ind; [discriminate|]. apply (execute_last memory malloc op w l a y (Ex l a eq_refl) Y). }
    destruct x as [[[o op'] w'] rest]. cbn in X. subst rest. eexists. by apply run_executes.
  - eexists. apply run_settles.
  - eexists. apply run_settles.
  - destruct Hpc as [->| ->]; eexists; [apply (run_looks _ _ _ _ _ _ _ false)|apply run_commits].
  - eexists. apply run_abandons.
  - done.
  - done.
Qed.

(** C35: The runner never waits for anyone: until it has ended it can take a step, whatever was
    answered before, and it takes no more than a bounded number of them. *)
Theorem transform_run_ends w0 input si b place config op w1 r :
  a_run w0 input si b place config op w1 r →
  let questions := alen (input_bytes w0 input) + tm_capacity op + 3 in
  (rs_pc r ≠ Finished → ∃ r', runner_step provider memory malloc r r') ∧
  (∀ r', runner_step provider memory malloc r r' → 0 ≤ steps_left questions (rs_pc r') < steps_left questions (rs_pc r)) ∧
  (∀ r', transform_step provider memory malloc r r' → runner_step provider memory malloc r r' ∨ rs_pc r' = rs_pc r).
Proof.
  intros R. destruct (a_run_inv _ _ _ _ _ _ _ _ _ R) as (Ac & _ & I). destruct Ac as [P (_ & _ & Ei & _) _ Hh _ _].
  assert (In : input_bytes w1 (tm_input op) = input_bytes w0 input).
  { pose proof (wr_distinct _ _ _ _ _ (ar_ready _ _ _ _ _ _ _ _ _ R)) as (D & _). unfold input_bytes. rewrite Ei, Hh, decide_False, decide_True by congruence. reflexivity. }
  cbv zeta. rewrite <- In. pose proof (alen_nonneg (input_bytes w1 (tm_input op))). pose proof (proj1 (pr_sizes _ _ _ _ P)). split; [|split].
  - intros N. destruct (run_can_step op w1 si _ r P I N) as [r' S]. by exists r'.
  - intros r' S. destruct S as [op1 w2 cs st Cl|op1 w2 cd cs asked E|op1 w2 cd cs o op2 w3 E|op1 w2 o cs|op1 w2 o cs asked|op1 w2 o cs|op1 w2 cs]; cbn [rs_pc steps_left].
    + change (alen []) with 0. lia.
    + inversion I as [|st cd0 cs0 Bt T Ex| | |? ? ? ? ? ? ? Hpc| | |]; subst; [|by destruct Hpc]. rewrite execute_state in E. apply fmap_None in E.
      pose proof (unfinished_questions op w2 si _ cd P E). rewrite alen_append, alen_more. change (alen []) with 0. lia.
    + inversion I as [|st cd0 cs0 Bt T Ex| | |? ? ? ? ? ? ? Hpc| | |]; subst; [|by destruct Hpc].
      destruct cd as [|a l _] using rev_ind; [discriminate|]. pose proof (unfinished_questions op w2 si _ l P (Ex l a eq_refl)).
      rewrite alen_append, alen_more. change (alen []) with 0. lia.
    + lia.
    + lia.
    + destruct (tm_state op1 =? TR_TRANSFORM_RUNNING); cbn; lia.
    + lia.
  - intros r' S. destruct S as [r r' S|]; [by left|by right].
Qed.

End Properties.

(** * Witnesses *)

(** Three bytes are compressed under a budget of 4000; another handle waits for the output. *)
Definition demo_transform_budget : budget_ref := mk_budget_ref (mk_budget 4000 3 3 0) None.
Definition demo_transform_world : world budget_ref :=
  mk_world [mk_storage 1 (Some 0%nat) 3 (Some 7) 0 TR_MESSAGE_STORAGE_LIVE; zero_storage]
    [mk_message (Some 4096) 3 (Some 0%nat); zero_message; zero_message; zero_message] [demo_transform_budget] [].
Definition demo_place : transform_place := mk_place 1 2 1.
Definition demo_memory (data : option Z) (len : Z) : list Z := if bool_decide (data = Some 4096) then take (Z.to_nat len) [5; 6; 7] else [].
Definition demo_limit (b : budget_ref) : Z := limit_bytes (br_self b).

Definition demo_transform_prepare :=
  tr_message_transform_prepare demo_limit (Some 0%nat) (Some demo_encode) (Some 0%nat) (Some false) true demo_place demo_transform_world.
Definition demo_transform : tr_message_transform := mk_transform TR_TRANSFORM_READY demo_encode 0 1 2 (Some 1%nat) 7 TR_MESSAGE_TRANSFORM_OK.

Lemma demo_transform_ready : world_ready demo_transform_world 0 0 0 demo_place.
Proof.
  split; cbn.
  - split; [|lia]. repeat constructor; cbn; word_lia.
  - split; [|unfold u64_ok; lia]. split; cbn; [split; [lia|reflexivity]..|unfold UINT32_MAX; lia|].
    exists 0%nat, 7. split; [reflexivity|]. split; [reflexivity|]. split; [cbn; lia|]. split; [discriminate|]. vm_compute. split; discriminate.
  - repeat split; discriminate.
  - repeat split; lia.
  - split; [lia|reflexivity].
Qed.

Lemma demo_transform_accepted : demo_transform_prepare = (TR_OK, Some demo_transform, demo_transform_prepare.2).
Proof. vm_compute. reflexivity. Qed.

(** The runner's next state, nobody having asked. *)
Definition runner_next (r : run_state budget_ref) : run_state budget_ref :=
  match r with
  | mk_run op w Idle cancels => match run_claim (tm_state op) with Some state => mk_run (set_tm_state op state) w (Executing []) cancels | None => r end
  | mk_run op w (Executing cancelled) cancels =>
      match tr_transform_execute demo_memory op w (Some 8192) cancelled with
      | None => mk_run (tr_transform_cancelled false op cancels).1.2 w (Executing (cancelled ++ [(tr_transform_cancelled false op cancels).1.1])) (tr_transform_cancelled false op cancels).2
      | Some (outcome, op', w', []) => mk_run op' w' (Executed outcome) cancels
      | Some _ => r
      end
  | mk_run op w (Executed outcome) cancels =>
      mk_run (run_settle recycle op w outcome).1.2 (run_settle recycle op w outcome).2 (Settled (run_settle recycle op w outcome).1.1) cancels
  | mk_run op w (Settled outcome) cancels =>
      mk_run (tr_transform_cancelled false op cancels).1.2 w (Checked outcome) (tr_transform_cancelled false op cancels).2
  | mk_run op w (Checked outcome) cancels =>
      if tm_state op =? TR_TRANSFORM_RUNNING then mk_run (set_tm_state (set_tm_outcome op outcome) TR_TRANSFORM_DONE) w Finished cancels
      else mk_run (set_tm_outcome op outcome) w Lost cancels
  | mk_run op w Lost cancels => mk_run (run_abandon recycle op w).1 (run_abandon recycle op w).2 Finished cancels
  | mk_run op w Finished cancels => r
  end.

Lemma runner_next_step r : rtc (transform_step recycle demo_memory (Some 8192)) r (runner_next r).
Proof.
  assert (Once : ∀ r', runner_step recycle demo_memory (Some 8192) r r' → rtc (transform_step recycle demo_memory (Some 8192)) r r')
    by (intros r' S; apply rtc_once, step_runner, S).
  destruct r as [op w [|cd|o|o|o| |] cs]; cbn [runner_next]; try apply rtc_refl; try (apply Once; constructor).
  - destruct (run_claim _) eqn:E; [apply Once; by constructor|apply rtc_refl].
  - destruct (tr_transform_execute _ _ _ _ _) as [[[[o op'] w'] [|a l]]|] eqn:E; [|apply rtc_refl|]; apply Once; by constructor.
Qed.

Lemma runner_nexts n r : rtc (transform_step recycle demo_memory (Some 8192)) r (Nat.iter n runner_next r).
Proof. induction n as [|n IH]; cbn; [apply rtc_refl|]. etrans; [exact IH|apply runner_next_step]. Qed.

Definition demo_transform_start : run_state budget_ref := mk_run demo_transform demo_transform_prepare.2 Idle [].
Definition demo_transform_run : run_state budget_ref := Nat.iter 20 runner_next demo_transform_start.

(** Cancelled when the output is there already, and just before the runner commits it. *)
Definition demo_transform_late : run_state budget_ref :=
  match Nat.iter 10 runner_next demo_transform_start with
  | mk_run op w pc cancels => mk_run (cancel_once op cancels).1 w pc (cancel_once op cancels).2
  end.
Definition demo_transform_cancelled : run_state budget_ref := Nat.iter 5 runner_next demo_transform_late.

Lemma demo_transform_run_ok r : rtc (transform_step recycle demo_memory (Some 8192)) demo_transform_start r →
  a_run demo_limit recycle demo_memory (Some 8192) demo_transform_world 0 0 0 demo_place demo_encode demo_transform demo_transform_prepare.2 r.
Proof. intros R. split; [exact demo_transform_ready|unfold config_ok, u64_ok; cbn; lia|exact demo_transform_accepted|exact R]. Qed.

Lemma demo_late_reached : rtc (transform_step recycle demo_memory (Some 8192)) demo_transform_start demo_transform_late.
Proof.
  unfold demo_transform_late. etrans; [apply (runner_nexts 10)|].
  destruct (Nat.iter 10 runner_next demo_transform_start) as [op w pc cs]. apply rtc_once, step_cancel.
Qed.

Lemma demo_cancelled_reached : rtc (transform_step recycle demo_memory (Some 8192)) demo_transform_start demo_transform_cancelled.
Proof. unfold demo_transform_cancelled. etrans; [apply demo_late_reached|apply runner_nexts]. Qed.

Lemma transform_cancel_decides_witness :
  rs_cancels demo_transform_cancelled = [TR_OK] ∧ tm_outcome (rs_op demo_transform_cancelled) = TR_MESSAGE_TRANSFORM_CANCELLED ∧
  held_output (rs_op demo_transform_run) (rs_world demo_transform_run) = true.
Proof.
  split; [vm_compute; reflexivity|]. split.
  - apply (transform_cancel_decides demo_limit recycle demo_memory (Some 8192) recycle_ok _ _ _ _ _ _ _ _ _ (demo_transform_run_ok _ demo_cancelled_reached)); vm_compute; [reflexivity|left].
  - apply (transform_cancel_decides demo_limit recycle demo_memory (Some 8192) recycle_ok _ _ _ _ _ _ _ _ _ (demo_transform_run_ok _ (runner_nexts 20 _))); vm_compute; reflexivity.
Defined.

Lemma transform_accounting_witness : ∃ w2,
  tr_message_transform_finish recycle (Some (rs_op demo_transform_run)) true (Some 3%nat) (rs_world demo_transform_run) =
    (TR_OK, None, Some TR_MESSAGE_TRANSFORM_OK, w2) ∧ used w2 0 = 71.
Proof.
  destruct (transform_accounting demo_limit recycle demo_memory (Some 8192) recycle_ok _ _ _ _ _ _ _ _ _ 3 (demo_transform_run_ok demo_transform_run (runner_nexts 20 _)))
    as (w2 & E & U & _).
  - vm_compute. reflexivity.
  - discriminate.
  - discriminate.
  - discriminate.
  - cbn. lia.
  - reflexivity.
  - exists w2. split; [exact E|]. rewrite (U 0%nat) by (cbn; lia). vm_compute. reflexivity.
Defined.

Lemma transform_run_ends_witness : ∃ r, runner_step recycle demo_memory (Some 8192) demo_transform_late r.
Proof.
  apply (transform_run_ends demo_limit recycle demo_memory (Some 8192) recycle_ok _ _ _ _ _ _ _ _ demo_transform_late (demo_transform_run_ok _ demo_late_reached)).
  vm_compute. discriminate.
Defined.
