(* ===== verification/RpcRecord.v ===== *)
(** RPC call records: [src/rpc/rpc_record.c] and [rpc_record.h].

    A record is a fixed header of 48 bytes, metadata and an encoded body.  The file holds
    the header codec, the incremental decoder, and the state of one call: which records
    may follow which, in both directions.

    Theorems: encoding and decoding are inverse; a decoder's answer does not change when
    more bytes arrive, and asks for more exactly on proper prefixes of records; the call
    state accepts exactly the sequences of a declarative grammar; the first terminal wins. *)
From S2P Require Import Prelude Status Endian.

(** * Constants and data *)

Definition TR_RPC_METADATA_MAX_BYTES : Z := 512.
Definition TR_RPC_STATUS_OK : Z := 0.
Definition TR_RPC_STATUS_CANCELLED : Z := 1.
Definition TR_RPC_STATUS_INVALID_ARGUMENT : Z := 3.
Definition TR_RPC_STATUS_DEADLINE_EXCEEDED : Z := 4.
Definition TR_RPC_STATUS_RESOURCE_EXHAUSTED : Z := 8.
Definition TR_RPC_STATUS_OUT_OF_RANGE : Z := 11.
Definition TR_RPC_STATUS_INTERNAL : Z := 13.
Definition TR_RPC_STATUS_UNAVAILABLE : Z := 14.
Definition TR_RPC_STATUS_DATA_LOSS : Z := 15.
Definition TR_RPC_STATUS_COUNT : Z := 17.

(** [enum tr_rpc_cardinality] *)
Definition TR_RPC_NONE : Z := 0.
Definition TR_RPC_ONE : Z := 1.
Definition TR_RPC_MANY : Z := 2.

Definition TR_RPC_RECORD_VERSION : Z := 2.
Definition TR_RPC_RECORD_HEADER_SIZE : Z := 48.

(** [enum tr_rpc_record_kind]; a kind read from the wire may be none of them. *)
Definition TR_RPC_RECORD_OPEN : Z := 1.
Definition TR_RPC_RECORD_INITIAL_METADATA : Z := 2.
Definition TR_RPC_RECORD_MESSAGE : Z := 3.
Definition TR_RPC_RECORD_HALF_CLOSE : Z := 4.
Definition TR_RPC_RECORD_FINAL_STATUS : Z := 5.

Definition TR_RPC_RECORD_NONE : Z := 0.
Definition TR_RPC_RECORD_ZSTD : Z := 1.
Definition TR_RPC_RECORD_ACCEPT_NONE : Z := u32 (Z.shiftl 1 TR_RPC_RECORD_NONE).
Definition TR_RPC_RECORD_ACCEPT_ZSTD : Z := u32 (Z.shiftl 1 TR_RPC_RECORD_ZSTD).

Record tr_rpc_record_header := mk_rh {
  rh_kind : Z;
  rh_service_id : Z;
  rh_method_id : Z;
  rh_codec_id : Z;
  rh_compression : Z;
  rh_encoded_size : Z;
  rh_decoded_size : Z;
  rh_metadata_size : Z;
  rh_status : Z;
  rh_remaining_timeout_ns : Z
}.

Record tr_rpc_record_limits := mk_rl {
  max_encoded_size : Z;
  max_decoded_size : Z;
  max_metadata_size : Z;
  accepted_compression : Z
}.

(** The pointers of a view are offsets into the input. *)
Record tr_rpc_record_view := mk_rv {
  rv_header : tr_rpc_record_header;
  rv_metadata : option Z;
  rv_body : option Z
}.

(** * The header codec *)

Definition tr_rpc_record_kind_valid (kind : Z) : bool :=
  (kind >=? TR_RPC_RECORD_OPEN) && (kind <=? TR_RPC_RECORD_FINAL_STATUS).

Definition tr_rpc_record_limits_valid (limits : option tr_rpc_record_limits) : bool :=
  let supported := Z.lor TR_RPC_RECORD_ACCEPT_NONE TR_RPC_RECORD_ACCEPT_ZSTD in
  match limits with
  | None => false
  | Some l =>
      (max_metadata_size l <=? TR_RPC_METADATA_MAX_BYTES) &&
      negb (Z.land (accepted_compression l) TR_RPC_RECORD_ACCEPT_NONE =? 0) &&
      (Z.land (accepted_compression l) (u32 (Z.lnot supported)) =? 0)
  end.

(** A C integer as a condition. *)
Definition nz (v : Z) : bool := negb (v =? 0).

(** The total is written on success only. *)
Definition tr_rpc_record_validate (h : option tr_rpc_record_header)
    (limits : option tr_rpc_record_limits) : tr_status * option Z :=
  match h, limits with
  | Some h, Some l =>
      bail (TR_ERR_INVALID, None) when (negb (tr_rpc_record_limits_valid limits)) ;;
      bail (TR_ERR_BAD_TYPE, None) when (negb (tr_rpc_record_kind_valid (rh_kind h))) ;;
      bail (TR_ERR_BAD_LENGTH, None) when
        ((rh_metadata_size h >? max_metadata_size l) || (rh_encoded_size h >? max_encoded_size l) ||
         (rh_decoded_size h >? max_decoded_size l)) ;;
      let size := u64 (TR_RPC_RECORD_HEADER_SIZE + rh_metadata_size h) in
      bail (TR_ERR_BAD_LENGTH, None) when (rh_encoded_size h >? SIZE_MAX - size) ;;
      let size := u64 (size + rh_encoded_size h) in
      bail (TR_ERR_BAD_FLAGS, None) when
        (negb (rh_kind h =? TR_RPC_RECORD_OPEN) &&
         (nz (rh_service_id h) || nz (rh_method_id h) || nz (rh_remaining_timeout_ns h))) ;;
      bail (TR_ERR_BAD_FLAGS, None) when
        (negb (rh_kind h =? TR_RPC_RECORD_FINAL_STATUS) && nz (rh_status h)) ;;
      if negb (rh_kind h =? TR_RPC_RECORD_MESSAGE) then
        bail (TR_ERR_BAD_FLAGS, None) when
          (nz (rh_codec_id h) || nz (rh_compression h) || nz (rh_encoded_size h) ||
           nz (rh_decoded_size h)) ;;
        bail (TR_ERR_BAD_FLAGS, None) when
          ((rh_kind h =? TR_RPC_RECORD_HALF_CLOSE) && nz (rh_metadata_size h)) ;;
        bail (TR_ERR_BAD_TYPE, None) when
          ((rh_kind h =? TR_RPC_RECORD_FINAL_STATUS) && (rh_status h >=? TR_RPC_STATUS_COUNT)) ;;
        (TR_OK, Some size)
      else
        bail (TR_ERR_BAD_FLAGS, None) when (nz (rh_metadata_size h)) ;;
        bail (TR_ERR_BAD_TYPE, None) when (negb (nz (rh_codec_id h))) ;;
        bail (TR_ERR_UNSUPPORTED, None) when
          ((rh_compression h >? TR_RPC_RECORD_ZSTD) ||
           (Z.land (accepted_compression l) (u32 (Z.shiftl 1 (rh_compression h))) =? 0)) ;;
        bail (TR_ERR_BAD_LENGTH, None) when
          (((rh_compression h =? TR_RPC_RECORD_NONE) &&
            negb (rh_encoded_size h =? rh_decoded_size h)) ||
           (negb (rh_compression h =? TR_RPC_RECORD_NONE) && negb (nz (rh_encoded_size h)))) ;;
        (TR_OK, Some size)
  | _, _ => (TR_ERR_INVALID, None)
  end.

(** ['T', 'R', 'P', 'C'] *)
Definition record_magic : list Z := [0x54; 0x52; 0x50; 0x43].

Definition tr_rpc_record_encode_header (out : option (list Z)) (capacity : Z)
    (header : option tr_rpc_record_header) (limits : option tr_rpc_record_limits)
    : tr_status * option (list Z) :=
  match out with
  | None => (TR_ERR_INVALID, None)
  | Some old =>
      let '(ret, _) := tr_rpc_record_validate header limits in
      bail (ret, out) when (negb (is_ok ret)) ;;
      match header with
      | None => (ret, out)
      | Some header =>
          bail (TR_ERR_BAD_LENGTH, out) when (capacity <? TR_RPC_RECORD_HEADER_SIZE) ;;
          let bytes := put_at (replicate (Z.to_nat TR_RPC_RECORD_HEADER_SIZE) 0) 0 record_magic in
          let bytes := put_at bytes 4 (tr_put_le16 TR_RPC_RECORD_VERSION) in
          let bytes := put_at bytes 6 (tr_put_le16 (u16 (rh_kind header))) in
          let bytes := put_at bytes 8 (tr_put_le32 (rh_service_id header)) in
          let bytes := put_at bytes 12 (tr_put_le32 (rh_method_id header)) in
          let bytes := put_at bytes 16 (tr_put_le32 (rh_codec_id header)) in
          let bytes := put_at bytes 20 (tr_put_le32 (rh_compression header)) in
          let bytes := put_at bytes 24 (tr_put_le32 (rh_encoded_size header)) in
          let bytes := put_at bytes 28 (tr_put_le32 (rh_decoded_size header)) in
          let bytes := put_at bytes 32 (tr_put_le32 (rh_metadata_size header)) in
          let bytes := put_at bytes 36 (tr_put_le32 (rh_status header)) in
          let bytes := put_at bytes 40 (tr_put_le64 (rh_remaining_timeout_ns header)) in
          (TR_OK, Some (put_at old 0 bytes))
      end
  end.

(** [out] and [record_size] tell whether the pointers are set; what they get is returned. *)
Definition tr_rpc_record_decode_header (data : option (list Z)) (size : Z)
    (limits : option tr_rpc_record_limits) (out record_size : bool)
    : tr_status * option (tr_rpc_record_header * Z) :=
  bail (TR_ERR_INVALID, None) when
    (negb (bool_decide (is_Some data)) && nz size || negb out || negb record_size ||
     negb (tr_rpc_record_limits_valid limits)) ;;
  let data := default [] data in
  bail (TR_AGAIN, None) when (size <? 4) ;;
  bail (TR_ERR_BAD_MAGIC, None) when (negb (bool_decide (take 4 data = record_magic))) ;;
  bail (TR_AGAIN, None) when (size <? 6) ;;
  bail (TR_ERR_BAD_VERSION, None) when
    (negb (tr_get_le16 (at_off data 4) =? TR_RPC_RECORD_VERSION)) ;;
  bail (TR_AGAIN, None) when (size <? 8) ;;
  let kind := tr_get_le16 (at_off data 6) in
  bail (TR_ERR_BAD_TYPE, None) when (negb (tr_rpc_record_kind_valid kind)) ;;
  bail (TR_AGAIN, None) when (size <? TR_RPC_RECORD_HEADER_SIZE) ;;
  let h := {|
    rh_kind := kind;
    rh_service_id := tr_get_le32 (at_off data 8);
    rh_method_id := tr_get_le32 (at_off data 12);
    rh_codec_id := tr_get_le32 (at_off data 16);
    rh_compression := tr_get_le32 (at_off data 20);
    rh_encoded_size := tr_get_le32 (at_off data 24);
    rh_decoded_size := tr_get_le32 (at_off data 28);
    rh_metadata_size := tr_get_le32 (at_off data 32);
    rh_status := tr_get_le32 (at_off data 36);
    rh_remaining_timeout_ns := tr_get_le64 (at_off data 40) |} in
  let '(ret, total) := tr_rpc_record_validate (Some h) limits in
  bail (ret, None) when (negb (is_ok ret)) ;;
  (TR_OK, (λ total, (h, total)) <$> total).

Definition tr_rpc_record_decode (data : option (list Z)) (size : Z)
    (limits : option tr_rpc_record_limits) (out consumed : bool)
    : tr_status * option (tr_rpc_record_view * Z) :=
  bail (TR_ERR_INVALID, None) when (negb out || negb consumed) ;;
  match tr_rpc_record_decode_header data size limits true true with
  | (TR_OK, Some (h, total)) =>
      bail (TR_AGAIN, None) when (size <? total) ;;
      let metadata := if nz (rh_metadata_size h) then Some TR_RPC_RECORD_HEADER_SIZE else None in
      let body := if nz (rh_encoded_size h)
        then Some (TR_RPC_RECORD_HEADER_SIZE + rh_metadata_size h) else None in
      (TR_OK, Some (mk_rv h metadata body, total))
  | (ret, _) => (ret, None)
  end.

(** * The state of a call *)

Record tr_rpc_record_state := mk_rs {
  rs_request_cardinality : Z;
  rs_response_cardinality : Z;
  rs_request_messages : Z;
  rs_response_messages : Z;
  rs_final_status : Z;
  rs_initialized : bool;
  rs_opened : bool;
  rs_request_closed : bool;
  rs_response_headers : bool;
  rs_terminal : bool
}.

(** [enum tr_rpc_record_direction] *)
Definition TR_RPC_RECORD_REQUEST_DIRECTION : Z := 0.
Definition TR_RPC_RECORD_RESPONSE_DIRECTION : Z := 1.

Definition tr_rpc_record_cardinality_valid (value : Z) : bool :=
  (value =? TR_RPC_ONE) || (value =? TR_RPC_MANY).

Definition tr_rpc_record_state_init (state : option tr_rpc_record_state) (request response : Z)
    : tr_status * option tr_rpc_record_state :=
  match state with
  | None => (TR_ERR_INVALID, None)
  | Some _ =>
      bail (TR_ERR_INVALID, state) when (negb (tr_rpc_record_cardinality_valid request) ||
        negb (tr_rpc_record_cardinality_valid response)) ;;
      (TR_OK, Some (mk_rs request response 0 0 0 true false false false false))
  end.

(** The field assignments of [tr_rpc_record_state_apply]. *)
Definition set_opened (s : tr_rpc_record_state) : tr_rpc_record_state :=
  mk_rs (rs_request_cardinality s) (rs_response_cardinality s) (rs_request_messages s)
    (rs_response_messages s) (rs_final_status s) (rs_initialized s) true (rs_request_closed s)
    (rs_response_headers s) (rs_terminal s).
Definition set_terminal (s : tr_rpc_record_state) (status : Z) : tr_rpc_record_state :=
  mk_rs (rs_request_cardinality s) (rs_response_cardinality s) (rs_request_messages s)
    (rs_response_messages s) status (rs_initialized s) (rs_opened s) (rs_request_closed s)
    (rs_response_headers s) true.
Definition set_messages (s : tr_rpc_record_state) (request response : Z) : tr_rpc_record_state :=
  mk_rs (rs_request_cardinality s) (rs_response_cardinality s) request response
    (rs_final_status s) (rs_initialized s) (rs_opened s) (rs_request_closed s)
    (rs_response_headers s) (rs_terminal s).
Definition set_closed_headers (s : tr_rpc_record_state) (closed headers : bool) : tr_rpc_record_state :=
  mk_rs (rs_request_cardinality s) (rs_response_cardinality s) (rs_request_messages s)
    (rs_response_messages s) (rs_final_status s) (rs_initialized s) (rs_opened s) closed
    headers (rs_terminal s).

Definition shape_limits : tr_rpc_record_limits :=
  mk_rl UINT32_MAX UINT32_MAX TR_RPC_METADATA_MAX_BYTES
    (Z.lor TR_RPC_RECORD_ACCEPT_NONE TR_RPC_RECORD_ACCEPT_ZSTD).

(** The event on a copy [next] of an open state: the request branch and the response one. *)
Definition apply_request (next : tr_rpc_record_state) (record : tr_rpc_record_header)
    : option tr_rpc_record_state :=
  bail None when (rs_request_closed next) ;;
  if rh_kind record =? TR_RPC_RECORD_MESSAGE then
    bail None when ((rs_request_messages next =? UINT64_MAX) ||
      ((rs_request_cardinality next =? TR_RPC_ONE) && nz (rs_request_messages next))) ;;
    Some (set_messages next (u64 (rs_request_messages next + 1)) (rs_response_messages next))
  else if rh_kind record =? TR_RPC_RECORD_HALF_CLOSE then
    bail None when ((rs_request_cardinality next =? TR_RPC_ONE) &&
      negb (rs_request_messages next =? 1)) ;;
    Some (set_closed_headers next true (rs_response_headers next))
  else None.

Definition apply_response (next : tr_rpc_record_state) (record : tr_rpc_record_header)
    : option tr_rpc_record_state :=
  if rh_kind record =? TR_RPC_RECORD_INITIAL_METADATA then
    bail None when (rs_response_headers next) ;;
    Some (set_closed_headers next (rs_request_closed next) true)
  else if rh_kind record =? TR_RPC_RECORD_MESSAGE then
    bail None when (negb (rs_response_headers next) ||
      (rs_response_messages next =? UINT64_MAX) ||
      ((rs_response_cardinality next =? TR_RPC_ONE) && nz (rs_response_messages next))) ;;
    Some (set_messages next (rs_request_messages next) (u64 (rs_response_messages next + 1)))
  else if rh_kind record =? TR_RPC_RECORD_FINAL_STATUS then
    bail None when ((rh_status record =? TR_RPC_STATUS_OK) &&
      (((rs_request_cardinality next =? TR_RPC_ONE) && negb (rs_request_messages next =? 1)) ||
       ((rs_response_cardinality next =? TR_RPC_ONE) && negb (rs_response_messages next =? 1)))) ;;
    Some (set_terminal next (rh_status record))
  else None.

(** A record before the call is open. *)
Definition apply_unopened (next : tr_rpc_record_state) (direction : Z)
    (record : tr_rpc_record_header) : option tr_rpc_record_state :=
  if (rh_kind record =? TR_RPC_RECORD_OPEN) &&
     (direction =? TR_RPC_RECORD_REQUEST_DIRECTION) then Some (set_opened next)
  else if (rh_kind record =? TR_RPC_RECORD_FINAL_STATUS) &&
          (direction =? TR_RPC_RECORD_RESPONSE_DIRECTION) &&
          negb (rh_status record =? TR_RPC_STATUS_OK) then
    Some (set_terminal next (rh_status record))
  else None.

Definition tr_rpc_record_state_apply (state : option tr_rpc_record_state) (direction : Z)
    (record : option tr_rpc_record_header) : tr_status * option tr_rpc_record_state :=
  match state, record with
  | Some s, Some r =>
      bail (TR_ERR_INVALID, state) when (negb (rs_initialized s) ||
        (negb (direction =? TR_RPC_RECORD_REQUEST_DIRECTION) &&
         negb (direction =? TR_RPC_RECORD_RESPONSE_DIRECTION))) ;;
      bail (TR_ERR_STATE, state) when (rs_terminal s) ;;
      let '(ret, _) := tr_rpc_record_validate (Some r) (Some shape_limits) in
      bail (ret, state) when (negb (is_ok ret)) ;;
      let next :=
        if negb (rs_opened s) then apply_unopened s direction r
        else if direction =? TR_RPC_RECORD_REQUEST_DIRECTION then apply_request s r
        else apply_response s r in
      match next with
      | None => (TR_ERR_STATE, state)
      | Some next => (TR_OK, Some next)
      end
  | _, _ => (TR_ERR_INVALID, state)
  end.

Definition tr_rpc_record_state_abort (state : option tr_rpc_record_state) (status : Z)
    : tr_status * option tr_rpc_record_state :=
  match state with
  | None => (TR_ERR_INVALID, None)
  | Some s =>
      bail (TR_ERR_INVALID, state) when (negb (rs_initialized s) ||
        (status <=? TR_RPC_STATUS_OK) || (status >=? TR_RPC_STATUS_COUNT)) ;;
      bail (TR_ERR_STATE, state) when (rs_terminal s) ;;
      (TR_OK, Some (set_terminal s (u32 status)))
  end.

(** * The codec: specification and lemmas *)

(** The fields are values of their C types. *)
Record record_header_ok (h : tr_rpc_record_header) : Prop := {
  rho_service : u32_ok (rh_service_id h);
  rho_method : u32_ok (rh_method_id h);
  rho_codec : u32_ok (rh_codec_id h);
  rho_compression : u32_ok (rh_compression h);
  rho_encoded : u32_ok (rh_encoded_size h);
  rho_decoded : u32_ok (rh_decoded_size h);
  rho_metadata : u32_ok (rh_metadata_size h);
  rho_status : u32_ok (rh_status h);
  rho_timeout : u64_ok (rh_remaining_timeout_ns h)
}.

(** The bytes of a header, in wire order. *)
Definition record_bytes (h : tr_rpc_record_header) : list Z :=
  record_magic ++ tr_put_le16 TR_RPC_RECORD_VERSION ++ tr_put_le16 (u16 (rh_kind h)) ++
  tr_put_le32 (rh_service_id h) ++ tr_put_le32 (rh_method_id h) ++ tr_put_le32 (rh_codec_id h) ++
  tr_put_le32 (rh_compression h) ++ tr_put_le32 (rh_encoded_size h) ++
  tr_put_le32 (rh_decoded_size h) ++ tr_put_le32 (rh_metadata_size h) ++
  tr_put_le32 (rh_status h) ++ tr_put_le64 (rh_remaining_timeout_ns h).

(** The header that [record_bytes] holds, read field by field. *)
Definition record_fields (data : list Z) : tr_rpc_record_header := {|
  rh_kind := tr_get_le16 (at_off data 6);
  rh_service_id := tr_get_le32 (at_off data 8);
  rh_method_id := tr_get_le32 (at_off data 12);
  rh_codec_id := tr_get_le32 (at_off data 16);
  rh_compression := tr_get_le32 (at_off data 20);
  rh_encoded_size := tr_get_le32 (at_off data 24);
  rh_decoded_size := tr_get_le32 (at_off data 28);
  rh_metadata_size := tr_get_le32 (at_off data 32);
  rh_status := tr_get_le32 (at_off data 36);
  rh_remaining_timeout_ns := tr_get_le64 (at_off data 40) |}.

Lemma encode_header_bytes old capacity h limits total :
  tr_rpc_record_validate (Some h) limits = (TR_OK, Some total) →
  TR_RPC_RECORD_HEADER_SIZE ≤ capacity →
  tr_rpc_record_encode_header (Some old) capacity (Some h) limits =
    (TR_OK, Some (put_at old 0 (record_bytes h))).
Proof.
  intros Hv Hc. unfold tr_rpc_record_encode_header. rewrite Hv.
  change (is_ok TR_OK) with true. cbn [negb].
  destruct (Z.ltb_spec capacity TR_RPC_RECORD_HEADER_SIZE); [lia|]. reflexivity.
Qed.

Lemma bytes_ok_record h : bytes_ok (record_bytes h).
Proof.
  unfold record_bytes.
  assert (bytes_ok record_magic) by (repeat constructor; unfold u8_ok; lia). auto 15 with trpc.
Qed.
#[export] Hint Resolve bytes_ok_record : trpc.

Lemma length_record h : length (record_bytes h) = 48%nat.
Proof. reflexivity. Qed.

Lemma kind_valid_range k : tr_rpc_record_kind_valid k = true ↔ 1 ≤ k ≤ 5.
Proof.
  unfold tr_rpc_record_kind_valid, TR_RPC_RECORD_OPEN, TR_RPC_RECORD_FINAL_STATUS. split.
  - intros H. bool_to_prop. lia.
  - intros H. apply andb_true_iff. rewrite Z.geb_leb, !Z.leb_le. lia.
Qed.

(** Reading the fields back, whatever follows. *)
Lemma record_fields_bytes h rest : record_header_ok h → 0 ≤ rh_kind h < 2 ^ 16 → bytes_ok rest →
  record_fields (record_bytes h ++ rest) = h.
Proof.
  intros [] Hk Hrest.
  transitivity (mk_rh (rh_kind h) (rh_service_id h) (rh_method_id h) (rh_codec_id h)
    (rh_compression h) (rh_encoded_size h) (rh_decoded_size h) (rh_metadata_size h) (rh_status h)
    (rh_remaining_timeout_ns h)); [|by destruct h].
  unfold record_fields, record_bytes. rewrite (u16_small (rh_kind h)) by word_lia.
  rewrite <- !app_assoc. f_equal.
  - apply (get_put_le16 (rh_kind h)); [word_lia|auto 15 with trpc].
  - apply (get_put_le32 (rh_service_id h)); auto 15 with trpc.
  - apply (get_put_le32 (rh_method_id h)); auto 15 with trpc.
  - apply (get_put_le32 (rh_codec_id h)); auto 15 with trpc.
  - apply (get_put_le32 (rh_compression h)); auto 15 with trpc.
  - apply (get_put_le32 (rh_encoded_size h)); auto 15 with trpc.
  - apply (get_put_le32 (rh_decoded_size h)); auto 15 with trpc.
  - apply (get_put_le32 (rh_metadata_size h)); auto 15 with trpc.
  - apply (get_put_le32 (rh_status h)); auto 15 with trpc.
  - apply (get_put_le64 (rh_remaining_timeout_ns h) rest); auto.
Qed.

(** What a validated header guarantees. *)
Record record_valid (h : tr_rpc_record_header) (l : tr_rpc_record_limits) (total : Z) : Prop := {
  rv_kind : 1 ≤ rh_kind h ≤ 5;
  rv_total : total = TR_RPC_RECORD_HEADER_SIZE + rh_metadata_size h + rh_encoded_size h;
  rv_limits : tr_rpc_record_limits_valid (Some l) = true;
  rv_meta : rh_metadata_size h ≤ max_metadata_size l;
  rv_encoded : rh_encoded_size h ≤ max_encoded_size l;
  rv_decoded : rh_decoded_size h ≤ max_decoded_size l
}.

Lemma validate_valid h limits total : record_header_ok h →
  tr_rpc_record_validate (Some h) limits = (TR_OK, Some total) →
  ∃ l, limits = Some l ∧ record_valid h l total.
Proof.
  intros Hh Hv. destruct limits as [l|]; [|done]. exists l. split; [done|].
  unfold tr_rpc_record_validate in Hv.
  destruct (tr_rpc_record_limits_valid (Some l)) eqn:Hl; [|done]. cbn [negb] in Hv.
  destruct (tr_rpc_record_kind_valid (rh_kind h)) eqn:Hk; [|done]. cbn [negb] in Hv.
  apply kind_valid_range in Hk. destruct Hh. unfold TR_RPC_RECORD_HEADER_SIZE in *.
  rewrite (u64_small (48 + rh_metadata_size h)) in Hv by word_lia.
  rewrite (u64_small (48 + rh_metadata_size h + rh_encoded_size h)) in Hv by word_lia.
  case_ifs_in Hv; split; try done; lia.
Qed.

(** The status says whether there is a total. *)
Lemma validate_total h limits : (tr_rpc_record_validate h limits).1 = TR_OK ↔
  is_Some (tr_rpc_record_validate h limits).2.
Proof.
  unfold tr_rpc_record_validate. destruct h as [h|], limits as [l|]; simpl; try by split; [|intros []].
  case_ifs; simpl; split; intros; try done; try by destruct H.
Qed.

(** * The decoder on prefixes *)

Lemma aget_at_off_take (n : nat) (l : list Z) off k : 0 ≤ off → 0 ≤ k → off + k < Z.of_nat n →
  (at_off (take n l) off).[k] = (at_off l off).[k].
Proof.
  intros Ho Hk Hn. unfold aget, at_off. rewrite !list_lookup_total_alt, !lookup_drop.
  by rewrite lookup_take_lt by lia.
Qed.

Lemma get_le16_take n l off : 0 ≤ off → off + 2 ≤ Z.of_nat n →
  tr_get_le16 (at_off (take n l) off) = tr_get_le16 (at_off l off).
Proof. intros. unfold tr_get_le16. by rewrite !aget_at_off_take by lia. Qed.
Lemma get_le32_take n l off : 0 ≤ off → off + 4 ≤ Z.of_nat n →
  tr_get_le32 (at_off (take n l) off) = tr_get_le32 (at_off l off).
Proof. intros. unfold tr_get_le32. by rewrite !aget_at_off_take by lia. Qed.
Lemma get_le64_take n l off : 0 ≤ off → off + 8 ≤ Z.of_nat n →
  tr_get_le64 (at_off (take n l) off) = tr_get_le64 (at_off l off).
Proof. intros. unfold tr_get_le64. by rewrite !aget_at_off_take by lia. Qed.

Lemma record_fields_take n l : (48 ≤ n)%nat → record_fields (take n l) = record_fields l.
Proof.
  intros. unfold record_fields. by rewrite !get_le16_take, !get_le32_take, get_le64_take by lia.
Qed.

(** The decoder's result for a whole header. *)
Definition decode_complete (data : list Z) (limits : option tr_rpc_record_limits)
    : tr_status * option (tr_rpc_record_header * Z) :=
  let '(ret, total) := tr_rpc_record_validate (Some (record_fields data)) limits in
  if is_ok ret then (TR_OK, (λ total, (record_fields data, total)) <$> total) else (ret, None).

Lemma decode_header_short data size limits :
  tr_rpc_record_decode_header (Some data) size limits true true =
  if negb (tr_rpc_record_limits_valid limits) then (TR_ERR_INVALID, None)
  else if size <? 4 then (TR_AGAIN, None)
  else if negb (bool_decide (take 4 data = record_magic)) then (TR_ERR_BAD_MAGIC, None)
  else if size <? 6 then (TR_AGAIN, None)
  else if negb (tr_get_le16 (at_off data 4) =? TR_RPC_RECORD_VERSION) then (TR_ERR_BAD_VERSION, None)
  else if size <? 8 then (TR_AGAIN, None)
  else if negb (tr_rpc_record_kind_valid (tr_get_le16 (at_off data 6))) then (TR_ERR_BAD_TYPE, None)
  else if size <? 48 then (TR_AGAIN, None)
  else decode_complete data limits.
Proof.
  unfold tr_rpc_record_decode_header, decode_complete. rewrite bool_decide_true by eauto.
  cbn [negb andb orb default]. fold (record_fields data). unfold TR_RPC_RECORD_HEADER_SIZE.
  repeat match goal with |- (if ?b then _ else _) = (if ?b then _ else _) =>
    destruct b; [reflexivity|] end.
  destruct (tr_rpc_record_validate _ _) as [ret total]. by destruct (is_ok ret).
Qed.

Lemma decode_header_prefix data (n : nat) limits : (n ≤ length data)%nat →
  tr_rpc_record_decode_header (Some (take n data)) (Z.of_nat n) limits true true = (TR_AGAIN, None) ∧
    (n < 48)%nat ∨
  tr_rpc_record_decode_header (Some (take n data)) (Z.of_nat n) limits true true =
  tr_rpc_record_decode_header (Some data) (alen data) limits true true.
Proof.
  intros Hn. rewrite !decode_header_short. unfold alen.
  destruct (tr_rpc_record_limits_valid limits); cbn [negb]; [|by right].
  destruct (Z.ltb_spec (Z.of_nat n) 4); [left; split; [done|lia]|].
  rewrite (proj2 (Z.ltb_ge (Z.of_nat (length data)) 4)) by lia.
  rewrite take_take, Nat.min_l by lia. case_bool_decide; cbn [negb]; [|by right].
  destruct (Z.ltb_spec (Z.of_nat n) 6); [left; split; [done|lia]|].
  rewrite (proj2 (Z.ltb_ge (Z.of_nat (length data)) 6)) by lia.
  rewrite get_le16_take by lia. destruct (negb (_ =? TR_RPC_RECORD_VERSION)); [by right|].
  destruct (Z.ltb_spec (Z.of_nat n) 8); [left; split; [done|lia]|].
  rewrite (proj2 (Z.ltb_ge (Z.of_nat (length data)) 8)) by lia.
  rewrite get_le16_take by lia. destruct (negb (tr_rpc_record_kind_valid _)); [by right|].
  destruct (Z.ltb_spec (Z.of_nat n) 48); [left; split; [done|lia]|].
  rewrite (proj2 (Z.ltb_ge (Z.of_nat (length data)) 48)) by lia.
  right. unfold decode_complete. by rewrite record_fields_take by lia.
Qed.

Lemma decode_header_inv data limits h total :
  tr_rpc_record_decode_header (Some data) (alen data) limits true true = (TR_OK, Some (h, total)) →
  48 ≤ alen data ∧ take 4 data = record_magic ∧
  tr_get_le16 (at_off data 4) = TR_RPC_RECORD_VERSION ∧ h = record_fields data ∧
  tr_rpc_record_validate (Some h) limits = (TR_OK, Some total).
Proof.
  rewrite decode_header_short. intros H.
  repeat match type of H with (if ?b then _ else _) = _ => destruct b eqn:?; [discriminate H|] end.
  bool_to_prop. unfold decode_complete in H.
  destruct (tr_rpc_record_validate _ _) as [ret t] eqn:Hv.
  destruct (is_ok ret) eqn:Hr; [|by simplify_eq]. apply is_ok_true in Hr. subst ret.
  destruct t as [t|]; [|discriminate H]. simpl in H. injection H as <- <-.
  by split_and!.
Qed.

(** TR_OK comes with a header, and with a view. *)
Lemma decode_header_ok_some data limits o :
  tr_rpc_record_decode_header (Some data) (alen data) limits true true = (TR_OK, o) → is_Some o.
Proof.
  rewrite decode_header_short. intros H. case_ifs_in H. unfold decode_complete in H.
  pose proof (validate_total (Some (record_fields data)) limits) as Hs.
  destruct (tr_rpc_record_validate _ _) as [r t]. destruct (is_ok r) eqn:E; simplify_eq/=.
  apply is_ok_true in E as ->. destruct (proj1 Hs eq_refl) as [t' ->]. eauto.
Qed.

Lemma decode_ok_some data limits o :
  tr_rpc_record_decode (Some data) (alen data) limits true true = (TR_OK, o) → is_Some o.
Proof.
  unfold tr_rpc_record_decode. cbn [negb orb]. intros H.
  destruct (tr_rpc_record_decode_header _ _ _ _ _) as [r oh] eqn:E.
  destruct r; try (by destruct oh as [[]|]). apply decode_header_ok_some in E as [[h t] ->].
  case_ifs_in H. eauto.
Qed.

Lemma record_fields_ok data : bytes_ok data → 48 ≤ alen data → record_header_ok (record_fields data).
Proof.
  intros Hb Hl.
  assert (∀ off, 0 ≤ off → alen (at_off data off) = Z.max 0 (alen data - off)) as Hoff.
  { intros. unfold alen, at_off. rewrite length_drop. lia. }
  assert (∀ off, bytes_ok (at_off data off)) as Hd by (intros; by apply bytes_ok_drop).
  split; cbn; first [apply tr_get_le32_range | apply tr_get_le64_range]; auto; rewrite Hoff; lia.
Qed.

(** The fields of 48 bytes with the magic and the version encode to them. *)
Lemma record_bytes_fields data : bytes_ok data → length data = 48%nat → take 4 data = record_magic →
  tr_get_le16 (at_off data 4) = TR_RPC_RECORD_VERSION → record_bytes (record_fields data) = data.
Proof.
  intros Hb Hlen Hm Hv.
  assert (∀ off, bytes_ok (at_off data off)) as Hd by (intros; by apply bytes_ok_drop).
  assert (∀ off, 0 ≤ off → alen (at_off data off) = Z.max 0 (48 - off)) as Hoff.
  { intros. unfold alen, at_off. rewrite length_drop. lia. }
  assert (u16_ok (tr_get_le16 (at_off data 6))) as Hk.
  { apply tr_get_le16_range; [done|]. rewrite Hoff; lia. }
  unfold record_bytes. cbn [record_fields rh_kind rh_service_id rh_method_id rh_codec_id rh_compression
    rh_encoded_size rh_decoded_size rh_metadata_size rh_status rh_remaining_timeout_ns].
  rewrite (u16_small (tr_get_le16 _)) by done. rewrite <- Hv, <- Hm.
  rewrite !put_get_le16, put_get_le64, !put_get_le32 by (apply Hd || (rewrite Hoff; lia)).
  unfold at_off. do 48 (destruct data as [|? data]; [discriminate Hlen|]).
  by destruct data.
Qed.

(** * Theorems: the codec *)

(** What a view's pointer designates. *)
Definition view_bytes (data : list Z) (ptr : option Z) (len : Z) : list Z :=
  match ptr with None => [] | Some off => take (Z.to_nat len) (at_off data off) end.

(** C37: A sent record is received whole: encoding a header that validates writes 48 bytes;
    followed by the metadata and the body it announces, and by anything else, they decode
    to that header, those bytes and that length, so a receiver reads record after record. *)
Theorem record_roundtrip (h : tr_rpc_record_header) (limits : option tr_rpc_record_limits)
    (total capacity : Z) (old metadata body rest : list Z)
    (Hh : record_header_ok h)
    (Hv : tr_rpc_record_validate (Some h) limits = (TR_OK, Some total))
    (Hold : alen old = capacity) (Hcap : TR_RPC_RECORD_HEADER_SIZE ≤ capacity)
    (Hmeta : alen metadata = rh_metadata_size h) (Hbody : alen body = rh_encoded_size h)
    (Hbytes : bytes_ok (metadata ++ body ++ rest)) :
  ∃ raw, tr_rpc_record_encode_header (Some old) capacity (Some h) limits =
      (TR_OK, Some (put_at old 0 raw)) ∧ alen raw = TR_RPC_RECORD_HEADER_SIZE ∧
    let data := raw ++ metadata ++ body ++ rest in
    ∃ v, tr_rpc_record_decode (Some data) (alen data) limits true true = (TR_OK, Some (v, total)) ∧
      rv_header v = h ∧
      view_bytes data (rv_metadata v) (rh_metadata_size h) = metadata ∧
      view_bytes data (rv_body v) (rh_encoded_size h) = body ∧
      drop (Z.to_nat total) data = rest.
Proof.
  exists (record_bytes h). split; [by eapply encode_header_bytes|]. split; [done|].
  set (data := record_bytes h ++ metadata ++ body ++ rest).
  destruct (validate_valid _ _ _ Hh Hv) as (l & El & Hval). destruct Hval as [Hk Ht Hlim Hm He Hd].
  assert (record_fields data = h) as Hf by (apply record_fields_bytes; [done|word_lia|done]).
  assert (alen data = total + alen rest) as Hlen.
  { unfold alen in *. unfold data. rewrite !length_app, length_record. unfold TR_RPC_RECORD_HEADER_SIZE in *. lia. }
  pose proof (alen_nonneg rest). pose proof (alen_nonneg metadata). pose proof (alen_nonneg body).
  assert (tr_rpc_record_decode_header (Some data) (alen data) limits true true = (TR_OK, Some (h, total))) as Hdec.
  { rewrite decode_header_short. unfold TR_RPC_RECORD_HEADER_SIZE in *. subst limits. rewrite Hlim. cbn [negb].
    rewrite !(proj2 (Z.ltb_ge (alen data) _)) by lia.
    rewrite bool_decide_true by reflexivity. cbn [negb].
    change (tr_get_le16 (at_off data 4) =? TR_RPC_RECORD_VERSION) with true. cbn [negb].
    change (tr_get_le16 (at_off data 6)) with (rh_kind (record_fields data)). rewrite Hf.
    rewrite (proj2 (kind_valid_range _) Hk). cbn [negb]. unfold decode_complete. rewrite Hf, Hv. reflexivity. }
  unfold tr_rpc_record_decode. cbn [negb orb]. rewrite Hdec.
  rewrite (proj2 (Z.ltb_ge (alen data) total)) by lia.
  eexists. split; [reflexivity|]. cbn [rv_header rv_metadata rv_body].
  assert (drop (Z.to_nat TR_RPC_RECORD_HEADER_SIZE) data = metadata ++ body ++ rest) as Hd1 by reflexivity.
  assert (∀ k, 0 ≤ k → at_off data (TR_RPC_RECORD_HEADER_SIZE + k) = drop (Z.to_nat k) (metadata ++ body ++ rest)) as Hd2.
  { intros k Hk'. unfold at_off. rewrite <- Hd1, drop_drop. f_equal. unfold TR_RPC_RECORD_HEADER_SIZE. lia. }
  unfold alen in Hmeta, Hbody. split_and!; [done| | |].
  - unfold nz. destruct (Z.eqb_spec (rh_metadata_size h) 0); simpl.
    + destruct metadata; simpl in *; [done|lia].
    + unfold at_off. rewrite Hd1. apply take_app_length'. lia.
  - unfold nz. destruct (Z.eqb_spec (rh_encoded_size h) 0); simpl.
    + destruct body; simpl in *; [done|lia].
    + rewrite Hd2 by lia. rewrite drop_app_length' by lia. apply take_app_length'. lia.
  - replace (Z.to_nat total) with (Z.to_nat (TR_RPC_RECORD_HEADER_SIZE + (total - TR_RPC_RECORD_HEADER_SIZE))) by (f_equal; lia).
    fold (at_off data (TR_RPC_RECORD_HEADER_SIZE + (total - TR_RPC_RECORD_HEADER_SIZE))).
    rewrite Hd2 by lia. rewrite app_assoc. apply drop_app_length'. rewrite length_app. lia.
Qed.

(** The bytes of a decoded record: its header, its metadata, its body. *)
Lemma decode_wire (data : list Z) (limits : option tr_rpc_record_limits)
    (v : tr_rpc_record_view) (total : Z) : bytes_ok data →
  tr_rpc_record_decode (Some data) (alen data) limits true true = (TR_OK, Some (v, total)) →
  let h := rv_header v in
  record_header_ok h ∧ tr_rpc_record_validate (Some h) limits = (TR_OK, Some total) ∧
  record_bytes h = take 48 data ∧
  total = TR_RPC_RECORD_HEADER_SIZE + rh_metadata_size h + rh_encoded_size h ∧ total ≤ alen data ∧
  view_bytes data (rv_metadata v) (rh_metadata_size h) = take (Z.to_nat (rh_metadata_size h)) (drop 48 data) ∧
  view_bytes data (rv_body v) (rh_encoded_size h) =
    take (Z.to_nat (rh_encoded_size h)) (drop (48 + Z.to_nat (rh_metadata_size h)) data) ∧
  (rv_metadata v = None ↔ rh_metadata_size h = 0) ∧
  take (Z.to_nat total) data = record_bytes h ++ view_bytes data (rv_metadata v) (rh_metadata_size h) ++
    view_bytes data (rv_body v) (rh_encoded_size h).
Proof.
  intros Hdata Hdec. unfold tr_rpc_record_decode in Hdec. cbn [negb orb] in Hdec.
  destruct (tr_rpc_record_decode_header _ _ _ _ _) as [ret out] eqn:Hd.
  destruct ret; try done. destruct out as [[h t]|]; [|done].
  destruct (Z.ltb_spec (alen data) t) as [|Hle]; [done|]. injection Hdec as <- <-.
  apply decode_header_inv in Hd as (Hl & Hm & Hver & -> & Hv).
  pose proof (record_fields_ok data Hdata Hl) as Hok. set (h := record_fields data) in *.
  destruct (validate_valid _ _ _ Hok Hv) as (l & _ & [Hk Ht _ _ _ _]). cbn [rv_header rv_metadata rv_body].
  assert (record_bytes h = take 48 data) as Eb.
  { unfold h. rewrite <- (record_fields_take 48) by lia. unfold alen in Hl. apply record_bytes_fields.
    - by apply bytes_ok_take.
    - rewrite length_take. lia.
    - by rewrite take_take.
    - by rewrite get_le16_take by lia. }
  pose proof Hok as [_ _ _ _ [He _] _ [Hme _] _ _]. unfold TR_RPC_RECORD_HEADER_SIZE in *.
  assert (view_bytes data (if nz (rh_metadata_size h) then Some 48 else None) (rh_metadata_size h) =
    take (Z.to_nat (rh_metadata_size h)) (drop 48 data)) as Em.
  { unfold nz. destruct (Z.eqb_spec (rh_metadata_size h) 0) as [E|]; cbn [negb view_bytes]; [by rewrite E|done]. }
  assert (view_bytes data (if nz (rh_encoded_size h) then Some (48 + rh_metadata_size h) else None) (rh_encoded_size h) =
    take (Z.to_nat (rh_encoded_size h)) (drop (48 + Z.to_nat (rh_metadata_size h)) data)) as Ebody.
  { unfold nz. destruct (Z.eqb_spec (rh_encoded_size h) 0) as [E|]; cbn [negb view_bytes]; [by rewrite E|].
    unfold at_off. do 2 f_equal. lia. }
  split_and!; try done.
  - unfold nz. destruct (Z.eqb_spec (rh_metadata_size h) 0); cbn [negb]; (split; intros; done).
  - rewrite Em, Ebody, Eb, Ht.
    replace (Z.to_nat (48 + rh_metadata_size h + rh_encoded_size h))
      with (48 + Z.to_nat (rh_metadata_size h) + Z.to_nat (rh_encoded_size h))%nat by lia.
    rewrite <- (take_take_drop data), <- (take_take_drop data 48). by rewrite <- app_assoc.
Qed.

(** Bytes that decode are canonical: the header is encoded to the bytes it was read from,
    and the view's pointers and the length stay inside the input. *)
Theorem record_decoded_canonical (data : list Z) (limits : option tr_rpc_record_limits)
    (v : tr_rpc_record_view) (total : Z) (Hdata : bytes_ok data)
    (Hdec : tr_rpc_record_decode (Some data) (alen data) limits true true = (TR_OK, Some (v, total))) :
  (∃ rest, data = record_bytes (rv_header v) ++ rest ∧
     ∀ old, tr_rpc_record_encode_header (Some old) (alen old) (Some (rv_header v)) limits =
       if alen old <? TR_RPC_RECORD_HEADER_SIZE then (TR_ERR_BAD_LENGTH, Some old)
       else (TR_OK, Some (put_at old 0 (take 48 data)))) ∧
  total = TR_RPC_RECORD_HEADER_SIZE + rh_metadata_size (rv_header v) + rh_encoded_size (rv_header v) ∧
  total ≤ alen data ∧
  alen (view_bytes data (rv_metadata v) (rh_metadata_size (rv_header v))) = rh_metadata_size (rv_header v) ∧
  alen (view_bytes data (rv_body v) (rh_encoded_size (rv_header v))) = rh_encoded_size (rv_header v).
Proof.
  destruct (decode_wire _ _ _ _ Hdata Hdec) as (Hok & Hv & Eb & Ht & Hle & Em & Ebo & _ & _).
  set (h := rv_header v) in *. pose proof Hok as [_ _ _ _ [He _] _ [Hme _] _ _].
  rewrite Em, Ebo. unfold TR_RPC_RECORD_HEADER_SIZE in *. split_and!; try done.
  - exists (drop 48 data). rewrite Eb. split; [by rewrite take_drop|]. intros old.
    destruct (Z.ltb_spec (alen old) 48).
    + unfold tr_rpc_record_encode_header. rewrite Hv. change (is_ok TR_OK) with true. cbn [negb].
      unfold TR_RPC_RECORD_HEADER_SIZE. by rewrite (proj2 (Z.ltb_lt _ _)).
    + rewrite <- Eb. by eapply encode_header_bytes.
  - unfold alen in *. rewrite length_take, length_drop. lia.
  - unfold alen in *. rewrite length_take, length_drop. lia.
Qed.

(** More bytes never change the decoder's mind: on a prefix it either asks for more or
    answers as on the whole; and if the whole holds a record, it asks for more exactly on
    the prefixes shorter than the record. *)
Theorem record_decode_incremental (data : list Z) (limits : option tr_rpc_record_limits) (n : nat)
    (Hdata : bytes_ok data) (Hn : (n ≤ length data)%nat) :
  let part := tr_rpc_record_decode (Some (take n data)) (Z.of_nat n) limits true true in
  let whole := tr_rpc_record_decode (Some data) (alen data) limits true true in
  (part = (TR_AGAIN, None) ∨ part = whole) ∧
  (∀ v total, whole = (TR_OK, Some (v, total)) → (part = (TR_AGAIN, None) ↔ Z.of_nat n < total)).
Proof.
  intros part whole.
  assert (∀ size d, tr_rpc_record_decode d size limits true true =
    match tr_rpc_record_decode_header d size limits true true with
    | (TR_OK, Some (h, total)) =>
        if size <? total then (TR_AGAIN, None) else
        (TR_OK, Some (mk_rv h (if nz (rh_metadata_size h) then Some TR_RPC_RECORD_HEADER_SIZE else None)
          (if nz (rh_encoded_size h) then Some (TR_RPC_RECORD_HEADER_SIZE + rh_metadata_size h) else None), total))
    | (ret, _) => (ret, None)
    end) as Heq by reflexivity.
  assert (Hpart := Heq (Z.of_nat n) (Some (take n data))). fold part in Hpart.
  assert (Hwhole := Heq (alen data) (Some data)). fold whole in Hwhole.
  destruct (decode_header_prefix data n limits Hn) as [[Hp Hshort]|Hp]; rewrite Hp in Hpart.
  - split; [by left|]. intros v total Hw. split; [|done]. intros _.
    destruct (tr_rpc_record_decode_header _ _ _ _ _) as [ret out] eqn:Hd in Hwhole.
    rewrite Hwhole in Hw. destruct ret; try done. destruct out as [[h t]|]; [|done].
    destruct (Z.ltb_spec (alen data) t); [done|]. injection Hw as <- <-.
    apply decode_header_inv in Hd as (Hl & _ & _ & -> & Hv).
    apply validate_valid in Hv as (l & _ & [_ -> _ _ _ _]); [|by apply record_fields_ok].
    destruct (record_fields_ok data Hdata Hl) as [_ _ _ _ [? _] _ [? _] _ _].
    unfold TR_RPC_RECORD_HEADER_SIZE. lia.
  - destruct (tr_rpc_record_decode_header _ _ _ _ _) as [ret out] eqn:Hd in Hwhole, Hpart.
    rewrite Hwhole, Hpart. unfold alen. destruct ret; try (split; [by right|done]).
    destruct out as [[h t]|]; [|split; [by right|done]].
    destruct (Z.ltb_spec (Z.of_nat n) t), (Z.ltb_spec (Z.of_nat (length data)) t); try lia;
      (split; [auto|]); intros v total Hw; simplify_eq; try done; split; intros; try done; lia.
Qed.

(** * The grammar of a call *)

Arguments tr_rpc_record_validate : simpl never.
Arguments tr_rpc_record_state_apply : simpl never.

(** A record with its direction. *)
Definition rec_event : Type := Z * tr_rpc_record_header.
Implicit Types (e : rec_event) (l rest : list rec_event).

(** The state after the events, if every one is accepted. *)
Fixpoint record_run (s : tr_rpc_record_state) (l : list rec_event) : option tr_rpc_record_state :=
  match l with
  | [] => Some s
  | (d, r) :: l =>
      match tr_rpc_record_state_apply (Some s) d (Some r) with
      | (TR_OK, Some s) => record_run s l
      | _ => None
      end
  end.

Lemma record_run_app s l1 l2 : record_run s (l1 ++ l2) = s ← record_run s l1; record_run s l2.
Proof.
  revert s. induction l1 as [|[d r] l1 IH]; intros s; [done|]. simpl.
  destruct (tr_rpc_record_state_apply (Some s) d (Some r)) as [[] [s'|]]; try done.
Qed.

Definition shape_ok (r : tr_rpc_record_header) : Prop :=
  (tr_rpc_record_validate (Some r) (Some shape_limits)).1 = TR_OK.

(** A well-formed record in a direction. *)
Definition event_ok e : Prop :=
  (e.1 = TR_RPC_RECORD_REQUEST_DIRECTION ∨ e.1 = TR_RPC_RECORD_RESPONSE_DIRECTION) ∧ shape_ok e.2.

(** The kinds of the records of one direction, in order. *)
Definition kinds (d : Z) l : list Z := (λ e, rh_kind e.2) <$> filter (λ e, e.1 = d) l.

(** After OPEN: the requests are [m] messages, then perhaps the half close; the responses
    are, perhaps, the initial metadata with [k] messages, then perhaps the final status,
    which ends the call.  ONE means at most one message, and exactly one before the half
    close of that direction and before a final status OK. *)
Record opened_call (creq cresp : Z) rest (m : nat) (closed headers : bool) (k : nat)
    (final : option tr_rpc_record_header) : Prop := {
  oc_events : Forall event_ok rest;
  oc_requests : kinds TR_RPC_RECORD_REQUEST_DIRECTION rest =
    replicate m TR_RPC_RECORD_MESSAGE ++ (if closed then [TR_RPC_RECORD_HALF_CLOSE] else []);
  oc_responses : kinds TR_RPC_RECORD_RESPONSE_DIRECTION rest =
    (if headers then TR_RPC_RECORD_INITIAL_METADATA :: replicate k TR_RPC_RECORD_MESSAGE else []) ++
    (if final is Some _ then [TR_RPC_RECORD_FINAL_STATUS] else []);
  oc_headers : headers = false → k = 0%nat;
  oc_request_one : creq = TR_RPC_ONE → (m ≤ 1)%nat ∧ (closed = true → m = 1%nat);
  oc_response_one : cresp = TR_RPC_ONE → (k ≤ 1)%nat;
  oc_final r : final = Some r → last rest = Some (TR_RPC_RECORD_RESPONSE_DIRECTION, r) ∧
    (rh_status r = TR_RPC_STATUS_OK →
     (creq = TR_RPC_ONE → m = 1%nat) ∧ (cresp = TR_RPC_ONE → k = 1%nat))
}.

(** The state of a call before its first record, and of an open one. *)
Definition fresh_state (creq cresp : Z) : tr_rpc_record_state :=
  mk_rs creq cresp 0 0 0 true false false false false.

Definition opened_state (creq cresp : Z) (m : nat) (closed headers : bool) (k : nat)
    (final : option tr_rpc_record_header) : tr_rpc_record_state :=
  mk_rs creq cresp (Z.of_nat m) (Z.of_nat k)
    (match final with Some r => rh_status r | None => 0 end) true true closed headers
    (bool_decide (is_Some final)).

(** Nothing yet; a refusal before OPEN; or OPEN and what may follow it; with the state. *)
Inductive legal_call (creq cresp : Z) : list rec_event → tr_rpc_record_state → Prop :=
| legal_none : legal_call creq cresp [] (fresh_state creq cresp)
| legal_refused r : shape_ok r → rh_kind r = TR_RPC_RECORD_FINAL_STATUS →
    rh_status r ≠ TR_RPC_STATUS_OK →
    legal_call creq cresp [(TR_RPC_RECORD_RESPONSE_DIRECTION, r)]
      (mk_rs creq cresp 0 0 (rh_status r) true false false false true)
| legal_open o rest m closed headers k final : shape_ok o → rh_kind o = TR_RPC_RECORD_OPEN →
    opened_call creq cresp rest m closed headers k final →
    legal_call creq cresp ((TR_RPC_RECORD_REQUEST_DIRECTION, o) :: rest)
      (opened_state creq cresp m closed headers k final).

Lemma kinds_snoc d l e : kinds d (l ++ [e]) = kinds d l ++ (if decide (e.1 = d) then [rh_kind e.2] else []).
Proof.
  unfold kinds. rewrite filter_app, fmap_app. f_equal. rewrite filter_cons, filter_nil.
  by destruct (decide (e.1 = d)).
Qed.

Lemma kinds_length d l : (length (kinds d l) ≤ length l)%nat.
Proof. unfold kinds. rewrite length_fmap. apply length_filter. Qed.

Lemma opened_counts creq cresp rest m closed headers k final :
  opened_call creq cresp rest m closed headers k final → (m ≤ length rest ∧ k ≤ length rest)%nat.
Proof.
  intros []. pose proof (kinds_length TR_RPC_RECORD_REQUEST_DIRECTION rest) as H1.
  pose proof (kinds_length TR_RPC_RECORD_RESPONSE_DIRECTION rest) as H2.
  rewrite oc_requests0 in H1. rewrite oc_responses0 in H2.
  rewrite !length_app, !length_replicate in *. destruct headers; simpl in *;
    rewrite ?length_replicate in *; [lia|]. rewrite oc_headers0 by done. lia.
Qed.

(** [apply] on an initialised state that is not terminal, for a well-formed event. *)
Lemma apply_event s d r : rs_initialized s = true → rs_terminal s = false → event_ok (d, r) →
  tr_rpc_record_state_apply (Some s) d (Some r) =
  match (if negb (rs_opened s) then apply_unopened s d r
         else if d =? TR_RPC_RECORD_REQUEST_DIRECTION then apply_request s r else apply_response s r) with
  | None => (TR_ERR_STATE, Some s)
  | Some next => (TR_OK, Some next)
  end.
Proof.
  intros Hi Ht [Hd Hs]. unfold tr_rpc_record_state_apply, shape_ok in *. simpl in Hd, Hs.
  rewrite Hi, Ht. destruct (tr_rpc_record_validate _ _) as [ret t]. simpl in Hs. subst ret.
  change (is_ok TR_OK) with true.
  destruct Hd as [-> | ->]; reflexivity.
Qed.

(** An accepted event is well-formed, and the state was not terminal. *)
Lemma apply_ok_event s d r s' : tr_rpc_record_state_apply (Some s) d (Some r) = (TR_OK, Some s') →
  rs_initialized s = true ∧ rs_terminal s = false ∧ event_ok (d, r).
Proof.
  unfold tr_rpc_record_state_apply, event_ok, shape_ok. simpl.
  destruct (rs_initialized s); simpl; [|done].
  destruct (negb (d =? _) && negb (d =? _)) eqn:Hd; [done|].
  destruct (rs_terminal s); [done|].
  destruct (tr_rpc_record_validate _ _) as [ret t]. destruct (is_ok ret) eqn:Hr; simpl.
  - apply is_ok_true in Hr. intros _. split_and!; try done. bool_to_prop. tauto.
  - apply is_ok_false in Hr. by intros [= ? _].
Qed.

Lemma apply_ok_some s d r o : tr_rpc_record_state_apply (Some s) d (Some r) = (TR_OK, o) →
  ∃ s', o = Some s'.
Proof.
  unfold tr_rpc_record_state_apply.
  destruct (tr_rpc_record_validate _ _) as [ret t]. intros H. case_ifs_in H;
    try (case_match; simplify_eq; by eauto).
  all: bool_to_prop; match goal with E : is_ok ?x = false |- _ => by apply is_ok_false in E end.
Qed.

(** The kinds after one more event. *)
Lemma kinds_request_snoc l r : kinds TR_RPC_RECORD_REQUEST_DIRECTION (l ++ [(TR_RPC_RECORD_REQUEST_DIRECTION, r)]) =
    kinds TR_RPC_RECORD_REQUEST_DIRECTION l ++ [rh_kind r] ∧
  kinds TR_RPC_RECORD_RESPONSE_DIRECTION (l ++ [(TR_RPC_RECORD_REQUEST_DIRECTION, r)]) =
    kinds TR_RPC_RECORD_RESPONSE_DIRECTION l.
Proof. rewrite !kinds_snoc. simpl. by rewrite app_nil_r. Qed.
Lemma kinds_response_snoc l r : kinds TR_RPC_RECORD_RESPONSE_DIRECTION (l ++ [(TR_RPC_RECORD_RESPONSE_DIRECTION, r)]) =
    kinds TR_RPC_RECORD_RESPONSE_DIRECTION l ++ [rh_kind r] ∧
  kinds TR_RPC_RECORD_REQUEST_DIRECTION (l ++ [(TR_RPC_RECORD_RESPONSE_DIRECTION, r)]) =
    kinds TR_RPC_RECORD_REQUEST_DIRECTION l.
Proof. rewrite !kinds_snoc. simpl. by rewrite app_nil_r. Qed.

Lemma nz_false v : nz v = false ↔ v = 0.
Proof. unfold nz. rewrite negb_false_iff. apply Z.eqb_eq. Qed.

Lemma replicate_snoc (n : nat) (x : Z) : replicate (S n) x = replicate n x ++ [x].
Proof. by rewrite replicate_S_end. Qed.

(** The requests of an open call grow by one record exactly as [apply_request] allows. *)
Lemma opened_request creq cresp rest r m closed headers k s' :
  opened_call creq cresp rest m closed headers k None → Z.of_nat (length rest) < UINT64_MAX →
  event_ok (TR_RPC_RECORD_REQUEST_DIRECTION, r) →
  apply_request (opened_state creq cresp m closed headers k None) r = Some s' →
  ∃ m' closed', opened_call creq cresp (rest ++ [(TR_RPC_RECORD_REQUEST_DIRECTION, r)]) m' closed' headers k None ∧
    s' = opened_state creq cresp m' closed' headers k None.
Proof.
  intros Hc Hlen Hr Ha. pose proof (opened_counts _ _ _ _ _ _ _ _ Hc) as [Hm _].
  destruct (kinds_request_snoc rest r) as [Ek1 Ek2]. destruct Hc as [Hev Hreq Hresp Hh H1 H2 H3].
  unfold apply_request in Ha. cbn [opened_state rs_request_closed rs_request_cardinality rs_request_messages] in Ha.
  destruct closed; [done|]. rewrite app_nil_r in Hreq.
  destruct (Z.eqb_spec (rh_kind r) TR_RPC_RECORD_MESSAGE) as [Ek|Hne].
  - case_if_in Ha; [done|]. injection Ha as <-. exists (S m), false. split.
    + split; rewrite ?Ek1, ?Ek2; try done.
      * apply Forall_app_2; [done|by apply Forall_singleton].
      * by rewrite Hreq, Ek, app_nil_r, replicate_snoc.
      * intros E. destruct (H1 E). rewrite nz_false in *. split; [|done]. intuition lia.
    + unfold set_messages, opened_state. simpl. f_equal. rewrite u64_small by word_lia. lia.
  - destruct (Z.eqb_spec (rh_kind r) TR_RPC_RECORD_HALF_CLOSE) as [Ek|]; [|done].
    case_if_in Ha; [done|]. injection Ha as <-. exists m, true. split; [|done].
    split; rewrite ?Ek1, ?Ek2; try done.
    + apply Forall_app_2; [done|by apply Forall_singleton].
    + by rewrite Hreq, Ek.
    + intros E. destruct (H1 E). split; [done|]. intros _. bool_to_prop. intuition lia.
Qed.

Lemma opened_response creq cresp rest r m closed headers k s' :
  opened_call creq cresp rest m closed headers k None → Z.of_nat (length rest) < UINT64_MAX →
  event_ok (TR_RPC_RECORD_RESPONSE_DIRECTION, r) →
  apply_response (opened_state creq cresp m closed headers k None) r = Some s' →
  ∃ headers' k' final, opened_call creq cresp (rest ++ [(TR_RPC_RECORD_RESPONSE_DIRECTION, r)]) m closed headers' k' final ∧
    s' = opened_state creq cresp m closed headers' k' final.
Proof.
  intros Hc Hlen Hr Ha. pose proof (opened_counts _ _ _ _ _ _ _ _ Hc) as [_ Hk].
  destruct (kinds_response_snoc rest r) as [Ek1 Ek2]. destruct Hc as [Hev Hreq Hresp Hh H1 H2 H3].
  assert (Forall event_ok (rest ++ [(TR_RPC_RECORD_RESPONSE_DIRECTION, r)])) as Hev'.
  { apply Forall_app_2; [done|by apply Forall_singleton]. }
  rewrite app_nil_r in Hresp. unfold apply_response in Ha.
  cbn [opened_state rs_response_headers rs_response_cardinality rs_response_messages
    rs_request_cardinality rs_request_messages rs_request_closed] in Ha.
  destruct (Z.eqb_spec (rh_kind r) TR_RPC_RECORD_INITIAL_METADATA) as [Ek|Hne].
  { destruct headers; [done|]. injection Ha as <-. rewrite Hh in * by done.
    exists true, 0%nat, None. split; [|done].
    split; rewrite ?Ek1, ?Ek2; try done. by rewrite Hresp, Ek. }
  destruct (Z.eqb_spec (rh_kind r) TR_RPC_RECORD_MESSAGE) as [Ek|Hne2].
  { case_if_in Ha; [done|]. injection Ha as <-. subst headers. exists true, (S k), None. split.
    - split; rewrite ?Ek1, ?Ek2; try done.
      + by rewrite Hresp, Ek, app_nil_r, replicate_snoc.
      + intros E. specialize (H2 E). rewrite nz_false in *. intuition lia.
    - unfold set_messages, opened_state. simpl. f_equal. rewrite u64_small by word_lia. lia. }
  destruct (Z.eqb_spec (rh_kind r) TR_RPC_RECORD_FINAL_STATUS) as [Ek|]; [|done].
  case_if_in Ha; [done|]. injection Ha as <-. exists headers, k, (Some r). split; [|done].
  split; rewrite ?Ek1, ?Ek2; try done.
  - by rewrite Hresp, Ek.
  - intros r' [= <-]. split; [by rewrite last_snoc|]. intros E. split; intros E'; intuition lia.
Qed.

(** Conversely, without its last record an open call is open, and the record is accepted. *)
Lemma opened_request_inv creq cresp rest r m closed headers k final :
  opened_call creq cresp (rest ++ [(TR_RPC_RECORD_REQUEST_DIRECTION, r)]) m closed headers k final →
  Z.of_nat (length rest) < UINT64_MAX →
  final = None ∧ ∃ m0, opened_call creq cresp rest m0 false headers k None ∧
  apply_request (opened_state creq cresp m0 false headers k None) r =
    Some (opened_state creq cresp m closed headers k None).
Proof.
  destruct (kinds_request_snoc rest r) as [Ek1 Ek2]. intros Hc Hlen.
  pose proof (opened_counts _ _ _ _ _ _ _ _ Hc) as [Hm _]. rewrite length_app in Hm. simpl in Hm.
  destruct Hc as [Hev Hreq Hresp Hh H1 H2 H3]. rewrite Ek1 in Hreq. rewrite Ek2 in Hresp.
  assert (final = None) as ->.
  { destruct final as [r'|]; [|done]. destruct (H3 _ eq_refl) as [Hl _]. by rewrite last_snoc in Hl. }
  split; [done|]. apply Forall_app in Hev as [Hev _]. unfold apply_request.
  cbn [opened_state rs_request_closed rs_request_cardinality rs_request_messages].
  destruct closed.
  - apply app_inj_tail in Hreq as [Hreq Ek]. exists m. split.
    { split; try done; [by rewrite app_nil_r|]. intros E. by destruct (H1 E). }
    rewrite Ek. simpl. destruct (Z.eqb_spec creq TR_RPC_ONE) as [E|]; simpl; [|done].
    destruct (H1 E) as [_ Hm1]. by rewrite Hm1.
  - rewrite app_nil_r in Hreq. destruct m as [|m]; [by destruct (kinds _ rest)|].
    rewrite replicate_snoc in Hreq. apply app_inj_tail in Hreq as [Hreq Ek]. exists m. split.
    { split; try done; [by rewrite app_nil_r|]. intros E. destruct (H1 E). split; [lia|done]. }
    rewrite Ek. simpl. rewrite (proj2 (Z.eqb_neq (Z.of_nat m) UINT64_MAX)) by word_lia. simpl.
    assert ((creq =? TR_RPC_ONE) && nz (Z.of_nat m) = false) as ->.
    { apply andb_false_iff. rewrite nz_false. destruct (Z.eqb_spec creq TR_RPC_ONE) as [E|]; [|by left].
      right. destruct (H1 E). lia. }
    unfold set_messages, opened_state. simpl. do 2 f_equal. rewrite u64_small by word_lia. lia.
Qed.

Lemma opened_response_inv creq cresp rest r m closed headers k final :
  opened_call creq cresp (rest ++ [(TR_RPC_RECORD_RESPONSE_DIRECTION, r)]) m closed headers k final →
  Z.of_nat (length rest) < UINT64_MAX →
  ∃ headers0 k0, opened_call creq cresp rest m closed headers0 k0 None ∧
  apply_response (opened_state creq cresp m closed headers0 k0 None) r =
    Some (opened_state creq cresp m closed headers k final).
Proof.
  destruct (kinds_response_snoc rest r) as [Ek1 Ek2]. intros Hc Hlen.
  pose proof (opened_counts _ _ _ _ _ _ _ _ Hc) as [_ Hk]. rewrite length_app in Hk. simpl in Hk.
  destruct Hc as [Hev Hreq Hresp Hh H1 H2 H3]. rewrite Ek1 in Hresp. rewrite Ek2 in Hreq.
  apply Forall_app in Hev as [Hev _]. unfold apply_response.
  cbn [opened_state rs_response_headers rs_response_cardinality rs_response_messages
    rs_request_cardinality rs_request_messages rs_request_closed].
  destruct final as [r'|].
  - destruct (H3 _ eq_refl) as [Hl Hok]. rewrite last_snoc in Hl. injection Hl as ->.
    apply app_inj_tail in Hresp as [Hresp Ek]. exists headers, k. split.
    { split; try done. by rewrite app_nil_r. }
    rewrite Ek. simpl. case_if; [exfalso; intuition lia|done].
  - rewrite app_nil_r in Hresp. destruct headers; [|by destruct (kinds _ rest)].
    destruct k as [|k].
    + destruct (kinds _ rest) eqn:Ekr; [|by destruct l]. injection Hresp as Ek.
      exists false, 0%nat. split; [split; try done; by rewrite Ekr|]. by rewrite Ek.
    + rewrite replicate_snoc, app_comm_cons in Hresp. apply app_inj_tail in Hresp as [Hresp Ek].
      exists true, k. split.
      { split; try done; [by rewrite app_nil_r|]. intros E. specialize (H2 E). lia. }
      rewrite Ek. simpl. rewrite (proj2 (Z.eqb_neq (Z.of_nat k) UINT64_MAX)) by word_lia. simpl.
      assert ((cresp =? TR_RPC_ONE) && nz (Z.of_nat k) = false) as ->.
      { apply andb_false_iff. rewrite nz_false. destruct (Z.eqb_spec cresp TR_RPC_ONE) as [E|]; [|by left].
        right. specialize (H2 E). lia. }
      unfold set_messages, opened_state. simpl. do 2 f_equal. rewrite u64_small by word_lia. lia.
Qed.

Lemma apply_opened creq cresp m closed headers k d r : event_ok (d, r) →
  tr_rpc_record_state_apply (Some (opened_state creq cresp m closed headers k None)) d (Some r) =
  let s := opened_state creq cresp m closed headers k None in
  match (if d =? TR_RPC_RECORD_REQUEST_DIRECTION then apply_request s r else apply_response s r) with
  | None => (TR_ERR_STATE, Some s)
  | Some next => (TR_OK, Some next)
  end.
Proof. intros Hr. by rewrite apply_event. Qed.

(** No record extends a call that has ended. *)
Lemma record_run_snoc s l d r st : record_run s (l ++ [(d, r)]) = Some st ↔
  ∃ st0, record_run s l = Some st0 ∧ event_ok (d, r) ∧ rs_terminal st0 = false ∧
    tr_rpc_record_state_apply (Some st0) d (Some r) = (TR_OK, Some st).
Proof.
  rewrite record_run_app. destruct (record_run s l) as [st0|]; simpl; [|by split; [|intros (? & ? & _)]].
  split.
  - intros H. exists st0. destruct (tr_rpc_record_state_apply _ _ _) as [ret [s'|]] eqn:E; [|by destruct ret].
    destruct ret; try done. injection H as ->.
    destruct (apply_ok_event _ _ _ _ E) as (_ & ? & ?). done.
  - intros (st1 & [= <-] & _ & _ & ->). done.
Qed.

Lemma legal_call_init creq cresp l st : legal_call creq cresp l st → rs_initialized st = true.
Proof. by destruct 1. Qed.

(** One more accepted record keeps the call legal. *)
Lemma legal_call_snoc creq cresp l d r st st' : legal_call creq cresp l st →
  Z.of_nat (length l) < UINT64_MAX → event_ok (d, r) → rs_terminal st = false →
  tr_rpc_record_state_apply (Some st) d (Some r) = (TR_OK, Some st') →
  legal_call creq cresp (l ++ [(d, r)]) st'.
Proof.
  intros Hl Hlen Hr Ht Ha.
  destruct Hl as [|r0 _ _ _|o rest m closed headers k final Ho Hk Hc]; [|done|].
  - rewrite apply_event in Ha by done. simpl in Ha. unfold apply_unopened in Ha.
    destruct ((rh_kind r =? _) && (d =? _)) eqn:E1.
    + bool_to_prop. subst d. injection Ha as <-.
      apply (legal_open creq cresp r [] 0 false false 0 None); [apply Hr|done|].
      split; try done; intros; lia.
    + destruct ((rh_kind r =? _) && (d =? _) && negb _) eqn:E2; [|done].
      bool_to_prop. subst d. injection Ha as <-. simpl. by apply legal_refused; [apply Hr|..].
  - destruct final as [f|]; [done|]. rewrite apply_opened in Ha by done.
    simpl in Hlen. rewrite Nat2Z.inj_succ in Hlen. simpl app.
    destruct Hr as [Hd Hs]. simpl in Hd. destruct Hd as [-> | ->]; simpl in Ha.
    + destruct (apply_request _ r) as [s'|] eqn:E; [|done]. injection Ha as <-.
      apply (opened_request _ _ rest) in E as (m' & closed' & Hc' & ->); [|done|lia|by split; [left|]].
      by apply legal_open.
    + destruct (apply_response _ r) as [s'|] eqn:E; [|done]. injection Ha as <-.
      apply (opened_response _ _ rest) in E as (headers' & k' & final' & Hc' & ->); [|done|lia|by split; [right|]].
      by apply legal_open.
Qed.

(** A legal call is legal without its last record, which is accepted then. *)
Lemma legal_call_snoc_inv creq cresp l d r st' : legal_call creq cresp (l ++ [(d, r)]) st' →
  Z.of_nat (length l) < UINT64_MAX →
  ∃ st, legal_call creq cresp l st ∧ event_ok (d, r) ∧ rs_terminal st = false ∧
    tr_rpc_record_state_apply (Some st) d (Some r) = (TR_OK, Some st').
Proof.
  intros Hl Hlen. inversion Hl as [E|r0 Hs Hk Hst E|o rest m closed headers k final Ho Hk Hc E].
  - by destruct l.
  - destruct l as [|x l]; [|by destruct l]. simpl in E. simplify_eq.
    exists (fresh_state creq cresp). assert (event_ok (TR_RPC_RECORD_RESPONSE_DIRECTION, r)) by (by split; [right|]).
    split_and!; [constructor|done|done|]. rewrite apply_event by done.
    unfold apply_unopened. rewrite Hk. simpl. by rewrite (proj2 (Z.eqb_neq _ _) Hst).
  - destruct l as [|x l]; simpl in E; simplify_eq.
    { exists (fresh_state creq cresp). assert (event_ok (TR_RPC_RECORD_REQUEST_DIRECTION, r)) by (by split; [left|]).
      split_and!; [constructor|done|done|]. rewrite apply_event by done.
      unfold apply_unopened. rewrite Hk. simpl. do 2 f_equal. unfold set_opened, opened_state; simpl.
      destruct Hc as [_ Hreq Hresp Hh _ _ Hf]. destruct final as [f|]; [by destruct (Hf _ eq_refl)|].
      destruct m; [|done]. destruct closed; [done|]. destruct headers; [done|]. by rewrite Hh. }
    simpl in Hlen. rewrite Nat2Z.inj_succ in Hlen.
    pose proof (oc_events _ _ _ _ _ _ _ _ Hc) as Hev. apply Forall_app in Hev as [_ Hev].
    apply (proj1 (Forall_singleton _ _)) in Hev. destruct Hev as [Hd Hs]. simpl in Hd. destruct Hd as [-> | ->].
    + apply opened_request_inv in Hc as (-> & m0 & Hc & Ha); [|lia].
      exists (opened_state creq cresp m0 false headers k None).
      assert (event_ok (TR_RPC_RECORD_REQUEST_DIRECTION, r)) by (by split; [left|]).
      split_and!; [by constructor|done|done|]. rewrite apply_opened by done. simpl. by rewrite Ha.
    + apply opened_response_inv in Hc as (headers0 & k0 & Hc & Ha); [|lia].
      exists (opened_state creq cresp m closed headers0 k0 None).
      assert (event_ok (TR_RPC_RECORD_RESPONSE_DIRECTION, r)) by (by split; [right|]).
      split_and!; [by constructor|done|done|]. rewrite apply_opened by done. simpl. by rewrite Ha.
Qed.

Lemma record_run_legal creq cresp l st : Z.of_nat (length l) ≤ UINT64_MAX →
  record_run (fresh_state creq cresp) l = Some st ↔ legal_call creq cresp l st.
Proof.
  revert st. induction l as [|[d r] l IH] using rev_ind; intros st Hlen.
  - split; [intros [= <-]; constructor|]. by inversion 1.
  - rewrite length_app in Hlen. simpl in Hlen. rewrite record_run_snoc. split.
    + intros (st0 & Hrun & Hr & Ht & Ha). apply IH in Hrun; [|lia].
      by apply (legal_call_snoc _ _ _ _ _ st0); [|lia|..].
    + intros Hl. apply legal_call_snoc_inv in Hl as (st0 & Hl & Hr & Ht & Ha); [|lia].
      exists st0. split_and!; try done. apply IH; [lia|done].
Qed.

(** * Events and aborts in any order *)

Inductive rec_op := Op_record (d : Z) (r : tr_rpc_record_header) | Op_abort (status : Z).

Definition rec_exec (op : rec_op) (s : tr_rpc_record_state) : tr_status * option tr_rpc_record_state :=
  match op with
  | Op_record d r => tr_rpc_record_state_apply (Some s) d (Some r)
  | Op_abort status => tr_rpc_record_state_abort (Some s) status
  end.

(** The state after the calls, accepted or not. *)
Definition rec_execs (s : tr_rpc_record_state) (ops : list rec_op) : tr_rpc_record_state :=
  fold_left (λ s op, default s (rec_exec op s).2) ops s.

Record call_inv (creq cresp : Z) (s : tr_rpc_record_state) : Prop := {
  ci_init : rs_initialized s = true;
  ci_request : rs_request_cardinality s = creq;
  ci_response : rs_response_cardinality s = cresp;
  ci_final : rs_terminal s = true → rs_final_status s < TR_RPC_STATUS_COUNT ∧
    (rs_final_status s = TR_RPC_STATUS_OK → rs_opened s = true ∧
     (creq = TR_RPC_ONE → rs_request_messages s = 1) ∧
     (cresp = TR_RPC_ONE → rs_response_messages s = 1))
}.

(** A call is refused and changes nothing, or is accepted on a state not terminal. *)
Lemma rec_exec_cases op s : rs_initialized s = true →
  (rec_exec op s).1 ≠ TR_OK ∧ (rec_exec op s).2 = Some s ∨
  rs_terminal s = false ∧ ∃ s', rec_exec op s = (TR_OK, Some s').
Proof.
  intros Hi. destruct op as [d r|status]; unfold rec_exec.
  - unfold tr_rpc_record_state_apply. rewrite Hi. simpl. case_if; [by left|].
    destruct (rs_terminal s); [by left|].
    destruct (tr_rpc_record_validate _ _) as [ret t]. destruct (is_ok ret) eqn:Hr; simpl.
    + case_match; [right; eauto|by left].
    + left. by apply is_ok_false in Hr.
  - unfold tr_rpc_record_state_abort. rewrite Hi. simpl. case_if; [by left|].
    destruct (rs_terminal s); [by left|right]. eauto.
Qed.

Lemma shape_status r : shape_ok r → rh_kind r = TR_RPC_RECORD_FINAL_STATUS →
  rh_status r < TR_RPC_STATUS_COUNT.
Proof.
  unfold shape_ok, tr_rpc_record_validate. intros H Hk. rewrite Hk in H. simpl in H.
  case_ifs_in H; simpl in *; simplify_eq; try done.
Qed.

(** An event either keeps the call going or is its final status. *)
Lemma apply_next_cases s d r s' :
  (if negb (rs_opened s) then apply_unopened s d r
   else if d =? TR_RPC_RECORD_REQUEST_DIRECTION then apply_request s r else apply_response s r) = Some s' →
  rs_initialized s' = rs_initialized s ∧ rs_request_cardinality s' = rs_request_cardinality s ∧
  rs_response_cardinality s' = rs_response_cardinality s ∧
  (rs_terminal s' = rs_terminal s ∨
   rh_kind r = TR_RPC_RECORD_FINAL_STATUS ∧ s' = set_terminal s (rh_status r) ∧
   (rh_status r = TR_RPC_STATUS_OK → rs_opened s = true ∧
     (rs_request_cardinality s = TR_RPC_ONE → rs_request_messages s = 1) ∧
     (rs_response_cardinality s = TR_RPC_ONE → rs_response_messages s = 1))).
Proof.
  destruct (rs_opened s) eqn:Eo; simpl; [destruct (d =? _)|].
  - unfold apply_request. intros H. case_ifs_in H; simpl; auto.
  - unfold apply_response. intros H. case_ifs_in H; simpl; split_and!; auto.
    right. split_and!; try done. intros E. destruct_or!; [done|]. destruct_and!.
    split_and!; try done; intros E'; bool_to_prop; intuition done.
  - unfold apply_unopened. intros H. case_ifs_in H; simpl; split_and!; auto.
    right. by split_and!.
Qed.

Lemma call_inv_exec creq cresp op s s' : call_inv creq cresp s →
  rec_exec op s = (TR_OK, Some s') → call_inv creq cresp s'.
Proof.
  intros [Hi Hq Hp Hf] H. destruct op as [d r|status]; unfold rec_exec in H.
  - destruct (apply_ok_event _ _ _ _ H) as (_ & Ht & Hr). rewrite apply_event in H by done.
    destruct (if negb _ then _ else _) as [next|] eqn:E in H; [|done]. injection H as <-.
    apply apply_next_cases in E as (E1 & E2 & E3 & Hcases). split; try congruence.
    destruct Hcases as [E4|(Hk & -> & Hok)]; [congruence|]. intros _. simpl.
    split; [by apply shape_status; [apply Hr|]|]. intros E. destruct (Hok E) as (Ho & H1 & H2).
    split_and!; [done|rewrite <- Hq; done|rewrite <- Hp; done].
  - unfold tr_rpc_record_state_abort in H. case_ifs_in H. split; simpl; try done.
    unfold TR_RPC_STATUS_OK, TR_RPC_STATUS_COUNT in *. intros _. rewrite u32_small by word_lia.
    split; [done|]. intros ->. lia.
Qed.

Lemma call_inv_execs creq cresp ops s : call_inv creq cresp s → call_inv creq cresp (rec_execs s ops).
Proof.
  revert s. induction ops as [|op ops IH]; intros s Hs; [done|]. simpl. apply IH.
  destruct (rec_exec_cases op s (ci_init _ _ _ Hs)) as [[_ ->]|[_ [s' E]]]; [done|].
  rewrite E. by eapply call_inv_exec.
Qed.

(** * Theorems: the call *)

Lemma state_init_fresh old creq cresp s :
  tr_rpc_record_state_init (Some old) creq cresp = (TR_OK, Some s) → s = fresh_state creq cresp.
Proof. unfold tr_rpc_record_state_init. intros H. case_ifs_in H. done. Qed.

(** C25: A fresh call accepts exactly the sequences of records of the grammar: nothing, a single
    refusal, or OPEN, then messages and a half close one way and initial metadata, messages
    and a final status that ends the call the other way, with the cardinalities kept; and
    its state then says where in the grammar it is. *)
Theorem record_calls_grammar (old s st : tr_rpc_record_state) (creq cresp : Z) l
    (Hinit : tr_rpc_record_state_init (Some old) creq cresp = (TR_OK, Some s))
    (Hlen : Z.of_nat (length l) ≤ UINT64_MAX) :
  record_run s l = Some st ↔ legal_call creq cresp l st.
Proof. apply state_init_fresh in Hinit as ->. by apply record_run_legal. Qed.

(** Whatever records and local aborts a call gets: one that is refused changes nothing;
    the first terminal wins and nothing changes the state after it; a call that is not over
    can be aborted; and a call is over with OK only if it was opened and both directions
    sent what their cardinality asks for. *)
Theorem record_first_terminal_wins (old s : tr_rpc_record_state) (creq cresp : Z) (ops : list rec_op)
    (Hinit : tr_rpc_record_state_init (Some old) creq cresp = (TR_OK, Some s)) :
  let st := rec_execs s ops in
  (∀ op, (rec_exec op st).1 ≠ TR_OK → (rec_exec op st).2 = Some st) ∧
  (rs_terminal st = true → ∀ more, rec_execs s (ops ++ more) = st) ∧
  (rs_terminal st = false → ∀ status, TR_RPC_STATUS_OK < status < TR_RPC_STATUS_COUNT →
     rec_exec (Op_abort status) st = (TR_OK, Some (set_terminal st status))) ∧
  (rs_terminal st = true → rs_final_status st < TR_RPC_STATUS_COUNT ∧
     (rs_final_status st = TR_RPC_STATUS_OK → rs_opened st = true ∧
      (creq = TR_RPC_ONE → rs_request_messages st = 1) ∧
      (cresp = TR_RPC_ONE → rs_response_messages st = 1))).
Proof.
  apply state_init_fresh in Hinit as ->. intros st.
  assert (call_inv creq cresp st) as Hst by (apply call_inv_execs; by split).
  pose proof (ci_init _ _ _ Hst) as Hi. split_and!.
  - intros op Hne. destruct (rec_exec_cases op st Hi) as [[_ ?]|[_ [s' E]]]; [done|by rewrite E in Hne].
  - intros Ht more. unfold rec_execs. rewrite fold_left_app. fold (rec_execs (fresh_state creq cresp) ops). fold st.
    induction more as [|op more IH]; [done|]. simpl.
    destruct (rec_exec_cases op st Hi) as [[_ ->]|[Ht' _]]; [done|congruence].
  - intros Ht status Hs. unfold rec_exec, tr_rpc_record_state_abort. rewrite Hi, Ht. simpl.
    unfold TR_RPC_STATUS_OK, TR_RPC_STATUS_COUNT in *.
    case_if; [exfalso; lia|]. by rewrite u32_small by word_lia.
  - apply (ci_final _ _ _ Hst).
Qed.

(** * A unary call *)

Definition demo_open : tr_rpc_record_header := mk_rh TR_RPC_RECORD_OPEN 7 9 0 0 0 0 2 0 1000.
Definition demo_message : tr_rpc_record_header := mk_rh TR_RPC_RECORD_MESSAGE 0 0 1 0 3 3 0 0 0.
Definition demo_half : tr_rpc_record_header := mk_rh TR_RPC_RECORD_HALF_CLOSE 0 0 0 0 0 0 0 0 0.
Definition demo_initial : tr_rpc_record_header := mk_rh TR_RPC_RECORD_INITIAL_METADATA 0 0 0 0 0 0 0 0 0.
Definition demo_final : tr_rpc_record_header := mk_rh TR_RPC_RECORD_FINAL_STATUS 0 0 0 0 0 0 0 0 0.

Definition demo_unary : list rec_event :=
  [(0, demo_open); (0, demo_message); (1, demo_initial); (0, demo_half); (1, demo_message); (1, demo_final)].

Definition demo_state : tr_rpc_record_state := mk_rs 1 1 1 1 0 true true true true true.

Lemma demo_header_ok : record_header_ok demo_open.
Proof. split; vm_compute; split; (discriminate || reflexivity). Qed.

Lemma record_roundtrip_witness :
  ∃ raw, tr_rpc_record_encode_header (Some (replicate 48 0)) 48 (Some demo_open) (Some shape_limits) =
      (TR_OK, Some (put_at (replicate 48 0) 0 raw)) ∧ alen raw = 48 ∧
    ∃ v, tr_rpc_record_decode (Some (raw ++ [65; 66] ++ [] ++ [1])) (alen (raw ++ [65; 66] ++ [] ++ [1]))
      (Some shape_limits) true true = (TR_OK, Some (v, 50)) ∧ rv_header v = demo_open.
Proof.
  destruct (record_roundtrip demo_open (Some shape_limits) 50 48 (replicate 48 0) [65; 66] [] [1])
    as (raw & He & Hl & v & Hd & Hh & _).
  - exact demo_header_ok.
  - vm_compute; reflexivity.
  - reflexivity.
  - vm_compute; discriminate.
  - reflexivity.
  - reflexivity.
  - repeat constructor; vm_compute; discriminate.
  - exists raw. split; [exact He|]. split; [exact Hl|]. exists v. split; [exact Hd|exact Hh].
Defined.

Definition demo_wire : list Z := record_bytes demo_open ++ [65; 66; 1].

Lemma demo_wire_ok : bytes_ok demo_wire.
Proof. apply bytes_ok_app; [apply bytes_ok_record|]. repeat constructor; vm_compute; discriminate. Qed.

Lemma record_decoded_canonical_witness :
  (50 = TR_RPC_RECORD_HEADER_SIZE + rh_metadata_size demo_open + rh_encoded_size demo_open) ∧
  50 ≤ alen demo_wire.
Proof.
  destruct (record_decoded_canonical demo_wire (Some shape_limits) (mk_rv demo_open (Some 48) None) 50)
    as (_ & Ht & Hl & _).
  - exact demo_wire_ok.
  - vm_compute. reflexivity.
  - split; [exact Ht|exact Hl].
Defined.

Lemma record_decode_incremental_witness :
  tr_rpc_record_decode (Some (take 49 demo_wire)) 49 (Some shape_limits) true true = (TR_AGAIN, None).
Proof.
  destruct (record_decode_incremental demo_wire (Some shape_limits) 49) as [_ H].
  - exact demo_wire_ok.
  - vm_compute; lia.
  - apply (H (mk_rv demo_open (Some 48) None) 50); [vm_compute; reflexivity|lia].
Defined.

Lemma record_calls_grammar_witness :
  record_run (fresh_state 1 1) demo_unary = Some demo_state ∧ legal_call 1 1 demo_unary demo_state.
Proof.
  assert (record_run (fresh_state 1 1) demo_unary = Some demo_state) as E by (vm_compute; reflexivity).
  split; [exact E|].
  apply (record_calls_grammar (fresh_state 1 1) (fresh_state 1 1) demo_state 1 1 demo_unary).
  - reflexivity.
  - vm_compute; discriminate.
  - exact E.
Defined.

Lemma record_first_terminal_wins_witness :
  rec_execs (fresh_state 1 1) ([Op_record 0 demo_open; Op_abort 4] ++ [Op_record 1 demo_final]) =
  rec_execs (fresh_state 1 1) [Op_record 0 demo_open; Op_abort 4].
Proof.
  apply (record_first_terminal_wins (fresh_state 1 1) (fresh_state 1 1) 1 1 [Op_record 0 demo_open; Op_abort 4]).
  - reflexivity.
  - vm_compute; reflexivity.
Defined.
