(* ===== verification/RecordStats.v ===== *)
(** Semantic call statistics: [src/rpc/rpc_record_stats.h], [include/tr/rpc.h].

    One owner counts the calls it starts and finishes, by final status; readers take
    snapshots and merge those of several owners.  Theorems: a snapshot that is returned is
    exact, and refused only when it could not be; merging adds snapshots or changes nothing. *)
From S2P Require Import Prelude Status RpcRecord.

Record tr_rpc_semantic_stats := mk_stats {
  calls_started : Z;
  calls_finished : Z;
  calls_inflight : Z;
  final_status : list Z
}.

Definition zero_stats : tr_rpc_semantic_stats :=
  mk_stats 0 0 0 (replicate (Z.to_nat TR_RPC_STATUS_COUNT) 0).

Record tr_rpc_record_semantic_counters := mk_counters {
  sc_value : tr_rpc_semantic_stats;
  sc_overflow : bool
}.

Definition zero_counters : tr_rpc_record_semantic_counters := mk_counters zero_stats false.

(** * Operations *)

Definition tr_rpc_record_semantic_start (c : tr_rpc_record_semantic_counters)
    : tr_rpc_record_semantic_counters :=
  let v := sc_value c in
  bail c when (sc_overflow c) ;;
  bail (mk_counters v true) when (calls_started v =? UINT64_MAX) ;;
  mk_counters (mk_stats (calls_started v + 1) (calls_finished v) (calls_inflight v) (final_status v))
    false.

(** [(uint32_t)status], out of range counted as INTERNAL. *)
Definition status_index (status : Z) : Z :=
  if u32 status >=? TR_RPC_STATUS_COUNT then TR_RPC_STATUS_INTERNAL else u32 status.

Definition tr_rpc_record_semantic_finish (c : tr_rpc_record_semantic_counters) (status : Z)
    : tr_rpc_record_semantic_counters :=
  let v := sc_value c in
  let index := status_index status in
  bail c when (sc_overflow c) ;;
  bail (mk_counters v true) when
    ((calls_finished v =? UINT64_MAX) || ((final_status v).[index] =? UINT64_MAX)) ;;
  mk_counters (mk_stats (calls_started v) (calls_finished v + 1) (calls_inflight v)
    ((final_status v).[index <- (final_status v).[index] + 1])) false.

(** [out] is the old value of [*out]. *)
Definition tr_rpc_record_semantic_stats_read (counters : option tr_rpc_record_semantic_counters)
    (out : option tr_rpc_semantic_stats) : tr_status * option tr_rpc_semantic_stats :=
  match counters, out with
  | Some c, Some _ =>
      let v := sc_value c in
      bail (TR_ERR_BAD_LENGTH, out) when (sc_overflow c || (calls_finished v >? calls_started v)) ;;
      (TR_OK, Some (mk_stats (calls_started v) (calls_finished v)
        (calls_started v - calls_finished v) (final_status v)))
  | _, _ => (TR_ERR_INVALID, out)
  end.

(** The loop over the final statuses, from index [i]; [None] is the early return. *)
Fixpoint merge_status (n : nat) (i : Z) (value src : list Z) : option (list Z) :=
  match n with
  | O => Some value
  | S n =>
      bail None when (src.[i] >? UINT64_MAX - value.[i]) ;;
      merge_status n (i + 1) (value.[i <- value.[i] + src.[i]]) src
  end.

Definition tr_rpc_record_semantic_stats_merge (dst src : option tr_rpc_semantic_stats)
    : tr_status * option tr_rpc_semantic_stats :=
  match dst, src with
  | Some d, Some s =>
      bail (TR_ERR_BAD_LENGTH, dst) when
        ((calls_started s >? UINT64_MAX - calls_started d) ||
         (calls_finished s >? UINT64_MAX - calls_finished d) ||
         (calls_inflight s >? UINT64_MAX - calls_inflight d)) ;;
      match merge_status (Z.to_nat TR_RPC_STATUS_COUNT) 0 (final_status d) (final_status s) with
      | None => (TR_ERR_BAD_LENGTH, dst)
      | Some f => (TR_OK, Some (mk_stats (calls_started d + calls_started s)
          (calls_finished d + calls_finished s) (calls_inflight d + calls_inflight s) f))
      end
  | _, _ => (TR_ERR_INVALID, dst)
  end.

(** * Histories *)

Inductive stats_event := Ev_start | Ev_finish (status : Z).

Definition count_event (c : tr_rpc_record_semantic_counters) (e : stats_event)
    : tr_rpc_record_semantic_counters :=
  match e with
  | Ev_start => tr_rpc_record_semantic_start c
  | Ev_finish status => tr_rpc_record_semantic_finish c status
  end.

Definition count_events (es : list stats_event) : tr_rpc_record_semantic_counters :=
  fold_left count_event es zero_counters.

(** What really happened. *)
Definition starts (es : list stats_event) : Z :=
  zsum (λ e, match e with Ev_start => 1 | _ => 0 end) es.
Definition finishes (es : list stats_event) : Z :=
  zsum (λ e, match e with Ev_finish _ => 1 | _ => 0 end) es.
Definition finishes_with (i : Z) (es : list stats_event) : Z :=
  zsum (λ e, match e with Ev_finish s => if status_index s =? i then 1 else 0 | _ => 0 end) es.

Lemma status_index_range s : 0 ≤ status_index s < TR_RPC_STATUS_COUNT.
Proof.
  unfold status_index, TR_RPC_STATUS_INTERNAL, TR_RPC_STATUS_COUNT. pose proof (u32_range s).
  case_if; word_lia.
Qed.

(** Without overflow every counter is the number of events it counts. *)
Record counters_exact (c : tr_rpc_record_semantic_counters) (es : list stats_event) : Prop := {
  ce_started : calls_started (sc_value c) = starts es;
  ce_finished : calls_finished (sc_value c) = finishes es;
  ce_length : alen (final_status (sc_value c)) = TR_RPC_STATUS_COUNT;
  ce_status i : 0 ≤ i < TR_RPC_STATUS_COUNT → (final_status (sc_value c)).[i] = finishes_with i es
}.

Lemma finishes_with_le i es : 0 ≤ finishes_with i es ≤ finishes es.
Proof.
  unfold finishes_with, finishes. induction es as [|[|s] es IH]; simpl; [lia|lia|]. case_if; lia.
Qed.

Lemma starts_snoc es e : starts (es ++ [e]) = starts es + match e with Ev_start => 1 | _ => 0 end.
Proof. unfold starts. rewrite zsum_app. simpl. lia. Qed.
Lemma finishes_snoc es e : finishes (es ++ [e]) = finishes es + match e with Ev_finish _ => 1 | _ => 0 end.
Proof. unfold finishes. rewrite zsum_app. simpl. lia. Qed.
Lemma finishes_with_snoc i es e : finishes_with i (es ++ [e]) = finishes_with i es +
  match e with Ev_finish s => if status_index s =? i then 1 else 0 | _ => 0 end.
Proof. unfold finishes_with. rewrite zsum_app. simpl. lia. Qed.

Lemma zero_counters_exact : counters_exact zero_counters [].
Proof.
  split; try done. intros i Hi. unfold aget. change (final_status _) with (replicate 17 0).
  rewrite list_lookup_total_alt, lookup_replicate_2 by (unfold TR_RPC_STATUS_COUNT in *; lia). done.
Qed.

(** Counting never exceeds the events, and the flag is raised exactly when they do not fit. *)
Lemma count_events_exact es :
  let c := count_events es in
  if sc_overflow c then UINT64_MAX < starts es ∨ UINT64_MAX < finishes es
  else counters_exact c es ∧ starts es ≤ UINT64_MAX ∧ finishes es ≤ UINT64_MAX.
Proof.
  induction es as [|e es IH] using rev_ind.
  { split; [apply zero_counters_exact|by vm_compute]. }
  unfold count_events in *. rewrite fold_left_app. simpl.
  set (c := fold_left count_event es zero_counters) in *. rewrite starts_snoc, finishes_snoc.
  destruct (sc_overflow c) eqn:Ho; destruct e as [|s]; simpl in *;
    unfold tr_rpc_record_semantic_start, tr_rpc_record_semantic_finish; rewrite Ho; simpl; rewrite ?Ho.
  - destruct IH as [|]; [left|right]; lia.
  - destruct IH as [|]; [left|right]; lia.
  - destruct IH as ([Hs Hf Hl Hst] & H1 & H2).
    destruct (Z.eqb_spec (calls_started (sc_value c)) UINT64_MAX); simpl; [left; lia|].
    split; [|word_lia]. split; simpl; rewrite ?starts_snoc, ?finishes_snoc; try done; try lia.
    intros i Hi. rewrite Hst, finishes_with_snoc by done. lia.
  - destruct IH as ([Hs Hf Hl Hst] & H1 & H2). pose proof (status_index_range s) as Hi.
    pose proof (finishes_with_le (status_index s) es) as Hle. rewrite Hst by done.
    destruct (_ || _) eqn:Hfull; bool_to_prop; simpl; [right; lia|].
    split; [|word_lia]. split; simpl; rewrite ?starts_snoc, ?finishes_snoc, ?alen_aset; try done; try lia.
    intros i Hi'. rewrite aget_aset, finishes_with_snoc by lia.
    destruct (Z.eqb_spec (status_index s) i) as [->|]; rewrite ?Hst by done; lia.
Qed.

(** * Merging *)

(** The loop adds the statuses from [i] on, or stops at one that does not fit. *)
Lemma merge_status_spec n i value src : 0 ≤ i → i + Z.of_nat n ≤ alen value →
  match merge_status n i value src with
  | Some f => alen f = alen value ∧
      (∀ j, 0 ≤ j → f.[j] = value.[j] + (if (i <=? j) && (j <? i + Z.of_nat n) then src.[j] else 0)) ∧
      (∀ j, i ≤ j < i + Z.of_nat n → value.[j] + src.[j] ≤ UINT64_MAX)
  | None => ∃ j, i ≤ j < i + Z.of_nat n ∧ UINT64_MAX < value.[j] + src.[j]
  end.
Proof.
  revert i value. induction n as [|n IH]; intros i value Hi Hl; cbn [merge_status].
  { split_and!; [done| |lia]. intros j Hj.
    destruct (Z.leb_spec i j), (Z.ltb_spec j (i + Z.of_nat 0)); simpl; lia. }
  destruct (src.[i] >? UINT64_MAX - value.[i]) eqn:E; rewrite Z.gtb_ltb in E; bool_to_prop.
  { exists i. lia. }
  specialize (IH (i + 1) (value.[i <- value.[i] + src.[i]]) ltac:(lia)).
  rewrite alen_aset in IH. specialize (IH ltac:(lia)).
  destruct (merge_status n _ _ _) as [f|].
  - destruct IH as (IHl & IHv & IHb). split_and!; [done| |].
    + intros j Hj. rewrite IHv, aget_aset by lia.
      destruct (Z.eqb_spec i j) as [Eij|], (Z.leb_spec (i + 1) j), (Z.ltb_spec j (i + 1 + Z.of_nat n)),
        (Z.leb_spec i j), (Z.ltb_spec j (i + Z.of_nat (S n))); try subst j; simpl; lia.
    + intros j Hj. destruct (decide (j = i)) as [->|]; [lia|].
      specialize (IHb j ltac:(lia)). rewrite aget_aset in IHb by lia.
      destruct (Z.eqb_spec i j); lia.
  - destruct IH as (j & Hj & Hb). exists j. split; [lia|].
    rewrite aget_aset in Hb by lia. destruct (Z.eqb_spec i j); lia.
Qed.

(** * Theorems *)

(** A snapshot [c] of [es] that is returned counts exactly what happened. *)
Definition snapshot_of (v : tr_rpc_semantic_stats) (es : list stats_event) : Prop :=
  calls_started v = starts es ∧ calls_finished v = finishes es ∧
  calls_inflight v = starts es - finishes es ∧ alen (final_status v) = TR_RPC_STATUS_COUNT ∧
  ∀ i, 0 ≤ i < TR_RPC_STATUS_COUNT → (final_status v).[i] = finishes_with i es.

(** After any starts and finishes, reading returns the exact counts, the calls still in
    flight included, precisely when they are representable and no call finished that had
    not started; otherwise it leaves the output as it was.  Once refused for overflow, it
    stays refused. *)
Theorem record_stats_exact (es : list stats_event) (old : tr_rpc_semantic_stats) :
  let out := tr_rpc_record_semantic_stats_read (Some (count_events es)) (Some old) in
  (starts es ≤ UINT64_MAX ∧ finishes es ≤ starts es → ∃ v, out = (TR_OK, Some v) ∧ snapshot_of v es) ∧
  (UINT64_MAX < starts es ∨ starts es < finishes es → out = (TR_ERR_BAD_LENGTH, Some old)) ∧
  (sc_overflow (count_events es) = true → ∀ more, sc_overflow (count_events (es ++ more)) = true).
Proof.
  pose proof (count_events_exact es) as H. cbv zeta in H. unfold tr_rpc_record_semantic_stats_read.
  cbv zeta. split_and!.
  - intros [Hs Hf]. destruct (sc_overflow _); [lia|]. destruct H as ([H1 H2 H3 H4] & _ & _).
    simpl. destruct (_ >? _) eqn:E; rewrite Z.gtb_ltb in E; bool_to_prop; [lia|].
    eexists. split; [done|]. unfold snapshot_of; simpl. split_and!; try done. lia.
  - intros Hbad. destruct (sc_overflow _); [done|]. destruct H as ([H1 H2 _ _] & ? & ?). simpl.
    destruct (_ >? _) eqn:E; rewrite Z.gtb_ltb in E; bool_to_prop; [done|lia].
  - intros Ho more. pose proof (count_events_exact (es ++ more)) as Hm. cbv zeta in Hm.
    destruct (sc_overflow (count_events (es ++ more))); [done|]. rewrite Ho in H.
    destruct Hm as (_ & Hs & Hf). exfalso. unfold starts, finishes in *. rewrite zsum_app in Hs, Hf.
    assert (∀ f : stats_event → Z, (∀ e, 0 ≤ f e) → 0 ≤ zsum f more) as Hpos by (intros; by apply zsum_nonneg).
    pose proof (Hpos (λ e, match e with Ev_start => 1 | _ => 0 end) ltac:(by intros [])).
    pose proof (Hpos (λ e, match e with Ev_finish _ => 1 | _ => 0 end) ltac:(by intros [])). lia.
Qed.

(** Merging two snapshots gives the snapshot of both histories together if all its counts
    are representable, and otherwise leaves the destination as it was. *)
Theorem record_stats_merge (d s : tr_rpc_semantic_stats) (es1 es2 : list stats_event)
    (H1 : snapshot_of d es1) (H2 : snapshot_of s es2)
    (Hf1 : finishes es1 ≤ starts es1) (Hf2 : finishes es2 ≤ starts es2) :
  (starts (es1 ++ es2) ≤ UINT64_MAX →
     ∃ v, tr_rpc_record_semantic_stats_merge (Some d) (Some s) = (TR_OK, Some v) ∧
       snapshot_of v (es1 ++ es2)) ∧
  (UINT64_MAX < starts (es1 ++ es2) →
     tr_rpc_record_semantic_stats_merge (Some d) (Some s) = (TR_ERR_BAD_LENGTH, Some d)).
Proof.
  destruct H1 as (A1 & A2 & A3 & A4 & A5), H2 as (B1 & B2 & B3 & B4 & B5).
  assert (starts (es1 ++ es2) = starts es1 + starts es2) as Es by (unfold starts; by rewrite zsum_app).
  assert (finishes (es1 ++ es2) = finishes es1 + finishes es2) as Ef by (unfold finishes; by rewrite zsum_app).
  assert (∀ i, finishes_with i (es1 ++ es2) = finishes_with i es1 + finishes_with i es2) as Ew
    by (intros i; unfold finishes_with; by rewrite zsum_app).
  pose proof (finishes_with_le 0 es1). pose proof (finishes_with_le 0 es2).
  unfold tr_rpc_record_semantic_stats_merge. rewrite A1, A2, A3, B1, B2, B3, !Z.gtb_ltb.
  pose proof (merge_status_spec 17 0 (final_status d) (final_status s) ltac:(lia)
    ltac:(rewrite A4; vm_compute; discriminate)) as Hm.
  change (Z.to_nat TR_RPC_STATUS_COUNT) with 17%nat. split; intros Hle.
  - rewrite !(proj2 (Z.ltb_ge _ _)) by lia. cbn [orb].
    destruct (merge_status 17 0 (final_status d) (final_status s)) as [f|].
    + destruct Hm as (Hl & Hv & _). eexists. split; [done|]. unfold snapshot_of; simpl.
      split_and!; try lia. intros i Hi. rewrite Hv, A5, B5, Ew by (unfold TR_RPC_STATUS_COUNT in *; lia).
      unfold TR_RPC_STATUS_COUNT in Hi.
      destruct (Z.leb_spec 0 i), (Z.ltb_spec i (0 + Z.of_nat 17)); simpl; lia.
    + destruct Hm as (j & Hj & Hb). exfalso. rewrite A5, B5 in Hb by (unfold TR_RPC_STATUS_COUNT; lia).
      pose proof (finishes_with_le j es1). pose proof (finishes_with_le j es2). lia.
  - rewrite (proj2 (Z.ltb_lt (UINT64_MAX - starts es1) (starts es2))) by lia. done.
Qed.

Definition stats_demo1 : list stats_event := [Ev_start; Ev_start; Ev_finish 4].
Definition stats_demo2 : list stats_event := [Ev_start; Ev_finish 99].

Definition snapshot (es : list stats_event) : tr_rpc_semantic_stats :=
  default zero_stats (tr_rpc_record_semantic_stats_read (Some (count_events es)) (Some zero_stats)).2.

Lemma snapshot_ok es : starts es ≤ UINT64_MAX → finishes es ≤ starts es → snapshot_of (snapshot es) es.
Proof.
  intros H1 H2. pose proof (count_events_exact es) as H. cbv zeta in H. unfold snapshot.
  unfold tr_rpc_record_semantic_stats_read. destruct (sc_overflow _); [lia|].
  destruct H as ([? ? ? ?] & _ & _). simpl.
  destruct (_ >? _) eqn:E; rewrite Z.gtb_ltb in E; bool_to_prop; [lia|].
  unfold snapshot_of; simpl. split_and!; try done. lia.
Qed.

Lemma record_stats_merge_witness :
  ∃ v, tr_rpc_record_semantic_stats_merge (Some (snapshot stats_demo1)) (Some (snapshot stats_demo2)) =
    (TR_OK, Some v) ∧ snapshot_of v (stats_demo1 ++ stats_demo2).
Proof.
  apply (record_stats_merge (snapshot stats_demo1) (snapshot stats_demo2) stats_demo1 stats_demo2);
    try (apply snapshot_ok; vm_compute; discriminate); vm_compute; discriminate.
Defined.
