(* ===== verification/RecordMetadata.v ===== *)
(** The custom metadata of records: [tr_record_metadata_valid] of
    [src/rpc/rpc_record_stream.c].

    Metadata is a sequence of entries: a byte for the key's length, two for the value's,
    the key, the value.  Theorem: the validator's loops end and accept exactly the
    encodings of entries with legal keys that are pairwise different. *)
From S2P Require Import Prelude Status Endian RpcRecord.

Definition TR_RPC_METADATA_MAX_KEY_LEN : Z := 63.

(** [a-z], [0-9], ['_'], ['.'] and ['-']. *)
Definition key_char_valid (ch : Z) : bool :=
  ((ch >=? 0x61) && (ch <=? 0x7a)) || ((ch >=? 0x30) && (ch <=? 0x39)) ||
  (ch =? 0x5f) || (ch =? 0x2e) || (ch =? 0x2d).

(** The loop over the bytes of a key, [n] of them from index [i]. *)
Fixpoint key_chars_valid (n : nat) (data : list Z) (i : Z) : bool :=
  match n with
  | O => true
  | S n => key_char_valid (data.[i]) && key_chars_valid n data (i + 1)
  end.

(** [n] bytes from an index. *)
Definition bytes_at (data : list Z) (i n : Z) : list Z := take (Z.to_nat n) (at_off data i).

(** The loop over the entries before [offset]: is the key of [key_size] bytes that [key] begins
    with there already?  [None] when the fuel runs out. *)
Fixpoint prior_loop (fuel : nat) (data : list Z) (prior offset key_size : Z) (key : list Z) : option bool :=
  match fuel with
  | O => None
  | S fuel =>
      if prior <? offset then
        let n := data.[prior] in
        bail (Some true) when ((n =? key_size) &&
          bool_decide (bytes_at data (prior + 3) n = take (Z.to_nat n) key)) ;;
        prior_loop fuel data (prior + (3 + n + tr_get_le16 (at_off data (prior + 1)))) offset key_size key
      else Some false
  end.

(** The loop over the entries. *)
Fixpoint metadata_loop (fuel : nat) (data : list Z) (offset size : Z) : option tr_status :=
  match fuel with
  | O => None
  | S fuel' =>
      bail (Some TR_OK) when (negb (offset <? size)) ;;
      bail (Some TR_ERR_BAD_LENGTH) when (size - offset <? 3) ;;
      let key_size := data.[offset] in
      let value_size := tr_get_le16 (at_off data (offset + 1)) in
      let entry_size := 3 + key_size + value_size in
      bail (Some TR_ERR_BAD_LENGTH) when ((key_size =? 0) ||
        (key_size >? TR_RPC_METADATA_MAX_KEY_LEN) || (entry_size >? size - offset)) ;;
      bail (Some TR_ERR_BAD_FLAGS) when
        (negb (key_chars_valid (Z.to_nat key_size) data (offset + 3))) ;;
      match prior_loop fuel data 0 offset key_size (at_off data (offset + 3)) with
      | None => None
      | Some true => Some TR_ERR_BAD_FLAGS
      | Some false => metadata_loop fuel' data (offset + entry_size) size
      end
  end.

(** Every entry takes four bytes at least: the size is fuel enough for both loops. *)
Definition tr_record_metadata_valid (data : option (list Z)) (size : Z) : option tr_status :=
  bail (Some TR_ERR_BAD_LENGTH) when ((size >? TR_RPC_METADATA_MAX_BYTES) ||
    (nz size && negb (bool_decide (is_Some data)))) ;;
  metadata_loop (S (Z.to_nat size)) (default [] data) 0 size.

(** * Specification *)

Definition meta_entry : Type := list Z * list Z.

Definition entry_bytes (e : meta_entry) : list Z :=
  alen e.1 :: tr_put_le16 (alen e.2) ++ e.1 ++ e.2.

Definition meta_bytes (es : list meta_entry) : list Z := concat (map entry_bytes es).

(** A legal entry: a key of 1 to 63 legal characters, a value with a 16-bit length. *)
Definition entry_ok (e : meta_entry) : Prop :=
  1 ≤ alen e.1 ≤ TR_RPC_METADATA_MAX_KEY_LEN ∧ forallb key_char_valid e.1 = true ∧ u16_ok (alen e.2) ∧
  bytes_ok e.2.

(** * Lemmas *)

Lemma key_char_byte ch : key_char_valid ch = true → u8_ok ch.
Proof.
  unfold key_char_valid, u8_ok. intros H. rewrite !orb_true_iff, !andb_true_iff, !Z.geb_leb, !Z.leb_le, !Z.eqb_eq in H.
  lia.
Qed.

Lemma forallb_key_bytes k : forallb key_char_valid k = true → bytes_ok k.
Proof.
  intros H. apply list.Forall_forall. intros x Hx. apply key_char_byte.
  rewrite forallb_forall in H. apply H. by apply list_elem_of_In.
Qed.

Lemma entry_length e : alen (entry_bytes e) = 3 + alen e.1 + alen e.2.
Proof. unfold entry_bytes, alen. cbn [length]. rewrite !length_app. cbn [length tr_put_le16]. lia. Qed.

Lemma entry_bytes_ok e : entry_ok e → bytes_ok (entry_bytes e).
Proof.
  intros (H1 & H2 & H3 & H4). unfold TR_RPC_METADATA_MAX_KEY_LEN in H1. constructor; [word_lia|].
  apply bytes_ok_app; [apply bytes_ok_put_le16|]. apply bytes_ok_app; [by apply forallb_key_bytes|done].
Qed.

Lemma meta_bytes_ok es : Forall entry_ok es → bytes_ok (meta_bytes es).
Proof.
  induction 1 as [|e es He _ IH]; [constructor|]. apply bytes_ok_app; [by apply entry_bytes_ok|done].
Qed.

Lemma meta_bytes_app l1 l2 : meta_bytes (l1 ++ l2) = meta_bytes l1 ++ meta_bytes l2.
Proof. unfold meta_bytes. by rewrite map_app, concat_app. Qed.

Lemma alen_app {A} (l1 l2 : list A) : alen (l1 ++ l2) = alen l1 + alen l2.
Proof. unfold alen. rewrite length_app. lia. Qed.

Lemma at_off_app (l1 l2 : list Z) i : 0 ≤ i → at_off (l1 ++ l2) (alen l1 + i) = at_off l2 i.
Proof.
  intros. unfold at_off, alen. replace (Z.to_nat (Z.of_nat (length l1) + i)) with (length l1 + Z.to_nat i)%nat by lia.
  rewrite <- drop_drop. by rewrite drop_app_length.
Qed.

Lemma aget_at_off (l : list Z) i : 0 ≤ i → l.[i] = (at_off l i).[0].
Proof.
  intros. unfold aget, at_off. rewrite !list_lookup_total_alt, lookup_drop. do 2 f_equal. lia.
Qed.

(** The entry an offset points at, if the bytes from there are [entry_bytes e ++ rest]. *)
Record entry_at (data : list Z) (off : Z) (e : meta_entry) : Prop := {
  ea_key : data.[off] = alen e.1;
  ea_value : tr_get_le16 (at_off data (off + 1)) = alen e.2;
  ea_bytes : bytes_at data (off + 3) (alen e.1) = e.1;
  ea_chars : key_chars_valid (Z.to_nat (alen e.1)) data (off + 3) = forallb key_char_valid e.1
}.

Lemma key_chars_at (n : nat) data i : 0 ≤ i → i + Z.of_nat n ≤ alen data →
  key_chars_valid n data i = forallb key_char_valid (bytes_at data i (Z.of_nat n)).
Proof.
  revert i. induction n as [|n IH]; intros i Hi Hl.
  { unfold bytes_at. by rewrite take_0. }
  cbn [key_chars_valid]. rewrite IH by lia. unfold bytes_at. rewrite !Nat2Z.id.
  assert (at_off data i = data.[i] :: at_off data (i + 1)) as ->; [|done].
  unfold at_off. replace (Z.to_nat (i + 1)) with (S (Z.to_nat i)) by lia.
  apply drop_S, aget_lookup. lia.
Qed.

Lemma entry_at_app pre e rest : u16_ok (alen e.2) → bytes_ok (e.1 ++ e.2 ++ rest) →
  entry_at (pre ++ entry_bytes e ++ rest) (alen pre) e.
Proof.
  intros Hv Hb.
  assert (∀ i, 0 ≤ i → at_off (pre ++ entry_bytes e ++ rest) (alen pre + i) = at_off (entry_bytes e ++ rest) i) as Hoff.
  { intros. by apply at_off_app. }
  assert (bytes_at (pre ++ entry_bytes e ++ rest) (alen pre + 3) (alen e.1) = e.1) as Hk.
  { unfold bytes_at. rewrite Hoff by lia.
    change (at_off (entry_bytes e ++ rest) 3) with ((e.1 ++ e.2) ++ rest).
    rewrite <- app_assoc. apply take_app_length'. unfold alen. lia. }
  split; [| |done|].
  - rewrite aget_at_off by apply alen_nonneg. rewrite <- (Z.add_0_r (alen pre)), Hoff by lia. done.
  - rewrite Hoff by lia. unfold entry_bytes.
    change (at_off _ 1) with ((tr_put_le16 (alen e.2) ++ e.1 ++ e.2) ++ rest).
    rewrite <- !app_assoc. by apply get_put_le16.
  - rewrite key_chars_at.
    + rewrite Z2Nat.id by apply alen_nonneg. by rewrite Hk.
    + pose proof (alen_nonneg pre). lia.
    + rewrite !alen_app, entry_length. pose proof (alen_nonneg rest). pose proof (alen_nonneg e.2).
      rewrite Z2Nat.id by apply alen_nonneg. lia.
Qed.

(** Every key found before the current entry, and none other, stops the inner loop. *)
Lemma prior_loop_spec fuel done todo tail key ptr : Forall entry_ok (done ++ todo) →
  bytes_ok tail → (length todo < fuel)%nat →
  take (Z.to_nat (alen key)) ptr = key →
  prior_loop fuel (meta_bytes (done ++ todo) ++ tail) (alen (meta_bytes done))
    (alen (meta_bytes (done ++ todo))) (alen key) ptr =
  Some (bool_decide (key ∈ map fst todo)).
Proof.
  revert done fuel. induction todo as [|e todo IH]; intros done fuel Hok Htail Hf Hkey.
  { destruct fuel as [|fuel]; [simpl in Hf; lia|]. rewrite app_nil_r in *. cbn [prior_loop map].
    rewrite Z.ltb_irrefl. transitivity (Some false); [done|]. by rewrite bool_decide_false by (by intros ?%elem_of_nil). }
  destruct fuel as [|fuel]; [simpl in Hf; lia|].
  assert (meta_bytes (done ++ e :: todo) ++ tail =
    meta_bytes done ++ entry_bytes e ++ (meta_bytes todo ++ tail)) as Edata.
  { rewrite meta_bytes_app. change (meta_bytes (e :: todo)) with (entry_bytes e ++ meta_bytes todo).
    by rewrite <- !app_assoc. }
  assert (alen (meta_bytes (done ++ e :: todo)) = alen (meta_bytes done) + (3 + alen e.1 + alen e.2) + alen (meta_bytes todo)) as Elen.
  { rewrite meta_bytes_app, alen_app. change (meta_bytes (e :: todo)) with (entry_bytes e ++ meta_bytes todo).
    rewrite alen_app, entry_length. lia. }
  apply Forall_app in Hok as [Hdone Hok]. apply Forall_cons in Hok as [He Htodo].
  pose proof He as (He1 & He2 & He3 & He4).
  assert (bytes_ok (e.1 ++ e.2 ++ (meta_bytes todo ++ tail))) as Hb.
  { apply bytes_ok_app; [by apply forallb_key_bytes|]. apply bytes_ok_app; [done|].
    apply bytes_ok_app; [by apply meta_bytes_ok|done]. }
  destruct (entry_at_app (meta_bytes done) e (meta_bytes todo ++ tail) He3 Hb) as [E1 E2 E3 _].
  rewrite <- Edata in E1, E2, E3. cbn [prior_loop].
  pose proof (alen_nonneg (meta_bytes todo)). pose proof (alen_nonneg e.2).
  rewrite (proj2 (Z.ltb_lt _ _)) by lia. rewrite E1.
  destruct (decide (e.1 = key)) as [Ekey|Hne]; [subst key|].
  - rewrite Z.eqb_refl. rewrite bool_decide_true by (by rewrite E3, Hkey). simpl.
    by rewrite bool_decide_true by (by left).
  - assert ((alen e.1 =? alen key) && bool_decide (bytes_at (meta_bytes (done ++ e :: todo) ++ tail)
      (alen (meta_bytes done) + 3) (alen e.1) = take (Z.to_nat (alen e.1)) ptr) = false) as ->.
    { destruct (Z.eqb_spec (alen e.1) (alen key)) as [El|]; [|done]. simpl.
      apply bool_decide_eq_false. rewrite E3, El, Hkey. done. }
    rewrite E2. replace (done ++ e :: todo) with ((done ++ [e]) ++ todo) in * by (by rewrite <- app_assoc).
    replace (alen (meta_bytes done) + (3 + alen e.1 + alen e.2)) with (alen (meta_bytes (done ++ [e]))).
    2: { rewrite meta_bytes_app, alen_app. change (meta_bytes [e]) with (entry_bytes e ++ []).
         rewrite app_nil_r, entry_length. lia. }
    rewrite IH; [| |done|simpl in Hf; lia|done].
    + f_equal. apply bool_decide_ext. simpl. rewrite elem_of_cons. split; [by right|]. by intros [E|].
    + apply Forall_app; split; [|done]. apply Forall_app; split; [done|by apply Forall_singleton].
Qed.

(** Bytes that begin with an entry the loop accepts are that entry and a rest. *)
Lemma take_entry data : bytes_ok data → 3 ≤ alen data →
  1 ≤ data.[0] ≤ TR_RPC_METADATA_MAX_KEY_LEN →
  3 + data.[0] + tr_get_le16 (at_off data 1) ≤ alen data →
  key_chars_valid (Z.to_nat (data.[0])) data 3 = true →
  ∃ e rest, data = entry_bytes e ++ rest ∧ entry_ok e.
Proof.
  intros Hb Hl Hk He Hc.
  assert (u16_ok (tr_get_le16 (at_off data 1))) as Hv.
  { apply tr_get_le16_range; [by apply bytes_ok_drop|]. unfold at_off, alen in *. rewrite length_drop. lia. }
  destruct data as [|k [|b0 [|b1 body]]]; try (unfold alen in Hl; simpl in Hl; lia).
  change ((k :: b0 :: b1 :: body).[0]) with k in *.
  set (v := tr_get_le16 (at_off (k :: b0 :: b1 :: body) 1)) in *.
  assert (alen (k :: b0 :: b1 :: body) = 3 + alen body) as El by (unfold alen; simpl; lia).
  unfold u16_ok in Hv. set (key := take (Z.to_nat k) body).
  set (val := take (Z.to_nat v) (drop (Z.to_nat k) body)). set (rest := drop (Z.to_nat k + Z.to_nat v) body).
  unfold TR_RPC_METADATA_MAX_KEY_LEN in Hk. unfold alen in El, He.
  assert (alen key = k) as Elk by (unfold alen, key; rewrite length_take; lia).
  assert (alen val = v) as Elv by (unfold alen, val; rewrite length_take, length_drop; lia).
  assert (body = key ++ val ++ rest) as Ebody.
  { unfold key, val, rest. rewrite <- drop_drop, take_drop. by rewrite take_drop. }
  assert (bytes_ok [b0; b1] ∧ bytes_ok body) as [Hb01 Hbody].
  { apply Forall_cons in Hb as [_ Hb]. apply Forall_cons in Hb as [? Hb].
    apply Forall_cons in Hb as [? Hb]. split; [|done].
    apply Forall_cons; split; [done|]. by apply Forall_singleton. }
  exists (key, val), rest. split.
  - unfold entry_bytes. cbn [fst snd]. rewrite Elk, Elv.
    assert (tr_put_le16 v = [b0; b1]) as ->.
    { unfold v. change (at_off (k :: b0 :: b1 :: body) 1) with ([b0; b1] ++ body).
      rewrite put_get_le16; [done|by apply bytes_ok_app|]. rewrite alen_app. pose proof (alen_nonneg body).
      unfold alen at 1. simpl. lia. }
    simpl. do 3 f_equal. by rewrite <- app_assoc.
  - unfold entry_ok. cbn [fst snd]. rewrite Elk, Elv. unfold TR_RPC_METADATA_MAX_KEY_LEN. split_and!; try lia.
    + rewrite key_chars_at in Hc by (unfold alen; lia). unfold bytes_at in Hc.
      rewrite !Z2Nat.id in Hc by lia. exact Hc.
    + unfold u16_ok. lia.
    + by apply bytes_ok_take, bytes_ok_drop.
Qed.

Definition meta_tail_ok (parsed : list meta_entry) (tail : list Z) : Prop :=
  ∃ es, tail = meta_bytes es ∧ Forall entry_ok es ∧ NoDup (map fst (parsed ++ es)).

Lemma entry_head e rest : u16_ok (alen e.2) → bytes_ok (e.1 ++ e.2 ++ rest) →
  (entry_bytes e ++ rest).[0] = alen e.1 ∧ tr_get_le16 (at_off (entry_bytes e ++ rest) 1) = alen e.2 ∧
  key_chars_valid (Z.to_nat (alen e.1)) (entry_bytes e ++ rest) 3 = forallb key_char_valid e.1.
Proof.
  intros Hv Hb. destruct (entry_at_app [] e rest Hv Hb) as [E1 E2 _ E4]. done.
Qed.

Lemma entry_unique e e' rest rest' : entry_ok e → entry_ok e' → bytes_ok rest → bytes_ok rest' →
  entry_bytes e ++ rest = entry_bytes e' ++ rest' → e = e' ∧ rest = rest'.
Proof.
  intros He He' Hr Hr' E.
  assert (∀ e rest, entry_ok e → bytes_ok rest → bytes_ok (e.1 ++ e.2 ++ rest)) as Hb.
  { intros x r (_ & H2 & _ & H4) Hr0. apply bytes_ok_app; [by apply forallb_key_bytes|by apply bytes_ok_app]. }
  destruct (entry_head e rest (proj1 (proj2 (proj2 He))) (Hb e rest He Hr)) as (E1 & E2 & _).
  destruct (entry_head e' rest' (proj1 (proj2 (proj2 He'))) (Hb e' rest' He' Hr')) as (E1' & E2' & _).
  rewrite E in E1, E2. rewrite E1 in E1'. rewrite E2 in E2'. unfold alen in E1', E2'.
  apply (f_equal (drop 3)) in E.
  change (drop 3 (entry_bytes e ++ rest)) with ((e.1 ++ e.2) ++ rest) in E.
  change (drop 3 (entry_bytes e' ++ rest')) with ((e'.1 ++ e'.2) ++ rest') in E.
  rewrite <- !app_assoc in E. apply app_inj_1 in E as [Ea E]; [|lia].
  apply app_inj_1 in E as [Eb E]; [|lia]. by destruct e, e'; simpl in *; subst.
Qed.

(** The loop at the end of the entries parsed so far. *)
Lemma metadata_loop_spec fuel parsed tail : Forall entry_ok parsed → NoDup (map fst parsed) →
  bytes_ok tail → (length parsed + length tail < fuel)%nat →
  ∃ r, metadata_loop fuel (meta_bytes parsed ++ tail) (alen (meta_bytes parsed))
      (alen (meta_bytes parsed ++ tail)) = Some r ∧
    (r = TR_OK ↔ meta_tail_ok parsed tail) ∧ (r = TR_OK ∨ is_error r = true).
Proof.
  revert parsed tail. induction fuel as [|fuel IH]; intros parsed tail Hp Hnd Htail Hf; [lia|].
  cbn [metadata_loop]. rewrite alen_app.
  set (off := alen (meta_bytes parsed)). pose proof (alen_nonneg tail) as Hlt. unfold alen in Hf, Hlt.
  assert (0 ≤ off) as Hoff by apply alen_nonneg.
  assert (∀ i, 0 ≤ i → at_off (meta_bytes parsed ++ tail) (off + i) = at_off tail i) as Hat.
  { intros. by apply at_off_app. }
  assert ((meta_bytes parsed ++ tail).[off] = tail.[0]) as Hget.
  { rewrite aget_at_off, <- (Z.add_0_r off), Hat by lia. done. }
  destruct (Z.ltb_spec off (off + alen tail)) as [Hlt'|Hge]; simpl negb.
  2: { destruct tail; [|unfold alen in Hge; simpl in Hge; lia]. exists TR_OK. split_and!; try done; [|by left].
       split; [|done]. intros _. exists []. rewrite app_nil_r. done. }
  (* a failed test: no list of entries fits *)
  assert (∀ P : Prop, (∀ e es, tail = entry_bytes e ++ meta_bytes es → entry_ok e → Forall entry_ok es →
     e.1 ∉ map fst parsed → P) → meta_tail_ok parsed tail → P) as Hhead.
  { intros P HP ([|e es] & -> & Hes & Hnd').
    { unfold alen in Hlt'. simpl in Hlt'. lia. }
    apply Forall_cons in Hes as [He Hes]. apply (HP e es); [done|done|done|].
    rewrite map_app in Hnd'. apply NoDup_app in Hnd' as (_ & Hdis & _). intros Hin. apply (Hdis _ Hin). by left. }
  assert (∀ e es, entry_ok e → Forall entry_ok es → bytes_ok (e.1 ++ e.2 ++ meta_bytes es)) as Hb.
  { intros e es (_ & H2 & _ & H4) Hes. apply bytes_ok_app; [by apply forallb_key_bytes|].
    apply bytes_ok_app; [done|by apply meta_bytes_ok]. }
  destruct (Z.ltb_spec (off + alen tail - off) 3) as [Hshort|H3].
  { exists TR_ERR_BAD_LENGTH. split_and!; [done| |by right]. split; [done|]. apply Hhead.
    intros e es -> (He & _) _ _. rewrite alen_app, entry_length in Hshort.
    pose proof (alen_nonneg e.2). pose proof (alen_nonneg (meta_bytes es)). lia. }
  rewrite Hget, Hat by lia. set (k := tail.[0]). set (v := tr_get_le16 (at_off tail 1)).
  destruct ((k =? 0) || (k >? TR_RPC_METADATA_MAX_KEY_LEN) || (3 + k + v >? off + alen tail - off)) eqn:Elen.
  { exists TR_ERR_BAD_LENGTH. split_and!; [done| |by right]. split; [done|]. apply Hhead.
    intros e es E He Hes _. destruct (entry_head e (meta_bytes es)) as (E1 & E2 & _); [apply He|by apply Hb|].
    rewrite <- E in E1, E2. fold k in E1. fold v in E2. destruct He as (He & _).
    assert (alen tail = 3 + k + v + alen (meta_bytes es)) as El by (rewrite E, alen_app, entry_length; lia).
    pose proof (alen_nonneg (meta_bytes es)). rewrite !orb_true_iff, !Z.gtb_ltb, !Z.ltb_lt, Z.eqb_eq in Elen.
    unfold TR_RPC_METADATA_MAX_KEY_LEN in *. lia. }
  assert (1 ≤ k ∨ k < 0) as Hk0 by (bool_to_prop; lia).
  assert (k ≤ TR_RPC_METADATA_MAX_KEY_LEN ∧ 3 + k + v ≤ alen tail) as [Hk63 Hfit].
  { rewrite !orb_false_iff, !Z.gtb_ltb, !Z.ltb_ge, Z.eqb_neq in Elen. lia. }
  assert (0 ≤ k) as Hkpos.
  { assert (u8_ok k) as Hk8; [|unfold u8_ok in Hk8; lia]. unfold k.
    destruct tail as [|x tail]; [unfold alen in H3; simpl in H3; lia|]. by apply Forall_cons in Htail as [? _]. }
  assert (key_chars_valid (Z.to_nat k) (meta_bytes parsed ++ tail) (off + 3) =
    key_chars_valid (Z.to_nat k) tail 3) as ->.
  { assert (0 ≤ v) as Hv by (apply tr_get_le16_range; [by apply bytes_ok_drop|];
      unfold at_off, alen in *; rewrite length_drop; lia).
    rewrite !key_chars_at by (rewrite ?alen_app; unfold off in *; lia).
    unfold bytes_at. by rewrite Hat by lia. }
  destruct (key_chars_valid (Z.to_nat k) tail 3) eqn:Ech; simpl negb.
  2: { exists TR_ERR_BAD_FLAGS. split_and!; [done| |by right]. split; [done|]. apply Hhead.
       intros e es E He Hes _. destruct (entry_head e (meta_bytes es)) as (E1 & _ & E3); [apply He|by apply Hb|].
       rewrite <- E in E1, E3. fold k in E1. rewrite <- E1, Ech in E3. destruct He as (_ & He & _). congruence. }
  destruct (take_entry tail Htail ltac:(lia) ltac:(fold k; lia) ltac:(fold k v; lia) Ech)
    as (e & rest & E & He).
  assert (bytes_ok rest) as Hrest by (rewrite E in Htail; by apply Forall_app in Htail as [_ ?]).
  pose proof He as (He1 & He2 & He3 & He4).
  destruct (entry_head e rest He3) as (E1 & E2 & _).
  { apply bytes_ok_app; [by apply forallb_key_bytes|by apply bytes_ok_app]. }
  rewrite <- E in E1, E2. fold k in E1. fold v in E2.
  pose proof (prior_loop_spec (S fuel) [] parsed tail e.1 (at_off tail 3)) as Hprior. simpl app in Hprior.
  change (alen (meta_bytes [])) with 0 in Hprior. fold off in Hprior. rewrite E1, Hat by lia.
  rewrite Hprior; [|done|done|lia|].
  2: { rewrite E.
       change (at_off (entry_bytes e ++ rest) 3) with ((e.1 ++ e.2) ++ rest).
       rewrite <- app_assoc. apply take_app_length'. unfold alen. lia. }
  case_bool_decide as Hin.
  { exists TR_ERR_BAD_FLAGS. split_and!; [done| |by right]. split; [done|]. apply Hhead.
    intros e' es E' He' Hes Hnot. rewrite E in E'. apply entry_unique in E' as [-> _]; try done.
    by apply meta_bytes_ok. }
  assert (meta_bytes parsed ++ tail = meta_bytes (parsed ++ [e]) ++ rest) as Edata.
  { rewrite meta_bytes_app. change (meta_bytes [e]) with (entry_bytes e ++ []).
    by rewrite app_nil_r, <- app_assoc, <- E. }
  assert (off + (3 + alen e.1 + v) = alen (meta_bytes (parsed ++ [e]))) as ->.
  { rewrite meta_bytes_app, alen_app. change (meta_bytes [e]) with (entry_bytes e ++ []).
    rewrite app_nil_r, entry_length. unfold off. lia. }
  assert (off + alen tail = alen (meta_bytes (parsed ++ [e]) ++ rest)) as ->.
  { rewrite <- Edata, alen_app. done. }
  rewrite Edata. destruct (IH (parsed ++ [e]) rest) as (r & -> & Hr & Hkind).
  - apply Forall_app; split; [done|by apply Forall_singleton].
  - rewrite map_app. apply NoDup_app. split_and!; [done| |by apply NoDup_singleton].
    intros x Hx Hx'. apply list_elem_of_singleton in Hx' as ->. done.
  - done.
  - assert (alen tail = alen (entry_bytes e) + alen rest) as El by (by rewrite E, alen_app).
    rewrite entry_length in El. pose proof (alen_nonneg e.2). rewrite length_app. unfold alen in *. simpl. lia.
  - exists r. split_and!; [done| |done]. rewrite Hr. unfold meta_tail_ok. split.
    + intros (es & -> & Hes & Hnd'). exists (e :: es). split_and!; [by rewrite E|by constructor|].
      by rewrite <- app_assoc in Hnd'.
    + intros (es & Ees & Hes & Hnd'). destruct es as [|e' es].
      { rewrite Ees in H3. unfold alen in H3. simpl in H3. lia. }
      apply Forall_cons in Hes as [He' Hes].
      assert (entry_bytes e ++ rest = entry_bytes e' ++ meta_bytes es) as Eq by (by rewrite <- E, Ees).
      apply entry_unique in Eq as [-> ->]; try done; [|by apply meta_bytes_ok].
      exists es. split_and!; try done. by rewrite <- app_assoc.
Qed.

Lemma metadata_accepted es : Forall entry_ok es → NoDup (map fst es) →
  alen (meta_bytes es) ≤ TR_RPC_METADATA_MAX_BYTES →
  tr_record_metadata_valid (Some (meta_bytes es)) (alen (meta_bytes es)) = Some TR_OK.
Proof.
  intros Hes Hnd Hs. unfold tr_record_metadata_valid. rewrite bool_decide_true by eauto. cbn [negb].
  rewrite andb_false_r, orb_false_r, Z.gtb_ltb, (proj2 (Z.ltb_ge _ _) Hs).
  destruct (metadata_loop_spec (S (Z.to_nat (alen (meta_bytes es)))) [] (meta_bytes es)) as (r & Hr & Hiff & _);
    [done|constructor|by apply meta_bytes_ok|unfold alen; simpl; lia|].
  cbn [default id]. etransitivity; [exact Hr|]. f_equal. apply Hiff. by exists es.
Qed.

(** * Theorem *)

(** The validator always returns, and accepts exactly at most 512 bytes that are the
    encoding of entries with legal, pairwise different keys. *)
Theorem record_metadata_valid_iff (data : list Z) (Hdata : bytes_ok data) :
  ∃ r, tr_record_metadata_valid (Some data) (alen data) = Some r ∧
    (r = TR_OK ∨ is_error r = true) ∧
    (r = TR_OK ↔ alen data ≤ TR_RPC_METADATA_MAX_BYTES ∧
       ∃ es, data = meta_bytes es ∧ Forall entry_ok es ∧ NoDup (map fst es)).
Proof.
  unfold tr_record_metadata_valid. rewrite bool_decide_true by eauto. cbn [negb]. rewrite andb_false_r, orb_false_r.
  rewrite Z.gtb_ltb. destruct (Z.ltb_spec TR_RPC_METADATA_MAX_BYTES (alen data)) as [|Hle].
  { exists TR_ERR_BAD_LENGTH. split_and!; [done|by right|]. split; [done|]. intros [? _]. lia. }
  destruct (metadata_loop_spec (S (Z.to_nat (alen data))) [] data) as (r & Hr & Hiff & Hk);
    [done|constructor|done|unfold alen; simpl; lia|].
  exists r. split_and!; [done|done|]. rewrite Hiff. unfold meta_tail_ok. simpl. split; [|by intros [_ ?]].
  intros H. split; [lia|done].
Qed.

(** Two entries: "k1" with a value of three bytes and "a-b" with none. *)
Definition demo_metadata : list Z := [2; 3; 0; 0x6b; 0x31; 1; 2; 3; 3; 0; 0; 0x61; 0x2d; 0x62].

Lemma record_metadata_valid_iff_witness :
  ∃ es, demo_metadata = meta_bytes es ∧ Forall entry_ok es ∧ NoDup (map fst es).
Proof.
  destruct (record_metadata_valid_iff demo_metadata) as (r & Hr & _ & Hiff).
  - repeat (apply Forall_cons; split; [vm_compute; split; (discriminate || reflexivity)|]). constructor.
  - assert (tr_record_metadata_valid (Some demo_metadata) (alen demo_metadata) = Some TR_OK) as E
      by (vm_compute; reflexivity).
    rewrite E in Hr. injection Hr as <-. apply Hiff. reflexivity.
Defined.
