(* ===== verification/RpcMetadata.v ===== *)
(** The application's side of metadata: encoder and view of [src/rpc/rpc_v2.c], and the raw
    codec of [rpc_codec.c].

    Theorems: the encoder accepts exactly the lists of entries the record layer's validator
    accepts encoded, and writes their encoding; a view of an encoding gives its entries back,
    by count, by index and by key. *)
From S2P Require Import Prelude Status Endian RpcRecord RecordMetadata.

(** * Data *)

(** [key] is a C string: its characters, ended by the first 0 or by their end.  [value] is
    the bytes from the pointer on. *)
Record tr_rpc_metadata := mk_metadata {
  md_key : option (list Z);
  md_value : option (list Z);
  md_value_len : Z
}.

Record tr_rpc_bytes := mk_rpc_bytes { rb_data : option (list Z); rb_len : Z }.

Record tr_rpc_v2_metadata_view := mk_view { mv_data : option (list Z); mv_size : Z }.

Record tr_rpc_v2_metadata_entry := mk_view_entry { ve_key : tr_rpc_bytes; ve_value : tr_rpc_bytes }.

Definition zero_view_entry : tr_rpc_v2_metadata_entry :=
  mk_view_entry (mk_rpc_bytes None 0) (mk_rpc_bytes None 0).

(** * Encoding *)

(** The characters of a C string are followed by a 0. *)
Definition char_at (key : list Z) (n : Z) : Z := default 0 (key !! Z.to_nat n).

(** [while (n <= MAX && key[n]) ++n] *)
Fixpoint key_length (fuel : nat) (key : list Z) (n : Z) : Z :=
  match fuel with
  | O => n
  | S fuel => if (n <=? TR_RPC_METADATA_MAX_KEY_LEN) && nz (char_at key n) then key_length fuel key (n + 1) else n
  end.

(** [n] reaches 64 at most. *)
Definition key_size_of (key : list Z) : Z := key_length 65 key 0.

(** The loop over the entries; [None] when the fuel of the inner loop runs out. *)
Fixpoint encode_loop (entries : list tr_rpc_metadata) (out : list Z) (used : Z)
    : option (tr_status * list Z * Z) :=
  match entries with
  | [] => Some (TR_OK, out, used)
  | entry :: entries =>
      match md_key entry with
      | None => Some (TR_ERR_INVALID, out, used)
      | Some key =>
          bail (Some (TR_ERR_INVALID, out, used)) when
            (nz (md_value_len entry) && negb (bool_decide (is_Some (md_value entry)))) ;;
          let key_size := key_size_of key in
          let entry_size := 3 + key_size + md_value_len entry in
          bail (Some (TR_ERR_BAD_LENGTH, out, used)) when
            ((key_size =? 0) || (key_size >? TR_RPC_METADATA_MAX_KEY_LEN) ||
             (entry_size >? TR_RPC_METADATA_MAX_BYTES - used)) ;;
          bail (Some (TR_ERR_BAD_FLAGS, out, used)) when (negb (key_chars_valid (Z.to_nat key_size) key 0)) ;;
          match prior_loop (S (Z.to_nat used)) out 0 used key_size key with
          | None => None
          | Some true => Some (TR_ERR_BAD_FLAGS, out, used)
          | Some false =>
              let out := put_at out used [u8 key_size] in
              let out := put_at out (used + 1) (tr_put_le16 (md_value_len entry)) in
              let out := put_at out (used + 3) (take (Z.to_nat key_size) key) in
              let out :=
                if nz (md_value_len entry)
                then put_at out (used + 3 + key_size) (take (Z.to_nat (md_value_len entry)) (default [] (md_value entry)))
                else out in
              encode_loop entries out (used + entry_size)
          end
      end
  end.

(** [out] is at least [TR_RPC_METADATA_MAX_BYTES] long. *)
Definition tr_rpc_v2_metadata_encode (entries : option (list tr_rpc_metadata)) (count : Z)
    (out : option (list Z)) (size : option Z) : option (tr_status * option (list Z) * option Z) :=
  match out, size with
  | Some o, Some _ =>
      bail (Some (TR_ERR_INVALID, out, size)) when
        ((nz count && negb (bool_decide (is_Some entries))) || (count >? TR_RPC_METADATA_MAX_BYTES / 4)) ;;
      match encode_loop (take (Z.to_nat count) (default [] entries)) o 0 with
      | Some (TR_OK, o, used) => Some (TR_OK, Some o, Some (u32 used))
      | Some (ret, o, _) => Some (ret, Some o, size)
      | None => None
      end
  | _, _ => Some (TR_ERR_INVALID, out, size)
  end.

(** * Views *)

Definition tr_rpc_v2_metadata_view_init (out : option tr_rpc_v2_metadata_view) (data : option (list Z))
    (size : Z) : option tr_rpc_v2_metadata_view :=
  match out with None => None | Some _ => Some (mk_view data size) end.

Definition tr_rpc_v2_metadata_next (view : option tr_rpc_v2_metadata_view) (offset : option Z)
    (entry : option tr_rpc_v2_metadata_entry)
    : tr_status * option Z * option tr_rpc_v2_metadata_entry :=
  match view, offset, entry with
  | Some view, Some pos, Some _ =>
      let size := mv_size view in
      bail (TR_ERR_INVALID, offset, entry) when
        ((size >? TR_RPC_METADATA_MAX_BYTES) || (nz size && negb (bool_decide (is_Some (mv_data view)))) ||
         (pos >? size)) ;;
      bail (TR_ERR_STALE, offset, entry) when (pos =? size) ;;
      bail (TR_ERR_INVALID, offset, entry) when (size - pos <? 3) ;;
      let data := default [] (mv_data view) in
      let key_size := data.[pos] in
      let value_size := Z.lor (data.[pos + 1]) (Z.shiftl (data.[pos + 2]) 8) in
      let pos := pos + 3 in
      bail (TR_ERR_INVALID, offset, entry) when
        ((key_size =? 0) || (key_size >? TR_RPC_METADATA_MAX_KEY_LEN) || (key_size >? size - pos) ||
         (value_size >? size - pos - key_size)) ;;
      (TR_OK, Some (pos + key_size + value_size),
       Some (mk_view_entry (mk_rpc_bytes (Some (at_off data pos)) key_size)
         (mk_rpc_bytes (if nz value_size then Some (at_off data (pos + key_size)) else None) value_size)))
  | _, _, _ => (TR_ERR_INVALID, offset, entry)
  end.

(** The entries take four bytes at least: the size is fuel enough for the loops.  [None] when
    it runs out. *)
Definition view_fuel (view : option tr_rpc_v2_metadata_view) : nat :=
  match view with Some v => S (S (Z.to_nat (Z.min (mv_size v) TR_RPC_METADATA_MAX_BYTES))) | None => 1 end.

Fixpoint count_loop (fuel : nat) (view : option tr_rpc_v2_metadata_view) (count offset : Z)
    (entry : tr_rpc_v2_metadata_entry) : option Z :=
  match fuel with
  | O => None
  | S fuel =>
      match tr_rpc_v2_metadata_next view (Some offset) (Some entry) with
      | (TR_OK, Some offset, Some entry) => count_loop fuel view (count + 1) offset entry
      | (ret, _, _) => Some (if bool_decide (ret = TR_ERR_STALE) then count else 0)
      end
  end.

Definition tr_rpc_v2_metadata_count (view : option tr_rpc_v2_metadata_view) : option Z :=
  count_loop (view_fuel view) view 0 0 zero_view_entry.

Fixpoint at_loop (fuel : nat) (view : option tr_rpc_v2_metadata_view) (i index offset : Z)
    (entry out : tr_rpc_v2_metadata_entry) : option (tr_status * tr_rpc_v2_metadata_entry) :=
  match fuel with
  | O => None
  | S fuel =>
      match tr_rpc_v2_metadata_next view (Some offset) (Some entry) with
      | (TR_OK, Some offset, Some entry) =>
          bail (Some (TR_OK, entry)) when (i =? index) ;;
          at_loop fuel view (i + 1) index offset entry out
      | (ret, _, _) => Some (ret, out)
      end
  end.

Definition tr_rpc_v2_metadata_at (view : option tr_rpc_v2_metadata_view) (index : Z)
    (out : option tr_rpc_v2_metadata_entry) : option (tr_status * option tr_rpc_v2_metadata_entry) :=
  match out with
  | None => Some (TR_ERR_INVALID, None)
  | Some o =>
      match at_loop (view_fuel view) view 0 index 0 zero_view_entry o with
      | Some (ret, o) => Some (ret, Some o)
      | None => None
      end
  end.

Fixpoint find_loop (fuel : nat) (view : option tr_rpc_v2_metadata_view) (key : list Z) (key_size offset : Z)
    (entry : tr_rpc_v2_metadata_entry) (out : tr_rpc_bytes) : option (tr_status * tr_rpc_bytes) :=
  match fuel with
  | O => None
  | S fuel =>
      match tr_rpc_v2_metadata_next view (Some offset) (Some entry) with
      | (TR_OK, Some offset, Some entry) =>
          bail (Some (TR_OK, ve_value entry)) when
            ((rb_len (ve_key entry) =? key_size) &&
             bool_decide (take (Z.to_nat key_size) (default [] (rb_data (ve_key entry))) = take (Z.to_nat key_size) key)) ;;
          find_loop fuel view key key_size offset entry out
      | (ret, _, _) => Some (ret, out)
      end
  end.

Definition tr_rpc_v2_metadata_find (view : option tr_rpc_v2_metadata_view) (key : option (list Z))
    (out : option tr_rpc_bytes) : option (tr_status * option tr_rpc_bytes) :=
  match key, out with
  | Some key, Some o =>
      let key_size := key_size_of key in
      bail (Some (TR_ERR_INVALID, out)) when ((key_size =? 0) || (key_size >? TR_RPC_METADATA_MAX_KEY_LEN)) ;;
      match find_loop (view_fuel view) view key key_size 0 zero_view_entry o with
      | Some (ret, o) => Some (ret, Some o)
      | None => None
      end
  | _, _ => Some (TR_ERR_INVALID, out)
  end.

(** * The raw codec *)

Definition tr_rpc_raw_encode (input : option tr_rpc_bytes) (dst : option (list Z)) (capacity : Z)
    (written : option Z) : tr_status * option (list Z) * option Z :=
  match input, written with
  | Some b, Some _ =>
      bail (TR_ERR_INVALID, dst, written) when
        (nz (rb_len b) && (negb (bool_decide (is_Some (rb_data b))) || negb (bool_decide (is_Some dst)))) ;;
      bail (TR_ERR_BAD_LENGTH, dst, written) when (rb_len b >? capacity) ;;
      let dst := if nz (rb_len b)
        then option_map (λ d, put_at d 0 (take (Z.to_nat (rb_len b)) (default [] (rb_data b)))) dst else dst in
      (TR_OK, dst, Some (rb_len b))
  | _, _ => (TR_ERR_INVALID, dst, written)
  end.

Definition tr_rpc_raw_decode (src : option (list Z)) (len : Z) (out : option tr_rpc_bytes)
    : tr_status * option tr_rpc_bytes :=
  match out with
  | None => (TR_ERR_INVALID, None)
  | Some _ =>
      bail (TR_ERR_INVALID, out) when (nz len && negb (bool_decide (is_Some src))) ;;
      (TR_OK, Some (mk_rpc_bytes src len))
  end.

(** * C strings *)

Fixpoint cstr (l : list Z) : list Z :=
  match l with
  | [] => []
  | c :: l => if c =? 0 then [] else c :: cstr l
  end.

Lemma cstr_spec l : ∃ rest, l = cstr l ++ rest ∧ (∀ c rest', rest = c :: rest' → c = 0) ∧ Forall (λ c, c ≠ 0) (cstr l).
Proof.
  induction l as [|c l (rest & IH & Hz & Hn)]; [by exists []|]. cbn [cstr].
  destruct (Z.eqb_spec c 0) as [->|Hne].
  - exists (0 :: l). split_and!; [done| |constructor]. by intros ? ? [= <- _].
  - exists rest. split_and!; [by rewrite IH at 1|done|by constructor].
Qed.

(** Scanning from [n] on. *)
Lemma key_length_spec fuel l n : 0 ≤ n ≤ alen (cstr l) → n ≤ 64 → 64 < n + Z.of_nat fuel →
  key_length fuel l n = Z.min (alen (cstr l)) 64.
Proof.
  destruct (cstr_spec l) as (rest & El & Hz & Hn). revert n. induction fuel as [|fuel IH]; intros n H0 H64 Hf; [lia|].
  cbn [key_length]. unfold TR_RPC_METADATA_MAX_KEY_LEN, nz.
  destruct (Z.leb_spec n 63) as [Hle|]; [|cbn; lia]. cbn [andb].
  destruct (decide (n < alen (cstr l))) as [Hlt|].
  - rewrite (IH (n + 1)) by lia. replace (negb (char_at l n =? 0)) with true; [done|]. symmetry.
    apply negb_true_iff, Z.eqb_neq. rewrite El. unfold char_at.
    destruct (lookup_lt_is_Some_2 (cstr l) (Z.to_nat n)) as [c Hc]; [unfold alen in *; lia|].
    rewrite (lookup_app_l_Some _ _ _ _ Hc). by apply (Forall_lookup_1 _ _ _ _ Hn Hc).
  - replace (negb (char_at l n =? 0)) with false; [lia|]. symmetry. apply negb_false_iff, Z.eqb_eq.
    rewrite El. unfold char_at. rewrite lookup_app_r by (unfold alen in *; lia).
    replace (Z.to_nat n - length (cstr l))%nat with 0%nat by (unfold alen in *; lia).
    destruct rest as [|c rest]; [done|]. cbn. by eapply Hz.
Qed.

Lemma key_size_spec l : key_size_of l = Z.min (alen (cstr l)) 64.
Proof. apply key_length_spec; pose proof (alen_nonneg (cstr l)); lia. Qed.

Lemma take_cstr l : take (length (cstr l)) l = cstr l.
Proof. destruct (cstr_spec l) as (rest & El & _). rewrite El at 2. apply take_app_length. Qed.

Lemma cstr_chars l : key_chars_valid (length (cstr l)) l 0 = forallb key_char_valid (cstr l).
Proof.
  rewrite key_chars_at; [|lia|].
  - unfold bytes_at. rewrite Nat2Z.id. unfold at_off. by rewrite drop_0, take_cstr.
  - destruct (cstr_spec l) as (rest & El & _). rewrite El at 2. unfold alen. rewrite length_app. lia.
Qed.

(** * The encoder *)

(** What the application hands in: the arrays are as long as it says. *)
Record metadata_ok (m : tr_rpc_metadata) : Prop := {
  md_len_ok : u16_ok (md_value_len m);
  md_key_ok : ∀ k, md_key m = Some k → bytes_ok k;
  md_bytes_ok : ∀ v, md_value m = Some v → bytes_ok v ∧ md_value_len m ≤ alen v
}.

Definition entry_of (m : tr_rpc_metadata) : meta_entry :=
  (cstr (default [] (md_key m)), take (Z.to_nat (md_value_len m)) (default [] (md_value m))).

(** A key of legal characters, and a value where there is a length. *)
Definition legal_metadata (m : tr_rpc_metadata) : Prop :=
  (md_value_len m = 0 ∨ is_Some (md_value m)) ∧ entry_ok (entry_of m).

Lemma value_length m : metadata_ok m → md_value_len m = 0 ∨ is_Some (md_value m) →
  alen (entry_of m).2 = md_value_len m.
Proof.
  intros [Hl _ Hv] Hs. unfold entry_of, alen, u16_ok in *. cbn [snd]. rewrite length_take.
  destruct (md_value m) as [v|]; [destruct (Hv v eq_refl); cbn [default id]; unfold alen in *; lia|].
  destruct Hs as [->|[? ?]]; [done|congruence].
Qed.

Lemma value_bytes m : metadata_ok m → bytes_ok (entry_of m).2.
Proof.
  intros [_ _ Hv]. apply bytes_ok_take. destruct (md_value m) as [v|]; [by apply Hv|constructor].
Qed.

Lemma put_at_app pre tail bs : put_at (pre ++ tail) (alen pre) bs = (pre ++ bs) ++ drop (length bs) tail.
Proof.
  unfold put_at, alen. rewrite Nat2Z.id, take_app_length, <- app_assoc. do 2 f_equal.
  rewrite <- drop_drop, drop_app_length. done.
Qed.

(** The bytes of an entry stored behind those of the entries before. *)
Lemma put_entry pre tail e : u8_ok (alen e.1) →
  let out := put_at (pre ++ tail) (alen pre) [u8 (alen e.1)] in
  let out := put_at out (alen pre + 1) (tr_put_le16 (alen e.2)) in
  let out := put_at out (alen pre + 3) e.1 in
  (if nz (alen e.2) then put_at out (alen pre + 3 + alen e.1) e.2 else out) =
    (pre ++ entry_bytes e) ++ drop (length (entry_bytes e)) tail.
Proof.
  intros Hk. cbn zeta. rewrite put_at_app, u8_small by done.
  replace (alen pre + 1) with (alen (pre ++ [alen e.1])) by (rewrite alen_app; done). rewrite put_at_app.
  replace (alen pre + 3) with (alen ((pre ++ [alen e.1]) ++ tr_put_le16 (alen e.2))) by (rewrite !alen_app; unfold alen; cbn; lia).
  rewrite put_at_app, <- alen_app. rewrite !drop_drop.
  assert (length (entry_bytes e) = 3 + length e.1 + length e.2)%nat as El.
  { pose proof (entry_length e). unfold alen in *. lia. }
  unfold nz. destruct (Z.eqb_spec (alen e.2) 0) as [E0|_]; cbn [negb].
  - assert (e.2 = []) as E2 by (destruct e as [k [|]]; [done|unfold alen in E0; cbn in E0; lia]).
    rewrite El. unfold entry_bytes. rewrite E2. cbn [length tr_put_le16]. rewrite <- !app_assoc. cbn [app].
    rewrite app_nil_r, Nat.add_0_r, <- app_assoc. done.
  - rewrite put_at_app, drop_drop, El. unfold entry_bytes. cbn [length tr_put_le16].
    rewrite <- !app_assoc. cbn [app]. rewrite <- !app_assoc. done.
Qed.

(** What the loop is to find of the entries [ms] behind [parsed]. *)
Definition encodable (parsed : list meta_entry) (ms : list tr_rpc_metadata) : Prop :=
  Forall legal_metadata ms ∧ NoDup (map fst (parsed ++ map entry_of ms)) ∧
  alen (meta_bytes (parsed ++ map entry_of ms)) ≤ TR_RPC_METADATA_MAX_BYTES.

Lemma encodable_cons parsed m ms : encodable parsed (m :: ms) ↔ legal_metadata m ∧ encodable (parsed ++ [entry_of m]) ms.
Proof. unfold encodable. rewrite Forall_cons, <- app_assoc. cbn [map app]. tauto. Qed.

Lemma meta_bytes_cons_len parsed e es :
  alen (meta_bytes (parsed ++ e :: es)) = alen (meta_bytes parsed) + (3 + alen e.1 + alen e.2) + alen (meta_bytes es).
Proof.
  rewrite meta_bytes_app, alen_app. change (meta_bytes (e :: es)) with (entry_bytes e ++ meta_bytes es).
  rewrite alen_app, entry_length. lia.
Qed.

Lemma meta_bytes_snoc parsed e : meta_bytes (parsed ++ [e]) = meta_bytes parsed ++ entry_bytes e.
Proof. rewrite meta_bytes_app. unfold meta_bytes at 2. cbn. by rewrite app_nil_r. Qed.

Lemma meta_bytes_count es : alen es ≤ alen (meta_bytes es).
Proof.
  induction es as [|e l IH]; [done|]. change (meta_bytes (e :: l)) with (entry_bytes e ++ meta_bytes l).
  rewrite alen_app, entry_length. pose proof (alen_nonneg e.1). pose proof (alen_nonneg e.2). unfold alen in *. cbn. lia.
Qed.

Lemma encode_loop_spec ms parsed tail : Forall metadata_ok ms → Forall entry_ok parsed → NoDup (map fst parsed) →
  bytes_ok tail → alen (meta_bytes parsed) ≤ TR_RPC_METADATA_MAX_BYTES ≤ alen (meta_bytes parsed ++ tail) →
  ∃ r out used, encode_loop ms (meta_bytes parsed ++ tail) (alen (meta_bytes parsed)) = Some (r, out, used) ∧
    bytes_ok out ∧ alen out = alen (meta_bytes parsed ++ tail) ∧
    (r = TR_OK ∧ encodable parsed ms ∧ used = alen (meta_bytes (parsed ++ map entry_of ms)) ∧
       (∃ tail', out = meta_bytes (parsed ++ map entry_of ms) ++ tail') ∨
     is_error r = true ∧ ¬ encodable parsed ms).
Proof.
  intros Hms. revert parsed tail. induction Hms as [|m ms Hm Hms IH]; intros parsed tail Hp Hnd Ht Hmax.
  { exists TR_OK, (meta_bytes parsed ++ tail), (alen (meta_bytes parsed)). cbn [map]. rewrite app_nil_r.
    split_and!; [done|by apply bytes_ok_app; [apply meta_bytes_ok|]|done|]. left. split_and!; try done; [|by exists tail].
    unfold encodable. cbn [map]. rewrite app_nil_r. split_and!; [constructor|done|lia]. }
  assert (∀ ret, is_error ret = true → ¬ (legal_metadata m ∧ encodable (parsed ++ [entry_of m]) ms) →
    ∃ r out used, Some (ret, meta_bytes parsed ++ tail, alen (meta_bytes parsed)) = Some (r, out, used) ∧
      bytes_ok out ∧ alen out = alen (meta_bytes parsed ++ tail) ∧
      (r = TR_OK ∧ encodable parsed (m :: ms) ∧ used = alen (meta_bytes (parsed ++ map entry_of (m :: ms))) ∧
         (∃ tail', out = meta_bytes (parsed ++ map entry_of (m :: ms)) ++ tail') ∨
       is_error r = true ∧ ¬ encodable parsed (m :: ms))) as Hfail.
  { intros ret Hr Hn. exists ret, (meta_bytes parsed ++ tail), (alen (meta_bytes parsed)).
    split_and!; [done|by apply bytes_ok_app; [apply meta_bytes_ok|]|done|]. right. by rewrite encodable_cons. }
  cbn [encode_loop]. pose proof (entry_length (entry_of m)) as Hel.
  destruct (md_key m) as [key|] eqn:Ekey.
  2: { apply Hfail; [done|]. intros [[_ [Hk _]] _]. unfold entry_of in Hk. rewrite Ekey in Hk. change (1 ≤ 0 ≤ 63) in Hk. lia. }
  assert ((entry_of m).1 = cstr key) as E1 by (unfold entry_of; by rewrite Ekey).
  destruct (nz (md_value_len m) && negb (bool_decide (is_Some (md_value m)))) eqn:Ev.
  { apply Hfail; [done|]. intros [[Hv _] _]. apply andb_true_iff in Ev as [Ev1 Ev2].
    unfold nz in Ev1. apply negb_true_iff in Ev1, Ev2. apply Z.eqb_neq in Ev1. apply bool_decide_eq_false in Ev2. tauto. }
  assert (md_value_len m = 0 ∨ is_Some (md_value m)) as Hv.
  { unfold nz in Ev. apply andb_false_iff in Ev as [Ev|Ev]; apply negb_false_iff in Ev; [left; by apply Z.eqb_eq|].
    right. by apply bool_decide_eq_true in Ev. }
  pose proof (value_length m Hm Hv) as El2. cbn zeta. rewrite key_size_spec. unfold TR_RPC_METADATA_MAX_KEY_LEN.
  pose proof (alen_nonneg (cstr key)) as Hk0. pose proof (alen_nonneg (entry_of m).2) as Hv0.
  destruct (_ || _ || _) eqn:Elen.
  { apply Hfail; [done|]. rewrite <- encodable_cons. intros (Hf & _ & Hsz).
    apply Forall_cons in Hf as [[_ (Hk & _)] _]. cbn [map] in Hsz. rewrite meta_bytes_cons_len in Hsz.
    pose proof (alen_nonneg (meta_bytes (map entry_of ms))). rewrite E1 in *.
    unfold TR_RPC_METADATA_MAX_KEY_LEN in Hk. bool_to_prop. lia. }
  assert (1 ≤ alen (cstr key) ≤ 63 ∧ 3 + alen (cstr key) + md_value_len m ≤ TR_RPC_METADATA_MAX_BYTES - alen (meta_bytes parsed))
    as [Hk63 Hfit] by (bool_to_prop; lia).
  rewrite Z.min_l by lia. unfold alen at 1. rewrite Nat2Z.id, cstr_chars.
  destruct (forallb key_char_valid (cstr key)) eqn:Ech; cbn [negb].
  2: { apply Hfail; [done|]. intros [[_ (_ & Hc & _)] _]. rewrite E1 in Hc. congruence. }
  assert (entry_ok (entry_of m)) as He.
  { split; [rewrite E1; unfold TR_RPC_METADATA_MAX_KEY_LEN; lia|]. rewrite E1. split; [done|].
    rewrite El2. split; [apply Hm|by apply value_bytes]. }
  pose proof (prior_loop_spec (S (Z.to_nat (alen (meta_bytes parsed)))) [] parsed tail (cstr key) key) as Hprior.
  cbn [app] in Hprior. change (alen (meta_bytes [])) with 0 in Hprior. rewrite Hprior; [|done|done| |].
  2: { pose proof (meta_bytes_count parsed). unfold alen in *. lia. }
  2: { unfold alen. rewrite Nat2Z.id. apply take_cstr. }
  case_bool_decide as Hin.
  { apply Hfail; [done|]. intros (_ & _ & Hd & _). rewrite <- app_assoc, map_app in Hd. cbn [map app] in Hd.
    apply NoDup_app in Hd as (_ & Hdis & _). apply (Hdis (cstr key)); [done|]. rewrite E1. by left. }
  replace (take (Z.to_nat (alen (cstr key))) key) with (entry_of m).1
    by (rewrite E1; unfold alen; rewrite Nat2Z.id; symmetry; apply take_cstr).
  change (take (Z.to_nat (md_value_len m)) (default [] (md_value m))) with (entry_of m).2.
  rewrite <- El2, <- E1, put_entry by (rewrite E1; word_lia).
  rewrite <- meta_bytes_snoc. replace (alen (meta_bytes parsed) + (3 + alen (entry_of m).1 + alen (entry_of m).2))
    with (alen (meta_bytes (parsed ++ [entry_of m]))) by (rewrite meta_bytes_snoc, alen_app; lia).
  assert (alen (meta_bytes (parsed ++ [entry_of m]) ++ drop (length (entry_bytes (entry_of m))) tail) =
    alen (meta_bytes parsed ++ tail)) as Elen'.
  { rewrite meta_bytes_snoc, !alen_app. unfold alen at 3. rewrite length_drop. rewrite !alen_app in Hmax.
    unfold alen in *. rewrite E1 in Hel. lia. }
  destruct (IH (parsed ++ [entry_of m]) (drop (length (entry_bytes (entry_of m))) tail)) as (r & out & used & -> & Hb & Hl & Hr).
  - apply Forall_app; split; [done|by apply Forall_singleton].
  - rewrite map_app. apply NoDup_app. split_and!; [done| |by apply NoDup_singleton].
    intros x Hx Hx'. apply list_elem_of_singleton in Hx' as ->. by rewrite E1 in Hx.
  - by apply bytes_ok_drop.
  - rewrite Elen'. split; [|lia]. rewrite meta_bytes_snoc, alen_app, Hel, E1. lia.
  - exists r, out, used. split_and!; [done|done|lia|]. rewrite encodable_cons. cbn [map].
    rewrite <- app_assoc in Hr. cbn [app] in Hr. destruct Hr as [(-> & Hen & Hu & Ho)|[Hr Hn]]; [left|right].
    + split_and!; try done.
    + split; [done|]. intros [_ ?]. by apply Hn.
Qed.

(** * The view *)

(** The bytes a pair of pointer and length stands for. *)
Definition contents (b : tr_rpc_bytes) : list Z := take (Z.to_nat (rb_len b)) (default [] (rb_data b)).

(** The viewed entry is [e]. *)
Record shows (x : tr_rpc_v2_metadata_entry) (e : meta_entry) : Prop := {
  sh_key : contents (ve_key x) = e.1;
  sh_key_len : rb_len (ve_key x) = alen e.1;
  sh_value : contents (ve_value x) = e.2;
  sh_value_len : rb_len (ve_value x) = alen e.2
}.

Lemma get16_at data i : bytes_ok data → 0 ≤ i → i + 1 < alen data →
  Z.lor (data.[i]) (Z.shiftl (data.[i + 1]) 8) = tr_get_le16 (at_off data i).
Proof.
  intros Hb Hi Hl.
  assert (at_off data i = data.[i] :: data.[i + 1] :: drop (S (S (Z.to_nat i))) data) as ->.
  { unfold at_off. rewrite (drop_S _ (data.[i])) by (apply aget_lookup; lia).
    rewrite (drop_S _ (data.[i + 1]) (S (Z.to_nat i))); [done|].
    replace (S (Z.to_nat i)) with (Z.to_nat (i + 1)) by lia. apply aget_lookup. lia. }
  assert (∀ j, 0 ≤ j < alen data → u8_ok (data.[j])) as Hj.
  { intros j Hj. apply (Forall_lookup_1 _ _ (Z.to_nat j) _ Hb), aget_lookup. lia. }
  pose proof (Hj i ltac:(lia)). pose proof (Hj (i + 1) ltac:(lia)).
  change (tr_get_le16 (data.[i] :: data.[i + 1] :: drop (S (S (Z.to_nat i))) data))
    with (u16 (Z.lor (data.[i]) (Z.shiftl (data.[i + 1]) 8))).
  symmetry. apply u16_small. rewrite (lor_shiftl_add _ _ 8) by (unfold u8_ok in *; lia). unfold u8_ok in *. word_lia.
Qed.

Section View.
Variables (es : list meta_entry) (rest : list Z).
Hypotheses (Hes : Forall entry_ok es) (Hrest : bytes_ok rest).
Hypothesis (Hsize : alen (meta_bytes es) ≤ TR_RPC_METADATA_MAX_BYTES).

Let view : option tr_rpc_v2_metadata_view :=
  Some (mk_view (Some (meta_bytes es ++ rest)) (alen (meta_bytes es))).

Lemma next_entry parsed e todo x : es = parsed ++ e :: todo →
  ∃ x', tr_rpc_v2_metadata_next view (Some (alen (meta_bytes parsed))) (Some x) =
      (TR_OK, Some (alen (meta_bytes (parsed ++ [e]))), Some x') ∧ shows x' e.
Proof.
  intros Ees. pose proof Hes as Hok. rewrite Ees in Hok. apply Forall_app in Hok as [_ Hok].
  apply Forall_cons in Hok as [He Htodo]. pose proof He as ((Hk1 & Hk63) & Hch & Hv & Hvb).
  assert (bytes_ok (e.1 ++ e.2 ++ (meta_bytes todo ++ rest))) as Hb.
  { apply bytes_ok_app; [by apply forallb_key_bytes|]. apply bytes_ok_app; [done|].
    apply bytes_ok_app; [by apply meta_bytes_ok|done]. }
  assert (meta_bytes es ++ rest = meta_bytes parsed ++ entry_bytes e ++ (meta_bytes todo ++ rest)) as Edata.
  { rewrite Ees, meta_bytes_app. change (meta_bytes (e :: todo)) with (entry_bytes e ++ meta_bytes todo).
    by rewrite <- !app_assoc. }
  assert (alen (meta_bytes es) = alen (meta_bytes parsed) + (3 + alen e.1 + alen e.2) + alen (meta_bytes todo)) as Elen
    by (rewrite Ees; apply meta_bytes_cons_len).
  destruct (entry_at_app (meta_bytes parsed) e (meta_bytes todo ++ rest) Hv Hb) as [E1 E2 _ _].
  rewrite <- Edata in E1, E2. set (off := alen (meta_bytes parsed)) in *.
  pose proof (alen_nonneg (meta_bytes todo)). assert (0 ≤ off) by apply alen_nonneg. assert (0 ≤ alen e.2) by apply alen_nonneg.
  unfold tr_rpc_v2_metadata_next, view. cbn [mv_size mv_data].
  rewrite (bool_decide_true (is_Some _)) by eauto. cbn [negb]. rewrite andb_false_r, orb_false_r, !Z.gtb_ltb.
  rewrite (proj2 (Z.ltb_ge _ _) Hsize), (proj2 (Z.ltb_ge (alen (meta_bytes es)) off)) by lia. cbn [orb].
  rewrite (proj2 (Z.eqb_neq _ _)), (proj2 (Z.ltb_ge (alen (meta_bytes es) - off) 3)) by lia. cbn [default id].
  set (data := meta_bytes es ++ rest) in *. rewrite E1.
  assert (Z.lor (data.[off + 1]) (Z.shiftl (data.[off + 2]) 8) = alen e.2) as ->.
  { rewrite <- E2. replace (off + 2) with (off + 1 + 1) by lia. apply get16_at; [|lia|].
    - unfold data. apply bytes_ok_app; [by apply meta_bytes_ok|done].
    - unfold data. rewrite alen_app. pose proof (alen_nonneg rest). lia. }
  rewrite (proj2 (Z.eqb_neq (alen e.1) 0)), (proj2 (Z.ltb_ge _ (alen e.1))) by lia.
  rewrite (proj2 (Z.ltb_ge _ (alen e.1))), (proj2 (Z.ltb_ge _ (alen e.2))) by lia. cbn [orb].
  eexists. split.
  { f_equal. f_equal. f_equal. rewrite meta_bytes_snoc, alen_app, entry_length. fold off. lia. }
  assert (∀ i, 0 ≤ i → at_off data (off + 3 + i) = at_off (e.1 ++ e.2 ++ meta_bytes todo ++ rest) i) as Hoff.
  { intros i Hi. rewrite Edata. replace (off + 3 + i) with (alen (meta_bytes parsed) + (3 + i)) by (fold off; lia).
    rewrite at_off_app by lia. unfold at_off. replace (Z.to_nat (3 + i)) with (3 + Z.to_nat i)%nat by lia.
    rewrite <- drop_drop. unfold entry_bytes. cbn [app]. by rewrite <- !app_assoc. }
  split; cbn [ve_key ve_value rb_len rb_data]; try done; unfold contents; cbn [rb_len rb_data default id].
  - rewrite <- (Z.add_0_r (off + 3)), Hoff by lia. unfold at_off. cbn [drop Z.to_nat].
    apply take_app_length'. unfold alen. lia.
  - unfold nz. destruct (Z.eqb_spec (alen e.2) 0) as [E0|_]; cbn [negb default id].
    + destruct e as [k [|]]; [done|unfold alen in E0; cbn in E0; lia].
    + rewrite Hoff by lia. rewrite <- (Z.add_0_r (alen e.1)), at_off_app by lia. unfold at_off. cbn [drop Z.to_nat].
      apply take_app_length'. unfold alen. lia.
Qed.

Lemma next_end x : tr_rpc_v2_metadata_next view (Some (alen (meta_bytes es))) (Some x) =
  (TR_ERR_STALE, Some (alen (meta_bytes es)), Some x).
Proof.
  unfold tr_rpc_v2_metadata_next, view. cbn [mv_size mv_data].
  rewrite (bool_decide_true (is_Some _)) by eauto. cbn [negb]. rewrite andb_false_r, orb_false_r, !Z.gtb_ltb.
  rewrite (proj2 (Z.ltb_ge _ _) Hsize), Z.ltb_irrefl. cbn [orb]. by rewrite Z.eqb_refl.
Qed.

Lemma count_loop_spec fuel parsed todo n x : es = parsed ++ todo → (length todo < fuel)%nat →
  count_loop fuel view n (alen (meta_bytes parsed)) x = Some (n + alen todo).
Proof.
  revert fuel parsed n x. induction todo as [|e todo IH]; intros [|fuel] parsed n x Ees Hf; try (simpl in Hf; lia); cbn [count_loop].
  - rewrite app_nil_r in Ees. subst parsed. rewrite next_end, bool_decide_true by done. f_equal. unfold alen. cbn. lia.
  - destruct (next_entry parsed e todo x Ees) as (x' & -> & _). rewrite (IH fuel (parsed ++ [e])).
    + f_equal. unfold alen. cbn. lia.
    + by rewrite <- app_assoc.
    + simpl in Hf. lia.
Qed.

Lemma at_loop_spec fuel parsed todo i index x out : es = parsed ++ todo → (length todo < fuel)%nat → i ≤ index →
  ∃ r x', at_loop fuel view i index (alen (meta_bytes parsed)) x out = Some (r, x') ∧
    match todo !! Z.to_nat (index - i) with
    | Some e => r = TR_OK ∧ shows x' e
    | None => r = TR_ERR_STALE ∧ x' = out
    end.
Proof.
  revert fuel parsed i x. induction todo as [|e todo IH]; intros [|fuel] parsed i x Ees Hf Hi; try (simpl in Hf; lia); cbn [at_loop].
  - rewrite app_nil_r in Ees. subst parsed. rewrite next_end. by eexists _, _.
  - destruct (next_entry parsed e todo x Ees) as (x' & -> & Hx). destruct (Z.eqb_spec i index) as [->|Hne].
    + exists TR_OK, x'. rewrite Z.sub_diag. done.
    + replace (Z.to_nat (index - i)) with (S (Z.to_nat (index - (i + 1)))) by lia. cbn [lookup list_lookup].
      apply (IH fuel (parsed ++ [e])); [by rewrite <- app_assoc|simpl in Hf; lia|lia].
Qed.

Lemma find_loop_spec fuel parsed todo key k x out : es = parsed ++ todo → (length todo < fuel)%nat →
  take (Z.to_nat (alen k)) key = k →
  ∃ r b, find_loop fuel view key (alen k) (alen (meta_bytes parsed)) x out = Some (r, b) ∧
    ((∃ v, (k, v) ∈ todo ∧ r = TR_OK ∧ contents b = v ∧ rb_len b = alen v) ∨
     (k ∉ map fst todo) ∧ r = TR_ERR_STALE ∧ b = out).
Proof.
  revert fuel parsed x. induction todo as [|e todo IH]; intros [|fuel] parsed x Ees Hf Hk; try (simpl in Hf; lia); cbn [find_loop].
  - rewrite app_nil_r in Ees. subst parsed. rewrite next_end. eexists _, _. split; [done|]. right. split; [|done].
    by intros H%elem_of_nil.
  - destruct (next_entry parsed e todo x Ees) as (x' & -> & [H1 H2 H3 H4]). rewrite H2.
    assert (take (Z.to_nat (alen e.1)) (default [] (rb_data (ve_key x'))) = e.1) as Hc by (rewrite <- H2; exact H1).
    destruct (decide (e.1 = k)) as [Ek|Hne].
    + rewrite <- Ek in *. rewrite Z.eqb_refl, Hc, Hk, bool_decide_true by done. cbn [andb].
      eexists _, _. split; [done|]. left. exists e.2. split; [|done]. rewrite <- surjective_pairing. by left.
    + assert ((alen e.1 =? alen k) && bool_decide (take (Z.to_nat (alen k)) (default [] (rb_data (ve_key x'))) =
        take (Z.to_nat (alen k)) key) = false) as ->.
      { destruct (Z.eqb_spec (alen e.1) (alen k)) as [El|]; [|done]. cbn [andb]. apply bool_decide_eq_false.
        by rewrite Hk, <- El, Hc. }
      destruct (IH fuel (parsed ++ [e]) x') as (r & b & E & Hr); [by rewrite <- app_assoc|simpl in Hf; lia|done|].
      exists r, b. split; [done|]. destruct Hr as [(v & Hv & ?)|(Hn & ?)]; [left|right].
      * exists v. split; [by right|done].
      * split; [|done]. cbn [map]. intros [E'|Hin]%elem_of_cons; [by apply Hne|done].
Qed.

Lemma view_fuel_enough : (length es < view_fuel view)%nat.
Proof. pose proof (meta_bytes_count es). unfold view_fuel, view. cbn [mv_size]. unfold alen in *. lia. Qed.

End View.

(** * Theorems *)

(** The encoder returns, and succeeds exactly on entries that fit in 512 bytes, have legal
    and pairwise different keys, and values where they have lengths; it then writes their
    encoding, which the validator of received metadata accepts.  When it fails it leaves the
    size alone. *)
Theorem metadata_encode_exact ms count out size (Hms : Forall metadata_ok ms) (Hcount : count = alen ms)
    (Hout : bytes_ok out) (Hlen : TR_RPC_METADATA_MAX_BYTES ≤ alen out) :
  ∃ r out' size', tr_rpc_v2_metadata_encode (Some ms) count (Some out) (Some size) = Some (r, Some out', Some size') ∧
    alen out' = alen out ∧
    (r = TR_OK ∧ encodable [] ms ∧ take (Z.to_nat size') out' = meta_bytes (map entry_of ms) ∧
       size' = alen (meta_bytes (map entry_of ms)) ∧
       tr_record_metadata_valid (Some (take (Z.to_nat size') out')) size' = Some TR_OK ∨
     is_error r = true ∧ ¬ encodable [] ms ∧ size' = size).
Proof.
  unfold tr_rpc_v2_metadata_encode. rewrite (bool_decide_true (is_Some _)) by eauto. cbn [negb].
  rewrite andb_false_r. cbn [orb]. subst count. rewrite Z.gtb_ltb.
  destruct (Z.ltb_spec (TR_RPC_METADATA_MAX_BYTES / 4) (alen ms)) as [Hbig|_].
  { eexists _, _, _. split; [done|]. split; [done|]. right. split_and!; try done. intros (Hl & _ & Hs).
    rewrite app_nil_l in Hs. change (TR_RPC_METADATA_MAX_BYTES / 4) with 128 in Hbig. unfold TR_RPC_METADATA_MAX_BYTES in Hs.
    assert (4 * alen ms ≤ alen (meta_bytes (map entry_of ms))); [|lia]. clear -Hl. induction Hl as [|m l [_ [[H _] _]] _ IH]; [done|].
    cbn [map]. change (meta_bytes (entry_of m :: map entry_of l)) with (entry_bytes (entry_of m) ++ meta_bytes (map entry_of l)).
    rewrite alen_app, entry_length. pose proof (alen_nonneg (entry_of m).2). unfold alen in *. cbn [length]. lia. }
  rewrite take_ge by (unfold alen; cbn [default id]; lia). cbn [default id].
  destruct (encode_loop_spec ms [] out Hms) as (r & out' & used & E & Hb & Hl & Hr);
    [apply Forall_nil_2|apply NoDup_nil_2|done|change (alen (meta_bytes [])) with 0;
    change (meta_bytes [] ++ out) with out; unfold TR_RPC_METADATA_MAX_BYTES in *; lia|].
  cbn [app] in E, Hl, Hr. change (alen (meta_bytes [])) with 0 in E. change (meta_bytes [] ++ out) with out in E, Hl. rewrite E.
  destruct Hr as [(-> & Hen & -> & tail & ->)|[Hr Hn]].
  - pose proof Hen as (Hleg & Hnd & Hs). cbn [app] in Hnd, Hs. pose proof (alen_nonneg (meta_bytes (map entry_of ms))) as H0.
    rewrite u32_small by (unfold TR_RPC_METADATA_MAX_BYTES in Hs; word_lia).
    eexists _, _, _. split; [done|]. split; [done|]. left.
    assert (take (Z.to_nat (alen (meta_bytes (map entry_of ms)))) (meta_bytes (map entry_of ms) ++ tail) =
      meta_bytes (map entry_of ms)) as Et by (apply take_app_length'; unfold alen; lia).
    split_and!; try done. rewrite Et.
    assert (Forall entry_ok (map entry_of ms)) as Hok.
    { apply list.Forall_forall. intros x (m & -> & Hm)%list_elem_of_fmap. rewrite list.Forall_forall in Hleg. by apply Hleg. }
    by apply metadata_accepted.
  - exists r, out', size. destruct r; try done; (split; [done|split; [done|right; done]]).
Qed.

(** A view of encoded entries shows them: it counts them, gives the i-th by index and
    TR_ERR_STALE past the last, and finds by key the value that goes with it, or
    TR_ERR_STALE when the key is not there; whatever fails leaves the output alone. *)
Theorem metadata_view_exact es rest old (Hes : Forall entry_ok es) (Hrest : bytes_ok rest)
    (Hsize : alen (meta_bytes es) ≤ TR_RPC_METADATA_MAX_BYTES) :
  let view := tr_rpc_v2_metadata_view_init (Some old) (Some (meta_bytes es ++ rest)) (alen (meta_bytes es)) in
  tr_rpc_v2_metadata_count view = Some (alen es) ∧
  (∀ index out, 0 ≤ index → ∃ r x, tr_rpc_v2_metadata_at view index (Some out) = Some (r, Some x) ∧
     match es !! Z.to_nat index with
     | Some e => r = TR_OK ∧ shows x e
     | None => r = TR_ERR_STALE ∧ x = out
     end) ∧
  (∀ key out, ∃ r b, tr_rpc_v2_metadata_find view (Some key) (Some out) = Some (r, Some b) ∧
     ((∃ v, (cstr key, v) ∈ es ∧ r = TR_OK ∧ contents b = v ∧ rb_len b = alen v) ∨
      (cstr key ∉ map fst es) ∧ (r = TR_ERR_STALE ∨ r = TR_ERR_INVALID) ∧ b = out)).
Proof.
  intros view. pose proof (view_fuel_enough es rest Hsize) as Hf. split_and!.
  - unfold tr_rpc_v2_metadata_count.
    exact (count_loop_spec es rest Hes Hrest Hsize _ [] es 0 zero_view_entry eq_refl Hf).
  - intros index out Hi. unfold tr_rpc_v2_metadata_at.
    destruct (at_loop_spec es rest Hes Hrest Hsize _ [] es 0 index zero_view_entry out eq_refl Hf Hi) as (r & x & E & H).
    change (alen (meta_bytes [])) with 0 in E. rewrite Z.sub_0_r in H. exists r, x. split; [|done].
    change (at_loop (view_fuel view) view 0 index 0 zero_view_entry out = Some (r, x)) in E. by rewrite E.
  - intros key out. unfold tr_rpc_v2_metadata_find. rewrite key_size_spec. unfold TR_RPC_METADATA_MAX_KEY_LEN.
    pose proof (alen_nonneg (cstr key)) as H0. destruct (_ || _) eqn:E.
    + exists TR_ERR_INVALID, out. split; [done|]. right. split_and!; [|by right|done].
      intros (e & Ee & He)%list_elem_of_fmap. rewrite list.Forall_forall in Hes. destruct (Hes e He) as (Hk & _).
      rewrite <- Ee in Hk. unfold TR_RPC_METADATA_MAX_KEY_LEN in Hk. bool_to_prop. lia.
    + assert (alen (cstr key) ≤ 63) as Hk63 by (bool_to_prop; lia). rewrite Z.min_l by lia.
      destruct (find_loop_spec es rest Hes Hrest Hsize (view_fuel view) [] es key (cstr key) zero_view_entry out eq_refl Hf)
        as (r & b & E' & H).
      { unfold alen. rewrite Nat2Z.id. apply take_cstr. }
      change (alen (meta_bytes [])) with 0 in E'. exists r, b.
      change (find_loop (view_fuel view) view key (alen (cstr key)) 0 zero_view_entry out = Some (r, b)) in E'.
      split; [by rewrite E'|].
      destruct H as [?|(? & ? & ?)]; [by left|right; auto].
Qed.

(** * Two entries *)

(** "id" with a value of two bytes, its string followed by other memory, and "flag" with none. *)
Definition demo_metadata_list : list tr_rpc_metadata :=
  [mk_metadata (Some [0x69; 0x64; 0; 7]) (Some [1; 2; 3]) 2; mk_metadata (Some [0x66; 0x6c; 0x61; 0x67]) None 0].

Lemma demo_metadata_list_ok : Forall metadata_ok demo_metadata_list.
Proof.
  repeat (apply Forall_cons; split); [..|apply Forall_nil_2]; split; cbn; try (by split).
  - intros ? [= <-]. repeat constructor; unfold u8_ok; lia.
  - intros ? [= <-]. split; [repeat constructor; unfold u8_ok; lia|vm_compute; congruence].
  - intros ? [= <-]. repeat constructor; unfold u8_ok; lia.
Qed.

Lemma metadata_encode_exact_witness :
  ∃ out', tr_rpc_v2_metadata_encode (Some demo_metadata_list) 2 (Some (replicate 512 0)) (Some 99) =
    Some (TR_OK, Some out', Some 14) ∧ take 14 out' = meta_bytes (map entry_of demo_metadata_list).
Proof.
  destruct (metadata_encode_exact demo_metadata_list 2 (replicate 512 0) 99 demo_metadata_list_ok eq_refl)
    as (r & out' & size' & E & _ & H).
  - apply Forall_replicate. unfold u8_ok. lia.
  - vm_compute. congruence.
  - assert (r = TR_OK ∧ size' = 14) as [-> ->].
    { apply (f_equal (option_map (λ x, (x.1.1, x.2)))) in E. vm_compute in E. by simplify_eq. }
    exists out'. split; [exact E|]. destruct H as [(_ & _ & H & _)|[H _]]; [exact H|discriminate].
Defined.

Lemma metadata_view_exact_witness :
  let view := tr_rpc_v2_metadata_view_init (Some (mk_view None 0))
    (Some (meta_bytes (map entry_of demo_metadata_list) ++ [5])) (alen (meta_bytes (map entry_of demo_metadata_list))) in
  tr_rpc_v2_metadata_count view = Some 2.
Proof.
  assert (Forall entry_ok (map entry_of demo_metadata_list)) as Hok.
  { repeat (apply Forall_cons; split); [..|apply Forall_nil_2];
      (split; [vm_compute; split; congruence|split; [reflexivity|split; [vm_compute; split; congruence|]]]).
    - repeat constructor; unfold u8_ok; lia.
    - constructor. }
  destruct (metadata_view_exact (map entry_of demo_metadata_list) [5] (mk_view None 0) Hok) as (H & _).
  - repeat constructor; unfold u8_ok; lia.
  - vm_compute. congruence.
  - exact H.
Defined.
