(* ===== verification/ProbeTable.v ===== *)
(** Hash tables with open addressing and tombstones.

    [tr_pipeline_affinity_find] ([group/pipeline.c]) and [tr_pipeline_registry_find]
    ([group/pipeline_registry.c]) are the same loop over different entries; this file has the
    loop, the invariant of such a table, and what finding, filling and clearing a slot do to
    the finite map the table stands for.  Pipeline and PipelineRegistry instantiate it. *)
From S2P Require Import Prelude.

(** The values of [enum tr_pipeline_affinity_state] and [enum tr_pipeline_registry_entry_state]. *)
Inductive probe_state := Slot_empty | Slot_used | Slot_tombstone.

#[export] Instance probe_state_eq_dec : EqDecision probe_state.
Proof. solve_decision. Defined.

(** Return 1 and the slot of the key, or 0 and the slot to insert it, UINT32_MAX if none. *)
Inductive probe_result := Pr_found (slot : Z) | Pr_absent (insert : Z).

Section Probe.
Context {E : Type} `{!Inhabited E} (state_of : E → probe_state) (key_of : E → Z) (hash : Z → Z).
Implicit Types (table : list E) (k i : Z) (e : E).

(** * The loop *)

(** The slot looked at: 32 bit addition, as in the source. *)
Definition probe_index (capacity start offset : Z) : Z := u32 (start + offset) mod capacity.

(** [n]: passes left. *)
Fixpoint probe_loop (n : nat) table (capacity key start offset tombstone : Z) : probe_result :=
  match n with
  | O => Pr_absent tombstone
  | S n =>
      let index := probe_index capacity start offset in
      let entry := table.[index] in
      match state_of entry with
      | Slot_used =>
          if key_of entry =? key then Pr_found index
          else probe_loop n table capacity key start (offset + 1) tombstone
      | Slot_tombstone =>
          probe_loop n table capacity key start (offset + 1) (if tombstone =? UINT32_MAX then index else tombstone)
      | Slot_empty => Pr_absent (if tombstone =? UINT32_MAX then index else tombstone)
      end
  end.

Definition probe_find table (capacity key : Z) : probe_result :=
  probe_loop (Z.to_nat capacity) table capacity key (hash key mod capacity) 0 UINT32_MAX.

(** * Specification *)

Definition is_used (s : probe_state) : bool := bool_decide (s = Slot_used).

(** Slot [i] holds [k]. *)
Definition holds table (i k : Z) : Prop :=
  0 ≤ i < alen table ∧ state_of table.[i] = Slot_used ∧ key_of table.[i] = k.

(** How many slots after its start a key's slot is. *)
Definition distance (capacity key i : Z) : Z := (i - hash key mod capacity) mod capacity.

(** Keys are held once, and probing for one meets no empty slot before it.  Beyond 2^31 slots
    the source's index computation would wrap. *)
Record probe_ok table (capacity : Z) : Prop := {
  po_length : alen table = capacity;
  po_capacity : 0 < capacity ≤ 2 ^ 31;
  po_unique : ∀ i j k, holds table i k → holds table j k → i = j;
  po_reach : ∀ i k d, holds table i k → 0 ≤ d < distance capacity k i →
    state_of table.[(hash k mod capacity + d) mod capacity] ≠ Slot_empty
}.

Definition used_count table : Z := zsum (λ e, if is_used (state_of e) then 1 else 0) table.

(** * Lemmas *)

(** Past [2^31] entries the sum wraps, and some slots are never looked at. *)
Lemma probe_index_wraps offset : 0 ≤ offset < 3000000000 → probe_index 3000000000 2999999999 offset ≠ 2000000000.
Proof.
  intros Ho. unfold probe_index, u32. destruct (Z.lt_ge_cases (2999999999 + offset) (2 ^ 32)) as [H|H].
  - rewrite (Z.mod_small (2999999999 + offset)) by lia. destruct (decide (offset = 0)) as [->|]; [done|].
    replace (2999999999 + offset) with (offset - 1 + 1 * 3000000000) by lia. rewrite Z.mod_add by lia. rewrite Z.mod_small by lia. lia.
  - replace (2999999999 + offset) with (2999999999 + offset - 2 ^ 32 + 1 * 2 ^ 32) by lia. rewrite Z.mod_add by lia.
    rewrite (Z.mod_small _ (2 ^ 32)) by lia. rewrite Z.mod_small by lia. lia.
Qed.

Lemma probe_index_mod capacity start offset : 0 < capacity ≤ 2 ^ 31 → 0 ≤ start < capacity → 0 ≤ offset < capacity →
  probe_index capacity start offset = (start + offset) mod capacity.
Proof. intros Hc Hs Ho. unfold probe_index. rewrite u32_small by word_lia. done. Qed.

Lemma mod_add_wrap capacity start d : 0 ≤ start < capacity → 0 ≤ d < capacity →
  (start + d) mod capacity = if start + d <? capacity then start + d else start + d - capacity.
Proof.
  intros Hs Hd. destruct (Z.ltb_spec (start + d) capacity); [by rewrite Z.mod_small by lia|].
  symmetry. apply Z.mod_unique_pos with 1; lia.
Qed.

Lemma distance_range capacity k i : 0 < capacity → 0 ≤ distance capacity k i < capacity.
Proof. intros Hc. unfold distance. apply Z.mod_pos_bound. lia. Qed.

Lemma distance_back capacity k i : 0 < capacity → 0 ≤ i < capacity →
  (hash k mod capacity + distance capacity k i) mod capacity = i.
Proof.
  intros Hc Hi. unfold distance. rewrite Zplus_mod_idemp_r. replace (_ + (i - _)) with i by lia. by apply Z.mod_small.
Qed.

Lemma start_range capacity k : 0 < capacity → 0 ≤ hash k mod capacity < capacity.
Proof. intros. apply Z.mod_pos_bound. lia. Qed.

Lemma distance_at capacity k d : 0 < capacity → 0 ≤ d < capacity →
  distance capacity k ((hash k mod capacity + d) mod capacity) = d.
Proof.
  intros Hc Hd. unfold distance. rewrite Zminus_mod_idemp_l. replace (_ + d - _) with d by lia. by apply Z.mod_small.
Qed.

(** ** What finding answers *)

(** The slot [d] places after the start of [k]. *)
Let at_distance (capacity k d : Z) : Z := (hash k mod capacity + d) mod capacity.

Lemma probe_loop_spec n table capacity k offset tombstone : 0 < capacity ≤ 2 ^ 31 → alen table = capacity →
  0 ≤ offset → offset + Z.of_nat n = capacity →
  (∀ d, 0 ≤ d < offset → state_of table.[at_distance capacity k d] ≠ Slot_empty ∧ ¬ holds table (at_distance capacity k d) k) →
  (tombstone = UINT32_MAX ∧ (∀ d, 0 ≤ d < offset → state_of table.[at_distance capacity k d] = Slot_used) ∨
   ∃ d, 0 ≤ d < offset ∧ tombstone = at_distance capacity k d ∧ state_of table.[tombstone] = Slot_tombstone) →
  match probe_loop n table capacity k (hash k mod capacity) offset tombstone with
  | Pr_found i => holds table i k
  | Pr_absent insert =>
      (∃ last, 0 ≤ last ≤ capacity ∧
        (∀ d, 0 ≤ d < last → state_of table.[at_distance capacity k d] ≠ Slot_empty ∧ ¬ holds table (at_distance capacity k d) k) ∧
        (last < capacity → state_of table.[at_distance capacity k last] = Slot_empty)) ∧
      (insert = UINT32_MAX ∧ (∀ d, 0 ≤ d < capacity → state_of table.[at_distance capacity k d] = Slot_used) ∨
       ∃ d, 0 ≤ d < capacity ∧ insert = at_distance capacity k d ∧ state_of table.[insert] ≠ Slot_used ∧
         (∀ d', 0 ≤ d' < d → state_of table.[at_distance capacity k d'] ≠ Slot_empty))
  end.
Proof.
  intros Hc Hlen. assert (∀ d, 0 ≤ at_distance capacity k d < capacity) as Hrange.
  { intros d. apply Z.mod_pos_bound. lia. }
  revert offset tombstone. induction n as [|n IH]; intros offset tombstone Ho Hn Hpast Htomb; cbn [probe_loop].
  { assert (offset = capacity) as -> by lia. split.
    - exists capacity. split_and!; [lia|lia|done|lia].
    - destruct Htomb as [[-> Hu]|(d & Hd & -> & Ht)]; [by left|]. right. exists d. split_and!; [lia..|done|by rewrite Ht|].
      intros d' Hd'. apply Hpast. lia. }
  rewrite probe_index_mod by (try apply start_range; lia). fold (at_distance capacity k offset). set (i := at_distance capacity k offset).
  assert (∀ d, 0 ≤ d < offset + 1 → d = offset ∨ 0 ≤ d < offset) as Hnext by lia.
  destruct (state_of table.[i]) eqn:Es.
  - split.
    + exists offset. split_and!; [lia|lia|done|done].
    + right. assert (∃ d, 0 ≤ d ≤ offset ∧ (if tombstone =? UINT32_MAX then i else tombstone) = at_distance capacity k d ∧
        state_of table.[if tombstone =? UINT32_MAX then i else tombstone] ≠ Slot_used) as (d & Hd & E1 & E2).
      { destruct Htomb as [[-> Hu]|(d & Hd & Et & Ht)].
        - exists offset. rewrite Z.eqb_refl. split_and!; [lia..|done|by rewrite Es].
        - exists d. assert (tombstone ≠ UINT32_MAX) as Hne by (specialize (Hrange d); rewrite Et; word_lia).
          rewrite (proj2 (Z.eqb_neq _ _) Hne). split_and!; [lia..|done|by rewrite Ht]. }
      exists d. split_and!; [lia..|done|done|]. intros d' Hd'. apply Hpast. lia.
  - destruct (Z.eqb_spec (key_of table.[i]) k) as [Ek|Ek].
    + split; [rewrite Hlen; apply Hrange|]. by split.
    + apply IH; [lia|lia| |].
      * intros d [->|Hd]%Hnext; [|by apply Hpast]. split; [fold i; by rewrite Es|]. intros (_ & _ & H). done.
      * destruct Htomb as [[-> Hu]|(d & Hd & Et & Ht)]; [left|right; exists d; split_and!; [lia..|done|done]].
        split; [done|]. intros d [->|Hd]%Hnext; [done|by apply Hu].
  - apply IH; [lia|lia| |].
    + intros d [->|Hd]%Hnext; [|by apply Hpast]. fold i. split; [by rewrite Es|]. intros (_ & H & _). congruence.
    + right. destruct Htomb as [[-> Hu]|(d & Hd & Et & Ht)].
      * exists offset. rewrite Z.eqb_refl. split_and!; [lia..|done|done].
      * exists d. assert (tombstone ≠ UINT32_MAX) as Hne by (specialize (Hrange d); rewrite Et; word_lia).
        rewrite (proj2 (Z.eqb_neq _ _) Hne). split_and!; [lia..|done|done].
Qed.

Lemma holds_at_distance table capacity i k : alen table = capacity → holds table i k →
  at_distance capacity k (distance capacity k i) = i.
Proof. intros Hlen [Hi _]. apply distance_back; lia. Qed.

(** A key is found exactly where it is held. *)
Lemma probe_found table capacity k i : probe_ok table capacity → probe_find table capacity k = Pr_found i ↔ holds table i k.
Proof.
  intros [Hlen Hc Hu Hr]. unfold probe_find.
  pose proof (probe_loop_spec (Z.to_nat capacity) table capacity k 0 UINT32_MAX Hc Hlen) as H.
  ospecialize (H _ _ _ _); [lia|lia|intros; lia|by left; split; [|intros; lia]|].
  destruct (probe_loop _ _ _ _ _ _ _) as [j|ins].
  - split; [by intros [= <-]|]. intros Hi. f_equal. by eapply Hu.
  - split; [done|]. intros Hi. exfalso. destruct H as [(last & Hl & Hpast & Hend) _].
    pose proof (holds_at_distance _ _ _ _ Hlen Hi) as Ei. pose proof (distance_range capacity k i ltac:(lia)) as Hd.
    destruct (decide (distance capacity k i < last)) as [Hlt|Hge].
    + destruct (Hpast (distance capacity k i)) as [_ []]; [lia|]. by rewrite Ei.
    + destruct (decide (distance capacity k i = last)) as [El|Hne].
      * rewrite <- El, Ei in Hend. destruct Hi as (_ & Hi & _). rewrite Hend in Hi by lia. done.
      * apply (Hr i k last Hi); [lia|]. apply Hend. lia.
Qed.

(** If it is not held, there is a slot for it, unless all of them are in use. *)
Lemma probe_absent table capacity k insert : probe_ok table capacity → probe_find table capacity k = Pr_absent insert →
  (∀ i, ¬ holds table i k) ∧
  (insert = UINT32_MAX ∧ (∀ i, 0 ≤ i < capacity → state_of table.[i] = Slot_used) ∨
   0 ≤ insert < capacity ∧ state_of table.[insert] ≠ Slot_used ∧
     (∀ d, 0 ≤ d < distance capacity k insert → state_of table.[(hash k mod capacity + d) mod capacity] ≠ Slot_empty)).
Proof.
  intros Hok Hf. split; [intros i Hi%(probe_found _ capacity); [congruence|done]|].
  destruct Hok as [Hlen Hc Hu Hr]. unfold probe_find in Hf.
  pose proof (probe_loop_spec (Z.to_nat capacity) table capacity k 0 UINT32_MAX Hc Hlen) as H.
  ospecialize (H _ _ _ _); [lia|lia|intros; lia|by left; split; [|intros; lia]|].
  rewrite Hf in H. destruct H as [_ [[-> H]|(d & Hd & -> & Hs & Hp)]].
  - left. split; [done|]. intros i Hi. rewrite <- (distance_back capacity k i) by lia. apply H. apply distance_range. lia.
  - right. split_and!; [apply Z.mod_pos_bound; lia..|done|]. unfold at_distance in *. rewrite distance_at by lia. done.
Qed.

(** ** Changing a slot *)

Lemma holds_aset table i e j k : 0 ≤ i < alen table →
  holds (table.[i <- e]) j k ↔ j = i ∧ state_of e = Slot_used ∧ key_of e = k ∨ j ≠ i ∧ holds table j k.
Proof.
  intros Hi. unfold holds. rewrite alen_aset. destruct (decide (j = i)) as [->|Hne].
  - rewrite aget_aset_eq by done. tauto.
  - split.
    + intros (Hj & H). rewrite aget_aset_ne in H by lia. tauto.
    + intros [[? _]|[_ (Hj & H)]]; [done|]. rewrite aget_aset_ne by lia. done.
Qed.

Lemma used_count_cons e table : used_count (e :: table) = (if is_used (state_of e) then 1 else 0) + used_count table.
Proof. done. Qed.

Lemma used_count_aset table i e : 0 ≤ i < alen table →
  used_count (table.[i <- e]) = used_count table - (if is_used (state_of table.[i]) then 1 else 0) + (if is_used (state_of e) then 1 else 0).
Proof. intros Hi. unfold used_count, aset. by rewrite (zsum_insert _ _ _ _ _ (aget_lookup _ _ Hi)). Qed.

Lemma probe_ok_insert table capacity k i e : probe_ok table capacity → 0 ≤ i < capacity →
  (∀ j, ¬ holds table j k) → state_of table.[i] ≠ Slot_used →
  (∀ d, 0 ≤ d < distance capacity k i → state_of table.[(hash k mod capacity + d) mod capacity] ≠ Slot_empty) →
  state_of e = Slot_used → key_of e = k → probe_ok (table.[i <- e]) capacity.
Proof.
  intros [Hlen Hc Hu Hr] Hi Hk Hs Hp He Hek. rewrite <- Hlen in Hi. split; [by rewrite alen_aset|done| |].
  - intros j j' k' Hj Hj'. rewrite holds_aset in Hj, Hj' by done.
    destruct Hj as [(-> & _ & E1)|[_ H1]], Hj' as [(-> & _ & E2)|[_ H2]]; [done| | |by eapply Hu].
    + destruct (Hk j'). congruence.
    + destruct (Hk j). congruence.
  - intros j k' d Hj Hd. set (x := (hash k' mod capacity + d) mod capacity).
    assert (0 ≤ x < capacity) as Hx by (apply Z.mod_pos_bound; lia).
    destruct (decide (x = i)) as [->|Hne]; [rewrite aget_aset_eq by done; by rewrite He|].
    rewrite aget_aset_ne by lia. apply holds_aset in Hj as [(-> & _ & E1)|[_ H1]]; [|by eapply Hr|done].
    assert (k' = k) as Ek by congruence. unfold x. rewrite Ek in *. by apply Hp.
Qed.

Lemma probe_ok_clear table capacity i e : probe_ok table capacity → 0 ≤ i < capacity → state_of e = Slot_tombstone →
  probe_ok (table.[i <- e]) capacity.
Proof.
  intros [Hlen Hc Hu Hr] Hi He. rewrite <- Hlen in Hi. split; [by rewrite alen_aset|done| |].
  - intros j j' k Hj Hj'. rewrite holds_aset in Hj, Hj' by done.
    destruct Hj as [(_ & E1 & _)|[_ H1]], Hj' as [(_ & E2 & _)|[_ H2]]; [congruence..|by eapply Hu].
  - intros j k d Hj Hd. set (x := (hash k mod capacity + d) mod capacity).
    assert (0 ≤ x < capacity) as Hx by (apply Z.mod_pos_bound; lia).
    destruct (decide (x = i)) as [->|Hne]; [rewrite aget_aset_eq by done; by rewrite He|].
    rewrite aget_aset_ne by lia. apply holds_aset in Hj as [(_ & E1 & _)|[_ H1]]; [congruence|by eapply Hr|done].
Qed.

(** ** Clearing many slots *)

Lemma sweep_at (f : E → E) table i : 0 ≤ i < alen table → (map f table).[i] = f table.[i].
Proof. intros Hi. unfold aget. apply list_lookup_total_correct. rewrite list_lookup_fmap. by rewrite aget_lookup. Qed.

Lemma sweep_length (f : E → E) table : alen (map f table) = alen table.
Proof. unfold alen. by rewrite length_map. Qed.

Lemma holds_sweep (f : E → E) table i k : (∀ e, f e = e ∨ state_of e = Slot_used ∧ state_of (f e) = Slot_tombstone) →
  holds (map f table) i k ↔ holds table i k ∧ f table.[i] = table.[i].
Proof.
  intros Hf. unfold holds. rewrite sweep_length. split.
  - intros (Hi & Hs & Hk). rewrite sweep_at in Hs, Hk by done. destruct (Hf table.[i]) as [E0|[_ E0]]; [by rewrite E0 in *|congruence].
  - intros [(Hi & Hs & Hk) E0]. rewrite sweep_at by done. by rewrite E0.
Qed.

Lemma probe_ok_sweep (f : E → E) table capacity : (∀ e, f e = e ∨ state_of e = Slot_used ∧ state_of (f e) = Slot_tombstone) →
  probe_ok table capacity → probe_ok (map f table) capacity.
Proof.
  intros Hf [Hlen Hc Hu Hr]. split; [by rewrite sweep_length|done| |].
  - intros i j k Hi Hj. rewrite holds_sweep in Hi, Hj by done. by eapply Hu; [apply Hi|apply Hj].
  - intros i k d Hi Hd. rewrite holds_sweep in Hi by done. rewrite sweep_at by (rewrite Hlen; apply Z.mod_pos_bound; lia).
    specialize (Hr i k d (proj1 Hi) Hd). by destruct (Hf table.[(hash k mod capacity + d) mod capacity]) as [-> | [_ ->]].
Qed.

(** ** A new table *)

Lemma probe_ok_empty capacity e : 0 < capacity ≤ 2 ^ 31 → state_of e = Slot_empty → probe_ok (replicate (Z.to_nat capacity) e) capacity.
Proof.
  intros Hc He. assert (alen (replicate (Z.to_nat capacity) e) = capacity) as Hlen by (unfold alen; rewrite length_replicate; lia).
  assert (∀ i k, ¬ holds (replicate (Z.to_nat capacity) e) i k) as Hno.
  { intros i k (Hi & Hs & _). unfold aget in Hs. rewrite lookup_total_replicate_2 in Hs by lia. congruence. }
  split; [done|done| |]; intros i j k Hi; by destruct (Hno _ _ Hi).
Qed.

Lemma used_count_empty n e : state_of e = Slot_empty → used_count (replicate n e) = 0.
Proof. intros He. induction n as [|n IH]; [done|]. cbn. unfold is_used at 1. rewrite He. exact IH. Qed.

Lemma used_count_full table capacity : probe_ok table capacity → (∀ i, 0 ≤ i < capacity → state_of table.[i] = Slot_used) →
  used_count table = capacity.
Proof.
  intros Hok Hall. rewrite <- (po_length _ _ Hok) in *. unfold used_count, alen in *. revert Hall. clear Hok. intros Hall.
  assert (Forall (λ e, is_used (state_of e) = true) table) as H.
  { apply list.Forall_forall. intros e [n Hn]%list_elem_of_lookup. specialize (Hall (Z.of_nat n)).
    unfold aget in Hall. rewrite Nat2Z.id, (list_lookup_total_correct _ _ _ Hn) in Hall. unfold is_used. rewrite Hall; [done|].
    apply lookup_lt_Some in Hn. lia. }
  clear Hall. induction H as [|e l He _ IH]; [done|]. cbn [zsum length]. rewrite He. lia.
Qed.

Lemma used_count_bounds table : 0 ≤ used_count table ≤ alen table.
Proof.
  unfold used_count, alen. induction table as [|e l IH]; cbn [zsum length]; [lia|]. destruct (is_used _); lia.
Qed.

Lemma used_count_pos table i : 0 ≤ i < alen table → state_of table.[i] = Slot_used → 0 < used_count table.
Proof.
  intros Hi Hs. set (f := λ e, if is_used (state_of e) then 1 else 0). assert (f table.[i] ≤ zsum f table) as H.
  { eapply zsum_lookup_le; [|by apply aget_lookup]. intros y _. unfold f. destruct (is_used _); lia. }
  assert (f table.[i] = 1) as E1 by (unfold f; by rewrite Hs). change (used_count table) with (zsum f table). lia.
Qed.

Lemma used_count_free table : used_count table < alen table → ∃ i, 0 ≤ i < alen table ∧ state_of table.[i] ≠ Slot_used.
Proof.
  unfold used_count, alen. induction table as [|e l IH]; cbn [zsum length]; [lia|]. intros H.
  destruct (decide (state_of e = Slot_used)) as [Hs|Hs].
  - destruct IH as (i & Hi & Hn); [assert (is_used (state_of e) = true) as Hb by (by unfold is_used; rewrite Hs); rewrite Hb in H; lia|]. exists (i + 1). split; [lia|].
    unfold aget. replace (Z.to_nat (i + 1)) with (S (Z.to_nat i)) by lia. exact Hn.
  - exists 0. split; [lia|done].
Qed.
End Probe.

Arguments po_length {_ _ _ _ _ _ _} _.
Arguments po_capacity {_ _ _ _ _ _ _} _.
Arguments po_unique {_ _ _ _ _ _ _} _.

(** * The finite map *)

Section Map.
Context {E V : Type} `{!Inhabited E} (state_of : E → probe_state) (key_of : E → Z) (val_of : E → V) (hash : Z → Z).
Implicit Types (table : list E) (k i : Z) (e : E).

#[local] Abbreviation holds := (holds state_of key_of).
#[local] Abbreviation probe_ok := (probe_ok state_of key_of hash).

(** The finite map a table stands for. *)
Definition entry_pair e : option (Z * V) := if is_used (state_of e) then Some (key_of e, val_of e) else None.
Definition table_map table : gmap Z V := list_to_map (omap entry_pair table).

Lemma entry_pair_some e k v : entry_pair e = Some (k, v) ↔ state_of e = Slot_used ∧ key_of e = k ∧ val_of e = v.
Proof.
  unfold entry_pair, is_used. case_bool_decide as Hs; (split; [intros H; by simplify_eq|intros (H1 & H2 & H3); by simplify_eq]).
Qed.

Lemma pair_in table k v : (k, v) ∈ omap entry_pair table ↔ ∃ i, holds table i k ∧ val_of table.[i] = v.
Proof.
  rewrite list_elem_of_omap. split.
  - intros (e & [n Hn]%list_elem_of_lookup & (Hs & Hk & Hv)%entry_pair_some).
    assert (table.[Z.of_nat n] = e) as Ee by (unfold aget; rewrite Nat2Z.id; by apply list_lookup_total_correct).
    exists (Z.of_nat n). unfold holds. rewrite Ee. apply lookup_lt_Some in Hn. unfold alen. split_and!; try done; lia.
  - intros (i & (Hi & Hs & Hk) & Hv). exists table.[i]. split; [|by apply entry_pair_some].
    apply list_elem_of_lookup. exists (Z.to_nat i). by apply aget_lookup.
Qed.

Lemma table_map_some table capacity k v : probe_ok table capacity →
  table_map table !! k = Some v ↔ ∃ i, holds table i k ∧ val_of table.[i] = v.
Proof.
  intros Hok. rewrite <- pair_in. split; [apply elem_of_list_to_map_2|]. intros Hin.
  apply elem_of_list_to_map_1'; [|done]. intros v' Hv'. apply pair_in in Hin as (i & Hi & <-). apply pair_in in Hv' as (j & Hj & <-).
  by rewrite (po_unique Hok i j k Hi Hj).
Qed.

Lemma table_map_none table capacity k : probe_ok table capacity → table_map table !! k = None ↔ ∀ i, ¬ holds table i k.
Proof.
  intros Hok. rewrite eq_None_not_Some. split.
  - intros Hn i Hi. apply Hn. eexists. apply (table_map_some _ capacity); [done|]. by exists i.
  - intros Hn [v (i & Hi & _)%(table_map_some _ capacity)]; [|done]. by eapply Hn.
Qed.

Lemma table_map_insert table capacity k i e : probe_ok table capacity → probe_ok (table.[i <- e]) capacity → 0 ≤ i < capacity →
  (∀ j, ¬ holds table j k) → state_of table.[i] ≠ Slot_used → state_of e = Slot_used → key_of e = k →
  table_map (table.[i <- e]) = <[k := val_of e]> (table_map table).
Proof.
  intros Hok Hok' Hi Hk Hs He Hek. rewrite <- (po_length Hok) in Hi. apply map_eq. intros k'. apply option_eq. intros v.
  rewrite (table_map_some _ capacity), lookup_insert_Some, (table_map_some _ capacity) by done. split.
  - intros (j & Hj & <-). rewrite holds_aset in Hj by done. destruct Hj as [(-> & _ & E1)|[Hj H1]]; [|right].
    + rewrite aget_aset_eq by done. left. split; congruence.
    + split; [intros ->; by destruct (Hk j)|]. exists j. split; [done|]. rewrite aget_aset_ne by (destruct H1; lia). done.
  - intros [[-> <-]|(Hne & j & Hj & <-)].
    + exists i. split; [rewrite holds_aset by done; by left|]. by rewrite aget_aset_eq.
    + assert (j ≠ i) by (intros ->; by destruct Hj as (_ & ? & _)). exists j. split; [rewrite holds_aset by done; by right|].
      rewrite aget_aset_ne by (destruct Hj; lia). done.
Qed.

Lemma table_map_clear table capacity i k e : probe_ok table capacity → holds table i k → state_of e = Slot_tombstone →
  table_map (table.[i <- e]) = delete k (table_map table).
Proof.
  intros Hok Hh He. pose proof Hh as (Hi & Hs & Hk). pose proof (po_length Hok) as Hlen.
  assert (probe_ok (table.[i <- e]) capacity) as Hok' by (apply probe_ok_clear; [done|lia|done]).
  apply map_eq. intros k'. apply option_eq. intros v.
  rewrite (table_map_some _ capacity), lookup_delete_Some, (table_map_some _ capacity) by done. split.
  - intros (j & Hj & <-). rewrite holds_aset in Hj by done. destruct Hj as [(_ & E1 & _)|[Hj H1]]; [congruence|]. split.
    + intros ->. apply Hj. by eapply (po_unique Hok).
    + exists j. split; [done|]. rewrite aget_aset_ne by (destruct H1; lia). done.
  - intros (Hne & j & Hj & <-). assert (j ≠ i) by (intros ->; destruct Hj as (_ & _ & ?); congruence).
    exists j. split; [rewrite holds_aset by done; by right|]. rewrite aget_aset_ne by (destruct Hj; lia). done.
Qed.

Lemma table_map_empty n e : state_of e = Slot_empty → table_map (replicate n e) = ∅.
Proof.
  intros He. unfold table_map. replace (omap entry_pair (replicate n e)) with ([] : list (Z * V)); [done|].
  induction n as [|n IH]; [done|]. cbn. unfold entry_pair at 1, is_used. by rewrite He, <- IH.
Qed.

Lemma table_map_sweep (f : E → E) (P : V → Prop) `{∀ v, Decision (P v)} table capacity : probe_ok table capacity →
  (∀ e, state_of e ≠ Slot_used → f e = e) →
  (∀ e, state_of e = Slot_used → P (val_of e) ∧ f e = e ∨ ¬ P (val_of e) ∧ state_of (f e) = Slot_tombstone) →
  table_map (map f table) = filter (λ kv, P kv.2) (table_map table).
Proof.
  intros Hok Hf1 Hf2.
  assert (∀ e, f e = e ∨ state_of e = Slot_used ∧ state_of (f e) = Slot_tombstone) as Hf.
  { intros e. destruct (decide (state_of e = Slot_used)) as [Hs|Hs]; [|left; by apply Hf1]. destruct (Hf2 e Hs) as [[_ ?]|[_ ?]]; tauto. }
  pose proof (probe_ok_sweep _ _ _ f table capacity Hf Hok) as Hok'.
  apply map_eq. intros k. apply option_eq. intros v.
  rewrite map_lookup_filter_Some, !(table_map_some _ capacity) by done. cbn. split.
  - intros (i & Hi & Hv). rewrite holds_sweep in Hi by done. destruct Hi as [Hi E0]. pose proof Hi as (Hr & Hs & _).
    rewrite sweep_at, E0 in Hv by done. split; [by exists i|]. destruct (Hf2 _ Hs) as [[HP _]|[_ Ht]]; [by rewrite Hv in HP|congruence].
  - intros [(i & Hi & Hv) HP]. pose proof Hi as (Hr & Hs & _). destruct (Hf2 _ Hs) as [[_ E0]|[HnP _]]; [|congruence].
    exists i. rewrite holds_sweep, sweep_at, E0 by done. done.
Qed.

(** ** Its size *)

Lemma entry_keys_nodup table :
  (∀ n m e e', table !! n = Some e → table !! m = Some e' → state_of e = Slot_used → state_of e' = Slot_used →
     key_of e = key_of e' → n = m) → NoDup (omap entry_pair table).*1.
Proof.
  induction table as [|e l IH]; intros Hu; [apply NoDup_nil_2|].
  assert (NoDup (omap entry_pair l).*1) as Hl.
  { apply IH. intros n m e1 e2 H1 H2 H3 H4 H5. apply (inj S). by eapply (Hu (S n) (S m)). }
  cbn. destruct (entry_pair e) as [[k v]|] eqn:Ee; [|done]. cbn. apply NoDup_cons. split; [|done].
  apply entry_pair_some in Ee as (Hs & Hk & _).
  intros ([k' v'] & -> & Hin)%list_elem_of_fmap. apply list_elem_of_omap in Hin as (e' & [n Hn]%list_elem_of_lookup & Hp).
  apply entry_pair_some in Hp as (Hs' & Hk' & _). cbn in Hk. specialize (Hu 0%nat (S n) e e' eq_refl Hn Hs Hs'). rewrite Hk' in Hu.
  by specialize (Hu Hk).
Qed.

Lemma table_map_size table capacity : probe_ok table capacity → Z.of_nat (size (table_map table)) = used_count state_of table.
Proof.
  intros Hok. unfold table_map. rewrite map_size_list_to_map.
  - unfold used_count. clear Hok. induction table as [|e l IH]; [done|]. cbn. unfold entry_pair at 1. destruct (is_used _); cbn [length]; lia.
  - apply entry_keys_nodup. intros n m e e' Hn Hm Hs Hs' Hk. assert (Z.of_nat n = Z.of_nat m); [|lia].
    assert (∀ (j : nat) x, table !! j = Some x → 0 ≤ Z.of_nat j < alen table ∧ table.[Z.of_nat j] = x) as Hget.
    { intros j x Hj. split; [apply lookup_lt_Some in Hj; unfold alen; lia|]. unfold aget. rewrite Nat2Z.id. by apply list_lookup_total_correct. }
    destruct (Hget _ _ Hn) as [Hn1 Hn2], (Hget _ _ Hm) as [Hm1 Hm2].
    apply (po_unique Hok _ _ (key_of e)); (split; [done|]); rewrite ?Hn2, ?Hm2; done.
Qed.
End Map.
