(* ===== verification/Facade.v ===== *)
(** The facade's pure parts: [src/facade.c] (defaults), [src/facade_binding.c] (the binding of
    a connection to a session) and the sizing of [src/rpc/rpc_v2.c].

    Theorems: the limits prepared for RPC always leave credit for a whole record, and their
    arithmetic is exact; the memory limit is the exact sum or an error; bindings are encoded
    canonically; a generated identity is random bytes that are not all zero. *)
From S2P Require Import Prelude Status Endian RpcRecord.

(** * Defaults *)

Record tr_facade_limits := mk_facade_limits {
  fl_max_streams : Z;
  fl_max_methods : Z;
  fl_max_calls : Z;
  fl_max_frame_payload_bytes : Z;
  fl_max_message_bytes : Z;
  fl_initial_window_bytes : Z;
  fl_window_update_threshold_bytes : Z
}.

Record tr_facade_tuning := mk_facade_tuning {
  ft_command_capacity : Z;
  ft_tx_item_capacity : Z;
  ft_control_tx_item_capacity : Z;
  ft_rx_buffer_count : Z;
  ft_rpc_message_pool_count : Z;
  ft_reassembly_pool_count : Z;
  ft_executor_threads : Z;
  ft_executor_queue_capacity : Z;
  ft_executor_continuation_reserve : Z;
  ft_observability_flags : Z
}.

Definition default_limits : tr_facade_limits :=
  mk_facade_limits 128 64 256 (256 * 1024) (4 * 1024 * 1024) (8 * 1024 * 1024) (512 * 1024).

Definition tr_facade_limits_init (limits : option tr_facade_limits) : option tr_facade_limits :=
  match limits with None => None | Some _ => Some default_limits end.

Definition default_tuning : tr_facade_tuning := mk_facade_tuning 1024 512 128 64 64 8 4 1024 0 0.

Definition tr_facade_tuning_init (tuning : option tr_facade_tuning) : option tr_facade_tuning :=
  match tuning with None => None | Some _ => Some default_tuning end.

(** [TR_TUNING_DEFAULT] *)
Definition tuning_default (value default : Z) : Z := if value =? 0 then default else value.

Definition tr_facade_tuning_normalize (tuning : option tr_facade_tuning) : option tr_facade_tuning :=
  match tuning with
  | None => None
  | Some t =>
      let d := default_tuning in
      Some (mk_facade_tuning
        (tuning_default (ft_command_capacity t) (ft_command_capacity d))
        (tuning_default (ft_tx_item_capacity t) (ft_tx_item_capacity d))
        (tuning_default (ft_control_tx_item_capacity t) (ft_control_tx_item_capacity d))
        (tuning_default (ft_rx_buffer_count t) (ft_rx_buffer_count d))
        (tuning_default (ft_rpc_message_pool_count t) (ft_rpc_message_pool_count d))
        (tuning_default (ft_reassembly_pool_count t) (ft_reassembly_pool_count d))
        (tuning_default (ft_executor_threads t) (ft_executor_threads d))
        (tuning_default (ft_executor_queue_capacity t) (ft_executor_queue_capacity d))
        (ft_executor_continuation_reserve t) (ft_observability_flags t))
  end.

(** * Sizing *)

Definition tr_rpc_v2_prepare_limits (limits : option tr_facade_limits) : tr_status * option tr_facade_limits :=
  match limits with
  | None => (TR_ERR_INVALID, None)
  | Some l =>
      bail (TR_ERR_INVALID, limits) when
        ((fl_max_message_bytes l =? 0) || (fl_initial_window_bytes l =? 0) ||
         (fl_max_frame_payload_bytes l =? 0) ||
         (fl_max_message_bytes l <? fl_max_frame_payload_bytes l) ||
         (fl_max_message_bytes l >? UINT32_MAX - TR_RPC_RECORD_HEADER_SIZE) ||
         (fl_initial_window_bytes l >? UINT64_MAX - TR_RPC_RECORD_HEADER_SIZE)) ;;
      let minimum := TR_RPC_RECORD_HEADER_SIZE + TR_RPC_METADATA_MAX_BYTES in
      let message := u32 (fl_max_message_bytes l + TR_RPC_RECORD_HEADER_SIZE) in
      let message := if message <? minimum then u32 minimum else message in
      let window := u64 (fl_initial_window_bytes l + TR_RPC_RECORD_HEADER_SIZE) in
      let window := if window <? minimum then minimum else window in
      let record_limit := message in
      let record_limit := if record_limit >? window then window else record_limit in
      let threshold := u64 (u64 (window - record_limit) + 1) in
      let update :=
        if (fl_window_update_threshold_bytes l =? 0) || (fl_window_update_threshold_bytes l >? threshold)
        then threshold else fl_window_update_threshold_bytes l in
      (TR_OK, Some (mk_facade_limits (fl_max_streams l) (fl_max_methods l) (fl_max_calls l)
         (fl_max_frame_payload_bytes l) message window update))
  end.

(** The total is left alone on failure. *)
Definition tr_rpc_v2_add_product (total count size : Z) : bool * Z :=
  bail (false, total) when (nz count && (size >? (UINT64_MAX - total) / count)) ;;
  (true, u64 (total + u64 (count * size))).

Definition tr_rpc_v2_memory_limit (limits : option tr_facade_limits) (tuning : option tr_facade_tuning)
    (shards : Z) (out : option Z) : tr_status * option Z :=
  match limits, tuning, out with
  | Some l, Some t, Some _ =>
      bail (TR_ERR_INVALID, out) when
        ((shards =? 0) || (fl_max_message_bytes l =? 0) || (fl_max_frame_payload_bytes l =? 0)) ;;
      let retained := u64 (64 * shards) in
      let retained := if retained <? ft_rpc_message_pool_count t then ft_rpc_message_pool_count t else retained in
      let '(ok, total) := tr_rpc_v2_add_product 0 shards (64 * 1024 * 1024) in
      bail (TR_ERR_INVALID, out) when (negb ok) ;;
      let '(ok, total) := tr_rpc_v2_add_product total (ft_rx_buffer_count t) (fl_max_frame_payload_bytes l) in
      bail (TR_ERR_INVALID, out) when (negb ok) ;;
      let '(ok, total) := tr_rpc_v2_add_product total (ft_reassembly_pool_count t) (fl_max_message_bytes l) in
      bail (TR_ERR_INVALID, out) when (negb ok) ;;
      let '(ok, total) := tr_rpc_v2_add_product total retained (fl_max_message_bytes l) in
      bail (TR_ERR_INVALID, out) when (negb ok || (total >? SIZE_MAX)) ;;
      (TR_OK, Some total)
  | _, _, _ => (TR_ERR_INVALID, out)
  end.

(** * Bindings *)

Definition TR_FACADE_BIND_WIRE_SIZE : Z := 32.
Definition TR_FACADE_BIND_VERSION : Z := 1.
Definition TR_FACADE_BIND_ID_SIZE : Z := 16.
Definition TR_FACADE_BIND_LANE_CONTROL : Z := 0.
Definition TR_FACADE_BIND_LANE_BULK : Z := 1.
Definition TR_FACADE_BIND_OFF_MAGIC : Z := 0.
Definition TR_FACADE_BIND_OFF_VERSION : Z := 4.
Definition TR_FACADE_BIND_OFF_LANE : Z := 6.
Definition TR_FACADE_BIND_OFF_IDENTITY : Z := 8.
Definition TR_FACADE_BIND_OFF_RESERVED : Z := 24.

Record tr_facade_binding := mk_binding { bd_lane : Z; bd_identity : list Z }.

Definition zero_id : list Z := replicate (Z.to_nat TR_FACADE_BIND_ID_SIZE) 0.

(** ['T', 'R', 'B', '1'] *)
Definition tr_facade_bind_magic : list Z := [0x54; 0x52; 0x42; 0x31].

Definition tr_facade_binding_lane_valid (lane : Z) : bool :=
  (lane =? TR_FACADE_BIND_LANE_CONTROL) || (lane =? TR_FACADE_BIND_LANE_BULK).

Definition tr_facade_binding_id_zero (id : list Z) : bool :=
  fold_left (λ value b, u8 (Z.lor value b)) id 0 =? 0.

(** What [getrandom] answers: bytes, at most as many as asked for; an interrupt; an error. *)
Inductive random_answer := R_bytes (bytes : list Z) | R_interrupted | R_error.

(** [None]: more answers are needed. *)
Fixpoint generate_loop (answers : list random_answer) (out : list Z) (off : Z) : option (tr_status * list Z) :=
  match answers with
  | [] => None
  | a :: answers =>
      match a with
      | R_interrupted => generate_loop answers out off
      | R_error => Some (TR_ERR_SYS, zero_id)
      | R_bytes bytes =>
          let bytes := take (Z.to_nat (TR_FACADE_BIND_ID_SIZE - off)) bytes in
          bail (Some (TR_ERR_SYS, zero_id)) when (alen bytes =? 0) ;;
          let out := put_at out off bytes in
          let off := u32 (off + u32 (alen bytes)) in
          bail (generate_loop answers out off) when (off <? TR_FACADE_BIND_ID_SIZE) ;;
          bail (generate_loop answers out 0) when (tr_facade_binding_id_zero out) ;;
          Some (TR_OK, out)
      end
  end.

Definition tr_facade_binding_generate_id (answers : list random_answer) (out : option (list Z))
    : option (tr_status * option (list Z)) :=
  match out with
  | None => Some (TR_ERR_INVALID, None)
  | Some o =>
      match generate_loop answers o 0 with
      | Some (ret, o) => Some (ret, Some o)
      | None => None
      end
  end.

Definition tr_facade_binding_encode (out : option (list Z)) (binding : option tr_facade_binding)
    : tr_status * option (list Z) :=
  match out, binding with
  | Some _, Some b =>
      bail (TR_ERR_INVALID, out) when
        (negb (tr_facade_binding_lane_valid (bd_lane b)) || tr_facade_binding_id_zero (bd_identity b)) ;;
      let out := replicate (Z.to_nat TR_FACADE_BIND_WIRE_SIZE) 0 in
      let out := put_at out TR_FACADE_BIND_OFF_MAGIC tr_facade_bind_magic in
      let out := put_at out TR_FACADE_BIND_OFF_VERSION (tr_put_le16 TR_FACADE_BIND_VERSION) in
      let out := put_at out TR_FACADE_BIND_OFF_LANE (tr_put_le16 (bd_lane b)) in
      let out := put_at out TR_FACADE_BIND_OFF_IDENTITY (bd_identity b) in
      (TR_OK, Some out)
  | _, _ => (TR_ERR_INVALID, out)
  end.

Definition tr_facade_binding_decode (data : option (list Z)) (len : Z) (binding : option tr_facade_binding)
    : tr_status * option tr_facade_binding :=
  match data, binding with
  | Some data, Some _ =>
      bail (TR_ERR_BAD_LENGTH, binding) when (negb (len =? TR_FACADE_BIND_WIRE_SIZE)) ;;
      bail (TR_ERR_BAD_MAGIC, binding) when
        (negb (bool_decide (take 4 (at_off data TR_FACADE_BIND_OFF_MAGIC) = tr_facade_bind_magic))) ;;
      bail (TR_ERR_BAD_VERSION, binding) when
        (negb (tr_get_le16 (at_off data TR_FACADE_BIND_OFF_VERSION) =? TR_FACADE_BIND_VERSION)) ;;
      let lane := tr_get_le16 (at_off data TR_FACADE_BIND_OFF_LANE) in
      bail (TR_ERR_BAD_TYPE, binding) when (negb (tr_facade_binding_lane_valid lane)) ;;
      bail (TR_ERR_RESERVED, binding) when (nz (tr_get_le64 (at_off data TR_FACADE_BIND_OFF_RESERVED))) ;;
      let identity := take (Z.to_nat TR_FACADE_BIND_ID_SIZE) (at_off data TR_FACADE_BIND_OFF_IDENTITY) in
      bail (TR_ERR_INVALID, Some (mk_binding 0 zero_id)) when (tr_facade_binding_id_zero identity) ;;
      (TR_OK, Some (mk_binding lane identity))
  | _, _ => (TR_ERR_BAD_LENGTH, binding)
  end.

Definition tr_facade_binding_id_equal (a b : option (list Z)) : bool :=
  match a, b with
  | Some a, Some b =>
      fold_left (λ diff p, u8 (Z.lor diff (u8 (Z.lxor p.1 p.2)))) (combine a b) 0 =? 0
  | _, _ => false
  end.

(** * Lemmas: sizing *)

Record limits_ok (l : tr_facade_limits) : Prop := {
  fl_message_ok : u32_ok (fl_max_message_bytes l);
  fl_frame_ok : u32_ok (fl_max_frame_payload_bytes l);
  fl_window_ok : u64_ok (fl_initial_window_bytes l);
  fl_threshold_ok : u64_ok (fl_window_update_threshold_bytes l)
}.

Record tuning_ok (t : tr_facade_tuning) : Prop := {
  ft_rx_ok : u32_ok (ft_rx_buffer_count t);
  ft_pool_ok : u32_ok (ft_rpc_message_pool_count t);
  ft_reassembly_ok : u32_ok (ft_reassembly_pool_count t)
}.

Lemma add_product_spec total count size : u64_ok total → u64_ok count → u64_ok size →
  tr_rpc_v2_add_product total count size =
    if total + count * size <=? UINT64_MAX then (true, total + count * size) else (false, total).
Proof.
  intros Ht Hc Hs. unfold tr_rpc_v2_add_product, nz. rewrite Z.gtb_ltb.
  destruct (Z.eqb_spec count 0) as [->|Hne]; cbn [negb andb].
  - change (0 * size) with 0. rewrite (proj2 (Z.leb_le _ _)) by word_lia. by rewrite (u64_small 0), u64_small by word_lia.
  - destruct (Z.ltb_spec ((UINT64_MAX - total) / count) size) as [Hlt|Hle].
    + destruct (Z.leb_spec (total + count * size) UINT64_MAX); [|done]. exfalso.
      assert (size ≤ (UINT64_MAX - total) / count); [|lia]. apply Z.div_le_lower_bound; [word_lia|lia].
    + assert (total + count * size ≤ UINT64_MAX) as Hok.
      { pose proof (Z.mul_div_le (UINT64_MAX - total) count ltac:(word_lia)). unfold u64_ok in Hc. nia. }
      rewrite (proj2 (Z.leb_le _ _)) by done. unfold u64_ok in *.
      assert (0 ≤ count * size) by nia. rewrite (u64_small (count * size)), u64_small by word_lia. done.
Qed.

(** * Lemmas: bindings *)

Lemma lor_bytes_zero l v : bytes_ok l → u8_ok v →
  fold_left (λ value b, u8 (Z.lor value b)) l v = 0 ↔ v = 0 ∧ l = replicate (length l) 0.
Proof.
  intros Hl. revert v. induction Hl as [|b l Hb Hl IH]; intros v Hv; [cbn; tauto|]. cbn [fold_left length replicate].
  assert (Z.lor v b = u8 (Z.lor v b)) as E.
  { symmetry. apply u8_small. unfold u8_ok in *. split; [apply Z.lor_nonneg; lia|].
    destruct (Z.eq_dec (Z.lor v b) 0) as [->|Hne]; [lia|]. apply Z.log2_lt_pow2; [pose proof (Z.lor_nonneg v b); lia|].
    rewrite Z.log2_lor by lia. apply Z.max_lub_lt.
    - destruct (Z.eq_dec v 0) as [->|]; [done|]. apply Z.log2_lt_pow2; lia.
    - destruct (Z.eq_dec b 0) as [->|]; [done|]. apply Z.log2_lt_pow2; lia. }
  rewrite IH by apply u8_range. rewrite <- E, Z.lor_eq_0_iff. split.
  - intros [[-> ->] El]. split; [done|]. by f_equal.
  - intros [-> [= -> El]]. done.
Qed.

Lemma id_zero_iff id : bytes_ok id → tr_facade_binding_id_zero id = true ↔ id = replicate (length id) 0.
Proof. intros H. unfold tr_facade_binding_id_zero. rewrite Z.eqb_eq, lor_bytes_zero; [tauto|done|unfold u8_ok; lia]. Qed.

Lemma xor_bytes_zero a b d : bytes_ok a → bytes_ok b → length a = length b → u8_ok d →
  fold_left (λ diff p, u8 (Z.lor diff (u8 (Z.lxor p.1 p.2)))) (combine a b) d = 0 ↔ d = 0 ∧ a = b.
Proof.
  intros Ha Hb Hl Hd.
  set (xs := map (λ p, u8 (Z.lxor p.1 p.2)) (combine a b)).
  assert (fold_left (λ diff p, u8 (Z.lor diff (u8 (Z.lxor p.1 p.2)))) (combine a b) d =
    fold_left (λ value b, u8 (Z.lor value b)) xs d) as ->.
  { unfold xs. generalize d. induction (combine a b) as [|p l IH]; intros x; [done|]. cbn. apply IH. }
  rewrite lor_bytes_zero; [|apply list.Forall_forall; intros x (p & -> & _)%list_elem_of_fmap; apply u8_range|done].
  f_equiv. unfold xs. clear Hd xs. revert b Hb Hl. induction Ha as [|x a Hx Ha IH]; intros b Hb Hl.
  - destruct b; [done|discriminate Hl].
  - destruct b as [|y b]; [discriminate Hl|]. apply Forall_cons in Hb as [Hy Hb]. injection Hl as Hl.
    cbn [combine map length replicate fst snd].
    assert (u8 (Z.lxor x y) = 0 ↔ x = y) as Hxy.
    { rewrite u8_small; [apply Z.lxor_eq_0_iff|]. unfold u8_ok in *. split; [apply Z.lxor_nonneg; lia|].
      destruct (Z.eq_dec (Z.lxor x y) 0) as [->|Hne]; [lia|]. apply Z.log2_lt_pow2; [pose proof (proj2 (Z.lxor_nonneg x y)); lia|].
      eapply Z.le_lt_trans; [apply Z.log2_lxor; lia|]. apply Z.max_lub_lt.
      - destruct (Z.eq_dec x 0) as [->|]; [done|]. apply Z.log2_lt_pow2; lia.
      - destruct (Z.eq_dec y 0) as [->|]; [done|]. apply Z.log2_lt_pow2; lia. }
    split.
    + intros [= E1 E2]. f_equal; [by apply Hxy|]. by apply IH.
    + intros [= -> ->]. f_equal; [by apply Hxy|]. by apply IH.
Qed.

Definition random_ok (a : random_answer) : Prop := match a with R_bytes bytes => bytes_ok bytes | _ => True end.

Lemma generate_spec answers out off r id : Forall random_ok answers → bytes_ok out → length out = 16%nat →
  0 ≤ off < 16 → generate_loop answers out off = Some (r, id) →
  length id = 16%nat ∧ bytes_ok id ∧ (r = TR_OK ∧ id ≠ zero_id ∨ r = TR_ERR_SYS ∧ id = zero_id).
Proof.
  intros Ha. revert out off. induction Ha as [|a answers Ha _ IH]; intros out off Hb Hl Ho H; [discriminate H|].
  cbn [generate_loop] in H.
  assert (∀ r' id', Some (TR_ERR_SYS, zero_id) = Some (r', id') → length id' = 16%nat ∧ bytes_ok id' ∧
    (r' = TR_OK ∧ id' ≠ zero_id ∨ r' = TR_ERR_SYS ∧ id' = zero_id)) as Hsys.
  { intros ? ? [= <- <-]. split; [done|]. split; [|by right]. apply Forall_replicate. unfold u8_ok. lia. }
  destruct a as [bytes| |]; [|by eapply IH|by apply Hsys].
  set (bs := take (Z.to_nat (TR_FACADE_BIND_ID_SIZE - off)) bytes) in *.
  assert (bytes_ok bs ∧ 0 ≤ alen bs ≤ 16 - off) as [Hbs Hlen].
  { split; [by apply bytes_ok_take|]. unfold bs, alen, TR_FACADE_BIND_ID_SIZE. rewrite length_take. lia. }
  destruct (alen bs =? 0) eqn:E0; [by apply Hsys|]. bool_to_prop.
  rewrite (u32_small (alen bs)), u32_small in H by word_lia.
  assert (bytes_ok (put_at out off bs)) as Hb' by auto with trpc.
  assert (length (put_at out off bs) = 16%nat) as Hl'.
  { rewrite length_put_at; [done|lia|]. unfold alen at 2. rewrite Hl. lia. }
  unfold TR_FACADE_BIND_ID_SIZE in H. destruct (off + alen bs <? 16) eqn:E1; bool_to_prop.
  { eapply IH; [exact Hb'|done| |exact H]. lia. }
  destruct (tr_facade_binding_id_zero (put_at out off bs)) eqn:Ez.
  { eapply IH; [exact Hb'|done| |exact H]. lia. }
  injection H as <- <-. split_and!; try done. left. split; [done|]. intros E.
  assert (tr_facade_binding_id_zero (put_at out off bs) = true); [|congruence].
  apply id_zero_iff; [done|]. rewrite Hl'. exact E.
Qed.

Record binding_ok (b : tr_facade_binding) : Prop := {
  bd_lane_ok : u16_ok (bd_lane b);
  bd_identity_ok : bytes_ok (bd_identity b);
  bd_identity_len : length (bd_identity b) = 16%nat
}.

(** A binding is to the control or the bulk lane of a session that has an identity. *)
Definition legal_binding (b : tr_facade_binding) : Prop :=
  (bd_lane b = TR_FACADE_BIND_LANE_CONTROL ∨ bd_lane b = TR_FACADE_BIND_LANE_BULK) ∧ bd_identity b ≠ zero_id.

Definition binding_bytes (b : tr_facade_binding) : list Z :=
  tr_facade_bind_magic ++ tr_put_le16 TR_FACADE_BIND_VERSION ++ tr_put_le16 (bd_lane b) ++ bd_identity b ++
  replicate 8 0.

Lemma lane_valid_iff lane : tr_facade_binding_lane_valid lane = true ↔
  lane = TR_FACADE_BIND_LANE_CONTROL ∨ lane = TR_FACADE_BIND_LANE_BULK.
Proof. unfold tr_facade_binding_lane_valid. rewrite orb_true_iff, !Z.eqb_eq. done. Qed.

Lemma binding_encode_cases o b : binding_ok b →
  legal_binding b ∧ tr_facade_binding_encode (Some o) (Some b) = (TR_OK, Some (binding_bytes b)) ∨
  ¬ legal_binding b ∧ tr_facade_binding_encode (Some o) (Some b) = (TR_ERR_INVALID, Some o).
Proof.
  intros [_ Hb Hl]. pose proof (id_zero_iff _ Hb) as Hz. rewrite Hl in Hz. pose proof (lane_valid_iff (bd_lane b)) as Hv.
  unfold tr_facade_binding_encode, legal_binding. destruct (tr_facade_binding_lane_valid (bd_lane b)); cbn [negb orb].
  2: { right. split; [|done]. intros [H%Hv _]. done. }
  destruct (tr_facade_binding_id_zero (bd_identity b)).
  - right. split; [|done]. intros [_ H]. by apply H, Hz.
  - left. split; [split; [by apply Hv|]|].
    + intros E. by apply Hz in E.
    + do 2 f_equal. destruct (bd_identity b) as [|b0 [|b1 [|b2 [|b3 [|b4 [|b5 [|b6 [|b7 [|b8 [|b9 [|b10 [|b11 [|b12 [|b13 [|b14 [|b15 [|]]]]]]]]]]]]]]]]] eqn:E; try discriminate Hl.
      unfold binding_bytes. rewrite E. reflexivity.
Qed.

Lemma binding_fields b : binding_ok b → tr_get_le16 (at_off (binding_bytes b) 4) = 1 ∧
  tr_get_le16 (at_off (binding_bytes b) 6) = bd_lane b ∧ tr_get_le64 (at_off (binding_bytes b) 24) = 0 ∧
  take 16 (at_off (binding_bytes b) 8) = bd_identity b.
Proof.
  intros [Hv Hb Hl]. split_and!.
  - reflexivity.
  - apply (get_put_le16 (bd_lane b) (bd_identity b ++ replicate 8 0)); [done|]. apply bytes_ok_app; [done|].
    apply Forall_replicate. unfold u8_ok. lia.
  - change (at_off (binding_bytes b) 24) with (drop 16 (bd_identity b ++ replicate 8 0)).
    rewrite drop_app_length' by done. reflexivity.
  - change (at_off (binding_bytes b) 8) with (bd_identity b ++ replicate 8 0). by apply take_app_length'.
Qed.

Lemma binding_bytes_length b : binding_ok b → length (binding_bytes b) = 32%nat.
Proof. intros [_ _ Hl]. unfold binding_bytes. rewrite !length_app, Hl. reflexivity. Qed.

Lemma binding_decode_iff b ob : binding_ok b → legal_binding b →
  tr_facade_binding_decode (Some (binding_bytes b)) 32 (Some ob) = (TR_OK, Some b).
Proof.
  intros Hb [Hl Hz]. destruct (binding_fields b Hb) as (E1 & E2 & E3 & E4). pose proof Hb as [_ Hid Hlen].
  unfold tr_facade_binding_decode, TR_FACADE_BIND_OFF_VERSION, TR_FACADE_BIND_OFF_LANE, TR_FACADE_BIND_OFF_RESERVED,
    TR_FACADE_BIND_OFF_IDENTITY. rewrite E1, E2, E3. change (Z.to_nat TR_FACADE_BIND_ID_SIZE) with 16%nat. rewrite E4.
  rewrite (bool_decide_true _ eq_refl), (proj2 (lane_valid_iff _) Hl).
  destruct (tr_facade_binding_id_zero (bd_identity b)) eqn:E.
  - apply id_zero_iff in E; [|done]. rewrite Hlen in E. by destruct Hz.
  - by destruct b.
Qed.

Lemma binding_decode_canonical data b o ob : bytes_ok data → length data = 32%nat →
  tr_facade_binding_decode (Some data) 32 (Some ob) = (TR_OK, Some b) →
  legal_binding b ∧ tr_facade_binding_encode (Some o) (Some b) = (TR_OK, Some data).
Proof.
  intros Hd Hl H. unfold tr_facade_binding_decode in H. change (32 =? TR_FACADE_BIND_WIRE_SIZE) with true in H. cbn [negb] in H.
  unfold TR_FACADE_BIND_OFF_MAGIC, TR_FACADE_BIND_OFF_VERSION, TR_FACADE_BIND_OFF_LANE, TR_FACADE_BIND_OFF_RESERVED,
    TR_FACADE_BIND_OFF_IDENTITY, nz in H. change (at_off data 0) with data in H.
  change (Z.to_nat TR_FACADE_BIND_ID_SIZE) with 16%nat in H.
  cbn zeta in H. set (id := take 16 (at_off data 8)) in *.
  repeat (case_if_in H; [discriminate H|]). injection H as Eb. symmetry in Eb.
  assert (∀ off, bytes_ok (at_off data off)) as Hb by (intros; by apply bytes_ok_drop).
  assert (∀ off, 0 ≤ off → alen (at_off data off) = Z.max 0 (32 - off)) as Hoff.
  { intros. unfold alen, at_off. rewrite length_drop. lia. }
  assert (binding_ok b) as Hok.
  { subst b. split; cbn [bd_lane bd_identity].
    - apply tr_get_le16_range; [apply Hb|rewrite Hoff; lia].
    - by apply bytes_ok_take.
    - unfold id. rewrite length_take. pose proof (Hoff 8 ltac:(lia)). unfold alen in *. lia. }
  assert (binding_bytes b = data) as Ebytes.
  { subst b. unfold binding_bytes. cbn [bd_lane bd_identity].
    assert (tr_put_le16 TR_FACADE_BIND_VERSION = take 2 (at_off data 4)) as ->.
    { rewrite <- put_get_le16 by (apply Hb || (rewrite Hoff; lia)). congruence. }
    rewrite put_get_le16 by (apply Hb || (rewrite Hoff; lia)).
    assert (replicate 8 0 = take 8 (at_off data 24)) as ->.
    { rewrite <- put_get_le64 by (apply Hb || (rewrite Hoff; lia)).
      match goal with E : tr_get_le64 _ = 0 |- _ => rewrite E end. reflexivity. }
    match goal with E : take 4 data = _ |- _ => rewrite <- E end. unfold id.
    clear -Hl. do 32 (destruct data as [|? data]; [discriminate Hl|]). destruct data; [reflexivity|discriminate Hl]. }
  assert (legal_binding b) as Hleg.
  { subst b. split; cbn [bd_lane bd_identity]; [by apply lane_valid_iff|]. intros E.
    assert (tr_facade_binding_id_zero id = true); [|congruence]. apply id_zero_iff; [by apply bytes_ok_take|]. by rewrite E. }
  split; [done|]. destruct (binding_encode_cases o b Hok) as [[_ ->]|[Hn _]]; [by rewrite Ebytes|done].
Qed.

(** * Theorems *)

(** Preparing limits fails on the degenerate and the overflowing ones and changes nothing;
    otherwise no sum wraps, a threshold is set, and as long as less than the threshold of
    consumed credit is unannounced, the window has room for every record of the limits: one
    with a body of up to the configured message and window sizes, and one of metadata. *)
Theorem rpc_limits_leave_credit l (Hl : limits_ok l) :
  let bad := fl_max_message_bytes l = 0 ∨ fl_initial_window_bytes l = 0 ∨ fl_max_frame_payload_bytes l = 0 ∨
    fl_max_message_bytes l < fl_max_frame_payload_bytes l ∨
    fl_max_message_bytes l + TR_RPC_RECORD_HEADER_SIZE > UINT32_MAX ∨
    fl_initial_window_bytes l + TR_RPC_RECORD_HEADER_SIZE > UINT64_MAX in
  (bad ∧ tr_rpc_v2_prepare_limits (Some l) = (TR_ERR_INVALID, Some l)) ∨
  (¬ bad ∧ ∃ l', tr_rpc_v2_prepare_limits (Some l) = (TR_OK, Some l') ∧ limits_ok l' ∧
     fl_max_message_bytes l + TR_RPC_RECORD_HEADER_SIZE ≤ fl_max_message_bytes l' ∧
     fl_max_frame_payload_bytes l' = fl_max_frame_payload_bytes l ∧
     fl_initial_window_bytes l + TR_RPC_RECORD_HEADER_SIZE ≤ fl_initial_window_bytes l' ∧
     1 ≤ fl_window_update_threshold_bytes l' ∧
     ∀ unannounced, 0 ≤ unannounced < fl_window_update_threshold_bytes l' →
       let credit := fl_initial_window_bytes l' - unannounced in
       (∀ body, body ≤ fl_max_message_bytes l → body ≤ fl_initial_window_bytes l →
          TR_RPC_RECORD_HEADER_SIZE + body ≤ Z.min credit (fl_max_message_bytes l')) ∧
       (∀ metadata, metadata ≤ TR_RPC_METADATA_MAX_BYTES →
          TR_RPC_RECORD_HEADER_SIZE + metadata ≤ Z.min credit (fl_max_message_bytes l'))).
Proof.
  intros bad. destruct Hl as [Hm Hf Hw Ht]. unfold tr_rpc_v2_prepare_limits, TR_RPC_RECORD_HEADER_SIZE, TR_RPC_METADATA_MAX_BYTES in *.
  destruct (_ || _ || _ || _ || _ || _) eqn:E.
  { left. split; [|done]. unfold bad. rewrite !orb_true_iff, !Z.gtb_ltb, !Z.ltb_lt, !Z.eqb_eq in E. lia. }
  right. rewrite !orb_false_iff, !Z.gtb_ltb, !Z.ltb_ge, !Z.eqb_neq in E. split; [unfold bad; lia|]. clear bad.
  rewrite (u32_small (fl_max_message_bytes l + 48)), (u64_small (fl_initial_window_bytes l + 48)) by word_lia.
  change (u32 (48 + 512)) with 560. change (48 + 512) with 560.
  set (m := if fl_max_message_bytes l + 48 <? 560 then 560 else fl_max_message_bytes l + 48).
  set (w := if fl_initial_window_bytes l + 48 <? 560 then 560 else fl_initial_window_bytes l + 48).
  assert (m = Z.max (fl_max_message_bytes l + 48) 560) as Em by (unfold m; case_ifs; lia).
  assert (w = Z.max (fl_initial_window_bytes l + 48) 560) as Ew by (unfold w; case_ifs; lia).
  assert ((if m >? w then w else m) = Z.min m w) as -> by (case_ifs; lia).
  rewrite (u64_small (w - Z.min m w)), u64_small by word_lia.
  eexists. split; [done|]. cbn [fl_max_message_bytes fl_max_frame_payload_bytes fl_initial_window_bytes fl_window_update_threshold_bytes].
  set (t := if _ || _ then _ else _). assert (1 ≤ t ≤ w - Z.min m w + 1) as Htt.
  { unfold t. destruct (_ || _) eqn:Et; [lia|]. bool_to_prop. word_lia. }
  split; [split; cbn; word_lia|]. split_and!; try lia. intros u Hu. split; intros; lia.
Qed.

(** The memory limit is the exact sum of what is accounted for, or an error when that is not
    a 64-bit number or an argument is degenerate. *)
Theorem rpc_memory_limit_exact l t shards out (Hl : limits_ok l) (Ht : tuning_ok t) (Hs : u32_ok shards) :
  let total := shards * (64 * 1024 * 1024) + ft_rx_buffer_count t * fl_max_frame_payload_bytes l +
    ft_reassembly_pool_count t * fl_max_message_bytes l +
    Z.max (64 * shards) (ft_rpc_message_pool_count t) * fl_max_message_bytes l in
  let ok := shards ≠ 0 ∧ fl_max_message_bytes l ≠ 0 ∧ fl_max_frame_payload_bytes l ≠ 0 ∧ total ≤ UINT64_MAX in
  (ok ∧ tr_rpc_v2_memory_limit (Some l) (Some t) shards (Some out) = (TR_OK, Some total)) ∨
  (¬ ok ∧ tr_rpc_v2_memory_limit (Some l) (Some t) shards (Some out) = (TR_ERR_INVALID, Some out)).
Proof.
  intros total ok. destruct Hl as [Hm Hf _ _], Ht as [Hr Hp Ha]. unfold tr_rpc_v2_memory_limit.
  destruct (_ || _ || _) eqn:E.
  { right. split; [|done]. intros (? & ? & ? & _). bool_to_prop. lia. }
  assert (shards ≠ 0 ∧ fl_max_message_bytes l ≠ 0 ∧ fl_max_frame_payload_bytes l ≠ 0) as Hne by (bool_to_prop; tauto). clear E.
  rewrite (u64_small (64 * shards)) by word_lia.
  set (retained := if 64 * shards <? ft_rpc_message_pool_count t then ft_rpc_message_pool_count t else 64 * shards).
  assert (retained = Z.max (64 * shards) (ft_rpc_message_pool_count t)) as Eret by (unfold retained; case_ifs; lia).
  unfold u32_ok in *. set (a := ft_rx_buffer_count t * fl_max_frame_payload_bytes l) in *.
  set (b := ft_reassembly_pool_count t * fl_max_message_bytes l) in *.
  assert (0 ≤ a ∧ 0 ≤ b ∧ 0 ≤ retained * fl_max_message_bytes l) as (Ha0 & Hb0 & Hc0) by (unfold a, b; nia).
  assert (total = shards * 67108864 + a + b + retained * fl_max_message_bytes l) as Et by (unfold total; rewrite Eret; unfold a, b; lia).
  change (64 * 1024 * 1024) with 67108864 in *.
  assert (∀ x c s, u64_ok x → 0 ≤ c < 2 ^ 64 → 0 ≤ s < 2 ^ 64 → tr_rpc_v2_add_product x c s =
    if x + c * s <=? UINT64_MAX then (true, x + c * s) else (false, x)) as Hadd by (intros; by apply add_product_spec).
  rewrite Hadd by word_lia. rewrite (proj2 (Z.leb_le _ _)) by word_lia. cbn [negb].
  rewrite Hadd by word_lia. fold a. destruct (Z.leb_spec (0 + shards * 67108864 + a) UINT64_MAX) as [H1|H1]; cbn [negb].
  2: { right. split; [|done]. intros (_ & _ & _ & H). rewrite Et in H. lia. }
  rewrite Hadd by word_lia. fold b. destruct (Z.leb_spec (0 + shards * 67108864 + a + b) UINT64_MAX) as [H2|H2]; cbn [negb].
  2: { right. split; [|done]. intros (_ & _ & _ & H). rewrite Et in H. lia. }
  rewrite Hadd by word_lia. destruct (Z.leb_spec (0 + shards * 67108864 + a + b + retained * fl_max_message_bytes l) UINT64_MAX) as [H3|H3]; cbn [negb orb].
  2: { right. split; [|done]. intros (_ & _ & _ & H). rewrite Et in H. lia. }
  left. split; [unfold ok; rewrite Et; split_and!; try tauto; lia|]. rewrite Z.gtb_ltb, (proj2 (Z.ltb_ge _ _)) by word_lia.
  do 2 f_equal. rewrite Et. lia.
Qed.

(** Exactly the legal bindings are encoded, and decode to themselves; what decodes, decodes
    to a legal binding and is its encoding; identities compare equal exactly when they
    are; and a generated identity, whatever [getrandom] answers, is one that may be
    encoded, or else zeros and TR_ERR_SYS. *)
Theorem facade_binding_canonical b o ob (Hb : binding_ok b) :
  (legal_binding b ∧ (∃ raw, tr_facade_binding_encode (Some o) (Some b) = (TR_OK, Some raw) ∧ length raw = 32%nat ∧
     tr_facade_binding_decode (Some raw) 32 (Some ob) = (TR_OK, Some b)) ∨
   ¬ legal_binding b ∧ tr_facade_binding_encode (Some o) (Some b) = (TR_ERR_INVALID, Some o)) ∧
  (∀ data b', bytes_ok data → length data = 32%nat →
     tr_facade_binding_decode (Some data) 32 (Some ob) = (TR_OK, Some b') →
     legal_binding b' ∧ tr_facade_binding_encode (Some o) (Some b') = (TR_OK, Some data)) ∧
  (∀ id, bytes_ok id → length id = 16%nat →
     tr_facade_binding_id_equal (Some (bd_identity b)) (Some id) = true ↔ bd_identity b = id) ∧
  (∀ answers id ret id', Forall random_ok answers → bytes_ok id → length id = 16%nat →
     tr_facade_binding_generate_id answers (Some id) = Some (ret, Some id') →
     ret = TR_OK ∧ binding_ok (mk_binding (bd_lane b) id') ∧ id' ≠ zero_id ∨ ret = TR_ERR_SYS ∧ id' = zero_id).
Proof.
  pose proof Hb as [Hlane Hid Hlen]. split_and!.
  - destruct (binding_encode_cases o b Hb) as [[Hl E]|?]; [left|by right]. split; [done|].
    exists (binding_bytes b). split; [done|]. split; [by rewrite binding_bytes_length|]. by apply binding_decode_iff.
  - intros data b' Hd Hl H. by apply (binding_decode_canonical data b' o ob).
  - intros id Hi Hil. unfold tr_facade_binding_id_equal. rewrite Z.eqb_eq, xor_bytes_zero by (congruence || (unfold u8_ok; lia) || done).
    tauto.
  - intros answers id ret id' Ha Hi Hil H. unfold tr_facade_binding_generate_id in H.
    destruct (generate_loop answers id 0) as [[r i]|] eqn:E; [|done]. injection H as <- <-.
    destruct (generate_spec answers id 0 r i Ha Hi Hil ltac:(lia) E) as (H1 & H2 & [[-> H3]|[-> H3]]); [left|by right].
    done.
Qed.

(** * Defaults are prepared, sized, and a binding is sent *)

Lemma default_limits_ok : limits_ok default_limits.
Proof. split; vm_compute; split; congruence. Qed.

Lemma default_tuning_ok : tuning_ok default_tuning.
Proof. split; vm_compute; split; congruence. Qed.

Lemma rpc_limits_leave_credit_witness :
  ∃ l', tr_rpc_v2_prepare_limits (Some default_limits) = (TR_OK, Some l') ∧ 1 ≤ fl_window_update_threshold_bytes l'.
Proof.
  destruct (rpc_limits_leave_credit default_limits default_limits_ok) as [[_ H]|(_ & l' & E & _ & _ & _ & _ & H & _)].
  - vm_compute in H. discriminate.
  - exists l'. split; [exact E|exact H].
Defined.

Lemma rpc_memory_limit_exact_witness :
  tr_rpc_v2_memory_limit (Some default_limits) (Some default_tuning) 2 (Some 0) = (TR_OK, Some 721420288).
Proof.
  assert (u32_ok 2) as H2 by (unfold u32_ok; lia).
  destruct (rpc_memory_limit_exact default_limits default_tuning 2 0 default_limits_ok default_tuning_ok H2) as [[_ H]|[_ H]].
  - rewrite H. vm_compute. reflexivity.
  - vm_compute in H. discriminate.
Defined.

Definition demo_binding : tr_facade_binding := mk_binding TR_FACADE_BIND_LANE_BULK [1; 2; 3; 4; 5; 6; 7; 8; 9; 10; 11; 12; 13; 14; 15; 16].

Lemma demo_binding_ok : binding_ok demo_binding.
Proof. split; [vm_compute; split; congruence|repeat constructor; unfold u8_ok; lia|reflexivity]. Qed.

Lemma facade_binding_canonical_witness :
  ∃ raw, tr_facade_binding_encode (Some []) (Some demo_binding) = (TR_OK, Some raw) ∧
    tr_facade_binding_decode (Some raw) 32 (Some (mk_binding 0 zero_id)) = (TR_OK, Some demo_binding).
Proof.
  destruct (facade_binding_canonical demo_binding [] (mk_binding 0 zero_id) demo_binding_ok) as ([(_ & raw & E & _ & D)|[_ E]] & _).
  - exists raw. split; [exact E|exact D].
  - vm_compute in E. discriminate.
Defined.
