(* ===== verification/ProducerDomain.v ===== *)
(** The domain of producers: the first part of [src/rpc/rpc_record_producer.c].

    A domain counts the references and the memory of the producers of a server shard and of
    the bodies they send.  It may outlive its host: closing gives everything still charged
    back to the budget above at once, and what is released later touches the domain only.

    Critical sections are steps, and so is each drop of a reference, which the code does
    after it has let go of the lock.

    Theorem: the counts are exact, the budget is charged exactly while the domain is open,
    closing always succeeds, and the domain is freed by the last reference. *)
From S2P Require Import Prelude Status MemoryBudget Refcount.

(** * Data *)

(** [dm_upstream]: the pointer to the budget is not NULL. *)
Record tr_rpc_record_producer_domain := mk_domain {
  dm_refs : tr_refcount;
  dm_upstream : bool;
  dm_current_bytes : Z;
  dm_capacity : Z;
  dm_leases : Z;
  dm_closed : bool
}.

(** [sizeof] on LP64. *)
Definition sizeof_domain : Z := 88.

Definition dm_set_refs (d : tr_rpc_record_producer_domain) (refs : tr_refcount) : tr_rpc_record_producer_domain :=
  mk_domain refs (dm_upstream d) (dm_current_bytes d) (dm_capacity d) (dm_leases d) (dm_closed d).

Definition dm_set_counts (d : tr_rpc_record_producer_domain) (bytes leases : Z) : tr_rpc_record_producer_domain :=
  mk_domain (dm_refs d) (dm_upstream d) bytes (dm_capacity d) leases (dm_closed d).

(** * Operations *)

(** The domain, if it is still there. *)
Definition tr_producer_domain_put (d : tr_rpc_record_producer_domain) : option tr_rpc_record_producer_domain :=
  match tr_refcount_put (Some (dm_refs d)) with
  | (r, Some refs) => bail None when (r =? 1) ;; Some (dm_set_refs d refs)
  | (_, None) => Some d
  end.

Section Budgeted.
Context {B : Type} `{!Budget B}.

Definition tr_producer_domain_reserve (d : tr_rpc_record_producer_domain) (bytes : Z) (lease : bool) (budget : B)
    : tr_status * tr_rpc_record_producer_domain * B :=
  bail (TR_ERR_CLOSED, d, budget) when (dm_closed d) ;;
  bail (TR_AGAIN, d, budget) when (lease && (dm_leases d =? dm_capacity d)) ;;
  bail (TR_ERR_NOMEM, d, budget) when (bytes >? UINT64_MAX - dm_current_bytes d) ;;
  match tr_refcount_get (Some (dm_refs d)) with
  | (r, Some refs) =>
      let ret := default TR_ERR_STATE (status_of_value r) in
      let d := dm_set_refs d refs in
      bail (ret, d, budget) when (negb (is_ok ret)) ;;
      let '(ret, budget) := b_reserve budget bytes in
      if is_ok ret then
        (TR_OK, dm_set_counts d (u64 (dm_current_bytes d + bytes)) (if lease then u64 (dm_leases d + 1) else dm_leases d), budget)
      else (TR_ERR_NOMEM, default d (option_map (dm_set_refs d) (tr_refcount_put (Some (dm_refs d))).2), budget)
  | (_, None) => (TR_ERR_INVALID, d, budget)
  end.

(** Up to the end of the critical section; [tr_producer_domain_put] follows. *)
Definition tr_producer_domain_release (d : tr_rpc_record_producer_domain) (bytes : Z) (lease : bool) (budget : B)
    : tr_rpc_record_producer_domain * B :=
  let budget := if dm_upstream d then (b_release budget bytes).2 else budget in
  (dm_set_counts d (u64 (dm_current_bytes d - bytes)) (if lease then u64 (dm_leases d - 1) else dm_leases d), budget).

(** [out]: [out] is not NULL, and whether [*out] is.  [limit] is [upstream->limit_bytes]. *)
Definition tr_rpc_record_producer_domain_create (capacity : Z) (upstream : bool) (limit : Z) (out : option bool)
    (alloc_ok mutex_ok : bool) (budget : B) : tr_status * option tr_rpc_record_producer_domain * B :=
  match out with
  | None => (TR_ERR_INVALID, None, budget)
  | Some out =>
      bail (TR_ERR_INVALID, None, budget) when
        ((capacity =? 0) || (capacity >=? UINT32_MAX - 1) || negb upstream || (limit =? 0)) ;;
      bail (TR_ERR_STATE, None, budget) when out ;;
      let '(ret, budget) := b_reserve budget sizeof_domain in
      bail (ret, None, budget) when (negb (is_ok ret)) ;;
      bail (TR_ERR_NOMEM, None, (b_release budget sizeof_domain).2) when (negb alloc_ok) ;;
      bail (TR_ERR_SYS, None, (b_release budget sizeof_domain).2) when (negb mutex_ok) ;;
      (TR_OK, Some (mk_domain (default 0 (tr_refcount_init 1).2) true sizeof_domain capacity 0 false), budget)
  end.

(** Up to the end of the critical section; when it succeeds, [*domain] is cleared and
    [tr_producer_domain_put] follows.  [pointer]: [domain] is not NULL. *)
Definition tr_rpc_record_producer_domain_close (pointer : bool) (domain : option tr_rpc_record_producer_domain)
    (budget : B) : tr_status * option tr_rpc_record_producer_domain * B :=
  bail (TR_ERR_INVALID, domain, budget) when (negb pointer) ;;
  match domain with
  | None => (TR_OK, None, budget)
  | Some d =>
      bail (TR_OK, domain, budget) when (dm_closed d) ;;
      let '(ret, budget) := b_release budget (dm_current_bytes d) in
      (ret, Some (if is_ok ret then mk_domain (dm_refs d) false (dm_current_bytes d) (dm_capacity d) (dm_leases d) true else d),
       budget)
  end.

(** * The domain and whoever holds memory of it *)

(** [ds_host]: the host has not closed the domain.  [ds_holders]: what is reserved, and whether
    with a lease.  [ds_puts]: references about to be dropped. *)
Record domain_sys := mk_domain_sys {
  ds_domain : option tr_rpc_record_producer_domain;
  ds_budget : B;
  ds_host : bool;
  ds_holders : list (Z * bool);
  ds_puts : nat
}.

Inductive domain_act :=
| Da_reserve (bytes : Z) (lease : bool)
| Da_release (k : nat)
| Da_put
| Da_close.

Definition domain_exec (a : domain_act) (s : domain_sys) : domain_sys :=
  match ds_domain s with
  | None => s
  | Some d =>
      match a with
      | Da_reserve bytes lease =>
          let '(ret, d, budget) := tr_producer_domain_reserve d bytes lease (ds_budget s) in
          mk_domain_sys (Some d) budget (ds_host s)
            (if is_ok ret then ds_holders s ++ [(bytes, lease)] else ds_holders s) (ds_puts s)
      | Da_release k =>
          match ds_holders s !! k with
          | Some (bytes, lease) =>
              let '(d, budget) := tr_producer_domain_release d bytes lease (ds_budget s) in
              mk_domain_sys (Some d) budget (ds_host s) (delete k (ds_holders s)) (S (ds_puts s))
          | None => s
          end
      | Da_put =>
          match ds_puts s with
          | O => s
          | S puts => mk_domain_sys (tr_producer_domain_put d) (ds_budget s) (ds_host s) (ds_holders s) puts
          end
      | Da_close =>
          bail s when (negb (ds_host s)) ;;
          match tr_rpc_record_producer_domain_close true (Some d) (ds_budget s) with
          | (TR_OK, d, budget) => mk_domain_sys d budget false (ds_holders s) (S (ds_puts s))
          | (_, d, budget) => mk_domain_sys d budget true (ds_holders s) (ds_puts s)
          end
      end
  end.

Definition domain_execs (l : list domain_act) (s : domain_sys) : domain_sys := fold_left (λ s a, domain_exec a s) l s.

Definition domain_init (d : tr_rpc_record_producer_domain) (budget : B) : domain_sys := mk_domain_sys (Some d) budget true [] 0.

(** ** Specification *)

Definition held_bytes (l : list (Z * bool)) : Z := zsum (λ h : Z * bool, h.1) l.
Definition leased (l : list (Z * bool)) : Z := zsum (λ h : Z * bool, if h.2 then 1 else 0) l.

(** [base] is what others use of the budget. *)
Record domain_ok (base : Z) (d : tr_rpc_record_producer_domain) (s : domain_sys) : Prop := {
  do_refs : dm_refs d = (if ds_host s then 1 else 0) + alen (ds_holders s) + Z.of_nat (ds_puts s);
  do_alive : 0 < dm_refs d < UINT32_MAX;
  do_current : dm_current_bytes d = sizeof_domain + held_bytes (ds_holders s);
  do_current_ok : u64_ok (dm_current_bytes d);
  do_leases : dm_leases d = leased (ds_holders s);
  do_capacity : dm_leases d ≤ dm_capacity d < UINT32_MAX;
  do_upstream : dm_upstream d = ds_host s;
  do_closed : dm_closed d = negb (ds_host s);
  do_used : b_used (ds_budget s) = base + (if ds_host s then dm_current_bytes d else 0)
}.

Definition domain_inv (base : Z) (s : domain_sys) : Prop :=
  b_ok (ds_budget s) ∧ 0 ≤ base ∧ Forall (λ h : Z * bool, u64_ok h.1) (ds_holders s) ∧
  match ds_domain s with
  | Some d => domain_ok base d s
  | None => ds_host s = false ∧ ds_holders s = [] ∧ ds_puts s = 0%nat ∧ b_used (ds_budget s) = base
  end.

End Budgeted.
Arguments domain_sys : clear implicits.

(** * Lemmas *)

Section Lemmas.
Context {B : Type} `{!Budget B}.
Implicit Types (s : domain_sys B) (d : tr_rpc_record_producer_domain).

Lemma held_nonneg l : Forall (λ h : Z * bool, u64_ok h.1) l → 0 ≤ held_bytes l.
Proof. intros H. apply zsum_nonneg. intros h Hh. rewrite list.Forall_forall in H. apply H in Hh. word_lia. Qed.

Lemma leased_range l : 0 ≤ leased l ≤ alen l.
Proof. unfold leased, alen. induction l as [|[n []] l IH]; cbn; lia. Qed.

Lemma refs_get d : 0 < dm_refs d < UINT32_MAX →
  tr_refcount_get (Some (dm_refs d)) = (0, Some (dm_refs d + 1)) ∧ dm_refs d + 1 < UINT32_MAX ∨
  tr_refcount_get (Some (dm_refs d)) = (status_value TR_ERR_STATE, Some (dm_refs d)).
Proof.
  intros H. unfold tr_refcount_get. rewrite (proj2 (Z.eqb_neq _ _)), Z.geb_leb by lia. cbn [orb].
  destruct (Z.leb_spec (UINT32_MAX - 1) (dm_refs d)); [by right|left]. split; [done|lia].
Qed.

(** What a reservation does to the domain: everything or nothing. *)
Lemma domain_reserve_spec base d s bytes lease ret d' budget' : domain_ok base d s → b_ok (ds_budget s) → u64_ok bytes →
  tr_producer_domain_reserve d bytes lease (ds_budget s) = (ret, d', budget') → b_ok budget' ∧
  (ret ≠ TR_OK ∧ d' = d ∧ b_used budget' = b_used (ds_budget s) ∨
   ret = TR_OK ∧ ds_host s = true ∧ (lease = true → dm_leases d < dm_capacity d) ∧
   b_used budget' = b_used (ds_budget s) + bytes ∧ dm_refs d + 1 < UINT32_MAX ∧ dm_current_bytes d + bytes ≤ UINT64_MAX ∧
   d' = mk_domain (dm_refs d + 1) (dm_upstream d) (dm_current_bytes d + bytes) (dm_capacity d)
          (if lease then dm_leases d + 1 else dm_leases d) (dm_closed d)).
Proof.
  intros [Hr Ha Hc Hc64 Hl Hcap Hup Hcl Hu] Hb H64 H. unfold tr_producer_domain_reserve in H.
  destruct (dm_closed d) eqn:Ecl; [by simplify_eq; auto|].
  destruct (lease && (dm_leases d =? dm_capacity d)) eqn:El; [by simplify_eq; auto|].
  destruct (bytes >? UINT64_MAX - dm_current_bytes d) eqn:Eb; [by simplify_eq; auto|]. bool_to_prop.
  destruct (refs_get d Ha) as [[Eg Hlt]|Eg]; rewrite Eg in H.
  2: { change (default TR_ERR_STATE (status_of_value (status_value TR_ERR_STATE))) with TR_ERR_STATE in H.
       cbn [is_ok negb] in H. injection H as <- <- <-. split; [done|]. left. split_and!; try done. by destruct d. }
  change (default TR_ERR_STATE (status_of_value 0)) with TR_OK in H. cbn [is_ok negb] in H.
  destruct (b_reserve (ds_budget s) bytes) as [rb b1] eqn:Eres. apply b_reserve_spec in Eres as [Hb1 Hres]; [|done|done].
  destruct (is_ok rb) eqn:Erb.
  - apply is_ok_true in Erb as ->. destruct Hres as [[_ Hu']|[[?|?] _]]; [|done|done].
    cbn [is_ok] in H. injection H as <- <- <-. split; [done|]. right.
    assert (lease = true → dm_leases d < dm_capacity d) as Hlease.
    { intros ->. cbn in El. bool_to_prop. lia. }
    split_and!; try done; [by destruct (ds_host s)|lia|]. unfold dm_set_counts, dm_set_refs. cbn.
    pose proof (leased_range (ds_holders s)). rewrite u64_small by word_lia.
    f_equal; [|done]. destruct lease; [|done]. apply u64_small. specialize (Hlease eq_refl). word_lia.
  - assert (tr_refcount_put (@Some tr_refcount (dm_refs d + 1)) = (0, Some (dm_refs d))) as Ep.
    { unfold tr_refcount_put. rewrite !(proj2 (Z.eqb_neq _ _)) by lia. do 2 f_equal. lia. }
    change (dm_refs (dm_set_refs d (dm_refs d + 1))) with (dm_refs d + 1) in H.
    rewrite Ep in H. cbn [snd option_map default id] in H. injection H as <- <- <-.
    split; [done|]. left. split_and!; try done; [by destruct d|].
    destruct Hres as [[-> _]|[_ Hu']]; [done|lia].
Qed.

Lemma held_snoc l h : held_bytes (l ++ [h]) = held_bytes l + h.1 ∧ leased (l ++ [h]) = leased l + (if h.2 then 1 else 0).
Proof. unfold held_bytes, leased. rewrite !zsum_app. cbn. lia. Qed.

Lemma held_delete (l : list (Z * bool)) (k : nat) (h : Z * bool) : l !! k = Some h →
  held_bytes (delete k l) = held_bytes l - h.1 ∧ leased (delete k l) = leased l - (if h.2 then 1 else 0) ∧
  alen (delete k l) = alen l - 1.
Proof.
  intros H. unfold held_bytes, leased. rewrite !(zsum_delete _ _ _ _ H). split_and!; try done.
  unfold alen. rewrite length_delete by eauto. apply lookup_lt_Some in H. lia.
Qed.

Lemma domain_reserve_inv base s bytes lease : domain_inv base s → u64_ok bytes →
  domain_inv base (domain_exec (Da_reserve bytes lease) s).
Proof.
  intros (Hb & H0 & Hh & Hd) H64. unfold domain_exec. destruct (ds_domain s) as [d|] eqn:Ed; [|by split_and!; rewrite ?Ed].
  destruct (tr_producer_domain_reserve d bytes lease (ds_budget s)) as [[ret d'] budget'] eqn:E.
  destruct (domain_reserve_spec _ _ _ _ _ _ _ _ Hd Hb H64 E) as [Hb' [(Hne & -> & Hu)|(-> & Eh & Hlease & Hu & Hrf & Hcur & ->)]].
  - replace (is_ok ret) with false by (by destruct ret). split_and!; cbn; try done. destruct Hd. split; cbn; try done. congruence.
  - change (is_ok TR_OK) with true. cbn iota. destruct (held_snoc (ds_holders s) (bytes, lease)) as [E1 E2]. destruct Hd as [Hr Ha Hc Hc64 Hl Hcap Hup Hcl Hus].
    split_and!; cbn [ds_budget ds_holders ds_domain]; try done; [by apply Forall_app; split; [|apply Forall_singleton]|].
    split; cbn [dm_refs dm_upstream dm_current_bytes dm_capacity dm_leases dm_closed ds_host ds_holders ds_puts ds_budget]; rewrite ?E1, ?E2; cbn [fst snd]; try done.
    + unfold alen in *. rewrite length_app. cbn. lia.
    + lia.
    + lia.
    + pose proof (held_nonneg _ Hh). unfold sizeof_domain in Hc. word_lia.
    + destruct lease; lia.
    + destruct lease; [specialize (Hlease eq_refl)|]; lia.
    + rewrite Hu, Hus. destruct (ds_host s); [lia|done].
Qed.

Lemma domain_release_inv base s k : domain_inv base s → domain_inv base (domain_exec (Da_release k) s).
Proof.
  intros (Hb & H0 & Hh & Hd). unfold domain_exec. destruct (ds_domain s) as [d|] eqn:Ed; [|by split_and!; rewrite ?Ed].
  destruct (ds_holders s !! k) as [[bytes lease]|] eqn:Ek; [|by split_and!; rewrite ?Ed].
  destruct (held_delete _ _ _ Ek) as (E1 & E2 & E3). cbn [fst snd] in *. pose proof (Forall_lookup_1 _ _ _ _ Hh Ek) as Hbytes. cbn in Hbytes.
  assert (Forall (λ h : Z * bool, u64_ok h.1) (delete k (ds_holders s))) as Hh' by (by apply Forall_delete).
  pose proof (held_nonneg _ Hh'). pose proof (leased_range (delete k (ds_holders s))).
  destruct Hd as [Hr Ha Hc Hc64 Hl Hcap Hup Hcl Hus]. unfold tr_producer_domain_release. rewrite Hup.
  assert (∃ b', (if ds_host s then (b_release (ds_budget s) bytes).2 else ds_budget s) = b' ∧ b_ok b' ∧
    b_used b' = b_used (ds_budget s) - (if ds_host s then bytes else 0)) as (b' & -> & Hb' & Hu').
  { destruct (ds_host s); [|exists (ds_budget s); split_and!; try done; lia].
    destruct (b_release_spec (ds_budget s) bytes Hb) as (b' & -> & Hb' & Hu'); [unfold sizeof_domain in Hc; word_lia|by exists b']. }
  rewrite (u64_small (dm_current_bytes d - bytes)) by (unfold sizeof_domain in Hc; word_lia).
  assert ((if lease then u64 (dm_leases d - 1) else dm_leases d) = dm_leases d - (if lease then 1 else 0)) as ->.
  { destruct lease; [apply u64_small; word_lia|lia]. }
  split_and!; cbn [ds_budget ds_holders ds_domain]; try done.
  split; cbn [dm_refs dm_upstream dm_current_bytes dm_capacity dm_leases dm_closed dm_set_counts ds_host ds_holders ds_puts ds_budget];
    rewrite ?E1, ?E2, ?E3; try done; try lia.
  - unfold sizeof_domain in Hc. word_lia.
  - destruct lease; lia.
  - rewrite Hu', Hus. destruct (ds_host s); lia.
Qed.

Lemma domain_put_inv base s : domain_inv base s → domain_inv base (domain_exec Da_put s).
Proof.
  intros (Hb & H0 & Hh & Hd). unfold domain_exec. destruct (ds_domain s) as [d|] eqn:Ed; [|by split_and!; rewrite ?Ed].
  destruct (ds_puts s) as [|puts] eqn:Ep; [by split_and!; rewrite ?Ed|].
  destruct Hd as [Hr Ha Hc Hc64 Hl Hcap Hup Hcl Hus]. rewrite Ep in Hr. unfold tr_producer_domain_put, tr_refcount_put.
  rewrite (proj2 (Z.eqb_neq _ _)) by lia. pose proof (alen_nonneg (ds_holders s)).
  destruct (Z.eqb_spec (dm_refs d) 1) as [E1|Hne]; cbn [Z.eqb Pos.eqb].
  - split_and!; cbn; try done. destruct (ds_host s); [lia|]. split_and!; try done; [|lia|lia].
    destruct (ds_holders s); [done|]. unfold alen in *. cbn in *. lia.
  - split_and!; cbn [ds_budget ds_holders ds_domain]; try done. split; cbn [dm_set_refs dm_refs dm_upstream dm_current_bytes dm_capacity dm_leases dm_closed ds_host ds_holders ds_puts ds_budget]; try done; lia.
Qed.

Lemma domain_close_spec base s d : domain_inv base s → ds_domain s = Some d → ds_host s = true →
  ∃ budget', tr_rpc_record_producer_domain_close true (Some d) (ds_budget s) =
      (TR_OK, Some (mk_domain (dm_refs d) false (dm_current_bytes d) (dm_capacity d) (dm_leases d) true), budget') ∧
    b_ok budget' ∧ b_used budget' = base.
Proof.
  intros (Hb & H0 & Hh & Hd) Ed Eh. rewrite Ed in Hd. destruct Hd as [Hr Ha Hc Hc64 Hl Hcap Hup Hcl Hus]. rewrite Eh in *.
  unfold tr_rpc_record_producer_domain_close. cbn [negb] in *. rewrite Hcl.
  destruct (b_release_spec (ds_budget s) (dm_current_bytes d) Hb) as (b' & -> & Hb' & Hu'); [word_lia|].
  exists b'. split_and!; try done. lia.
Qed.

Lemma domain_close_inv base s : domain_inv base s → domain_inv base (domain_exec Da_close s).
Proof.
  intros Hinv. pose proof Hinv as (Hb & H0 & Hh & Hd). unfold domain_exec.
  destruct (ds_domain s) as [d|] eqn:Ed; [|by split_and!; rewrite ?Ed].
  destruct (ds_host s) eqn:Eh; cbn [negb]; [|done].
  destruct (domain_close_spec base s d Hinv Ed Eh) as (b' & -> & Hb' & Hu'). destruct Hd as [Hr Ha Hc Hc64 Hl Hcap Hup Hcl Hus].
  split_and!; cbn [ds_budget ds_holders ds_domain]; try done.
  split; cbn [dm_refs dm_upstream dm_current_bytes dm_capacity dm_leases dm_closed ds_host ds_holders ds_puts ds_budget]; try done; rewrite ?Eh in *; lia.
Qed.

Definition domain_act_ok (a : domain_act) : Prop := match a with Da_reserve bytes _ => u64_ok bytes | _ => True end.

Lemma domain_execs_inv base acts s : domain_inv base s → Forall domain_act_ok acts → domain_inv base (domain_execs acts s).
Proof.
  intros H Ha. revert s H. induction Ha as [|a acts Ha _ IH]; intros s H; [done|]. apply IH. destruct a.
  - by apply domain_reserve_inv.
  - by apply domain_release_inv.
  - by apply domain_put_inv.
  - by apply domain_close_inv.
Qed.

Lemma domain_create_inv capacity upstream limit out alloc_ok mutex_ok budget d budget' : b_ok budget → u64_ok capacity →
  tr_rpc_record_producer_domain_create capacity upstream limit out alloc_ok mutex_ok budget = (TR_OK, Some d, budget') →
  domain_inv (b_used budget) (domain_init d budget').
Proof.
  intros Hb Hcap H. unfold tr_rpc_record_producer_domain_create in H. destruct out as [out|]; [|done].
  destruct (_ || _ || _ || _) eqn:E in H; [done|]. bool_to_prop. destruct out; [done|].
  destruct (b_reserve budget sizeof_domain) as [rb b1] eqn:Eres.
  apply b_reserve_spec in Eres as [Hb1 Hres]; [|done|unfold sizeof_domain; word_lia].
  destruct (is_ok rb) eqn:Erb; cbn [negb] in H; [|by simplify_eq]. apply is_ok_true in Erb as ->.
  destruct Hres as [[_ Hu]|[[?|?] _]]; [|done|done]. destruct alloc_ok; [|done]. destruct mutex_ok; [|done].
  injection H as <- <-. split_and!; [done|by apply b_used_nonneg|by apply Forall_nil_2|].
  split; cbn; try done; unfold sizeof_domain in *; word_lia.
Qed.

End Lemmas.

(** * Theorem *)

Section Accounting.
Context {B : Type} `{!Budget B}.

(** Whatever is reserved and released, in whatever order with the host's close, the domain
    counts its references, bytes and leases exactly, and grants at most its capacity of
    leases.  While the host keeps it open the budget is charged with exactly its bytes, and
    closing it succeeds and gives all of them back; from then on reservations are
    refused and the budget is not touched again.  It is freed by the last reference, after
    the close and every release. *)
Theorem producer_domain_accounting capacity upstream limit out alloc_ok mutex_ok (budget budget' : B) d acts
    (Hb : b_ok budget) (Hcap : u64_ok capacity)
    (Hcreate : tr_rpc_record_producer_domain_create capacity upstream limit out alloc_ok mutex_ok budget = (TR_OK, Some d, budget'))
    (Hacts : Forall domain_act_ok acts) :
  let s := domain_execs acts (domain_init d budget') in
  match ds_domain s with
  | Some d =>
      dm_refs d = (if ds_host s then 1 else 0) + alen (ds_holders s) + Z.of_nat (ds_puts s) ∧
      dm_current_bytes d = sizeof_domain + held_bytes (ds_holders s) ∧
      dm_leases d = leased (ds_holders s) ∧ leased (ds_holders s) ≤ dm_capacity d ∧
      b_used (ds_budget s) = b_used budget + (if ds_host s then dm_current_bytes d else 0) ∧
      (if ds_host s then
         ∃ budget2 d', tr_rpc_record_producer_domain_close true (Some d) (ds_budget s) = (TR_OK, Some d', budget2) ∧
           b_used budget2 = b_used budget
       else
         (∀ bytes lease, tr_producer_domain_reserve d bytes lease (ds_budget s) = (TR_ERR_CLOSED, d, ds_budget s)) ∧
         (∀ bytes lease, (tr_producer_domain_release d bytes lease (ds_budget s)).2 = ds_budget s))
  | None => ds_host s = false ∧ ds_holders s = [] ∧ ds_puts s = 0%nat ∧ b_used (ds_budget s) = b_used budget
  end.
Proof.
  intros s. pose proof (domain_create_inv _ _ _ _ _ _ _ _ _ Hb Hcap Hcreate) as Hinit.
  assert (domain_inv (b_used budget) s) as Hinv by (by apply domain_execs_inv). pose proof Hinv as (_ & _ & _ & Hd).
  destruct (ds_domain s) as [d'|] eqn:Ed; [|done]. pose proof Hd as [Hr _ Hc _ Hl Hcp Hup Hcl Hu].
  split_and!; try done; [lia|]. destruct (ds_host s) eqn:Eh.
  - destruct (domain_close_spec _ s d' Hinv Ed Eh) as (b2 & E & _ & E2). by eexists _, _.
  - cbn [negb] in Hcl. split; intros bytes lease.
    + unfold tr_producer_domain_reserve. by rewrite Hcl.
    + unfold tr_producer_domain_release. by rewrite Hup.
Qed.

End Accounting.

(** Two leases of capacity two, a body, the close, and releases after it. *)
Definition demo_domain_budget : budget_ref := mk_budget_ref (tr_memory_budget_init 4096) None.

Definition demo_domain : tr_rpc_record_producer_domain := mk_domain 1 true 88 2 0 false.

Definition demo_domain_created : tr_status * option tr_rpc_record_producer_domain * budget_ref :=
  tr_rpc_record_producer_domain_create 2 true 4096 (Some false) true true demo_domain_budget.

Definition demo_domain_acts : list domain_act :=
  [Da_reserve 700 true; Da_reserve 60 false; Da_reserve 700 true; Da_reserve 700 true; Da_release 1; Da_put;
   Da_close; Da_put; Da_reserve 1 false; Da_release 0; Da_put].

Lemma producer_domain_accounting_witness :
  let s := domain_execs demo_domain_acts (domain_init demo_domain demo_domain_created.2) in
  b_used (ds_budget s) = 0 ∧ option_map dm_current_bytes (ds_domain s) = Some (88 + 700) ∧
  option_map dm_refs (ds_domain s) = Some 1.
Proof.
  assert (b_ok demo_domain_budget) as Hb by (repeat split; simpl; unfold u64_ok; lia).
  assert (u64_ok 2) as H2 by (unfold u64_ok; lia).
  assert (demo_domain_created = (TR_OK, Some demo_domain, demo_domain_created.2)) as Hc by (vm_compute; reflexivity).
  assert (Forall domain_act_ok demo_domain_acts) as Ha.
  { repeat (apply Forall_cons; split); try apply Forall_nil_2; try exact I; cbn; unfold u64_ok; lia. }
  pose proof (producer_domain_accounting 2 true 4096 (Some false) true true demo_domain_budget demo_domain_created.2
    demo_domain demo_domain_acts Hb H2 Hc Ha) as H. cbn zeta in H. intros s.
  assert (ds_domain s = Some (mk_domain 1 false 788 2 1 true)) as Ed by (vm_compute; reflexivity).
  assert (ds_host s = false) as Eh by (vm_compute; reflexivity). fold s in H. rewrite Ed, Eh in H.
  destruct H as (_ & _ & _ & _ & Hu & _). split; [rewrite Hu; vm_compute; reflexivity|]. rewrite Ed. split; reflexivity.
Defined.
