(* ===== verification/RecordProducer.v ===== *)
(** Producers: the mailbox of [src/rpc/rpc_record_producer.c].

    Application threads hold references to a producer and put one command at a time into its
    mailbox; the owner takes it, offers it to the transport, and completes.  Threads, the
    owner and the transport run in any order ([mail_exec]); a critical section is a step, and
    so is what a thread does with memory nobody else knows.  A body is a handle into
    [m_bodies]; NULL is [None].

    Theorems: what is accepted is what was published, in order, and a legal reply whatever
    fails; every body is freed exactly once and everything reserved is released; no waiter
    sleeps while it could write. *)
From S2P Require Import Prelude Status Endian Refcount RpcRecord RecordMetadata RpcMetadata.

(** * Data *)

(** [data] is [buffer.len] bytes long, its capacity. *)
Record tr_producer_body := mk_producer_body { pb_bytes : Z; pb_data : list Z }.

Record tr_rpc_v2_producer := mk_producer {
  pr_refs : tr_refcount;
  pr_app_refs : Z;
  pr_max_message : Z;
  pr_abandoned : bool;
  pr_body : option nat;
  pr_kind : Z;
  pr_status : Z;
  pr_metadata_size : Z;
  pr_metadata : list Z;
  pr_active : bool;
  pr_closed : bool;
  pr_finished : bool;
  pr_initial_closed : bool;
  pr_building : bool;
  pr_in_send : bool
}.

Record tr_rpc_record_producer_command := mk_producer_command {
  pc_kind : Z;
  pc_status : Z;
  pc_body : option nat;
  pc_metadata : option (list Z);
  pc_metadata_size : Z
}.

(** [sizeof] on LP64. *)
Definition sizeof_producer : Z := 664.
Definition sizeof_producer_body : Z := 64.

(** ** Assignments to fields *)

Definition pr_set_refs (p : tr_rpc_v2_producer) (refs : tr_refcount) (app_refs : Z) (abandoned : bool) : tr_rpc_v2_producer :=
  mk_producer refs app_refs (pr_max_message p) abandoned (pr_body p) (pr_kind p) (pr_status p) (pr_metadata_size p)
    (pr_metadata p) (pr_active p) (pr_closed p) (pr_finished p) (pr_initial_closed p) (pr_building p) (pr_in_send p).
Definition pr_set_mail (p : tr_rpc_v2_producer) (body : option nat) (kind status metadata_size : Z) (metadata : list Z)
    : tr_rpc_v2_producer :=
  mk_producer (pr_refs p) (pr_app_refs p) (pr_max_message p) (pr_abandoned p) body kind status metadata_size
    metadata (pr_active p) (pr_closed p) (pr_finished p) (pr_initial_closed p) (pr_building p) (pr_in_send p).
Definition pr_set_flags (p : tr_rpc_v2_producer) (active closed finished initial_closed : bool) : tr_rpc_v2_producer :=
  mk_producer (pr_refs p) (pr_app_refs p) (pr_max_message p) (pr_abandoned p) (pr_body p) (pr_kind p) (pr_status p)
    (pr_metadata_size p) (pr_metadata p) active closed finished initial_closed (pr_building p) (pr_in_send p).
Definition pr_set_busy (p : tr_rpc_v2_producer) (building in_send : bool) : tr_rpc_v2_producer :=
  mk_producer (pr_refs p) (pr_app_refs p) (pr_max_message p) (pr_abandoned p) (pr_body p) (pr_kind p) (pr_status p)
    (pr_metadata_size p) (pr_metadata p) (pr_active p) (pr_closed p) (pr_finished p) (pr_initial_closed p) building in_send.

(** * References *)

(** What the calls of [tr_rpc_record_producer_create] answer: reserving from the domain, and the
    allocator and the pthread functions in the order they are called. *)
Record create_answers := mk_create_answers {
  ca_reserve : tr_status; ca_alloc : bool; ca_mutex : bool;
  ca_attr : bool; ca_clock : bool; ca_cond : bool; ca_attr_destroy : bool
}.

(** The third component: the reservation is given back. *)
Definition tr_rpc_record_producer_create (domain : bool) (max_message : Z) (headers_sent : bool) (out : bool)
    (a : create_answers) : tr_status * option tr_rpc_v2_producer * bool :=
  bail (TR_ERR_INVALID, None, false) when (negb domain || negb out) ;;
  bail (ca_reserve a, None, false) when (negb (is_ok (ca_reserve a))) ;;
  bail (TR_ERR_NOMEM, None, true) when (negb (ca_alloc a)) ;;
  bail (TR_ERR_SYS, None, true) when (negb (ca_mutex a)) ;;
  bail (TR_ERR_SYS, None, true) when (negb (ca_attr a)) ;;
  let ok := ca_clock a && ca_cond a in
  bail (TR_ERR_SYS, None, true) when (negb ok || negb (ca_attr_destroy a)) ;;
  (TR_OK, Some (mk_producer (default 0 (tr_refcount_init 2).2) 1 max_message false None 0 TR_RPC_STATUS_OK 0
     (replicate (Z.to_nat TR_RPC_METADATA_MAX_BYTES) 0)
     false false false headers_sent false false), false).

(** [None]: it was the last reference, and the producer is freed and its lease released. *)
Definition tr_rpc_record_producer_put (p : tr_rpc_v2_producer) : option tr_rpc_v2_producer :=
  match tr_refcount_put (Some (pr_refs p)) with
  | (r, Some refs) => bail None when (r =? 1) ;; Some (pr_set_refs p refs (pr_app_refs p) (pr_abandoned p))
  | (_, None) => Some p
  end.

Definition tr_rpc_v2_producer_retain (p : option tr_rpc_v2_producer) : tr_status * option tr_rpc_v2_producer :=
  match p with
  | None => (TR_ERR_INVALID, None)
  | Some q =>
      match tr_refcount_get (Some (pr_refs q)) with
      | (r, Some refs) =>
          let ret := default TR_ERR_STATE (status_of_value r) in
          (ret, Some (pr_set_refs q refs (if is_ok ret then u32 (pr_app_refs q + 1) else pr_app_refs q) (pr_abandoned q)))
      | (_, None) => (TR_ERR_INVALID, p)
      end
  end.

(** Up to the end of the critical section; [tr_rpc_record_producer_put] follows. *)
Definition tr_rpc_v2_producer_release (p : tr_rpc_v2_producer) : tr_rpc_v2_producer :=
  let app_refs := u32 (pr_app_refs p - 1) in
  pr_set_refs p (pr_refs p) app_refs
    (if (app_refs =? 0) && negb (pr_finished p) && negb (pr_closed p) then true else pr_abandoned p).

Definition tr_rpc_record_producer_abandoned (p : option tr_rpc_v2_producer) : bool :=
  match p with None => false | Some p => pr_abandoned p end.

(** * Sending *)

Definition tr_producer_writable (p : tr_rpc_v2_producer) : tr_status :=
  bail TR_ERR_CLOSED when (pr_closed p) ;;
  bail TR_ERR_STATE when (pr_finished p) ;;
  if nz (pr_kind p) || pr_building p || pr_in_send p then TR_AGAIN else TR_OK.

Definition tr_producer_begin (p : tr_rpc_v2_producer) (initial : bool) : tr_status * tr_rpc_v2_producer :=
  let ret := tr_producer_writable p in
  let ret := if is_ok ret && initial && pr_initial_closed p then TR_ERR_STATE else ret in
  (ret, if is_ok ret then pr_set_busy p true (pr_in_send p) else p).

(** The result, the producer, and the body to release.  Waiters are woken. *)
Definition tr_producer_publish (p : tr_rpc_v2_producer) (kind : Z) (body : option nat) (metadata : list Z)
    (size status : Z) (result : tr_status) : tr_status * tr_rpc_v2_producer * option nat :=
  let result := if pr_closed p then TR_ERR_CLOSED else result in
  let '(p, body) :=
    if is_ok result then
      let p := pr_set_mail p body kind status size
        (if nz size then put_at (pr_metadata p) 0 (take (Z.to_nat size) metadata) else pr_metadata p) in
      (if kind =? TR_RPC_RECORD_FINAL_STATUS
       then pr_set_flags p (pr_active p) (pr_closed p) true (pr_initial_closed p)
       else pr_set_flags p (pr_active p) (pr_closed p) (pr_finished p) true, None)
    else (p, body) in
  (result, pr_set_busy p false (pr_in_send p), body).

(** [tr_rpc_v2_producer_send] up to the reservation. *)
Definition send_begin (p : option tr_rpc_v2_producer) (message : option tr_rpc_bytes)
    : tr_status * option tr_rpc_v2_producer :=
  match p, message with
  | Some q, Some m =>
      bail (TR_ERR_INVALID, p) when (nz (rb_len m) && negb (bool_decide (is_Some (rb_data m)))) ;;
      bail (TR_ERR_BAD_LENGTH, p) when
        ((rb_len m >? pr_max_message q) || (rb_len m >? SIZE_MAX - sizeof_producer_body)) ;;
      let '(ret, q) := tr_producer_begin q false in (ret, Some q)
  | _, _ => (TR_ERR_INVALID, p)
  end.

(** The body it makes. *)
Definition send_body (data : list Z) : tr_producer_body := mk_producer_body (sizeof_producer_body + alen data) data.

(** [tr_producer_metadata] up to the encoding. *)
Definition tr_producer_metadata (p : option tr_rpc_v2_producer) (initial : bool) (status : Z)
    : tr_status * option tr_rpc_v2_producer :=
  match p with
  | None => (TR_ERR_INVALID, None)
  | Some q =>
      bail (TR_ERR_INVALID, p) when ((status <? TR_RPC_STATUS_OK) || (status >=? TR_RPC_STATUS_COUNT)) ;;
      let '(ret, q) := tr_producer_begin q initial in (ret, Some q)
  end.

Definition tr_rpc_v2_producer_send_initial_metadata (p : option tr_rpc_v2_producer) : tr_status * option tr_rpc_v2_producer :=
  tr_producer_metadata p true TR_RPC_STATUS_OK.
Definition tr_rpc_v2_producer_finish (p : option tr_rpc_v2_producer) (status : Z) : tr_status * option tr_rpc_v2_producer :=
  tr_producer_metadata p false status.

(** * Waiting *)

(** The predicate a waiter waits for is not there yet. *)
Definition must_wait (p : tr_rpc_v2_producer) : bool :=
  match tr_producer_writable p with TR_AGAIN => true | TR_OK => negb (pr_active p) | _ => false end.

(** The top of the loop of [tr_rpc_v2_producer_wait_writable]: return, or wait. *)
Definition wait_check (p : tr_rpc_v2_producer) (timeout_ms : Z) : option tr_status :=
  bail (Some (tr_producer_writable p)) when (negb (must_wait p)) ;;
  bail (Some TR_ERR_TIMEOUT) when (timeout_ms =? 0) ;;
  None.

(** What [pthread_cond_timedwait] answers. *)
Inductive timedwait_answer := Tw_woken | Tw_timedout | Tw_error.

(** After it: return, or back to the top. *)
Definition wait_resume (p : tr_rpc_v2_producer) (waited : timedwait_answer) : option tr_status :=
  match waited with
  | Tw_woken => None
  | _ =>
      let ret := tr_producer_writable p in
      Some (if must_wait p then match waited with Tw_timedout => TR_ERR_TIMEOUT | _ => TR_ERR_SYS end else ret)
  end.

(** Up to the loop.  [context]: in the owner, a worker or a callback; [deadline]: what
    [tr_deadline_init_ms] answers. *)
Definition tr_rpc_v2_producer_wait_writable (p : option tr_rpc_v2_producer) (context : bool) (deadline : tr_status)
    : tr_status :=
  match p with
  | None => TR_ERR_INVALID
  | Some _ => bail TR_ERR_STATE when context ;; deadline
  end.

Definition tr_rpc_v2_producer_is_closed (p : option tr_rpc_v2_producer) : Z :=
  match p with None => status_value TR_ERR_INVALID | Some p => if pr_closed p then 1 else 0 end.

(** * The owner *)

(** Waiters are woken. *)
Definition tr_rpc_record_producer_activate (p : tr_rpc_v2_producer) : tr_rpc_v2_producer :=
  if pr_closed p then p else pr_set_flags p true (pr_closed p) (pr_finished p) (pr_initial_closed p).

(** What [pthread_mutex_trylock] answers. *)
Inductive trylock_answer := Tl_ok | Tl_busy | Tl_error.

Definition tr_rpc_record_producer_take (p : option tr_rpc_v2_producer) (out : option tr_rpc_record_producer_command)
    (lock : trylock_answer) : tr_status * option tr_rpc_v2_producer * option tr_rpc_record_producer_command :=
  match p, out with
  | Some q, Some _ =>
      match lock with
      | Tl_busy => (TR_AGAIN, p, out)
      | Tl_error => (TR_ERR_SYS, p, out)
      | Tl_ok =>
          bail (TR_ERR_CLOSED, p, out) when (pr_closed q) ;;
          bail (TR_AGAIN, p, out) when
            (negb (pr_active q) || negb (nz (pr_kind q)) || pr_building q || pr_in_send q) ;;
          (TR_OK, Some (pr_set_busy q (pr_building q) true),
           Some (mk_producer_command (pr_kind q) (pr_status q) (pr_body q)
             (if nz (pr_metadata_size q) then Some (pr_metadata q) else None) (pr_metadata_size q)))
      end
  | _, _ => (TR_ERR_INVALID, p, out)
  end.

(** The second component: waiters are woken. *)
Definition tr_rpc_record_producer_complete (p : tr_rpc_v2_producer) (accepted : bool) : tr_rpc_v2_producer * bool :=
  let p := if accepted then pr_set_mail p None 0 (pr_status p) 0 (pr_metadata p) else p in
  let p := pr_set_busy p (pr_building p) false in
  (p, accepted || pr_closed p).

(** The third component: the body to release.  Waiters are woken when it succeeds. *)
Definition tr_rpc_record_producer_fail (p : option tr_rpc_v2_producer) (status : Z)
    : tr_status * option tr_rpc_v2_producer * option nat :=
  match p with
  | None => (TR_ERR_INVALID, None, None)
  | Some q =>
      bail (TR_ERR_INVALID, p, None) when ((status <=? TR_RPC_STATUS_OK) || (status >=? TR_RPC_STATUS_COUNT)) ;;
      bail (if pr_closed q then TR_ERR_CLOSED else TR_AGAIN, p, None) when
        (pr_closed q || pr_in_send q || pr_building q) ;;
      let size := if pr_kind q =? TR_RPC_RECORD_FINAL_STATUS then pr_metadata_size q else 0 in
      let q' := pr_set_mail q None TR_RPC_RECORD_FINAL_STATUS status size (pr_metadata q) in
      (TR_OK, Some (pr_set_flags q' (pr_active q) (pr_closed q) true (pr_initial_closed q)), pr_body q)
  end.

(** The third component: the body to release.  Waiters are woken. *)
Definition tr_rpc_record_producer_close (p : option tr_rpc_v2_producer)
    : tr_status * option tr_rpc_v2_producer * option nat :=
  match p with
  | None => (TR_ERR_INVALID, None, None)
  | Some q =>
      let q := pr_set_flags q false true (pr_finished q) (pr_initial_closed q) in
      bail (TR_AGAIN, Some q, None) when (pr_in_send q) ;;
      (TR_OK, Some (pr_set_mail q None 0 (pr_status q) 0 (pr_metadata q)), pr_body q)
  end.

(** * Threads, owner and transport *)

(** Where an application thread is: outside of calls with a reference; sending a message, with
    [building] set, about to reserve or to allocate; about to encode metadata; about to
    publish; waiting, asleep on the condition or about to look; about to drop its
    reference; without one. *)
Inductive app_thread :=
| At_idle
| At_reserve (data : list Z)
| At_alloc (data : list Z)
| At_encode (kind status : Z) (entries : option (list tr_rpc_metadata)) (count : Z)
| At_publish (kind : Z) (body : option nat) (metadata : list Z) (size status : Z) (result : tr_status)
| At_waiting (asleep : bool) (timeout_ms : Z)
| At_releasing
| At_gone.

(** Where the owner is: between sends, and whether the last one was refused; between take and
    send; between an accepted send and complete; after close; without its reference. *)
Inductive mail_owner := Mo_idle (refused : bool) | Mo_taken | Mo_sent | Mo_closed | Mo_gone.

#[export] Instance mail_owner_eq_dec : EqDecision mail_owner.
Proof. solve_decision. Defined.

(** A command as the application means it. *)
Record mail_command := mk_mail_command { mc_kind : Z; mc_status : Z; mc_body : option (list Z); mc_metadata : list Z }.

(** [m_reserved]: the bytes reserved from the domain and not released.  [m_published] and
    [m_accepted]: the commands whose publication succeeded, and those the transport took.
    [m_failed]: [fail] has succeeded.  [m_fault]: freed memory was touched. *)
Record mail := mk_mail {
  m_producer : option tr_rpc_v2_producer;
  m_bodies : list (option tr_producer_body);
  m_threads : list app_thread;
  m_owner : mail_owner;
  m_tx : list nat;
  m_reserved : Z;
  m_published : list mail_command;
  m_accepted : list mail_command;
  m_failed : bool;
  m_fault : bool
}.

Definition m_set_producer (m : mail) (p : option tr_rpc_v2_producer) : mail :=
  mk_mail p (m_bodies m) (m_threads m) (m_owner m) (m_tx m) (m_reserved m) (m_published m) (m_accepted m)
    (m_failed m) (m_fault m).
Definition m_set_memory (m : mail) (bodies : list (option tr_producer_body)) (reserved : Z) (fault : bool) : mail :=
  mk_mail (m_producer m) bodies (m_threads m) (m_owner m) (m_tx m) reserved (m_published m) (m_accepted m)
    (m_failed m) fault.
Definition m_set_thread (m : mail) (k : nat) (t : app_thread) : mail :=
  mk_mail (m_producer m) (m_bodies m) (<[k := t]> (m_threads m)) (m_owner m) (m_tx m) (m_reserved m) (m_published m)
    (m_accepted m) (m_failed m) (m_fault m).
Definition m_set_threads (m : mail) (threads : list app_thread) : mail :=
  mk_mail (m_producer m) (m_bodies m) threads (m_owner m) (m_tx m) (m_reserved m) (m_published m) (m_accepted m)
    (m_failed m) (m_fault m).
Definition m_set_owner (m : mail) (owner : mail_owner) (tx : list nat) : mail :=
  mk_mail (m_producer m) (m_bodies m) (m_threads m) owner tx (m_reserved m) (m_published m) (m_accepted m)
    (m_failed m) (m_fault m).
Definition m_set_log (m : mail) (published accepted : list mail_command) (failed : bool) : mail :=
  mk_mail (m_producer m) (m_bodies m) (m_threads m) (m_owner m) (m_tx m) (m_reserved m) published accepted
    failed (m_fault m).
Definition m_set_fault (m : mail) : mail := m_set_memory m (m_bodies m) (m_reserved m) true.

(** [pthread_cond_broadcast] *)
Definition wake_all (threads : list app_thread) : list app_thread :=
  map (λ t, match t with At_waiting _ timeout => At_waiting false timeout | _ => t end) threads.
Definition m_broadcast (m : mail) (woken : bool) : mail :=
  if woken then m_set_threads m (wake_all (m_threads m)) else m.

(** [tr_buffer_release] of a producer's body: [tr_producer_body_release]. *)
Definition tr_producer_body_release (m : mail) (body : option nat) : mail :=
  match body with
  | None => m
  | Some i =>
      match m_bodies m !! i with
      | Some (Some b) => m_set_memory m (<[i := None]> (m_bodies m)) (m_reserved m - pb_bytes b) (m_fault m)
      | _ => m_set_fault m
      end
  end.

(** The reference is dropped; the last one frees the producer and releases its lease. *)
Definition mail_put (m : mail) (p : tr_rpc_v2_producer) : mail :=
  match tr_rpc_record_producer_put p with
  | Some p => m_set_producer m (Some p)
  | None => m_set_memory (m_set_producer m None) (m_bodies m) (m_reserved m - sizeof_producer) (m_fault m)
  end.

Definition body_data (bodies : list (option tr_producer_body)) (body : option nat) : option (list Z) :=
  match body with Some i => pb_data <$> (bodies !! i ≫= id) | None => None end.

(** The command in the mailbox. *)
Definition pending (bodies : list (option tr_producer_body)) (p : tr_rpc_v2_producer) : list mail_command :=
  if pr_kind p =? 0 then [] else
    [mk_mail_command (pr_kind p) (pr_status p) (body_data bodies (pr_body p))
       (take (Z.to_nat (pr_metadata_size p)) (pr_metadata p))].

Inductive mail_act :=
| Ma_retain (k : nat)
| Ma_release (k : nat)
| Ma_send (k : nat) (message : tr_rpc_bytes)
| Ma_initial (k : nat) (entries : option (list tr_rpc_metadata)) (count : Z)
| Ma_finish (k : nat) (status : Z) (entries : option (list tr_rpc_metadata)) (count : Z)
| Ma_wait (k : nat) (timeout_ms : Z) (context : bool) (deadline : tr_status)
| Ma_step (k : nat) (reserve : tr_status) (alloc : bool) (waited : timedwait_answer)
| Ma_activate
| Ma_take (lock : trylock_answer)
| Ma_send_on_transport (accepted : bool)
| Ma_complete
| Ma_fail (status : Z)
| Ma_close
| Ma_owner_put
| Ma_tx_release (k : nat).

(** A call of thread [k] that ends, or goes on as [t]. *)
Definition enter (m : mail) (k : nat) (r : tr_status * option tr_rpc_v2_producer) (t : app_thread) : mail :=
  let m := m_set_producer m r.2 in if is_ok r.1 then m_set_thread m k t else m.

Definition metadata_encode (entries : option (list tr_rpc_metadata)) (count : Z) : tr_status * list Z * Z :=
  match tr_rpc_v2_metadata_encode entries count (Some (replicate (Z.to_nat TR_RPC_METADATA_MAX_BYTES) 0)) (Some 0) with
  | Some (ret, Some out, Some size) => (ret, out, size)
  | _ => (TR_ERR_INVALID, [], 0)
  end.

(** The next step of the call thread [k] is in. *)
Definition thread_step (m : mail) (p : tr_rpc_v2_producer) (k : nat) (t : app_thread) (reserve : tr_status)
    (alloc : bool) (waited : timedwait_answer) : mail :=
  match t with
  | At_idle | At_gone => m
  | At_reserve data =>
      if is_ok reserve then
        m_set_thread (m_set_memory m (m_bodies m) (m_reserved m + pb_bytes (send_body data)) (m_fault m)) k (At_alloc data)
      else m_set_thread m k (At_publish TR_RPC_RECORD_MESSAGE None [] 0 TR_RPC_STATUS_OK reserve)
  | At_alloc data =>
      if alloc then
        let i := length (m_bodies m) in
        m_set_thread (m_set_memory m (m_bodies m ++ [Some (send_body data)]) (m_reserved m) (m_fault m)) k
          (At_publish TR_RPC_RECORD_MESSAGE (Some i) [] 0 TR_RPC_STATUS_OK TR_OK)
      else
        m_set_thread (m_set_memory m (m_bodies m) (m_reserved m - pb_bytes (send_body data)) (m_fault m)) k
          (At_publish TR_RPC_RECORD_MESSAGE None [] 0 TR_RPC_STATUS_OK TR_ERR_NOMEM)
  | At_encode kind status entries count =>
      let '(ret, encoded, size) := metadata_encode entries count in
      m_set_thread m k (At_publish kind None encoded size status ret)
  | At_publish kind body metadata size status result =>
      let '(ret, p, rest) := tr_producer_publish p kind body metadata size status result in
      let m := if is_ok ret then m_set_log m (m_published m ++ [mk_mail_command kind status (body_data (m_bodies m) body)
        (take (Z.to_nat size) metadata)]) (m_accepted m) (m_failed m) else m in
      tr_producer_body_release (m_broadcast (m_set_thread (m_set_producer m (Some p)) k At_idle) true) rest
  | At_waiting asleep timeout =>
      let after := if asleep then wait_resume p waited else None in
      match after with
      | Some _ => m_set_thread m k At_idle
      | None => m_set_thread m k (match wait_check p timeout with Some _ => At_idle | None => At_waiting true timeout end)
      end
  | At_releasing => mail_put (m_set_thread m k At_gone) p
  end.

(** Threads and the owner act while they hold references. *)
Definition mail_exec (a : mail_act) (m : mail) : mail :=
  match a with
  | Ma_tx_release k =>
      match m_tx m !! k with
      | Some i => tr_producer_body_release (m_set_owner m (m_owner m) (delete k (m_tx m))) (Some i)
      | None => m
      end
  | Ma_retain k | Ma_release k | Ma_send k _ | Ma_initial k _ _ | Ma_finish k _ _ _ | Ma_wait k _ _ _ =>
      match m_threads m !! k, m_producer m with
      | Some At_idle, Some p =>
          match a with
          | Ma_retain _ =>
              let '(ret, p) := tr_rpc_v2_producer_retain (Some p) in
              let m := m_set_producer m p in
              if is_ok ret then m_set_threads m (m_threads m ++ [At_idle]) else m
          | Ma_release _ => m_set_thread (m_set_producer m (Some (tr_rpc_v2_producer_release p))) k At_releasing
          | Ma_send _ message =>
              enter m k (send_begin (Some p) (Some message))
                (At_reserve (take (Z.to_nat (rb_len message)) (default [] (rb_data message))))
          | Ma_initial _ entries count =>
              enter m k (tr_rpc_v2_producer_send_initial_metadata (Some p))
                (At_encode TR_RPC_RECORD_INITIAL_METADATA TR_RPC_STATUS_OK entries count)
          | Ma_finish _ status entries count =>
              enter m k (tr_rpc_v2_producer_finish (Some p) status)
                (At_encode TR_RPC_RECORD_FINAL_STATUS status entries count)
          | Ma_wait _ timeout context deadline =>
              if is_ok (tr_rpc_v2_producer_wait_writable (Some p) context deadline)
              then m_set_thread m k (At_waiting false timeout) else m
          | _ => m
          end
      | Some At_idle, None => m_set_fault m
      | _, _ => m
      end
  | Ma_step k reserve alloc waited =>
      match m_threads m !! k, m_producer m with
      | Some (At_idle | At_gone), _ | None, _ => m
      | Some t, Some p => thread_step m p k t reserve alloc waited
      | Some _, None => m_set_fault m
      end
  | _ =>
      match m_owner m, m_producer m with
      | Mo_gone, _ => m
      | _, None => m_set_fault m
      | owner, Some p =>
          match a, owner with
          | Ma_activate, _ => m_broadcast (m_set_producer m (Some (tr_rpc_record_producer_activate p))) true
          | Ma_take lock, (Mo_idle _ | Mo_closed) =>
              let '(ret, p, _) := tr_rpc_record_producer_take (Some p) (Some (mk_producer_command 0 0 None None 0)) lock in
              let m := m_set_producer m p in
              if is_ok ret then m_set_owner m Mo_taken (m_tx m) else m
          | Ma_send_on_transport true, Mo_taken =>
              m_set_owner (m_set_log m (m_published m) (m_accepted m ++ pending (m_bodies m) p) (m_failed m))
                Mo_sent (option_list (pr_body p) ++ m_tx m)
          | Ma_complete, Mo_sent =>
              let '(p', woken) := tr_rpc_record_producer_complete p true in
              m_broadcast (m_set_owner (m_set_producer m (Some p')) (Mo_idle false) (m_tx m)) woken
          | Ma_complete, Mo_taken =>
              let '(p', woken) := tr_rpc_record_producer_complete p false in
              m_broadcast (m_set_owner (m_set_producer m (Some p')) (Mo_idle true) (m_tx m)) woken
          | Ma_fail status, Mo_idle true =>
              let '(ret, p, body) := tr_rpc_record_producer_fail (Some p) status in
              let m := m_set_producer m p in
              if is_ok ret then
                tr_producer_body_release (m_broadcast (m_set_owner (m_set_log m (m_published m) (m_accepted m) true)
                  (Mo_idle false) (m_tx m)) true) body
              else m
          | Ma_close, _ =>
              let '(ret, p, body) := tr_rpc_record_producer_close (Some p) in
              let m := m_broadcast (m_set_producer m p) true in
              if is_ok ret then tr_producer_body_release (m_set_owner m Mo_closed (m_tx m)) body else m
          | Ma_owner_put, Mo_closed => mail_put (m_set_owner m Mo_gone (m_tx m)) p
          | _, _ => m
          end
      end
  end.

Definition mail_execs (l : list mail_act) (m : mail) : mail := fold_left (λ m a, mail_exec a m) l m.

(** One thread and the owner hold a reference each; the lease is reserved. *)
Definition mail_init (p : tr_rpc_v2_producer) : mail :=
  mk_mail (Some p) [] [At_idle] (Mo_idle false) [] sizeof_producer [] [] false false.

(** * Specification *)

Definition holds_ref (t : app_thread) : Z := match t with At_gone => 0 | _ => 1 end.
Definition app_ref (t : app_thread) : Z := match t with At_gone | At_releasing => 0 | _ => 1 end.
Definition is_sending (t : app_thread) : Z :=
  match t with At_reserve _ | At_alloc _ | At_encode _ _ _ _ | At_publish _ _ _ _ _ _ => 1 | _ => 0 end.
Definition thread_reserved (t : app_thread) : Z := match t with At_alloc data => pb_bytes (send_body data) | _ => 0 end.
Definition thread_body (t : app_thread) : option nat := match t with At_publish _ body _ _ _ _ => body | _ => None end.
Definition is_asleep (t : app_thread) : Z := match t with At_waiting true _ => 1 | _ => 0 end.
Definition owner_ref (o : mail_owner) : Z := match o with Mo_gone => 0 | _ => 1 end.
Definition body_size (b : option tr_producer_body) : Z := match b with Some b => pb_bytes b | None => 0 end.

(** The application's array is what it says. *)
Definition entries_ok (entries : option (list tr_rpc_metadata)) (count : Z) : Prop :=
  Forall metadata_ok (default [] entries) ∧ count = alen (default [] entries).

Definition act_ok (a : mail_act) : Prop :=
  match a with Ma_initial _ entries count | Ma_finish _ _ entries count => entries_ok entries count | _ => True end.

(** What a sending thread has decided fits the producer. *)
Definition thread_fits (p : tr_rpc_v2_producer) (t : app_thread) : Prop :=
  match t with
  | At_encode kind _ entries count =>
      entries_ok entries count ∧
      (kind = TR_RPC_RECORD_FINAL_STATUS ∨ kind = TR_RPC_RECORD_INITIAL_METADATA ∧ pr_initial_closed p = false)
  | At_publish kind body metadata size _ result =>
      (result = TR_OK → (Z.to_nat size ≤ length metadata)%nat) ∧
      (kind = TR_RPC_RECORD_FINAL_STATUS ∧ body = None ∨
      kind = TR_RPC_RECORD_INITIAL_METADATA ∧ pr_initial_closed p = false ∧ body = None ∨
      kind = TR_RPC_RECORD_MESSAGE ∧ (result = TR_OK ↔ is_Some body))
  | _ => True
  end.

(** References are counted. *)
Definition refs_ok (p : option tr_rpc_v2_producer) (threads : list app_thread) (owner : mail_owner) : Prop :=
  match p with
  | Some p =>
      pr_refs p = zsum holds_ref threads + owner_ref owner ∧ 0 < pr_refs p < UINT32_MAX ∧
      pr_app_refs p = zsum app_ref threads
  | None => zsum holds_ref threads = 0 ∧ owner = Mo_gone
  end.

(** One thread sends at a time, into an empty mailbox; the owner has taken what is in it. *)
Record busy_ok (p : tr_rpc_v2_producer) (threads : list app_thread) (owner : mail_owner) : Prop := {
  bo_sending : zsum is_sending threads = if pr_building p then 1 else 0;
  bo_fits : Forall (thread_fits p) threads;
  bo_in_send : pr_in_send p = match owner with Mo_taken | Mo_sent => true | _ => false end;
  bo_building : pr_building p = true → pr_kind p = 0 ∧ pr_in_send p = false ∧ pr_finished p = false;
  bo_taken : pr_in_send p = true → pr_kind p ≠ 0;
  bo_refused : owner = Mo_idle true → pr_kind p ≠ 0;
  bo_closed : owner = Mo_closed ∨ owner = Mo_gone → pr_closed p = true ∧ pr_kind p = 0;
  bo_kind : pr_kind p = 0 ∧ pr_body p = None ∨
    (pr_kind p = TR_RPC_RECORD_INITIAL_METADATA ∨ pr_kind p = TR_RPC_RECORD_FINAL_STATUS) ∧ pr_body p = None ∨
    pr_kind p = TR_RPC_RECORD_MESSAGE ∧ is_Some (pr_body p);
  bo_final : pr_kind p = TR_RPC_RECORD_FINAL_STATUS → pr_finished p = true;
  bo_asleep : zsum is_asleep threads ≠ 0 → must_wait p = true
}.

(** A reply that may go on: initial metadata, unless it was sent before, and messages. *)
Definition open_reply (headers_sent : bool) (l : list mail_command) : Prop :=
  ∃ initial messages, l = initial ++ messages ∧
    (initial = [] ∨ headers_sent = false ∧ ∃ c, initial = [c] ∧ mc_kind c = TR_RPC_RECORD_INITIAL_METADATA) ∧
    Forall (λ c, mc_kind c = TR_RPC_RECORD_MESSAGE ∧ is_Some (mc_body c)) messages.

(** A reply: it may have ended. *)
Definition legal_reply (headers_sent : bool) (l : list mail_command) : Prop :=
  open_reply headers_sent l ∨
  ∃ l' c, l = l' ++ [c] ∧ open_reply headers_sent l' ∧ mc_kind c = TR_RPC_RECORD_FINAL_STATUS.

(** The reply so far: what was accepted and what still waits. *)
Definition reply (m : mail) : list mail_command :=
  m_accepted m ++ match m_owner m, m_producer m with Mo_sent, _ | _, None => [] | _, Some p => pending (m_bodies m) p end.

(** Everything published, in order, except that a failure ends the reply in its own way. *)
Definition faithful (published l : list mail_command) (failed : bool) : Prop :=
  ∃ kept final, l = kept ++ final ∧ kept `prefix_of` published ∧
    (final = [] ∨ failed = true ∧ ∃ c, final = [c] ∧ mc_kind c = TR_RPC_RECORD_FINAL_STATUS).

Record replies_ok (headers_sent : bool) (m : mail) : Prop := {
  ro_faithful : faithful (m_published m) (reply m) (m_failed m);
  ro_complete : m_failed m = false → m_owner m ≠ Mo_closed → m_owner m ≠ Mo_gone → reply m = m_published m;
  ro_legal : legal_reply headers_sent (reply m);
  ro_open : ∀ p, m_producer m = Some p → pr_finished p = false → open_reply headers_sent (reply m) ∧ m_failed m = false;
  ro_accepted : ∀ p, m_producer m = Some p → pr_kind p ≠ 0 → m_owner m ≠ Mo_sent → open_reply headers_sent (m_accepted m);
  ro_initial : ∀ p, m_producer m = Some p → pr_initial_closed p = false → pr_finished p = false →
    headers_sent = false ∧ reply m = []
}.

(** The bodies the mailbox, the transport and threads hold. *)
Definition owned (m : mail) : list nat :=
  (match m_owner m, m_producer m with Mo_sent, _ | _, None => [] | _, Some p => option_list (pr_body p) end) ++
  m_tx m ++ omap thread_body (m_threads m).

Record memory_ok (m : mail) : Prop := {
  mo_nodup : NoDup (owned m);
  mo_owned : ∀ i, i ∈ owned m ↔ ∃ b, m_bodies m !! i = Some (Some b);
  mo_reserved : m_reserved m = match m_producer m with Some _ => sizeof_producer | None => 0 end +
    zsum body_size (m_bodies m) + zsum thread_reserved (m_threads m);
  mo_fault : m_fault m = false
}.

Record mail_inv (headers_sent : bool) (m : mail) : Prop := {
  mi_refs : refs_ok (m_producer m) (m_threads m) (m_owner m);
  mi_busy : ∀ p, m_producer m = Some p → busy_ok p (m_threads m) (m_owner m);
  mi_replies : replies_ok headers_sent m;
  mi_memory : memory_ok m
}.

(** * Lemmas *)

Ltac mail_cbn :=
  cbn [m_producer m_bodies m_threads m_owner m_tx m_reserved m_published m_accepted m_failed m_fault
    m_set_producer m_set_memory m_set_thread m_set_threads m_set_owner m_set_log m_set_fault
    pr_refs pr_app_refs pr_max_message pr_abandoned pr_body pr_kind pr_status pr_metadata_size pr_metadata
    pr_active pr_closed pr_finished pr_initial_closed pr_building pr_in_send
    pr_set_refs pr_set_mail pr_set_flags pr_set_busy fst snd] in *.

(** ** Waking *)

Definition blind {A} (f : app_thread → A) : Prop := ∀ timeout, f (At_waiting true timeout) = f (At_waiting false timeout).

Lemma wake_sum (f : app_thread → Z) threads : blind f → zsum f (wake_all threads) = zsum f threads.
Proof. intros Hf. unfold wake_all. rewrite zsum_map. induction threads as [|[] l IH]; cbn; try lia. destruct asleep; rewrite ?Hf; lia. Qed.

Lemma wake_asleep threads : zsum is_asleep (wake_all threads) = 0.
Proof. unfold wake_all. rewrite zsum_map. induction threads as [|[] l IH]; cbn; lia. Qed.

Lemma wake_bodies threads : omap thread_body (wake_all threads) = omap thread_body threads.
Proof.
  unfold wake_all. induction threads as [|t l IH]; [done|]. cbn [map]. unfold omap in *. destruct t; cbn; by rewrite IH.
Qed.

Lemma wake_fits p threads : Forall (thread_fits p) threads → Forall (thread_fits p) (wake_all threads).
Proof. intros H. apply list.Forall_forall. intros t (t' & -> & Ht)%list_elem_of_fmap. rewrite list.Forall_forall in H. specialize (H t' Ht). by destruct t'. Qed.

(** ** Replies *)

Lemma open_nil hs : open_reply hs [].
Proof. exists [], []. split_and!; [done|by left|by apply Forall_nil_2]. Qed.

Lemma open_prefix hs l c : open_reply hs (l ++ [c]) → open_reply hs l.
Proof.
  intros (i & ms & E & Hi & Hm). destruct ms as [|m ms _] using rev_ind.
  - rewrite app_nil_r in E. destruct Hi as [->|(_ & d & -> & _)]; [by destruct l|].
    destruct l as [|? [|? ?]]; simplify_eq/=. apply open_nil.
  - rewrite app_assoc in E. apply app_inj_tail in E as [-> ->]. apply Forall_app in Hm as [Hm _].
    by exists i, ms.
Qed.

Lemma open_message hs l c : open_reply hs l → mc_kind c = TR_RPC_RECORD_MESSAGE → is_Some (mc_body c) → open_reply hs (l ++ [c]).
Proof.
  intros (i & ms & -> & Hi & Hm) Hc Hb. exists i, (ms ++ [c]). split_and!; [by rewrite app_assoc|done|].
  apply Forall_app; split; [done|by apply Forall_singleton].
Qed.

Lemma open_initial c : mc_kind c = TR_RPC_RECORD_INITIAL_METADATA → open_reply false [c].
Proof. intros Hc. exists [c], []. split_and!; [done| |by apply Forall_nil_2]. right. split; [done|]. by exists c. Qed.

Lemma legal_open hs l : open_reply hs l → legal_reply hs l.
Proof. by left. Qed.

Lemma legal_prefix hs l c : legal_reply hs (l ++ [c]) → open_reply hs l.
Proof. intros [H|(l' & d & E & H & _)]; [by eapply open_prefix|]. apply app_inj_tail in E as [-> _]. done. Qed.

(** Dropping what waits. *)
Lemma faithful_drop published l c failed : faithful published (l ++ [c]) failed → faithful published l failed.
Proof.
  intros (kept & final & E & Hp & Hf). destruct Hf as [->|(Hfail & d & -> & Hd)].
  - rewrite app_nil_r in E. subst kept. exists l, []. rewrite app_nil_r. split_and!; [done| |by left].
    etransitivity; [|exact Hp]. by exists [c].
  - apply app_inj_tail in E as [-> ->]. exists kept, []. rewrite app_nil_r. split_and!; [done|done|by left].
Qed.

Lemma pending_cases bodies p : pr_kind p = 0 ∧ pending bodies p = [] ∨ pr_kind p ≠ 0 ∧ ∃ c, pending bodies p = [c] ∧
  mc_kind c = pr_kind p ∧ mc_body c = body_data bodies (pr_body p).
Proof.
  unfold pending. destruct (Z.eqb_spec (pr_kind p) 0); [by left|right]. split; [done|]. by eexists.
Qed.

(** ** Memory *)

Lemma bodies_update (bodies : list (option tr_producer_body)) i b : bodies !! i = Some (Some b) →
  zsum body_size (<[i := None]> bodies) = zsum body_size bodies - pb_bytes b.
Proof. intros H. rewrite (zsum_insert _ _ _ _ _ H). cbn. lia. Qed.

Lemma body_data_other bodies i j : i ≠ j → body_data (<[i := None]> bodies) (Some j) = body_data bodies (Some j).
Proof. intros H. unfold body_data. by rewrite list_lookup_insert_ne. Qed.

Lemma body_data_snoc bodies b body : (∀ i, body = Some i → is_Some (bodies !! i)) → body_data (bodies ++ [b]) body = body_data bodies body.
Proof.
  intros H. destruct body as [i|]; [|done]. destruct (H i eq_refl) as [x Hx]. unfold body_data.
  by rewrite (lookup_app_l_Some _ _ _ _ Hx), Hx.
Qed.

Lemma pending_same bodies bodies' p : body_data bodies' (pr_body p) = body_data bodies (pr_body p) → pending bodies' p = pending bodies p.
Proof. unfold pending. intros ->. done. Qed.

(** A body someone owned is freed: [m] says who owns the rest. *)
Lemma release_memory m i : NoDup (i :: owned m) → (∀ j, j ∈ i :: owned m ↔ ∃ b, m_bodies m !! j = Some (Some b)) →
  m_reserved m = match m_producer m with Some _ => sizeof_producer | None => 0 end +
    zsum body_size (m_bodies m) + zsum thread_reserved (m_threads m) → m_fault m = false →
  memory_ok (tr_producer_body_release m (Some i)).
Proof.
  intros Hnd Ho Hr Hf. unfold tr_producer_body_release. destruct (proj1 (Ho i)) as [b Hb]; [by left|]. rewrite Hb.
  apply NoDup_cons in Hnd as [Hi Hnd]. split; mail_cbn; try done.
  - intros j. change (owned _) with (owned m). destruct (decide (j = i)) as [->|Hne].
    + rewrite list_lookup_insert_eq by (by eapply lookup_lt_Some). split; [done|]. by intros [? ?].
    + rewrite list_lookup_insert_ne by done. rewrite <- Ho, elem_of_cons. tauto.
  - rewrite bodies_update with (b := b) by done. lia.
Qed.

(** ** Steps of threads *)

(** Steps that leave the mailbox and the memory alone. *)
Lemma calm_inv hs m p r a ab threads : mail_inv hs m → m_producer m = Some p →
  refs_ok (Some (pr_set_refs p r a ab)) threads (m_owner m) →
  zsum is_sending threads = zsum is_sending (m_threads m) → Forall (thread_fits p) threads →
  (zsum is_asleep threads ≠ 0 → must_wait p = true) →
  zsum thread_reserved threads = zsum thread_reserved (m_threads m) →
  omap thread_body threads ≡ₚ omap thread_body (m_threads m) →
  mail_inv hs (m_set_threads (m_set_producer m (Some (pr_set_refs p r a ab))) threads).
Proof.
  intros [_ Hb [R1 R2 R3 R4 R5 R6] [M1 M2 M3 M4]] Ep Hr Hs Hf Ha Hres Hbod. destruct (Hb p Ep) as [B1 _ B3 B4 B5 B6 B7 B8 B9 _].
  assert (owned (m_set_threads (m_set_producer m (Some (pr_set_refs p r a ab))) threads) ≡ₚ owned m) as Eo.
  { unfold owned. mail_cbn. rewrite Ep, Hbod. done. }
  assert (reply (m_set_threads (m_set_producer m (Some (pr_set_refs p r a ab))) threads) = reply m) as El.
  { unfold reply. mail_cbn. by rewrite Ep. }
  split; mail_cbn; [done| | |].
  - intros q [= <-]. split; mail_cbn; try done. congruence.
  - split; rewrite ?El; mail_cbn; try done.
    + intros q [= <-]. by apply (R4 p).
    + intros q [= <-]. by apply (R5 p).
    + intros q [= <-]. by apply (R6 p).
  - split; rewrite ?Eo; try done; mail_cbn.
    + intros i. rewrite Eo. apply M2.
    + rewrite Hres. by rewrite Ep in M3.
Qed.

Lemma calm_same hs m p threads : mail_inv hs m → m_producer m = Some p →
  zsum holds_ref threads = zsum holds_ref (m_threads m) → zsum app_ref threads = zsum app_ref (m_threads m) →
  zsum is_sending threads = zsum is_sending (m_threads m) → Forall (thread_fits p) threads →
  (zsum is_asleep threads ≠ 0 → must_wait p = true) →
  zsum thread_reserved threads = zsum thread_reserved (m_threads m) →
  omap thread_body threads ≡ₚ omap thread_body (m_threads m) → mail_inv hs (m_set_threads m threads).
Proof.
  intros Hinv Ep Hh Happ Hs Hf Ha Hres Hbod.
  replace (m_set_threads m threads) with
    (m_set_threads (m_set_producer m (Some (pr_set_refs p (pr_refs p) (pr_app_refs p) (pr_abandoned p)))) threads).
  - eapply calm_inv; try done. pose proof (mi_refs _ _ Hinv) as Hr. rewrite Ep in Hr. unfold refs_ok in *. mail_cbn.
    rewrite Hh, Happ. done.
  - destruct m as [mp]. cbn in *. subst mp. by destruct p.
Qed.

(** Replacing a thread that plays no part in the mail by another one. *)
Lemma calm_thread hs m p k t t' : mail_inv hs m → m_producer m = Some p → m_threads m !! k = Some t →
  holds_ref t = holds_ref t' → app_ref t = app_ref t' → is_sending t = is_sending t' → thread_fits p t' →
  (is_asleep t' ≠ 0 → must_wait p = true) → thread_reserved t = thread_reserved t' → thread_body t = thread_body t' →
  mail_inv hs (m_set_thread m k t').
Proof.
  intros Hinv Ep Ek Hh Happ Hs Hf Ha Hres Hbod.
  assert (∀ f : app_thread → Z, f t = f t' → zsum f (<[k := t']> (m_threads m)) = zsum f (m_threads m)) as Hz.
  { intros f E. rewrite (zsum_insert _ _ _ _ _ Ek). lia. }
  apply (calm_same hs m p); try done; try by apply Hz.
  - apply Forall_insert; [|done]. apply (mi_busy _ _ Hinv p Ep).
  - intros Hne. rewrite (zsum_insert _ _ _ _ _ Ek) in Hne. destruct (mi_busy _ _ Hinv p Ep) as [_ _ _ _ _ _ _ _ _ Hsl].
    destruct (decide (is_asleep t' = 0)) as [E|E]; [|by apply Ha]. apply Hsl.
    assert (0 ≤ is_asleep t) by (destruct t as [| | | | |[]| |]; cbn; lia). 
    intros E0. assert (0 ≤ is_asleep t ≤ zsum is_asleep (m_threads m)); [|lia]. split; [done|].
    eapply zsum_lookup_le; [|done]. intros y _. destruct y as [| | | | |[]| |]; cbn; lia.
  - pose proof (omap_insert_perm thread_body _ _ _ t' Ek) as Hp. rewrite Hbod in Hp. by apply Permutation_app_inv_l in Hp.
Qed.

Lemma holds_nonneg t : 0 ≤ holds_ref t ≤ 1.
Proof. destruct t; cbn; lia. Qed.
Lemma app_nonneg t : 0 ≤ app_ref t ≤ holds_ref t.
Proof. destruct t; cbn; lia. Qed.
Lemma sending_nonneg t : 0 ≤ is_sending t.
Proof. destruct t; cbn; lia. Qed.
Lemma asleep_nonneg t : 0 ≤ is_asleep t.
Proof. destruct t as [| | | | |[]| |]; cbn; lia. Qed.

Lemma zsum_mono {A} (f g : A → Z) l : (∀ x, f x ≤ g x) → zsum f l ≤ zsum g l.
Proof. intros H. induction l as [|x l IH]; cbn; [lia|]. specialize (H x). lia. Qed.

Lemma alive_thread hs m k t : mail_inv hs m → m_threads m !! k = Some t → holds_ref t = 1 → is_Some (m_producer m).
Proof.
  intros Hinv Ek Ht. pose proof (mi_refs _ _ Hinv) as Hr. destruct (m_producer m) as [p|]; [by eexists|]. exfalso.
  destruct Hr as [Hr _]. assert (holds_ref t ≤ zsum holds_ref (m_threads m)); [|lia].
  eapply zsum_lookup_le; [|done]. intros y _. apply holds_nonneg.
Qed.

Lemma alive_owner hs m : mail_inv hs m → m_owner m ≠ Mo_gone → is_Some (m_producer m).
Proof.
  intros Hinv Ho. pose proof (mi_refs _ _ Hinv) as Hr. destruct (m_producer m); [by eexists|]. by destruct Hr as [_ Hr].
Qed.

Lemma producer_retain_inv hs m k p : mail_inv hs m → m_producer m = Some p → m_threads m !! k = Some At_idle →
  mail_inv hs (let '(ret, p) := tr_rpc_v2_producer_retain (Some p) in
    let m := m_set_producer m p in if is_ok ret then m_set_threads m (m_threads m ++ [At_idle]) else m).
Proof.
  intros Hinv Ep Ek. pose proof (mi_refs _ _ Hinv) as Hr. rewrite Ep in Hr. destruct Hr as (Hr & Hlt & Happ).
  destruct (mi_busy _ _ Hinv p Ep) as [B1 B2 _ _ _ _ _ _ _ B10].
  assert (zsum app_ref (m_threads m) ≤ zsum holds_ref (m_threads m)) as Hle by (apply zsum_mono; apply app_nonneg).
  assert (0 ≤ zsum app_ref (m_threads m)) as H0 by (apply zsum_nonneg; intros t _; destruct t; cbn; lia).
  assert (0 ≤ owner_ref (m_owner m)) as Ho by (destruct (m_owner m); cbn; lia).
  unfold tr_rpc_v2_producer_retain, tr_refcount_get. destruct (_ || _) eqn:E.
  - change (default TR_ERR_STATE (status_of_value (status_value TR_ERR_STATE))) with TR_ERR_STATE. cbn [is_ok].
    replace (m_set_producer m _) with m; [done|]. destruct m as [mp]. cbn in *. subst mp. by destruct p.
  - change (default TR_ERR_STATE (status_of_value (status_value TR_OK))) with TR_OK. cbn [is_ok]. bool_to_prop.
    rewrite u32_small by word_lia.
    apply (calm_inv hs m p (pr_refs p + 1) (pr_app_refs p + 1) (pr_abandoned p) (m_threads m ++ [At_idle])); try done.
    + unfold refs_ok. mail_cbn. rewrite !zsum_app. cbn. lia.
    + rewrite zsum_app. cbn. lia.
    + apply Forall_app; split; [done|by apply Forall_singleton].
    + rewrite zsum_app. cbn. rewrite Z.add_0_r. exact B10.
    + rewrite zsum_app. cbn. lia.
    + rewrite omap_app. cbn. by rewrite app_nil_r.
Qed.

Lemma producer_release_inv hs m k p : mail_inv hs m → m_producer m = Some p → m_threads m !! k = Some At_idle →
  mail_inv hs (m_set_thread (m_set_producer m (Some (tr_rpc_v2_producer_release p))) k At_releasing).
Proof.
  intros Hinv Ep Ek. pose proof (mi_refs _ _ Hinv) as Hr. rewrite Ep in Hr. destruct Hr as (Hr & Hlt & Happ).
  destruct (mi_busy _ _ Hinv p Ep) as [B1 B2 _ _ _ _ _ _ _ B10].
  assert (zsum app_ref (m_threads m) ≤ zsum holds_ref (m_threads m)) as Hle by (apply zsum_mono; apply app_nonneg).
  assert (app_ref At_idle ≤ zsum app_ref (m_threads m)) as H1 by (eapply zsum_lookup_le; [intros y _; apply app_nonneg|done]).
  assert (0 ≤ owner_ref (m_owner m)) as Ho by (destruct (m_owner m); cbn; lia). cbn in H1.
  eapply (calm_inv hs m p _ _ _ (<[k := At_releasing]> (m_threads m))); try done.
  - unfold refs_ok. mail_cbn. rewrite !(zsum_insert _ _ _ _ _ Ek), u32_small by word_lia. cbn. lia.
  - rewrite (zsum_insert _ _ _ _ _ Ek). cbn. lia.
  - by apply Forall_insert.
  - rewrite (zsum_insert _ _ _ _ _ Ek). cbn. replace (_ - 0 + 0) with (zsum is_asleep (m_threads m)) by lia. exact B10.
  - rewrite (zsum_insert _ _ _ _ _ Ek). cbn. lia.
  - pose proof (omap_insert_perm thread_body _ _ _ At_releasing Ek) as Hp. exact Hp.
Qed.

(** ** Putting a reference *)

Lemma producer_put_inv hs m p o threads : mail_inv hs m → m_producer m = Some p →
  zsum holds_ref threads + owner_ref o = zsum holds_ref (m_threads m) + owner_ref (m_owner m) - 1 →
  zsum app_ref threads = zsum app_ref (m_threads m) →
  zsum is_sending threads = zsum is_sending (m_threads m) → Forall (thread_fits p) threads →
  (zsum is_asleep threads ≠ 0 → must_wait p = true) →
  zsum thread_reserved threads = zsum thread_reserved (m_threads m) →
  omap thread_body threads ≡ₚ omap thread_body (m_threads m) →
  o = m_owner m ∨ m_owner m = Mo_closed ∧ o = Mo_gone →
  mail_inv hs (mail_put (m_set_threads (m_set_owner m o (m_tx m)) threads) p).
Proof.
  intros Hinv Ep Hh Happ Hs Hf Ha Hres Hbod Ho. pose proof Hinv as [Hr Hbz [R1 R2 R3 R4 R5 R6] [M1 M2 M3 M4]].
  rewrite Ep in Hr, M3. destruct Hr as (Hr & Hlt & Hra). pose proof (Hbz p Ep) as [B1 _ B3 B4 B5 B6 B7 B8 B9 _].
  assert (0 ≤ zsum holds_ref threads) as H0 by (apply zsum_nonneg; intros t _; apply holds_nonneg).
  assert (0 ≤ owner_ref o) as Ho0 by (destruct o; cbn; lia).
  unfold mail_put, tr_rpc_record_producer_put, tr_refcount_put. rewrite (proj2 (Z.eqb_neq _ _)) by lia.
  destruct (Z.eqb_spec (pr_refs p) 1) as [E1|Hne]; cbn [Z.eqb Pos.eqb].
  - assert (o = Mo_gone) as Eo by (destruct o; try done; cbn in *; lia).
    assert (m_owner m = Mo_closed ∨ m_owner m = Mo_gone) as Hoc by (destruct Ho as [E|[E _]]; [right; congruence|by left]).
    destruct (B7 Hoc) as [Hcl Hk]. assert (pr_body p = None) as Hb by (destruct B8 as [[_ ?]|[[_ ?]|[E _]]]; try done; rewrite Hk in E; discriminate E).
    assert (m_owner m ≠ Mo_sent) as Hns by (by destruct Hoc as [-> | ->]).
    set (m' := m_set_memory _ _ _ _).
    assert (owned m' ≡ₚ owned m) as Eow.
    { unfold owned, m'. mail_cbn. rewrite Ep, Eo, Hb, Hbod. by destruct (m_owner m). }
    assert (reply m' = reply m) as Erep.
    { unfold reply, m'. mail_cbn. rewrite Ep, Eo. destruct (pending_cases (m_bodies m) p) as [[_ ->]|[? _]]; [|done]. by destruct (m_owner m). }
    split.
    + unfold m'. mail_cbn. split; [|done]. rewrite Eo in Hh. cbn in Hh. rewrite Eo in Ho0. cbn in Ho0. lia.
    + done.
    + split; rewrite ?Erep; unfold m'; mail_cbn; try done.
    + split; [by rewrite Eow|intros i; rewrite Eow; apply M2| |]; unfold m'; mail_cbn; [rewrite Hres; lia|done].
  - set (m' := m_set_producer _ _).
    assert (owned m' ≡ₚ owned m) as Eow.
    { unfold owned, m'. mail_cbn. rewrite Ep, Hbod. destruct Ho as [->|[-> ->]]; done. }
    assert (reply m' = reply m) as Erep.
    { unfold reply, m'. mail_cbn. rewrite Ep. by destruct Ho as [->|[-> ->]]. }
    split.
    + unfold m', refs_ok. mail_cbn. lia.
    + unfold m'. mail_cbn. intros q [= <-]. split; mail_cbn; try done.
      * congruence.
      * rewrite B3. by destruct Ho as [->|[-> ->]].
      * intros E. apply B6. destruct Ho as [<-|[_ ->]]; [done|discriminate E].
      * intros E. apply B7. destruct Ho as [<-|[-> _]]; [done|by left].
    + split; rewrite ?Erep; unfold m'; mail_cbn; try done.
      * intros Hfail H1 H2. apply R2; [done| |]; destruct Ho as [<-|[_ ->]]; done.
      * intros q [= <-]. by apply (R4 p).
      * intros q [= <-] Hk H1. apply (R5 p); [done|done|]. destruct Ho as [<-|[-> _]]; done.
      * intros q [= <-]. by apply (R6 p).
    + split; [by rewrite Eow|intros i; rewrite Eow; apply M2| |]; unfold m'; mail_cbn; [rewrite Hres; lia|done].
Qed.

Lemma releasing_inv hs m k p : mail_inv hs m → m_producer m = Some p → m_threads m !! k = Some At_releasing →
  mail_inv hs (mail_put (m_set_thread m k At_gone) p).
Proof.
  intros Hinv Ep Ek. destruct (mi_busy _ _ Hinv p Ep) as [_ B2 _ _ _ _ _ _ _ B10].
  replace (m_set_thread m k At_gone) with (m_set_threads (m_set_owner m (m_owner m) (m_tx m)) (<[k := At_gone]> (m_threads m)))
    by (by destruct m).
  apply producer_put_inv; try done; rewrite ?(zsum_insert _ _ _ _ _ Ek); cbn [holds_ref app_ref is_sending is_asleep thread_reserved]; try lia.
  - by apply Forall_insert.
  - replace (_ - 0 + 0) with (zsum is_asleep (m_threads m)) by lia. exact B10.
  - exact (omap_insert_perm thread_body _ _ _ At_gone Ek).
  - by left.
Qed.

Lemma owner_put_inv hs m p : mail_inv hs m → m_producer m = Some p → m_owner m = Mo_closed →
  mail_inv hs (mail_put (m_set_owner m Mo_gone (m_tx m)) p).
Proof.
  intros Hinv Ep Eo. destruct (mi_busy _ _ Hinv p Ep) as [_ B2 _ _ _ _ _ _ _ B10].
  replace (m_set_owner m Mo_gone (m_tx m)) with (m_set_threads (m_set_owner m Mo_gone (m_tx m)) (m_threads m)) by done.
  apply producer_put_inv; try done; [|by right]. rewrite Eo. cbn. lia.
Qed.

(** ** Sending *)

Lemma writable_ok p : tr_producer_writable p = TR_OK →
  pr_closed p = false ∧ pr_finished p = false ∧ pr_kind p = 0 ∧ pr_building p = false ∧ pr_in_send p = false.
Proof.
  unfold tr_producer_writable, nz. destruct (pr_closed p), (pr_finished p), (pr_building p), (pr_in_send p); cbn; try done;
    rewrite ?orb_true_r; try done. destruct (Z.eqb_spec (pr_kind p) 0); done.
Qed.

Lemma set_producer_same m p : m_producer m = Some p → m_set_producer m (Some p) = m.
Proof. destruct m. cbn. by intros ->. Qed.

(** A call that may start sending: [t] is what comes after. *)
Definition starts (initial : bool) (t : app_thread) : Prop :=
  (∃ data, t = At_reserve data) ∨ (∃ kind status entries count, t = At_encode kind status entries count ∧
    entries_ok entries count ∧ (kind = TR_RPC_RECORD_FINAL_STATUS ∨ kind = TR_RPC_RECORD_INITIAL_METADATA ∧ initial = true)).

Lemma begin_inv hs m k p initial t ret q : mail_inv hs m → m_producer m = Some p → m_threads m !! k = Some At_idle →
  tr_producer_begin p initial = (ret, q) → starts initial t → mail_inv hs (enter m k (ret, Some q) t).
Proof.
  intros Hinv Ep Ek E Ht. unfold tr_producer_begin in E. injection E as <- <-. unfold enter. cbn [fst snd].
  destruct (is_ok (if is_ok (tr_producer_writable p) && initial && pr_initial_closed p then TR_ERR_STATE else tr_producer_writable p)) eqn:Eok.
  2: { by rewrite set_producer_same. }
  destruct (is_ok (tr_producer_writable p) && initial && pr_initial_closed p) eqn:Ei; [done|].
  apply is_ok_true in Eok. rewrite Eok in Ei. cbn [is_ok andb] in Ei.
  destruct (writable_ok p Eok) as (Ecl & Efin & Ekind & Ebuild & Esend).
  pose proof Hinv as [Hr Hbz [R1 R2 R3 R4 R5 R6] [M1 M2 M3 M4]]. destruct (Hbz p Ep) as [B1 B2 B3 B4 B5 B6 B7 B8 B9 B10].
  assert (holds_ref t = 1 ∧ app_ref t = 1 ∧ is_sending t = 1 ∧ thread_reserved t = 0 ∧ thread_body t = None ∧ is_asleep t = 0 ∧
    thread_fits (pr_set_busy p true (pr_in_send p)) t) as (T1 & T2 & T3 & T4 & T5 & T6 & T7).
  { destruct Ht as [[data ->]|(kind & status & entries & count & -> & Hent & Hk)]; cbn [holds_ref app_ref is_sending thread_reserved thread_body is_asleep thread_fits]; mail_cbn; split_and!; try done.
    destruct Hk as [->|[-> ->]]; [by left|]. right. split; [done|]. by destruct (pr_initial_closed p). }
  assert (∀ f, zsum f (<[k := t]> (m_threads m)) = zsum f (m_threads m) - f At_idle + f t) as Hz
    by (intros f; by apply zsum_insert).
  set (m' := m_set_thread _ _ _).
  assert (owned m' ≡ₚ owned m) as Eow.
  { unfold owned, m'. mail_cbn. rewrite Ep. do 2 f_equiv. pose proof (omap_insert_perm thread_body _ _ _ t Ek) as Hp.
    rewrite T5 in Hp. exact Hp. }
  assert (reply m' = reply m) as Erep by (unfold reply, m'; mail_cbn; by rewrite Ep).
  split.
  - unfold m', refs_ok in *. mail_cbn. rewrite Ep in Hr. rewrite !Hz, T1, T2. cbn [holds_ref app_ref]. lia.
  - unfold m'. mail_cbn. intros q' [= <-]. split; mail_cbn; try done.
    + rewrite Hz, B1, Ebuild, T3. done.
    + apply Forall_insert; [|done]. eapply list.Forall_impl; [exact B2|]. by intros [].
    + intros _. unfold must_wait, tr_producer_writable. mail_cbn. by rewrite Ecl, Efin, orb_true_r.
  - split; rewrite ?Erep; unfold m'; mail_cbn; try done; intros q' [= <-]; [by apply (R4 p)|by apply (R5 p)|by apply (R6 p)].
  - split; [by rewrite Eow|intros i; rewrite Eow; apply M2| |]; unfold m'; mail_cbn; [|done].
    rewrite M3, Ep, Hz, T4. cbn [thread_reserved]. lia.
Qed.

(** Reserving and allocating: memory goes from the thread to a body. *)
Lemma memory_step_inv hs m k p t t' bodies reserved : mail_inv hs m → m_producer m = Some p → m_threads m !! k = Some t →
  holds_ref t = 1 → holds_ref t' = 1 → app_ref t = app_ref t' → is_sending t = is_sending t' → is_asleep t' = 0 →
  thread_fits p t' → thread_body t = None →
  (thread_body t' = None ∧ bodies = m_bodies m ∧
     reserved = m_reserved m - thread_reserved t + thread_reserved t' ∨
   ∃ b, thread_body t' = Some (length (m_bodies m)) ∧ bodies = m_bodies m ++ [Some b] ∧
     reserved = m_reserved m - thread_reserved t + thread_reserved t' + pb_bytes b) →
  mail_inv hs (m_set_thread (m_set_memory m bodies reserved (m_fault m)) k t').
Proof.
  intros Hinv Ep Ek T1 T1' T2 T3 T4 T5 T6 Hmem.
  pose proof Hinv as [Hr Hbz [R1 R2 R3 R4 R5 R6] [M1 M2 M3 M4]]. destruct (Hbz p Ep) as [B1 B2 B3 B4 B5 B6 B7 B8 B9 B10].
  assert (∀ f, zsum f (<[k := t']> (m_threads m)) = zsum f (m_threads m) - f t + f t') as Hz
    by (intros f; by apply zsum_insert).
  pose proof (omap_insert_perm thread_body _ _ _ t' Ek) as Hp. rewrite T6 in Hp. cbn [option_list app] in Hp.
  set (m' := m_set_thread _ _ _).
  assert (m_owner m ≠ Mo_sent → ∀ i, pr_body p = Some i → is_Some (m_bodies m !! i)) as Hown.
  { intros Hns i Ei. destruct (M2 i) as [[b Hbi] _]; [|by rewrite Hbi]. unfold owned. rewrite Ep, Ei.
    destruct (m_owner m); try done; by left. }
  assert (reply m' = reply m) as Erep.
  { unfold reply, m'. mail_cbn. rewrite Ep. destruct (decide (m_owner m = Mo_sent)) as [->|Hns]; [done|].
    assert (pending bodies p = pending (m_bodies m) p) as ->; [|by destruct (m_owner m)].
    apply pending_same. destruct Hmem as [(_ & -> & _)|(b & _ & -> & _)]; [done|]. apply body_data_snoc. by apply Hown. }
  assert (owned m' ≡ₚ option_list (thread_body t') ++ owned m) as Eow.
  { unfold owned, m'. mail_cbn. rewrite Ep, Hp. solve_Permutation. }
  split.
  - unfold m', refs_ok in *. mail_cbn. rewrite Ep in Hr |- *. rewrite !Hz. lia.
  - unfold m'. mail_cbn. intros q' Eq. rewrite Ep in Eq. injection Eq as <-. split; try done.
    + rewrite Hz. lia.
    + by apply Forall_insert.
    + rewrite Hz, T4. intros Hne. apply B10. assert (0 ≤ is_asleep t) by apply asleep_nonneg.
      intros E0. assert (is_asleep t ≤ zsum is_asleep (m_threads m)); [|lia].
      eapply zsum_lookup_le; [|done]. intros y _. apply asleep_nonneg.
  - split; rewrite ?Erep; unfold m'; mail_cbn; done.
  - destruct Hmem as [(E1 & -> & ->)|(b & E1 & -> & ->)]; rewrite E1 in Eow.
    + change (owned m' ≡ₚ owned m) in Eow. split; [by rewrite Eow|intros i; rewrite Eow; apply M2| |]; unfold m'; mail_cbn; [|done]. rewrite Hz. lia.
    + change (owned m' ≡ₚ length (m_bodies m) :: owned m) in Eow. split.
      * rewrite Eow. apply NoDup_cons. split; [|done]. intros [b' Hb']%M2. apply lookup_lt_Some in Hb'. lia.
      * intros i. rewrite Eow, elem_of_cons. unfold m'. mail_cbn. destruct (decide (i = length (m_bodies m))) as [->|Hne].
        -- rewrite lookup_app_r, Nat.sub_diag by lia. split; [by exists b|by left].
        -- rewrite M2. split.
           ++ intros [?|[b' Hb']]; [done|]. exists b'. by apply lookup_app_l_Some.
           ++ intros [b' [Hb'|[Hge Hb']]%lookup_app_Some]; [right; by exists b'|]. exfalso.
              destruct (i - length (m_bodies m))%nat eqn:Ei; [lia|done].
      * unfold m'. mail_cbn. rewrite zsum_app, Hz. cbn [zsum body_size]. lia.
      * done.
Qed.

Lemma metadata_encode_size entries count ret out size : entries_ok entries count →
  metadata_encode entries count = (ret, out, size) → ret = TR_OK → (Z.to_nat size ≤ length out)%nat.
Proof.
  intros [Hms ->] E ->. revert E. unfold metadata_encode, tr_rpc_v2_metadata_encode.
  assert (∃ o, replicate (Z.to_nat TR_RPC_METADATA_MAX_BYTES) 0 = o ∧ bytes_ok o ∧ alen o = TR_RPC_METADATA_MAX_BYTES)
    as (o & -> & Ho & Hlen).
  { eexists. split; [done|]. split; [apply Forall_replicate; unfold u8_ok; lia|]. unfold alen. by rewrite length_replicate. }
  destruct (_ || _); [discriminate|]. rewrite take_ge by (unfold alen; lia).
  destruct (encode_loop_spec (default [] entries) [] o Hms) as (r & out' & used & E & _ & _ & Hr);
    [apply Forall_nil_2|apply NoDup_nil_2|done|change (meta_bytes [] ++ o) with o; rewrite Hlen; done|].
  change (meta_bytes [] ++ o) with o in E. change (alen (meta_bytes [])) with 0 in E. rewrite E.
  destruct Hr as [(-> & (_ & _ & Hs) & -> & tail & ->)|[Hr _]]; [|destruct r; try discriminate Hr; discriminate].
  cbn [app] in *. intros [= <- <-]. pose proof (alen_nonneg (meta_bytes (map entry_of (default [] entries)))) as H0.
  rewrite u32_small by (unfold TR_RPC_METADATA_MAX_BYTES in Hs; word_lia). rewrite length_app. unfold alen. lia.
Qed.

(** ** Releasing a body *)

(** The memory, with bodies the running step holds. *)
Record memory_with (m : mail) (extra : list nat) : Prop := {
  mw_nodup : NoDup (extra ++ owned m);
  mw_owned : ∀ i, i ∈ extra ++ owned m ↔ ∃ b, m_bodies m !! i = Some (Some b);
  mw_reserved : m_reserved m = match m_producer m with Some _ => sizeof_producer | None => 0 end +
    zsum body_size (m_bodies m) + zsum thread_reserved (m_threads m);
  mw_fault : m_fault m = false
}.

Lemma memory_moved m m' extra p p' : memory_ok m → extra ++ owned m' ≡ₚ owned m → m_bodies m' = m_bodies m →
  m_reserved m' = m_reserved m → m_producer m = Some p → m_producer m' = Some p' →
  zsum thread_reserved (m_threads m') = zsum thread_reserved (m_threads m) → m_fault m' = m_fault m → memory_with m' extra.
Proof.
  intros [M1 M2 M3 M4] Ho Hb Hr Ep Ep' Ht Hf. split.
  - by rewrite Ho.
  - intros i. by rewrite Ho, Hb.
  - rewrite Hr, Ep', Hb, Ht. by rewrite Ep in M3.
  - congruence.
Qed.

Lemma owned_body m p i : m_producer m = Some p → m_owner m ≠ Mo_sent → pr_body p = Some i → i ∈ owned m.
Proof. intros Ep Ho Ei. unfold owned. rewrite Ep, Ei. destruct (m_owner m); try done; by left. Qed.

Lemma body_release_inv hs m body : refs_ok (m_producer m) (m_threads m) (m_owner m) →
  (∀ p, m_producer m = Some p → busy_ok p (m_threads m) (m_owner m)) → replies_ok hs m →
  memory_with m (option_list body) → mail_inv hs (tr_producer_body_release m body).
Proof.
  intros Hr Hb Hrep [M1 M2 M3 M4]. destruct body as [i|]; [|split; try done].
  change (option_list (Some i) ++ owned m) with (i :: owned m) in *.
  pose proof (release_memory m i M1 M2 M3 M4) as Hmem. revert Hmem. unfold tr_producer_body_release.
  destruct (proj1 (M2 i)) as [b Hbi]; [by left|]. rewrite Hbi. intros Hmem. set (m' := m_set_memory _ _ _ _) in *.
  assert (reply m' = reply m) as Erep.
  { unfold reply, m'. mail_cbn. destruct (m_producer m) as [p|] eqn:Ep; [|by destruct (m_owner m)].
    destruct (decide (m_owner m = Mo_sent)) as [->|Hns]; [done|].
    assert (pending (<[i := None]> (m_bodies m)) p = pending (m_bodies m) p) as ->; [|done].
    apply pending_same. destruct (pr_body p) as [j|] eqn:Ej; [|done]. apply body_data_other. intros ->.
    apply NoDup_cons in M1 as [M1 _]. apply M1. by eapply owned_body. }
  destruct Hrep as [R1 R2 R3 R4 R5 R6].
  split; [done|done| |done]. split; rewrite ?Erep; done.
Qed.

(** ** Publishing *)

Lemma wake_thread_sum (f : app_thread → Z) m k t t' : blind f → m_threads m !! k = Some t →
  zsum f (wake_all (<[k := t']> (m_threads m))) = zsum f (m_threads m) - f t + f t'.
Proof. intros Hf Ek. rewrite wake_sum by done. by apply zsum_insert. Qed.

Lemma sending_building hs m p k t : mail_inv hs m → m_producer m = Some p → m_threads m !! k = Some t → is_sending t = 1 →
  pr_building p = true ∧ zsum is_sending (m_threads m) = 1.
Proof.
  intros Hinv Ep Ek Ht. pose proof (bo_sending _ _ _ (mi_busy _ _ Hinv p Ep)) as B1.
  assert (is_sending t ≤ zsum is_sending (m_threads m)) by (eapply zsum_lookup_le; [intros y _; apply sending_nonneg|done]).
  destruct (pr_building p); [done|lia].
Qed.

Lemma idle_fits p threads : zsum is_sending threads = 0 → Forall (thread_fits p) threads.
Proof.
  intros H. apply list.Forall_forall. intros t [k Ek]%list_elem_of_lookup.
  assert (is_sending t ≤ zsum is_sending threads) by (eapply zsum_lookup_le; [intros y _; apply sending_nonneg|done]).
  destruct t; cbn in *; try done; lia.
Qed.

Lemma faithful_all published : faithful published published false.
Proof. exists published, []. rewrite app_nil_r. split_and!; [done|done|by left]. Qed.

Lemma put_at_prefix (l data : list Z) n : (n ≤ length data)%nat → take n (put_at l 0 (take n data)) = take n data.
Proof. intros H. unfold put_at. change (take (Z.to_nat 0) l) with ([] : list Z). rewrite app_nil_l. apply take_app_length'. rewrite length_take. lia. Qed.

Lemma producer_publish_inv hs m p k kind body metadata size status result reserve alloc waited : mail_inv hs m →
  m_producer m = Some p → m_threads m !! k = Some (At_publish kind body metadata size status result) →
  mail_inv hs (thread_step m p k (At_publish kind body metadata size status result) reserve alloc waited).
Proof.
  intros Hinv Ep Ek. destruct (sending_building hs m p k _ Hinv Ep Ek eq_refl) as [Ebuild Hone].
  pose proof Hinv as [Hr Hbz [R1 R2 R3 R4 R5 R6] Hmem]. destruct (Hbz p Ep) as [B1 B2 B3 B4 B5 B6 B7 B8 B9 B10].
  destruct (B4 Ebuild) as (Ekind & Esend & Efin). rewrite Ep in Hr.
  assert (∀ f, blind f → zsum f (wake_all (<[k := At_idle]> (m_threads m))) =
    zsum f (m_threads m) - f (At_publish kind body metadata size status result) + f At_idle) as Hz
    by (intros f Hf; by apply wake_thread_sum).
  pose proof (omap_insert_perm thread_body _ _ _ At_idle Ek) as Hp. cbn [thread_body option_list app] in Hp.
  assert (m_owner m ≠ Mo_sent ∧ m_owner m ≠ Mo_taken) as [Hns Hnt] by (by split; intros E; rewrite E, Esend in B3).
  rewrite list.Forall_forall in B2. pose proof (B2 _ (list_elem_of_lookup_2 _ _ _ Ek)) as [Hsize Hfits].
  assert (pr_body p = None) as Ebody.
  { destruct B8 as [[_ H]|[[_ H]|[H _]]]; try done. rewrite Ekind in H. discriminate H. }
  assert (reply m = m_accepted m) as Erep0.
  { unfold reply. rewrite Ep. unfold pending. rewrite Ekind. cbn [Z.eqb]. destruct (m_owner m); by rewrite ?app_nil_r. }
  cbn [thread_step]. unfold tr_producer_publish. destruct (is_ok (if pr_closed p then TR_ERR_CLOSED else result)) eqn:Eok.
  - set (md := if nz size then _ else _).
    assert (result = TR_OK ∧ pr_closed p = false) as [-> Ecl] by (destruct (pr_closed p); [discriminate Eok|by apply is_ok_true in Eok]).
    rewrite Ecl. cbn [is_ok]. set (c := mk_mail_command kind status (body_data (m_bodies m) body) (take (Z.to_nat size) metadata)).
    assert (take (Z.to_nat size) md = take (Z.to_nat size) metadata) as Emd.
    { unfold md, nz. destruct (Z.eqb_spec size 0) as [->|_]; [done|]. by apply put_at_prefix, Hsize. }
    assert (m_failed m = false) as Efail by (by apply (R4 p)).
    assert (m_owner m = Mo_idle false) as Eown.
    { destruct (m_owner m) as [[]| | | |]; try done; [by destruct (B6 eq_refl)|by destruct B7 as [H _]; [left|rewrite H in Ecl]|by destruct B7 as [H _]; [right|rewrite H in Ecl]]. }
    assert (m_accepted m = m_published m) as Eacc by (rewrite <- Erep0; by apply R2; rewrite ?Eown).
    assert (kind ≠ 0) as Hk by (destruct Hfits as [[-> _]|[(-> & _)|[-> _]]]; discriminate).
    assert (kind = TR_RPC_RECORD_MESSAGE ↔ is_Some body) as Hkb.
    { destruct Hfits as [[-> ->]|[(-> & _ & ->)|[-> H]]]; [by split; [discriminate|intros [? ?]]..|by rewrite <- H]. }
    destruct (R4 p Ep Efin) as [Hopen _]. rewrite Erep0 in Hopen.
    assert (kind ≠ TR_RPC_RECORD_FINAL_STATUS → open_reply hs (m_published m ++ [c])) as Hnext.
    { intros Hnf. rewrite <- Eacc. destruct Hfits as [[-> _]|[(-> & Hi & ->)|[-> H]]]; [done| |].
      - destruct (R6 p Ep Hi Efin) as [-> E0]. rewrite <- Erep0, E0. by apply open_initial.
      - apply open_message; [done|done|]. destruct (proj1 H eq_refl) as [i ->].
        destruct (proj1 (mo_owned _ Hmem i)) as [b Hb].
        { unfold owned. rewrite !elem_of_app, <- Hp, elem_of_app. right. right. left. by left. }
        unfold c, body_data. mail_cbn. cbn [mc_body]. rewrite Hb. by eexists. }
    set (p' := pr_set_busy _ false _).
    assert (pr_refs p' = pr_refs p ∧ pr_app_refs p' = pr_app_refs p ∧ pr_body p' = body ∧ pr_kind p' = kind ∧ pr_status p' = status ∧
      pr_metadata_size p' = size ∧ pr_metadata p' = md ∧ pr_closed p' = false ∧
      pr_finished p' = (kind =? TR_RPC_RECORD_FINAL_STATUS) ∧
      pr_initial_closed p' = (if kind =? TR_RPC_RECORD_FINAL_STATUS then pr_initial_closed p else true) ∧
      pr_building p' = false ∧ pr_in_send p' = false) as (P1 & P2 & P3 & P4 & P5 & P6 & P7 & P8 & P9 & P10 & P11 & P12)
      by (unfold p'; destruct (kind =? TR_RPC_RECORD_FINAL_STATUS); cbn; split_and!; done).
    clearbody p' md. change (is_ok TR_OK) with true. cbn iota. cbn [m_broadcast tr_producer_body_release].
    set (m' := m_set_threads _ _).
    assert (pending (m_bodies m) p' = [c]) as Epend.
    { unfold pending. rewrite P3, P4, P5, P6, P7, Emd. by destruct (Z.eqb_spec kind 0). }
    assert (reply m' = reply m ++ [c]) as Erep by (rewrite Erep0; unfold reply, m'; mail_cbn; rewrite Eown, <- Epend; done).
    assert (zsum is_sending (m_threads m') = 0) as Hidle by (unfold m'; mail_cbn; rewrite Hz, Hone by done; done).
    assert (zsum is_asleep (m_threads m') = 0) as Hawake by apply wake_asleep.
    assert (owned m' ≡ₚ owned m) as Eow.
    { unfold owned, m'. mail_cbn. rewrite wake_bodies, Eown, Ep, P3, Ebody, <- Hp. cbn [option_list]. solve_Permutation. }
    split.
    + unfold m', refs_ok in *. mail_cbn. rewrite !Hz, P1, P2 by done. cbn [holds_ref app_ref]. lia.
    + unfold m' in *. mail_cbn. intros q [= <-]. split; rewrite ?P3, ?P4, ?P8, ?P9, ?P10, ?P11, ?P12, ?Eown; try done.
      * by apply idle_fits.
      * by intros [|].
      * destruct Hfits as [[-> ->]|[(-> & _ & ->)|[-> H]]]; [right; left; split; [by right|done]|right; left; split; [by left|done]|].
        right. right. split; [done|by apply H].
      * intros ->. done.
    + split; rewrite ?Erep, ?Erep0; unfold m'; mail_cbn; rewrite ?Efail, ?Eown, ?Eacc in *.
      * apply faithful_all.
      * done.
      * destruct (decide (kind = TR_RPC_RECORD_FINAL_STATUS)) as [Ef|Hnf]; [right; by exists (m_published m), c|left]. by apply Hnext.
      * intros q [= <-]. rewrite P9. intros Hnf%Z.eqb_neq. split; [by apply Hnext|done].
      * done.
      * intros q [= <-]. rewrite P9, P10. intros Hi Hnf. rewrite Hnf in Hi. done.
    + destruct Hmem as [M1 M2 M3 M4]. split; [by rewrite Eow|intros i; rewrite Eow; apply M2| |]; unfold m'; mail_cbn; [|done].
      rewrite M3, Ep, Hz by done. cbn [thread_reserved]. lia.
  - rewrite Eok. cbn [m_broadcast]. apply body_release_inv; mail_cbn.
    + unfold refs_ok in *. mail_cbn. rewrite !Hz by done. cbn [holds_ref app_ref]. lia.
    + intros q [= <-]. assert (zsum is_sending (wake_all (<[k:=At_idle]> (m_threads m))) = 0) as Hidle by (rewrite Hz, Hone by done; done).
      split; mail_cbn; try done; [by apply idle_fits|]. by rewrite wake_asleep.
    + assert (∀ l, reply (m_set_threads (m_set_thread (m_set_producer m (Some (pr_set_busy p false (pr_in_send p)))) k At_idle) l) = reply m) as Erep
        by (intros l; unfold reply; mail_cbn; by rewrite Ep).
      split; rewrite ?Erep; mail_cbn; try done; intros q [= <-]; [by apply (R4 p)|by apply (R5 p)|by apply (R6 p)].
    + eapply (memory_moved m _ _ p); mail_cbn; try done; [|by rewrite Hz by done; cbn; lia].
      unfold owned. mail_cbn. rewrite wake_bodies, Ep, Ebody, <- Hp. cbn [option_list]. solve_Permutation.
Qed.

Lemma thread_step_inv hs m p k t reserve alloc waited : mail_inv hs m → m_producer m = Some p → m_threads m !! k = Some t →
  mail_inv hs (thread_step m p k t reserve alloc waited).
Proof.
  intros Hinv Ep Ek. pose proof (bo_fits _ _ _ (mi_busy _ _ Hinv p Ep)) as B2. rewrite list.Forall_forall in B2.
  pose proof (B2 _ (list_elem_of_lookup_2 _ _ _ Ek)) as Hfit. clear B2.
  destruct t as [|data|data|kind status entries count| |asleep timeout| |]; cbn [thread_step]; [done| | | | | | |done].
  - destruct (is_ok reserve) eqn:E.
    + apply (memory_step_inv hs m k p (At_reserve data)); try done. left. split_and!; [done|done|]. cbn. lia.
    + apply (calm_thread hs m p k (At_reserve data)); try done. apply is_ok_false in E.
      split; [done|]. right. right. split; [done|]. split; [done|by intros [? ?]].
  - destruct alloc; apply (memory_step_inv hs m k p (At_alloc data)); try done.
    + split; [by intros _; cbn; lia|]. right. right. split; [done|]. by split; [eexists|].
    + right. exists (send_body data). split_and!; [done|done|]. cbn. lia.
    + split; [done|]. right. right. split; [done|]. split; [done|by intros [? ?]].
    + left. split_and!; [done|done|]. cbn. lia.
  - destruct (metadata_encode entries count) as [[ret encoded] size] eqn:E. destruct Hfit as [Hent Hk].
    apply (calm_thread hs m p k (At_encode kind status entries count)); try done. split; [by eapply metadata_encode_size|].
    destruct Hk as [->|[-> Hi]]; [by left|]. right. by left.
  - by apply (producer_publish_inv hs m p k kind body metadata size status result TR_OK false Tw_woken).
  - assert (mail_inv hs (m_set_thread m k At_idle)) as Hidle by by eapply calm_thread.
    destruct (if asleep then wait_resume p waited else None); [done|].
    unfold wait_check. destruct (negb (must_wait p)) eqn:Ew; [done|]. destruct (timeout =? 0); [done|].
    eapply calm_thread; try done. intros _. by apply negb_false_iff in Ew.
  - by apply releasing_inv.
Qed.

(** ** The owner *)

(** Steps of the owner that leave the memory alone: what they do to the producer, the transport
    and the log is said by the hypotheses; threads are woken unless the producer still makes
    them wait. *)
Lemma owner_inv hs m p q o tx log acc failed woken extra body : mail_inv hs m → m_producer m = Some p → m_owner m ≠ Mo_gone → o ≠ Mo_gone →
  pr_refs q = pr_refs p → pr_app_refs q = pr_app_refs p → pr_building q = pr_building p →
  pr_initial_closed q = pr_initial_closed p →
  let m' := m_broadcast (m_set_owner (m_set_log (m_set_producer m (Some q)) log acc failed) o tx) woken in
  (∀ threads, zsum is_sending threads = zsum is_sending (m_threads m) → Forall (thread_fits q) threads →
     (zsum is_asleep threads ≠ 0 → must_wait q = true) → busy_ok q threads o) →
  (woken = false → must_wait p = true → must_wait q = true) →
  replies_ok hs m' → extra = option_list body → extra ++ owned m' ≡ₚ owned m →
  mail_inv hs (tr_producer_body_release m' body).
Proof.
  intros Hinv Ep Ho Ho' Q1 Q2 Q3 Q4 m' Hbusy Hwait Hrep -> Hown. pose proof Hinv as [Hr Hbz _ Hmem]. rewrite Ep in Hr.
  destruct (Hbz p Ep) as [B1 B2 _ _ _ _ _ _ _ B10].
  assert (∀ f, blind f → zsum f (m_threads m') = zsum f (m_threads m)) as Hz.
  { intros f Hf. unfold m', m_broadcast. destruct woken; [|done]. mail_cbn. by apply wake_sum. }
  assert (m_producer m' = Some q ∧ m_owner m' = o ∧ m_bodies m' = m_bodies m ∧ m_reserved m' = m_reserved m ∧
    m_fault m' = m_fault m) as (E1 & E2 & E3 & E4 & E5) by (unfold m'; by destruct woken).
  apply body_release_inv; [| |done|].
  - rewrite E1, E2. unfold refs_ok in *. rewrite !Hz, Q1, Q2 by done. destruct o, (m_owner m); cbn in *; try done; lia.
  - rewrite E1, E2. intros q' [= <-]. apply Hbusy; [by apply Hz| |].
    + assert (Forall (thread_fits q) (m_threads m)) as Hf.
      { eapply list.Forall_impl; [exact B2|]. intros []; cbn; by rewrite ?Q4. }
      unfold m', m_broadcast. destruct woken; [|done]. by apply wake_fits.
    + unfold m', m_broadcast. destruct woken; mail_cbn; [by rewrite wake_asleep|]. intros H. by apply Hwait, B10.
  - eapply (memory_moved m m' _ p q); try done. by apply Hz.
Qed.

Lemma reply_broadcast m woken : reply (m_broadcast m woken) = reply m.
Proof. by destruct woken. Qed.

Lemma owned_broadcast m woken : owned (m_broadcast m woken) = owned m.
Proof. destruct woken; [|done]. unfold owned, m_broadcast. mail_cbn. by rewrite wake_bodies. Qed.

Lemma replies_broadcast hs m woken : replies_ok hs m → replies_ok hs (m_broadcast m woken).
Proof. intros [R1 R2 R3 R4 R5 R6]. split; rewrite ?reply_broadcast; destruct woken; done. Qed.

(** Steps that leave the reply as it is. *)
Lemma replies_same hs m p q o tx acc : replies_ok hs m → m_producer m = Some p → m_owner m ≠ Mo_gone → o ≠ Mo_gone →
  (m_owner m = Mo_closed → o = Mo_closed) →
  pr_finished q = pr_finished p → pr_initial_closed q = pr_initial_closed p →
  (pr_kind q ≠ 0 → o ≠ Mo_sent → open_reply hs acc) →
  let m' := m_set_owner (m_set_log (m_set_producer m (Some q)) (m_published m) acc (m_failed m)) o tx in
  reply m' = reply m → replies_ok hs m'.
Proof.
  intros [R1 R2 R3 R4 R5 R6] Ep Ho Ho' Hc Qf Qi Hacc m' Erep.
  split; rewrite ?Erep; unfold m'; mail_cbn; [done| |done|..].
  - intros Hf H1 H2. apply R2; [done| |done]. intros E. by apply H1, Hc.
  - intros q' [= <-]. rewrite Qf. by apply (R4 p).
  - intros q' [= <-]. done.
  - intros q' [= <-]. rewrite Qf, Qi. by apply (R6 p).
Qed.

Lemma activate_inv hs m p : mail_inv hs m → m_producer m = Some p → m_owner m ≠ Mo_gone →
  mail_inv hs (m_broadcast (m_set_producer m (Some (tr_rpc_record_producer_activate p))) true).
Proof.
  intros Hinv Ep Ho. pose proof Hinv as [Hr Hbz Hrep Hmem].
  unfold tr_rpc_record_producer_activate. set (q := if pr_closed p then p else _).
  assert (pr_refs q = pr_refs p ∧ pr_app_refs q = pr_app_refs p ∧ pr_building q = pr_building p ∧
    pr_initial_closed q = pr_initial_closed p ∧ pr_finished q = pr_finished p ∧ pr_kind q = pr_kind p ∧ pr_body q = pr_body p ∧
    pr_in_send q = pr_in_send p ∧ pr_closed q = pr_closed p ∧ pending (m_bodies m) q = pending (m_bodies m) p)
    as (Q1 & Q2 & Q3 & Q4 & Q5 & Q6 & Q7 & Q8 & Q9 & Q10) by (unfold q; destruct (pr_closed p) eqn:E; split_and!; done).
  clearbody q. destruct (Hbz p Ep) as [B1 B2 B3 B4 B5 B6 B7 B8 B9 B10].
  apply (owner_inv hs m p q (m_owner m) (m_tx m) (m_published m) (m_accepted m) (m_failed m) true [] None); try done.
  - intros threads Hs Hf Ha. split; rewrite ?Hs, ?Q3, ?Q4, ?Q5, ?Q6, ?Q7, ?Q8, ?Q9; done.
  - apply replies_broadcast. apply (replies_same hs m p); try done; [rewrite Q6; by apply (ro_accepted _ _ Hrep p)|].
    unfold reply. mail_cbn. by rewrite Ep, Q10.
  - rewrite owned_broadcast. unfold owned. mail_cbn. by rewrite Ep, Q7.
Qed.

Lemma must_wait_full p q : pr_kind p ≠ 0 → pr_kind q ≠ 0 → pr_closed q = pr_closed p → pr_finished q = pr_finished p →
  must_wait q = must_wait p.
Proof.
  intros Hp Hq Hc Hf. unfold must_wait, tr_producer_writable, nz. rewrite Hc, Hf, (proj2 (Z.eqb_neq _ _) Hp), (proj2 (Z.eqb_neq _ _) Hq).
  by destruct (pr_closed p), (pr_finished p).
Qed.

Lemma take_inv hs m p out lock : mail_inv hs m → m_producer m = Some p → (∃ b, m_owner m = Mo_idle b) ∨ m_owner m = Mo_closed →
  mail_inv hs (let '(ret, p, _) := tr_rpc_record_producer_take (Some p) (Some out) lock in
    let m := m_set_producer m p in if is_ok ret then m_set_owner m Mo_taken (m_tx m) else m).
Proof.
  intros Hinv Ep Ho. pose proof Hinv as [Hr Hbz Hrep Hmem]. destruct (Hbz p Ep) as [B1 B2 B3 B4 B5 B6 B7 B8 B9 B10].
  assert (mail_inv hs (m_set_producer m (Some p))) as Hsame by (by rewrite set_producer_same).
  unfold tr_rpc_record_producer_take. destruct lock; [|done..]. destruct (pr_closed p) eqn:Ecl; [done|].
  destruct (_ || _) eqn:E; [done|]. change (is_ok TR_OK) with true. cbn iota. bool_to_prop.
  assert (pr_kind p ≠ 0) as Hk by (intros Hk; rewrite Hk in *; discriminate).
  assert (∃ b, m_owner m = Mo_idle b) as [b Eo] by (destruct Ho as [?|Ho]; [done|]; destruct (B7 (or_introl Ho)) as [Hcl _]; congruence).
  apply (owner_inv hs m p (pr_set_busy p (pr_building p) true) Mo_taken (m_tx m) (m_published m) (m_accepted m) (m_failed m) false [] None); try done.
  - by rewrite Eo.
  - intros threads Hs Hf Ha. split; mail_cbn; rewrite ?Hs; try done; [congruence|by intros [|]].
  - intros _. by rewrite (must_wait_full p (pr_set_busy p (pr_building p) true)).
  - apply (replies_same hs m p); try done; [by rewrite Eo|by rewrite Eo| |].
    + intros _ _. apply (ro_accepted _ _ Hrep p Ep Hk). by rewrite Eo.
    + unfold reply. mail_cbn. by rewrite Ep, Eo.
  - unfold owned. mail_cbn. by rewrite Ep, Eo.
Qed.

Lemma pr_set_refs_same p : pr_set_busy p (pr_building p) (pr_in_send p) = p.
Proof. by destruct p. Qed.

(** What is in the mailbox goes to the transport, its body with it. *)
Lemma sent_inv hs m p : mail_inv hs m → m_producer m = Some p → m_owner m = Mo_taken →
  mail_inv hs (m_set_owner (m_set_log m (m_published m) (m_accepted m ++ pending (m_bodies m) p) (m_failed m))
    Mo_sent (option_list (pr_body p) ++ m_tx m)).
Proof.
  intros Hinv Ep Eo. pose proof Hinv as [Hr Hbz Hrep Hmem]. destruct (Hbz p Ep) as [B1 B2 B3 B4 B5 B6 B7 B8 B9 B10].
  rewrite Eo in *. assert (m_set_producer m (Some p) = m) as Em by by apply set_producer_same.
  pose proof (owner_inv hs m p p Mo_sent (option_list (pr_body p) ++ m_tx m) (m_published m)
    (m_accepted m ++ pending (m_bodies m) p) (m_failed m) false [] None) as H. rewrite Em in H. apply H; try done.
  - by rewrite Eo.
  - intros threads Hs Hf Ha. split; rewrite ?Hs; try done. by intros [|].
  - apply (replies_broadcast _ _ false). rewrite <- Em at 1. apply (replies_same hs m p); try done; [by rewrite Eo..|].
    unfold reply. mail_cbn. by rewrite Ep, Eo, app_nil_r.
  - unfold owned, m_broadcast. mail_cbn. rewrite Ep, Eo. solve_Permutation.
Qed.

Lemma complete_sent_inv hs m p : mail_inv hs m → m_producer m = Some p → m_owner m = Mo_sent →
  mail_inv hs (let '(p', woken) := tr_rpc_record_producer_complete p true in
    m_broadcast (m_set_owner (m_set_producer m (Some p')) (Mo_idle false) (m_tx m)) woken).
Proof.
  intros Hinv Ep Eo. pose proof Hinv as [Hr Hbz Hrep Hmem]. destruct (Hbz p Ep) as [B1 B2 B3 B4 B5 B6 B7 B8 B9 B10].
  assert (pr_building p = false) as Eb.
  { destruct (pr_building p); [|done]. destruct (B4 eq_refl) as (_ & H & _). by rewrite B3, Eo in H. }
  cbn [tr_rpc_record_producer_complete orb].
  apply (owner_inv hs m p (pr_set_busy (pr_set_mail p None 0 (pr_status p) 0 (pr_metadata p)) (pr_building p) false)
    (Mo_idle false) (m_tx m) (m_published m) (m_accepted m) (m_failed m) true [] None); try done.
  - by rewrite Eo.
  - intros threads Hs Hf Ha. split; mail_cbn; rewrite ?Hs, ?Eb in *; try done; [by intros [|]|by left].
  - apply replies_broadcast. apply (replies_same hs m p); try done; [by rewrite Eo..|].
    unfold reply, pending. mail_cbn. by rewrite Eo.
  - rewrite owned_broadcast. unfold owned. mail_cbn. by rewrite Eo.
Qed.

Lemma complete_refused_inv hs m p : mail_inv hs m → m_producer m = Some p → m_owner m = Mo_taken →
  mail_inv hs (let '(p', woken) := tr_rpc_record_producer_complete p false in
    m_broadcast (m_set_owner (m_set_producer m (Some p')) (Mo_idle true) (m_tx m)) woken).
Proof.
  intros Hinv Ep Eo. pose proof Hinv as [Hr Hbz Hrep Hmem]. destruct (Hbz p Ep) as [B1 B2 B3 B4 B5 B6 B7 B8 B9 B10].
  rewrite Eo in B3. assert (pr_kind p ≠ 0) as Hk by by apply B5.
  assert (pr_building p = false) as Eb by (destruct (pr_building p); [|done]; by destruct (B4 eq_refl)).
  unfold tr_rpc_record_producer_complete. cbn [orb].
  apply (owner_inv hs m p (pr_set_busy p (pr_building p) false)
    (Mo_idle true) (m_tx m) (m_published m) (m_accepted m) (m_failed m) _ [] None); try done.
  - by rewrite Eo.
  - intros threads Hs Hf Ha. split; mail_cbn; rewrite ?Hs, ?Eb in *; try done. by intros [|].
  - intros _. by rewrite (must_wait_full p (pr_set_busy p (pr_building p) false)).
  - apply replies_broadcast. apply (replies_same hs m p); try done; [by rewrite Eo..| |].
    + intros _ _. apply (ro_accepted _ _ Hrep p Ep Hk). by rewrite Eo.
    + unfold reply. mail_cbn. by rewrite Ep, Eo.
  - rewrite owned_broadcast. unfold owned. mail_cbn. by rewrite Ep, Eo.
Qed.

Lemma open_no_final hs l c : open_reply hs l → c ∈ l → mc_kind c ≠ TR_RPC_RECORD_FINAL_STATUS.
Proof.
  intros (i & ms & -> & Hi & Hm) [H|H]%elem_of_app.
  - destruct Hi as [->|(_ & d & -> & Hd)]; [by apply elem_of_nil in H|]. apply list_elem_of_singleton in H as ->. by rewrite Hd.
  - rewrite list.Forall_forall in Hm. destruct (Hm c H) as [-> _]. done.
Qed.

Lemma faithful_open hs published l failed : faithful published l failed → open_reply hs l → l `prefix_of` published.
Proof.
  intros (kept & final & -> & Hp & Hf) Ho. destruct Hf as [->|(_ & d & -> & Hd)]; [by rewrite app_nil_r|].
  exfalso. apply (open_no_final _ _ d Ho); [|done]. apply elem_of_app. right. by left.
Qed.

(** What the transport took is a reply by itself. *)
Lemma reply_accepted hs m : replies_ok hs m → faithful (m_published m) (m_accepted m) (m_failed m) ∧ legal_reply hs (m_accepted m).
Proof.
  intros [R1 _ R3 _ _ _].
  assert (reply m = m_accepted m ∨ ∃ c, reply m = m_accepted m ++ [c]) as [E|[c E]].
  { unfold reply. destruct (m_owner m), (m_producer m) as [p|]; rewrite ?app_nil_r; try (by left);
      (destruct (pending_cases (m_bodies m) p) as [[_ ->]|(_ & c & -> & _)]; [left; by rewrite app_nil_r|right; by exists c]). }
  - by rewrite E in *.
  - rewrite E in *. split; [by eapply faithful_drop|by eapply legal_open, legal_prefix].
Qed.

Lemma fail_inv hs m p status : mail_inv hs m → m_producer m = Some p → m_owner m = Mo_idle true →
  mail_inv hs (let '(ret, p, body) := tr_rpc_record_producer_fail (Some p) status in
    let m := m_set_producer m p in
    if is_ok ret then tr_producer_body_release (m_broadcast (m_set_owner (m_set_log m (m_published m) (m_accepted m) true)
      (Mo_idle false) (m_tx m)) true) body else m).
Proof.
  intros Hinv Ep Eo. pose proof Hinv as [Hr Hbz Hrep Hmem]. destruct (Hbz p Ep) as [B1 B2 B3 B4 B5 B6 B7 B8 B9 B10].
  assert (mail_inv hs (m_set_producer m (Some p))) as Hsame by (by rewrite set_producer_same).
  unfold tr_rpc_record_producer_fail. destruct (_ || _); [done|].
  destruct (pr_closed p || _ || _) eqn:E; [by destruct (pr_closed p)|]. change (is_ok TR_OK) with true. cbn iota. bool_to_prop.
  pose proof (ro_accepted _ _ Hrep p Ep (B6 Eo)) as Hopen. rewrite Eo in Hopen. specialize (Hopen ltac:(done)).
  destruct (reply_accepted hs m Hrep) as [Hf _].
  set (q := pr_set_flags _ _ _ _ _).
  apply (owner_inv hs m p q (Mo_idle false) (m_tx m) (m_published m) (m_accepted m) true true (option_list (pr_body p)) (pr_body p)); try done.
  - by rewrite Eo.
  - intros threads Hs Hfit Ha. unfold q in *. split; mail_cbn; rewrite ?Hs; try done; [congruence|by intros [|]|].
    right. left. split; [by right|done].
  - apply replies_broadcast. set (m' := m_set_owner _ _ _).
    assert (∃ c, reply m' = m_accepted m ++ [c] ∧ mc_kind c = TR_RPC_RECORD_FINAL_STATUS) as (c & Erep & Hc).
    { unfold reply, m'. mail_cbn. by eexists. }
    split; rewrite ?Erep; unfold m'; mail_cbn; try done.
    + exists (m_accepted m), [c]. split_and!; [done|by eapply faithful_open|]. right. split; [done|]. by exists c.
    + right. by exists (m_accepted m), c.
    + intros q' [= <-]. done.
    + intros q' [= <-]. done.
  - rewrite owned_broadcast. unfold owned. mail_cbn. rewrite Ep, Eo. done.
Qed.

Lemma close_inv hs m p : mail_inv hs m → m_producer m = Some p → m_owner m ≠ Mo_gone →
  mail_inv hs (let '(ret, p, body) := tr_rpc_record_producer_close (Some p) in
    let m := m_broadcast (m_set_producer m p) true in
    if is_ok ret then tr_producer_body_release (m_set_owner m Mo_closed (m_tx m)) body else m).
Proof.
  intros Hinv Ep Eo. pose proof Hinv as [Hr Hbz Hrep Hmem]. destruct (Hbz p Ep) as [B1 B2 B3 B4 B5 B6 B7 B8 B9 B10].
  unfold tr_rpc_record_producer_close. mail_cbn. set (q := pr_set_flags _ _ _ _ _). destruct (pr_in_send p) eqn:Es.
  - change (is_ok TR_AGAIN) with false. cbn iota.
    apply (owner_inv hs m p q (m_owner m) (m_tx m) (m_published m) (m_accepted m) (m_failed m) true [] None); try done.
    + intros threads Hs Hf Ha. unfold q. split; mail_cbn; rewrite ?Hs, ?Es; try done.
      destruct 1 as [H|H]; by rewrite H in B3.
    + apply replies_broadcast. apply (replies_same hs m p); try done; [by apply (ro_accepted _ _ Hrep p)|].
      unfold reply. mail_cbn. by rewrite Ep.
    + rewrite owned_broadcast. unfold owned. mail_cbn. by rewrite Ep.
  - change (is_ok TR_OK) with true. cbn iota.
    assert (m_owner m ≠ Mo_sent) as Hns by (intros H; by rewrite H in B3).
    destruct (reply_accepted hs m Hrep) as [Hf Hl].
    apply (owner_inv hs m p (pr_set_mail q None 0 (pr_status q) 0 (pr_metadata q)) Mo_closed (m_tx m) (m_published m) (m_accepted m)
      (m_failed m) true (option_list (pr_body p)) (pr_body p)); try done.
    + intros threads Hs Hfit Ha. unfold q in *. split; mail_cbn; rewrite ?Hs; try done; [|congruence|by left].
      intros H. by destruct (B4 H) as (_ & _ & ?).
    + apply replies_broadcast. set (m' := m_set_owner _ _ _).
      assert (reply m' = m_accepted m) as Erep by (unfold reply, m', pending; mail_cbn; by rewrite app_nil_r).
      assert (reply m = m_accepted m ++ pending (m_bodies m) p) as Erep0 by (unfold reply; rewrite Ep; by destruct (m_owner m)).
      split; rewrite ?Erep; unfold m'; mail_cbn; try done.
      * intros q' [= <-] Hfin. destruct (ro_open _ _ Hrep p Ep Hfin) as [Ho Hfail]. split; [|done]. rewrite Erep0 in Ho.
        destruct (pending_cases (m_bodies m) p) as [[_ H]|(_ & c & H & _)]; rewrite H in Ho; [by rewrite app_nil_r in Ho|by eapply open_prefix].
      * by intros q' [= <-].
      * intros q' [= <-] Hi Hfin. destruct (ro_initial _ _ Hrep p Ep Hi Hfin) as [Hhs H]. split; [done|].
        rewrite Erep0 in H. by apply app_eq_nil in H as [-> _].
    + rewrite owned_broadcast. unfold owned. mail_cbn. rewrite Ep. destruct (m_owner m); done.
Qed.

(** The transport is done with a body. *)
Lemma tx_release_inv hs m k i : mail_inv hs m → m_tx m !! k = Some i →
  mail_inv hs (tr_producer_body_release (m_set_owner m (m_owner m) (delete k (m_tx m))) (Some i)).
Proof.
  intros [Hr Hbz [R1 R2 R3 R4 R5 R6] [M1 M2 M3 M4]] Ek. apply body_release_inv; [done|done|by split|].
  assert (i :: owned (m_set_owner m (m_owner m) (delete k (m_tx m))) ≡ₚ owned m) as Eow.
  { unfold owned. mail_cbn. pose proof (delete_Permutation _ _ _ Ek) as Hp. set (rest := delete k (m_tx m)) in *. clearbody rest.
    rewrite Hp. solve_Permutation. }
  change (option_list (Some i)) with [i]. split; [|intros j| |done]; cbn [app]; rewrite ?Eow; [done|apply M2|exact M3].
Qed.

(** ** Runs *)

Lemma enter_refused hs m k p ret t : mail_inv hs m → m_producer m = Some p → is_ok ret = false → mail_inv hs (enter m k (ret, Some p) t).
Proof. intros Hinv Ep E. unfold enter. cbn [fst snd]. rewrite E. by rewrite set_producer_same. Qed.

Lemma mail_exec_inv hs a m : act_ok a → mail_inv hs m → mail_inv hs (mail_exec a m).
Proof.
  intros Ha Hinv. assert (∀ k, m_threads m !! k = Some At_idle → m_producer m ≠ None) as Hidle.
  { intros k Ek Hn. destruct (alive_thread hs m k At_idle Hinv Ek eq_refl) as [p Ep]. congruence. }
  assert (m_owner m ≠ Mo_gone → m_producer m ≠ None) as Howner.
  { intros Ho Hn. destruct (alive_owner hs m Hinv Ho) as [p Ep]. congruence. }
  destruct a as [k|k|k message|k entries count|k status entries count|k timeout context deadline|k reserve alloc waited| |lock|accepted| |status| | |k];
    cbn [mail_exec].
  1-6: destruct (m_threads m !! k) as [[]|] eqn:Ek; try done;
    (destruct (m_producer m) as [p|] eqn:Ep; [|by destruct (Hidle k Ek)]).
  - by eapply producer_retain_inv.
  - by apply producer_release_inv.
  - unfold send_begin. destruct (_ && _); [by apply enter_refused|].
    destruct (_ || _); [by apply enter_refused|]. destruct (tr_producer_begin p false) as [ret q] eqn:Eb.
    apply (begin_inv hs m k p false _ ret q); try done. left. by eexists.
  - unfold tr_rpc_v2_producer_send_initial_metadata, tr_producer_metadata. cbn [orb].
    destruct (tr_producer_begin p true) as [ret q] eqn:Eb.
    apply (begin_inv hs m k p true _ ret q); try done. right. eexists _, _, _, _. split_and!; [done|done|by right].
  - unfold tr_rpc_v2_producer_finish, tr_producer_metadata. destruct (_ || _); [by apply enter_refused|].
    destruct (tr_producer_begin p false) as [ret q] eqn:Eb.
    apply (begin_inv hs m k p false _ ret q); try done. right. eexists _, _, _, _. split_and!; [done|done|by left].
  - destruct (is_ok _); [|done]. by apply (calm_thread hs m p k At_idle).
  - destruct (m_threads m !! k) as [t|] eqn:Ek; [|done].
    assert (t = At_idle ∨ t = At_gone ∨ holds_ref t = 1 ∧ is_Some (m_producer m)) as [->|[->|[Ht [p Ep]]]]; [|done|done|].
    { destruct t; try (by left); try (right; by left); right; right; split; try done; by eapply alive_thread. }
    rewrite Ep. replace (match t with At_idle | At_gone => m | _ => _ end) with (thread_step m p k t reserve alloc waited)
      by by destruct t.
    by apply thread_step_inv.
  - destruct (m_owner m) eqn:Eo; try done; (destruct (m_producer m) as [p|] eqn:Ep; [|by destruct Howner]);
      apply activate_inv; try done; by rewrite Eo.
  - destruct (m_owner m) eqn:Eo; try done; (destruct (m_producer m) as [p|] eqn:Ep; [|by destruct Howner]); try done;
      apply take_inv; try done; [left; by eexists|by right].
  - destruct (m_owner m) eqn:Eo; try done; (destruct (m_producer m) as [p|] eqn:Ep; [|by destruct Howner]); destruct accepted; try done.
    by apply sent_inv.
  - destruct (m_owner m) eqn:Eo; try done; (destruct (m_producer m) as [p|] eqn:Ep; [|by destruct Howner]); try done;
      [by apply complete_refused_inv|by apply complete_sent_inv].
  - destruct (m_owner m) as [refused| | | |] eqn:Eo; try done; (destruct (m_producer m) as [p|] eqn:Ep; [|by destruct Howner]); try done.
    destruct refused; [|done]. by apply fail_inv.
  - destruct (m_owner m) eqn:Eo; try done; (destruct (m_producer m) as [p|] eqn:Ep; [|by destruct Howner]);
      apply close_inv; try done; by rewrite Eo.
  - destruct (m_owner m) eqn:Eo; try done; (destruct (m_producer m) as [p|] eqn:Ep; [|by destruct Howner]); try done.
    by apply owner_put_inv.
  - destruct (m_tx m !! k) eqn:Ek; [|done]. by apply tx_release_inv.
Qed.

Lemma mail_execs_inv hs l m : Forall act_ok l → mail_inv hs m → mail_inv hs (mail_execs l m).
Proof.
  intros Hl. revert m. induction Hl as [|a l Ha Hl IH]; intros m Hm; [done|]. apply (IH (mail_exec a m)). by apply mail_exec_inv.
Qed.

Lemma mail_init_inv max_message hs a p : tr_rpc_record_producer_create true max_message hs true a = (TR_OK, Some p, false) →
  mail_inv hs (mail_init p).
Proof.
  unfold tr_rpc_record_producer_create. cbn [negb orb]. generalize (replicate (Z.to_nat TR_RPC_METADATA_MAX_BYTES) 0).
  intros md E. repeat (case_if_in E; [discriminate E|]).
  change (default 0 (tr_refcount_init 2).2) with 2 in E. injection E as <-.
  split; mail_cbn.
  - done.
  - intros p [= <-]. split; mail_cbn; try done; [|by intros [|]|by left]. apply Forall_singleton. done.
  - split; mail_cbn.
    + exists [], []. split_and!; [done|done|by left].
    + done.
    + left. apply open_nil.
    + intros p [= <-] _. split; [apply open_nil|done].
    + by intros p [= <-].
    + intros p [= <-]. mail_cbn. by intros ->.
  - split; mail_cbn; try done; [apply NoDup_nil_2|]. intros i. split; [by intros Hi%elem_of_nil|]. intros [b Hb]. done.
Qed.

Lemma mail_run_inv max_message hs a p acts : tr_rpc_record_producer_create true max_message hs true a = (TR_OK, Some p, false) →
  Forall act_ok acts → mail_inv hs (mail_execs acts (mail_init p)).
Proof. intros Hc Ha. apply mail_execs_inv; [done|]. by eapply mail_init_inv. Qed.

Lemma zsum_0 {A} (f : A → Z) l : Forall (λ x, f x = 0) l → zsum f l = 0.
Proof. induction 1 as [|x l Hx _ IH]; cbn; [done|lia]. Qed.

(** * Theorems *)

(** C18: in any interleaving of threads, owner and transport, what the transport has taken is a
    legal reply — initial metadata at most once, first, and never when the headers were
    already sent, then messages, then at most one final status — and it is what threads
    published, in their order, without loss or repetition, except that after a failure the
    status the owner chose takes the place of the rest; and before a failure and a close the commands
    published are exactly those taken and the one in the mailbox. *)
Theorem producer_reply_faithful max_message hs a p acts
    (Hcreate : tr_rpc_record_producer_create true max_message hs true a = (TR_OK, Some p, false)) (Hacts : Forall act_ok acts) :
  let m := mail_execs acts (mail_init p) in
  legal_reply hs (m_accepted m) ∧ faithful (m_published m) (m_accepted m) (m_failed m) ∧
  (m_failed m = false → m_owner m ≠ Mo_closed → m_owner m ≠ Mo_gone → reply m = m_published m).
Proof.
  intros m. pose proof (mail_run_inv _ _ _ _ _ Hcreate Hacts) as [_ _ Hrep _]. destruct (reply_accepted _ _ Hrep) as [Hf Hl].
  split_and!; [done|done|]. apply (ro_complete _ _ Hrep).
Qed.

(** C29: in any interleaving, with any answers of the allocator and of the domain, no freed
    memory is touched, a body that is not freed has exactly one holder (a thread, the mailbox
    or the transport), and the bytes reserved are those of the producer, of the live bodies
    and of the body a thread is about to allocate; when threads and owner have dropped their
    references and the transport its bodies, everything is freed and nothing is reserved. *)
Theorem producer_memory_exact max_message hs a p acts
    (Hcreate : tr_rpc_record_producer_create true max_message hs true a = (TR_OK, Some p, false)) (Hacts : Forall act_ok acts) :
  let m := mail_execs acts (mail_init p) in
  m_fault m = false ∧ NoDup (owned m) ∧ (∀ i, i ∈ owned m ↔ ∃ b, m_bodies m !! i = Some (Some b)) ∧
  m_reserved m = match m_producer m with Some _ => sizeof_producer | None => 0 end +
    zsum body_size (m_bodies m) + zsum thread_reserved (m_threads m) ∧
  (Forall (λ t, t = At_gone) (m_threads m) → m_owner m = Mo_gone → m_tx m = [] →
     m_producer m = None ∧ Forall (λ b, b = None) (m_bodies m) ∧ m_reserved m = 0).
Proof.
  intros m. pose proof (mail_run_inv _ _ _ _ _ Hcreate Hacts) as [Hr Hb _ [M1 M2 M3 M4]]. fold m in Hr, Hb, M1, M2, M3, M4.
  split_and!; [done..|]. intros Hgone Ho Htx.
  assert (∀ f, f At_gone = 0 → zsum f (m_threads m) = 0) as Hz.
  { intros f Hf. apply zsum_0. eapply list.Forall_impl; [exact Hgone|]. by intros t ->. }
  assert (m_producer m = None) as Ep.
  { destruct (m_producer m) as [q|] eqn:Ep; [|done]. exfalso. destruct Hr as (Hr & Hlt & _).
    rewrite Ho, Hz in Hr by done. cbn in Hr. lia. }
  assert (Forall (λ b, b = None) (m_bodies m)) as Hfree.
  { apply list.Forall_forall. intros [b|] [i Hi]%list_elem_of_lookup; [|done]. exfalso.
    destruct (list_elem_of_lookup_1 _ _ (proj2 (M2 i) (ex_intro _ b Hi))) as [j Hj].
    unfold owned in Hj. rewrite Ep, Ho, Htx in Hj. cbn [app] in Hj.
    assert (omap thread_body (m_threads m) = []) as Eo; [|by rewrite Eo in Hj].
    clear -Hgone. induction Hgone as [|t l -> _ IH]; [done|]. exact IH. }
  split_and!; [done|done|]. rewrite M3, Ep, Hz by done. rewrite zsum_0; [done|].
  eapply list.Forall_impl; [exact Hfree|]. by intros b ->.
Qed.

(** C19: in any interleaving, a thread that sleeps in [tr_rpc_v2_producer_wait_writable] waits
    for a producer that still exists and is not writable: no wake-up is lost, and it never
    sleeps on a producer that is closed or finished. *)
Theorem producer_no_lost_wakeup max_message hs a p acts
    (Hcreate : tr_rpc_record_producer_create true max_message hs true a = (TR_OK, Some p, false)) (Hacts : Forall act_ok acts) :
  let m := mail_execs acts (mail_init p) in
  ∀ k timeout, m_threads m !! k = Some (At_waiting true timeout) →
    ∃ q, m_producer m = Some q ∧ must_wait q = true ∧ pr_closed q = false ∧ pr_finished q = false.
Proof.
  intros m k timeout Ek. pose proof (mail_run_inv _ _ _ _ _ Hcreate Hacts) as Hinv. fold m in Hinv.
  destruct (alive_thread _ _ _ _ Hinv Ek eq_refl) as [q Eq]. exists q. split; [done|].
  pose proof (bo_asleep _ _ _ (mi_busy _ _ Hinv q Eq)) as Ha. assert (must_wait q = true) as Hw.
  { apply Ha. assert (is_asleep (At_waiting true timeout) ≤ zsum is_asleep (m_threads m)); [|cbn in *; lia].
    eapply zsum_lookup_le; [intros y _; apply asleep_nonneg|done]. }
  split; [done|]. unfold must_wait, tr_producer_writable in Hw. by destruct (pr_closed q), (pr_finished q).
Qed.

(** * Examples *)

Definition demo_answers : create_answers := mk_create_answers TR_OK true true true true true true.

#[local] Abbreviation demo_producer :=
  (mk_producer 2 1 100 false None 0 TR_RPC_STATUS_OK 0 (replicate (Z.to_nat TR_RPC_METADATA_MAX_BYTES) 0)
    false false false false false false).

(** A thread sends a message and waits for room. *)
Definition demo_waiting : list mail_act :=
  [Ma_send 0 (mk_rpc_bytes (Some [1; 2; 3]) 3); Ma_step 0 TR_OK true Tw_woken; Ma_step 0 TR_OK true Tw_woken;
   Ma_step 0 TR_OK true Tw_woken; Ma_wait 0 (-1) false TR_OK; Ma_step 0 TR_OK true Tw_woken].

(** The message is taken, the thread finishes the reply, and everybody leaves. *)
Definition demo_run : list mail_act :=
  demo_waiting ++ [Ma_activate; Ma_take Tl_ok; Ma_send_on_transport true; Ma_complete; Ma_step 0 TR_OK true Tw_woken;
   Ma_finish 0 TR_RPC_STATUS_OK None 0; Ma_step 0 TR_OK true Tw_woken; Ma_step 0 TR_OK true Tw_woken;
   Ma_take Tl_ok; Ma_send_on_transport true; Ma_complete; Ma_close; Ma_owner_put; Ma_release 0;
   Ma_step 0 TR_OK true Tw_woken; Ma_tx_release 0].

Lemma demo_waiting_ok : Forall act_ok demo_waiting.
Proof. repeat apply Forall_cons_2; try done. Qed.

Lemma demo_run_ok : Forall act_ok demo_run.
Proof. apply Forall_app; split; [apply demo_waiting_ok|]. repeat (apply Forall_cons_2; [try exact I|]); [|apply Forall_nil_2]. split; [apply Forall_nil_2|reflexivity]. Qed.

Lemma producer_reply_faithful_witness :
  m_accepted (mail_execs demo_run (mail_init demo_producer)) =
    [mk_mail_command TR_RPC_RECORD_MESSAGE TR_RPC_STATUS_OK (Some [1; 2; 3]) [];
     mk_mail_command TR_RPC_RECORD_FINAL_STATUS TR_RPC_STATUS_OK None []] ∧
  legal_reply false (m_accepted (mail_execs demo_run (mail_init demo_producer))).
Proof.
  split; [vm_compute; reflexivity|].
  exact (proj1 (producer_reply_faithful 100 false demo_answers demo_producer demo_run eq_refl demo_run_ok)).
Defined.

Lemma producer_memory_exact_witness :
  m_producer (mail_execs demo_run (mail_init demo_producer)) = None ∧
  m_reserved (mail_execs demo_run (mail_init demo_producer)) = 0.
Proof.
  destruct (producer_memory_exact 100 false demo_answers demo_producer demo_run eq_refl demo_run_ok) as (_ & _ & _ & _ & H).
  destruct H as (H1 & _ & H2); [|vm_compute; reflexivity|vm_compute; reflexivity|split; [exact H1|exact H2]].
  assert (m_threads (mail_execs demo_run (mail_init demo_producer)) = [At_gone]) as -> by (vm_compute; reflexivity).
  apply Forall_singleton. reflexivity.
Defined.

Lemma producer_no_lost_wakeup_witness :
  ∃ q, m_producer (mail_execs demo_waiting (mail_init demo_producer)) = Some q ∧ must_wait q = true.
Proof.
  destruct (producer_no_lost_wakeup 100 false demo_answers demo_producer demo_waiting eq_refl demo_waiting_ok 0%nat (-1))
    as (q & H1 & H2 & _); [vm_compute; reflexivity|]. exists q. split; [exact H1|exact H2].
Defined.
