(* ===== verification/RecordStream.v ===== *)
(** Calls bound to streams: [src/rpc/rpc_record_stream.{h,c}] and the status mapping of
    [rpc_record_transport_internal.h].

    A call sends records as a prefix (header and metadata, charged to the budget until the
    transport frees it) and a body buffer, and receives the bytes of its stream in pieces
    of any size.  The stream, the allocator and the owner check answer from outside: their
    answers are parameters, taken from lists where a call asks more than once.  The
    application's callback is a program of sends and aborts that may depend on the answers.

    Theorems: what is delivered is the records the bytes consist of, however they are cut;
    the budget holds exactly the call, its partial record and the unsent prefixes; the
    terminal is notified at most once and last; a send commits only what the stream took. *)
From S2P Require Import Prelude Status ChannelTypes Endian MemoryBudget RpcRecord RecordMetadata.

(** * Data *)

Record tr_rpc_method_desc := mk_method {
  md_service_id : Z;
  md_method_id : Z;
  md_request_cardinality : Z;
  md_response_cardinality : Z;
  md_request_codec_id : Z;
  md_response_codec_id : Z;
  md_lane : Z;
  md_max_request_bytes : Z;
  md_max_response_bytes : Z
}.

Record tr_rpc_record_stream_config := mk_config {
  cf_send_direction : Z;
  cf_method : tr_rpc_method_desc
}.

Inductive tr_rpc_record_delivery := TR_RPC_RECORD_ON_OWNER | TR_RPC_RECORD_OWNER_STOPPED.

(** A body to send: [len] bytes of [data], which may be NULL. *)
Record tx_body := mk_body { tb_data : option (list Z); tb_capacity : Z; tb_len : Z }.

(** [struct tr_rpc_record_stream] without its budget and callbacks, which are outside. *)
Record tr_rpc_record_stream := mk_stream {
  cl_stream : tr_stream_handle;
  cl_config : tr_rpc_record_stream_config;
  cl_state : tr_rpc_record_state;
  cl_tx_limits : tr_rpc_record_limits;
  cl_rx_limits : tr_rpc_record_limits;
  cl_header : list Z;
  cl_header_used : Z;
  cl_partial : option (list Z);
  cl_partial_used : Z;
  cl_partial_size : Z;
  cl_receiving : bool;
  cl_sending : bool;
  cl_callback_depth : Z;
  cl_terminal_notified : bool
}.

(** [sizeof] on LP64. *)
Definition sizeof_stream : Z := 272.
Definition sizeof_prefix : Z := 64.

(** What others see of a call. *)
Inductive stream_log :=
| Lg_received (h : tr_rpc_record_header) (metadata body : list Z)
| Lg_terminal (status : Z) (delivery : tr_rpc_record_delivery)
| Lg_sent (prefix : list Z) (body : option tx_body)
| Lg_body_released.

(** What is around the call: the budget, the prefixes the transport holds, the answers of
    the allocator ([true] when the list ends) and of the stream (TR_OK when it ends), and
    the log. *)
Record stream_env (B : Type) := mk_env {
  en_budget : B;
  en_prefixes : list Z;
  en_mallocs : list bool;
  en_sendv : list tr_status;
  en_log : list stream_log
}.
Arguments mk_env {B} _ _ _ _ _.
Arguments en_budget {B} _.
Arguments en_prefixes {B} _.
Arguments en_mallocs {B} _.
Arguments en_sendv {B} _.
Arguments en_log {B} _.

(** The application's reaction to a record: sends and aborts, depending on their results. *)
Inductive reaction :=
| App_return
| App_send (h : option tr_rpc_record_header) (metadata : option (list Z)) (body : option tx_body)
    (k : tr_status → reaction)
| App_abort (status : Z) (k : tr_status → reaction).

(** * Fields *)

Definition set_state (c : tr_rpc_record_stream) (s : tr_rpc_record_state) : tr_rpc_record_stream :=
  mk_stream (cl_stream c) (cl_config c) s (cl_tx_limits c) (cl_rx_limits c) (cl_header c)
    (cl_header_used c) (cl_partial c) (cl_partial_used c) (cl_partial_size c) (cl_receiving c)
    (cl_sending c) (cl_callback_depth c) (cl_terminal_notified c).
Definition set_head (c : tr_rpc_record_stream) (header : list Z) (used : Z) : tr_rpc_record_stream :=
  mk_stream (cl_stream c) (cl_config c) (cl_state c) (cl_tx_limits c) (cl_rx_limits c) header
    used (cl_partial c) (cl_partial_used c) (cl_partial_size c) (cl_receiving c)
    (cl_sending c) (cl_callback_depth c) (cl_terminal_notified c).
Definition set_partial (c : tr_rpc_record_stream) (partial : option (list Z)) (used size : Z)
    : tr_rpc_record_stream :=
  mk_stream (cl_stream c) (cl_config c) (cl_state c) (cl_tx_limits c) (cl_rx_limits c) (cl_header c)
    (cl_header_used c) partial used size (cl_receiving c)
    (cl_sending c) (cl_callback_depth c) (cl_terminal_notified c).
Definition set_flags (c : tr_rpc_record_stream) (receiving sending : bool) : tr_rpc_record_stream :=
  mk_stream (cl_stream c) (cl_config c) (cl_state c) (cl_tx_limits c) (cl_rx_limits c) (cl_header c)
    (cl_header_used c) (cl_partial c) (cl_partial_used c) (cl_partial_size c) receiving
    sending (cl_callback_depth c) (cl_terminal_notified c).
Definition set_depth (c : tr_rpc_record_stream) (depth : Z) (notified : bool) : tr_rpc_record_stream :=
  mk_stream (cl_stream c) (cl_config c) (cl_state c) (cl_tx_limits c) (cl_rx_limits c) (cl_header c)
    (cl_header_used c) (cl_partial c) (cl_partial_used c) (cl_partial_size c) (cl_receiving c)
    (cl_sending c) depth notified.

(** * Operations *)

(** [tr_rpc_record_status_from_reset] and [tr_rpc_record_reset_reason]. *)
Definition tr_rpc_record_status_from_reset (reason : Z) : Z :=
  match status_of_value reason with
  | Some TR_ERR_CLOSED => TR_RPC_STATUS_CANCELLED
  | Some TR_ERR_TIMEOUT => TR_RPC_STATUS_DEADLINE_EXCEEDED
  | Some TR_ERR_NOMEM => TR_RPC_STATUS_RESOURCE_EXHAUSTED
  | Some TR_ERR_STATE => TR_RPC_STATUS_INVALID_ARGUMENT
  | Some TR_ERR_SYS => TR_RPC_STATUS_INTERNAL
  | _ => TR_RPC_STATUS_COUNT
  end.

Definition tr_rpc_record_reset_reason (status : Z) : tr_status :=
  if (status =? TR_RPC_STATUS_CANCELLED) || (status =? TR_RPC_STATUS_UNAVAILABLE) then TR_ERR_CLOSED
  else if status =? TR_RPC_STATUS_DEADLINE_EXCEEDED then TR_ERR_TIMEOUT
  else if status =? TR_RPC_STATUS_RESOURCE_EXHAUSTED then TR_ERR_NOMEM
  else if (status =? TR_RPC_STATUS_INVALID_ARGUMENT) || (status =? TR_RPC_STATUS_OUT_OF_RANGE) ||
          (status =? TR_RPC_STATUS_DATA_LOSS) then TR_ERR_STATE
  else TR_ERR_SYS.

Definition tr_rpc_record_is_terminal_event (event : Z) : bool :=
  (event =? TR_STREAM_EVENT_REMOTE_CLOSED) || (event =? TR_STREAM_EVENT_CLOSED) ||
  (event =? TR_STREAM_EVENT_ERROR) || (event =? TR_STREAM_EVENT_RESET) ||
  (event =? TR_STREAM_EVENT_REFUSED).

Section Ops.
Context {B : Type} `{!Budget B}.
Implicit Types (c : tr_rpc_record_stream) (v : stream_env B).

Definition log_event v (e : stream_log) : stream_env B :=
  mk_env (en_budget v) (en_prefixes v) (en_mallocs v) (en_sendv v) (en_log v ++ [e]).
Definition env_budget v (b : B) : stream_env B :=
  mk_env b (en_prefixes v) (en_mallocs v) (en_sendv v) (en_log v).
Definition env_prefixes v (l : list Z) : stream_env B :=
  mk_env (en_budget v) l (en_mallocs v) (en_sendv v) (en_log v).

(** What [malloc] and [tr_stream_sendv] answer next. *)
Definition next_malloc v : bool * stream_env B :=
  match en_mallocs v with
  | [] => (true, v)
  | ok :: rest => (ok, mk_env (en_budget v) (en_prefixes v) rest (en_sendv v) (en_log v))
  end.
Definition next_sendv v : tr_status * stream_env B :=
  match en_sendv v with
  | [] => (TR_OK, v)
  | ret :: rest => (ret, mk_env (en_budget v) (en_prefixes v) (en_mallocs v) rest (en_log v))
  end.

(** [tr_memory_budget_release] with its result ignored. *)
Definition env_release v (n : Z) : stream_env B := env_budget v (b_release (en_budget v) n).2.

(** [owner] is what [tr_reactor_in_owner_context_for] answers. *)
Definition tr_record_owner (call : option tr_rpc_record_stream) (owner : bool) : tr_status :=
  match call with
  | None => TR_ERR_INVALID
  | Some _ => if owner then TR_OK else TR_ERR_STATE
  end.

Definition tr_record_same_stream c (stream : tr_stream_handle) : bool :=
  (sh_channel stream =? sh_channel (cl_stream c)) && (sh_slot stream =? sh_slot (cl_stream c)) &&
  (sh_generation stream =? sh_generation (cl_stream c)).

Definition tr_record_receive_direction c : Z :=
  if cf_send_direction (cl_config c) =? TR_RPC_RECORD_REQUEST_DIRECTION
  then TR_RPC_RECORD_RESPONSE_DIRECTION else TR_RPC_RECORD_REQUEST_DIRECTION.

Definition tr_record_clear_partial c v : tr_rpc_record_stream * stream_env B :=
  let v := if nz (cl_partial_size c) then env_release v (cl_partial_size c) else v in
  (set_head (set_partial c None 0 0) (cl_header c) 0, v).

(** The application's terminal callback can change nothing: the call is terminal and in a
    callback, where every operation refuses. *)
Definition tr_record_notify_terminal c v (delivery : tr_rpc_record_delivery)
    : tr_rpc_record_stream * stream_env B :=
  bail (c, v) when (negb (rs_terminal (cl_state c)) || cl_terminal_notified c || cl_receiving c ||
    cl_sending c || negb (cl_callback_depth c =? 0)) ;;
  let c := set_depth c (cl_callback_depth c + 1) true in
  let v := log_event v (Lg_terminal (rs_final_status (cl_state c)) delivery) in
  (set_depth c (cl_callback_depth c - 1) true, v).

(** [tr_record_metadata_valid], whose fuel never runs out. *)
Definition metadata_status (data : option (list Z)) (size : Z) : tr_status :=
  default TR_ERR_STATE (tr_record_metadata_valid data size).

Definition tr_record_preflight c (direction : Z) (header : tr_rpc_record_header)
    : tr_status * tr_rpc_record_state :=
  let method := cf_method (cl_config c) in
  bail (TR_ERR_BAD_TYPE, cl_state c) when ((rh_kind header =? TR_RPC_RECORD_OPEN) &&
    (negb (rh_service_id header =? md_service_id method) ||
     negb (rh_method_id header =? md_method_id method))) ;;
  let codec := if direction =? TR_RPC_RECORD_REQUEST_DIRECTION
    then md_request_codec_id method else md_response_codec_id method in
  let limit := if direction =? TR_RPC_RECORD_REQUEST_DIRECTION
    then md_max_request_bytes method else md_max_response_bytes method in
  bail (TR_ERR_BAD_TYPE, cl_state c) when ((rh_kind header =? TR_RPC_RECORD_MESSAGE) &&
    negb (rh_codec_id header =? codec)) ;;
  bail (TR_ERR_BAD_LENGTH, cl_state c) when ((rh_kind header =? TR_RPC_RECORD_MESSAGE) &&
    (rh_decoded_size header >? limit)) ;;
  let '(ret, next) := tr_rpc_record_state_apply (Some (cl_state c)) direction (Some header) in
  (ret, default (cl_state c) next).

(** [*out] is NULL when [out] is [Some false]; [out] itself may be NULL.  [diag] is what
    [tr_stream_get_diagnostics] answers: a status and the stream's lane. *)
Definition tr_rpc_record_stream_create_on_owner (stream : tr_stream_handle)
    (config : option tr_rpc_record_stream_config) (received terminal : bool) (budget_limit : Z)
    (out : option bool) (owner : bool) (diag : tr_status * Z) v
    : tr_status * option tr_rpc_record_stream * stream_env B :=
  match config, out with
  | Some config, Some out =>
      bail (TR_ERR_INVALID, None, v) when ((sh_channel stream =? 0) || negb received ||
        negb terminal || (budget_limit =? 0)) ;;
      bail (TR_ERR_STATE, None, v) when out ;;
      bail (TR_ERR_STATE, None, v) when (negb owner) ;;
      let method := cf_method config in
      let request := cf_send_direction config =? TR_RPC_RECORD_REQUEST_DIRECTION in
      bail (TR_ERR_INVALID, None, v) when
        ((negb request && negb (cf_send_direction config =? TR_RPC_RECORD_RESPONSE_DIRECTION)) ||
         (md_request_codec_id method =? 0) || (md_response_codec_id method =? 0)) ;;
      match tr_rpc_record_state_init (Some (mk_rs 0 0 0 0 0 false false false false false))
              (md_request_cardinality method) (md_response_cardinality method) with
      | (TR_OK, Some state) =>
          bail (diag.1, None, v) when (negb (is_ok diag.1)) ;;
          bail (TR_ERR_BAD_TYPE, None, v) when (negb (u32 diag.2 =? md_lane method)) ;;
          let '(ret, b) := b_reserve (en_budget v) sizeof_stream in
          let v := env_budget v b in
          bail (ret, None, v) when (negb (is_ok ret)) ;;
          let '(ok, v) := next_malloc v in
          bail (TR_ERR_NOMEM, None, env_release v sizeof_stream) when (negb ok) ;;
          let tx_size := if request then md_max_request_bytes method else md_max_response_bytes method in
          let rx_size := if request then md_max_response_bytes method else md_max_request_bytes method in
          (TR_OK, Some (mk_stream stream config state
             (mk_rl tx_size tx_size TR_RPC_METADATA_MAX_BYTES TR_RPC_RECORD_ACCEPT_NONE)
             (mk_rl rx_size rx_size TR_RPC_METADATA_MAX_BYTES TR_RPC_RECORD_ACCEPT_NONE)
             (replicate (Z.to_nat TR_RPC_RECORD_HEADER_SIZE) 0) 0 None 0 0 false false 0 false), v)
      | (ret, _) => (ret, None, v)
      end
  | _, _ => (TR_ERR_INVALID, None, v)
  end.

(** The transport frees the [i]th prefix it holds. *)
Definition tr_record_prefix_release (i : nat) v : stream_env B :=
  match en_prefixes v !! i with
  | None => v
  | Some bytes => env_release (env_prefixes v (delete i (en_prefixes v))) bytes
  end.

(** * Sending and aborting *)

(** What follows the checks of a send: the prefix, its charge, the stream's answer. *)
Definition send_prefix c v (header : tr_rpc_record_header) (wire_header : list Z)
    (metadata : option (list Z)) (body : option tx_body) (next : tr_rpc_record_state)
    : tr_status * option tx_body * tr_rpc_record_stream * stream_env B :=
  let wire_size := TR_RPC_RECORD_HEADER_SIZE + rh_metadata_size header in
  let bytes := sizeof_prefix + wire_size in
  let '(ret, b) := b_reserve (en_budget v) bytes in
  let v := env_budget v b in
  bail (ret, body, c, v) when (negb (is_ok ret)) ;;
  let '(ok, v) := next_malloc v in
  bail (TR_ERR_NOMEM, body, c, env_release v bytes) when (negb ok) ;;
  let data := wire_header ++ take (Z.to_nat (rh_metadata_size header)) (default [] metadata) in
  let v := env_prefixes v (en_prefixes v ++ [bytes]) in
  let c := set_flags c (cl_receiving c) true in
  let '(ret, v) := next_sendv v in
  let empty := match body with Some p => tb_len p =? 0 | None => false end in
  let '(body, c, v) :=
    if is_ok ret then
      let v := log_event v (Lg_sent data (if empty then None else body)) in
      (None, set_state c next, if empty then log_event v Lg_body_released else v)
    else (body, c, tr_record_prefix_release (length (en_prefixes v) - 1) v) in
  let c := set_flags c (cl_receiving c) false in
  let '(c, v) := tr_record_notify_terminal c v TR_RPC_RECORD_ON_OWNER in
  (ret, body, c, v).

(** The body of the call on its owner; [body] is [*body], the result what it is left as. *)
Definition stream_send c v (header : option tr_rpc_record_header) (metadata : option (list Z))
    (body : option tx_body) : tr_status * option tx_body * tr_rpc_record_stream * stream_env B :=
  bail (TR_ERR_STATE, body, c, v) when (cl_sending c || rs_terminal (cl_state c)) ;;
  match tr_rpc_record_encode_header (Some (replicate (Z.to_nat TR_RPC_RECORD_HEADER_SIZE) 0))
          TR_RPC_RECORD_HEADER_SIZE header (Some (cl_tx_limits c)), header with
  | (TR_OK, Some wire_header), Some header =>
      bail (TR_ERR_BAD_LENGTH, body, c, v) when
        (match body with
         | Some p => (tb_len p >? tb_capacity p) || (nz (tb_len p) && negb (bool_decide (is_Some (tb_data p))))
         | None => false
         end || negb (rh_encoded_size header =? match body with Some p => tb_len p | None => 0 end)) ;;
      let ret := metadata_status metadata (rh_metadata_size header) in
      bail (ret, body, c, v) when (negb (is_ok ret)) ;;
      let '(ret, next) := tr_record_preflight c (cf_send_direction (cl_config c)) header in
      bail (ret, body, c, v) when (negb (is_ok ret)) ;;
      send_prefix c v header wire_header metadata body next
  | (ret, _), _ => (ret, body, c, v)
  end.

Definition tr_rpc_record_stream_send_on_owner (call : option tr_rpc_record_stream) (owner : bool) v
    (header : option tr_rpc_record_header) (metadata : option (list Z)) (body : option tx_body)
    : tr_status * option tx_body * option tr_rpc_record_stream * stream_env B :=
  match call with
  | None => (TR_ERR_INVALID, body, None, v)
  | Some c =>
      bail (TR_ERR_STATE, body, call, v) when (negb owner) ;;
      let '(ret, body, c, v) := stream_send c v header metadata body in (ret, body, Some c, v)
  end.

Definition stream_abort c v (status : Z) : tr_status * tr_rpc_record_stream * stream_env B :=
  bail (TR_ERR_STATE, c, v) when (cl_sending c) ;;
  let '(ret, s) := tr_rpc_record_state_abort (Some (cl_state c)) status in
  let c := set_state c (default (cl_state c) s) in
  if is_ok ret then
    let '(c, v) := if negb (cl_receiving c) then tr_record_clear_partial c v else (c, v) in
    let '(c, v) := tr_record_notify_terminal c v TR_RPC_RECORD_ON_OWNER in
    (ret, c, v)
  else (ret, c, v).

Definition tr_rpc_record_stream_abort_on_owner (call : option tr_rpc_record_stream) (owner : bool) v
    (status : Z) : tr_status * option tr_rpc_record_stream * stream_env B :=
  match call with
  | None => (TR_ERR_INVALID, None, v)
  | Some c =>
      bail (TR_ERR_STATE, call, v) when (negb owner) ;;
      let '(ret, c, v) := stream_abort c v status in (ret, Some c, v)
  end.

(** * The application and the receiver *)

(** The callback runs on the owner, on the call it was given. *)
Fixpoint run_app (a : reaction) c v : tr_rpc_record_stream * stream_env B :=
  match a with
  | App_return => (c, v)
  | App_send h metadata body k =>
      let '(ret, _, c, v) := stream_send c v h metadata body in run_app (k ret) c v
  | App_abort status k =>
      let '(ret, c, v) := stream_abort c v status in run_app (k ret) c v
  end.

(** The reaction of [callbacks.received] to a record, after what has happened before. *)
Context (received : list stream_log → tr_rpc_record_header → list Z → list Z → reaction).

Definition tr_record_accept c v (bytes : list Z) : tr_status * tr_rpc_record_stream * stream_env B :=
  match tr_rpc_record_decode (Some bytes) (alen bytes) (Some (cl_rx_limits c)) true true with
  | (TR_OK, Some (view, used)) =>
      let h := rv_header view in
      let metadata := view_bytes bytes (rv_metadata view) (rh_metadata_size h) in
      let ret := metadata_status ((λ _, metadata) <$> rv_metadata view) (rh_metadata_size h) in
      bail (ret, c, v) when (negb (is_ok ret)) ;;
      let '(ret, next) := tr_record_preflight c (tr_record_receive_direction c) h in
      bail (ret, c, v) when (negb (is_ok ret)) ;;
      let c := set_state c next in
      let c := set_depth c (cl_callback_depth c + 1) (cl_terminal_notified c) in
      let body := view_bytes bytes (rv_body view) (rh_encoded_size h) in
      let a := received (en_log v) h metadata body in
      let '(c, v) := run_app a c (log_event v (Lg_received h metadata body)) in
      (TR_OK, set_depth c (cl_callback_depth c - 1) (cl_terminal_notified c), v)
  | (ret, _) => (ret, c, v)
  end.

Definition tr_record_allocate_partial c v (size : Z)
    : tr_status * tr_rpc_record_stream * stream_env B :=
  let '(ret, b) := b_reserve (en_budget v) size in
  let v := env_budget v b in
  bail (TR_ERR_NOMEM, c, v) when (negb (is_ok ret)) ;;
  let '(ok, v) := next_malloc v in
  bail (TR_ERR_NOMEM, set_partial c None (cl_partial_used c) (cl_partial_size c), env_release v size)
    when (negb ok) ;;
  (TR_OK, set_partial c (Some (replicate (Z.to_nat size) 0)) (cl_partial_used c) size, v).

(** The bytes [memcpy] puts at an offset of the partial record. *)
Definition copy_partial c (off : Z) (bytes : list Z) (used : Z) : tr_rpc_record_stream :=
  set_partial c ((λ p, put_at p off bytes) <$> cl_partial c) used (cl_partial_size c).

(** One pass of the loop with a header decoded: [header_used] tells whether it is in
    [call->header]; [None] is [continue], with the data that is left. *)
Definition receive_record c v (data : list Z) (header : tr_rpc_record_header) (total : Z)
    : option tr_status * tr_rpc_record_stream * stream_env B * list Z :=
  let '(ret, _) := tr_record_preflight c (tr_record_receive_direction c) header in
  bail (Some ret, c, v, data) when (negb (is_ok ret)) ;;
  if (cl_header_used c =? 0) && (alen data >=? total) then
    let '(ret, c, v) := tr_record_accept c v (take (Z.to_nat total) data) in
    (if is_ok ret then None else Some ret, c, v, drop (Z.to_nat total) data)
  else if negb (cl_header_used c =? 0) && (total =? TR_RPC_RECORD_HEADER_SIZE) then
    let '(ret, c, v) := tr_record_accept c v (take (Z.to_nat total) (cl_header c)) in
    (if is_ok ret then None else Some ret, set_head c (cl_header c) 0, v, data)
  else
    let '(ret, c, v) := tr_record_allocate_partial c v total in
    bail (Some ret, c, v, data) when (negb (is_ok ret)) ;;
    if negb (cl_header_used c =? 0) then
      let c := copy_partial c 0 (take (Z.to_nat (cl_header_used c)) (cl_header c)) (cl_header_used c) in
      (None, set_head c (cl_header c) 0, v, data)
    else (None, copy_partial c 0 data (alen data), v, []).

(** One pass of the loop: [Some ret] breaks with [ret]. *)
Definition receive_step c v (data : list Z)
    : option tr_status * tr_rpc_record_stream * stream_env B * list Z :=
  bail (Some TR_ERR_STATE, c, v, data) when (rs_terminal (cl_state c)) ;;
  match cl_partial c with
  | Some partial =>
      let amount := Z.min (cl_partial_size c - cl_partial_used c) (alen data) in
      let c := copy_partial c (cl_partial_used c) (take (Z.to_nat amount) data) (cl_partial_used c + amount) in
      let data := drop (Z.to_nat amount) data in
      if cl_partial_used c =? cl_partial_size c then
        let '(ret, c, v) := tr_record_accept c v (default [] (cl_partial c)) in
        let '(c, v) := tr_record_clear_partial c v in
        (if is_ok ret then None else Some ret, c, v, data)
      else (None, c, v, data)
  | None =>
      let '(c, data, out) :=
        if negb (cl_header_used c =? 0) then
          let amount := Z.min (TR_RPC_RECORD_HEADER_SIZE - cl_header_used c) (alen data) in
          let c := set_head c (put_at (cl_header c) (cl_header_used c) (take (Z.to_nat amount) data))
            (cl_header_used c + amount) in
          (c, drop (Z.to_nat amount) data,
           tr_rpc_record_decode_header (Some (take (Z.to_nat (cl_header_used c)) (cl_header c)))
             (cl_header_used c) (Some (cl_rx_limits c)) true true)
        else
          let out := tr_rpc_record_decode_header (Some data) (alen data) (Some (cl_rx_limits c)) true true in
          (if bool_decide (out.1 = TR_AGAIN) then set_head c (put_at (cl_header c) 0 data) (alen data) else c,
           data, out) in
      match out with
      | (TR_AGAIN, _) => (Some TR_OK, c, v, data)
      | (TR_OK, Some (header, total)) => receive_record c v data header total
      | (ret, _) => (Some ret, c, v, data)
      end
  end.

(** [while (size)]: every pass consumes a byte, the length is fuel enough. *)
Fixpoint receive_loop (fuel : nat) c v (data : list Z)
    : option (tr_status * tr_rpc_record_stream * stream_env B) :=
  if alen data =? 0 then Some (TR_OK, c, v) else
  match fuel with
  | O => None
  | S fuel =>
      match receive_step c v data with
      | (Some ret, c, v, _) => Some (ret, c, v)
      | (None, c, v, data) => receive_loop fuel c v data
      end
  end.

(** What follows the loop. *)
Definition receive_finish (ret : tr_status) c v : tr_status * tr_rpc_record_stream * stream_env B :=
  let c := if negb (is_ok ret) && negb (rs_terminal (cl_state c)) then
      set_state c (default (cl_state c) (tr_rpc_record_state_abort (Some (cl_state c))
        (if bool_decide (ret = TR_ERR_NOMEM) then TR_RPC_STATUS_RESOURCE_EXHAUSTED
         else TR_RPC_STATUS_INVALID_ARGUMENT)).2)
    else c in
  let '(c, v) := if rs_terminal (cl_state c) then tr_record_clear_partial c v else (c, v) in
  let c := set_flags c false (cl_sending c) in
  let '(c, v) := tr_record_notify_terminal c v TR_RPC_RECORD_ON_OWNER in
  (ret, c, v).

(** [data] is [None] when it is NULL with a size; the result, if the loop does not end. *)
Definition stream_receive c v (stream : tr_stream_handle) (data : option (list Z))
    : option (tr_status * tr_rpc_record_stream * stream_env B) :=
  bail (Some (TR_ERR_STALE, c, v)) when (negb (tr_record_same_stream c stream)) ;;
  match data with
  | None => Some (TR_ERR_INVALID, c, v)
  | Some data =>
      bail (Some (TR_ERR_STATE, c, v)) when
        (cl_receiving c || cl_sending c || rs_terminal (cl_state c)) ;;
      let c := set_flags c true (cl_sending c) in
      match receive_loop (length data) c v data with
      | None => None
      | Some (ret, c, v) => Some (receive_finish ret c v)
      end
  end.

Definition tr_rpc_record_stream_receive_on_owner (call : option tr_rpc_record_stream) (owner : bool) v
    (stream : tr_stream_handle) (data : option (list Z))
    : option (tr_status * option tr_rpc_record_stream * stream_env B) :=
  match call with
  | None => Some (TR_ERR_INVALID, None, v)
  | Some c =>
      bail (Some (TR_ERR_STATE, call, v)) when (negb owner) ;;
      match stream_receive c v stream data with
      | None => None
      | Some (ret, c, v) => Some (ret, Some c, v)
      end
  end.

(** * Events and the end *)

Definition stream_event c v (stream : tr_stream_handle) (event status : Z)
    : tr_status * tr_rpc_record_stream * stream_env B :=
  bail (TR_ERR_STALE, c, v) when (negb (tr_record_same_stream c stream)) ;;
  bail (TR_ERR_STATE, c, v) when (cl_receiving c || cl_sending c) ;;
  bail (TR_OK, c, v) when (rs_terminal (cl_state c)) ;;
  bail (TR_OK, c, v) when ((event =? TR_STREAM_EVENT_OPENED) || (event =? TR_STREAM_EVENT_WRITABLE)) ;;
  bail (TR_ERR_INVALID, c, v) when
    ((event =? TR_STREAM_EVENT_REFUSED) && negb (status =? status_value TR_ERR_NOMEM)) ;;
  if (event =? TR_STREAM_EVENT_RESET) || (event =? TR_STREAM_EVENT_REFUSED) then
    let result := tr_rpc_record_status_from_reset status in
    bail (TR_ERR_INVALID, c, v) when (result =? TR_RPC_STATUS_COUNT) ;;
    stream_abort c v result
  else
    bail (TR_ERR_INVALID, c, v) when (negb (event =? TR_STREAM_EVENT_REMOTE_CLOSED) &&
      negb (event =? TR_STREAM_EVENT_CLOSED) && negb (event =? TR_STREAM_EVENT_ERROR)) ;;
    let pending := bool_decide (is_Some (cl_partial c)) || negb (cl_header_used c =? 0) in
    bail (TR_OK, c, v) when ((event =? TR_STREAM_EVENT_REMOTE_CLOSED) && negb pending &&
      (cf_send_direction (cl_config c) =? TR_RPC_RECORD_RESPONSE_DIRECTION) &&
      rs_request_closed (cl_state c)) ;;
    stream_abort c v (if pending then TR_RPC_STATUS_DATA_LOSS else TR_RPC_STATUS_UNAVAILABLE).

Definition tr_rpc_record_stream_event_on_owner (call : option tr_rpc_record_stream) (owner : bool) v
    (stream : tr_stream_handle) (event status : Z)
    : tr_status * option tr_rpc_record_stream * stream_env B :=
  match call with
  | None => (TR_ERR_INVALID, None, v)
  | Some c =>
      bail (TR_ERR_STATE, call, v) when (negb owner) ;;
      let '(ret, c, v) := stream_event c v stream event status in (ret, Some c, v)
  end.

Definition tr_rpc_record_stream_snapshot_on_owner (call : option tr_rpc_record_stream) (owner : bool)
    (out cached_bytes : bool) : tr_status * option (tr_rpc_record_state * Z) :=
  match call with
  | None => (TR_ERR_INVALID, None)
  | Some c =>
      bail (TR_ERR_STATE, None) when (negb owner) ;;
      bail (TR_ERR_INVALID, None) when (negb out || negb cached_bytes) ;;
      (TR_OK, Some (cl_state c, cl_partial_size c))
  end.

Definition tr_record_destroy c v : tr_status * stream_env B :=
  let '(_, v) := tr_record_clear_partial c v in
  let '(ret, b) := b_release (en_budget v) sizeof_stream in
  (ret, env_budget v b).

(** [*pointer] is the call; [None] in the result when it was destroyed. *)
Definition tr_rpc_record_stream_destroy_on_owner (pointer : bool) (call : option tr_rpc_record_stream)
    (owner : bool) v : tr_status * option tr_rpc_record_stream * stream_env B :=
  bail (TR_ERR_INVALID, call, v) when (negb pointer) ;;
  match call with
  | None => (TR_ERR_INVALID, None, v)
  | Some c =>
      bail (TR_ERR_STATE, call, v) when (negb owner) ;;
      bail (TR_ERR_STATE, call, v) when (cl_receiving c || cl_sending c ||
        negb (cl_callback_depth c =? 0) || (rs_opened (cl_state c) && negb (rs_terminal (cl_state c)))) ;;
      let '(ret, v) := tr_record_destroy c v in (ret, None, v)
  end.

(** [acquire] and [release] are what the recovery guard answers. *)
Definition tr_rpc_record_stream_reap_stopped (pointer : bool) (call : option tr_rpc_record_stream)
    (acquire release : tr_status) v : tr_status * option tr_rpc_record_stream * stream_env B :=
  bail (TR_ERR_INVALID, call, v) when (negb pointer) ;;
  match call with
  | None => (TR_ERR_INVALID, None, v)
  | Some c =>
      bail (acquire, call, v) when (negb (is_ok acquire)) ;;
      bail (TR_ERR_STATE, call, v) when (cl_receiving c || cl_sending c || negb (cl_callback_depth c =? 0)) ;;
      let c := if rs_opened (cl_state c) && negb (rs_terminal (cl_state c)) then
          set_state c (default (cl_state c)
            (tr_rpc_record_state_abort (Some (cl_state c)) TR_RPC_STATUS_CANCELLED).2)
        else c in
      let '(c, v) := tr_record_notify_terminal c v TR_RPC_RECORD_OWNER_STOPPED in
      if is_ok release then let '(ret, v) := tr_record_destroy c v in (ret, None, v)
      else (release, Some c, v)
  end.

End Ops.

(** * Lemmas: the environment *)

Section Lemmas.
Context {B : Type} `{!Budget B}.
Implicit Types (c : tr_rpc_record_stream) (v : stream_env B).

(** The budget holds [base] and the prefixes the transport has. *)
Record env_ok (base : Z) v : Prop := {
  eo_budget : b_ok (en_budget v);
  eo_prefixes : Forall (λ n, 0 ≤ n) (en_prefixes v);
  eo_base : 0 ≤ base;
  eo_used : b_used (en_budget v) = base + zsum id (en_prefixes v)
}.

Lemma prefixes_nonneg v base : env_ok base v → 0 ≤ zsum id (en_prefixes v).
Proof.
  intros [_ Hp _ _]. apply zsum_nonneg. intros x Hx. by apply (proj1 (list.Forall_forall _ _) Hp).
Qed.

(** What [malloc] and the stream answer changes nothing else. *)
Lemma next_malloc_same v ok v' : next_malloc v = (ok, v') →
  en_budget v' = en_budget v ∧ en_prefixes v' = en_prefixes v ∧ en_log v' = en_log v.
Proof. unfold next_malloc. destruct (en_mallocs v); intros [= <- <-]; done. Qed.
Lemma next_sendv_same v ret v' : next_sendv v = (ret, v') →
  en_budget v' = en_budget v ∧ en_prefixes v' = en_prefixes v ∧ en_log v' = en_log v.
Proof. unfold next_sendv. destruct (en_sendv v); intros [= <- <-]; done. Qed.

Lemma env_ok_same base v v' : en_budget v' = en_budget v → en_prefixes v' = en_prefixes v →
  env_ok base v → env_ok base v'.
Proof. intros E1 E2 []. split; by rewrite ?E1, ?E2. Qed.

Lemma env_reserve base v n ret b : env_ok base v → u64_ok n → b_reserve (en_budget v) n = (ret, b) →
  (ret = TR_OK ∧ env_ok (base + n) (env_budget v b)) ∨ (is_error ret = true ∨ ret = TR_AGAIN) ∧ env_ok base (env_budget v b).
Proof.
  intros [Hb Hp H0 Hu] Hn H. pose proof Hn as [? _]. apply b_reserve_spec in H as [Hb' [[-> E]|[Hr E]]]; [..|done|done].
  - left. split; [done|]. split; simpl; try done; lia.
  - right. split; [destruct Hr as [-> | ->]; auto|]. split; simpl; try done. lia.
Qed.

Lemma env_release_ok base v n : env_ok (base + n) v → 0 ≤ n → 0 ≤ base → env_ok base (env_release v n).
Proof.
  intros Hv Hn H0. pose proof (prefixes_nonneg _ _ Hv). destruct Hv as [Hb Hp _ Hu].
  destruct (b_release_spec (en_budget v) n Hb ltac:(lia)) as (b' & E & Hb' & Hu').
  unfold env_release. rewrite E. split; simpl; try done. lia.
Qed.

(** A prefix goes to the transport, and comes back. *)
Lemma env_push base v n : env_ok (base + n) v → 0 ≤ n → 0 ≤ base →
  env_ok base (env_prefixes v (en_prefixes v ++ [n])).
Proof.
  intros [Hb Hp _ Hu] Hn H0. split; simpl; try done.
  - apply Forall_app; split; [done|by apply Forall_singleton].
  - rewrite zsum_app. simpl. unfold id in *. lia.
Qed.

Lemma prefix_release_ok base v i : env_ok base v → env_ok base (tr_record_prefix_release i v).
Proof.
  intros Hv. unfold tr_record_prefix_release. destruct (en_prefixes v !! i) as [n|] eqn:E; [|done].
  pose proof (Forall_lookup_1 _ _ _ _ (eo_prefixes _ _ Hv) E) as Hn. simpl in Hn.
  apply env_release_ok; [|done|apply Hv]. destruct Hv as [Hb Hp H0 Hu]. split; simpl; try done.
  - by apply Forall_delete.
  - lia.
  - rewrite (zsum_delete id _ _ n) by done. change (id n) with n. lia.
Qed.

Lemma prefix_release_last v n : en_prefixes v = removelast (en_prefixes v) ++ [n] →
  en_prefixes (tr_record_prefix_release (length (en_prefixes v) - 1) v) = removelast (en_prefixes v) ∧
  en_log (tr_record_prefix_release (length (en_prefixes v) - 1) v) = en_log v.
Proof.
  intros E. set (l := removelast (en_prefixes v)) in *. unfold tr_record_prefix_release.
  rewrite E. rewrite length_app. simpl. replace (length l + 1 - 1)%nat with (length l) by lia.
  rewrite lookup_app_r by lia. replace (length l - length l)%nat with 0%nat by lia. simpl.
  split; [|done]. rewrite delete_take_drop. rewrite take_app_length'  by done.
  rewrite drop_app_ge by lia. replace (S (length l) - length l)%nat with 1%nat by lia. simpl. by rewrite app_nil_r.
Qed.

(** * Lemmas: sending *)

(** The log of an accepted send. *)
Definition sent_log (wire : list Z) (body : option tx_body) : list stream_log :=
  let empty := match body with Some p => tb_len p =? 0 | None => false end in
  Lg_sent wire (if empty then None else body) :: if empty then [Lg_body_released] else [].

Lemma notify_not_terminal c v d : rs_terminal (cl_state c) = false → tr_record_notify_terminal c v d = (c, v).
Proof. intros E. unfold tr_record_notify_terminal. by rewrite E. Qed.

Lemma set_flags_same c : cl_sending c = false → set_flags (set_flags c (cl_receiving c) true) (cl_receiving c) false = c.
Proof. destruct c; simpl. by intros ->. Qed.

(** What an accepted send leaves, before the terminal notification. *)
Record send_accepted (base : Z) c v (hd : tr_rpc_record_header) (metadata : option (list Z))
    (body : option tx_body) c' v' : Prop := {
  sa_open : rs_terminal (cl_state c) = false;
  sa_state : ∃ next, tr_rpc_record_state_apply (Some (cl_state c)) (cf_send_direction (cl_config c))
      (Some hd) = (TR_OK, Some next) ∧ c' = set_state c next;
  sa_valid : is_Some (tr_rpc_record_validate (Some hd) (Some (cl_tx_limits c))).2;
  sa_log : en_log v' = en_log v ++ sent_log
    (record_bytes hd ++ take (Z.to_nat (rh_metadata_size hd)) (default [] metadata)) body;
  sa_prefixes : en_prefixes v' = en_prefixes v ++ [sizeof_prefix + TR_RPC_RECORD_HEADER_SIZE + rh_metadata_size hd];
  sa_env : env_ok base v'
}.

Lemma preflight_ok c d h next : tr_record_preflight c d h = (TR_OK, next) →
  tr_rpc_record_state_apply (Some (cl_state c)) d (Some h) = (TR_OK, Some next).
Proof.
  unfold tr_record_preflight. case_ifs; try done;
    (destruct (tr_rpc_record_state_apply _ _ _) as [ret s] eqn:E; intros [= -> <-];
     destruct (apply_ok_some _ _ _ _ E) as [s' ->]; done).
Qed.

Lemma encode_inv header l w :
  tr_rpc_record_encode_header (Some (replicate (Z.to_nat TR_RPC_RECORD_HEADER_SIZE) 0))
    TR_RPC_RECORD_HEADER_SIZE header (Some l) = (TR_OK, Some w) →
  ∃ hd total, header = Some hd ∧ tr_rpc_record_validate (Some hd) (Some l) = (TR_OK, Some total) ∧
    w = record_bytes hd.
Proof.
  intros H. destruct header as [hd|]; [|done].
  destruct (tr_rpc_record_validate (Some hd) (Some l)) as [ret t] eqn:E.
  destruct (is_ok ret) eqn:Eok.
  - apply is_ok_true in Eok as ->.
    destruct (proj1 (validate_total (Some hd) (Some l))) as [total Et]; [by rewrite E|].
    rewrite E in Et. simpl in Et. subst t. rewrite (encode_header_bytes _ _ _ _ _ E) in H by done.
    injection H as <-. exists hd, total. split_and!; try done.
  - exfalso. apply is_ok_false in Eok. unfold tr_rpc_record_encode_header in H. rewrite E in H.
    destruct (is_ok ret) eqn:Eok2; [by apply is_ok_true in Eok2|]. simpl in H. congruence.
Qed.

(** A limit on lengths the C types allow: the prefix's size is a [size_t]. *)
Lemma meta_size_ok hd l total : record_header_ok hd →
  tr_rpc_record_validate (Some hd) (Some l) = (TR_OK, Some total) →
  0 ≤ rh_metadata_size hd ≤ TR_RPC_METADATA_MAX_BYTES.
Proof.
  intros Hh Hv. apply validate_valid in Hv as (l' & [= <-] & Hval); [|done].
  destruct Hval as [_ _ Hl Hm _ _]. unfold tr_rpc_record_limits_valid in Hl. bool_to_prop.
  destruct Hh as [_ _ _ _ _ _ [? _] _ _]. lia.
Qed.

Definition header_arg_ok (h : option tr_rpc_record_header) : Prop :=
  match h with Some hd => record_header_ok hd | None => True end.

(** An accepted send before its notification, or nothing but answers consumed. *)
Lemma stream_send_spec base c v h md body ret body' c' v' : env_ok base v → cl_sending c = false →
  header_arg_ok h → stream_send c v h md body = (ret, body', c', v') →
  (ret ≠ TR_OK ∧ body' = body ∧ c' = c ∧ en_log v' = en_log v ∧ en_prefixes v' = en_prefixes v ∧ env_ok base v') ∨
  (ret = TR_OK ∧ body' = None ∧ ∃ hd c1 v1, h = Some hd ∧ send_accepted base c v hd md body c1 v1 ∧
     (c', v') = tr_record_notify_terminal c1 v1 TR_RPC_RECORD_ON_OWNER).
Proof.
  intros Hv Hs Hh H. unfold stream_send in H. rewrite Hs in H. cbn [orb] in H.
  destruct (rs_terminal (cl_state c)) eqn:Ht; [injection H as <- <- <- <-; by left|].
  destruct (tr_rpc_record_encode_header _ _ _ _) as [r w] eqn:Eenc.
  assert (r ≠ TR_OK → (r, body, c, v) = (ret, body', c', v') →
    ret ≠ TR_OK ∧ body' = body ∧ c' = c ∧ en_log v' = en_log v ∧ en_prefixes v' = en_prefixes v ∧ env_ok base v') as Href.
  { intros Hr [= <- <- <- <-]. done. }
  destruct (decide (r = TR_OK)) as [->|Hr]; [|left; apply Href; [done|destruct r, w, h; done]].
  destruct w as [w|]; [|exfalso; by destruct h as [hd|]; unfold tr_rpc_record_encode_header in Eenc;
    destruct (tr_rpc_record_validate _ _) as [[] ?]; case_ifs_in Eenc].
  apply encode_inv in Eenc as (hd & total & -> & Hval & ->). simpl in Hh.
  pose proof (meta_size_ok _ _ _ Hh Hval) as Hm.
  case_if_in H; [injection H as <- <- <- <-; by left|].
  destruct (is_ok (metadata_status _ _)) eqn:Emd; simpl in H;
    [|apply is_ok_false in Emd; injection H as <- <- <- <-; by left].
  destruct (tr_record_preflight _ _ _) as [rp next] eqn:Epre.
  destruct (is_ok rp) eqn:Erp; simpl in H; [|apply is_ok_false in Erp; injection H as <- <- <- <-; by left].
  apply is_ok_true in Erp as ->. apply preflight_ok in Epre.
  unfold send_prefix in H. set (bytes := sizeof_prefix + (TR_RPC_RECORD_HEADER_SIZE + rh_metadata_size hd)) in *.
  assert (u64_ok bytes ∧ 0 ≤ bytes) as [Hb64 Hb0].
  { unfold bytes, sizeof_prefix, TR_RPC_RECORD_HEADER_SIZE, TR_RPC_METADATA_MAX_BYTES in *. split; [word_lia|lia]. }
  destruct (b_reserve (en_budget v) bytes) as [rb b] eqn:Eres.
  destruct (env_reserve _ _ _ _ _ Hv Hb64 Eres) as [[-> Hv1]|[Hrb Hv1]].
  2: { left. destruct (is_ok rb) eqn:Erb; [apply is_ok_true in Erb as ->; by destruct Hrb|].
       simpl in H. apply is_ok_false in Erb. by injection H as <- <- <- <-. }
  simpl in H. destruct (next_malloc _) as [ok v2] eqn:Emal. apply next_malloc_same in Emal as (E1 & E2 & E3).
  apply (env_ok_same _ _ v2) in Hv1; [|done|done].
  destruct ok; simpl in H.
  2: { left. injection H as <- <- <- <-. split_and!; try done. apply env_release_ok; [done|done|apply Hv]. }
  pose proof (env_push _ _ _ Hv1 Hb0 (eo_base _ _ Hv)) as Hv3.
  set (v3 := env_prefixes v2 (en_prefixes v2 ++ [bytes])) in *.
  destruct (next_sendv v3) as [rs v4] eqn:Esend. apply next_sendv_same in Esend as (F1 & F2 & F3).
  apply (env_ok_same _ _ v4) in Hv3; [|done|done].
  destruct (is_ok rs) eqn:Ers.
  - apply is_ok_true in Ers as ->. right. simpl in H.
    destruct (tr_record_notify_terminal _ _ _) as [c5 v5] eqn:Enot in H. injection H as <- <- <- <-.
    split_and!; try done. eexists hd, _, _. split; [done|]. split; [|symmetry; exact Enot].
    split; try done.
    + exists next. split; [done|]. destruct c; simpl in *. by subst.
    + rewrite Hval. eauto.
    + unfold sent_log. case_if; simpl; rewrite F3; simpl; rewrite E3; simpl; [by rewrite <- app_assoc|done].
    + case_if; simpl; rewrite F2; simpl; rewrite E2; unfold bytes; do 2 f_equal; lia.
    + case_if; simpl; by apply (env_ok_same _ v4).
  - left. apply is_ok_false in Ers. cbn zeta in H.
    destruct (prefix_release_last v4 bytes) as [G1 G2].
    { rewrite F2. simpl. by rewrite removelast_last. }
    change (cl_receiving (set_flags c (cl_receiving c) true)) with (cl_receiving c) in H.
    rewrite set_flags_same in H by done. rewrite notify_not_terminal in H by done.
    injection H as <- <- <- <-. split_and!; try done.
    + rewrite G2, F3. done.
    + rewrite G1, F2. simpl. rewrite removelast_last. done.
    + by apply prefix_release_ok.
Qed.

(** * Lemmas: the application *)

Fixpoint app_ok (a : reaction) : Prop :=
  match a with
  | App_return => True
  | App_send h _ _ k => header_arg_ok h ∧ ∀ r, app_ok (k r)
  | App_abort _ k => ∀ r, app_ok (k r)
  end.

Definition sent_event (e : stream_log) : Prop :=
  match e with Lg_sent _ _ | Lg_body_released => True | _ => False end.

Lemma sent_log_events w body : Forall sent_event (sent_log w body).
Proof. unfold sent_log. case_if; by repeat constructor. Qed.

Lemma apply_initialized s d r s' : tr_rpc_record_state_apply (Some s) d (Some r) = (TR_OK, Some s') →
  rs_terminal s = false ∧ rs_initialized s' = true.
Proof.
  intros H. destruct (apply_ok_event _ _ _ _ H) as (Hi & Ht & Hr). split; [done|].
  rewrite apply_event in H by done. destruct (if negb _ then _ else _) eqn:E in H; [|done].
  injection H as <-. apply apply_next_cases in E as [-> _]. done.
Qed.

(** Aborting: the result is the state it leaves. *)
Lemma abort_cases s status : rs_initialized s = true →
  let '(ret, o) := tr_rpc_record_state_abort (Some s) status in
  ∃ s', o = Some s' ∧ rs_initialized s' = true ∧
    (ret = TR_OK ∧ rs_terminal s = false ∧ rs_terminal s' = true ∨ ret ≠ TR_OK ∧ s' = s).
Proof.
  intros Hi. unfold tr_rpc_record_state_abort. rewrite Hi. simpl.
  case_if; [eexists; split_and!; [done|done|by right]|].
  destruct (rs_terminal s) eqn:Ht; eexists; (split_and!; [done|done|]); [by right|by left].
Qed.

(** What the application can change during a callback: the state, and what it sends. *)
Record app_frame (base : Z) c v c' v' : Prop := {
  af_state : ∃ s, c' = set_state c s ∧ rs_initialized s = true ∧
    (rs_terminal (cl_state c) = true → rs_terminal s = true);
  af_log : ∃ l, en_log v' = en_log v ++ l ∧ Forall sent_event l;
  af_env : env_ok base v'
}.

Lemma set_state_same c : set_state c (cl_state c) = c.
Proof. by destruct c. Qed.

Lemma app_frame_refl base c v : env_ok base v → rs_initialized (cl_state c) = true → app_frame base c v c v.
Proof.
  intros Hv Hi. split; [| |done].
  - exists (cl_state c). by rewrite set_state_same.
  - exists []. by rewrite app_nil_r.
Qed.

Lemma app_frame_trans base c v c1 v1 c2 v2 : app_frame base c v c1 v1 → app_frame base c1 v1 c2 v2 →
  app_frame base c v c2 v2.
Proof.
  intros [(s1 & -> & Hi1 & Ht1) (l1 & El1 & Hl1) _] [(s2 & -> & Hi2 & Ht2) (l2 & El2 & Hl2) Hv].
  split; [| |done].
  - exists s2. split_and!; [by destruct c|done|]. intros H. apply Ht2. by apply Ht1.
  - exists (l1 ++ l2). rewrite El2, El1, app_assoc. split; [done|by apply Forall_app].
Qed.

Lemma app_frame_flags base c v c' v' : app_frame base c v c' v' →
  cl_receiving c' = cl_receiving c ∧ cl_sending c' = cl_sending c ∧ rs_initialized (cl_state c') = true.
Proof. intros [(s & -> & Hi & _) _ _]. done. Qed.

Lemma notify_receiving c v d : cl_receiving c = true → tr_record_notify_terminal c v d = (c, v).
Proof. intros E. unfold tr_record_notify_terminal. rewrite E, !orb_true_r. done. Qed.

Lemma run_app_frame base a c v : env_ok base v → app_ok a → cl_receiving c = true → cl_sending c = false →
  rs_initialized (cl_state c) = true →
  app_frame base c v (run_app a c v).1 (run_app a c v).2.
Proof.
  revert c v. induction a as [|h md body k IH|status k IH]; intros c v Hv Ha Hr Hs Hi; cbn [run_app].
  - by apply app_frame_refl.
  - destruct Ha as [Hh Hk]. destruct (stream_send c v h md body) as [[[ret body'] c1] v1] eqn:E.
    assert (app_frame base c v c1 v1) as Hf.
    { apply (stream_send_spec base) in E as [(_ & _ & -> & El & _ & Hv1)|(_ & _ & hd & c2 & v2 & _ & Hsa & En)]; try done.
      - split; [| |done].
        + exists (cl_state c). by rewrite set_state_same.
        + exists []. by rewrite app_nil_r.
      - destruct Hsa as [Hopen (next & Happ & ->) _ Hlog _ Hv2]. rewrite notify_receiving in En by done.
        injection En as -> ->. apply apply_initialized in Happ as [_ Hi']. split; [| |done].
        + exists next. split_and!; try done. by rewrite Hopen.
        + eexists. split; [done|apply sent_log_events]. }
    destruct (app_frame_flags _ _ _ _ _ Hf) as (E1 & E2 & E3).
    eapply app_frame_trans; [done|]. apply IH; [apply Hf|apply Hk|congruence..].
  - unfold stream_abort. rewrite Hs. pose proof (abort_cases (cl_state c) status Hi) as Hab.
    destruct (tr_rpc_record_state_abort _ _) as [ret o]. destruct Hab as (s & -> & Hi' & Hcase). simpl.
    assert (app_frame base c v (set_state c s) v) as Hf.
    { split; [| |done]; [|exists []; by rewrite app_nil_r]. exists s. split_and!; try done.
      intros H. destruct Hcase as [(_ & Hf & _)|(_ & ->)]; congruence. }
    rewrite Hr. simpl. rewrite notify_receiving by done.
    assert (∀ r, app_frame base c v (run_app (k r) (set_state c s) v).1 (run_app (k r) (set_state c s) v).2) as Hk.
    { intros r. eapply app_frame_trans; [done|]. by apply IH; try apply Ha. }
    case_if; apply Hk.
Qed.

(** * Lemmas: receiving *)

(** The bytes of the records delivered so far. *)
Definition record_wire (h : tr_rpc_record_header) (metadata body : list Z) : list Z :=
  record_bytes h ++ metadata ++ body.
Definition log_bytes (l : list stream_log) : list Z :=
  concat (map (λ e, match e with Lg_received h m b => record_wire h m b | _ => [] end) l).

Lemma log_bytes_app l1 l2 : log_bytes (l1 ++ l2) = log_bytes l1 ++ log_bytes l2.
Proof. unfold log_bytes. by rewrite map_app, concat_app. Qed.

Lemma log_bytes_sent l : Forall sent_event l → log_bytes l = [].
Proof. induction 1 as [|e l He _ IH]; [done|]. unfold log_bytes in *. simpl. rewrite IH. by destruct e. Qed.

Lemma log_bytes_received h m b l :
  log_bytes (Lg_received h m b :: l) = record_wire h m b ++ log_bytes l.
Proof. done. Qed.

(** An event that is not the end; a record is delivered whole. *)
Definition going_event (e : stream_log) : Prop :=
  match e with
  | Lg_terminal _ _ => False
  | Lg_received h m b => alen m = rh_metadata_size h ∧ alen b = rh_encoded_size h
  | _ => True
  end.

Lemma sent_going l : Forall sent_event l → Forall going_event l.
Proof. intros H. eapply Forall_impl; [exact H|]. by intros []. Qed.

(** Everything but the state, the buffers and the environment. *)
Definition rest_same c c' : Prop :=
  cl_stream c' = cl_stream c ∧ cl_config c' = cl_config c ∧ cl_tx_limits c' = cl_tx_limits c ∧
  cl_rx_limits c' = cl_rx_limits c ∧ cl_receiving c' = cl_receiving c ∧ cl_sending c' = cl_sending c ∧
  cl_callback_depth c' = cl_callback_depth c ∧ cl_terminal_notified c' = cl_terminal_notified c.

(** The bytes kept for the record that is not complete. *)
Definition stream_pending c : list Z :=
  match cl_partial c with
  | Some p => take (Z.to_nat (cl_partial_used c)) p
  | None => take (Z.to_nat (cl_header_used c)) (cl_header c)
  end.

(** The buffers: part of a header, or part of a record whose header is known. *)
Record buffers_ok c : Prop := {
  bo_header : length (cl_header c) = 48%nat ∧ bytes_ok (cl_header c);
  bo_used : 0 ≤ cl_header_used c < 48;
  bo_again : 0 < cl_header_used c →
    tr_rpc_record_decode_header (Some (take (Z.to_nat (cl_header_used c)) (cl_header c)))
      (cl_header_used c) (Some (cl_rx_limits c)) true true = (TR_AGAIN, None);
  bo_partial : match cl_partial c with
    | None => cl_partial_size c = 0 ∧ cl_partial_used c = 0
    | Some p => cl_header_used c = 0 ∧ bytes_ok p ∧ alen p = cl_partial_size c ∧
        48 ≤ cl_partial_used c < cl_partial_size c ∧ u64_ok (cl_partial_size c) ∧
        ∃ h, tr_rpc_record_decode_header (Some (take (Z.to_nat (cl_partial_used c)) p))
          (cl_partial_used c) (Some (cl_rx_limits c)) true true = (TR_OK, Some (h, cl_partial_size c))
    end
}.

Context (received : list stream_log → tr_rpc_record_header → list Z → list Z → reaction).
Context (Hreceived : ∀ log h m b, app_ok (received log h m b)).

(** A receiving call, which no callback is in. *)
Record call_receiving c : Prop := {
  cr_receiving : cl_receiving c = true;
  cr_sending : cl_sending c = false;
  cr_init : rs_initialized (cl_state c) = true
}.

Lemma accept_spec base c v bytes ret c' v' : env_ok base v → bytes_ok bytes → call_receiving c →
  tr_record_accept received c v bytes = (ret, c', v') →
  (ret ≠ TR_OK ∧ c' = c ∧ v' = v) ∨
  (ret = TR_OK ∧ ∃ view total s l,
     let h := rv_header view in
     let m := view_bytes bytes (rv_metadata view) (rh_metadata_size h) in
     let b := view_bytes bytes (rv_body view) (rh_encoded_size h) in
     tr_rpc_record_decode (Some bytes) (alen bytes) (Some (cl_rx_limits c)) true true =
       (TR_OK, Some (view, total)) ∧ take (Z.to_nat total) bytes = record_wire h m b ∧
     going_event (Lg_received h m b) ∧
     c' = set_state c s ∧ rs_initialized s = true ∧
     en_log v' = en_log v ++ Lg_received h m b :: l ∧ Forall sent_event l ∧ env_ok base v').
Proof.
  intros Hv Hb [Hr Hs Hi] H. unfold tr_record_accept in H.
  destruct (tr_rpc_record_decode _ _ _ _ _) as [r out] eqn:Hdec.
  destruct (decide (r = TR_OK)) as [->|Hne].
  2: { left. destruct r, out as [[]|]; try done; by injection H as <- <- <-. }
  destruct out as [[view used]|]; [|exfalso].
  2: { by apply decode_ok_some in Hdec as [? [=]]. }
  destruct (is_ok (metadata_status _ _)) eqn:Em; cbn [negb] in H;
    [|left; apply is_ok_false in Em; by injection H as <- <- <-].
  destruct (tr_record_preflight _ _ _) as [rp next] eqn:Epre.
  destruct (is_ok rp) eqn:Erp; cbn [negb] in H; [|left; apply is_ok_false in Erp; by injection H as <- <- <-].
  apply is_ok_true in Erp as ->. apply preflight_ok, apply_initialized in Epre as [Hnt Hni].
  destruct (decode_wire _ _ _ _ Hb Hdec) as (Hok & _ & _ & Htot & Hle & Hm & Hbd & _ & Hwire).
  right. destruct (run_app _ _ _) as [c2 v2] eqn:Erun. injection H as <- <- <-. split; [done|].
  set (h := rv_header view) in *. set (m := view_bytes bytes (rv_metadata view) (rh_metadata_size h)) in *.
  set (b := view_bytes bytes (rv_body view) (rh_encoded_size h)) in *.
  set (c1 := set_depth (set_state c next) (cl_callback_depth (set_state c next) + 1)
    (cl_terminal_notified (set_state c next))) in *.
  pose proof (run_app_frame base (received (en_log v) h m b) c1 (log_event v (Lg_received h m b))) as Hf.
  rewrite Erun in Hf. simpl in Hf.
  destruct Hf as [(s & Ec & Hsi & _) (l & El & Hl) Hv2]; try done.
  { by apply (env_ok_same _ v). }
  exists view, used, s, l. fold h. fold m. fold b.
  fold h in Hok, Htot. unfold TR_RPC_RECORD_HEADER_SIZE in Htot.
  pose proof (rho_metadata _ Hok) as [? _]. pose proof (rho_encoded _ Hok) as [? _].
  assert (going_event (Lg_received h m b)) as Hgo.
  { unfold going_event, alen in *. split.
    - rewrite Hm, length_take, length_drop. lia.
    - rewrite Hbd, length_take, length_drop. lia. }
  split_and!; try done.
  - subst c2. unfold c1. destruct c; simpl. unfold set_state, set_depth; simpl. f_equal. lia.
  - rewrite El. simpl. by rewrite <- app_assoc.
Qed.

Lemma bytes_ok_replicate n : bytes_ok (replicate n 0).
Proof. apply list.Forall_forall. intros x [-> _]%elem_of_replicate. unfold u8_ok. lia. Qed.

Lemma alen_take (n : Z) (l : list Z) : 0 ≤ n ≤ alen l → alen (take (Z.to_nat n) l) = n.
Proof. unfold alen. rewrite length_take. lia. Qed.

(** What a pass of the loop keeps; [rest] are the bytes not delivered. *)
Record step_ok (base : Z) c v (data : list Z) c' v' (rest : list Z) : Prop := {
  so_bytes : log_bytes (en_log v') ++ rest = log_bytes (en_log v) ++ stream_pending c ++ data;
  so_log : ∃ l, en_log v' = en_log v ++ l ∧ Forall going_event l;
  so_env : env_ok (base + cl_partial_size c') v';
  so_header : length (cl_header c') = 48%nat ∧ bytes_ok (cl_header c');
  so_rest : rest_same c c';
  so_init : rs_initialized (cl_state c') = true;
  so_size : 0 ≤ cl_partial_size c'
}.

(** A whole header is at hand: in the data, or in [call->header]. *)
Record header_at_hand c (data : list Z) (header : tr_rpc_record_header) (total : Z) : Prop := {
  hh_header : length (cl_header c) = 48%nat ∧ bytes_ok (cl_header c);
  hh_partial : cl_partial c = None ∧ cl_partial_size c = 0 ∧ cl_partial_used c = 0;
  hh_source : (cl_header_used c = 0 ∧
     tr_rpc_record_decode_header (Some data) (alen data) (Some (cl_rx_limits c)) true true = (TR_OK, Some (header, total))) ∨
    (cl_header_used c = 48 ∧
     tr_rpc_record_decode_header (Some (cl_header c)) (alen (cl_header c)) (Some (cl_rx_limits c)) true true =
       (TR_OK, Some (header, total)))
}.

Lemma decode_header_total data limits h total : bytes_ok data →
  tr_rpc_record_decode_header (Some data) (alen data) limits true true = (TR_OK, Some (h, total)) →
  48 ≤ total ∧ u64_ok total ∧ 48 ≤ alen data.
Proof.
  intros Hb H. apply decode_header_inv in H as (Hl & _ & _ & -> & Hv).
  pose proof (record_fields_ok data Hb Hl) as Hok.
  destruct (validate_valid _ _ _ Hok Hv) as (l & _ & [_ -> _ _ _ _]).
  destruct Hok. unfold TR_RPC_RECORD_HEADER_SIZE. split_and!; word_lia.
Qed.

(** Decoding a prefix that holds the header. *)
Lemma decode_header_take (data : list Z) (n : Z) limits : 48 ≤ n ≤ alen data →
  tr_rpc_record_decode_header (Some (take (Z.to_nat n) data)) n limits true true =
  tr_rpc_record_decode_header (Some data) (alen data) limits true true.
Proof.
  intros Hn. destruct (decode_header_prefix data (Z.to_nat n) limits) as [[_ ?]|E].
  - unfold alen in Hn. lia.
  - lia.
  - rewrite Z2Nat.id in E by lia. done.
Qed.

(** Accepting exactly the bytes of a record. *)
Lemma accept_exact base c v bytes header total ret c' v' : env_ok base v → bytes_ok bytes → call_receiving c →
  alen bytes = total →
  tr_rpc_record_decode_header (Some bytes) (alen bytes) (Some (cl_rx_limits c)) true true = (TR_OK, Some (header, total)) →
  tr_record_accept received c v bytes = (ret, c', v') →
  (ret ≠ TR_OK ∧ c' = c ∧ v' = v) ∨
  (ret = TR_OK ∧ ∃ s l, c' = set_state c s ∧ rs_initialized s = true ∧
     en_log v' = en_log v ++ l ∧ Forall going_event l ∧ log_bytes l = bytes ∧ env_ok base v').
Proof.
  intros Hv Hb Hc Hlen Hdh Hacc. apply (accept_spec base) in Hacc as [?|(-> & view & t & s & l & Hdec & Hw & Hgo & -> & Hi & El & Hl & Hv')];
    [by left|right|done|done|done].
  split; [done|]. exists s. eexists. split_and!; [done|done|exact El| | |done].
  - constructor; [done|by apply sent_going].
  - assert (t = total) as ->.
    { unfold tr_rpc_record_decode in Hdec. cbn [negb orb] in Hdec. rewrite Hdh in Hdec. case_ifs_in Hdec. done. }
    rewrite log_bytes_received, (log_bytes_sent l), app_nil_r by done. rewrite <- Hw. rewrite <- Hlen. unfold alen. rewrite Nat2Z.id. by rewrite take_ge by lia.
Qed.

Lemma rest_same_refl c : rest_same c c.
Proof. done. Qed.

Lemma buffers_size c : buffers_ok c → 0 ≤ cl_partial_size c.
Proof. intros [_ _ _ Hp]. destruct (cl_partial c); [|lia]. destruct Hp as (_ & _ & _ & ? & _). lia. Qed.

Lemma step_refl base c v data : env_ok (base + cl_partial_size c) v → rs_initialized (cl_state c) = true →
  length (cl_header c) = 48%nat ∧ bytes_ok (cl_header c) → 0 ≤ cl_partial_size c →
  step_ok base c v data c v (stream_pending c ++ data).
Proof. intros Hv Hi Hh. split; try done. exists []. by rewrite app_nil_r. Qed.

(** The record is complete: it is delivered, or refused with nothing changed. *)
Lemma receive_accept base c v bytes header total ret c1 v1 : env_ok base v → bytes_ok bytes → call_receiving c →
  alen bytes = total → cl_partial_size c = 0 → (length (cl_header c) = 48%nat ∧ bytes_ok (cl_header c)) →
  tr_rpc_record_decode_header (Some bytes) (alen bytes) (Some (cl_rx_limits c)) true true = (TR_OK, Some (header, total)) →
  tr_record_accept received c v bytes = (ret, c1, v1) →
  (ret ≠ TR_OK ∧ c1 = c ∧ v1 = v) ∨
  (ret = TR_OK ∧ ∃ s, c1 = set_state c s ∧ rs_initialized s = true ∧ env_ok base v1 ∧
     log_bytes (en_log v1) = log_bytes (en_log v) ++ bytes ∧
     ∃ l, en_log v1 = en_log v ++ l ∧ Forall going_event l).
Proof.
  intros Hv Hb Hc Hl Hps Hh Hdh Hacc.
  apply (accept_exact base _ _ _ header total) in Hacc as [?|(-> & s & l & -> & Hi & El & Hg & Hlb & Hv1)]; try done;
    [by left|right].
  split; [done|]. exists s. split_and!; try done; [|by exists l]. by rewrite El, log_bytes_app, Hlb.
Qed.

(** The pass that has a header: the record is delivered, kept in part, or refused. *)
Lemma receive_record_spec base c v data header total o c' v' data' : env_ok base v → bytes_ok data →
  call_receiving c → header_at_hand c data header total →
  receive_record received c v data header total = (o, c', v', data') →
  match o with
  | None => step_ok base c v data c' v' (stream_pending c' ++ data') ∧ buffers_ok c' ∧ bytes_ok data' ∧
      (length data' < length data ∨ cl_header_used c = 48%Z ∧ data' = data)%nat
  | Some ret => ret ≠ TR_OK ∧ ∃ rest, step_ok base c v data c' v' rest
  end.
Proof.
  intros Hv Hb Hc [[Hhl Hhb] (Hpn & Hps & Hpu) Hsrc] H. unfold receive_record in H.
  assert (step_ok base c v data c v (stream_pending c ++ data)) as Hrefl.
  { apply step_refl; [by rewrite Hps, Z.add_0_r|apply Hc|done|lia]. }
  assert (0 ≤ base) as Hbase by apply Hv.
  destruct (tr_record_preflight _ _ _) as [rp next]. destruct (is_ok rp) eqn:Erp; cbn [negb] in H.
  2: { apply is_ok_false in Erp. injection H as <- <- <- <-. split; [done|]. by eexists. }
  clear rp next Erp.
  assert (48 ≤ total ∧ u64_ok total) as [Ht48 Ht64].
  { destruct Hsrc as [[_ E]|[_ E]]; apply decode_header_total in E as (? & ? & ?); done. }
  destruct ((cl_header_used c =? 0) && (alen data >=? total)) eqn:E1.
  { apply andb_true_iff in E1 as [E0 E1]. apply Z.eqb_eq in E0. rewrite Z.geb_leb, Z.leb_le in E1.
    destruct Hsrc as [[_ Hdh]|[? _]]; [|lia].
    destruct (tr_record_accept _ _ _ _) as [[r c1] v1] eqn:Hacc.
    apply (receive_accept base _ _ _ header total) in Hacc; try done.
    2: by apply bytes_ok_take.
    2: by apply alen_take; lia.
    2: { rewrite alen_take by lia. rewrite decode_header_take by lia. done. }
    injection H as <- <- <- <-. destruct Hacc as [(Hne & -> & ->)|(-> & s & -> & Hi & Hv1 & Hlb & Hl)].
    - destruct (is_ok r) eqn:Er; [by apply is_ok_true in Er|]. split; [done|]. by eexists.
    - change (is_ok TR_OK) with true. cbv iota. split_and!.
      + split; try done; try (simpl; lia); simpl; [|by rewrite Hps, Z.add_0_r].
        unfold stream_pending. simpl. rewrite Hpn, E0. simpl. rewrite Hlb, <- app_assoc. f_equal. by rewrite take_drop.
      + split; simpl; rewrite ?Hpn, ?E0; try done; lia.
      + by apply bytes_ok_drop.
      + left. rewrite length_drop. unfold alen in E1. lia. }
  destruct (negb (cl_header_used c =? 0) && (total =? TR_RPC_RECORD_HEADER_SIZE)) eqn:E2.
  { apply andb_true_iff in E2 as [E0 E2]. apply negb_true_iff, Z.eqb_neq in E0. apply Z.eqb_eq in E2.
    destruct Hsrc as [[? _]|[Eu Hdh]]; [lia|]. clear E1.
    destruct (tr_record_accept _ _ _ _) as [[r c1] v1] eqn:Hacc.
    replace (take (Z.to_nat total) (cl_header c)) with (cl_header c) in Hacc
      by (symmetry; apply take_ge; rewrite Hhl, E2; vm_compute; lia).
    apply (receive_accept base _ _ _ header total) in Hacc; try done.
    2: { rewrite E2. unfold alen. by rewrite Hhl. }
    injection H as <- <- <- <-.
    destruct Hacc as [(Hne & -> & ->)|(-> & s & -> & Hi & Hv1 & Hlb & Hl)].
    - destruct (is_ok r) eqn:Er; [by apply is_ok_true in Er|]. split; [done|]. exists (stream_pending c ++ data).
      split; try done; try (simpl; lia); simpl; [by exists []; rewrite app_nil_r|by rewrite Hps, Z.add_0_r|apply Hc].
    - change (is_ok TR_OK) with true. cbv iota. split_and!.
      + split; try done; try (simpl; lia); simpl; [|by rewrite Hps, Z.add_0_r].
        unfold stream_pending. cbn [set_head set_state cl_partial cl_header cl_header_used].
        rewrite Hpn, Eu. change (take (Z.to_nat 0) (cl_header c)) with ([] : list Z). cbn [app].
        rewrite (take_ge (cl_header c)) by (rewrite Hhl; vm_compute; lia). by rewrite Hlb, <- app_assoc.
      + split; simpl; rewrite ?Hpn; try done; lia.
      + done.
      + by right. }
  unfold tr_record_allocate_partial in H.
  destruct (b_reserve (en_budget v) total) as [rb b] eqn:Eres.
  apply (env_reserve base) in Eres as [[-> Hv1]|[Hrb Hv1]]; [|destruct (is_ok rb) eqn:Erb|done|done].
  2: { apply is_ok_true in Erb as ->. by destruct Hrb. }
  2: { simpl in H. injection H as <- <- <- <-. split; [done|]. exists (stream_pending c ++ data).
       split; try done; try (simpl; lia); simpl; [by exists []; rewrite app_nil_r|by rewrite Hps, Z.add_0_r|apply Hc]. }
  change (is_ok TR_OK) with true in H. cbn [negb] in H.
  destruct (next_malloc _) as [ok v2] eqn:Emal. apply next_malloc_same in Emal as (F1 & F2 & F3).
  apply (env_ok_same _ _ v2) in Hv1; [|done|done]. destruct ok; cbn [negb] in H.
  2: { injection H as <- <- <- <-. split; [done|]. exists (stream_pending c ++ data).
       split; try done; try (simpl; lia); simpl; [unfold stream_pending; simpl; by rewrite F3, Hpn|
         exists []; by rewrite app_nil_r, F3| |apply Hc].
       rewrite Hps, Z.add_0_r. apply env_release_ok; [done|lia|done]. }
  change (is_ok TR_OK) with true in H. cbn [negb] in H.
  cbn [set_partial cl_header_used] in H.
  assert (alen (replicate (Z.to_nat total) 0) = total) as Hrep by (unfold alen; rewrite length_replicate; lia).
  destruct (Z.eqb_spec (cl_header_used c) 0) as [E0|E0]; cbn [negb andb] in E1, E2, H.
  - destruct Hsrc as [[_ Hdh]|[? _]]; [|lia]. rewrite Z.geb_leb, Z.leb_gt in E1.
    pose proof (decode_header_total _ _ _ _ Hb Hdh) as (_ & _ & Hdl).
    assert (take (Z.to_nat (alen data)) (put_at (replicate (Z.to_nat total) 0) 0 data) = data) as Etake.
    { pose proof (take_put_at (replicate (Z.to_nat total) 0) 0 data ltac:(lia) ltac:(lia)) as E. by rewrite Z.add_0_l in E. }
    injection H as <- <- <- <-. split_and!.
    + split; try done; try (simpl; lia); simpl; [|by exists []; rewrite app_nil_r|apply Hc].
      unfold stream_pending; simpl. by rewrite Etake, Hpn, E0, F3, app_nil_r.
    + split; simpl; try done; [rewrite E0; lia|intros ?; lia|]. split_and!; try done; try lia.
      * apply bytes_ok_put_at; [apply bytes_ok_replicate|done].
      * unfold alen. rewrite length_put_at by lia. exact Hrep.
      * exists header. by rewrite Etake.
    + constructor.
    + left. unfold alen in Hdl. simpl. lia.
  - destruct Hsrc as [[? _]|[Eu Hdh]]; [lia|]. apply Z.eqb_neq in E2. unfold TR_RPC_RECORD_HEADER_SIZE in E2.
    assert (take (Z.to_nat 48) (cl_header c) = cl_header c) as Eh by (apply take_ge; rewrite Hhl; vm_compute; lia).
    assert (alen (cl_header c) = 48) as Ehl by (unfold alen; by rewrite Hhl).
    assert (take (Z.to_nat 48) (put_at (replicate (Z.to_nat total) 0) 0 (cl_header c)) = cl_header c) as Etake.
    { pose proof (take_put_at (replicate (Z.to_nat total) 0) 0 (cl_header c) ltac:(lia) ltac:(lia)) as E.
      by rewrite Z.add_0_l, Ehl in E. }
    injection H as <- <- <- <-. rewrite Eu, Eh. split_and!.
    + split; try done; try (simpl; lia); cbn; [|by exists []; rewrite app_nil_r|apply Hc].
      unfold stream_pending; cbn -[take]. by rewrite Etake, Hpn, Eu, F3, Eh.
    + split; cbn -[take]; try done; try lia. split_and!; try done; try lia.
      * apply bytes_ok_put_at; [apply bytes_ok_replicate|done].
      * unfold alen. rewrite length_put_at by lia. exact Hrep.
      * exists header. rewrite Etake. by rewrite Ehl in Hdh.
    + done.
    + by right.
Qed.

(** A pass that first moves bytes into a buffer. *)
Lemma step_trans base c v data c1 data1 c' v' rest : stream_pending c1 ++ data1 = stream_pending c ++ data →
  rest_same c c1 → step_ok base c1 v data1 c' v' rest → step_ok base c v data c' v' rest.
Proof.
  intros E (?&?&?&?&?&?&?&?) [Hs1 Hs2 Hs3 Hs4 (?&?&?&?&?&?&?&?) Hs6]. split; try done.
  - by rewrite Hs1, E.
  - repeat split; congruence.
Qed.

Lemma clear_partial_spec base c v c' v' : env_ok (base + cl_partial_size c) v → 0 ≤ cl_partial_size c → 0 ≤ base →
  tr_record_clear_partial c v = (c', v') →
  c' = set_head (set_partial c None 0 0) (cl_header c) 0 ∧ en_log v' = en_log v ∧ env_ok base v' ∧
  en_prefixes v' = en_prefixes v.
Proof.
  intros Hv Hp Hbase H. unfold tr_record_clear_partial in H. injection H as <- <-. split; [done|].
  unfold nz. destruct (Z.eqb_spec (cl_partial_size c) 0) as [E|]; simpl.
  - by rewrite E, Z.add_0_r in Hv.
  - split_and!; try done. by apply env_release_ok.
Qed.

(** A decoder with a whole header never asks for more, and one that asks has no header. *)
Lemma decode_header_again data n limits o :
  tr_rpc_record_decode_header (Some data) n limits true true = (TR_AGAIN, o) → o = None ∧ n < 48.
Proof.
  rewrite decode_header_short. intros H. case_ifs_in H; try (split; [done|lia]).
  unfold decode_complete in H. destruct (tr_rpc_record_validate _ _) as [r t] eqn:E.
  destruct (is_ok r) eqn:Er; simplify_eq.
  exfalso. unfold tr_rpc_record_validate in E. destruct limits; [|done]. case_ifs_in E.
Qed.

(** More bytes of a record whose header is known. *)
Lemma receive_partial_spec base c v data p o c' v' data' : env_ok (base + cl_partial_size c) v → 0 ≤ base →
  buffers_ok c → call_receiving c → bytes_ok data → data ≠ [] → cl_partial c = Some p →
  rs_terminal (cl_state c) = false →
  receive_step received c v data = (o, c', v', data') →
  match o with
  | None => step_ok base c v data c' v' (stream_pending c' ++ data') ∧ buffers_ok c' ∧ bytes_ok data' ∧
      (length data' < length data)%nat
  | Some ret => ret ≠ TR_OK ∧ ∃ rest, step_ok base c v data c' v' rest
  end.
Proof.
  intros Hv Hbase [Hh Hu _ Hpart] Hc Hb Hne Hp Hnt H. unfold receive_step in H. rewrite Hnt, Hp in H.
  rewrite Hp in Hpart. destruct Hpart as (Hu0 & Hpb & Hpl & Hused & Hps & h & Hdh).
  set (used := cl_partial_used c) in *. set (size := cl_partial_size c) in *.
  set (amount := Z.min (size - used) (alen data)) in *.
  assert (0 < alen data) as Hd0 by (destruct data; [done|unfold alen; simpl; lia]).
  assert (alen (take (Z.to_nat amount) data) = amount) as Hta by (apply alen_take; lia).
  set (p1 := put_at p used (take (Z.to_nat amount) data)) in *.
  assert (take (Z.to_nat (used + amount)) p1 = take (Z.to_nat used) p ++ take (Z.to_nat amount) data) as Etake.
  { pose proof (take_put_at p used (take (Z.to_nat amount) data) ltac:(lia) ltac:(lia)) as E. by rewrite Hta in E. }
  assert (alen p1 = size) as Hp1l.
  { unfold alen, p1. rewrite length_put_at by lia. exact Hpl. }
  assert (bytes_ok p1) as Hp1b by (apply bytes_ok_put_at; [done|by apply bytes_ok_take]).
  assert (∀ n, used ≤ n ≤ size → tr_rpc_record_decode_header (Some (take (Z.to_nat n) p1)) n (Some (cl_rx_limits c)) true true =
    (TR_OK, Some (h, size))) as Hdh1.
  { intros n Hn. rewrite (decode_header_take p1 n) by lia.
    rewrite <- (decode_header_take p1 used) by lia.
    assert (take (Z.to_nat used) p1 = take (Z.to_nat used) p) as ->; [|done].
    apply (f_equal (take (Z.to_nat used))) in Etake. rewrite take_take, Nat.min_l in Etake by lia.
    rewrite Etake. rewrite take_app_le by (rewrite length_take; unfold alen in Hpl; lia). rewrite take_take. f_equal. lia. }
  assert (stream_pending c = take (Z.to_nat used) p) as Epend by (unfold stream_pending; by rewrite Hp).
  assert (take (Z.to_nat amount) data ++ drop (Z.to_nat amount) data = data) as Ed by apply take_drop.
  assert (call_receiving (copy_partial c used (take (Z.to_nat amount) data) (used + amount))) as Hc1.
  { destruct Hc. by split. }
  unfold copy_partial in H. cbn [set_partial cl_partial_used cl_partial_size cl_partial] in H.
  rewrite Hp in H. cbn [fmap option_fmap option_map] in H. fold p1 in H.
  set (c1 := set_partial c (Some p1) (used + amount) (cl_partial_size c)) in *.
  destruct (Z.eqb_spec (used + amount) (cl_partial_size c)) as [Efull|Enot].
  - destruct (tr_record_accept _ _ _ _) as [[r c2] v2] eqn:Hacc. cbn [default id] in Hacc.
    assert (take (Z.to_nat size) p1 = p1) as Ep1 by (apply take_ge; unfold alen in Hp1l; lia).
    apply (accept_exact (base + size) _ _ _ h size) in Hacc; try done.
    2: by destruct Hc; split.
    2: { rewrite Hp1l. rewrite <- Ep1. apply Hdh1. lia. }
    destruct (tr_record_clear_partial c2 v2) as [c3 v3] eqn:Hcl. injection H as <- <- <- <-.
    destruct Hacc as [(Hner & -> & ->)|(-> & s & l & -> & Hi & El & Hg & Hlb & Hv2)].
    + apply (clear_partial_spec base) in Hcl as (-> & El & Hv3 & _); [|done|simpl; lia|done].
      destruct (is_ok r) eqn:Er; [by apply is_ok_true in Er|]. split; [done|]. exists (stream_pending c ++ data).
      split; try done; try (simpl; lia); simpl; [by rewrite El|exists []; by rewrite app_nil_r, El|by rewrite Z.add_0_r|apply Hc].
    + apply (clear_partial_spec base) in Hcl as (-> & El3 & Hv3 & _); [|done|simpl; lia|done].
      change (is_ok TR_OK) with true. cbv iota. split_and!.
      * split; try done; try (simpl; lia); cbn; [|by exists l; rewrite El3|by rewrite Z.add_0_r].
        rewrite El3, El, log_bytes_app, Hlb, Epend, <- app_assoc. f_equal. simpl.
        rewrite <- Ed at 2. rewrite app_assoc, <- Etake. f_equal. rewrite Efull. fold size. symmetry; exact Ep1.
      * split; cbn; try done; lia.
      * by apply bytes_ok_drop.
      * rewrite length_drop. unfold alen in *. lia.
  - injection H as <- <- <- <-. split_and!.
    + split; try done; try (simpl; lia); cbn -[take stream_pending]; [|by exists []; rewrite app_nil_r|apply Hc].
      unfold stream_pending at 1. cbn -[take]. by rewrite Etake, Epend, <- app_assoc, Ed.
    + split; cbn -[take]; try done; [rewrite Hu0; intros ?; lia|]. split_and!; try done; try (unfold size in *; lia).
      exists h. apply Hdh1. lia.
    + by apply bytes_ok_drop.
    + rewrite length_drop. unfold alen in *. lia.
Qed.

(** Bytes gathered in [call->header]. *)
(** Bytes put behind those gathered for a header. *)
Lemma gather_bytes (old : list Z) used data : length old = 48%nat → bytes_ok old → bytes_ok data → 0 ≤ used < 48 →
  let amount := Z.min (TR_RPC_RECORD_HEADER_SIZE - used) (alen data) in
  let header := put_at old used (take (Z.to_nat amount) data) in
  length header = 48%nat ∧ bytes_ok header ∧ 0 ≤ amount ∧
  take (Z.to_nat (used + amount)) header = take (Z.to_nat used) old ++ take (Z.to_nat amount) data.
Proof.
  intros Hl Hb Hd Hu amount header. pose proof (alen_nonneg data).
  assert (alen old = 48) as Hl' by (unfold alen; by rewrite Hl).
  unfold TR_RPC_RECORD_HEADER_SIZE in *.
  assert (alen (take (Z.to_nat amount) data) = amount) as Ha by (apply alen_take; lia).
  split_and!.
  - unfold header. rewrite length_put_at; lia.
  - apply bytes_ok_put_at; [done|by apply bytes_ok_take].
  - lia.
  - rewrite <- Ha at 1. apply take_put_at; lia.
Qed.

Lemma header_gather c data : length (cl_header c) = 48%nat → bytes_ok (cl_header c) → bytes_ok data →
  0 ≤ cl_header_used c < 48 → data ≠ [] →
  let amount := Z.min (TR_RPC_RECORD_HEADER_SIZE - cl_header_used c) (alen data) in
  let header := put_at (cl_header c) (cl_header_used c) (take (Z.to_nat amount) data) in
  length header = 48%nat ∧ bytes_ok header ∧ 0 < amount ∧
  take (Z.to_nat (cl_header_used c + amount)) header =
    take (Z.to_nat (cl_header_used c)) (cl_header c) ++ take (Z.to_nat amount) data.
Proof.
  intros Hl Hb Hd Hu Hne amount header.
  assert (0 < alen data) by (destruct data; [done|unfold alen; simpl; lia]).
  destruct (gather_bytes _ _ _ Hl Hb Hd Hu) as (? & ? & ? & ?). split_and!; try done.
  unfold amount, TR_RPC_RECORD_HEADER_SIZE. lia.
Qed.

Lemma step_cases base c v data c1 data1 o c' v' data' :
  stream_pending c1 ++ data1 = stream_pending c ++ data → rest_same c c1 → (length data1 ≤ length data)%nat →
  (cl_header_used c1 = 48 → (length data1 < length data)%nat) →
  match o with
  | None => step_ok base c1 v data1 c' v' (stream_pending c' ++ data') ∧ buffers_ok c' ∧ bytes_ok data' ∧
      (length data' < length data1 ∨ cl_header_used c1 = 48%Z ∧ data' = data1)%nat
  | Some ret => ret ≠ TR_OK ∧ ∃ rest, step_ok base c1 v data1 c' v' rest
  end →
  match o with
  | None => step_ok base c v data c' v' (stream_pending c' ++ data') ∧ buffers_ok c' ∧ bytes_ok data' ∧
      (length data' < length data)%nat
  | Some TR_OK => step_ok base c v data c' v' (stream_pending c') ∧ buffers_ok c'
  | Some _ => ∃ rest, step_ok base c v data c' v' rest
  end.
Proof.
  intros E Hr Hl Hl' H. destruct o as [ret|].
  - destruct H as [Hne [rest H]]. destruct ret; try done; exists rest; by apply (step_trans _ _ _ _ c1 data1).
  - destruct H as (H & Hb & Hd & Hlen). split_and!; try done; [by apply (step_trans _ _ _ _ c1 data1)|].
    destruct Hlen as [?|[Hu ->]]; [lia|by apply Hl'].
Qed.

(** A header that needs more bytes keeps them. *)
Lemma gather_again base c v data c1 o : env_ok (base + cl_partial_size c) v → buffers_ok c →
  cl_partial c = None → rs_initialized (cl_state c) = true →
  (∃ header used, c1 = set_head c header used ∧ length header = 48%nat ∧ bytes_ok header ∧ 0 < used ∧
     take (Z.to_nat used) header = stream_pending c ++ data ∧
     tr_rpc_record_decode_header (Some (take (Z.to_nat used) header)) used (Some (cl_rx_limits c)) true true = (TR_AGAIN, o)) →
  step_ok base c v data c1 v (stream_pending c1) ∧ buffers_ok c1.
Proof.
  intros Hv Hbuf Hp Hi (header & used & -> & Hl & Hb & Hu & Hpend & Hdec).
  destruct (decode_header_again _ _ _ _ Hdec) as [-> Hu48]. pose proof (buffers_size _ Hbuf) as Hsz.
  destruct Hbuf as [_ _ _ Hpart].
  split.
  - split; try done; try (simpl; lia); [|exists []; by rewrite app_nil_r].
    unfold stream_pending at 1. cbn [set_head cl_partial cl_header_used cl_header]. by rewrite Hp, Hpend.
  - split; try done; cbn [set_head cl_partial cl_header_used cl_header]; [lia|]. rewrite Hp in *. done.
Qed.

(** One pass of the loop. *)
Lemma receive_step_spec base c v data o c' v' data' : env_ok (base + cl_partial_size c) v → 0 ≤ base →
  buffers_ok c → call_receiving c → bytes_ok data → data ≠ [] →
  receive_step received c v data = (o, c', v', data') →
  match o with
  | None => step_ok base c v data c' v' (stream_pending c' ++ data') ∧ buffers_ok c' ∧ bytes_ok data' ∧
      (length data' < length data)%nat
  | Some TR_OK => step_ok base c v data c' v' (stream_pending c') ∧ buffers_ok c'
  | Some _ => ∃ rest, step_ok base c v data c' v' rest
  end.
Proof.
  intros Hv Hbase Hbuf Hc Hb Hne H.
  assert (step_ok base c v data c v (stream_pending c ++ data)) as Hrefl.
  { apply step_refl; [done|apply Hc|apply Hbuf|by apply buffers_size]. }
  destruct (rs_terminal (cl_state c)) eqn:Hnt.
  { unfold receive_step in H. rewrite Hnt in H. injection H as <- <- <- <-. by eexists. }
  destruct (cl_partial c) as [p|] eqn:Hp.
  { apply (receive_partial_spec base _ _ _ p) in H; try done. destruct o as [ret|]; [|done].
    destruct H as [Hner H]. by destruct ret. }
  pose proof Hbuf as [[Hhl Hhb] Hu Hag Hpart]. rewrite Hp in Hpart. destruct Hpart as [Hps Hpu].
  assert (env_ok base v) as Hv0 by (by rewrite Hps, Z.add_0_r in Hv).
  assert (0 < alen data) as Hd0 by (destruct data; [done|unfold alen; simpl; lia]).
  unfold receive_step in H. rewrite Hnt, Hp in H.
  destruct (Z.eqb_spec (cl_header_used c) 0) as [E0|E0]; cbn [negb] in H.
  - assert (stream_pending c = []) as Epend by (unfold stream_pending; by rewrite Hp, E0).
    destruct (tr_rpc_record_decode_header _ _ _ _ _) as [r hd] eqn:Hdec in H. cbn [fst] in H.
    case_bool_decide as Er; [subst r|].
    + injection H as <- <- <- <-. pose proof (decode_header_again _ _ _ _ Hdec) as [-> Hlt].
      apply (gather_again _ _ _ _ _ None); try done; [apply Hc|].
      assert (take (Z.to_nat (alen data)) (put_at (cl_header c) 0 data) = data) as Et.
      { pose proof (take_put_at (cl_header c) 0 data ltac:(lia)) as E. unfold alen in E at 2.
        rewrite Hhl, Z.add_0_l in E. apply E. lia. }
      eexists _, _. split; [done|]. rewrite Et, Epend. split_and!; try done.
      * rewrite length_put_at; unfold alen in *; lia.
      * by apply bytes_ok_put_at.
    + destruct (decide (r = TR_OK)) as [->|Hr].
      * destruct (decode_header_ok_some _ _ _ Hdec) as [[hd' total] ->].
        apply (receive_record_spec base) in H; try done; [|split; try done; try (simpl; lia); by left].
        apply (step_cases _ _ _ _ c data); try done. lia.
      * destruct r, hd as [[]|]; try done; injection H as <- <- <- <-; by eexists.
  - destruct (header_gather c data Hhl Hhb Hb Hu Hne) as (Gl & Gb & Ga & Gt).
    set (amount := Z.min (TR_RPC_RECORD_HEADER_SIZE - cl_header_used c) (alen data)) in *.
    set (header := put_at (cl_header c) (cl_header_used c) (take (Z.to_nat amount) data)) in *.
    set (used := cl_header_used c + amount) in *.
    cbn [set_head cl_header cl_header_used cl_rx_limits] in H.
    set (c1 := set_head c header used) in *.
    assert (stream_pending c = take (Z.to_nat (cl_header_used c)) (cl_header c)) as Epend by (unfold stream_pending; by rewrite Hp).
    assert (stream_pending c1 = take (Z.to_nat used) header) as Epend1 by (unfold stream_pending; simpl; by rewrite Hp).
    assert (stream_pending c1 ++ drop (Z.to_nat amount) data = stream_pending c ++ data) as Eall.
    { rewrite Epend1, Gt, Epend, <- app_assoc, take_drop. done. }
    assert (0 < used ≤ 48) as Hused by (unfold used, amount, TR_RPC_RECORD_HEADER_SIZE; lia).
    assert (alen (take (Z.to_nat used) header) = used) as Hul by (apply alen_take; unfold alen; rewrite Gl; lia).
    assert (∃ rest, step_ok base c v data c1 v rest) as Herr.
    { exists (stream_pending c1 ++ drop (Z.to_nat amount) data).
      apply (step_trans _ _ _ _ c1 (drop (Z.to_nat amount) data)); [done|done|].
      apply step_refl; [done|apply Hc|done|simpl; lia]. }
    destruct (tr_rpc_record_decode_header _ _ _ _ _) as [r hd] eqn:Hdec in H.
    destruct (decide (r = TR_AGAIN)) as [->|Hna].
    { injection H as <- <- <- <-. pose proof (decode_header_again _ _ _ _ Hdec) as [-> Hlt].
      apply (gather_again _ _ _ _ _ None); try done; [apply Hc|].
      exists header, used. split_and!; try done; [lia|].
      rewrite Gt, Epend. f_equal. apply take_ge. unfold used, amount, TR_RPC_RECORD_HEADER_SIZE, alen in *. lia. }
    destruct (decide (r = TR_OK)) as [->|Hr].
    + rewrite <- Hul in Hdec at 2. destruct (decode_header_ok_some _ _ _ Hdec) as [[hd' total] ->].
      pose proof (decode_header_inv _ _ _ _ Hdec) as [H48 _]. rewrite Hul in H48.
      assert (used = 48) as Eu by lia.
      assert (take (Z.to_nat used) header = header) as Eh by (apply take_ge; lia).
      rewrite Eh in Hdec.
      apply (receive_record_spec base) in H; try done.
      2: by apply bytes_ok_drop.
      2: by destruct Hc; split.
      2: { split; try done. by right. }
      apply (step_cases _ _ _ _ c1 (drop (Z.to_nat amount) data)); try done; rewrite length_drop; unfold alen in *; lia.
    + destruct r, hd as [[]|]; try done; injection H as <- <- <- <-; exact Herr.
Qed.

Lemma rest_same_trans c1 c2 c3 : rest_same c1 c2 → rest_same c2 c3 → rest_same c1 c3.
Proof. unfold rest_same. intros. split_and!; intuition congruence. Qed.

Lemma step_compose base c v data c1 v1 data1 c2 v2 rest :
  step_ok base c v data c1 v1 (stream_pending c1 ++ data1) → step_ok base c1 v1 data1 c2 v2 rest →
  step_ok base c v data c2 v2 rest.
Proof.
  intros [Hb1 (l1 & El1 & Hl1) _ _ Hr1 _] [Hb2 (l2 & El2 & Hl2) He Hh Hr2 Hi]. split; try done.
  - by rewrite Hb2.
  - exists (l1 ++ l2). rewrite El2, El1, app_assoc. split; [done|by apply Forall_app].
  - by eapply rest_same_trans.
Qed.

(** The loop ends, whatever the bytes. *)
Lemma receive_loop_spec base fuel c v data : env_ok (base + cl_partial_size c) v → 0 ≤ base →
  buffers_ok c → call_receiving c → bytes_ok data → (length data ≤ fuel)%nat →
  ∃ ret c' v', receive_loop received fuel c v data = Some (ret, c', v') ∧
    (∃ rest, step_ok base c v data c' v' rest) ∧
    (ret = TR_OK → step_ok base c v data c' v' (stream_pending c') ∧ buffers_ok c').
Proof.
  intros Hv Hbase. revert c v data Hv. induction fuel as [|fuel IH]; intros c v data Hv Hbuf Hc Hb Hf.
  all: assert (step_ok base c v data c v (stream_pending c ++ data)) as Hrefl
    by (apply step_refl; [done|apply Hc|apply Hbuf|by apply buffers_size]).
  all: assert (data = [] → alen data = 0) as Hnil by (by intros ->).
  all: destruct (decide (data = [])) as [->|Hne];
    [exists TR_OK, c, v; rewrite app_nil_r in Hrefl; split; [done|]; split; [by eexists|done]|].
  { destruct data; [done|simpl in Hf; lia]. }
  cbn [receive_loop]. destruct (Z.eqb_spec (alen data) 0) as [E|_];
    [destruct data; [done|unfold alen in E; simpl in E; lia]|].
  destruct (receive_step received c v data) as [[[o c1] v1] data1] eqn:Hstep.
  apply (receive_step_spec base) in Hstep; try done. destruct o as [ret|].
  - exists ret, c1, v1. split; [done|]. destruct ret; try (by split).
    destruct Hstep as [Hs Hb1]. split; [by eexists|done].
  - destruct Hstep as (Hs & Hb1 & Hd1 & Hlen).
    pose proof Hs as [_ _ Hv1 _ (_ & _ & _ & _ & Er & Es & _) Hi].
    destruct (IH c1 v1 data1) as (ret & c2 & v2 & E & [rest Hr] & Hok); try done; [|lia|].
    { destruct Hc. split; congruence. }
    exists ret, c2, v2. split; [done|]. split; [exists rest; by eapply step_compose|].
    intros Eret. destruct (Hok Eret) as [? ?]. split; [by eapply step_compose|done].
Qed.

(** * Lemmas: the call between two operations *)

Record stream_ok (base : Z) c v : Prop := {
  ok_idle : cl_receiving c = false ∧ cl_sending c = false ∧ cl_callback_depth c = 0;
  ok_init : rs_initialized (cl_state c) = true;
  ok_buffers : buffers_ok c;
  ok_env : env_ok (base + cl_partial_size c) v;
  ok_base : 0 ≤ base;
  ok_notified : cl_terminal_notified c = rs_terminal (cl_state c);
  ok_log : ∃ l, Forall going_event l ∧ en_log v = l ++ if rs_terminal (cl_state c)
    then [Lg_terminal (rs_final_status (cl_state c)) TR_RPC_RECORD_ON_OWNER] else []
}.

(** The log only grows. *)
Definition extends v v' : Prop := ∃ l, en_log v' = en_log v ++ l.
Lemma extends_refl v : extends v v.
Proof. exists []. by rewrite app_nil_r. Qed.
Lemma extends_same v v1 v2 : en_log v1 = en_log v → extends v1 v2 → extends v v2.
Proof. intros E [l H]. exists l. by rewrite H, E. Qed.
Lemma extends_trans v1 v2 v3 : extends v1 v2 → extends v2 v3 → extends v1 v3.
Proof. intros [l1 E1] [l2 E2]. exists (l1 ++ l2). by rewrite E2, E1, app_assoc. Qed.

(** The notification, once nothing of the call is running. *)
Lemma notify_spec base c v c' v' : cl_receiving c = false → cl_sending c = false → cl_callback_depth c = 0 →
  cl_terminal_notified c = false → rs_initialized (cl_state c) = true → buffers_ok c → 0 ≤ base →
  env_ok (base + cl_partial_size c) v → Forall going_event (en_log v) →
  tr_record_notify_terminal c v TR_RPC_RECORD_ON_OWNER = (c', v') →
  stream_ok base c' v' ∧ cl_state c' = cl_state c ∧ stream_pending c' = stream_pending c ∧
  log_bytes (en_log v') = log_bytes (en_log v) ∧ cl_rx_limits c' = cl_rx_limits c ∧ cl_stream c' = cl_stream c ∧
  en_prefixes v' = en_prefixes v ∧ cl_config c' = cl_config c ∧ extends v v'.
Proof.
  intros Hr Hs Hd Hn Hi Hb Hbase Hv Hl H. unfold tr_record_notify_terminal in H. rewrite Hr, Hs, Hd, Hn in H.
  destruct (rs_terminal (cl_state c)) eqn:Ht; cbn [negb orb Z.eqb] in H; injection H as <- <-.
  - split_and!; try done; [|simpl; by rewrite log_bytes_app, app_nil_r|by eexists].
    split; simpl; try done.
    + by destruct Hb.
    + by apply (env_ok_same _ v).
    + exists (en_log v). split; [done|]. simpl. by rewrite Ht.
  - split_and!; try done; [|apply extends_refl]. split; try done; [by rewrite Hn|]. exists (en_log v). by rewrite Ht, app_nil_r.
Qed.

(** What an operation that takes [data] of the stream leaves. *)
Definition delivers c v (data : list Z) c' v' : Prop :=
  ∃ rest, log_bytes (en_log v') ++ rest = log_bytes (en_log v) ++ stream_pending c ++ data ∧
    (rs_terminal (cl_state c') = false → rest = stream_pending c').

Record op_ok (base : Z) c v (data : list Z) c' v' : Prop := {
  op_stream_ok : stream_ok base c' v';
  op_terminal : rs_terminal (cl_state c) = true → rs_terminal (cl_state c') = true ∧
    log_bytes (en_log v') = log_bytes (en_log v);
  op_delivers : rs_terminal (cl_state c) = false → delivers c v data c' v';
  op_same : cl_rx_limits c' = cl_rx_limits c ∧ cl_stream c' = cl_stream c ∧ cl_config c' = cl_config c;
  op_extends : extends v v'
}.

Lemma op_refl base c v v' : stream_ok base c v → env_ok (base + cl_partial_size c) v' → en_log v' = en_log v →
  op_ok base c v [] c v'.
Proof.
  intros Hok He El. split; try done.
  - destruct Hok as [? ? ? ? ? ? Hl]. split; try done. by rewrite El.
  - by rewrite El.
  - intros _. exists (stream_pending c). by rewrite El, app_nil_r.
  - exists []. by rewrite El, app_nil_r.
Qed.

Lemma op_terminal_refl base c v data : stream_ok base c v → rs_terminal (cl_state c) = true → op_ok base c v data c v.
Proof. intros Hok Ht. split; try done; [congruence|apply extends_refl]. Qed.

Lemma ok_going base c v : stream_ok base c v → rs_terminal (cl_state c) = false → Forall going_event (en_log v).
Proof. intros Hok Ht. destruct (ok_log _ _ _ Hok) as (l & Hl & ->). by rewrite Ht, app_nil_r. Qed.

Lemma buffers_clear c : length (cl_header c) = 48%nat ∧ bytes_ok (cl_header c) →
  buffers_ok (set_head (set_partial c None 0 0) (cl_header c) 0).
Proof. intros []. split; simpl; try done; lia. Qed.

Lemma abort_terminal s status : rs_initialized s = true → rs_terminal s = false →
  TR_RPC_STATUS_OK < status < TR_RPC_STATUS_COUNT →
  ∃ s', tr_rpc_record_state_abort (Some s) status = (TR_OK, Some s') ∧ rs_initialized s' = true ∧ rs_terminal s' = true.
Proof.
  intros Hi Ht Hs. unfold tr_rpc_record_state_abort. rewrite Hi, Ht.
  destruct (Z.leb_spec status TR_RPC_STATUS_OK); [lia|].
  destruct (status >=? TR_RPC_STATUS_COUNT) eqn:E; [apply Z.geb_le in E; lia|]. simpl. eauto.
Qed.

(** Clearing what is pending when the call is over, and the notification. *)
Definition end_of_call c v : tr_rpc_record_stream * stream_env B :=
  let '(c, v) := if rs_terminal (cl_state c) then tr_record_clear_partial c v else (c, v) in
  tr_record_notify_terminal (set_flags c false (cl_sending c)) v TR_RPC_RECORD_ON_OWNER.

Lemma end_of_call_spec base c v c' v' : cl_sending c = false → cl_callback_depth c = 0 →
  cl_terminal_notified c = false → rs_initialized (cl_state c) = true → 0 ≤ base → 0 ≤ cl_partial_size c →
  length (cl_header c) = 48%nat ∧ bytes_ok (cl_header c) →
  (rs_terminal (cl_state c) = false → buffers_ok c) →
  env_ok (base + cl_partial_size c) v → Forall going_event (en_log v) →
  end_of_call c v = (c', v') →
  stream_ok base c' v' ∧ cl_state c' = cl_state c ∧ log_bytes (en_log v') = log_bytes (en_log v) ∧
  cl_rx_limits c' = cl_rx_limits c ∧ cl_stream c' = cl_stream c ∧
  (rs_terminal (cl_state c) = false → stream_pending c' = stream_pending c) ∧
  cl_config c' = cl_config c ∧ extends v v'.
Proof.
  intros Hs Hd Hn Hi Hbase Hps Hh Hbuf Hv Hl H. unfold end_of_call in H.
  destruct (rs_terminal (cl_state c)) eqn:Ht.
  - destruct (tr_record_clear_partial c v) as [c1 v1] eqn:Hcl.
    apply (clear_partial_spec base) in Hcl as (-> & El & Hv1 & _); [|done..].
    apply (notify_spec base) in H as (Hok & Es & _ & Elb & Er & Est & _ & Ecf & Hext); try done.
    + split_and!; try done; [rewrite Elb, El; done|by eapply extends_same].
    + simpl. by rewrite Z.add_0_r.
    + by rewrite El.
  - apply (notify_spec base) in H as (Hok & Es & Ep & Elb & Er & Est & _ & Ecf & Hext); try done.
    by destruct (Hbuf eq_refl).
Qed.

(** The end of a receive. *)
Lemma receive_finish_spec base c v data ret c1 v1 rest : stream_ok base c v → rs_terminal (cl_state c) = false →
  step_ok base (set_flags c true false) v data c1 v1 rest →
  (ret = TR_OK → rest = stream_pending c1 ∧ buffers_ok c1) →
  ∃ c' v', receive_finish ret c1 v1 = (ret, c', v') ∧ op_ok base c v data c' v' ∧
    (ret = TR_OK ∨ rs_terminal (cl_state c') = true).
Proof.
  intros Hok Ht [Hb (l & El & Hl) He Hh (E1 & E2 & _ & E4 & _ & E6 & E7 & E8) Hi Hps] Hret.
  cbn [set_flags cl_stream cl_config cl_rx_limits cl_sending cl_callback_depth cl_terminal_notified] in *.
  destruct (ok_idle _ _ _ Hok) as (_ & _ & Hd). pose proof (ok_notified _ _ _ Hok) as Hn. rewrite Ht in Hn.
  assert (Forall going_event (en_log v1)) as Hg.
  { rewrite El. apply Forall_app. split; [by eapply ok_going|done]. }
  set (c2 := if negb (is_ok ret) && negb (rs_terminal (cl_state c1)) then
      set_state c1 (default (cl_state c1) (tr_rpc_record_state_abort (Some (cl_state c1))
        (if bool_decide (ret = TR_ERR_NOMEM) then TR_RPC_STATUS_RESOURCE_EXHAUSTED
         else TR_RPC_STATUS_INVALID_ARGUMENT)).2) else c1).
  assert (∃ s, c2 = set_state c1 s ∧ rs_initialized s = true ∧ (rs_terminal s = false → ret = TR_OK ∧ c2 = c1))
    as (s & Ec2 & Hsi & Hst).
  { unfold c2. destruct (is_ok ret) eqn:Er; [apply is_ok_true in Er as ->|];
      cbn [negb andb]; [exists (cl_state c1); by rewrite set_state_same|].
    destruct (rs_terminal (cl_state c1)) eqn:Et1; cbn [negb].
    - exists (cl_state c1). rewrite set_state_same. split_and!; try done. congruence.
    - destruct (abort_terminal (cl_state c1) (if bool_decide (ret = TR_ERR_NOMEM) then TR_RPC_STATUS_RESOURCE_EXHAUSTED
         else TR_RPC_STATUS_INVALID_ARGUMENT) Hi Et1) as (s & -> & Hsi & Hst); [by case_bool_decide|].
      exists s. split_and!; try done. congruence. }
  assert (receive_finish ret c1 v1 = let '(c, v) := end_of_call c2 v1 in (ret, c, v)) as ->.
  { unfold receive_finish, end_of_call. fold c2. by destruct (if rs_terminal (cl_state c2) then _ else _). }
  destruct (end_of_call c2 v1) as [c3 v3] eqn:Hend. exists c3, v3. split; [done|].
  assert (cl_state c2 = s) as Es2 by (by rewrite Ec2).
  apply (end_of_call_spec base) in Hend as (Hok' & Es & Elb & Er & Est & Hpend & Ecf & Hext).
  2-11: rewrite ?Ec2; simpl; try done; try congruence; try apply Hok.
  2: { intros Hnt. destruct (Hst Hnt) as [Hr0 Ec]. rewrite <- Ec2, Ec. by apply Hret. }
  split; [|destruct (rs_terminal s) eqn:Hts; [right; congruence|left; by destruct (Hst eq_refl)]].
  split; try done; [congruence| |rewrite Er, Est, Ecf, Ec2; simpl; by rewrite E1, E2, E4|eapply extends_trans; [by exists l|done]].
  intros _. exists rest. rewrite Elb. split; [done|]. rewrite Es, Es2. intros Hnt.
  destruct (Hst Hnt) as [Hr0 Ec]. rewrite Hpend by congruence. rewrite Ec. by apply Hret.
Qed.

(** The operations of the owner, on a call that is not in a callback. *)
Lemma stream_receive_ok base c v stream data : stream_ok base c v →
  match data with Some d => bytes_ok d | None => True end →
  ∃ ret c' v', stream_receive received c v stream data = Some (ret, c', v') ∧
    op_ok base c v (if tr_record_same_stream c stream then default [] data else []) c' v' ∧
    (tr_record_same_stream c stream = true → is_Some data → ret = TR_OK ∨ rs_terminal (cl_state c') = true).
Proof.
  intros Hok Hb. unfold stream_receive. destruct (tr_record_same_stream c stream); cbn [negb].
  2: { eexists _, c, v. split; [done|]. split; [|done]. by apply op_refl; [|apply Hok|]. }
  destruct data as [data|].
  2: { eexists _, c, v. split; [done|]. split; [by apply op_refl; [|apply Hok|]|]. by intros _ [? ?]. }
  cbn [default id]. destruct (ok_idle _ _ _ Hok) as (Er & Es & Ed). rewrite Er, Es. cbn [orb].
  destruct (rs_terminal (cl_state c)) eqn:Ht.
  { eexists _, c, v. split; [done|]. split; [by apply op_terminal_refl|by right]. }
  destruct (receive_loop_spec base (length data) (set_flags c true false) v data)
    as (ret & c1 & v1 & -> & [rest Hstep] & Hret); try done; try apply Hok.
  { by destruct (ok_buffers _ _ _ Hok). }
  { split; try done. apply Hok. }
  destruct (decide (ret = TR_OK)) as [->|Hne].
  - destruct (Hret eq_refl) as [Hs Hbuf].
    destruct (receive_finish_spec base c v data TR_OK c1 v1 _ Hok Ht Hs) as (c' & v' & -> & Hop & Hover); [done|].
    eexists _, c', v'. by split_and!.
  - destruct (receive_finish_spec base c v data ret c1 v1 _ Hok Ht Hstep) as (c' & v' & -> & Hop & Hover); [done|].
    eexists _, c', v'. by split_and!.
Qed.

Lemma stream_abort_ok base c v status ret c' v' : stream_ok base c v → stream_abort c v status = (ret, c', v') →
  op_ok base c v [] c' v'.
Proof.
  intros Hok H. unfold stream_abort in H. destruct (ok_idle _ _ _ Hok) as (Er & Es & Ed). rewrite Es in H.
  pose proof (abort_cases (cl_state c) status (ok_init _ _ _ Hok)) as Hab.
  destruct (tr_rpc_record_state_abort _ _) as [r o]. destruct Hab as (s & -> & Hi & [(-> & Ht & Hts)|[Hne ->]]).
  2: { destruct (is_ok r) eqn:Eok; [by apply is_ok_true in Eok|]. cbn [default id] in H.
       rewrite set_state_same in H. injection H as <- <- <-. by apply op_refl; [|apply Hok|]. }
  change (is_ok TR_OK) with true in H. cbn [default id] in H. change (cl_receiving (set_state c s)) with (cl_receiving c) in H.
  rewrite Er in H. cbn [negb] in H.
  destruct (end_of_call (set_state c s) v) as [c1 v1] eqn:Hend. pose proof Hend as Hend'.
  apply (end_of_call_spec base) in Hend as (Hok' & Ess & Elb & Erx & Est & _ & Ecf & Hext); simpl; try done; try apply Hok.
  2: by rewrite (ok_notified _ _ _ Hok).
  2: by apply buffers_size, Hok.
  2: by rewrite Hts.
  2: by eapply ok_going.
  assert ((c', v') = (c1, v1)) as [= -> ->].
  { unfold end_of_call in Hend'. change (cl_state (set_state c s)) with s in Hend'. rewrite Hts in Hend'.
    destruct (tr_record_clear_partial _ _) as [c2 v2] eqn:Hcl.
    assert (c2 = set_flags c2 false (cl_sending c2)) as Ec2.
    { unfold tr_record_clear_partial in Hcl. injection Hcl as <- _. destruct c; simpl in *. by subst. }
    rewrite <- Ec2 in Hend'. rewrite Hend' in H. by injection H as _ <- <-. }
  split; try done; [congruence|]. intros _. exists (stream_pending c). rewrite Elb, app_nil_r. split; [done|].
  rewrite Ess. simpl. congruence.
Qed.

(** An abort with a status of an error ends the call. *)
Lemma stream_abort_over base c v status ret c' v' : stream_ok base c v → TR_RPC_STATUS_OK < status < TR_RPC_STATUS_COUNT →
  stream_abort c v status = (ret, c', v') → rs_terminal (cl_state c') = true.
Proof.
  intros Hok Hs H. destruct (rs_terminal (cl_state c)) eqn:Ht.
  { by destruct (op_terminal _ _ _ _ _ _ (stream_abort_ok _ _ _ _ _ _ _ Hok H) Ht). }
  unfold stream_abort in H. destruct (ok_idle _ _ _ Hok) as (Er & Es & Ed). rewrite Es in H.
  destruct (abort_terminal _ status (ok_init _ _ _ Hok) Ht Hs) as (s & E & _ & Hts). rewrite E in H.
  change (is_ok TR_OK) with true in H. cbn [default id set_state cl_receiving] in H. rewrite Er in H. cbn [negb] in H.
  unfold tr_record_clear_partial, tr_record_notify_terminal in H. simpl in H. case_ifs_in H; simpl; done.
Qed.

Lemma stream_event_ok base c v stream event status ret c' v' : stream_ok base c v →
  stream_event c v stream event status = (ret, c', v') → op_ok base c v [] c' v'.
Proof.
  intros Hok H. unfold stream_event in H. cbn zeta in H.
  repeat lazymatch type of H with (if ?b then _ else _) = _ => destruct b end;
    first [by eapply stream_abort_ok | injection H as <- <- <-; by apply op_refl; [|apply Hok|]].
Qed.

Lemma stream_send_ok base c v h md body ret body' c' v' : stream_ok base c v → header_arg_ok h →
  stream_send c v h md body = (ret, body', c', v') → op_ok base c v [] c' v'.
Proof.
  intros Hok Hh H. destruct (ok_idle _ _ _ Hok) as (Er & Es & Ed).
  apply (stream_send_spec (base + cl_partial_size c)) in H
    as [(_ & _ & -> & El & _ & Hv)|(_ & _ & hd & c1 & v1 & _ & Hsa & Hn)]; try done; try apply Hok.
  { by apply op_refl. }
  destruct Hsa as [Hopen (next & Happ & ->) _ Hlog _ Hv1]. apply apply_initialized in Happ as [_ Hni].
  symmetry in Hn. apply (notify_spec base) in Hn as (Hok' & Ess & Ep & Elb & Erx & Est & _ & Ecf & Hext); simpl; try done; try apply Hok.
  - split; try done; [congruence| |eapply extends_trans; [by eexists|done]].
    intros _. exists (stream_pending c). rewrite app_nil_r. split; [|intros _; by rewrite Ep].
    f_equal. rewrite Elb, Hlog, log_bytes_app, (log_bytes_sent (sent_log _ _)) by apply sent_log_events.
    by rewrite app_nil_r.
  - by rewrite (ok_notified _ _ _ Hok).
  - by destruct (ok_buffers _ _ _ Hok).
  - rewrite Hlog. apply Forall_app. split; [by eapply ok_going|]. apply sent_going, sent_log_events.
Qed.

(** A run: what the owner and the transport do to a call. *)
Inductive stream_op :=
| Op_send (h : option tr_rpc_record_header) (metadata : option (list Z)) (body : option tx_body)
| Op_abort (status : Z)
| Op_receive (stream : tr_stream_handle) (data : option (list Z))
| Op_event (stream : tr_stream_handle) (event status : Z)
| Op_prefix_release (i : nat).

Definition stream_op_ok (op : stream_op) : Prop :=
  match op with
  | Op_send h _ _ => header_arg_ok h
  | Op_receive _ (Some data) => bytes_ok data
  | _ => True
  end.

Definition stream_op_step (op : stream_op) c v : option (tr_status * tr_rpc_record_stream * stream_env B) :=
  match op with
  | Op_send h metadata body => let '(ret, _, c, v) := stream_send c v h metadata body in Some (ret, c, v)
  | Op_abort status => Some (stream_abort c v status)
  | Op_receive stream data => stream_receive received c v stream data
  | Op_event stream event status => Some (stream_event c v stream event status)
  | Op_prefix_release i => Some (TR_OK, c, tr_record_prefix_release i v)
  end.

(** The bytes an operation takes from the stream. *)
Definition op_data c (op : stream_op) : list Z :=
  match op with
  | Op_receive stream data => if tr_record_same_stream c stream then default [] data else []
  | _ => []
  end.

Fixpoint stream_run (ops : list stream_op) c v : option (tr_rpc_record_stream * stream_env B) :=
  match ops with
  | [] => Some (c, v)
  | op :: ops => match stream_op_step op c v with None => None | Some (_, c, v) => stream_run ops c v end
  end.

Lemma prefix_release_log i v : en_log (tr_record_prefix_release i v) = en_log v.
Proof. unfold tr_record_prefix_release. by destruct (en_prefixes v !! i). Qed.

Lemma stream_op_step_ok base c v op : stream_ok base c v → stream_op_ok op →
  ∃ ret c' v', stream_op_step op c v = Some (ret, c', v') ∧ op_ok base c v (op_data c op) c' v'.
Proof.
  intros Hok Hop. destruct op as [h md body|status|stream data|stream event status|i]; cbn [stream_op_step op_data].
  - destruct (stream_send c v h md body) as [[[ret body'] c'] v'] eqn:E. eexists _, _, _. split; [done|].
    by eapply stream_send_ok.
  - destruct (stream_abort c v status) as [[ret c'] v'] eqn:E. eexists _, _, _. split; [done|].
    by eapply stream_abort_ok.
  - destruct (stream_receive_ok base c v stream data) as (ret & c' & v' & E & Hop' & _); eauto.
  - destruct (stream_event c v stream event status) as [[ret c'] v'] eqn:E. eexists _, _, _. split; [done|].
    by eapply stream_event_ok.
  - eexists _, _, _. split; [done|]. apply op_refl; [done| |apply prefix_release_log].
    apply prefix_release_ok, Hok.
Qed.

(** What a run has delivered of the bytes fed to it. *)
Definition fed_ok (fed : list Z) c v : Prop :=
  ∃ rest, log_bytes (en_log v) ++ rest = fed ∧ (rs_terminal (cl_state c) = false → rest = stream_pending c).

Lemma fed_step base fed c v data c' v' : fed_ok fed c v → op_ok base c v data c' v' → fed_ok (fed ++ data) c' v'.
Proof.
  intros (rest & <- & Hrest) Hop. destruct (rs_terminal (cl_state c)) eqn:Ht.
  - destruct (op_terminal _ _ _ _ _ _ Hop Ht) as [Ht' El]. exists (rest ++ data). rewrite El, app_assoc.
    split; [done|congruence].
  - destruct (op_delivers _ _ _ _ _ _ Hop Ht) as (rest' & El & Hrest'). exists rest'. split; [|done].
    rewrite El, (Hrest eq_refl), app_assoc. done.
Qed.

Definition fed_bytes c (ops : list stream_op) : list Z := concat (map (op_data c) ops).

Lemma op_data_same c c' op : cl_stream c' = cl_stream c → op_data c' op = op_data c op.
Proof. intros E. destruct op; simpl; unfold tr_record_same_stream; by rewrite ?E. Qed.

Lemma stream_run_ok base fed c v ops : stream_ok base c v → Forall stream_op_ok ops → fed_ok fed c v →
  ∃ c' v', stream_run ops c v = Some (c', v') ∧ stream_ok base c' v' ∧ fed_ok (fed ++ fed_bytes c ops) c' v' ∧
    cl_rx_limits c' = cl_rx_limits c.
Proof.
  revert fed c v. induction ops as [|op ops IH]; intros fed c v Hok Hops Hfed; simpl.
  - exists c, v. unfold fed_bytes. simpl. by rewrite app_nil_r.
  - apply Forall_cons in Hops as [Hop Hops].
    destruct (stream_op_step_ok base c v op Hok Hop) as (ret & c1 & v1 & -> & Hstep).
    destruct (op_same _ _ _ _ _ _ Hstep) as (Erx & Est & _).
    destruct (IH (fed ++ op_data c op) c1 v1) as (c2 & v2 & E & Hok2 & Hfed2 & Erx2); [apply Hstep|done|by eapply fed_step|].
    exists c2, v2. split_and!; try done; [|congruence].
    unfold fed_bytes in *. simpl. rewrite app_assoc.
    assert (map (op_data c1) ops = map (op_data c) ops) as <-; [|done].
    apply map_ext. intros o. by apply op_data_same.
Qed.

Lemma create_ok base v stream config rcv term limit out owner diag c v' : env_ok base v → en_log v = [] →
  tr_rpc_record_stream_create_on_owner stream config rcv term limit out owner diag v = (TR_OK, Some c, v') →
  stream_ok (base + sizeof_stream) c v' ∧ fed_ok [] c v' ∧ en_prefixes v' = en_prefixes v.
Proof.
  intros Hv Hlog H. unfold tr_rpc_record_stream_create_on_owner in H. destruct config as [config|]; [|done].
  destruct out as [out|]; [|done]. cbn zeta in H. do 4 (case_if_in H; [done|]).
  destruct (tr_rpc_record_state_init _ _ _) as [[] [s|]] eqn:Es; try done.
  assert (rs_initialized s = true ∧ rs_terminal s = false) as [Hi Ht].
  { unfold tr_rpc_record_state_init in Es. case_if_in Es; [done|]. by injection Es as <-. }
  destruct (negb (is_ok diag.1)) eqn:Ed; [by injection H as E1 E2|]. case_if_in H; [done|].
  destruct (b_reserve _ _) as [r b] eqn:Eres.
  apply (env_reserve base) in Eres as [[-> Hv1]|[Hr Hv1]]; [| |done|done].
  2: { destruct r; cbn in H; try done. by destruct Hr. }
  change (is_ok TR_OK) with true in H. cbn [negb] in H.
  destruct (next_malloc _) as [ok v2] eqn:Emal. apply next_malloc_same in Emal as (F1 & F2 & F3).
  destruct ok; cbn [negb] in H; [|done]. injection H as <- <-.
  apply (env_ok_same _ _ v2) in Hv1; [|done|done]. split_and!; [|exists []; split; [by rewrite F3; simpl; rewrite Hlog|done]|by rewrite F2].
  split; simpl; try done.
  - split; simpl; try done. split; [done|exact (bytes_ok_replicate 48)].
  - by rewrite Z.add_0_r.
  - pose proof (eo_base _ _ Hv). unfold sizeof_stream. lia.
  - exists []. rewrite F3; simpl; rewrite Hlog, Ht. done.
Qed.

(** What creating a call answers, and what it leaves when it fails. *)
Lemma stream_create_cases base v stream config rcv term limit out owner diag ret o v' : env_ok base v →
  tr_rpc_record_stream_create_on_owner stream config rcv term limit out owner diag v = (ret, o, v') →
  en_log v' = en_log v ∧
  ((ret = TR_OK ∧ ∃ c, o = Some c ∧ config = Some (cl_config c) ∧ cl_stream c = stream) ∨
   (ret ≠ TR_OK ∧ o = None ∧ env_ok base v')).
Proof.
  intros Hv H. unfold tr_rpc_record_stream_create_on_owner in H.
  assert (∀ r, r ≠ TR_OK → (r, None, v) = (ret, o, v') → en_log v' = en_log v ∧
    ((ret = TR_OK ∧ ∃ c, o = Some c ∧ config = Some (cl_config c) ∧ cl_stream c = stream) ∨
     (ret ≠ TR_OK ∧ o = None ∧ env_ok base v'))) as Hno.
  { intros r Hr [= <- <- <-]. split; [done|by right]. }
  destruct config as [config|]; [|(eapply Hno; [|exact H]; done)]. destruct out as [out|]; [|by (eapply Hno; [|exact H])].
  cbn zeta in H. do 4 (case_if_in H; [(eapply Hno; [|exact H]; done)|]).
  destruct (tr_rpc_record_state_init _ _ _) as [r s] eqn:Es.
  destruct (decide (r = TR_OK)) as [->|Hr]; [|destruct r; try done; (eapply Hno; [|exact H]; done)].
  destruct s as [s|].
  2: { unfold tr_rpc_record_state_init in Es. case_if_in Es; done. }
  destruct (negb (is_ok diag.1)) eqn:Ed; [eapply Hno; [|exact H]; intros E; by rewrite E in Ed|].
  case_if_in H; [(eapply Hno; [|exact H]; done)|]. destruct (b_reserve _ _) as [r b] eqn:Eres.
  apply (env_reserve base) in Eres as [[-> Hv1]|[Hr Hv1]]; [| |done|done].
  2: { assert (is_ok r = false) as Er by (destruct Hr as [?| ->]; [by destruct r|done]).
       rewrite Er in H. cbn [negb] in H. injection H as <- <- <-. split; [done|right]. split_and!; try done. by intros ->. }
  change (is_ok TR_OK) with true in H. cbn [negb] in H.
  destruct (next_malloc _) as [ok v2] eqn:Emal. apply next_malloc_same in Emal as (F1 & F2 & F3).
  apply (env_ok_same _ _ v2) in Hv1; [|done|done]. destruct ok; cbn [negb] in H; injection H as <- <- <-.
  - split; [done|]. left. eauto.
  - split; [done|]. right. split_and!; [done|done|]. apply env_release_ok; [done|done|apply Hv].
Qed.

(** A call whose owner has stopped: it is cancelled if it is open, and freed. *)
Lemma reap_ok base c v : stream_ok (base + sizeof_stream) c v → 0 ≤ base →
  ∃ v', tr_rpc_record_stream_reap_stopped true (Some c) TR_OK TR_OK v = (TR_OK, None, v') ∧ env_ok base v' ∧
    en_log v' = en_log v ++ if rs_opened (cl_state c) && negb (rs_terminal (cl_state c))
      then [Lg_terminal TR_RPC_STATUS_CANCELLED TR_RPC_RECORD_OWNER_STOPPED] else [].
Proof.
  intros Hok Hbase. unfold tr_rpc_record_stream_reap_stopped. cbn [negb]. change (is_ok TR_OK) with true. cbn [negb].
  destruct (ok_idle _ _ _ Hok) as (-> & -> & Ed). rewrite Ed. cbn [orb negb Z.eqb].
  assert (∀ c1 v1, cl_partial_size c1 = cl_partial_size c → env_ok (base + sizeof_stream + cl_partial_size c) v1 →
    ∃ v', (let '(ret, v) := tr_record_destroy c1 v1 in (ret, (None : option tr_rpc_record_stream), v)) = (TR_OK, None, v') ∧
      env_ok base v' ∧ en_log v' = en_log v1) as Hend.
  { intros c1 v1 E1 Hv1. unfold tr_record_destroy. destruct (tr_record_clear_partial c1 v1) as [c2 v2] eqn:Hcl.
    apply (clear_partial_spec (base + sizeof_stream)) in Hcl as (_ & El & Hv2 & _);
      [|by rewrite E1|rewrite E1; by apply buffers_size, Hok|unfold sizeof_stream; lia].
    destruct (b_release_spec (en_budget v2) sizeof_stream) as (b & E & Hb & Hu); [apply Hv2| |].
    { pose proof (prefixes_nonneg _ _ Hv2). pose proof (eo_used _ _ Hv2). unfold sizeof_stream in *. lia. }
    rewrite E. eexists. split; [done|]. split; [|exact El]. destruct Hv2 as [? ? ? Hu2]. split; simpl; try done. unfold sizeof_stream in *. lia. }
  pose proof (ok_notified _ _ _ Hok) as Hn. unfold tr_record_notify_terminal.
  destruct (rs_opened (cl_state c) && negb (rs_terminal (cl_state c))) eqn:Eop.
  - apply andb_true_iff in Eop as [_ Ht]. apply negb_true_iff in Ht. rewrite Ht in Hn.
    pose proof (ok_init _ _ _ Hok) as Hi. unfold tr_rpc_record_state_abort. rewrite Hi, Ht. cbn [negb orb].
    change ((TR_RPC_STATUS_CANCELLED <=? TR_RPC_STATUS_OK) || (TR_RPC_STATUS_CANCELLED >=? TR_RPC_STATUS_COUNT)) with false.
    cbn [orb]. simpl. destruct (ok_idle _ _ _ Hok) as (Er & Es & _). rewrite Hn, Er, Es, Ed. cbn [orb negb Z.eqb].
    match goal with |- ∃ v', (let '(ret, v) := tr_record_destroy ?c1 ?v1 in _) = _ ∧ _ =>
      destruct (Hend c1 v1) as (v' & E & Hv' & El); [done|apply (env_ok_same _ v); [done|done|apply Hok]|] end.
    exists v'. split; [exact E|]. split; [done|]. rewrite El. done.
  - rewrite Hn. destruct (rs_terminal (cl_state c)); cbn [orb negb].
    + destruct (Hend c v eq_refl (ok_env _ _ _ Hok)) as (v' & E & Hv' & El). exists v'. split; [exact E|]. by rewrite app_nil_r.
    + destruct (Hend c v eq_refl (ok_env _ _ _ Hok)) as (v' & E & Hv' & El). exists v'. split; [exact E|]. by rewrite app_nil_r.
Qed.

(** What is kept of the bytes is a part of a record, not all of it. *)
Lemma stream_pending_incomplete c : buffers_ok c → stream_pending c = [] ∨
  tr_rpc_record_decode (Some (stream_pending c)) (alen (stream_pending c)) (Some (cl_rx_limits c)) true true =
    (TR_AGAIN, None).
Proof.
  intros [[Hl _] Hu Hag Hp]. unfold stream_pending. destruct (cl_partial c) as [p|].
  - right. destruct Hp as (_ & _ & Hpl & Hused & _ & h & Hdec). rewrite alen_take by lia.
    unfold tr_rpc_record_decode. cbn [negb orb]. rewrite Hdec. destruct (Z.ltb_spec (cl_partial_used c) (cl_partial_size c)); [done|lia].
  - destruct (decide (cl_header_used c = 0)) as [->|Hne]; [by left|right].
    rewrite alen_take by (unfold alen; lia). unfold tr_rpc_record_decode. cbn [negb orb]. by rewrite Hag by lia.
Qed.

(** Destroying a call that is over, or never began. *)
Lemma destroy_ok base c v : stream_ok (base + sizeof_stream) c v → 0 ≤ base →
  rs_opened (cl_state c) && negb (rs_terminal (cl_state c)) = false →
  ∃ v', tr_rpc_record_stream_destroy_on_owner true (Some c) true v = (TR_OK, None, v') ∧ env_ok base v' ∧
    en_log v' = en_log v ∧ en_prefixes v' = en_prefixes v.
Proof.
  intros Hok Hbase Hend. unfold tr_rpc_record_stream_destroy_on_owner. cbn [negb].
  destruct (ok_idle _ _ _ Hok) as (-> & -> & ->). rewrite Hend. cbn [orb negb Z.eqb].
  unfold tr_record_destroy. destruct (tr_record_clear_partial c v) as [c1 v1] eqn:Hcl.
  apply (clear_partial_spec (base + sizeof_stream)) in Hcl as (_ & El & Hv1 & Ep);
    [|apply Hok|by apply buffers_size, Hok|apply Hok].
  pose proof (prefixes_nonneg _ _ Hv1). pose proof (eo_used _ _ Hv1) as Hu. unfold sizeof_stream in *.
  destruct (b_release_spec (en_budget v1) 272) as (b & -> & Hb & Hub); [apply Hv1|lia|].
  eexists. split; [done|]. split_and!; try done. destruct Hv1. split; simpl; try done. lia.
Qed.

(** C6: Whatever the transport feeds a call, in whatever pieces, with whatever sends, aborts
    and events in between, every operation returns and the records handed to the
    application are, in order and whole, the records the bytes begin with; while the call
    goes on the rest is less than a record. *)
Theorem stream_delivers_records base v stream config rcv term limit out owner diag c v1 ops
    (Hv : env_ok base v) (Hlog : en_log v = [])
    (Hcreate : tr_rpc_record_stream_create_on_owner stream config rcv term limit out owner diag v = (TR_OK, Some c, v1))
    (Hops : Forall stream_op_ok ops) :
  ∃ c' v' rest, stream_run ops c v1 = Some (c', v') ∧
    log_bytes (en_log v') ++ rest = fed_bytes c ops ∧
    (∀ h m b, Lg_received h m b ∈ en_log v' → alen m = rh_metadata_size h ∧ alen b = rh_encoded_size h) ∧
    (rs_terminal (cl_state c') = false → rest = [] ∨
       tr_rpc_record_decode (Some rest) (alen rest) (Some (cl_rx_limits c)) true true = (TR_AGAIN, None)).
Proof.
  apply (create_ok base) in Hcreate as (Hok & Hfed & _); [|done|done].
  destruct (stream_run_ok _ _ _ _ ops Hok Hops Hfed) as (c' & v' & E & Hok' & (rest & Hb & Hrest) & Erx).
  exists c', v', rest. split_and!; [done|done| |].
  - intros h m b Hin. destruct (ok_log _ _ _ Hok') as (l & Hl & El). rewrite El in Hin.
    apply elem_of_app in Hin as [Hin|Hin].
    + exact (proj1 (list.Forall_forall _ _) Hl _ Hin).
    + destruct (rs_terminal _); by repeat (apply elem_of_cons in Hin as [?|Hin] || apply elem_of_nil in Hin).
  - intros Hnt. rewrite (Hrest Hnt), <- Erx. apply stream_pending_incomplete, Hok'.
Qed.

(** C9: At every moment between operations the budget holds exactly what the creator held,
    the call, its partial record and the prefixes the transport has; the terminal is
    notified exactly when the call is over, once and after everything else; and a call that
    is over, or never opened, can be destroyed and gives back all but the prefixes. *)
Theorem stream_accounting base v stream config rcv term limit out owner diag c v1 ops
    (Hv : env_ok base v) (Hlog : en_log v = [])
    (Hcreate : tr_rpc_record_stream_create_on_owner stream config rcv term limit out owner diag v = (TR_OK, Some c, v1))
    (Hops : Forall stream_op_ok ops) :
  ∃ c' v' l, stream_run ops c v1 = Some (c', v') ∧
    b_used (en_budget v') = base + sizeof_stream + cl_partial_size c' + zsum id (en_prefixes v') ∧
    Forall going_event l ∧
    en_log v' = l ++ (if rs_terminal (cl_state c')
      then [Lg_terminal (rs_final_status (cl_state c')) TR_RPC_RECORD_ON_OWNER] else []) ∧
    (rs_opened (cl_state c') && negb (rs_terminal (cl_state c')) = false → ∃ v2,
       tr_rpc_record_stream_destroy_on_owner true (Some c') true v' = (TR_OK, None, v2) ∧
       b_used (en_budget v2) = base + zsum id (en_prefixes v')).
Proof.
  apply (create_ok base) in Hcreate as (Hok & Hfed & _); [|done|done].
  destruct (stream_run_ok _ _ _ _ ops Hok Hops Hfed) as (c' & v' & E & Hok' & _ & _).
  destruct (ok_log _ _ _ Hok') as (l & Hl & El). exists c', v', l. split_and!; try done.
  - apply (eo_used _ _ (ok_env _ _ _ Hok')).
  - intros Hend. destruct (destroy_ok base c' v') as (v2 & Hd & Hv2 & _ & Ep); [done|apply Hv|done|].
    exists v2. split; [done|]. by rewrite (eo_used _ _ Hv2), Ep.
Qed.

(** A send either takes the body, commits the call state of the record it sent, passes
    the encoded header, the metadata and the body to the stream and charges exactly the
    prefix, or fails and changes nothing but the answers it consumed. *)
Theorem stream_send_all_or_nothing base c v h md body owner ret body' call' v'
    (Hok : stream_ok base c v) (Hh : header_arg_ok h)
    (Hsend : tr_rpc_record_stream_send_on_owner (Some c) owner v h md body = (ret, body', call', v')) :
  (ret ≠ TR_OK ∧ body' = body ∧ call' = Some c ∧ en_log v' = en_log v ∧ en_prefixes v' = en_prefixes v ∧
     b_used (en_budget v') = b_used (en_budget v)) ∨
  (ret = TR_OK ∧ body' = None ∧ ∃ hd c' l, h = Some hd ∧ call' = Some c' ∧
     tr_rpc_record_state_apply (Some (cl_state c)) (cf_send_direction (cl_config c)) (Some hd) =
       (TR_OK, Some (cl_state c')) ∧
     en_log v' = en_log v ++ sent_log
       (record_bytes hd ++ take (Z.to_nat (rh_metadata_size hd)) (default [] md)) body ++ l ∧
     l = (if rs_terminal (cl_state c')
       then [Lg_terminal (rs_final_status (cl_state c')) TR_RPC_RECORD_ON_OWNER] else []) ∧
     b_used (en_budget v') = b_used (en_budget v) + sizeof_prefix + TR_RPC_RECORD_HEADER_SIZE + rh_metadata_size hd).
Proof.
  unfold tr_rpc_record_stream_send_on_owner in Hsend. destruct owner; cbn [negb] in Hsend;
    [|injection Hsend as <- <- <- <-; by left].
  destruct (stream_send c v h md body) as [[[r b] c1] v1] eqn:E. injection Hsend as <- <- <- <-.
  destruct (ok_idle _ _ _ Hok) as (Er & Es & Ed). pose proof (ok_env _ _ _ Hok) as Hv.
  apply (stream_send_spec _ _ _ _ _ _ _ _ _ _ Hv Es Hh) in E
    as [(Hr & -> & -> & El & Ep & Hv1)|(-> & -> & hd & c2 & v2 & -> & Hsa & Hn)].
  - left. split_and!; try done. by rewrite (eo_used _ _ Hv1), (eo_used _ _ Hv), Ep.
  - right. split_and!; [done|done|]. destruct Hsa as [Hopen (next & Happ & ->) _ Hlog Hpre Hv2].
    pose proof (ok_notified _ _ _ Hok) as Hnn. rewrite Hopen in Hnn.
    assert (b_used (en_budget v2) = b_used (en_budget v) + sizeof_prefix + TR_RPC_RECORD_HEADER_SIZE + rh_metadata_size hd) as Hub.
    { rewrite (eo_used _ _ Hv2), (eo_used _ _ Hv), Hpre, zsum_app. simpl. unfold id. lia. }
    unfold tr_record_notify_terminal in Hn. simpl in Hn. rewrite Hnn, Er, Es, Ed in Hn.
    destruct (rs_terminal next) eqn:Ht; cbn in Hn; injection Hn as -> ->; eexists hd, _, _;
      (split_and!; [done|done|exact Happ| |reflexivity|done]); simpl; rewrite Ht, Hlog.
    + by rewrite <- app_assoc.
    + by rewrite app_nil_r.
Qed.

End Lemmas.

(** * Witnesses *)

(** The server's side of a call; it answers every record with initial metadata. *)
Definition demo_config : tr_rpc_record_stream_config :=
  mk_config TR_RPC_RECORD_RESPONSE_DIRECTION (mk_method 7 9 1 1 1 1 0 100 100).
Definition demo_handle : tr_stream_handle := mk_handle 1 2 3.
Definition demo_budget : budget_ref := mk_budget_ref (tr_memory_budget_init 4096) None.
Definition demo_env : stream_env budget_ref := mk_env demo_budget [] [] [] [].
Definition demo_answer (log : list stream_log) (h : tr_rpc_record_header) (m b : list Z) : reaction :=
  App_send (Some demo_initial) None None (λ _, App_return).
Definition demo_created : tr_status * option tr_rpc_record_stream * stream_env budget_ref :=
  tr_rpc_record_stream_create_on_owner demo_handle (Some demo_config) true true 4096 (Some false) true (TR_OK, 0) demo_env.
Definition demo_call : tr_rpc_record_stream :=
  match demo_created.1.2 with Some c => c | None => mk_stream demo_handle demo_config demo_state shape_limits shape_limits [] 0 None 0 0 false false 0 false end.

(** An opening record with metadata and a message, cut into three, then an abort. *)
Definition demo_fed : list Z := record_bytes (mk_rh TR_RPC_RECORD_OPEN 7 9 0 0 0 0 4 0 1000) ++ [1; 0; 0; 0x6b] ++
  record_bytes demo_message ++ [65; 66; 67].
Definition demo_pieces : list stream_op :=
  [Op_receive demo_handle (Some (take 20 demo_fed)); Op_receive demo_handle (Some (take 60 (drop 20 demo_fed)));
   Op_receive demo_handle (Some (drop 80 demo_fed)); Op_prefix_release 0; Op_abort TR_RPC_STATUS_CANCELLED].

Lemma demo_answer_ok log h m b : app_ok (demo_answer log h m b).
Proof. split; [|done]. split; vm_compute; split; congruence. Qed.

Lemma demo_env_ok : env_ok 0 demo_env.
Proof. split; [|constructor|done|done]. split; [split; vm_compute; [split|]; congruence|done]. Qed.

Lemma demo_created_ok : demo_created = (TR_OK, Some demo_call, demo_created.2).
Proof. vm_compute. reflexivity. Qed.

Lemma demo_pieces_ok : Forall stream_op_ok demo_pieces.
Proof.
  repeat (apply Forall_cons; split); try done; try apply Forall_nil_2; cbn [stream_op_ok];
    apply list.Forall_forall; intros x Hx; revert x Hx; apply list.Forall_forall; vm_compute;
    repeat (apply Forall_cons; split); try apply Forall_nil_2; split; congruence.
Qed.

Definition demo_end : tr_rpc_record_stream * stream_env budget_ref :=
  default (demo_call, demo_env) (stream_run demo_answer demo_pieces demo_call demo_created.2).

(** The two records are delivered, and the abort is what ends the call. *)
Lemma stream_delivers_records_witness :
  ∃ rest, log_bytes (en_log demo_end.2) ++ rest = demo_fed ∧
    Lg_received demo_message [] [65; 66; 67] ∈ en_log demo_end.2.
Proof.
  destruct (stream_delivers_records demo_answer demo_answer_ok 0 demo_env demo_handle (Some demo_config) true true
    4096 (Some false) true (TR_OK, 0) demo_call demo_created.2 demo_pieces demo_env_ok eq_refl demo_created_ok
    demo_pieces_ok) as (c' & v' & rest & E & Hb & _).
  assert (demo_end = (c', v')) as Ee by (unfold demo_end; by rewrite E).
  exists rest. split.
  - rewrite Ee. cbn [snd]. rewrite Hb. vm_compute. reflexivity.
  - clear. vm_compute. repeat constructor.
Defined.

Lemma stream_accounting_witness :
  ∃ v2, tr_rpc_record_stream_destroy_on_owner true (Some demo_end.1) true demo_end.2 = (TR_OK, None, v2) ∧
    b_used (en_budget v2) = 0 + zsum id (en_prefixes demo_end.2).
Proof.
  destruct (stream_accounting demo_answer demo_answer_ok 0 demo_env demo_handle (Some demo_config) true true
    4096 (Some false) true (TR_OK, 0) demo_call demo_created.2 demo_pieces demo_env_ok eq_refl demo_created_ok
    demo_pieces_ok) as (c' & v' & l & E & _ & _ & _ & Hd).
  assert (demo_end = (c', v')) as Ee by (unfold demo_end; by rewrite E). rewrite Ee. apply Hd.
  change c' with (c', v').1. rewrite <- Ee. vm_compute. reflexivity.
Defined.

(** Sending the final status: the prefix is charged, the state committed, the end notified. *)
Definition demo_idle : tr_rpc_record_stream * stream_env budget_ref :=
  default (demo_call, demo_env) (stream_run demo_answer (take 3 demo_pieces) demo_call demo_created.2).

Lemma demo_message_ok : header_arg_ok (Some demo_message).
Proof. split; vm_compute; split; congruence. Qed.

Lemma stream_send_all_or_nothing_witness :
  ∃ c' v', tr_rpc_record_stream_send_on_owner (Some demo_idle.1) true demo_idle.2 (Some demo_message) None
      (Some (mk_body (Some [1; 2; 3]) 8 3)) = (TR_OK, None, Some c', v') ∧
    b_used (en_budget v') = b_used (en_budget demo_idle.2) + 64 + 48 + 0.
Proof.
  assert (stream_ok (0 + sizeof_stream) demo_idle.1 demo_idle.2) as Hok.
  { destruct (create_ok 0 demo_env demo_handle (Some demo_config) true true 4096 (Some false) true (TR_OK, 0)
      demo_call demo_created.2 demo_env_ok eq_refl demo_created_ok) as (Hok & Hfed & _).
    destruct (stream_run_ok demo_answer demo_answer_ok _ _ _ _ (take 3 demo_pieces) Hok
      (Forall_take _ _ _ demo_pieces_ok) Hfed) as (c' & v' & E & Hok' & _).
    unfold demo_idle. rewrite E. exact Hok'. }
  destruct (tr_rpc_record_stream_send_on_owner (Some demo_idle.1) true demo_idle.2 (Some demo_message) None
      (Some (mk_body (Some [1; 2; 3]) 8 3))) as [[[ret body'] call'] v'] eqn:E.
  assert (ret = TR_OK) as Hret by (apply (f_equal (λ x, x.1.1.1)) in E; vm_compute in E; by rewrite E).
  destruct (stream_send_all_or_nothing _ _ _ _ _ _ _ _ _ _ _ Hok demo_message_ok E)
    as [[Hne _]|(_ & -> & hd & c' & l & [= <-] & -> & _ & _ & _ & Hu)]; [congruence|].
  subst ret. exists c', v'. split; [reflexivity|exact Hu].
Defined.
