(* ===== verification/RecordRouter.v ===== *)
(** Routing the streams of a connection to the methods of a service:
    [src/rpc/rpc_record_router.{h,c}].

    A router has a table of methods, sorted once and searched by halving, and a slot per
    stream it admits.  A slot first gathers the 48 bytes of the call's opening record; they
    name the method, and a call (RecordStream) is bound to the stream, which gets these bytes
    and all that follow.  A slot is over once, and is kept until it is retired, so that late
    bytes do not open another call; its handle carries a generation that is used once.

    [rt_log] and [rr_past] are not fields of the code: they keep what the application has been
    told of the calls that are in slots and of those that were retired.  The application's
    reaction to a record sends on and aborts the route it is told of; what it does to other
    routes is an operation of its own.

    Theorems: the table answers what a search of the caller's array would; whatever happens,
    the calls told to the application are complete, ended once and last, and the budget is
    charged for exactly the router, its calls and the prefixes; and a route delivers the
    records of the bytes of its stream to the method that their first header names. *)
From stdpp Require Import sorting.
From S2P Require Import Prelude Status ChannelTypes Endian MemoryBudget RpcRecord RecordMetadata RecordStream.

(** * Data *)

(** [received] is the function, NULL when [None]. *)
Record tr_rpc_record_method := mk_record_method {
  rm_descriptor : tr_rpc_method_desc;
  rm_received : option Z;
  rm_arg : Z
}.
#[global] Instance record_method_inhabited : Inhabited tr_rpc_record_method :=
  populate (mk_record_method (mk_method 0 0 0 0 0 0 0 0 0) None 0).

(** A handle without the pointer to its router, which the functions that take one are given
    before it. *)
Record tr_rpc_route_handle := mk_route_handle { ro_generation : Z; ro_slot : Z }.

(** [struct tr_rpc_route]; [method] is an index of the router's table. *)
Record tr_rpc_route := mk_rpc_route {
  rt_stream : tr_stream_handle;
  rt_binding : option tr_rpc_record_stream;
  rt_method : option nat;
  rt_generation : Z;
  rt_index : Z;
  rt_active : bool;
  rt_terminal : bool;
  rt_head : list Z;
  rt_used : Z;
  rt_log : list stream_log
}.
#[global] Instance rpc_route_inhabited : Inhabited tr_rpc_route :=
  populate (mk_rpc_route (mk_handle 0 0 0) None None 0 0 false false [] 0 []).

(** [struct tr_rpc_record_router]; the channel is its identity, the budget its limit. *)
Record tr_rpc_record_router := mk_record_router {
  rr_channel : Z;
  rr_budget_limit : Z;
  rr_methods : list tr_rpc_record_method;
  rr_routes : list tr_rpc_route;
  rr_method_count : Z;
  rr_bytes : Z;
  rr_capacity : Z;
  rr_generation : Z;
  rr_depth : Z;
  rr_retiring : bool;
  rr_past : list (Z * list stream_log)
}.

(** [sizeof] on LP64. *)
Definition sizeof_router : Z := 96.
Definition sizeof_route : Z := 120.
Definition sizeof_record_method : Z := 56.

(** [enum tr_rpc_status], the one that RpcRecord does not use. *)
Definition TR_RPC_STATUS_UNIMPLEMENTED : Z := 12.

(** What a router's [receive] limits a head to. *)
Definition head_limits : tr_rpc_record_limits :=
  mk_rl 0 0 TR_RPC_METADATA_MAX_BYTES TR_RPC_RECORD_ACCEPT_NONE.

(** * Fields *)

Definition set_routes (r : tr_rpc_record_router) (l : list tr_rpc_route) : tr_rpc_record_router :=
  mk_record_router (rr_channel r) (rr_budget_limit r) (rr_methods r) l (rr_method_count r) (rr_bytes r)
    (rr_capacity r) (rr_generation r) (rr_depth r) (rr_retiring r) (rr_past r).
Definition set_generation (r : tr_rpc_record_router) (g : Z) : tr_rpc_record_router :=
  mk_record_router (rr_channel r) (rr_budget_limit r) (rr_methods r) (rr_routes r) (rr_method_count r)
    (rr_bytes r) (rr_capacity r) g (rr_depth r) (rr_retiring r) (rr_past r).
Definition set_router_depth (r : tr_rpc_record_router) (d : Z) : tr_rpc_record_router :=
  mk_record_router (rr_channel r) (rr_budget_limit r) (rr_methods r) (rr_routes r) (rr_method_count r)
    (rr_bytes r) (rr_capacity r) (rr_generation r) d (rr_retiring r) (rr_past r).
Definition set_retiring (r : tr_rpc_record_router) : tr_rpc_record_router :=
  mk_record_router (rr_channel r) (rr_budget_limit r) (rr_methods r) (rr_routes r) (rr_method_count r)
    (rr_bytes r) (rr_capacity r) (rr_generation r) (rr_depth r) true (rr_past r).
Definition add_past (r : tr_rpc_record_router) (rt : tr_rpc_route) : tr_rpc_record_router :=
  mk_record_router (rr_channel r) (rr_budget_limit r) (rr_methods r) (rr_routes r) (rr_method_count r)
    (rr_bytes r) (rr_capacity r) (rr_generation r) (rr_depth r) (rr_retiring r)
    (rr_past r ++ [(rt_generation rt, rt_log rt)]).

Definition route_over (rt : tr_rpc_route) (active terminal : bool) (used : Z) : tr_rpc_route :=
  mk_rpc_route (rt_stream rt) (rt_binding rt) (rt_method rt) (rt_generation rt) (rt_index rt) active
    terminal (rt_head rt) used (rt_log rt).
Definition route_head (rt : tr_rpc_route) (head : list Z) (used : Z) : tr_rpc_route :=
  mk_rpc_route (rt_stream rt) (rt_binding rt) (rt_method rt) (rt_generation rt) (rt_index rt)
    (rt_active rt) (rt_terminal rt) head used (rt_log rt).
Definition route_bind (rt : tr_rpc_route) (binding : option tr_rpc_record_stream) (method : option nat)
    : tr_rpc_route :=
  mk_rpc_route (rt_stream rt) binding method (rt_generation rt) (rt_index rt)
    (rt_active rt) (rt_terminal rt) (rt_head rt) (rt_used rt) (rt_log rt).
Definition route_tell (rt : tr_rpc_route) (e : stream_log) : tr_rpc_route :=
  mk_rpc_route (rt_stream rt) (rt_binding rt) (rt_method rt) (rt_generation rt) (rt_index rt)
    (rt_active rt) (rt_terminal rt) (rt_head rt) (rt_used rt) (rt_log rt ++ [e]).
Definition route_admit (rt : tr_rpc_route) (stream : tr_stream_handle) (generation : Z) : tr_rpc_route :=
  mk_rpc_route stream (rt_binding rt) (rt_method rt) generation (rt_index rt)
    true (rt_terminal rt) (rt_head rt) (rt_used rt) [].

(** Entering and leaving an operation that calls out. *)
Definition router_enter (r : tr_rpc_record_router) : tr_rpc_record_router :=
  set_router_depth r (u32 (rr_depth r + 1)).
Definition router_leave (r : tr_rpc_record_router) : tr_rpc_record_router :=
  set_router_depth r (u32 (rr_depth r - 1)).
Definition put_route (r : tr_rpc_record_router) (rt : tr_rpc_route) : tr_rpc_record_router :=
  set_routes r (rr_routes r).[rt_index rt <- rt].

(** * The table of methods *)

Definition tr_method_compare (a b : tr_rpc_method_desc) : Z :=
  if negb (md_service_id a =? md_service_id b) then (if md_service_id a <? md_service_id b then -1 else 1)
  else if md_method_id a <? md_method_id b then -1
  else if negb (md_method_id a =? md_method_id b) then 1 else 0.

(** The key of a search: a descriptor with these two fields alone. *)
Definition method_key (service method : Z) : tr_rpc_method_desc := mk_method service method 0 0 0 0 0 0 0.

(** [while (lo < hi)]: the interval is at least halved, its width is fuel enough. *)
Fixpoint method_search (methods : list tr_rpc_record_method) (key : tr_rpc_method_desc)
    (fuel lo hi : nat) : option nat :=
  match fuel with
  | O => None
  | S fuel =>
      if (lo <? hi)%nat then
        let mid := (lo + (hi - lo) / 2)%nat in
        let cmp := tr_method_compare (rm_descriptor (methods !!! mid)) key in
        if cmp =? 0 then Some mid
        else if cmp <? 0 then method_search methods key fuel (S mid) hi
        else method_search methods key fuel lo mid
      else None
  end.

Definition tr_router_method (r : tr_rpc_record_router) (service method : Z) : option nat :=
  let count := Z.to_nat (rr_method_count r) in
  method_search (rr_methods r) (method_key service method) (S count) 0 count.

(** The shift of the insertion sort: the place found for a method, and the array. *)
Fixpoint sort_shift (j : nat) (methods : list tr_rpc_record_method) (m : tr_rpc_record_method)
    : nat * list tr_rpc_record_method :=
  match j with
  | O => (O, methods)
  | S j' =>
      if tr_method_compare (rm_descriptor (methods !!! j')) (rm_descriptor m) >? 0
      then sort_shift j' (<[j := methods !!! j']> methods) m
      else (j, methods)
  end.

(** The sort of what is left of the caller's array; [None] when a method is there twice. *)
Fixpoint sort_methods (i : nat) (methods todo : list tr_rpc_record_method)
    : option (list tr_rpc_record_method) :=
  match todo with
  | [] => Some methods
  | m :: todo =>
      let '(j, methods) := sort_shift i methods m in
      bail None when (negb (Nat.eqb j 0) &&
        (tr_method_compare (rm_descriptor (methods !!! pred j)) (rm_descriptor m) =? 0)) ;;
      sort_methods (S i) (<[j := m]> methods) todo
  end.

(** What a method must be for a router to take it. *)
Definition method_legal (m : tr_rpc_record_method) : bool :=
  let d := rm_descriptor m in
  bool_decide (is_Some (rm_received m)) && nz (md_request_codec_id d) && nz (md_response_codec_id d) &&
  (md_lane d <=? 1) &&
  is_ok (tr_rpc_record_state_init (Some (mk_rs 0 0 0 0 0 false false false false false))
    (md_request_cardinality d) (md_response_cardinality d)).1.

(** * Routes *)

Section Routes.
Context {B : Type} `{!Budget B}.
Implicit Types (r : tr_rpc_record_router) (rt : tr_rpc_route) (v : stream_env B).

(** What the function of a method does when it is told of a record, after what it has been
    told of the call before. *)
Context (app : tr_rpc_record_method → tr_rpc_route_handle → list stream_log →
  tr_rpc_record_header → list Z → list Z → reaction).

Definition tr_router_owner (router : option tr_rpc_record_router) (owner : bool) : tr_status :=
  match router with
  | None => TR_ERR_INVALID
  | Some _ => if owner then TR_OK else TR_ERR_STATE
  end.

Definition tr_route_handle rt : tr_rpc_route_handle := mk_route_handle (rt_generation rt) (rt_index rt).

Definition tr_router_lookup (router : option tr_rpc_record_router) (owner : bool)
    (handle : tr_rpc_route_handle) : tr_status + tr_rpc_record_router * tr_rpc_route :=
  bail (inl (tr_router_owner router owner)) when (negb (is_ok (tr_router_owner router owner))) ;;
  match router with
  | None => inl TR_ERR_INVALID
  | Some r =>
      bail (inl TR_ERR_CLOSED) when (rr_retiring r) ;;
      bail (inl TR_ERR_STALE) when ((ro_generation handle =? 0) || (ro_slot handle >=? rr_capacity r)) ;;
      let route := (rr_routes r).[ro_slot handle] in
      bail (inl TR_ERR_STALE) when (negb (rt_active route) ||
        negb (rt_generation route =? ro_generation handle)) ;;
      inr (r, route)
  end.

(** An active route of the stream. *)
Definition route_serves (stream : tr_stream_handle) rt : bool :=
  rt_active rt && (sh_slot (rt_stream rt) =? sh_slot stream) &&
  (sh_generation (rt_stream rt) =? sh_generation stream).

Fixpoint router_find_loop (routes : list tr_rpc_route) (stream : tr_stream_handle) : option tr_rpc_route :=
  match routes with
  | [] => None
  | rt :: routes => if route_serves stream rt then Some rt else router_find_loop routes stream
  end.

Definition tr_router_find r (stream : tr_stream_handle) : option tr_rpc_route :=
  bail None when (negb (sh_channel stream =? rr_channel r)) ;;
  router_find_loop (rr_routes r) stream.

(** The end of a route, which the router's [terminal] is told of once. *)
Definition tr_router_terminal rt (status : Z) (delivery : tr_rpc_record_delivery) : tr_rpc_route :=
  bail rt when (rt_terminal rt) ;;
  route_tell (route_over rt (rt_active rt) true 0) (Lg_terminal status delivery).

(** What a call tells its callbacks, [tr_router_received] and [tr_router_binding_terminal]. *)
Definition route_hear rt (e : stream_log) : tr_rpc_route :=
  match e with
  | Lg_terminal status delivery => tr_router_terminal rt status delivery
  | _ => route_tell rt e
  end.

(** The environment as the call of a route sees it, and back. *)
Definition with_log v (l : list stream_log) : stream_env B :=
  mk_env (en_budget v) (en_prefixes v) (en_mallocs v) (en_sendv v) l.

(** A route after an operation of its call. *)
Definition route_after rt (binding : option tr_rpc_record_stream) v : tr_rpc_route :=
  foldl route_hear (route_bind rt binding (rt_method rt)) (drop (length (rt_log rt)) (en_log v)).

(** [tr_router_received]: the method's function is called with the route's handle. *)
Definition tr_router_received r rt : list stream_log → tr_rpc_record_header → list Z → list Z → reaction :=
  λ log h metadata body,
    match rt_method rt with
    | Some i => app (rr_methods r !!! i) (tr_route_handle rt) log h metadata body
    | None => App_return
    end.

Definition bound_receive r rt (owner : bool) v (stream : tr_stream_handle) (data : option (list Z))
    : option (tr_status * tr_rpc_route * stream_env B) :=
  match tr_rpc_record_stream_receive_on_owner (tr_router_received r rt) (rt_binding rt) owner
          (with_log v (rt_log rt)) stream data with
  | None => None
  | Some (ret, c, v') => Some (ret, route_after rt c v', with_log v' (en_log v))
  end.

(** The label [reject]. *)
Definition route_reject rt (ret : tr_status) : tr_rpc_route :=
  tr_router_terminal rt (if bool_decide (ret = TR_ERR_NOMEM) then TR_RPC_STATUS_RESOURCE_EXHAUSTED
    else TR_RPC_STATUS_INVALID_ARGUMENT) TR_RPC_RECORD_ON_OWNER.

(** The opening record is whole: the method it names is looked up, and a call is bound to the
    stream and told the head.  [Some (inr route)] goes on with the rest of the data. *)
Definition open_route r rt (owner : bool) (diag : tr_status * Z) v (stream : tr_stream_handle)
    (header : tr_rpc_record_header)
    : option ((tr_status * tr_rpc_route * stream_env B) + (tr_rpc_route * stream_env B)) :=
  bail (Some (inl (TR_ERR_BAD_TYPE, route_reject rt TR_ERR_BAD_TYPE, v)))
    when (negb (rh_kind header =? TR_RPC_RECORD_OPEN)) ;;
  match tr_router_method r (rh_service_id header) (rh_method_id header) with
  | None =>
      Some (inl (TR_ERR_UNSUPPORTED,
        tr_router_terminal (route_bind rt (rt_binding rt) None) TR_RPC_STATUS_UNIMPLEMENTED
          TR_RPC_RECORD_ON_OWNER, v))
  | Some i =>
      let rt := route_bind rt (rt_binding rt) (Some i) in
      let config := mk_config TR_RPC_RECORD_RESPONSE_DIRECTION (rm_descriptor (rr_methods r !!! i)) in
      match tr_rpc_record_stream_create_on_owner stream (Some config) true true (rr_budget_limit r)
              (Some false) owner diag (with_log v (rt_log rt)) with
      | (TR_OK, Some c, v') =>
          match bound_receive r (route_bind rt (Some c) (Some i)) owner (with_log v' (en_log v)) stream
                  (Some (rt_head rt)) with
          | None => None
          | Some (ret, rt, v) =>
              let rt := route_head rt (rt_head rt) 0 in
              bail (Some (inl (ret, rt, v))) when (negb (is_ok ret) || rt_terminal rt) ;;
              Some (inr (rt, v))
          end
      | (ret, _, v') =>
          let ret := if bool_decide (ret = TR_AGAIN) then TR_ERR_NOMEM else ret in
          Some (inl (ret, route_reject rt ret, with_log v' (en_log v)))
      end
  end.

(** What follows [++router->depth]. *)
Definition route_receive r rt (owner : bool) (diag : tr_status * Z) v (stream : tr_stream_handle)
    (data : list Z) : option (tr_status * tr_rpc_route * stream_env B) :=
  match rt_binding rt with
  | Some _ => bound_receive r rt owner v stream (Some data)
  | None =>
      let amount := Z.min (TR_RPC_RECORD_HEADER_SIZE - rt_used rt) (alen data) in
      let rt := route_head rt (put_at (rt_head rt) (rt_used rt) (take (Z.to_nat amount) data))
        (rt_used rt + amount) in
      let data := drop (Z.to_nat amount) data in
      match tr_rpc_record_decode_header (Some (take (Z.to_nat (rt_used rt)) (rt_head rt))) (rt_used rt)
              (Some head_limits) true true with
      | (TR_AGAIN, _) => Some (TR_OK, rt, v)
      | (TR_OK, Some (header, _)) =>
          match open_route r rt owner diag v stream header with
          | None => None
          | Some (inl out) => Some out
          | Some (inr (rt, v)) => bound_receive r rt owner v stream (Some data)
          end
      | (ret, _) => Some (ret, route_reject rt ret, v)
      end
  end.

(** [data] is [None] when it is NULL with a size; [diag] is what [tr_stream_get_diagnostics] answers
    the call that is bound. *)
Definition tr_rpc_record_router_receive_on_owner (router : option tr_rpc_record_router) (owner : bool)
    (diag : tr_status * Z) v (stream : tr_stream_handle) (data : option (list Z))
    : option (tr_status * option tr_rpc_record_router * stream_env B) :=
  bail (Some (tr_router_owner router owner, router, v)) when (negb (is_ok (tr_router_owner router owner))) ;;
  match router, data with
  | Some r, Some data =>
      bail (Some (TR_ERR_STATE, router, v)) when (negb (rr_depth r =? 0) || rr_retiring r) ;;
      match tr_router_find r stream with
      | None => Some (TR_ERR_STALE, router, v)
      | Some rt =>
          bail (Some (TR_ERR_STATE, router, v)) when (rt_terminal rt) ;;
          let r := router_enter r in
          match route_receive r rt owner diag v stream data with
          | None => None
          | Some (ret, rt, v) => Some (ret, Some (router_leave (put_route r rt)), v)
          end
      end
  | _, _ => Some (TR_ERR_INVALID, router, v)
  end.

(** * Creation and admission *)

(** [*out] is NULL when [out] is [Some false]; [out] itself may be NULL.  The array is as long
    as [method_count] says. *)
Definition tr_rpc_record_router_create_on_owner (channel : Z) (methods : option (list tr_rpc_record_method))
    (capacity : Z) (terminal : bool) (budget_limit : option Z) (out : option bool) (owner : bool)
    (max_streams : Z) v : tr_status * option tr_rpc_record_router * stream_env B :=
  match methods, budget_limit, out with
  | Some methods, Some limit, Some out =>
      let method_count := alen methods in
      bail (TR_ERR_INVALID, None, v) when ((channel =? 0) || (method_count =? 0) || (capacity =? 0) ||
        negb terminal || (limit =? 0)) ;;
      bail (TR_ERR_STATE, None, v) when (out || negb owner) ;;
      bail (TR_ERR_INVALID, None, v) when (capacity >? max_streams) ;;
      bail (TR_ERR_BAD_LENGTH, None, v) when (sizeof_route >? (SIZE_MAX - sizeof_router) / capacity) ;;
      let bytes := sizeof_router + capacity * sizeof_route in
      bail (TR_ERR_BAD_LENGTH, None, v) when (method_count >? (SIZE_MAX - bytes) / sizeof_record_method) ;;
      let bytes := bytes + method_count * sizeof_record_method in
      bail (TR_ERR_INVALID, None, v) when (negb (forallb method_legal methods)) ;;
      let '(ret, b) := b_reserve (en_budget v) bytes in
      let v := env_budget v b in
      bail (ret, None, v) when (negb (is_ok ret)) ;;
      let '(router_ok, v) := next_malloc v in
      bail (TR_ERR_NOMEM, None, env_release v bytes) when (negb router_ok) ;;
      let '(routes_ok, v) := next_malloc v in
      let '(methods_ok, v) := next_malloc v in
      bail (TR_ERR_NOMEM, None, env_release v bytes) when (negb routes_ok || negb methods_ok) ;;
      match sort_methods 0 (replicate (length methods) inhabitant) methods with
      | None => (TR_ERR_STATE, None, env_release v bytes)
      | Some table =>
          (TR_OK, Some (mk_record_router channel limit table
             (map (λ i, mk_rpc_route (mk_handle 0 0 0) None None 0 (Z.of_nat i) false false
                (replicate (Z.to_nat TR_RPC_RECORD_HEADER_SIZE) 0) 0 []) (seq 0 (Z.to_nat capacity)))
             method_count bytes capacity 0 0 false []), v)
      end
  | _, _, _ => (TR_ERR_INVALID, None, v)
  end.

(** The walk over the routes: refused, or the first that is free. *)
Fixpoint admit_loop (routes : list tr_rpc_route) (stream : tr_stream_handle) (free_route : option tr_rpc_route)
    : tr_status + option tr_rpc_route :=
  match routes with
  | [] => inr free_route
  | rt :: routes =>
      bail (inl TR_ERR_STATE) when (route_serves stream rt) ;;
      admit_loop routes stream
        (if negb (rt_active rt) && negb (bool_decide (is_Some free_route)) then Some rt else free_route)
  end.

(** [diag] is what [tr_stream_get_diagnostics] answers. *)
Definition tr_rpc_record_router_admit_on_owner (router : option tr_rpc_record_router) (owner : bool)
    (stream : tr_stream_handle) (diag : tr_status) (out : bool)
    : tr_status * option tr_rpc_record_router * option tr_rpc_route_handle :=
  bail (tr_router_owner router owner, router, None) when (negb (is_ok (tr_router_owner router owner))) ;;
  bail (TR_ERR_INVALID, router, None) when (negb out) ;;
  match router with
  | None => (TR_ERR_INVALID, None, None)
  | Some r =>
      bail (TR_ERR_STATE, router, None) when (negb (rr_depth r =? 0) || rr_retiring r) ;;
      bail (TR_ERR_STALE, router, None) when (negb (sh_channel stream =? rr_channel r)) ;;
      bail (diag, router, None) when (negb (is_ok diag)) ;;
      match admit_loop (rr_routes r) stream None with
      | inl ret => (ret, router, None)
      | inr None => (TR_AGAIN, router, None)
      | inr (Some free_route) =>
          bail (TR_ERR_STATE, router, None) when (rr_generation r =? UINT64_MAX) ;;
          let r := set_generation r (rr_generation r + 1) in
          let rt := route_admit free_route stream (rr_generation r) in
          (TR_OK, Some (put_route r rt), Some (tr_route_handle rt))
      end
  end.

(** * Events, sends and aborts *)

Definition bound_event r rt (owner : bool) v (stream : tr_stream_handle) (event status : Z)
    : tr_status * tr_rpc_route * stream_env B :=
  let '(ret, c, v') := tr_rpc_record_stream_event_on_owner (rt_binding rt) owner
    (with_log v (rt_log rt)) stream event status in
  (ret, route_after rt c v', with_log v' (en_log v)).

Definition route_event r rt (owner : bool) v (stream : tr_stream_handle) (event status : Z)
    : tr_status * tr_rpc_route * stream_env B :=
  match rt_binding rt with
  | Some _ => bound_event r rt owner v stream event status
  | None =>
      if (event =? TR_STREAM_EVENT_RESET) || (event =? TR_STREAM_EVENT_REFUSED) then
        (TR_OK, tr_router_terminal rt (tr_rpc_record_status_from_reset status) TR_RPC_RECORD_ON_OWNER, v)
      else if negb (event =? TR_STREAM_EVENT_OPENED) && negb (event =? TR_STREAM_EVENT_WRITABLE) then
        (TR_OK, tr_router_terminal rt (if nz (rt_used rt) then TR_RPC_STATUS_DATA_LOSS
           else TR_RPC_STATUS_UNAVAILABLE) TR_RPC_RECORD_ON_OWNER, v)
      else (TR_OK, rt, v)
  end.

Definition tr_rpc_record_router_event_on_owner (router : option tr_rpc_record_router) (owner : bool) v
    (stream : tr_stream_handle) (event status : Z)
    : tr_status * option tr_rpc_record_router * stream_env B :=
  bail (tr_router_owner router owner, router, v) when (negb (is_ok (tr_router_owner router owner))) ;;
  match router with
  | None => (TR_ERR_INVALID, None, v)
  | Some r =>
      bail (TR_ERR_STATE, router, v) when (negb (rr_depth r =? 0) || rr_retiring r) ;;
      match tr_router_find r stream with
      | None => (TR_ERR_STALE, router, v)
      | Some rt =>
          bail (TR_ERR_INVALID, router, v) when
            ((event <? TR_STREAM_EVENT_OPENED) || (event >? TR_STREAM_EVENT_REFUSED)) ;;
          bail (TR_ERR_INVALID, router, v) when
            ((event =? TR_STREAM_EVENT_REFUSED) && negb (status =? status_value TR_ERR_NOMEM)) ;;
          bail (TR_ERR_INVALID, router, v) when ((event =? TR_STREAM_EVENT_RESET) &&
            (tr_rpc_record_status_from_reset status =? TR_RPC_STATUS_COUNT)) ;;
          bail (TR_OK, router, v) when (rt_terminal rt) ;;
          let r := router_enter r in
          let '(ret, rt, v) := route_event r rt owner v stream event status in
          (ret, Some (router_leave (put_route r rt)), v)
      end
  end.

(** [router] is [handle.router]. *)
Definition tr_rpc_record_router_send_on_owner (router : option tr_rpc_record_router)
    (handle : tr_rpc_route_handle) (owner : bool) v (header : option tr_rpc_record_header)
    (metadata : option (list Z)) (body : option tx_body)
    : tr_status * option tx_body * option tr_rpc_record_router * stream_env B :=
  match tr_router_lookup router owner handle with
  | inl ret => (ret, body, router, v)
  | inr (r, rt) =>
      bail (TR_ERR_STATE, body, router, v) when (negb (bool_decide (is_Some (rt_binding rt))) || rt_terminal rt) ;;
      let r := router_enter r in
      let '(ret, body, c, v') := tr_rpc_record_stream_send_on_owner (rt_binding rt) owner
        (with_log v (rt_log rt)) header metadata body in
      (ret, body, Some (router_leave (put_route r (route_after rt c v'))), with_log v' (en_log v))
  end.

Definition tr_rpc_record_router_abort_on_owner (router : option tr_rpc_record_router)
    (handle : tr_rpc_route_handle) (owner : bool) v (status : Z)
    : tr_status * option tr_rpc_record_router * stream_env B :=
  match tr_router_lookup router owner handle with
  | inl ret => (ret, router, v)
  | inr (r, rt) =>
      bail (TR_ERR_INVALID, router, v) when ((status <=? TR_RPC_STATUS_OK) || (status >=? TR_RPC_STATUS_COUNT)) ;;
      bail (TR_ERR_STATE, router, v) when (rt_terminal rt) ;;
      let r := router_enter r in
      let '(ret, rt, v) := match rt_binding rt with
        | Some _ =>
            let '(ret, c, v') := tr_rpc_record_stream_abort_on_owner (rt_binding rt) owner
              (with_log v (rt_log rt)) status in
            (ret, route_after rt c v', with_log v' (en_log v))
        | None => (TR_OK, tr_router_terminal rt status TR_RPC_RECORD_ON_OWNER, v)
        end in
      (ret, Some (router_leave (put_route r rt)), v)
  end.

(** * Retirement and destruction *)

(** [tr_rpc_record_stream_destroy_on_owner] of a route's call. *)
Definition route_destroy rt (owner : bool) v : tr_status * tr_rpc_route * stream_env B :=
  let '(ret, c, v') := tr_rpc_record_stream_destroy_on_owner true (rt_binding rt) owner
    (with_log v (rt_log rt)) in
  (ret, route_bind rt c (rt_method rt), with_log v' (en_log v)).

Definition tr_rpc_record_router_retire_on_owner (router : option tr_rpc_record_router)
    (handle : tr_rpc_route_handle) (owner : bool) v
    : tr_status * option tr_rpc_record_router * stream_env B :=
  bail (tr_router_owner router owner, router, v) when (negb (is_ok (tr_router_owner router owner))) ;;
  match router with
  | None => (TR_ERR_INVALID, None, v)
  | Some r0 =>
      bail (TR_ERR_STATE, router, v) when (negb (rr_depth r0 =? 0)) ;;
      match tr_router_lookup router owner handle with
      | inl ret => (ret, router, v)
      | inr (r, rt) =>
          bail (TR_ERR_STATE, router, v) when (negb (rr_depth r =? 0) || negb (rt_terminal rt)) ;;
          let '(ret, rt, v) := match rt_binding rt with
            | Some _ => route_destroy rt owner v
            | None => (TR_OK, rt, v)
            end in
          bail (ret, Some (put_route r rt), v) when (negb (is_ok ret)) ;;
          (TR_OK, Some (put_route (add_past r rt) (route_bind (route_over rt false false 0) (rt_binding rt) None)), v)
      end
  end.

(** What the application has been told: of retired calls, and of those in slots. *)
Definition router_told r : list (Z * list stream_log) :=
  rr_past r ++ omap (λ rt, if rt_active rt then Some (rt_generation rt, rt_log rt) else None) (rr_routes r).

Definition tr_router_free r v : tr_status * stream_env B :=
  let '(ret, b) := b_release (en_budget v) (rr_bytes r) in (ret, env_budget v b).

(** The end of one route of a router that is destroyed. *)
Definition close_route rt (owner : bool) v : tr_status * tr_rpc_route * stream_env B :=
  match rt_binding rt with
  | Some _ =>
      let '(rt, v) := if negb (rt_terminal rt) then
          let '(_, c, v') := tr_rpc_record_stream_abort_on_owner (rt_binding rt) owner
            (with_log v (rt_log rt)) TR_RPC_STATUS_CANCELLED in
          (route_after rt c v', with_log v' (en_log v))
        else (rt, v) in
      route_destroy rt owner v
  | None => (TR_OK, tr_router_terminal rt TR_RPC_STATUS_CANCELLED TR_RPC_RECORD_ON_OWNER, v)
  end.

(** The routes from an index on. *)
Fixpoint destroy_loop (n i : nat) r (owner : bool) v : tr_status * tr_rpc_record_router * stream_env B :=
  match n with
  | O => (TR_OK, r, v)
  | S n =>
      let rt := rr_routes r !!! i in
      bail (destroy_loop n (S i) r owner v) when (negb (rt_active rt)) ;;
      let '(ret, rt, v) := close_route rt owner v in
      bail (ret, put_route r rt, v) when (negb (is_ok ret)) ;;
      destroy_loop n (S i) (put_route (add_past r rt) (route_over rt false (rt_terminal rt) (rt_used rt))) owner v
  end.

(** [*pointer] is [router]; with the result comes what the application was told. *)
Definition tr_rpc_record_router_destroy_on_owner (pointer : bool) (router : option tr_rpc_record_router)
    (owner : bool) v
    : tr_status * option tr_rpc_record_router * list (Z * list stream_log) * stream_env B :=
  bail (TR_ERR_INVALID, router, [], v) when (negb pointer) ;;
  bail (tr_router_owner router owner, router, [], v) when (negb (is_ok (tr_router_owner router owner))) ;;
  match router with
  | None => (TR_ERR_INVALID, None, [], v)
  | Some r =>
      bail (TR_ERR_STATE, router, [], v) when (negb (rr_depth r =? 0)) ;;
      let r := router_enter (set_retiring r) in
      let '(ret, r, v) := destroy_loop (Z.to_nat (rr_capacity r)) 0 r owner v in
      bail (ret, Some (router_leave r), router_told r, v) when (negb (is_ok ret)) ;;
      let '(ret, v) := tr_router_free r v in
      (ret, None, router_told r, v)
  end.

(** [answers] are what the recovery guards of the calls answer, in turn; they hold when the
    list ends. *)
Fixpoint reap_loop (n i : nat) r (answers : list (tr_status * tr_status)) v
    : tr_status * tr_rpc_record_router * stream_env B :=
  match n with
  | O => (TR_OK, r, v)
  | S n =>
      let rt := rr_routes r !!! i in
      bail (reap_loop n (S i) r answers v) when (negb (rt_active rt) || negb (bool_decide (is_Some (rt_binding rt)))) ;;
      let '(acquire, release) := default (TR_OK, TR_OK) (head answers) in
      let '(ret, c, v') := tr_rpc_record_stream_reap_stopped true (rt_binding rt) acquire release
        (with_log v (rt_log rt)) in
      let rt := route_after rt c v' in
      let v := with_log v' (en_log v) in
      bail (ret, put_route r rt, v) when (negb (is_ok ret)) ;;
      let r := if rt_terminal rt then put_route (add_past r rt) (route_over rt false (rt_terminal rt) (rt_used rt))
        else put_route r rt in
      reap_loop n (S i) r (tail answers) v
  end.

Definition reap_terminal rt : tr_rpc_route :=
  if rt_active rt then tr_router_terminal rt TR_RPC_STATUS_CANCELLED TR_RPC_RECORD_OWNER_STOPPED else rt.

(** [guards] are what the router's own two guards answer. *)
Definition tr_rpc_record_router_reap_stopped (pointer : bool) (router : option tr_rpc_record_router)
    (guards : (tr_status * tr_status) * (tr_status * tr_status)) (answers : list (tr_status * tr_status)) v
    : tr_status * option tr_rpc_record_router * list (Z * list stream_log) * stream_env B :=
  match router with
  | Some r =>
      bail (TR_ERR_INVALID, router, [], v) when (negb pointer) ;;
      let '((acquire1, release1), (acquire2, release2)) := guards in
      bail (acquire1, router, [], v) when (negb (is_ok acquire1)) ;;
      bail (TR_ERR_STATE, router, [], v) when (negb (rr_depth r =? 0)) ;;
      let r := set_retiring r in
      bail (release1, Some r, [], v) when (negb (is_ok release1)) ;;
      let '(ret, r, v) := reap_loop (Z.to_nat (rr_capacity r)) 0 (router_enter r) answers v in
      let r := router_leave r in
      bail (ret, Some r, router_told r, v) when (negb (is_ok ret)) ;;
      bail (acquire2, Some r, router_told r, v) when (negb (is_ok acquire2)) ;;
      let r := set_routes r (map reap_terminal (rr_routes r)) in
      bail (release2, Some r, router_told r, v) when (negb (is_ok release2)) ;;
      let '(ret, v) := tr_router_free r v in
      (ret, None, router_told r, v)
  | None => (TR_ERR_INVALID, None, [], v)
  end.

End Routes.

(** * Lemmas: the table *)

(** The order of the table, and methods with the same ids. *)
Definition method_lt (a b : tr_rpc_method_desc) : Prop :=
  md_service_id a < md_service_id b ∨ md_service_id a = md_service_id b ∧ md_method_id a < md_method_id b.
Definition method_id (m : tr_rpc_record_method) : Z * Z :=
  (md_service_id (rm_descriptor m), md_method_id (rm_descriptor m)).
Definition before (a b : tr_rpc_record_method) : Prop := method_lt (rm_descriptor a) (rm_descriptor b).

#[local] Instance before_trans : Transitive before.
Proof. intros a b c. unfold before, method_lt. lia. Qed.

Lemma compare_cases a b :
  (tr_method_compare a b = -1 ∧ method_lt a b) ∨ (tr_method_compare a b = 1 ∧ method_lt b a) ∨
  (tr_method_compare a b = 0 ∧ md_service_id a = md_service_id b ∧ md_method_id a = md_method_id b).
Proof.
  unfold tr_method_compare, method_lt. case_ifs; [left|right; left|left|right; left|right; right];
    (split; [done|lia]) || (split_and!; [done|lia..]).
Qed.

Lemma sort_shift_spec pre : ∀ x post m, StronglySorted before pre →
  ∃ j z, sort_shift (length pre) (pre ++ x :: post) m = (j, take j pre ++ z :: drop j pre ++ post) ∧
    (j ≤ length pre)%nat ∧ Forall (before m) (drop j pre) ∧
    (j = 0%nat ∨ ∃ y, pre !! pred j = Some y ∧ tr_method_compare (rm_descriptor y) (rm_descriptor m) ≤ 0).
Proof.
  induction pre as [|y pre IH] using rev_ind; intros x post m Hs.
  { exists 0%nat, x. split_and!; [done|done|constructor|by left]. }
  rewrite length_app, Nat.add_comm. cbn [length Nat.add sort_shift].
  assert ((pre ++ [y]) ++ x :: post = pre ++ y :: x :: post) as -> by (by rewrite <- app_assoc).
  assert ((pre ++ y :: x :: post) !!! length pre = y) as -> by (by apply list_lookup_total_middle).
  destruct (compare_cases (rm_descriptor y) (rm_descriptor m)) as [[E H]|[[E H]|[E H]]]; rewrite E; cbn [Z.gtb Z.compare].
  - exists (S (length pre)), x. rewrite (take_ge (pre ++ [y])), (drop_ge (pre ++ [y])) by (rewrite length_app; simpl; lia).
    split_and!; [by rewrite <- app_assoc|lia|constructor|right].
    exists y. split; [by apply list_lookup_middle|lia].
  - rewrite insert_app_r_alt by lia. replace (S (length pre) - length pre)%nat with 1%nat by lia.
    cbn [insert list_insert]. destruct (IH y (y :: post) m) as (j & z & -> & Hj & Hf & Hy).
    { by apply StronglySorted_app_1_l in Hs. }
    exists j, z. rewrite take_app_le, drop_app_le by done. split_and!.
    + by rewrite <- !app_assoc.
    + lia.
    + apply Forall_app. split; [done|by apply Forall_singleton].
    + destruct Hy as [->|(w & Hw & Hc)]; [by left|right]. exists w. split; [by apply lookup_app_l_Some|done].
  - exists (S (length pre)), x. rewrite (take_ge (pre ++ [y])), (drop_ge (pre ++ [y])) by (rewrite length_app; simpl; lia).
    split_and!; [by rewrite <- app_assoc|lia|constructor|right].
    exists y. split; [by apply list_lookup_middle|lia].
Qed.

Lemma sorted_middle (l1 l2 : list tr_rpc_record_method) m : StronglySorted before (l1 ++ l2) →
  Forall (λ y, before y m) l1 → Forall (before m) l2 → StronglySorted before (l1 ++ m :: l2).
Proof.
  intros Hs H1 H2. induction l1 as [|x l1 IH]; simpl in *; [by constructor|].
  apply StronglySorted_inv in Hs as [Hs Hx]. apply Forall_cons in H1 as [Hxm H1].
  constructor; [by apply IH|]. apply Forall_app in Hx as [Hx1 Hx2].
  apply Forall_app. split; [done|by apply Forall_cons].
Qed.

(** In a sorted list what precedes an element that precedes [m] does too. *)
Lemma sorted_before (l : list tr_rpc_record_method) k y m : StronglySorted before l → l !! k = Some y → before y m →
  Forall (λ z, before z m) (take (S k) l).
Proof.
  revert k. induction l as [|x l IH]; intros [|k] Hs Hk Hy; simplify_eq/=; [by apply Forall_singleton|].
  apply StronglySorted_inv in Hs as [Hs Hx]. apply Forall_cons. split; [|by apply IH].
  etransitivity; [|exact Hy]. by apply (Forall_lookup_1 _ _ _ _ Hx Hk).
Qed.

Lemma before_id a b : before a b → method_id a ≠ method_id b.
Proof. unfold before, method_lt, method_id. intros H [=]. lia. Qed.
Lemma sorted_nodup l : StronglySorted before l → NoDup (map method_id l).
Proof.
  induction 1 as [|x l _ IH Hx]; simpl; constructor; [|done].
  intros (y & E & Hy)%list_elem_of_fmap. apply (before_id x y); [|done].
  by apply (proj1 (list.Forall_forall _ _) Hx).
Qed.

(** The sort inserts every method in its place, and finds one that is there already. *)
Lemma sort_methods_spec todo : ∀ pre post, length post = length todo → StronglySorted before pre →
  match sort_methods (length pre) (pre ++ post) todo with
  | Some table => StronglySorted before table ∧ table ≡ₚ pre ++ todo
  | None => ¬ NoDup (map method_id (pre ++ todo))
  end.
Proof.
  induction todo as [|m todo IH]; intros pre post Hl Hs; simpl.
  { destruct post; [|done]. by rewrite app_nil_r. }
  destruct post as [|x post]; [done|]. injection Hl as Hl.
  destruct (sort_shift_spec pre x post m Hs) as (j & z & -> & Hj & Hgt & Hle).
  assert (length (take j pre) = j) as Hlt by (rewrite length_take; lia).
  assert (∀ y, pre !! pred j = Some y → j ≠ 0%nat → (take j pre ++ z :: drop j pre ++ post) !!! pred j = y) as Hat.
  { intros y Hy Hne. apply list_lookup_total_correct. rewrite lookup_app_l by lia.
    rewrite lookup_take_lt by lia. done. }
  assert (Forall (λ y, before y m) (take j pre) →
    match sort_methods (S (length pre)) (<[j := m]> (take j pre ++ z :: drop j pre ++ post)) todo with
    | Some table => StronglySorted before table ∧ table ≡ₚ pre ++ m :: todo
    | None => ¬ NoDup (map method_id (pre ++ m :: todo))
    end) as Hgo.
  { intros Hlow. rewrite insert_app_r_alt by lia. rewrite Hlt, Nat.sub_diag. cbn [insert list_insert].
    assert (take j pre ++ m :: drop j pre ++ post = (take j pre ++ m :: drop j pre) ++ post) as ->
      by (by rewrite <- app_assoc).
    assert (S (length pre) = length (take j pre ++ m :: drop j pre)) as ->.
    { rewrite length_app. cbn [length]. rewrite length_drop. lia. }
    assert (take j pre ++ m :: drop j pre ≡ₚ pre ++ [m]) as Hp.
    { rewrite <- Permutation_middle, take_drop. by rewrite (Permutation_app_comm pre [m]). }
    specialize (IH (take j pre ++ m :: drop j pre) post Hl).
    destruct (sort_methods _ _ todo) as [table|].
    - destruct IH as [Hst Hpt]; [by apply sorted_middle; [rewrite take_drop|..]|]. split; [done|].
      rewrite Hpt, Hp. by rewrite <- app_assoc.
    - intros Hnd. apply IH; [by apply sorted_middle; [rewrite take_drop|..]|].
      assert (map method_id ((take j pre ++ m :: drop j pre) ++ todo) ≡ₚ map method_id (pre ++ m :: todo)) as ->; [|done].
      apply fmap_Permutation. rewrite Hp. by rewrite <- app_assoc. }
  destruct j as [|j]; cbn [Nat.eqb negb andb]; [apply Hgo; constructor|].
  destruct Hle as [?|(y & Hy & Hc)]; [done|]. cbn [pred] in *. rewrite (Hat y Hy) by done.
  destruct (compare_cases (rm_descriptor y) (rm_descriptor m)) as [[E H]|[[E H]|[E H]]]; rewrite E in *; [|lia|].
  - cbn. apply Hgo. by eapply sorted_before.
  - cbn. intros Hnd. rewrite map_app in Hnd. apply NoDup_app in Hnd as (_ & Hnd & _).
    apply (Hnd (method_id y)); [apply list_elem_of_fmap_2, list_elem_of_lookup; eauto|].
    simpl. apply elem_of_cons. left. unfold method_id. destruct H. congruence.
Qed.

Lemma sorted_lookup l i j a b : StronglySorted before l → l !! i = Some a → l !! j = Some b → (i < j)%nat → before a b.
Proof.
  intros Hs Ha Hb Hij. rewrite <- (take_drop j l) in Hs. apply (StronglySorted_app_1_elem_of _ _ _ a b) in Hs; [done|..].
  - apply list_elem_of_lookup. exists i. by rewrite lookup_take_lt.
  - apply list_elem_of_lookup. exists 0%nat. by rewrite lookup_drop, Nat.add_0_r.
Qed.

(** The search keeps what it looks for between its bounds. *)
Lemma method_search_spec table key fuel : StronglySorted before table → ∀ lo hi,
  (hi ≤ length table)%nat → (hi - lo < fuel)%nat →
  match method_search table key fuel lo hi with
  | Some i => ∃ m, table !! i = Some m ∧ method_id m = (md_service_id key, md_method_id key)
  | None => ∀ i m, (lo ≤ i < hi)%nat → table !! i = Some m → method_id m ≠ (md_service_id key, md_method_id key)
  end.
Proof.
  intros Hs. induction fuel as [|fuel IH]; intros lo hi Hhi Hf; [lia|]. cbn [method_search].
  destruct (Nat.ltb_spec lo hi); [|intros; lia].
  set (mid := (lo + (hi - lo) / 2)%nat).
  assert (lo ≤ mid < hi)%nat as Hmid.
  { unfold mid. split; [lia|]. assert ((hi - lo) / 2 < hi - lo)%nat; [apply Nat.div_lt; lia|lia]. }
  destruct (lookup_lt_is_Some_2 table mid) as [x Hx]; [lia|].
  rewrite (list_lookup_total_correct _ _ _ Hx).
  destruct (compare_cases (rm_descriptor x) key) as [[E Hc]|[[E Hc]|[E [Hc1 Hc2]]]]; rewrite E; cbn [Z.eqb Z.ltb Z.compare].
  3: { exists x. split; [done|]. unfold method_id. congruence. }
  all: unfold method_lt in Hc;
    match goal with |- match method_search _ _ _ ?a ?b with _ => _ end => specialize (IH a b) end;
    destruct (method_search _ _ _ _ _); [apply IH; lia|];
    intros i m Hi Hm; destruct (decide (i = mid)) as [->|Hne];
    [rewrite Hx in Hm; injection Hm as <-; unfold method_id; intros [=]; lia|].
  - destruct (decide (i < mid)%nat); [|apply (IH ltac:(lia) ltac:(lia) i); [lia|done]].
    pose proof (sorted_lookup _ _ _ _ _ Hs Hm Hx ltac:(lia)) as Hb.
    unfold before, method_lt in Hb. unfold method_id. intros [=]. lia.
  - destruct (decide (mid < i)%nat); [|apply (IH ltac:(lia) ltac:(lia) i); [lia|done]].
    pose proof (sorted_lookup _ _ _ _ _ Hs Hx Hm ltac:(lia)) as Hb.
    unfold before, method_lt in Hb. unfold method_id. intros [=]. lia.
Qed.

(** * Lemmas: a route *)

Section RouteLemmas.
Context {B : Type} `{!Budget B}.
Implicit Types (r : tr_rpc_record_router) (rt : tr_rpc_route) (c : tr_rpc_record_stream) (v : stream_env B).

(** What [stream_ok] says of the call and its log. *)
Record call_ok c (log : list stream_log) : Prop := {
  co_idle : cl_receiving c = false ∧ cl_sending c = false ∧ cl_callback_depth c = 0;
  co_init : rs_initialized (cl_state c) = true;
  co_buffers : buffers_ok c;
  co_notified : cl_terminal_notified c = rs_terminal (cl_state c);
  co_log : ∃ l, Forall going_event l ∧ log = l ++ if rs_terminal (cl_state c)
    then [Lg_terminal (rs_final_status (cl_state c)) TR_RPC_RECORD_ON_OWNER] else []
}.

Lemma call_stream_ok base c v log : call_ok c log → 0 ≤ base → env_ok (base + cl_partial_size c) v →
  stream_ok base c (with_log v log).
Proof. intros [] Hb Hv. split; try done. by apply (env_ok_same _ v). Qed.

Lemma stream_call_ok base c v : stream_ok base c v → call_ok c (en_log v) ∧ env_ok (base + cl_partial_size c) v.
Proof. intros []. by split. Qed.

(** The budget that the call of a route holds, and the bytes kept for it. *)
Definition route_cost rt : Z :=
  match rt_binding rt with Some c => sizeof_stream + cl_partial_size c | None => 0 end.
Definition route_pending rt : list Z :=
  match rt_binding rt with
  | Some c => stream_pending c
  | None => take (Z.to_nat (rt_used rt)) (rt_head rt)
  end.

(** The first header of the stream is that of an opening record for the route's method. *)
Definition route_opened r rt c : Prop := ∃ i m h total, rt_method rt = Some i ∧ rr_methods r !! i = Some m ∧
  tr_rpc_record_decode_header (Some (rt_head rt)) TR_RPC_RECORD_HEADER_SIZE (Some head_limits) true true =
    (TR_OK, Some (h, total)) ∧
  rh_kind h = TR_RPC_RECORD_OPEN ∧ method_id m = (rh_service_id h, rh_method_id h) ∧
  cl_config c = mk_config TR_RPC_RECORD_RESPONSE_DIRECTION (rm_descriptor m).

(** A route without a call: gathering a head, or over. *)
Definition route_waits rt : Prop :=
  if rt_terminal rt then rt_used rt = 0 ∧ ∃ s d, rt_log rt = [Lg_terminal s d]
  else rt_log rt = [] ∧ 0 ≤ rt_used rt < TR_RPC_RECORD_HEADER_SIZE.

Record route_ok r rt : Prop := {
  ro_head : length (rt_head rt) = 48%nat ∧ bytes_ok (rt_head rt);
  ro_state : match rt_binding rt with
    | Some c => rt_active rt = true ∧ call_ok c (rt_log rt) ∧ cl_stream c = rt_stream rt ∧
        rt_terminal rt = rs_terminal (cl_state c) ∧ route_opened r rt c
    | None => if rt_active rt then route_waits rt
        else rr_retiring r = false → rt_terminal rt = false ∧ rt_used rt = 0
    end
}.

(** What an operation does to a route; [rest] is the budget that others hold. *)
Record route_step (rest : Z) r rt (data : list Z) rt' v' : Prop := {
  st_same : rt_stream rt' = rt_stream rt ∧ rt_generation rt' = rt_generation rt ∧
    rt_index rt' = rt_index rt ∧ rt_active rt' = rt_active rt;
  st_ok : route_ok r rt';
  st_env : env_ok (rest + route_cost rt') v';
  st_over : rt_terminal rt = true → rt_terminal rt' = true ∧ rt_log rt' = rt_log rt;
  st_delivers : rt_terminal rt = false → ∃ left, log_bytes (rt_log rt') ++ left =
    log_bytes (rt_log rt) ++ route_pending rt ++ data ∧ (rt_terminal rt' = false → left = route_pending rt');
  st_bound : is_Some (rt_binding rt) → rt_head rt' = rt_head rt;
  st_bind : rt_binding rt = None → is_Some (rt_binding rt') → rt_terminal rt = false ∧
    rt_head rt' `prefix_of` route_pending rt ++ data
}.

Lemma env_with_log base v l : env_ok base v → env_ok base (with_log v l).
Proof. by apply env_ok_same. Qed.

Lemma route_step_refl rest r rt v : route_ok r rt → env_ok (rest + route_cost rt) v → route_step rest r rt [] rt v.
Proof.
  intros Hok Hv. split; try done.
  - intros _. exists (route_pending rt). by rewrite app_nil_r.
  - intros ->. by intros [].
Qed.

(** * What a call tells is what its route hears *)

Definition route_say rt (l : list stream_log) : tr_rpc_route :=
  mk_rpc_route (rt_stream rt) (rt_binding rt) (rt_method rt) (rt_generation rt) (rt_index rt) (rt_active rt)
    (rt_terminal rt) (rt_head rt) (rt_used rt) (rt_log rt ++ l).

Lemma hear_going l rt : Forall going_event l → foldl route_hear rt l = route_say rt l.
Proof.
  intros Hl. revert rt. induction Hl as [|e l He Hl IH]; intros rt; simpl.
  - destruct rt. unfold route_say. simpl. by rewrite app_nil_r.
  - rewrite IH. destruct e, rt; try done; unfold route_say; simpl; by rewrite <- app_assoc.
Qed.

Lemma going_terminal l s d : Forall going_event (l ++ [Lg_terminal s d]) → False.
Proof. intros [_ H]%Forall_app. rewrite Forall_singleton in H. exact H. Qed.

(** A call that is over says no more. *)
Lemma call_over_silent c c' log l : call_ok c log → rs_terminal (cl_state c) = true → call_ok c' (log ++ l) →
  rs_terminal (cl_state c') = true → l = [].
Proof.
  intros Hc Ht Hc' Ht'. destruct (co_log _ _ Hc) as (l1 & Hl1 & ->). destruct (co_log _ _ Hc') as (l2 & Hl2 & E).
  rewrite Ht, Ht' in *. destruct l as [|e l _] using rev_ind; [done|exfalso].
  rewrite app_assoc in E. apply app_inj_tail in E as [E _]. rewrite <- E in Hl2.
  apply Forall_app in Hl2 as [Hl2 _]. by eapply going_terminal.
Qed.

(** A route after an operation of its call. *)
Lemma route_after_spec rt c c' v' l : call_ok c (rt_log rt) → rt_terminal rt = rs_terminal (cl_state c) →
  call_ok c' (en_log v') → en_log v' = rt_log rt ++ l →
  (rs_terminal (cl_state c) = true → rs_terminal (cl_state c') = true) →
  ∃ used, route_after rt (Some c') v' = mk_rpc_route (rt_stream rt) (Some c') (rt_method rt) (rt_generation rt)
    (rt_index rt) (rt_active rt) (rs_terminal (cl_state c')) (rt_head rt) used (en_log v') ∧
    (rt_terminal rt = true → l = []).
Proof.
  intros Hc Ht Hc' El Hmono. unfold route_after. rewrite El, drop_app_length.
  destruct (rs_terminal (cl_state c)) eqn:Hts.
  - rewrite El in Hc'. pose proof (call_over_silent _ _ _ _ Hc Hts Hc' (Hmono eq_refl)) as ->.
    exists (rt_used rt). split; [|done]. rewrite Hmono by done. simpl. rewrite app_nil_r, <- Ht. by destruct rt.
  - destruct (co_log _ _ Hc') as (l2 & Hl2 & E). rewrite El in E.
    destruct (rs_terminal (cl_state c')) eqn:Ht'.
    + destruct l as [|e l _] using rev_ind.
      { exfalso. rewrite app_nil_r in E. destruct (co_log _ _ Hc) as (l1 & Hl1 & E1). rewrite Hts, app_nil_r in E1.
        subst l1. rewrite E in Hl1. by eapply going_terminal. }
      rewrite app_assoc in E. apply app_inj_tail in E as [<- ->]. apply Forall_app in Hl2 as [_ Hl2].
      rewrite foldl_app. rewrite (hear_going l) by exact Hl2. exists 0. split; [|congruence]. destruct rt. simpl in *. subst.
      unfold tr_router_terminal, route_say, route_tell, route_over, route_bind. simpl. by rewrite <- app_assoc.
    + rewrite app_nil_r in E. subst l2. apply Forall_app in Hl2 as [_ Hl2]. rewrite hear_going by done.
      exists (rt_used rt). split; [|congruence]. destruct rt. simpl in *. by subst.
Qed.

(** An operation of the call of a route. *)
Lemma bound_step rest r rt c v data c' v' : route_ok r rt → rt_binding rt = Some c → 0 ≤ rest →
  op_ok (rest + sizeof_stream) c (with_log v (rt_log rt)) data c' v' →
  route_step rest r rt data (route_after rt (Some c') v') (with_log v' (en_log v)).
Proof.
  intros [Hh Hs] Hb Hrest [Hok Hover Hdel (Erx & Est & Ecf) [l El]]. rewrite Hb in Hs.
  destruct Hs as (Ha & Hc & Hstr & Ht & Hop). cbn [with_log en_log] in *.
  apply stream_call_ok in Hok as [Hc' Hv'].
  destruct (route_after_spec rt c c' v' l) as (used & -> & Hl); try done.
  { intros E. by apply Hover. }
  split; simpl; try done.
  - split; simpl; [done|]. split_and!; try done; [congruence|]. destruct Hop as (i & m & h & total & H1 & H2 & H3 & H4 & H5 & H6).
    exists i, m, h, total. rewrite Ecf. done.
  - apply env_with_log. unfold route_cost. simpl. by rewrite Z.add_assoc.
  - rewrite Ht. intros E. split; [by apply Hover|]. rewrite El, Hl by congruence. by rewrite app_nil_r.
  - rewrite Ht. intros E. destruct (Hdel E) as (left & H1 & H2). unfold route_pending. rewrite Hb. simpl. eauto.
  - congruence.
Qed.

(** What is left of the call itself. *)
Lemma bound_after base r rt c v data c' v' : route_ok r rt → rt_binding rt = Some c →
  op_ok base c (with_log v (rt_log rt)) data c' v' →
  rt_binding (route_after rt (Some c') v') = Some c' ∧ rt_log rt `prefix_of` rt_log (route_after rt (Some c') v') ∧
  rt_terminal (route_after rt (Some c') v') = rs_terminal (cl_state c').
Proof.
  intros [_ Hs] Hb [Hok Hover _ _ [l El]]. rewrite Hb in Hs. destruct Hs as (_ & Hc & _ & Ht & _).
  apply stream_call_ok in Hok as [Hc' _]. destruct (route_after_spec rt c c' v' l) as (used & -> & _); try done.
  { intros E. by apply Hover. }
  simpl. rewrite El. split_and!; [done|by apply prefix_app_r|done].
Qed.

(** * Lemmas: what the operations do to a route *)

Context (app : tr_rpc_record_method → tr_rpc_route_handle → list stream_log →
  tr_rpc_record_header → list Z → list Z → reaction).
Context (Happ : ∀ m h log hd md b, app_ok (app m h log hd md b)).

Lemma received_ok r rt log h m b : app_ok (tr_router_received app r rt log h m b).
Proof. unfold tr_router_received. by destruct (rt_method rt). Qed.

Lemma same_stream_eq c stream : tr_record_same_stream c stream = true ↔ stream = cl_stream c.
Proof.
  unfold tr_record_same_stream. rewrite !andb_true_iff, !Z.eqb_eq. destruct stream, (cl_stream c); simpl.
  split; [by intros [[-> ->] ->]|by intros [= -> -> ->]].
Qed.

(** The end of a route without a call, whatever it has gathered. *)
Lemma over_step rest r rt head used method data s d v : route_ok r rt → rt_binding rt = None →
  rt_active rt = true → rt_terminal rt = false → (length head = 48%nat ∧ bytes_ok head) → env_ok (rest + 0) v →
  route_step rest r rt data (tr_router_terminal (route_bind (route_head rt head used) None method) s d) v.
Proof.
  intros [Hh Hs] Hb Ha Ht Hhd Hv. rewrite Hb, Ha in Hs. unfold route_waits in Hs. rewrite Ht in Hs.
  destruct Hs as [Hlog Hu]. unfold tr_router_terminal. simpl. rewrite Ht.
  split; simpl; try done.
  - split; simpl; [done|]. rewrite Ha. unfold route_waits. simpl. rewrite Hlog. split; [done|]. by eexists _, _.
  - congruence.
  - intros _. exists (route_pending rt ++ data). rewrite Hlog. done.
  - rewrite Hb. by intros [].
Qed.

(** Bytes of the stream for the call of a route. *)
Lemma bound_receive_step rest r rt c v data : route_ok r rt → rt_binding rt = Some c → 0 ≤ rest →
  env_ok (rest + route_cost rt) v → bytes_ok data →
  ∃ ret rt' v', bound_receive app r rt true v (rt_stream rt) (Some data) = Some (ret, rt', v') ∧
    route_step rest r rt data rt' v' ∧ is_Some (rt_binding rt') ∧
    (rt_terminal rt = false → ret = TR_OK ∨ rt_terminal rt' = true).
Proof.
  intros Hok Hb Hrest Hv Hd. pose proof Hok as [_ Hs]. rewrite Hb in Hs. destruct Hs as (Ha & Hc & Est & Ht & _).
  unfold route_cost in Hv. rewrite Hb, Z.add_assoc in Hv.
  assert (0 ≤ rest + sizeof_stream) as Hr0 by (unfold sizeof_stream; lia).
  pose proof (call_stream_ok _ _ _ _ Hc Hr0 Hv) as Hso.
  destruct (stream_receive_ok (tr_router_received app r rt) (received_ok r rt) _ _ _ (rt_stream rt) (Some data) Hso Hd)
    as (ret & c' & v' & E & Hop & Hret).
  assert (tr_record_same_stream c (rt_stream rt) = true) as Hsame by (by apply same_stream_eq).
  rewrite Hsame in Hop. cbn [default id] in Hop.
  unfold bound_receive, tr_rpc_record_stream_receive_on_owner. rewrite Hb. cbn [negb]. rewrite E.
  exists ret, (route_after rt (Some c') v'), (with_log v' (en_log v)). split; [done|].
  pose proof (bound_step _ _ _ _ _ _ _ _ Hok Hb Hrest Hop) as Hstep. split; [done|].
  destruct (bound_after _ _ _ _ _ _ _ _ Hok Hb Hop) as (E1 & _ & E2).
  split; [by rewrite E1|]. intros _. rewrite E2. by apply Hret; [|eexists].
Qed.

(** Bytes that are gathered, or handed on, are not lost. *)
Lemma step_gathered rest r rt rt1 data data1 rt' v' : route_step rest r rt1 data1 rt' v' →
  rt_stream rt1 = rt_stream rt → rt_generation rt1 = rt_generation rt → rt_index rt1 = rt_index rt →
  rt_active rt1 = rt_active rt → rt_terminal rt1 = rt_terminal rt → rt_log rt1 = rt_log rt →
  rt_binding rt = None → rt_binding rt1 = None →
  route_pending rt1 ++ data1 = route_pending rt ++ data → route_step rest r rt data rt' v'.
Proof.
  intros [(S1 & S2 & S3 & S4) Hok He Hover Hdel Hb1 Hb2] E1 E2 E3 E4 E5 E6 E7 E8 Epend.
  split; try done; [by rewrite <- E1, <- E2, <- E3, <- E4| | | |].
  - by rewrite <- E5, <- E6.
  - rewrite <- E5, <- E6. rewrite <- Epend. done.
  - rewrite E7. by intros [].
  - rewrite <- E5, <- Epend. auto.
Qed.

(** Two operations in turn, the first of which leaves a call. *)
Lemma step_compose_bound rest r rt data1 rt1 v1 data2 rt2 v2 : route_step rest r rt data1 rt1 v1 →
  is_Some (rt_binding rt1) → route_step rest r rt1 data2 rt2 v2 → route_step rest r rt (data1 ++ data2) rt2 v2.
Proof.
  intros [(S1 & S2 & S3 & S4) Hok1 _ Hover1 Hdel1 Hb1 Hn1] Hs1 [(T1 & T2 & T3 & T4) Hok2 He2 Hover2 Hdel2 Hb2 Hn2].
  split; try done.
  - split_and!; congruence.
  - intros Ht. destruct (Hover1 Ht) as [Ht1 E1]. destruct (Hover2 Ht1) as [Ht2 E2]. split; [done|congruence].
  - intros Ht. destruct (Hdel1 Ht) as (l1 & E1 & Hl1). destruct (rt_terminal rt1) eqn:Ht1.
    + destruct (Hover2 eq_refl) as [Ht2 E2]. exists (l1 ++ data2). split; [|congruence].
      rewrite E2, (app_assoc _ l1), E1. by rewrite <- !app_assoc.
    + destruct (Hdel2 eq_refl) as (l2 & E2 & Hl2). exists l2. split; [|done].
      rewrite E2, <- (Hl1 eq_refl), (app_assoc _ l1), E1. by rewrite <- !app_assoc.
  - intros Hs. rewrite Hb2 by done. by apply Hb1.
  - intros Hn Hs. destruct (Hn1 Hn Hs1) as [Ht Hp]. split; [done|]. rewrite Hb2 by done. rewrite app_assoc.
    by apply prefix_app_r.
Qed.

(** What a route that is over has not delivered may be anything. *)
Lemma step_over_more rest r rt data1 data2 rt' v' : route_step rest r rt data1 rt' v' → rt_terminal rt' = true →
  route_step rest r rt (data1 ++ data2) rt' v'.
Proof.
  intros [Hsame Hok He Hover Hdel Hb Hn] Ht. split; try done.
  - intros E. destruct (Hdel E) as (l & El & _). exists (l ++ data2). split; [|congruence].
    rewrite app_assoc, El. by rewrite <- !app_assoc.
  - intros H1 H2. destruct (Hn H1 H2). split; [done|]. rewrite app_assoc. by apply prefix_app_r.
Qed.

Definition table_ok r : Prop :=
  StronglySorted before (rr_methods r) ∧ length (rr_methods r) = Z.to_nat (rr_method_count r).

Lemma router_method_cases r service method : table_ok r →
  match tr_router_method r service method with
  | Some i => ∃ m, rr_methods r !! i = Some m ∧ method_id m = (service, method)
  | None => ∀ m, m ∈ rr_methods r → method_id m ≠ (service, method)
  end.
Proof.
  intros [Hs Hl]. unfold tr_router_method.
  pose proof (method_search_spec (rr_methods r) (method_key service method) (S (Z.to_nat (rr_method_count r))) Hs 0
    (Z.to_nat (rr_method_count r)) ltac:(lia) ltac:(lia)) as H.
  destruct (method_search _ _ _ _ _); [done|]. intros m (i & Hi)%list_elem_of_lookup. apply (H i m); [|done].
  apply lookup_lt_Some in Hi. lia.
Qed.

(** Binding a call and handing it the head. *)
Lemma open_route_step rest r rt head data diag v header total : table_ok r → route_ok r rt → rt_binding rt = None →
  rt_active rt = true → rt_terminal rt = false → (length head = 48%nat ∧ bytes_ok head) →
  tr_rpc_record_decode_header (Some head) TR_RPC_RECORD_HEADER_SIZE (Some head_limits) true true = (TR_OK, Some (header, total)) →
  route_pending rt ++ data = head → env_ok (rest + 0) v → 0 ≤ rest →
  match open_route app r (route_head rt head TR_RPC_RECORD_HEADER_SIZE) true diag v (rt_stream rt) header with
  | None => False
  | Some (inl (ret, rt', v')) => route_step rest r rt data rt' v' ∧ rt_terminal rt' = true
  | Some (inr (rt', v')) => route_step rest r rt data rt' v' ∧ is_Some (rt_binding rt') ∧ rt_stream rt' = rt_stream rt
  end.
Proof.
  intros Htab Hok Hb Ha Ht Hhd Hdec Hpend Hv Hrest. unfold open_route.
  assert (∀ method s d v', env_ok (rest + 0) v' →
    route_step rest r rt data (tr_router_terminal (route_bind (route_head rt head TR_RPC_RECORD_HEADER_SIZE) None method) s d) v' ∧
    rt_terminal (tr_router_terminal (route_bind (route_head rt head TR_RPC_RECORD_HEADER_SIZE) None method) s d) = true) as Hend.
  { intros method s d v' Hv'. split; [by apply over_step|]. unfold tr_router_terminal. simpl. by rewrite Ht. }
  assert (route_bind (route_head rt head TR_RPC_RECORD_HEADER_SIZE) None (rt_method rt) =
    route_head rt head TR_RPC_RECORD_HEADER_SIZE) as Eself by (destruct rt; simpl in *; by subst).
  destruct (Z.eqb_spec (rh_kind header) TR_RPC_RECORD_OPEN) as [Hopen|_]; cbn [negb].
  2: { unfold route_reject. rewrite <- Eself. by apply Hend. }
  pose proof (router_method_cases r (rh_service_id header) (rh_method_id header) Htab) as Hm.
  destruct (tr_router_method r _ _) as [i|].
  2: { simpl. rewrite Hb. by apply Hend. }
  destruct Hm as (m & Hm & Hid). rewrite (list_lookup_total_correct _ _ _ Hm).
  pose proof Hok as [_ Hs]. rewrite Hb, Ha in Hs. unfold route_waits in Hs. rewrite Ht in Hs. destruct Hs as [Hlog _].
  destruct (tr_rpc_record_stream_create_on_owner _ _ _ _ _ _ _ _ _) as [[ret o] v1] eqn:Ecr.
  cbn [rt_log route_bind route_head] in Ecr. rewrite Hlog in Ecr.
  assert (env_ok rest (with_log v [])) as Hv0 by (apply env_with_log; by rewrite Z.add_0_r in Hv).
  destruct (stream_create_cases rest _ _ _ _ _ _ _ _ _ _ _ _ Hv0 Ecr)
    as [El [(-> & c & -> & [= Hcf] & Hst)|(Hne & -> & Hv1)]].
  2: { assert (env_ok (rest + 0) (with_log v1 (en_log v))) as Hv1' by (apply env_with_log; by rewrite Z.add_0_r).
       destruct ret; try done; simpl; rewrite Hb; unfold route_reject; by apply Hend. }
  destruct (create_ok rest _ _ _ _ _ _ _ _ _ _ _ Hv0 eq_refl Ecr)
    as (Hso & Hfed & _).
  apply stream_call_ok in Hso as [Hc Hv1]. rewrite El in Hc.
  set (rt1 := route_bind _ (Some c) (Some i)).
  assert (route_ok r rt1) as Hok1.
  { split; simpl; [done|]. rewrite Ha. split_and!; try done; [by rewrite Hlog| |].
    - destruct (co_log _ _ Hc) as (l & _ & E). rewrite Ht. by destruct (rs_terminal (cl_state c)), l.
    - exists i, m, header, total. by split_and!. }
  assert (env_ok (rest + route_cost rt1) (with_log v1 (en_log v))) as Hv2.
  { apply env_with_log. unfold route_cost. simpl. by rewrite Z.add_assoc. }
  destruct (bound_receive_step rest r rt1 c (with_log v1 (en_log v)) head Hok1 eq_refl Hrest Hv2 ltac:(apply Hhd))
    as (ret & rt2 & v2 & Erec & Hstep & Hbd & Hover).
  change (rt_stream rt1) with (rt_stream rt) in Erec. cbn [rt_head route_bind route_head] in *.
  fold rt1. rewrite Erec.
  assert (stream_pending c = []) as Hpc.
  { destruct Hfed as (left & E & Hleft). rewrite <- Hleft; [by destruct (log_bytes (en_log v1)), left|].
    destruct (co_log _ _ Hc) as (l & _ & E'). by destruct (rs_terminal (cl_state c)), l. }
  assert (route_step rest r rt data (route_head rt2 (rt_head rt2) 0) v2) as Hfinal.
  { destruct Hstep as [Hsame Hok2 He2 Hover2 Hdel2 Hb2 Hn2]. destruct Hbd as [c2 Hc2]. split; try done.
    - destruct Hok2 as [G1 G2]. split; [done|]. simpl. rewrite Hc2 in *. exact G2.
    - intros _. destruct (Hdel2 Ht) as (left & E & Hl). exists left. simpl. rewrite E. unfold route_pending at 1. simpl.
      rewrite Hpc, Hlog, Hpend. split; [done|]. intros E'. rewrite (Hl E'). unfold route_pending. simpl. by rewrite Hc2.
    - rewrite Hb. by intros [].
    - intros _ _. split; [done|]. simpl. rewrite Hb2 by (by eexists). simpl. by rewrite Hpend. }
  destruct (negb (is_ok ret) || rt_terminal (route_head rt2 (rt_head rt2) 0)) eqn:Estop.
  - split; [done|]. apply orb_true_iff in Estop as [E|E]; [|done].
    destruct (Hover Ht) as [->|E']; [done|exact E'].
  - split_and!; [done|done|]. by destruct Hfinal as [[? _] _ _ _ _ _ _].
Qed.

(** Bytes of the stream for a route, bound or not. *)
Lemma route_receive_step rest r rt diag v data : table_ok r → route_ok r rt → rt_active rt = true →
  rt_terminal rt = false → env_ok (rest + route_cost rt) v → 0 ≤ rest → bytes_ok data →
  ∃ ret rt' v', route_receive app r rt true diag v (rt_stream rt) data = Some (ret, rt', v') ∧
    route_step rest r rt data rt' v'.
Proof.
  intros Htab Hok Ha Ht Hv Hrest Hd. unfold route_receive. destruct (rt_binding rt) as [c|] eqn:Hb.
  { destruct (bound_receive_step rest r rt c v data Hok Hb Hrest Hv Hd) as (ret & rt' & v' & E & Hs & _). eauto. }
  pose proof Hok as [[Hl Hby] Hs]. rewrite Hb, Ha in Hs. unfold route_waits in Hs. rewrite Ht in Hs. destruct Hs as [Hlog Hu].
  destruct (gather_bytes (rt_head rt) (rt_used rt) data Hl Hby Hd Hu) as (Gl & Gb & Ga & Gt).
  set (amount := Z.min (TR_RPC_RECORD_HEADER_SIZE - rt_used rt) (alen data)) in *.
  set (head := put_at (rt_head rt) (rt_used rt) (take (Z.to_nat amount) data)) in *.
  cbn zeta. cbn [rt_used rt_head route_head]. set (used := rt_used rt + amount) in *.
  assert (0 ≤ used ≤ 48) as Hused by (unfold used, amount, TR_RPC_RECORD_HEADER_SIZE in *; lia).
  assert (alen (take (Z.to_nat used) head) = used) as Hul by (apply alen_take; unfold alen; rewrite Gl; lia).
  assert (route_pending rt = take (Z.to_nat (rt_used rt)) (rt_head rt)) as Hp by (unfold route_pending; by rewrite Hb).
  unfold route_cost in Hv. rewrite Hb in Hv.
  destruct (tr_rpc_record_decode_header _ _ _ _ _) as [ret o] eqn:Hdec.
  assert (ret ≠ TR_AGAIN → ret ≠ TR_OK → ∃ ret' rt' v',
    Some (ret, route_reject (route_head rt head used) ret, v) = Some (ret', rt', v') ∧ route_step rest r rt data rt' v') as Hrej.
  { intros _ _. eexists _, _, _. split; [done|]. unfold route_reject.
    assert (route_head rt head used = route_bind (route_head rt head used) None (rt_method rt)) as -> by (destruct rt; simpl in *; by subst).
    by apply over_step. }
  destruct (decide (ret = TR_AGAIN)) as [->|Hna].
  { eexists _, _, _. split; [done|]. apply decode_header_again in Hdec as [-> H48].
    apply (step_gathered rest r rt (route_head rt head used) data []); try done.
    - apply route_step_refl; [|by unfold route_cost; simpl; rewrite Hb]. split; [done|]. simpl. rewrite Hb, Ha.
      unfold route_waits. simpl. rewrite Ht. unfold TR_RPC_RECORD_HEADER_SIZE. split; [done|lia].
    - rewrite app_nil_r, Hp. unfold route_pending. simpl. rewrite Hb, Gt. f_equal. apply take_ge.
      unfold used, amount, TR_RPC_RECORD_HEADER_SIZE, alen in *. lia. }
  destruct (decide (ret = TR_OK)) as [->|Hno].
  2: { destruct ret, o as [[]|]; try done; by apply Hrej. }
  assert (Hdec' := Hdec). rewrite <- Hul in Hdec' at 2. destruct (decode_header_ok_some _ _ _ Hdec') as [[header total] ->].
  pose proof (decode_header_inv _ _ _ _ Hdec') as [H48 _]. rewrite Hul in H48. assert (used = 48) as Eu by lia.
  assert (take (Z.to_nat used) head = head) as Eh by (apply take_ge; lia). rewrite Eh, Eu in Hdec.
  assert (route_pending rt ++ take (Z.to_nat amount) data = head) as Hhead by (by rewrite Hp, <- Gt).
  pose proof (open_route_step rest r rt head (take (Z.to_nat amount) data) diag v header total Htab Hok Hb Ha Ht
    (conj Gl Gb) Hdec Hhead Hv Hrest) as Hopen.
  rewrite Eu. change 48 with TR_RPC_RECORD_HEADER_SIZE.
  destruct (open_route _ _ _ _ _ _ _ _) as [[[[ret rt'] v']|[rt' v']]|]; [| |done].
  - destruct Hopen as [Hstep Hover]. eexists _, _, _. split; [done|].
    rewrite <- (take_drop (Z.to_nat amount) data). by apply step_over_more.
  - destruct Hopen as (Hstep & [c Hc] & Hst). rewrite <- Hst.
    destruct (bound_receive_step rest r rt' c v' (drop (Z.to_nat amount) data)) as (ret & rt2 & v2 & -> & Hstep2 & _);
      [apply Hstep|done|done|apply Hstep|by apply bytes_ok_drop|].
    eexists _, _, _. split; [done|]. rewrite <- (take_drop (Z.to_nat amount) data).
    by eapply step_compose_bound.
Qed.

(** The history of a call: what it was told, and that it ended once and last. *)
Definition told_over (l : list stream_log) : Prop := ∃ l0 s d, Forall going_event l0 ∧ l = l0 ++ [Lg_terminal s d].

Lemma route_told r rt : route_ok r rt → rt_active rt = true →
  if rt_terminal rt then told_over (rt_log rt) else Forall going_event (rt_log rt).
Proof.
  intros [_ Hs] Ha. destruct (rt_binding rt) as [c|].
  - destruct Hs as (_ & Hc & _ & -> & _). destruct (co_log _ _ Hc) as (l & Hl & ->).
    destruct (rs_terminal (cl_state c)); [by eexists _, _, _|by rewrite app_nil_r].
  - rewrite Ha in Hs. unfold route_waits in Hs. destruct (rt_terminal rt).
    + destruct Hs as (_ & s & d & ->). by exists [], s, d.
    + destruct Hs as [-> _]. constructor.
Qed.

(** The call of a route, in the environment that its operations see. *)
Lemma route_call_ok rest r rt c v : route_ok r rt → rt_binding rt = Some c → 0 ≤ rest →
  env_ok (rest + route_cost rt) v → stream_ok (rest + sizeof_stream) c (with_log v (rt_log rt)).
Proof.
  intros [_ Hs] Hb Hrest Hv. rewrite Hb in Hs. destruct Hs as (_ & Hc & _). unfold route_cost in Hv. rewrite Hb, Z.add_assoc in Hv.
  apply call_stream_ok; [done|unfold sizeof_stream; lia|done].
Qed.

Lemma route_unbound_step rest r rt data s d v : route_ok r rt → rt_binding rt = None →
  rt_active rt = true → rt_terminal rt = false → env_ok (rest + route_cost rt) v →
  route_step rest r rt data (tr_router_terminal rt s d) v.
Proof.
  intros Hok Hb Ha Ht Hv. unfold route_cost in Hv. rewrite Hb in Hv.
  assert (route_bind (route_head rt (rt_head rt) (rt_used rt)) None (rt_method rt) = rt) as E by (destruct rt; simpl in *; by subst).
  rewrite <- E at 2. apply over_step; try done. apply Hok.
Qed.

Lemma route_event_step rest r rt v event status ret rt' v' : route_ok r rt → rt_active rt = true →
  rt_terminal rt = false → env_ok (rest + route_cost rt) v → 0 ≤ rest →
  route_event r rt true v (rt_stream rt) event status = (ret, rt', v') → route_step rest r rt [] rt' v'.
Proof.
  intros Hok Ha Ht Hv Hrest H. unfold route_event, bound_event in H. destruct (rt_binding rt) as [c|] eqn:Hb.
  - unfold tr_rpc_record_stream_event_on_owner in H. cbn [negb] in H.
    destruct (stream_event _ _ _ _ _) as [[ret1 c'] v1] eqn:E. injection H as <- <- <-.
    eapply bound_step; [done..|]. eapply stream_event_ok; [|exact E]. by eapply route_call_ok.
  - case_ifs_in H; simplify_eq/=; first [by apply route_unbound_step|by apply route_step_refl].
Qed.

Lemma route_abort_step rest r rt v status ret rt' v' : route_ok r rt → rt_active rt = true →
  rt_terminal rt = false → env_ok (rest + route_cost rt) v → 0 ≤ rest →
  match rt_binding rt with
  | Some _ =>
      let '(ret, c, v') := tr_rpc_record_stream_abort_on_owner (rt_binding rt) true (with_log v (rt_log rt)) status in
      (ret, route_after rt c v', with_log v' (en_log v))
  | None => (TR_OK, tr_router_terminal rt status TR_RPC_RECORD_ON_OWNER, v)
  end = (ret, rt', v') → route_step rest r rt [] rt' v' ∧
    (TR_RPC_STATUS_OK < status < TR_RPC_STATUS_COUNT → rt_terminal rt' = true).
Proof.
  intros Hok Ha Ht Hv Hrest H. destruct (rt_binding rt) as [c|] eqn:Hb.
  - unfold tr_rpc_record_stream_abort_on_owner in H. cbn [negb] in H.
    destruct (stream_abort _ _ _) as [[ret1 c'] v1] eqn:E. injection H as <- <- <-.
    pose proof (route_call_ok _ _ _ _ _ Hok Hb Hrest Hv) as Hso.
    pose proof (stream_abort_ok _ _ _ _ _ _ _ Hso E) as Hop. split; [by eapply bound_step|].
    intros Hst. destruct (bound_after _ _ _ _ _ _ _ _ Hok Hb Hop) as (_ & _ & ->). by eapply stream_abort_over.
  - injection H as <- <- <-. split; [by apply route_unbound_step|]. unfold tr_router_terminal. by rewrite Ht.
Qed.

Lemma route_send_step rest r rt v h md body ret body' call' v' : route_ok r rt → is_Some (rt_binding rt) →
  header_arg_ok h → env_ok (rest + route_cost rt) v → 0 ≤ rest →
  tr_rpc_record_stream_send_on_owner (rt_binding rt) true (with_log v (rt_log rt)) h md body = (ret, body', call', v') →
  route_step rest r rt [] (route_after rt call' v') (with_log v' (en_log v)).
Proof.
  intros Hok [c Hb] Hh Hv Hrest H. unfold tr_rpc_record_stream_send_on_owner in H. rewrite Hb in H. cbn [negb] in H.
  destruct (stream_send _ _ _ _ _) as [[[ret1 body1] c'] v1] eqn:E. injection H as <- <- <- <-.
  eapply bound_step; [done..|]. eapply stream_send_ok; [|done|exact E]. by eapply route_call_ok.
Qed.

(** The end of a route's call that is over. *)
Lemma route_destroy_spec rest r rt c v : route_ok r rt → rt_binding rt = Some c → rt_terminal rt = true →
  env_ok (rest + route_cost rt) v → 0 ≤ rest →
  ∃ v', route_destroy rt true v = (TR_OK, route_bind rt None (rt_method rt), v') ∧ env_ok rest v'.
Proof.
  intros Hok Hb Ht Hv Hrest. pose proof (route_call_ok _ _ _ _ _ Hok Hb Hrest Hv) as Hso.
  pose proof Hok as [_ Hs]. rewrite Hb in Hs. destruct Hs as (_ & _ & _ & Htc & _).
  destruct (destroy_ok rest c _ Hso Hrest) as (v' & E & Hv' & _).
  { by rewrite <- Htc, Ht, andb_false_r. }
  unfold route_destroy. rewrite Hb, E. eexists. split; [done|]. by apply env_with_log.
Qed.

(** The end of any active route. *)
Lemma close_route_spec rest r rt v : route_ok r rt → rt_active rt = true → env_ok (rest + route_cost rt) v → 0 ≤ rest →
  ∃ rt' v', close_route rt true v = (TR_OK, rt', v') ∧ rt_binding rt' = None ∧ env_ok rest v' ∧ told_over (rt_log rt') ∧
    rt_generation rt' = rt_generation rt ∧ rt_index rt' = rt_index rt ∧ rt_stream rt' = rt_stream rt ∧
    (length (rt_head rt') = 48%nat ∧ bytes_ok (rt_head rt')) ∧ rt_log rt `prefix_of` rt_log rt'.
Proof.
  intros Hok Ha Hv Hrest. unfold close_route. destruct (rt_binding rt) as [c|] eqn:Hb.
  2: { pose proof Hok as [[Hh1 Hh2] _]. pose proof (route_told _ _ Hok Ha) as Htold. unfold route_cost in Hv. rewrite Hb, Z.add_0_r in Hv.
       eexists _, _. split; [done|]. unfold tr_router_terminal. destruct (rt_terminal rt); simpl.
       - by split_and!.
       - split_and!; try done; [by eexists _, _, _|by apply prefix_app_r]. }
  assert (∃ rt1 v1, (if negb (rt_terminal rt) then
      let '(_, c, v') := tr_rpc_record_stream_abort_on_owner (Some c) true (with_log v (rt_log rt)) TR_RPC_STATUS_CANCELLED in
      (route_after rt c v', with_log v' (en_log v)) else (rt, v)) = (rt1, v1) ∧
      route_step rest r rt [] rt1 v1 ∧ rt_terminal rt1 = true ∧ is_Some (rt_binding rt1) ∧ rt_log rt `prefix_of` rt_log rt1)
    as (rt1 & v1 & -> & Hstep & Ht1 & [c1 Hb1] & Hpre).
  { destruct (rt_terminal rt) eqn:Ht; cbn [negb].
    - eexists _, _. split; [done|]. split_and!; [by apply route_step_refl|done|by eexists|done].
    - destruct (tr_rpc_record_stream_abort_on_owner _ _ _ _) as [[ret c'] v'] eqn:E. eexists _, _. split; [done|].
      destruct (route_abort_step rest r rt v TR_RPC_STATUS_CANCELLED ret (route_after rt c' v') (with_log v' (en_log v)))
        as [Hstep Hover]; try done; [by rewrite Hb, E|]. split_and!; [done|by apply Hover| |].
      all: unfold tr_rpc_record_stream_abort_on_owner in E; cbn [negb] in E;
        destruct (stream_abort _ _ _) as [[ret1 c1] v1] eqn:E1; injection E as <- <- <-;
        pose proof (route_call_ok _ _ _ _ _ Hok Hb Hrest Hv) as Hso;
        destruct (bound_after _ _ _ _ _ _ _ _ Hok Hb (stream_abort_ok _ _ _ _ _ _ _ Hso E1)) as (E2 & ? & _);
        by rewrite ?E2. }
  destruct Hstep as [(S1 & S2 & S3 & S4) Hok1 He1 _ _ _ _].
  destruct (route_destroy_spec rest r rt1 c1 v1 Hok1 Hb1 Ht1 He1 Hrest) as (v2 & -> & Hv2).
  eexists _, _. split; [done|]. pose proof (route_told _ _ Hok1) as Htold. rewrite S4, Ht1 in Htold. simpl.
  split_and!; try done; [by apply Htold|apply Hok1|apply Hok1].
Qed.

(** * Lemmas: the router *)

Definition told_gens r : list Z :=
  map fst (rr_past r) ++ omap (λ rt, if rt_active rt then Some (rt_generation rt) else None) (rr_routes r).

Lemma told_gens_fst r : map fst (router_told r) = told_gens r.
Proof.
  unfold router_told, told_gens. rewrite map_app. f_equal.
  induction (rr_routes r) as [|rt l IH]; simpl; [done|]. destruct (rt_active rt); [simpl; by f_equal|done].
Qed.

Record router_ok (base : Z) r v : Prop := {
  rk_env : env_ok (base + rr_bytes r + zsum route_cost (rr_routes r)) v;
  rk_base : 0 ≤ base ∧ 0 ≤ rr_bytes r;
  rk_idle : rr_depth r = 0 ∧ rr_retiring r = false;
  rk_length : length (rr_routes r) = Z.to_nat (rr_capacity r) ∧ 0 ≤ rr_capacity r;
  rk_index : ∀ i rt, rr_routes r !! i = Some rt → rt_index rt = Z.of_nat i;
  rk_table : table_ok r;
  rk_routes : Forall (route_ok r) (rr_routes r);
  rk_generation : 0 ≤ rr_generation r ≤ UINT64_MAX;
  rk_gens : Forall (λ g, 0 < g ≤ rr_generation r) (told_gens r);
  rk_once : NoDup (told_gens r);
  rk_streams : ∀ i j a b, rr_routes r !! i = Some a → rr_routes r !! j = Some b →
    rt_active a = true → rt_active b = true → rt_stream a = rt_stream b → i = j;
  rk_channel : ∀ i a, rr_routes r !! i = Some a → rt_active a = true → sh_channel (rt_stream a) = rr_channel r;
  rk_past : Forall (λ p, told_over p.2) (rr_past r)
}.

Lemma route_cost_nonneg r rt : route_ok r rt → 0 ≤ route_cost rt.
Proof.
  intros [_ Hs]. unfold route_cost. destruct (rt_binding rt) as [c|]; [|done].
  destruct Hs as (_ & Hc & _). pose proof (buffers_size _ (co_buffers _ _ Hc)). unfold sizeof_stream. lia.
Qed.

(** The budget held besides a route. *)
Definition others base r rt : Z := base + rr_bytes r + (zsum route_cost (rr_routes r) - route_cost rt).

Lemma others_env base r v i rt : router_ok base r v → rr_routes r !! i = Some rt →
  env_ok (others base r rt + route_cost rt) v ∧ 0 ≤ others base r rt ∧ route_ok r rt.
Proof.
  intros Hok Hi. pose proof (Forall_lookup_1 _ _ _ _ (rk_routes _ _ _ Hok) Hi) as Hr. split_and!; [| |done].
  - replace (others base r rt + route_cost rt) with (base + rr_bytes r + zsum route_cost (rr_routes r)) by (unfold others; lia).
    apply Hok.
  - destruct (rk_base _ _ _ Hok). unfold others.
    assert (route_cost rt ≤ zsum route_cost (rr_routes r)); [|lia].
    eapply zsum_lookup_le; [|exact Hi]. intros y Hy.
    by eapply route_cost_nonneg, (proj1 (list.Forall_forall _ _) (rk_routes _ _ _ Hok)).
Qed.

Lemma route_ok_router r r' rt : rr_methods r' = rr_methods r → (rr_retiring r' = false → rr_retiring r = false) →
  route_ok r rt → route_ok r' rt.
Proof.
  intros Em Er [Hh Hs]. split; [done|]. destruct (rt_binding rt) as [c|].
  - destruct Hs as (H1 & H2 & H3 & H4 & H5). split_and!; try done.
    destruct H5 as (i & m & h & total & H). exists i, m, h, total. by rewrite Em.
  - destruct (rt_active rt); [done|]. auto.
Qed.

Lemma put_route_at r v base rt rt' i : router_ok base r v → rr_routes r !! i = Some rt → rt_index rt' = rt_index rt →
  put_route r rt' = set_routes r (<[i := rt']> (rr_routes r)).
Proof.
  intros Hok Hi E. unfold put_route, aset. rewrite E, (rk_index _ _ _ Hok _ _ Hi). by rewrite Nat2Z.id.
Qed.

Lemma enter_leave base r v rt : router_ok base r v → router_leave (put_route (router_enter r) rt) = put_route r rt.
Proof.
  intros Hok. destruct (rk_idle _ _ _ Hok) as [E _]. destruct r. simpl in *. subst. done.
Qed.

(** A route changes: its stream, its generation and whether it is active stay. *)
Lemma put_route_ok base r v i rt data rt' v' : router_ok base r v → rr_routes r !! i = Some rt →
  route_step (others base r rt) r rt data rt' v' → router_ok base (put_route r rt') v'.
Proof.
  intros Hok Hi [(S1 & S2 & S3 & S4) Hok' He _ _ _ _]. rewrite (put_route_at r v base rt rt' i Hok Hi S3).
  assert (∀ j a, <[i := rt']> (rr_routes r) !! j = Some a → ∃ b, rr_routes r !! j = Some b ∧ rt_stream a = rt_stream b ∧
    rt_active a = rt_active b ∧ rt_index a = rt_index b) as Hback.
  { intros j a. rewrite list_lookup_insert_Some. intros [(-> & -> & _)|[_ ?]]; eauto 10. }
  assert (told_gens (set_routes r (<[i := rt']> (rr_routes r))) ≡ₚ told_gens r) as Hp.
  { unfold told_gens. simpl. apply Permutation_app_head.
    pose proof (omap_insert_perm (λ rt, if rt_active rt then Some (rt_generation rt) else None) _ i rt rt' Hi) as H.
    simpl in H. rewrite S2, S4 in H. by apply Permutation_app_inv_l in H. }
  destruct Hok as [Hv Hb Hidle Hl Hidx Htab Hr Hg Hgs Hnd Hst Hch Hpast]. split; simpl; try done.
  - rewrite (zsum_insert route_cost _ _ _ rt' Hi).
    replace (base + rr_bytes r + (zsum route_cost (rr_routes r) - route_cost rt + route_cost rt')) with
      (others base r rt + route_cost rt') by (unfold others; lia). done.
  - by rewrite length_insert.
  - intros j a Ha. destruct (Hback j a Ha) as (b & Hj & _ & _ & ->). by apply Hidx.
  - apply Forall_insert; [|by eapply (route_ok_router r)]. eapply Forall_impl; [exact Hr|]. intros x. by apply route_ok_router.
  - by rewrite Hp.
  - by rewrite Hp.
  - intros j k a b Ha Hb' Haa Hab E. destruct (Hback _ _ Ha) as (a1 & ? & ? & ? & _), (Hback _ _ Hb') as (b1 & ? & ? & ? & _).
    apply (Hst j k a1 b1); congruence.
  - intros j a Ha Haa. destruct (Hback _ _ Ha) as (a1 & ? & -> & ? & _). apply (Hch j a1); congruence.
Qed.

(** * Lemmas: finding routes *)

Lemma router_find_loop_spec routes stream :
  match router_find_loop routes stream with
  | Some rt => ∃ i, routes !! i = Some rt ∧ route_serves stream rt = true
  | None => ∀ i rt, routes !! i = Some rt → route_serves stream rt = false
  end.
Proof.
  induction routes as [|rt routes IH]; simpl; [done|]. destruct (route_serves stream rt) eqn:E; [by exists 0%nat|].
  destruct (router_find_loop routes stream) as [rt'|].
  - destruct IH as (i & ? & ?). by exists (S i).
  - intros [|i] rt' Hi; simplify_eq/=; [done|by eapply IH].
Qed.

Lemma serves_iff stream rt : sh_channel (rt_stream rt) = sh_channel stream →
  route_serves stream rt = true ↔ rt_active rt = true ∧ rt_stream rt = stream.
Proof.
  intros Hc. unfold route_serves. rewrite !andb_true_iff, !Z.eqb_eq.
  destruct (rt_stream rt), stream; simpl in *. subst. split; [by intros [[? ->] ->]|by intros [? [= -> ->]]].
Qed.

Lemma find_spec base r v stream : router_ok base r v →
  match tr_router_find r stream with
  | Some rt => ∃ i, rr_routes r !! i = Some rt ∧ rt_active rt = true ∧ rt_stream rt = stream
  | None => ∀ i rt, rr_routes r !! i = Some rt → rt_active rt = true → rt_stream rt ≠ stream
  end.
Proof.
  intros Hok. unfold tr_router_find. destruct (Z.eqb_spec (sh_channel stream) (rr_channel r)) as [Ec|Ec]; cbn [negb].
  - pose proof (router_find_loop_spec (rr_routes r) stream) as H. destruct (router_find_loop _ _) as [rt|].
    + destruct H as (i & Hi & Hs). exists i. split; [done|]. assert (rt_active rt = true) as Ha.
      { unfold route_serves in Hs. by destruct (rt_active rt). }
      apply serves_iff; [|done]. rewrite (rk_channel _ _ _ Hok _ _ Hi Ha). done.
    + intros i rt Hi Ha E. assert (route_serves stream rt = true) as Hs; [|by rewrite (H _ _ Hi) in Hs].
      apply serves_iff; [by rewrite E|done].
  - intros i rt Hi Ha <-. by apply Ec, (rk_channel _ _ _ Hok _ _ Hi).
Qed.

Lemma lookup_spec base r v handle : router_ok base r v → 0 ≤ ro_slot handle →
  match tr_router_lookup (Some r) true handle with
  | inl ret => ret ≠ TR_OK
  | inr (r', rt) => r' = r ∧ ∃ i, rr_routes r !! i = Some rt ∧ rt_active rt = true ∧
      rt_generation rt = ro_generation handle ∧ ro_slot handle = Z.of_nat i
  end.
Proof.
  intros Hok Hslot. unfold tr_router_lookup, tr_router_owner. change (is_ok TR_OK) with true. cbn [negb].
  destruct (rr_retiring r) eqn:Er; [done|]. case_if; [done|]. cbn zeta.
  destruct (negb (rt_active _) || negb _) eqn:E; [done|]. bool_to_prop. split; [done|].
  exists (Z.to_nat (ro_slot handle)). destruct (rk_length _ _ _ Hok) as [Hl Hc].
  split_and!; [|done|done|lia]. unfold aget. apply list_lookup_lookup_total_lt. lia.
Qed.

(** * Lemmas: what happens to each route *)

(** What a route has delivered of the bytes of its stream, and whose header it opened with. *)
Definition fed_route (fed : list Z) rt : Prop :=
  (∃ left, log_bytes (rt_log rt) ++ left = fed ∧ (rt_terminal rt = false → left = route_pending rt)) ∧
  (is_Some (rt_binding rt) → rt_head rt `prefix_of` fed).

Lemma fed_over fed rt data : fed_route fed rt → rt_terminal rt = true → fed_route (fed ++ data) rt.
Proof.
  intros [(left & <- & _) Hh] Ht. split.
  - exists (left ++ data). rewrite app_assoc. split; [done|congruence].
  - intros Hb. by apply prefix_app_r, Hh.
Qed.

Lemma fed_route_step rest r rt data rt' v' fed : route_ok r rt → rt_active rt = true →
  route_step rest r rt data rt' v' → fed_route fed rt → fed_route (fed ++ data) rt'.
Proof.
  intros Hok Ha [_ _ _ Hover Hdel Hb Hn] [(left & <- & Hl) Hh]. split.
  - destruct (rt_terminal rt) eqn:Ht.
    + destruct (Hover eq_refl) as [Ht' El]. exists (left ++ data). rewrite El, app_assoc. split; [done|congruence].
    + destruct (Hdel eq_refl) as (left' & E & Hl'). exists left'. by rewrite E, (Hl eq_refl), app_assoc.
  - intros Hb'. destruct (rt_binding rt) as [c|] eqn:Eb.
    + rewrite Hb by (by eexists). by apply prefix_app_r, Hh.
    + destruct (Hn eq_refl Hb') as [Ht Hp]. rewrite (Hl Ht). destruct Hok as [_ Hs]. rewrite Eb, Ha in Hs.
      unfold route_waits in Hs. rewrite Ht in Hs. by destruct Hs as [-> _].
Qed.

(** A route between two moments: it goes on, or is gone, or is another. *)
Inductive route_moves (g : Z) rt (data : list Z) rt' : Prop :=
| Mv_stays (Ha : rt_active rt' = rt_active rt) (Hg : rt_generation rt' = rt_generation rt)
    (Hs : rt_stream rt' = rt_stream rt)
    (Hf : rt_active rt = true → ∀ fed, fed_route fed rt → fed_route (fed ++ data) rt')
| Mv_retired (Ha : rt_active rt' = false)
| Mv_admitted (Ha : rt_active rt = false) (Hg : g < rt_generation rt').

Inductive router_op :=
| Ro_admit (stream : tr_stream_handle) (diag : tr_status)
| Ro_receive (stream : tr_stream_handle) (diag : tr_status * Z) (data : option (list Z))
| Ro_event (stream : tr_stream_handle) (event status : Z)
| Ro_send (handle : tr_rpc_route_handle) (h : option tr_rpc_record_header) (metadata : option (list Z))
    (body : option tx_body)
| Ro_abort (handle : tr_rpc_route_handle) (status : Z)
| Ro_retire (handle : tr_rpc_route_handle)
| Ro_prefix_release (i : nat).

Definition router_op_ok (op : router_op) : Prop :=
  match op with
  | Ro_receive _ _ (Some data) => bytes_ok data
  | Ro_send handle h _ _ => 0 ≤ ro_slot handle ∧ header_arg_ok h
  | Ro_abort handle _ | Ro_retire handle => 0 ≤ ro_slot handle
  | _ => True
  end.

(** One operation, on the owner or not. *)
Definition router_step (owner : bool) (op : router_op) r v : option (tr_status * tr_rpc_record_router * stream_env B) :=
  match op with
  | Ro_admit stream diag =>
      let '(ret, r', _) := tr_rpc_record_router_admit_on_owner (Some r) owner stream diag true in
      Some (ret, default r r', v)
  | Ro_receive stream diag data =>
      '(ret, r', v) ← tr_rpc_record_router_receive_on_owner app (Some r) owner diag v stream data;
      Some (ret, default r r', v)
  | Ro_event stream event status =>
      let '(ret, r', v) := tr_rpc_record_router_event_on_owner (Some r) owner v stream event status in
      Some (ret, default r r', v)
  | Ro_send handle h metadata body =>
      let '(ret, _, r', v) := tr_rpc_record_router_send_on_owner (Some r) handle owner v h metadata body in
      Some (ret, default r r', v)
  | Ro_abort handle status =>
      let '(ret, r', v) := tr_rpc_record_router_abort_on_owner (Some r) handle owner v status in
      Some (ret, default r r', v)
  | Ro_retire handle =>
      let '(ret, r', v) := tr_rpc_record_router_retire_on_owner (Some r) handle owner v in
      Some (ret, default r r', v)
  | Ro_prefix_release i => Some (TR_OK, r, tr_record_prefix_release i v)
  end.

(** The bytes of a stream that an operation brings. *)
Definition op_bytes (stream : tr_stream_handle) (owner : bool) (op : router_op) : list Z :=
  match op with
  | Ro_receive s _ (Some data) => if owner && bool_decide (s = stream) then data else []
  | _ => []
  end.

(** What an operation leaves of a router. *)
Record router_moves (base : Z) (bytes : tr_stream_handle → list Z) r r' v' : Prop := {
  rv_ok : router_ok base r' v';
  rv_same : rr_methods r' = rr_methods r ∧ rr_capacity r' = rr_capacity r ∧ rr_bytes r' = rr_bytes r ∧
    rr_channel r' = rr_channel r ∧ rr_method_count r' = rr_method_count r;
  rv_generation : rr_generation r ≤ rr_generation r';
  rv_routes : ∀ i rt, rr_routes r !! i = Some rt → ∃ rt', rr_routes r' !! i = Some rt' ∧
    route_moves (rr_generation r) rt (bytes (rt_stream rt)) rt'
}.

Definition no_bytes (stream : tr_stream_handle) : list Z := [].

Lemma moves_refl base bytes r v : router_ok base r v →
  (∀ i rt, rr_routes r !! i = Some rt → rt_active rt = true → rt_terminal rt = false → bytes (rt_stream rt) = []) →
  router_moves base bytes r r v.
Proof.
  intros Hok Hb. split; [done|done|done|]. intros i rt Hi. exists rt. split; [done|].
  apply Mv_stays; [done..|]. intros Ha fed Hf. destruct (rt_terminal rt) eqn:Ht; [by apply fed_over|].
  by rewrite (Hb _ _ Hi Ha Ht), app_nil_r.
Qed.

Lemma moves_put base bytes r v i rt data rt' v' : router_ok base r v → rr_routes r !! i = Some rt → rt_active rt = true →
  route_step (others base r rt) r rt data rt' v' → bytes (rt_stream rt) = data →
  (∀ s, s ≠ rt_stream rt → bytes s = []) → router_moves base bytes r (put_route r rt') v'.
Proof.
  intros Hok Hi Ha Hstep Hd Hno. pose proof Hstep as [(S1 & S2 & S3 & S4) _ _ _ _ _ _].
  pose proof (put_route_ok _ _ _ _ _ _ _ _ Hok Hi Hstep) as Hok'.
  rewrite (put_route_at r v base rt rt' i Hok Hi S3) in *. split; [done|done|done|].
  intros j a Hj. simpl. destruct (decide (j = i)) as [->|Hne].
  - rewrite Hi in Hj. injection Hj as <-. exists rt'. split; [by rewrite list_lookup_insert_eq by (by eapply lookup_lt_Some)|].
    apply Mv_stays; [done..|]. intros _ fed. rewrite Hd. by eapply fed_route_step, Hstep; [apply (others_env _ _ _ _ _ Hok Hi)|].
  - exists a. split; [by rewrite list_lookup_insert_ne|]. apply Mv_stays; [done..|]. intros Haa fed Hf.
    rewrite Hno, app_nil_r; [done|]. intros E. by apply Hne, (rk_streams _ _ _ Hok j i a rt).
Qed.

(** * Lemmas: the operations of a router *)

Lemma admit_loop_spec routes stream free :
  match admit_loop routes stream free with
  | inl ret => ret = TR_ERR_STATE
  | inr None => free = None
  | inr (Some rt) => (free = Some rt ∨ ∃ i, routes !! i = Some rt ∧ rt_active rt = false) ∧
      ∀ i a, routes !! i = Some a → route_serves stream a = false
  end.
Proof.
  revert free. induction routes as [|rt routes IH]; intros free; simpl; [destruct free; [split; [by left|done]|done]|].
  destruct (route_serves stream rt) eqn:E; [done|]. destruct (negb (rt_active rt) && negb _) eqn:Et;
    [specialize (IH (Some rt))|specialize (IH free)]; destruct (admit_loop _ _ _) as [|[a|]]; try done.
  all: destruct IH as [H1 H2]; (split; [|intros [|i] b Hi; simplify_eq/=; [done|by eapply H2]]).
  all: destruct H1 as [H1|(i & Hi & Ha)]; [|right; by exists (S i)].
  - injection H1 as <-. bool_to_prop. right. by exists 0%nat.
  - by left.
Qed.

(** A free slot. *)
Lemma slot_free base r v i rt : router_ok base r v → rr_routes r !! i = Some rt → rt_active rt = false →
  rt_binding rt = None ∧ rt_terminal rt = false ∧ rt_used rt = 0 ∧ length (rt_head rt) = 48%nat ∧ bytes_ok (rt_head rt).
Proof.
  intros Hok Hi Ha. destruct (others_env _ _ _ _ _ Hok Hi) as (_ & _ & [[Hh1 Hh2] Hs]).
  destruct (rt_binding rt) as [c|]; [destruct Hs; congruence|]. rewrite Ha in Hs.
  destruct (Hs (proj2 (rk_idle _ _ _ Hok))). done.
Qed.

(** A stream takes a free slot. *)
Lemma admit_put base r v i rt stream : router_ok base r v → rr_routes r !! i = Some rt → rt_active rt = false →
  rr_generation r ≠ UINT64_MAX → sh_channel stream = rr_channel r →
  (∀ j a, rr_routes r !! j = Some a → rt_active a = true → rt_stream a ≠ stream) →
  let rt' := route_admit rt stream (rr_generation r + 1) in
  router_moves base no_bytes r (set_routes (set_generation r (rr_generation r + 1)) (<[i := rt']> (rr_routes r))) v.
Proof.
  intros Hok Hi Ha Hg Ec Hfree rt'. destruct (slot_free _ _ _ _ _ Hok Hi Ha) as (Hb & Ht & Hu & Hh).
  assert (told_gens (set_routes (set_generation r (rr_generation r + 1)) (<[i := rt']> (rr_routes r))) ≡ₚ
    (rr_generation r + 1) :: told_gens r) as Hp.
  { unfold told_gens. simpl.
    pose proof (omap_insert_perm (λ rt, if rt_active rt then Some (rt_generation rt) else None) _ i rt rt' Hi) as H.
    simpl in H. rewrite Ha in H. simpl in H. rewrite H. by rewrite <- Permutation_middle. }
  assert (rt_active rt' = true ∧ rt_stream rt' = stream) as [Ha' Est'] by done.
  assert (∀ j a, <[i := rt']> (rr_routes r) !! j = Some a → (j = i ∧ a = rt') ∨ (j ≠ i ∧ rr_routes r !! j = Some a)) as Hback.
  { intros j a. rewrite list_lookup_insert_Some. intros [(-> & -> & _)|[? ?]]; auto. }
  split; [|done|simpl; lia|].
  - destruct Hok as [Hv Hbase Hidle Hl Hidx Htab Hr Hgen Hgs Hnd Hst Hch Hpast]. split; simpl; try done.
    + rewrite (zsum_insert route_cost _ _ _ rt' Hi).
      replace (route_cost rt') with (route_cost rt) by (unfold route_cost; simpl; by rewrite Hb).
      by rewrite Z.sub_add.
    + by rewrite length_insert.
    + intros j a Hj. destruct (Hback _ _ Hj) as [[-> ->]|[_ Hj']]; [exact (Hidx _ _ Hi)|by apply Hidx].
    + apply Forall_insert; [eapply Forall_impl; [exact Hr|]; intros x; by apply route_ok_router|].
      split; [done|]. simpl. rewrite Hb. unfold route_waits. simpl. rewrite Ht. by rewrite Hu.
    + lia.
    + rewrite Hp. constructor; [lia|]. eapply Forall_impl; [exact Hgs|]. simpl. lia.
    + rewrite Hp. constructor; [|done]. intros Hin. pose proof (proj1 (list.Forall_forall _ _) Hgs _ Hin) as E. simpl in E. lia.
    + intros j k a b Hja Hkb Haa Hbb E. destruct (Hback _ _ Hja) as [[-> ->]|[? Hj]], (Hback _ _ Hkb) as [[-> ->]|[? Hk]]; try done.
      * exfalso. by apply (Hfree k b).
      * exfalso. by apply (Hfree j a).
      * by apply (Hst j k a b).
    + intros j a Hj Haa. destruct (Hback _ _ Hj) as [[-> ->]|[_ Hj']]; [done|by eapply Hch].
  - intros j a Hj. simpl. destruct (decide (j = i)) as [->|Hne].
    + rewrite Hi in Hj. injection Hj as <-. exists rt'. split; [by rewrite list_lookup_insert_eq by (by eapply lookup_lt_Some)|].
      apply Mv_admitted; [done|]. simpl. lia.
    + exists a. split; [by rewrite list_lookup_insert_ne|]. apply Mv_stays; [done..|]. intros _ fed. by rewrite app_nil_r.
Qed.

(** What an admission answers. *)
Definition admitted (stream : tr_stream_handle) r (ret : tr_status) r1 (handle : option tr_rpc_route_handle) : Prop :=
  if is_ok ret then ∃ i rt, handle = Some (mk_route_handle (rr_generation r1) (Z.of_nat i)) ∧ rr_routes r1 !! i = Some rt ∧
    rt_active rt = true ∧ rt_generation rt = rr_generation r1 ∧ rt_stream rt = stream ∧ fed_route [] rt
  else handle = None ∧ r1 = r.

Lemma admit_moves base r v stream diag : router_ok base r v →
  let '(ret, r', handle) := tr_rpc_record_router_admit_on_owner (Some r) true stream diag true in
  ∃ r1, r' = Some r1 ∧ router_moves base no_bytes r r1 v ∧ admitted stream r ret r1 handle.
Proof.
  intros Hok. unfold tr_rpc_record_router_admit_on_owner, tr_router_owner. change (is_ok TR_OK) with true. cbn [negb].
  assert (∀ ret, ret ≠ TR_OK → ∃ r1, Some r = Some r1 ∧ router_moves base no_bytes r r1 v ∧ admitted stream r ret r1 None) as Hno.
  { intros ret Hr. exists r. split; [done|]. split; [by apply moves_refl|]. unfold admitted.
    destruct (is_ok ret) eqn:E; [by apply is_ok_true in E|done]. }
  destruct (rk_idle _ _ _ Hok) as [Ed Er]. rewrite Ed, Er. cbn [Z.eqb negb orb].
  destruct (Z.eqb_spec (sh_channel stream) (rr_channel r)) as [Ec|_]; cbn [negb]; [|by apply Hno].
  destruct (is_ok diag) eqn:Edi; cbn [negb]; [|apply Hno; intros ->; done].
  pose proof (admit_loop_spec (rr_routes r) stream None) as Hl.
  destruct (admit_loop _ _ _) as [ret|[rt|]]; [subst ret; by apply Hno| |by apply Hno].
  destruct Hl as [[?|(i & Hi & Ha)] Hserve]; [done|].
  destruct (Z.eqb_spec (rr_generation r) UINT64_MAX) as [_|Hg]; [by apply Hno|].
  set (r1 := set_generation r (rr_generation r + 1)). set (rt' := route_admit rt stream (rr_generation r1)).
  assert (put_route r1 rt' = set_routes r1 (<[i := rt']> (rr_routes r))) as Eput.
  { unfold put_route, aset. simpl. by rewrite (rk_index _ _ _ Hok _ _ Hi), Nat2Z.id. }
  exists (put_route r1 rt'). split; [done|]. rewrite Eput. split.
  - apply (admit_put base r v i rt stream); try done. intros j a Hj Haa E. pose proof (Hserve j a Hj) as Hf.
    enough (route_serves stream a = true) by congruence. apply serves_iff; [by rewrite E|done].
  - destruct (slot_free _ _ _ _ _ Hok Hi Ha) as (Hb & Ht & Hu & Hh). exists i, rt'. unfold tr_route_handle. simpl.
    rewrite (rk_index _ _ _ Hok _ _ Hi). split_and!; try done; [by rewrite list_lookup_insert_eq by (by eapply lookup_lt_Some)|].
    split; simpl; [|rewrite Hb; by intros []]. exists []. split; [done|]. intros _. unfold route_pending. simpl. by rewrite Hb, Hu.
Qed.

(** Nothing changed, or an operation of one route. *)
Lemma put_moves base bytes r v i rt data rt' v' : router_ok base r v → rr_routes r !! i = Some rt → rt_active rt = true →
  route_step (others base r rt) r rt data rt' v' → bytes (rt_stream rt) = data → (∀ s, s ≠ rt_stream rt → bytes s = []) →
  router_moves base bytes r (router_leave (put_route (router_enter r) rt')) v'.
Proof. intros Hok ? ? ? ? ?. rewrite (enter_leave base r v rt' Hok). by eapply moves_put. Qed.

Lemma receive_moves base r v stream diag data : router_ok base r v → match data with Some d => bytes_ok d | None => True end →
  ∃ ret r1 v1, tr_rpc_record_router_receive_on_owner app (Some r) true diag v stream data = Some (ret, Some r1, v1) ∧
    router_moves base (λ s, op_bytes s true (Ro_receive stream diag data)) r r1 v1.
Proof.
  intros Hok Hd. unfold tr_rpc_record_router_receive_on_owner, tr_router_owner. change (is_ok TR_OK) with true. cbn [negb].
  destruct data as [data|]; [|eexists _, r, v; split; [done|]; by apply moves_refl].
  destruct (rk_idle _ _ _ Hok) as [Ed Er]. rewrite Ed, Er. cbn [Z.eqb negb orb].
  pose proof (find_spec base r v stream Hok) as Hf. destruct (tr_router_find r stream) as [rt|].
  2: { eexists _, r, v. split; [done|]. apply moves_refl; [done|]. intros i a Hi Ha _. simpl.
       rewrite bool_decide_false; [done|]. intros E. by apply (Hf i a). }
  destruct Hf as (i & Hi & Ha & Est). destruct (rt_terminal rt) eqn:Ht.
  { eexists _, r, v. split; [done|]. apply moves_refl; [done|]. intros j a Hj Haa Hta. simpl. rewrite bool_decide_false; [done|].
    intros E. assert (j = i) as ->; [by eapply (rk_streams _ _ _ Hok j i a rt); try done; congruence|]. congruence. }
  destruct (others_env _ _ _ _ _ Hok Hi) as (Hv & Hrest & Hrok).
  assert (table_ok (router_enter r)) as Htab by apply Hok.
  assert (route_ok (router_enter r) rt) as Hrok' by (by apply (route_ok_router r)).
  destruct (route_receive_step (others base r rt) (router_enter r) rt diag v data Htab Hrok' Ha Ht Hv Hrest Hd)
    as (ret & rt' & v' & E & Hstep).
  rewrite Est in E. rewrite E. eexists _, _, _. split; [done|]. eapply put_moves; [done|done|done| | |].
  - destruct Hstep as [H1 H2 H3 H4 H5 H6 H7]. split; [done| |exact H3|done..]. by apply (route_ok_router (router_enter r)).
  - simpl. by rewrite bool_decide_true.
  - intros s Hs. simpl. rewrite bool_decide_false; [done|]. congruence.
Qed.

Lemma event_moves base r v stream event status : router_ok base r v →
  let '(ret, r', v') := tr_rpc_record_router_event_on_owner (Some r) true v stream event status in
  ∃ r1, r' = Some r1 ∧ router_moves base no_bytes r r1 v'.
Proof.
  intros Hok. unfold tr_rpc_record_router_event_on_owner, tr_router_owner. change (is_ok TR_OK) with true. cbn [negb].
  assert (∃ r1, Some r = Some r1 ∧ router_moves base no_bytes r r1 v) as Hsame by (eexists; split; [done|]; by apply moves_refl).
  destruct (rk_idle _ _ _ Hok) as [Ed Er]. rewrite Ed, Er. cbn [Z.eqb negb orb].
  pose proof (find_spec base r v stream Hok) as Hf. destruct (tr_router_find r stream) as [rt|]; [|done].
  destruct Hf as (i & Hi & Ha & <-). do 3 (case_if; [done|]). destruct (rt_terminal rt) eqn:Ht; [done|].
  destruct (others_env _ _ _ _ _ Hok Hi) as (Hv & Hrest & Hrok).
  destruct (route_event _ _ _ _ _ _ _) as [[ret rt'] v'] eqn:E. eexists. split; [done|].
  eapply put_moves; [done|done|done| |done|done]. by eapply route_event_step, E.
Qed.

Lemma send_moves base r v handle h md body : router_ok base r v → 0 ≤ ro_slot handle → header_arg_ok h →
  let '(ret, _, r', v') := tr_rpc_record_router_send_on_owner (Some r) handle true v h md body in
  ∃ r1, r' = Some r1 ∧ router_moves base no_bytes r r1 v'.
Proof.
  intros Hok Hslot Hh. unfold tr_rpc_record_router_send_on_owner.
  assert (∃ r1, Some r = Some r1 ∧ router_moves base no_bytes r r1 v) as Hsame by (eexists; split; [done|]; by apply moves_refl).
  pose proof (lookup_spec base r v handle Hok Hslot) as Hl. destruct (tr_router_lookup _ _ _) as [ret|[r0 rt]]; [done|].
  destruct Hl as (-> & i & Hi & Ha & _). destruct (negb _ || rt_terminal rt) eqn:E; [done|]. bool_to_prop.
  destruct (others_env _ _ _ _ _ Hok Hi) as (Hv & Hrest & Hrok).
  destruct (tr_rpc_record_stream_send_on_owner _ _ _ _ _ _) as [[[ret body'] c] v'] eqn:Es. eexists. split; [done|].
  eapply put_moves; [done|done|done| |done|done]. by eapply route_send_step, Es.
Qed.

Lemma abort_moves base r v handle status : router_ok base r v → 0 ≤ ro_slot handle →
  let '(ret, r', v') := tr_rpc_record_router_abort_on_owner (Some r) handle true v status in
  ∃ r1, r' = Some r1 ∧ router_moves base no_bytes r r1 v'.
Proof.
  intros Hok Hslot. unfold tr_rpc_record_router_abort_on_owner.
  assert (∃ r1, Some r = Some r1 ∧ router_moves base no_bytes r r1 v) as Hsame by (eexists; split; [done|]; by apply moves_refl).
  pose proof (lookup_spec base r v handle Hok Hslot) as Hl. destruct (tr_router_lookup _ _ _) as [ret|[r0 rt]]; [done|].
  destruct Hl as (-> & i & Hi & Ha & _). case_if; [done|]. destruct (rt_terminal rt) eqn:Ht; [done|].
  destruct (others_env _ _ _ _ _ Hok Hi) as (Hv & Hrest & Hrok).
  destruct (match rt_binding rt with Some _ => _ | None => _ end) as [[ret rt'] v'] eqn:Es. eexists. split; [done|].
  eapply put_moves; [done|done|done| |done|done]. by eapply route_abort_step, Es.
Qed.

(** A route that is over leaves its slot. *)
Lemma retire_put base r v i rt rt1 v' : router_ok base r v → rr_routes r !! i = Some rt → rt_active rt = true →
  told_over (rt_log rt1) → rt_generation rt1 = rt_generation rt → rt_binding rt1 = None → rt_index rt1 = rt_index rt →
  (length (rt_head rt1) = 48%nat ∧ bytes_ok (rt_head rt1)) → env_ok (others base r rt) v' →
  router_moves base no_bytes r (put_route (add_past r rt1) (route_bind (route_over rt1 false false 0) (rt_binding rt1) None)) v'.
Proof.
  intros Hok Hi Ha Htold Hg Hb Hx Hh Hv'. set (rt2 := route_bind (route_over rt1 false false 0) (rt_binding rt1) None).
  assert (put_route (add_past r rt1) rt2 = set_routes (add_past r rt1) (<[i := rt2]> (rr_routes r))) as ->.
  { unfold put_route, aset. simpl. by rewrite Hx, (rk_index _ _ _ Hok _ _ Hi), Nat2Z.id. }
  assert (told_gens (set_routes (add_past r rt1) (<[i := rt2]> (rr_routes r))) ≡ₚ told_gens r) as Hp.
  { unfold told_gens. simpl. rewrite map_app, <- app_assoc. apply Permutation_app_head. simpl.
    pose proof (omap_insert_perm (λ rt, if rt_active rt then Some (rt_generation rt) else None) _ i rt rt2 Hi) as H.
    simpl in H. rewrite Ha in H. by rewrite Hg, H. }
  assert (∀ j a, <[i := rt2]> (rr_routes r) !! j = Some a → rt_active a = true → j ≠ i ∧ rr_routes r !! j = Some a) as Hback.
  { intros j a. rewrite list_lookup_insert_Some. intros [(-> & <- & _)|[? ?]]; [intros H; discriminate H|auto]. }
  split; [|done|done|].
  - destruct Hok as [Hv Hbase Hidle Hl Hidx Htab Hr Hgen Hgs Hnd Hst Hch Hpast]. split; simpl; try done.
    + rewrite (zsum_insert route_cost _ _ _ rt2 Hi).
      replace (base + rr_bytes r + (zsum route_cost (rr_routes r) - route_cost rt + route_cost rt2)) with (others base r rt);
        [done|]. assert (route_cost rt2 = 0) as -> by (unfold route_cost; simpl; by rewrite Hb). unfold others. lia.
    + by rewrite length_insert.
    + intros j a. rewrite list_lookup_insert_Some. intros [(-> & <- & _)|[_ Hj]]; [simpl; rewrite Hx; by apply Hidx|by apply Hidx].
    + apply Forall_insert; [eapply Forall_impl; [exact Hr|]; intros x; by apply route_ok_router|].
      split; [done|]. simpl. by rewrite Hb.
    + by rewrite Hp.
    + by rewrite Hp.
    + intros j k a b Hja Hkb Haa Hbb E. destruct (Hback _ _ Hja Haa), (Hback _ _ Hkb Hbb). by apply (Hst j k a b).
    + intros j a Hja Haa. destruct (Hback _ _ Hja Haa). by eapply Hch.
    + apply Forall_app. split; [done|]. apply Forall_cons. by split.
  - intros j a Hj. simpl. destruct (decide (j = i)) as [->|Hne].
    + exists rt2. split; [by rewrite list_lookup_insert_eq by (by eapply lookup_lt_Some)|]. by apply Mv_retired.
    + exists a. split; [by rewrite list_lookup_insert_ne|]. apply Mv_stays; [done..|]. intros _ fed. by rewrite app_nil_r.
Qed.

Lemma retire_moves base r v handle : router_ok base r v → 0 ≤ ro_slot handle →
  let '(ret, r', v') := tr_rpc_record_router_retire_on_owner (Some r) handle true v in
  ∃ r1, r' = Some r1 ∧ router_moves base no_bytes r r1 v'.
Proof.
  intros Hok Hslot. unfold tr_rpc_record_router_retire_on_owner, tr_router_owner. change (is_ok TR_OK) with true. cbn [negb].
  assert (∃ r1, Some r = Some r1 ∧ router_moves base no_bytes r r1 v) as Hsame by (eexists; split; [done|]; by apply moves_refl).
  destruct (rk_idle _ _ _ Hok) as [Ed Er]. rewrite Ed. cbn [Z.eqb negb].
  pose proof (lookup_spec base r v handle Hok Hslot) as Hl. destruct (tr_router_lookup _ _ _) as [ret|[r0 rt]]; [done|].
  destruct Hl as (-> & i & Hi & Ha & _). rewrite Ed. cbn [Z.eqb negb orb]. destruct (rt_terminal rt) eqn:Ht; cbn [negb]; [|done].
  destruct (others_env _ _ _ _ _ Hok Hi) as (Hv & Hrest & Hrok). pose proof Hrok as [Hh _].
  pose proof (route_told _ _ Hrok Ha) as Htold. rewrite Ht in Htold.
  destruct (rt_binding rt) as [c|] eqn:Hb.
  - destruct (route_destroy_spec _ _ _ _ _ Hrok Hb Ht Hv Hrest) as (v' & -> & Hv'). change (is_ok TR_OK) with true. cbn [negb].
    eexists. split; [done|]. by eapply (retire_put base r v i rt).
  - change (is_ok TR_OK) with true. cbn [negb]. eexists. split; [done|].
    eapply (retire_put base r v i rt); try done. unfold route_cost in Hv. by rewrite Hb, Z.add_0_r in Hv.
Qed.

Lemma router_step_ok base r v owner op : router_ok base r v → router_op_ok op →
  ∃ ret r1 v1, router_step owner op r v = Some (ret, r1, v1) ∧ router_moves base (λ s, op_bytes s owner op) r r1 v1.
Proof.
  intros Hok Hop. destruct owner.
  2: { assert (∀ i, router_moves base (λ s, op_bytes s false op) r r (tr_record_prefix_release i v)) as Hrel.
       { intros i. apply moves_refl; [|intros; by destruct op as [|? ? []| | | | |]].
         destruct Hok. split; try done. by apply prefix_release_ok. }
       assert (router_moves base (λ s, op_bytes s false op) r r v) as Hsame.
       { apply moves_refl; [done|]. intros. by destruct op as [|? ? []| | | | |]. }
       destruct op; simpl; try (eexists _, _, _; split; [reflexivity|done]). }
  destruct op as [stream diag|stream diag data|stream event status|handle h md body|handle status|handle|i]; simpl in *.
  - pose proof (admit_moves base r v stream diag Hok) as H.
    destruct (tr_rpc_record_router_admit_on_owner _ _ _ _ _) as [[ret r'] hd]. destruct H as (r1 & -> & Hm & _). eauto.
  - destruct (receive_moves base r v stream diag data Hok) as (ret & r1 & v1 & -> & Hm); [by destruct data|]. eauto.
  - pose proof (event_moves base r v stream event status Hok) as H.
    destruct (tr_rpc_record_router_event_on_owner _ _ _ _ _ _) as [[ret r'] v']. destruct H as (r1 & -> & Hm). eauto.
  - destruct Hop as [Hslot Hh]. pose proof (send_moves base r v handle h md body Hok Hslot Hh) as H.
    destruct (tr_rpc_record_router_send_on_owner _ _ _ _ _ _ _) as [[[ret body'] r'] v']. destruct H as (r1 & -> & Hm). eauto.
  - pose proof (abort_moves base r v handle status Hok Hop) as H.
    destruct (tr_rpc_record_router_abort_on_owner _ _ _ _ _) as [[ret r'] v']. destruct H as (r1 & -> & Hm). eauto.
  - pose proof (retire_moves base r v handle Hok Hop) as H.
    destruct (tr_rpc_record_router_retire_on_owner _ _ _ _) as [[ret r'] v']. destruct H as (r1 & -> & Hm). eauto.
  - eexists _, _, _. split; [done|]. apply moves_refl; [|done]. destruct Hok. split; try done. by apply prefix_release_ok.
Qed.

(** A run of operations, each on the owner or not. *)
Fixpoint router_run (ops : list (bool * router_op)) r v : option (tr_rpc_record_router * stream_env B) :=
  match ops with
  | [] => Some (r, v)
  | (owner, op) :: ops =>
      match router_step owner op r v with
      | None => None
      | Some (_, r, v) => router_run ops r v
      end
  end.

(** The bytes of a stream that a run brings. *)
Definition run_bytes (ops : list (bool * router_op)) (stream : tr_stream_handle) : list Z :=
  concat (map (λ p, op_bytes stream p.1 p.2) ops).

(** What became of a route in a run. *)
Definition route_kept (g : Z) (i : nat) (data : list Z) rt r' : Prop :=
  ∃ rt', rr_routes r' !! i = Some rt' ∧
    (rt_active rt' = true → rt_generation rt' = g → rt_active rt = true ∧ rt_generation rt = g ∧
       rt_stream rt' = rt_stream rt ∧ ∀ fed, fed_route fed rt → fed_route (fed ++ data) rt').

Lemma router_run_ok base ops : ∀ r v, router_ok base r v → Forall (λ p, router_op_ok p.2) ops →
  ∃ r1 v1, router_run ops r v = Some (r1, v1) ∧ router_ok base r1 v1 ∧ rr_generation r ≤ rr_generation r1 ∧
    (rr_methods r1 = rr_methods r ∧ rr_capacity r1 = rr_capacity r ∧ rr_bytes r1 = rr_bytes r ∧
     rr_channel r1 = rr_channel r ∧ rr_method_count r1 = rr_method_count r) ∧
    ∀ g i rt, rr_routes r !! i = Some rt → g ≤ rr_generation r → route_kept g i (run_bytes ops (rt_stream rt)) rt r1.
Proof.
  induction ops as [|[owner op] ops IH]; intros r v Hok Hops; simpl.
  { exists r, v. split_and!; try done. intros g i rt Hi _. exists rt. split; [done|]. intros ? ?. split_and!; try done.
    intros fed. by rewrite app_nil_r. }
  apply Forall_cons in Hops as [Hop Hops].
  destruct (router_step_ok base r v owner op Hok Hop) as (ret & r1 & v1 & -> & [Hok1 (S1 & S2 & S3 & S4 & S5) Hg Hmv]).
  destruct (IH r1 v1 Hok1 Hops) as (r2 & v2 & -> & Hok2 & Hg2 & (T1 & T2 & T3 & T4 & T5) & Hkept).
  exists r2, v2. split_and!; try done; try congruence; try lia.
  intros g i rt Hi Hgr. destruct (Hmv i rt Hi) as (rt1 & Hi1 & Hm1).
  destruct (Hkept g i rt1 Hi1 ltac:(lia)) as (rt2 & Hi2 & H2). exists rt2. split; [done|]. intros Ha2 Hg2'.
  destruct (H2 Ha2 Hg2') as (Ha1 & Hg1 & Hs1 & Hf1).
  destruct Hm1 as [Ha Hgn Hs Hf|Ha|Ha Hgn]; [|congruence|lia].
  split_and!; [congruence..|]. intros fed Hfed. unfold run_bytes. simpl. rewrite app_assoc.
  rewrite Hs in Hf1. apply Hf1, Hf; [congruence|done].
Qed.

(** * Lemmas: the end of a router *)

(** A router that is being destroyed. *)
Record closing_ok (base : Z) r v : Prop := {
  ck_env : env_ok (base + rr_bytes r + zsum route_cost (rr_routes r)) v;
  ck_base : 0 ≤ base ∧ 0 ≤ rr_bytes r;
  ck_index : ∀ i rt, rr_routes r !! i = Some rt → rt_index rt = Z.of_nat i;
  ck_routes : Forall (route_ok r) (rr_routes r);
  ck_past : Forall (λ p, told_over p.2) (rr_past r)
}.

(** Every call that was told is told no less. *)
Definition told_grows (l l' : list (Z * list stream_log)) : Prop :=
  ∀ g log, (g, log) ∈ l → ∃ log', (g, log') ∈ l' ∧ log `prefix_of` log'.

Lemma told_grows_trans l1 l2 l3 : told_grows l1 l2 → told_grows l2 l3 → told_grows l1 l3.
Proof.
  intros H1 H2 g log Hin. destruct (H1 _ _ Hin) as (log' & Hin' & Hp). destruct (H2 _ _ Hin') as (log'' & ? & ?).
  exists log''. split; [done|by etrans].
Qed.

(** A route that is told more, in its slot or past it. *)
Lemma told_put r r1 i rt rt1 rt2 : rr_routes r !! i = Some rt → rt_active rt = true → rt_generation rt1 = rt_generation rt →
  rt_log rt `prefix_of` rt_log rt1 →
  rr_past r1 = rr_past r ++ (if rt_active rt2 then [] else [(rt_generation rt1, rt_log rt1)]) →
  rr_routes r1 = <[i := rt2]> (rr_routes r) → rt_generation rt2 = rt_generation rt1 ∧ rt_log rt2 = rt_log rt1 →
  told_gens r1 ≡ₚ told_gens r ∧ told_grows (router_told r) (router_told r1).
Proof.
  intros Hi Ha Hg [k Hk] Ep Er [Hg2 Hl2].
  pose proof (omap_insert_perm (λ rt, if rt_active rt then Some (rt_generation rt, rt_log rt) else None) _ i rt rt2 Hi) as Hperm.
  simpl in Hperm. rewrite Ha, Hg2, Hl2 in Hperm. simpl in Hperm.
  assert ((rt_generation rt, rt_log rt) :: router_told r1 ≡ₚ (rt_generation rt, rt_log rt1) :: router_told r) as H.
  { unfold router_told. rewrite Ep, Er. destruct (rt_active rt2); simpl in Hperm.
    - rewrite app_nil_r, !Permutation_middle. apply Permutation_app_head. by rewrite Hperm, Hg.
    - rewrite <- app_assoc. simpl. rewrite <- Hperm, <- !Permutation_middle, Hg. apply Permutation_swap. }
  split.
  - rewrite <- !told_gens_fst. apply (fmap_Permutation fst) in H. simpl in H. by apply Permutation_cons_inv in H.
  - intros g log Hin. assert ((g, log) ∈ (rt_generation rt, rt_log rt) :: router_told r1) as Hin1 by (rewrite H; by right).
    apply elem_of_cons in Hin1 as [[= -> ->]|Hin1]; [|eauto]. destruct k as [|e k].
    + rewrite app_nil_r in Hk. rewrite Hk in H. apply Permutation_cons_inv in H. exists (rt_log rt). by rewrite H.
    + exists (rt_log rt1). split; [|by exists (e :: k)].
      assert ((rt_generation rt, rt_log rt1) ∈ (rt_generation rt, rt_log rt) :: router_told r1) as Hin2 by (rewrite H; by left).
      apply elem_of_cons in Hin2 as [[= E]|Hin2]; [|done]. rewrite Hk in E.
      apply (f_equal length) in E. rewrite length_app in E. simpl in E. lia.
Qed.

(** One route is closed. *)
Lemma close_put base r v i rt : closing_ok base r v → rr_retiring r = true → rr_routes r !! i = Some rt → rt_active rt = true →
  ∃ rt1 v1, close_route rt true v = (TR_OK, rt1, v1) ∧
    let r1 := put_route (add_past r rt1) (route_over rt1 false (rt_terminal rt1) (rt_used rt1)) in
    closing_ok base r1 v1 ∧ rr_bytes r1 = rr_bytes r ∧ rr_retiring r1 = true ∧ told_gens r1 ≡ₚ told_gens r ∧
    told_grows (router_told r) (router_told r1) ∧
    ∃ rt2, rr_routes r1 = <[i := rt2]> (rr_routes r) ∧ rt_active rt2 = false.
Proof.
  intros [Hv Hb Hx Hr Hp] Hret Hi Ha. pose proof (Forall_lookup_1 _ _ _ _ Hr Hi) as Hrok.
  set (rest := base + rr_bytes r + (zsum route_cost (rr_routes r) - route_cost rt)).
  assert (env_ok (rest + route_cost rt) v) as Hv' by (by replace (rest + route_cost rt) with
    (base + rr_bytes r + zsum route_cost (rr_routes r)) by (unfold rest; lia)).
  assert (0 ≤ rest) as Hrest.
  { unfold rest. assert (route_cost rt ≤ zsum route_cost (rr_routes r)); [|lia]. eapply zsum_lookup_le; [|exact Hi].
    intros y Hy. by eapply route_cost_nonneg, (proj1 (list.Forall_forall _ _) Hr). }
  destruct (close_route_spec rest r rt v Hrok Ha Hv' Hrest) as (rt1 & v1 & E & Hb1 & Hv1 & Htold & Hg & Hx1 & _ & Hh & Hpre).
  exists rt1, v1. split; [done|]. set (rt2 := route_over rt1 false (rt_terminal rt1) (rt_used rt1)). cbn zeta.
  assert (put_route (add_past r rt1) rt2 = set_routes (add_past r rt1) (<[i := rt2]> (rr_routes r))) as ->.
  { unfold put_route, aset. simpl. by rewrite Hx1, (Hx _ _ Hi), Nat2Z.id. }
  destruct (told_put r (set_routes (add_past r rt1) (<[i := rt2]> (rr_routes r))) i rt rt1 rt2) as [Hgens Hgrow]; try done.
  split_and!; try done; [|by exists rt2]. split; simpl; try done.
  - rewrite (zsum_insert route_cost _ _ _ rt2 Hi).
    replace (base + rr_bytes r + (zsum route_cost (rr_routes r) - route_cost rt + route_cost rt2)) with rest; [done|].
    assert (route_cost rt2 = 0) as -> by (unfold route_cost; simpl; by rewrite Hb1). unfold rest. lia.
  - intros j a. rewrite list_lookup_insert_Some. intros [(-> & <- & _)|[_ Hj]]; [simpl; rewrite Hx1; by apply Hx|by apply Hx].
  - apply Forall_insert; [eapply Forall_impl; [exact Hr|]; intros x; by apply route_ok_router|].
    split; [done|]. simpl. rewrite Hb1. congruence.
  - apply Forall_app. split; [done|]. apply Forall_cons. by split.
Qed.

Lemma destroy_loop_spec base n : ∀ i r v, closing_ok base r v → rr_retiring r = true → (i + n)%nat = length (rr_routes r) →
  (∀ j rt, (j < i)%nat → rr_routes r !! j = Some rt → rt_active rt = false) →
  ∃ r' v', destroy_loop n i r true v = (TR_OK, r', v') ∧ closing_ok base r' v' ∧ rr_bytes r' = rr_bytes r ∧
    (∀ j rt, rr_routes r' !! j = Some rt → rt_active rt = false) ∧
    told_gens r' ≡ₚ told_gens r ∧ told_grows (router_told r) (router_told r').
Proof.
  induction n as [|n IH]; intros i r v Hok Hret Hn Hdone; cbn [destroy_loop].
  { exists r, v. split_and!; try done; [|intros g log; eauto]. intros j rt Hj. eapply Hdone; [|exact Hj].
    apply lookup_lt_Some in Hj. lia. }
  destruct (lookup_lt_is_Some_2 (rr_routes r) i) as [rt Hi]; [lia|]. rewrite (list_lookup_total_correct _ _ _ Hi).
  destruct (rt_active rt) eqn:Ha; cbn [negb].
  - destruct (close_put base r v i rt Hok Hret Hi Ha) as (rt1 & v1 & -> & Hok1 & Eb & Hret1 & Hg1 & Ht1 & rt2 & Er & Ha2).
    change (is_ok TR_OK) with true. cbn [negb].
    set (r1 := put_route (add_past r rt1) (route_over rt1 false (rt_terminal rt1) (rt_used rt1))) in *.
    destruct (IH (S i) r1 v1 Hok1 Hret1) as (r' & v' & -> & H1 & H2 & H3 & H4 & H5).
    + rewrite Er, length_insert. lia.
    + intros j a Hj. rewrite Er, list_lookup_insert_Some. intros [(-> & <- & _)|[? ?]]; [done|]. eapply Hdone; [|done]. lia.
    + exists r', v'. split_and!; try done; [by rewrite H4|by eapply told_grows_trans].
  - apply IH; [done|done|lia|]. intros j a Hj Hja. destruct (decide (j = i)) as [->|]; [congruence|]. apply (Hdone j); [lia|done].
Qed.

Lemma closed_told r : (∀ j rt, rr_routes r !! j = Some rt → rt_active rt = false) → router_told r = rr_past r.
Proof.
  intros H. unfold router_told. assert (omap (λ rt, if rt_active rt then Some (rt_generation rt, rt_log rt) else None) (rr_routes r) = []) as ->; [|by rewrite app_nil_r].
  revert H. induction (rr_routes r) as [|rt l IH]; intros H; simpl; [done|]. rewrite (H 0%nat rt eq_refl). apply IH.
  intros j a Hj. exact (H (S j) a Hj).
Qed.

Lemma router_destroy_spec base r v : router_ok base r v →
  ∃ told v', tr_rpc_record_router_destroy_on_owner true (Some r) true v = (TR_OK, None, told, v') ∧ env_ok base v' ∧
    Forall (λ p, told_over p.2) told ∧ NoDup (map fst told) ∧ map fst told ≡ₚ map fst (router_told r) ∧
    told_grows (router_told r) told.
Proof.
  intros Hok. unfold tr_rpc_record_router_destroy_on_owner, tr_router_owner. change (is_ok TR_OK) with true. cbn [negb].
  destruct (rk_idle _ _ _ Hok) as [Ed Er]. rewrite Ed. cbn [Z.eqb negb].
  set (r0 := router_enter (set_retiring r)).
  assert (closing_ok base r0 v) as Hc.
  { destruct Hok. split; try done. eapply Forall_impl; [exact rk_routes0|]. intros x. by apply route_ok_router. }
  destruct (destroy_loop_spec base (Z.to_nat (rr_capacity r)) 0 r0 v Hc eq_refl) as (r' & v' & E & Hc' & Eb & Hina & Hg & Ht).
  { simpl. symmetry. apply Hok. } { intros j rt Hj. lia. }
  change (rr_capacity r0) with (rr_capacity r). rewrite E. change (is_ok TR_OK) with true. cbn [negb].
  assert (zsum route_cost (rr_routes r') = 0) as Ez.
  { apply zsum_zero. intros rt (j & Hj)%list_elem_of_lookup. pose proof (Forall_lookup_1 _ _ _ _ (ck_routes _ _ _ Hc') Hj) as [_ Hs].
    unfold route_cost. destruct (rt_binding rt); [|done]. destruct Hs as [Ha _]. by rewrite (Hina _ _ Hj) in Ha. }
  destruct Hc' as [Hv' [Hb0 Hb1] _ _ Hpast]. rewrite Ez, Z.add_0_r in Hv'.
  unfold tr_router_free. destruct (b_release_spec (en_budget v') (rr_bytes r')) as (b & Erel & Hbok & Hu); [apply Hv'| |].
  { pose proof (eo_used _ _ Hv'). pose proof (prefixes_nonneg _ _ Hv'). lia. }
  rewrite Erel. assert (told_gens r0 = told_gens r) as Eg by done.
  eexists _, _. split; [done|]. split_and!.
  - pose proof (eo_used _ _ Hv'). destruct Hv'. split; simpl; try done. lia.
  - by rewrite closed_told.
  - rewrite told_gens_fst, Hg, Eg. apply Hok.
  - by rewrite !told_gens_fst, Hg, Eg.
  - exact Ht.
Qed.

(** * Lemmas: the owner has stopped *)

(** What a route was told, between two steps of a recovery. *)
Definition told_so_far rt : Prop :=
  rt_active rt = true → if rt_terminal rt then told_over (rt_log rt) else Forall going_event (rt_log rt).
Definition route_reaping r rt : Prop := route_ok r rt ∨ rt_binding rt = None ∧ told_so_far rt.

Record reaping_ok (base : Z) r v : Prop := {
  gk_env : env_ok (base + rr_bytes r + zsum route_cost (rr_routes r)) v;
  gk_base : 0 ≤ base ∧ 0 ≤ rr_bytes r;
  gk_index : ∀ i rt, rr_routes r !! i = Some rt → rt_index rt = Z.of_nat i;
  gk_routes : Forall (route_reaping r) (rr_routes r);
  gk_past : Forall (λ p, told_over p.2) (rr_past r)
}.

Lemma reaping_told r rt : route_reaping r rt → told_so_far rt.
Proof. intros [Hok|[_ H]]; [intros Ha; by eapply route_told|done]. Qed.

Lemma reaping_cost r rt : route_reaping r rt → 0 ≤ route_cost rt.
Proof. intros [Hok|[Hb _]]; [by eapply route_cost_nonneg|unfold route_cost; by rewrite Hb]. Qed.

(** One call is reaped. *)
Lemma reap_route_spec rest r rt c v : route_ok r rt → rt_binding rt = Some c → env_ok (rest + route_cost rt) v → 0 ≤ rest →
  ∃ v', tr_rpc_record_stream_reap_stopped true (Some c) TR_OK TR_OK (with_log v (rt_log rt)) = (TR_OK, None, v') ∧
    env_ok rest v' ∧ let rt1 := route_after rt None v' in
    rt_binding rt1 = None ∧ rt_active rt1 = true ∧ rt_generation rt1 = rt_generation rt ∧ rt_index rt1 = rt_index rt ∧
    told_so_far rt1 ∧ rt_log rt `prefix_of` rt_log rt1.
Proof.
  intros Hok Hb Hv Hrest. destruct (reap_ok rest c _ (route_call_ok _ _ _ _ _ Hok Hb Hrest Hv) Hrest) as (v' & E & Hv' & El).
  exists v'. split; [done|]. split; [done|]. cbn zeta. cbn [with_log en_log] in El.
  pose proof Hok as [_ Hs]. rewrite Hb in Hs. destruct Hs as (Ha & _ & _ & Ht & _).
  pose proof (route_told _ _ Hok Ha) as Htold.
  unfold route_after. rewrite El, drop_app_length. destruct (rs_opened (cl_state c) && negb _) eqn:Eop; simpl.
  - apply andb_true_iff in Eop as [_ Eop]. apply negb_true_iff in Eop. rewrite Ht, Eop in *. unfold tr_router_terminal. simpl.
    rewrite Ht. split_and!; try done; [|by apply prefix_app_r]. intros _. by eexists _, _, _.
  - split_and!; try done. intros _. exact Htold.
Qed.

Lemma reap_step base r v i rt c : reaping_ok base r v → rr_routes r !! i = Some rt → rt_active rt = true → rt_binding rt = Some c →
  ∃ v1, tr_rpc_record_stream_reap_stopped true (Some c) TR_OK TR_OK (with_log v (rt_log rt)) = (TR_OK, None, v1) ∧
    let rt1 := route_after rt None v1 in
    let r1 := if rt_terminal rt1 then put_route (add_past r rt1) (route_over rt1 false (rt_terminal rt1) (rt_used rt1))
      else put_route r rt1 in
    reaping_ok base r1 (with_log v1 (en_log v)) ∧ rr_bytes r1 = rr_bytes r ∧ told_gens r1 ≡ₚ told_gens r ∧
    told_grows (router_told r) (router_told r1) ∧
    ∃ rt2, rr_routes r1 = <[i := rt2]> (rr_routes r) ∧ rt_binding rt2 = None.
Proof.
  intros [Hv Hbase Hx Hr Hp] Hi Ha Hb. pose proof (Forall_lookup_1 _ _ _ _ Hr Hi) as [Hrok|[? _]]; [|congruence].
  set (rest := base + rr_bytes r + (zsum route_cost (rr_routes r) - route_cost rt)).
  assert (env_ok (rest + route_cost rt) v) as Hv' by (by replace (rest + route_cost rt) with
    (base + rr_bytes r + zsum route_cost (rr_routes r)) by (unfold rest; lia)).
  assert (0 ≤ rest) as Hrest.
  { unfold rest. assert (route_cost rt ≤ zsum route_cost (rr_routes r)); [|lia]. eapply zsum_lookup_le; [|exact Hi].
    intros y Hy. by eapply reaping_cost, (proj1 (list.Forall_forall _ _) Hr). }
  destruct (reap_route_spec rest r rt c v Hrok Hb Hv' Hrest) as (v1 & E & Hv1 & Hb1 & Ha1 & Hg1 & Hx1 & Ht1 & Hpre).
  exists v1. split; [done|]. cbn zeta. set (rt1 := route_after rt None v1) in *.
  set (rt2 := if rt_terminal rt1 then route_over rt1 false (rt_terminal rt1) (rt_used rt1) else rt1).
  set (past := if rt_terminal rt1 then [(rt_generation rt1, rt_log rt1)] else []).
  set (r1 := if rt_terminal rt1 then _ else _).
  assert (rt_binding rt2 = None ∧ rt_index rt2 = rt_index rt) as [Hb2 Hx2] by (unfold rt2; by destruct (rt_terminal rt1)).
  assert (rr_routes r1 = <[i := rt2]> (rr_routes r) ∧ rr_past r1 = rr_past r ++ past ∧ rr_bytes r1 = rr_bytes r ∧
    rr_methods r1 = rr_methods r ∧ rr_retiring r1 = rr_retiring r) as (Er & Ep & Eb & Em & Et).
  { unfold r1, rt2, past. destruct (rt_terminal rt1); unfold put_route, aset; simpl; rewrite Hx1, (Hx _ _ Hi), Nat2Z.id;
      (split_and!; try done). by rewrite app_nil_r. }
  destruct (told_put r r1 i rt rt1 rt2 Hi Ha Hg1 Hpre) as [Hgens Hgrow].
  { rewrite Ep. unfold past, rt2. destruct (rt_terminal rt1); simpl; [done|by rewrite Ha1]. }
  { done. } { unfold rt2. by destruct (rt_terminal rt1). }
  split_and!; try done; [|by exists rt2]. split; try done.
  - rewrite Er, Eb, (zsum_insert route_cost _ _ _ rt2 Hi). assert (route_cost rt2 = 0) as -> by (unfold route_cost; by rewrite Hb2).
    replace (base + rr_bytes r + (zsum route_cost (rr_routes r) - route_cost rt + 0)) with rest by (unfold rest; lia).
    by apply env_with_log.
  - by rewrite Eb.
  - intros j a. rewrite Er, list_lookup_insert_Some. intros [(-> & <- & _)|[_ Hj]]; [rewrite Hx2; by apply Hx|by apply Hx].
  - rewrite Er. apply Forall_insert.
    + eapply Forall_impl; [exact Hr|]. intros x [Hx0|Hx0]; [left|by right]. apply (route_ok_router r); congruence.
    + right. split; [done|]. unfold rt2. destruct (rt_terminal rt1) eqn:Ht; [by intros|by apply Ht1].
  - rewrite Ep. apply Forall_app. split; [done|]. unfold past. pose proof (Ht1 Ha1) as H1.
    destruct (rt_terminal rt1); [by apply Forall_singleton|constructor].
Qed.

Lemma reap_loop_spec base n : ∀ i r v, reaping_ok base r v → (i + n)%nat = length (rr_routes r) →
  (∀ j rt, (j < i)%nat → rr_routes r !! j = Some rt → rt_active rt = true → rt_binding rt = None) →
  ∃ r' v', reap_loop n i r [] v = (TR_OK, r', v') ∧ reaping_ok base r' v' ∧ rr_bytes r' = rr_bytes r ∧
    (∀ j rt, rr_routes r' !! j = Some rt → rt_active rt = true → rt_binding rt = None) ∧
    told_gens r' ≡ₚ told_gens r ∧ told_grows (router_told r) (router_told r').
Proof.
  induction n as [|n IH]; intros i r v Hok Hn Hdone; cbn [reap_loop].
  { exists r, v. split_and!; try done; [|intros g log; eauto]. intros j rt Hj. eapply Hdone; [|exact Hj].
    apply lookup_lt_Some in Hj. lia. }
  destruct (lookup_lt_is_Some_2 (rr_routes r) i) as [rt Hi]; [lia|]. rewrite (list_lookup_total_correct _ _ _ Hi).
  destruct (negb (rt_active rt) || negb (bool_decide (is_Some (rt_binding rt)))) eqn:Eskip.
  { apply IH; [done|lia|]. intros j a Hj Hja Haa. destruct (decide (j = i)) as [->|]; [|apply (Hdone j); [lia|done|done]].
    rewrite Hi in Hja. injection Hja as <-. rewrite Haa in Eskip. cbn [negb orb] in Eskip.
    apply negb_true_iff, bool_decide_eq_false in Eskip. by apply eq_None_not_Some. }
  bool_to_prop. destruct (rt_binding rt) as [c|] eqn:Hb; [|by destruct (is_Some_None H0)].
  cbn [head default id tail]. destruct (reap_step base r v i rt c Hok Hi) as (v1 & -> & Hok1 & Eb & Hg1 & Ht1 & rt2 & Er & Hb2); [done|done|].
  change (is_ok TR_OK) with true. cbn [negb]. set (r1 := if rt_terminal _ then _ else _) in *.
  destruct (IH (S i) r1 _ Hok1) as (r' & v' & E & H1 & H2 & H3 & H4 & H5).
  - rewrite Er, length_insert. lia.
  - intros j a Hj. rewrite Er, list_lookup_insert_Some. intros [(-> & <- & _)|[? ?]]; [done|]. eapply Hdone; [|done]. lia.
  - exists r', v'. split_and!; try done; [by rewrite H2|by rewrite H4|by eapply told_grows_trans].
Qed.

(** The routes left over are told of the end. *)
Lemma reap_terminals routes : Forall told_so_far routes →
  let f rt := if rt_active rt then Some (rt_generation rt, rt_log rt) else None in
  Forall (λ p, told_over p.2) (omap f (map reap_terminal routes)) ∧
  map fst (omap f (map reap_terminal routes)) = map fst (omap f routes) ∧
  told_grows (omap f routes) (omap f (map reap_terminal routes)).
Proof.
  intros H f. induction H as [|rt l Hrt _ (IH1 & IH2 & IH3)]; [by split_and!; [constructor|done|intros g log ?%elem_of_nil]|].
  assert (f (reap_terminal rt) = (λ p, (p.1, rt_log (reap_terminal rt))) <$> f rt) as Ef.
  { unfold f, reap_terminal, tr_router_terminal. by destruct rt as [? ? ? ? ? [] [] ? ? ?]. }
  cbn [map omap list_omap]. rewrite Ef. unfold told_so_far in Hrt.
  assert (f rt = if rt_active rt then Some (rt_generation rt, rt_log rt) else None) as -> by done.
  destruct (rt_active rt) eqn:Ha; [|done]. simpl.
  assert (told_over (rt_log (reap_terminal rt)) ∧ rt_log rt `prefix_of` rt_log (reap_terminal rt)) as [Ho Hp].
  { unfold reap_terminal, tr_router_terminal. rewrite Ha. specialize (Hrt eq_refl). destruct (rt_terminal rt); simpl; [by split|].
    split; [by eexists _, _, _|by apply prefix_app_r]. }
  split_and!; [by constructor|by f_equal|]. intros g log [[= -> ->]|Hin]%elem_of_cons.
  - eexists. split; [by left|done].
  - destruct (IH3 _ _ Hin) as (log' & ? & ?). exists log'. split; [by right|done].
Qed.

Lemma router_reap_spec base r v : router_ok base r v →
  ∃ told v', tr_rpc_record_router_reap_stopped true (Some r) ((TR_OK, TR_OK), (TR_OK, TR_OK)) [] v = (TR_OK, None, told, v') ∧
    env_ok base v' ∧ Forall (λ p, told_over p.2) told ∧ NoDup (map fst told) ∧
    map fst told ≡ₚ map fst (router_told r) ∧ told_grows (router_told r) told.
Proof.
  intros Hok. unfold tr_rpc_record_router_reap_stopped. change (is_ok TR_OK) with true. cbn [negb].
  destruct (rk_idle _ _ _ Hok) as [Ed Er]. rewrite Ed. cbn [Z.eqb negb]. cbn zeta.
  set (r0 := router_enter (set_retiring r)).
  assert (reaping_ok base r0 v) as Hc.
  { destruct Hok. split; try done. eapply Forall_impl; [exact rk_routes0|]. intros x Hx. left. by apply (route_ok_router r). }
  destruct (reap_loop_spec base (Z.to_nat (rr_capacity r)) 0 r0 v Hc) as (r' & v' & E & Hc' & Eb & Hina & Hg & Ht).
  { simpl. symmetry. apply Hok. } { intros j rt Hj. lia. }
  change (rr_capacity (set_retiring r)) with (rr_capacity r). rewrite E. change (is_ok TR_OK) with true. cbn [negb].
  assert (zsum route_cost (rr_routes r') = 0) as Ez.
  { apply zsum_zero. intros rt (j & Hj)%list_elem_of_lookup. unfold route_cost.
    destruct (rt_binding rt) as [c|] eqn:Hb; [|done]. pose proof (Forall_lookup_1 _ _ _ _ (gk_routes _ _ _ Hc') Hj) as [[_ Hs]|[? _]]; [|congruence].
    rewrite Hb in Hs. destruct Hs as [Ha _]. rewrite (Hina _ _ Hj Ha) in Hb. done. }
  destruct Hc' as [Hv' [Hb0 Hb1] _ Hroutes Hpast]. rewrite Ez, Z.add_0_r in Hv'.
  unfold tr_router_free. change (rr_bytes (set_routes (router_leave r') _)) with (rr_bytes r').
  destruct (b_release_spec (en_budget v') (rr_bytes r')) as (b & Erel & Hbok & Hu); [apply Hv'| |].
  { pose proof (eo_used _ _ Hv'). pose proof (prefixes_nonneg _ _ Hv'). lia. }
  rewrite Erel. destruct (reap_terminals (rr_routes r')) as (T1 & T2 & T3).
  { eapply Forall_impl; [exact Hroutes|]. intros x. apply reaping_told. }
  assert (map fst (router_told (set_routes (router_leave r') (map reap_terminal (rr_routes (router_leave r'))))) = map fst (router_told r')) as Efst.
  { unfold router_told. simpl. rewrite !map_app. f_equal. exact T2. }
  eexists _, _. split; [done|]. split_and!.
  - pose proof (eo_used _ _ Hv'). destruct Hv'. split; simpl; try done. lia.
  - apply Forall_app. by split.
  - rewrite Efst, told_gens_fst, Hg. apply Hok.
  - by rewrite Efst, !told_gens_fst, Hg.
  - eapply told_grows_trans; [exact Ht|]. intros g log Hin. unfold router_told in *. simpl. apply elem_of_app in Hin as [Hin|Hin].
    + exists log. split; [|done]. apply elem_of_app. by left.
    + destruct (T3 _ _ Hin) as (log' & ? & ?). exists log'. split; [|done]. apply elem_of_app. by right.
Qed.

(** * Theorems *)

(** What a search of the caller's array answers. *)
Definition find_method (methods : list tr_rpc_record_method) (service method : Z) : option tr_rpc_record_method :=
  head (filter (λ m, method_id m = (service, method)) methods).

Lemma find_method_unique methods m : NoDup (map method_id methods) → m ∈ methods →
  find_method methods (method_id m).1 (method_id m).2 = Some m.
Proof.
  intros Hnd Hin. unfold find_method. rewrite <- surjective_pairing. induction methods as [|x l IH]; [by apply elem_of_nil in Hin|].
  simpl in Hnd. apply NoDup_cons in Hnd as [Hx Hnd]. rewrite filter_cons. destruct (decide (method_id x = method_id m)) as [E|Hne].
  - apply elem_of_cons in Hin as [->|Hin]; [done|]. exfalso. apply Hx. rewrite E. by apply list_elem_of_fmap_2.
  - apply elem_of_cons in Hin as [->|Hin]; [done|]. by apply IH.
Qed.

Lemma find_method_none methods service method : (∀ m, m ∈ methods → method_id m ≠ (service, method)) →
  find_method methods service method = None.
Proof.
  intros H. unfold find_method. induction methods as [|x l IH]; [done|]. rewrite filter_cons.
  rewrite decide_False by (apply H; by left). apply IH. intros m Hm. apply H. by right.
Qed.

Lemma create_bytes capacity count : u32_ok capacity → 0 ≤ count →
  (capacity =? 0) = false → (sizeof_route >? (SIZE_MAX - sizeof_router) / capacity) = false →
  (count >? (SIZE_MAX - (sizeof_router + capacity * sizeof_route)) / sizeof_record_method) = false →
  u64_ok (sizeof_router + capacity * sizeof_route + count * sizeof_record_method).
Proof.
  intros Hc Hn H0 H1 H2. bool_to_prop. unfold sizeof_router, sizeof_route, sizeof_record_method in *. unfold_words.
  pose proof (Z.mul_div_le (2 ^ 64 - 1 - (96 + capacity * 120)) 56 ltac:(lia)). nia.
Qed.

(** What creation leaves. *)
Lemma router_create_spec base channel methods capacity terminal limit out owner max_streams v ret router v' :
  env_ok base v → u32_ok capacity →
  tr_rpc_record_router_create_on_owner channel (Some methods) capacity terminal limit out owner max_streams v = (ret, router, v') →
  (ret = TR_OK ∧ ∃ r, router = Some r ∧ router_ok base r v' ∧ rr_methods r ≡ₚ methods ∧ NoDup (map method_id methods) ∧
     rr_channel r = channel ∧ router_told r = [] ∧ rr_bytes r = sizeof_router + capacity * sizeof_route + alen methods * sizeof_record_method) ∨
  (ret ≠ TR_OK ∧ router = None ∧ env_ok base v').
Proof.
  intros Hv Hcap H. unfold tr_rpc_record_router_create_on_owner in H.
  destruct limit as [limit|]; [|right; by injection H as <- <- <-]. destruct out as [out|]; [|right; by injection H as <- <- <-].
  cbn zeta in H. do 6 (case_if_in H; [right; by injection H as <- <- <-|]).
  destruct (b_reserve _ _) as [r b] eqn:Eres. assert (Hlen : 0 ≤ alen methods) by apply alen_nonneg.
  assert (u64_ok (sizeof_router + capacity * sizeof_route + alen methods * sizeof_record_method)) as Hbytes.
  { apply create_bytes; try done; try (by apply Z.eqb_neq); rewrite Z.gtb_ltb; by apply Z.ltb_ge. }
  set (bytes := sizeof_router + capacity * sizeof_route + alen methods * sizeof_record_method) in *.
  apply (env_reserve base) in Eres as [[-> Hv1]|[Hr Hv1]]; [| |done|done].
  2: { right. assert (is_ok r = false) as Er by (destruct Hr as [?| ->]; [by destruct r|done]).
       rewrite Er in H. cbn [negb] in H. injection H as <- <- <-. split_and!; try done. by intros ->. }
  change (is_ok TR_OK) with true in H. cbn [negb] in H.
  destruct (next_malloc (env_budget v b)) as [ok1 v1] eqn:E1. apply next_malloc_same in E1 as (F1 & F2 & F3).
  destruct (next_malloc v1) as [ok2 v2] eqn:E2. apply next_malloc_same in E2 as (G1 & G2 & G3).
  destruct (next_malloc v2) as [ok3 v3] eqn:E3. apply next_malloc_same in E3 as (K1 & K2 & K3).
  apply (env_ok_same _ _ v1) in Hv1 as Hv2; [|done|done]. apply (env_ok_same _ _ v3) in Hv2 as Hv3; [|congruence..].
  pose proof (eo_base _ _ Hv) as Hb0. assert (0 ≤ bytes) as Hb1 by apply Hbytes.
  destruct ok1; cbn [negb] in H; [|injection H as <- <- <-; right; split_and!; try done; by apply env_release_ok].
  case_if_in H; [injection H as <- <- <-; right; split_and!; try done; by apply env_release_ok|].
  pose proof (sort_methods_spec methods [] (replicate (length methods) inhabitant) (length_replicate _ _) (SSorted_nil _)) as Hs.
  cbn [Datatypes.app length] in Hs. destruct (sort_methods _ _ _) as [table|];
    [|injection H as <- <- <-; right; split_and!; try done; by apply env_release_ok].
  destruct Hs as [Hs Hp]. injection H as <- <- <-. left. split; [done|].
  set (routes := map _ (seq 0 (Z.to_nat capacity))).
  assert (∀ i rt, routes !! i = Some rt → rt = mk_rpc_route (mk_handle 0 0 0) None None 0 (Z.of_nat i) false false
    (replicate (Z.to_nat TR_RPC_RECORD_HEADER_SIZE) 0) 0 []) as Hroutes.
  { intros i rt. unfold routes. rewrite list_lookup_fmap. intros (j & Hj & ->)%fmap_Some. by apply lookup_seq in Hj as [-> _]. }
  assert (omap (λ rt, if rt_active rt then Some (rt_generation rt) else None) routes = []) as Hnone.
  { unfold routes. clear. by induction (seq 0 (Z.to_nat capacity)). }
  assert (NoDup (map method_id methods)) as Hnd by (rewrite <- Hp; by apply sorted_nodup).
  eexists. split; [done|]. split_and!; try done.
  2: { apply (f_equal length) in Hnone. unfold router_told. simpl. unfold routes. clear. by induction (seq 0 (Z.to_nat capacity)). }
  split; simpl; try done; try (unfold told_gens; simpl; rewrite Hnone; by constructor).
  - rewrite zsum_zero; [by rewrite Z.add_0_r|]. intros rt (i & Hi)%list_elem_of_lookup. by rewrite (Hroutes _ _ Hi).
  - unfold routes. rewrite length_map, length_seq. split; [done|apply Hcap].
  - intros i rt Hi. by rewrite (Hroutes _ _ Hi).
  - split; [done|]. simpl. rewrite Hp. unfold alen. by rewrite Nat2Z.id.
  - apply Forall_lookup_2. intros i rt Hi. rewrite (Hroutes _ _ Hi). split; simpl; [|done].
    split; [done|exact (bytes_ok_replicate 48)].
  - intros i j a c Ha Hc Haa. by rewrite (Hroutes _ _ Ha) in Haa.
  - intros i a Hi Haa. by rewrite (Hroutes _ _ Hi) in Haa.
Qed.

(** A router's table answers exactly what a search of the caller's array does, in which no
    method is twice; a router that is refused leaves nothing charged. *)
Theorem router_table_exact base channel methods capacity terminal limit out owner max_streams v ret router v'
    (Hv : env_ok base v) (Hcap : u32_ok capacity)
    (Hcreate : tr_rpc_record_router_create_on_owner channel (Some methods) capacity terminal limit out owner max_streams v =
       (ret, router, v')) :
  (ret = TR_OK ∧ NoDup (map method_id methods) ∧ ∃ r, router = Some r ∧ ∀ service method,
     (λ i, rr_methods r !!! i) <$> tr_router_method r service method = find_method methods service method) ∨
  (ret ≠ TR_OK ∧ router = None ∧ b_used (en_budget v') = base + zsum id (en_prefixes v')).
Proof.
  destruct (router_create_spec _ _ _ _ _ _ _ _ _ _ _ _ _ Hv Hcap Hcreate) as [(-> & r & -> & Hok & Hp & Hnd & _)|(Hr & -> & Hv')].
  2: { right. split_and!; [done|done|apply Hv']. }
  left. split_and!; [done|done|]. exists r. split; [done|]. intros service method.
  pose proof (router_method_cases r service method (rk_table _ _ _ Hok)) as Hm.
  destruct (tr_router_method r service method) as [i|]; simpl.
  - destruct Hm as (m & Hm & Hid). rewrite (list_lookup_total_correct _ _ _ Hm). symmetry.
    pose proof (find_method_unique methods m Hnd) as Hf. rewrite Hid in Hf. apply Hf. rewrite <- Hp.
    apply list_elem_of_lookup. eauto.
  - symmetry. apply find_method_none. intros m Hin. apply Hm. by rewrite Hp.
Qed.

(** C8: Whatever streams are admitted, bytes and events arrive, calls are answered, aborted and
    retired: every operation returns; the budget holds exactly the router, the calls that are
    bound and the prefixes; generations are used once; a call is told records and, once and
    last, its end, exactly when its route is over.  Destroying the router, or reaping it when
    its owner has stopped, ends every call that is not over and gives back all but the
    prefixes. *)
Theorem router_accounting base channel methods capacity terminal limit out owner max_streams v r v0 ops
    (Hv : env_ok base v) (Hcap : u32_ok capacity)
    (Hcreate : tr_rpc_record_router_create_on_owner channel (Some methods) capacity terminal limit out owner max_streams v =
       (TR_OK, Some r, v0))
    (Hops : Forall (λ p, router_op_ok p.2) ops) :
  ∃ r' v', router_run ops r v0 = Some (r', v') ∧
    b_used (en_budget v') = base + (sizeof_router + capacity * sizeof_route + alen methods * sizeof_record_method) +
      zsum route_cost (rr_routes r') + zsum id (en_prefixes v') ∧
    NoDup (map fst (router_told r')) ∧
    (∀ rt, rt ∈ rr_routes r' → rt_active rt = true →
       if rt_terminal rt then told_over (rt_log rt) else Forall going_event (rt_log rt)) ∧
    ∀ stopped : bool, ∃ told v'',
      (if stopped then tr_rpc_record_router_reap_stopped true (Some r') ((TR_OK, TR_OK), (TR_OK, TR_OK)) [] v'
       else tr_rpc_record_router_destroy_on_owner true (Some r') true v') = (TR_OK, None, told, v'') ∧
      b_used (en_budget v'') = base + zsum id (en_prefixes v'') ∧
      map fst told ≡ₚ map fst (router_told r') ∧ told_grows (router_told r') told ∧ Forall (λ p, told_over p.2) told.
Proof.
  destruct (router_create_spec _ _ _ _ _ _ _ _ _ _ _ _ _ Hv Hcap Hcreate) as [(_ & r0 & [= <-] & Hok & _ & _ & _ & _ & Eb)|(? & _)]; [|done].
  destruct (router_run_ok base ops r v0 Hok Hops) as (r' & v' & E & Hok' & _ & (_ & _ & Eb' & _) & _).
  exists r', v'. split; [done|].
  split_and!.
  - rewrite <- Eb, <- Eb'. apply (eo_used _ _ (rk_env _ _ _ Hok')).
  - rewrite told_gens_fst. apply Hok'.
  - intros rt (i & Hi)%list_elem_of_lookup Ha. by eapply route_told, Ha; apply (others_env _ _ _ _ _ Hok' Hi).
  - intros []; [destruct (router_reap_spec base r' v' Hok') as (told & v'' & Ed & Hv'' & H1 & H2 & H3 & H4)|
      destruct (router_destroy_spec base r' v' Hok') as (told & v'' & Ed & Hv'' & H1 & H2 & H3 & H4)];
      exists told, v''; (split_and!; try done; apply Hv'').
Qed.

(** C7: The handle that a stream is admitted with reaches that stream's route, and no other, as
    long as it reaches any; the records its method is told of are, in order and whole, those
    that the bytes of the stream begin with, and the method is the one of the caller's array
    that their first header, of an opening record, names. *)
Theorem router_dispatch base channel methods capacity terminal limit out owner max_streams v r v0 ops r1 v1
    stream diag r2 handle ops' r3 v3 rt
    (Hv : env_ok base v) (Hcap : u32_ok capacity)
    (Hcreate : tr_rpc_record_router_create_on_owner channel (Some methods) capacity terminal limit out owner max_streams v =
       (TR_OK, Some r, v0))
    (Hops : Forall (λ p, router_op_ok p.2) (ops ++ ops'))
    (Hrun : router_run ops r v0 = Some (r1, v1))
    (Hadmit : tr_rpc_record_router_admit_on_owner (Some r1) true stream diag true = (TR_OK, Some r2, Some handle))
    (Hrun' : router_run ops' r2 v1 = Some (r3, v3))
    (Hlookup : tr_router_lookup (Some r3) true handle = inr (r3, rt)) :
  rt_stream rt = stream ∧
  (∃ left, log_bytes (rt_log rt) ++ left = run_bytes ops' stream ∧ (rt_terminal rt = false → left = route_pending rt)) ∧
  ∀ c, rt_binding rt = Some c → ∃ i m h total, rt_method rt = Some i ∧ rr_methods r3 !! i = Some m ∧
    m ∈ methods ∧ cl_config c = mk_config TR_RPC_RECORD_RESPONSE_DIRECTION (rm_descriptor m) ∧
    tr_rpc_record_decode_header (Some (take 48 (run_bytes ops' stream))) TR_RPC_RECORD_HEADER_SIZE (Some head_limits) true true =
      (TR_OK, Some (h, total)) ∧
    rh_kind h = TR_RPC_RECORD_OPEN ∧ md_service_id (rm_descriptor m) = rh_service_id h ∧
    md_method_id (rm_descriptor m) = rh_method_id h.
Proof.
  apply Forall_app in Hops as [Hops Hops'].
  destruct (router_create_spec _ _ _ _ _ _ _ _ _ _ _ _ _ Hv Hcap Hcreate) as [(_ & r0 & [= <-] & Hok & Hp & _)|(? & _)]; [|done].
  destruct (router_run_ok base ops r v0 Hok Hops) as (r1' & v1' & E & Hok1 & _ & (Em1 & _) & _). rewrite Hrun in E. injection E as <- <-.
  pose proof (admit_moves base r1 v1 stream diag Hok1) as Ha. rewrite Hadmit in Ha.
  destruct Ha as (r2' & [= <-] & [Hok2 (Em2 & _) _ _] & i & rt2 & [= ->] & Hi & Hact & Hg & Hst & Hfed).
  destruct (router_run_ok base ops' r2 v1 Hok2 Hops') as (r3' & v3' & E & Hok3 & _ & (Em3 & _) & Hkept). rewrite Hrun' in E. injection E as <- <-.
  pose proof (lookup_spec base r3 v3 _ Hok3 (Zle_0_nat i : 0 ≤ ro_slot (mk_route_handle (rr_generation r2) (Z.of_nat i)))) as Hl.
  rewrite Hlookup in Hl. destruct Hl as (_ & j & Hj & Ha3 & Hg3 & Ej). simpl in *. apply Nat2Z.inj in Ej as <-.
  destruct (Hkept (rr_generation r2) i rt2 Hi ltac:(lia)) as (rt' & Hi' & Hk). rewrite Hj in Hi'. injection Hi' as <-.
  destruct (Hk Ha3 Hg3) as (_ & _ & Est & Hf). pose proof (Hf [] Hfed) as [Hdel Hhead]. rewrite app_nil_l, Hst in *.
  split_and!; [done|done|]. intros c Hc. destruct (others_env _ _ _ _ _ Hok3 Hj) as (_ & _ & [[Hl48 _] Hs]).
  rewrite Hc in Hs. destruct Hs as (_ & _ & _ & _ & k & m & h & total & H1 & H2 & H3 & H4 & H5 & H6).
  exists k, m, h, total. destruct (Hhead ltac:(by rewrite Hc)) as [rest Erest]. unfold method_id in H5. injection H5 as H5 H5'.
  split_and!; try done.
  - rewrite <- Hp, <- Em1, <- Em2, <- Em3. apply list_elem_of_lookup. eauto.
  - rewrite Erest, <- Hl48, take_app_length. done.
Qed.

End RouteLemmas.

(** * Witnesses *)

(** Two methods out of order, and a function that answers every record with initial
    metadata. *)
Definition demo_methods : list tr_rpc_record_method :=
  [mk_record_method (cf_method demo_config) (Some 1) 10;
   mk_record_method (mk_method 7 2 1 1 1 1 0 64 64) (Some 2) 20].
Definition demo_reply (m : tr_rpc_record_method) (handle : tr_rpc_route_handle) (log : list stream_log)
    (h : tr_rpc_record_header) (metadata body : list Z) : reaction := demo_answer log h metadata body.
Definition demo_create : tr_status * option tr_rpc_record_router * stream_env budget_ref :=
  tr_rpc_record_router_create_on_owner 1 (Some demo_methods) 2 true (Some 4096) (Some false) true 8 demo_env.
Definition demo_router : tr_rpc_record_router := default (mk_record_router 0 0 [] [] 0 0 0 0 0 false []) demo_create.1.2.

(** The stream is admitted, and its bytes arrive in three pieces. *)
Definition demo_admit : tr_status * option tr_rpc_record_router * option tr_rpc_route_handle :=
  tr_rpc_record_router_admit_on_owner (Some demo_router) true demo_handle TR_OK true.
Definition demo_admitted : tr_rpc_record_router := default demo_router demo_admit.1.2.
Definition demo_arrivals : list (bool * router_op) :=
  [(true, Ro_receive demo_handle (TR_OK, 0) (Some (take 20 demo_fed)));
   (true, Ro_receive demo_handle (TR_OK, 0) (Some (take 60 (drop 20 demo_fed))));
   (true, Ro_receive demo_handle (TR_OK, 0) (Some (drop 80 demo_fed)))].
Definition demo_routed : tr_rpc_record_router * stream_env budget_ref :=
  default (demo_admitted, demo_create.2) (router_run demo_reply demo_arrivals demo_admitted demo_create.2).
Definition demo_route : tr_rpc_route := rr_routes demo_routed.1 !!! 0%nat.

Lemma demo_reply_ok m h log hd md b : app_ok (demo_reply m h log hd md b).
Proof. apply demo_answer_ok. Qed.

Lemma demo_create_ok : demo_create = (TR_OK, Some demo_router, demo_create.2).
Proof. vm_compute. reflexivity. Qed.

Lemma demo_fed_ok : bytes_ok demo_fed.
Proof.
  apply list.Forall_forall. apply list.Forall_forall. vm_compute. repeat (apply Forall_cons; split); try apply Forall_nil_2; split; congruence.
Qed.

Lemma demo_arrivals_ok : Forall (λ p, router_op_ok p.2) ([] ++ demo_arrivals).
Proof.
  pose proof demo_fed_ok. repeat (apply Forall_cons; split); try apply Forall_nil_2; simpl;
    repeat first [apply bytes_ok_take|apply bytes_ok_drop]; done.
Qed.

Lemma demo_routing_ok :
  router_run demo_reply ((true, Ro_admit demo_handle TR_OK) :: demo_arrivals) demo_router demo_create.2 = Some (demo_routed.1, demo_routed.2).
Proof. vm_compute. reflexivity. Qed.

Lemma router_table_exact_witness :
  (λ i, rr_methods demo_router !!! i) <$> tr_router_method demo_router 7 2 = Some (mk_record_method (mk_method 7 2 1 1 1 1 0 64 64) (Some 2) 20).
Proof.
  destruct (router_table_exact 0 1 demo_methods 2 true (Some 4096) (Some false) true 8 demo_env TR_OK (Some demo_router)
    demo_create.2 demo_env_ok ltac:(split; vm_compute; congruence) demo_create_ok) as [(_ & _ & r & [= <-] & H)|[H _]]; [|done].
  rewrite H. vm_compute. reflexivity.
Defined.

Lemma router_accounting_witness :
  ∃ told v'', tr_rpc_record_router_destroy_on_owner true (Some demo_routed.1) true demo_routed.2 = (TR_OK, None, told, v'') ∧
    b_used (en_budget v'') = 0 + zsum id (en_prefixes v'') ∧ Forall (λ p, told_over p.2) told.
Proof.
  destruct (router_accounting demo_reply demo_reply_ok 0 1 demo_methods 2 true (Some 4096) (Some false) true 8 demo_env demo_router
    demo_create.2 ((true, Ro_admit demo_handle TR_OK) :: demo_arrivals) demo_env_ok ltac:(split; vm_compute; congruence) demo_create_ok)
    as (r' & v' & E & _ & _ & _ & Hend).
  { apply Forall_cons. split; [done|exact demo_arrivals_ok]. }
  rewrite demo_routing_ok in E. apply (inj Some), pair_equal_spec in E as [<- <-].
  destruct (Hend false) as (told & v'' & Ed & Hu & _ & _ & Ht). exists told, v''. split_and!; assumption.
Defined.

Lemma router_dispatch_witness :
  ∃ c i m h total, rt_binding demo_route = Some c ∧ rt_method demo_route = Some i ∧ rr_methods demo_routed.1 !! i = Some m ∧
    tr_rpc_record_decode_header (Some (take 48 demo_fed)) TR_RPC_RECORD_HEADER_SIZE (Some head_limits) true true = (TR_OK, Some (h, total)) ∧
    md_method_id (rm_descriptor m) = rh_method_id h ∧ ∃ left, log_bytes (rt_log demo_route) ++ left = demo_fed.
Proof.
  destruct (router_dispatch demo_reply demo_reply_ok 0 1 demo_methods 2 true (Some 4096) (Some false) true 8 demo_env demo_router
    demo_create.2 [] demo_router demo_create.2 demo_handle TR_OK demo_admitted (mk_route_handle 1 0) demo_arrivals demo_routed.1 demo_routed.2
    demo_route demo_env_ok ltac:(split; vm_compute; congruence) demo_create_ok demo_arrivals_ok)
    as (_ & (left & Hl & _) & Hb); [vm_compute; reflexivity..|].
  destruct (rt_binding demo_route) as [c|] eqn:Hc; [|vm_compute in Hc; discriminate].
  destruct (Hb c eq_refl) as (i & m & h & total & H1 & H2 & _ & _ & H3 & _ & _ & H4).
  assert (run_bytes demo_arrivals demo_handle = demo_fed) as Ef by (vm_compute; reflexivity). rewrite Ef in *.
  exists c, i, m, h, total. split_and!; [exact eq_refl|exact H1|exact H2|exact H3|exact H4|exists left; exact Hl].
Defined.
