(* ===== verification/TaskExecutor.v ===== *)
(** Task executor: [src/execution/task_executor.{h,c}], [task_executor_internal.h],
    [worker_context.c].

    Tasks live in a fixed array of slots.  A slot is on the free list, on the queue of
    pending tasks, with a worker, on the queue of completed tasks, or being delivered by
    the owner.  Every stretch of code under the lock is one operation; workers, the owner
    and submitters run them in any order ([task_exec]).  A pointer to a function is an
    integer, 0 for NULL; what the work returns, and what pthread functions answer, is an
    argument.

    Theorems: every accepted task is worked on once, in the order of acceptance, and
    delivered once, in the order of completion, with the status its work returned; it is
    reported cancelled exactly when a cancellation was accepted; the statistics are exact;
    no pending task is left to sleeping workers; a stopped executor drains, is destroyed and
    gives its budget back. *)
From S2P Require Import Prelude Status MemoryBudget.

(** * Data *)

Definition TR_TASK_END : Z := UINT32_MAX.

Inductive tr_task_state :=
| TR_TASK_FREE | TR_TASK_QUEUED | TR_TASK_RUNNING | TR_TASK_COMPLETED | TR_TASK_DELIVERING.

Inductive tr_executor_state :=
| TR_EXECUTOR_NEW | TR_EXECUTOR_STARTING | TR_EXECUTOR_OPEN | TR_EXECUTOR_STOPPING
| TR_EXECUTOR_JOINED.

Inductive tr_task_stop_mode := TR_TASK_DRAIN | TR_TASK_CANCEL.

#[export] Instance tr_task_state_eq_dec : EqDecision tr_task_state.
Proof. solve_decision. Defined.
#[export] Instance tr_executor_state_eq_dec : EqDecision tr_executor_state.
Proof. solve_decision. Defined.

(** [state >= TR_EXECUTOR_STOPPING] *)
Definition executor_stopping (s : tr_executor_state) : bool :=
  match s with TR_EXECUTOR_STOPPING | TR_EXECUTOR_JOINED => true | _ => false end.

Record tr_task_handle := mk_task_handle { th_instance : Z; th_generation : Z; th_slot : Z }.
Record tr_task_result := mk_task_result { tr_work_status : Z; tr_cancelled : bool }.
Record tr_task_spec := mk_task_spec { ts_work : Z; ts_done : Z; ts_arg : Z }.

#[export] Instance tr_task_handle_eq_dec : EqDecision tr_task_handle.
Proof. solve_decision. Defined.

Record tr_task_executor_config := mk_task_config { tc_workers : Z; tc_capacity : Z }.

(** [cancel.requested] is [tk_cancel]. *)
Record tr_task_slot := mk_task_slot {
  tk_spec : tr_task_spec;
  tk_cancel : bool;
  tk_result : tr_task_result;
  tk_generation : Z;
  tk_next : Z;
  tk_state : tr_task_state
}.

Definition zero_task_spec : tr_task_spec := mk_task_spec 0 0 0.
Definition zero_task_slot : tr_task_slot :=
  mk_task_slot zero_task_spec false (mk_task_result 0 false) 0 0 TR_TASK_FREE.
#[export] Instance tr_task_slot_inhabited : Inhabited tr_task_slot := populate zero_task_slot.

Record tr_task_executor_stats := mk_task_stats {
  xs_capacity : Z;
  xs_outstanding : Z;
  xs_queued : Z;
  xs_running : Z;
  xs_completed : Z;
  xs_delivering : Z;
  xs_workers_alive : Z;
  xs_accepting : bool
}.

(** [struct tr_task_executor]; a queue is its head and tail. *)
Record tr_task_executor := mk_executor {
  ex_owner : Z;
  ex_slots : list tr_task_slot;
  ex_bytes : Z;
  ex_workers : Z;
  ex_started : Z;
  ex_joined : Z;
  ex_instance : Z;
  ex_free_head : Z;
  ex_pending : Z * Z;
  ex_complete : Z * Z;
  ex_stats : tr_task_executor_stats;
  ex_state : tr_executor_state;
  ex_dispatching : bool;
  ex_retiring : bool;
  ex_condition_destroyed : bool;
  ex_notify : Z;
  ex_notify_arg : Z
}.

(** [sizeof] on LP64. *)
Definition sizeof_executor : Z := 272.
Definition sizeof_task_slot : Z := 56.
Definition sizeof_pthread : Z := 8.

(** * Fields *)

Definition slot_next (s : tr_task_slot) (next : Z) : tr_task_slot :=
  mk_task_slot (tk_spec s) (tk_cancel s) (tk_result s) (tk_generation s) next (tk_state s).
Definition slot_state (s : tr_task_slot) (state : tr_task_state) : tr_task_slot :=
  mk_task_slot (tk_spec s) (tk_cancel s) (tk_result s) (tk_generation s) (tk_next s) state.
Definition slot_cancel (s : tr_task_slot) (cancel : bool) : tr_task_slot :=
  mk_task_slot (tk_spec s) cancel (tk_result s) (tk_generation s) (tk_next s) (tk_state s).
Definition slot_result (s : tr_task_slot) (result : tr_task_result) : tr_task_slot :=
  mk_task_slot (tk_spec s) (tk_cancel s) result (tk_generation s) (tk_next s) (tk_state s).

Definition ex_queues (e : tr_task_executor) (slots : list tr_task_slot) (free_head : Z)
    (pending complete : Z * Z) : tr_task_executor :=
  mk_executor (ex_owner e) slots (ex_bytes e) (ex_workers e) (ex_started e) (ex_joined e)
    (ex_instance e) free_head pending complete (ex_stats e) (ex_state e) (ex_dispatching e)
    (ex_retiring e) (ex_condition_destroyed e) (ex_notify e) (ex_notify_arg e).
Definition ex_set_slot (e : tr_task_executor) (i : Z) (s : tr_task_slot) : tr_task_executor :=
  ex_queues e (ex_slots e).[i <- s] (ex_free_head e) (ex_pending e) (ex_complete e).
Definition ex_control (e : tr_task_executor) (stats : tr_task_executor_stats)
    (state : tr_executor_state) (dispatching : bool) : tr_task_executor :=
  mk_executor (ex_owner e) (ex_slots e) (ex_bytes e) (ex_workers e) (ex_started e) (ex_joined e)
    (ex_instance e) (ex_free_head e) (ex_pending e) (ex_complete e) stats state dispatching
    (ex_retiring e) (ex_condition_destroyed e) (ex_notify e) (ex_notify_arg e).
Definition ex_set_stats (e : tr_task_executor) (stats : tr_task_executor_stats) : tr_task_executor :=
  ex_control e stats (ex_state e) (ex_dispatching e).
Definition ex_threads (e : tr_task_executor) (started joined : Z) : tr_task_executor :=
  mk_executor (ex_owner e) (ex_slots e) (ex_bytes e) (ex_workers e) started joined
    (ex_instance e) (ex_free_head e) (ex_pending e) (ex_complete e) (ex_stats e) (ex_state e)
    (ex_dispatching e) (ex_retiring e) (ex_condition_destroyed e) (ex_notify e) (ex_notify_arg e).
Definition ex_retire (e : tr_task_executor) (condition_destroyed : bool) : tr_task_executor :=
  mk_executor (ex_owner e) (ex_slots e) (ex_bytes e) (ex_workers e) (ex_started e) (ex_joined e)
    (ex_instance e) (ex_free_head e) (ex_pending e) (ex_complete e) (ex_stats e) (ex_state e)
    (ex_dispatching e) true condition_destroyed (ex_notify e) (ex_notify_arg e).

(** The counters: queued, running, completed, delivering, outstanding. *)
Definition count_tasks (x : tr_task_executor_stats) (queued running completed delivering outstanding : Z)
    : tr_task_executor_stats :=
  mk_task_stats (xs_capacity x) (u64 (xs_outstanding x + outstanding)) (u64 (xs_queued x + queued))
    (u64 (xs_running x + running)) (u64 (xs_completed x + completed))
    (u64 (xs_delivering x + delivering)) (xs_workers_alive x) (xs_accepting x).
Definition count_workers (x : tr_task_executor_stats) (alive : Z) (accepting : bool)
    : tr_task_executor_stats :=
  mk_task_stats (xs_capacity x) (xs_outstanding x) (xs_queued x) (xs_running x) (xs_completed x)
    (xs_delivering x) alive accepting.

(** * Worker context *)

(** The flag of the thread; entering gives what to restore. *)
Definition tr_execution_enter_worker (worker : bool) : bool * bool := (worker, true).
Definition tr_execution_leave_worker (saved worker : bool) : bool := saved.
Definition tr_execution_in_worker_context (worker : bool) : bool := worker.

(** * Generations and instances *)

Definition tr_task_generation_next (value : Z) : tr_status * Z :=
  if value =? UINT64_MAX then (TR_ERR_STATE, value) else (TR_OK, value + 1).

Definition tr_task_instance_next (counter : Z) : tr_status * Z * option Z :=
  if counter =? UINT64_MAX then (TR_ERR_STATE, counter, None) else (TR_OK, counter + 1, Some (counter + 1)).

(** * Queues *)

(** [queue] is the head and the tail. *)
Definition tr_task_enqueue (slots : list tr_task_slot) (queue : Z * Z) (index : Z)
    : list tr_task_slot * (Z * Z) :=
  let slots := slots.[index <- slot_next slots.[index] TR_TASK_END] in
  if negb (queue.2 =? TR_TASK_END)
  then (slots.[queue.2 <- slot_next slots.[queue.2] index], (queue.1, index))
  else (slots, (index, index)).

Definition tr_task_dequeue (slots : list tr_task_slot) (queue : Z * Z) : Z * (Z * Z) :=
  let index := queue.1 in
  let head := tk_next slots.[index] in
  (index, (head, if head =? TR_TASK_END then TR_TASK_END else queue.2)).

(** * Creation and the owner's calls *)

Section Budgeted.
Context {B : Type} `{!Budget B}.

(** [limit] is the budget's limit; [out] tells whether [*out] is set.  The answers: the
    three allocations, the mutex, the condition.  [self] is the calling thread. *)
Definition tr_task_executor_create (config : option tr_task_executor_config) (limit : Z) (budget : B)
    (out : option bool) (self counter : Z) (alloc_ex alloc_slots alloc_threads mutex_ok cond_ok : bool)
    : tr_status * option tr_task_executor * Z * B :=
  match config, out with
  | Some config, Some out =>
      bail (TR_ERR_INVALID, None, counter, budget) when
        ((limit =? 0) || (tc_workers config =? 0) || (tc_workers config >? tc_capacity config) ||
         (tc_capacity config =? 0) || (tc_capacity config >=? TR_TASK_END)) ;;
      bail (TR_ERR_STATE, None, counter, budget) when out ;;
      bail (TR_ERR_BAD_LENGTH, None, counter, budget) when
        (tc_capacity config >? (SIZE_MAX - sizeof_executor) / sizeof_task_slot) ;;
      let bytes := sizeof_executor + tc_capacity config * sizeof_task_slot in
      bail (TR_ERR_BAD_LENGTH, None, counter, budget) when
        (tc_workers config >? (SIZE_MAX - bytes) / sizeof_pthread) ;;
      let bytes := bytes + tc_workers config * sizeof_pthread in
      match tr_task_instance_next counter with
      | (TR_OK, counter, Some instance) =>
          let '(ret, budget) := b_reserve budget bytes in
          bail (ret, None, counter, budget) when (negb (is_ok ret)) ;;
          let failed := (b_release budget bytes).2 in
          bail (TR_ERR_NOMEM, None, counter, failed) when (negb alloc_ex) ;;
          bail (TR_ERR_NOMEM, None, counter, failed) when (negb alloc_slots || negb alloc_threads) ;;
          bail (TR_ERR_SYS, None, counter, failed) when (negb mutex_ok) ;;
          bail (TR_ERR_SYS, None, counter, failed) when (negb cond_ok) ;;
          let slots := map (λ i, slot_next zero_task_slot (if i + 1 <? tc_capacity config then i + 1 else TR_TASK_END))
            (seqZ 0 (tc_capacity config)) in
          (TR_OK, Some (mk_executor self slots bytes (tc_workers config) 0 0 instance 0
             (TR_TASK_END, TR_TASK_END) (TR_TASK_END, TR_TASK_END)
             (mk_task_stats (tc_capacity config) 0 0 0 0 0 0 false) TR_EXECUTOR_NEW false false false 0 0),
           counter, budget)
      | (ret, counter, _) => (ret, None, counter, budget)
      end
  | _, _ => (TR_ERR_INVALID, None, counter, budget)
  end.

(** [pointer] is [executor]; the answers are those of destroying the condition and the mutex. *)
Definition tr_task_executor_destroy (pointer : bool) (executor : option tr_task_executor) (self : Z)
    (cond_ok mutex_ok : bool) (budget : B) : tr_status * option tr_task_executor * B :=
  match pointer, executor with
  | true, Some e =>
      bail (TR_ERR_STATE, executor, budget) when (negb (self =? ex_owner e)) ;;
      let ret :=
        if ex_retiring e then TR_OK
        else if ex_dispatching e ||
          negb (bool_decide (ex_state e = TR_EXECUTOR_NEW) || bool_decide (ex_state e = TR_EXECUTOR_JOINED))
        then TR_ERR_STATE
        else if negb (xs_outstanding (ex_stats e) =? 0) then TR_AGAIN else TR_OK in
      bail (ret, executor, budget) when (negb (is_ok ret)) ;;
      let e := ex_retire e (ex_condition_destroyed e) in
      bail (TR_ERR_SYS, Some e, budget) when (negb (ex_condition_destroyed e) && negb cond_ok) ;;
      let e := ex_retire e true in
      bail (TR_ERR_SYS, Some e, budget) when (negb mutex_ok) ;;
      let '(ret, budget) := b_release budget (ex_bytes e) in (ret, None, budget)
  | _, _ => (TR_ERR_INVALID, executor, budget)
  end.

End Budgeted.

Definition tr_task_executor_set_notify (executor : option tr_task_executor) (self notify arg : Z)
    : tr_status * option tr_task_executor :=
  match executor with
  | None => (TR_ERR_INVALID, None)
  | Some e =>
      bail (TR_ERR_INVALID, executor) when ((notify =? 0) && negb (arg =? 0)) ;;
      bail (TR_ERR_STATE, executor) when (negb (self =? ex_owner e)) ;;
      bail (TR_ERR_STATE, executor) when
        (ex_dispatching e ||
         (negb (bool_decide (ex_state e = TR_EXECUTOR_NEW)) &&
          negb (bool_decide (ex_state e = TR_EXECUTOR_JOINED) && (notify =? 0) &&
                (xs_outstanding (ex_stats e) =? 0)))) ;;
      (TR_OK, Some (mk_executor (ex_owner e) (ex_slots e) (ex_bytes e) (ex_workers e) (ex_started e)
         (ex_joined e) (ex_instance e) (ex_free_head e) (ex_pending e) (ex_complete e) (ex_stats e)
         (ex_state e) (ex_dispatching e) (ex_retiring e) (ex_condition_destroyed e) notify arg))
  end.

(** [pthread_create] answers with [answers], true when the list ends. *)
Fixpoint start_threads (fuel : nat) (answers : list bool) (e : tr_task_executor)
    : tr_status * tr_task_executor :=
  match fuel with
  | O => (TR_OK, e)
  | S fuel =>
      bail (TR_OK, e) when (negb (ex_started e <? ex_workers e)) ;;
      match answers with
      | false :: _ => (TR_ERR_SYS, e)
      | _ =>
          let e := ex_threads e (ex_started e + 1) (ex_joined e) in
          let x := ex_stats e in
          start_threads fuel (tail answers)
            (ex_set_stats e (count_workers x (u64 (xs_workers_alive x + 1)) (xs_accepting x)))
      end
  end.

Definition tr_task_executor_start (executor : option tr_task_executor) (self : Z) (answers : list bool)
    : tr_status * option tr_task_executor :=
  match executor with
  | None => (TR_ERR_INVALID, None)
  | Some e =>
      bail (TR_ERR_STATE, executor) when (negb (self =? ex_owner e)) ;;
      bail (TR_ERR_STATE, executor) when (negb (bool_decide (ex_state e = TR_EXECUTOR_NEW))) ;;
      let e := ex_control e (ex_stats e) TR_EXECUTOR_STARTING (ex_dispatching e) in
      let '(ret, e) := start_threads (Z.to_nat (ex_workers e)) answers e in
      let x := ex_stats e in
      (ret, Some (ex_control e (count_workers x (xs_workers_alive x) (is_ok ret))
         (if is_ok ret then TR_EXECUTOR_OPEN else TR_EXECUTOR_STOPPING) (ex_dispatching e)))
  end.

(** * Submitting and cancelling *)

Definition tr_task_executor_submit (executor : option tr_task_executor) (spec : option tr_task_spec)
    (out : bool) : tr_status * option tr_task_executor * option tr_task_handle :=
  match executor, spec with
  | Some e, Some spec =>
      bail (TR_ERR_INVALID, executor, None) when
        ((ts_work spec =? 0) || (ts_done spec =? 0) || negb out) ;;
      bail (if executor_stopping (ex_state e) then TR_ERR_CLOSED else TR_ERR_STATE, executor, None) when
        (negb (bool_decide (ex_state e = TR_EXECUTOR_OPEN))) ;;
      let index := ex_free_head e in
      bail (TR_AGAIN, executor, None) when (index =? TR_TASK_END) ;;
      let slot := (ex_slots e).[index] in
      let '(ret, generation) := tr_task_generation_next (tk_generation slot) in
      bail (ret, executor, None) when (negb (is_ok ret)) ;;
      let slots := (ex_slots e).[index <-
        mk_task_slot spec false (tk_result slot) generation (tk_next slot) TR_TASK_QUEUED] in
      let '(slots, pending) := tr_task_enqueue slots (ex_pending e) index in
      let e := ex_queues e slots (tk_next slot) pending (ex_complete e) in
      (TR_OK, Some (ex_set_stats e (count_tasks (ex_stats e) 1 0 0 0 1)),
       Some (mk_task_handle (ex_instance e) generation index))
  | _, _ => (TR_ERR_INVALID, executor, None)
  end.

(** [cancel] is the flag the token holds. *)
Definition tr_task_cancel_requested (cancel : option bool) : bool := default false cancel.

Definition task_active (s : tr_task_state) : bool :=
  match s with TR_TASK_QUEUED | TR_TASK_RUNNING => true | _ => false end.

Definition tr_task_executor_cancel (executor : option tr_task_executor) (handle : tr_task_handle)
    : tr_status * option tr_task_executor :=
  match executor with
  | None => (TR_ERR_INVALID, None)
  | Some e =>
      bail (TR_ERR_STALE, executor) when
        (negb (th_instance handle =? ex_instance e) || (th_slot handle >=? xs_capacity (ex_stats e)) ||
         (th_generation handle =? 0)) ;;
      let slot := (ex_slots e).[th_slot handle] in
      bail (TR_ERR_STALE, executor) when
        (bool_decide (tk_state slot = TR_TASK_FREE) || negb (tk_generation slot =? th_generation handle)) ;;
      bail (TR_ERR_STATE, executor) when (negb (task_active (tk_state slot))) ;;
      (TR_OK, Some (ex_set_slot e (th_slot handle) (slot_cancel slot true)))
  end.

(** The loop of [tr_task_executor_stop] over the slots. *)
Definition cancel_active (s : tr_task_slot) : tr_task_slot :=
  if task_active (tk_state s) then slot_cancel s true else s.

Definition tr_task_executor_stop (executor : option tr_task_executor) (mode : tr_task_stop_mode)
    : tr_status * option tr_task_executor :=
  match executor with
  | None => (TR_ERR_INVALID, None)
  | Some e =>
      let state := if bool_decide (ex_state e = TR_EXECUTOR_JOINED) then TR_EXECUTOR_JOINED else TR_EXECUTOR_STOPPING in
      let x := ex_stats e in
      let e := ex_control e (count_workers x (xs_workers_alive x) false) state (ex_dispatching e) in
      (TR_OK, Some (match mode with
         | TR_TASK_CANCEL => ex_queues e (map cancel_active (ex_slots e)) (ex_free_head e) (ex_pending e) (ex_complete e)
         | TR_TASK_DRAIN => e
         end))
  end.

(** * Workers *)

(** A worker holds the lock and looks at the queue, works on a slot, sleeps on the
    condition, or has left. *)
Inductive task_worker := W_awake | W_asleep | W_working (index : Z) | W_exited.

#[export] Instance task_worker_eq_dec : EqDecision task_worker.
Proof. solve_decision. Defined.

(** From the top of the loop until the lock is released. *)
Definition worker_look (e : tr_task_executor) : tr_task_executor * task_worker :=
  if (ex_pending e).1 =? TR_TASK_END then
    if bool_decide (ex_state e = TR_EXECUTOR_STOPPING) then
      let x := ex_stats e in
      (ex_set_stats e (count_workers x (u64 (xs_workers_alive x - 1)) (xs_accepting x)), W_exited)
    else (e, W_asleep)
  else
    let '(index, pending) := tr_task_dequeue (ex_slots e) (ex_pending e) in
    let e := ex_queues e (ex_slots e).[index <- slot_state (ex_slots e).[index] TR_TASK_RUNNING]
      (ex_free_head e) pending (ex_complete e) in
    (ex_set_stats e (count_tasks (ex_stats e) (-1) 1 0 0 0), W_working index).

(** From the return of the work, with [status], to the top of the loop. *)
Definition worker_complete (e : tr_task_executor) (index status : Z) : tr_task_executor :=
  let slot := (ex_slots e).[index] in
  let slot := slot_state (slot_result slot (mk_task_result status (tr_task_cancel_requested (Some (tk_cancel slot)))))
    TR_TASK_COMPLETED in
  let e := ex_set_stats e (count_tasks (ex_stats e) 0 (-1) 1 0 0) in
  let '(slots, complete) := tr_task_enqueue (ex_slots e).[index <- slot] (ex_complete e) index in
  ex_queues e slots (ex_free_head e) (ex_pending e) complete.

(** * Delivering *)

(** The owner outside of dispatch, or in the callback of a slot. *)
Inductive task_owner := O_idle | O_delivering (index : Z) (count limit : Z).

(** From the loop's test until the lock is released: [inr] delivers, [inl] returns
    [*delivered]. *)
Definition dispatch_next (e : tr_task_executor) (count limit : Z) : tr_task_executor * (Z + Z) :=
  if (count <? limit) && negb ((ex_complete e).1 =? TR_TASK_END) then
    let '(index, complete) := tr_task_dequeue (ex_slots e) (ex_complete e) in
    let e := ex_queues e (ex_slots e).[index <- slot_state (ex_slots e).[index] TR_TASK_DELIVERING]
      (ex_free_head e) (ex_pending e) complete in
    (ex_set_stats e (count_tasks (ex_stats e) 0 0 (-1) 1 0), inr index)
  else (ex_control e (ex_stats e) (ex_state e) false, inl count).

(** Up to the first callback. *)
Definition tr_task_executor_dispatch (executor : option tr_task_executor) (self limit : Z) (delivered : bool)
    : tr_status * option tr_task_executor * option (Z + Z) :=
  match executor with
  | None => (TR_ERR_INVALID, None, None)
  | Some e =>
      bail (TR_ERR_INVALID, executor, None) when (negb delivered || (limit =? 0)) ;;
      bail (TR_ERR_STATE, executor, None) when (negb (self =? ex_owner e)) ;;
      bail (TR_ERR_STATE, executor, None) when (ex_dispatching e) ;;
      let '(e, next) := dispatch_next (ex_control e (ex_stats e) (ex_state e) true) 0 limit in
      (TR_OK, Some e, Some next)
  end.

(** What the callback is called with. *)
Definition done_args (e : tr_task_executor) (index : Z) : tr_task_handle * tr_task_spec * tr_task_result :=
  let slot := (ex_slots e).[index] in
  (mk_task_handle (ex_instance e) (tk_generation slot) index, tk_spec slot, tk_result slot).

(** From the return of a callback to the loop's test. *)
Definition dispatch_done (e : tr_task_executor) (index : Z) : tr_task_executor :=
  let slot := (ex_slots e).[index] in
  let e := ex_queues e (ex_slots e).[index <-
      mk_task_slot zero_task_spec (tk_cancel slot) (tk_result slot) (tk_generation slot) (ex_free_head e) TR_TASK_FREE]
    index (ex_pending e) (ex_complete e) in
  ex_set_stats e (count_tasks (ex_stats e) 0 0 0 (-1) (-1)).

(** * Stopping *)

(** [pthread_join] answers with [answers], true when the list ends. *)
Fixpoint join_threads (fuel : nat) (answers : list bool) (e : tr_task_executor) : tr_status * tr_task_executor :=
  match fuel with
  | O => (TR_OK, e)
  | S fuel =>
      bail (TR_OK, e) when (negb (ex_joined e <? ex_started e)) ;;
      match answers with
      | false :: _ => (TR_ERR_SYS, e)
      | _ => join_threads fuel (tail answers) (ex_threads e (ex_started e) (ex_joined e + 1))
      end
  end.

(** Every worker has left, so nothing but cancellations can come between its two locked parts. *)
Definition tr_task_executor_join (executor : option tr_task_executor) (self : Z) (answers : list bool)
    : tr_status * option tr_task_executor :=
  match executor with
  | None => (TR_ERR_INVALID, None)
  | Some e =>
      bail (TR_ERR_STATE, executor) when (negb (self =? ex_owner e)) ;;
      bail (TR_ERR_STATE, executor) when (ex_dispatching e || negb (executor_stopping (ex_state e))) ;;
      bail (TR_AGAIN, executor) when (negb (xs_workers_alive (ex_stats e) =? 0)) ;;
      let '(ret, e) := join_threads (Z.to_nat (ex_started e - ex_joined e)) answers e in
      bail (ret, Some e) when (negb (is_ok ret)) ;;
      (TR_OK, Some (ex_control e (ex_stats e) TR_EXECUTOR_JOINED (ex_dispatching e)))
  end.

Definition tr_task_executor_get_stats (executor : option tr_task_executor) (out : bool)
    : tr_status * option tr_task_executor_stats :=
  match executor with
  | None => (TR_ERR_INVALID, None)
  | Some e => if out then (TR_OK, Some (ex_stats e)) else (TR_ERR_INVALID, None)
  end.

(** [worker] is the calling thread's worker flag. *)
Definition tr_task_executor_adopt_cleanup (executor : option tr_task_executor) (self : Z) (worker : bool)
    : tr_status * option tr_task_executor :=
  match executor with
  | None => (TR_ERR_INVALID, None)
  | Some e =>
      bail (TR_ERR_STATE, executor) when (tr_execution_in_worker_context worker) ;;
      bail (TR_ERR_STATE, executor) when (negb (executor_stopping (ex_state e)) || ex_dispatching e) ;;
      (TR_OK, Some (mk_executor self (ex_slots e) (ex_bytes e) (ex_workers e) (ex_started e)
         (ex_joined e) (ex_instance e) (ex_free_head e) (ex_pending e) (ex_complete e) (ex_stats e)
         (ex_state e) (ex_dispatching e) (ex_retiring e) (ex_condition_destroyed e) (ex_notify e)
         (ex_notify_arg e)))
  end.

Definition tr_task_executor_is_current_owner (executor : option tr_task_executor) (self : Z) : bool :=
  match executor with None => false | Some e => self =? ex_owner e end.

(** * The system: an executor, its workers, its owner and whoever submits *)

(** What has happened: tasks accepted, works called, works returned, callbacks called,
    cancellations accepted, notifications. *)
Record task_log := mk_task_log {
  lg_accepted : list (tr_task_handle * tr_task_spec);
  lg_started : list (tr_task_handle * tr_task_spec);
  lg_finished : list (tr_task_handle * tr_task_result);
  lg_delivered : list (tr_task_handle * tr_task_spec * tr_task_result);
  lg_cancelled : list tr_task_handle;
  lg_notified : Z
}.

Record task_sys := mk_task_sys {
  sy_ex : tr_task_executor;
  sy_workers : list task_worker;
  sy_owner : task_owner;
  sy_log : task_log
}.

Definition log_accept (g : task_log) (t : tr_task_handle * tr_task_spec) : task_log :=
  mk_task_log (lg_accepted g ++ [t]) (lg_started g) (lg_finished g) (lg_delivered g) (lg_cancelled g) (lg_notified g).
Definition log_start (g : task_log) (t : tr_task_handle * tr_task_spec) : task_log :=
  mk_task_log (lg_accepted g) (lg_started g ++ [t]) (lg_finished g) (lg_delivered g) (lg_cancelled g) (lg_notified g).
Definition log_finish (g : task_log) (t : tr_task_handle * tr_task_result) (notified : Z) : task_log :=
  mk_task_log (lg_accepted g) (lg_started g) (lg_finished g ++ [t]) (lg_delivered g) (lg_cancelled g) (lg_notified g + notified).
Definition log_deliver (g : task_log) (t : tr_task_handle * tr_task_spec * tr_task_result) : task_log :=
  mk_task_log (lg_accepted g) (lg_started g) (lg_finished g) (lg_delivered g ++ [t]) (lg_cancelled g) (lg_notified g).
Definition log_cancel (g : task_log) (l : list tr_task_handle) : task_log :=
  mk_task_log (lg_accepted g) (lg_started g) (lg_finished g) (lg_delivered g) (lg_cancelled g ++ l) (lg_notified g).

(** [pthread_cond_signal] wakes [who], if it sleeps, or else some sleeper. *)
Fixpoint wake_one (ws : list task_worker) : list task_worker :=
  match ws with
  | [] => []
  | W_asleep :: ws => W_awake :: ws
  | w :: ws => w :: wake_one ws
  end.
Definition cond_signal (who : nat) (ws : list task_worker) : list task_worker :=
  match ws !! who with Some W_asleep => <[who := W_awake]> ws | _ => wake_one ws end.
Definition cond_broadcast (ws : list task_worker) : list task_worker :=
  map (λ w, match w with W_asleep => W_awake | _ => w end) ws.

Inductive task_act :=
| Act_start (self : Z) (answers : list bool)
| Act_submit (spec : tr_task_spec) (who : nat)
| Act_cancel (handle : tr_task_handle)
| Act_stop (mode : tr_task_stop_mode)
| Act_worker (k : nat) (status : Z)
| Act_dispatch (self limit : Z)
| Act_done
| Act_join (self : Z) (answers : list bool)
| Act_adopt (self : Z) (worker : bool)
| Act_set_notify (self notify arg : Z).

Definition slot_handle (e : tr_task_executor) (i : Z) : tr_task_handle :=
  mk_task_handle (ex_instance e) (tk_generation (ex_slots e).[i]) i.
Definition slot_task (e : tr_task_executor) (i : Z) : tr_task_handle * tr_task_spec :=
  (slot_handle e i, tk_spec (ex_slots e).[i]).
Definition slot_outcome (e : tr_task_executor) (i : Z) : tr_task_handle * tr_task_result :=
  (slot_handle e i, tk_result (ex_slots e).[i]).
Definition active_handles (e : tr_task_executor) : list tr_task_handle :=
  map (slot_handle e) (filter (λ i, task_active (tk_state (ex_slots e).[i]) = true) (seqZ 0 (xs_capacity (ex_stats e)))).

(** What a worker does when it gets the lock. *)
Definition run_worker (s : task_sys) (k : nat) (e : tr_task_executor) (g : task_log) : task_sys :=
  let '(e', w) := worker_look e in
  let g := match w with W_working i => log_start g (slot_task e' i) | _ => g end in
  mk_task_sys e' (<[k := w]> (sy_workers s)) (sy_owner s) g.

Definition run_dispatch (s : task_sys) (limit count : Z) (e : tr_task_executor) (next : Z + Z) : task_sys :=
  match next with
  | inl _ => mk_task_sys e (sy_workers s) O_idle (sy_log s)
  | inr i => mk_task_sys e (sy_workers s) (O_delivering i count limit) (log_deliver (sy_log s) (done_args e i))
  end.

Definition sys_ex (s : task_sys) (e : option tr_task_executor) : task_sys :=
  mk_task_sys (default (sy_ex s) e) (sy_workers s) (sy_owner s) (sy_log s).

Definition task_exec (a : task_act) (s : task_sys) : task_sys :=
  let e := sy_ex s in
  match a with
  | Act_start self answers =>
      match tr_task_executor_start (Some e) self answers with
      | (TR_ERR_STATE, _) => s
      | (_, e') =>
          let e' := default e e' in
          mk_task_sys e' (replicate (Z.to_nat (ex_started e')) W_awake) (sy_owner s) (sy_log s)
      end
  | Act_submit spec who =>
      match tr_task_executor_submit (Some e) (Some spec) true with
      | (TR_OK, Some e, Some h) =>
          mk_task_sys e (cond_signal who (sy_workers s)) (sy_owner s) (log_accept (sy_log s) (h, spec))
      | _ => s
      end
  | Act_cancel h =>
      match tr_task_executor_cancel (Some e) h with
      | (TR_OK, Some e) => mk_task_sys e (sy_workers s) (sy_owner s) (log_cancel (sy_log s) [h])
      | _ => s
      end
  | Act_stop mode =>
      let '(_, e') := tr_task_executor_stop (Some e) mode in
      mk_task_sys (default e e') (cond_broadcast (sy_workers s)) (sy_owner s)
        (match mode with TR_TASK_CANCEL => log_cancel (sy_log s) (active_handles e) | TR_TASK_DRAIN => sy_log s end)
  | Act_worker k status =>
      match sy_workers s !! k with
      | Some (W_working i) =>
          let h := slot_handle e i in
          let result := mk_task_result status (bool_decide (h ∈ lg_cancelled (sy_log s))) in
          let e := worker_complete e i status in
          run_worker s k e (log_finish (sy_log s) (h, result) (if ex_notify e =? 0 then 0 else 1))
      | Some W_awake | Some W_asleep => run_worker s k e (sy_log s)
      | _ => s
      end
  | Act_dispatch self limit =>
      match tr_task_executor_dispatch (Some e) self limit true with
      | (TR_OK, Some e, Some next) => run_dispatch s limit 0 e next
      | _ => s
      end
  | Act_done =>
      match sy_owner s with
      | O_delivering i count limit =>
          let '(e, next) := dispatch_next (dispatch_done e i) (count + 1) limit in
          run_dispatch s limit (count + 1) e next
      | O_idle => s
      end
  | Act_join self answers => sys_ex s (tr_task_executor_join (Some e) self answers).2
  | Act_adopt self worker => sys_ex s (tr_task_executor_adopt_cleanup (Some e) self worker).2
  | Act_set_notify self notify arg => sys_ex s (tr_task_executor_set_notify (Some e) self notify arg).2
  end.

Definition task_execs (l : list task_act) (s : task_sys) : task_sys := fold_left (λ s a, task_exec a s) l s.

Definition task_log_empty : task_log := mk_task_log [] [] [] [] [] 0.
Definition task_init (e : tr_task_executor) : task_sys := mk_task_sys e [] O_idle task_log_empty.

(** * Lemmas: queues *)

Definition next_of (slots : list tr_task_slot) (i : Z) : Z := tk_next slots.[i].

(** The slots of a queue, first to last. *)
Definition queue (slots : list tr_task_slot) (q : Z * Z) (l : list Z) : Prop :=
  chain (next_of slots) q.1 l ∧ q.2 = default TR_TASK_END (last l).

(** Everything of a slot but its link. *)
Definition body (s : tr_task_slot) : tr_task_slot := slot_next s 0.

Definition in_range (slots : list tr_task_slot) (i : Z) : Prop := 0 ≤ i < alen slots.

(** Appending to a chain changes the last link. *)
Lemma chain_snoc link link' h l i : chain link h l → NoDup (l ++ [i]) → link' i = UINT32_MAX →
  (∀ j, j ∈ l → last l ≠ Some j → link' j = link j) → (∀ j, last l = Some j → link' j = i) →
  chain link' (match l with [] => i | _ => h end) (l ++ [i]).
Proof.
  revert h. induction l as [|j l IH]; intros h Hc Hnd Hi Hsame Hlast; [by repeat split|].
  destruct Hc as [-> Hc]. rewrite <- app_comm_cons in *. apply NoDup_cons in Hnd as [Hj Hnd]. split; [done|].
  destruct l as [|k l].
  - rewrite (Hlast j) by done. by split.
  - rewrite Hsame; [|by left|].
    + apply (IH (link j)); try done. intros j' Hj'. apply Hsame. by right.
    + intros E. apply Hj, elem_of_app. left. apply last_Some_elem_of. done.
Qed.

Lemma last_in {A} (l : list A) x : last l = Some x → x ∈ l.
Proof. apply last_Some_elem_of. Qed.

Lemma enqueue_spec slots q l i : queue slots q l → Forall (in_range slots) l → in_range slots i → NoDup (l ++ [i]) →
  alen slots ≤ TR_TASK_END →
  ∃ slots' q', tr_task_enqueue slots q i = (slots', q') ∧ queue slots' q' (l ++ [i]) ∧ alen slots' = alen slots ∧
    (∀ j, 0 ≤ j → body slots'.[j] = body slots.[j]) ∧ (∀ j, 0 ≤ j → j ≠ i → j ∉ l → slots'.[j] = slots.[j]).
Proof.
  intros [Hc Ht] Hl Hi Hnd Hcap. unfold tr_task_enqueue. set (slots1 := slots.[i <- slot_next slots.[i] TR_TASK_END]).
  assert (∀ j, 0 ≤ j → slots1.[j] = if i =? j then slot_next slots.[i] TR_TASK_END else slots.[j]) as E1
    by (intros; by apply aget_aset).
  apply NoDup_app in Hnd as (Hndl & Hdis & _).
  destruct (last l) as [t|] eqn:Elast; simpl in Ht.
  - pose proof (last_in _ _ Elast) as Hin. pose proof (proj1 (list.Forall_forall _ _) Hl _ Hin) as [Ht0 Ht1].
    assert (t ≠ i) as Hti by (intros ->; by destruct (Hdis i Hin); left).
    rewrite Ht. destruct (Z.eqb_spec t TR_TASK_END); [lia|]. cbn [negb].
    eexists _, _. split; [done|]. set (slots2 := slots1.[t <- slot_next slots1.[t] i]).
    assert (∀ j, 0 ≤ j → slots2.[j] = if t =? j then slot_next slots.[t] i else slots1.[j]) as E2.
    { intros j Hj. unfold slots2. rewrite aget_aset by (unfold slots1; rewrite ?alen_aset; lia).
      rewrite E1 by lia. destruct (Z.eqb_spec i t); [lia|done]. }
    split_and!.
    + split; simpl; [|by rewrite last_snoc].
      destruct l as [|h l]; [done|]. destruct Hc as [Hh Hc].
      apply (chain_snoc (next_of slots) _ q.1 (h :: l)); [by split|..].
      * apply NoDup_app. split_and!; [done|done|apply NoDup_singleton].
      * unfold next_of. rewrite E2, E1 by (destruct Hi; lia). destruct (Z.eqb_spec t i); [lia|]. by rewrite Z.eqb_refl.
      * intros j Hj Hne. pose proof (proj1 (list.Forall_forall _ _) Hl _ Hj) as [? ?]. unfold next_of.
        rewrite E2, E1 by lia. destruct (Z.eqb_spec t j); [congruence|]. destruct (Z.eqb_spec i j); [|done].
        subst j. by destruct (Hdis i Hj); left.
      * intros j Hj. assert (j = t) as -> by congruence. unfold next_of. rewrite E2, Z.eqb_refl by lia. done.
    + unfold slots2, slots1. by rewrite !alen_aset.
    + intros j Hj. rewrite E2, E1 by done. destruct (Z.eqb_spec t j) as [->|]; [done|].
      by destruct (Z.eqb_spec i j) as [->|].
    + intros j Hj Hji Hjl. rewrite E2, E1 by done. destruct (Z.eqb_spec t j) as [->|]; [done|].
      by destruct (Z.eqb_spec i j) as [->|].
  - apply last_None in Elast as ->. rewrite Ht. cbn [default TR_TASK_END Z.eqb negb]. rewrite Z.eqb_refl. cbn [negb].
    eexists _, _. split; [done|]. split_and!.
    + split; [|done]. simpl. split; [done|]. unfold next_of. rewrite E1, Z.eqb_refl by (destruct Hi; lia). done.
    + unfold slots1. by rewrite alen_aset.
    + intros j Hj. rewrite E1 by done. by destruct (Z.eqb_spec i j) as [->|].
    + intros j Hj Hji _. rewrite E1 by done. by destruct (Z.eqb_spec i j) as [->|].
Qed.

Lemma dequeue_spec slots q i l : queue slots q (i :: l) → Forall (in_range slots) l → alen slots ≤ TR_TASK_END →
  ∃ q', tr_task_dequeue slots q = (i, q') ∧ queue slots q' l.
Proof.
  intros [[Hh Hc] Ht] Hl Hcap. unfold tr_task_dequeue. rewrite Hh. eexists. split; [done|].
  split; simpl; [exact Hc|]. destruct l as [|j l].
  - simpl in Hc. unfold next_of in Hc. rewrite Hc. done.
  - destruct Hc as [Hj _]. unfold next_of in Hj. rewrite Hj.
    apply Forall_cons in Hl as [[? ?] _]. destruct (Z.eqb_spec j TR_TASK_END); [lia|]. exact Ht.
Qed.

Lemma queue_ext slots slots' q l : (∀ i, i ∈ l → slots'.[i] = slots.[i]) → queue slots q l → queue slots' q l.
Proof. intros E [Hc Ht]. split; [|done]. eapply chain_ext; [|done]. intros i Hi. unfold next_of. by rewrite E. Qed.

Lemma queue_empty slots q l : queue slots q l → Forall (in_range slots) l → alen slots ≤ TR_TASK_END →
  q.1 = TR_TASK_END ↔ l = [].
Proof.
  intros [Hc _] Hl Hcap. destruct l as [|i l]; [done|]. destruct Hc as [-> _].
  apply Forall_cons in Hl as [[? ?] _]. split; [lia|done].
Qed.

(** * The invariant *)

Definition worker_index (w : task_worker) : option Z := match w with W_working i => Some i | _ => None end.
Definition working (ws : list task_worker) : list Z := omap worker_index ws.
Definition delivering (o : task_owner) : list Z := match o with O_delivering i _ _ => [i] | O_idle => [] end.
Definition is_awake (w : task_worker) : Z := match w with W_awake => 1 | _ => 0 end.
Definition is_alive (w : task_worker) : Z := match w with W_exited => 0 | _ => 1 end.

(** The slots in a state are those of a list. *)
Definition role (slots : list tr_task_slot) (st : tr_task_state) (l : list Z) : Prop :=
  NoDup l ∧ ∀ i, i ∈ l ↔ in_range slots i ∧ tk_state slots.[i] = st.

(** The slots: free, pending, with workers, completed, in delivery. *)
Definition lists (fl pl rl cl dl : list Z) (st : tr_task_state) : list Z :=
  match st with
  | TR_TASK_FREE => fl
  | TR_TASK_QUEUED => pl
  | TR_TASK_RUNNING => rl
  | TR_TASK_COMPLETED => cl
  | TR_TASK_DELIVERING => dl
  end.

Record slots_ok (e : tr_task_executor) (fl pl rl cl dl : list Z) : Prop := {
  so_cap : alen (ex_slots e) = xs_capacity (ex_stats e) ∧ alen (ex_slots e) < TR_TASK_END;
  so_free : chain (next_of (ex_slots e)) (ex_free_head e) fl;
  so_pending : queue (ex_slots e) (ex_pending e) pl;
  so_complete : queue (ex_slots e) (ex_complete e) cl;
  so_roles : ∀ st, role (ex_slots e) st (lists fl pl rl cl dl st);
  so_generation : ∀ i, in_range (ex_slots e) i → 0 ≤ tk_generation (ex_slots e).[i] ≤ UINT64_MAX
}.

(** The statistics count them. *)
Record stats_ok (x : tr_task_executor_stats) (pl rl cl dl : list Z) : Prop := {
  st_queued : xs_queued x = alen pl;
  st_running : xs_running x = alen rl;
  st_completed : xs_completed x = alen cl;
  st_delivering : xs_delivering x = alen dl;
  st_outstanding : xs_outstanding x = alen pl + alen rl + alen cl + alen dl
}.

(** Every task that was accepted is where the log says. *)
Record log_ok (e : tr_task_executor) (pl rl cl : list Z) (g : task_log) : Prop := {
  lo_accepted : lg_accepted g = lg_started g ++ map (slot_task e) pl;
  lo_started : map fst (lg_started g) ≡ₚ map fst (lg_finished g) ++ map (slot_handle e) rl;
  lo_finished : lg_finished g = map (λ d, (d.1.1, d.2)) (lg_delivered g) ++ map (slot_outcome e) cl;
  lo_nodup : NoDup (map fst (lg_accepted g));
  lo_fresh : ∀ h, h ∈ map fst (lg_accepted g) → th_instance h = ex_instance e ∧ in_range (ex_slots e) (th_slot h) ∧
    1 ≤ th_generation h ≤ tk_generation (ex_slots e).[th_slot h];
  lo_cancelled : ∀ h, h ∈ lg_cancelled g → h ∈ map fst (lg_accepted g);
  lo_tasks : ∀ i, in_range (ex_slots e) i → tk_state (ex_slots e).[i] ≠ TR_TASK_FREE → slot_task e i ∈ lg_accepted g;
  lo_delivered : ∀ d, d ∈ lg_delivered g → d.1 ∈ lg_accepted g;
  lo_flag : ∀ i, in_range (ex_slots e) i → task_active (tk_state (ex_slots e).[i]) = true →
    tk_cancel (ex_slots e).[i] = true ↔ slot_handle e i ∈ lg_cancelled g;
  lo_result : ∀ h r, (h, r) ∈ lg_finished g → tr_cancelled r = true ↔ h ∈ lg_cancelled g
}.

(** The workers: none sleeps on a pending task, or once the executor stops; none has left a
    pending task, or a working executor, behind. *)
Record workers_ok (e : tr_task_executor) (pl : list Z) (ws : list task_worker) : Prop := {
  wo_started : ex_started e = alen ws ∧ 0 ≤ alen ws ≤ ex_workers e ∧ 0 < ex_workers e < 2 ^ 32;
  wo_alive : xs_workers_alive (ex_stats e) = zsum is_alive ws;
  wo_asleep : W_asleep ∈ ws → alen pl ≤ zsum is_awake ws;
  wo_stopping : executor_stopping (ex_state e) = true → W_asleep ∉ ws;
  wo_exited : W_exited ∈ ws → pl = [] ∧ executor_stopping (ex_state e) = true;
  wo_joined : ex_state e = TR_EXECUTOR_JOINED → ∀ w, w ∈ ws → w = W_exited;
  wo_open : ex_state e = TR_EXECUTOR_OPEN → ws ≠ [];
  wo_empty : ws = [] → pl = [];
  wo_new : ex_state e = TR_EXECUTOR_NEW → ws = [] ∧ xs_outstanding (ex_stats e) = 0;
  wo_steady : ex_state e ≠ TR_EXECUTOR_STARTING;
  wo_accepting : xs_accepting (ex_stats e) = bool_decide (ex_state e = TR_EXECUTOR_OPEN)
}.

Record task_inv (s : task_sys) (fl pl cl : list Z) : Prop := {
  ti_slots : slots_ok (sy_ex s) fl pl (working (sy_workers s)) cl (delivering (sy_owner s));
  ti_stats : stats_ok (ex_stats (sy_ex s)) pl (working (sy_workers s)) cl (delivering (sy_owner s));
  ti_log : log_ok (sy_ex s) pl (working (sy_workers s)) cl (sy_log s);
  ti_workers : workers_ok (sy_ex s) pl (sy_workers s);
  ti_owner : ex_dispatching (sy_ex s) = match sy_owner s with O_idle => false | _ => true end
}.

(** ** Roles *)

Lemma role_len slots st l : role slots st l → alen l ≤ alen slots.
Proof.
  intros [Hnd Hl]. assert (l ⊆+ seqZ 0 (alen slots)) as Hs.
  { apply NoDup_submseteq; [done|]. intros i [[? ?] _]%Hl. apply elem_of_seqZ. lia. }
  apply submseteq_length in Hs. rewrite length_seqZ in Hs. unfold alen in *. lia.
Qed.

Lemma role_range slots st l : role slots st l → Forall (in_range slots) l.
Proof. intros [_ Hl]. apply list.Forall_forall. intros i Hi. by apply Hl. Qed.

Section Move.
Context (slots slots' : list tr_task_slot) (i : Z) (from to : tr_task_state).
Context (Hlen : alen slots' = alen slots) (Hi : in_range slots i).
Context (Hfrom : tk_state slots.[i] = from) (Hto : tk_state slots'.[i] = to).
Context (Hsame : ∀ j, in_range slots j → j ≠ i → tk_state slots'.[j] = tk_state slots.[j]).

Lemma role_keep st l : st ≠ from → st ≠ to → role slots st l → role slots' st l.
Proof using All.
  intros H1 H2 [Hnd Hl]. split; [done|]. intros j. rewrite Hl. unfold in_range in *. rewrite Hlen.
  destruct (decide (j = i)) as [->|Hne]; [split; intros []; congruence|].
  split; intros [? ?]; (split; [done|]); [by rewrite Hsame|by rewrite <- Hsame].
Qed.

Lemma role_lose l l' : from ≠ to → l ≡ₚ i :: l' → role slots from l → role slots' from l'.
Proof using All.
  intros H1 Hp [Hnd Hl]. rewrite Hp in Hnd. apply NoDup_cons in Hnd as [Hni Hnd]. split; [done|].
  intros j. unfold in_range in *. rewrite Hlen. split.
  - intros Hj. assert (j ≠ i) by congruence. assert (j ∈ l) as [Hr Hst]%Hl by (rewrite Hp; by right).
    split; [done|]. by rewrite Hsame.
  - intros [Hr Hst]. destruct (decide (j = i)) as [->|Hne]; [congruence|]. rewrite Hsame in Hst by done.
    assert (j ∈ l) as Hj by (by apply Hl). rewrite Hp in Hj. apply elem_of_cons in Hj as [?|?]; done.
Qed.

Lemma role_gain l l' : from ≠ to → l' ≡ₚ i :: l → role slots to l → role slots' to l'.
Proof using All.
  intros H1 Hp [Hnd Hl]. assert (i ∉ l) as Hni by (intros [_ ?]%Hl; congruence).
  split; [rewrite Hp; by apply NoDup_cons|].
  intros j. rewrite Hp, elem_of_cons, Hl. unfold in_range in *. rewrite Hlen. split.
  - intros [->|[Hr Hst]]; [done|]. split; [done|]. destruct (decide (j = i)) as [->|Hne]; [done|]. by rewrite Hsame.
  - intros [Hr Hst]. destruct (decide (j = i)) as [->|Hne]; [by left|right]. rewrite <- Hsame by done. done.
Qed.

End Move.

(** ** Slots *)

(** Another slot than [i] keeps all but its link. *)
Record moves (e e' : tr_task_executor) (i : Z) : Prop := {
  mv_instance : ex_instance e' = ex_instance e;
  mv_cap : alen (ex_slots e') = alen (ex_slots e);
  mv_range : in_range (ex_slots e) i;
  mv_body : ∀ j, in_range (ex_slots e) j → j ≠ i → body (ex_slots e').[j] = body (ex_slots e).[j]
}.

Lemma body_fields s s' : body s = body s' → tk_spec s = tk_spec s' ∧ tk_cancel s = tk_cancel s' ∧
  tk_result s = tk_result s' ∧ tk_generation s = tk_generation s' ∧ tk_state s = tk_state s'.
Proof. destruct s, s'. unfold body, slot_next. simpl. intros [= -> -> -> -> ->]. done. Qed.

Lemma moves_state e e' i j : moves e e' i → in_range (ex_slots e) j → j ≠ i →
  tk_state (ex_slots e').[j] = tk_state (ex_slots e).[j].
Proof. intros [_ _ _ H] ? ?. by apply body_fields, H. Qed.

Lemma moves_slot e e' i j : moves e e' i → in_range (ex_slots e) j → j ≠ i →
  slot_handle e' j = slot_handle e j ∧ slot_task e' j = slot_task e j ∧ slot_outcome e' j = slot_outcome e j ∧
  tk_cancel (ex_slots e').[j] = tk_cancel (ex_slots e).[j].
Proof.
  intros [Hin _ _ H] Hj Hne. destruct (body_fields _ _ (H j Hj Hne)) as (E1 & E2 & E3 & E4 & _).
  unfold slot_task, slot_outcome, slot_handle. by rewrite Hin, E1, E2, E3, E4.
Qed.

Lemma moves_map {X} (f : tr_task_executor → Z → X) e e' i l : moves e e' i →
  (∀ j, in_range (ex_slots e) j → j ≠ i → f e' j = f e j) → Forall (in_range (ex_slots e)) l → i ∉ l →
  map (f e') l = map (f e) l.
Proof.
  intros Hm Hf Hl Hi. apply map_ext_in. intros j Hj%list_elem_of_In. apply Hf; [|set_solver].
  exact (proj1 (list.Forall_forall _ _) Hl j Hj).
Qed.

(** A slot is in one list only. *)
Lemma not_in_other slots st st' l i l' : role slots st l → role slots st' l' → st ≠ st' → i ∈ l → i ∉ l'.
Proof. intros [_ H1] [_ H2] Hne Hi Hi'. apply H1 in Hi as [_ ?]. apply H2 in Hi' as [_ ?]. congruence. Qed.

Lemma chain_skip slots slots' h l : (∀ j, j ∈ l → slots'.[j] = slots.[j]) → chain (next_of slots) h l →
  chain (next_of slots') h l.
Proof. intros E. apply chain_ext. intros j Hj. unfold next_of. by rewrite E. Qed.

Lemma generations_keep e e' i : moves e e' i → tk_generation (ex_slots e').[i] = tk_generation (ex_slots e).[i] →
  (∀ j, in_range (ex_slots e) j → tk_generation (ex_slots e').[j] = tk_generation (ex_slots e).[j]) ∧
  (∀ j, in_range (ex_slots e) j → slot_handle e' j = slot_handle e j).
Proof.
  intros Hm Hg. assert (∀ j, in_range (ex_slots e) j → tk_generation (ex_slots e').[j] = tk_generation (ex_slots e).[j]) as H.
  { intros j Hj. destruct (decide (j = i)) as [->|Hne]; [done|].
    by destruct (body_fields _ _ (mv_body _ _ _ Hm j Hj Hne)) as (_ & _ & _ & ? & _). }
  split; [done|]. intros j Hj. unfold slot_handle. by rewrite H, (mv_instance _ _ _ Hm).
Qed.

Lemma fresh_keep e e' i g : moves e e' i → tk_generation (ex_slots e').[i] = tk_generation (ex_slots e).[i] →
  (∀ h, h ∈ map fst (lg_accepted g) → th_instance h = ex_instance e ∧ in_range (ex_slots e) (th_slot h) ∧
    1 ≤ th_generation h ≤ tk_generation (ex_slots e).[th_slot h]) →
  ∀ h, h ∈ map fst (lg_accepted g) → th_instance h = ex_instance e' ∧ in_range (ex_slots e') (th_slot h) ∧
    1 ≤ th_generation h ≤ tk_generation (ex_slots e').[th_slot h].
Proof.
  intros Hm Hg H h Hh. destruct (H h Hh) as (H1 & H2 & H3). unfold in_range in *.
  rewrite (mv_instance _ _ _ Hm), (mv_cap _ _ _ Hm). split; [done|]. split; [done|].
  by rewrite (proj1 (generations_keep _ _ _ Hm Hg)).
Qed.

(** Everything but the slots, their queues and their counts. *)
Definition frame (e : tr_task_executor) : tr_task_executor :=
  ex_queues (ex_set_stats e (mk_task_stats (xs_capacity (ex_stats e)) 0 0 0 0 0
    (xs_workers_alive (ex_stats e)) (xs_accepting (ex_stats e)))) [] 0 (0, 0) (0, 0).

Lemma role_perm slots st l l' : l ≡ₚ l' → role slots st l → role slots st l'.
Proof. intros Hp [Hnd Hl]. split; [by rewrite <- Hp|]. intros i. by rewrite <- Hp. Qed.

Lemma count_small e fl pl rl cl dl : slots_ok e fl pl rl cl dl →
  alen pl < 2 ^ 32 ∧ alen rl < 2 ^ 32 ∧ alen cl < 2 ^ 32 ∧ alen dl < 2 ^ 32.
Proof.
  intros Hs. destruct (so_cap _ _ _ _ _ _ Hs) as [_ Hcap]. unfold TR_TASK_END, UINT32_MAX in Hcap.
  assert (∀ st, alen (lists fl pl rl cl dl st) < 2 ^ 32) as H.
  { intros st. pose proof (role_len _ _ _ (so_roles _ _ _ _ _ _ Hs st)). lia. }
  split_and!; [apply (H TR_TASK_QUEUED)|apply (H TR_TASK_RUNNING)|apply (H TR_TASK_COMPLETED)|apply (H TR_TASK_DELIVERING)].
Qed.

Lemma alen_cons {A} (x : A) l : alen (x :: l) = alen l + 1.
Proof. unfold alen. simpl. lia. Qed.
Lemma alen_perm {A} (l l' : list A) : l ≡ₚ l' → alen l = alen l'.
Proof. unfold alen. by intros ->. Qed.
Lemma alen_snoc {A} (x : A) l : alen (l ++ [x]) = alen l + 1.
Proof. unfold alen. rewrite length_app. simpl. lia. Qed.

(** Adding to the counts, which never overflow. *)
Lemma stats_count e x pl rl cl dl pl' rl' cl' dl' a b c d o :
  stats_ok x pl rl cl dl → 
  alen pl' < 2 ^ 32 ∧ alen rl' < 2 ^ 32 ∧ alen cl' < 2 ^ 32 ∧ alen dl' < 2 ^ 32 →
  alen pl' = alen pl + a → alen rl' = alen rl + b → alen cl' = alen cl + c → alen dl' = alen dl + d →
  o = a + b + c + d → e = count_tasks x a b c d o → stats_ok e pl' rl' cl' dl'.
Proof.
  intros [E1 E2 E3 E4 E5] Hsmall Ha Hb Hc Hd Ho ->.
  pose proof (alen_nonneg pl'). pose proof (alen_nonneg rl'). pose proof (alen_nonneg cl'). pose proof (alen_nonneg dl').
  split; simpl; rewrite u64_small by word_lia; lia.
Qed.

(** Slot [i] goes from one list to another. *)
Lemma slots_moved e e' i from to fl pl rl cl dl fl' pl' rl' cl' dl' :
  slots_ok e fl pl rl cl dl → moves e e' i → xs_capacity (ex_stats e') = xs_capacity (ex_stats e) →
  lists fl pl rl cl dl from ≡ₚ i :: lists fl' pl' rl' cl' dl' from →
  lists fl' pl' rl' cl' dl' to ≡ₚ i :: lists fl pl rl cl dl to →
  (∀ st, st ≠ from → st ≠ to → lists fl' pl' rl' cl' dl' st = lists fl pl rl cl dl st) → from ≠ to →
  tk_state (ex_slots e').[i] = to → 0 ≤ tk_generation (ex_slots e').[i] ≤ UINT64_MAX →
  chain (next_of (ex_slots e')) (ex_free_head e') fl' → queue (ex_slots e') (ex_pending e') pl' →
  queue (ex_slots e') (ex_complete e') cl' → slots_ok e' fl' pl' rl' cl' dl'.
Proof.
  intros Hs Hm Hcap Hf Ht Ho Hne Hst Hgen Hfl Hpl Hcl. pose proof (so_roles _ _ _ _ _ _ Hs) as Hr.
  assert (tk_state (ex_slots e).[i] = from) as Hst0.
  { apply (proj2 (Hr from)). rewrite Hf. by left. }
  split; try done.
  - rewrite (mv_cap _ _ _ Hm), Hcap. apply (so_cap _ _ _ _ _ _ Hs).
  - intros st. destruct (decide (st = from)) as [->|Hnf]; [|destruct (decide (st = to)) as [->|Hnt]].
    + eapply (role_lose (ex_slots e) (ex_slots e') i from to); try done; [apply Hm|apply Hm|intros; by eapply moves_state].
    + eapply (role_gain (ex_slots e) (ex_slots e') i from to); try done; [apply Hm|apply Hm|intros; by eapply moves_state].
    + rewrite Ho by done. eapply (role_keep (ex_slots e) (ex_slots e') i from to); try done; [apply Hm|apply Hm|intros; by eapply moves_state].
  - intros j Hj. unfold in_range in Hj. rewrite (mv_cap _ _ _ Hm) in Hj. destruct (decide (j = i)) as [->|Hji]; [done|].
    destruct (body_fields _ _ (mv_body _ _ _ Hm j Hj Hji)) as (_ & _ & _ & -> & _). by apply (so_generation _ _ _ _ _ _ Hs).
Qed.

(** The log after a move that keeps the task, until it is delivered. *)
Lemma log_moved e e' i pl rl cl pl' rl' cl' g g' :
  log_ok e pl rl cl g → moves e e' i → tk_generation (ex_slots e').[i] = tk_generation (ex_slots e).[i] →
  (tk_state (ex_slots e').[i] ≠ TR_TASK_FREE → tk_state (ex_slots e).[i] ≠ TR_TASK_FREE ∧
     tk_spec (ex_slots e').[i] = tk_spec (ex_slots e).[i]) →
  (task_active (tk_state (ex_slots e').[i]) = true → task_active (tk_state (ex_slots e).[i]) = true ∧
     tk_cancel (ex_slots e').[i] = tk_cancel (ex_slots e).[i]) →
  lg_accepted g' = lg_accepted g → lg_cancelled g' = lg_cancelled g →
  lg_accepted g = lg_started g' ++ map (slot_task e') pl' →
  map fst (lg_started g') ≡ₚ map fst (lg_finished g') ++ map (slot_handle e') rl' →
  lg_finished g' = map (λ d, (d.1.1, d.2)) (lg_delivered g') ++ map (slot_outcome e') cl' →
  (∀ d, d ∈ lg_delivered g' → d ∈ lg_delivered g ∨ d.1 ∈ lg_accepted g) →
  (∀ h r, (h, r) ∈ lg_finished g' → (h, r) ∈ lg_finished g ∨ (tr_cancelled r = true ↔ h ∈ lg_cancelled g)) →
  log_ok e' pl' rl' cl' g'.
Proof.
  intros Hg Hm Hgen Htask Hact Ea Ec H1 H2 H3 H4 H5. destruct (generations_keep _ _ _ Hm Hgen) as [Hgens Hhd].
  assert (∀ j, in_range (ex_slots e') j → in_range (ex_slots e) j) as Hr
    by (unfold in_range; by rewrite (mv_cap _ _ _ Hm)).
  split; rewrite ?Ea, ?Ec; try done; try apply Hg.
  - apply (fresh_keep e e' i g); try done. apply Hg.
  - intros j Hj%Hr Hst. destruct (decide (j = i)) as [->|Hne].
    + destruct (Htask Hst) as [Hst' Es]. unfold slot_task. rewrite Hhd, Es by done. by apply (lo_tasks _ _ _ _ _ Hg).
    + destruct (moves_slot _ _ _ _ Hm Hj Hne) as (_ & -> & _ & _). apply (lo_tasks _ _ _ _ _ Hg); [done|].
      by rewrite <- (moves_state _ _ _ _ Hm Hj Hne).
  - intros d [Hd|Hd]%H4; [by apply (lo_delivered _ _ _ _ _ Hg)|done].
  - intros j Hj%Hr Hst. rewrite Hhd by done. destruct (decide (j = i)) as [->|Hne].
    + destruct (Hact Hst) as [Hst' ->]. by apply (lo_flag _ _ _ _ _ Hg).
    + destruct (moves_slot _ _ _ _ Hm Hj Hne) as (_ & _ & _ & ->). apply (lo_flag _ _ _ _ _ Hg); [done|].
      by rewrite <- (moves_state _ _ _ _ Hm Hj Hne).
  - intros h r Hin. destruct (H5 h r Hin) as [Hin'|?]; [|done]. by apply (lo_result _ _ _ _ _ Hg).
Qed.

(** Changing one slot, before any queue changes. *)
Lemma set_slot_moves e e' i s : in_range (ex_slots e) i → ex_instance e' = ex_instance e →
  alen (ex_slots e') = alen (ex_slots e) →
  (∀ j, 0 ≤ j → body (ex_slots e').[j] = body (ex_slots e).[i <- s].[j]) →
  moves e e' i ∧ body (ex_slots e').[i] = body s.
Proof.
  intros Hi Hin Hlen Hb. split.
  - split; try done. intros j [Hj0 Hj1] Hne. rewrite Hb, aget_aset by (try done; destruct Hi; lia).
    by destruct (Z.eqb_spec i j); [congruence|].
  - rewrite Hb, aget_aset_eq by (try done; destruct Hi; lia). done.
Qed.

Lemma map_keep {X} (f : tr_task_executor → Z → X) e e' i st l : moves e e' i → role (ex_slots e) st l → i ∉ l →
  (∀ j, in_range (ex_slots e) j → j ≠ i → f e' j = f e j) → map (f e') l = map (f e) l.
Proof. intros Hm Hr Hi Hf. eapply moves_map; [done|done|by eapply role_range|done]. Qed.

(** A worker takes the first pending task. *)
Lemma look_spec e fl pl rl rl' cl dl g i : slots_ok e fl (i :: pl) rl cl dl → stats_ok (ex_stats e) (i :: pl) rl cl dl →
  log_ok e (i :: pl) rl cl g → rl' ≡ₚ i :: rl →
  ∃ e', worker_look e = (e', W_working i) ∧ slots_ok e' fl pl rl' cl dl ∧ stats_ok (ex_stats e') pl rl' cl dl ∧
    log_ok e' pl rl' cl (log_start g (slot_task e' i)) ∧ frame e' = frame e.
Proof.
  intros Hs Hx Hg Hrl. pose proof (so_roles _ _ _ _ _ _ Hs) as Hr.
  pose proof (Hr TR_TASK_QUEUED) as Hpl. simpl in Hpl. pose proof (role_range _ _ _ Hpl) as Hrange.
  apply Forall_cons in Hrange as [Hi Hprange]. destruct (proj1 (proj2 Hpl i)) as [_ Hsti]; [by left|].
  destruct (so_cap _ _ _ _ _ _ Hs) as [Hcap Hcap32].
  destruct (dequeue_spec _ _ _ _ (so_pending _ _ _ _ _ _ Hs) Hprange ltac:(lia)) as (q' & Hdq & Hq').
  destruct Hpl as [Hnd _]. apply NoDup_cons in Hnd as [Hipl Hnd].
  assert (∀ st, st ≠ TR_TASK_QUEUED → i ∉ lists fl (i :: pl) rl cl dl st) as Hni.
  { intros st Hne. eapply (not_in_other _ TR_TASK_QUEUED st); [apply Hr|apply Hr|done|by left]. }
  unfold worker_look. destruct (Z.eqb_spec (ex_pending e).1 TR_TASK_END) as [E|_].
  { destruct (so_pending _ _ _ _ _ _ Hs) as [[E' _] _]. destruct Hi. lia. }
  rewrite Hdq. eexists. split; [done|]. set (e' := ex_set_stats _ _).
  destruct (set_slot_moves e e' i (slot_state (ex_slots e).[i] TR_TASK_RUNNING)) as [Hm Hb];
    [done|done|apply alen_aset|done|].
  apply body_fields in Hb as (Bs & Bc & Br & Bg & Bst).
  assert (∀ j, 0 ≤ j → j ≠ i → (ex_slots e').[j] = (ex_slots e).[j]) as Eother
    by (intros j Hj Hne; apply aget_aset_ne; destruct Hi; lia).
  assert (slot_task e' i = slot_task e i) as Ht.
  { unfold slot_task, slot_handle. by rewrite Bs, Bg, (mv_instance _ _ _ Hm). }
  assert (slots_ok e' fl pl rl' cl dl) as Hs'.
  { eapply (slots_moved e e' i TR_TASK_QUEUED TR_TASK_RUNNING); try done.
    - by intros [] ? ?.
    - rewrite Bg. by apply (so_generation _ _ _ _ _ _ Hs).
    - eapply chain_skip; [|apply (so_free _ _ _ _ _ _ Hs)]. intros j Hj. apply Eother; [|intros ->; by apply (Hni TR_TASK_FREE)].
      apply (proj1 (list.Forall_forall _ _) (role_range _ _ _ (Hr TR_TASK_FREE)) j Hj).
    - eapply queue_ext; [|done]. intros j Hj. apply Eother; [|congruence].
      apply (proj1 (list.Forall_forall _ _) Hprange j Hj).
    - eapply queue_ext; [|apply (so_complete _ _ _ _ _ _ Hs)]. intros j Hj. apply Eother; [|intros ->; by apply (Hni TR_TASK_COMPLETED)].
      apply (proj1 (list.Forall_forall _ _) (role_range _ _ _ (Hr TR_TASK_COMPLETED)) j Hj). }
  split_and!; try done.
  - eapply stats_count; [exact Hx|by eapply count_small|..|reflexivity]; rewrite ?(alen_perm _ _ Hrl), ?alen_cons; lia.
  - eapply (log_moved e e' i (i :: pl) rl cl); try done; cbn [log_start lg_accepted lg_started lg_finished lg_delivered lg_cancelled].
    + rewrite Bst. split; [rewrite Hsti|]; done.
    + rewrite Hsti. done.
    + rewrite (lo_accepted _ _ _ _ _ Hg). simpl. rewrite Ht, <- app_assoc. simpl. do 2 f_equal. symmetry.
      eapply moves_map; try done. intros j Hj Hne. by apply moves_slot with i.
    + rewrite map_app, (lo_started _ _ _ _ _ Hg), <- app_assoc. f_equiv. rewrite Hrl. simpl.
      rewrite (map_keep slot_handle e e' i TR_TASK_RUNNING rl Hm (Hr TR_TASK_RUNNING)); [|by apply (Hni TR_TASK_RUNNING)|].
      * symmetry. apply Permutation_cons_append.
      * intros j Hj Hne. by apply moves_slot with i.
    + rewrite (lo_finished _ _ _ _ _ Hg). f_equal. symmetry.
      apply (map_keep slot_outcome e e' i TR_TASK_COMPLETED cl Hm (Hr TR_TASK_COMPLETED)); [by apply (Hni TR_TASK_COMPLETED)|].
      intros j Hj Hne. by apply moves_slot with i.
    + by left.
    + by left.
Qed.

(** A work returns. *)
Lemma complete_spec e fl pl rl rl' cl dl g i status n : slots_ok e fl pl rl cl dl → stats_ok (ex_stats e) pl rl cl dl →
  log_ok e pl rl cl g → rl ≡ₚ i :: rl' →
  let e' := worker_complete e i status in
  slots_ok e' fl pl rl' (cl ++ [i]) dl ∧ stats_ok (ex_stats e') pl rl' (cl ++ [i]) dl ∧
    log_ok e' pl rl' (cl ++ [i]) (log_finish g (slot_outcome e' i) n) ∧ frame e' = frame e ∧
    tk_result (ex_slots e').[i] = mk_task_result status (tk_cancel (ex_slots e).[i]) ∧
    slot_handle e' i = slot_handle e i.
Proof.
  intros Hs Hx Hg Hrl. pose proof (so_roles _ _ _ _ _ _ Hs) as Hr.
  assert (i ∈ rl) as Hirl by (rewrite Hrl; by left).
  destruct (proj1 (proj2 (Hr TR_TASK_RUNNING) i) Hirl) as [Hi Hsti].
  destruct (so_cap _ _ _ _ _ _ Hs) as [Hcap Hcap32].
  assert (∀ st, st ≠ TR_TASK_RUNNING → i ∉ lists fl pl rl cl dl st) as Hni.
  { intros st Hne. eapply (not_in_other _ TR_TASK_RUNNING st); [apply Hr|apply Hr|done|done]. }
  assert (∀ st, Forall (in_range (ex_slots e)) (lists fl pl rl cl dl st)) as Hrange by (intros; by eapply role_range).
  unfold worker_complete. cbn [ex_set_stats ex_control ex_slots ex_complete tr_task_cancel_requested default id].
  set (slot := slot_state _ _). set (slots1 := (ex_slots e).[i <- slot]).
  assert (∀ j, 0 ≤ j → j ≠ i → slots1.[j] = (ex_slots e).[j]) as E1
    by (intros j Hj Hne; apply aget_aset_ne; destruct Hi; lia).
  assert (queue slots1 (ex_complete e) cl) as Hq.
  { eapply queue_ext; [|apply (so_complete _ _ _ _ _ _ Hs)]. intros j Hj. apply E1; [|intros ->; by apply (Hni TR_TASK_COMPLETED)].
    apply (proj1 (list.Forall_forall _ _) (Hrange TR_TASK_COMPLETED) j Hj). }
  destruct (enqueue_spec slots1 (ex_complete e) cl i) as (slots' & q' & -> & Hq' & Hlen & Hbody & Hoth); try done.
  { unfold in_range, slots1. rewrite alen_aset. apply (Hrange TR_TASK_COMPLETED). }
  { unfold in_range, slots1. by rewrite alen_aset. }
  { apply NoDup_app. split; [apply (Hr TR_TASK_COMPLETED)|]. split; [|apply NoDup_singleton].
    intros j Hj ->%list_elem_of_singleton. by apply (Hni TR_TASK_COMPLETED). }
  { unfold slots1. rewrite alen_aset. lia. }
  set (e' := ex_queues _ _ _ _ _).
  destruct (set_slot_moves e e' i slot) as [Hm Hb]; [done|done|by unfold e'; simpl; rewrite Hlen; apply alen_aset|done|].
  apply body_fields in Hb as (Bs & Bc & Br & Bg & Bst).
  assert (slots_ok e' fl pl rl' (cl ++ [i]) dl) as Hs'.
  { eapply (slots_moved e e' i TR_TASK_RUNNING TR_TASK_COMPLETED); try done.
    - simpl. by rewrite Permutation_app_comm.
    - by intros [] ? ?.
    - rewrite Bg. by apply (so_generation _ _ _ _ _ _ Hs).
    - eapply chain_skip; [|apply (so_free _ _ _ _ _ _ Hs)]. intros j Hj.
      pose proof (proj1 (list.Forall_forall _ _) (Hrange TR_TASK_FREE) j Hj) as [? ?].
      assert (j ≠ i) by (intros ->; by apply (Hni TR_TASK_FREE)). simpl. rewrite Hoth, E1; try done.
      eapply (not_in_other _ TR_TASK_FREE TR_TASK_COMPLETED); [apply Hr|apply (Hr TR_TASK_COMPLETED)|done|done].
    - eapply queue_ext; [|apply (so_pending _ _ _ _ _ _ Hs)]. intros j Hj.
      pose proof (proj1 (list.Forall_forall _ _) (Hrange TR_TASK_QUEUED) j Hj) as [? ?].
      assert (j ≠ i) by (intros ->; by apply (Hni TR_TASK_QUEUED)). simpl. rewrite Hoth, E1; try done.
      eapply (not_in_other _ TR_TASK_QUEUED TR_TASK_COMPLETED); [apply Hr|apply (Hr TR_TASK_COMPLETED)|done|done]. }
  split_and!; try done.
  - eapply stats_count; [exact Hx|by eapply count_small|..|reflexivity]; rewrite ?(alen_perm _ _ Hrl), ?alen_cons, ?alen_snoc; lia.
  - eapply (log_moved e e' i pl rl cl); try done; cbn [log_finish lg_accepted lg_started lg_finished lg_delivered lg_cancelled].
    + rewrite Hsti. done.
    + by rewrite Bst.
    + rewrite (lo_accepted _ _ _ _ _ Hg). f_equal. symmetry.
      apply (map_keep slot_task e e' i TR_TASK_QUEUED pl Hm (Hr TR_TASK_QUEUED)); [by apply (Hni TR_TASK_QUEUED)|].
      intros j Hj Hne. by apply moves_slot with i.
    + rewrite (lo_started _ _ _ _ _ Hg), map_app, <- app_assoc. f_equiv. rewrite Hrl. simpl.
      assert (slot_handle e' i = slot_handle e i) as -> by (unfold slot_handle; by rewrite Bg, (mv_instance _ _ _ Hm)).
      f_equiv. destruct (Hr TR_TASK_RUNNING) as [Hnd _]. simpl in Hnd. rewrite Hrl in Hnd. apply NoDup_cons in Hnd as [Hi' _].
      rewrite (moves_map slot_handle e e' i rl' Hm); [done|intros j Hj Hne; by apply moves_slot with i| |done].
      pose proof (Hrange TR_TASK_RUNNING) as Hrr. simpl in Hrr. rewrite Hrl in Hrr. by apply Forall_cons in Hrr as [_ ?].
    + rewrite map_app, app_assoc. f_equal. rewrite (lo_finished _ _ _ _ _ Hg). f_equal. symmetry.
      apply (map_keep slot_outcome e e' i TR_TASK_COMPLETED cl Hm (Hr TR_TASK_COMPLETED)); [by apply (Hni TR_TASK_COMPLETED)|].
      intros j Hj Hne. by apply moves_slot with i.
    + by left.
    + intros h r [Hin|Hin]%elem_of_app; [by left|]. apply list_elem_of_singleton in Hin.
      assert (h = slot_handle e' i) as -> by exact (f_equal fst Hin).
      assert (r = tk_result (ex_slots e').[i]) as -> by exact (f_equal snd Hin). right. rewrite Br.
      assert (slot_handle e' i = slot_handle e i) as -> by (unfold slot_handle; by rewrite Bg, (mv_instance _ _ _ Hm)).
      apply (lo_flag _ _ _ _ _ Hg); [done|by rewrite Hsti].
  - unfold slot_handle. by rewrite Bg, (mv_instance _ _ _ Hm).
Qed.

Lemma role_elem_range slots st l j : role slots st l → j ∈ l → in_range slots j.
Proof. intros [_ H] Hj. by apply H in Hj as [? _]. Qed.

(** The owner takes the first completed task to its callback. *)
Lemma deliver_spec e fl pl rl cl g i : slots_ok e fl pl rl (i :: cl) [] → stats_ok (ex_stats e) pl rl (i :: cl) [] →
  log_ok e pl rl (i :: cl) g → ∀ count limit, count < limit →
  ∃ e', dispatch_next e count limit = (e', inr i) ∧ slots_ok e' fl pl rl cl [i] ∧ stats_ok (ex_stats e') pl rl cl [i] ∧
    log_ok e' pl rl cl (log_deliver g (done_args e' i)) ∧ frame e' = frame e.
Proof.
  intros Hs Hx Hg count limit Hlt. pose proof (so_roles _ _ _ _ _ _ Hs) as Hr.
  pose proof (Hr TR_TASK_COMPLETED) as Hcl. simpl in Hcl. pose proof (role_range _ _ _ Hcl) as Hrange.
  apply Forall_cons in Hrange as [Hi Hcrange]. destruct (proj1 (proj2 Hcl i)) as [_ Hsti]; [by left|].
  destruct (so_cap _ _ _ _ _ _ Hs) as [Hcap Hcap32].
  destruct (dequeue_spec _ _ _ _ (so_complete _ _ _ _ _ _ Hs) Hcrange ltac:(lia)) as (q' & Hdq & Hq').
  destruct Hcl as [Hnd _]. apply NoDup_cons in Hnd as [Hicl Hnd].
  assert (∀ st, st ≠ TR_TASK_COMPLETED → i ∉ lists fl pl rl (i :: cl) [] st) as Hni.
  { intros st Hne. eapply (not_in_other _ TR_TASK_COMPLETED st); [apply Hr|apply Hr|done|by left]. }
  unfold dispatch_next. destruct (Z.ltb_spec count limit) as [_|]; [|lia].
  destruct (Z.eqb_spec (ex_complete e).1 TR_TASK_END) as [E|_].
  { destruct (so_complete _ _ _ _ _ _ Hs) as [[E' _] _]. destruct Hi. lia. }
  cbn [andb negb]. rewrite Hdq. eexists. split; [done|]. set (e' := ex_set_stats _ _).
  destruct (set_slot_moves e e' i (slot_state (ex_slots e).[i] TR_TASK_DELIVERING)) as [Hm Hb];
    [done|done|apply alen_aset|done|].
  apply body_fields in Hb as (Bs & Bc & Br & Bg & Bst).
  assert (∀ j, in_range (ex_slots e) j → j ≠ i → (ex_slots e').[j] = (ex_slots e).[j]) as Eother
    by (intros j [? ?] Hne; apply aget_aset_ne; destruct Hi; lia).
  assert (slot_handle e' i = slot_handle e i) as Hh by (unfold slot_handle; by rewrite Bg, (mv_instance _ _ _ Hm)).
  assert (done_args e' i = (slot_handle e i, tk_spec (ex_slots e).[i], tk_result (ex_slots e).[i])) as Hargs.
  { unfold done_args. rewrite Bs, Br, Bg. done. }
  assert (slots_ok e' fl pl rl cl [i]) as Hs'.
  { eapply (slots_moved e e' i TR_TASK_COMPLETED TR_TASK_DELIVERING); try done.
    - by intros [] ? ?.
    - rewrite Bg. by apply (so_generation _ _ _ _ _ _ Hs).
    - eapply chain_skip; [|apply (so_free _ _ _ _ _ _ Hs)]. intros j Hj.
      apply Eother; [by eapply role_elem_range; [apply (Hr TR_TASK_FREE)|]|intros ->; by apply (Hni TR_TASK_FREE)].
    - eapply queue_ext; [|apply (so_pending _ _ _ _ _ _ Hs)]. intros j Hj.
      apply Eother; [by eapply role_elem_range; [apply (Hr TR_TASK_QUEUED)|]|intros ->; by apply (Hni TR_TASK_QUEUED)].
    - eapply queue_ext; [|done]. intros j Hj.
      apply Eother; [apply (proj1 (list.Forall_forall _ _) Hcrange j Hj)|congruence]. }
  split_and!; try done.
  - eapply stats_count; [exact Hx|by eapply count_small|..|reflexivity]; rewrite ?alen_cons; lia.
  - rewrite Hargs. eapply (log_moved e e' i pl rl (i :: cl)); try done;
      cbn [log_deliver lg_accepted lg_started lg_finished lg_delivered lg_cancelled].
    + rewrite Hsti. done.
    + by rewrite Bst.
    + rewrite (lo_accepted _ _ _ _ _ Hg). f_equal. symmetry.
      apply (map_keep slot_task e e' i TR_TASK_QUEUED pl Hm (Hr TR_TASK_QUEUED)); [by apply (Hni TR_TASK_QUEUED)|].
      intros j Hj Hne. by apply moves_slot with i.
    + rewrite (lo_started _ _ _ _ _ Hg). f_equiv. symmetry.
      rewrite (map_keep slot_handle e e' i TR_TASK_RUNNING rl Hm (Hr TR_TASK_RUNNING)); [done|by apply (Hni TR_TASK_RUNNING)|].
      intros j Hj Hne. by apply moves_slot with i.
    + rewrite (lo_finished _ _ _ _ _ Hg), map_app, <- app_assoc. do 2 f_equal. symmetry.
      rewrite (moves_map slot_outcome e e' i cl Hm); [done|intros j Hj Hne; by apply moves_slot with i|done|done].
    + intros d [Hd|Hd]%elem_of_app; [by left|right]. apply list_elem_of_singleton in Hd as ->. simpl.
      apply (lo_tasks _ _ _ _ _ Hg i Hi). by rewrite Hsti.
    + by left.
Qed.

(** A callback returns. *)
Lemma done_spec e fl pl rl cl g i : slots_ok e fl pl rl cl [i] → stats_ok (ex_stats e) pl rl cl [i] →
  log_ok e pl rl cl g →
  let e' := dispatch_done e i in
  slots_ok e' (i :: fl) pl rl cl [] ∧ stats_ok (ex_stats e') pl rl cl [] ∧ log_ok e' pl rl cl g ∧ frame e' = frame e.
Proof.
  intros Hs Hx Hg. pose proof (so_roles _ _ _ _ _ _ Hs) as Hr.
  destruct (proj1 (proj2 (Hr TR_TASK_DELIVERING) i)) as [Hi Hsti]; [by left|].
  assert (∀ st, st ≠ TR_TASK_DELIVERING → i ∉ lists fl pl rl cl [i] st) as Hni.
  { intros st Hne. eapply (not_in_other _ TR_TASK_DELIVERING st); [apply Hr|apply Hr|done|by left]. }
  unfold dispatch_done. set (slot := mk_task_slot _ _ _ _ _ _). cbn zeta. set (e' := ex_set_stats _ _).
  destruct (set_slot_moves e e' i slot) as [Hm Hb]; [done|done|apply alen_aset|done|].
  apply body_fields in Hb as (Bs & Bc & Br & Bg & Bst).
  assert (∀ j, in_range (ex_slots e) j → j ≠ i → (ex_slots e').[j] = (ex_slots e).[j]) as Eother
    by (intros j [? ?] Hne; apply aget_aset_ne; destruct Hi; lia).
  assert (slots_ok e' (i :: fl) pl rl cl []) as Hs'.
  { eapply (slots_moved e e' i TR_TASK_DELIVERING TR_TASK_FREE); try done.
    - by intros [] ? ?.
    - rewrite Bg. by apply (so_generation _ _ _ _ _ _ Hs).
    - split; [done|]. unfold next_of at 2. change (ex_slots e') with (ex_slots e).[i <- slot].
      rewrite aget_aset_eq by done. eapply chain_skip; [|apply (so_free _ _ _ _ _ _ Hs)]. intros j Hj.
      apply Eother; [by eapply role_elem_range; [apply (Hr TR_TASK_FREE)|]|intros ->; by apply (Hni TR_TASK_FREE)].
    - eapply queue_ext; [|apply (so_pending _ _ _ _ _ _ Hs)]. intros j Hj.
      apply Eother; [by eapply role_elem_range; [apply (Hr TR_TASK_QUEUED)|]|intros ->; by apply (Hni TR_TASK_QUEUED)].
    - eapply queue_ext; [|apply (so_complete _ _ _ _ _ _ Hs)]. intros j Hj.
      apply Eother; [by eapply role_elem_range; [apply (Hr TR_TASK_COMPLETED)|]|intros ->; by apply (Hni TR_TASK_COMPLETED)]. }
  split_and!; try done.
  - eapply stats_count; [exact Hx|by eapply count_small|..|reflexivity]; rewrite ?alen_cons; try lia; done.
  - eapply (log_moved e e' i pl rl cl); try done.
    + by rewrite Bst.
    + rewrite (lo_accepted _ _ _ _ _ Hg). f_equal. symmetry.
      apply (map_keep slot_task e e' i TR_TASK_QUEUED pl Hm (Hr TR_TASK_QUEUED)); [by apply (Hni TR_TASK_QUEUED)|].
      intros j Hj Hne. by apply moves_slot with i.
    + rewrite (lo_started _ _ _ _ _ Hg). f_equiv. symmetry.
      rewrite (map_keep slot_handle e e' i TR_TASK_RUNNING rl Hm (Hr TR_TASK_RUNNING)); [done|by apply (Hni TR_TASK_RUNNING)|].
      intros j Hj Hne. by apply moves_slot with i.
    + rewrite (lo_finished _ _ _ _ _ Hg). f_equal. symmetry.
      apply (map_keep slot_outcome e e' i TR_TASK_COMPLETED cl Hm (Hr TR_TASK_COMPLETED)); [by apply (Hni TR_TASK_COMPLETED)|].
      intros j Hj Hne. by apply moves_slot with i.
    + by left.
    + by left.
Qed.

(** The log after a new task takes slot [i] with a new generation. *)
Lemma log_submitted e e' i pl rl cl g spec : log_ok e pl rl cl g → moves e e' i →
  tk_generation (ex_slots e').[i] = tk_generation (ex_slots e).[i] + 1 → 0 ≤ tk_generation (ex_slots e).[i] →
  tk_spec (ex_slots e').[i] = spec → tk_cancel (ex_slots e').[i] = false →
  Forall (in_range (ex_slots e)) (pl ++ rl ++ cl) → i ∉ pl ++ rl ++ cl →
  log_ok e' (pl ++ [i]) rl cl (log_accept g (slot_handle e' i, spec)).
Proof.
  intros Hg Hm Hgen H0 Hspec Hcan Hrange Hi. pose proof (mv_range _ _ _ Hm) as Hir.
  apply Forall_app in Hrange as [Hrp Hrange]. apply Forall_app in Hrange as [Hrr Hrc].
  assert ((i ∉ pl) ∧ (i ∉ rl) ∧ (i ∉ cl)) as (Hip & Hirl & Hic) by set_solver.
  assert (∀ j, in_range (ex_slots e') j → in_range (ex_slots e) j) as Hr
    by (unfold in_range; by rewrite (mv_cap _ _ _ Hm)).
  assert (slot_handle e' i ∉ map fst (lg_accepted g)) as Hnew.
  { intros Hin. destruct (lo_fresh _ _ _ _ _ Hg _ Hin) as (_ & _ & _ & Hle). simpl in Hle. lia. }
  assert (slot_handle e' i ∉ lg_cancelled g) as Hnc by (intros Hin; by apply Hnew, (lo_cancelled _ _ _ _ _ Hg)).
  split; cbn [log_accept lg_accepted lg_started lg_finished lg_delivered lg_cancelled]; rewrite ?map_app; try apply Hg.
  - rewrite (lo_accepted _ _ _ _ _ Hg), <- app_assoc. f_equal. simpl. f_equal; [|unfold slot_task; by rewrite Hspec].
    symmetry. apply (moves_map slot_task e e' i); try done. intros j Hj Hne. by apply moves_slot with i.
  - rewrite (lo_started _ _ _ _ _ Hg). f_equiv. symmetry.
    rewrite (moves_map slot_handle e e' i rl Hm); [done|intros j Hj Hne; by apply moves_slot with i|done|done].
  - rewrite (lo_finished _ _ _ _ _ Hg). f_equal. symmetry.
    rewrite (moves_map slot_outcome e e' i cl Hm); [done|intros j Hj Hne; by apply moves_slot with i|done|done].
  - apply NoDup_app. split; [apply Hg|]. split; [|apply NoDup_singleton]. simpl.
    intros h Hh ->%list_elem_of_singleton. done.
  - intros h [Hh|Hh]%elem_of_app.
    + destruct (lo_fresh _ _ _ _ _ Hg h Hh) as (E & Hhr & Hg1 & Hg2). rewrite (mv_instance _ _ _ Hm).
      split; [done|]. split; [unfold in_range in *; by rewrite (mv_cap _ _ _ Hm)|]. split; [done|].
      destruct (decide (th_slot h = i)) as [Ei|Hne]; [rewrite Ei in *; lia|].
      by destruct (body_fields _ _ (mv_body _ _ _ Hm _ Hhr Hne)) as (_ & _ & _ & -> & _).
    + simpl in Hh. apply list_elem_of_singleton in Hh as ->. simpl. split; [done|].
      split; [unfold in_range in *; by rewrite (mv_cap _ _ _ Hm)|]. lia.
  - intros h Hh. apply elem_of_app. left. by apply (lo_cancelled _ _ _ _ _ Hg).
  - intros j Hj%Hr Hst. apply elem_of_app. destruct (decide (j = i)) as [->|Hne].
    + right. unfold slot_task. rewrite Hspec. by apply list_elem_of_singleton.
    + left. destruct (moves_slot _ _ _ _ Hm Hj Hne) as (_ & -> & _ & _). apply (lo_tasks _ _ _ _ _ Hg); [done|].
      by rewrite <- (moves_state _ _ _ _ Hm Hj Hne).
  - intros d Hd. apply elem_of_app. left. by apply (lo_delivered _ _ _ _ _ Hg).
  - intros j Hj%Hr Hst. destruct (decide (j = i)) as [->|Hne].
    + rewrite Hcan. split; [done|]. intros Hin. by destruct Hnc.
    + destruct (moves_slot _ _ _ _ Hm Hj Hne) as (-> & _ & _ & ->). apply (lo_flag _ _ _ _ _ Hg); [done|].
      by rewrite <- (moves_state _ _ _ _ Hm Hj Hne).
Qed.

Lemma submit_spec e fl pl rl cl dl g spec ret o oh : slots_ok e fl pl rl cl dl → stats_ok (ex_stats e) pl rl cl dl →
  log_ok e pl rl cl g → tr_task_executor_submit (Some e) (Some spec) true = (ret, o, oh) →
  (ret ≠ TR_OK ∧ o = Some e ∧ oh = None) ∨
  (ret = TR_OK ∧ ∃ i fl' e', fl = i :: fl' ∧ o = Some e' ∧ oh = Some (slot_handle e' i) ∧ ex_state e = TR_EXECUTOR_OPEN ∧
     slots_ok e' fl' (pl ++ [i]) rl cl dl ∧ stats_ok (ex_stats e') (pl ++ [i]) rl cl dl ∧
     log_ok e' (pl ++ [i]) rl cl (log_accept g (slot_handle e' i, spec)) ∧ frame e' = frame e).
Proof.
  intros Hs Hx Hg H. pose proof (so_roles _ _ _ _ _ _ Hs) as Hr. unfold tr_task_executor_submit in H.
  destruct (_ || _ || negb true) eqn:E1 in H; [left; by injection H as <- <- <-|].
  case_bool_decide as Eopen; cbn [negb] in H; [|left; injection H as <- <- <-; by destruct (executor_stopping _)].
  destruct (Z.eqb_spec (ex_free_head e) TR_TASK_END) as [E2|E2]; [left; by injection H as <- <- <-|].
  destruct fl as [|i fl]; [by destruct E2; apply (so_free _ _ _ _ _ _ Hs)|].
  destruct (so_free _ _ _ _ _ _ Hs) as [Efh Hfl]. rewrite Efh in H.
  destruct (proj1 (proj2 (Hr TR_TASK_FREE) i)) as [Hi Hsti]; [by left|].
  destruct (so_cap _ _ _ _ _ _ Hs) as [Hcap Hcap32]. pose proof (so_generation _ _ _ _ _ _ Hs i Hi) as Hgen.
  unfold tr_task_generation_next in H. destruct (Z.eqb_spec (tk_generation (ex_slots e).[i]) UINT64_MAX) as [E3|E3];
    [left; by injection H as <- <- <-|]. change (is_ok TR_OK) with true in H. cbn [negb] in H.
  assert (∀ st, st ≠ TR_TASK_FREE → i ∉ lists (i :: fl) pl rl cl dl st) as Hni.
  { intros st Hne. eapply (not_in_other _ TR_TASK_FREE st); [apply Hr|apply Hr|done|by left]. }
  assert (∀ st, Forall (in_range (ex_slots e)) (lists (i :: fl) pl rl cl dl st)) as Hrange by (intros; by eapply role_range).
  set (slot := mk_task_slot _ _ _ _ _ _) in H. set (slots1 := (ex_slots e).[i <- slot]) in H.
  assert (∀ j, in_range (ex_slots e) j → j ≠ i → slots1.[j] = (ex_slots e).[j]) as E4
    by (intros j [? ?] Hne; apply aget_aset_ne; destruct Hi; lia).
  assert (queue slots1 (ex_pending e) pl) as Hq.
  { eapply queue_ext; [|apply (so_pending _ _ _ _ _ _ Hs)]. intros j Hj.
    apply E4; [by eapply role_elem_range; [apply (Hr TR_TASK_QUEUED)|]|intros ->; by apply (Hni TR_TASK_QUEUED)]. }
  destruct (enqueue_spec slots1 (ex_pending e) pl i) as (slots' & q' & Eq & Hq' & Hlen & Hbody & Hoth); try done.
  { unfold in_range, slots1. rewrite alen_aset. apply (Hrange TR_TASK_QUEUED). }
  { unfold in_range, slots1. by rewrite alen_aset. }
  { apply NoDup_app. split; [apply (Hr TR_TASK_QUEUED)|]. split; [|apply NoDup_singleton].
    intros j Hj ->%list_elem_of_singleton. by apply (Hni TR_TASK_QUEUED). }
  { unfold slots1. rewrite alen_aset. lia. }
  rewrite Eq in H. set (e' := ex_set_stats _ _) in H.
  destruct (set_slot_moves e e' i slot) as [Hm Hb]; [done|done|by unfold e'; simpl; rewrite Hlen; apply alen_aset|done|].
  apply body_fields in Hb as (Bs & Bc & Br & Bg & Bst).
  assert (∀ st j, st ≠ TR_TASK_FREE → st ≠ TR_TASK_QUEUED → j ∈ lists (i :: fl) pl rl cl dl st → slots'.[j] = (ex_slots e).[j]) as Hkeep.
  { intros st j Hne1 Hne2 Hj. assert (j ≠ i) by (intros ->; by apply (Hni st)).
    assert (in_range (ex_slots e) j) by (by eapply role_elem_range; [apply (Hr st)|]).
    rewrite Hoth, E4; try done; [by unfold in_range in *; lia|].
    eapply (not_in_other _ st TR_TASK_QUEUED); [apply Hr|apply (Hr TR_TASK_QUEUED)|done|done]. }
  assert (slots_ok e' fl (pl ++ [i]) rl cl dl) as Hs'.
  { eapply (slots_moved e e' i TR_TASK_FREE TR_TASK_QUEUED); try done.
    - simpl. by rewrite Permutation_app_comm.
    - by intros [] ? ?.
    - rewrite Bg. simpl. lia.
    - eapply chain_skip; [|exact Hfl]. intros j Hj. simpl.
      destruct (Hr TR_TASK_FREE) as [Hnd _]. simpl in Hnd. apply NoDup_cons in Hnd as [Hnif _].
      assert (j ≠ i) by congruence.
      assert (j ∈ lists (i :: fl) pl rl cl dl TR_TASK_FREE) as Hj' by (by right).
      assert (in_range (ex_slots e) j) by (by eapply role_elem_range; [apply (Hr TR_TASK_FREE)|]).
      rewrite Hoth, E4; try done; [by unfold in_range in *; lia|].
      eapply (not_in_other _ TR_TASK_FREE TR_TASK_QUEUED); [apply Hr|apply (Hr TR_TASK_QUEUED)|done|exact Hj'].
    - eapply queue_ext; [|apply (so_complete _ _ _ _ _ _ Hs)]. intros j Hj. by apply (Hkeep TR_TASK_COMPLETED). }
  right. assert (slot_handle e' i = mk_task_handle (ex_instance e) (tk_generation (ex_slots e).[i] + 1) i) as Hh
    by (unfold slot_handle; by rewrite Bg).
  injection H as <- <- <-. split; [done|]. exists i, fl, e'. rewrite Hh. split_and!; try done.
  - eapply stats_count; [exact Hx|by eapply count_small|..|reflexivity]; rewrite ?alen_snoc; lia.
  - rewrite <- Hh. apply (log_submitted e e' i); try done; [lia|..].
    + rewrite !Forall_app. split_and!; [apply (Hrange TR_TASK_QUEUED)|apply (Hrange TR_TASK_RUNNING)|apply (Hrange TR_TASK_COMPLETED)].
    + rewrite !elem_of_app. intros [?|[?|?]]; [by apply (Hni TR_TASK_QUEUED)|by apply (Hni TR_TASK_RUNNING)|by apply (Hni TR_TASK_COMPLETED)].
Qed.

(** A task that is pending or worked on has not finished. *)
Lemma active_unfinished e fl pl rl cl dl g i : slots_ok e fl pl rl cl dl → log_ok e pl rl cl g →
  in_range (ex_slots e) i → task_active (tk_state (ex_slots e).[i]) = true →
  (slot_handle e i ∉ map fst (lg_finished g)) ∧ slot_handle e i ∈ map fst (lg_accepted g).
Proof.
  intros Hs Hg Hi Hst. split.
  - intros Hf. pose proof (lo_nodup _ _ _ _ _ Hg) as Hnd.
    rewrite (lo_accepted _ _ _ _ _ Hg), map_app, (lo_started _ _ _ _ _ Hg), map_map in Hnd.
    change (λ x, (slot_task e x).1) with (slot_handle e) in Hnd. rewrite <- app_assoc in Hnd.
    apply NoDup_app in Hnd as (_ & Hdis & _). apply (Hdis _ Hf). rewrite elem_of_app.
    destruct (tk_state (ex_slots e).[i]) eqn:E; try done; [right|left]; apply list_elem_of_fmap_2;
      [apply (so_roles _ _ _ _ _ _ Hs TR_TASK_QUEUED)|apply (so_roles _ _ _ _ _ _ Hs TR_TASK_RUNNING)]; done.
  - change (slot_handle e i) with (slot_task e i).1. apply list_elem_of_fmap_2, (lo_tasks _ _ _ _ _ Hg); [done|].
    intros E. by rewrite E in Hst.
Qed.

(** Cancelling changes nothing but flags. *)
Lemma flags_spec e fl pl rl cl dl g slots' l : slots_ok e fl pl rl cl dl → log_ok e pl rl cl g →
  alen slots' = alen (ex_slots e) →
  (∀ j, in_range (ex_slots e) j → ∃ b, slots'.[j] = slot_cancel (ex_slots e).[j] b ∧
     (task_active (tk_state (ex_slots e).[j]) = true → b = true ↔ slot_handle e j ∈ lg_cancelled g ++ l)) →
  (∀ h, h ∈ l → ∃ j, in_range (ex_slots e) j ∧ task_active (tk_state (ex_slots e).[j]) = true ∧ h = slot_handle e j) →
  let e' := ex_queues e slots' (ex_free_head e) (ex_pending e) (ex_complete e) in
  slots_ok e' fl pl rl cl dl ∧ log_ok e' pl rl cl (log_cancel g l).
Proof.
  intros Hs Hg Hlen Hb Hl e'. pose proof (so_roles _ _ _ _ _ _ Hs) as Hr.
  assert (∀ j, in_range slots' j → in_range (ex_slots e) j) as Hin by (unfold in_range; by rewrite Hlen).
  assert (∀ j, in_range (ex_slots e) j → in_range slots' j) as Hin' by (unfold in_range; by rewrite Hlen).
  assert (∀ j, in_range (ex_slots e) j → next_of slots' j = next_of (ex_slots e) j ∧
    tk_state slots'.[j] = tk_state (ex_slots e).[j] ∧ tk_generation slots'.[j] = tk_generation (ex_slots e).[j] ∧
    slot_handle e' j = slot_handle e j ∧ slot_task e' j = slot_task e j ∧ slot_outcome e' j = slot_outcome e j) as Hf.
  { intros j Hj. destruct (Hb j Hj) as (b & Ej & _). unfold next_of, slot_task, slot_outcome, slot_handle, e'.
    cbn [ex_queues ex_slots ex_instance]. by rewrite !Ej. }
  assert (∀ st j, j ∈ lists fl pl rl cl dl st → in_range (ex_slots e) j) as Hrange
    by (intros st j Hj; by eapply role_elem_range; [apply (Hr st)|]).
  assert (∀ {X} (f : tr_task_executor → Z → X) st, (∀ j, in_range (ex_slots e) j → f e' j = f e j) →
    map (f e') (lists fl pl rl cl dl st) = map (f e) (lists fl pl rl cl dl st)) as Hmap.
  { intros X f st Hfe. apply map_ext_in. intros j Hj%list_elem_of_In. apply Hfe. by eapply Hrange. }
  split.
  - split.
    + change (ex_slots e') with slots'. rewrite Hlen. exact (so_cap _ _ _ _ _ _ Hs).
    + eapply chain_ext; [|apply (so_free _ _ _ _ _ _ Hs)]. intros j Hj. apply Hf. by apply (Hrange TR_TASK_FREE).
    + destruct (so_pending _ _ _ _ _ _ Hs) as [Hc Ht]. split; [|done]. eapply chain_ext; [|exact Hc].
      intros j Hj. apply Hf. by apply (Hrange TR_TASK_QUEUED).
    + destruct (so_complete _ _ _ _ _ _ Hs) as [Hc Ht]. split; [|done]. eapply chain_ext; [|exact Hc].
      intros j Hj. apply Hf. by apply (Hrange TR_TASK_COMPLETED).
    + intros st. destruct (Hr st) as [Hnd Hst]. split; [done|]. intros j. change (ex_slots e') with slots'. rewrite Hst. split; intros [Hj E].
      * split; [by apply Hin'|]. by rewrite (proj1 (proj2 (Hf j Hj))).
      * apply Hin in Hj. split; [done|]. by rewrite <- (proj1 (proj2 (Hf j Hj))).
    + intros j Hj%Hin. destruct (Hf j Hj) as (_ & _ & E & _). change (ex_slots e') with slots'. rewrite E.
      by apply (so_generation _ _ _ _ _ _ Hs).
  - split; cbn [log_cancel lg_accepted lg_started lg_finished lg_delivered lg_cancelled]; try apply Hg.
    + rewrite (lo_accepted _ _ _ _ _ Hg). f_equal. symmetry. apply (Hmap _ slot_task TR_TASK_QUEUED). intros j Hj. by apply Hf.
    + rewrite (lo_started _ _ _ _ _ Hg). apply Permutation_refl'. f_equal. symmetry.
      apply (Hmap _ slot_handle TR_TASK_RUNNING). intros j Hj. by apply Hf.
    + rewrite (lo_finished _ _ _ _ _ Hg). f_equal. symmetry. apply (Hmap _ slot_outcome TR_TASK_COMPLETED). intros j Hj. by apply Hf.
    + intros h Hh. destruct (lo_fresh _ _ _ _ _ Hg h Hh) as (E & Hhr & Hgen). split; [done|]. split; [by apply Hin'|].
      destruct (Hf _ Hhr) as (_ & _ & Eg & _). change (ex_slots e') with slots'. by rewrite Eg.
    + intros h [Hh|Hh]%elem_of_app; [by apply (lo_cancelled _ _ _ _ _ Hg)|].
      destruct (Hl h Hh) as (j & Hj & Hst & ->). by eapply active_unfinished.
    + intros j Hj%Hin Hst. destruct (Hf j Hj) as (_ & E & _ & _ & -> & _). apply (lo_tasks _ _ _ _ _ Hg); [done|].
      by rewrite <- E.
    + intros j Hj%Hin Hst. destruct (Hf j Hj) as (_ & E & _ & -> & _). change (ex_slots e') with slots' in *.
      destruct (Hb j Hj) as (b & -> & Hbb). simpl. apply Hbb. by rewrite <- E.
    + intros h r Hin2. rewrite elem_of_app, (lo_result _ _ _ _ _ Hg h r Hin2). split; [by left|].
      intros [?|Hh]; [done|]. destruct (Hl h Hh) as (j & Hj & Hst & ->).
      destruct (active_unfinished _ _ _ _ _ _ _ _ Hs Hg Hj Hst) as [[] _].
      change (slot_handle e j) with (slot_handle e j, r).1. by apply list_elem_of_fmap_2.
Qed.

(** ** Workers *)

Lemma frame_fields e e' : frame e' = frame e →
  ex_owner e' = ex_owner e ∧ ex_workers e' = ex_workers e ∧ ex_started e' = ex_started e ∧ ex_bytes e' = ex_bytes e ∧
  ex_state e' = ex_state e ∧ ex_dispatching e' = ex_dispatching e ∧ ex_retiring e' = ex_retiring e ∧
  xs_workers_alive (ex_stats e') = xs_workers_alive (ex_stats e) ∧
  xs_accepting (ex_stats e') = xs_accepting (ex_stats e) ∧ xs_capacity (ex_stats e') = xs_capacity (ex_stats e).
Proof. destruct e, e'. unfold frame, ex_queues, ex_set_stats, ex_control. simpl. intros H. by injection H. Qed.

Lemma elem_of_insert_or {A} (l : list A) k x y : y ∈ <[k := x]> l → y = x ∨ y ∈ l.
Proof.
  intros [j Hj]%list_elem_of_lookup. apply list_lookup_insert_Some in Hj as [(_ & -> & _)|[_ Hj]]; [by left|right].
  by eapply list_elem_of_lookup_2.
Qed.

Lemma awake_nonneg ws : 0 ≤ zsum is_awake ws.
Proof. apply zsum_nonneg. by intros []. Qed.
Lemma alive_nonneg ws : 0 ≤ zsum is_alive ws ≤ alen ws.
Proof.
  split; [apply zsum_nonneg; by intros []|]. induction ws as [|w ws IH]; [done|]. rewrite alen_cons. simpl.
  destruct w; simpl; lia.
Qed.
Lemma alive_zero ws : zsum is_alive ws = 0 → ∀ w, w ∈ ws → w = W_exited.
Proof.
  induction ws as [|w ws IH]; simpl; intros H w' Hw; [by apply elem_of_nil in Hw|].
  pose proof (alive_nonneg ws). apply elem_of_cons in Hw as [->|Hw].
  - destruct w; simpl in *; try lia; done.
  - apply IH; [destruct w; simpl in *; lia|done].
Qed.

Lemma alen_zero {A} (l : list A) : alen l = 0 → l = [].
Proof. destruct l; [done|]. unfold alen. simpl. lia. Qed.
Lemma alen_insert {A} (l : list A) k x : alen (<[k := x]> l) = alen l.
Proof. unfold alen. by rewrite length_insert. Qed.

Lemma insert_not_nil {A} (l : list A) k x y : l !! k = Some x → <[k := y]> l ≠ [].
Proof. intros Hk H. apply lookup_lt_Some in Hk. rewrite <- (length_insert l k y), H in Hk. simpl in Hk. lia. Qed.

Lemma wo_frame e e' pl ws : workers_ok e pl ws → frame e' = frame e →
  (ex_state e = TR_EXECUTOR_NEW → xs_outstanding (ex_stats e') = 0) → workers_ok e' pl ws.
Proof.
  intros Hw Hf Hn. destruct (frame_fields _ _ Hf) as (E1 & E2 & E3 & E4 & E5 & E6 & E7 & E8 & E9 & E10).
  destruct Hw. split; rewrite ?E2, ?E3, ?E5, ?E8, ?E9; try done. intros Hnew. split; [|by apply Hn]. by apply wo_new0.
Qed.

(** A worker gets the lock. *)
Lemma wo_wake e pl ws k w : workers_ok e pl ws → ws !! k = Some w → w ≠ W_exited →
  workers_ok e pl (<[k := W_awake]> ws).
Proof.
  intros Hw Hk Hne. pose proof (list_elem_of_lookup_2 _ _ _ Hk) as Hin. destruct Hw as [Hs Ha Has Hst Hex Hj Ho Hem Hn Hsd Hac].
  split; rewrite ?alen_insert; try done.
  - rewrite Ha, (zsum_insert is_alive _ _ _ _ Hk). destruct w; simpl; try lia. done.
  - intros [?|H]%elem_of_insert_or; [done|]. specialize (Has H). rewrite (zsum_insert is_awake _ _ _ _ Hk).
    destruct w; simpl; lia.
  - intros Hs' [?|H]%elem_of_insert_or; [done|]. by apply Hst.
  - intros [?|H]%elem_of_insert_or; [done|]. by apply Hex.
  - intros E. by apply (Hj E) in Hin.
  - intros _. by eapply insert_not_nil.
  - intros E. by destruct (insert_not_nil _ _ _ W_awake Hk).
  - intros E. destruct (Hn E) as [-> _]. done.
Qed.

Lemma cond_signal_spec who ws : ((W_asleep ∉ ws) ∧ cond_signal who ws = ws) ∨
  ∃ k, ws !! k = Some W_asleep ∧ cond_signal who ws = <[k := W_awake]> ws.
Proof.
  assert (((W_asleep ∉ ws) ∧ wake_one ws = ws) ∨ ∃ k, ws !! k = Some W_asleep ∧ wake_one ws = <[k := W_awake]> ws) as H.
  { induction ws as [|w ws IH]; [left; split; [apply not_elem_of_nil|done]|].
    assert (w = W_asleep ∨ w ≠ W_asleep ∧ wake_one (w :: ws) = w :: wake_one ws) as [->|[Hne ->]] by (destruct w; auto).
    - right. by exists 0%nat.
    - destruct IH as [[Hn ->]|(k & Hk & ->)].
      + left. split; [|done]. rewrite not_elem_of_cons. split; [congruence|done].
      + right. by exists (S k). }
  unfold cond_signal. destruct (ws !! who) as [w|] eqn:E; [|exact H].
  destruct w; try exact H. right. by exists who.
Qed.

Lemma working_insert ws k w w' : ws !! k = Some w →
  option_list (worker_index w) ++ working (<[k := w']> ws) ≡ₚ option_list (worker_index w') ++ working ws.
Proof. apply omap_insert_perm. Qed.

Lemma signal_working who ws : working (cond_signal who ws) ≡ₚ working ws.
Proof.
  destruct (cond_signal_spec who ws) as [[_ ->]|(k & Hk & ->)]; [done|]. by apply (working_insert _ _ _ W_awake) in Hk.
Qed.

(** A pending task more, and a sleeper less. *)
Lemma wo_submit e pl ws who i : workers_ok e pl ws → ex_state e = TR_EXECUTOR_OPEN →
  workers_ok e (pl ++ [i]) (cond_signal who ws).
Proof.
  intros Hw Hopen. assert (W_exited ∉ ws) as Hnx.
  { intros H. apply (wo_exited _ _ _ Hw) in H as [_ H]. by rewrite Hopen in H. }
  destruct (cond_signal_spec who ws) as [[Hn ->]|(k & Hk & ->)].
  - destruct Hw. split; try done. intros E. by destruct (wo_open0 Hopen).
  - pose proof (list_elem_of_lookup_2 _ _ _ Hk) as Hin. pose proof (wo_asleep _ _ _ Hw Hin) as Has.
    pose proof (wo_wake _ _ _ _ _ Hw Hk ltac:(done)) as Hw'. destruct Hw'. split; try done.
    + intros _. rewrite alen_snoc, (zsum_insert is_awake _ _ _ _ Hk). simpl. lia.
    + intros H. apply wo_exited0 in H as [_ H]. by rewrite Hopen in H.
    + intros E. by destruct (wo_open0 Hopen).
Qed.

(** An awake worker takes a task. *)
Lemma wo_take e i pl ws k : workers_ok e (i :: pl) ws → ws !! k = Some W_awake →
  workers_ok e pl (<[k := W_working i]> ws).
Proof.
  intros Hw Hk. pose proof (list_elem_of_lookup_2 _ _ _ Hk) as Hin. destruct Hw as [Hs Ha Has Hst Hex Hj Ho Hem Hn Hsd Hac].
  split; rewrite ?alen_insert; try done.
  - rewrite Ha, (zsum_insert is_alive _ _ _ _ Hk). simpl. lia.
  - intros [?|H]%elem_of_insert_or; [done|]. specialize (Has H). rewrite alen_cons in Has.
    rewrite (zsum_insert is_awake _ _ _ _ Hk). simpl. lia.
  - intros Hs' [?|H]%elem_of_insert_or; [done|]. by apply Hst.
  - intros [?|H]%elem_of_insert_or; [done|]. by apply Hex in H as [? _].
  - intros E. by apply (Hj E) in Hin.
  - intros _. by eapply insert_not_nil.
  - intros E. by destruct (insert_not_nil _ _ _ (W_working i) Hk).
  - intros E. destruct (Hn E) as [-> _]. done.
Qed.

(** An awake worker finds nothing: it leaves a stopping executor, or sleeps. *)
Lemma wo_idle e ws k : workers_ok e [] ws → ws !! k = Some W_awake →
  workers_ok (worker_look e).1 [] (<[k := (worker_look e).2]> ws) ∨ (ex_pending e).1 ≠ TR_TASK_END.
Proof.
  intros Hw Hk. unfold worker_look. destruct (Z.eqb_spec (ex_pending e).1 TR_TASK_END); [left|by right].
  pose proof (list_elem_of_lookup_2 _ _ _ Hk) as Hin. destruct Hw as [Hs Ha Has Hst Hex Hj Ho Hem Hn Hsd Hac].
  assert (∀ w, <[k := w]> ws ≠ []) as Hne.
  { intros w H. apply (f_equal length) in H. rewrite length_insert in H. apply nil_length_inv in H. subst.
    by apply elem_of_nil in Hin. }
  pose proof (alive_nonneg (<[k := W_exited]> ws)) as Hal. rewrite (zsum_insert is_alive _ _ _ _ Hk) in Hal. simpl in Hal.
  destruct (decide (ex_state e = TR_EXECUTOR_STOPPING)) as [Estop|Estop];
    [rewrite bool_decide_true by done|rewrite bool_decide_false by done]; cbn [fst snd];
    (split; rewrite ?alen_insert; try done).
  - cbn [ex_set_stats ex_control ex_stats count_workers xs_workers_alive].
    rewrite Ha, (zsum_insert is_alive _ _ _ _ Hk). cbn [is_alive]. rewrite u64_small; [lia|].
    pose proof (alive_nonneg ws). unfold_words. lia.
  - intros _. apply awake_nonneg.
  - intros Hs' [?|H]%elem_of_insert_or; [done|]. by apply Hst.
  - intros _. split; [done|]. cbn [ex_set_stats ex_control ex_state]. by rewrite Estop.
  - intros E. apply (Hj E) in Hin. done.
  - cbn [ex_set_stats ex_control ex_state]. intros E. congruence.
  - rewrite Ha, (zsum_insert is_alive _ _ _ _ Hk). cbn [is_alive]. lia.
  - intros _. apply awake_nonneg.
  - intros Hs' _. destruct (ex_state e) eqn:Est; try done. apply (Hj eq_refl) in Hin. done.
  - intros [?|H]%elem_of_insert_or; [done|]. by apply Hex.
  - intros E. apply (Hj E) in Hin. done.
  - intros E. destruct (Hn E) as [-> _]. done.
Qed.

(** Slots, queues and counts are all these depend on. *)
Lemma slots_ok_same e e' fl pl rl cl dl : ex_slots e' = ex_slots e → ex_free_head e' = ex_free_head e →
  ex_pending e' = ex_pending e → ex_complete e' = ex_complete e → xs_capacity (ex_stats e') = xs_capacity (ex_stats e) →
  slots_ok e fl pl rl cl dl → slots_ok e' fl pl rl cl dl.
Proof. intros E1 E2 E3 E4 E5 []. split; by rewrite ?E1, ?E2, ?E3, ?E4, ?E5. Qed.

Lemma log_ok_same e e' pl rl cl g : ex_slots e' = ex_slots e → ex_instance e' = ex_instance e →
  log_ok e pl rl cl g → log_ok e' pl rl cl g.
Proof.
  intros E1 E2 Hg. assert (∀ i, slot_handle e' i = slot_handle e i) as E3 by (intros; unfold slot_handle; by rewrite E1, E2).
  assert (map (slot_task e') pl = map (slot_task e) pl) as E4.
  { apply map_ext. intros i. unfold slot_task. by rewrite E1, E3. }
  assert (map (slot_outcome e') cl = map (slot_outcome e) cl) as E5.
  { apply map_ext. intros i. unfold slot_outcome. by rewrite E1, E3. }
  assert (map (slot_handle e') rl = map (slot_handle e) rl) as E6 by (apply map_ext; exact E3).
  destruct Hg. split; rewrite ?E4, ?E5, ?E6, ?E1, ?E2; try done.
  - intros i Hi Hst. unfold slot_task. rewrite E1, E3. by apply lo_tasks0.
  - intros i Hi Hst. rewrite E3. by apply lo_flag0.
Qed.

Lemma stats_ok_same x x' pl rl cl dl : xs_queued x' = xs_queued x → xs_running x' = xs_running x →
  xs_completed x' = xs_completed x → xs_delivering x' = xs_delivering x → xs_outstanding x' = xs_outstanding x →
  stats_ok x pl rl cl dl → stats_ok x' pl rl cl dl.
Proof. intros E1 E2 E3 E4 E5 []. split; congruence. Qed.

Lemma stats_perm x pl rl rl' cl dl : rl ≡ₚ rl' → stats_ok x pl rl cl dl → stats_ok x pl rl' cl dl.
Proof. intros E []. split; rewrite <- ?(alen_perm _ _ E); done. Qed.

Lemma slots_perm e fl pl rl rl' cl dl : rl ≡ₚ rl' → slots_ok e fl pl rl cl dl → slots_ok e fl pl rl' cl dl.
Proof.
  intros E []. split; try done. intros st. specialize (so_roles0 st). destruct st; try done. by eapply role_perm.
Qed.

Lemma log_perm e pl rl rl' cl g : rl ≡ₚ rl' → log_ok e pl rl cl g → log_ok e pl rl' cl g.
Proof. intros E []. split; try done. by rewrite <- E. Qed.

(** A worker with the lock looks at the queue. *)
Lemma run_worker_inv e ws o g fl pl cl s k : sy_workers s = ws ∨ sy_workers s = <[k := W_awake]> ws → sy_owner s = o →
  task_inv (mk_task_sys e (<[k := W_awake]> ws) o g) fl pl cl → (k < length ws)%nat →
  ∃ pl', task_inv (run_worker s k e g) fl pl' cl.
Proof.
  intros Hws Ho [Hs Hx Hg Hw Hown] Hk. cbn [sy_ex sy_workers sy_owner sy_log] in *.
  assert ((<[k := W_awake]> ws) !! k = Some W_awake) as Hk' by (by apply list_lookup_insert_eq).
  unfold run_worker. destruct (worker_look e) as [e' w] eqn:El.
  assert (<[k := w]> (sy_workers s) = <[k := w]> (<[k := W_awake]> ws)) as Ews.
  { rewrite list_insert_insert_eq. destruct Hws as [-> | ->]; [done|]. by rewrite list_insert_insert_eq. }
  rewrite Ews, Ho. clear Ews. pose proof (working_insert _ _ _ w Hk') as Hwk. cbn [worker_index option_list app] in Hwk.
  destruct pl as [|i pl].
  - destruct (wo_idle e _ k Hw Hk') as [Hw'|Hc].
    2: { exfalso. apply Hc. by apply (so_pending _ _ _ _ _ _ Hs). }
    rewrite El in Hw'. cbn [fst snd] in Hw'. exists []. unfold worker_look in El.
    assert ((ex_pending e).1 = TR_TASK_END) as Ep by apply (so_pending _ _ _ _ _ _ Hs). rewrite Ep, Z.eqb_refl in El.
    destruct (decide (ex_state e = TR_EXECUTOR_STOPPING)) as [Estop|Estop];
      [rewrite bool_decide_true in El by done|rewrite bool_decide_false in El by done];
      injection El as <- <-; cbn [worker_index option_list app] in Hwk;
      (split; cbn [sy_ex sy_workers sy_owner sy_log]; [..|exact Hw'|exact Hown]).
    + eapply slots_perm; [symmetry; exact Hwk|]. by eapply slots_ok_same; [..|exact Hs].
    + eapply stats_perm; [symmetry; exact Hwk|]. by eapply stats_ok_same; [..|exact Hx].
    + eapply log_perm; [symmetry; exact Hwk|]. by eapply log_ok_same; [..|exact Hg].
    + by eapply slots_perm; [symmetry; exact Hwk|].
    + by eapply stats_perm; [symmetry; exact Hwk|].
    + by eapply log_perm; [symmetry; exact Hwk|].
  - destruct (look_spec e fl pl (working (<[k := W_awake]> ws)) (working (<[k := W_working i]> (<[k := W_awake]> ws))) cl
      (delivering o) g i) as (e1 & E1 & Hs1 & Hx1 & Hg1 & Hf1); try done.
    { by rewrite (working_insert _ _ _ (W_working i) Hk'). }
    rewrite E1 in El. injection El as <- <-. exists pl. split; cbn [sy_ex sy_workers sy_owner sy_log]; try done.
    + eapply wo_frame; [by apply wo_take|done|]. intros E. pose proof (wo_new _ _ _ Hw E) as [En _].
      by rewrite En in Hk'.
    + destruct (frame_fields _ _ Hf1) as (_ & _ & _ & _ & _ & -> & _). done.
Qed.

(** Delivering changes nothing of the workers and of what was accepted. *)
Definition delivery_kept (s : task_sys) (e : tr_task_executor) (s' : task_sys) : Prop :=
  sy_workers s' = sy_workers s ∧ lg_accepted (sy_log s') = lg_accepted (sy_log s) ∧
  ex_state (sy_ex s') = ex_state e ∧ ex_owner (sy_ex s') = ex_owner e.

(** The owner at the test of its loop. *)
Lemma run_dispatch_inv s e fl pl cl count limit : slots_ok e fl pl (working (sy_workers s)) cl [] →
  stats_ok (ex_stats e) pl (working (sy_workers s)) cl [] → log_ok e pl (working (sy_workers s)) cl (sy_log s) →
  workers_ok e pl (sy_workers s) → ex_dispatching e = true →
  let s' := run_dispatch s limit count (dispatch_next e count limit).1 (dispatch_next e count limit).2 in
  ∃ cl', task_inv s' fl pl cl' ∧ delivery_kept s e s' ∧
    (if decide (count < limit ∧ cl ≠ []) then ∃ i, cl = i :: cl' ∧ sy_owner s' = O_delivering i count limit
     else cl' = cl ∧ sy_owner s' = O_idle).
Proof.
  intros Hs Hx Hg Hw Hd.
  destruct (decide (count < limit ∧ cl ≠ [])) as [[Hlt Hne]|Hno]; cbn zeta.
  - destruct cl as [|i cl]; [done|]. destruct (deliver_spec _ _ _ _ _ _ _ Hs Hx Hg count limit Hlt)
      as (e' & -> & Hs' & Hx' & Hg' & Hf). exists cl. cbn [fst snd run_dispatch].
    destruct (frame_fields _ _ Hf) as (Eo & _ & _ & _ & Est & Ed & _).
    split; [|by split; [split_and!|exists i]]. split; cbn [sy_ex sy_workers sy_owner sy_log delivering]; try done.
    + eapply wo_frame; [done|done|]. intros E. pose proof (wo_new _ _ _ Hw E) as [_ H0].
      rewrite (st_outstanding _ _ _ _ _ Hx), alen_cons in H0.
      pose proof (alen_nonneg pl). pose proof (alen_nonneg (working (sy_workers s))). pose proof (alen_nonneg cl).
      unfold alen at 4 in H0. simpl in H0. lia.
    + by rewrite Ed.
  - exists cl. unfold dispatch_next.
    assert ((count <? limit) && negb ((ex_complete e).1 =? TR_TASK_END) = false) as ->.
    { destruct (Z.ltb_spec count limit); [|done]. destruct (so_complete _ _ _ _ _ _ Hs) as [Hc _].
      destruct cl as [|i cl]; [|by destruct Hno]. simpl in Hc. by rewrite Hc. }
    cbn [fst snd run_dispatch]. split; [|by split]. split; cbn [sy_ex sy_workers sy_owner sy_log delivering]; try done.
    + by eapply slots_ok_same; [..|exact Hs].
    + by eapply log_ok_same; [..|exact Hg].
    + by destruct Hw.
Qed.

Lemma start_threads_spec fuel answers e ret e' : start_threads fuel answers e = (ret, e') →
  0 ≤ ex_started e ≤ ex_workers e → ex_workers e < 2 ^ 32 → xs_workers_alive (ex_stats e) = ex_started e →
  ex_workers e - ex_started e ≤ Z.of_nat fuel →
  ∃ n, e' = ex_set_stats (ex_threads e n (ex_joined e)) (count_workers (ex_stats e) n (xs_accepting (ex_stats e))) ∧
    ex_started e ≤ n ≤ ex_workers e ∧ (ret = TR_OK ∧ n = ex_workers e ∨ ret = TR_ERR_SYS).
Proof.
  revert answers e. induction fuel as [|fuel IH]; intros answers e H Hst Hw Ha Hf; simpl in H.
  - injection H as <- <-. exists (ex_started e). split; [|split; [lia|left; split; [done|lia]]]. destruct e as [? ? ? ? ? ? ? ? ? ? [] ? ? ? ? ? ?]; simpl in *. by subst.
  - destruct (Z.ltb_spec (ex_started e) (ex_workers e)) as [Hlt|Hge]; cbn [negb] in H.
    2: { injection H as <- <-. exists (ex_started e). split; [|split; [lia|left; split; [done|lia]]].
         destruct e as [? ? ? ? ? ? ? ? ? ? [] ? ? ? ? ? ?]; simpl in *. by subst. }
    assert ((ret = TR_ERR_SYS ∧ e' = e) ∨ start_threads fuel (tail answers)
      (ex_set_stats (ex_threads e (ex_started e + 1) (ex_joined e)) (count_workers (ex_stats e)
        (u64 (xs_workers_alive (ex_stats e) + 1)) (xs_accepting (ex_stats e)))) = (ret, e')) as [[-> ->]|H'].
    { destruct answers as [|[] answers]; [by right|by right|left]. by injection H as <- <-. }
    + exists (ex_started e). split; [|split; [lia|by right]]. destruct e as [? ? ? ? ? ? ? ? ? ? [] ? ? ? ? ? ?]; simpl in *. by subst.
    + apply IH in H' as (n & -> & Hn & Hr); simpl in *; try lia.
      * exists n. split; [|split; [lia|done]]. done.
      * rewrite u64_small by (unfold_words; lia). lia.
Qed.

Lemma join_threads_spec fuel answers e ret e' : join_threads fuel answers e = (ret, e') →
  ∃ n, e' = ex_threads e (ex_started e) n.
Proof.
  revert answers e. induction fuel as [|fuel IH]; intros answers e H; simpl in H.
  - injection H as <- <-. exists (ex_joined e). by destruct e.
  - destruct (_ <? _); cbn [negb] in H; [|injection H as <- <-; exists (ex_joined e); by destruct e].
    destruct answers as [|[] answers]; [apply IH in H as [n ->]; by exists n..|].
    injection H as <- <-. exists (ex_joined e). by destruct e.
Qed.

Lemma start_inv s fl pl cl self answers : task_inv s fl pl cl →
  ∃ pl', task_inv (task_exec (Act_start self answers) s) fl pl' cl.
Proof.
  intros Hinv. pose proof Hinv as [Hs Hx Hg Hw Hown]. cbn [task_exec]. unfold tr_task_executor_start.
  destruct (self =? ex_owner (sy_ex s)); cbn [negb]; [|by exists pl].
  destruct (decide (ex_state (sy_ex s) = TR_EXECUTOR_NEW)) as [Hnew|Hnew];
    [rewrite bool_decide_true by done|rewrite bool_decide_false by done]; cbn [negb]; [|by exists pl].
  destruct (wo_new _ _ _ Hw Hnew) as [Ews Hout]. destruct (wo_started _ _ _ Hw) as (Hst & _ & Hwk).
  pose proof (wo_alive _ _ _ Hw) as Hal. rewrite Ews in Hal, Hst. cbn in Hal. unfold alen in Hst. cbn in Hst.
  assert (pl = [] ∧ cl = []) as [-> ->].
  { rewrite (st_outstanding _ _ _ _ _ Hx) in Hout. pose proof (alen_nonneg (working (sy_workers s))).
    pose proof (alen_nonneg (delivering (sy_owner s))). pose proof (alen_nonneg pl). pose proof (alen_nonneg cl).
    split; apply alen_zero; lia. }
  destruct (start_threads _ _ _) as [ret e1] eqn:Est. apply start_threads_spec in Est as (n & -> & Hn & Hret);
    cbn [ex_control ex_started ex_workers ex_stats] in *; try lia.
  rewrite Hst in Hn. cbn [ex_set_stats ex_threads ex_control ex_started ex_stats ex_state].
  assert (working (replicate (Z.to_nat n) W_awake) = []) as Ework by (by induction (Z.to_nat n)).
  assert (∀ m, zsum is_alive (replicate m W_awake) = Z.of_nat m) as Ealive by (induction m; simpl; lia).
  exists []. assert (ret = TR_OK ∨ ret = TR_ERR_SYS) as [-> | ->] by (destruct Hret as [[? _]|?]; auto); cbn [default id is_ok];
    (split; cbn [sy_ex sy_workers sy_owner sy_log ex_started ex_dispatching ex_control ex_set_stats ex_threads];
      [rewrite Ework; rewrite Ews in Hs; by eapply slots_ok_same; [..|exact Hs]
      |rewrite Ework; rewrite Ews in Hx; by eapply stats_ok_same; [..|exact Hx]
      |rewrite Ework; rewrite Ews in Hg; by eapply log_ok_same; [..|exact Hg]| |done]).
  - destruct Hret as [[_ Hret]|?]; [|done].
    assert (∀ w, w ∈ replicate (Z.to_nat n) W_awake → w = W_awake) as Hall by (intros w [? _]%elem_of_replicate; done).
    split; cbn; try done; try (by intros H%Hall).
    + unfold alen. rewrite length_replicate. lia.
    + rewrite Ealive. lia.
    + intros _ H. apply (f_equal length) in H. rewrite length_replicate in H. simpl in H. lia.
  - assert (∀ w, w ∈ replicate (Z.to_nat n) W_awake → w = W_awake) as Hall by (intros w [? _]%elem_of_replicate; done).
    split; cbn; try done; try (by intros H%Hall).
    + unfold alen. rewrite length_replicate. lia.
    + rewrite Ealive. lia.
    + by intros _ H%Hall.
Qed.

Lemma broadcast_facts ws : working (cond_broadcast ws) = working ws ∧ (W_asleep ∉ cond_broadcast ws) ∧
  zsum is_alive (cond_broadcast ws) = zsum is_alive ws ∧ alen (cond_broadcast ws) = alen ws ∧
  (∀ w, w ∈ cond_broadcast ws → w ∈ ws ∨ w = W_awake ∧ W_asleep ∈ ws).
Proof.
  unfold alen, cond_broadcast. rewrite length_map.
  induction ws as [|w ws (IH1 & IH2 & IH3 & _ & IH5)]; [split_and!; try done; [apply not_elem_of_nil|intros w H; by apply elem_of_nil in H]|].
  cbn [map]. split_and!; [| | |done|].
  - unfold working. destruct w; cbn [omap list_omap worker_index]; unfold working in IH1; cbn [omap] in IH1; by rewrite IH1.
  - rewrite not_elem_of_cons. split; [by destruct w|done].
  - simpl. rewrite IH3. by destruct w.
  - intros w' [->|Hw]%elem_of_cons.
    + destruct w; [left|right|left|left]; try (by left). split; [done|by left].
    + destruct (IH5 w' Hw) as [?|[-> ?]]; [left; by right|right; split; [done|by right]].
Qed.

Lemma stop_inv s fl pl cl mode : task_inv s fl pl cl → task_inv (task_exec (Act_stop mode) s) fl pl cl.
Proof.
  intros [Hs Hx Hg Hw Hown]. cbn [task_exec tr_task_executor_stop default id]. set (e := sy_ex s) in *.
  set (e1 := ex_control e _ _ _).
  destruct (broadcast_facts (sy_workers s)) as (B1 & B2 & B3 & B4 & B5).
  assert (slots_ok e1 fl pl (working (sy_workers s)) cl (delivering (sy_owner s))) as Hs1 by (by eapply slots_ok_same; [..|exact Hs]).
  assert (log_ok e1 pl (working (sy_workers s)) cl (sy_log s)) as Hg1 by (by eapply log_ok_same; [..|exact Hg]).
  assert (stats_ok (ex_stats e1) pl (working (sy_workers s)) cl (delivering (sy_owner s))) as Hx1 by (by eapply stats_ok_same; [..|exact Hx]).
  assert (ex_state e1 = if bool_decide (ex_state e = TR_EXECUTOR_JOINED) then TR_EXECUTOR_JOINED else TR_EXECUTOR_STOPPING) as Est by done.
  assert (executor_stopping (ex_state e1) = true) as Estop by (rewrite Est; by case_bool_decide).
  assert (workers_ok e1 pl (cond_broadcast (sy_workers s))) as Hw1.
  { destruct Hw as [Hst Ha Has Hstp Hex Hj Ho Hem Hn Hsd Hac]. split; rewrite ?B4; try done.
    - by rewrite B3.
    - intros [Hin|[? _]]%B5; [|done]. split; [by apply Hex|done].
    - intros E w Hin. assert (ex_state e = TR_EXECUTOR_JOINED) as Ej.
      { rewrite Est in E. by case_bool_decide. }
      destruct (B5 w Hin) as [H|[_ H]]; [by apply Hj|]. by apply (Hj Ej) in H.
    - intros E. by rewrite E in Estop.
    - intros E. apply Hem. by destruct (sy_workers s).
    - intros E. by rewrite E in Estop.
    - intros E. by rewrite E in Estop.
    - change (false = bool_decide (ex_state e1 = TR_EXECUTOR_OPEN)). rewrite Est. destruct (bool_decide (ex_state e = TR_EXECUTOR_JOINED)); by rewrite bool_decide_false. }
  destruct mode; cbn [sys_ex].
  - split; cbn [sy_ex sy_workers sy_owner sy_log]; rewrite ?B1; done.
  - destruct (flags_spec e1 fl pl (working (sy_workers s)) cl (delivering (sy_owner s)) (sy_log s)
      (map cancel_active (ex_slots e)) (active_handles e)) as [Hs2 Hg2]; try done.
    + unfold alen. by rewrite length_map.
    + intros j Hj. exists (task_active (tk_state (ex_slots e).[j]) || tk_cancel (ex_slots e).[j]).
      split.
      * unfold aget, in_range in *. unfold alen in Hj. change (ex_slots e1) with (ex_slots e) in *.
        rewrite (list_lookup_total_correct _ _ (cancel_active (ex_slots e !!! Z.to_nat j))).
        2: { rewrite list_lookup_fmap, list_lookup_lookup_total_lt by lia. done. }
        unfold cancel_active. destruct (task_active _); [done|]. by destruct (ex_slots e !!! Z.to_nat j).
      * change (ex_slots e1) with (ex_slots e) in *. intros Hact. rewrite Hact. cbn [orb]. split; [|done]. intros _.
        apply elem_of_app. right. unfold active_handles. change (slot_handle e1 j) with (slot_handle e j).
        apply list_elem_of_fmap_2, list_elem_of_filter. split; [done|]. apply elem_of_seqZ.
        destruct (so_cap _ _ _ _ _ _ Hs) as [<- _]. destruct Hj. lia.
    + intros h (j & -> & [Hact Hj]%list_elem_of_filter)%list_elem_of_fmap_1. exists j. split; [|done].
      apply elem_of_seqZ in Hj. destruct (so_cap _ _ _ _ _ _ Hs) as [<- _] in Hj. unfold in_range.
      change (ex_slots e1) with (ex_slots e). lia.
    + split; cbn [sy_ex sy_workers sy_owner sy_log]; rewrite ?B1; try done.
      by destruct Hw1.
Qed.

Definition task_act_ok (a : task_act) : Prop :=
  match a with Act_cancel h => 0 ≤ th_slot h | _ => True end.

Lemma submit_inv s fl pl cl spec who : task_inv s fl pl cl →
  ∃ fl' pl', task_inv (task_exec (Act_submit spec who) s) fl' pl' cl.
Proof.
  intros Hinv. pose proof Hinv as [Hs Hx Hg Hw Hown]. cbn [task_exec].
  destruct (tr_task_executor_submit _ _ _) as [[ret o] oh] eqn:E.
  destruct (submit_spec _ _ _ _ _ _ _ _ _ _ _ Hs Hx Hg E) as [(Hne & -> & ->)|(-> & i & fl' & e' & -> & -> & -> & Hopen & Hs' & Hx' & Hg' & Hf)].
  { exists fl, pl. by destruct ret. }
  exists fl', (pl ++ [i]). split; cbn [sy_ex sy_workers sy_owner sy_log].
  - eapply slots_perm; [symmetry; apply signal_working|done].
  - eapply stats_perm; [symmetry; apply signal_working|done].
  - eapply log_perm; [symmetry; apply signal_working|done].
  - eapply wo_frame; [apply (wo_submit _ _ _ who i Hw Hopen)|done|congruence].
  - by destruct (frame_fields _ _ Hf) as (_ & _ & _ & _ & _ & -> & _).
Qed.

Lemma task_cancel_inv s fl pl cl h : task_inv s fl pl cl → 0 ≤ th_slot h →
  task_inv (task_exec (Act_cancel h) s) fl pl cl.
Proof.
  intros Hinv H0. pose proof Hinv as [Hs Hx Hg Hw Hown]. cbn [task_exec]. unfold tr_task_executor_cancel.
  destruct (negb (_ =? _) || _ || _) eqn:E1; [done|]. bool_to_prop.
  destruct (so_cap _ _ _ _ _ _ Hs) as [Hcap _]. set (e := sy_ex s) in *.
  destruct (bool_decide _ || negb _) eqn:E2; [done|]. bool_to_prop.
  destruct (task_active _) eqn:Hact; cbn [negb]; [|done].
  assert (in_range (ex_slots e) (th_slot h)) as Hi by (unfold in_range; lia).
  assert (h = slot_handle e (th_slot h)) as Eh by (destruct h; unfold slot_handle; simpl in *; congruence).
  destruct (flags_spec e fl pl (working (sy_workers s)) cl (delivering (sy_owner s)) (sy_log s)
    (ex_slots e).[th_slot h <- slot_cancel (ex_slots e).[th_slot h] true] [h]) as [Hs2 Hg2]; try done.
  - apply alen_aset.
  - intros j Hj. exists ((th_slot h =? j) || tk_cancel (ex_slots e).[j]). split.
    + rewrite aget_aset by (try done; destruct Hj; lia). destruct (Z.eqb_spec (th_slot h) j) as [<-|]; [done|].
      by destruct (ex_slots e).[j].
    + intros Hactj. rewrite elem_of_app, list_elem_of_singleton. destruct (Z.eqb_spec (th_slot h) j) as [<-|Hne]; cbn [orb].
      * split; [|done]. intros _. by right.
      * rewrite (lo_flag _ _ _ _ _ Hg j Hj Hactj). split; [by left|]. intros [?|E]; [done|]. rewrite <- E in Hne. done.
  - intros h' ->%list_elem_of_singleton. by exists (th_slot h).
  - split; cbn [sy_ex sy_workers sy_owner sy_log]; try done. by destruct Hw.
Qed.

Lemma worker_inv s fl pl cl k status : task_inv s fl pl cl →
  ∃ fl' pl' cl', task_inv (task_exec (Act_worker k status) s) fl' pl' cl'.
Proof.
  intros Hinv. pose proof Hinv as [Hs Hx Hg Hw Hown]. cbn [task_exec].
  destruct (sy_workers s !! k) as [w|] eqn:Hk; [|by exists fl, pl, cl].
  pose proof (lookup_lt_Some _ _ _ Hk) as Hlt. pose proof (working_insert _ _ _ W_awake Hk) as Hwk.
  assert (w = W_awake ∨ w = W_asleep ∨ w = W_exited ∨ ∃ i, w = W_working i) as Hcase by (destruct w; eauto).
  assert (w = W_awake ∨ w = W_asleep → ∃ fl' pl' cl', task_inv (run_worker s k (sy_ex s) (sy_log s)) fl' pl' cl') as Hlook.
  { intros Hww. destruct (run_worker_inv (sy_ex s) (sy_workers s) (sy_owner s) (sy_log s) fl pl cl s k) as [pl' Hi]; [by left|done| |done|by exists fl, pl', cl].
    assert (working (<[k := W_awake]> (sy_workers s)) ≡ₚ working (sy_workers s)) as Ew by (destruct Hww as [-> | ->]; exact Hwk).
    split; cbn [sy_ex sy_workers sy_owner sy_log]; try done.
    - by eapply slots_perm; [symmetry; exact Ew|].
    - by eapply stats_perm; [symmetry; exact Ew|].
    - by eapply log_perm; [symmetry; exact Ew|].
    - eapply wo_wake; [done|done|]. by destruct Hww as [-> | ->]. }
  destruct Hcase as [->|[->|[->|[i ->]]]]; [by apply Hlook; left|by apply Hlook; right|by exists fl, pl, cl|].
  cbn [worker_index option_list app] in Hwk. set (e1 := worker_complete (sy_ex s) i status).
  set (n := if ex_notify e1 =? 0 then 0 else 1).
  destruct (complete_spec _ _ _ _ (working (<[k := W_awake]> (sy_workers s))) _ _ _ i status n Hs Hx Hg)
    as (Hs1 & Hx1 & Hg1 & Hf & Hres & Hh); [by symmetry|]. fold e1 in Hs1, Hx1, Hg1, Hf, Hres, Hh.
  assert (slot_outcome e1 i = (slot_handle (sy_ex s) i,
    mk_task_result status (bool_decide (slot_handle (sy_ex s) i ∈ lg_cancelled (sy_log s))))) as Eout.
  { destruct (proj1 (proj2 (so_roles _ _ _ _ _ _ Hs TR_TASK_RUNNING) i)) as [Hi Hst].
    { simpl. rewrite <- Hwk. by left. }
    unfold slot_outcome. rewrite Hres, Hh. do 2 f_equal.
    apply eq_true_iff_eq. rewrite bool_decide_eq_true. apply (lo_flag _ _ _ _ _ Hg i Hi). by rewrite Hst. }
  rewrite Eout in Hg1.
  destruct (run_worker_inv e1 (sy_workers s) (sy_owner s) (log_finish (sy_log s) (slot_handle (sy_ex s) i,
      mk_task_result status (bool_decide (slot_handle (sy_ex s) i ∈ lg_cancelled (sy_log s)))) n) fl pl (cl ++ [i]) s k) as [pl' Hi];
    [by left|done| |done|by exists fl, pl', (cl ++ [i])].
  split; cbn [sy_ex sy_workers sy_owner sy_log]; try done.
  - eapply wo_frame; [by eapply wo_wake|done|]. intros E. destruct (wo_new _ _ _ Hw E) as [En _]. by rewrite En in Hk.
  - by destruct (frame_fields _ _ Hf) as (_ & _ & _ & _ & _ & -> & _).
Qed.

(** Where the owner is after looking at [cl]. *)
Definition delivery_next (cl cl' : list Z) (count limit : Z) (o : task_owner) : Prop :=
  if decide (count < limit ∧ cl ≠ []) then ∃ i, cl = i :: cl' ∧ o = O_delivering i count limit
  else cl' = cl ∧ o = O_idle.

Lemma dispatch_step s fl pl cl self limit : task_inv s fl pl cl → self = ex_owner (sy_ex s) → limit ≠ 0 →
  ex_dispatching (sy_ex s) = false →
  let s' := task_exec (Act_dispatch self limit) s in
  ∃ cl', task_inv s' fl pl cl' ∧ delivery_kept s (sy_ex s) s' ∧ delivery_next cl cl' 0 limit (sy_owner s').
Proof.
  intros [Hs Hx Hg Hw Hown] -> Hl Ed. cbn [task_exec]. unfold tr_task_executor_dispatch.
  rewrite Z.eqb_refl, Ed. destruct (Z.eqb_spec limit 0); [done|]. cbn [negb orb].
  rewrite Ed in Hown. destruct (sy_owner s) eqn:Eo; [|done].
  destruct (run_dispatch_inv s (ex_control (sy_ex s) (ex_stats (sy_ex s)) (ex_state (sy_ex s)) true) fl pl cl 0 limit)
    as (cl' & H1 & H2 & H3); try done.
  - by eapply slots_ok_same; [..|exact Hs].
  - by eapply log_ok_same; [..|exact Hg].
  - by destruct Hw.
  - destruct (dispatch_next _ _ _). by exists cl'.
Qed.

Lemma dispatch_inv s fl pl cl self limit : task_inv s fl pl cl →
  ∃ cl', task_inv (task_exec (Act_dispatch self limit) s) fl pl cl'.
Proof.
  intros Hinv. destruct (decide (self = ex_owner (sy_ex s) ∧ limit ≠ 0 ∧ ex_dispatching (sy_ex s) = false))
    as [(H1 & H2 & H3)|Hno].
  - destruct (dispatch_step s fl pl cl self limit Hinv H1 H2 H3) as (cl' & H & _). by exists cl'.
  - exists cl. cbn [task_exec]. unfold tr_task_executor_dispatch.
    destruct (Z.eqb_spec limit 0); [done|]. cbn [negb orb]. destruct (Z.eqb_spec self (ex_owner (sy_ex s))); [|done].
    destruct (ex_dispatching (sy_ex s)); [done|]. by destruct Hno.
Qed.

Lemma done_step s fl pl cl i count limit : task_inv s fl pl cl → sy_owner s = O_delivering i count limit →
  let s' := task_exec Act_done s in
  ∃ cl', task_inv s' (i :: fl) pl cl' ∧ delivery_kept s (sy_ex s) s' ∧ delivery_next cl cl' (count + 1) limit (sy_owner s').
Proof.
  intros [Hs Hx Hg Hw Hown] Eo. cbn [task_exec]. rewrite Eo in *.
  destruct (done_spec _ _ _ _ _ _ _ Hs Hx Hg) as (Hs1 & Hx1 & Hg1 & Hf).
  destruct (frame_fields _ _ Hf) as (Eow & _ & _ & _ & Est & Ed & _).
  destruct (run_dispatch_inv s (dispatch_done (sy_ex s) i) (i :: fl) pl cl (count + 1) limit) as (cl' & H1 & H2 & H3); try done.
  - eapply wo_frame; [done|done|]. intros E. destruct (wo_new _ _ _ Hw E) as [_ H0].
    rewrite (st_outstanding _ _ _ _ _ Hx) in H0. rewrite (st_outstanding _ _ _ _ _ Hx1).
    pose proof (alen_nonneg pl). pose proof (alen_nonneg cl). pose proof (alen_nonneg (working (sy_workers s))).
    unfold alen at 4 in H0. unfold alen at 4. simpl in *. lia.
  - destruct (dispatch_next _ _ _). exists cl'. split; [exact H1|]. split; [|exact H3].
    destruct H2 as (K1 & K2 & K3 & K4). split; [exact K1|]. split; [exact K2|].
    split; [by rewrite <- Est|by rewrite <- Eow].
Qed.

Lemma done_inv s fl pl cl : task_inv s fl pl cl → ∃ fl' cl', task_inv (task_exec Act_done s) fl' pl cl'.
Proof.
  intros Hinv. destruct (sy_owner s) as [|i count limit] eqn:Eo.
  - exists fl, cl. cbn [task_exec]. by rewrite Eo.
  - destruct (done_step _ _ _ _ _ _ _ Hinv Eo) as (cl' & H & _). by exists (i :: fl), cl'.
Qed.

(** Callbacks return until nothing is left to deliver. *)
Lemma drain s fl pl cl i count limit : task_inv s fl pl cl → sy_owner s = O_delivering i count limit →
  count + 1 + alen cl < limit →
  ∃ n fl', let s' := task_execs (replicate n Act_done) s in
    task_inv s' fl' pl [] ∧ sy_owner s' = O_idle ∧ delivery_kept s (sy_ex s) s'.
Proof.
  revert s fl i count. induction cl as [|j cl IH]; intros s fl i count Hinv Eo Hlim;
    destruct (done_step _ _ _ _ _ _ _ Hinv Eo) as (cl' & Hinv' & (K1 & K2 & K3 & K4) & Hnext); unfold delivery_next in Hnext.
  - rewrite decide_False in Hnext by (by intros [_ ?]). destruct Hnext as [-> Eo']. exists 1%nat, (i :: fl). by split_and!.
  - rewrite alen_cons in Hlim. pose proof (alen_nonneg cl). rewrite decide_True in Hnext by (split; [lia|done]).
    destruct Hnext as (j' & [= <- <-] & Eo').
    destruct (IH _ _ _ _ Hinv' Eo') as (n & fl' & Hinv2 & Eo2 & (L1 & L2 & L3 & L4)); [lia|].
    exists (S n), fl'.
    change (task_execs (replicate (S n) Act_done) s) with (task_execs (replicate n Act_done) (task_exec Act_done s)).
    split; [done|]. split; [done|]. split_and!; congruence.
Qed.

(** A change of fields the slots and the log do not depend on. *)
Lemma control_inv s fl pl cl e' : task_inv s fl pl cl → ex_slots e' = ex_slots (sy_ex s) →
  ex_free_head e' = ex_free_head (sy_ex s) → ex_pending e' = ex_pending (sy_ex s) →
  ex_complete e' = ex_complete (sy_ex s) → ex_stats e' = ex_stats (sy_ex s) → ex_instance e' = ex_instance (sy_ex s) →
  ex_dispatching e' = ex_dispatching (sy_ex s) → workers_ok e' pl (sy_workers s) →
  task_inv (mk_task_sys e' (sy_workers s) (sy_owner s) (sy_log s)) fl pl cl.
Proof.
  intros [Hs Hx Hg Hw Hown] E1 E2 E3 E4 E5 E6 E7 Hw'. split; cbn [sy_ex sy_workers sy_owner sy_log]; try congruence.
  - apply (slots_ok_same (sy_ex s)); congruence.
  - by apply (log_ok_same (sy_ex s)).
Qed.

Lemma join_inv s fl pl cl self answers : task_inv s fl pl cl → task_inv (task_exec (Act_join self answers) s) fl pl cl.
Proof.
  intros Hinv. pose proof (ti_workers _ _ _ _ Hinv) as Hw. cbn [task_exec]. unfold tr_task_executor_join, sys_ex.
  destruct (self =? _); cbn [negb snd default id]; [|by destruct s].
  destruct (ex_dispatching (sy_ex s) || _) eqn:E1; cbn [snd default id]; [by destruct s|].
  destruct (Z.eqb_spec (xs_workers_alive (ex_stats (sy_ex s))) 0) as [E0|]; cbn [negb snd default id]; [|by destruct s].
  destruct (join_threads _ _ _) as [ret e1] eqn:Ej. apply join_threads_spec in Ej as [n ->].
  destruct (is_ok ret); cbn [negb snd default id]; apply control_inv; try done; [|by destruct Hw].
  rewrite (wo_alive _ _ _ Hw) in E0. pose proof (alive_zero _ E0) as Hall.
  apply orb_false_iff in E1 as [_ E1]. apply negb_false_iff in E1.
  assert (ex_state (sy_ex s) ≠ TR_EXECUTOR_OPEN) as Hno by (intros E; by rewrite E in E1).
  destruct Hw as [Hst Ha Has Hstp Hex Hj Ho Hem Hn Hsd Hac]. split; try done.
  - intros _ Hin. by apply Hall in Hin.
  - intros Hin. split; [by apply Hex|done].
  - change (xs_accepting (ex_stats (sy_ex s)) = bool_decide (TR_EXECUTOR_JOINED = TR_EXECUTOR_OPEN)).
    rewrite Hac, !bool_decide_false; done.
Qed.

Lemma task_step_inv s fl pl cl a : task_inv s fl pl cl → task_act_ok a →
  ∃ fl' pl' cl', task_inv (task_exec a s) fl' pl' cl'.
Proof.
  intros Hinv Ha. pose proof (ti_workers _ _ _ _ Hinv) as Hw. destruct a.
  - destruct (start_inv s fl pl cl self answers Hinv) as [pl' ?]. by exists fl, pl', cl.
  - destruct (submit_inv s fl pl cl spec who Hinv) as (fl' & pl' & ?). by exists fl', pl', cl.
  - exists fl, pl, cl. by apply task_cancel_inv.
  - exists fl, pl, cl. by apply stop_inv.
  - by eapply worker_inv.
  - destruct (dispatch_inv s fl pl cl self limit Hinv) as [cl' ?]. by exists fl, pl, cl'.
  - destruct (done_inv s fl pl cl Hinv) as (fl' & cl' & ?). by exists fl', pl, cl'.
  - exists fl, pl, cl. by apply join_inv.
  - exists fl, pl, cl. cbn [task_exec]. unfold tr_task_executor_adopt_cleanup, sys_ex.
    destruct (tr_execution_in_worker_context worker); cbn [snd default id]; [by destruct s|].
    destruct (negb _ || _); cbn [snd default id]; [by destruct s|]. apply control_inv; try done. by destruct Hw.
  - exists fl, pl, cl. cbn [task_exec]. unfold tr_task_executor_set_notify, sys_ex.
    destruct (_ && negb _); cbn [snd default id]; [by destruct s|].
    destruct (self =? _); cbn [negb snd default id]; [|by destruct s].
    destruct (ex_dispatching (sy_ex s) || _); cbn [snd default id]; [by destruct s|]. apply control_inv; try done. by destruct Hw.
Qed.

(** ** Creation and reachable states *)

Definition task_config_ok (c : option tr_task_executor_config) : Prop :=
  match c with Some c => u64_ok (tc_workers c) ∧ u64_ok (tc_capacity c) | None => True end.

Section Create.
Context {B : Type} `{!Budget B}.

Lemma create_inv config limit (budget : B) out self counter a1 a2 a3 a4 a5 e counter' budget' :
  b_ok budget → task_config_ok config →
  tr_task_executor_create config limit budget out self counter a1 a2 a3 a4 a5 = (TR_OK, Some e, counter', budget') →
  (∃ fl, task_inv (task_init e) fl [] []) ∧ b_ok budget' ∧ b_used budget' = b_used budget + ex_bytes e ∧ 0 ≤ ex_bytes e.
Proof.
  intros Hb Hc H. unfold tr_task_executor_create in H. destruct config as [[w cap]|]; [|done]. destruct out as [out|]; [|done].
  simpl in Hc. destruct Hc as [Hw64 Hc64]. cbn [tc_workers tc_capacity] in H.
  destruct (_ || _ || _ || _ || _) eqn:E1 in H; [done|]. bool_to_prop.
  destruct out; [done|]. destruct (_ >? _) eqn:E2 in H; [done|]. cbn zeta in H.
  destruct (_ >? _) eqn:E3 in H; [done|]. destruct (tr_task_instance_next counter) as [[[] c2] [inst|]]; try done.
  unfold TR_TASK_END, sizeof_executor, sizeof_task_slot, sizeof_pthread in *.
  set (bytes := 272 + cap * 56 + w * 8) in *.
  assert (0 ≤ bytes ∧ u64_ok bytes) as [Hb0 Hb64] by (unfold bytes; split; [word_lia|word_lia]).
  destruct (b_reserve budget bytes) as [rb b1] eqn:Eres. apply b_reserve_spec in Eres as [Hb1 Hres]; [|done|done].
  destruct (is_ok rb) eqn:Erb; cbn [negb] in H; [|by injection H as ->].
  apply is_ok_true in Erb as ->. destruct Hres as [[_ Hu]|[[?|?] _]]; [|done|done].
  destruct a1, a2, a3, a4, a5; try done. cbn [negb orb] in H. injection H as <- <- <-.
  split; [|done]. set (slots := map _ _). set (fl := map Z.of_nat (seq 0 (Z.to_nat cap))).
  assert (alen slots = cap) as Elen by (unfold alen, slots; rewrite length_map, length_seqZ; word_lia).
  assert (∀ i, 0 ≤ i < cap → slots.[i] = slot_next zero_task_slot (if i + 1 <? cap then i + 1 else UINT32_MAX)) as Esl.
  { intros i Hi. unfold aget, slots. erewrite list_lookup_total_correct; [done|].
    rewrite list_lookup_fmap, lookup_seqZ_lt by lia. simpl. by rewrite Z2Nat.id by lia. }
  assert (∀ i, in_range slots i → tk_state slots.[i] = TR_TASK_FREE ∧ tk_generation slots.[i] = 0) as Efree.
  { intros i Hi. unfold in_range in Hi. rewrite Elen in Hi. by rewrite Esl. }
  assert (∀ st, st ≠ TR_TASK_FREE → role slots st []) as Hnone.
  { intros st Hne. split; [constructor|]. intros i. split; [by intros ?%elem_of_nil|]. intros [Hi E].
    destruct (Efree i Hi) as [E' _]. congruence. }
  exists fl. split; cbn [task_init sy_ex sy_workers sy_owner sy_log ex_stats ex_dispatching]; [| | | |done].
  - split; cbn [ex_slots ex_stats ex_free_head ex_pending ex_complete xs_capacity]; try done.
    + rewrite Elen. split; [done|]. unfold TR_TASK_END. lia.
    + apply (chain_seq (next_of slots) cap 0); [|word_lia|word_lia]. intros i Hi. unfold next_of. by rewrite Esl.
    + intros st. destruct st; try by apply Hnone. split.
      * apply (NoDup_fmap_2 Z.of_nat), NoDup_seq.
      * intros i. unfold lists, fl. rewrite list_elem_of_fmap. unfold in_range. rewrite Elen. split.
        -- intros (n & -> & Hn%elem_of_seq). split; [lia|]. apply Efree. unfold in_range. rewrite Elen. lia.
        -- intros [Hi _]. exists (Z.to_nat i). split; [lia|]. apply elem_of_seq. lia.
    + intros i Hi. destruct (Efree i Hi) as [_ ->]. done.
  - by split.
  - split; cbn [task_log_empty lg_accepted lg_started lg_finished lg_delivered lg_cancelled map app]; try done.
    + constructor.
    + intros h H. by apply elem_of_nil in H.
    + intros i Hi E. by destruct (Efree i Hi) as [? _].
    + intros d H. by apply elem_of_nil in H.
    + intros i Hi E. destruct (Efree i Hi) as [E' _]. cbn [ex_slots] in E. by rewrite E' in E.
    + intros h r H. by apply elem_of_nil in H.
  - split; cbn; try done; try (by intros H%elem_of_nil); unfold alen; simpl; word_lia.
Qed.

Lemma task_execs_inv s fl pl cl acts : task_inv s fl pl cl → Forall task_act_ok acts →
  ∃ fl' pl' cl', task_inv (task_execs acts s) fl' pl' cl'.
Proof.
  intros Hinv Ha. revert s fl pl cl Hinv. induction Ha as [|a acts Ha _ IH]; intros s fl pl cl Hinv; [by exists fl, pl, cl|].
  destruct (task_step_inv _ _ _ _ _ Hinv Ha) as (fl' & pl' & cl' & Hinv'). by eapply IH.
Qed.

End Create.

(** What is charged never changes. *)
Lemma look_bytes e : ex_bytes (worker_look e).1 = ex_bytes e.
Proof. unfold worker_look. by repeat case_match; simplify_eq/=. Qed.
Lemma complete_bytes e i status : ex_bytes (worker_complete e i status) = ex_bytes e.
Proof. unfold worker_complete. by repeat case_match; simplify_eq/=. Qed.
Lemma dispatch_bytes e count limit : ex_bytes (dispatch_next e count limit).1 = ex_bytes e.
Proof. unfold dispatch_next. by repeat case_match; simplify_eq/=. Qed.
Lemma start_bytes fuel answers e : ex_bytes (start_threads fuel answers e).2 = ex_bytes e.
Proof.
  revert answers e. induction fuel as [|fuel IH]; intros answers e; simpl; [done|].
  destruct (_ <? _); [|done]. destruct answers as [|[] answers]; simpl; [by rewrite IH..|done].
Qed.

Lemma exec_bytes a s : ex_bytes (sy_ex (task_exec a s)) = ex_bytes (sy_ex s).
Proof.
  assert (∀ k e g, ex_bytes (sy_ex (run_worker s k e g)) = ex_bytes e) as Hrun.
  { intros k e g. unfold run_worker. rewrite <- (look_bytes e). by destruct (worker_look e). }
  assert (∀ limit count e next, sy_ex (run_dispatch s limit count e next) = e) as Hdisp by (by intros ? ? ? []).
  destruct a; cbn [task_exec].
  - unfold tr_task_executor_start. destruct (negb _); [done|]. destruct (negb _); [done|].
    pose proof (start_bytes (Z.to_nat (ex_workers (sy_ex s))) answers
      (ex_control (sy_ex s) (ex_stats (sy_ex s)) TR_EXECUTOR_STARTING (ex_dispatching (sy_ex s)))) as E.
    cbn [ex_control ex_workers] in *. destruct (start_threads _ _ _) as [ret e1]. cbn in E.
    by destruct ret.
  - unfold tr_task_executor_submit. repeat case_match; simplify_eq/=; done.
  - unfold tr_task_executor_cancel. repeat case_match; simplify_eq/=; done.
  - by destruct mode.
  - destruct (_ !! _) as [[]|]; rewrite ?Hrun, ?complete_bytes; done.
  - unfold tr_task_executor_dispatch. destruct (_ || _); [done|]. destruct (negb _); [done|].
    destruct (ex_dispatching _); [done|].
    pose proof (dispatch_bytes (ex_control (sy_ex s) (ex_stats (sy_ex s)) (ex_state (sy_ex s)) true) 0 limit) as E.
    destruct (dispatch_next _ _ _). by rewrite Hdisp.
  - destruct (sy_owner s) as [|i count limit]; [done|].
    pose proof (dispatch_bytes (dispatch_done (sy_ex s) i) (count + 1) limit) as E.
    destruct (dispatch_next _ _ _). by rewrite Hdisp.
  - unfold tr_task_executor_join, sys_ex. destruct (negb _); [done|]. destruct (_ || _); [done|]. destruct (negb _); [done|].
    destruct (join_threads _ _ _) as [ret e1] eqn:Ej. apply join_threads_spec in Ej as [n ->]. by destruct (is_ok ret).
  - unfold tr_task_executor_adopt_cleanup, sys_ex. by repeat case_match.
  - unfold tr_task_executor_set_notify, sys_ex. by repeat case_match.
Qed.

Lemma execs_bytes acts s : ex_bytes (sy_ex (task_execs acts s)) = ex_bytes (sy_ex s).
Proof.
  revert s. induction acts as [|a acts IH]; intros s; [done|]. unfold task_execs in *. simpl. by rewrite IH, exec_bytes.
Qed.

(** What a stopping executor has left to do. *)
Definition stop_measure (e : tr_task_executor) : Z := xs_queued (ex_stats e) + xs_workers_alive (ex_stats e).

Lemma look_measure e fl pl rl cl dl : slots_ok e fl pl rl cl dl → stats_ok (ex_stats e) pl rl cl dl →
  1 ≤ xs_workers_alive (ex_stats e) < 2 ^ 64 → ex_state e = TR_EXECUTOR_STOPPING →
  stop_measure (worker_look e).1 = stop_measure e - 1.
Proof.
  intros Hs Hx Ha Hst. destruct (count_small _ _ _ _ _ _ Hs) as [Hp _]. unfold worker_look, stop_measure.
  rewrite bool_decide_true by done. destruct (Z.eqb_spec (ex_pending e).1 TR_TASK_END) as [E|E].
  - cbn. rewrite u64_small by (unfold_words; lia). lia.
  - destruct pl as [|i pl]; [by destruct (so_pending _ _ _ _ _ _ Hs) as [Hc _]|].
    destruct (tr_task_dequeue _ _) as [j q]. cbn. rewrite (st_queued _ _ _ _ _ Hx), alen_cons in *.
    pose proof (alen_nonneg pl). rewrite u64_small by word_lia. lia.
Qed.

Lemma worker_measure s fl pl cl k w status : task_inv s fl pl cl → executor_stopping (ex_state (sy_ex s)) = true →
  sy_workers s !! k = Some w → w ≠ W_exited →
  stop_measure (sy_ex (task_exec (Act_worker k status) s)) = stop_measure (sy_ex s) - 1.
Proof.
  intros [Hs Hx Hg Hw Hown] Hstop Hk Hne. pose proof (list_elem_of_lookup_2 _ _ _ Hk) as Hin.
  assert (ex_state (sy_ex s) = TR_EXECUTOR_STOPPING) as Hst.
  { destruct (ex_state (sy_ex s)) eqn:E; try done. by destruct Hne; apply (wo_joined _ _ _ Hw E). }
  assert (1 ≤ xs_workers_alive (ex_stats (sy_ex s)) < 2 ^ 64) as Ha.
  { rewrite (wo_alive _ _ _ Hw). pose proof (alive_nonneg (<[k := W_exited]> (sy_workers s))) as H.
    rewrite (zsum_insert is_alive _ _ _ _ Hk) in H. destruct (wo_started _ _ _ Hw) as (_ & ? & ?).
    pose proof (alive_nonneg (sy_workers s)). destruct w; cbn [is_alive] in H; try done; lia. }
  assert (∀ e g, sy_ex (run_worker s k e g) = (worker_look e).1) as Hrun
    by (intros e g; unfold run_worker; by destruct (worker_look e)).
  cbn [task_exec]. rewrite Hk. destruct w as [| |i|]; try done; cbn zeta; rewrite Hrun.
  - by eapply look_measure.
  - by eapply look_measure.
  - pose proof (working_insert _ _ _ W_awake Hk) as Hwk. cbn [worker_index option_list app] in Hwk.
    destruct (complete_spec _ _ _ _ (working (<[k := W_awake]> (sy_workers s))) _ _ _ i status 0 Hs Hx Hg)
      as (Hs1 & Hx1 & _ & Hf & _); [by symmetry|].
    destruct (frame_fields _ _ Hf) as (_ & _ & _ & _ & Est & _ & _ & Eal & _).
    rewrite (look_measure _ _ _ _ _ _ Hs1 Hx1) by congruence. unfold stop_measure. rewrite Eal.
    by rewrite (st_queued _ _ _ _ _ Hx1), (st_queued _ _ _ _ _ Hx).
Qed.

Lemma awake_pos ws : 0 < zsum is_awake ws → W_awake ∈ ws.
Proof.
  induction ws as [|w ws IH]; simpl; [lia|]. intros H. destruct w; simpl in H; [by left|right; apply IH; lia..].
Qed.

Lemma queued_served s fl pl cl : task_inv s fl pl cl → xs_queued (ex_stats (sy_ex s)) ≠ 0 →
  ∃ w, w ∈ sy_workers s ∧ (w = W_awake ∨ ∃ i, w = W_working i).
Proof.
  intros [Hs Hx Hg Hw Hown] Hq. rewrite (st_queued _ _ _ _ _ Hx) in Hq.
  assert (pl ≠ []) as Hne by (by intros ->).
  destruct (decide (W_asleep ∈ sy_workers s)) as [Has|Has].
  - exists W_awake. split; [|by left]. apply awake_pos. pose proof (wo_asleep _ _ _ Hw Has). pose proof (alen_nonneg pl). lia.
  - destruct (sy_workers s) as [|w ws] eqn:E; [by destruct (Hne (wo_empty _ _ _ Hw eq_refl))|]. exists w. split; [by left|].
    destruct w; [by left| |right; by eexists|]; [destruct Has; by left|].
    destruct (wo_exited _ _ _ Hw) as [? _]; [by left|done].
Qed.

(** Joining: every worker has left, and so has every task. *)
Lemma join_ok_spec s fl pl cl self answers e' : task_inv s fl pl cl →
  tr_task_executor_join (Some (sy_ex s)) self answers = (TR_OK, Some e') →
  pl = [] ∧ working (sy_workers s) = [] ∧ self = ex_owner e' ∧ ex_dispatching e' = false ∧
  ex_state e' = TR_EXECUTOR_JOINED ∧ sy_ex (task_exec (Act_join self answers) s) = e' ∧ ex_stats e' = ex_stats (sy_ex s).
Proof.
  intros [Hs Hx Hg Hw Hown] H. cbn [task_exec sys_ex sy_ex]. rewrite H. unfold tr_task_executor_join in H.
  destruct (Z.eqb_spec self (ex_owner (sy_ex s))) as [->|]; cbn [negb] in H; [|done].
  destruct (ex_dispatching (sy_ex s) || _) eqn:E1; [done|]. apply orb_false_iff in E1 as [Ed _].
  destruct (Z.eqb_spec (xs_workers_alive (ex_stats (sy_ex s))) 0) as [E0|]; cbn [negb] in H; [|done].
  rewrite (wo_alive _ _ _ Hw) in E0. pose proof (alive_zero _ E0) as Hall.
  destruct (join_threads _ _ _) as [ret e1] eqn:Ej. apply join_threads_spec in Ej as [n ->].
  destruct (is_ok ret) eqn:Er; cbn [negb] in H; [|injection H as ->; by rewrite is_ok_false in Er].
  injection H as <-. split_and!; try done.
  - destruct (sy_workers s) as [|w ws] eqn:E; [by apply (wo_empty _ _ _ Hw)|].
    apply (wo_exited _ _ _ Hw). rewrite (Hall w) by (by left). by left.
  - clear -Hall. induction (sy_workers s) as [|w ws IH]; [done|]. simpl. rewrite (Hall w) by (by left). simpl.
    apply IH. intros w' ?. apply Hall. by right.
Qed.

(** Once joined, dispatching delivers the rest. *)
Lemma join_drains s fl pl cl self answers e' many : task_inv s fl pl cl →
  tr_task_executor_join (Some (sy_ex s)) self answers = (TR_OK, Some e') → xs_completed (ex_stats (sy_ex s)) < many →
  ∃ n fl', let s' := task_execs ([Act_join self answers; Act_dispatch self many] ++ replicate n Act_done) s in
    task_inv s' fl' [] [] ∧ sy_owner s' = O_idle ∧ working (sy_workers s') = [] ∧
    lg_accepted (sy_log s') = lg_accepted (sy_log s) ∧
    ex_state (sy_ex s') = TR_EXECUTOR_JOINED ∧ ex_owner (sy_ex s') = self.
Proof.
  intros Hinv Hj Hmany. destruct (join_ok_spec _ _ _ _ _ _ _ Hinv Hj) as (-> & Hwk & -> & Ed & Est & Ej & Ex).
  pose proof (join_inv _ _ _ _ (ex_owner e') answers Hinv) as Hinv1. set (s1 := task_exec (Act_join _ _) s) in *.
  assert (sy_workers s1 = sy_workers s ∧ sy_log s1 = sy_log s) as [Ew1 El1] by done.
  pose proof (st_completed _ _ _ _ _ (ti_stats _ _ _ _ Hinv)) as Hc. pose proof (alen_nonneg cl).
  destruct (dispatch_step s1 fl [] cl (ex_owner e') many Hinv1) as (cl' & Hinv2 & (K1 & K2 & K3 & K4) & Hnext);
    [by rewrite Ej|lia|by rewrite Ej|]. set (s2 := task_exec (Act_dispatch _ _) s1) in *.
  rewrite Ej in K3, K4. unfold delivery_next in Hnext. destruct (decide _) as [[Hlt Hne]|Hno].
  - destruct Hnext as (i & -> & Eo). rewrite alen_cons in Hc.
    destruct (drain _ _ _ _ _ _ _ Hinv2 Eo) as (n & fl' & Hinv3 & Eo3 & (L1 & L2 & L3 & L4)); [lia|].
    exists n, fl'. change (task_execs ([Act_join (ex_owner e') answers; Act_dispatch (ex_owner e') many] ++ replicate n Act_done) s)
      with (task_execs (replicate n Act_done) s2). split_and!; try done; congruence.
  - destruct Hnext as [-> Eo]. assert (cl = []) as ->.
    { destruct cl as [|i cl]; [done|]. rewrite alen_cons in Hc. pose proof (alen_nonneg cl). destruct Hno. split; [lia|done]. }
    exists 0%nat, fl. change (task_execs ([Act_join (ex_owner e') answers; Act_dispatch (ex_owner e') many] ++ replicate 0 Act_done) s)
      with s2. split_and!; try done; congruence.
Qed.

(** * Theorems *)

Section Theorems.
Context {B : Type} `{!Budget B}.

Lemma executor_destroy_ok e (b b2 : B) : ex_dispatching e = false → ex_state e = TR_EXECUTOR_JOINED →
  xs_outstanding (ex_stats e) = 0 → b_release b (ex_bytes e) = (TR_OK, b2) →
  tr_task_executor_destroy true (Some e) (ex_owner e) true true b = (TR_OK, None, b2).
Proof.
  intros E1 E2 E3 E4. unfold tr_task_executor_destroy. rewrite Z.eqb_refl, E1, E2, E3. cbn [negb].
  destruct (ex_retiring e), (ex_condition_destroyed e) eqn:Ec; cbn; rewrite ?Ec; cbn; by rewrite E4.
Qed.

(** C12: However submissions, cancellations, workers, deliveries and stops interleave, the works
    of accepted tasks start in the order of acceptance, each at most once; callbacks are
    called in the order the works return, with the status the work returned and [cancelled]
    exactly when a cancellation of that task was accepted; nothing else is ever started or
    delivered; and the statistics count the tasks at each stage. *)
Theorem task_exactly_once config limit (budget budget' : B) out self counter counter' a1 a2 a3 a4 a5 e acts
    (Hb : b_ok budget) (Hc : task_config_ok config)
    (Hcreate : tr_task_executor_create config limit budget out self counter a1 a2 a3 a4 a5 = (TR_OK, Some e, counter', budget'))
    (Hacts : Forall task_act_ok acts) :
  let s := task_execs acts (task_init e) in
  let g := sy_log s in
  let x := ex_stats (sy_ex s) in
  ∃ queued waiting,
    lg_accepted g = lg_started g ++ queued ∧
    map fst (lg_started g) ≡ₚ map fst (lg_finished g) ++ map (slot_handle (sy_ex s)) (working (sy_workers s)) ∧
    lg_finished g = map (λ d, (d.1.1, d.2)) (lg_delivered g) ++ waiting ∧
    NoDup (map fst (lg_accepted g)) ∧
    (∀ d, d ∈ lg_delivered g → d.1 ∈ lg_accepted g) ∧
    (∀ h r, (h, r) ∈ lg_finished g → tr_cancelled r = true ↔ h ∈ lg_cancelled g) ∧
    xs_queued x = alen queued ∧ xs_running x = alen (working (sy_workers s)) ∧ xs_completed x = alen waiting ∧
    xs_outstanding x = xs_queued x + xs_running x + xs_completed x + xs_delivering x.
Proof.
  intros s g x. destruct (create_inv _ _ _ _ _ _ _ _ _ _ _ _ _ _ Hb Hc Hcreate) as ([fl Hinv] & _).
  destruct (task_execs_inv _ _ _ _ _ Hinv Hacts) as (fl' & pl & cl & [Hs Hx Hg Hw Hown]).
  exists (map (slot_task (sy_ex s)) pl), (map (slot_outcome (sy_ex s)) cl). destruct Hg, Hx.
  unfold alen in *. rewrite !length_map. subst x g s. split_and!; try done. lia.
Qed.

(** C13: No pending task is left to sleeping workers.  Once the executor stops no worker sleeps,
    and every time one that has not left runs, less is left to do; when all have left and
    [pthread_join] succeeds, dispatching delivers every task that was ever accepted, and
    destroying succeeds and gives back what the creation charged. *)
Theorem task_executor_drains config limit (budget budget' : B) out self counter counter' a1 a2 a3 a4 a5 e acts
    (Hb : b_ok budget) (Hc : task_config_ok config)
    (Hcreate : tr_task_executor_create config limit budget out self counter a1 a2 a3 a4 a5 = (TR_OK, Some e, counter', budget'))
    (Hacts : Forall task_act_ok acts) :
  let s := task_execs acts (task_init e) in
  (xs_queued (ex_stats (sy_ex s)) ≠ 0 → ∃ w, w ∈ sy_workers s ∧ (w = W_awake ∨ ∃ i, w = W_working i)) ∧
  (executor_stopping (ex_state (sy_ex s)) = true → (W_asleep ∉ sy_workers s) ∧ 0 ≤ stop_measure (sy_ex s) ∧
     ∀ k w status, sy_workers s !! k = Some w → w ≠ W_exited →
       stop_measure (sy_ex (task_exec (Act_worker k status) s)) = stop_measure (sy_ex s) - 1) ∧
  (∀ owner answers e', tr_task_executor_join (Some (sy_ex s)) owner answers = (TR_OK, Some e') →
     ∀ many, xs_completed (ex_stats (sy_ex s)) < many → ∃ n,
     let s' := task_execs ([Act_join owner answers; Act_dispatch owner many] ++ replicate n Act_done) s in
     map (λ d, d.1.1) (lg_delivered (sy_log s')) ≡ₚ map fst (lg_accepted (sy_log s)) ∧
     ∃ budget2, tr_task_executor_destroy true (Some (sy_ex s')) owner true true budget' = (TR_OK, None, budget2) ∧
       b_used budget2 = b_used budget).
Proof.
  intros s. destruct (create_inv _ _ _ _ _ _ _ _ _ _ _ _ _ _ Hb Hc Hcreate) as ([fl Hinv] & Hb' & Hu & Hbytes).
  destruct (task_execs_inv _ _ _ _ _ Hinv Hacts) as (fl' & pl & cl & Hinv').
  fold s in Hinv'.
  split_and!.
  - by eapply queued_served.
  - intros Hstop. pose proof Hinv' as [Hs Hx _ Hw _]. split_and!; [by apply (wo_stopping _ _ _ Hw)| |].
    + unfold stop_measure. rewrite (st_queued _ _ _ _ _ Hx), (wo_alive _ _ _ Hw).
      pose proof (alen_nonneg pl). pose proof (alive_nonneg (sy_workers s)). lia.
    + intros k w status Hk Hne. by eapply worker_measure.
  - intros owner answers e' Hj many Hmany.
    destruct (join_drains _ _ _ _ _ _ _ many Hinv' Hj Hmany) as (n & fl2 & Hinv2 & Eo & Ewk & Eacc & Est & Eow).
    exists n. set (s' := task_execs _ s) in *. pose proof Hinv2 as [Hs2 Hx2 Hg2 Hw2 Hown2].
    rewrite Ewk in Hg2, Hx2. rewrite Eo in Hx2, Hown2. split.
    + rewrite <- Eacc, (lo_accepted _ _ _ _ _ Hg2), app_nil_r, (lo_started _ _ _ _ _ Hg2), app_nil_r.
      rewrite (lo_finished _ _ _ _ _ Hg2), app_nil_r, map_map. done.
    + assert (ex_bytes (sy_ex s') = ex_bytes e) as Ebytes by (unfold s', s; by rewrite !execs_bytes).
      destruct (b_release_spec budget' (ex_bytes e) Hb') as (b2 & Hrel & _ & Hu2); [rewrite Hu; pose proof (b_used_nonneg _ Hb); lia|].
      exists b2. split; [|lia]. rewrite <- Eow. apply executor_destroy_ok; try done; [|by rewrite Ebytes].
      by rewrite (st_outstanding _ _ _ _ _ Hx2).
Qed.

End Theorems.

(** * A run: two workers, three tasks, one cancelled while it is worked on *)

Definition demo_task_budget : budget_ref := mk_budget_ref (tr_memory_budget_init 4096) None.

Definition demo_task_created : tr_status * option tr_task_executor * Z * budget_ref :=
  tr_task_executor_create (Some (mk_task_config 2 3)) 5000 demo_task_budget (Some false) 7 0 true true true true true.

Definition demo_executor : tr_task_executor :=
  match demo_task_created with
  | (_, Some e, _, _) => e
  | _ => mk_executor 0 [] 0 0 0 0 0 0 (0, 0) (0, 0) (mk_task_stats 0 0 0 0 0 0 0 false) TR_EXECUTOR_NEW false false false 0 0
  end.

Definition demo_spec (n : Z) : tr_task_spec := mk_task_spec 100 200 n.

Definition demo_task_acts : list task_act :=
  [Act_set_notify 7 300 0; Act_start 7 []; Act_worker 0 0; Act_worker 1 0; Act_submit (demo_spec 1) 1;
   Act_worker 1 0; Act_submit (demo_spec 2) 1; Act_worker 0 0; Act_submit (demo_spec 3) 0;
   Act_submit (demo_spec 4) 0; Act_cancel (mk_task_handle 1 1 0); Act_worker 0 5; Act_dispatch 7 1; Act_done;
   Act_stop TR_TASK_DRAIN; Act_worker 0 6; Act_worker 1 9].

#[local] Abbreviation demo_tasks := (task_execs demo_task_acts (task_init demo_executor)).

Lemma demo_task_budget_ok : b_ok demo_task_budget.
Proof. repeat split; simpl; unfold u64_ok; lia. Qed.

Lemma demo_task_config_ok : task_config_ok (Some (mk_task_config 2 3)).
Proof. split; split; vm_compute; congruence. Qed.

Lemma demo_task_acts_ok : Forall task_act_ok demo_task_acts.
Proof. repeat (apply Forall_cons; split); try apply Forall_nil_2; try exact I. vm_compute. congruence. Qed.

Lemma demo_task_created_ok : demo_task_created = (TR_OK, Some demo_executor, demo_task_created.1.2, demo_task_created.2).
Proof. vm_compute. reflexivity. Qed.

(** The cancelled task's work has returned 9 and waits to be delivered as cancelled. *)
Lemma task_exactly_once_witness :
  ∃ waiting, lg_finished (sy_log demo_tasks) =
      map (λ d, (d.1.1, d.2)) (lg_delivered (sy_log demo_tasks)) ++ waiting ∧ alen waiting = 2 ∧
    (mk_task_handle 1 1 0, mk_task_result 9 true) ∈ waiting.
Proof.
  destruct (task_exactly_once (Some (mk_task_config 2 3)) 5000 demo_task_budget demo_task_created.2 (Some false) 7 0
    demo_task_created.1.2 true true true true true demo_executor demo_task_acts
    demo_task_budget_ok demo_task_config_ok demo_task_created_ok demo_task_acts_ok)
    as (queued & waiting & _ & _ & H & _).
  exists waiting. split; [exact H|].
  assert (waiting = drop 1 (lg_finished (sy_log demo_tasks))) as ->.
  { rewrite H. vm_compute (lg_delivered _). reflexivity. }
  split; [vm_compute; reflexivity|]. clear. vm_compute. repeat constructor.
Defined.

Lemma task_executor_drains_witness :
  ∃ n, let s' := task_execs ([Act_join 7 []; Act_dispatch 7 10] ++ replicate n Act_done) demo_tasks in
    map (λ d, d.1.1) (lg_delivered (sy_log s')) ≡ₚ [mk_task_handle 1 1 0; mk_task_handle 1 1 1; mk_task_handle 1 1 2] ∧
    ∃ budget2, tr_task_executor_destroy true (Some (sy_ex s')) 7 true true demo_task_created.2 = (TR_OK, None, budget2) ∧
      b_used budget2 = 0.
Proof.
  destruct (task_executor_drains (Some (mk_task_config 2 3)) 5000 demo_task_budget demo_task_created.2 (Some false) 7 0
    demo_task_created.1.2 true true true true true demo_executor demo_task_acts
    demo_task_budget_ok demo_task_config_ok demo_task_created_ok demo_task_acts_ok) as (_ & _ & H).
  assert (∃ e', tr_task_executor_join (Some (sy_ex demo_tasks)) 7 [] = (TR_OK, Some e')) as [e' Hj]
    by (eexists; vm_compute; reflexivity).
  assert (xs_completed (ex_stats (sy_ex demo_tasks)) < 10) as Hc by (vm_compute; reflexivity).
  assert (map fst (lg_accepted (sy_log demo_tasks)) ≡ₚ
    [mk_task_handle 1 1 0; mk_task_handle 1 1 1; mk_task_handle 1 1 2]) as Ha by (vm_compute; reflexivity).
  destruct (H 7 [] e' Hj 10 Hc) as (n & Hp & Hd). clear Hj Hc H.
  exists n. cbv zeta. split; [exact (Permutation_trans Hp Ha)|].
  destruct Hd as (b2 & Hd & Hu). exists b2. split; [exact Hd|]. rewrite Hu. reflexivity.
Defined.
