(* ===== verification/PipelineRoute.v ===== *)
(** Pipeline routes: [src/group/pipeline_route.c], [pipeline_route_internal.h].

    The 48 byte preface a connection of a pipeline sends before its frames, and the
    incremental parser that reads it.

    Theorems: the encoding is exact and canonical; the parser gives the same verdict however
    the bytes are cut, and leaves those after the preface alone. *)
From S2P Require Import Prelude Status Endian Crc32c.

(** * Constants and data *)

Definition TR_PIPELINE_ROUTE_PREFACE_SIZE : Z := 48.
Definition TR_PIPELINE_ROUTE_VERSION : Z := 1.
Definition TR_PIPELINE_ROUTE_MEMBER_CONTROL : Z := UINT32_MAX.

Definition TR_PIPELINE_ROUTE_OFF_MAGIC : Z := 0.
Definition TR_PIPELINE_ROUTE_OFF_VERSION : Z := 4.
Definition TR_PIPELINE_ROUTE_OFF_ROLE : Z := 6.
Definition TR_PIPELINE_ROUTE_OFF_FLAGS : Z := 8.
Definition TR_PIPELINE_ROUTE_OFF_OWNER_SHARD : Z := 12.
Definition TR_PIPELINE_ROUTE_OFF_PIPELINE_ID : Z := 16.
Definition TR_PIPELINE_ROUTE_OFF_EPOCH : Z := 24.
Definition TR_PIPELINE_ROUTE_OFF_MEMBER_INDEX : Z := 32.
Definition TR_PIPELINE_ROUTE_OFF_MEMBER_GENERATION : Z := 36.
Definition TR_PIPELINE_ROUTE_OFF_HEADER_CRC : Z := 40.
Definition TR_PIPELINE_ROUTE_OFF_RESERVED : Z := 44.
Definition TR_PIPELINE_ROUTE_F_KNOWN_MASK : Z := 0.

Definition TR_PIPELINE_ROUTE_CONTROL : Z := 1.
Definition TR_PIPELINE_ROUTE_DATA : Z := 2.

Record tr_pipeline_route_preface := mk_preface {
  pf_version : Z;
  pf_role : Z;
  pf_flags : Z;
  pf_owner_shard_id : Z;
  pf_pipeline_id : Z;
  pf_epoch : Z;
  pf_member_index : Z;
  pf_member_generation : Z;
  pf_header_crc32c : Z;
  pf_reserved : Z
}.

Record tr_pipeline_route_parser := mk_route_parser { rp_raw : list Z; rp_have : Z; rp_done : Z }.

Definition zero_preface : tr_pipeline_route_preface := mk_preface 0 0 0 0 0 0 0 0 0 0.

(** ['T', 'R', 'R', '1'] *)
Definition tr_pipeline_route_magic : list Z := [0x54; 0x52; 0x52; 0x31].

(** * Operations *)

Definition tr_pipeline_route_header_crc (raw : list Z) : Z :=
  let tmp := raw in
  let tmp := put_at tmp TR_PIPELINE_ROUTE_OFF_HEADER_CRC [0; 0; 0; 0] in
  tr_crc32c tmp.

Definition tr_pipeline_route_preface_encode (out : option (list Z))
    (preface : option tr_pipeline_route_preface) : tr_status * option (list Z) :=
  match out, preface with
  | Some _, Some preface =>
      let out := replicate (Z.to_nat TR_PIPELINE_ROUTE_PREFACE_SIZE) 0 in
      let out := put_at out TR_PIPELINE_ROUTE_OFF_MAGIC tr_pipeline_route_magic in
      let out := put_at out TR_PIPELINE_ROUTE_OFF_VERSION (tr_put_le16 (pf_version preface)) in
      let out := put_at out TR_PIPELINE_ROUTE_OFF_ROLE (tr_put_le16 (pf_role preface)) in
      let out := put_at out TR_PIPELINE_ROUTE_OFF_FLAGS (tr_put_le32 (pf_flags preface)) in
      let out := put_at out TR_PIPELINE_ROUTE_OFF_OWNER_SHARD (tr_put_le32 (pf_owner_shard_id preface)) in
      let out := put_at out TR_PIPELINE_ROUTE_OFF_PIPELINE_ID (tr_put_le64 (pf_pipeline_id preface)) in
      let out := put_at out TR_PIPELINE_ROUTE_OFF_EPOCH (tr_put_le64 (pf_epoch preface)) in
      let out := put_at out TR_PIPELINE_ROUTE_OFF_MEMBER_INDEX (tr_put_le32 (pf_member_index preface)) in
      let out := put_at out TR_PIPELINE_ROUTE_OFF_MEMBER_GENERATION (tr_put_le32 (pf_member_generation preface)) in
      let out := put_at out TR_PIPELINE_ROUTE_OFF_HEADER_CRC (tr_put_le32 0) in
      let out := put_at out TR_PIPELINE_ROUTE_OFF_RESERVED (tr_put_le32 (pf_reserved preface)) in
      let crc := tr_pipeline_route_header_crc out in
      let out := put_at out TR_PIPELINE_ROUTE_OFF_HEADER_CRC (tr_put_le32 crc) in
      (TR_OK, Some out)
  | _, _ => (TR_ERR_INVALID, out)
  end.

Definition tr_pipeline_route_preface_decode (inp : option (list Z))
    (preface : option tr_pipeline_route_preface) : tr_status * option tr_pipeline_route_preface :=
  match inp, preface with
  | Some inp, Some _ =>
      (TR_OK, Some {|
        pf_version := tr_get_le16 (at_off inp TR_PIPELINE_ROUTE_OFF_VERSION);
        pf_role := tr_get_le16 (at_off inp TR_PIPELINE_ROUTE_OFF_ROLE);
        pf_flags := tr_get_le32 (at_off inp TR_PIPELINE_ROUTE_OFF_FLAGS);
        pf_owner_shard_id := tr_get_le32 (at_off inp TR_PIPELINE_ROUTE_OFF_OWNER_SHARD);
        pf_pipeline_id := tr_get_le64 (at_off inp TR_PIPELINE_ROUTE_OFF_PIPELINE_ID);
        pf_epoch := tr_get_le64 (at_off inp TR_PIPELINE_ROUTE_OFF_EPOCH);
        pf_member_index := tr_get_le32 (at_off inp TR_PIPELINE_ROUTE_OFF_MEMBER_INDEX);
        pf_member_generation := tr_get_le32 (at_off inp TR_PIPELINE_ROUTE_OFF_MEMBER_GENERATION);
        pf_header_crc32c := tr_get_le32 (at_off inp TR_PIPELINE_ROUTE_OFF_HEADER_CRC);
        pf_reserved := tr_get_le32 (at_off inp TR_PIPELINE_ROUTE_OFF_RESERVED) |})
  | _, _ => (TR_ERR_INVALID, preface)
  end.

Definition tr_pipeline_route_preface_validate_fields (preface : option tr_pipeline_route_preface) : tr_status :=
  match preface with
  | None => TR_ERR_INVALID
  | Some preface =>
      bail TR_ERR_BAD_VERSION when (negb (pf_version preface =? TR_PIPELINE_ROUTE_VERSION)) ;;
      bail TR_ERR_BAD_TYPE when
        (negb (pf_role preface =? TR_PIPELINE_ROUTE_CONTROL) && negb (pf_role preface =? TR_PIPELINE_ROUTE_DATA)) ;;
      bail TR_ERR_BAD_FLAGS when
        (negb (Z.land (pf_flags preface) (u32 (Z.lnot TR_PIPELINE_ROUTE_F_KNOWN_MASK)) =? 0)) ;;
      bail TR_ERR_RESERVED when (negb (pf_reserved preface =? 0)) ;;
      bail TR_ERR_INVALID when
        ((pf_pipeline_id preface =? 0) || (pf_epoch preface =? 0) ||
         (pf_owner_shard_id preface =? UINT32_MAX) || (pf_member_generation preface =? 0)) ;;
      if pf_role preface =? TR_PIPELINE_ROUTE_CONTROL then
        bail TR_ERR_INVALID when (negb (pf_member_index preface =? TR_PIPELINE_ROUTE_MEMBER_CONTROL)) ;;
        TR_OK
      else
        bail TR_ERR_INVALID when (pf_member_index preface =? TR_PIPELINE_ROUTE_MEMBER_CONTROL) ;;
        TR_OK
  end.

Definition tr_pipeline_route_preface_validate (raw : option (list Z))
    (preface : option tr_pipeline_route_preface) : tr_status :=
  match raw, preface with
  | Some raw, Some p =>
      bail TR_ERR_BAD_MAGIC when
        (negb (bool_decide (take 4 (at_off raw TR_PIPELINE_ROUTE_OFF_MAGIC) = tr_pipeline_route_magic))) ;;
      bail TR_ERR_HEADER_CRC when (negb (tr_pipeline_route_header_crc raw =? pf_header_crc32c p)) ;;
      tr_pipeline_route_preface_validate_fields preface
  | _, _ => TR_ERR_INVALID
  end.

Definition zero_route_parser : tr_pipeline_route_parser :=
  mk_route_parser (replicate (Z.to_nat TR_PIPELINE_ROUTE_PREFACE_SIZE) 0) 0 0.

Definition tr_pipeline_route_parser_init (parser : option tr_pipeline_route_parser)
    : option tr_pipeline_route_parser :=
  match parser with Some _ => Some zero_route_parser | None => None end.

(** The result: status, parser, [*consumed], [*out] and [*ready]. *)
Definition feed_result : Type :=
  tr_status * option tr_pipeline_route_parser * option Z * option tr_pipeline_route_preface * option Z.

Definition tr_pipeline_route_parser_feed (parser : option tr_pipeline_route_parser) (data : option (list Z))
    (len : Z) (consumed : option Z) (out : option tr_pipeline_route_preface) (ready : option Z) : feed_result :=
  match parser, consumed, out, ready with
  | Some p, Some _, Some o, Some _ =>
      bail (TR_ERR_INVALID, parser, consumed, out, ready) when
        (negb (len =? 0) && negb (bool_decide (is_Some data))) ;;
      bail (TR_ERR_STATE, parser, Some 0, out, Some 0) when (negb (rp_done p =? 0)) ;;
      let remaining := u32 (TR_PIPELINE_ROUTE_PREFACE_SIZE - rp_have p) in
      let taken := if len <? remaining then len else remaining in
      let '(p, n) :=
        if taken =? 0 then (p, 0)
        else (mk_route_parser (put_at (rp_raw p) (rp_have p) (take (Z.to_nat taken) (default [] data)))
                (u32 (rp_have p + u32 taken)) (rp_done p), taken) in
      bail (TR_OK, Some p, Some n, out, Some 0) when
        (negb (rp_have p =? TR_PIPELINE_ROUTE_PREFACE_SIZE)) ;;
      let p := mk_route_parser (rp_raw p) (rp_have p) 1 in
      let '(ret, decoded) := tr_pipeline_route_preface_decode (Some (rp_raw p)) (Some zero_preface) in
      bail (ret, Some p, Some n, out, Some 0) when (negb (is_ok ret)) ;;
      let ret := tr_pipeline_route_preface_validate (Some (rp_raw p)) decoded in
      bail (ret, Some p, Some n, out, Some 0) when (negb (is_ok ret)) ;;
      (TR_OK, Some p, Some n, decoded, Some 1)
  | _, _, _, _ => (TR_ERR_INVALID, parser, consumed, out, ready)
  end.

(** * Specification *)

(** The fields are values of their C types. *)
Record preface_ok (p : tr_pipeline_route_preface) : Prop := {
  pf_version_ok : u16_ok (pf_version p);
  pf_role_ok : u16_ok (pf_role p);
  pf_flags_ok : u32_ok (pf_flags p);
  pf_shard_ok : u32_ok (pf_owner_shard_id p);
  pf_pipeline_ok : u64_ok (pf_pipeline_id p);
  pf_epoch_ok : u64_ok (pf_epoch p);
  pf_index_ok : u32_ok (pf_member_index p);
  pf_generation_ok : u32_ok (pf_member_generation p);
  pf_crc_ok : u32_ok (pf_header_crc32c p);
  pf_reserved_ok : u32_ok (pf_reserved p)
}.

(** The routes a peer may ask for: of the control plane, without member, or of a member. *)
Inductive legal_route : tr_pipeline_route_preface → Prop :=
| legal_control shard id epoch generation crc :
    shard < UINT32_MAX → 0 < id → 0 < epoch → 0 < generation →
    legal_route (mk_preface 1 TR_PIPELINE_ROUTE_CONTROL 0 shard id epoch UINT32_MAX generation crc 0)
| legal_data shard id epoch member generation crc :
    shard < UINT32_MAX → 0 < id → 0 < epoch → member < UINT32_MAX → 0 < generation →
    legal_route (mk_preface 1 TR_PIPELINE_ROUTE_DATA 0 shard id epoch member generation crc 0).

Definition with_route_crc (p : tr_pipeline_route_preface) (crc : Z) : tr_pipeline_route_preface :=
  mk_preface (pf_version p) (pf_role p) (pf_flags p) (pf_owner_shard_id p) (pf_pipeline_id p) (pf_epoch p)
    (pf_member_index p) (pf_member_generation p) crc (pf_reserved p).

(** The bytes in wire order, with [crc] in the checksum field. *)
Definition preface_layout (p : tr_pipeline_route_preface) (crc : list Z) : list Z :=
  tr_pipeline_route_magic ++ tr_put_le16 (pf_version p) ++ tr_put_le16 (pf_role p) ++
  tr_put_le32 (pf_flags p) ++ tr_put_le32 (pf_owner_shard_id p) ++ tr_put_le64 (pf_pipeline_id p) ++
  tr_put_le64 (pf_epoch p) ++ tr_put_le32 (pf_member_index p) ++ tr_put_le32 (pf_member_generation p) ++
  crc ++ tr_put_le32 (pf_reserved p).

Definition route_checksum (p : tr_pipeline_route_preface) : Z := tr_crc32c (preface_layout p [0; 0; 0; 0]).

Definition preface_bytes (p : tr_pipeline_route_preface) : list Z :=
  preface_layout p (tr_put_le32 (route_checksum p)).

Lemma preface_encode_layout o p :
  tr_pipeline_route_preface_encode (Some o) (Some p) = (TR_OK, Some (preface_bytes p)).
Proof. unfold preface_bytes, route_checksum. reflexivity. Qed.

Lemma bytes_ok_preface_layout p crc : bytes_ok crc → bytes_ok (preface_layout p crc).
Proof.
  intros. unfold preface_layout.
  assert (bytes_ok tr_pipeline_route_magic) by (repeat constructor; unfold u8_ok; lia).
  auto 14 with trpc.
Qed.
#[export] Hint Resolve bytes_ok_preface_layout : trpc.

Lemma bytes_ok_zeros4 : bytes_ok [0; 0; 0; 0].
Proof. repeat constructor; unfold u8_ok; lia. Qed.
#[export] Hint Resolve bytes_ok_zeros4 : trpc.

Lemma preface_bytes_ok p : bytes_ok (preface_bytes p).
Proof. apply bytes_ok_preface_layout. auto with trpc. Qed.

Lemma preface_bytes_length p : length (preface_bytes p) = 48%nat.
Proof. reflexivity. Qed.

Lemma route_checksum_u32 p : u32_ok (route_checksum p).
Proof. unfold route_checksum. auto with trpc. Qed.

Lemma preface_crc_bytes p : tr_pipeline_route_header_crc (preface_bytes p) = route_checksum p.
Proof. unfold route_checksum. reflexivity. Qed.

(** ** Decoding *)

Lemma decode_preface_bytes p o : preface_ok p →
  tr_pipeline_route_preface_decode (Some (preface_bytes p)) (Some o) =
  (TR_OK, Some (with_route_crc p (route_checksum p))).
Proof.
  intros []. pose proof (route_checksum_u32 p) as Hcrc. unfold preface_bytes.
  revert Hcrc. generalize (route_checksum p). intros crc Hcrc.
  unfold tr_pipeline_route_preface_decode, with_route_crc, preface_layout.
  do 3 f_equal; [apply get_put_le16|apply get_put_le16|apply get_put_le32|apply get_put_le32|apply get_put_le64
    |apply get_put_le64|apply get_put_le32|apply get_put_le32|apply get_put_le32|]; auto 14 with trpc.
  rewrite <- (app_nil_r (tr_put_le32 (pf_reserved p))).
  apply (get_put_le32 (pf_reserved p) []); auto. constructor.
Qed.

Lemma decode_preface_ok raw o p : bytes_ok raw → length raw = 48%nat →
  tr_pipeline_route_preface_decode (Some raw) (Some o) = (TR_OK, Some p) → preface_ok p.
Proof.
  intros Hraw Hlen H. injection H as <-.
  assert (∀ off, 0 ≤ off → alen (at_off raw off) = Z.max 0 (48 - off)) as Hoff.
  { intros. unfold alen, at_off. rewrite length_drop. lia. }
  assert (∀ off, bytes_ok (at_off raw off)) as Hb by (intros; by apply bytes_ok_drop).
  split; cbn; first [apply tr_get_le16_range | apply tr_get_le32_range | apply tr_get_le64_range];
    auto; rewrite Hoff; vm_compute; discriminate.
Qed.

(** Bytes that pass the magic and checksum tests are the encoding of what they decode to. *)
Lemma preface_bytes_decode raw o p : bytes_ok raw → length raw = 48%nat →
  take 4 raw = tr_pipeline_route_magic → tr_pipeline_route_header_crc raw = pf_header_crc32c p →
  tr_pipeline_route_preface_decode (Some raw) (Some o) = (TR_OK, Some p) → preface_bytes p = raw.
Proof.
  intros Hraw Hlen Hmagic Hcrc H.
  do 48 (destruct raw as [|? raw]; [discriminate Hlen|]). destruct raw; [|discriminate Hlen].
  injection Hmagic as -> -> -> ->. injection H as <-.
  set (raw := _ :: _) in *.
  assert (∀ off, bytes_ok (at_off raw off)) as Hd by (intros; by apply bytes_ok_drop).
  cbn [pf_header_crc32c] in Hcrc. unfold preface_bytes, route_checksum, preface_layout.
  cbn [pf_version pf_role pf_flags pf_owner_shard_id pf_pipeline_id pf_epoch pf_member_index pf_member_generation
    pf_reserved].
  rewrite !put_get_le16, !put_get_le64, !put_get_le32 by (apply Hd || (vm_compute; discriminate)).
  match goal with |- context [tr_crc32c ?l] =>
    replace (tr_crc32c l) with (tr_pipeline_route_header_crc raw) by reflexivity end.
  rewrite Hcrc, put_get_le32; [reflexivity|apply Hd|vm_compute; discriminate].
Qed.

(** ** Validation *)

Lemma route_flags_zero f : u32_ok f → Z.land f (u32 (Z.lnot TR_PIPELINE_ROUTE_F_KNOWN_MASK)) = f.
Proof.
  intros Hf. change (u32 (Z.lnot TR_PIPELINE_ROUTE_F_KNOWN_MASK)) with (Z.ones 32).
  rewrite Z.land_ones by lia. by apply u32_small.
Qed.

Lemma route_fields_legal p : preface_ok p →
  tr_pipeline_route_preface_validate_fields (Some p) = TR_OK ↔ legal_route p.
Proof.
  intros []. unfold tr_pipeline_route_preface_validate_fields. rewrite route_flags_zero by done.
  unfold TR_PIPELINE_ROUTE_VERSION, TR_PIPELINE_ROUTE_CONTROL, TR_PIPELINE_ROUTE_DATA, TR_PIPELINE_ROUTE_MEMBER_CONTROL.
  destruct p as [v r f s id ep mi mg crc rs]. cbn in *. split.
  - case_ifs; try discriminate; intros _; subst.
    + apply (legal_control s id ep mg crc); word_lia.
    + destruct_or!; try done. subst. apply (legal_data s id ep mi mg crc); word_lia.
  - intros H. inversion H; subst; cbn; case_ifs; try done; exfalso; word_lia.
Qed.

Lemma validate_route_iff raw p : preface_ok p →
  tr_pipeline_route_preface_validate (Some raw) (Some p) = TR_OK ↔
  take 4 raw = tr_pipeline_route_magic ∧ tr_pipeline_route_header_crc raw = pf_header_crc32c p ∧ legal_route p.
Proof.
  intros Hp. rewrite <- (route_fields_legal p Hp). unfold tr_pipeline_route_preface_validate, at_off.
  change (drop (Z.to_nat TR_PIPELINE_ROUTE_OFF_MAGIC) raw) with raw.
  case_ifs; split; intros H; try done; destruct_and?; congruence.
Qed.

Lemma legal_route_crc p crc : legal_route (with_route_crc p crc) ↔ legal_route p.
Proof.
  destruct p as [v r f s id ep mi mg c rs]. unfold with_route_crc. cbn.
  split; intros H; inversion H; subst; by constructor.
Qed.

(** * The parser *)

(** Feeding pieces one after the other: status, bytes consumed and ready flag of each call. *)
Fixpoint feed_all (p : tr_pipeline_route_parser) (o : tr_pipeline_route_preface) (pieces : list (list Z))
    : tr_pipeline_route_preface * list (tr_status * Z * Z) :=
  match pieces with
  | [] => (o, [])
  | piece :: pieces =>
      match tr_pipeline_route_parser_feed (Some p) (Some piece) (alen piece) (Some 0) (Some o) (Some 0) with
      | (ret, Some p, Some n, Some o, Some ready) =>
          let '(o, log) := feed_all p o pieces in (o, (ret, n, ready) :: log)
      | _ => (o, [])
      end
  end.

(** What is reported of 48 bytes, [o] being the value of the output before. *)
Definition verdict (bytes : list Z) (o : tr_pipeline_route_preface) (ret : tr_status) (ready : Z)
    (o' : tr_pipeline_route_preface) : Prop :=
  (∃ p, preface_ok p ∧ legal_route p ∧ bytes = preface_bytes p ∧
     ret = TR_OK ∧ ready = 1 ∧ o' = with_route_crc p (route_checksum p)) ∨
  ((∀ p, preface_ok p → legal_route p → bytes ≠ preface_bytes p) ∧ ret ≠ TR_OK ∧ ready = 0 ∧ o' = o).

(** [p] has taken in [seen] and waits for more. *)
Record gathered (p : tr_pipeline_route_parser) (seen : list Z) : Prop := {
  ga_done : rp_done p = 0;
  ga_raw : length (rp_raw p) = 48%nat;
  ga_have : rp_have p = alen seen;
  ga_room : alen seen < 48;
  ga_seen : take (Z.to_nat (rp_have p)) (rp_raw p) = seen
}.

Lemma gathered_init : gathered zero_route_parser [].
Proof. by split. Qed.

Lemma verdict_of_bytes raw o : bytes_ok raw → length raw = 48%nat → ∀ p,
  tr_pipeline_route_preface_decode (Some raw) (Some zero_preface) = (TR_OK, Some p) →
  let ret := tr_pipeline_route_preface_validate (Some raw) (Some p) in
  verdict raw o ret (if is_ok ret then 1 else 0) (if is_ok ret then p else o).
Proof.
  intros Hb Hl p Hd ret. pose proof (decode_preface_ok _ _ _ Hb Hl Hd) as Hp.
  pose proof (validate_route_iff raw p Hp) as Hv. fold ret in Hv. destruct (is_ok ret) eqn:E.
  - apply is_ok_true in E. destruct (proj1 Hv E) as (Hm & Hc & Hg). left. exists p. split_and!; try done.
    + symmetry. by eapply preface_bytes_decode.
    + rewrite <- preface_crc_bytes. rewrite (preface_bytes_decode raw zero_preface p) by done. rewrite Hc.
      by destruct p.
  - right. split_and!; try done; [|by intros ->]. intros q Hq Hg ->.
    rewrite (decode_preface_bytes q zero_preface Hq) in Hd. injection Hd as <-.
    apply is_ok_false in E. apply E, Hv. split_and!; [reflexivity|apply preface_crc_bytes|by apply legal_route_crc].
Qed.

(** One call, before the preface is complete. *)
Lemma feed_spec p seen piece o : gathered p seen → bytes_ok seen → bytes_ok piece → u64_ok (alen piece) →
  ∃ ret p' o' ready,
    tr_pipeline_route_parser_feed (Some p) (Some piece) (alen piece) (Some 0) (Some o) (Some 0) =
      (ret, Some p', Some (Z.min (alen piece) (48 - alen seen)), Some o', Some ready) ∧
    (alen (seen ++ piece) < 48 → gathered p' (seen ++ piece) ∧ ret = TR_OK ∧ o' = o ∧ ready = 0) ∧
    (48 ≤ alen (seen ++ piece) → rp_done p' = 1 ∧ verdict (take 48 (seen ++ piece)) o ret ready o').
Proof.
  intros [Hd Hr Hh Hroom Hs] Hbs Hbp Hlen. unfold tr_pipeline_route_parser_feed.
  rewrite Hd, (bool_decide_true (is_Some _)) by eauto. cbn [negb andb]. rewrite andb_false_r, Z.eqb_refl. cbn [negb].
  unfold TR_PIPELINE_ROUTE_PREFACE_SIZE. pose proof (alen_nonneg seen) as H0. pose proof (alen_nonneg piece) as H1.
  rewrite Hh, (u32_small (48 - alen seen)) by word_lia.
  set (n := Z.min (alen piece) (48 - alen seen)).
  assert ((if alen piece <? 48 - alen seen then alen piece else 48 - alen seen) = n) as -> by (unfold n; case_ifs; lia).
  assert (alen (seen ++ piece) = alen seen + alen piece) as Ea by (unfold alen; rewrite length_app; lia).
  set (raw := put_at (rp_raw p) (alen seen) (take (Z.to_nat n) piece)).
  assert (alen (take (Z.to_nat n) piece) = n) as Et by (unfold alen in *; rewrite length_take; lia).
  assert (length raw = 48%nat) as Hraw by (unfold raw; rewrite length_put_at; unfold alen in *; lia).
  assert (take (Z.to_nat (alen seen + n)) raw = seen ++ take (Z.to_nat n) piece) as Htake.
  { rewrite <- Et. unfold raw. rewrite take_put_at by (unfold alen in *; lia). by rewrite <- Hh, Hs, Et. }
  assert ((if n =? 0 then (p, 0) else
     (mk_route_parser raw (u32 (alen seen + u32 n)) 0, n)) = (mk_route_parser raw (alen seen + n) 0, n)) as En.
  { rewrite (u32_small n), u32_small by (unfold n; word_lia). destruct (n =? 0) eqn:E0; [|done]. bool_to_prop.
    rewrite E0 in *. destruct p as [r h d]. cbn in *. subst h d. do 2 f_equal; [|lia]. unfold raw.
    rewrite E0. unfold put_at. change (take (Z.to_nat 0) piece) with (@nil Z).
    cbn [length app]. rewrite Nat.add_0_r. symmetry. apply (take_drop (Z.to_nat (alen seen)) r). }
  cbn [default id]. fold raw. rewrite En. clear En. cbn [rp_have rp_raw rp_done].
  destruct (alen seen + n =? 48) eqn:E48; cbn [negb]; bool_to_prop.
  - assert (raw = take 48 (seen ++ piece)) as Er.
    { rewrite <- (take_ge raw 48) by lia. replace 48%nat with (Z.to_nat (alen seen + n)) at 1 by lia.
      rewrite Htake, take_app, (take_ge seen) by (unfold alen in *; lia). f_equal. f_equal. unfold alen in *. lia. }
    assert (bytes_ok raw) as Hrb by (rewrite Er; auto with trpc).
    destruct (tr_pipeline_route_preface_decode (Some raw) (Some zero_preface)) as [ret [q|]] eqn:Ed; [|done].
    assert (ret = TR_OK) as -> by (by injection Ed). cbn [is_ok negb].
    pose proof (verdict_of_bytes raw o Hrb Hraw q Ed) as Hv. cbn zeta in Hv. rewrite <- Er.
    destruct (tr_pipeline_route_preface_validate (Some raw) (Some q)) eqn:Ev; cbn [is_ok negb] in Hv |- *;
      eexists _, _, _, _; (split; [reflexivity|split; [intros; lia|done]]).
  - eexists TR_OK, _, o, 0. split; [reflexivity|]. split; [|unfold n in *; lia]. intros Hlt.
    assert (n = alen piece) as Hn by (unfold n; lia). split_and!; try done.
    split; cbn [rp_done rp_raw rp_have]; try done; [lia|].
    rewrite Htake, Hn. f_equal. apply take_ge. unfold alen. lia.
Qed.

Lemma feed_done p o piece : rp_done p = 1 →
  tr_pipeline_route_parser_feed (Some p) (Some piece) (alen piece) (Some 0) (Some o) (Some 0) =
  (TR_ERR_STATE, Some p, Some 0, Some o, Some 0).
Proof.
  intros Hd. unfold tr_pipeline_route_parser_feed. rewrite (bool_decide_true (is_Some _)) by eauto.
  cbn [negb]. by rewrite andb_false_r, Hd.
Qed.

Definition refused : tr_status * Z * Z := (TR_ERR_STATE, 0, 0).

Lemma feed_all_done p o pieces : rp_done p = 1 → feed_all p o pieces = (o, replicate (length pieces) refused).
Proof.
  intros Hd. induction pieces as [|piece pieces IH]; [done|].
  cbn [feed_all]. rewrite feed_done by done. by rewrite IH.
Qed.

(** What the calls consume. *)
Definition consumed_bytes (pieces : list (list Z)) (log : list (tr_status * Z * Z)) : list Z :=
  concat (zip_with (λ piece r, take (Z.to_nat r.1.2) piece) pieces log).

Definition waiting (r : tr_status * Z * Z) : Prop := r.1.1 = TR_OK ∧ r.2 = 0.

Lemma consumed_refused pieces : consumed_bytes pieces (replicate (length pieces) refused) = [].
Proof. induction pieces; [done|]. by unfold consumed_bytes in *. Qed.

Lemma feed_all_spec p seen o pieces : gathered p seen → bytes_ok seen →
  Forall (λ piece, bytes_ok piece ∧ u64_ok (alen piece)) pieces →
  let all := seen ++ concat pieces in
  let '(o', log) := feed_all p o pieces in
  length log = length pieces ∧
  seen ++ consumed_bytes pieces log = take 48 all ∧
  (alen all < 48 → o' = o ∧ Forall waiting log) ∧
  (48 ≤ alen all → ∃ before ret n ready after,
     log = before ++ (ret, n, ready) :: after ∧ Forall waiting before ∧ Forall (eq refused) after ∧
     alen (seen ++ concat (take (length before) pieces)) < 48 ≤ alen (seen ++ concat (take (S (length before)) pieces)) ∧
     verdict (take 48 all) o ret ready o').
Proof.
  intros Hg Hb Hp. revert p seen o Hg Hb. induction Hp as [|piece pieces [Hpb Hpl] Hps IH]; intros p seen o Hg Hb all; subst all.
  { cbn. rewrite app_nil_r. pose proof (ga_room _ _ Hg). split_and!; try done; [|lia].
    rewrite take_ge; [done|]. unfold alen in *. lia. }
  cbn [feed_all]. destruct (feed_spec p seen piece o Hg Hb Hpb Hpl) as (ret & p' & o1 & ready & -> & Hmore & Hend).
  destruct (decide (alen (seen ++ piece) < 48)) as [Hlt|Hge].
  - destruct (Hmore Hlt) as (Hg' & -> & -> & ->). specialize (IH p' (seen ++ piece) o Hg').
    rewrite <- app_assoc in IH. destruct (feed_all p' o pieces) as [o' log].
    destruct IH as (Hl & Hc & Hw & Hv); [auto with trpc|]. cbn [concat]. split_and!; [cbn; congruence| | |].
    + rewrite <- Hc. unfold consumed_bytes. cbn [zip_with concat fst snd]. rewrite <- app_assoc. f_equal. f_equal.
      apply take_ge. unfold alen in *. rewrite length_app in Hlt. lia.
    + intros H. destruct (Hw H) as [-> Hf]. split; [done|]. by constructor.
    + intros H. destruct (Hv H) as (before & r & n & rd & after & -> & Hf & Ha & Hpos & Hver).
      exists ((TR_OK, Z.min (alen piece) (48 - alen seen), 0) :: before), r, n, rd, after.
      split_and!; try done; [by constructor| |]; cbn [length take concat]; rewrite app_assoc; apply Hpos.
  - destruct (Hend ltac:(lia)) as (Hd & Hver). rewrite (feed_all_done p' o1 pieces Hd).
    assert (alen (seen ++ piece) = alen seen + alen piece) as Ea by (unfold alen; rewrite length_app; lia).
    assert (48 ≤ alen (seen ++ piece)) as Hge' by lia. pose proof (ga_room _ _ Hg).
    cbn [concat]. rewrite app_assoc, take_app_le by (unfold alen in *; lia). split_and!.
    + cbn. by rewrite length_replicate.
    + unfold consumed_bytes. cbn [zip_with concat fst snd]. fold (consumed_bytes pieces (replicate (length pieces) refused)).
      rewrite consumed_refused, app_nil_r, take_app, (take_ge seen) by (unfold alen in *; lia).
      f_equal. f_equal. unfold alen in *. lia.
    + intros Hlt. exfalso. unfold alen in *. rewrite length_app in Hlt. lia.
    + intros _. exists [], ret, (Z.min (alen piece) (48 - alen seen)), ready, (replicate (length pieces) refused).
      split_and!; try done; [apply Forall_replicate; reflexivity| |]; cbn [length take concat]; rewrite ?app_nil_r; lia.
Qed.

(** * Theorems *)

(** Encoding fields of their types gives 48 bytes that decode to the same fields, with the
    computed checksum, and validate exactly when the route is legal; conversely 48 bytes
    that validate are the encoding of what they decode to. *)
Theorem route_preface_canonical out p o (Hp : preface_ok p) :
  (∃ raw p', tr_pipeline_route_preface_encode (Some out) (Some p) = (TR_OK, Some raw) ∧ length raw = 48%nat ∧
     tr_pipeline_route_preface_decode (Some raw) (Some o) = (TR_OK, Some p') ∧ p' = with_route_crc p (pf_header_crc32c p') ∧
     (tr_pipeline_route_preface_validate (Some raw) (Some p') = TR_OK ↔ legal_route p)) ∧
  (∀ raw, bytes_ok raw → length raw = 48%nat →
     tr_pipeline_route_preface_decode (Some raw) (Some o) = (TR_OK, Some p) →
     tr_pipeline_route_preface_validate (Some raw) (Some p) = TR_OK →
     tr_pipeline_route_preface_encode (Some out) (Some p) = (TR_OK, Some raw)).
Proof.
  split.
  - pose proof (decode_preface_bytes p o Hp) as Hd.
    assert (preface_ok (with_route_crc p (route_checksum p))) as Hok.
    { eapply decode_preface_ok; [| |exact Hd]; [apply preface_bytes_ok|done]. }
    exists (preface_bytes p), (with_route_crc p (route_checksum p)).
    split; [apply preface_encode_layout|]. split; [apply preface_bytes_length|]. split; [exact Hd|].
    split; [cbn [with_route_crc pf_header_crc32c]; exact eq_refl|]. rewrite validate_route_iff by exact Hok.
    rewrite legal_route_crc. split; [by intros (_ & _ & H)|]. intros Hg.
    split; [reflexivity|]. split; [apply preface_crc_bytes|exact Hg].
  - intros raw Hb Hl Hd Hv. apply validate_route_iff in Hv as (Hm & Hc & _); [|done].
    rewrite preface_encode_layout. by erewrite preface_bytes_decode.
Qed.

(** However a connection's bytes are cut, the parser consumes exactly the first 48 of them.
    Until it has them it asks for more and leaves its output alone; the call that completes them
    reports them as what they are, the preface of a legal route, or fails and leaves the
    output alone; every later call is refused and consumes nothing. *)
Theorem route_parser_any_split o pieces (Hp : Forall (λ piece, bytes_ok piece ∧ u64_ok (alen piece)) pieces) :
  let bytes := concat pieces in
  let '(o', log) := feed_all zero_route_parser o pieces in
  length log = length pieces ∧
  consumed_bytes pieces log = take 48 bytes ∧
  (alen bytes < 48 → o' = o ∧ Forall waiting log) ∧
  (48 ≤ alen bytes → ∃ before ret n ready after,
     log = before ++ (ret, n, ready) :: after ∧ Forall waiting before ∧ Forall (eq refused) after ∧
     alen (concat (take (length before) pieces)) < 48 ≤ alen (concat (take (S (length before)) pieces)) ∧
     verdict (take 48 bytes) o ret ready o').
Proof. apply (feed_all_spec zero_route_parser [] o pieces gathered_init); [constructor|done]. Qed.

Definition sample_route : tr_pipeline_route_preface := mk_preface 1 TR_PIPELINE_ROUTE_DATA 0 3 77 5 2 9 0 0.

Lemma sample_route_ok : preface_ok sample_route.
Proof. split; vm_compute; split; congruence. Qed.

Lemma route_preface_canonical_witness :
  (tr_pipeline_route_preface_validate (Some (preface_bytes sample_route))
    (Some (with_route_crc sample_route (route_checksum sample_route)))) = TR_OK.
Proof.
  destruct (route_preface_canonical [] sample_route zero_preface sample_route_ok) as [(raw & p' & He & _ & Hd & _ & Hv) _].
  rewrite preface_encode_layout in He. injection He as <-.
  rewrite (decode_preface_bytes _ _ sample_route_ok) in Hd. injection Hd as <-. apply Hv. by apply legal_data.
Defined.

(** The preface in three pieces, the last with bytes that follow it. *)
Definition sample_pieces : list (list Z) :=
  [take 10 (preface_bytes sample_route); []; drop 10 (preface_bytes sample_route) ++ [1; 2; 3]; [4]].

Lemma sample_pieces_ok : Forall (λ piece, bytes_ok piece ∧ u64_ok (alen piece)) sample_pieces.
Proof.
  pose proof (preface_bytes_ok sample_route) as H.
  repeat (apply Forall_cons; split); try apply Forall_nil_2; (split; [|vm_compute; split; congruence]).
  - by apply bytes_ok_take.
  - constructor.
  - apply Forall_app; split; [by apply bytes_ok_drop|]. repeat constructor; unfold u8_ok; lia.
  - repeat constructor; unfold u8_ok; lia.
Qed.

Lemma route_parser_any_split_witness :
  consumed_bytes sample_pieces (feed_all zero_route_parser zero_preface sample_pieces).2 = preface_bytes sample_route ∧
  (feed_all zero_route_parser zero_preface sample_pieces).2 =
    [(TR_OK, 10, 0); (TR_OK, 0, 0); (TR_OK, 38, 1); (TR_ERR_STATE, 0, 0)].
Proof.
  pose proof (route_parser_any_split zero_preface sample_pieces sample_pieces_ok) as H. cbn zeta in H.
  destruct (feed_all zero_route_parser zero_preface sample_pieces) as [o' log] eqn:E. destruct H as (_ & H & _).
  cbn [snd]. split; [rewrite H; vm_compute; reflexivity|].
  apply (f_equal snd) in E. cbn [snd] in E. rewrite <- E. vm_compute. reflexivity.
Defined.
