(* ===== verification/PipelineControlWire.v ===== *)
(** Pipeline control messages: [src/group/pipeline_control_wire.c],
    [pipeline_control_wire_internal.h].

    The 48 byte payload by which the control connection of a pipeline offers and cancels
    data connections and hands over streams.

    Theorems: exactly the legal messages are encoded and decoded, canonically, and the route an
    offer stands for is one the receiver of the data connection accepts. *)
From S2P Require Import Prelude Status Endian PipelineRoute.

(** * Constants and data *)

Definition TR_PIPELINE_CONTROL_WIRE_SIZE : Z := 48.
Definition TR_PIPELINE_CONTROL_WIRE_VERSION : Z := 1.

Definition TR_PIPELINE_CONTROL_WIRE_OFF_MAGIC : Z := 0.
Definition TR_PIPELINE_CONTROL_WIRE_OFF_VERSION : Z := 4.
Definition TR_PIPELINE_CONTROL_WIRE_OFF_TYPE : Z := 6.
Definition TR_PIPELINE_CONTROL_WIRE_OFF_FLAGS : Z := 8.
Definition TR_PIPELINE_CONTROL_WIRE_OFF_OWNER_SHARD : Z := 12.
Definition TR_PIPELINE_CONTROL_WIRE_OFF_PIPELINE_ID : Z := 16.
Definition TR_PIPELINE_CONTROL_WIRE_OFF_EPOCH : Z := 24.
Definition TR_PIPELINE_CONTROL_WIRE_OFF_STREAM_ID : Z := 32.
Definition TR_PIPELINE_CONTROL_WIRE_OFF_DATA_INDEX : Z := 36.
Definition TR_PIPELINE_CONTROL_WIRE_OFF_DATA_GENERATION : Z := 40.
Definition TR_PIPELINE_CONTROL_WIRE_OFF_RESERVED : Z := 44.

Definition TR_PIPELINE_CONTROL_DATA_OFFER : Z := 1.
Definition TR_PIPELINE_CONTROL_DATA_CANCEL : Z := 2.
Definition TR_PIPELINE_CONTROL_TRANSFER_READY : Z := 3.

Record tr_pipeline_control_wire_message := mk_control_message {
  cm_version : Z;
  cm_type : Z;
  cm_flags : Z;
  cm_owner_shard_id : Z;
  cm_pipeline_id : Z;
  cm_epoch : Z;
  cm_stream_id : Z;
  cm_data_index : Z;
  cm_data_generation : Z;
  cm_reserved : Z
}.

(** ['T', 'R', 'C', '1'] *)
Definition tr_pipeline_control_wire_magic : list Z := [0x54; 0x52; 0x43; 0x31].

(** * Operations *)

Definition tr_pipeline_control_wire_type_valid (type : Z) : bool :=
  (type =? TR_PIPELINE_CONTROL_DATA_OFFER) || (type =? TR_PIPELINE_CONTROL_DATA_CANCEL) ||
  (type =? TR_PIPELINE_CONTROL_TRANSFER_READY).

Definition tr_pipeline_control_wire_fields_valid (message : option tr_pipeline_control_wire_message) : bool :=
  match message with
  | None => false
  | Some m =>
      bail false when
        (negb (cm_version m =? TR_PIPELINE_CONTROL_WIRE_VERSION) ||
         negb (tr_pipeline_control_wire_type_valid (cm_type m)) ||
         negb (cm_flags m =? 0) || (cm_owner_shard_id m =? UINT32_MAX) ||
         (cm_pipeline_id m =? 0) || (cm_epoch m =? 0) ||
         (cm_data_index m =? UINT32_MAX) ||
         (cm_data_generation m =? 0) || negb (cm_reserved m =? 0)) ;;
      bail (negb (cm_stream_id m =? 0)) when (cm_type m =? TR_PIPELINE_CONTROL_TRANSFER_READY) ;;
      cm_stream_id m =? 0
  end.

Definition tr_pipeline_control_wire_encode (out : option (list Z))
    (message : option tr_pipeline_control_wire_message) : tr_status * option (list Z) :=
  match out, message with
  | Some _, Some m =>
      bail (TR_ERR_INVALID, out) when (negb (tr_pipeline_control_wire_fields_valid message)) ;;
      let out := replicate (Z.to_nat TR_PIPELINE_CONTROL_WIRE_SIZE) 0 in
      let out := put_at out TR_PIPELINE_CONTROL_WIRE_OFF_MAGIC tr_pipeline_control_wire_magic in
      let out := put_at out TR_PIPELINE_CONTROL_WIRE_OFF_VERSION (tr_put_le16 (cm_version m)) in
      let out := put_at out TR_PIPELINE_CONTROL_WIRE_OFF_TYPE (tr_put_le16 (cm_type m)) in
      let out := put_at out TR_PIPELINE_CONTROL_WIRE_OFF_FLAGS (tr_put_le32 (cm_flags m)) in
      let out := put_at out TR_PIPELINE_CONTROL_WIRE_OFF_OWNER_SHARD (tr_put_le32 (cm_owner_shard_id m)) in
      let out := put_at out TR_PIPELINE_CONTROL_WIRE_OFF_PIPELINE_ID (tr_put_le64 (cm_pipeline_id m)) in
      let out := put_at out TR_PIPELINE_CONTROL_WIRE_OFF_EPOCH (tr_put_le64 (cm_epoch m)) in
      let out := put_at out TR_PIPELINE_CONTROL_WIRE_OFF_STREAM_ID (tr_put_le32 (cm_stream_id m)) in
      let out := put_at out TR_PIPELINE_CONTROL_WIRE_OFF_DATA_INDEX (tr_put_le32 (cm_data_index m)) in
      let out := put_at out TR_PIPELINE_CONTROL_WIRE_OFF_DATA_GENERATION (tr_put_le32 (cm_data_generation m)) in
      let out := put_at out TR_PIPELINE_CONTROL_WIRE_OFF_RESERVED (tr_put_le32 (cm_reserved m)) in
      (TR_OK, Some out)
  | _, _ => (TR_ERR_INVALID, out)
  end.

Definition tr_pipeline_control_wire_decode (data : option (list Z)) (len : Z)
    (message : option tr_pipeline_control_wire_message) : tr_status * option tr_pipeline_control_wire_message :=
  match data, message with
  | Some data, Some _ =>
      bail (TR_ERR_BAD_LENGTH, message) when (negb (len =? TR_PIPELINE_CONTROL_WIRE_SIZE)) ;;
      bail (TR_ERR_BAD_MAGIC, message) when
        (negb (bool_decide (take 4 (at_off data TR_PIPELINE_CONTROL_WIRE_OFF_MAGIC) = tr_pipeline_control_wire_magic))) ;;
      let m := {|
        cm_version := tr_get_le16 (at_off data TR_PIPELINE_CONTROL_WIRE_OFF_VERSION);
        cm_type := tr_get_le16 (at_off data TR_PIPELINE_CONTROL_WIRE_OFF_TYPE);
        cm_flags := tr_get_le32 (at_off data TR_PIPELINE_CONTROL_WIRE_OFF_FLAGS);
        cm_owner_shard_id := tr_get_le32 (at_off data TR_PIPELINE_CONTROL_WIRE_OFF_OWNER_SHARD);
        cm_pipeline_id := tr_get_le64 (at_off data TR_PIPELINE_CONTROL_WIRE_OFF_PIPELINE_ID);
        cm_epoch := tr_get_le64 (at_off data TR_PIPELINE_CONTROL_WIRE_OFF_EPOCH);
        cm_stream_id := tr_get_le32 (at_off data TR_PIPELINE_CONTROL_WIRE_OFF_STREAM_ID);
        cm_data_index := tr_get_le32 (at_off data TR_PIPELINE_CONTROL_WIRE_OFF_DATA_INDEX);
        cm_data_generation := tr_get_le32 (at_off data TR_PIPELINE_CONTROL_WIRE_OFF_DATA_GENERATION);
        cm_reserved := tr_get_le32 (at_off data TR_PIPELINE_CONTROL_WIRE_OFF_RESERVED) |} in
      bail (TR_ERR_BAD_VERSION, Some m) when (negb (cm_version m =? TR_PIPELINE_CONTROL_WIRE_VERSION)) ;;
      bail (TR_ERR_BAD_TYPE, Some m) when (negb (tr_pipeline_control_wire_type_valid (cm_type m))) ;;
      bail (TR_ERR_BAD_FLAGS, Some m) when (negb (cm_flags m =? 0)) ;;
      bail (TR_ERR_RESERVED, Some m) when (negb (cm_reserved m =? 0)) ;;
      bail (TR_ERR_INVALID, Some m) when (negb (tr_pipeline_control_wire_fields_valid (Some m))) ;;
      (TR_OK, Some m)
  | _, _ => (TR_ERR_BAD_LENGTH, message)
  end.

Definition tr_pipeline_control_wire_data_route (message : option tr_pipeline_control_wire_message)
    (route : option tr_pipeline_route_preface) : tr_status * option tr_pipeline_route_preface :=
  match message, route with
  | Some m, Some _ =>
      bail (TR_ERR_INVALID, route) when
        (negb (cm_type m =? TR_PIPELINE_CONTROL_DATA_OFFER) ||
         negb (tr_pipeline_control_wire_fields_valid message)) ;;
      (TR_OK, Some (mk_preface TR_PIPELINE_ROUTE_VERSION TR_PIPELINE_ROUTE_DATA 0 (cm_owner_shard_id m)
         (cm_pipeline_id m) (cm_epoch m) (cm_data_index m) (cm_data_generation m) 0 0))
  | _, _ => (TR_ERR_INVALID, route)
  end.

(** * Specification *)

(** What may be said of a data connection: offered or cancelled, without a stream, or ready
    for one. *)
Inductive legal_control_message : tr_pipeline_control_wire_message → Prop :=
| legal_offer type shard id epoch member generation :
    type = TR_PIPELINE_CONTROL_DATA_OFFER ∨ type = TR_PIPELINE_CONTROL_DATA_CANCEL →
    shard ≠ UINT32_MAX → id ≠ 0 → epoch ≠ 0 → member ≠ UINT32_MAX → generation ≠ 0 →
    legal_control_message (mk_control_message 1 type 0 shard id epoch 0 member generation 0)
| legal_ready shard id epoch stream member generation :
    shard ≠ UINT32_MAX → id ≠ 0 → epoch ≠ 0 → stream ≠ 0 → member ≠ UINT32_MAX → generation ≠ 0 →
    legal_control_message
      (mk_control_message 1 TR_PIPELINE_CONTROL_TRANSFER_READY 0 shard id epoch stream member generation 0).

Record control_message_ok (m : tr_pipeline_control_wire_message) : Prop := {
  cm_version_ok : u16_ok (cm_version m);
  cm_type_ok : u16_ok (cm_type m);
  cm_flags_ok : u32_ok (cm_flags m);
  cm_shard_ok : u32_ok (cm_owner_shard_id m);
  cm_pipeline_ok : u64_ok (cm_pipeline_id m);
  cm_epoch_ok : u64_ok (cm_epoch m);
  cm_stream_ok : u32_ok (cm_stream_id m);
  cm_index_ok : u32_ok (cm_data_index m);
  cm_generation_ok : u32_ok (cm_data_generation m);
  cm_reserved_ok : u32_ok (cm_reserved m)
}.

Definition control_bytes (m : tr_pipeline_control_wire_message) : list Z :=
  tr_pipeline_control_wire_magic ++ tr_put_le16 (cm_version m) ++ tr_put_le16 (cm_type m) ++
  tr_put_le32 (cm_flags m) ++ tr_put_le32 (cm_owner_shard_id m) ++ tr_put_le64 (cm_pipeline_id m) ++
  tr_put_le64 (cm_epoch m) ++ tr_put_le32 (cm_stream_id m) ++ tr_put_le32 (cm_data_index m) ++
  tr_put_le32 (cm_data_generation m) ++ tr_put_le32 (cm_reserved m).

Lemma fields_valid_legal m : tr_pipeline_control_wire_fields_valid (Some m) = true ↔ legal_control_message m.
Proof.
  unfold tr_pipeline_control_wire_fields_valid, tr_pipeline_control_wire_type_valid,
    TR_PIPELINE_CONTROL_WIRE_VERSION. destruct m as [v t f s id ep st i g r]. cbn. split.
  - case_ifs; try discriminate; intros Hs; bool_to_prop; subst.
    + by apply legal_ready.
    + apply legal_offer; try done. tauto.
  - intros H. inversion H as [? ? ? ? ? ? [->| ->]|]; subst;
      repeat match goal with H : ?x ≠ ?y |- context [?x =? ?y] => rewrite (proj2 (Z.eqb_neq x y) H) end; reflexivity.
Qed.

Lemma control_encode_bytes o m : legal_control_message m →
  tr_pipeline_control_wire_encode (Some o) (Some m) = (TR_OK, Some (control_bytes m)).
Proof.
  intros Hm. apply fields_valid_legal in Hm. unfold tr_pipeline_control_wire_encode. rewrite Hm. reflexivity.
Qed.

(** Each test of [decode] is implied by the last. *)
Lemma fields_valid_tests m : tr_pipeline_control_wire_fields_valid (Some m) = true →
  cm_version m = 1 ∧ tr_pipeline_control_wire_type_valid (cm_type m) = true ∧ cm_flags m = 0 ∧ cm_reserved m = 0.
Proof.
  unfold tr_pipeline_control_wire_fields_valid. intros H. case_if_in H; [discriminate|].
  bool_to_prop. done.
Qed.

(** What [decode] stores. *)
Definition control_fields (data : list Z) : tr_pipeline_control_wire_message :=
  mk_control_message (tr_get_le16 (at_off data 4)) (tr_get_le16 (at_off data 6)) (tr_get_le32 (at_off data 8))
    (tr_get_le32 (at_off data 12)) (tr_get_le64 (at_off data 16)) (tr_get_le64 (at_off data 24))
    (tr_get_le32 (at_off data 32)) (tr_get_le32 (at_off data 36)) (tr_get_le32 (at_off data 40))
    (tr_get_le32 (at_off data 44)).

Lemma control_fields_bytes m : control_message_ok m → control_fields (control_bytes m) = m.
Proof.
  destruct m as [v t f s id ep st i g r]. intros []. unfold control_fields, control_bytes.
  cbn [cm_version cm_type cm_flags cm_owner_shard_id cm_pipeline_id cm_epoch cm_stream_id cm_data_index cm_data_generation cm_reserved] in *.
  f_equal; [apply get_put_le16|apply get_put_le16|apply get_put_le32|apply get_put_le32|apply get_put_le64
    |apply get_put_le64|apply get_put_le32|apply get_put_le32|apply get_put_le32|]; auto 14 with trpc.
  rewrite <- (app_nil_r (tr_put_le32 r)). apply (get_put_le32 r []); auto. constructor.
Qed.

Lemma control_bytes_fields data : bytes_ok data → length data = 48%nat →
  take 4 data = tr_pipeline_control_wire_magic → control_bytes (control_fields data) = data.
Proof.
  intros Hb Hl Hm. do 48 (destruct data as [|? data]; [discriminate Hl|]). destruct data; [|discriminate Hl].
  injection Hm as -> -> -> ->. set (data := _ :: _) in *.
  assert (∀ off, bytes_ok (at_off data off)) as Hd by (intros; by apply bytes_ok_drop).
  unfold control_bytes, control_fields.
  cbn [cm_version cm_type cm_flags cm_owner_shard_id cm_pipeline_id cm_epoch cm_stream_id cm_data_index cm_data_generation cm_reserved].
  rewrite !put_get_le16, !put_get_le64, !put_get_le32 by (apply Hd || (vm_compute; discriminate)). reflexivity.
Qed.

Lemma control_decode_iff data len o m :
  tr_pipeline_control_wire_decode (Some data) len (Some o) = (TR_OK, Some m) ↔
  len = 48 ∧ take 4 data = tr_pipeline_control_wire_magic ∧ m = control_fields data ∧ legal_control_message m.
Proof.
  rewrite <- fields_valid_legal. unfold tr_pipeline_control_wire_decode, TR_PIPELINE_CONTROL_WIRE_SIZE.
  change (at_off data TR_PIPELINE_CONTROL_WIRE_OFF_MAGIC) with data.
  match goal with |- context [Some (mk_control_message ?a ?b ?c ?d ?e ?f ?g ?h ?i ?j)] =>
    change (mk_control_message a b c d e f g h i j) with (control_fields data) end.
  generalize (control_fields data). intros f. rewrite <- (bool_decide_eq_true (len = 48)). split.
  - case_ifs; intros H; try discriminate H. injection H as <-. by rewrite bool_decide_true.
  - intros (Hl%bool_decide_eq_true & Hm & -> & Hv). destruct (fields_valid_tests f Hv) as (-> & -> & -> & ->).
    by rewrite Hl, (bool_decide_true (take 4 data = _)), Hv.
Qed.

Lemma control_encode_cases o m :
  tr_pipeline_control_wire_encode (Some o) (Some m) =
    if tr_pipeline_control_wire_fields_valid (Some m) then (TR_OK, Some (control_bytes m)) else (TR_ERR_INVALID, Some o).
Proof.
  destruct (tr_pipeline_control_wire_fields_valid (Some m)) eqn:E.
  - by apply control_encode_bytes, fields_valid_legal.
  - unfold tr_pipeline_control_wire_encode. by rewrite E.
Qed.

Lemma control_fields_ok data : bytes_ok data → length data = 48%nat → control_message_ok (control_fields data).
Proof.
  intros Hb Hl.
  assert (∀ off, 0 ≤ off → alen (at_off data off) = Z.max 0 (48 - off)) as Hoff.
  { intros. unfold alen, at_off. rewrite length_drop. lia. }
  assert (∀ off, bytes_ok (at_off data off)) as Hd by (intros; by apply bytes_ok_drop).
  split; cbn; first [apply tr_get_le16_range | apply tr_get_le32_range | apply tr_get_le64_range];
    auto; rewrite Hoff; vm_compute; discriminate.
Qed.

(** The route an offer stands for. *)
Definition offered_route (m : tr_pipeline_control_wire_message) : tr_pipeline_route_preface :=
  mk_preface 1 TR_PIPELINE_ROUTE_DATA 0 (cm_owner_shard_id m) (cm_pipeline_id m) (cm_epoch m)
    (cm_data_index m) (cm_data_generation m) 0 0.

Lemma offered_route_legal m : control_message_ok m → legal_control_message m →
  cm_type m = TR_PIPELINE_CONTROL_DATA_OFFER → preface_ok (offered_route m) ∧ legal_route (offered_route m).
Proof.
  intros [] Hm Ht. unfold offered_route. split.
  - split; cbn; try done; word_lia.
  - destruct Hm; cbn in *; [|discriminate Ht]. apply legal_data; word_lia.
Qed.

Lemma whole_preface_accepted r o : preface_ok r → legal_route r →
  ∃ p', tr_pipeline_route_parser_feed (Some zero_route_parser) (Some (preface_bytes r)) 48 (Some 0) (Some o) (Some 0) =
    (TR_OK, Some p', Some 48, Some (with_route_crc r (route_checksum r)), Some 1).
Proof.
  intros Hr Hg.
  assert (alen (preface_bytes r) = 48) as Hl by (unfold alen; by rewrite preface_bytes_length).
  destruct (feed_spec zero_route_parser [] (preface_bytes r) o gathered_init) as (ret & p' & o' & ready & H & _ & Hv);
    [constructor|apply preface_bytes_ok|rewrite Hl; word_lia|].
  rewrite Hl in H. cbn [app] in Hv. rewrite Hl in Hv. destruct (Hv ltac:(lia)) as [_ Hver].
  rewrite take_ge in Hver by (rewrite preface_bytes_length; lia). exists p'.
  destruct Hver as [(q & Hq & _ & E & -> & -> & ->)|(Hno & _)]; [|exfalso; exact (Hno r Hr Hg eq_refl)].
  change (Z.min 48 (48 - alen [])) with 48 in H.
  rewrite H. pose proof (decode_preface_bytes r zero_preface Hr) as D1.
  pose proof (decode_preface_bytes q zero_preface Hq) as D2. rewrite E in D1. rewrite D1 in D2.
  apply (f_equal (λ x, default zero_preface x.2)) in D2. cbn [snd default id] in D2. by rewrite D2.
Qed.

(** * Theorems *)

(** A message of typed fields is encoded exactly when it is legal, and otherwise refused
    without a byte written; what is encoded decodes to the same message; and 48 bytes that
    decode are the encoding of the legal message they decode to. *)
Theorem control_message_canonical m o om (Hm : control_message_ok m) :
  (legal_control_message m ∧ (∃ raw, tr_pipeline_control_wire_encode (Some o) (Some m) = (TR_OK, Some raw) ∧
     length raw = 48%nat ∧ tr_pipeline_control_wire_decode (Some raw) 48 (Some om) = (TR_OK, Some m)) ∨
   ¬ legal_control_message m ∧
     tr_pipeline_control_wire_encode (Some o) (Some m) = (TR_ERR_INVALID, Some o)) ∧
  (∀ data len, bytes_ok data → alen data = len →
     tr_pipeline_control_wire_decode (Some data) len (Some om) = (TR_OK, Some m) →
     len = 48 ∧ legal_control_message m ∧ tr_pipeline_control_wire_encode (Some o) (Some m) = (TR_OK, Some data)).
Proof.
  split.
  - rewrite control_encode_cases. pose proof (fields_valid_legal m) as Hv.
    destruct (tr_pipeline_control_wire_fields_valid (Some m)).
    + left. assert (legal_control_message m) as Hl by (by apply Hv). split; [done|].
      exists (control_bytes m). split; [done|]. split; [reflexivity|]. apply control_decode_iff.
      split; [done|]. split; [reflexivity|]. split; [|done]. symmetry. by apply control_fields_bytes.
    + right. split; [|done]. intros Hl. by apply Hv in Hl.
  - intros data len Hb Hlen H. apply control_decode_iff in H as (-> & Hmagic & -> & Hl).
    assert (length data = 48%nat) as Hd by (unfold alen in Hlen; lia). split; [done|]. split; [done|].
    rewrite control_encode_bytes by done. by rewrite control_bytes_fields.
Qed.

(** A received offer, and nothing else, stands for a route: encoding it and sending it makes
    the parser at the other end report a data route of the offered pipeline, epoch, member
    and generation. *)
Theorem control_offer_opens_route data m om r o out (Hb : bytes_ok data) (Hlen : alen data = 48)
    (Hdec : tr_pipeline_control_wire_decode (Some data) 48 (Some om) = (TR_OK, Some m)) :
  if cm_type m =? TR_PIPELINE_CONTROL_DATA_OFFER then
    ∃ route raw p' crc,
      tr_pipeline_control_wire_data_route (Some m) (Some r) = (TR_OK, Some route) ∧
      tr_pipeline_route_preface_encode (Some out) (Some route) = (TR_OK, Some raw) ∧
      tr_pipeline_route_parser_feed (Some zero_route_parser) (Some raw) 48 (Some 0) (Some o) (Some 0) =
        (TR_OK, Some p', Some 48, Some (mk_preface 1 TR_PIPELINE_ROUTE_DATA 0 (cm_owner_shard_id m)
           (cm_pipeline_id m) (cm_epoch m) (cm_data_index m) (cm_data_generation m) crc 0), Some 1)
  else tr_pipeline_control_wire_data_route (Some m) (Some r) = (TR_ERR_INVALID, Some r).
Proof.
  apply control_decode_iff in Hdec as (_ & _ & Em & Hl).
  assert (control_message_ok m) as Hm by (rewrite Em; apply control_fields_ok; [done|unfold alen in Hlen; lia]).
  unfold tr_pipeline_control_wire_data_route. destruct (cm_type m =? TR_PIPELINE_CONTROL_DATA_OFFER) eqn:Et; [|done].
  bool_to_prop. rewrite (proj2 (fields_valid_legal m) Hl). cbn [negb orb].
  destruct (offered_route_legal m Hm Hl Et) as [Hr Hg].
  destruct (whole_preface_accepted (offered_route m) o Hr Hg) as [p' Hp].
  exists (offered_route m), (preface_bytes (offered_route m)), p', (route_checksum (offered_route m)).
  split; [reflexivity|]. split; [apply preface_encode_layout|exact Hp].
Qed.

Definition sample_offer : tr_pipeline_control_wire_message :=
  mk_control_message 1 TR_PIPELINE_CONTROL_DATA_OFFER 0 3 77 5 0 2 9 0.

Lemma sample_offer_ok : control_message_ok sample_offer.
Proof. split; vm_compute; split; congruence. Qed.

Lemma sample_offer_legal : legal_control_message sample_offer.
Proof. apply fields_valid_legal. reflexivity. Qed.

Lemma control_message_canonical_witness :
  tr_pipeline_control_wire_decode (Some (control_bytes sample_offer)) 48 (Some sample_offer) = (TR_OK, Some sample_offer).
Proof.
  destruct (control_message_canonical sample_offer [] sample_offer sample_offer_ok) as [[(_ & raw & He & _ & Hd)|[Hn _]] _].
  - rewrite control_encode_bytes in He by exact sample_offer_legal. injection He as <-. exact Hd.
  - destruct (Hn sample_offer_legal).
Defined.

Lemma control_offer_opens_route_witness :
  ∃ route, tr_pipeline_control_wire_data_route (Some sample_offer) (Some zero_preface) = (TR_OK, Some route) ∧
    pf_member_generation route = 9.
Proof.
  assert (bytes_ok (control_bytes sample_offer)) as Hb.
  { unfold control_bytes. assert (bytes_ok tr_pipeline_control_wire_magic) by (repeat constructor; unfold u8_ok; lia).
    auto 14 with trpc. }
  assert (tr_pipeline_control_wire_decode (Some (control_bytes sample_offer)) 48 (Some sample_offer) =
    (TR_OK, Some sample_offer)) as Hd by (vm_compute; reflexivity).
  destruct (control_offer_opens_route (control_bytes sample_offer) sample_offer sample_offer zero_preface zero_preface []
    Hb eq_refl Hd) as (route & raw & p' & crc & H & _).
  exists route. split; [exact H|]. injection H as <-. reflexivity.
Defined.
