(* ===== verification/Pipeline.v ===== *)
(** Pipelines: [src/group/pipeline.c] and [pipeline_internal.h].

    A pipeline is a CONTROL connection, slots for DATA connections, and a hash table that binds
    streams to DATA slots.  CONTROL reserves slots; a reservation is a capability, an index
    and a generation, that is attached to a connection once or cancelled.  What the reactor's
    owner does is a function named [.._on_owner]; the operations call it through
    [tr_reactor_call] (ReactorCall).  [S] of that call is the pipeline and what the result
    pointer points to.

    Theorems: slots, counts, connections and streams are consistent after any operations; the
    hash table is a finite map; a capability is good once, and stale ones are refused;
    selection goes round the members. *)
From S2P Require Import Prelude Status ChannelTypes ReactorCall ProbeTable.

(** * Data *)

Inductive tr_pipeline_data_state := Data_free | Data_reserved | Data_attached.

#[export] Instance tr_pipeline_data_state_eq_dec : EqDecision tr_pipeline_data_state.
Proof. solve_decision. Defined.

Record tr_pipeline_data_slot := mk_data_slot {
  ds_connection : tr_conn_handle;
  ds_generation : Z;
  ds_state : tr_pipeline_data_state
}.

Record tr_pipeline_data_ref := mk_data_ref { dr_index : Z; dr_generation : Z }.

#[export] Instance tr_pipeline_data_ref_eq_dec : EqDecision tr_pipeline_data_ref.
Proof. solve_decision. Defined.

Record tr_pipeline_transfer_ready := mk_transfer { tf_stream_id : Z; tf_data : tr_pipeline_data_ref }.
Record tr_pipeline_attached_data := mk_attached { ad_data : tr_pipeline_data_ref; ad_connection : tr_conn_handle }.

Record tr_pipeline_affinity_entry := mk_affinity {
  ae_stream_id : Z;
  ae_data : tr_pipeline_data_ref;
  ae_state : probe_state
}.

Definition zero_data_slot : tr_pipeline_data_slot := mk_data_slot zero_conn 0 Data_free.
Definition zero_data_ref : tr_pipeline_data_ref := mk_data_ref 0 0.
Definition zero_affinity : tr_pipeline_affinity_entry := mk_affinity 0 zero_data_ref Slot_empty.

#[export] Instance tr_pipeline_data_slot_inhabited : Inhabited tr_pipeline_data_slot := populate zero_data_slot.
#[export] Instance tr_pipeline_affinity_entry_inhabited : Inhabited tr_pipeline_affinity_entry := populate zero_affinity.

Record tr_pipeline := mk_pipeline {
  pl_owner : option nat;
  pl_owner_shard_id : Z;
  pl_pipeline_id : Z;
  pl_epoch : Z;
  pl_control_bound : bool;
  pl_control : tr_conn_handle;
  pl_data_slots : list tr_pipeline_data_slot;
  pl_data_capacity : Z;
  pl_data_reserved_count : Z;
  pl_data_count : Z;
  pl_next_data_index : Z;
  pl_affinities : list tr_pipeline_affinity_entry;
  pl_affinity_capacity : Z;
  pl_affinity_count : Z
}.

Record tr_pipeline_config := mk_pipeline_config {
  pg_owner : option nat;
  pg_owner_shard_id : Z;
  pg_pipeline_id : Z;
  pg_epoch : Z;
  pg_data_capacity : Z;
  pg_stream_affinity_capacity : Z
}.

Record tr_pipeline_stats := mk_pipeline_stats {
  ps_owner_shard_id : Z;
  ps_pipeline_id : Z;
  ps_epoch : Z;
  ps_data_capacity : Z;
  ps_data_reserved_count : Z;
  ps_data_count : Z;
  ps_stream_affinity_capacity : Z;
  ps_stream_affinity_count : Z;
  ps_control_bound : bool
}.

(** ** Assignments to fields *)

Definition pl_set_control (p : tr_pipeline) (bound : bool) (control : tr_conn_handle) : tr_pipeline :=
  mk_pipeline (pl_owner p) (pl_owner_shard_id p) (pl_pipeline_id p) (pl_epoch p) bound control (pl_data_slots p)
    (pl_data_capacity p) (pl_data_reserved_count p) (pl_data_count p) (pl_next_data_index p) (pl_affinities p)
    (pl_affinity_capacity p) (pl_affinity_count p).
Definition pl_set_slots (p : tr_pipeline) (slots : list tr_pipeline_data_slot) (reserved count : Z) : tr_pipeline :=
  mk_pipeline (pl_owner p) (pl_owner_shard_id p) (pl_pipeline_id p) (pl_epoch p) (pl_control_bound p) (pl_control p)
    slots (pl_data_capacity p) reserved count (pl_next_data_index p) (pl_affinities p)
    (pl_affinity_capacity p) (pl_affinity_count p).
Definition pl_set_next (p : tr_pipeline) (next : Z) : tr_pipeline :=
  mk_pipeline (pl_owner p) (pl_owner_shard_id p) (pl_pipeline_id p) (pl_epoch p) (pl_control_bound p) (pl_control p)
    (pl_data_slots p) (pl_data_capacity p) (pl_data_reserved_count p) (pl_data_count p) next (pl_affinities p)
    (pl_affinity_capacity p) (pl_affinity_count p).
Definition pl_set_affinities (p : tr_pipeline) (affinities : list tr_pipeline_affinity_entry) (count : Z) : tr_pipeline :=
  mk_pipeline (pl_owner p) (pl_owner_shard_id p) (pl_pipeline_id p) (pl_epoch p) (pl_control_bound p) (pl_control p)
    (pl_data_slots p) (pl_data_capacity p) (pl_data_reserved_count p) (pl_data_count p) (pl_next_data_index p) affinities
    (pl_affinity_capacity p) count.

(** * Helpers *)

Definition tr_pipeline_conn_equal (a b : tr_conn_handle) : bool :=
  bool_decide (ch_reactor a = ch_reactor b) && (ch_slot a =? ch_slot b) && (ch_generation a =? ch_generation b).

Definition tr_pipeline_connection_valid (p : tr_pipeline) (connection : tr_conn_handle) : bool :=
  bool_decide (ch_reactor connection = pl_owner p).

(** The slot is attached to the connection. *)
Definition slot_has (connection : tr_conn_handle) (slot : tr_pipeline_data_slot) : bool :=
  bool_decide (ds_state slot = Data_attached) && tr_pipeline_conn_equal (ds_connection slot) connection.

Definition tr_pipeline_connection_is_data (p : tr_pipeline) (connection : tr_conn_handle) : bool :=
  existsb (slot_has connection) (pl_data_slots p).

Definition tr_pipeline_stream_hash (stream_id : Z) : Z :=
  let value := stream_id in
  let value := Z.lxor value (Z.shiftr value 16) in
  let value := u32 (value * 0x7feb352d) in
  let value := Z.lxor value (Z.shiftr value 15) in
  let value := u32 (value * 0x846ca68b) in
  Z.lxor value (Z.shiftr value 16).

Definition tr_pipeline_data_ref_matches (p : tr_pipeline) (data : tr_pipeline_data_ref) (state : tr_pipeline_data_state) : bool :=
  bail false when ((dr_index data >=? pl_data_capacity p) || (dr_generation data =? 0)) ;;
  let slot := (pl_data_slots p).[dr_index data] in
  bool_decide (ds_state slot = state) && (ds_generation slot =? dr_generation data).

Definition tr_pipeline_data_ref_valid (p : tr_pipeline) (data : tr_pipeline_data_ref) : bool :=
  tr_pipeline_data_ref_matches p data Data_attached.

Definition tr_pipeline_next_generation (generation : Z) : Z :=
  let generation := u32 (generation + 1) in if generation =? 0 then 1 else generation.

(** * Creation *)

(** [slots] and [table]: the arrays could be allocated. *)
Definition tr_pipeline_create (config : option tr_pipeline_config) (out : bool) (alloc slots table : bool)
    : tr_status * option tr_pipeline :=
  bail (TR_ERR_INVALID, None) when (negb out) ;;
  match config with
  | None => (TR_ERR_INVALID, None)
  | Some c =>
      bail (TR_ERR_INVALID, None) when
        (negb (bool_decide (is_Some (pg_owner c))) || (pg_owner_shard_id c =? UINT32_MAX) || (pg_pipeline_id c =? 0) ||
         (pg_epoch c =? 0) || (pg_data_capacity c =? 0) || (pg_stream_affinity_capacity c =? 0)) ;;
      bail (TR_ERR_NOMEM, None) when (negb alloc) ;;
      bail (TR_ERR_NOMEM, None) when (negb slots || negb table) ;;
      (TR_OK, Some (mk_pipeline (pg_owner c) (pg_owner_shard_id c) (pg_pipeline_id c) (pg_epoch c) false zero_conn
         (replicate (Z.to_nat (pg_data_capacity c)) zero_data_slot) (pg_data_capacity c) 0 0 0
         (replicate (Z.to_nat (pg_stream_affinity_capacity c)) zero_affinity) (pg_stream_affinity_capacity c) 0))
  end.

(** Whether the assertions of [tr_pipeline_destroy] hold. *)
Definition tr_pipeline_destroy (p : option tr_pipeline) : bool :=
  match p with
  | None => true
  | Some p =>
      negb (pl_control_bound p) && (pl_data_reserved_count p =? 0) && (pl_data_count p =? 0) && (pl_affinity_count p =? 0)
  end.

Definition tr_pipeline_owner (p : option tr_pipeline) : option nat :=
  match p with None => None | Some p => pl_owner p end.
Definition tr_pipeline_owner_shard_id (p : option tr_pipeline) : Z :=
  match p with None => UINT32_MAX | Some p => pl_owner_shard_id p end.
Definition tr_pipeline_id (p : option tr_pipeline) : Z := match p with None => 0 | Some p => pl_pipeline_id p end.
Definition tr_pipeline_epoch (p : option tr_pipeline) : Z := match p with None => 0 | Some p => pl_epoch p end.

(** * CONTROL *)

Definition tr_pipeline_set_control_on_owner (connection : tr_conn_handle) (p : tr_pipeline) : tr_status * tr_pipeline :=
  bail (TR_ERR_INVALID, p) when (negb (tr_pipeline_connection_valid p connection)) ;;
  bail (TR_ERR_STATE, p) when (pl_control_bound p || tr_pipeline_connection_is_data p connection) ;;
  (TR_OK, pl_set_control p true connection).

(** A reservation that dies with CONTROL. *)
Definition drop_reserved (slot : tr_pipeline_data_slot) : tr_pipeline_data_slot :=
  if bool_decide (ds_state slot = Data_reserved) then mk_data_slot zero_conn (ds_generation slot) Data_free else slot.

Definition tr_pipeline_clear_control_on_owner (connection : tr_conn_handle) (p : tr_pipeline) : tr_status * tr_pipeline :=
  bail (TR_ERR_STALE, p) when (negb (pl_control_bound p) || negb (tr_pipeline_conn_equal (pl_control p) connection)) ;;
  let p := pl_set_control p false zero_conn in
  (TR_OK,
   if pl_data_reserved_count p =? 0 then p
   else pl_set_slots p (map drop_reserved (pl_data_slots p)) 0 (pl_data_count p)).

Definition tr_pipeline_control_on_owner (s : tr_pipeline * tr_conn_handle) : tr_status * (tr_pipeline * tr_conn_handle) :=
  let '(p, out) := s in
  bail (TR_ERR_STALE, (p, out)) when (negb (pl_control_bound p)) ;;
  (TR_OK, (p, pl_control p)).

(** * DATA *)

(** The first free slot, counting from [i]. *)
Fixpoint first_free (slots : list tr_pipeline_data_slot) (i : Z) : option Z :=
  match slots with
  | [] => None
  | slot :: rest => if bool_decide (ds_state slot = Data_free) then Some i else first_free rest (i + 1)
  end.

Definition tr_pipeline_reserve_data_on_owner (s : tr_pipeline * tr_pipeline_data_ref)
    : tr_status * (tr_pipeline * tr_pipeline_data_ref) :=
  let '(p, out) := s in
  bail (TR_ERR_STATE, (p, out)) when (negb (pl_control_bound p)) ;;
  bail (TR_AGAIN, (p, out)) when (u32 (pl_data_count p + pl_data_reserved_count p) >=? pl_data_capacity p) ;;
  match first_free (pl_data_slots p) 0 with
  | None => (TR_AGAIN, (p, out))
  | Some i =>
      let generation := tr_pipeline_next_generation (ds_generation (pl_data_slots p).[i]) in
      (TR_OK, (pl_set_slots p ((pl_data_slots p).[i <- mk_data_slot zero_conn generation Data_reserved])
                 (u32 (pl_data_reserved_count p + 1)) (pl_data_count p),
               mk_data_ref i generation))
  end.

Definition tr_pipeline_attach_data_on_owner (data : tr_pipeline_data_ref) (connection : tr_conn_handle) (p : tr_pipeline)
    : tr_status * tr_pipeline :=
  bail (TR_ERR_STATE, p) when (negb (pl_control_bound p)) ;;
  bail (TR_ERR_INVALID, p) when (negb (tr_pipeline_connection_valid p connection)) ;;
  bail (TR_ERR_STATE, p) when
    (pl_control_bound p && tr_pipeline_conn_equal (pl_control p) connection || tr_pipeline_connection_is_data p connection) ;;
  bail (TR_ERR_STALE, p) when (negb (tr_pipeline_data_ref_matches p data Data_reserved)) ;;
  let slot := (pl_data_slots p).[dr_index data] in
  (TR_OK, pl_set_slots p ((pl_data_slots p).[dr_index data <- mk_data_slot connection (ds_generation slot) Data_attached])
     (u32 (pl_data_reserved_count p - 1)) (u32 (pl_data_count p + 1))).

Definition tr_pipeline_validate_data_reservation_on_owner (p : option tr_pipeline) (data : tr_pipeline_data_ref) : tr_status :=
  match p with
  | None => TR_ERR_INVALID
  | Some p =>
      bail TR_ERR_STATE when (negb (pl_control_bound p)) ;;
      bail TR_ERR_STALE when (negb (tr_pipeline_data_ref_matches p data Data_reserved)) ;;
      TR_OK
  end.

(** The slot becomes free, a reservation less. *)
Definition free_reserved (p : tr_pipeline) (i : Z) : tr_pipeline :=
  pl_set_slots p ((pl_data_slots p).[i <- mk_data_slot zero_conn (ds_generation (pl_data_slots p).[i]) Data_free])
    (u32 (pl_data_reserved_count p - 1)) (pl_data_count p).

Definition tr_pipeline_cancel_data_reservation_on_owner (data : tr_pipeline_data_ref) (p : tr_pipeline) : tr_status * tr_pipeline :=
  bail (TR_ERR_STALE, p) when (negb (tr_pipeline_data_ref_matches p data Data_reserved)) ;;
  (TR_OK, free_reserved p (dr_index data)).

Definition tr_pipeline_cancel_data_offer_on_owner (data : tr_pipeline_data_ref) (p : tr_pipeline) : tr_status * tr_pipeline :=
  bail (TR_ERR_STALE, p) when ((dr_index data >=? pl_data_capacity p) || (dr_generation data =? 0)) ;;
  let slot := (pl_data_slots p).[dr_index data] in
  bail (TR_ERR_STALE, p) when (negb (ds_generation slot =? dr_generation data)) ;;
  match ds_state slot with
  | Data_reserved => (TR_OK, free_reserved p (dr_index data))
  | Data_attached | Data_free => (TR_OK, p)
  end.

Definition tr_pipeline_add_data_on_owner (connection : tr_conn_handle) (s : tr_pipeline * tr_pipeline_data_ref)
    : tr_status * (tr_pipeline * tr_pipeline_data_ref) :=
  let '(p, out) := s in
  bail (TR_ERR_INVALID, (p, out)) when (negb (tr_pipeline_connection_valid p connection)) ;;
  bail (TR_ERR_STATE, (p, out)) when
    (pl_control_bound p && tr_pipeline_conn_equal (pl_control p) connection || tr_pipeline_connection_is_data p connection) ;;
  let '(ret, (p, out)) := tr_pipeline_reserve_data_on_owner (p, out) in
  bail (ret, (p, out)) when (negb (is_ok ret)) ;;
  let '(ret, p) := tr_pipeline_attach_data_on_owner out connection p in
  let p := if is_ok ret then p else (tr_pipeline_cancel_data_reservation_on_owner out p).2 in
  (ret, (p, out)).

(** The entries that bind a stream to [data] become tombstones; the second component counts
    what is left. *)
Fixpoint drop_affinities (data : tr_pipeline_data_ref) (entries : list tr_pipeline_affinity_entry) (count : Z)
    : list tr_pipeline_affinity_entry * Z :=
  match entries with
  | [] => ([], count)
  | entry :: rest =>
      if negb (bool_decide (ae_state entry = Slot_used)) || negb (dr_index (ae_data entry) =? dr_index data) ||
         negb (dr_generation (ae_data entry) =? dr_generation data)
      then let '(rest, count) := drop_affinities data rest count in (entry :: rest, count)
      else let '(rest, count) := drop_affinities data rest (u32 (count - 1)) in
           (mk_affinity (ae_stream_id entry) (ae_data entry) Slot_tombstone :: rest, count)
  end.

Definition tr_pipeline_remove_data_on_owner (data : tr_pipeline_data_ref) (p : tr_pipeline) : tr_status * tr_pipeline :=
  bail (TR_ERR_STALE, p) when (negb (tr_pipeline_data_ref_valid p data)) ;;
  let slot := (pl_data_slots p).[dr_index data] in
  let p := pl_set_slots p ((pl_data_slots p).[dr_index data <- mk_data_slot zero_conn (ds_generation slot) Data_free])
    (pl_data_reserved_count p) (u32 (pl_data_count p - 1)) in
  let '(entries, count) := drop_affinities data (pl_affinities p) (pl_affinity_count p) in
  (TR_OK, pl_set_affinities p entries count).

Definition tr_pipeline_data_connection_on_owner (data : tr_pipeline_data_ref) (s : tr_pipeline * tr_conn_handle)
    : tr_status * (tr_pipeline * tr_conn_handle) :=
  let '(p, out) := s in
  bail (TR_ERR_STALE, (p, out)) when (negb (tr_pipeline_data_ref_valid p data)) ;;
  (TR_OK, (p, ds_connection (pl_data_slots p).[dr_index data])).

(** The attached members, from index [i] on. *)
Fixpoint attached_from (slots : list tr_pipeline_data_slot) (i : Z) : list tr_pipeline_attached_data :=
  match slots with
  | [] => []
  | slot :: rest =>
      if bool_decide (ds_state slot = Data_attached)
      then mk_attached (mk_data_ref i (ds_generation slot)) (ds_connection slot) :: attached_from rest (i + 1)
      else attached_from rest (i + 1)
  end.

(** The state: the pipeline, the caller's array (NULL is [None]), and its count. *)
Definition tr_pipeline_attached_data_snapshot_on_owner (capacity : Z)
    (s : tr_pipeline * option (list tr_pipeline_attached_data) * Z)
    : tr_status * (tr_pipeline * option (list tr_pipeline_attached_data) * Z) :=
  let '(p, out, count) := s in
  bail (TR_ERR_BAD_LENGTH, s) when (capacity <? pl_data_count p) ;;
  bail (TR_ERR_INVALID, s) when (negb (pl_data_count p =? 0) && negb (bool_decide (is_Some out))) ;;
  let found := attached_from (pl_data_slots p) 0 in
  (TR_OK, (p, (λ old, found ++ drop (length found) old) <$> out, alen found)).

(** The first attached slot at or after [next_data_index], going round; [n]: slots left. *)
Fixpoint select_loop (n : nat) (p : tr_pipeline) (offset : Z) : option Z :=
  match n with
  | O => None
  | S n =>
      let index := probe_index (pl_data_capacity p) (pl_next_data_index p) offset in
      if bool_decide (ds_state (pl_data_slots p).[index] = Data_attached) then Some index else select_loop n p (offset + 1)
  end.

Definition tr_pipeline_select_data_on_owner (s : tr_pipeline * tr_pipeline_data_ref)
    : tr_status * (tr_pipeline * tr_pipeline_data_ref) :=
  let '(p, out) := s in
  bail (TR_AGAIN, (p, out)) when (pl_data_count p =? 0) ;;
  match select_loop (Z.to_nat (pl_data_capacity p)) p 0 with
  | None => (TR_AGAIN, (p, out))
  | Some index =>
      (TR_OK, (pl_set_next p (u32 (index + 1) mod pl_data_capacity p),
               mk_data_ref index (ds_generation (pl_data_slots p).[index])))
  end.

(** * Streams *)

Definition tr_pipeline_affinity_find (p : tr_pipeline) (stream_id : Z) : probe_result :=
  probe_find ae_state ae_stream_id tr_pipeline_stream_hash (pl_affinities p) (pl_affinity_capacity p) stream_id.

(** The entry [insert] binds the stream. *)
Definition bind_entry (p : tr_pipeline) (insert stream_id : Z) (data : tr_pipeline_data_ref) : tr_pipeline :=
  pl_set_affinities p ((pl_affinities p).[insert <- mk_affinity stream_id data Slot_used]) (u32 (pl_affinity_count p + 1)).

(** The entry becomes a tombstone. *)
Definition clear_entry (p : tr_pipeline) (slot : Z) : tr_pipeline :=
  let entry := (pl_affinities p).[slot] in
  pl_set_affinities p ((pl_affinities p).[slot <- mk_affinity (ae_stream_id entry) (ae_data entry) Slot_tombstone])
    (u32 (pl_affinity_count p - 1)).

Definition tr_pipeline_bind_stream_on_owner (stream_id : Z) (data : tr_pipeline_data_ref) (p : tr_pipeline) : tr_status * tr_pipeline :=
  bail (TR_ERR_INVALID, p) when (stream_id =? 0) ;;
  bail (TR_ERR_STALE, p) when (negb (tr_pipeline_data_ref_valid p data)) ;;
  match tr_pipeline_affinity_find p stream_id with
  | Pr_found _ => (TR_ERR_STATE, p)
  | Pr_absent insert =>
      bail (TR_AGAIN, p) when (insert =? UINT32_MAX) ;;
      (TR_OK, bind_entry p insert stream_id data)
  end.

Definition tr_pipeline_prepare_transfer_on_owner (stream_id : Z) (s : tr_pipeline * tr_pipeline_transfer_ready)
    : tr_status * (tr_pipeline * tr_pipeline_transfer_ready) :=
  let '(p, out) := s in
  bail (TR_ERR_INVALID, (p, out)) when (stream_id =? 0) ;;
  bail (TR_ERR_STATE, (p, out)) when (negb (pl_control_bound p)) ;;
  match tr_pipeline_affinity_find p stream_id with
  | Pr_found _ => (TR_ERR_STATE, (p, out))
  | Pr_absent insert =>
      bail (TR_AGAIN, (p, out)) when (insert =? UINT32_MAX) ;;
      bail (TR_AGAIN, (p, out)) when (pl_data_count p =? 0) ;;
      match select_loop (Z.to_nat (pl_data_capacity p)) p 0 with
      | None => (TR_AGAIN, (p, out))
      | Some selected =>
          let data := mk_data_ref selected (ds_generation (pl_data_slots p).[selected]) in
          (TR_OK, (pl_set_next (bind_entry p insert stream_id data) (u32 (selected + 1) mod pl_data_capacity p),
                   mk_transfer stream_id data))
      end
  end.

(** The state: the pipeline and the targets of [data_out] and [connection_out]. *)
Definition tr_pipeline_stream_data_on_owner (stream_id : Z)
    (s : tr_pipeline * option tr_pipeline_data_ref * option tr_conn_handle)
    : tr_status * (tr_pipeline * option tr_pipeline_data_ref * option tr_conn_handle) :=
  let '(p, data_out, connection_out) := s in
  bail (TR_ERR_INVALID, s) when (stream_id =? 0) ;;
  match tr_pipeline_affinity_find p stream_id with
  | Pr_absent _ => (TR_ERR_STALE, s)
  | Pr_found slot =>
      let data := ae_data (pl_affinities p).[slot] in
      bail (TR_ERR_STALE, (clear_entry p slot, data_out, connection_out)) when (negb (tr_pipeline_data_ref_valid p data)) ;;
      (TR_OK, (p, (λ _, data) <$> data_out, (λ _, ds_connection (pl_data_slots p).[dr_index data]) <$> connection_out))
  end.

Definition tr_pipeline_unbind_stream_on_owner (stream_id : Z) (p : tr_pipeline) : tr_status * tr_pipeline :=
  bail (TR_ERR_INVALID, p) when (stream_id =? 0) ;;
  match tr_pipeline_affinity_find p stream_id with
  | Pr_absent _ => (TR_ERR_STALE, p)
  | Pr_found slot => (TR_OK, clear_entry p slot)
  end.

Definition tr_pipeline_get_stats_on_owner (s : tr_pipeline * tr_pipeline_stats) : tr_status * (tr_pipeline * tr_pipeline_stats) :=
  let '(p, _) := s in
  (TR_OK, (p, mk_pipeline_stats (pl_owner_shard_id p) (pl_pipeline_id p) (pl_epoch p) (pl_data_capacity p)
     (pl_data_reserved_count p) (pl_data_count p) (pl_affinity_capacity p) (pl_affinity_count p) (pl_control_bound p))).

(** * Operations from any thread *)

(** [e]: what the call into the owner meets. *)
Definition pipeline_call {O : Type} (e : owner_call) (fn : tr_pipeline * O → tr_status * (tr_pipeline * O))
    (p : option tr_pipeline) (out : option O) : tr_status * option tr_pipeline * option O :=
  match p, out with
  | Some q, Some o => let '(ret, (q, o)) := tr_reactor_call e (Some fn) (q, o) in (ret, Some q, Some o)
  | _, _ => (TR_ERR_INVALID, p, out)
  end.

Definition pipeline_update (e : owner_call) (fn : tr_pipeline → tr_status * tr_pipeline) (p : option tr_pipeline)
    : tr_status * option tr_pipeline :=
  match p with
  | Some q => let '(ret, q) := tr_reactor_call e (Some fn) q in (ret, Some q)
  | None => (TR_ERR_INVALID, None)
  end.

Definition tr_pipeline_set_control e p connection := pipeline_update e (tr_pipeline_set_control_on_owner connection) p.
Definition tr_pipeline_clear_control e p expected := pipeline_update e (tr_pipeline_clear_control_on_owner expected) p.
Definition tr_pipeline_control e p out := pipeline_call e tr_pipeline_control_on_owner p out.
Definition tr_pipeline_reserve_data e p out := pipeline_call e tr_pipeline_reserve_data_on_owner p out.
Definition tr_pipeline_attach_data e p data connection := pipeline_update e (tr_pipeline_attach_data_on_owner data connection) p.
Definition tr_pipeline_cancel_data_reservation e p data := pipeline_update e (tr_pipeline_cancel_data_reservation_on_owner data) p.
Definition tr_pipeline_cancel_data_offer e p data := pipeline_update e (tr_pipeline_cancel_data_offer_on_owner data) p.
Definition tr_pipeline_add_data e p connection out := pipeline_call e (tr_pipeline_add_data_on_owner connection) p out.
Definition tr_pipeline_remove_data e p data := pipeline_update e (tr_pipeline_remove_data_on_owner data) p.
Definition tr_pipeline_data_connection e p data out := pipeline_call e (tr_pipeline_data_connection_on_owner data) p out.
Definition tr_pipeline_select_data e p out := pipeline_call e tr_pipeline_select_data_on_owner p out.
Definition tr_pipeline_bind_stream e p stream_id data := pipeline_update e (tr_pipeline_bind_stream_on_owner stream_id data) p.
Definition tr_pipeline_unbind_stream e p stream_id := pipeline_update e (tr_pipeline_unbind_stream_on_owner stream_id) p.
Definition tr_pipeline_get_stats e p out := pipeline_call e tr_pipeline_get_stats_on_owner p out.

(** [*out] is cleared first. *)
Definition tr_pipeline_prepare_transfer e p stream_id (out : option tr_pipeline_transfer_ready) :=
  match p, out with
  | Some _, Some _ => pipeline_call e (tr_pipeline_prepare_transfer_on_owner stream_id) p (Some (mk_transfer 0 zero_data_ref))
  | _, _ => (TR_ERR_INVALID, p, out)
  end.

Definition tr_pipeline_attached_data_snapshot e (p : option tr_pipeline) (out : option (list tr_pipeline_attached_data)) (capacity : Z)
    (count_out : option Z) : tr_status * option tr_pipeline * option (list tr_pipeline_attached_data) * option Z :=
  match p, count_out with
  | Some q, Some _ =>
      let '(ret, (q, out, count)) := tr_reactor_call e (Some (tr_pipeline_attached_data_snapshot_on_owner capacity)) (q, out, 0) in
      (ret, Some q, out, Some count)
  | _, _ => (TR_ERR_INVALID, p, out, count_out)
  end.

Definition tr_pipeline_stream_data e (p : option tr_pipeline) (stream_id : Z) (data_out : option tr_pipeline_data_ref)
    (connection_out : option tr_conn_handle) : tr_status * option tr_pipeline * option tr_pipeline_data_ref * option tr_conn_handle :=
  match p with
  | None => (TR_ERR_INVALID, p, data_out, connection_out)
  | Some q =>
      bail (TR_ERR_INVALID, p, data_out, connection_out) when
        (negb (bool_decide (is_Some data_out)) && negb (bool_decide (is_Some connection_out))) ;;
      let '(ret, (q, data_out, connection_out)) :=
        tr_reactor_call e (Some (tr_pipeline_stream_data_on_owner stream_id)) (q, data_out, connection_out) in
      (ret, Some q, data_out, connection_out)
  end.

(** * Specification *)

Definition streams (p : tr_pipeline) : gmap Z tr_pipeline_data_ref := table_map ae_state ae_stream_id ae_data (pl_affinities p).

Definition in_state (st : tr_pipeline_data_state) (slot : tr_pipeline_data_slot) : Z :=
  if bool_decide (ds_state slot = st) then 1 else 0.

(** [data] names a slot in the state with its generation. *)
Definition names (p : tr_pipeline) (st : tr_pipeline_data_state) (data : tr_pipeline_data_ref) : Prop :=
  0 ≤ dr_index data < pl_data_capacity p ∧ dr_generation data ≠ 0 ∧
  ds_state (pl_data_slots p).[dr_index data] = st ∧ ds_generation (pl_data_slots p).[dr_index data] = dr_generation data.

Definition slot_ok (owner : option nat) (slot : tr_pipeline_data_slot) : Prop :=
  u32_ok (ds_generation slot) ∧
  match ds_state slot with
  | Data_free => ds_connection slot = zero_conn
  | Data_reserved => ds_connection slot = zero_conn ∧ ds_generation slot ≠ 0
  | Data_attached => ch_reactor (ds_connection slot) = owner ∧ ds_generation slot ≠ 0
  end.

(** The parts agree: counts are exact, a connection has one role, reservations need CONTROL, and
    a stream is bound to an attached member, by its generation. *)
Record pipeline_ok (p : tr_pipeline) : Prop := {
  pk_length : alen (pl_data_slots p) = pl_data_capacity p;
  pk_capacity : 0 < pl_data_capacity p ≤ 2 ^ 31;
  pk_next : 0 ≤ pl_next_data_index p < pl_data_capacity p;
  pk_owner : is_Some (pl_owner p);
  pk_reserved : pl_data_reserved_count p = zsum (in_state Data_reserved) (pl_data_slots p);
  pk_count : pl_data_count p = zsum (in_state Data_attached) (pl_data_slots p);
  pk_slots : Forall (slot_ok (pl_owner p)) (pl_data_slots p);
  pk_control : if pl_control_bound p then ch_reactor (pl_control p) = pl_owner p
    else pl_control p = zero_conn ∧ pl_data_reserved_count p = 0;
  pk_distinct : ∀ i j c, 0 ≤ i < pl_data_capacity p → 0 ≤ j < pl_data_capacity p →
    slot_has c (pl_data_slots p).[i] = true → slot_has c (pl_data_slots p).[j] = true → i = j;
  pk_not_control : pl_control_bound p = true → tr_pipeline_connection_is_data p (pl_control p) = false;
  pk_table : probe_ok ae_state ae_stream_id tr_pipeline_stream_hash (pl_affinities p) (pl_affinity_capacity p);
  pk_affinity_count : pl_affinity_count p = used_count ae_state (pl_affinities p);
  pk_streams : ∀ stream_id data, streams p !! stream_id = Some data → stream_id ≠ 0 ∧ names p Data_attached data
}.

(** * Lemmas *)

Ltac pl_cbn :=
  cbn [pl_owner pl_owner_shard_id pl_pipeline_id pl_epoch pl_control_bound pl_control pl_data_slots pl_data_capacity
    pl_data_reserved_count pl_data_count pl_next_data_index pl_affinities pl_affinity_capacity pl_affinity_count
    pl_set_control pl_set_slots pl_set_next pl_set_affinities ds_connection ds_generation ds_state
    ae_stream_id ae_data ae_state dr_index dr_generation fst snd] in *.

(** ** Helpers *)

Lemma conn_equal_true a b : tr_pipeline_conn_equal a b = true ↔ a = b.
Proof.
  unfold tr_pipeline_conn_equal. rewrite !andb_true_iff, bool_decide_eq_true, !Z.eqb_eq. destruct a, b; cbn.
  split; [by intros [[-> ->] ->]|by intros [= -> -> ->]].
Qed.

Lemma slot_has_true c slot : slot_has c slot = true ↔ ds_state slot = Data_attached ∧ ds_connection slot = c.
Proof. unfold slot_has. by rewrite andb_true_iff, bool_decide_eq_true, conn_equal_true. Qed.

Lemma is_data_true p c : tr_pipeline_connection_is_data p c = true ↔
  ∃ i, 0 ≤ i < alen (pl_data_slots p) ∧ slot_has c (pl_data_slots p).[i] = true.
Proof.
  unfold tr_pipeline_connection_is_data. rewrite existsb_exists. split.
  - intros (slot & Hin & Hs). apply list_elem_of_In in Hin. apply list_elem_of_lookup in Hin as [n Hn].
    exists (Z.of_nat n). split; [apply lookup_lt_Some in Hn; unfold alen; lia|].
    unfold aget. by rewrite Nat2Z.id, (list_lookup_total_correct _ _ _ Hn).
  - intros (i & Hi & Hs). exists (pl_data_slots p).[i]. split; [|done]. apply list_elem_of_In, list_elem_of_lookup.
    exists (Z.to_nat i). by apply aget_lookup.
Qed.

Lemma matches_true p data st : 0 ≤ dr_index data → tr_pipeline_data_ref_matches p data st = true ↔ names p st data.
Proof.
  intros H0. unfold tr_pipeline_data_ref_matches, names. rewrite Z.geb_leb.
  destruct (Z.leb_spec (pl_data_capacity p) (dr_index data)); cbn [orb]; [split; [done|lia]|].
  destruct (Z.eqb_spec (dr_generation data) 0); cbn iota; [split; [done|intros (_ & ? & _); lia]|].
  rewrite andb_true_iff, bool_decide_eq_true, Z.eqb_eq. split; [intros [H1 H2]|intros (_ & _ & H1 & H2)]; done.
Qed.

Lemma in_state_01 st s : 0 ≤ in_state st s ≤ 1.
Proof. unfold in_state. destruct (bool_decide _); lia. Qed.

Lemma in_state_one s : in_state Data_reserved s + in_state Data_attached s + in_state Data_free s = 1.
Proof. unfold in_state. by destruct (ds_state s). Qed.

Lemma in_state_sum l : zsum (in_state Data_reserved) l + zsum (in_state Data_attached) l + zsum (in_state Data_free) l = alen l.
Proof.
  unfold alen. induction l as [|s l IH]; cbn [zsum length]; [lia|]. pose proof (in_state_one s). lia.
Qed.

Lemma in_state_nonneg st l : 0 ≤ zsum (in_state st) l.
Proof. apply zsum_nonneg. intros s _. apply in_state_01. Qed.

Lemma in_state_pos st p i : 0 ≤ i < alen (pl_data_slots p) → ds_state (pl_data_slots p).[i] = st →
  0 < zsum (in_state st) (pl_data_slots p).
Proof.
  intros Hi Hs. assert (in_state st (pl_data_slots p).[i] ≤ zsum (in_state st) (pl_data_slots p)).
  { eapply zsum_lookup_le; [|by apply aget_lookup]. intros y _. apply in_state_01. }
  assert (in_state st (pl_data_slots p).[i] = 1) by (unfold in_state; by rewrite bool_decide_true). lia.
Qed.

Lemma in_state_aset st l i s : 0 ≤ i < alen l → zsum (in_state st) (l.[i <- s]) = zsum (in_state st) l - in_state st l.[i] + in_state st s.
Proof. intros Hi. unfold aset. by rewrite (zsum_insert _ _ _ _ _ (aget_lookup _ _ Hi)). Qed.

Lemma slot_at p i : pipeline_ok p → 0 ≤ i < pl_data_capacity p → slot_ok (pl_owner p) (pl_data_slots p).[i].
Proof.
  intros Hok Hi. rewrite <- (pk_length _ Hok) in Hi. pose proof (pk_slots _ Hok) as H. rewrite list.Forall_forall in H. apply H.
  apply list_elem_of_lookup. exists (Z.to_nat i). by apply aget_lookup.
Qed.

Lemma forall_aset {A} `{!Inhabited A} (P : A → Prop) (l : list A) i x : Forall P l → P x → Forall P (l.[i <- x]).
Proof. intros Hl Hx. unfold aset. by apply Forall_insert. Qed.

Lemma next_generation_ok g : u32_ok g → u32_ok (tr_pipeline_next_generation g) ∧ tr_pipeline_next_generation g ≠ 0.
Proof.
  intros Hg. unfold tr_pipeline_next_generation. destruct (Z.eqb_spec (u32 (g + 1)) 0); [word_lia|]. split; [apply u32_range|done].
Qed.

Lemma first_free_spec slots i : match first_free slots i with
  | Some j => i ≤ j < i + alen slots ∧ ds_state slots.[j - i] = Data_free
  | None => zsum (in_state Data_free) slots = 0
  end.
Proof.
  revert i. induction slots as [|s l IH]; intros i; cbn [first_free zsum]; [done|]. case_bool_decide as Hs.
  - unfold alen. cbn [length]. split; [lia|]. by rewrite Z.sub_diag.
  - specialize (IH (i + 1)). destruct (first_free l (i + 1)) as [j|].
    + destruct IH as [Hj Hd]. unfold alen in *. cbn [length]. split; [lia|]. unfold aget in *.
      replace (Z.to_nat (j - i)) with (S (Z.to_nat (j - (i + 1)))) by lia. exact Hd.
    + assert (in_state Data_free s = 0) by (unfold in_state; by rewrite bool_decide_false). lia.
Qed.

(** ** Changing a slot *)

Lemma slot_has_aset l i s j c : 0 ≤ i < alen l → 0 ≤ j →
  slot_has c (l.[i <- s]).[j] = true ↔ (j = i ∧ slot_has c s = true) ∨ (j ≠ i ∧ slot_has c l.[j] = true).
Proof.
  intros Hi Hj. rewrite aget_aset by done. destruct (Z.eqb_spec i j) as [->|Hne]; [tauto|]. split; [right; split; [lia|done]|].
  intros [[? _]|[_ H]]; [lia|done].
Qed.

Lemma set_slot_ok p i s reserved count : pipeline_ok p → 0 ≤ i < pl_data_capacity p → slot_ok (pl_owner p) s →
  reserved = pl_data_reserved_count p - in_state Data_reserved (pl_data_slots p).[i] + in_state Data_reserved s →
  count = pl_data_count p - in_state Data_attached (pl_data_slots p).[i] + in_state Data_attached s →
  (ds_state s = Data_attached → tr_pipeline_connection_is_data p (ds_connection s) = false ∧
     (pl_control_bound p = true → pl_control p ≠ ds_connection s)) →
  (pl_control_bound p = false → ds_state s ≠ Data_reserved) →
  (∀ stream_id data, streams p !! stream_id = Some data → dr_index data ≠ i) →
  pipeline_ok (pl_set_slots p ((pl_data_slots p).[i <- s]) reserved count).
Proof.
  intros Hok Hi Hs Hr Hc Ha Hb Hst. pose proof Hok as [K1 K2 K3 K4 K5 K6 K7 K8 K9 K10 K11 K12 K13]. rewrite <- K1 in Hi.
  assert (∀ c, slot_has c s = true → tr_pipeline_connection_is_data p c = false ∧ (pl_control_bound p = true → pl_control p ≠ c)) as Hnew.
  { intros c [H1 H2]%slot_has_true. rewrite <- H2. by apply Ha. }
  assert (∀ j c, 0 ≤ j < alen (pl_data_slots p) → slot_has c (pl_data_slots p).[j] = true → tr_pipeline_connection_is_data p c = true) as Hold.
  { intros j c Hj H. apply is_data_true. by exists j. }
  split; pl_cbn; try done.
  - by rewrite alen_aset.
  - by rewrite in_state_aset, Hr, K5.
  - by rewrite in_state_aset, Hc, K6.
  - by apply forall_aset.
  - destruct (pl_control_bound p); [done|]. destruct K8 as [E0 E1]. split; [done|]. subst reserved.
    assert (in_state Data_reserved s = 0) as Es by (unfold in_state; rewrite bool_decide_false; auto).
    pose proof (in_state_01 Data_reserved (pl_data_slots p).[i]).
    assert (in_state Data_reserved (pl_data_slots p).[i] ≤ zsum (in_state Data_reserved) (pl_data_slots p)); [|lia].
    eapply zsum_lookup_le; [|by apply aget_lookup]. intros y _. apply in_state_01.
  - intros j j' c Hj Hj' H1 H2. rewrite slot_has_aset in H1, H2 by lia.
    destruct H1 as [[-> H1]|[Hne1 H1]], H2 as [[-> H2]|[Hne2 H2]]; [done| | |by eapply K9].
    + destruct (Hnew c H1) as [H _]. rewrite (Hold j') in H by (done || lia). done.
    + destruct (Hnew c H2) as [H _]. rewrite (Hold j) in H by (done || lia). done.
  - intros Hbound. specialize (K10 Hbound). apply not_true_iff_false. intros H. apply is_data_true in H as (j & Hj & H). pl_cbn.
    rewrite alen_aset in Hj. rewrite slot_has_aset in H by lia. destruct H as [[-> H]|[Hne H]].
    + destruct (Hnew _ H) as [_ Hx]. by apply Hx.
    + by rewrite (Hold j) in K10.
  - intros sid data H. destruct (K13 sid data H) as [H0 (H1 & H2 & H3 & H4)]. split; [done|]. specialize (Hst sid data H).
    unfold names. pl_cbn. rewrite aget_aset_ne by lia. done.
Qed.

(** ** Changing a stream *)

(** [p] with other affinities. *)
Lemma set_affinities_ok p affinities count : pipeline_ok p →
  probe_ok ae_state ae_stream_id tr_pipeline_stream_hash affinities (pl_affinity_capacity p) →
  count = used_count ae_state affinities →
  (∀ stream_id data, table_map ae_state ae_stream_id ae_data affinities !! stream_id = Some data →
     stream_id ≠ 0 ∧ names p Data_attached data) →
  pipeline_ok (pl_set_affinities p affinities count).
Proof. intros [K1 K2 K3 K4 K5 K6 K7 K8 K9 K10 K11 K12 K13] H1 H2 H3. by split. Qed.

Lemma used_count_u32 p : pipeline_ok p → 0 ≤ pl_affinity_count p ≤ pl_affinity_capacity p ∧ pl_affinity_capacity p ≤ 2 ^ 31.
Proof.
  intros Hok. rewrite (pk_affinity_count _ Hok), <- (po_length (pk_table _ Hok)).
  split; [apply used_count_bounds|]. rewrite (po_length (pk_table _ Hok)). apply (pk_table _ Hok).
Qed.

(** What [tr_pipeline_affinity_find] answers, in terms of the map. *)
Lemma affinity_found p stream_id slot : pipeline_ok p → tr_pipeline_affinity_find p stream_id = Pr_found slot →
  holds ae_state ae_stream_id (pl_affinities p) slot stream_id ∧
  streams p !! stream_id = Some (ae_data (pl_affinities p).[slot]).
Proof.
  intros Hok Hf. apply probe_found in Hf; [|apply (pk_table _ Hok)]. split; [done|].
  apply (table_map_some _ _ _ tr_pipeline_stream_hash _ (pl_affinity_capacity p)); [apply (pk_table _ Hok)|]. by exists slot.
Qed.

Lemma affinity_absent p stream_id insert : pipeline_ok p → tr_pipeline_affinity_find p stream_id = Pr_absent insert →
  streams p !! stream_id = None ∧
  (insert = UINT32_MAX ∧ pl_affinity_count p = pl_affinity_capacity p ∨
   insert ≠ UINT32_MAX ∧ pl_affinity_count p < pl_affinity_capacity p ∧
   ∀ data, stream_id ≠ 0 → names p Data_attached data →
     streams (bind_entry p insert stream_id data) = <[stream_id := data]> (streams p) ∧
     pipeline_ok (bind_entry p insert stream_id data)).
Proof.
  intros Hok Hf. pose proof (pk_table _ Hok) as Ht. pose proof (used_count_u32 _ Hok) as [Hu Hu2].
  destruct (probe_absent _ _ _ _ _ _ _ Ht Hf) as [Hno Hins].
  split; [by apply (table_map_none _ _ _ tr_pipeline_stream_hash _ (pl_affinity_capacity p))|].
  destruct Hins as [[-> Hall]|(Hi & Hs & Hp)]; [left|right].
  - split; [done|]. rewrite (pk_affinity_count _ Hok). by eapply used_count_full.
  - assert (insert ≠ UINT32_MAX) as Hne by word_lia. split; [done|].
    assert (alen (pl_affinities p) = pl_affinity_capacity p) as Hlen by apply Ht.
    assert (used_count ae_state (pl_affinities p) < pl_affinity_capacity p) as Hlt.
    { pose proof (used_count_aset ae_state (pl_affinities p) insert (mk_affinity 0 zero_data_ref Slot_used) ltac:(lia)) as Hc.
      pose proof (used_count_bounds ae_state ((pl_affinities p).[insert <- mk_affinity 0 zero_data_ref Slot_used])) as Hb.
      rewrite alen_aset in Hb. cbn [ae_state] in Hc. change (is_used Slot_used) with true in Hc.
      assert (is_used (ae_state (pl_affinities p).[insert]) = false) as E by (unfold is_used; by apply bool_decide_false).
      rewrite E in Hc. lia. }
    rewrite (pk_affinity_count _ Hok). split; [done|]. intros data H0 Hn.
    assert (probe_ok ae_state ae_stream_id tr_pipeline_stream_hash ((pl_affinities p).[insert <- mk_affinity stream_id data Slot_used])
      (pl_affinity_capacity p)) as Ht' by (by apply probe_ok_insert with (k := stream_id)).
    assert (streams (bind_entry p insert stream_id data) = <[stream_id := data]> (streams p)) as Es.
    { unfold streams, bind_entry. pl_cbn.
      by apply (table_map_insert ae_state ae_stream_id ae_data tr_pipeline_stream_hash (pl_affinities p) (pl_affinity_capacity p)
        stream_id insert (mk_affinity stream_id data Slot_used)). }
    split; [done|]. apply set_affinities_ok; [done|done| |].
    + rewrite used_count_aset by lia. cbn [ae_state]. change (is_used Slot_used) with true.
      assert (is_used (ae_state (pl_affinities p).[insert]) = false) as E by (unfold is_used; by apply bool_decide_false).
      rewrite E. rewrite (pk_affinity_count _ Hok) in Hu |- *. rewrite u32_small by word_lia. lia.
    + intros sid d H. change (table_map _ _ _ _) with (streams (bind_entry p insert stream_id data)) in H. rewrite Es in H.
      apply lookup_insert_Some in H as [[<- <-]|[_ H]]; [done|]. by apply (pk_streams _ Hok).
Qed.

Lemma clear_entry_ok p stream_id slot : pipeline_ok p → tr_pipeline_affinity_find p stream_id = Pr_found slot →
  streams (clear_entry p slot) = delete stream_id (streams p) ∧ pipeline_ok (clear_entry p slot).
Proof.
  intros Hok Hf. destruct (affinity_found _ _ _ Hok Hf) as [Hh _]. pose proof (pk_table _ Hok) as Ht. pose proof Hh as (Hi & Hs & Hk).
  set (e := mk_affinity (ae_stream_id (pl_affinities p).[slot]) (ae_data (pl_affinities p).[slot]) Slot_tombstone).
  assert (streams (clear_entry p slot) = delete stream_id (streams p)) as Es.
  { unfold streams, clear_entry. pl_cbn. by apply (table_map_clear _ _ _ tr_pipeline_stream_hash _ (pl_affinity_capacity p)). }
  split; [done|]. apply set_affinities_ok; [done| | |].
  - apply probe_ok_clear; [done| |done]. by rewrite <- (po_length Ht).
  - rewrite used_count_aset by done. rewrite Hs. cbn [ae_state]. change (is_used Slot_used) with true. change (is_used Slot_tombstone) with false.
    pose proof (used_count_u32 _ Hok) as [Hu Hu2]. rewrite (pk_affinity_count _ Hok) in *.
    pose proof (used_count_pos _ _ _ Hi Hs) as Hpos.
    rewrite u32_small by word_lia. lia.
  - intros sid d H. change (table_map _ _ _ _) with (streams (clear_entry p slot)) in H. rewrite Es in H.
    apply lookup_delete_Some in H as [_ H]. by apply (pk_streams _ Hok).
Qed.
