(* ===== verification/PipelineSpec.v ===== *)
(** What a pipeline promises, and that [src/group/pipeline.c] keeps it.

    [group]: a pipeline as its users see it, finite maps of members and of streams.  A request
    is refused exactly when [refusal] says so and with that status, and otherwise does what
    [effect] says ([pipeline_refines_group]); whatever is requested, the parts agree
    ([pipeline_consistent]). *)
From S2P Require Import Prelude Status ChannelTypes ReactorCall ProbeTable Pipeline.

(** * Requests *)

Inductive pipeline_op :=
| Po_set_control (connection : tr_conn_handle)
| Po_clear_control (expected : tr_conn_handle)
| Po_reserve
| Po_attach (data : tr_pipeline_data_ref) (connection : tr_conn_handle)
| Po_cancel (data : tr_pipeline_data_ref)
| Po_cancel_offer (data : tr_pipeline_data_ref)
| Po_add (connection : tr_conn_handle)
| Po_remove (data : tr_pipeline_data_ref)
| Po_connection (data : tr_pipeline_data_ref)
| Po_select
| Po_bind (stream_id : Z) (data : tr_pipeline_data_ref)
| Po_prepare (stream_id : Z)
| Po_stream_data (stream_id : Z)
| Po_unbind (stream_id : Z).

Inductive pipeline_out :=
| Out_nothing
| Out_ref (data : tr_pipeline_data_ref)
| Out_connection (connection : tr_conn_handle)
| Out_ready (ready : tr_pipeline_transfer_ready)
| Out_stream (data : tr_pipeline_data_ref) (connection : tr_conn_handle).

(** The third component: what was written to the result, when the request succeeds. *)
Definition without_out (r : tr_status * option tr_pipeline) : tr_status * option tr_pipeline * pipeline_out := (r, Out_nothing).
Definition with_out {O} (f : O → pipeline_out) (r : tr_status * option tr_pipeline * option O)
    : tr_status * option tr_pipeline * pipeline_out :=
  let '(ret, p, out) := r in (ret, p, match out with Some o => if is_ok ret then f o else Out_nothing | None => Out_nothing end).

(** A request from a thread whose calls into the owner meet [e]. *)
Definition pipeline_exec (e : owner_call) (op : pipeline_op) (p : option tr_pipeline) : tr_status * option tr_pipeline * pipeline_out :=
  match op with
  | Po_set_control connection => without_out (tr_pipeline_set_control e p connection)
  | Po_clear_control expected => without_out (tr_pipeline_clear_control e p expected)
  | Po_reserve => with_out Out_ref (tr_pipeline_reserve_data e p (Some zero_data_ref))
  | Po_attach data connection => without_out (tr_pipeline_attach_data e p data connection)
  | Po_cancel data => without_out (tr_pipeline_cancel_data_reservation e p data)
  | Po_cancel_offer data => without_out (tr_pipeline_cancel_data_offer e p data)
  | Po_add connection => with_out Out_ref (tr_pipeline_add_data e p connection (Some zero_data_ref))
  | Po_remove data => without_out (tr_pipeline_remove_data e p data)
  | Po_connection data => with_out Out_connection (tr_pipeline_data_connection e p data (Some zero_conn))
  | Po_select => with_out Out_ref (tr_pipeline_select_data e p (Some zero_data_ref))
  | Po_bind stream_id data => without_out (tr_pipeline_bind_stream e p stream_id data)
  | Po_prepare stream_id => with_out Out_ready (tr_pipeline_prepare_transfer e p stream_id (Some (mk_transfer 0 zero_data_ref)))
  | Po_stream_data stream_id =>
      let '(ret, p, data, connection) := tr_pipeline_stream_data e p stream_id (Some zero_data_ref) (Some zero_conn) in
      (ret, p, match data, connection with Some d, Some c => if is_ok ret then Out_stream d c else Out_nothing | _, _ => Out_nothing end)
  | Po_unbind stream_id => without_out (tr_pipeline_unbind_stream e p stream_id)
  end.

Fixpoint pipeline_execs (l : list (owner_call * pipeline_op)) (p : option tr_pipeline) : option tr_pipeline :=
  match l with
  | [] => p
  | (e, op) :: l => pipeline_execs l (pipeline_exec e op p).1.2
  end.

(** Indices are unsigned. *)
Definition op_ok (op : pipeline_op) : Prop :=
  match op with
  | Po_attach data _ | Po_cancel data | Po_cancel_offer data | Po_remove data | Po_connection data | Po_bind _ data => 0 ≤ dr_index data
  | _ => True
  end.

(** * The group *)

Inductive member := Reserved (generation : Z) | Attached (generation : Z) (connection : tr_conn_handle).

#[export] Instance member_eq_dec : EqDecision member.
Proof. solve_decision. Defined.

Definition member_connection (m : member) : option tr_conn_handle := match m with Attached _ c => Some c | Reserved _ => None end.

(** [gr_issued]: the last generation given out, per index. *)
Record group := mk_group {
  gr_owner : option nat;
  gr_capacity : Z;
  gr_stream_capacity : Z;
  gr_control : option tr_conn_handle;
  gr_members : gmap Z member;
  gr_issued : list Z;
  gr_streams : gmap Z tr_pipeline_data_ref
}.

Definition gr_set_control (g : group) (control : option tr_conn_handle) (members : gmap Z member) : group :=
  mk_group (gr_owner g) (gr_capacity g) (gr_stream_capacity g) control members (gr_issued g) (gr_streams g).
Definition gr_set_members (g : group) (members : gmap Z member) (issued : list Z) : group :=
  mk_group (gr_owner g) (gr_capacity g) (gr_stream_capacity g) (gr_control g) members issued (gr_streams g).
Definition gr_set_streams (g : group) (streams : gmap Z tr_pipeline_data_ref) : group :=
  mk_group (gr_owner g) (gr_capacity g) (gr_stream_capacity g) (gr_control g) (gr_members g) (gr_issued g) streams.

Definition connected (g : group) (c : tr_conn_handle) : bool :=
  bool_decide (map_Exists (λ _ m, member_connection m = Some c) (gr_members g)).
Definition in_use (g : group) (c : tr_conn_handle) : bool := bool_decide (gr_control g = Some c) || connected g c.
Definition reserved_as (g : group) (data : tr_pipeline_data_ref) : bool :=
  bool_decide (gr_members g !! dr_index data = Some (Reserved (dr_generation data))).
(** [data] is an attached member: its connection. *)
Definition attached_as (g : group) (data : tr_pipeline_data_ref) : option tr_conn_handle :=
  match gr_members g !! dr_index data with
  | Some (Attached generation c) => if generation =? dr_generation data then Some c else None
  | _ => None
  end.
Definition no_control (g : group) : bool := bool_decide (gr_control g = None).
Definition foreign (g : group) (c : tr_conn_handle) : bool := negb (bool_decide (ch_reactor c = gr_owner g)).
Definition full (g : group) : bool := gr_capacity g <=? Z.of_nat (size (gr_members g)).
Definition streams_full (g : group) : bool := gr_stream_capacity g <=? Z.of_nat (size (gr_streams g)).
Definition nobody (g : group) : bool := negb (bool_decide (map_Exists (λ _ m, is_Some (member_connection m)) (gr_members g))).
Definition bound (g : group) (stream_id : Z) : bool := bool_decide (is_Some (gr_streams g !! stream_id)).

(** The first reason that applies. *)
Fixpoint reason (l : list (bool * tr_status)) : option tr_status :=
  match l with [] => None | (b, r) :: l => if b then Some r else reason l end.

Definition refusal (g : group) (op : pipeline_op) : option tr_status :=
  reason match op with
  | Po_set_control c => [(foreign g c, TR_ERR_INVALID); (negb (no_control g) || connected g c, TR_ERR_STATE)]
  | Po_clear_control c => [(negb (bool_decide (gr_control g = Some c)), TR_ERR_STALE)]
  | Po_reserve => [(no_control g, TR_ERR_STATE); (full g, TR_AGAIN)]
  | Po_attach data c => [(no_control g, TR_ERR_STATE); (foreign g c, TR_ERR_INVALID); (in_use g c, TR_ERR_STATE);
      (negb (reserved_as g data), TR_ERR_STALE)]
  | Po_cancel data => [(negb (reserved_as g data), TR_ERR_STALE)]
  | Po_cancel_offer data => [((dr_index data >=? gr_capacity g) || (dr_generation data =? 0) ||
      negb ((gr_issued g).[dr_index data] =? dr_generation data), TR_ERR_STALE)]
  | Po_add c => [(foreign g c, TR_ERR_INVALID); (in_use g c, TR_ERR_STATE); (no_control g, TR_ERR_STATE); (full g, TR_AGAIN)]
  | Po_remove data | Po_connection data => [(bool_decide (attached_as g data = None), TR_ERR_STALE)]
  | Po_select => [(nobody g, TR_AGAIN)]
  | Po_bind stream_id data => [(stream_id =? 0, TR_ERR_INVALID); (bool_decide (attached_as g data = None), TR_ERR_STALE);
      (bound g stream_id, TR_ERR_STATE); (streams_full g, TR_AGAIN)]
  | Po_prepare stream_id => [(stream_id =? 0, TR_ERR_INVALID); (no_control g, TR_ERR_STATE);
      (bound g stream_id, TR_ERR_STATE); (streams_full g, TR_AGAIN); (nobody g, TR_AGAIN)]
  | Po_stream_data stream_id | Po_unbind stream_id =>
      [(stream_id =? 0, TR_ERR_INVALID); (negb (bound g stream_id), TR_ERR_STALE)]
  end.

(** What a request that is not refused does.  Which free index is reserved, and which member
    is selected, is not promised. *)
Inductive effect (g : group) : pipeline_op → pipeline_out → group → Prop :=
| Eff_set_control c : effect g (Po_set_control c) Out_nothing (gr_set_control g (Some c) (gr_members g))
| Eff_clear_control c : effect g (Po_clear_control c) Out_nothing
    (gr_set_control g None (filter (λ im, is_Some (member_connection im.2)) (gr_members g)))
| Eff_reserve i generation : 0 ≤ i < gr_capacity g → gr_members g !! i = None →
    generation = tr_pipeline_next_generation (gr_issued g).[i] →
    effect g Po_reserve (Out_ref (mk_data_ref i generation))
      (gr_set_members g (<[i := Reserved generation]> (gr_members g)) ((gr_issued g).[i <- generation]))
| Eff_attach data c : effect g (Po_attach data c) Out_nothing
    (gr_set_members g (<[dr_index data := Attached (dr_generation data) c]> (gr_members g)) (gr_issued g))
| Eff_cancel data : effect g (Po_cancel data) Out_nothing
    (gr_set_members g (delete (dr_index data) (gr_members g)) (gr_issued g))
| Eff_cancel_offer data : effect g (Po_cancel_offer data) Out_nothing
    (if reserved_as g data then gr_set_members g (delete (dr_index data) (gr_members g)) (gr_issued g) else g)
| Eff_add c i generation : 0 ≤ i < gr_capacity g → gr_members g !! i = None →
    generation = tr_pipeline_next_generation (gr_issued g).[i] →
    effect g (Po_add c) (Out_ref (mk_data_ref i generation))
      (gr_set_members g (<[i := Attached generation c]> (gr_members g)) ((gr_issued g).[i <- generation]))
| Eff_remove data : effect g (Po_remove data) Out_nothing
    (gr_set_streams (gr_set_members g (delete (dr_index data) (gr_members g)) (gr_issued g))
       (filter (λ sd, sd.2 ≠ data) (gr_streams g)))
| Eff_connection data c : attached_as g data = Some c → effect g (Po_connection data) (Out_connection c) g
| Eff_select data : is_Some (attached_as g data) → effect g Po_select (Out_ref data) g
| Eff_bind stream_id data : effect g (Po_bind stream_id data) Out_nothing
    (gr_set_streams g (<[stream_id := data]> (gr_streams g)))
| Eff_prepare stream_id data : is_Some (attached_as g data) →
    effect g (Po_prepare stream_id) (Out_ready (mk_transfer stream_id data))
      (gr_set_streams g (<[stream_id := data]> (gr_streams g)))
| Eff_stream_data stream_id data c : gr_streams g !! stream_id = Some data → attached_as g data = Some c →
    effect g (Po_stream_data stream_id) (Out_stream data c) g
| Eff_unbind stream_id : effect g (Po_unbind stream_id) Out_nothing (gr_set_streams g (delete stream_id (gr_streams g))).

(** The group a pipeline is. *)
Definition slot_member (slot : tr_pipeline_data_slot) : option member :=
  match ds_state slot with
  | Data_free => None
  | Data_reserved => Some (Reserved (ds_generation slot))
  | Data_attached => Some (Attached (ds_generation slot) (ds_connection slot))
  end.

Definition members (slots : list tr_pipeline_data_slot) : gmap Z member := omap slot_member (map_seqZ 0 slots : gmap Z _).

Definition group_of (p : tr_pipeline) : group :=
  mk_group (pl_owner p) (pl_data_capacity p) (pl_affinity_capacity p) (if pl_control_bound p then Some (pl_control p) else None)
    (members (pl_data_slots p)) (map ds_generation (pl_data_slots p)) (streams p).

(** * The parts of the group *)

Lemma members_lookup slots i m : members slots !! i = Some m ↔ 0 ≤ i < alen slots ∧ slot_member slots.[i] = Some m.
Proof.
  unfold members. rewrite lookup_omap_Some. split.
  - intros (s & Hs & [Hi Hx]%lookup_map_seqZ_Some). rewrite Z.sub_0_r in Hx.
    pose proof (lookup_lt_Some _ _ _ Hx) as Hlt. unfold alen, aget. split; [lia|]. by rewrite (list_lookup_total_correct _ _ _ Hx).
  - intros [Hi Hs]. exists slots.[i]. split; [done|]. apply lookup_map_seqZ_Some. rewrite Z.sub_0_r. split; [lia|]. by apply aget_lookup.
Qed.

Lemma members_none slots i : 0 ≤ i < alen slots → members slots !! i = None ↔ ds_state slots.[i] = Data_free.
Proof.
  intros Hi. rewrite eq_None_not_Some. split.
  - intros H. destruct (slot_member slots.[i]) as [m|] eqn:Em.
    + destruct H. exists m. by apply members_lookup.
    + unfold slot_member in Em. by destruct (ds_state slots.[i]).
  - intros Hs [m [_ Hm]%members_lookup]. unfold slot_member in Hm. by rewrite Hs in Hm.
Qed.

Lemma members_aset slots i s : 0 ≤ i < alen slots →
  members (slots.[i <- s]) = match slot_member s with Some m => <[i := m]> (members slots) | None => delete i (members slots) end.
Proof.
  intros Hi. apply map_eq. intros j. apply option_eq. intros m. rewrite members_lookup, alen_aset.
  destruct (decide (j = i)) as [->|Hne].
  - rewrite aget_aset_eq by done. destruct (slot_member s) as [m'|].
    + rewrite lookup_insert_eq. split; [by intros [_ ?]|done].
    + rewrite lookup_delete_eq. split; [by intros [_ ?]|done].
  - trans (members slots !! j = Some m).
    + rewrite members_lookup. split; (intros [Hj Hm]; split; [done|]); by rewrite aget_aset_ne in * by lia.
    + destruct (slot_member s); by rewrite ?lookup_insert_ne, ?lookup_delete_ne by done.
Qed.

Lemma members_size slots : Z.of_nat (size (members slots)) = zsum (in_state Data_reserved) slots + zsum (in_state Data_attached) slots.
Proof.
  unfold members. generalize 0. induction slots as [|s l IH]; intros start; [done|].
  rewrite map_seqZ_cons. cbn [zsum]. specialize (IH (start + 1)). replace (Z.succ start) with (start + 1) by lia.
  assert (omap slot_member (map_seqZ (start + 1) l : gmap Z _) !! start = None) as Hno.
  { apply eq_None_not_Some. intros [m (x & _ & [Hx _]%lookup_map_seqZ_Some)%lookup_omap_Some]. lia. }
  assert (slot_member s = None ∧ in_state Data_reserved s + in_state Data_attached s = 0 ∨
    is_Some (slot_member s) ∧ in_state Data_reserved s + in_state Data_attached s = 1) as [[Em Ei]|[[m Em] Ei]].
  { unfold slot_member, in_state. destruct (ds_state s); [left|right|right]; split; done || by eexists. }
  - rewrite omap_insert_None by done. rewrite delete_id by done. lia.
  - rewrite (omap_insert_Some _ _ _ _ m) by done. rewrite map_size_insert_None by done. lia.
Qed.

(** ** The tests of [refusal] are those of the source *)

Lemma foreign_spec p c : foreign (group_of p) c = negb (tr_pipeline_connection_valid p c).
Proof. done. Qed.

Lemma no_control_spec p : no_control (group_of p) = negb (pl_control_bound p).
Proof. unfold no_control. cbn. destruct (pl_control_bound p); [by apply bool_decide_false|by apply bool_decide_true]. Qed.

Lemma control_is_spec p c : bool_decide (gr_control (group_of p) = Some c) = pl_control_bound p && tr_pipeline_conn_equal (pl_control p) c.
Proof.
  apply eq_bool_prop_intro. rewrite !Is_true_true, bool_decide_eq_true, andb_true_iff, conn_equal_true. cbn.
  destruct (pl_control_bound p); [|split; [done|by intros [? _]]]. split; [by intros [= ->]|by intros [_ ->]].
Qed.

Lemma connected_spec p c : connected (group_of p) c = tr_pipeline_connection_is_data p c.
Proof.
  apply eq_bool_prop_intro. unfold connected. rewrite !Is_true_true, bool_decide_eq_true, is_data_true. cbn. split.
  - intros (i & m & [Hi Hm]%members_lookup & Hc). exists i. split; [done|]. apply slot_has_true. unfold slot_member in Hm.
    destruct (ds_state _); simplify_eq/=. done.
  - intros (i & Hi & [Hs Hc]%slot_has_true). exists i, (Attached (ds_generation (pl_data_slots p).[i]) c). split; [|done].
    apply members_lookup. split; [done|]. unfold slot_member. by rewrite Hs, Hc.
Qed.

Lemma in_use_spec p c : in_use (group_of p) c =
  pl_control_bound p && tr_pipeline_conn_equal (pl_control p) c || tr_pipeline_connection_is_data p c.
Proof. unfold in_use. by rewrite control_is_spec, connected_spec. Qed.

Lemma reserved_as_spec p data : pipeline_ok p → 0 ≤ dr_index data →
  reserved_as (group_of p) data = tr_pipeline_data_ref_matches p data Data_reserved.
Proof.
  intros Hok H0. apply eq_bool_prop_intro. unfold reserved_as. rewrite !Is_true_true, bool_decide_eq_true, matches_true by done.
  cbn. rewrite members_lookup, (pk_length _ Hok). unfold names, slot_member. split.
  - intros [Hi Hm]. pose proof (slot_at _ _ Hok Hi) as [_ Hs]. destruct (ds_state _); simplify_eq. destruct Hs as [_ Hs]. split_and!; try done; lia.
  - intros (Hi & _ & -> & ->). done.
Qed.

Lemma attached_as_spec p data : pipeline_ok p → 0 ≤ dr_index data →
  attached_as (group_of p) data =
  if tr_pipeline_data_ref_valid p data then Some (ds_connection (pl_data_slots p).[dr_index data]) else None.
Proof.
  intros Hok H0. unfold tr_pipeline_data_ref_valid. destruct (tr_pipeline_data_ref_matches p data Data_attached) eqn:E.
  - apply matches_true in E as (Hi & _ & Hs & Hg); [|done]. unfold attached_as. cbn.
    assert (members (pl_data_slots p) !! dr_index data = Some (Attached (dr_generation data) (ds_connection (pl_data_slots p).[dr_index data]))) as ->.
    { apply members_lookup. rewrite (pk_length _ Hok). unfold slot_member. by rewrite Hs, Hg. }
    by rewrite Z.eqb_refl.
  - unfold attached_as. cbn. destruct (members (pl_data_slots p) !! dr_index data) as [[g|g c]|] eqn:Em; [done| |done].
    destruct (Z.eqb_spec g (dr_generation data)) as [->|]; [|done]. exfalso. apply not_true_iff_false in E. apply E.
    apply matches_true; [done|]. apply members_lookup in Em as [Hi Hm]. rewrite (pk_length _ Hok) in Hi.
    pose proof (slot_at _ _ Hok Hi) as [_ Hs]. unfold slot_member in Hm. unfold names.
    destruct (ds_state _); simplify_eq. destruct Hs as [_ Hs]. rewrite Hm in Hs. split_and!; try done; lia.
Qed.

Lemma attached_as_names p data : pipeline_ok p → 0 ≤ dr_index data →
  names p Data_attached data ↔ attached_as (group_of p) data = Some (ds_connection (pl_data_slots p).[dr_index data]).
Proof.
  intros Hok H0. rewrite attached_as_spec by done. unfold tr_pipeline_data_ref_valid.
  destruct (tr_pipeline_data_ref_matches p data Data_attached) eqn:E.
  - apply matches_true in E; [|done]. done.
  - split; [|done]. intros H. apply matches_true in H; [congruence|done].
Qed.

Lemma counts_bound p : pipeline_ok p → 0 ≤ pl_data_count p ∧ 0 ≤ pl_data_reserved_count p ∧
  pl_data_count p + pl_data_reserved_count p ≤ pl_data_capacity p.
Proof.
  intros Hok. rewrite (pk_count _ Hok), (pk_reserved _ Hok), <- (pk_length _ Hok). pose proof (in_state_sum (pl_data_slots p)).
  pose proof (in_state_nonneg Data_reserved (pl_data_slots p)). pose proof (in_state_nonneg Data_attached (pl_data_slots p)).
  pose proof (in_state_nonneg Data_free (pl_data_slots p)). lia.
Qed.

Lemma full_spec p : pipeline_ok p → full (group_of p) = (u32 (pl_data_count p + pl_data_reserved_count p) >=? pl_data_capacity p).
Proof.
  intros Hok. pose proof (counts_bound _ Hok). pose proof (pk_capacity _ Hok). unfold full. cbn.
  rewrite members_size, <- (pk_reserved _ Hok), <- (pk_count _ Hok), u32_small, Z.geb_leb by word_lia. f_equal. lia.
Qed.

Lemma nobody_spec p : pipeline_ok p → nobody (group_of p) = (pl_data_count p =? 0).
Proof.
  intros Hok. unfold nobody. cbn. destruct (Z.eqb_spec (pl_data_count p) 0) as [E|E].
  - rewrite negb_true_iff, bool_decide_eq_false. intros (i & m & [Hi Hm]%members_lookup & [c Hc]). rewrite (pk_count _ Hok) in E.
    assert (0 < zsum (in_state Data_attached) (pl_data_slots p)); [|lia]. apply in_state_pos with i; [done|].
    unfold slot_member in Hm. by destruct (ds_state _); simplify_eq.
  - rewrite negb_false_iff, bool_decide_eq_true. pose proof (counts_bound _ Hok). rewrite (pk_count _ Hok) in *.
    destruct (decide (Exists (λ s, ds_state s = Data_attached) (pl_data_slots p))) as [Hex|Hno].
    + apply Exists_exists in Hex as (s & [n Hn]%list_elem_of_lookup & Hs). pose proof (lookup_lt_Some _ _ _ Hn) as Hlt.
      exists (Z.of_nat n), (Attached (ds_generation s) (ds_connection s)). split; [|done]. apply members_lookup. unfold alen, aget.
      rewrite Nat2Z.id, (list_lookup_total_correct _ _ _ Hn). split; [lia|]. unfold slot_member. by rewrite Hs.
    + destruct E. apply zsum_zero. intros s Hin. unfold in_state. apply Forall_Exists_neg in Hno. rewrite list.Forall_forall in Hno.
      by rewrite bool_decide_false by (by apply Hno).
Qed.

Lemma stream_found p stream_id slot : pipeline_ok p → tr_pipeline_affinity_find p stream_id = Pr_found slot → bound (group_of p) stream_id = true.
Proof. intros Hok Hf. apply bool_decide_eq_true. destruct (affinity_found _ _ _ Hok Hf) as [_ H]. by eexists. Qed.

Lemma stream_absent p stream_id insert : pipeline_ok p → tr_pipeline_affinity_find p stream_id = Pr_absent insert →
  bound (group_of p) stream_id = false ∧ streams_full (group_of p) = (insert =? UINT32_MAX).
Proof.
  intros Hok Hf. destruct (affinity_absent _ _ _ Hok Hf) as [Hn H]. split; [apply bool_decide_eq_false; cbn; rewrite Hn; by intros [? ?]|].
  unfold streams_full. cbn. unfold streams. rewrite (table_map_size _ _ _ _ _ _ (pk_table _ Hok)), <- (pk_affinity_count _ Hok).
  destruct H as [[-> H]|(Hne & Hlt & _)].
  - rewrite Z.eqb_refl. apply Z.leb_le. lia.
  - rewrite (proj2 (Z.eqb_neq _ _) Hne). apply Z.leb_gt. done.
Qed.

(** * What a request does on the owner *)

(** The request [op] ends as the group says, and the parts agree. *)
Definition outcome (p : tr_pipeline) (op : pipeline_op) (r : tr_status) (q : tr_pipeline) (out : pipeline_out) : Prop :=
  pipeline_ok q ∧
  match refusal (group_of p) op with
  | Some refused => r = refused ∧ r ≠ TR_OK ∧ q = p ∧ out = Out_nothing
  | None => r = TR_OK ∧ effect (group_of p) op out (group_of q)
  end.

Ltac refused := split; [done|]; by split_and!.

Lemma set_control_outcome c p : pipeline_ok p → let '(r, q) := tr_pipeline_set_control_on_owner c p in outcome p (Po_set_control c) r q Out_nothing.
Proof.
  intros Hok. unfold tr_pipeline_set_control_on_owner, outcome, refusal. cbn [reason].
  rewrite foreign_spec, no_control_spec, connected_spec, negb_involutive.
  destruct (negb (tr_pipeline_connection_valid p c)) eqn:Ev; [refused|].
  destruct (pl_control_bound p || tr_pipeline_connection_is_data p c) eqn:Eb; [refused|].
  apply negb_false_iff, bool_decide_eq_true in Ev. apply orb_false_iff in Eb as [Eb Ed]. split.
  - destruct Hok as [K1 K2 K3 K4 K5 K6 K7 K8 K9 K10 K11 K12 K13]. by split.
  - split; [done|]. apply (Eff_set_control (group_of p)).
Qed.

Lemma drop_reserved_has c s : slot_has c (drop_reserved s) = slot_has c s.
Proof. unfold drop_reserved. case_bool_decide as H; [|done]. unfold slot_has. by rewrite H. Qed.

Lemma drop_reserved_at slots i : 0 ≤ i < alen slots → (map drop_reserved slots).[i] = drop_reserved slots.[i].
Proof. intros Hi. unfold aget. apply list_lookup_total_correct. rewrite list_lookup_fmap. by rewrite aget_lookup. Qed.

Lemma drop_reserved_member s m : slot_member (drop_reserved s) = Some m ↔ slot_member s = Some m ∧ is_Some (member_connection m).
Proof.
  unfold drop_reserved, slot_member. case_bool_decide as H.
  - rewrite H. cbn. split; [done|by intros [[= <-] [? ?]]].
  - destruct (ds_state s); [split; [done|by intros [? _]]|done|]. split; [intros [= <-]; split; [done|by eexists]|by intros [? _]].
Qed.

Lemma drop_reserved_members slots :
  members (map drop_reserved slots) = filter (λ im, is_Some (member_connection im.2)) (members slots).
Proof.
  assert (alen (map drop_reserved slots) = alen slots) as Hlen by (unfold alen; by rewrite length_map).
  apply map_eq. intros i. apply option_eq. intros m. rewrite members_lookup, Hlen, map_lookup_filter_Some, members_lookup.
  split; [intros [Hi Hm]|intros [[Hi Hm] Hc]]; rewrite drop_reserved_at, drop_reserved_member in * by done; tauto.
Qed.

Lemma drop_reserved_ok owner s : slot_ok owner s → slot_ok owner (drop_reserved s).
Proof. intros Hs. unfold drop_reserved. case_bool_decide; [|done]. destruct Hs as [Hs _]. by split. Qed.

Lemma drop_reserved_in_state s : in_state Data_reserved (drop_reserved s) = 0 ∧
  in_state Data_attached (drop_reserved s) = in_state Data_attached s.
Proof.
  unfold drop_reserved, in_state. destruct (decide (ds_state s = Data_reserved)) as [H|H].
  - by rewrite H.
  - assert (bool_decide (ds_state s = Data_reserved) = false) as -> by by apply bool_decide_false. split; [by rewrite bool_decide_false|done].
Qed.

Lemma drop_reserved_counts slots : zsum (in_state Data_reserved) (map drop_reserved slots) = 0 ∧
  zsum (in_state Data_attached) (map drop_reserved slots) = zsum (in_state Data_attached) slots.
Proof.
  induction slots as [|s l [IH1 IH2]]; [done|]. cbn [zsum map]. destruct (drop_reserved_in_state s) as [-> ->]. lia.
Qed.

Lemma no_reserved slots : zsum (in_state Data_reserved) slots = 0 → map drop_reserved slots = slots.
Proof.
  induction slots as [|s l IH]; cbn [zsum map]; [done|]. pose proof (in_state_01 Data_reserved s). pose proof (in_state_nonneg Data_reserved l).
  intros E. rewrite IH by lia. f_equal. unfold drop_reserved. case_bool_decide as Hs; [|done].
  assert (in_state Data_reserved s = 1) by (unfold in_state; by rewrite bool_decide_true). lia.
Qed.

(** CONTROL goes, and its reservations with it. *)
Definition without_control (p : tr_pipeline) : tr_pipeline :=
  pl_set_slots (pl_set_control p false zero_conn) (map drop_reserved (pl_data_slots p)) 0 (pl_data_count p).

Lemma without_control_ok p : pipeline_ok p → pipeline_ok (without_control p).
Proof.
  intros [K1 K2 K3 K4 K5 K6 K7 K8 K9 K10 K11 K12 K13]. unfold without_control. destruct (drop_reserved_counts (pl_data_slots p)) as [E1 E2].
  assert (alen (map drop_reserved (pl_data_slots p)) = alen (pl_data_slots p)) as Hlen by (unfold alen; by rewrite length_map).
  split; pl_cbn; try done.
  - by rewrite Hlen.
  - by rewrite E2.
  - apply list.Forall_forall. intros s' (s & -> & Hs)%list_elem_of_fmap. rewrite list.Forall_forall in K7. by apply drop_reserved_ok, K7.
  - intros i j c Hi Hj. rewrite !drop_reserved_at by lia. rewrite !drop_reserved_has. by apply K9.
  - intros sid data H. destruct (K13 sid data H) as [H0 (H1 & H2 & H3 & H4)]. split; [done|]. unfold names. pl_cbn.
    rewrite drop_reserved_at by lia. unfold drop_reserved. by rewrite H3.
Qed.

Lemma clear_control_on_owner_eq c p : pipeline_ok p → pl_control_bound p = true → pl_control p = c →
  tr_pipeline_clear_control_on_owner c p = (TR_OK, without_control p).
Proof.
  intros Hok Hb Hc. unfold tr_pipeline_clear_control_on_owner. rewrite Hb, (proj2 (conn_equal_true _ _) Hc). cbn [negb orb].
  pl_cbn. destruct (Z.eqb_spec (pl_data_reserved_count p) 0) as [E|_]; [|done]. unfold without_control.
  rewrite (pk_reserved _ Hok) in E. rewrite no_reserved by done. unfold pl_set_slots, pl_set_control. pl_cbn.
  by rewrite (pk_reserved _ Hok), E.
Qed.

Lemma clear_control_outcome c p : pipeline_ok p → let '(r, q) := tr_pipeline_clear_control_on_owner c p in outcome p (Po_clear_control c) r q Out_nothing.
Proof.
  intros Hok. destruct (tr_pipeline_clear_control_on_owner c p) as [r q] eqn:E. unfold outcome, refusal. cbn [reason]. rewrite control_is_spec.
  destruct (pl_control_bound p && tr_pipeline_conn_equal (pl_control p) c) eqn:Ec; cbn [negb].
  - apply andb_true_iff in Ec as [Eb Ec%conn_equal_true]. rewrite clear_control_on_owner_eq in E by done. injection E as <- <-.
    split; [by apply without_control_ok|]. split; [done|].
    pose proof (Eff_clear_control (group_of p) c) as H. unfold gr_set_control in H. cbn [group_of gr_members] in H.
    unfold group_of, without_control. pl_cbn. rewrite drop_reserved_members. unfold streams in *. pl_cbn.
    replace (map ds_generation (map drop_reserved (pl_data_slots p))) with (map ds_generation (pl_data_slots p)); [exact H|].
    rewrite map_map. apply map_ext. intros s. unfold drop_reserved. by case_bool_decide.
  - unfold tr_pipeline_clear_control_on_owner in E. rewrite <- negb_andb, Ec in E. cbn [negb] in E. injection E as <- <-. refused.
Qed.

(** ** DATA *)

Lemma issued_at slots i : 0 ≤ i < alen slots → (map ds_generation slots).[i] = ds_generation slots.[i].
Proof. intros Hi. unfold aget. apply list_lookup_total_correct. rewrite list_lookup_fmap. by rewrite aget_lookup. Qed.

Lemma issued_aset slots i s : map ds_generation (slots.[i <- s]) = (map ds_generation slots).[i <- ds_generation s].
Proof. unfold aset. apply list_fmap_insert. Qed.

Lemma issued_same slots i s : 0 ≤ i < alen slots → ds_generation s = ds_generation slots.[i] →
  map ds_generation (slots.[i <- s]) = map ds_generation slots.
Proof.
  intros Hi Hs. rewrite issued_aset, Hs, <- issued_at by done. apply aset_aget. unfold alen. by rewrite length_map.
Qed.

(** No stream is bound to a slot that is not attached. *)
Lemma not_bound p i : pipeline_ok p → ds_state (pl_data_slots p).[i] ≠ Data_attached →
  ∀ stream_id data, streams p !! stream_id = Some data → dr_index data ≠ i.
Proof. intros Hok Hs sid data H E. destruct (pk_streams _ Hok sid data H) as [_ (_ & _ & Ha & _)]. by rewrite E in Ha. Qed.

Lemma in_state_is st s : ds_state s = st → in_state st s = 1.
Proof. intros H. unfold in_state. by rewrite bool_decide_true. Qed.
Lemma in_state_isnt st s : ds_state s ≠ st → in_state st s = 0.
Proof. intros H. unfold in_state. by rewrite bool_decide_false. Qed.

(** A free slot is reserved. *)
Definition reserve_slot (p : tr_pipeline) (i : Z) : tr_pipeline :=
  let generation := tr_pipeline_next_generation (ds_generation (pl_data_slots p).[i]) in
  pl_set_slots p ((pl_data_slots p).[i <- mk_data_slot zero_conn generation Data_reserved])
    (u32 (pl_data_reserved_count p + 1)) (pl_data_count p).

Lemma reserve_slot_ok p i : pipeline_ok p → 0 ≤ i < pl_data_capacity p → ds_state (pl_data_slots p).[i] = Data_free →
  pl_control_bound p = true → pipeline_ok (reserve_slot p i).
Proof.
  intros Hok Hi Hs Hb. pose proof (counts_bound _ Hok). pose proof (pk_capacity _ Hok).
  destruct (slot_at _ _ Hok Hi) as [Hg _]. apply next_generation_ok in Hg as [Hg Hg0]. apply set_slot_ok; try done.
  - rewrite (in_state_isnt _ _), in_state_is, u32_small by (rewrite ?Hs; done || word_lia). lia.
  - rewrite !(in_state_isnt Data_attached) by (rewrite ?Hs; done). lia.
  - congruence.
  - apply not_bound; [done|]. by rewrite Hs.
Qed.

Lemma group_set_slot p i s reserved count : pipeline_ok p → 0 ≤ i < pl_data_capacity p →
  group_of (pl_set_slots p ((pl_data_slots p).[i <- s]) reserved count) =
  gr_set_members (group_of p)
    (match slot_member s with Some m => <[i := m]> (gr_members (group_of p)) | None => delete i (gr_members (group_of p)) end)
    ((gr_issued (group_of p)).[i <- ds_generation s]).
Proof.
  intros Hok Hi. rewrite <- (pk_length _ Hok) in Hi. unfold group_of, gr_set_members. pl_cbn. cbn [gr_owner gr_capacity gr_stream_capacity gr_control gr_members gr_issued gr_streams].
  rewrite issued_aset, members_aset by done. done.
Qed.

(** The same when the generation stays. *)
Lemma group_move_slot p i s reserved count : pipeline_ok p → 0 ≤ i < pl_data_capacity p →
  ds_generation s = ds_generation (pl_data_slots p).[i] →
  group_of (pl_set_slots p ((pl_data_slots p).[i <- s]) reserved count) =
  gr_set_members (group_of p)
    (match slot_member s with Some m => <[i := m]> (gr_members (group_of p)) | None => delete i (gr_members (group_of p)) end)
    (gr_issued (group_of p)).
Proof.
  intros Hok Hi Hg. rewrite group_set_slot by done. unfold gr_set_members. f_equal. cbn.
  rewrite <- issued_aset. apply issued_same; [by rewrite (pk_length _ Hok)|done].
Qed.

Lemma reserve_outcome o p : pipeline_ok p → let '(r, (q, out)) := tr_pipeline_reserve_data_on_owner (p, o) in
  outcome p Po_reserve r q (if is_ok r then Out_ref out else Out_nothing).
Proof.
  intros Hok. unfold tr_pipeline_reserve_data_on_owner, outcome, refusal. cbn [reason]. rewrite no_control_spec, full_spec by done.
  destruct (negb (pl_control_bound p)) eqn:Eb; [refused|]. destruct (_ >=? _) eqn:Ef; [refused|].
  apply negb_false_iff in Eb. rewrite <- full_spec in Ef by done. apply Z.leb_gt in Ef. cbn in Ef. rewrite members_size in Ef.
  pose proof (in_state_sum (pl_data_slots p)) as Hsum. rewrite (pk_length _ Hok) in Hsum.
  pose proof (first_free_spec (pl_data_slots p) 0) as Hff. destruct (first_free (pl_data_slots p) 0) as [i|]; [|lia].
  rewrite Z.sub_0_r, (pk_length _ Hok) in Hff. destruct Hff as [Hi Hs]. rewrite Z.add_0_l in Hi.
  change (pl_set_slots p _ _ _) with (reserve_slot p i). split; [by apply reserve_slot_ok|]. split; [done|]. change (is_ok TR_OK) with true. cbn iota.
  unfold reserve_slot. rewrite group_set_slot by done. cbn [slot_member ds_state ds_generation].
  apply (Eff_reserve (group_of p)); [done| |].
  - cbn. apply members_none; [by rewrite (pk_length _ Hok)|done].
  - cbn. by rewrite issued_at by (by rewrite (pk_length _ Hok)).
Qed.

(** A reservation becomes a member. *)
Definition attach_slot (p : tr_pipeline) (i : Z) (c : tr_conn_handle) : tr_pipeline :=
  pl_set_slots p ((pl_data_slots p).[i <- mk_data_slot c (ds_generation (pl_data_slots p).[i]) Data_attached])
    (u32 (pl_data_reserved_count p - 1)) (u32 (pl_data_count p + 1)).

Lemma attach_outcome data c p : pipeline_ok p → 0 ≤ dr_index data → let '(r, q) := tr_pipeline_attach_data_on_owner data c p in
  outcome p (Po_attach data c) r q Out_nothing.
Proof.
  intros Hok H0. unfold tr_pipeline_attach_data_on_owner, outcome, refusal. cbn [reason].
  rewrite no_control_spec, foreign_spec, in_use_spec, reserved_as_spec by done.
  destruct (negb (pl_control_bound p)) eqn:Eb; [refused|].
  destruct (negb (tr_pipeline_connection_valid p c)) eqn:Ev; [refused|].
  destruct (_ || _) eqn:Eu; [refused|]. destruct (negb (tr_pipeline_data_ref_matches p data Data_reserved)) eqn:Em; [refused|].
  apply negb_false_iff in Eb, Ev, Em. apply bool_decide_eq_true in Ev. apply orb_false_iff in Eu as [Eu1 Eu2].
  apply matches_true in Em as (Hi & Hg0 & Hs & Hg); [|done].
  change (pl_set_slots p _ _ _) with (attach_slot p (dr_index data) c). pose proof (counts_bound _ Hok). pose proof (pk_capacity _ Hok).
  split; [|split; [done|]].
  - destruct (slot_at _ _ Hok Hi) as [Hu _]. apply set_slot_ok; try done.
    + split; [done|]. split; [done|]. pl_cbn. by rewrite Hg.
    + rewrite in_state_is by done. rewrite in_state_isnt by done. pose proof (in_state_pos Data_reserved p (dr_index data)) as Hpos.
      rewrite (pk_length _ Hok), <- (pk_reserved _ Hok) in Hpos. rewrite u32_small by (specialize (Hpos Hi Hs); word_lia). lia.
    + rewrite (in_state_isnt _ _) by (by rewrite Hs). rewrite in_state_is by done. rewrite u32_small by word_lia. lia.
    + intros _. cbn. split; [done|]. intros _ Hc. rewrite Eb in Eu1. cbn [andb] in Eu1. apply not_true_iff_false in Eu1.
      apply Eu1. by apply conn_equal_true.
    + apply not_bound; [done|]. by rewrite Hs.
  - unfold attach_slot. rewrite group_move_slot by done. cbn [slot_member ds_state ds_generation ds_connection]. rewrite Hg.
    apply (Eff_attach (group_of p)).
Qed.

Lemma free_reserved_ok p i : pipeline_ok p → 0 ≤ i < pl_data_capacity p → ds_state (pl_data_slots p).[i] = Data_reserved →
  pipeline_ok (free_reserved p i) ∧
  group_of (free_reserved p i) = gr_set_members (group_of p) (delete i (gr_members (group_of p))) (gr_issued (group_of p)).
Proof.
  intros Hok Hi Hs. pose proof (counts_bound _ Hok). pose proof (pk_capacity _ Hok). split.
  - destruct (slot_at _ _ Hok Hi) as [Hu _]. apply set_slot_ok; try done.
    + rewrite in_state_is by done. rewrite in_state_isnt by done. pose proof (in_state_pos Data_reserved p i) as Hpos.
      rewrite (pk_length _ Hok), <- (pk_reserved _ Hok) in Hpos. rewrite u32_small by (specialize (Hpos Hi Hs); word_lia). lia.
    + rewrite !(in_state_isnt Data_attached) by (rewrite ?Hs; done). lia.
    + apply not_bound; [done|]. by rewrite Hs.
  - unfold free_reserved. by rewrite group_move_slot.
Qed.

Lemma cancel_outcome data p : pipeline_ok p → 0 ≤ dr_index data → let '(r, q) := tr_pipeline_cancel_data_reservation_on_owner data p in
  outcome p (Po_cancel data) r q Out_nothing.
Proof.
  intros Hok H0. unfold tr_pipeline_cancel_data_reservation_on_owner, outcome, refusal. cbn [reason]. rewrite reserved_as_spec by done.
  destruct (negb _) eqn:Em; [refused|]. apply negb_false_iff in Em. apply matches_true in Em as (Hi & _ & Hs & _); [|done].
  destruct (free_reserved_ok p _ Hok Hi Hs) as [H1 ->]. split; [done|]. split; [done|]. apply (Eff_cancel (group_of p)).
Qed.

Lemma cancel_offer_outcome data p : pipeline_ok p → 0 ≤ dr_index data → let '(r, q) := tr_pipeline_cancel_data_offer_on_owner data p in
  outcome p (Po_cancel_offer data) r q Out_nothing.
Proof.
  intros Hok H0. unfold tr_pipeline_cancel_data_offer_on_owner, outcome, refusal. cbn [reason group_of gr_capacity gr_issued].
  pose proof (reserved_as_spec p data Hok H0) as Hres. rewrite Z.geb_leb.
  destruct (Z.leb_spec (pl_data_capacity p) (dr_index data)) as [|Hlt]; cbn [orb]; [refused|].
  destruct (dr_generation data =? 0) eqn:E0; cbn [orb]; [refused|].
  rewrite issued_at by (by rewrite (pk_length _ Hok)). destruct (negb (ds_generation _ =? _)) eqn:Eg; [refused|].
  apply negb_false_iff, Z.eqb_eq in Eg. apply Z.eqb_neq in E0. pose proof (Eff_cancel_offer (group_of p) data) as Heff.
  rewrite Hres in Heff. assert (0 ≤ dr_index data < pl_data_capacity p) as Hi by lia.
  destruct (tr_pipeline_data_ref_matches p data Data_reserved) eqn:Em.
  - apply matches_true in Em as (_ & _ & Hs & _); [|done]. rewrite Hs. destruct (free_reserved_ok p _ Hok Hi Hs) as [H1 H2].
    split; [done|]. split; [done|]. by rewrite H2.
  - apply not_true_iff_false in Em. rewrite matches_true in Em by done.
    destruct (ds_state (pl_data_slots p).[dr_index data]) eqn:Es; [by split| |by split]. destruct Em. by split_and!.
Qed.

Lemma connected_insert g i m c : gr_members g !! i = None → member_connection m = None →
  ∀ members', members' = <[i := m]> (gr_members g) → ∀ issued, connected (gr_set_members g members' issued) c = connected g c.
Proof.
  intros Hi Hm members' -> issued. unfold connected. apply bool_decide_ext. cbn [gr_set_members gr_members]. split.
  - intros (j & m' & Hj & Hc). apply lookup_insert_Some in Hj as [[<- <-]|[Hne Hj]]; [congruence|]. by exists j, m'.
  - intros (j & m' & Hj & Hc). exists j, m'. split; [|done]. rewrite lookup_insert_ne; [done|]. congruence.
Qed.

Lemma effect_reserve g out g' : effect g Po_reserve out g' → ∃ i, 0 ≤ i < gr_capacity g ∧ gr_members g !! i = None ∧
  let generation := tr_pipeline_next_generation (gr_issued g).[i] in out = Out_ref (mk_data_ref i generation) ∧
  g' = gr_set_members g (<[i := Reserved generation]> (gr_members g)) ((gr_issued g).[i <- generation]).
Proof. inversion 1. subst. by eexists. Qed.

Lemma effect_attach g data c out g' : effect g (Po_attach data c) out g' →
  g' = gr_set_members g (<[dr_index data := Attached (dr_generation data) c]> (gr_members g)) (gr_issued g).
Proof. by inversion 1. Qed.

Lemma add_outcome c o p : pipeline_ok p → let '(r, (q, out)) := tr_pipeline_add_data_on_owner c (p, o) in
  outcome p (Po_add c) r q (if is_ok r then Out_ref out else Out_nothing).
Proof.
  intros Hok. unfold tr_pipeline_add_data_on_owner. unfold outcome at 1. unfold refusal at 1. cbn [reason]. rewrite foreign_spec, in_use_spec.
  destruct (negb (tr_pipeline_connection_valid p c)) eqn:Ev; [refused|]. destruct (_ || _) eqn:Eu; [refused|].
  pose proof (reserve_outcome o p Hok) as Hres. destruct (tr_pipeline_reserve_data_on_owner (p, o)) as [r [q out]].
  unfold outcome, refusal in Hres. cbn [reason] in Hres. destruct Hres as [Hq Hres].
  destruct (no_control (group_of p)) eqn:En; [destruct Hres as (-> & _ & -> & _); refused|].
  destruct (full (group_of p)) eqn:Ef; [destruct Hres as (-> & _ & -> & _); refused|].
  destruct Hres as [-> Heff]. change (is_ok TR_OK) with true in *. cbn [negb] in *. cbn iota in *.
  apply effect_reserve in Heff as (i & Hi & Hnone & Eo & Egq). set (g := tr_pipeline_next_generation _) in *. injection Eo as ->.
  pose proof (attach_outcome (mk_data_ref i g) c q Hq (proj1 Hi)) as Hatt.
  destruct (tr_pipeline_attach_data_on_owner (mk_data_ref i g) c q) as [r' q']. destruct Hatt as [Hq' Hatt].
  assert (refusal (group_of q) (Po_attach (mk_data_ref i g) c) = None) as Eref.
  { unfold refusal. cbn [reason]. rewrite Egq.
    assert (in_use (group_of p) c = false) as Eiu by by rewrite in_use_spec.
    unfold in_use, foreign, no_control in *. cbn [gr_set_members gr_owner gr_control] in *. rewrite (connected_insert _ i (Reserved g)) by done.
    apply orb_false_iff in Eiu as [-> ->]. rewrite En. cbn [orb]. unfold reserved_as. cbn [gr_set_members gr_members dr_index dr_generation].
    change (negb (tr_pipeline_connection_valid p c)) with (negb (bool_decide (ch_reactor c = gr_owner (group_of p)))) in Ev. rewrite Ev.
    rewrite lookup_insert_eq. by rewrite (bool_decide_true (Some _ = Some _)). }
  rewrite Eref in Hatt. destruct Hatt as [-> Heff]. change (is_ok TR_OK) with true. cbn iota. split; [done|]. split; [done|].
  apply effect_attach in Heff as ->. rewrite Egq. unfold gr_set_members.
  cbn [gr_owner gr_capacity gr_stream_capacity gr_control gr_members gr_issued gr_streams dr_index dr_generation].
  rewrite insert_insert_eq. by apply (Eff_add (group_of p) c i g).
Qed.

(** An entry of a stream of [data] becomes a tombstone. *)
Definition drop_affinity (data : tr_pipeline_data_ref) (e : tr_pipeline_affinity_entry) : tr_pipeline_affinity_entry :=
  if bool_decide (ae_state e = Slot_used ∧ ae_data e = data) then mk_affinity (ae_stream_id e) (ae_data e) Slot_tombstone else e.

Lemma drop_affinities_spec data entries count : used_count ae_state entries ≤ count ≤ UINT32_MAX →
  drop_affinities data entries count = (map (drop_affinity data) entries,
    count - used_count ae_state entries + used_count ae_state (map (drop_affinity data) entries)).
Proof.
  revert count. induction entries as [|e l IH]; intros count Hc; cbn [drop_affinities map].
  { f_equal. unfold used_count. cbn [zsum]. lia. }
  rewrite !used_count_cons in *. pose proof (used_count_bounds ae_state l) as Hb.
  assert (negb (bool_decide (ae_state e = Slot_used)) || negb (dr_index (ae_data e) =? dr_index data) ||
    negb (dr_generation (ae_data e) =? dr_generation data) = negb (bool_decide (ae_state e = Slot_used ∧ ae_data e = data))) as ->.
  { apply eq_bool_prop_intro. rewrite !Is_true_true, <- !negb_andb, !negb_true_iff, <- !not_true_iff_false, !andb_true_iff, !Z.eqb_eq, !bool_decide_eq_true.
    destruct (ae_data e), data; cbn. split; intros H H'; apply H; [destruct H' as [? [= -> ->]]; done|destruct H' as [[? ->] ->]; done]. }
  assert (drop_affinity data e = if bool_decide (ae_state e = Slot_used ∧ ae_data e = data)
    then mk_affinity (ae_stream_id e) (ae_data e) Slot_tombstone else e) as -> by done.
  destruct (bool_decide (ae_state e = Slot_used ∧ ae_data e = data)) eqn:Ed; cbn [negb ae_state].
  - apply bool_decide_eq_true in Ed as [Es _]. rewrite Es in *. change (is_used Slot_used) with true in *. change (is_used Slot_tombstone) with false.
    cbn iota in *. rewrite u32_small by word_lia. rewrite IH by lia. f_equal. lia.
  - destruct (is_used (ae_state e)); rewrite IH by lia; f_equal; lia.
Qed.

Lemma remove_outcome data p : pipeline_ok p → 0 ≤ dr_index data → let '(r, q) := tr_pipeline_remove_data_on_owner data p in
  outcome p (Po_remove data) r q Out_nothing.
Proof.
  intros Hok H0. unfold tr_pipeline_remove_data_on_owner. unfold outcome at 1. unfold refusal. cbn [reason]. rewrite attached_as_spec by done.
  destruct (tr_pipeline_data_ref_valid p data) eqn:Em; cbn [negb]; [|rewrite bool_decide_true by done; refused].
  rewrite bool_decide_false by done. apply matches_true in Em as (Hi & Hg0 & Hs & Hg); [|done].
  set (p1 := pl_set_slots p _ _ _). change (pl_affinities p1) with (pl_affinities p). change (pl_affinity_count p1) with (pl_affinity_count p).
  pose proof (used_count_u32 _ Hok) as [Hu Hu2]. pose proof (pk_affinity_count _ Hok) as Hcnt. pose proof (pk_table _ Hok) as Ht.
  rewrite drop_affinities_spec by word_lia. set (entries := map (drop_affinity data) (pl_affinities p)).
  assert (∀ e, drop_affinity data e = e ∨ ae_state e = Slot_used ∧ ae_state (drop_affinity data e) = Slot_tombstone) as Hdrop.
  { intros e. unfold drop_affinity. case_bool_decide as Hd; [right|by left]. split; [apply Hd|done]. }
  assert (table_map ae_state ae_stream_id ae_data entries = filter (λ sd, sd.2 ≠ data) (streams p)) as Es.
  { etrans; [apply (table_map_sweep ae_state ae_stream_id ae_data tr_pipeline_stream_hash (drop_affinity data) (λ d, d ≠ data) _ _ Ht)|by apply map_filter_ext].
    - intros e He. unfold drop_affinity. rewrite bool_decide_false; [done|]. by intros [? _].
    - intros e He. unfold drop_affinity. case_bool_decide as Hd; [right|left]; (split; [|done]); tauto. }
  set (q := pl_set_affinities p entries (used_count ae_state entries)).
  assert (pipeline_ok q) as Hq.
  { apply set_affinities_ok; [done|by apply probe_ok_sweep|done|]. intros sid d H. rewrite Es in H.
    apply map_lookup_filter_Some in H as [H _]. by apply (pk_streams _ Hok). }
  replace (_ - _ + _) with (used_count ae_state entries) by lia.
  change (pl_set_affinities p1 entries _) with
    (pl_set_slots q ((pl_data_slots q).[dr_index data <- mk_data_slot zero_conn (ds_generation (pl_data_slots q).[dr_index data]) Data_free])
      (pl_data_reserved_count q) (u32 (pl_data_count q - 1))).
  pose proof (counts_bound _ Hok) as Hcb. pose proof (pk_capacity _ Hok) as Hcap. split; [|split; [done|]].
  - destruct (slot_at _ _ Hok Hi) as [Hgen _]. apply set_slot_ok; try done.
    + rewrite !(in_state_isnt Data_reserved) by (change (pl_data_slots q) with (pl_data_slots p); rewrite ?Hs; done). lia.
    + rewrite in_state_is by done. rewrite in_state_isnt by done. pose proof (in_state_pos Data_attached p (dr_index data)) as Hpos.
      rewrite (pk_length _ Hok), <- (pk_count _ Hok) in Hpos. change (pl_data_count q) with (pl_data_count p).
      rewrite u32_small by (specialize (Hpos Hi Hs); word_lia). lia.
    + intros sid d H. change (streams q) with (table_map ae_state ae_stream_id ae_data entries) in H. rewrite Es in H.
      apply map_lookup_filter_Some in H as [H Hne]. cbn in Hne. intros E. apply Hne.
      destruct (pk_streams _ Hok sid d H) as [_ (_ & _ & _ & Hd)]. destruct d as [di dg], data as [ei eg]. pl_cbn. congruence.
  - rewrite group_move_slot by done. pose proof (Eff_remove (group_of p) data) as H. cbn [slot_member ds_state].
    unfold gr_set_streams, gr_set_members in *. cbn in H |- *. rewrite <- Es in H. exact H.
Qed.

Lemma connection_outcome data o p : pipeline_ok p → 0 ≤ dr_index data → let '(r, (q, out)) := tr_pipeline_data_connection_on_owner data (p, o) in
  outcome p (Po_connection data) r q (if is_ok r then Out_connection out else Out_nothing).
Proof.
  intros Hok H0. unfold tr_pipeline_data_connection_on_owner. unfold outcome, refusal. cbn [reason].
  pose proof (attached_as_spec p data Hok H0) as Ha. rewrite Ha.
  destruct (tr_pipeline_data_ref_valid p data); cbn [negb]; [|rewrite bool_decide_true by done; refused].
  rewrite bool_decide_false by done. split; [done|]. split; [done|]. by apply Eff_connection.
Qed.

(** ** Selection *)

(** The slot [offset] steps after the one to start from. *)
Definition turn_at (p : tr_pipeline) (offset : Z) : Z := (pl_next_data_index p + offset) mod pl_data_capacity p.

Definition is_attached (p : tr_pipeline) (index : Z) : Prop := ds_state (pl_data_slots p).[index] = Data_attached.

Lemma turn_at_range p offset : pipeline_ok p → 0 ≤ turn_at p offset < pl_data_capacity p.
Proof. intros Hok. apply Z.mod_pos_bound. pose proof (pk_capacity _ Hok). lia. Qed.

(** Every slot comes up. *)
Lemma turn_at_onto p i : pipeline_ok p → 0 ≤ i < pl_data_capacity p → ∃ offset, 0 ≤ offset < pl_data_capacity p ∧ turn_at p offset = i.
Proof.
  intros Hok Hi. exists ((i - pl_next_data_index p) mod pl_data_capacity p). split; [apply Z.mod_pos_bound; lia|].
  unfold turn_at. rewrite Zplus_mod_idemp_r. replace (_ + _) with i by lia. by apply Z.mod_small.
Qed.

Lemma select_loop_spec n p offset : pipeline_ok p → 0 ≤ offset → offset + Z.of_nat n ≤ pl_data_capacity p →
  match select_loop n p offset with
  | Some index => ∃ k, offset ≤ k < offset + Z.of_nat n ∧ index = turn_at p k ∧ is_attached p index ∧
      ∀ j, offset ≤ j < k → ¬ is_attached p (turn_at p j)
  | None => ∀ j, offset ≤ j < offset + Z.of_nat n → ¬ is_attached p (turn_at p j)
  end.
Proof.
  intros Hok. revert offset. induction n as [|n IH]; intros offset H0 Hn; cbn [select_loop]; [lia|].
  pose proof (pk_capacity _ Hok). pose proof (pk_next _ Hok). rewrite probe_index_mod by lia.
  change ((pl_next_data_index p + offset) mod pl_data_capacity p) with (turn_at p offset). case_bool_decide as Hs.
  - exists offset. split_and!; [lia|lia|done|done|lia].
  - specialize (IH (offset + 1) ltac:(lia) ltac:(lia)). destruct (select_loop n p (offset + 1)) as [index|].
    + destruct IH as (k & Hk & Ek & Ha & Hno). exists k. split_and!; [lia|lia|done|done|]. intros j Hj.
      destruct (decide (j = offset)) as [->|]; [done|]. apply Hno. lia.
    + intros j Hj. destruct (decide (j = offset)) as [->|]; [done|]. apply IH. lia.
Qed.

Lemma select_some p : pipeline_ok p → pl_data_count p ≠ 0 →
  ∃ k, 0 ≤ k < pl_data_capacity p ∧ select_loop (Z.to_nat (pl_data_capacity p)) p 0 = Some (turn_at p k) ∧
    is_attached p (turn_at p k) ∧ ∀ j, 0 ≤ j < k → ¬ is_attached p (turn_at p j).
Proof.
  intros Hok Hc. pose proof (pk_capacity _ Hok) as Hcap.
  pose proof (select_loop_spec (Z.to_nat (pl_data_capacity p)) p 0 Hok ltac:(lia) ltac:(lia)) as H.
  destruct (select_loop _ p 0) as [index|].
  - destruct H as (k & Hk & -> & Ha & Hno). exists k. by split; [lia|].
  - destruct Hc. rewrite (pk_count _ Hok). apply zsum_zero. intros s [n Hn]%list_elem_of_lookup.
    apply in_state_isnt. intros Hs. pose proof (lookup_lt_Some _ _ _ Hn) as Hlt.
    assert (0 ≤ Z.of_nat n < pl_data_capacity p) as Hi by (rewrite <- (pk_length _ Hok); unfold alen; lia).
    destruct (turn_at_onto p _ Hok Hi) as (k & Hk & Ek). apply (H k ltac:(lia)). unfold is_attached. rewrite Ek.
    unfold aget. by rewrite Nat2Z.id, (list_lookup_total_correct _ _ _ Hn).
Qed.

(** The member [index] is selected. *)
Lemma selected_ref p index : pipeline_ok p → 0 ≤ index < pl_data_capacity p → is_attached p index →
  names p Data_attached (mk_data_ref index (ds_generation (pl_data_slots p).[index])) ∧
  is_Some (attached_as (group_of p) (mk_data_ref index (ds_generation (pl_data_slots p).[index]))).
Proof.
  intros Hok Hi Hs. destruct (slot_at _ _ Hok Hi) as [_ Hg]. rewrite Hs in Hg.
  assert (names p Data_attached (mk_data_ref index (ds_generation (pl_data_slots p).[index]))) as Hn.
  { split; [done|]. split; [apply Hg|by split]. }
  split; [done|]. eexists. apply attached_as_names; [done|apply Hi|exact Hn].
Qed.

Lemma set_next_ok p index : pipeline_ok p → 0 ≤ index < pl_data_capacity p →
  pipeline_ok (pl_set_next p (u32 (index + 1) mod pl_data_capacity p)).
Proof.
  intros [K1 K2 K3 K4 K5 K6 K7 K8 K9 K10 K11 K12 K13] Hi. split; try done. pl_cbn. apply Z.mod_pos_bound. lia.
Qed.

Lemma select_outcome o p : pipeline_ok p → let '(r, (q, out)) := tr_pipeline_select_data_on_owner (p, o) in
  outcome p Po_select r q (if is_ok r then Out_ref out else Out_nothing).
Proof.
  intros Hok. unfold tr_pipeline_select_data_on_owner, outcome, refusal. cbn [reason]. rewrite nobody_spec by done.
  destruct (Z.eqb_spec (pl_data_count p) 0) as [E|E]; [refused|].
  destruct (select_some p Hok E) as (k & Hk & -> & Ha & _). pose proof (turn_at_range p k Hok) as Hi.
  split; [by apply set_next_ok|]. split; [done|]. by apply (Eff_select (group_of p)), selected_ref.
Qed.

(** ** Streams *)

Lemma bind_outcome stream_id data p : pipeline_ok p → 0 ≤ dr_index data →
  let '(r, q) := tr_pipeline_bind_stream_on_owner stream_id data p in outcome p (Po_bind stream_id data) r q Out_nothing.
Proof.
  intros Hok H0. unfold tr_pipeline_bind_stream_on_owner. unfold outcome, refusal. cbn [reason].
  destruct (Z.eqb_spec stream_id 0) as [|Hs]; [refused|]. rewrite attached_as_spec by done.
  destruct (tr_pipeline_data_ref_valid p data) eqn:Ev; cbn [negb]; [|rewrite bool_decide_true by done; refused].
  rewrite bool_decide_false by done. destruct (tr_pipeline_affinity_find p stream_id) as [slot|insert] eqn:Ef.
  { rewrite (stream_found _ _ _ Hok Ef). refused. }
  destruct (stream_absent _ _ _ Hok Ef) as [-> ->]. destruct (Z.eqb_spec insert UINT32_MAX) as [|Hne]; [refused|].
  destruct (affinity_absent _ _ _ Hok Ef) as [_ [[? _]|(_ & _ & Hb)]]; [done|].
  apply matches_true in Ev; [|done]. destruct (Hb data Hs Ev) as [E1 E2]. split; [done|]. split; [done|].
  pose proof (Eff_bind (group_of p) stream_id data) as H. unfold gr_set_streams in H. cbn in H. rewrite <- E1 in H. exact H.
Qed.

Lemma prepare_outcome stream_id o p : pipeline_ok p →
  let '(r, (q, out)) := tr_pipeline_prepare_transfer_on_owner stream_id (p, o) in
  outcome p (Po_prepare stream_id) r q (if is_ok r then Out_ready out else Out_nothing).
Proof.
  intros Hok. unfold tr_pipeline_prepare_transfer_on_owner. unfold outcome, refusal. cbn [reason]. rewrite no_control_spec, nobody_spec by done.
  destruct (Z.eqb_spec stream_id 0) as [|Hs]; [refused|]. destruct (negb (pl_control_bound p)); [refused|].
  destruct (tr_pipeline_affinity_find p stream_id) as [slot|insert] eqn:Ef.
  { rewrite (stream_found _ _ _ Hok Ef). refused. }
  destruct (stream_absent _ _ _ Hok Ef) as [-> ->]. destruct (Z.eqb_spec insert UINT32_MAX) as [|Hne]; [refused|].
  destruct (Z.eqb_spec (pl_data_count p) 0) as [E|E]; [refused|].
  destruct (select_some p Hok E) as (k & Hk & -> & Ha & _). pose proof (turn_at_range p k Hok) as Hi.
  destruct (selected_ref p _ Hok Hi Ha) as [Hn Hd]. set (data := mk_data_ref _ _) in *.
  destruct (affinity_absent _ _ _ Hok Ef) as [_ [[? _]|(_ & _ & Hb)]]; [done|]. destruct (Hb data Hs Hn) as [E1 E2].
  split; [by apply (set_next_ok _ _ E2)|]. split; [done|].
  pose proof (Eff_prepare (group_of p) stream_id data Hd) as H. unfold gr_set_streams in H. cbn in H. rewrite <- E1 in H. exact H.
Qed.

(** A bound stream's member is attached: the entry that [tr_pipeline_stream_data] finds is never stale. *)
Lemma stream_data_outcome stream_id d c p : pipeline_ok p →
  let '(r, (q, data, connection)) := tr_pipeline_stream_data_on_owner stream_id (p, Some d, Some c) in
  outcome p (Po_stream_data stream_id) r q
    (match data, connection with Some d, Some c => if is_ok r then Out_stream d c else Out_nothing | _, _ => Out_nothing end).
Proof.
  intros Hok. unfold tr_pipeline_stream_data_on_owner. unfold outcome, refusal. cbn [reason].
  destruct (Z.eqb_spec stream_id 0) as [|Hs]; [refused|]. destruct (tr_pipeline_affinity_find p stream_id) as [slot|insert] eqn:Ef.
  - rewrite (stream_found _ _ _ Hok Ef). cbn [negb]. destruct (affinity_found _ _ _ Hok Ef) as [_ Hst].
    set (data := ae_data _) in *. destruct (pk_streams _ Hok _ _ Hst) as [_ Hn]. pose proof Hn as ([H0 _] & _).
    pose proof Hn as Hv. apply matches_true in Hv; [|done]. change (tr_pipeline_data_ref_valid p data) with (tr_pipeline_data_ref_matches p data Data_attached).
    rewrite Hv. cbn [negb fmap option_fmap option_map]. split; [done|]. split; [done|]. change (is_ok TR_OK) with true.
    apply (Eff_stream_data (group_of p)); [done|]. by apply attached_as_names.
  - destruct (stream_absent _ _ _ Hok Ef) as [-> _]. refused.
Qed.

Lemma unbind_outcome stream_id p : pipeline_ok p → let '(r, q) := tr_pipeline_unbind_stream_on_owner stream_id p in
  outcome p (Po_unbind stream_id) r q Out_nothing.
Proof.
  intros Hok. unfold tr_pipeline_unbind_stream_on_owner. unfold outcome, refusal. cbn [reason].
  destruct (Z.eqb_spec stream_id 0) as [|Hs]; [refused|]. destruct (tr_pipeline_affinity_find p stream_id) as [slot|insert] eqn:Ef.
  - rewrite (stream_found _ _ _ Hok Ef). cbn [negb]. destruct (clear_entry_ok _ _ _ Hok Ef) as [E1 E2]. split; [done|]. split; [done|].
    pose proof (Eff_unbind (group_of p) stream_id) as H. unfold gr_set_streams in H. cbn in H. rewrite <- E1 in H. exact H.
  - destruct (stream_absent _ _ _ Hok Ef) as [-> _]. refused.
Qed.

(** * Requests from any thread *)

(** A request that reaches the owner does what the group does; another is not made. *)
Definition answered (e : owner_call) (p : tr_pipeline) (op : pipeline_op) (a : tr_status * option tr_pipeline * pipeline_out) : Prop :=
  if reaches e then ∃ r q out, a = (r, Some q, out) ∧ outcome p op r q out
  else ∃ r, r ≠ TR_OK ∧ a = (r, Some p, Out_nothing).

Lemma update_answered e fn p op : (let '(r, q) := fn p in outcome p op r q Out_nothing) →
  answered e p op (without_out (pipeline_update e fn (Some p))).
Proof.
  intros H. unfold pipeline_update, without_out, answered. pose proof (tr_reactor_call_reaches e fn p) as Hr. destruct (reaches e).
  - rewrite Hr. destruct (fn p) as [r q]. by exists r, q, Out_nothing.
  - destruct Hr as (r & Hr & ->). by exists r.
Qed.

Lemma call_answered {O} e (fn : tr_pipeline * O → tr_status * (tr_pipeline * O)) f p o op :
  (let '(r, (q, out)) := fn (p, o) in outcome p op r q (if is_ok r then f out else Out_nothing)) →
  answered e p op (with_out f (pipeline_call e fn (Some p) (Some o))).
Proof.
  intros H. unfold pipeline_call, with_out, answered. pose proof (tr_reactor_call_reaches e fn (p, o)) as Hr. destruct (reaches e).
  - rewrite Hr. destruct (fn (p, o)) as [r [q out]]. by exists r, q, (if is_ok r then f out else Out_nothing).
  - destruct Hr as (r & Hr & ->). exists r. by rewrite (proj2 (is_ok_false r) Hr).
Qed.

Lemma pipeline_exec_answered e op p : pipeline_ok p → op_ok op → answered e p op (pipeline_exec e op (Some p)).
Proof.
  intros Hok Hop. destruct op; cbn [pipeline_exec op_ok] in *.
  - by apply update_answered, set_control_outcome.
  - by apply update_answered, clear_control_outcome.
  - by apply call_answered, reserve_outcome.
  - by apply update_answered, attach_outcome.
  - by apply update_answered, cancel_outcome.
  - by apply update_answered, cancel_offer_outcome.
  - by apply call_answered, add_outcome.
  - by apply update_answered, remove_outcome.
  - by apply call_answered, connection_outcome.
  - by apply call_answered, select_outcome.
  - by apply update_answered, bind_outcome.
  - by apply call_answered, prepare_outcome.
  - pose proof (stream_data_outcome stream_id zero_data_ref zero_conn p Hok) as H. unfold tr_pipeline_stream_data, answered.
    rewrite !(bool_decide_true (is_Some _)) by done. cbn [negb andb].
    pose proof (tr_reactor_call_reaches e (tr_pipeline_stream_data_on_owner stream_id) (p, Some zero_data_ref, Some zero_conn)) as Hr.
    destruct (reaches e).
    + rewrite Hr. destruct (tr_pipeline_stream_data_on_owner _ _) as [r [[q data] connection]]. by eexists r, q, _.
    + destruct Hr as (r & Hr & ->). exists r. by rewrite (proj2 (is_ok_false r) Hr).
  - by apply update_answered, unbind_outcome.
Qed.

(** What a request leaves. *)
Lemma pipeline_exec_step e op p : pipeline_ok p → op_ok op → ∃ r q out, pipeline_exec e op (Some p) = (r, Some q, out) ∧
  pipeline_ok q ∧ (r ≠ TR_OK ∧ q = p ∨ r = TR_OK ∧ refusal (group_of p) op = None ∧ effect (group_of p) op out (group_of q)).
Proof.
  intros Hok Hop. pose proof (pipeline_exec_answered e op p Hok Hop) as H. unfold answered, outcome in H. destruct (reaches e).
  - destruct H as (r & q & out & -> & Hq & H). exists r, q, out. split; [done|]. split; [done|].
    destruct (refusal _ _); [left|right]; [|tauto]. by destruct H as (_ & ? & -> & _).
  - destruct H as (r & Hr & ->). exists r, p, Out_nothing. split; [done|]. split; [done|]. by left.
Qed.

Lemma pipeline_execs_ok l p : pipeline_ok p → Forall (λ eo, op_ok eo.2) l → ∃ q, pipeline_execs l (Some p) = Some q ∧ pipeline_ok q.
Proof.
  revert p. induction l as [|[e op] l IH]; intros p Hok Hl; cbn [pipeline_execs]; [by exists p|].
  apply Forall_cons_1 in Hl as [Ho Hl]. destruct (pipeline_exec_step e op p Hok Ho) as (r & q & out & -> & Hq & _). by apply IH.
Qed.

(** ** Creation *)

Lemma in_state_replicate st n s : ds_state s ≠ st → zsum (in_state st) (replicate n s) = 0.
Proof. intros Hs. apply zsum_zero. intros s' [-> _]%elem_of_replicate. by apply in_state_isnt. Qed.

Definition config_small (c : tr_pipeline_config) : Prop :=
  0 ≤ pg_data_capacity c ≤ 2 ^ 31 ∧ 0 ≤ pg_stream_affinity_capacity c ≤ 2 ^ 31.

Lemma tr_pipeline_create_ok c out alloc slots table p : config_small c →
  tr_pipeline_create (Some c) out alloc slots table = (TR_OK, Some p) → pipeline_ok p ∧ members (pl_data_slots p) = ∅ ∧ streams p = ∅.
Proof.
  intros [Hc Ha]. unfold tr_pipeline_create. destruct (negb out); [done|].
  destruct (_ || _) eqn:E; [done|]. destruct (negb alloc); [done|]. destruct (negb slots || negb table); [done|]. intros [= <-].
  rewrite !orb_false_iff, negb_false_iff, bool_decide_eq_true, !Z.eqb_neq in E. destruct E as [[[[[Ho E1] E2] E3] E4] E5].
  set (z := replicate (Z.to_nat (pg_data_capacity c)) zero_data_slot).
  assert (alen z = pg_data_capacity c) as Hlen by (unfold alen, z; rewrite length_replicate; lia).
  assert (∀ i, 0 ≤ i < pg_data_capacity c → z.[i] = zero_data_slot) as Hz.
  { intros i Hi. unfold aget, z. apply lookup_total_replicate_2. lia. }
  assert (table_map ae_state ae_stream_id ae_data (replicate (Z.to_nat (pg_stream_affinity_capacity c)) zero_affinity) = ∅) as Hs
    by by apply table_map_empty.
  split; [|split; [|exact Hs]].
  - split; pl_cbn; fold z; try done; try lia.
    + unfold z. by rewrite in_state_replicate.
    + unfold z. by rewrite in_state_replicate.
    + apply list.Forall_forall. intros s [-> _]%elem_of_replicate. by split.
    + intros i j c' Hi Hj H. rewrite Hz in H by done. done.
    + apply probe_ok_empty; [lia|done].
    + by rewrite used_count_empty.
    + intros sid data H. unfold streams in H. pl_cbn. by rewrite Hs in H.
  - apply map_eq. intros i. rewrite lookup_empty. apply eq_None_not_Some. intros [m [Hi Hm]%members_lookup]. pl_cbn. fold z in Hi, Hm.
    rewrite Hz in Hm by lia. done.
Qed.

(** No stream outlives the members. *)
Lemma no_members_no_streams p : pipeline_ok p → pl_data_count p = 0 → pl_affinity_count p = 0.
Proof.
  intros Hok Hc. rewrite (pk_affinity_count _ Hok), <- (table_map_size _ _ ae_data _ _ _ (pk_table _ Hok)).
  change (table_map _ _ _ _) with (streams p). replace (streams p) with (∅ : gmap Z tr_pipeline_data_ref); [by rewrite map_size_empty|].
  symmetry. apply map_empty. intros sid. apply eq_None_not_Some. intros [data H]. destruct (pk_streams _ Hok sid data H) as [_ (Hi & _ & Hs & _)].
  pose proof (in_state_pos Data_attached p (dr_index data)) as Hpos. rewrite (pk_length _ Hok), <- (pk_count _ Hok) in Hpos.
  specialize (Hpos Hi Hs). lia.
Qed.

Lemma destroy_iff p : pipeline_ok p →
  tr_pipeline_destroy (Some p) = true ↔ gr_control (group_of p) = None ∧ gr_members (group_of p) = ∅.
Proof.
  intros Hok. pose proof (members_size (pl_data_slots p)) as Hsize. rewrite <- (pk_count _ Hok), <- (pk_reserved _ Hok) in Hsize.
  pose proof (counts_bound _ Hok) as Hb. unfold tr_pipeline_destroy.
  rewrite !andb_true_iff, negb_true_iff, !Z.eqb_eq. cbn [group_of gr_control gr_members]. split.
  - intros [[[-> H1] H2] _]. split; [done|]. apply map_size_empty_iff. lia.
  - intros [H1 H2]. rewrite H2, map_size_empty in Hsize. split_and!; [by destruct (pl_control_bound p)|lia|lia|].
    apply no_members_no_streams; [done|lia].
Qed.

(** ** Capabilities *)

Definition gen_period : Z := 2 ^ 32 - 1.

(** [generation] after [k] more reservations of its slot. *)
Definition gen_after (generation k : Z) : Z := (generation - 1 + k) mod gen_period + 1.

Lemma gen_after_0 g : u32_ok g → g ≠ 0 → gen_after g 0 = g.
Proof. intros Hg H0. unfold gen_after. rewrite Z.mod_small by (unfold gen_period; word_lia). lia. Qed.

Lemma gen_after_next g k : tr_pipeline_next_generation (gen_after g k) = gen_after g (k + 1).
Proof.
  unfold gen_after, tr_pipeline_next_generation. set (x := g - 1 + k). replace (g - 1 + (k + 1)) with (x + 1) by lia.
  pose proof (Z.mod_pos_bound x gen_period ltac:(done)) as Hx. rewrite <- (Zplus_mod_idemp_l x 1). set (y := x mod gen_period) in *.
  destruct (decide (y = gen_period - 1)) as [->|Hne]; [done|]. unfold gen_period in *.
  rewrite u32_small by word_lia. rewrite (Z.mod_small (y + 1)) by lia. destruct (Z.eqb_spec (y + 1 + 1) 0); lia.
Qed.

Lemma gen_after_differs g k : u32_ok g → g ≠ 0 → 0 < k < gen_period → gen_after g k ≠ g.
Proof.
  intros Hg H0 Hk E. rewrite <- (gen_after_0 g) in E at 2 by done. unfold gen_after in E.
  assert ((g - 1 + k) mod gen_period = (g - 1 + 0) mod gen_period) as E' by lia. rewrite Z.add_0_r in E'.
  pose proof (Z.mod_small k gen_period ltac:(lia)) as Ek. assert (k mod gen_period = 0); [|lia].
  replace k with (g - 1 + k - (g - 1)) by lia. rewrite Zminus_mod, E', Z.sub_diag. done.
Qed.

(** What a request does to one slot: it is reserved anew, or keeps its generation and is not reserved
    if it was not, nor attached if it was neither. *)
Definition generation_at (p : tr_pipeline) (i : Z) : Z := ds_generation (pl_data_slots p).[i].
Definition state_at (p : tr_pipeline) (i : Z) : tr_pipeline_data_state := ds_state (pl_data_slots p).[i].

Inductive slot_step (p q : tr_pipeline) (i : Z) : Prop :=
| Slot_again : generation_at q i = tr_pipeline_next_generation (generation_at p i) → slot_step p q i
| Slot_kept : generation_at q i = generation_at p i →
    (state_at p i ≠ Data_reserved → state_at q i ≠ Data_reserved) →
    (state_at p i = Data_free → state_at q i = Data_free) → slot_step p q i.

Lemma group_slot p i : pipeline_ok p → 0 ≤ i < pl_data_capacity p →
  (gr_issued (group_of p)).[i] = generation_at p i ∧
  gr_members (group_of p) !! i = match state_at p i with
    | Data_free => None
    | Data_reserved => Some (Reserved (generation_at p i))
    | Data_attached => Some (Attached (generation_at p i) (ds_connection (pl_data_slots p).[i]))
    end.
Proof.
  intros Hok Hi. rewrite <- (pk_length _ Hok) in Hi. cbn. split; [by apply issued_at|].
  unfold state_at, generation_at. destruct (ds_state (pl_data_slots p).[i]) eqn:Es.
  - by apply members_none.
  - apply members_lookup. split; [done|]. unfold slot_member. by rewrite Es.
  - apply members_lookup. split; [done|]. unfold slot_member. by rewrite Es.
Qed.

Definition issued_again (p q : tr_pipeline) (i : Z) : Prop :=
  (gr_issued (group_of q)).[i] = tr_pipeline_next_generation (gr_issued (group_of p)).[i].

Definition issued_kept (p q : tr_pipeline) (i : Z) : Prop :=
  (gr_issued (group_of q)).[i] = (gr_issued (group_of p)).[i] ∧
  (gr_members (group_of q) !! i = gr_members (group_of p) !! i ∨ gr_members (group_of q) !! i = None ∨
   (∃ g, gr_members (group_of p) !! i = Some (Reserved g)) ∧ (∃ g c, gr_members (group_of q) !! i = Some (Attached g c))).

Lemma slot_step_maps p q i : pipeline_ok p → pipeline_ok q → pl_data_capacity q = pl_data_capacity p → 0 ≤ i < pl_data_capacity p →
  issued_again p q i ∨ issued_kept p q i → slot_step p q i.
Proof.
  intros Hp Hq Hc Hi. destruct (group_slot p i Hp Hi) as [Ep Mp]. destruct (group_slot q i Hq ltac:(lia)) as [Eq Mq].
  unfold issued_again, issued_kept. rewrite Ep, Eq, Mp, Mq. intros [H|[H Hm]]; [by apply Slot_again|]. apply Slot_kept; [done| |].
  - intros Hs Hr. rewrite Hr in Hm. destruct Hm as [Hm|[Hm|[_ (g & c & Hm)]]]; [|done|done]. by destruct (state_at p i).
  - intros Hs. rewrite Hs in Hm. destruct Hm as [Hm|[Hm|[(g & Hm) _]]]; [| |done]; by destruct (state_at q i).
Qed.

Lemma effect_capacity g op out g' : effect g op out g' → gr_capacity g' = gr_capacity g.
Proof. destruct 1; try done. by case_match. Qed.

Lemma issued_kept_delete g g' i j : gr_members g' = delete j (gr_members g) →
  gr_members g' !! i = gr_members g !! i ∨ gr_members g' !! i = None.
Proof. intros ->. destruct (decide (i = j)) as [->|H]; [right; apply lookup_delete_eq|left; by rewrite lookup_delete_ne]. Qed.

Lemma effect_slot p q op out i : pipeline_ok p → 0 ≤ i < pl_data_capacity p → refusal (group_of p) op = None →
  effect (group_of p) op out (group_of q) → issued_again p q i ∨ issued_kept p q i.
Proof.
  intros Hok Hi Hr He. unfold issued_again, issued_kept.
  assert (0 ≤ i < alen (gr_issued (group_of p))) as Hl by (cbn; unfold alen; rewrite length_map; by rewrite <- (pk_length _ Hok) in Hi).
  set (g := group_of p) in *. remember (group_of q) as g' eqn:Eg. clear Eg.
  destruct He as [c|c|j generation Hj Hn Eg|data c|data|data|c j generation Hj Hn Eg|data|data c _|data _|sid data|sid data _|sid data c _ _|sid];
    try (right; split; [done|left; done]).
  - right. split; [done|]. cbn. destruct (gr_members g !! i) as [m|] eqn:Em; cbn in Em; rewrite Em.
    + destruct (member_connection m) as [c'|] eqn:Ec.
      * left. apply map_lookup_filter_Some. split; [done|]. cbn. rewrite Ec. by eexists.
      * right. left. apply map_lookup_filter_None. right. intros m' Hm'. simplify_eq. cbn. rewrite Ec. by intros [? ?].
    + left. apply map_lookup_filter_None. by left.
  - cbn [gr_set_members gr_issued gr_members]. destruct (decide (i = j)) as [->|Hne]; [left; by rewrite aget_aset_eq, Eg|].
    right. rewrite aget_aset_ne by lia. split; [done|]. left. by rewrite lookup_insert_ne.
  - right. split; [done|]. cbn [gr_set_members gr_members]. unfold refusal in Hr. cbn [reason] in Hr.
    destruct (no_control g); [done|]. destruct (foreign g c); [done|]. destruct (in_use g c); [done|].
    destruct (reserved_as g data) eqn:Er; [|done]. apply bool_decide_eq_true in Er.
    destruct (decide (i = dr_index data)) as [->|Hne]; [|left; by rewrite lookup_insert_ne].
    right. right. split; [by eexists|]. eexists _, _. apply lookup_insert_eq.
  - right. split; [done|]. destruct (issued_kept_delete g (gr_set_members g (delete (dr_index data) (gr_members g)) (gr_issued g)) i _ eq_refl); tauto.
  - right. destruct (reserved_as g data); (split; [done|]); [|by left].
    destruct (issued_kept_delete g (gr_set_members g (delete (dr_index data) (gr_members g)) (gr_issued g)) i _ eq_refl); tauto.
  - cbn [gr_set_members gr_issued gr_members]. destruct (decide (i = j)) as [->|Hne]; [left; by rewrite aget_aset_eq, Eg|].
    right. rewrite aget_aset_ne by lia. split; [done|]. left. by rewrite lookup_insert_ne.
  - right. split; [done|]. destruct (issued_kept_delete g (gr_set_members g (delete (dr_index data) (gr_members g)) (gr_issued g)) i _ eq_refl); tauto.
Qed.

Lemma exec_capacity e op p q : pipeline_ok p → op_ok op → (pipeline_exec e op (Some p)).1.2 = Some q →
  pl_data_capacity q = pl_data_capacity p.
Proof.
  intros Hok Hop. destruct (pipeline_exec_step e op p Hok Hop) as (r & q' & out & -> & Hq & H). intros [= ->].
  destruct H as [[_ ->]|(_ & _ & He)]; [done|]. apply (effect_capacity _ _ _ _ He).
Qed.

Lemma exec_slot_step e op p i : pipeline_ok p → op_ok op → 0 ≤ i < pl_data_capacity p →
  ∃ q, (pipeline_exec e op (Some p)).1.2 = Some q ∧ pipeline_ok q ∧ pl_data_capacity q = pl_data_capacity p ∧ slot_step p q i.
Proof.
  intros Hok Hop Hi. destruct (pipeline_exec_step e op p Hok Hop) as (r & q & out & -> & Hq & H). exists q. split; [done|]. split; [done|].
  destruct H as [[_ ->]|(_ & Hr & He)]; [split; [done|]; by apply Slot_kept|].
  assert (pl_data_capacity q = pl_data_capacity p) as Hc by apply (effect_capacity _ _ _ _ He).
  split; [done|]. apply slot_step_maps; try done. by apply effect_slot with op out.
Qed.

(** The capability is used up: its slot has its generation and is not reserved, or has a later one. *)
Definition spent (bad : tr_pipeline_data_state → Prop) (data : tr_pipeline_data_ref) (limit : Z) (p : tr_pipeline) : Prop :=
  generation_at p (dr_index data) = dr_generation data ∧ ¬ bad (state_at p (dr_index data)) ∨
  ∃ k, 0 < k ≤ limit ∧ generation_at p (dr_index data) = gen_after (dr_generation data) k.

Lemma spent_execs (bad : tr_pipeline_data_state → Prop) data l p limit :
  (bad = (λ st, st = Data_reserved) ∨ bad = (λ st, st ≠ Data_free)) → u32_ok (dr_generation data) → dr_generation data ≠ 0 →
  0 ≤ limit → pipeline_ok p → Forall (λ eo, op_ok eo.2) l → 0 ≤ dr_index data < pl_data_capacity p → spent bad data limit p →
  ∃ q, pipeline_execs l (Some p) = Some q ∧ pipeline_ok q ∧ spent bad data (limit + Z.of_nat (length l)) q.
Proof.
  intros Hbad Hg H0. revert p limit. induction l as [|[e op] l IH]; intros p limit Hlim Hok Hl Hi Hs; cbn [pipeline_execs length].
  { exists p. by rewrite Z.add_0_r. }
  apply Forall_cons_1 in Hl as [Ho Hl]. destruct (exec_slot_step e op p (dr_index data) Hok Ho Hi) as (q & -> & Hq & Hc & Hstep).
  replace (limit + Z.of_nat (S (length l))) with (limit + 1 + Z.of_nat (length l)) by lia.
  apply IH; [lia|done|done|by rewrite Hc|]. unfold spent in *. destruct Hstep as [E|E Hr Hf].
  - right. destruct Hs as [[Hs _]|(k & Hk & Hs)]; rewrite E, Hs.
    + exists 1. split; [lia|]. rewrite <- (gen_after_0 (dr_generation data)) at 1 by done. by rewrite gen_after_next.
    + exists (k + 1). split; [lia|]. apply gen_after_next.
  - rewrite E. destruct Hs as [[Hs Hb]|(k & Hk & Hs)]; [left|right; exists k; by split; [lia|]].
    split; [done|]. destruct Hbad as [-> | ->]; [by apply Hr|]. intros Hne. apply Hb. intros Hfree. by apply Hne, Hf.
Qed.

Lemma spent_not_names (bad : tr_pipeline_data_state → Prop) data limit p st : u32_ok (dr_generation data) → dr_generation data ≠ 0 →
  limit < gen_period → bad st → spent bad data limit p → ¬ names p st data.
Proof.
  intros Hg H0 Hlim Hb Hs (Hi & _ & Hst & Hgen). destruct Hs as [[_ Hn]|(k & Hk & E)].
  - unfold state_at in Hn. by rewrite Hst in Hn.
  - unfold generation_at in E. rewrite Hgen in E. symmetry in E. by apply gen_after_differs in E; [|done|done|lia].
Qed.

(** A request that uses up the reservation [data], and one that uses the member [data]. *)
Definition consumes (data : tr_pipeline_data_ref) (op : pipeline_op) : Prop :=
  op = Po_cancel data ∨ ∃ c, op = Po_attach data c.
Definition addresses (data : tr_pipeline_data_ref) (op : pipeline_op) : Prop :=
  op = Po_remove data ∨ op = Po_connection data ∨ ∃ stream_id, op = Po_bind stream_id data.

Lemma consumes_names data op p e : pipeline_ok p → op_ok op → consumes data op → (pipeline_exec e op (Some p)).1.1 = TR_OK →
  names p Data_reserved data ∧
  ∃ q, (pipeline_exec e op (Some p)).1.2 = Some q ∧ pipeline_ok q ∧ spent (λ st, st = Data_reserved) data 0 q.
Proof.
  intros Hok Hop Hc Hr. destruct (pipeline_exec_step e op p Hok Hop) as (r & q & out & E & Hq & H). rewrite E in *. cbn in Hr. subst r.
  destruct H as [[? _]|(_ & Href & He)]; [done|].
  assert (0 ≤ dr_index data) as H0 by by destruct Hc as [-> |[c ->]].
  assert (names p Data_reserved data) as Hn.
  { apply matches_true; [done|]. rewrite <- reserved_as_spec by done. destruct Hc as [-> |[c ->]]; unfold refusal in Href; cbn [reason] in Href.
    - by destruct (reserved_as _ data).
    - destruct (no_control _); [done|]. destruct (foreign _ c); [done|]. destruct (in_use _ c); [done|]. by destruct (reserved_as _ data). }
  split; [done|]. exists q. split; [done|]. split; [done|]. left. destruct Hn as (Hi & _ & _ & Hg).
  assert (pl_data_capacity q = pl_data_capacity p) as Hcap by apply (effect_capacity _ _ _ _ He).
  destruct (group_slot p _ Hok Hi) as [Ep _], (group_slot q (dr_index data) Hq ltac:(lia)) as [Eq Mq].
  revert Eq Mq He. generalize (group_of q) as g'. intros g' Eq Mq He.
  destruct Hc as [-> |[c ->]]; inversion He; subst; (split; [rewrite <- Eq, <- Hg; exact Ep|]); intros Hs; rewrite Hs in Mq; cbn in Mq.
  - by rewrite lookup_delete_eq in Mq.
  - by rewrite lookup_insert_eq in Mq.
Qed.

Lemma addresses_names data op p e : pipeline_ok p → op_ok op → addresses data op → (pipeline_exec e op (Some p)).1.1 = TR_OK →
  names p Data_attached data.
Proof.
  intros Hok Hop Hc Hr. destruct (pipeline_exec_step e op p Hok Hop) as (r & q & out & E & Hq & H). rewrite E in Hr. cbn in Hr. subst r.
  destruct H as [[? _]|(_ & Href & _)]; [done|].
  assert (0 ≤ dr_index data) as H0 by by destruct Hc as [-> |[-> |[sid ->]]].
  assert (attached_as (group_of p) data ≠ None) as Ha.
  { destruct Hc as [-> |[-> |[sid ->]]]; unfold refusal in Href; cbn [reason] in Href; [| |destruct (sid =? 0); [done|]];
      by case_bool_decide. }
  rewrite attached_as_spec in Ha by done. apply matches_true; [done|]. unfold tr_pipeline_data_ref_valid in Ha.
  by destruct (tr_pipeline_data_ref_matches p data Data_attached).
Qed.

Lemma remove_spent data p e : pipeline_ok p → 0 ≤ dr_index data → (pipeline_exec e (Po_remove data) (Some p)).1.1 = TR_OK →
  ∃ q, (pipeline_exec e (Po_remove data) (Some p)).1.2 = Some q ∧ pipeline_ok q ∧ pl_data_capacity q = pl_data_capacity p ∧
    spent (λ st, st ≠ Data_free) data 0 q.
Proof.
  intros Hok H0 Hr. destruct (addresses_names data (Po_remove data) p e Hok H0 (or_introl eq_refl) Hr) as (Hi & _ & _ & Hg).
  destruct (pipeline_exec_step e (Po_remove data) p Hok H0) as (r & q & out & E & Hq & H). rewrite E in *. cbn in Hr. subst r.
  destruct H as [[? _]|(_ & _ & He)]; [done|]. exists q. split; [done|]. split; [done|].
  assert (pl_data_capacity q = pl_data_capacity p) as Hcap by apply (effect_capacity _ _ _ _ He). split; [done|]. left.
  destruct (group_slot p _ Hok Hi) as [Ep _], (group_slot q (dr_index data) Hq ltac:(lia)) as [Eq Mq].
  revert Eq Mq He. generalize (group_of q) as g'. intros g' Eq Mq He. inversion He; subst.
  split; [rewrite <- Eq, <- Hg; exact Ep|]. intros Hs. cbn in Mq. rewrite lookup_delete_eq in Mq. by destruct (state_at q _).
Qed.

(** ** Rotation *)

(** What consecutive selections answer. *)
Fixpoint selections (l : list owner_call) (p : option tr_pipeline) : list pipeline_out :=
  match l with
  | [] => []
  | e :: l => let '(_, q, out) := pipeline_exec e Po_select p in out :: selections l q
  end.

Definition slot_ref (p : tr_pipeline) (i : Z) : tr_pipeline_data_ref := mk_data_ref i (generation_at p i).

#[export] Instance is_attached_dec p i : Decision (is_attached p i).
Proof. unfold is_attached. apply _. Defined.

(** The attached slots, in the order in which they come up, from [offset] steps on. *)
Definition coming_up (p : tr_pipeline) (offset : Z) : list Z :=
  filter (is_attached p) (map (turn_at p) (seqZ offset (pl_data_capacity p - offset))).

Lemma turn_at_next p o k : pipeline_ok p → turn_at (pl_set_next p (turn_at p o)) k = turn_at p (o + k).
Proof. intros Hok. unfold turn_at. pl_cbn. rewrite Zplus_mod_idemp_l. f_equal. lia. Qed.

Lemma turn_at_inj p i j : 0 ≤ i < pl_data_capacity p → 0 ≤ j < pl_data_capacity p → turn_at p i = turn_at p j → i = j.
Proof.
  unfold turn_at. intros Hi Hj E. set (n := pl_next_data_index p) in *. set (c := pl_data_capacity p) in *.
  assert (∀ k, (n + k - n) mod c = ((n + k) mod c - n mod c) mod c) as Hm by (intros k; apply Zminus_mod).
  pose proof (Hm i) as Ei. rewrite E, <- Hm in Ei. replace (n + i - n) with i in Ei by lia. replace (n + j - n) with j in Ei by lia.
  by rewrite !Z.mod_small in Ei by done.
Qed.

Lemma filter_none {A} (P : A → Prop) `{∀ x, Decision (P x)} (l : list A) : (∀ x, x ∈ l → ¬ P x) → filter P l = [].
Proof.
  induction l as [|x l IH]; intros Hl; [done|]. rewrite filter_cons_False by (apply Hl; left). apply IH. intros y Hy. apply Hl. by right.
Qed.

Lemma coming_up_split p o k : 0 ≤ o → 0 ≤ k → o + k < pl_data_capacity p → is_attached p (turn_at p (o + k)) →
  (∀ j, 0 ≤ j < k → ¬ is_attached p (turn_at p (o + j))) → coming_up p o = turn_at p (o + k) :: coming_up p (o + k + 1).
Proof.
  intros Ho Hk Hlt Ha Hno. unfold coming_up. replace (pl_data_capacity p - o) with (k + (1 + (pl_data_capacity p - (o + k + 1)))) by lia.
  rewrite seqZ_app by lia. rewrite map_app, filter_app. rewrite (seqZ_cons (o + k)) by lia. cbn [map]. rewrite filter_cons_True by done.
  assert (filter (is_attached p) (map (turn_at p) (seqZ o k)) = []) as ->.
  { apply filter_none. intros x (i & -> & [Hi1 Hi2]%elem_of_seqZ)%list_elem_of_fmap Hx.
    apply (Hno (i - o)); [lia|]. replace (o + (i - o)) with i by lia. done. }
  cbn [app]. do 4 f_equal; lia.
Qed.

Lemma select_comes_up e p o : pipeline_ok p → reaches e = true → 0 ≤ o ≤ pl_data_capacity p → coming_up p o ≠ [] →
  ∃ i o', coming_up p o = i :: coming_up p o' ∧ 0 ≤ o' ≤ pl_data_capacity p ∧
    pipeline_exec e Po_select (Some (pl_set_next p (turn_at p o))) =
      (TR_OK, Some (pl_set_next p (turn_at p o')), Out_ref (slot_ref p i)).
Proof.
  intros Hok He Ho Hne. set (q := pl_set_next p (turn_at p o)). pose proof (pk_capacity _ Hok) as Hcap.
  assert (pipeline_ok q) as Hq.
  { pose proof (turn_at_range p o Hok) as Hn. destruct Hok as [K1 K2 K3 K4 K5 K6 K7 K8 K9 K10 K11 K12 K13]. by split. }
  assert (∃ j, o ≤ j < pl_data_capacity p ∧ is_attached p (turn_at p j)) as (j & Hj & Haj).
  { destruct (coming_up p o) as [|x l] eqn:E; [done|]. assert (x ∈ coming_up p o) as Hx by (rewrite E; left).
    apply list_elem_of_filter in Hx as [Hx (j & -> & [? ?]%elem_of_seqZ)%list_elem_of_fmap]. exists j. split; [lia|done]. }
  assert (pl_data_count q ≠ 0) as Hc.
  { intros E. rewrite (pk_count _ Hq) in E. pose proof (in_state_pos Data_attached q (turn_at p j)) as Hpos.
    rewrite (pk_length _ Hq) in Hpos. specialize (Hpos (turn_at_range p j Hok) Haj). lia. }
  destruct (select_some q Hq Hc) as (k & Hk & Esel & Hak & Hno). unfold q in Esel, Hak, Hno. rewrite turn_at_next in Esel, Hak by done.
  assert (o + k ≤ j) as Hkj.
  { destruct (decide (o + k ≤ j)); [done|]. destruct (Hno (j - o)); [lia|]. rewrite turn_at_next by done. by replace (o + (j - o)) with j by lia. }
  exists (turn_at p (o + k)), (o + k + 1). split; [|split; [lia|]].
  - apply coming_up_split; [lia|lia|lia|done|]. intros j' Hj'. specialize (Hno j' Hj'). by rewrite turn_at_next in Hno.
  - cbn [pipeline_exec]. unfold tr_pipeline_select_data, pipeline_call.
    pose proof (tr_reactor_call_reaches e tr_pipeline_select_data_on_owner (q, zero_data_ref)) as Hr. rewrite He in Hr. rewrite Hr.
    unfold tr_pipeline_select_data_on_owner. destruct (Z.eqb_spec (pl_data_count q) 0) as [|_]; [done|].
    change (pl_data_capacity q) with (pl_data_capacity p). fold q in Esel. change (pl_data_capacity q) with (pl_data_capacity p) in Esel. rewrite Esel.
    cbn [with_out]. change (is_ok TR_OK) with true. cbn iota. f_equal. do 2 f_equal. unfold q. unfold pl_set_next. pl_cbn. f_equal.
    pose proof (turn_at_range p (o + k) Hok). rewrite u32_small by word_lia. unfold turn_at. rewrite Zplus_mod_idemp_l. f_equal. lia.
Qed.

Lemma selections_spec p l o : pipeline_ok p → Forall (λ e, reaches e = true) l → 0 ≤ o ≤ pl_data_capacity p →
  (length l ≤ length (coming_up p o))%nat →
  selections l (Some (pl_set_next p (turn_at p o))) = map (λ i, Out_ref (slot_ref p i)) (take (length l) (coming_up p o)).
Proof.
  intros Hok. revert o. induction l as [|e l IH]; intros o Hl Ho Hlen; [done|]. apply Forall_cons_1 in Hl as [He Hl].
  destruct (select_comes_up e p o Hok He Ho) as (i & o' & E & Ho' & Es). { intros E. rewrite E in Hlen. cbn in Hlen. lia. }
  cbn [selections]. rewrite Es, E. rewrite E in Hlen. cbn [length take map] in *. f_equal. apply IH; [done|done|lia].
Qed.

Lemma coming_up_members p : pipeline_ok p → coming_up p 0 ≡ₚ filter (is_attached p) (seqZ 0 (pl_data_capacity p)).
Proof.
  intros Hok. unfold coming_up. rewrite Z.sub_0_r. apply filter_Permutation. apply NoDup_Permutation; [|apply NoDup_seqZ|].
  - apply NoDup_fmap_2_strong; [|apply NoDup_seqZ]. intros i j [? ?]%elem_of_seqZ [? ?]%elem_of_seqZ. apply turn_at_inj; lia.
  - intros i. rewrite list_elem_of_fmap, elem_of_seqZ. split.
    + intros (j & -> & _). pose proof (turn_at_range p j Hok). lia.
    + intros Hi. destruct (turn_at_onto p i Hok ltac:(lia)) as (j & Hj & <-). exists j. rewrite elem_of_seqZ. split; [done|lia].
Qed.

Lemma count_filter {A} (g : A → tr_pipeline_data_slot) (l : list A) st :
  Z.of_nat (length (filter (λ i, ds_state (g i) = st) l)) = zsum (in_state st) (map g l).
Proof.
  induction l as [|x l IH]; [done|]. cbn [map zsum]. destruct (decide (ds_state (g x) = st)) as [Hs|Hs].
  - rewrite filter_cons_True by done. rewrite in_state_is by done. cbn [length]. lia.
  - rewrite filter_cons_False by done. rewrite in_state_isnt by done. lia.
Qed.

Lemma list_as_map {A} `{!Inhabited A} (l : list A) : map (λ i, l.[i]) (seqZ 0 (alen l)) = l.
Proof.
  apply list_eq. intros n. rewrite list_lookup_fmap. unfold alen. destruct (decide (n < length l)%nat) as [Hn|Hn].
  - rewrite lookup_seqZ_lt by lia. cbn. rewrite Z.add_0_l. unfold aget. rewrite Nat2Z.id. symmetry. apply list_lookup_lookup_total_lt. lia.
  - rewrite lookup_seqZ_ge by lia. symmetry. apply lookup_ge_None. lia.
Qed.

Lemma coming_up_length p : pipeline_ok p → length (coming_up p 0) = Z.to_nat (pl_data_count p).
Proof.
  intros Hok. rewrite (coming_up_members p Hok). pose proof (count_filter (λ i, (pl_data_slots p).[i]) (seqZ 0 (pl_data_capacity p)) Data_attached) as H.
  rewrite <- (pk_length _ Hok) in H at 2. rewrite list_as_map, <- (pk_count _ Hok) in H. rewrite <- H. by rewrite Nat2Z.id.
Qed.

(** * Properties *)

(** C11: a request to a pipeline that reaches the pipeline's owner is
    refused exactly when the group it stands for refuses it, with the status of the first
    reason that applies, and then changes nothing; otherwise it succeeds and does to the
    group's maps what the group's operation does.  A request that does not reach the owner
    fails and changes nothing. *)
Theorem pipeline_refines_group e op p : pipeline_ok p → op_ok op →
  let '(r, q, out) := pipeline_exec e op (Some p) in
  if reaches e then match refusal (group_of p) op with
    | Some refused => r = refused ∧ r ≠ TR_OK ∧ q = Some p ∧ out = Out_nothing
    | None => r = TR_OK ∧ ∃ q', q = Some q' ∧ effect (group_of p) op out (group_of q')
    end
  else r ≠ TR_OK ∧ q = Some p ∧ out = Out_nothing.
Proof.
  intros Hok Hop. pose proof (pipeline_exec_answered e op p Hok Hop) as H. unfold answered, outcome in H. destruct (reaches e).
  - destruct H as (r & q & out & -> & _ & H). destruct (refusal _ _).
    + by destruct H as (-> & ? & -> & ->).
    + destruct H as [-> H]. split; [done|]. by exists q.
  - by destruct H as (r & Hr & ->).
Qed.

(** the parts of a pipeline made by [tr_pipeline_create] agree whatever is requested of it and
    from whichever threads ([pipeline_ok]: exact counts, one role per connection, every
    reservation under CONTROL, every stream bound to an attached member with its
    generation); and the assertions of [tr_pipeline_destroy] hold once CONTROL is cleared and
    no member is left: no stream outlives its member. *)
Theorem pipeline_consistent c out alloc slots table p l : config_small c →
  tr_pipeline_create (Some c) out alloc slots table = (TR_OK, Some p) → Forall (λ eo, op_ok eo.2) l →
  ∃ q, pipeline_execs l (Some p) = Some q ∧ pipeline_ok q ∧
    (tr_pipeline_destroy (Some q) = true ↔ gr_control (group_of q) = None ∧ gr_members (group_of q) = ∅).
Proof.
  intros Hc Hp Hl. destruct (tr_pipeline_create_ok _ _ _ _ _ _ Hc Hp) as (Hok & _).
  destruct (pipeline_execs_ok l p Hok Hl) as (q & -> & Hq). exists q. split; [done|]. split; [done|].
  by apply destroy_iff.
Qed.

(** C28: a reservation is a capability that is good once: after an attachment or a cancellation with
    it has succeeded, neither succeeds with it again; and after a member has been removed,
    nothing that names it succeeds.  This holds while fewer than [2^32 - 1] requests follow:
    then the slot's generation may have come round. *)
Theorem pipeline_capability_once e op data p : pipeline_ok p → op_ok op → consumes data op ∨ op = Po_remove data →
  (pipeline_exec e op (Some p)).1.1 = TR_OK →
  ∀ l e' op', Forall (λ eo, op_ok eo.2) l → Z.of_nat (length l) < 2 ^ 32 - 1 →
  consumes data op' ∨ op = Po_remove data ∧ addresses data op' →
  (pipeline_exec e' op' (pipeline_execs l (pipeline_exec e op (Some p)).1.2)).1.1 ≠ TR_OK.
Proof.
  intros Hok Hop Hc Hr l e' op' Hl Hlen Hop'.
  assert (0 ≤ dr_index data) as H0 by by destruct Hc as [[-> |[c ->]]| ->].
  assert (op_ok op') as Ho' by (destruct Hop' as [[-> |[c ->]]|[_ [-> |[-> |[sid ->]]]]]; done).
  assert (∃ st, names p st data) as [st (Hi & Hg0 & _ & Hg)].
  { destruct Hc as [Hc| ->]; eexists; [by apply (consumes_names data op p e)|by apply (addresses_names data (Po_remove data) p e); [..|by left|]]. }
  destruct (slot_at _ _ Hok Hi) as [Hu _]. rewrite Hg in Hu.
  assert (∃ bad q, (pipeline_exec e op (Some p)).1.2 = Some q ∧ pipeline_ok q ∧ spent bad data 0 q ∧
    (bad = (λ st, st = Data_reserved) ∧ consumes data op' ∨ bad = (λ st, st ≠ Data_free))) as (bad & q & E & Hq & Hs & Hbad).
  { destruct Hc as [Hc| ->].
    - destruct (consumes_names _ _ _ _ Hok Hop Hc Hr) as (_ & q & E & Hq & Hs). eexists _, q. split; [done|]. split; [done|].
      split; [done|]. left. split; [done|]. destruct Hop' as [?|[-> _]]; [done|]. by destruct Hc as [?|[? ?]].
    - destruct (remove_spent _ _ _ Hok H0 Hr) as (q & E & Hq & _ & Hs). eexists _, q. split; [done|]. split; [done|]. split; [done|by right]. }
  assert (0 ≤ dr_index data < pl_data_capacity q) as Hiq.
  { by rewrite (exec_capacity _ _ _ _ Hok Hop E). }
  rewrite E. destruct (spent_execs bad data l q 0) as (q' & -> & Hq' & Hs'); [destruct Hbad as [[? _]|?]; [by left|by right]|done..|].
  intros Hr'. assert (Z.of_nat (length l) < gen_period) as Hlen' by done. rewrite Z.add_0_l in Hs'.
  destruct Hbad as [[-> Hcons]| ->].
  - destruct (consumes_names data op' q' e' Hq' Ho' Hcons Hr') as [Hn _]. by refine (spent_not_names _ data _ q' Data_reserved Hu Hg0 Hlen' _ Hs' Hn).
  - destruct Hop' as [Hcons|[_ Hadd]].
    + destruct (consumes_names data op' q' e' Hq' Ho' Hcons Hr') as [Hn _]. by refine (spent_not_names _ data _ q' Data_reserved Hu Hg0 Hlen' _ Hs' Hn).
    + pose proof (addresses_names data op' q' e' Hq' Ho' Hadd Hr') as Hn. by refine (spent_not_names _ data _ q' Data_attached Hu Hg0 Hlen' _ Hs' Hn).
Qed.

(** selection goes round: as many consecutive selections as there are attached members answer
    each of them once, in the order of their slots from [next_data_index] on. *)
Theorem pipeline_selection_rotates p l : pipeline_ok p → Forall (λ e, reaches e = true) l → length l = Z.to_nat (pl_data_count p) →
  selections l (Some p) = map (λ i, Out_ref (slot_ref p i)) (coming_up p 0) ∧
  coming_up p 0 ≡ₚ filter (is_attached p) (seqZ 0 (pl_data_capacity p)).
Proof.
  intros Hok Hl Hlen. split; [|by apply coming_up_members]. pose proof (pk_capacity _ Hok). pose proof (pk_next _ Hok) as Hn.
  rewrite <- (firstn_all (coming_up p 0)) at 1. rewrite coming_up_length, <- Hlen by done.
  rewrite <- selections_spec; [|done..|lia|by rewrite coming_up_length, Hlen]. do 2 f_equal.
  unfold turn_at. rewrite Z.add_0_r, Z.mod_small by done. by destruct p.
Qed.

(** ** The hypotheses can hold *)

Definition demo_config : tr_pipeline_config := mk_pipeline_config (Some 0%nat) 0 7 1 3 4.
Definition demo_conn (slot : Z) : tr_conn_handle := mk_conn (Some 0%nat) slot 1.
#[local] Abbreviation demo_new := (default (mk_pipeline None 0 0 0 false zero_conn [] 0 0 0 0 [] 0 0)
  (tr_pipeline_create (Some demo_config) true true true true).2).
(** Three members, the second of which is the next. *)
Definition demo_run : list (owner_call * pipeline_op) :=
  map (pair from_owner) [Po_set_control (demo_conn 9); Po_add (demo_conn 1); Po_add (demo_conn 2); Po_add (demo_conn 3);
    Po_select; Po_bind 5 (mk_data_ref 2 1)].
#[local] Abbreviation demo_pipeline := (default demo_new (pipeline_execs demo_run (Some demo_new))).

Lemma demo_group_run_ok : Forall (λ eo, op_ok eo.2) demo_run.
Proof. repeat constructor; cbn; lia. Qed.

Lemma demo_config_small : config_small demo_config.
Proof. unfold config_small. cbn. lia. Qed.

Lemma demo_new_ok : pipeline_ok demo_new.
Proof. by destruct (tr_pipeline_create_ok demo_config true true true true demo_new demo_config_small eq_refl) as [H _]. Qed.

Lemma demo_pipeline_ok : pipeline_ok demo_pipeline.
Proof. destruct (pipeline_execs_ok demo_run demo_new demo_new_ok demo_group_run_ok) as (q & E & Hq). by rewrite E. Qed.

Lemma pipeline_refines_group_witness : (pipeline_exec from_owner (Po_prepare 6) (Some demo_pipeline)).1.1 = TR_OK ∧
  (pipeline_exec from_owner (Po_prepare 5) (Some demo_pipeline)).1.1 = TR_ERR_STATE.
Proof.
  pose proof (pipeline_refines_group from_owner (Po_prepare 6) demo_pipeline demo_pipeline_ok I) as H1.
  pose proof (pipeline_refines_group from_owner (Po_prepare 5) demo_pipeline demo_pipeline_ok I) as H2.
  assert (refusal (group_of demo_pipeline) (Po_prepare 6) = None) as E1 by (vm_compute; reflexivity).
  assert (refusal (group_of demo_pipeline) (Po_prepare 5) = Some TR_ERR_STATE) as E2 by (vm_compute; reflexivity).
  rewrite E1 in H1. rewrite E2 in H2. destruct (pipeline_exec from_owner (Po_prepare 6) _) as [[r q] out].
  destruct (pipeline_exec from_owner (Po_prepare 5) _) as [[r' q'] out']. split; [apply H1|apply H2].
Defined.

Lemma pipeline_consistent_witness : ∃ q, pipeline_execs demo_run (Some demo_new) = Some q ∧ pipeline_ok q.
Proof.
  destruct (pipeline_consistent demo_config true true true true demo_new demo_run demo_config_small eq_refl demo_group_run_ok) as (q & E & Hq & _).
  exists q. split; [exact E|exact Hq].
Defined.

Lemma pipeline_capability_once_witness :
  (pipeline_exec from_owner (Po_connection (mk_data_ref 2 1))
     (pipeline_execs [(from_owner, Po_add (demo_conn 4))] (pipeline_exec from_owner (Po_remove (mk_data_ref 2 1)) (Some demo_pipeline)).1.2)).1.1 ≠ TR_OK.
Proof.
  apply (pipeline_capability_once from_owner (Po_remove (mk_data_ref 2 1)) (mk_data_ref 2 1) demo_pipeline demo_pipeline_ok).
  - cbn. lia.
  - right. reflexivity.
  - vm_compute. reflexivity.
  - repeat constructor.
  - cbn. lia.
  - right. split; [reflexivity|]. right. left. reflexivity.
Defined.

Lemma pipeline_selection_rotates_witness :
  selections [from_owner; from_owner; from_owner] (Some demo_pipeline) = map (λ i, Out_ref (mk_data_ref i 1)) [1; 2; 0].
Proof.
  destruct (pipeline_selection_rotates demo_pipeline [from_owner; from_owner; from_owner] demo_pipeline_ok) as [H _].
  - repeat constructor.
  - vm_compute. reflexivity.
  - rewrite H. vm_compute. reflexivity.
Defined.
