(* ===== verification/PipelineRegistry.v ===== *)
(** The pipelines of a shard: [src/group/pipeline_registry.c], [pipeline_registry_internal.h].

    A hash table (ProbeTable) from pipeline ids to pipelines, that belongs to a reactor's owner.
    It holds pointers only: the pipelines are objects of their own, in a store that the
    model passes along with the registry.  A connection that has sent a route preface
    is attached through it to the pipeline and the reservation that the preface names.

    Theorems: the registry is a finite map, whatever is done to it and to the pipelines; it never
    holds a pointer to a pipeline that is gone; a route attaches exactly the connection that
    holds the reservation; publishing and withdrawing a pipeline is all or nothing. *)
From S2P Require Import Prelude Status ChannelTypes ReactorCall ProbeTable PipelineRoute Pipeline PipelineSpec.

(** * Data *)

(** A pointer to a pipeline: NULL is [None]. *)
Abbreviation pipeline_ptr := (option nat).

Record tr_pipeline_registry_entry := mk_registry_entry {
  re_pipeline_id : Z;
  re_pipeline : pipeline_ptr;
  re_state : probe_state
}.

Definition zero_registry_entry : tr_pipeline_registry_entry := mk_registry_entry 0 None Slot_empty.

#[export] Instance tr_pipeline_registry_entry_inhabited : Inhabited tr_pipeline_registry_entry := populate zero_registry_entry.

Record tr_pipeline_registry := mk_registry {
  rg_owner : option nat;
  rg_owner_shard_id : Z;
  rg_entries : list tr_pipeline_registry_entry;
  rg_capacity : Z;
  rg_count : Z
}.

Record tr_pipeline_registry_config := mk_registry_config { rc_owner : option nat; rc_owner_shard_id : Z; rc_capacity : Z }.
Record tr_pipeline_registry_stats := mk_registry_stats { rs_owner_shard_id : Z; rs_capacity : Z; rs_count : Z }.

Definition rg_set_entries (r : tr_pipeline_registry) (entries : list tr_pipeline_registry_entry) (count : Z) : tr_pipeline_registry :=
  mk_registry (rg_owner r) (rg_owner_shard_id r) entries (rg_capacity r) count.

(** ** The pipelines *)

Abbreviation pipeline_store := (gmap nat tr_pipeline).

(** What a pointer leads to; a pointer to a pipeline that is gone reads like NULL here. *)
Definition pipeline_at (h : pipeline_store) (ptr : pipeline_ptr) : option tr_pipeline := i ← ptr; h !! i.

Definition put_pipeline (h : pipeline_store) (ptr : pipeline_ptr) (q : option tr_pipeline) : pipeline_store :=
  match ptr, q with Some i, Some q => <[i := q]> h | _, _ => h end.

(** What the owner of the registry's reactor changes. *)
Abbreviation shard := (tr_pipeline_registry * gmap nat tr_pipeline)%type.

(** What a call from the owner of [current] to the owner of [target] meets; [other]: when they differ. *)
Definition calls_owner (current target : option nat) (other : owner_call) : owner_call :=
  if bool_decide (target = current) then from_owner else other.

(** * Lookup *)

Definition tr_pipeline_registry_hash (pipeline_id : Z) : Z :=
  let value := pipeline_id in
  let value := Z.lxor value (Z.shiftr value 33) in
  let value := u64 (value * 0xff51afd7ed558ccd) in
  let value := Z.lxor value (Z.shiftr value 33) in
  let value := u64 (value * 0xc4ceb9fe1a85ec53) in
  let value := Z.lxor value (Z.shiftr value 33) in
  u32 (Z.lxor value (Z.shiftr value 32)).

Definition tr_pipeline_registry_find (r : tr_pipeline_registry) (pipeline_id : Z) : probe_result :=
  probe_find re_state re_pipeline_id tr_pipeline_registry_hash (rg_entries r) (rg_capacity r) pipeline_id.

(** * Creation *)

Definition tr_pipeline_registry_create (config : option tr_pipeline_registry_config) (out : bool) (alloc entries : bool)
    : tr_status * option tr_pipeline_registry :=
  bail (TR_ERR_INVALID, None) when (negb out) ;;
  match config with
  | None => (TR_ERR_INVALID, None)
  | Some c =>
      bail (TR_ERR_INVALID, None) when
        (negb (bool_decide (is_Some (rc_owner c))) || (rc_owner_shard_id c =? UINT32_MAX) || (rc_capacity c =? 0)) ;;
      bail (TR_ERR_NOMEM, None) when (negb alloc) ;;
      bail (TR_ERR_NOMEM, None) when (negb entries) ;;
      (TR_OK, Some (mk_registry (rc_owner c) (rc_owner_shard_id c)
         (replicate (Z.to_nat (rc_capacity c)) zero_registry_entry) (rc_capacity c) 0))
  end.

(** Whether the assertion of [tr_pipeline_registry_destroy] holds. *)
Definition tr_pipeline_registry_destroy (r : option tr_pipeline_registry) : bool :=
  match r with None => true | Some r => rg_count r =? 0 end.

Definition tr_pipeline_registry_owner (r : option tr_pipeline_registry) : option nat :=
  match r with None => None | Some r => rg_owner r end.
Definition tr_pipeline_registry_owner_shard_id (r : option tr_pipeline_registry) : Z :=
  match r with None => UINT32_MAX | Some r => rg_owner_shard_id r end.

(** * On the owner *)

(** The pipeline belongs to the registry's shard. *)
Definition same_shard (r : tr_pipeline_registry) (p : option tr_pipeline) : bool :=
  bool_decide (tr_pipeline_owner p = rg_owner r) && (tr_pipeline_owner_shard_id p =? rg_owner_shard_id r).

(** The entry [insert] is used for a pipeline, and an entry is given up. *)
Definition publish (r : tr_pipeline_registry) (insert id : Z) (ptr : pipeline_ptr) : tr_pipeline_registry :=
  rg_set_entries r ((rg_entries r).[insert <- mk_registry_entry id ptr Slot_used]) (u32 (rg_count r + 1)).
Definition withdraw (r : tr_pipeline_registry) (found : Z) : tr_pipeline_registry :=
  rg_set_entries r ((rg_entries r).[found <- mk_registry_entry 0 None Slot_tombstone]) (u32 (rg_count r - 1)).

Definition tr_pipeline_registry_register_on_owner (ptr : pipeline_ptr) (s : shard) : tr_status * shard :=
  let '(r, h) := s in
  let pipeline := pipeline_at h ptr in
  bail (TR_ERR_INVALID, s) when (negb (same_shard r pipeline)) ;;
  match tr_pipeline_registry_find r (tr_pipeline_id pipeline) with
  | Pr_found _ => (TR_ERR_STATE, s)
  | Pr_absent insert =>
      bail (TR_AGAIN, s) when ((rg_count r =? rg_capacity r) || (insert =? UINT32_MAX)) ;;
      (TR_OK, (publish r insert (tr_pipeline_id pipeline) ptr, h))
  end.

Definition tr_pipeline_registry_register_control_on_owner (other : owner_call) (ptr : pipeline_ptr) (connection : tr_conn_handle)
    (s : shard) : tr_status * shard :=
  let '(r, h) := s in
  let pipeline := pipeline_at h ptr in
  bail (TR_ERR_INVALID, s) when (negb (same_shard r pipeline) || negb (bool_decide (ch_reactor connection = rg_owner r))) ;;
  match tr_pipeline_registry_find r (tr_pipeline_id pipeline) with
  | Pr_found _ => (TR_ERR_STATE, s)
  | Pr_absent insert =>
      bail (TR_AGAIN, s) when ((rg_count r =? rg_capacity r) || (insert =? UINT32_MAX)) ;;
      let e := calls_owner (rg_owner r) (tr_pipeline_owner pipeline) other in
      let '(ret, pipeline) := tr_pipeline_set_control e pipeline connection in
      let h := put_pipeline h ptr pipeline in
      bail (ret, (r, h)) when (negb (is_ok ret)) ;;
      (TR_OK, (publish r insert (tr_pipeline_id pipeline) ptr, h))
  end.

Definition zero_pipeline_stats : tr_pipeline_stats := mk_pipeline_stats 0 0 0 0 0 0 0 0 false.

Definition tr_pipeline_registry_unregister_on_owner (other : owner_call) (ptr : pipeline_ptr) (s : shard) : tr_status * shard :=
  let '(r, h) := s in
  let pipeline := pipeline_at h ptr in
  match tr_pipeline_registry_find r (tr_pipeline_id pipeline) with
  | Pr_absent _ => (TR_ERR_STALE, s)
  | Pr_found found =>
      bail (TR_ERR_STALE, s) when (negb (bool_decide (re_pipeline (rg_entries r).[found] = ptr))) ;;
      let e := calls_owner (rg_owner r) (tr_pipeline_owner pipeline) other in
      let '(ret, _, stats) := tr_pipeline_get_stats e pipeline (Some zero_pipeline_stats) in
      bail (ret, s) when (negb (is_ok ret)) ;;
      let stats := default zero_pipeline_stats stats in
      bail (TR_ERR_STATE, s) when
        (ps_control_bound stats || negb (ps_data_reserved_count stats =? 0) || negb (ps_data_count stats =? 0) ||
         negb (ps_stream_affinity_count stats =? 0)) ;;
      (TR_OK, (withdraw r found, h))
  end.

Definition tr_pipeline_registry_close_control_on_owner (other : owner_call) (ptr : pipeline_ptr) (expected : tr_conn_handle)
    (s : shard) : tr_status * shard :=
  let '(r, h) := s in
  let pipeline := pipeline_at h ptr in
  match tr_pipeline_registry_find r (tr_pipeline_id pipeline) with
  | Pr_absent _ => (TR_ERR_STALE, s)
  | Pr_found found =>
      bail (TR_ERR_STALE, s) when (negb (bool_decide (re_pipeline (rg_entries r).[found] = ptr))) ;;
      let e := calls_owner (rg_owner r) (tr_pipeline_owner pipeline) other in
      let '(ret, _, stats) := tr_pipeline_get_stats e pipeline (Some zero_pipeline_stats) in
      bail (ret, s) when (negb (is_ok ret)) ;;
      let stats := default zero_pipeline_stats stats in
      bail (TR_ERR_STALE, s) when (negb (ps_control_bound stats)) ;;
      bail (TR_ERR_STATE, s) when (negb (ps_data_count stats =? 0) || negb (ps_stream_affinity_count stats =? 0)) ;;
      let '(ret, pipeline) := tr_pipeline_clear_control e pipeline expected in
      let h := put_pipeline h ptr pipeline in
      bail (ret, (r, h)) when (negb (is_ok ret)) ;;
      (TR_OK, (withdraw r found, h))
  end.

(** ** Routes *)

(** What the preface names: the pipeline, and the reservation or member. *)
Definition preface_data (preface : tr_pipeline_route_preface) : tr_pipeline_data_ref :=
  mk_data_ref (pf_member_index preface) (pf_member_generation preface).

(** The third component: [*pipeline_out] and [*data_out], when [TR_OK]. *)
Definition tr_pipeline_registry_resolve_data_route_on_owner (s : shard) (preface : tr_pipeline_route_preface)
    : tr_status * pipeline_ptr * tr_pipeline_data_ref :=
  let '(r, h) := s in
  let ret := tr_pipeline_route_preface_validate_fields (Some preface) in
  bail (ret, None, zero_data_ref) when (negb (is_ok ret)) ;;
  bail (TR_ERR_BAD_TYPE, None, zero_data_ref) when (negb (pf_role preface =? TR_PIPELINE_ROUTE_DATA)) ;;
  bail (TR_ERR_STALE, None, zero_data_ref) when (negb (pf_owner_shard_id preface =? rg_owner_shard_id r)) ;;
  match tr_pipeline_registry_find r (pf_pipeline_id preface) with
  | Pr_absent _ => (TR_ERR_STALE, None, zero_data_ref)
  | Pr_found found =>
      let ptr := re_pipeline (rg_entries r).[found] in
      let pipeline := pipeline_at h ptr in
      bail (TR_ERR_STALE, None, zero_data_ref) when
        (negb (bool_decide (is_Some ptr)) || negb (same_shard r pipeline) || negb (tr_pipeline_epoch pipeline =? pf_epoch preface)) ;;
      let data := preface_data preface in
      let ret := tr_pipeline_validate_data_reservation_on_owner pipeline data in
      bail (ret, None, data) when (negb (is_ok ret)) ;;
      (TR_OK, ptr, data)
  end.

Definition tr_pipeline_registry_validate_data_route_on_owner (r : option tr_pipeline_registry) (h : pipeline_store)
    (preface : option tr_pipeline_route_preface) : tr_status :=
  match r, preface with
  | Some r, Some preface => (tr_pipeline_registry_resolve_data_route_on_owner (r, h) preface).1.1
  | _, _ => TR_ERR_INVALID
  end.

(** The state: the shard, and the targets of [data_out] and [pipeline_out]. *)
Definition tr_pipeline_registry_attach_data_route_on_owner (other : owner_call) (preface : tr_pipeline_route_preface)
    (connection : tr_conn_handle) (s : shard * option tr_pipeline_data_ref * option pipeline_ptr)
    : tr_status * (shard * option tr_pipeline_data_ref * option pipeline_ptr) :=
  let '((r, h), data_out, pipeline_out) := s in
  bail (TR_ERR_INVALID, s) when (negb (bool_decide (ch_reactor connection = rg_owner r))) ;;
  let '(ret, ptr, data) := tr_pipeline_registry_resolve_data_route_on_owner (r, h) preface in
  bail (ret, s) when (negb (is_ok ret)) ;;
  let e := calls_owner (rg_owner r) (tr_pipeline_owner (pipeline_at h ptr)) other in
  let '(ret, pipeline) := tr_pipeline_attach_data e (pipeline_at h ptr) data connection in
  let h := put_pipeline h ptr pipeline in
  bail (ret, ((r, h), data_out, pipeline_out)) when (negb (is_ok ret)) ;;
  (TR_OK, ((r, h), (λ _, data) <$> data_out, (λ _, ptr) <$> pipeline_out)).

Definition tr_pipeline_registry_cancel_data_route_on_owner (other : owner_call) (preface : tr_pipeline_route_preface) (s : shard)
    : tr_status * shard :=
  let '(r, h) := s in
  let ret := tr_pipeline_route_preface_validate_fields (Some preface) in
  bail (ret, s) when (negb (is_ok ret)) ;;
  bail (TR_ERR_BAD_TYPE, s) when (negb (pf_role preface =? TR_PIPELINE_ROUTE_DATA)) ;;
  bail (TR_ERR_STALE, s) when (negb (pf_owner_shard_id preface =? rg_owner_shard_id r)) ;;
  match tr_pipeline_registry_find r (pf_pipeline_id preface) with
  | Pr_absent _ => (TR_ERR_STALE, s)
  | Pr_found found =>
      let ptr := re_pipeline (rg_entries r).[found] in
      let pipeline := pipeline_at h ptr in
      bail (TR_ERR_STALE, s) when
        (negb (bool_decide (is_Some ptr)) || negb (same_shard r pipeline) || negb (tr_pipeline_epoch pipeline =? pf_epoch preface)) ;;
      let e := calls_owner (rg_owner r) (tr_pipeline_owner pipeline) other in
      let '(ret, pipeline) := tr_pipeline_cancel_data_reservation e pipeline (preface_data preface) in
      (ret, (r, put_pipeline h ptr pipeline))
  end.

Definition tr_pipeline_registry_detach_data_route_on_owner (other : owner_call) (preface : tr_pipeline_route_preface)
    (expected : tr_conn_handle) (s : shard) : tr_status * shard :=
  let '(r, h) := s in
  let ret := tr_pipeline_route_preface_validate_fields (Some preface) in
  bail (ret, s) when (negb (is_ok ret)) ;;
  bail (TR_ERR_BAD_TYPE, s) when (negb (pf_role preface =? TR_PIPELINE_ROUTE_DATA)) ;;
  bail (TR_ERR_STALE, s) when (negb (pf_owner_shard_id preface =? rg_owner_shard_id r)) ;;
  bail (TR_ERR_INVALID, s) when (negb (bool_decide (ch_reactor expected = rg_owner r))) ;;
  match tr_pipeline_registry_find r (pf_pipeline_id preface) with
  | Pr_absent _ => (TR_ERR_STALE, s)
  | Pr_found found =>
      let ptr := re_pipeline (rg_entries r).[found] in
      let pipeline := pipeline_at h ptr in
      bail (TR_ERR_STALE, s) when (negb (bool_decide (is_Some ptr)) || negb (tr_pipeline_epoch pipeline =? pf_epoch preface)) ;;
      let data := preface_data preface in
      let e := calls_owner (rg_owner r) (tr_pipeline_owner pipeline) other in
      let '(ret, pipeline, current) := tr_pipeline_data_connection e pipeline data (Some zero_conn) in
      bail (ret, s) when (negb (is_ok ret)) ;;
      bail (TR_ERR_STALE, s) when (negb (tr_pipeline_conn_equal (default zero_conn current) expected)) ;;
      let '(ret, pipeline) := tr_pipeline_remove_data e pipeline data in
      (ret, (r, put_pipeline h ptr pipeline))
  end.

Definition tr_pipeline_registry_get_stats_on_owner (s : tr_pipeline_registry * tr_pipeline_registry_stats)
    : tr_status * (tr_pipeline_registry * tr_pipeline_registry_stats) :=
  let '(r, _) := s in (TR_OK, (r, mk_registry_stats (rg_owner_shard_id r) (rg_capacity r) (rg_count r))).

(** * From any thread *)

(** [e]: what the call into the registry's owner meets. *)
Definition registry_call (e : owner_call) (fn : shard → tr_status * shard) (r : option tr_pipeline_registry) (h : pipeline_store)
    : tr_status * option tr_pipeline_registry * pipeline_store :=
  match r with
  | None => (TR_ERR_INVALID, None, h)
  | Some r => let '(ret, (r, h)) := tr_reactor_call e (Some fn) (r, h) in (ret, Some r, h)
  end.

Definition tr_pipeline_registry_register e r h (ptr : pipeline_ptr) :=
  bail (TR_ERR_INVALID, r, h) when (negb (bool_decide (is_Some ptr))) ;;
  registry_call e (tr_pipeline_registry_register_on_owner ptr) r h.

Definition tr_pipeline_registry_register_control e other r h (ptr : pipeline_ptr) (connection : tr_conn_handle) :=
  bail (TR_ERR_INVALID, r, h) when (negb (bool_decide (is_Some ptr))) ;;
  registry_call e (tr_pipeline_registry_register_control_on_owner other ptr connection) r h.

Definition tr_pipeline_registry_unregister e other r h (ptr : pipeline_ptr) :=
  bail (TR_ERR_INVALID, r, h) when (negb (bool_decide (is_Some ptr))) ;;
  registry_call e (tr_pipeline_registry_unregister_on_owner other ptr) r h.

Definition tr_pipeline_registry_close_control e other r h (ptr : pipeline_ptr) (expected : tr_conn_handle) :=
  bail (TR_ERR_INVALID, r, h) when
    (negb (bool_decide (is_Some ptr)) ||
     negb match r with None => false | Some r => same_shard r (pipeline_at h ptr) end) ;;
  registry_call e (tr_pipeline_registry_close_control_on_owner other ptr expected) r h.

Definition tr_pipeline_registry_attach_data_route e other (r : option tr_pipeline_registry) h
    (preface : option tr_pipeline_route_preface) (connection : tr_conn_handle) (data_out : option tr_pipeline_data_ref)
    : tr_status * option tr_pipeline_registry * pipeline_store * option tr_pipeline_data_ref :=
  match r, preface with
  | Some q, Some preface =>
      let data_out := (λ _, zero_data_ref) <$> data_out in
      let '(ret, ((q, h), data_out, _)) :=
        tr_reactor_call e (Some (tr_pipeline_registry_attach_data_route_on_owner other preface connection)) ((q, h), data_out, None) in
      (ret, Some q, h, data_out)
  | _, _ => (TR_ERR_INVALID, r, h, data_out)
  end.

Definition tr_pipeline_registry_attach_data_route_local_on_owner other (r : option tr_pipeline_registry) h
    (preface : option tr_pipeline_route_preface) (connection : tr_conn_handle) (data_out : option tr_pipeline_data_ref)
    (pipeline_out : option pipeline_ptr)
    : tr_status * option tr_pipeline_registry * pipeline_store * option tr_pipeline_data_ref * option pipeline_ptr :=
  match r, preface, pipeline_out with
  | Some q, Some preface, Some _ =>
      bail (TR_ERR_INVALID, r, h, data_out, pipeline_out) when (negb (bool_decide (ch_reactor connection = rg_owner q))) ;;
      let data_out := (λ _, zero_data_ref) <$> data_out in
      let '(ret, ((q, h), data_out, pipeline_out)) :=
        tr_pipeline_registry_attach_data_route_on_owner other preface connection ((q, h), data_out, Some None) in
      (ret, Some q, h, data_out, pipeline_out)
  | _, _, _ => (TR_ERR_INVALID, r, h, data_out, pipeline_out)
  end.

Definition tr_pipeline_registry_cancel_data_route e other r h (preface : option tr_pipeline_route_preface) :=
  match preface with
  | None => (TR_ERR_INVALID, r, h)
  | Some preface => registry_call e (tr_pipeline_registry_cancel_data_route_on_owner other preface) r h
  end.

Definition tr_pipeline_registry_detach_data_route e other r h (preface : option tr_pipeline_route_preface) (expected : tr_conn_handle) :=
  match preface with
  | None => (TR_ERR_INVALID, r, h)
  | Some preface => registry_call e (tr_pipeline_registry_detach_data_route_on_owner other preface expected) r h
  end.

Definition tr_pipeline_registry_get_stats e (r : option tr_pipeline_registry) (out : option tr_pipeline_registry_stats)
    : tr_status * option tr_pipeline_registry * option tr_pipeline_registry_stats :=
  match r, out with
  | Some r, Some _ =>
      let '(ret, (r, out)) := tr_reactor_call e (Some tr_pipeline_registry_get_stats_on_owner) (r, mk_registry_stats 0 0 0) in
      (ret, Some r, Some out)
  | _, _ => (TR_ERR_INVALID, r, out)
  end.

(** * The directory *)

(** Requests to a registry; pointers are not NULL. *)
Inductive shard_op :=
| So_register (i : nat)
| So_register_control (i : nat) (connection : tr_conn_handle)
| So_unregister (i : nat)
| So_close_control (i : nat) (expected : tr_conn_handle)
| So_attach (preface : tr_pipeline_route_preface) (connection : tr_conn_handle)
| So_cancel (preface : tr_pipeline_route_preface)
| So_detach (preface : tr_pipeline_route_preface) (expected : tr_conn_handle).

Definition shard_exec (e other : owner_call) (op : shard_op) (r : option tr_pipeline_registry) (h : pipeline_store)
    : tr_status * option tr_pipeline_registry * pipeline_store :=
  match op with
  | So_register i => tr_pipeline_registry_register e r h (Some i)
  | So_register_control i connection => tr_pipeline_registry_register_control e other r h (Some i) connection
  | So_unregister i => tr_pipeline_registry_unregister e other r h (Some i)
  | So_close_control i expected => tr_pipeline_registry_close_control e other r h (Some i) expected
  | So_attach preface connection => (tr_pipeline_registry_attach_data_route e other r h (Some preface) connection None).1
  | So_cancel preface => tr_pipeline_registry_cancel_data_route e other r h (Some preface)
  | So_detach preface expected => tr_pipeline_registry_detach_data_route e other r h (Some preface) expected
  end.

(** A pipeline as the directory lists it. *)
Record listed := mk_listed { ls_shard : Z; ls_id : Z; ls_epoch : Z; ls_group : group }.

(** A finite map from ids to pipelines, and the pipelines. *)
Record directory := mk_directory {
  di_owner : option nat;
  di_shard : Z;
  di_capacity : Z;
  di_routes : gmap Z nat;
  di_pipelines : gmap nat listed
}.

Definition di_set (d : directory) (routes : gmap Z nat) (pipelines : gmap nat listed) : directory :=
  mk_directory (di_owner d) (di_shard d) (di_capacity d) routes pipelines.
Definition ls_set_group (l : listed) (g : group) : listed := mk_listed (ls_shard l) (ls_id l) (ls_epoch l) g.

Definition foreign_pipeline (d : directory) (l : listed) : bool :=
  negb (bool_decide (gr_owner (ls_group l) = di_owner d) && (ls_shard l =? di_shard d)).
Definition foreign_connection (d : directory) (c : tr_conn_handle) : bool := negb (bool_decide (ch_reactor c = di_owner d)).
Definition known (d : directory) (id : Z) : bool := bool_decide (is_Some (di_routes d !! id)).
Definition di_full (d : directory) : bool := di_capacity d <=? Z.of_nat (size (di_routes d)).
Definition idle (g : group) : bool := bool_decide (gr_control g = None) && bool_decide (gr_members g = ∅).

(** The pipeline a preface leads to. *)
Definition target (d : directory) (preface : tr_pipeline_route_preface) : option (nat * listed) :=
  i ← di_routes d !! pf_pipeline_id preface; l ← di_pipelines d !! i;
  if ls_epoch l =? pf_epoch preface then Some (i, l) else None.

(** Reasons against a preface, before the pipeline is asked. *)
Definition preface_reasons (d : directory) (preface : tr_pipeline_route_preface) : list (bool * tr_status) :=
  let ret := tr_pipeline_route_preface_validate_fields (Some preface) in
  [(negb (is_ok ret), ret); (negb (pf_role preface =? TR_PIPELINE_ROUTE_DATA), TR_ERR_BAD_TYPE);
   (negb (pf_owner_shard_id preface =? di_shard d), TR_ERR_STALE)].

(** The first refusal. *)
Definition orelse (a b : option tr_status) : option tr_status := match a with Some r => Some r | None => b end.

Definition asks (d : directory) (i : nat) (f : listed → option tr_status) : option tr_status :=
  match di_pipelines d !! i with Some l => f l | None => Some TR_ERR_INVALID end.
Definition asks_target (d : directory) (preface : tr_pipeline_route_preface) (f : group → option tr_status) : option tr_status :=
  match target d preface with Some (_, l) => f (ls_group l) | None => Some TR_ERR_STALE end.

(** Whether a preface leads to a reservation. *)
Definition route_refusal (d : directory) (preface : tr_pipeline_route_preface) : option tr_status :=
  orelse (reason (preface_reasons d preface))
    (asks_target d preface (λ g,
       reason [(no_control g, TR_ERR_STATE); (negb (reserved_as g (preface_data preface)), TR_ERR_STALE)])).

Definition shard_refusal (d : directory) (op : shard_op) : option tr_status :=
  match op with
  | So_register i => asks d i (λ l,
      reason [(foreign_pipeline d l, TR_ERR_INVALID); (known d (ls_id l), TR_ERR_STATE); (di_full d, TR_AGAIN)])
  | So_register_control i c => asks d i (λ l, orelse
      (reason [(foreign_pipeline d l || foreign_connection d c, TR_ERR_INVALID); (known d (ls_id l), TR_ERR_STATE); (di_full d, TR_AGAIN)])
      (refusal (ls_group l) (Po_set_control c)))
  | So_unregister i => asks d i (λ l,
      reason [(negb (bool_decide (di_routes d !! ls_id l = Some i)), TR_ERR_STALE); (negb (idle (ls_group l)), TR_ERR_STATE)])
  | So_close_control i c => asks d i (λ l, orelse
      (reason [(foreign_pipeline d l, TR_ERR_INVALID); (negb (bool_decide (di_routes d !! ls_id l = Some i)), TR_ERR_STALE);
         (no_control (ls_group l), TR_ERR_STALE); (negb (nobody (ls_group l)), TR_ERR_STATE)])
      (refusal (ls_group l) (Po_clear_control c)))
  | So_attach preface c => orelse (reason [(foreign_connection d c, TR_ERR_INVALID)])
      (orelse (route_refusal d preface) (asks_target d preface (λ g, refusal g (Po_attach (preface_data preface) c))))
  | So_cancel preface => orelse (reason (preface_reasons d preface))
      (asks_target d preface (λ g, refusal g (Po_cancel (preface_data preface))))
  | So_detach preface c => orelse (reason (preface_reasons d preface ++ [(foreign_connection d c, TR_ERR_INVALID)]))
      (asks_target d preface (λ g, reason [(negb (bool_decide (attached_as g (preface_data preface) = Some c)), TR_ERR_STALE)]))
  end.

(** The pipeline [i] does [op]; the routes become [routes]. *)
Definition pipeline_effect (d : directory) (i : nat) (op : pipeline_op) (routes : gmap Z nat) (d' : directory) : Prop :=
  ∃ l g, di_pipelines d !! i = Some l ∧ effect (ls_group l) op Out_nothing g ∧
    d' = di_set d routes (<[i := ls_set_group l g]> (di_pipelines d)).

Definition target_effect (d : directory) (preface : tr_pipeline_route_preface) (op : pipeline_op) (d' : directory) : Prop :=
  ∃ i l, target d preface = Some (i, l) ∧ pipeline_effect d i op (di_routes d) d'.

Definition id_of (d : directory) (i : nat) : Z := match di_pipelines d !! i with Some l => ls_id l | None => 0 end.

Definition shard_effect (d : directory) (op : shard_op) (d' : directory) : Prop :=
  match op with
  | So_register i => d' = di_set d (<[id_of d i := i]> (di_routes d)) (di_pipelines d)
  | So_register_control i c => pipeline_effect d i (Po_set_control c) (<[id_of d i := i]> (di_routes d)) d'
  | So_unregister i => d' = di_set d (delete (id_of d i) (di_routes d)) (di_pipelines d)
  | So_close_control i c => pipeline_effect d i (Po_clear_control c) (delete (id_of d i) (di_routes d)) d'
  | So_attach preface c => target_effect d preface (Po_attach (preface_data preface) c) d'
  | So_cancel preface => target_effect d preface (Po_cancel (preface_data preface)) d'
  | So_detach preface c => target_effect d preface (Po_remove (preface_data preface)) d'
  end.

(** ** The directory a shard is *)

Definition routes (r : tr_pipeline_registry) : gmap Z pipeline_ptr := table_map re_state re_pipeline_id re_pipeline (rg_entries r).

Definition live_routes (r : tr_pipeline_registry) : gmap Z nat := omap (λ ptr, ptr) (routes r).

Definition listed_of (p : tr_pipeline) : listed := mk_listed (pl_owner_shard_id p) (pl_pipeline_id p) (pl_epoch p) (group_of p).

Definition directory_of (s : shard) : directory :=
  mk_directory (rg_owner s.1) (rg_owner_shard_id s.1) (rg_capacity s.1) (live_routes s.1) (listed_of <$> s.2).

Record shard_ok (s : shard) : Prop := {
  rk_owner : is_Some (rg_owner s.1);
  rk_table : probe_ok re_state re_pipeline_id tr_pipeline_registry_hash (rg_entries s.1) (rg_capacity s.1);
  rk_count : rg_count s.1 = used_count re_state (rg_entries s.1);
  rk_live : ∀ id ptr, routes s.1 !! id = Some ptr → ∃ i q, ptr = Some i ∧ s.2 !! i = Some q ∧ pl_pipeline_id q = id ∧
    same_shard s.1 (Some q) = true;
  rk_pipelines : ∀ i q, s.2 !! i = Some q → pipeline_ok q
}.

Definition shard_op_ok (h : pipeline_store) (op : shard_op) : Prop :=
  match op with
  | So_register i | So_register_control i _ | So_unregister i | So_close_control i _ => is_Some (h !! i)
  | So_attach preface _ | So_cancel preface | So_detach preface _ => 0 ≤ pf_member_index preface
  end.

(** ** A pipeline keeps its identity *)

Definition identity (p : tr_pipeline) : option nat * Z * Z * Z := (pl_owner p, pl_owner_shard_id p, pl_pipeline_id p, pl_epoch p).

Lemma on_owner_identity {A} (fn : A → tr_status * A) (P : A → tr_pipeline) e s :
  identity (P (fn s).2) = identity (P s) → identity (P (tr_reactor_call e (Some fn) s).2) = identity (P s).
Proof. intros H. by apply (tr_reactor_call_keeps (λ x, identity (P x) = identity (P s))). Qed.

Lemma update_identity e fn p q : (∀ p, identity (fn p).2 = identity p) → (pipeline_update e fn (Some p)).2 = Some q → identity q = identity p.
Proof.
  intros H. unfold pipeline_update. pose proof (on_owner_identity fn id e p (H p)) as Hi. destruct (tr_reactor_call e (Some fn) p) as [r q'].
  by intros [= <-].
Qed.

Ltac identity_cases := intros; unfold identity; repeat case_match; simplify_eq/=; done.

Lemma set_control_identity c p : identity (tr_pipeline_set_control_on_owner c p).2 = identity p.
Proof. unfold tr_pipeline_set_control_on_owner. identity_cases. Qed.
Lemma clear_control_identity c p : identity (tr_pipeline_clear_control_on_owner c p).2 = identity p.
Proof. unfold tr_pipeline_clear_control_on_owner. identity_cases. Qed.
Lemma attach_identity data c p : identity (tr_pipeline_attach_data_on_owner data c p).2 = identity p.
Proof. unfold tr_pipeline_attach_data_on_owner. identity_cases. Qed.
Lemma cancel_identity data p : identity (tr_pipeline_cancel_data_reservation_on_owner data p).2 = identity p.
Proof. unfold tr_pipeline_cancel_data_reservation_on_owner. identity_cases. Qed.
Lemma remove_identity data p : identity (tr_pipeline_remove_data_on_owner data p).2 = identity p.
Proof. unfold tr_pipeline_remove_data_on_owner. identity_cases. Qed.

Lemma call_identity {O} e (fn : tr_pipeline * O → tr_status * (tr_pipeline * O)) f p o :
  (identity (fn (p, o)).2.1 = identity p) → ∀ r q out, with_out f (pipeline_call e fn (Some p) (Some o)) = (r, Some q, out) → identity q = identity p.
Proof.
  intros H r q out. unfold pipeline_call, with_out. pose proof (on_owner_identity fn fst e (p, o) H) as Hi.
  destruct (tr_reactor_call e (Some fn) (p, o)) as [r' [q' o']]. by intros [= <- <- <-].
Qed.

Lemma exec_identity e op p r q out : pipeline_exec e op (Some p) = (r, Some q, out) → identity q = identity p.
Proof.
  destruct op; cbn [pipeline_exec];
    try (intros [= E _]; apply (f_equal snd) in E; cbn [snd] in E; revert E; apply update_identity; intros p');
    try (apply call_identity);
    unfold tr_pipeline_set_control_on_owner, tr_pipeline_clear_control_on_owner, tr_pipeline_reserve_data_on_owner,
      tr_pipeline_attach_data_on_owner, tr_pipeline_cancel_data_reservation_on_owner, tr_pipeline_cancel_data_offer_on_owner,
      tr_pipeline_remove_data_on_owner, tr_pipeline_data_connection_on_owner, tr_pipeline_select_data_on_owner,
      tr_pipeline_bind_stream_on_owner, tr_pipeline_prepare_transfer_on_owner, tr_pipeline_unbind_stream_on_owner.
  all: try by identity_cases.
  - unfold tr_pipeline_add_data_on_owner, tr_pipeline_reserve_data_on_owner, tr_pipeline_attach_data_on_owner,
      tr_pipeline_cancel_data_reservation_on_owner. identity_cases.
  - unfold tr_pipeline_stream_data. cbn [negb andb]. destruct (_ && _); [by intros [= _ <- _]|].
    pose proof (on_owner_identity (tr_pipeline_stream_data_on_owner stream_id) (λ s, s.1.1) e (p, Some zero_data_ref, Some zero_conn)) as Hi.
    ospecialize (Hi _); [unfold tr_pipeline_stream_data_on_owner; identity_cases|].
    destruct (tr_reactor_call _ _ _) as [r' [[q' d] c]]. by intros [= _ <- _].
Qed.

Lemma owner_update fn p : pipeline_update from_owner fn (Some p) = let '(ret, q) := fn p in (ret, Some q).
Proof. done. Qed.

Lemma owner_calls current target other : target = current → calls_owner current target other = from_owner.
Proof. intros ->. unfold calls_owner. by rewrite bool_decide_true. Qed.

(** ** The parts of the directory *)

Section Shard.
Context (r : tr_pipeline_registry) (h : pipeline_store) (Hok : shard_ok (r, h)).
Implicit Types p q : tr_pipeline.

#[local] Abbreviation d := (directory_of (r, h)).

Lemma count_eq : rg_count r = used_count re_state (rg_entries r).
Proof. exact (rk_count _ Hok). Qed.
Lemma table_ok : probe_ok re_state re_pipeline_id tr_pipeline_registry_hash (rg_entries r) (rg_capacity r).
Proof. exact (rk_table _ Hok). Qed.

Lemma route_at id i : di_routes d !! id = Some i ↔ routes r !! id = Some (Some i).
Proof.
  change (di_routes d) with (live_routes r). unfold live_routes. rewrite lookup_omap. split; [|by intros ->].
  destruct (routes r !! id) as [[j|]|]; cbn; [by intros [= ->]|done|done].
Qed.

Lemma route_none id : di_routes d !! id = None ↔ routes r !! id = None.
Proof.
  change (di_routes d) with (live_routes r). unfold live_routes. rewrite lookup_omap. split; [|by intros ->].
  destruct (routes r !! id) as [ptr|] eqn:E; [|done].
  destruct (rk_live _ Hok id ptr E) as (i & q & -> & _). done.
Qed.

Lemma routes_size : Z.of_nat (size (di_routes d)) = rg_count r.
Proof.
  rewrite count_eq. cbn [fst]. rewrite <- (table_map_size _ _ re_pipeline _ _ _ table_ok). f_equal.
  rewrite <- !size_dom. f_equal. apply set_eq. intros id. rewrite !elem_of_dom, <- !not_eq_None_Some. by rewrite route_none.
Qed.

Lemma count_bounds : 0 ≤ rg_count r ≤ rg_capacity r ∧ rg_capacity r ≤ 2 ^ 31.
Proof.
  pose proof table_ok as Ht. pose proof (po_capacity Ht). rewrite count_eq, <- (po_length Ht).
  pose proof (used_count_bounds re_state (rg_entries r)). cbn [fst] in *. split; [done|]. rewrite (po_length Ht). apply (po_capacity Ht).
Qed.

Lemma registry_found id found : tr_pipeline_registry_find r id = Pr_found found → ∃ i q,
  holds re_state re_pipeline_id (rg_entries r) found id ∧ re_pipeline (rg_entries r).[found] = Some i ∧
  di_routes d !! id = Some i ∧ h !! i = Some q ∧ pl_pipeline_id q = id ∧ same_shard r (Some q) = true.
Proof.
  intros Hf. pose proof table_ok as Ht. apply (probe_found _ _ _ _ _ _ _ Ht) in Hf.
  assert (routes r !! id = Some (re_pipeline (rg_entries r).[found])) as E.
  { apply (table_map_some _ _ _ tr_pipeline_registry_hash _ (rg_capacity r)); [done|]. by exists found. }
  destruct (rk_live _ Hok _ _ E) as (i & q & Ei & Hq & Hid & Hs). rewrite Ei in E. exists i, q. by rewrite route_at.
Qed.

Lemma registry_absent id insert : tr_pipeline_registry_find r id = Pr_absent insert →
  di_routes d !! id = None ∧ di_full d = (rg_count r =? rg_capacity r) || (insert =? UINT32_MAX).
Proof.
  intros Hf. pose proof table_ok as Ht. destruct (probe_absent _ _ _ _ _ _ _ Ht Hf) as [Hno Hins].
  split; [apply route_none; by apply (table_map_none _ _ _ tr_pipeline_registry_hash _ (rg_capacity r))|].
  unfold di_full. rewrite routes_size. pose proof count_bounds as [Hc _]. cbn. destruct Hins as [[-> Hall]|(Hi & Hs & _)].
  - rewrite count_eq. cbn. rewrite (used_count_full _ _ _ _ _ Ht Hall). rewrite Z.eqb_refl. apply Z.leb_refl.
  - pose proof (po_capacity Ht). pose proof count_bounds. cbn [fst] in *. assert ((insert =? UINT32_MAX) = false) as -> by (apply Z.eqb_neq; word_lia).
    rewrite orb_false_r. destruct (Z.eqb_spec (rg_count r) (rg_capacity r)); [apply Z.leb_le; lia|apply Z.leb_gt; lia].
Qed.

Lemma publish_shard id insert i q : tr_pipeline_registry_find r id = Pr_absent insert → insert ≠ UINT32_MAX →
  h !! i = Some q → pl_pipeline_id q = id → same_shard r (Some q) = true →
  shard_ok (publish r insert id (Some i), h) ∧
  directory_of (publish r insert id (Some i), h) = di_set d (<[id := i]> (di_routes d)) (di_pipelines d).
Proof.
  intros Hf Hne Hq Hid Hs. pose proof table_ok as Ht. destruct (probe_absent _ _ _ _ _ _ _ Ht Hf) as [Hno Hins].
  destruct Hins as [[? _]|(Hi & Hst & Hp)]; [done|]. cbn [fst] in *. pose proof (po_length Ht) as Hlen. set (e := mk_registry_entry id (Some i) Slot_used).
  assert (probe_ok re_state re_pipeline_id tr_pipeline_registry_hash ((rg_entries r).[insert <- e]) (rg_capacity r)) as Ht'
    by by apply probe_ok_insert with (k := id).
  assert (routes (publish r insert id (Some i)) = <[id := Some i]> (routes r)) as Er.
  { by apply (table_map_insert re_state re_pipeline_id re_pipeline tr_pipeline_registry_hash _ (rg_capacity r) id insert e). }
  assert (is_used (re_state (rg_entries r).[insert]) = false) as Eu by (unfold is_used; by apply bool_decide_false).
  pose proof count_bounds as [Hc Hc2]. split.
  - split; [apply Hok|exact Ht'| | |apply Hok]; cbn [fst snd].
    + unfold publish, rg_set_entries. cbn [rg_count rg_entries]. rewrite used_count_aset by lia. rewrite Eu. cbn [re_state].
      change (is_used Slot_used) with true. rewrite <- count_eq. cbn [fst]. rewrite u32_small by word_lia. lia.
    + intros id' ptr H. rewrite Er in H. apply lookup_insert_Some in H as [[<- <-]|[_ H]]; [by exists i, q|]. by apply (rk_live _ Hok).
  - unfold directory_of, di_set. cbn [fst snd di_owner di_shard di_capacity di_routes di_pipelines]. unfold live_routes. rewrite Er.
    rewrite (omap_insert_Some _ _ _ _ i) by done. done.
Qed.

Lemma withdraw_shard id found i : tr_pipeline_registry_find r id = Pr_found found → di_routes d !! id = Some i →
  shard_ok (withdraw r found, h) ∧
  directory_of (withdraw r found, h) = di_set d (delete id (di_routes d)) (di_pipelines d).
Proof.
  intros Hf Hr. destruct (registry_found _ _ Hf) as (i' & q & Hh & _). pose proof Hh as (Hi & Hst & _).
  pose proof table_ok as Ht. set (e := mk_registry_entry 0 None Slot_tombstone).
  assert (routes (withdraw r found) = delete id (routes r)) as Er.
  { by apply (table_map_clear re_state re_pipeline_id re_pipeline tr_pipeline_registry_hash _ (rg_capacity r) found id e). }
  pose proof count_bounds as [Hc Hc2]. pose proof (used_count_pos re_state _ _ Hi Hst) as Hpos. split.
  - split; [apply Hok| | | |apply Hok]; cbn [fst snd].
    + pose proof (po_length Ht). apply probe_ok_clear; [done|change (0 ≤ found < rg_capacity r); lia|done].
    + unfold withdraw, rg_set_entries. cbn [rg_count rg_entries]. rewrite used_count_aset by done. rewrite Hst. cbn [re_state].
      change (is_used Slot_used) with true. change (is_used Slot_tombstone) with false. rewrite <- count_eq in *. cbn [fst] in *.
      rewrite u32_small by word_lia. lia.
    + intros id' ptr H. rewrite Er in H. apply lookup_delete_Some in H as [_ H]. by apply (rk_live _ Hok).
  - unfold directory_of, di_set. cbn [fst snd di_owner di_shard di_capacity di_routes di_pipelines]. unfold live_routes. rewrite Er.
    by rewrite omap_delete.
Qed.

Lemma put_shard i p q : h !! i = Some p → pipeline_ok q → identity q = identity p →
  shard_ok (r, <[i := q]> h) ∧
  directory_of (r, <[i := q]> h) = di_set d (di_routes d) (<[i := ls_set_group (listed_of p) (group_of q)]> (di_pipelines d)).
Proof.
  intros Hp Hq [= E1 E2 E3 E4]. split.
  - split; [apply Hok|apply Hok|apply Hok| |]; cbn [fst snd].
    + intros id ptr H. destruct (rk_live _ Hok id ptr H) as (j & q' & -> & Hq' & Hid & Hs). cbn [snd fst] in *.
      destruct (decide (i = j)) as [<-|Hne]; [|exists j, q'; by rewrite lookup_insert_ne].
      exists i, q. rewrite lookup_insert_eq. simplify_eq. split; [done|]. split; [done|]. split; [done|].
      unfold same_shard in *. cbn [tr_pipeline_owner tr_pipeline_owner_shard_id] in *. by rewrite E1, E2.
    + intros j q' H. apply lookup_insert_Some in H as [[_ <-]|[_ H]]; [done|]. by apply (rk_pipelines _ Hok j).
  - unfold directory_of, di_set. cbn [fst snd di_owner di_shard di_capacity di_routes di_pipelines]. rewrite fmap_insert.
    unfold listed_of, ls_set_group. cbn [ls_shard ls_id ls_epoch]. by rewrite E2, E3, E4.
Qed.

Lemma asks_at i q f : h !! i = Some q → asks d i f = f (listed_of q).
Proof. intros Hq. unfold asks. cbn. by rewrite lookup_fmap, Hq. Qed.

Lemma id_at i q : h !! i = Some q → id_of d i = pl_pipeline_id q.
Proof. intros Hq. unfold id_of. cbn. by rewrite lookup_fmap, Hq. Qed.

Lemma known_none id : di_routes d !! id = None → known d id = false.
Proof. intros E. apply bool_decide_eq_false. rewrite E. by intros [? ?]. Qed.

Lemma known_some id i : di_routes d !! id = Some i → known d id = true.
Proof. intros E. apply bool_decide_eq_true. by rewrite E. Qed.

End Shard.

(** * What a request does on the owner *)

Definition shard_outcome (s : shard) (op : shard_op) (ret : tr_status) (s' : shard) : Prop :=
  shard_ok s' ∧
  match shard_refusal (directory_of s) op with
  | Some refused => ret = refused ∧ ret ≠ TR_OK ∧ s' = s
  | None => ret = TR_OK ∧ shard_effect (directory_of s) op (directory_of s')
  end.

Lemma register_outcome i q s : shard_ok s → s.2 !! i = Some q →
  let '(ret, s') := tr_pipeline_registry_register_on_owner (Some i) s in shard_outcome s (So_register i) ret s'.
Proof.
  destruct s as [r h]. intros Hok Hq. cbn [snd] in Hq. unfold tr_pipeline_registry_register_on_owner. cbn [pipeline_at mbind option_bind].
  rewrite Hq. unfold shard_outcome. cbn [shard_refusal]. rewrite (asks_at r h i q) by done. cbn [reason].
  change (foreign_pipeline _ (listed_of q)) with (negb (same_shard r (Some q))). cbn [tr_pipeline_id].
  destruct (same_shard r (Some q)) eqn:Es; cbn [negb]; [|refused]. change (ls_id (listed_of q)) with (pl_pipeline_id q).
  destruct (tr_pipeline_registry_find r (pl_pipeline_id q)) as [found|insert] eqn:Ef.
  { destruct (registry_found r h Hok _ _ Ef) as (j & q' & _ & _ & Hj & _). rewrite (known_some r h _ j) by done. refused. }
  destruct (registry_absent r h Hok _ _ Ef) as [Hn Hfull]. rewrite (known_none r h) by done. rewrite Hfull.
  destruct (_ || _) eqn:Eb; [refused|]. apply orb_false_iff in Eb as [_ Eb%Z.eqb_neq].
  destruct (publish_shard r h Hok _ _ i q Ef Eb Hq eq_refl Es) as [H1 H2]. split; [done|]. split; [done|].
  cbn [shard_effect]. by rewrite (id_at r h i q).
Qed.

Lemma same_shard_owner r p : same_shard r (Some p) = true → tr_pipeline_owner (Some p) = rg_owner r.
Proof. intros [H _]%andb_true_iff. by apply bool_decide_eq_true in H. Qed.

(** What the pipeline [i] of the shard does by itself. *)
Lemma pipeline_step r h i p op ret q : shard_ok (r, h) → h !! i = Some p → outcome p op ret q Out_nothing → identity q = identity p →
  match refusal (group_of p) op with
  | Some refused => ret = refused ∧ is_ok ret = false ∧ put_pipeline h (Some i) (Some q) = h
  | None => ret = TR_OK ∧ shard_ok (r, <[i := q]> h) ∧
      ∃ l g, di_pipelines (directory_of (r, h)) !! i = Some l ∧ effect (ls_group l) op Out_nothing g ∧
        directory_of (r, <[i := q]> h) = di_set (directory_of (r, h)) (di_routes (directory_of (r, h)))
          (<[i := ls_set_group l g]> (di_pipelines (directory_of (r, h))))
  end.
Proof.
  intros Hok Hp [Hq H] Hid. destruct (refusal (group_of p) op).
  - destruct H as (-> & Hne & -> & _). split; [done|]. split; [by apply is_ok_false|]. cbn. by apply insert_id.
  - destruct H as [-> He]. destruct (put_shard r h Hok i p q Hp Hq Hid) as [H1 H2]. split; [done|]. split; [done|].
    exists (listed_of p), (group_of q). split; [|by split]. cbn. by rewrite lookup_fmap, Hp.
Qed.

Lemma register_control_outcome other i c q s : shard_ok s → s.2 !! i = Some q →
  let '(ret, s') := tr_pipeline_registry_register_control_on_owner other (Some i) c s in shard_outcome s (So_register_control i c) ret s'.
Proof.
  destruct s as [r h]. intros Hok Hq. cbn [snd] in Hq. unfold tr_pipeline_registry_register_control_on_owner. cbn [pipeline_at mbind option_bind].
  rewrite Hq. unfold shard_outcome. cbn [shard_refusal]. rewrite (asks_at r h i q) by done. cbn [reason].
  change (foreign_pipeline _ (listed_of q) || foreign_connection _ c) with
    (negb (same_shard r (Some q)) || negb (bool_decide (ch_reactor c = rg_owner r))). cbn [tr_pipeline_id].
  destruct (same_shard r (Some q)) eqn:Es; cbn [negb orb]; [|refused]. destruct (bool_decide (ch_reactor c = rg_owner r)); cbn [negb]; [|refused].
  change (ls_id (listed_of q)) with (pl_pipeline_id q).
  destruct (tr_pipeline_registry_find r (pl_pipeline_id q)) as [found|insert] eqn:Ef.
  { destruct (registry_found r h Hok _ _ Ef) as (j & q' & _ & _ & Hj & _). rewrite (known_some r h _ j) by done. refused. }
  destruct (registry_absent r h Hok _ _ Ef) as [Hn Hfull]. rewrite (known_none r h) by done. rewrite Hfull.
  destruct (_ || _) eqn:Eb; [refused|]. apply orb_false_iff in Eb as [_ Eb%Z.eqb_neq]. cbn [orelse].
  rewrite owner_calls by by apply same_shard_owner. unfold tr_pipeline_set_control. rewrite owner_update.
  pose proof (set_control_outcome c q (rk_pipelines _ Hok i q Hq)) as Ho. pose proof (set_control_identity c q) as Hid.
  destruct (tr_pipeline_set_control_on_owner c q) as [ret p]. cbn [snd] in Hid.
  pose proof (pipeline_step r h i q _ _ _ Hok Hq Ho Hid) as Hs. change (ls_group (listed_of q)) with (group_of q).
  destruct (refusal (group_of q) (Po_set_control c)).
  - destruct Hs as (-> & Hr & ->). rewrite Hr. split; [done|]. split; [done|]. split; [by apply is_ok_false|done].
  - destruct Hs as (-> & Hok' & l & g & Hl & He & Hd). change (is_ok TR_OK) with true. cbn [negb put_pipeline].
    assert (identity p = identity q) as [= I1 I2 I3 I4] by done.
    destruct (publish_shard r (<[i := p]> h) Hok' (pl_pipeline_id q) insert i p Ef Eb) as [H1 H2];
      [by rewrite lookup_insert_eq|done|unfold same_shard in *; cbn in *; by rewrite I1, I2|].
    cbn [tr_pipeline_id]. rewrite I3. split; [done|]. split; [done|]. cbn [shard_effect]. rewrite (id_at r h i q) by done.
    exists l, g. split; [done|]. split; [done|]. rewrite H2, Hd. done.
Qed.

Lemma idle_spec p : pipeline_ok p → idle (group_of p) =
  negb (pl_control_bound p || negb (pl_data_reserved_count p =? 0) || negb (pl_data_count p =? 0) || negb (pl_affinity_count p =? 0)).
Proof.
  intros Hok. trans (tr_pipeline_destroy (Some p)).
  - apply eq_bool_prop_intro. unfold idle. rewrite !Is_true_true, andb_true_iff, !bool_decide_eq_true. symmetry. by apply destroy_iff.
  - unfold tr_pipeline_destroy. by rewrite !negb_orb, !negb_involutive.
Qed.

(** The pointer's entry is that of its pipeline's id. *)
Lemma entry_is r h id found i : shard_ok (r, h) → tr_pipeline_registry_find r id = Pr_found found →
  bool_decide (re_pipeline (rg_entries r).[found] = Some i) = bool_decide (di_routes (directory_of (r, h)) !! id = Some i).
Proof.
  intros Hok Hf. destruct (registry_found r h Hok _ _ Hf) as (j & q & _ & E & Hr & _). rewrite E, Hr. done.
Qed.

Lemma entry_none r h id insert i : shard_ok (r, h) → tr_pipeline_registry_find r id = Pr_absent insert →
  bool_decide (di_routes (directory_of (r, h)) !! id = Some i) = false.
Proof. intros Hok Hf. destruct (registry_absent r h Hok _ _ Hf) as [E _]. apply bool_decide_eq_false. by rewrite E. Qed.

Lemma entry_shard r h id i q : shard_ok (r, h) → di_routes (directory_of (r, h)) !! id = Some i → h !! i = Some q →
  same_shard r (Some q) = true.
Proof.
  intros Hok Hr Hq. rewrite route_at in Hr by done. destruct (rk_live _ Hok _ _ Hr) as (j & q' & [= <-] & Hq' & _ & Hs).
  cbn [fst snd] in *. by simplify_eq.
Qed.

Lemma unregister_outcome other i q s : shard_ok s → s.2 !! i = Some q →
  let '(ret, s') := tr_pipeline_registry_unregister_on_owner other (Some i) s in shard_outcome s (So_unregister i) ret s'.
Proof.
  destruct s as [r h]. intros Hok Hq. cbn [snd] in Hq. unfold tr_pipeline_registry_unregister_on_owner. cbn [pipeline_at mbind option_bind].
  rewrite Hq. unfold shard_outcome. cbn [shard_refusal]. rewrite (asks_at r h i q) by done. cbn [reason tr_pipeline_id].
  change (ls_id (listed_of q)) with (pl_pipeline_id q). change (ls_group (listed_of q)) with (group_of q).
  destruct (tr_pipeline_registry_find r (pl_pipeline_id q)) as [found|insert] eqn:Ef; [|rewrite (entry_none r h _ insert) by done; refused].
  rewrite (entry_is r h _ found) by done. case_bool_decide as Hr; cbn [negb]; [|refused].
  rewrite owner_calls by by apply same_shard_owner; eapply entry_shard. cbn [tr_pipeline_get_stats]. unfold tr_pipeline_get_stats, pipeline_call.
  rewrite tr_reactor_call_owner by done. cbn [tr_pipeline_get_stats_on_owner default].
  change (is_ok TR_OK) with true. cbn [id negb ps_control_bound ps_data_reserved_count ps_data_count ps_stream_affinity_count].
  rewrite idle_spec by by apply (rk_pipelines _ Hok i). rewrite negb_involutive. destruct (_ || _ || _ || _); [refused|].
  destruct (withdraw_shard r h Hok _ _ i Ef Hr) as [H1 H2]. split; [done|]. split; [done|].
  cbn [shard_effect]. by rewrite (id_at r h i q).
Qed.

Lemma close_control_outcome other i c q s : shard_ok s → s.2 !! i = Some q → same_shard s.1 (Some q) = true →
  let '(ret, s') := tr_pipeline_registry_close_control_on_owner other (Some i) c s in shard_outcome s (So_close_control i c) ret s'.
Proof.
  destruct s as [r h]. intros Hok Hq Hss. cbn [fst snd] in Hq, Hss. unfold tr_pipeline_registry_close_control_on_owner. cbn [pipeline_at mbind option_bind].
  rewrite Hq. unfold shard_outcome. cbn [shard_refusal]. rewrite (asks_at r h i q) by done. cbn [reason tr_pipeline_id].
  change (foreign_pipeline _ (listed_of q)) with (negb (same_shard r (Some q))). rewrite Hss. cbn [negb].
  change (ls_id (listed_of q)) with (pl_pipeline_id q). change (ls_group (listed_of q)) with (group_of q).
  destruct (tr_pipeline_registry_find r (pl_pipeline_id q)) as [found|insert] eqn:Ef; [|rewrite (entry_none r h _ insert) by done; refused].
  rewrite (entry_is r h _ found) by done. case_bool_decide as Hr; cbn [negb]; [|refused].
  rewrite owner_calls by by apply same_shard_owner. unfold tr_pipeline_get_stats, pipeline_call.
  rewrite tr_reactor_call_owner by done. cbn [tr_pipeline_get_stats_on_owner default].
  change (is_ok TR_OK) with true. cbn [id negb ps_control_bound ps_data_reserved_count ps_data_count ps_stream_affinity_count].
  pose proof (rk_pipelines _ Hok i q Hq) as Hp. rewrite no_control_spec, nobody_spec by done.
  destruct (negb (pl_control_bound q)); [refused|].
  assert (negb (pl_data_count q =? 0) || negb (pl_affinity_count q =? 0) = negb (pl_data_count q =? 0)) as ->.
  { destruct (Z.eqb_spec (pl_data_count q) 0) as [E|]; [|done]. by rewrite (no_members_no_streams q Hp E). }
  destruct (negb (pl_data_count q =? 0)); [refused|]. cbn [orelse]. unfold tr_pipeline_clear_control. rewrite owner_update.
  pose proof (clear_control_outcome c q Hp) as Ho. pose proof (clear_control_identity c q) as Hid.
  destruct (tr_pipeline_clear_control_on_owner c q) as [ret p]. cbn [snd] in Hid.
  pose proof (pipeline_step r h i q _ _ _ Hok Hq Ho Hid) as Hs. destruct (refusal (group_of q) (Po_clear_control c)).
  - destruct Hs as (-> & Hrf & ->). rewrite Hrf. split; [done|]. split; [done|]. split; [by apply is_ok_false|done].
  - destruct Hs as (-> & Hok' & l & g & Hl & He & Hd). change (is_ok TR_OK) with true. cbn [negb put_pipeline].
    destruct (withdraw_shard r (<[i := p]> h) Hok' _ _ i Ef Hr) as [H1 H2]. split; [done|]. split; [done|].
    cbn [shard_effect]. rewrite (id_at r h i q) by done. exists l, g. split; [done|]. split; [done|]. rewrite H2, Hd. done.
Qed.

(** ** Routes *)

Lemma target_spec r h preface : shard_ok (r, h) →
  match tr_pipeline_registry_find r (pf_pipeline_id preface) with
  | Pr_absent _ => target (directory_of (r, h)) preface = None
  | Pr_found found => ∃ i q, re_pipeline (rg_entries r).[found] = Some i ∧ h !! i = Some q ∧ same_shard r (Some q) = true ∧
      target (directory_of (r, h)) preface = if pl_epoch q =? pf_epoch preface then Some (i, listed_of q) else None
  end.
Proof.
  intros Hok. unfold target. destruct (tr_pipeline_registry_find r (pf_pipeline_id preface)) as [found|insert] eqn:Ef.
  - destruct (registry_found r h Hok _ _ Ef) as (i & q & _ & Ei & Hr & Hq & _ & Hs). exists i, q. split; [done|]. split; [done|].
    split; [done|]. rewrite Hr. cbn. by rewrite lookup_fmap, Hq.
  - destruct (registry_absent r h Hok _ _ Ef) as [E _]. by rewrite E.
Qed.

Lemma resolve_spec r h preface : shard_ok (r, h) → 0 ≤ pf_member_index preface →
  match route_refusal (directory_of (r, h)) preface with
  | Some refused => refused ≠ TR_OK ∧ (tr_pipeline_registry_resolve_data_route_on_owner (r, h) preface).1.1 = refused
  | None => ∃ i q, tr_pipeline_registry_resolve_data_route_on_owner (r, h) preface = (TR_OK, Some i, preface_data preface) ∧
      h !! i = Some q ∧ same_shard r (Some q) = true ∧ target (directory_of (r, h)) preface = Some (i, listed_of q)
  end.
Proof.
  intros Hok H0. unfold route_refusal, tr_pipeline_registry_resolve_data_route_on_owner. cbn [preface_reasons reason].
  destruct (is_ok (tr_pipeline_route_preface_validate_fields (Some preface))) eqn:Hfields; cbn [negb orelse];
    [|split; [by apply is_ok_false|done]].
  destruct (pf_role preface =? TR_PIPELINE_ROUTE_DATA); cbn [negb]; [|done].
  change (di_shard (directory_of (r, h))) with (rg_owner_shard_id r).
  destruct (pf_owner_shard_id preface =? rg_owner_shard_id r); cbn [negb orelse]; [|done].
  pose proof (target_spec r h preface Hok) as Ht. unfold asks_target.
  destruct (tr_pipeline_registry_find r (pf_pipeline_id preface)) as [found|insert] eqn:Ef; [|by rewrite Ht].
  destruct Ht as (i & q & Ei & Hq & Hs & Ht). rewrite Ei. cbn [pipeline_at mbind option_bind]. rewrite Hq, Hs, (bool_decide_true (is_Some _)) by done.
  cbn [negb orb tr_pipeline_epoch]. rewrite Ht. destruct (pl_epoch q =? pf_epoch preface); cbn [negb]; [|done].
  change (ls_group (listed_of q)) with (group_of q). pose proof (rk_pipelines _ Hok i q Hq) as Hp.
  cbn [tr_pipeline_validate_data_reservation_on_owner]. rewrite no_control_spec, (reserved_as_spec q) by done.
  destruct (negb (pl_control_bound q)); [done|]. destruct (negb (tr_pipeline_data_ref_matches q (preface_data preface) Data_reserved)); [done|].
  by exists i, q.
Qed.

Lemma attach_route_outcome other preface c dout pout s : shard_ok s → 0 ≤ pf_member_index preface →
  let '(ret, (s', dout', pout')) := tr_pipeline_registry_attach_data_route_on_owner other preface c (s, dout, pout) in
  shard_outcome s (So_attach preface c) ret s' ∧
  dout' = (if is_ok ret then (λ _, preface_data preface) <$> dout else dout) ∧
  pout' = (if is_ok ret then (λ _, fst <$> target (directory_of s) preface) <$> pout else pout).
Proof.
  destruct s as [r h]. intros Hok H0. unfold tr_pipeline_registry_attach_data_route_on_owner, shard_outcome. cbn [shard_refusal reason].
  change (foreign_connection (directory_of (r, h)) c) with (negb (bool_decide (ch_reactor c = rg_owner r))).
  destruct (bool_decide (ch_reactor c = rg_owner r)) eqn:Ec; cbn [negb orelse]; [|split; [refused|done]].
  pose proof (resolve_spec r h preface Hok H0) as Hres. destruct (route_refusal (directory_of (r, h)) preface) as [x|].
  { destruct Hres as [Hne E]. destruct (tr_pipeline_registry_resolve_data_route_on_owner (r, h) preface) as [[ret ptr] data]. cbn [fst] in E. subst x.
    rewrite (proj2 (is_ok_false ret) Hne). cbn [negb orelse]. split; [|by rewrite (proj2 (is_ok_false ret) Hne)]. split; [done|]. by split_and!. }
  destruct Hres as (i & q & -> & Hq & Hs & Ht). unfold asks_target. rewrite Ht. change (is_ok TR_OK) with true.
  cbn [negb pipeline_at mbind option_bind orelse]. rewrite Hq. rewrite owner_calls by by apply same_shard_owner.
  unfold tr_pipeline_attach_data. rewrite owner_update. change (ls_group (listed_of q)) with (group_of q).
  pose proof (attach_outcome (preface_data preface) c q (rk_pipelines _ Hok i q Hq) H0) as Ho. pose proof (attach_identity (preface_data preface) c q) as Hid.
  destruct (tr_pipeline_attach_data_on_owner (preface_data preface) c q) as [ret p]. cbn [snd] in Hid.
  pose proof (pipeline_step r h i q _ _ _ Hok Hq Ho Hid) as Hstep. destruct (refusal (group_of q) (Po_attach (preface_data preface) c)).
  - destruct Hstep as (-> & Hrf & ->). rewrite Hrf. cbn [negb]. rewrite Hrf. apply is_ok_false in Hrf. split; [|done]. by split_and!.
  - destruct Hstep as (-> & Hok' & l & g & Hl & He & Hd). change (is_ok TR_OK) with true. cbn [negb put_pipeline].
    split; [|by split]. split; [done|]. split; [done|]. exists i, (listed_of q). split; [done|]. exists l, g. by rewrite Hd.
Qed.

(** The checks of a preface, and what they are in the directory. *)
Ltac preface_checks r h preface :=
  cbn [reason orelse preface_reasons app];
  destruct (is_ok (tr_pipeline_route_preface_validate_fields (Some preface))) eqn:?Hfields; cbn [negb orelse];
    [|split; [done|]; split; [done|]; split; [by apply is_ok_false|done]];
  destruct (pf_role preface =? TR_PIPELINE_ROUTE_DATA); cbn [negb]; [|refused];
  change (di_shard (directory_of (r, h))) with (rg_owner_shard_id r);
  destruct (pf_owner_shard_id preface =? rg_owner_shard_id r); cbn [negb]; [|refused].

Lemma cancel_route_outcome other preface s : shard_ok s → 0 ≤ pf_member_index preface →
  let '(ret, s') := tr_pipeline_registry_cancel_data_route_on_owner other preface s in shard_outcome s (So_cancel preface) ret s'.
Proof.
  destruct s as [r h]. intros Hok H0. unfold tr_pipeline_registry_cancel_data_route_on_owner, shard_outcome. cbn [shard_refusal].
  preface_checks r h preface. cbn [orelse]. pose proof (target_spec r h preface Hok) as Ht. unfold asks_target.
  destruct (tr_pipeline_registry_find r (pf_pipeline_id preface)) as [found|insert] eqn:Ef; [|rewrite Ht; refused].
  destruct Ht as (i & q & Ei & Hq & Hs & Ht). rewrite Ei. cbn [pipeline_at mbind option_bind]. rewrite Hq, Hs, (bool_decide_true (is_Some _)) by done.
  cbn [negb orb tr_pipeline_epoch]. rewrite Ht. destruct (pl_epoch q =? pf_epoch preface); cbn [negb]; [|refused].
  rewrite owner_calls by by apply same_shard_owner. unfold tr_pipeline_cancel_data_reservation. rewrite owner_update.
  change (ls_group (listed_of q)) with (group_of q).
  pose proof (cancel_outcome (preface_data preface) q (rk_pipelines _ Hok i q Hq) H0) as Ho. pose proof (cancel_identity (preface_data preface) q) as Hid.
  destruct (tr_pipeline_cancel_data_reservation_on_owner (preface_data preface) q) as [ret p]. cbn [snd] in Hid.
  pose proof (pipeline_step r h i q _ _ _ Hok Hq Ho Hid) as Hstep. destruct (refusal (group_of q) (Po_cancel (preface_data preface))).
  - destruct Hstep as (-> & Hrf & ->). apply is_ok_false in Hrf. split; [done|]. by split_and!.
  - destruct Hstep as (-> & Hok' & l & g & Hl & He & Hd). split; [done|]. split; [done|]. exists i, (listed_of q). split; [done|]. exists l, g. by rewrite <- Hd.
Qed.

Lemma detach_route_outcome other preface c s : shard_ok s → 0 ≤ pf_member_index preface →
  let '(ret, s') := tr_pipeline_registry_detach_data_route_on_owner other preface c s in shard_outcome s (So_detach preface c) ret s'.
Proof.
  destruct s as [r h]. intros Hok H0. unfold tr_pipeline_registry_detach_data_route_on_owner, shard_outcome. cbn [shard_refusal].
  preface_checks r h preface. change (foreign_connection (directory_of (r, h)) c) with (negb (bool_decide (ch_reactor c = rg_owner r))).
  destruct (bool_decide (ch_reactor c = rg_owner r)); cbn [negb orelse]; [|refused].
  pose proof (target_spec r h preface Hok) as Ht. unfold asks_target.
  destruct (tr_pipeline_registry_find r (pf_pipeline_id preface)) as [found|insert] eqn:Ef; [|rewrite Ht; refused].
  destruct Ht as (i & q & Ei & Hq & Hs & Ht). rewrite Ei. cbn [pipeline_at mbind option_bind]. rewrite Hq, (bool_decide_true (is_Some _)) by done.
  cbn [negb orb tr_pipeline_epoch]. rewrite Ht. destruct (pl_epoch q =? pf_epoch preface); cbn [negb]; [|refused].
  rewrite owner_calls by by apply same_shard_owner. change (ls_group (listed_of q)) with (group_of q). pose proof (rk_pipelines _ Hok i q Hq) as Hp.
  unfold tr_pipeline_data_connection, pipeline_call. rewrite tr_reactor_call_owner by done. unfold tr_pipeline_data_connection_on_owner.
  cbn [reason]. rewrite (attached_as_spec q) by done. destruct (tr_pipeline_data_ref_valid q (preface_data preface)) eqn:Ev; cbn [negb].
  2: { change (is_ok TR_ERR_STALE) with false. cbn [negb]. rewrite bool_decide_false by done. refused. }
  change (is_ok TR_OK) with true. cbn [negb default id]. set (c' := ds_connection _).
  assert (bool_decide (Some c' = Some c) = tr_pipeline_conn_equal c' c) as ->.
  { apply eq_bool_prop_intro. rewrite !Is_true_true, bool_decide_eq_true, conn_equal_true. split; [by intros [= ->]|by intros ->]. }
  destruct (tr_pipeline_conn_equal c' c); cbn [negb]; [|refused].
  unfold tr_pipeline_remove_data. rewrite owner_update.
  pose proof (remove_outcome (preface_data preface) q Hp H0) as Ho. pose proof (remove_identity (preface_data preface) q) as Hid.
  destruct (tr_pipeline_remove_data_on_owner (preface_data preface) q) as [ret p]. cbn [snd] in Hid.
  pose proof (pipeline_step r h i q _ _ _ Hok Hq Ho Hid) as Hstep. unfold refusal in Hstep. cbn [reason] in Hstep.
  rewrite (attached_as_spec q), Ev in Hstep by done. rewrite bool_decide_false in Hstep by done.
  destruct Hstep as (-> & Hok' & l & g & Hl & He & Hd). split; [done|]. split; [done|]. exists i, (listed_of q). split; [done|]. exists l, g. by rewrite <- Hd.
Qed.

(** * Requests from any thread *)

Definition shard_answered (e : owner_call) (s : shard) (op : shard_op) (a : tr_status * option tr_pipeline_registry * pipeline_store) : Prop :=
  let '(ret, r, h) := a in ∃ r', r = Some r' ∧
  if reaches e then shard_outcome s op ret (r', h) else ret ≠ TR_OK ∧ (r', h) = s.

Lemma registry_call_answered e fn r h op : (let '(ret, s') := fn (r, h) in shard_outcome (r, h) op ret s') →
  shard_answered e (r, h) op (registry_call e fn (Some r) h).
Proof.
  intros H. unfold registry_call, shard_answered. pose proof (tr_reactor_call_reaches e fn (r, h)) as Hr. destruct (reaches e).
  - rewrite Hr. destruct (fn (r, h)) as [ret [r' h']]. by exists r'.
  - destruct Hr as (ret & Hr & ->). by exists r.
Qed.

Lemma shard_exec_answered e other op r h : shard_ok (r, h) → shard_op_ok h op → shard_answered e (r, h) op (shard_exec e other op (Some r) h).
Proof.
  intros Hok Hop. destruct op as [i|i c|i|i c|preface c|preface|preface c]; cbn [shard_exec shard_op_ok] in *.
  - destruct Hop as [q Hq]. unfold tr_pipeline_registry_register. rewrite bool_decide_true by done. by eapply registry_call_answered, register_outcome.
  - destruct Hop as [q Hq]. unfold tr_pipeline_registry_register_control. rewrite bool_decide_true by done.
    by eapply registry_call_answered, register_control_outcome.
  - destruct Hop as [q Hq]. unfold tr_pipeline_registry_unregister. rewrite bool_decide_true by done.
    by eapply registry_call_answered, unregister_outcome.
  - destruct Hop as [q Hq]. unfold tr_pipeline_registry_close_control. rewrite bool_decide_true by done. cbn [negb orb pipeline_at mbind option_bind].
    rewrite Hq. destruct (same_shard r (Some q)) eqn:Es; cbn [negb]; [by eapply registry_call_answered, close_control_outcome|].
    exists r. split; [done|]. destruct (reaches e); [|done]. unfold shard_outcome. cbn [shard_refusal].
    rewrite (asks_at r h i q) by done. cbn [reason]. change (foreign_pipeline _ (listed_of q)) with (negb (same_shard r (Some q))). rewrite Es. refused.
  - unfold tr_pipeline_registry_attach_data_route. pose proof (attach_route_outcome other preface c None None (r, h) Hok Hop) as H.
    cbn [fmap option_fmap option_map]. unfold shard_answered.
    pose proof (tr_reactor_call_reaches e (tr_pipeline_registry_attach_data_route_on_owner other preface c) ((r, h), None, None)) as Hr. destruct (reaches e).
    + rewrite Hr. destruct (tr_pipeline_registry_attach_data_route_on_owner _ _ _ _) as [ret [[[r' h'] d] p]]. exists r'. by split; [|apply H].
    + destruct Hr as (ret & Hr & ->). by exists r.
  - by apply registry_call_answered, cancel_route_outcome.
  - by apply registry_call_answered, detach_route_outcome.
Qed.

(** ** The life of a shard *)

(** What the registry and its pipelines go through: requests to the registry, requests to a pipeline from
    any thread, and pipelines that are made, and that are destroyed when they are not registered. *)
Inductive shard_step : shard → shard → Prop :=
| Step_request e other op r h ret r' h' : shard_op_ok h op → shard_exec e other op (Some r) h = (ret, Some r', h') →
    shard_step (r, h) (r', h')
| Step_pipeline e op r h i p ret q out : h !! i = Some p → op_ok op → pipeline_exec e op (Some p) = (ret, Some q, out) →
    shard_step (r, h) (r, <[i := q]> h)
| Step_create c alloc slots table r h i p : h !! i = None → config_small c →
    tr_pipeline_create (Some c) true alloc slots table = (TR_OK, Some p) → shard_step (r, h) (r, <[i := p]> h)
| Step_destroy r h i : (∀ id, routes r !! id ≠ Some (Some i)) → shard_step (r, h) (r, delete i h).

Lemma shard_step_ok s s' : shard_step s s' → shard_ok s → shard_ok s'.
Proof.
  destruct 1 as [e other op r h ret r' h' Hop E|e op r h i p ret q out Hp Hop E|c alloc slots table r h i p Hi Hc E|r h i Hno]; intros Hok.
  - pose proof (shard_exec_answered e other op r h Hok Hop) as H. rewrite E in H. destruct H as (r'' & [= <-] & H).
    destruct (reaches e); [apply H|]. by destruct H as [_ ->].
  - destruct (pipeline_exec_step e op p (rk_pipelines _ Hok i p Hp) Hop) as (ret' & q' & out' & E' & Hq & _). rewrite E in E'. injection E' as <- <- <-.
    by apply (put_shard r h Hok i p q Hp Hq), (exec_identity _ _ _ _ _ _ E).
  - destruct (tr_pipeline_create_ok _ _ _ _ _ _ Hc E) as [Hp _]. split; [apply Hok|apply Hok|apply Hok| |]; cbn [fst snd].
    + intros id ptr H. destruct (rk_live _ Hok id ptr H) as (j & q & -> & Hq & Hid & Hs). cbn [fst snd] in *. exists j, q.
      rewrite lookup_insert_ne; [done|]. intros ->. congruence.
    + intros j q H. apply lookup_insert_Some in H as [[_ <-]|[_ H]]; [done|]. by apply (rk_pipelines _ Hok j).
  - split; [apply Hok|apply Hok|apply Hok| |]; cbn [fst snd].
    + intros id ptr H. destruct (rk_live _ Hok id ptr H) as (j & q & -> & Hq & Hid & Hs). cbn [fst snd] in *. exists j, q.
      rewrite lookup_delete_ne; [done|]. intros ->. by apply (Hno id).
    + intros j q H. apply lookup_delete_Some in H as [_ H]. by apply (rk_pipelines _ Hok j).
Qed.

Lemma registry_create_ok c out alloc entries r : rc_capacity c ≤ 2 ^ 31 → 0 ≤ rc_capacity c →
  tr_pipeline_registry_create (Some c) out alloc entries = (TR_OK, Some r) → shard_ok (r, ∅).
Proof.
  intros Hc H0. unfold tr_pipeline_registry_create. destruct (negb out); [done|]. destruct (_ || _) eqn:E; [done|].
  destruct (negb alloc); [done|]. destruct (negb entries); [done|]. intros [= <-].
  rewrite !orb_false_iff, negb_false_iff, bool_decide_eq_true, !Z.eqb_neq in E. destruct E as [[Ho E1] E2].
  split; cbn [fst snd rg_owner rg_entries rg_capacity rg_count].
  - done.
  - apply probe_ok_empty; [lia|done].
  - by rewrite used_count_empty.
  - intros id ptr H. unfold routes in H. cbn [rg_entries] in H. by rewrite table_map_empty in H.
  - done.
Qed.

(** * Properties *)

(** C10: a request to the registry of a shard that reaches the shard's owner is refused exactly when the
    directory refuses it, with the status of the first reason, and then neither the registry nor a
    pipeline changes; otherwise it succeeds, and changes the finite map of ids and the one
    pipeline it is about as the directory does.  So a pipeline is published with its CONTROL, and
    withdrawn with it, entirely or not at all, and a preface attaches its connection exactly to
    the reservation it names. *)
Theorem registry_refines_directory e other op r h : shard_ok (r, h) → shard_op_ok h op →
  let '(ret, r', h') := shard_exec e other op (Some r) h in
  if reaches e then match shard_refusal (directory_of (r, h)) op with
    | Some refused => ret = refused ∧ ret ≠ TR_OK ∧ r' = Some r ∧ h' = h
    | None => ret = TR_OK ∧ ∃ r'', r' = Some r'' ∧ shard_effect (directory_of (r, h)) op (directory_of (r'', h'))
    end
  else ret ≠ TR_OK ∧ r' = Some r ∧ h' = h.
Proof.
  intros Hok Hop. pose proof (shard_exec_answered e other op r h Hok Hop) as H. unfold shard_answered, shard_outcome in H.
  destruct (shard_exec e other op (Some r) h) as [[ret r'] h']. destruct H as (r'' & -> & H). destruct (reaches e).
  - destruct H as [_ H]. destruct (shard_refusal _ op).
    + by destruct H as (-> & ? & [= -> ->]).
    + destruct H as [-> H]. split; [done|]. by exists r''.
  - by destruct H as [? [= -> ->]].
Qed.

(** whatever requests a shard's registry and its pipelines go through, in any order and from any
    threads, with pipelines made in between and destroyed when they are not registered: the
    registry's table stays a map with an exact count, each id leads to a pipeline that exists, has
    that id and belongs to the shard, and every pipeline is consistent. *)
Theorem registry_consistent c out alloc entries r s : 0 ≤ rc_capacity c ≤ 2 ^ 31 →
  tr_pipeline_registry_create (Some c) out alloc entries = (TR_OK, Some r) → rtc shard_step (r, ∅) s →
  shard_ok s ∧ (tr_pipeline_registry_destroy (Some s.1) = true ↔ di_routes (directory_of s) = ∅).
Proof.
  intros [H0 Hc] E Hs. apply registry_create_ok in E; [|done..].
  assert (shard_ok s) as Hok by (revert E; induction Hs as [|s1 s2 s3 H12 _ IH]; [done|]; intros E; by eapply IH, shard_step_ok).
  split; [done|]. destruct s as [r' h']. unfold tr_pipeline_registry_destroy. cbn [fst]. rewrite Z.eqb_eq, <- (routes_size r' h' Hok).
  split; [intros H; apply map_size_empty_iff; lia|intros ->; by rewrite map_size_empty].
Qed.

(** ** The hypotheses can hold *)

#[local] Abbreviation no_registry := (mk_registry None 0 [] 0 0).
#[local] Abbreviation no_pipeline := (mk_pipeline None 0 0 0 false zero_conn [] 0 0 0 0 [] 0 0).
Definition demo_registry_config : tr_pipeline_registry_config := mk_registry_config (Some 0%nat) 3 4.
#[local] Abbreviation demo_registry := (default no_registry (tr_pipeline_registry_create (Some demo_registry_config) true true true).2).
#[local] Abbreviation demo_created :=
  (default no_pipeline (tr_pipeline_create (Some (mk_pipeline_config (Some 0%nat) 3 77 5 2 2)) true true true true).2).
(** A pipeline is made, published with its CONTROL, and makes a reservation. *)
#[local] Abbreviation demo_heap0 := (<[1%nat := demo_created]> (∅ : pipeline_store)).
#[local] Abbreviation demo_publish := (shard_exec from_owner from_owner (So_register_control 1 (demo_conn 9)) (Some demo_registry) demo_heap0).
#[local] Abbreviation demo_published := (default no_registry demo_publish.1.2).
#[local] Abbreviation demo_bound := (demo_publish.2 !!! 1%nat).
#[local] Abbreviation demo_reserving := (pipeline_exec from_owner Po_reserve (Some demo_bound)).
#[local] Abbreviation demo_heap := (<[1%nat := default no_pipeline demo_reserving.1.2]> demo_publish.2).

#[local] Instance tr_pipeline_inhabited : Inhabited tr_pipeline := populate no_pipeline.

Lemma demo_steps : rtc shard_step (demo_registry, ∅) (demo_published, demo_heap).
Proof.
  eapply rtc_l; [eapply (Step_create (mk_pipeline_config (Some 0%nat) 3 77 5 2 2) true true true demo_registry ∅ 1 demo_created);
    [done|unfold config_small; cbn; lia|done]|].
  eapply rtc_l; [eapply (Step_request from_owner from_owner (So_register_control 1 (demo_conn 9)) demo_registry demo_heap0 TR_OK demo_published demo_publish.2);
    [cbn; by eexists|vm_compute; reflexivity]|].
  apply rtc_once. apply (Step_pipeline from_owner Po_reserve demo_published demo_publish.2 1 demo_bound TR_OK _ demo_reserving.2);
    [vm_compute; reflexivity|done|vm_compute; reflexivity].
Qed.

Lemma demo_shard_ok : shard_ok (demo_published, demo_heap).
Proof.
  assert (shard_ok (demo_registry, ∅)) as H by by apply (registry_create_ok demo_registry_config true true true).
  revert H. generalize demo_steps. induction 1 as [|s1 s2 s3 H12 _ IH]; [done|]. intros H. by eapply IH, shard_step_ok.
Qed.

Definition demo_preface : tr_pipeline_route_preface := mk_preface 1 TR_PIPELINE_ROUTE_DATA 0 3 77 5 0 1 0 0.

Lemma registry_refines_directory_witness :
  (shard_exec from_owner from_owner (So_attach demo_preface (demo_conn 2)) (Some demo_published) demo_heap).1.1 = TR_OK ∧
  (shard_exec from_owner from_owner (So_attach demo_preface (demo_conn 9)) (Some demo_published) demo_heap).1.1 = TR_ERR_STATE.
Proof.
  pose proof (registry_refines_directory from_owner from_owner (So_attach demo_preface (demo_conn 2)) demo_published demo_heap demo_shard_ok
    ltac:(cbn; lia)) as H1.
  pose proof (registry_refines_directory from_owner from_owner (So_attach demo_preface (demo_conn 9)) demo_published demo_heap demo_shard_ok
    ltac:(cbn; lia)) as H2.
  assert (shard_refusal (directory_of (demo_published, demo_heap)) (So_attach demo_preface (demo_conn 2)) = None) as E1 by (vm_compute; reflexivity).
  assert (shard_refusal (directory_of (demo_published, demo_heap)) (So_attach demo_preface (demo_conn 9)) = Some TR_ERR_STATE) as E2
    by (vm_compute; reflexivity).
  destruct (shard_exec from_owner from_owner (So_attach demo_preface (demo_conn 2)) _ _) as [[ret1 r1] h1].
  destruct (shard_exec from_owner from_owner (So_attach demo_preface (demo_conn 9)) _ _) as [[ret2 r2] h2].
  change (reaches from_owner) with true in H1, H2. rewrite E1 in H1. rewrite E2 in H2. split; [apply H1|apply H2].
Defined.

Lemma registry_consistent_witness : shard_ok (demo_published, demo_heap) ∧ tr_pipeline_registry_destroy (Some demo_published) = false.
Proof.
  destruct (registry_consistent demo_registry_config true true true demo_registry (demo_published, demo_heap)) as [H _].
  - cbn. lia.
  - reflexivity.
  - exact demo_steps.
  - split; [exact H|vm_compute; reflexivity].
Defined.
