(* ===== verification/PipelineControl.v ===== *)
(** CONTROL sessions: [src/group/pipeline_control.c], [pipeline_control_internal.h].

    A session makes a pipeline, publishes it in its shard's registry, hands out reservations and
    stream hand-overs as control messages, and tears the pipeline down, gracefully or not.

    Theorems: the bytes of an offer lead the peer to a preface that attaches its connection to the
    very reservation that was made; an abort takes every member down, closes each of their
    connections once, and leaves nothing behind; a session comes up entirely or not at all. *)
From S2P Require Import Prelude Status ChannelTypes ReactorCall ProbeTable PipelineRoute PipelineControlWire Pipeline PipelineSpec PipelineRegistry.

(** * Data *)

(** [pc_registry]: the pointer to the registry is not NULL. *)
Record tr_pipeline_control := mk_control {
  pc_registry : bool;
  pc_pipeline : pipeline_ptr;
  pc_abort_data : option (list tr_pipeline_attached_data);
  pc_data_capacity : Z
}.

Record tr_pipeline_control_config := mk_control_config {
  cc_pipeline_id : Z;
  cc_epoch : Z;
  cc_data_capacity : Z;
  cc_stream_affinity_capacity : Z
}.

Record tr_pipeline_data_offer := mk_offer { of_data : tr_pipeline_data_ref; of_route : tr_pipeline_route_preface }.

Definition zero_offer : tr_pipeline_data_offer := mk_offer zero_data_ref zero_preface.
Definition zero_attached : tr_pipeline_attached_data := mk_attached zero_data_ref zero_conn.
Definition zero_control_message : tr_pipeline_control_wire_message := mk_control_message 0 0 0 0 0 0 0 0 0 0.

(** * Helpers *)

(** The session's pipeline: NULL when the session is NULL or has none. *)
Definition session_pipeline (control : option tr_pipeline_control) (h : pipeline_store) : option tr_pipeline :=
  match control with None => None | Some k => pipeline_at h (pc_pipeline k) end.

Definition session_put (control : option tr_pipeline_control) (h : pipeline_store) (q : option tr_pipeline) : pipeline_store :=
  match control with None => h | Some k => put_pipeline h (pc_pipeline k) q end.

(** [!control || !control->pipeline] *)
Definition no_session (control : option tr_pipeline_control) : bool :=
  match control with None => true | Some k => negb (bool_decide (is_Some (pc_pipeline k))) end.

Definition tr_pipeline_control_offer_matches (control : option tr_pipeline_control) (h : pipeline_store)
    (offer : option tr_pipeline_data_offer) : bool :=
  match offer with
  | None => false
  | Some offer =>
      bail false when (no_session control) ;;
      let route := of_route offer in
      let pipeline := session_pipeline control h in
      bail false when (negb (is_ok (tr_pipeline_route_preface_validate_fields (Some route)))) ;;
      bail false when (negb (pf_role route =? TR_PIPELINE_ROUTE_DATA)) ;;
      (pf_owner_shard_id route =? tr_pipeline_owner_shard_id pipeline) && (pf_pipeline_id route =? tr_pipeline_id pipeline) &&
      (pf_epoch route =? tr_pipeline_epoch pipeline) && (pf_member_index route =? dr_index (of_data offer)) &&
      (pf_member_generation route =? dr_generation (of_data offer))
  end.

(** * Creation *)

(** [control], [abort], [pipeline], [slots], [table]: what could be allocated; [i]: where the pipeline is. *)
Definition tr_pipeline_control_create (e other : owner_call) (r : option tr_pipeline_registry) (h : pipeline_store)
    (config : option tr_pipeline_control_config) (connection : tr_conn_handle) (out : bool)
    (control abort pipeline slots table : bool) (i : nat)
    : tr_status * option tr_pipeline_control * option tr_pipeline_registry * pipeline_store :=
  bail (TR_ERR_INVALID, None, r, h) when (negb out) ;;
  match config, r with
  | Some c, Some _ =>
      bail (TR_ERR_INVALID, None, r, h) when
        ((cc_pipeline_id c =? 0) || (cc_epoch c =? 0) || (cc_data_capacity c =? 0) || (cc_stream_affinity_capacity c =? 0)) ;;
      let owner := tr_pipeline_registry_owner r in
      let owner_shard_id := tr_pipeline_registry_owner_shard_id r in
      bail (TR_ERR_INVALID, None, r, h) when
        (negb (bool_decide (is_Some owner)) || (owner_shard_id =? UINT32_MAX) ||
         negb (bool_decide (ch_reactor connection = owner))) ;;
      bail (TR_ERR_NOMEM, None, r, h) when (negb control) ;;
      bail (TR_ERR_NOMEM, None, r, h) when (negb abort) ;;
      let pipeline_config := mk_pipeline_config owner owner_shard_id (cc_pipeline_id c) (cc_epoch c) (cc_data_capacity c)
        (cc_stream_affinity_capacity c) in
      match tr_pipeline_create (Some pipeline_config) true pipeline slots table with
      | (ret, None) => (ret, None, r, h)
      | (ret, Some p) =>
          bail (ret, None, r, h) when (negb (is_ok ret)) ;;
          let h := <[i := p]> h in
          let '(ret, r, h) := tr_pipeline_registry_register_control e other r h (Some i) connection in
          bail (ret, None, r, delete i h) when (negb (is_ok ret)) ;;
          (TR_OK, Some (mk_control true (Some i) (Some (replicate (Z.to_nat (cc_data_capacity c)) zero_attached)) (cc_data_capacity c)), r, h)
      end
  | _, _ => (TR_ERR_INVALID, None, r, h)
  end.

(** * Reservations and streams *)

(** The route of a reservation of the session's pipeline. *)
Definition offer_route (pipeline : option tr_pipeline) (data : tr_pipeline_data_ref) : tr_pipeline_route_preface :=
  mk_preface TR_PIPELINE_ROUTE_VERSION TR_PIPELINE_ROUTE_DATA 0 (tr_pipeline_owner_shard_id pipeline) (tr_pipeline_id pipeline)
    (tr_pipeline_epoch pipeline) (dr_index data) (dr_generation data) 0 0.

Definition tr_pipeline_control_reserve_data (e : owner_call) (control : option tr_pipeline_control) (h : pipeline_store)
    (out : option tr_pipeline_data_offer) : tr_status * pipeline_store * option tr_pipeline_data_offer :=
  bail (TR_ERR_INVALID, h, out) when (no_session control || negb (bool_decide (is_Some out))) ;;
  let '(ret, pipeline, data) := tr_pipeline_reserve_data e (session_pipeline control h) (Some zero_data_ref) in
  let h := session_put control h pipeline in
  bail (ret, h, Some zero_offer) when (negb (is_ok ret)) ;;
  let data := default zero_data_ref data in
  (TR_OK, h, Some (mk_offer data (offer_route pipeline data))).

Definition tr_pipeline_control_cancel_data (e : owner_call) (control : option tr_pipeline_control) (h : pipeline_store)
    (offer : option tr_pipeline_data_offer) : tr_status * pipeline_store :=
  bail (TR_ERR_STALE, h) when (negb (tr_pipeline_control_offer_matches control h offer)) ;;
  let '(ret, pipeline) := tr_pipeline_cancel_data_offer e (session_pipeline control h) (of_data (default zero_offer offer)) in
  (ret, session_put control h pipeline).

Definition tr_pipeline_control_prepare_transfer (e : owner_call) (control : option tr_pipeline_control) (h : pipeline_store)
    (stream_id : Z) (out : option tr_pipeline_transfer_ready) : tr_status * pipeline_store * option tr_pipeline_transfer_ready :=
  bail (TR_ERR_INVALID, h, out) when (no_session control) ;;
  let '(ret, pipeline, out) := tr_pipeline_prepare_transfer e (session_pipeline control h) stream_id out in
  (ret, session_put control h pipeline, out).

Definition tr_pipeline_control_release_transfer (e : owner_call) (control : option tr_pipeline_control) (h : pipeline_store)
    (stream_id : Z) : tr_status * pipeline_store :=
  bail (TR_ERR_INVALID, h) when (no_session control) ;;
  let '(ret, pipeline) := tr_pipeline_unbind_stream e (session_pipeline control h) stream_id in
  (ret, session_put control h pipeline).

Definition tr_pipeline_control_get_stats (e : owner_call) (control : option tr_pipeline_control) (h : pipeline_store)
    (out : option tr_pipeline_stats) : tr_status * pipeline_store * option tr_pipeline_stats :=
  bail (TR_ERR_INVALID, h, out) when (no_session control || negb (bool_decide (is_Some out))) ;;
  let '(ret, pipeline, out) := tr_pipeline_get_stats e (session_pipeline control h) out in
  (ret, session_put control h pipeline, out).

(** ** As messages *)

(** The identity that every message of the session carries. *)
Definition tr_pipeline_control_wire_identity (pipeline : option tr_pipeline) (type stream_id index generation : Z)
    : tr_pipeline_control_wire_message :=
  mk_control_message TR_PIPELINE_CONTROL_WIRE_VERSION type 0 (tr_pipeline_owner_shard_id pipeline) (tr_pipeline_id pipeline)
    (tr_pipeline_epoch pipeline) stream_id index generation 0.

(** The state: the pipelines, [*offer_out], and the bytes. *)
Definition tr_pipeline_control_reserve_data_wire_on_owner (control : option tr_pipeline_control)
    (s : pipeline_store * option tr_pipeline_data_offer * list Z)
    : tr_status * (pipeline_store * option tr_pipeline_data_offer * list Z) :=
  let '(h, offer_out, out) := s in
  let '(ret, h, offer) := tr_pipeline_control_reserve_data from_owner control h (Some zero_offer) in
  bail (ret, (h, offer_out, out)) when (negb (is_ok ret)) ;;
  let offer := default zero_offer offer in
  let message := tr_pipeline_control_wire_identity (session_pipeline control h) TR_PIPELINE_CONTROL_DATA_OFFER 0
    (dr_index (of_data offer)) (dr_generation (of_data offer)) in
  let '(ret, bytes) := tr_pipeline_control_wire_encode (Some out) (Some message) in
  let out := default out bytes in
  if negb (is_ok ret) then
    let '(rollback_ret, h) := tr_pipeline_control_cancel_data from_owner control h (Some offer) in
    (if negb (is_ok rollback_ret) then rollback_ret else ret, (h, offer_out, out))
  else (TR_OK, (h, (λ _, offer) <$> offer_out, out)).

Definition wire_zeros : list Z := replicate (Z.to_nat TR_PIPELINE_CONTROL_WIRE_SIZE) 0.

Definition tr_pipeline_control_reserve_data_wire_ex (e : owner_call) (control : option tr_pipeline_control) (h : pipeline_store)
    (offer_out : option tr_pipeline_data_offer) (out : option (list Z))
    : tr_status * pipeline_store * option tr_pipeline_data_offer * option (list Z) :=
  bail (TR_ERR_INVALID, h, offer_out, out) when (no_session control || negb (bool_decide (is_Some out))) ;;
  let offer_out := (λ _, zero_offer) <$> offer_out in
  let '(ret, (h, offer_out, out)) :=
    tr_reactor_call e (Some (tr_pipeline_control_reserve_data_wire_on_owner control)) (h, offer_out, wire_zeros) in
  (ret, h, offer_out, Some out).

Definition tr_pipeline_control_reserve_data_wire (e : owner_call) (control : option tr_pipeline_control) (h : pipeline_store)
    (out : option (list Z)) : tr_status * pipeline_store * option (list Z) :=
  let '(ret, h, _, out) := tr_pipeline_control_reserve_data_wire_ex e control h None out in (ret, h, out).

Definition tr_pipeline_control_cancel_data_wire (e : owner_call) (control : option tr_pipeline_control) (h : pipeline_store)
    (data : option (list Z)) (len : Z) : tr_status * pipeline_store :=
  bail (TR_ERR_INVALID, h) when (no_session control) ;;
  let '(ret, message) := tr_pipeline_control_wire_decode data len (Some zero_control_message) in
  bail (ret, h) when (negb (is_ok ret)) ;;
  let m := default zero_control_message message in
  bail (TR_ERR_BAD_TYPE, h) when (negb (cm_type m =? TR_PIPELINE_CONTROL_DATA_CANCEL)) ;;
  let offer := mk_offer (mk_data_ref (cm_data_index m) (cm_data_generation m))
    (mk_preface TR_PIPELINE_ROUTE_VERSION TR_PIPELINE_ROUTE_DATA 0 (cm_owner_shard_id m) (cm_pipeline_id m) (cm_epoch m)
       (cm_data_index m) (cm_data_generation m) 0 0) in
  tr_pipeline_control_cancel_data e control h (Some offer).

Definition tr_pipeline_control_prepare_transfer_wire_on_owner (control : option tr_pipeline_control) (stream_id : Z)
    (s : pipeline_store * list Z) : tr_status * (pipeline_store * list Z) :=
  let '(h, out) := s in
  let '(ret, h, ready) := tr_pipeline_control_prepare_transfer from_owner control h stream_id (Some (mk_transfer 0 zero_data_ref)) in
  bail (ret, (h, out)) when (negb (is_ok ret)) ;;
  let ready := default (mk_transfer 0 zero_data_ref) ready in
  let message := tr_pipeline_control_wire_identity (session_pipeline control h) TR_PIPELINE_CONTROL_TRANSFER_READY
    (tf_stream_id ready) (dr_index (tf_data ready)) (dr_generation (tf_data ready)) in
  let '(ret, bytes) := tr_pipeline_control_wire_encode (Some out) (Some message) in
  let out := default out bytes in
  if negb (is_ok ret) then
    let '(rollback_ret, h) := tr_pipeline_control_release_transfer from_owner control h stream_id in
    (if negb (is_ok rollback_ret) then rollback_ret else ret, (h, out))
  else (TR_OK, (h, out)).

Definition tr_pipeline_control_prepare_transfer_wire (e : owner_call) (control : option tr_pipeline_control) (h : pipeline_store)
    (stream_id : Z) (out : option (list Z)) : tr_status * pipeline_store * option (list Z) :=
  bail (TR_ERR_INVALID, h, out) when (no_session control || negb (bool_decide (is_Some out)) || (stream_id =? 0)) ;;
  let '(ret, (h, out)) := tr_reactor_call e (Some (tr_pipeline_control_prepare_transfer_wire_on_owner control stream_id)) (h, wire_zeros) in
  (ret, h, Some out).

(** * Teardown *)

(** What a teardown changes.  [td_control]: [None] when the session has been freed; [td_closes]: the connections
    given to [tr_reactor_close_on_owner], in order (what it answers changes nothing here); [td_asserts]:
    the assertions of [tr_pipeline_destroy] held. *)
Record teardown := mk_teardown {
  td_registry : tr_pipeline_registry;
  td_pipelines : pipeline_store;
  td_control : option tr_pipeline_control;
  td_closes : list tr_conn_handle;
  td_asserts : bool
}.

(** The pipelines change. *)
Definition td_set (s : teardown) (r : tr_pipeline_registry) (h : pipeline_store) : teardown :=
  mk_teardown r h (td_control s) (td_closes s) (td_asserts s).

(** [tr_pipeline_destroy], and [free] of the session. *)
Definition td_destroy (s : teardown) (ptr : pipeline_ptr) (closes : list tr_conn_handle) : teardown :=
  mk_teardown (td_registry s) (match ptr with Some i => delete i (td_pipelines s) | None => td_pipelines s end) None
    (td_closes s ++ closes) (td_asserts s && tr_pipeline_destroy (pipeline_at (td_pipelines s) ptr)).

(** The loop that removes the members of the snapshot. *)
Fixpoint remove_members (e : owner_call) (ptr : pipeline_ptr) (l : list tr_pipeline_attached_data) (h : pipeline_store)
    : tr_status * pipeline_store :=
  match l with
  | [] => (TR_OK, h)
  | a :: l =>
      let '(ret, pipeline) := tr_pipeline_remove_data e (pipeline_at h ptr) (ad_data a) in
      let h := put_pipeline h ptr pipeline in
      bail (ret, h) when (negb (is_ok ret)) ;;
      remove_members e ptr l h
  end.

Definition tr_pipeline_control_abort_on_owner (other : owner_call) (k : tr_pipeline_control) (expected : tr_conn_handle) (s : teardown)
    : tr_status * teardown :=
  let ptr := pc_pipeline k in
  let e := calls_owner (rg_owner (td_registry s)) (tr_pipeline_owner (pipeline_at (td_pipelines s) ptr)) other in
  let '(ret, pipeline, abort_data, count) :=
    tr_pipeline_attached_data_snapshot e (pipeline_at (td_pipelines s) ptr) (pc_abort_data k) (pc_data_capacity k) (Some 0) in
  let h := put_pipeline (td_pipelines s) ptr pipeline in
  bail (ret, td_set s (td_registry s) h) when (negb (is_ok ret)) ;;
  let members := take (Z.to_nat (default 0 count)) (default [] abort_data) in
  let '(ret, h) := remove_members e ptr members h in
  bail (ret, td_set s (td_registry s) h) when (negb (is_ok ret)) ;;
  let '(ret, r, h) := tr_pipeline_registry_close_control from_owner other (Some (td_registry s)) h ptr expected in
  let s := td_set s (default (td_registry s) r) h in
  bail (ret, s) when (negb (is_ok ret)) ;;
  (TR_OK, td_destroy s ptr (map ad_connection members)).

Definition tr_pipeline_control_close_on_owner (other : owner_call) (k : tr_pipeline_control) (expected : tr_conn_handle) (s : teardown)
    : tr_status * teardown :=
  let ptr := pc_pipeline k in
  let '(ret, r, h) := tr_pipeline_registry_close_control from_owner other (Some (td_registry s)) (td_pipelines s) ptr expected in
  let s := td_set s (default (td_registry s) r) h in
  bail (ret, s) when (negb (is_ok ret)) ;;
  (TR_OK, td_destroy s ptr []).

(** The session of a teardown that is about to start. *)
Definition td_start (k : tr_pipeline_control) (r : tr_pipeline_registry) (h : pipeline_store) : teardown :=
  mk_teardown r h (Some k) [] true.

Definition tr_pipeline_control_abort (e other : owner_call) (k : tr_pipeline_control) (expected : tr_conn_handle)
    (r : tr_pipeline_registry) (h : pipeline_store) : tr_status * teardown :=
  let s := td_start k r h in
  bail (TR_ERR_INVALID, s) when
    (negb (bool_decide (is_Some (pc_pipeline k))) || negb (pc_registry k) || negb (bool_decide (is_Some (pc_abort_data k)))) ;;
  bail (TR_ERR_INVALID, s) when
    (negb (bool_decide (is_Some (rg_owner r))) || negb (bool_decide (ch_reactor expected = rg_owner r))) ;;
  tr_reactor_call e (Some (tr_pipeline_control_abort_on_owner other k expected)) s.

Definition tr_pipeline_control_close (e other : owner_call) (k : tr_pipeline_control) (expected : tr_conn_handle)
    (r : tr_pipeline_registry) (h : pipeline_store) : tr_status * teardown :=
  let s := td_start k r h in
  bail (TR_ERR_INVALID, s) when (negb (bool_decide (is_Some (pc_pipeline k))) || negb (pc_registry k)) ;;
  bail (TR_ERR_INVALID, s) when
    (negb (bool_decide (is_Some (rg_owner r))) || negb (bool_decide (ch_reactor expected = rg_owner r))) ;;
  tr_reactor_call e (Some (tr_pipeline_control_close_on_owner other k expected)) s.

(** * Specification *)

(** The identity of a pipeline that can be named in messages. *)
Definition identity_ok (p : tr_pipeline) : Prop :=
  u32_ok (pl_owner_shard_id p) ∧ pl_owner_shard_id p ≠ UINT32_MAX ∧ u64_ok (pl_pipeline_id p) ∧ pl_pipeline_id p ≠ 0 ∧
  u64_ok (pl_epoch p) ∧ pl_epoch p ≠ 0.

(** The session and its pipeline [p], at [i]: published, with room for a snapshot of all its members. *)
Record session_ok (k : tr_pipeline_control) (r : tr_pipeline_registry) (h : pipeline_store) (i : nat) (p : tr_pipeline) : Prop := {
  sk_registry : pc_registry k = true;
  sk_pipeline : pc_pipeline k = Some i;
  sk_at : h !! i = Some p;
  sk_route : di_routes (directory_of (r, h)) !! pl_pipeline_id p = Some i;
  sk_capacity : pc_data_capacity k = pl_data_capacity p;
  sk_room : ∃ l, pc_abort_data k = Some l ∧ alen l = pl_data_capacity p;
  sk_identity : identity_ok p
}.

(** ** The members of a snapshot *)

Lemma attached_from_spec slots start a : a ∈ attached_from slots start ↔
  ∃ i, start ≤ i < start + alen slots ∧ ds_state slots.[i - start] = Data_attached ∧
    a = mk_attached (mk_data_ref i (ds_generation slots.[i - start])) (ds_connection slots.[i - start]).
Proof.
  revert start. induction slots as [|s l IH]; intros start; cbn [attached_from].
  { split; [by intros H%elem_of_nil|]. intros (i & Hi & _). unfold alen in Hi. cbn in Hi. lia. }
  assert (∀ i, start + 1 ≤ i → (s :: l).[i - start] = l.[i - (start + 1)]) as Hshift.
  { intros i Hi. unfold aget. by replace (Z.to_nat (i - start)) with (S (Z.to_nat (i - (start + 1)))) by lia. }
  assert (a ∈ attached_from l (start + 1) ↔ ∃ i, start + 1 ≤ i < start + alen (s :: l) ∧ ds_state (s :: l).[i - start] = Data_attached ∧
    a = mk_attached (mk_data_ref i (ds_generation (s :: l).[i - start])) (ds_connection (s :: l).[i - start])) as Hrest.
  { rewrite IH. unfold alen. cbn [length]. split; intros (i & Hi & H); exists i; (split; [lia|]); by rewrite Hshift in * by lia. }
  assert (a ∈ attached_from l (start + 1) ∨ (ds_state s = Data_attached ∧ a = mk_attached (mk_data_ref start (ds_generation s)) (ds_connection s)) ↔
    a ∈ (if bool_decide (ds_state s = Data_attached)
      then mk_attached (mk_data_ref start (ds_generation s)) (ds_connection s) :: attached_from l (start + 1) else attached_from l (start + 1))) as <-.
  { case_bool_decide as Hs; [rewrite elem_of_cons|]; tauto. }
  rewrite Hrest. split.
  - intros [(i & Hi & H)|[Hs ->]]; [exists i; split; [lia|done]|]. exists start. rewrite Z.sub_diag. unfold alen. cbn [length]. split; [lia|done].
  - intros (i & Hi & Hs & ->). destruct (decide (i = start)) as [->|Hne]; [right; by rewrite Z.sub_diag in *|left].
    exists i. split; [lia|done].
Qed.

Lemma attached_from_nodup slots start : NoDup (map (λ a, dr_index (ad_data a)) (attached_from slots start)).
Proof.
  revert start. induction slots as [|s l IH]; intros start; cbn [attached_from]; [apply NoDup_nil_2|].
  case_bool_decide; [|apply IH]. cbn [map]. apply NoDup_cons_2; [|apply IH].
  intros (a & E & Ha)%list_elem_of_fmap. apply attached_from_spec in Ha as (i & Hi & _ & ->). cbn in E. lia.
Qed.

Lemma attached_from_length slots start : alen (attached_from slots start) = zsum (in_state Data_attached) slots.
Proof.
  unfold alen. revert start. induction slots as [|s l IH]; intros start; cbn [attached_from zsum]; [done|]. specialize (IH (start + 1)).
  case_bool_decide as Hs; [rewrite in_state_is by done|rewrite in_state_isnt by done]; cbn [length]; lia.
Qed.

(** The snapshot holds the members that are attached. *)
Lemma snapshot_members p a : pipeline_ok p → a ∈ attached_from (pl_data_slots p) 0 →
  gr_members (group_of p) !! dr_index (ad_data a) = Some (Attached (dr_generation (ad_data a)) (ad_connection a)) ∧ 0 ≤ dr_index (ad_data a).
Proof.
  intros Hok (i & Hi & Hs & ->)%attached_from_spec. cbn [ad_data ad_connection dr_index dr_generation]. rewrite Z.sub_0_r in *. split; [|lia].
  cbn. apply members_lookup. split; [lia|]. unfold slot_member. by rewrite Hs.
Qed.

Lemma snapshot_all p i g c : pipeline_ok p → gr_members (group_of p) !! i = Some (Attached g c) →
  mk_attached (mk_data_ref i g) c ∈ attached_from (pl_data_slots p) 0.
Proof.
  intros Hok H. cbn in H. apply members_lookup in H as [Hi Hm]. apply attached_from_spec. exists i. rewrite Z.sub_0_r.
  unfold slot_member in Hm. destruct (ds_state (pl_data_slots p).[i]) eqn:Es; simplify_eq. split; [lia|done].
Qed.

(** ** Removing the members *)

Lemma effect_remove g data out g' : effect g (Po_remove data) out g' →
  gr_control g' = gr_control g ∧ gr_members g' = delete (dr_index data) (gr_members g).
Proof. by inversion 1. Qed.

Lemma remove_member data c p : pipeline_ok p → 0 ≤ dr_index data →
  gr_members (group_of p) !! dr_index data = Some (Attached (dr_generation data) c) →
  ∃ q, tr_pipeline_remove_data from_owner (Some p) data = (TR_OK, Some q) ∧ pipeline_ok q ∧ identity q = identity p ∧
    gr_control (group_of q) = gr_control (group_of p) ∧ gr_members (group_of q) = delete (dr_index data) (gr_members (group_of p)).
Proof.
  intros Hok H0 Hm. pose proof (remove_outcome data p Hok H0) as H. pose proof (remove_identity data p) as Hid.
  unfold tr_pipeline_remove_data. rewrite owner_update. destruct (tr_pipeline_remove_data_on_owner data p) as [ret q]. cbn [snd] in Hid.
  destruct H as [Hq H]. unfold refusal, attached_as in H. cbn [reason] in H. rewrite Hm, Z.eqb_refl in H. rewrite bool_decide_false in H by done.
  destruct H as [-> He]. apply effect_remove in He as [E1 E2]. by exists q.
Qed.

Lemma remove_members_spec l i p h : pipeline_ok p → h !! i = Some p → NoDup (map (λ a, dr_index (ad_data a)) l) →
  (∀ a, a ∈ l → gr_members (group_of p) !! dr_index (ad_data a) = Some (Attached (dr_generation (ad_data a)) (ad_connection a)) ∧
     0 ≤ dr_index (ad_data a)) →
  ∃ q, remove_members from_owner (Some i) l h = (TR_OK, <[i := q]> h) ∧ pipeline_ok q ∧ identity q = identity p ∧
    gr_control (group_of q) = gr_control (group_of p) ∧
    ∀ j, gr_members (group_of q) !! j = if decide (j ∈ map (λ a, dr_index (ad_data a)) l) then None else gr_members (group_of p) !! j.
Proof.
  revert p h. induction l as [|a l IH]; intros p h Hok Hp Hnd Hl; cbn [remove_members].
  { exists p. split; [by rewrite insert_id|]. split; [done|]. split; [done|]. split; [done|]. intros j. by rewrite decide_False by apply not_elem_of_nil. }
  cbn [map] in Hnd. apply NoDup_cons in Hnd as [Hna Hnd]. destruct (Hl a ltac:(left)) as [Ha H0].
  destruct (remove_member _ _ p Hok H0 Ha) as (q & E & Hq & Hid & Hc & Hm). cbn [pipeline_at mbind option_bind]. rewrite Hp, E.
  change (is_ok TR_OK) with true. cbn [negb put_pipeline].
  destruct (IH q (<[i := q]> h) Hq) as (q' & E' & Hq' & Hid' & Hc' & Hm'); [apply lookup_insert_eq|done| |].
  { intros b Hb. destruct (Hl b ltac:(by right)) as [Hb1 Hb2]. split; [|done]. rewrite Hm, lookup_delete_ne; [done|].
    intros E1. apply Hna. rewrite E1. apply list_elem_of_fmap. by exists b. }
  exists q'. rewrite E', insert_insert_eq. split; [done|]. split; [done|]. split; [congruence|]. split; [congruence|].
  intros j. rewrite Hm', Hm. cbn [map]. destruct (decide (j = dr_index (ad_data a))) as [->|Hne].
  - rewrite lookup_delete_eq. rewrite (decide_True (P := _ ∈ _ :: _)) by left. by case_decide.
  - rewrite lookup_delete_ne by done. destruct (decide (j ∈ map (λ a, dr_index (ad_data a)) l)) as [Hj|Hj].
    + by rewrite decide_True by by right.
    + rewrite decide_False; [done|]. by intros [?|?]%elem_of_cons.
Qed.

(** After the loop nobody is attached; reservations stay. *)
Lemma members_removed p q : pipeline_ok p →
  (∀ j, gr_members (group_of q) !! j =
     if decide (j ∈ map (λ a, dr_index (ad_data a)) (attached_from (pl_data_slots p) 0)) then None else gr_members (group_of p) !! j) →
  gr_members (group_of q) = filter (λ im, member_connection im.2 = None) (gr_members (group_of p)).
Proof.
  intros Hok H. apply map_eq. intros j. rewrite H. symmetry. case_decide as Hj.
  - apply map_lookup_filter_None. right. intros m Hm. apply list_elem_of_fmap in Hj as (a & -> & Ha).
    destruct (snapshot_members p a Hok Ha) as [Ha' _]. rewrite Ha' in Hm. injection Hm as <-. done.
  - destruct (gr_members (group_of p) !! j) as [[g|g c]|] eqn:Em.
    + by apply map_lookup_filter_Some.
    + destruct Hj. apply list_elem_of_fmap. exists (mk_attached (mk_data_ref j g) c). split; [done|]. by apply snapshot_all.
    + apply map_lookup_filter_None. by left.
Qed.

Lemma nobody_removed p q : gr_members (group_of q) = filter (λ im, member_connection im.2 = None) (gr_members (group_of p)) →
  nobody (group_of q) = true.
Proof.
  intros H. apply negb_true_iff, bool_decide_eq_false. intros (i & m & Hm & [c Hc]). rewrite H in Hm.
  apply map_lookup_filter_Some in Hm as [_ Hm]. cbn in Hm. congruence.
Qed.

(** ** Closing *)

Lemma close_control_heap other i c s : delete i (tr_pipeline_registry_close_control_on_owner other (Some i) c s).2.2 = delete i s.2.
Proof.
  destruct s as [r h]. unfold tr_pipeline_registry_close_control_on_owner.
  assert (∀ q, delete i (put_pipeline h (Some i) q) = delete i h) as Hput.
  { intros [q|]; [|done]. cbn. by rewrite delete_insert_eq. }
  repeat case_match; simplify_eq/=; done || apply Hput.
Qed.

Lemma effect_clear g c out g' : effect g (Po_clear_control c) out g' →
  gr_control g' = None ∧ gr_members g' = filter (λ im, is_Some (member_connection im.2)) (gr_members g).
Proof. by inversion 1. Qed.

(** A pipeline without members is withdrawn if the right CONTROL asks; and can then be destroyed. *)
Lemma close_control_spec other i c q r h : shard_ok (r, h) → h !! i = Some q → di_routes (directory_of (r, h)) !! pl_pipeline_id q = Some i →
  nobody (group_of q) = true →
  let '(ret, r', h') := tr_pipeline_registry_close_control from_owner other (Some r) h (Some i) c in
  if bool_decide (gr_control (group_of q) = Some c) then
    ret = TR_OK ∧ ∃ r'', r' = Some r'' ∧ shard_ok (r'', delete i h') ∧ delete i h' = delete i h ∧
      di_routes (directory_of (r'', h')) = delete (pl_pipeline_id q) (di_routes (directory_of (r, h))) ∧
      tr_pipeline_destroy (h' !! i) = true
  else ret = TR_ERR_STALE ∧ r' = Some r ∧ h' = h.
Proof.
  intros Hok Hq Hr Hn. pose proof (entry_shard r h _ i q Hok Hr Hq) as Hss.
  pose proof (shard_exec_answered from_owner other (So_close_control i c) r h Hok ltac:(by eexists)) as H. cbn [shard_exec] in H.
  pose proof (close_control_heap other i c (r, h)) as Hheap.
  unfold tr_pipeline_registry_close_control in *. rewrite bool_decide_true in * by done. cbn [negb orb pipeline_at mbind option_bind] in *.
  rewrite Hq, Hss in *. cbn [negb registry_call] in *. rewrite tr_reactor_call_owner in * by done.
  destruct (tr_pipeline_registry_close_control_on_owner other (Some i) c (r, h)) as [ret [r' h']]. cbn [snd] in Hheap.
  destruct H as (r0 & [= <-] & [Hok' H]). cbn [shard_refusal] in H. rewrite (asks_at r h i q) in H by done. cbn [reason] in H.
  change (foreign_pipeline _ (listed_of q)) with (negb (same_shard r (Some q))) in H. rewrite Hss in H. cbn [negb] in H.
  change (ls_id (listed_of q)) with (pl_pipeline_id q) in H. change (ls_group (listed_of q)) with (group_of q) in H.
  rewrite Hr in H. rewrite (bool_decide_true (Some i = Some i)) in H by done. rewrite Hn in H. cbn [negb] in H.
  unfold refusal, no_control in H. cbn [reason] in H. destruct (decide (gr_control (group_of q) = Some c)) as [Hc|Hc].
  - rewrite (bool_decide_true (_ = Some c)) in * by done. rewrite bool_decide_false in H by congruence. cbn [orelse negb] in H.
    destruct H as [-> (l & g & Hl & He & Hd)]. split; [done|]. exists r'. split; [done|].
    assert (di_routes (directory_of (r', h')) = delete (pl_pipeline_id q) (di_routes (directory_of (r, h)))) as Hroutes.
    { rewrite Hd. cbn [di_set di_routes]. by rewrite (id_at r h i q). }
    assert (l = listed_of q) as -> by (cbn in Hl; rewrite lookup_fmap, Hq in Hl; by injection Hl).
    assert ((listed_of <$> h') !! i = Some (ls_set_group (listed_of q) g)) as Hi.
    { change (listed_of <$> h') with (di_pipelines (directory_of (r', h'))). rewrite Hd. cbn [di_set di_pipelines]. apply lookup_insert_eq. }
    rewrite lookup_fmap in Hi. destruct (h' !! i) as [q'|] eqn:Eq'; [|done]. cbn in Hi. injection Hi as _ _ _ Hg.
    split_and!; [|done|done|].
    + apply (shard_step_ok (r', h')); [|done]. apply Step_destroy. intros id Hid. rewrite <- (route_at r' h') in Hid.
      destruct (rk_live _ Hok' id (Some i)) as (j & q0 & [= <-] & Hq0 & Hid0 & _); [by apply (route_at r' h')|]. cbn [fst snd] in *.
      rewrite Hroutes in Hid. apply lookup_delete_Some in Hid as [Hne Hid]. simplify_eq. apply Hne.
      apply (route_at r h) in Hid. destruct (rk_live _ Hok _ _ Hid) as (j & q1 & [= <-] & Hq1 & Hid1 & _). cbn [fst snd] in *. congruence.
    + apply destroy_iff; [by apply (rk_pipelines _ Hok' i)|]. rewrite Hg. apply effect_clear in He as [E1 E2]. split; [done|].
      rewrite E2. apply map_empty. intros j. apply map_lookup_filter_None. right. intros m Hm [c' Hc']. cbn in Hc'.
      apply negb_true_iff, bool_decide_eq_false in Hn. apply Hn. exists j, m. split; [done|]. by eexists.
  - rewrite (bool_decide_false (_ = Some c)) in * by done. destruct (bool_decide (gr_control (group_of q) = None)); cbn [orelse negb] in H;
      destruct H as (-> & _ & [= -> ->]); done.
Qed.

(** ** Abort *)

Lemma member_connections p : pipeline_ok p →
  NoDup (map ad_connection (attached_from (pl_data_slots p) 0)) ∧
  ∀ c, c ∈ map ad_connection (attached_from (pl_data_slots p) 0) ↔ connected (group_of p) c = true.
Proof.
  intros Hok. split.
  - apply NoDup_fmap_2_strong; [|apply (NoDup_fmap_1 (λ a, dr_index (ad_data a))), attached_from_nodup].
    intros a b (i & Hi & Hs & ->)%attached_from_spec (j & Hj & Hs' & ->)%attached_from_spec. cbn [ad_connection]. rewrite !Z.sub_0_r in *. intros E.
    rewrite (pk_length _ Hok) in *. replace j with i; [done|].
    apply (pk_distinct _ Hok i j (ds_connection (pl_data_slots p).[i])); [lia|lia|by apply slot_has_true|by apply slot_has_true].
  - intros c. unfold connected. rewrite bool_decide_eq_true, list_elem_of_fmap. split.
    + intros (a & -> & Ha). destruct (snapshot_members p a Hok Ha) as [Hm _]. eexists _, _. by split.
    + intros (i & m & Hm & Hc). destruct m as [g|g c']; [done|]. cbn in Hc. injection Hc as ->.
      exists (mk_attached (mk_data_ref i g) c). split; [done|]. by apply snapshot_all.
Qed.

(** The snapshot of the session's array. *)
Lemma snapshot_taken p l : pipeline_ok p → alen l = pl_data_capacity p →
  let members := attached_from (pl_data_slots p) 0 in
  tr_pipeline_attached_data_snapshot from_owner (Some p) (Some l) (pl_data_capacity p) (Some 0) =
    (TR_OK, Some p, Some (members ++ drop (length members) l), Some (alen members)).
Proof.
  intros Hok Hl members. unfold tr_pipeline_attached_data_snapshot. rewrite tr_reactor_call_owner by done.
  unfold tr_pipeline_attached_data_snapshot_on_owner. pose proof (counts_bound _ Hok) as Hb.
  rewrite (proj2 (Z.ltb_ge _ _)) by lia. rewrite bool_decide_true by done. cbn [negb]. by rewrite andb_false_r.
Qed.

(** The state after the members are gone. *)
Lemma abort_removes k r h i p : shard_ok (r, h) → session_ok k r h i p →
  let members := attached_from (pl_data_slots p) 0 in
  ∃ q, remove_members from_owner (Some i) members (<[i := p]> h) = (TR_OK, <[i := q]> h) ∧ shard_ok (r, <[i := q]> h) ∧
    identity q = identity p ∧ gr_control (group_of q) = gr_control (group_of p) ∧
    gr_members (group_of q) = filter (λ im, member_connection im.2 = None) (gr_members (group_of p)).
Proof.
  intros Hok Hk members. pose proof (sk_at _ _ _ _ _ Hk) as Hp. pose proof (rk_pipelines _ Hok i p Hp) as Hpok.
  destruct (remove_members_spec members i p (<[i := p]> h) Hpok) as (q & E & Hq & Hid & Hc & Hm);
    [apply lookup_insert_eq|apply attached_from_nodup|intros a; by apply snapshot_members|].
  exists q. rewrite insert_insert_eq in E. split; [done|]. split; [by apply (put_shard r h Hok i p q)|]. split; [done|]. split; [done|].
  by apply members_removed.
Qed.

Lemma abort_on_owner_spec other k expected r h i p : shard_ok (r, h) → session_ok k r h i p →
  let '(ret, s) := tr_pipeline_control_abort_on_owner other k expected (td_start k r h) in
  if bool_decide (gr_control (group_of p) = Some expected) then
    ret = TR_OK ∧ td_control s = None ∧ td_asserts s = true ∧ td_closes s = map ad_connection (attached_from (pl_data_slots p) 0) ∧
    td_pipelines s = delete i h ∧ shard_ok (td_registry s, td_pipelines s) ∧
    live_routes (td_registry s) = delete (pl_pipeline_id p) (live_routes r)
  else ret = TR_ERR_STALE ∧ td_control s = Some k ∧ td_asserts s = true ∧ td_closes s = [] ∧ td_registry s = r ∧
    ∃ q, td_pipelines s = <[i := q]> h ∧ gr_control (group_of q) = gr_control (group_of p) ∧
      gr_members (group_of q) = filter (λ im, member_connection im.2 = None) (gr_members (group_of p)).
Proof.
  intros Hok Hk. pose proof Hk as [Hkr Hkp Hp Hr Hcap (l & Hl & Hlen) _]. pose proof (rk_pipelines _ Hok i p Hp) as Hpok.
  pose proof (entry_shard r h _ i p Hok Hr Hp) as Hss. unfold tr_pipeline_control_abort_on_owner. cbn [td_start td_registry td_pipelines].
  rewrite Hkp. cbn [pipeline_at mbind option_bind]. rewrite Hp, owner_calls by by apply same_shard_owner.
  rewrite Hl, Hcap, (snapshot_taken p l Hpok Hlen). change (is_ok TR_OK) with true. cbn [negb default id put_pipeline].
  set (members := attached_from (pl_data_slots p) 0).
  assert (take (Z.to_nat (alen members)) (members ++ drop (length members) l) = members) as ->.
  { unfold alen. by rewrite Nat2Z.id, take_app_length. }
  destruct (abort_removes k r h i p Hok Hk) as (q & E & Hok' & Hid & Hc & Hm). fold members in E. rewrite E. change (is_ok TR_OK) with true. cbn [negb].
  assert (pl_pipeline_id q = pl_pipeline_id p) as Eid by by injection Hid.
  pose proof (close_control_spec other i expected q r (<[i := q]> h) Hok' (lookup_insert_eq _ _ _)) as Hclose.
  rewrite Eid in Hclose. specialize (Hclose Hr (nobody_removed p q Hm)). rewrite Hc in Hclose.
  destruct (tr_pipeline_registry_close_control from_owner other (Some r) (<[i := q]> h) (Some i) expected) as [[ret r'] h'].
  case_bool_decide.
  - destruct Hclose as (-> & r'' & -> & Hok'' & Hdel & Hroutes & Hdestroy). change (is_ok TR_OK) with true.
    rewrite delete_insert_eq in Hdel. cbn [negb default id td_destroy td_set td_registry td_pipelines td_control td_closes td_asserts td_start pipeline_at mbind option_bind app].
    rewrite Hdestroy, Hdel. rewrite Hdel in Hok''. by split_and!.
  - destruct Hclose as (-> & -> & ->). change (is_ok TR_ERR_STALE) with false. cbn. split_and!; try done. by exists q.
Qed.

(** C20: a fatal teardown that reaches the owner with the session's CONTROL takes everything down in one
    step: all members are removed, the pipeline is withdrawn from the registry and destroyed, with
    the assertions of [tr_pipeline_destroy] satisfied, each connection that was a member's is
    closed, exactly once, and the session is freed.  With another connection than the CONTROL it
    answers [TR_ERR_STALE] and the session stays published; but its members are gone all the same,
    and their connections are not closed. *)
Theorem control_abort_complete e other k expected r h i p : shard_ok (r, h) → session_ok k r h i p → reaches e = true →
  ch_reactor expected = rg_owner r →
  let '(ret, s) := tr_pipeline_control_abort e other k expected r h in
  if bool_decide (gr_control (group_of p) = Some expected) then
    ret = TR_OK ∧ td_control s = None ∧ td_asserts s = true ∧ td_pipelines s = delete i h ∧ shard_ok (td_registry s, td_pipelines s) ∧
    live_routes (td_registry s) = delete (pl_pipeline_id p) (live_routes r) ∧
    NoDup (td_closes s) ∧ ∀ c, c ∈ td_closes s ↔ connected (group_of p) c = true
  else ret = TR_ERR_STALE ∧ td_control s = Some k ∧ td_asserts s = true ∧ td_closes s = [] ∧ td_registry s = r ∧
    ∃ q, td_pipelines s = <[i := q]> h ∧ gr_control (group_of q) = gr_control (group_of p) ∧ nobody (group_of q) = true.
Proof.
  intros Hok Hk He Hexp. pose proof (abort_on_owner_spec other k expected r h i p Hok Hk) as H.
  unfold tr_pipeline_control_abort. rewrite (sk_pipeline _ _ _ _ _ Hk), (sk_registry _ _ _ _ _ Hk).
  destruct (sk_room _ _ _ _ _ Hk) as (l & -> & _). pose proof (rk_owner _ Hok) as Ho. cbn [fst] in Ho.
  rewrite !(bool_decide_true (is_Some _)), (bool_decide_true (_ = rg_owner r)) by done. cbn [negb orb].
  pose proof (tr_reactor_call_reaches e (tr_pipeline_control_abort_on_owner other k expected) (td_start k r h)) as Hreach. rewrite He in Hreach.
  rewrite Hreach. destruct (tr_pipeline_control_abort_on_owner other k expected (td_start k r h)) as [ret s].
  destruct (member_connections p (rk_pipelines _ Hok i p (sk_at _ _ _ _ _ Hk))) as [H1 H2]. case_bool_decide.
  - destruct H as (-> & ? & ? & -> & ? & ? & ?). by split_and!.
  - destruct H as (-> & ? & ? & ? & ? & q & ? & ? & Hm). split_and!; try done. exists q. split; [done|]. split; [done|]. by eapply nobody_removed.
Qed.

(** ** Offers *)

(** A message of the session about the member [data] can be encoded. *)
Lemma identity_message p type data : identity_ok p → u32_ok (dr_index data) → dr_index data ≠ UINT32_MAX → u32_ok (dr_generation data) →
  dr_generation data ≠ 0 → type = TR_PIPELINE_CONTROL_DATA_OFFER ∨ type = TR_PIPELINE_CONTROL_DATA_CANCEL →
  let m := tr_pipeline_control_wire_identity (Some p) type 0 (dr_index data) (dr_generation data) in
  control_message_ok m ∧ legal_control_message m.
Proof.
  intros (H1 & H2 & H3 & H4 & H5 & H6) Hi Hi0 Hg Hg0 Ht m. unfold m, tr_pipeline_control_wire_identity. split.
  - split; cbn; try done; destruct Ht as [-> | ->]; vm_compute; split; congruence.
  - by apply legal_offer.
Qed.

Lemma effect_reserve_lookup g data g' : effect g Po_reserve (Out_ref data) g' →
  gr_control g' = gr_control g ∧ gr_members g !! dr_index data = None ∧ 0 ≤ dr_index data < gr_capacity g ∧
  gr_members g' = <[dr_index data := Reserved (dr_generation data)]> (gr_members g).
Proof. by inversion 1. Qed.

(** A reservation by the owner. *)
Lemma reserve_on_owner p : pipeline_ok p → match refusal (group_of p) Po_reserve with
  | Some refused => refused ≠ TR_OK ∧ tr_pipeline_reserve_data from_owner (Some p) (Some zero_data_ref) = (refused, Some p, Some zero_data_ref)
  | None => ∃ q data, tr_pipeline_reserve_data from_owner (Some p) (Some zero_data_ref) = (TR_OK, Some q, Some data) ∧
      pipeline_ok q ∧ identity q = identity p ∧ effect (group_of p) Po_reserve (Out_ref data) (group_of q)
  end.
Proof.
  intros Hok. pose proof (reserve_outcome zero_data_ref p Hok) as H. unfold tr_pipeline_reserve_data, pipeline_call.
  rewrite tr_reactor_call_owner by done.
  assert (identity (tr_pipeline_reserve_data_on_owner (p, zero_data_ref)).2.1 = identity p) as Hid
    by (unfold tr_pipeline_reserve_data_on_owner; identity_cases).
  assert (∀ r q o, tr_pipeline_reserve_data_on_owner (p, zero_data_ref) = (r, (q, o)) → r ≠ TR_OK → o = zero_data_ref) as Hout.
  { unfold tr_pipeline_reserve_data_on_owner. intros r q o. repeat case_match; intros; simplify_eq; done. }
  destruct (tr_pipeline_reserve_data_on_owner (p, zero_data_ref)) as [r [q o]]. cbn [fst snd] in Hid. destruct H as [Hq H].
  destruct (refusal (group_of p) Po_reserve).
  - destruct H as (-> & Hne & -> & _). split; [done|]. by rewrite (Hout t p o eq_refl Hne).
  - destruct H as [-> H]. change (is_ok TR_OK) with true in H. by exists q, o.
Qed.

(** What the session's request for an offer does on the owner: no rollback ever happens. *)
Lemma reserve_wire_spec k r h i p offer_out out : shard_ok (r, h) → session_ok k r h i p →
  match refusal (group_of p) Po_reserve with
  | Some refused => refused ≠ TR_OK ∧
      tr_pipeline_control_reserve_data_wire_on_owner (Some k) (h, offer_out, out) = (refused, (h, offer_out, out))
  | None => ∃ q data, pipeline_ok q ∧ identity q = identity p ∧ effect (group_of p) Po_reserve (Out_ref data) (group_of q) ∧
      let m := tr_pipeline_control_wire_identity (Some q) TR_PIPELINE_CONTROL_DATA_OFFER 0 (dr_index data) (dr_generation data) in
      control_message_ok m ∧ legal_control_message m ∧
      tr_pipeline_control_reserve_data_wire_on_owner (Some k) (h, offer_out, out) =
        (TR_OK, (<[i := q]> h, (λ _, mk_offer data (offer_route (Some q) data)) <$> offer_out, control_bytes m))
  end.
Proof.
  intros Hok Hk. pose proof (sk_at _ _ _ _ _ Hk) as Hp. pose proof (reserve_on_owner p (rk_pipelines _ Hok i p Hp)) as H.
  unfold tr_pipeline_control_reserve_data_wire_on_owner, tr_pipeline_control_reserve_data.
  unfold no_session, session_pipeline, session_put. rewrite (sk_pipeline _ _ _ _ _ Hk). cbn [pipeline_at mbind option_bind]. rewrite Hp.
  rewrite !(bool_decide_true (is_Some _)) by done. cbn [negb orb]. destruct (refusal (group_of p) Po_reserve).
  - destruct H as [Hne ->]. split; [done|]. rewrite (proj2 (is_ok_false _) Hne). cbn [negb put_pipeline]. rewrite insert_id by done.
    by rewrite (proj2 (is_ok_false _) Hne).
  - destruct H as (q & data & -> & Hq & Hid & He). exists q, data. split; [done|]. split; [done|]. split; [done|].
    assert (identity_ok q) as Hidq by (pose proof (sk_identity _ _ _ _ _ Hk) as Hi; unfold identity_ok in *; injection Hid as _ -> -> ->; done).
    pose proof (effect_reserve_lookup _ _ _ He) as (_ & _ & Hidx & Hm).
    assert (0 ≤ dr_index data < pl_data_capacity q) as Hidx' by (rewrite <- (effect_capacity _ _ _ _ He) in Hidx; exact Hidx).
    destruct (group_slot q _ Hq Hidx') as [_ Hslot]. rewrite Hm, lookup_insert_eq in Hslot.
    destruct (slot_at q _ Hq Hidx') as [Hg Hst]. unfold state_at, generation_at in Hslot. destruct (ds_state _) eqn:Es; [done| |done].
    injection Hslot as Hgen. rewrite <- Hgen in Hg, Hst. pose proof (pk_capacity _ Hq).
    destruct (identity_message q TR_PIPELINE_CONTROL_DATA_OFFER data Hidq) as [H1 H2]; [word_lia|word_lia|done|apply Hst|by left|].
    split; [done|]. split; [done|]. change (is_ok TR_OK) with true. cbn [negb put_pipeline default id of_data].
    rewrite lookup_insert_eq. rewrite control_encode_bytes by done. done.
Qed.

(** The preface of an offer, as the receiver of the connection sees it. *)
Lemma offer_preface m om r o : control_message_ok m → legal_control_message m → cm_type m = TR_PIPELINE_CONTROL_DATA_OFFER →
  tr_pipeline_control_wire_decode (Some (control_bytes m)) 48 (Some om) = (TR_OK, Some m) ∧
  ∃ route raw p' crc, tr_pipeline_control_wire_data_route (Some m) (Some r) = (TR_OK, Some route) ∧
    tr_pipeline_route_preface_encode (Some []) (Some route) = (TR_OK, Some raw) ∧
    tr_pipeline_route_parser_feed (Some zero_route_parser) (Some raw) 48 (Some 0) (Some o) (Some 0) =
      (TR_OK, Some p', Some 48, Some (with_route_crc (offered_route m) crc), Some 1) ∧ u32_ok crc.
Proof.
  intros Hm Hl Ht. split.
  - apply control_decode_iff. split; [done|]. split; [done|]. split; [symmetry; by apply control_fields_bytes|done].
  - destruct (offered_route_legal m Hm Hl Ht) as [Hr Hg]. destruct (whole_preface_accepted (offered_route m) o Hr Hg) as [p' Hp].
    exists (offered_route m), (preface_bytes (offered_route m)), p', (route_checksum (offered_route m)).
    split; [|split; [apply preface_encode_layout|split; [exact Hp|apply route_checksum_u32]]].
    unfold tr_pipeline_control_wire_data_route. by rewrite Ht, (proj2 (fields_valid_legal m) Hl).
Qed.

(** The reservation [data] of the pipeline [q] is open to [preface] and to a connection of its own. *)
Lemma offered_open r h i q data preface c : shard_ok (r, h) → h !! i = Some q → di_routes (directory_of (r, h)) !! pl_pipeline_id q = Some i →
  legal_route preface → preface_ok preface → pf_role preface = TR_PIPELINE_ROUTE_DATA →
  pf_owner_shard_id preface = pl_owner_shard_id q → pf_pipeline_id preface = pl_pipeline_id q → pf_epoch preface = pl_epoch q →
  preface_data preface = data → no_control (group_of q) = false → reserved_as (group_of q) data = true →
  ch_reactor c = rg_owner r → in_use (group_of q) c = false →
  shard_refusal (directory_of (r, h)) (So_attach preface c) = None ∧
  target (directory_of (r, h)) preface = Some (i, listed_of q).
Proof.
  intros Hok Hq Hr Hlegal Hpf Hrole Hshard Hid Hepoch Hdata Hnc Hres Hc Hu.
  pose proof (entry_shard r h _ i q Hok Hr Hq) as Hss. pose proof (same_shard_owner r q Hss) as Howner.
  apply andb_true_iff in Hss as [_ Hss%Z.eqb_eq]. cbn in Hss, Howner.
  assert (target (directory_of (r, h)) preface = Some (i, listed_of q)) as Ht.
  { unfold target. rewrite Hid, Hr. cbn. rewrite lookup_fmap, Hq. cbn. by rewrite Hepoch, Z.eqb_refl. }
  split; [|done]. cbn [shard_refusal reason]. unfold foreign_connection. cbn [directory_of di_owner fst]. rewrite bool_decide_true by done. cbn [negb orelse].
  unfold route_refusal, preface_reasons, asks_target. rewrite (proj2 (route_fields_legal preface Hpf) Hlegal), Ht. change (is_ok TR_OK) with true.
  cbn [reason]. rewrite Hrole. cbn [directory_of di_shard fst]. rewrite Hshard, Hss, !Z.eqb_refl. cbn [negb orelse].
  change (ls_group (listed_of q)) with (group_of q). rewrite Hnc, Hdata, Hres. cbn [negb orelse].
  unfold refusal. cbn [reason]. rewrite Hnc, Hu, Hres. unfold foreign. cbn [group_of gr_owner]. by rewrite bool_decide_true by congruence.
Qed.

Lemma effect_attach_members g data c out g' : effect g (Po_attach data c) out g' →
  gr_members g' = <[dr_index data := Attached (dr_generation data) c]> (gr_members g).
Proof. by inversion 1. Qed.

(** So it attaches. *)
Lemma offered_attaches e other r h i q data preface c : shard_ok (r, h) → reaches e = true → preface_data preface = data → 0 ≤ pf_member_index preface →
  shard_refusal (directory_of (r, h)) (So_attach preface c) = None → target (directory_of (r, h)) preface = Some (i, listed_of q) →
  ∃ r' h' l, tr_pipeline_registry_attach_data_route e other (Some r) h (Some preface) c (Some zero_data_ref) = (TR_OK, Some r', h', Some data) ∧
    di_pipelines (directory_of (r', h')) !! i = Some l ∧
    gr_members (ls_group l) = <[dr_index data := Attached (dr_generation data) c]> (gr_members (group_of q)).
Proof.
  intros Hok He Hdata H0 Href Ht. unfold tr_pipeline_registry_attach_data_route. cbn [fmap option_fmap option_map].
  pose proof (attach_route_outcome other preface c (Some zero_data_ref) None (r, h) Hok H0) as H.
  pose proof (tr_reactor_call_reaches e (tr_pipeline_registry_attach_data_route_on_owner other preface c) ((r, h), Some zero_data_ref, None)) as Hr.
  rewrite He in Hr. rewrite Hr. destruct (tr_pipeline_registry_attach_data_route_on_owner _ _ _ _) as [ret [[[r' h'] dout] pout]].
  destruct H as [[Hok' H] [Hd _]]. rewrite Href in H. destruct H as [-> (i' & l & Ht' & l' & g & Hl' & Heff & Hdir)].
  rewrite Ht in Ht'. injection Ht' as <- <-. change (is_ok TR_OK) with true in Hd. cbn in Hd. rewrite Hd, Hdata.
  exists r', h', (ls_set_group l' g). split; [done|]. rewrite Hdir. cbn [di_set di_pipelines]. rewrite lookup_insert_eq. split; [done|].
  cbn [ls_set_group ls_group]. apply effect_attach_members in Heff. rewrite Heff, Hdata. f_equal.
  unfold target in Ht. destruct (di_routes _ !! _) as [j|]; [|done]. cbn in Ht, Hl'. destruct ((listed_of <$> h) !! j) as [l0|] eqn:E0; [|done]. cbn in Ht.
  destruct (ls_epoch l0 =? _); [|done]. injection Ht as -> ->. rewrite E0 in Hl'. by injection Hl' as <-.
Qed.

(** ** The theorem *)

(** C17: the offer of a session leads where it should: if the pipeline can make a reservation, the 48
    bytes decode, at the peer, to an offer, whose route, encoded and parsed by the side that accepts
    the connection, is a preface with which the registry attaches any free connection of the shard to
    the very slot that was reserved, and answers that slot.  Otherwise the pipeline's refusal is
    answered and nothing changes. *)
Theorem control_offer_attaches e e' other k r h i p om ro o : shard_ok (r, h) → session_ok k r h i p → reaches e = true → reaches e' = true →
  let '(ret, h', out) := tr_pipeline_control_reserve_data_wire e (Some k) h (Some []) in
  match refusal (group_of p) Po_reserve with
  | Some refused => ret = refused ∧ ret ≠ TR_OK ∧ h' = h
  | None => ret = TR_OK ∧ ∃ bytes m route raw parser preface data, out = Some bytes ∧ gr_members (group_of p) !! dr_index data = None ∧
      tr_pipeline_control_wire_decode (Some bytes) 48 (Some om) = (TR_OK, Some m) ∧
      tr_pipeline_control_wire_data_route (Some m) (Some ro) = (TR_OK, Some route) ∧
      tr_pipeline_route_preface_encode (Some []) (Some route) = (TR_OK, Some raw) ∧
      tr_pipeline_route_parser_feed (Some zero_route_parser) (Some raw) 48 (Some 0) (Some o) (Some 0) =
        (TR_OK, Some parser, Some 48, Some preface, Some 1) ∧
      ∀ c, ch_reactor c = rg_owner r → in_use (group_of p) c = false →
        ∃ r'' h'' l, tr_pipeline_registry_attach_data_route e' other (Some r) h' (Some preface) c (Some zero_data_ref) =
            (TR_OK, Some r'', h'', Some data) ∧
          di_pipelines (directory_of (r'', h'')) !! i = Some l ∧
          gr_members (ls_group l) = <[dr_index data := Attached (dr_generation data) c]> (gr_members (group_of p))
  end.
Proof.
  intros Hok Hk He He'. unfold tr_pipeline_control_reserve_data_wire, tr_pipeline_control_reserve_data_wire_ex, no_session.
  rewrite (sk_pipeline _ _ _ _ _ Hk). rewrite !(bool_decide_true (is_Some _)) by done. cbn [negb orb fmap option_fmap option_map].
  pose proof (tr_reactor_call_reaches e (tr_pipeline_control_reserve_data_wire_on_owner (Some k)) (h, None, wire_zeros)) as Hr.
  rewrite He in Hr. rewrite Hr. pose proof (reserve_wire_spec k r h i p None wire_zeros Hok Hk) as H.
  pose proof (sk_at _ _ _ _ _ Hk) as Hp. destruct (refusal (group_of p) Po_reserve) as [x|] eqn:Eref; [by destruct H as [Hne ->]|].
  destruct H as (q & data & Hq & Hid & Heff & Hm & Hl & ->). set (m := tr_pipeline_control_wire_identity _ _ _ _ _) in *.
  destruct (put_shard r h Hok i p q Hp Hq Hid) as [Hok' _]. pose proof (effect_reserve_lookup _ _ _ Heff) as (Hctl & Hfree & Hidx & Hmem).
  destruct (offer_preface m om ro o Hm Hl eq_refl) as [Hdec (route & raw & parser & crc & H1 & H2 & H3 & Hcrc)].
  split; [done|]. exists (control_bytes m), m, route, raw, parser, (with_route_crc (offered_route m) crc), data.
  split; [done|]. split; [done|]. split; [done|]. split; [done|]. split; [done|]. split; [done|]. intros c Hc Hu.
  destruct (offered_route_legal m Hm Hl eq_refl) as [Hpf Hlegal].
  assert (preface_data (with_route_crc (offered_route m) crc) = data) as Hdata by by destruct data.
  injection Hid as I1 I2 I3 I4.
  assert (no_control (group_of q) = false) as Hnc.
  { unfold no_control. rewrite Hctl. unfold refusal in Eref. cbn [reason] in Eref. unfold no_control in Eref. by destruct (bool_decide _). }
  assert (reserved_as (group_of q) data = true) as Hres by (unfold reserved_as; rewrite Hmem, lookup_insert_eq; by apply bool_decide_true).
  assert (in_use (group_of q) c = false) as Huq.
  { unfold in_use in *. rewrite Hctl. unfold connected in *. rewrite Hmem. rewrite orb_false_iff, !bool_decide_eq_false in *. destruct Hu as [Hu1 Hu2].
    split; [done|]. intros (j & m' & Hj & Hc'). apply lookup_insert_Some in Hj as [[_ <-]|[_ Hj]]; [done|]. apply Hu2. by exists j, m'. }
  destruct (offered_open r (<[i := q]> h) i q data (with_route_crc (offered_route m) crc) c) as [Hopen Htarget]; try done.
  - apply lookup_insert_eq.
  - rewrite I3. exact (sk_route _ _ _ _ _ Hk).
  - by apply legal_route_crc.
  - destruct Hpf. by split.
  - destruct (offered_attaches e' other r (<[i := q]> h) i q data (with_route_crc (offered_route m) crc) c) as (r'' & h'' & l & A1 & A2 & A3); try done.
    + exact (proj1 Hidx).
    + exists r'', h'', l. split; [done|]. split; [done|]. rewrite A3, Hmem. by rewrite insert_insert_eq.
Qed.

(** ** Creation *)

Lemma register_control_heap other i c s : delete i (tr_pipeline_registry_register_control_on_owner other (Some i) c s).2.2 = delete i s.2.
Proof.
  destruct s as [r h]. unfold tr_pipeline_registry_register_control_on_owner.
  assert (∀ q, delete i (put_pipeline h (Some i) q) = delete i h) as Hput.
  { intros [q|]; [|done]. cbn. by rewrite delete_insert_eq. }
  repeat case_match; simplify_eq/=; done || apply Hput.
Qed.

(** The values of the configuration's C types, with capacities for which indices do not wrap. *)
Definition control_config_ok (c : tr_pipeline_control_config) : Prop :=
  u64_ok (cc_pipeline_id c) ∧ u64_ok (cc_epoch c) ∧ 0 ≤ cc_data_capacity c ≤ 2 ^ 31 ∧ 0 ≤ cc_stream_affinity_capacity c ≤ 2 ^ 31.

(** Why a session does not come up. *)
Definition create_refusal (d : directory) (c : tr_pipeline_control_config) (connection : tr_conn_handle) (memory : bool) : option tr_status :=
  reason [((cc_pipeline_id c =? 0) || (cc_epoch c =? 0) || (cc_data_capacity c =? 0) || (cc_stream_affinity_capacity c =? 0), TR_ERR_INVALID);
    ((di_shard d =? UINT32_MAX) || foreign_connection d connection, TR_ERR_INVALID); (negb memory, TR_ERR_NOMEM);
    (known d (cc_pipeline_id c), TR_ERR_STATE); (di_full d, TR_AGAIN)].

Lemma effect_set_control g c out g' : effect g (Po_set_control c) out g' → gr_control g' = Some c ∧ gr_members g' = gr_members g ∧ gr_capacity g' = gr_capacity g.
Proof. by inversion 1. Qed.

(** Publishing a new pipeline. *)
Lemma register_new e other r h i p c : shard_ok (r, h) → h !! i = None → pipeline_ok p → members (pl_data_slots p) = ∅ →
  pl_control_bound p = false → same_shard r (Some p) = true → ch_reactor c = rg_owner r →
  let '(ret, r', h') := tr_pipeline_registry_register_control e other (Some r) (<[i := p]> h) (Some i) c in
  match reason [(known (directory_of (r, h)) (pl_pipeline_id p), TR_ERR_STATE); (di_full (directory_of (r, h)), TR_AGAIN)] with
  | Some refused => ret ≠ TR_OK ∧ (reaches e = true → ret = refused) ∧ r' = Some r ∧ delete i h' = h
  | None => if reaches e then ret = TR_OK ∧ ∃ r'' q, r' = Some r'' ∧ shard_ok (r'', h') ∧ h' !! i = Some q ∧ delete i h' = h ∧
        live_routes r'' = <[pl_pipeline_id p := i]> (live_routes r) ∧ gr_control (group_of q) = Some c ∧ gr_members (group_of q) = ∅ ∧
        pl_pipeline_id q = pl_pipeline_id p ∧ pl_owner_shard_id q = pl_owner_shard_id p ∧ pl_epoch q = pl_epoch p ∧
        pl_data_capacity q = pl_data_capacity p
      else ret ≠ TR_OK ∧ r' = Some r ∧ delete i h' = h
  end.
Proof.
  intros Hok Hi Hp Hm Hb Hss Hc. pose proof Hss as [Ho Hsh]%andb_true_iff. apply bool_decide_eq_true in Ho. apply Z.eqb_eq in Hsh. cbn in Ho, Hsh.
  assert (shard_ok (r, <[i := p]> h)) as Hok1.
  { split; [apply Hok|apply Hok|apply Hok| |]; cbn [fst snd].
    - intros id ptr H. destruct (rk_live _ Hok id ptr H) as (j & q & -> & Hq & Hid & Hs). cbn [fst snd] in *. exists j, q.
      rewrite lookup_insert_ne; [done|]. intros ->. congruence.
    - intros j q H. apply lookup_insert_Some in H as [[_ <-]|[_ H]]; [done|]. by apply (rk_pipelines _ Hok j). }
  assert ((<[i := p]> h) !! i = Some p) as Hpi by apply lookup_insert_eq.
  pose proof (shard_exec_answered e other (So_register_control i c) r (<[i := p]> h) Hok1 ltac:(by eexists)) as H. cbn [shard_exec] in H.
  assert (delete i (<[i := p]> h) = h) as Hdel by (rewrite delete_insert_eq; by apply delete_id).
  assert (shard_refusal (directory_of (r, <[i := p]> h)) (So_register_control i c) =
    reason [(known (directory_of (r, h)) (pl_pipeline_id p), TR_ERR_STATE); (di_full (directory_of (r, h)), TR_AGAIN)]) as Href.
  { cbn [shard_refusal]. rewrite (asks_at r _ i p _ Hpi). cbn [reason]. change (foreign_pipeline _ (listed_of p)) with (negb (same_shard r (Some p))).
    unfold foreign_connection. cbn [directory_of di_owner fst]. rewrite Hss, bool_decide_true by done. cbn [negb orb].
    change (known _ (ls_id (listed_of p))) with (known (directory_of (r, h)) (pl_pipeline_id p)).
    change (di_full (directory_of (r, <[i := p]> h))) with (di_full (directory_of (r, h))).
    destruct (known _ _); [done|]. destruct (di_full _); [done|]. cbn [orelse]. change (ls_group (listed_of p)) with (group_of p).
    unfold refusal. cbn [reason]. rewrite no_control_spec, Hb. unfold foreign, connected. cbn [group_of gr_owner gr_members].
    rewrite bool_decide_true by congruence. rewrite Hm. cbn [negb orb]. rewrite bool_decide_false; [done|]. intros (j & m & Hj & _). done. }
  assert (delete i (tr_pipeline_registry_register_control e other (Some r) (<[i := p]> h) (Some i) c).2 = h) as Hheap.
  { unfold tr_pipeline_registry_register_control. rewrite bool_decide_true by done. cbn [negb registry_call].
    pose proof (register_control_heap other i c (r, <[i := p]> h)) as H1. cbn [snd] in H1. rewrite Hdel in H1.
    pose proof (tr_reactor_call_keeps (λ s : shard, delete i s.2 = h) e (tr_pipeline_registry_register_control_on_owner other (Some i) c) (r, <[i := p]> h) Hdel H1) as H2.
    by destruct (tr_reactor_call e _ _) as [ret [r' h']]. }
  destruct (tr_pipeline_registry_register_control e other (Some r) (<[i := p]> h) (Some i) c) as [[ret r'] h']. cbn [snd] in Hheap.
  destruct H as (r'' & -> & H). unfold shard_outcome in H. rewrite Href in H. clear Href. destruct (reason _).
  - destruct (reaches e); [destruct H as (_ & -> & Hne & [= -> ->])|destruct H as [Hne [= -> ->]]]; by split_and!.
  - destruct (reaches e); [|by destruct H as [Hne [= -> ->]]]. destruct H as [Hok' [-> (l & g & Hl & He & Hd)]]. split; [done|].
    assert (l = listed_of p) as -> by (cbn in Hl; rewrite lookup_fmap, Hpi in Hl; by injection Hl).
    assert ((listed_of <$> h') !! i = Some (ls_set_group (listed_of p) g)) as Hq.
    { change (listed_of <$> h') with (di_pipelines (directory_of (r'', h'))). rewrite Hd. cbn [di_set di_pipelines]. apply lookup_insert_eq. }
    rewrite lookup_fmap in Hq. destruct (h' !! i) as [q|] eqn:Eq'; [|done]. cbn in Hq. injection Hq as E1 E2 E3 Eg.
    destruct (effect_set_control _ _ _ _ He) as (G1 & G2 & G3). exists r'', q. rewrite Eg, G1, G2. split_and!; try done.
    + change (live_routes r'') with (di_routes (directory_of (r'', h'))). rewrite Hd. cbn [di_set di_routes]. by rewrite (id_at _ _ i p Hpi).
    + change (pl_data_capacity q) with (gr_capacity (group_of q)). by rewrite Eg, G3.
Qed.

Lemma create_cases c alloc slots table : is_Some (pg_owner c) → pg_owner_shard_id c ≠ UINT32_MAX → pg_pipeline_id c ≠ 0 → pg_epoch c ≠ 0 →
  pg_data_capacity c ≠ 0 → pg_stream_affinity_capacity c ≠ 0 →
  if alloc && slots && table then ∃ p, tr_pipeline_create (Some c) true alloc slots table = (TR_OK, Some p) ∧
    pl_owner p = pg_owner c ∧ pl_owner_shard_id p = pg_owner_shard_id c ∧ pl_pipeline_id p = pg_pipeline_id c ∧
    pl_epoch p = pg_epoch c ∧ pl_data_capacity p = pg_data_capacity c ∧ pl_control_bound p = false
  else tr_pipeline_create (Some c) true alloc slots table = (TR_ERR_NOMEM, None).
Proof.
  intros H1 H2 H3 H4 H5 H6. unfold tr_pipeline_create. rewrite bool_decide_true by done. cbn [negb orb].
  rewrite !(proj2 (Z.eqb_neq _ _)) by done. cbn [orb]. destruct alloc, slots, table; cbn; try done. by eexists.
Qed.

(** a CONTROL session comes up entirely or not at all: when the owner is reached it is refused exactly
    for a field that is zero, a connection or registry that does not fit, memory, an id that is
    already registered, or a full registry, in this order of precedence; then nothing is left of the
    pipeline that was made.  Otherwise the pipeline is in the registry under its id, with the
    CONTROL bound and no member. *)
Theorem control_create_atomic e other r h c connection control abort pipeline slots table i : shard_ok (r, h) → h !! i = None →
  control_config_ok c → u32_ok (rg_owner_shard_id r) →
  let '(ret, k, r', h') := tr_pipeline_control_create e other (Some r) h (Some c) connection true control abort pipeline slots table i in
  match create_refusal (directory_of (r, h)) c connection (control && abort && pipeline && slots && table) with
  | Some refused => ret ≠ TR_OK ∧ (reaches e = true → ret = refused) ∧ k = None ∧ r' = Some r ∧ h' = h
  | None => if reaches e then ret = TR_OK ∧ ∃ k' r'' q, k = Some k' ∧ r' = Some r'' ∧ shard_ok (r'', h') ∧ delete i h' = h ∧
        session_ok k' r'' h' i q ∧ live_routes r'' = <[cc_pipeline_id c := i]> (live_routes r) ∧
        gr_control (group_of q) = Some connection ∧ gr_members (group_of q) = ∅
      else ret ≠ TR_OK ∧ k = None ∧ r' = Some r ∧ h' = h
  end.
Proof.
  intros Hok Hi (C1 & C2 & C3 & C4) Hshard. unfold tr_pipeline_control_create, create_refusal. cbn [reason]. cbn [negb tr_pipeline_registry_owner].
  destruct (_ || _ || _ || _) eqn:E0; [by split_and!|]. rewrite !orb_false_iff, !Z.eqb_neq in E0. destruct E0 as [[[Z1 Z2] Z3] Z4].
  unfold tr_pipeline_registry_owner_shard_id, foreign_connection. cbn [directory_of di_shard di_owner fst]. pose proof (rk_owner _ Hok) as Ho. cbn [fst] in Ho.
  rewrite (bool_decide_true (is_Some _)) by done. cbn [negb orb].
  destruct (_ || _) eqn:E1; [by split_and!|]. rewrite orb_false_iff, Z.eqb_neq, negb_false_iff, bool_decide_eq_true in E1. destruct E1 as [S1 Hc].
  destruct control; cbn [negb andb]; [|by split_and!]. destruct abort; cbn [negb andb]; [|by split_and!].
  set (pc := mk_pipeline_config _ _ _ _ _ _). pose proof (create_cases pc pipeline slots table Ho S1 Z1 Z2 Z3 Z4) as Hcreate.
  destruct (pipeline && slots && table) eqn:Emem; cbn [negb]; [|rewrite Hcreate; by split_and!].
  apply andb_true_iff in Emem as [[-> ->]%andb_true_iff ->]. destruct Hcreate as (p' & Ec & P1 & P2 & P3 & P4 & P5 & P6). rewrite Ec.
  cbn [pc pg_owner pg_owner_shard_id pg_pipeline_id pg_epoch pg_data_capacity] in P1, P2, P3, P4, P5.
  change (is_ok TR_OK) with true. cbn [negb]. destruct (tr_pipeline_create_ok pc _ _ _ _ p' ltac:(by split) Ec) as (Hp & Hm & _).
  assert (same_shard r (Some p') = true) as Hss by (unfold same_shard; cbn; rewrite P1, P2, Z.eqb_refl, bool_decide_true by done; done).
  pose proof (register_new e other r h i p' connection Hok Hi Hp Hm P6 Hss Hc) as H. rewrite P3 in H.
  destruct (tr_pipeline_registry_register_control _ _ _ _ _ _) as [[ret r'] h'].
  change (if known (directory_of (r, h)) (cc_pipeline_id c) then Some TR_ERR_STATE else if di_full (directory_of (r, h)) then Some TR_AGAIN else None)
    with (reason [(known (directory_of (r, h)) (cc_pipeline_id c), TR_ERR_STATE); (di_full (directory_of (r, h)), TR_AGAIN)]).
  destruct (reason _).
  - destruct H as (Hne & Hret & -> & ->). rewrite (proj2 (is_ok_false _) Hne). by split_and!.
  - destruct (reaches e); [|destruct H as (Hne & -> & ->); rewrite (proj2 (is_ok_false _) Hne); by split_and!].
    destruct H as (-> & r'' & q & -> & Hok'' & Hq & Hdel & Hroutes & G1 & G2 & I1 & I2 & I3 & I4). change (is_ok TR_OK) with true. cbn [negb].
    split; [done|]. eexists _, r'', q. split; [done|]. split; [done|]. split; [done|]. split; [done|]. split; [|done].
    split; cbn [pc_registry pc_pipeline pc_data_capacity pc_abort_data]; [done|done|done| |congruence| |].
    + rewrite I1. change (di_routes _) with (live_routes r''). rewrite Hroutes. apply lookup_insert_eq.
    + eexists. split; [done|]. unfold alen. rewrite length_replicate. rewrite I4, P5. lia.
    + unfold identity_ok. rewrite I1, I2, I3, P2, P4. by split_and!.
Qed.

(** ** The hypotheses can hold *)

#[local] Abbreviation no_registry := (mk_registry None 0 [] 0 0).
#[local] Abbreviation no_control_session := (mk_control false None None 0).
#[local] Abbreviation no_pipeline := (mk_pipeline None 0 0 0 false zero_conn [] 0 0 0 0 [] 0 0).
#[local] Abbreviation demo_registry := (default no_registry (tr_pipeline_registry_create (Some demo_registry_config) true true true).2).
Definition demo_control_config : tr_pipeline_control_config := mk_control_config 77 5 2 2.
#[local] Abbreviation demo_create :=
  (tr_pipeline_control_create from_owner from_owner (Some demo_registry) ∅ (Some demo_control_config) (demo_conn 9) true true true true true true 1).
#[local] Abbreviation demo_session := (default no_control_session demo_create.1.1.2).
#[local] Abbreviation demo_shard := (default no_registry demo_create.1.2).
#[local] Abbreviation demo_pipeline := (default no_pipeline (demo_create.2 !! 1%nat)).

Lemma demo_registry_ok : shard_ok (demo_registry, ∅).
Proof. by apply (registry_create_ok demo_registry_config true true true). Qed.

Lemma demo_control_config_ok : control_config_ok demo_control_config.
Proof. unfold control_config_ok. cbn. word_lia. Qed.

Lemma control_create_atomic_witness : demo_create.1.1.1 = TR_OK ∧
  shard_ok (demo_shard, demo_create.2) ∧ session_ok demo_session demo_shard demo_create.2 1 demo_pipeline.
Proof.
  pose proof (control_create_atomic from_owner from_owner demo_registry ∅ demo_control_config (demo_conn 9) true true true true true 1
    demo_registry_ok eq_refl demo_control_config_ok ltac:(vm_compute; split; congruence)) as H.
  assert (create_refusal (directory_of (demo_registry, ∅)) demo_control_config (demo_conn 9) (true && true && true && true && true) = None) as E
    by (vm_compute; reflexivity).
  rewrite E in H. change (reaches from_owner) with true in H. destruct demo_create as [[[ret k] r'] h'].
  destruct H as (-> & k' & r'' & q & -> & -> & Hok & _ & Hk & _). split; [reflexivity|]. split; [exact Hok|].
  cbn. rewrite (sk_at _ _ _ _ _ Hk). exact Hk.
Defined.

(** The session of the other examples. *)
#[local] Abbreviation demo_made :=
  (default no_pipeline (tr_pipeline_create (Some (mk_pipeline_config (Some 0%nat) 3 77 5 2 2)) true true true true).2).

Lemma demo_session_shard_ok : shard_ok (demo_shard, demo_create.2).
Proof.
  apply (shard_step_ok (demo_registry, <[1%nat := demo_made]> ∅)).
  - apply (Step_request from_owner from_owner (So_register_control 1 (demo_conn 9)) demo_registry (<[1%nat := demo_made]> ∅) TR_OK);
      [by eexists|vm_compute; reflexivity].
  - apply (shard_step_ok (demo_registry, ∅)); [|exact demo_registry_ok].
    by apply (Step_create (mk_pipeline_config (Some 0%nat) 3 77 5 2 2) true true true); [|unfold config_small; cbn; lia|].
Qed.

Lemma demo_session_ok : session_ok demo_session demo_shard demo_create.2 1 demo_pipeline.
Proof.
  split; [vm_compute; reflexivity..| |].
  - exists [zero_attached; zero_attached]. split; vm_compute; reflexivity.
  - unfold identity_ok. vm_compute. split_and!; congruence.
Qed.

Lemma control_offer_attaches_witness : (tr_pipeline_control_reserve_data_wire from_owner (Some demo_session) demo_create.2 (Some [])).1.1 = TR_OK.
Proof.
  pose proof (control_offer_attaches from_owner from_owner from_owner demo_session demo_shard demo_create.2 1 demo_pipeline
    zero_control_message zero_preface zero_preface demo_session_shard_ok demo_session_ok eq_refl eq_refl) as H.
  assert (refusal (group_of demo_pipeline) Po_reserve = None) as E by (vm_compute; reflexivity). rewrite E in H.
  destruct (tr_pipeline_control_reserve_data_wire _ _ _ _) as [[ret h'] out]. apply H.
Defined.

Lemma control_abort_complete_witness :
  (tr_pipeline_control_abort from_owner from_owner demo_session (demo_conn 9) demo_shard demo_create.2).1 = TR_OK ∧
  (tr_pipeline_control_abort from_owner from_owner demo_session (demo_conn 8) demo_shard demo_create.2).1 = TR_ERR_STALE.
Proof.
  pose proof (control_abort_complete from_owner from_owner demo_session (demo_conn 9) demo_shard demo_create.2 1 demo_pipeline
    demo_session_shard_ok demo_session_ok eq_refl ltac:(vm_compute; reflexivity)) as H1.
  pose proof (control_abort_complete from_owner from_owner demo_session (demo_conn 8) demo_shard demo_create.2 1 demo_pipeline
    demo_session_shard_ok demo_session_ok eq_refl ltac:(vm_compute; reflexivity)) as H2.
  assert (gr_control (group_of demo_pipeline) = Some (demo_conn 9)) as E by (vm_compute; reflexivity). rewrite E in H1, H2.
  rewrite bool_decide_true in H1 by reflexivity. rewrite bool_decide_false in H2 by discriminate.
  destruct (tr_pipeline_control_abort from_owner from_owner demo_session (demo_conn 9) _ _) as [ret1 s1].
  destruct (tr_pipeline_control_abort from_owner from_owner demo_session (demo_conn 8) _ _) as [ret2 s2]. split; [apply H1|apply H2].
Defined.
